(* ===== verification/_CoqProject ===== *)
-Q . S2P
Prelude.v
Region.v
Boost.v
StateMonad.v
DataAccessType.v
RegionMap.v
RegionMapProofs.v
IntrusiveRegionMap.v
IntrusiveRegionMapProofs.v
IntrusiveRegionMapViews.v
DiscreteDeps.v
DiscreteProofs.v
DiscreteProtocol.v
DiscreteHandlers.v
DiscreteTheorems.v
FragmentedAccess.v
ReductionInfo.v
FragmentedWorld.v
FragmentedDeps.v
FragmentedProtocol.v
FragmentedInvariant.v
FragmentedPotential.v
FragmentedObs.v
FragmentedRun.v
FragmentedPropagation.v
FragmentedWaiting.v
FragmentedContract.v
FragmentedCheck.v
FragmentedRegistration.v
FragmentedSteady.v
FragmentedCoverage.v
FragmentedInitial.v
FragmentedLinking.v
FragmentedCreation.v
FragmentedTheorems.v
Multidimensional.v
Taskloop.v
TaskloopProofs.v
TaskLifecycle.v
TaskProtocol.v
TaskHandlers.v
TaskTheorems.v
CpuManager.v
CpuActivation.v
Scheduler.v
SchedulerProofs.v
PriorityScheduler.v
QueueSchedulers.v
HeapSchedulers.v
NaiveSchedulers.v
NumaScheduler.v
TreeScheduler.v
TreeProofs.v
TreeTheorems.v
Locks.v
TicketLocks.v
RWLocks.v
ThreadPrimitives.v
UserMutex.v
Polling.v
WorkerThreads.v
WorkerCpus.v
WorkerTasks.v
WorkerRefs.v
WorkerProofs.v
WorkerSafety.v
VirtualMemory.v
MemoryPools.v
MemoryPoolProofs.v
ObjectCaches.v
InlineList.v
HierarchicalSchedulers.v
CpuLists.v
UnorderedList.v
