(* ===== verification/Prelude.v ===== *)
(** * Verification of the Nanos6 runtime

    Nanos6 is the runtime of the OmpSs-2 programming model, written in C++.  The compiler turns
    a program into calls of its interface: tasks are created with the data they access, become
    ready when the older tasks they depend on are done, are queued by a scheduler, run by the
    worker threads of the CPUs, and are destroyed when they and their children are done.  This
    library models the parts of the runtime that carry that logic and proves them correct.
    Paths below are relative to [src/src/] of the repository.

    ** The program and its parts

    - _Creation_: [nanos6_create_task] and [nanos6_submit_task] of [system/ompss/AddTask.cpp]
      link a task to its parent and register its accesses.
    - _Dependencies_: one of several implementations under [dependencies/] orders the accesses
      and tells when a task is ready.  The default one, linear-regions-fragmented, and the
      discrete one are modelled in full, over the maps of regions of
      [dependencies/linear-regions/].
    - _Scheduling_: [scheduling/Scheduler.cpp] is the client of the [SchedulerInterface] that the
      classes of [scheduling/schedulers/] implement.  An idle thread polls on a slot, and a
      scheduler that receives a task may write it there instead of queueing it.
    - _Execution_: [executors/threads/] has the worker threads, the manager of CPUs (which ones
      exist, which ones are idle), their activation, and the end of a task, which releases its
      accesses, and in turn schedules the tasks that become ready.
    - _Taskloops_: a taskloop is one task whose iterations are shared by several CPUs.
    - _Waiting_: [system/ompss/TaskWait.cpp], [system/ompss/TaskBlocking.cpp] and
      [system/EventsAPI.cpp] block a task on its children or hold its release for events;
      [system/ompss/UserMutex.cpp] has the locks of critical sections.
    - _Memory_: [memory/] has the areas of virtual memory of the NUMA nodes, the pools of memory of
      each size and CPU over them, and the caches of objects over the pools.
    - _Locks_: [lowlevel/] has spin locks, ticket locks, read-write locks and condition variables;
      [system/PollingAPI.cpp] the services that are called periodically.

    ** Files

    - [Prelude]: machine integers, the error monad [res], tactics, the hint database [nanos6],
      lemmas on sorted lists and on counting.
    - [Boost]: [boost::intrusive::avl_set], [boost::intrusive::list] and
      [boost::dynamic_bitset] as classes of operations with laws, and list instances.
    - [Region]: [DataAccessRegion] of [dependencies/linear-regions/DataAccessRegion.hpp].
    - [RegionMap], [RegionMapProofs]: [LinearRegionMap] and its implementation header.
    - [StateMonad]: computations with a state and errors, their weakest preconditions, and
      preconditions through an abstraction of the state.
    - [IntrusiveRegionMap]: [IntrusiveLinearRegionMap], whose closures change the state that the
      map is part of.  [IntrusiveRegionMapProofs] has its rules on states,
      [IntrusiveRegionMapViews] on abstractions of them.
    - [DataAccessType], [FragmentedAccess], [FragmentedWorld], [ReductionInfo]: the data of
      [dependencies/linear-regions-fragmented/], and [FragmentedDeps] the functions of its
      [DataAccessRegistration.cpp], [RegisterDependencies.cpp], [ReleaseDirective.cpp] and
      [Reductions.cpp].  [FragmentedProtocol] has the steps that they are made of,
      [FragmentedInvariant] their invariants, [FragmentedPotential] the measure of the
      propagation; [FragmentedObs], [FragmentedRun], [FragmentedPropagation] and
      [FragmentedWaiting] show that the functions are runs of the protocol;
      [FragmentedRegistration] is about the declarations of a task, [FragmentedContract] about
      what a run schedules, [FragmentedCheck] decides the invariants on examples.
      [FragmentedSteady], [FragmentedCoverage], [FragmentedInitial], [FragmentedLinking] and
      [FragmentedCreation] follow a new task from its declarations to the links to the
      accesses of its siblings and of its parent; [FragmentedTheorems] has the properties.
    - [Multidimensional]: how regions of arrays become linear regions
      ([dependencies/MultidimensionalAPITraversal.hpp], [MultidimensionalAPI.hpp]).
    - [DiscreteDeps]: [dependencies/discrete/]: a heap of accesses, sequences and tasks with the
      functions of [DataAccessSequenceImplementation.hpp], [DataAccessImplementation.hpp],
      [DataAccessRegistration.hpp] and [RegisterDependencies.cpp].  [DiscreteProofs] has the
      invariant of the heap and the effect of each function on it; [DiscreteProtocol] the
      interleavings of registration, release and notification; [DiscreteHandlers] shows that
      the whole functions are runs of the protocol; [DiscreteTheorems] has the properties.
    - [Taskloop], [TaskloopProofs]: [tasks/Taskloop.hpp], [Taskloop.cpp], [TaskloopInfo.hpp] and
      [TaskloopLogic.hpp].
    - [TaskLifecycle]: [tasks/Task.hpp] and [TaskImplementation.hpp] (the counters),
      [executors/threads/TaskFinalizationImplementation.hpp], the end of
      [WorkerThread::handleTask], taskwaits and events, over the class [TaskDependencies] of what
      they call of a dependency system, which may hold a task back through its counter.
      [TaskProtocol] has the interleavings and the invariant, [TaskHandlers] the promises of a
      dependency system ([TaskDependenciesLaws]) and the whole functions as runs of the
      protocol, [TaskTheorems] the properties.
    - [CpuManager]: [executors/threads/CPUManager.hpp] and [CPUManager.cpp].
    - [CpuActivation]: [executors/threads/CPUActivation.hpp] and [CPU.hpp].  [CpuLists]: the lists of
      CPUs that [CPUManager.cpp] prints.
    - [Scheduler]: the interface, as the class [SchedulerInterface] with its laws
      [SchedulerLaws], the class [IdleCPUs] of what schedulers need of the manager of CPUs, and
      the interleavings of their clients.  [SchedulerProofs] proves conservation of tasks once,
      against the laws.
    - [PriorityScheduler], [QueueSchedulers], [HeapSchedulers]: the default scheduler, the family
      with immediate successors, and the two with [std::priority_queue]; each discharges the laws.
      [NaiveSchedulers]: the naive and the FIFO scheduler with the taskloops in their queues.
    - [NumaScheduler]: [NUMAHierarchicalScheduler.cpp], over any scheduler of the nodes with the laws.
      [HierarchicalSchedulers]: the schedulers of a node and of the host over it, the one of the
      GPUs, and [SchedulerGenerator.cpp], which chooses among them.
    - [TreeScheduler]: [TreeScheduler.cpp] and [tree-scheduler/], with calls as stacks of parts that
      interleave; [TreeProofs] has what each part keeps, [TreeTheorems] the runs and the
      properties.
    - [Locks]: what a lock promises, as a class of refinements of a mutex, and the spin lock of
      [lowlevel/cxx/]; [TicketLocks]: the ticket lock; [RWLocks]: the locks for readers and
      writers, over any lock; [ThreadPrimitives]: the condition variable of the kernel threads and
      the pointer that is initialized once.
    - [UserMutex]: [system/ompss/UserMutex.cpp]; [Polling]: [system/PollingAPI.cpp].
    - [WorkerThreads]: [executors/threads/WorkerThread.cpp], its implementation headers,
      [ThreadManager.hpp], [ThreadManagerPolicy.hpp], [TaskBlocking.cpp], [BlockingAPI.cpp] and
      [If0Task.hpp] as one world of threads, CPUs and tasks.  [WorkerCpus], [WorkerTasks] and
      [WorkerRefs] have its three invariants (who holds a CPU, where a task is, who is to resume
      a thread), [WorkerProofs] that every operation keeps them, [WorkerSafety] the properties.
    - [VirtualMemory]: [memory/vmm/]; [MemoryPools], [MemoryPoolProofs]: [MemoryPoolGlobal.hpp],
      [MemoryPool.hpp] and [MemoryAllocator.cpp] of [memory/allocator/pool/]; [ObjectCaches]: its
      [ObjectCache.hpp], [CPUObjectCache.hpp] and [NUMAObjectCache.hpp].
    - [InlineList], [UnorderedList]: [InlineDoublyLinkedList.hpp] and [ConcurrentUnorderedList.hpp] of
      [support/].

    ** Conventions

    - Sizes and addresses are [Z] with the wrap-around [wrap64] written where the code computes
      them, the counters [std::atomic<int>] with [wrap_int].  Theorems that need the absence of
      wrap-around say so with a bound; [TaskloopProofs] and [ObjectCaches] show what happens
      without it.
    - A pointer is an identifier and the memory a finite map; reading a null or a deleted object
      is [Err Dangling], [FatalErrorHandler::failIf] is [Err (Fatal msg)].  Assertions are not
      compiled in a release build, so they are not guards of the model; the theorems prove what
      they state where it matters, as invariants.
    - Loops that are not structural take fuel and yield [Err OutOfFuel].  The theorems on whole
      functions state that they return: the walk of a sequence with as much fuel as it has
      accesses, the end of a task with as much as there are tasks (every round
      but the last destroys one and goes on with its parent), the executor of a taskloop with as much as there are
      iterations and partitions (every round takes one iteration or closes one partition), the
      collection of idle CPUs with as much as there are idle CPUs, the propagation of the default
      dependencies with as much as the potential of the state (the bits that are still to be set,
      by the sizes of the regions, and the queue), and its recursion with a depth above the number of
      tasks.
    - Threads are interleavings of atomic steps.  A step is what the code does under one lock or
      with one atomic operation, and what a thread has still to do is part of the state, so that
      nothing is assumed about the order in which threads get on.  The memory is sequentially
      consistent.
    - Third-party containers are parameters with their documented behaviour as laws.  The
      instances show that the laws can hold and make the witnesses executable.
    - Calls of the instrumentation are left out: they do not change the state of the runtime.

    ** What the theorems show

    - _Default dependencies_: the registration of a new task, the end of a task, the early release of
      a region and the entry of a taskwait succeed and return, keep the maps of regions, the links and the counts of
      predecessors consistent, and hand to the scheduler exactly the tasks whose last
      unsatisfied access they satisfied; they apply their own operation to every access it is for
      and propagate it until nothing is left to propagate; the propagation terminates; the declarations of a task
      combine address by address, and a registered task has exactly their accesses, all linked.
      The theorems are on programs without reductions, on accesses that are linked, and on sizes
      that fit the counters; each says so.
    - _Discrete dependencies_: under every interleaving a task is handed to the scheduler exactly
      once, when all its strong accesses are satisfied; an access is satisfied exactly when it
      is compatible with all the older ones; the oldest task is never stuck; the registration
      and the release succeed and are runs of the protocol.  The protocol is that of the
      sequences of the dependency domains: tasks that access each address once, at addresses that
      no access of their parent covers.  Four theorems show where two accesses of a task to
      the same address leave it.
    - _Life of a task_: the counters are exact; the dependencies of a task are released once,
      when that is due; it is destroyed once, after its children; a taskwait is woken up once and
      without fail; no finished task is leaked.  A dependency system may hold tasks back at any
      time, and that is counted.  The end of a task, the fulfilment of events, a taskwait and its
      end return and are runs of the protocol, for every dependency system that keeps the
      promises; the discrete one is shown to keep them, the default one is not.
    - _Schedulers_: no scheduler with the laws loses or duplicates a task as long as no thread
      stops polling because its CPU is disabled; the default one and the ones with heaps give a
      CPU a task of the highest priority; a thread polls on the default one only while no task
      is queued.  Two theorems show how the disabling of a CPU strands or loses a task.
      Priorities are above [LONG_MIN], whose negation, the key of a queue, overflows.  The naive
      and the FIFO scheduler give the first task that can run; the scheduler of the NUMA nodes
      conserves tasks over any scheduler with the laws, and so does the one of the host, which gives
      the GPUs their tasks only, for calls that run one after the other; the tree scheduler conserves them under
      every interleaving and keeps no task above a child that is known to be idle, as long as its
      thresholds stay below 2{^32}.  Four theorems
      show where the last two lose a CPU, hide a task or give it to a disabled CPU.
    - _Worker threads_: in every order of the regular operations no assertion fails, every CPU has
      one holder, a suspended thread is resumed once, and a task is in one thread.  The regular
      operations are all but two: to disable a CPU that is being enabled, and the check of a
      thread with a task on a CPU that is being disabled; for each a theorem shows what it breaks.
    - _Locks and waiting_: mutual exclusion, order and progress of the ticket lock as long as the
      tickets do not run out; exclusion and progress of the read-write lock; a user mutex goes to
      the task that waits for longest; a polling service is called by one thread at a
      time and is gone when its unregistration returns.
    - _CPUs_: the set of idle CPUs refines a set of numbers from which the least is taken; the
      usable CPUs are numbered without gaps; the status of a CPU follows the state diagram of
      [docs/CPUActivationStates.dia], except where the code departs from it (a CPU that is disabled
      while it is being enabled), and the scheduler is told of its changes in turn; the printed
      lists of CPUs are exact.
    - _Memory_: the areas of the nodes tile the mapping; blocks, chunks and objects in use never
      overlap, for calls that run one after the other and sizes within bounds; two theorems show
      what overlapping calls of threads without a CPU and the doubling of the caches do.
    - _Containers_: the inline list refines a sequence; the unordered list conserves its values.
    - _Regions and their map_: intersection, fragmentation and containment agree with the sets of
      addresses; traversals visit exactly the nodes that intersect a region, also when the
      processor fragments them; the missing subregions are exactly the gaps.
    - _Taskloops_: the partitions tile the iteration space; in every interleaving of the claims
      each iteration is given out exactly once, as long as the counters of the partitions do not
      wrap; two theorems show what happens when they do.

    ** What is not modelled

    - The region dependency systems linear-regions-unfragmented and -alternative, above the
      region map.
    - The shutdown of the worker threads and the creation of the kernel threads.
    - The spawned functions, and the allocation of the blocks of tasks.
    - The concurrency within the calls of the schedulers of NUMA nodes and hosts and of the memory
      pools, whose theorems are on sequences of calls.
    - Instrumentation, the wrappers of hwloc, CUDA, PAPI and MPI, and the loader: observers and
      input or output.

    ** Plan

    The promises of [TaskDependenciesLaws] for the default dependencies; the shutdown of the worker
    threads; the reductions and the exit of a taskwait in the theorems on the default dependencies; the
    alternative and the unfragmented dependencies, whose functions are close to those of the
    default ones. *)

From stdpp Require Export base list gmap strings relations numbers sorting.
From Stdlib Require Export ZArith Lia.

#[global] Set Default Goal Selector "!".

(** ** Scope and notations *)

Declare Scope nanos6_scope.
Delimit Scope nanos6_scope with nanos6.
Open Scope nanos6_scope.

(** ** Machine integers *)

Definition word_bits : Z := 64.
Definition word_max : Z := 2 ^ word_bits.

(** Unsigned 64-bit wrap-around: [size_t] values and [char *] addresses. *)
Definition wrap64 (z : Z) : Z := z mod word_max.

(** Signed 32-bit wrap-around: the [std::atomic<int>] counters. *)
Definition wrap_int (z : Z) : Z := (z + 2 ^ 31) mod 2 ^ 32 - 2 ^ 31.

Definition is_word (z : Z) : Prop := (0 ≤ z < word_max)%Z.
Definition is_int (z : Z) : Prop := (- 2 ^ 31 ≤ z < 2 ^ 31)%Z.

Lemma word_max_val : word_max = 18446744073709551616%Z.
Proof. reflexivity. Qed.

Lemma wrap64_small z : is_word z → wrap64 z = z.
Proof. unfold is_word, wrap64. apply Z.mod_small. Qed.

Lemma wrap64_range z : is_word (wrap64 z).
Proof. unfold is_word, wrap64. apply Z.mod_pos_bound. rewrite word_max_val. lia. Qed.

Lemma wrap_int_small z : is_int z → wrap_int z = z.
Proof. unfold is_int, wrap_int. intros. rewrite Z.mod_small; lia. Qed.

Lemma wrap_int_range z : is_int (wrap_int z).
Proof.
  unfold is_int, wrap_int.
  pose proof (Z.mod_pos_bound (z + 2 ^ 31) (2 ^ 32) ltac:(lia)). lia.
Qed.

(** ** Automation *)

Create HintDb nanos6 discriminated.
#[export] Hint Resolve wrap64_range wrap_int_range : nanos6.

(** Split every boolean connective and comparison of the context. *)
Ltac bool_hyps :=
  repeat match goal with
  | H : _ && _ = true |- _ => apply andb_true_iff in H as [? ?]
  | H : _ || _ = false |- _ => apply orb_false_iff in H as [? ?]
  | H : negb _ = true |- _ => apply negb_true_iff in H
  | H : negb _ = false |- _ => apply negb_false_iff in H
  | H : (_ =? _)%Z = true |- _ => apply Z.eqb_eq in H
  | H : (_ =? _)%Z = false |- _ => apply Z.eqb_neq in H
  | H : (_ <? _)%Z = true |- _ => apply Z.ltb_lt in H
  | H : (_ <? _)%Z = false |- _ => apply Z.ltb_ge in H
  | H : (_ <=? _)%Z = true |- _ => apply Z.leb_le in H
  | H : (_ <=? _)%Z = false |- _ => apply Z.leb_gt in H
  end.

(** Case on the scrutinee of the first [if] or [match] met in the goal. *)
Ltac case_goal :=
  match goal with
  | |- context [ if ?b then _ else _ ] => let E := fresh "E" in destruct b eqn:E
  | |- context [ match ?b with _ => _ end ] => let E := fresh "E" in destruct b eqn:E
  end.

(** Decide every integer comparison of the goal. *)
Ltac case_Z :=
  repeat match goal with
  | |- context [ (?a <=? ?b)%Z ] => destruct (Z.leb_spec a b)
  | |- context [ (?a <? ?b)%Z ] => destruct (Z.ltb_spec a b)
  | |- context [ (?a =? ?b)%Z ] => destruct (Z.eqb_spec a b)
  end.

(** ** Results *)

(** What can go wrong: a failed [FatalErrorHandler] check, a pointer to a deleted object, or
    (in the models of loops) too little fuel. *)
Inductive error := Fatal (msg : string) | Dangling | OutOfFuel.

Inductive res (A : Type) := Ok (a : A) | Err (e : error).
Arguments Ok {A} a.
Arguments Err {A} e.

#[export] Instance res_ret : MRet res := λ A a, Ok a.
#[export] Instance res_bind : MBind res := λ A B f m,
  match m with Ok a => f a | Err e => Err e end.

(** Dereferencing. *)
Definition get {A} (o : option A) : res A := match o with Some a => Ok a | None => Err Dangling end.

(** [FatalErrorHandler::failIf] *)
Definition failIf (b : bool) (msg : string) : res unit := if b then Err (Fatal msg) else Ok ().

Lemma res_bind_ok {A B} (m : res A) (f : A → res B) b :
  m ≫= f = Ok b ↔ ∃ a, m = Ok a ∧ f a = Ok b.
Proof. destruct m; simpl; [naive_solver|]. split; [done|]. by intros (? & ? & ?). Qed.

(** ** Lists *)

Section lists.
Context {A : Type}.
Implicit Types l : list A.

Lemma filter_all (P : A → Prop) `{!∀ x, Decision (P x)} l :
  (∀ x, x ∈ l → P x) → filter P l = l.
Proof.
  induction l as [|a l IH]; intros HP; [done|].
  rewrite filter_cons_True by set_solver. f_equal. apply IH. set_solver.
Qed.

Lemma filter_none (P : A → Prop) `{!∀ x, Decision (P x)} l :
  (∀ x, x ∈ l → ¬ P x) → filter P l = [].
Proof.
  induction l as [|a l IH]; intros HP; [done|].
  rewrite filter_cons_False by set_solver. apply IH. set_solver.
Qed.

Lemma fmap_id_on (f : A → A) l : (∀ x, x ∈ l → f x = x) → f <$> l = l.
Proof. induction l as [|a l IH]; intros Hf; csimpl; [done|]. f_equal; [|apply IH]; set_solver. Qed.

(** [Sorted] by a strictly increasing integer key. *)
Definition key_sorted (key : A → Z) l : Prop := StronglySorted (λ a b, (key a < key b)%Z) l.

Lemma key_sorted_app key l1 l2 :
  key_sorted key (l1 ++ l2) ↔
  key_sorted key l1 ∧ key_sorted key l2 ∧
  ∀ a b, a ∈ l1 → b ∈ l2 → (key a < key b)%Z.
Proof.
  unfold key_sorted. rewrite StronglySorted_app. naive_solver.
Qed.

Lemma key_sorted_sublist key l1 l2 : l1 `sublist_of` l2 → key_sorted key l2 → key_sorted key l1.
Proof.
  unfold key_sorted. induction 1 as [|x l1 l2 Hsub IH|x l1 l2 Hsub IH]; intros Hs; [done|..].
  - apply StronglySorted_cons in Hs as [Hx Hs]. constructor; [auto|].
    clear IH Hs. induction Hsub; [done|..]; apply Forall_cons in Hx as [? ?]; auto.
  - apply StronglySorted_cons in Hs as [_ Hs]. auto.
Qed.

Lemma key_sorted_cons key a l :
  key_sorted key (a :: l) ↔ (∀ b, b ∈ l → (key a < key b)%Z) ∧ key_sorted key l.
Proof.
  unfold key_sorted. rewrite StronglySorted_cons, Forall_forall. naive_solver.
Qed.

Lemma StronglySorted_lookup (R : relation A) l i j a b :
  StronglySorted R l → (i < j)%nat → l !! i = Some a → l !! j = Some b → R a b.
Proof.
  intros Hs. revert i j. induction Hs as [|x l Hs IH Hx]; intros i j Hij Ha Hb; [done|].
  destruct i as [|i], j as [|j]; simplify_eq/=; [lia| |lia|eapply IH; [|done..]; lia].
  rewrite Forall_forall in Hx. apply Hx. by eapply list_elem_of_lookup_2.
Qed.

(** How many members satisfy a boolean predicate. *)
Definition countb (P : A → bool) l : nat := length (filter (λ x, P x = true) l).

Lemma countb_cons P x l : countb P (x :: l) = ((if P x then 1 else 0) + countb P l)%nat.
Proof. unfold countb. rewrite filter_cons. destruct (P x) eqn:E; by case_decide. Qed.

Lemma countb_app P l1 l2 : countb P (l1 ++ l2) = (countb P l1 + countb P l2)%nat.
Proof. unfold countb. by rewrite filter_app, length_app. Qed.

Lemma countb_ext P Q l : (∀ x, x ∈ l → P x = Q x) → countb P l = countb Q l.
Proof.
  induction l as [|x l IH]; intros He; [done|]. rewrite !countb_cons.
  rewrite (He x) by left. by rewrite IH by (intros; apply He; by right).
Qed.

Lemma countb_none P l : (∀ x, x ∈ l → P x = false) → countb P l = 0%nat.
Proof. intros He. unfold countb. rewrite filter_none; [done|]. intros x Hx. by rewrite He. Qed.

Lemma countb_0 P l x : countb P l = 0%nat → x ∈ l → P x = false.
Proof.
  intros Hc Hx. apply not_true_iff_false. intros HP. unfold countb in Hc.
  apply length_zero_iff_nil in Hc. assert (x ∈ filter (λ x, P x = true) l) as Hin.
  { by apply list_elem_of_filter. } rewrite Hc in Hin. by apply not_elem_of_nil in Hin.
Qed.

Lemma countb_le P l : (countb P l ≤ length l)%nat.
Proof. apply length_filter. Qed.

Lemma countb_perm P l1 l2 : l1 ≡ₚ l2 → countb P l1 = countb P l2.
Proof. intros Hp. unfold countb. by rewrite Hp. Qed.
End lists.

#[export] Instance countb_proper {A} (P : A → bool) : Proper ((≡ₚ) ==> (=)) (countb P).
Proof. intros l1 l2. apply countb_perm. Qed.

Lemma countb_fmap {A B} (P : B → bool) (f : A → B) (l : list A) :
  countb P (f <$> l) = countb (λ x, P (f x)) l.
Proof. induction l as [|x l IH]; [done|]. csimpl. by rewrite !countb_cons, IH. Qed.

(** Counting over a list with one element replaced. *)
Lemma countb_insert {A} (P : A → bool) (l : list A) i x y :
  l !! i = Some x →
  (countb P (<[i := y]> l) + (if P x then 1 else 0) = countb P l + (if P y then 1 else 0))%nat.
Proof.
  intros Hx. rewrite <- (take_drop_middle l i x Hx) at 2. rewrite (insert_take_drop l i y).
  2:{ by eapply lookup_lt_Some. }
  rewrite !countb_app, !countb_cons. lia.
Qed.

(** Counting over a universe, part by part. *)
Lemma countb_split {A} `{!EqDecision A} (P : A → bool) (U ps : list A) :
  NoDup U → NoDup ps → (∀ x, x ∈ ps → x ∈ U) →
  countb P U = (countb P ps + countb P (filter (λ x, x ∉ ps) U))%nat.
Proof.
  intros HU Hps Hsub. rewrite <- countb_app. apply countb_perm.
  apply NoDup_Permutation; [done| |].
  - apply NoDup_app. split_and!; [done| |by apply NoDup_filter].
    intros x Hx Hf. by apply list_elem_of_filter in Hf as [? _].
  - intros x. rewrite elem_of_app, list_elem_of_filter.
    destruct (decide (x ∈ ps)); naive_solver.
Qed.

(** ** Lists as multisets *)

(** How often an element occurs. *)
Definition occ {A} `{!EqDecision A} (x : A) (l : list A) : nat := countb (λ y, bool_decide (y = x)) l.

Section occurrences.
Context {A : Type} `{!EqDecision A}.
Implicit Types l : list A.

Lemma occ_nil (x : A) : occ x [] = 0%nat.
Proof. done. Qed.

Lemma occ_cons (x y : A) l : occ x (y :: l) = ((if decide (y = x) then 1 else 0) + occ x l)%nat.
Proof.
  unfold occ. rewrite countb_cons. case_decide as Hy.
  - by rewrite bool_decide_eq_true_2.
  - by rewrite bool_decide_eq_false_2.
Qed.

Lemma occ_app (x : A) l1 l2 : occ x (l1 ++ l2) = (occ x l1 + occ x l2)%nat.
Proof. apply countb_app. Qed.

Lemma occ_Some (x y : A) : occ x (option_list (Some y)) = if decide (y = x) then 1%nat else 0%nat.
Proof. change (option_list (Some y)) with [y]. rewrite occ_cons, occ_nil. case_decide; done. Qed.

Lemma occ_None (x : A) : occ x (option_list None) = 0%nat.
Proof. done. Qed.

Lemma occ_elem (x : A) l : x ∈ l ↔ (0 < occ x l)%nat.
Proof.
  induction l as [|y l IH]; [rewrite occ_nil, elem_of_nil; lia|].
  rewrite elem_of_cons, occ_cons, IH. case_decide; naive_solver lia.
Qed.

Lemma perm_occ l1 l2 : l1 ≡ₚ l2 ↔ ∀ x, occ x l1 = occ x l2.
Proof.
  split; [intros Hp x; by apply countb_perm|]. revert l2. induction l1 as [|y l1 IH]; intros l2 Ho.
  - destruct l2 as [|z l2]; [done|]. specialize (Ho z). rewrite occ_nil, occ_cons, decide_True in Ho by done. lia.
  - assert (y ∈ l2) as (la & lb & ->)%list_elem_of_split.
    { apply occ_elem. rewrite <- Ho, occ_cons, decide_True by done. lia. }
    rewrite <- Permutation_middle. constructor. apply IH. intros x. specialize (Ho x).
    rewrite occ_app, !occ_cons in Ho. rewrite occ_app. lia.
Qed.

Lemma occ_perm (x : A) l1 l2 : l1 ≡ₚ l2 → occ x l1 = occ x l2.
Proof. intros Hp. by apply perm_occ. Qed.

Lemma NoDup_occ l : NoDup l ↔ ∀ x, (occ x l ≤ 1)%nat.
Proof.
  induction l as [|y l IH]; [split; [intros _ x; rewrite occ_nil; lia|constructor]|].
  rewrite NoDup_cons, IH, occ_elem. split.
  - intros [Hy Hl] x. rewrite occ_cons. specialize (Hl x). case_decide; subst; lia.
  - intros Hl. split.
    + specialize (Hl y). rewrite occ_cons, decide_True in Hl by done. lia.
    + intros x. specialize (Hl x). rewrite occ_cons in Hl. lia.
Qed.
End occurrences.

(** Decide a permutation by counting, from the permutations among the hypotheses. *)
Ltac solve_perm :=
  apply perm_occ; let x := fresh "x" in intros x;
  repeat match goal with H : _ ≡ₚ _ |- _ => apply (occ_perm x) in H end;
  rewrite ?occ_app, ?occ_cons, ?occ_app, ?occ_nil, ?occ_Some, ?occ_None in *; lia.

(** ** Values of maps *)

Section values.
Context {K A : Type} `{Countable K}.
Implicit Types m : gmap K A.

Definition vals m : list A := (map_to_list m).*2.

Lemma vals_delete m k v : m !! k = Some v → vals m ≡ₚ v :: vals (delete k m).
Proof.
  intros Hk. unfold vals. rewrite <- (insert_delete_id m k v Hk) at 1.
  by rewrite map_to_list_insert by apply lookup_delete_eq.
Qed.

Lemma vals_insert m k v : vals (<[k := v]> m) ≡ₚ v :: vals (delete k m).
Proof. rewrite (vals_delete _ k v) by apply lookup_insert_eq. by rewrite delete_insert_eq. Qed.

Lemma vals_insert_new m k v : m !! k = None → vals (<[k := v]> m) ≡ₚ v :: vals m.
Proof. intros Hk. by rewrite vals_insert, delete_id. Qed.

(** What a cell held, and the rest. *)
Lemma vals_cell m k o :
  option_list (m !! k) ++ vals (partial_alter (λ _, o) k m) ≡ₚ option_list o ++ vals m.
Proof.
  destruct (m !! k) as [v|] eqn:Hk; destruct o as [w|]; simpl.
  - change (partial_alter _ _ _) with (<[k := w]> m). rewrite vals_insert, (vals_delete m k v Hk). constructor.
  - change (partial_alter _ _ _) with (delete k m). by rewrite (vals_delete m k v Hk).
  - change (partial_alter _ _ _) with (<[k := w]> m). by rewrite vals_insert_new.
  - change (partial_alter _ _ _) with (delete k m). by rewrite delete_id.
Qed.
End values.

(** ** Sums *)

Local Open Scope Z_scope.

Definition sumZ {A} (f : A → Z) (l : list A) : Z := foldr (λ a s, f a + s)%Z 0%Z l.

Section sums.
Context {A : Type} (f : A → Z).

Lemma sumZ_cons a l : sumZ f (a :: l) = f a + sumZ f l.
Proof. done. Qed.

Lemma sumZ_app l1 l2 : sumZ f (l1 ++ l2) = sumZ f l1 + sumZ f l2.
Proof. induction l1 as [|a l1 IH]; simpl; [done|]. rewrite IH. lia. Qed.

Lemma sumZ_perm l1 l2 : l1 ≡ₚ l2 → sumZ f l1 = sumZ f l2.
Proof. induction 1; simpl; lia. Qed.

Lemma sumZ_nonneg l : (∀ a, a ∈ l → 0 ≤ f a) → 0 ≤ sumZ f l.
Proof.
  induction l as [|a l IH]; simpl; [done|]. intros Hf. pose proof (Hf a ltac:(set_solver)).
  assert (0 ≤ sumZ f l) by (apply IH; set_solver). lia.
Qed.

Lemma sumZ_sublist l1 l2 : l1 `sublist_of` l2 → (∀ a, a ∈ l2 → 0 ≤ f a) → sumZ f l1 ≤ sumZ f l2.
Proof.
  induction 1 as [|a l l' Hs IH|a l l' Hs IH]; simpl; intros Hf; [done|..].
  - assert (sumZ f l ≤ sumZ f l') by (apply IH; set_solver). lia.
  - pose proof (Hf a ltac:(set_solver)). assert (sumZ f l ≤ sumZ f l') by (apply IH; set_solver). lia.
Qed.
End sums.
