(* ===== verification/Region.v ===== *)
(** * Linear regions

    [DataAccessRegion] of [src/dependencies/linear-regions/DataAccessRegion.hpp]: an
    address and a length, with 64-bit pointer arithmetic.  The theorems relate the
    pointer computations to the set of addresses a region denotes. *)

From S2P Require Import Prelude.
Local Open Scope Z_scope.

(** ** Data *)

Record DataAccessRegion := mkRegion { startAddress : Z; rlength : Z }.

#[export] Instance DataAccessRegion_eq_dec : EqDecision DataAccessRegion.
Proof. solve_decision. Defined.

#[export] Instance DataAccessRegion_countable : Countable DataAccessRegion.
Proof.
  refine (inj_countable' (λ r, (startAddress r, rlength r)) (λ p, mkRegion p.1 p.2) _).
  by intros [].
Defined.

(** ** Operations *)

(** [DataAccessRegion(void *startAddress, void *endAddress)]. *)
Definition region_of_bounds (start endp : Z) : DataAccessRegion :=
  mkRegion start (wrap64 (endp - start)).

(** The default constructor. *)
Definition null_region : DataAccessRegion := mkRegion 0 0.

Definition getEndAddress (r : DataAccessRegion) : Z := wrap64 (startAddress r + rlength r).

Definition empty (r : DataAccessRegion) : bool := (startAddress r =? 0) && (rlength r =? 0).

Definition region_eqb (r other : DataAccessRegion) : bool :=
  (startAddress r =? startAddress other) && (rlength r =? rlength other).

Definition region_neqb (r other : DataAccessRegion) : bool :=
  negb (startAddress r =? startAddress other) || negb (rlength r =? rlength other).

Definition getBounds (r : DataAccessRegion) : Z * Z :=
  (startAddress r, wrap64 (startAddress r + rlength r - 1)).

Record FragmentBoundaries := mkBoundaries {
  firstStart : Z; firstEnd : Z; secondStart : Z; secondEnd : Z }.

Definition boundaries (first second : DataAccessRegion) : FragmentBoundaries :=
  {| firstStart := startAddress first;
     firstEnd := wrap64 (startAddress first + rlength first);
     secondStart := startAddress second;
     secondEnd := wrap64 (startAddress second + rlength second) |}.

Definition intersect (this other : DataAccessRegion) : DataAccessRegion :=
  let b := boundaries this other in
  let start := Z.max (firstStart b) (secondStart b) in
  let endp := Z.min (firstEnd b) (secondEnd b) in
  if start <? endp then region_of_bounds start endp else null_region.

Definition contiguous (this other : DataAccessRegion) : bool :=
  let b := boundaries this other in
  (firstStart b =? secondEnd b) || (firstEnd b =? secondStart b).

Definition contiguousUnion (this other : DataAccessRegion) : DataAccessRegion :=
  let b := boundaries this other in
  let start := Z.min (firstStart b) (secondStart b) in
  let endp := Z.max (firstEnd b) (secondEnd b) in
  region_of_bounds start endp.

Definition fullyContainedIn (this other : DataAccessRegion) : bool :=
  region_eqb (intersect this other) this.

(** The three processors are lambdas with side effects: state transformers here, called
    in the source's order (intersection, left, right). *)
Definition processIntersectingFragments {St : Type} (this fragmenter : DataAccessRegion)
    (thisOnly intersecting otherOnly : DataAccessRegion → St → St) (st : St) : St :=
  let b := boundaries this fragmenter in
  let intersectionStart := Z.max (firstStart b) (secondStart b) in
  let intersectionEnd := Z.min (firstEnd b) (secondEnd b) in
  let st := intersecting (region_of_bounds intersectionStart intersectionEnd) st in
  let st :=
    if firstStart b <? intersectionStart then
      thisOnly (region_of_bounds (firstStart b) intersectionStart) st
    else if secondStart b <? intersectionStart then
      otherOnly (region_of_bounds (secondStart b) intersectionStart) st
    else st in
  if intersectionEnd <? firstEnd b then
    thisOnly (region_of_bounds intersectionEnd (firstEnd b)) st
  else if intersectionEnd <? secondEnd b then
    otherOnly (region_of_bounds intersectionEnd (secondEnd b)) st
  else st.

(** ** Specification vocabulary *)

(** A region that neither wraps around nor reaches the last address. *)
Definition region_wf (r : DataAccessRegion) : Prop :=
  0 ≤ startAddress r ∧ 0 ≤ rlength r ∧ startAddress r + rlength r < word_max.

#[export] Instance region_wf_dec r : Decision (region_wf r).
Proof. unfold region_wf. apply _. Defined.

(** The addresses of a region. *)
Definition in_region (a : Z) (r : DataAccessRegion) : Prop :=
  startAddress r ≤ a < startAddress r + rlength r.

#[export] Instance in_region_dec a r : Decision (in_region a r).
Proof. unfold in_region. apply _. Defined.

#[export] Instance in_region_elem_of : ElemOf Z DataAccessRegion := in_region.

(** The calls that [processIntersectingFragments] makes, recorded. *)
Inductive fragment :=
  | ThisOnly (r : DataAccessRegion)
  | Intersection (r : DataAccessRegion)
  | OtherOnly (r : DataAccessRegion).

Definition fragment_region (f : fragment) : DataAccessRegion :=
  match f with ThisOnly r | Intersection r | OtherOnly r => r end.

Definition fragments (this other : DataAccessRegion) : list fragment :=
  processIntersectingFragments this other
    (λ r l, l ++ [ThisOnly r]) (λ r l, l ++ [Intersection r]) (λ r l, l ++ [OtherOnly r]) [].

(** ** Lemmas *)

Lemma wrap_end r : region_wf r → wrap64 (startAddress r + rlength r) = startAddress r + rlength r.
Proof. unfold region_wf. intros. apply wrap64_small. unfold is_word. lia. Qed.

Lemma end_address_wf r : region_wf r → getEndAddress r = startAddress r + rlength r.
Proof. apply wrap_end. Qed.

Lemma region_of_bounds_wf s e :
  0 ≤ s → s ≤ e → e < word_max → region_of_bounds s e = mkRegion s (e - s).
Proof. intros. unfold region_of_bounds. f_equal. apply wrap64_small. unfold is_word. lia. Qed.

Lemma elem_of_region a r : a ∈ r ↔ startAddress r ≤ a < startAddress r + rlength r.
Proof. reflexivity. Qed.

Ltac region_unfold := rewrite ?elem_of_region in *; unfold region_wf in *; simpl in *.

Lemma in_region_of_bounds a s e :
  0 ≤ s → s ≤ e → e < word_max → a ∈ region_of_bounds s e ↔ s ≤ a < e.
Proof. intros. rewrite region_of_bounds_wf by lia. region_unfold. lia. Qed.

(** The intersection in closed form, without wrap-around. *)
Lemma intersect_closed r1 r2 :
  region_wf r1 → region_wf r2 →
  intersect r1 r2 =
    let s := Z.max (startAddress r1) (startAddress r2) in
    let e := Z.min (startAddress r1 + rlength r1) (startAddress r2 + rlength r2) in
    if s <? e then mkRegion s (e - s) else null_region.
Proof.
  intros H1 H2. unfold intersect, boundaries. simpl.
  rewrite !wrap_end by done. region_unfold.
  destruct (_ <? _) eqn:E; bool_hyps; [|done].
  rewrite region_of_bounds_wf by lia. done.
Qed.

Lemma empty_intersect r1 r2 :
  region_wf r1 → region_wf r2 →
  empty (intersect r1 r2) = false ↔
  Z.max (startAddress r1) (startAddress r2) <
  Z.min (startAddress r1 + rlength r1) (startAddress r2 + rlength r2).
Proof.
  intros H1 H2. rewrite intersect_closed by done. simpl.
  region_unfold. destruct (_ <? _) eqn:E; bool_hyps; unfold empty; simpl; [|split; [done|lia]].
  split; [lia|]. intros _. apply andb_false_iff. right. apply Z.eqb_neq. lia.
Qed.

Lemma empty_intersect_comm r1 r2 :
  region_wf r1 → region_wf r2 →
  empty (intersect r1 r2) = false → empty (intersect r2 r1) = false.
Proof. intros ?? Hne. apply empty_intersect in Hne; [|done..]. apply empty_intersect; [done..|lia]. Qed.

Lemma region_eqb_spec r1 r2 : region_eqb r1 r2 = bool_decide (r1 = r2).
Proof.
  destruct r1 as [s1 l1], r2 as [s2 l2]. unfold region_eqb. simpl.
  case_bool_decide as H; [inversion H; subst; by rewrite !Z.eqb_refl|].
  apply andb_false_iff. destruct (decide (s1 = s2)); [right|left]; apply Z.eqb_neq; congruence.
Qed.

Lemma region_neqb_spec r1 r2 : region_neqb r1 r2 = negb (region_eqb r1 r2).
Proof. unfold region_neqb, region_eqb. by rewrite negb_andb. Qed.

(** ** Properties *)

Lemma intersect_wf r1 r2 : region_wf r1 → region_wf r2 → region_wf (intersect r1 r2).
Proof.
  intros H1 H2. rewrite intersect_closed by done. simpl. region_unfold.
  destruct (_ <? _) eqn:E; bool_hyps; simpl; [lia|]. rewrite word_max_val. lia.
Qed.

Lemma in_intersect r1 r2 a :
  region_wf r1 → region_wf r2 → a ∈ intersect r1 r2 ↔ a ∈ r1 ∧ a ∈ r2.
Proof.
  intros H1 H2. rewrite intersect_closed by done. simpl. region_unfold.
  destruct (_ <? _) eqn:E; bool_hyps; simpl; lia.
Qed.

#[export] Hint Resolve intersect_wf : nanos6.

(** The intersection of two regions that do not wrap around is a well-formed region that
    denotes exactly the common addresses, and it is reported as [empty] exactly when there is
    no common address. *)
Theorem intersect_correct r1 r2 :
  region_wf r1 → region_wf r2 →
  region_wf (intersect r1 r2) ∧
  (∀ a, a ∈ intersect r1 r2 ↔ a ∈ r1 ∧ a ∈ r2) ∧
  (empty (intersect r1 r2) = true ↔ ¬ ∃ a, a ∈ r1 ∧ a ∈ r2).
Proof.
  intros H1 H2. split_and!; [by apply intersect_wf|intros; by apply in_intersect|].
  rewrite <- not_false_iff_true, empty_intersect by done.
  split; [intros Hn (a & ? & ?); region_unfold; lia|intros Hn Hlt].
  apply Hn. exists (Z.max (startAddress r1) (startAddress r2)). region_unfold. lia.
Qed.

Lemma intersect_correct_witness :
  region_wf (mkRegion 16 16) ∧ 20 ∈ intersect (mkRegion 16 16) (mkRegion 8 16).
Proof.
  split; [vm_compute; intuition discriminate|].
  apply (intersect_correct (mkRegion 16 16) (mkRegion 8 16));
    vm_compute; intuition discriminate.
Defined.

Lemma contiguousUnion_closed r1 r2 :
  region_wf r1 → region_wf r2 →
  contiguousUnion r1 r2 =
    let s := Z.min (startAddress r1) (startAddress r2) in
    let e := Z.max (startAddress r1 + rlength r1) (startAddress r2 + rlength r2) in
    mkRegion s (e - s).
Proof.
  intros H1 H2. unfold contiguousUnion, boundaries. simpl. rewrite !wrap_end by done.
  region_unfold. by rewrite region_of_bounds_wf by lia.
Qed.

(** [contiguousUnion], under the two conditions it asserts, denotes the union. *)
Theorem contiguousUnion_correct r1 r2 :
  region_wf r1 → region_wf r2 →
  contiguous r1 r2 = true → empty (intersect r1 r2) = true →
  region_wf (contiguousUnion r1 r2) ∧
  ∀ a, a ∈ contiguousUnion r1 r2 ↔ a ∈ r1 ∨ a ∈ r2.
Proof.
  intros H1 H2 Hc _. rewrite contiguousUnion_closed by done.
  unfold contiguous, boundaries in Hc. simpl in *. rewrite !wrap_end in Hc by done.
  apply orb_true_iff in Hc.
  destruct Hc; bool_hyps; (split; [|intros a]); region_unfold; lia.
Qed.

Lemma contiguousUnion_correct_witness :
  region_wf (mkRegion 8 8) ∧ 18 ∈ contiguousUnion (mkRegion 8 8) (mkRegion 16 4).
Proof.
  split; [vm_compute; intuition discriminate|].
  apply (contiguousUnion_correct (mkRegion 8 8) (mkRegion 16 4)); try reflexivity;
    vm_compute; intuition discriminate.
Defined.

(** [fullyContainedIn] decides inclusion of a non-empty region. *)
Theorem fullyContainedIn_correct r1 r2 :
  region_wf r1 → region_wf r2 → 0 < rlength r1 →
  fullyContainedIn r1 r2 = true ↔ ∀ a, a ∈ r1 → a ∈ r2.
Proof.
  intros H1 H2 Hl. unfold fullyContainedIn. rewrite region_eqb_spec, bool_decide_eq_true. split.
  - intros Heq a Ha. rewrite <- Heq in Ha. by apply in_intersect in Ha as [_ ?].
  - intros Hsub.
    pose proof (Hsub (startAddress r1)) as Hs.
    pose proof (Hsub (startAddress r1 + rlength r1 - 1)) as He.
    rewrite intersect_closed by done. destruct r1 as [s1 l1]. region_unfold.
    rewrite (proj2 (Z.ltb_lt _ _)) by lia. f_equal; lia.
Qed.

Lemma fullyContainedIn_correct_witness :
  0 < rlength (mkRegion 8 4) ∧ ∀ a, a ∈ mkRegion 8 4 → a ∈ mkRegion 4 16.
Proof.
  split; [reflexivity|].
  apply (fullyContainedIn_correct (mkRegion 8 4) (mkRegion 4 16)); try reflexivity;
    vm_compute; intuition discriminate.
Defined.

(** The calls without wrap-around. *)
Lemma processIntersectingFragments_closed {St} r1 r2 (f g h : DataAccessRegion → St → St) st :
  region_wf r1 → region_wf r2 → empty (intersect r1 r2) = false →
  let s1 := startAddress r1 in let e1 := s1 + rlength r1 in
  let s2 := startAddress r2 in let e2 := s2 + rlength r2 in
  let s := Z.max s1 s2 in let e := Z.min e1 e2 in
  processIntersectingFragments r1 r2 f g h st =
    let st := g (mkRegion s (e - s)) st in
    let st := if s1 <? s then f (mkRegion s1 (s - s1)) st
              else if s2 <? s then h (mkRegion s2 (s - s2)) st else st in
    if e <? e1 then f (mkRegion e (e1 - e)) st
    else if e <? e2 then h (mkRegion e (e2 - e)) st else st.
Proof.
  intros H1 H2 Hlt%empty_intersect; [|done..]. simpl.
  unfold processIntersectingFragments, boundaries. simpl.
  rewrite !wrap_end by done. region_unfold.
  rewrite (region_of_bounds_wf (Z.max _ _)) by lia.
  repeat case_match; bool_hyps; rewrite ?region_of_bounds_wf by lia; done.
Qed.

(** The recorded calls: intersection, left part, right part. *)
Lemma fragments_closed r1 r2 :
  region_wf r1 → region_wf r2 → empty (intersect r1 r2) = false →
  let s1 := startAddress r1 in let e1 := s1 + rlength r1 in
  let s2 := startAddress r2 in let e2 := s2 + rlength r2 in
  let s := Z.max s1 s2 in let e := Z.min e1 e2 in
  fragments r1 r2 =
    Intersection (mkRegion s (e - s)) ::
    ((if s1 <? s then [ThisOnly (mkRegion s1 (s - s1))]
      else if s2 <? s then [OtherOnly (mkRegion s2 (s - s2))] else []) ++
     (if e <? e1 then [ThisOnly (mkRegion e (e1 - e))]
      else if e <? e2 then [OtherOnly (mkRegion e (e2 - e))] else [])).
Proof.
  intros H1 H2 Hne. simpl. unfold fragments. rewrite processIntersectingFragments_closed by done.
  simpl. by repeat case_match.
Qed.

Lemma fragments_intersection r1 r2 :
  region_wf r1 → region_wf r2 → empty (intersect r1 r2) = false →
  ∃ rest, fragments r1 r2 = Intersection (intersect r1 r2) :: rest ∧
    ∀ r, Intersection r ∉ rest.
Proof.
  intros H1 H2 Hne. rewrite fragments_closed by done.
  apply empty_intersect in Hne; [|done..]. rewrite intersect_closed by done. simpl.
  rewrite (proj2 (Z.ltb_lt (Z.max _ _) _)) by lia.
  eexists. split; [reflexivity|]. intros r. repeat case_match; set_solver.
Qed.

Lemma fragments_nonempty r1 r2 f :
  region_wf r1 → region_wf r2 → empty (intersect r1 r2) = false →
  f ∈ fragments r1 r2 → region_wf (fragment_region f) ∧ 0 < rlength (fragment_region f).
Proof.
  intros H1 H2 Hne. rewrite fragments_closed by done. simpl.
  apply empty_intersect in Hne; [|done..]. unfold region_wf in *.
  intros Hf. revert Hf. repeat case_match; bool_hyps; intros Hf; set_unfold in Hf;
    destruct_or?; subst; simpl; lia.
Qed.

Lemma fragments_this_only r1 r2 a :
  region_wf r1 → region_wf r2 → empty (intersect r1 r2) = false →
  (a ∈ r1 ∧ a ∉ r2) ↔ ∃ r, ThisOnly r ∈ fragments r1 r2 ∧ a ∈ r.
Proof.
  intros H1 H2 Hne. rewrite fragments_closed by done. simpl.
  apply empty_intersect in Hne; [|done..]. region_unfold. split.
  - intros [Ha Hn]. destruct (decide (a < startAddress r2)).
    + rewrite (proj2 (Z.ltb_lt (startAddress r1) _)) by lia.
      eexists. split; [apply elem_of_cons; right; apply list_elem_of_here|].
      region_unfold. lia.
    + rewrite (proj2 (Z.ltb_lt (Z.min _ _) (startAddress r1 + _))) by lia.
      eexists. split; [apply elem_of_cons; right; apply elem_of_app; right;
                       apply list_elem_of_here|].
      region_unfold. lia.
  - intros (r & Hr & Ha). revert Hr.
    repeat case_match; bool_hyps; intros Hr; set_unfold in Hr;
      destruct_or?; simplify_eq/=; region_unfold; lia.
Qed.

(** Swapping the two regions swaps the one-sided fragments. *)
Lemma fragments_swap r1 r2 r :
  region_wf r1 → region_wf r2 → empty (intersect r1 r2) = false →
  OtherOnly r ∈ fragments r1 r2 ↔ ThisOnly r ∈ fragments r2 r1.
Proof.
  intros H1 H2 Hne. pose proof (empty_intersect_comm _ _ H1 H2 Hne).
  rewrite !fragments_closed by done. simpl.
  rewrite (Z.max_comm (startAddress r2)), (Z.min_comm (startAddress r2 + _)).
  apply empty_intersect in Hne; [|done..]. region_unfold.
  repeat case_match; bool_hyps; try lia; set_solver.
Qed.

Lemma fragments_disjoint r1 r2 i j f g a :
  region_wf r1 → region_wf r2 → empty (intersect r1 r2) = false →
  fragments r1 r2 !! i = Some f → fragments r1 r2 !! j = Some g →
  a ∈ fragment_region f → a ∈ fragment_region g → i = j.
Proof.
  intros H1 H2 Hne. rewrite fragments_closed by done. simpl.
  apply empty_intersect in Hne; [|done..]. region_unfold.
  repeat case_match; bool_hyps; try lia;
    destruct i as [|[|[|]]], j as [|[|[|]]]; intros; simplify_eq/=; lia.
Qed.

(** [processIntersectingFragments] on intersecting regions calls its processors on
    non-empty pairwise disjoint regions: the intersection first and once, the other ones
    covering exactly what only one of the two regions covers. *)
Theorem fragments_partition r1 r2 :
  region_wf r1 → region_wf r2 → empty (intersect r1 r2) = false →
  (∃ rest, fragments r1 r2 = Intersection (intersect r1 r2) :: rest ∧
     ∀ r, Intersection r ∉ rest) ∧
  (∀ f, f ∈ fragments r1 r2 → region_wf (fragment_region f) ∧ 0 < rlength (fragment_region f)) ∧
  (∀ a, (a ∈ r1 ∧ a ∉ r2) ↔ ∃ r, ThisOnly r ∈ fragments r1 r2 ∧ a ∈ r) ∧
  (∀ a, (a ∈ r2 ∧ a ∉ r1) ↔ ∃ r, OtherOnly r ∈ fragments r1 r2 ∧ a ∈ r) ∧
  (∀ i j f g a, fragments r1 r2 !! i = Some f → fragments r1 r2 !! j = Some g →
     a ∈ fragment_region f → a ∈ fragment_region g → i = j).
Proof.
  intros H1 H2 Hne. split_and!.
  - by apply fragments_intersection.
  - intros f. by apply fragments_nonempty.
  - intros a. by apply fragments_this_only.
  - intros a. pose proof (empty_intersect_comm _ _ H1 H2 Hne).
    rewrite (fragments_this_only r2 r1) by done.
    split; intros (r & ? & ?); exists r; (split; [by apply fragments_swap|done]).
  - intros i j f g a. by apply (fragments_disjoint r1 r2).
Qed.

Lemma fragments_partition_witness :
  empty (intersect (mkRegion 0 16) (mkRegion 8 16)) = false ∧
  ∃ r, ThisOnly r ∈ fragments (mkRegion 0 16) (mkRegion 8 16) ∧ 3 ∈ r.
Proof.
  split; [reflexivity|].
  apply (fragments_partition (mkRegion 0 16) (mkRegion 8 16));
    vm_compute; intuition discriminate.
Defined.
