(* ===== verification/Boost.v ===== *)
(** * Interfaces of the Boost containers the runtime is built on

    [boost::intrusive::avl_set], [boost::intrusive::list] and [boost::dynamic_bitset] are
    third-party code.  Each is a class of operations together with its documented
    behaviour, stated on what iterating over the container shows; the components are
    developed against the class.  The list instances show that the laws can hold and make
    the models executable. *)

From S2P Require Import Prelude.
Local Open Scope Z_scope.

(** ** [boost::intrusive::avl_set]: nodes ordered by an integer key *)

Class AvlSet (N : Type) (key : N → Z) (S : Type) := {
  (** The nodes from [begin()] to [end()]. *)
  avl_nodes : S → list N;
  avl_empty : S;
  (** The first node whose key is not less than the argument; [None] is [end()]. *)
  avl_lower_bound : Z → S → option N;
  avl_insert : N → S → S;
  avl_erase : Z → S → S;
  (** Assignment through an iterator: it does not relink the node. *)
  avl_assign : Z → (N → N) → S → S;
}.

Class AvlSetLaws (N : Type) (key : N → Z) (S : Type) `{!AvlSet N key S} := {
  avl_nodes_empty : avl_nodes avl_empty = [];
  avl_lower_bound_law k s :
    key_sorted key (avl_nodes s) →
    avl_lower_bound k s = head (filter (λ n, k ≤ key n) (avl_nodes s));
  avl_insert_law n s :
    key_sorted key (avl_nodes s) →
    (∀ n', n' ∈ avl_nodes s → key n' ≠ key n) →
    avl_nodes (avl_insert n s) =
      filter (λ n', key n' < key n) (avl_nodes s) ++ n ::
      filter (λ n', key n < key n') (avl_nodes s);
  avl_erase_law k s : avl_nodes (avl_erase k s) = filter (λ n, key n ≠ k) (avl_nodes s);
  avl_assign_law k f s :
    avl_nodes (avl_assign k f s) = (λ n, if decide (key n = k) then f n else n) <$> avl_nodes s;
}.

(** Iterators are the keys of the nodes they point at, [None] is [end()]; moving one is
    moving along the iteration order. *)
Section iterators.
Context {N : Type} (key : N → Z).

Definition it_begin (l : list N) : option Z := key <$> head l.

(** [*it] *)
Definition it_deref (k : Z) (l : list N) : option N := head (filter (λ n, key n = k) l).

(** [it++] *)
Fixpoint it_next (k : Z) (l : list N) : option Z :=
  match l with
  | [] => None
  | n :: l => if key n =? k then key <$> head l else it_next k l
  end.

(** [it--] *)
Fixpoint it_prev (it : option Z) (l : list N) : option Z :=
  match l with
  | [] => None
  | n :: l =>
      match l with
      | [] => match it with None => Some (key n) | Some _ => None end
      | n' :: _ => if decide (it = Some (key n')) then Some (key n) else it_prev it l
      end
  end.
End iterators.

(** A sorted list is an [avl_set]. *)
Section avl_list.
Context {N : Type} (key : N → Z).

#[export] Instance avl_list : AvlSet N key (list N) := {|
  avl_nodes := id;
  avl_empty := [];
  avl_lower_bound k l := head (filter (λ n, k ≤ key n) l);
  avl_insert n l :=
    if decide (Exists (λ n', key n' = key n) l) then l
    else filter (λ n', key n' < key n) l ++ n :: filter (λ n', key n < key n') l;
  avl_erase k l := filter (λ n, key n ≠ k) l;
  avl_assign k f l := (λ n, if decide (key n = k) then f n else n) <$> l;
|}.

#[export] Instance avl_list_laws : AvlSetLaws N key (list N).
Proof.
  split; try done.
  intros n l _ Hf. simpl. rewrite decide_False; [done|].
  rewrite Exists_exists. intros (n' & Hn' & Hk). by apply (Hf n').
Qed.
End avl_list.

(** ** [boost::intrusive::list] *)

Class IntrusiveList (A : Type) `{EqDecision A} (L : Type) := {
  (** The elements from [begin()] to [end()]. *)
  il_elems : L → list A;
  il_empty : L;
  il_push_back : A → L → L;
  (** [erase(iterator_to(x))] *)
  il_erase : A → L → L;
  (** [insert(position, x)]: before [position], at the end for [end()]. *)
  il_insert : option A → A → L → L;
}.

Class IntrusiveListLaws (A : Type) `{EqDecision A} (L : Type) `{!IntrusiveList A L} := {
  il_elems_empty : il_elems il_empty = [];
  il_push_back_law x l : il_elems (il_push_back x l) = il_elems l ++ [x];
  il_erase_law x l : il_elems (il_erase x l) = filter (λ y, y ≠ x) (il_elems l);
  il_insert_end_law x l : il_elems (il_insert None x l) = il_elems l ++ [x];
  il_insert_law p x l l1 l2 :
    il_elems l = l1 ++ p :: l2 → p ∉ l1 →
    il_elems (il_insert (Some p) x l) = l1 ++ x :: p :: l2;
}.

Section il_iterators.
Context {A : Type} `{EqDecision A}.

(** The element after [x] and the one before it, [None] past either end. *)
Fixpoint list_next (x : A) (l : list A) : option A :=
  match l with
  | [] => None
  | y :: l => if decide (y = x) then head l else list_next x l
  end.

Fixpoint list_prev_from (prev : option A) (x : A) (l : list A) : option A :=
  match l with
  | [] => None
  | y :: l => if decide (y = x) then prev else list_prev_from (Some y) x l
  end.

Definition list_prev (x : A) (l : list A) : option A := list_prev_from None x l.

(** The list from [x] on. *)
Fixpoint list_from (x : A) (l : list A) : list A :=
  match l with
  | [] => []
  | y :: l' => if decide (y = x) then l else list_from x l'
  end.

Fixpoint insert_before (p x : A) (l : list A) : list A :=
  match l with
  | [] => []
  | y :: l' => if decide (y = p) then x :: l else y :: insert_before p x l'
  end.

Lemma list_next_app x l1 l2 : x ∉ l1 → list_next x (l1 ++ x :: l2) = head l2.
Proof.
  induction l1 as [|y l1 IH]; simpl; intros Hx; [by rewrite decide_True|].
  rewrite decide_False by set_solver. apply IH. set_solver.
Qed.

Lemma list_from_app x l1 l2 : x ∉ l1 → list_from x (l1 ++ x :: l2) = x :: l2.
Proof.
  induction l1 as [|y l1 IH]; simpl; intros Hx; [by rewrite decide_True|].
  rewrite decide_False by set_solver. apply IH. set_solver.
Qed.

Lemma list_prev_from_app p x l1 l2 :
  x ∉ l1 → list_prev_from p x (l1 ++ x :: l2) = match last l1 with Some y => Some y | None => p end.
Proof.
  revert p. induction l1 as [|y l1 IH]; intros p Hx; simpl; [by rewrite decide_True|].
  rewrite decide_False by set_solver. rewrite IH by set_solver.
  destruct l1; [done|]. by destruct (last (_ :: _)) eqn:E; [|apply last_None in E].
Qed.

Lemma list_prev_app x l1 l2 : x ∉ l1 → list_prev x (l1 ++ x :: l2) = last l1.
Proof. intros. unfold list_prev. rewrite list_prev_from_app by done. by destruct (last l1). Qed.

Lemma insert_before_app p x l1 l2 :
  p ∉ l1 → insert_before p x (l1 ++ p :: l2) = l1 ++ x :: p :: l2.
Proof.
  induction l1 as [|y l1 IH]; simpl; intros Hx; [by rewrite decide_True|].
  rewrite decide_False by set_solver. f_equal. apply IH. set_solver.
Qed.

#[export] Instance il_list : IntrusiveList A (list A) := {|
  il_elems := id;
  il_empty := [];
  il_push_back x l := l ++ [x];
  il_erase x l := filter (λ y, y ≠ x) l;
  il_insert it x l := match it with None => l ++ [x] | Some p => insert_before p x l end;
|}.

#[export] Instance il_list_laws : IntrusiveListLaws A (list A).
Proof.
  split; try done. intros p x l l1 l2 Hl Hp. simpl in *. unfold id in *. subst.
  by apply insert_before_app.
Qed.
End il_iterators.

(** ** [boost::dynamic_bitset] *)

Class DynamicBitset (B : Type) := {
  (** The bits, by index. *)
  bs_bits : B → list bool;
  bs_zero : nat → B;
  bs_set : nat → bool → B → B;
  bs_and : B → B → B;
  bs_or : B → B → B;
  (** [None] is [npos]. *)
  bs_find_first : B → option nat;
  bs_find_next : nat → B → option nat;
}.

(** The lowest set index that is at least [i]. *)
Fixpoint first_true_from (i : nat) (l : list bool) : option nat :=
  match l with
  | [] => None
  | b :: l => if b then Some i else first_true_from (S i) l
  end.

Class DynamicBitsetLaws (B : Type) `{!DynamicBitset B} := {
  bs_bits_zero n : bs_bits (bs_zero n) = replicate n false;
  bs_set_law i b s : bs_bits (bs_set i b s) = <[i := b]> (bs_bits s);
  bs_and_law s t : bs_bits (bs_and s t) = zip_with andb (bs_bits s) (bs_bits t);
  bs_or_law s t : bs_bits (bs_or s t) = zip_with orb (bs_bits s) (bs_bits t);
  bs_find_first_law s : bs_find_first s = first_true_from 0 (bs_bits s);
  bs_find_next_law i s : bs_find_next i s = first_true_from (S i) (drop (S i) (bs_bits s));
}.

#[export] Instance bitset_list : DynamicBitset (list bool) := {|
  bs_bits := id;
  bs_zero n := replicate n false;
  bs_set i b l := <[i := b]> l;
  bs_and l l' := zip_with andb l l';
  bs_or l l' := zip_with orb l l';
  bs_find_first l := first_true_from 0 l;
  bs_find_next i l := first_true_from (S i) (drop (S i) l);
|}.

#[export] Instance bitset_list_laws : DynamicBitsetLaws (list bool).
Proof. by split. Qed.

Lemma first_true_from_Some i l j :
  first_true_from i l = Some j ↔
  (i ≤ j)%nat ∧ l !! (j - i)%nat = Some true ∧ ∀ k, (i ≤ k < j)%nat → l !! (k - i)%nat = Some false.
Proof.
  revert i. induction l as [|b l IH]; intros i; simpl.
  { split; [done|]. intros (? & H & _). by rewrite lookup_nil in H. }
  destruct b; simpl.
  - split.
    + intros [= <-]. rewrite Nat.sub_diag. split_and!; [done..|lia].
    + intros (Hle & Hl & Hk). destruct (decide (i = j)) as [->|]; [done|].
      specialize (Hk i ltac:(lia)). by rewrite Nat.sub_diag in Hk.
  - rewrite IH. split.
    + intros (Hle & Hl & Hk). replace (j - i)%nat with (S (j - S i)) by lia.
      split_and!; [lia|done|]. intros k Hki. destruct (decide (k = i)) as [->|].
      * by rewrite Nat.sub_diag.
      * replace (k - i)%nat with (S (k - S i)) by lia. apply Hk. lia.
    + intros (Hle & Hl & Hk).
      destruct (decide (i = j)) as [->|]; [by rewrite Nat.sub_diag in Hl|].
      replace (j - i)%nat with (S (j - S i)) in Hl by lia.
      split_and!; [lia|done|]. intros k Hki. specialize (Hk k ltac:(lia)).
      by replace (k - i)%nat with (S (k - S i)) in Hk by lia.
Qed.

Lemma first_true_from_None i l : first_true_from i l = None ↔ ∀ k, l !! k ≠ Some true.
Proof.
  revert i. induction l as [|b l IH]; intros i; simpl; [split; [intros _ k|]; done|].
  destruct b.
  - split; [done|]. intros Hk. by destruct (Hk 0%nat).
  - rewrite IH. split; [intros Hk [|k]; [done|apply Hk]|intros Hk k; apply (Hk (S k))].
Qed.
