(* ===== verification/StateMonad.v ===== *)
(** * A state and error monad

    The handlers of the dependency system thread a world through many calls and may fail.  The
    weakest precondition of a computation says that it succeeds, and what holds of its result;
    its rules let the invariants of the components be proved along the code. *)

From S2P Require Import Prelude.

Definition stM (S A : Type) : Type := S → res (A * S).

#[export] Instance stM_ret S : MRet (stM S) := λ A a s, Ok (a, s).
#[export] Instance stM_bind S : MBind (stM S) := λ A B f m s,
  match m s with Ok (a, s') => f a s' | Err e => Err e end.

Section operations.
Context {S : Type}.

Definition st_fail {A} (e : error) : stM S A := λ _, Err e.
Definition st_lift {A} (r : res A) : stM S A := λ s, a ← r; Ok (a, s).
Definition st_get : stM S S := λ s, Ok (s, s).
Definition st_gets {A} (f : S → A) : stM S A := λ s, Ok (f s, s).
(** Read through a pointer. *)
Definition st_read {A} (f : S → res A) : stM S A := λ s, a ← f s; Ok (a, s).
Definition st_modify (f : S → S) : stM S unit := λ s, Ok (tt, f s).
Definition st_when (b : bool) (m : stM S unit) : stM S unit := if b then m else mret tt.

Fixpoint st_iter {A} (f : A → stM S unit) (l : list A) : stM S unit :=
  match l with
  | [] => mret tt
  | a :: l => f a;; st_iter f l
  end.
End operations.

(** ** Weakest preconditions *)

Section wp.
Context {S : Type}.

Definition wp {A} (m : stM S A) (Q : A → S → Prop) (s : S) : Prop :=
  match m s with Ok (a, s') => Q a s' | Err _ => False end.

Lemma wp_ok {A} (m : stM S A) Q s : wp m Q s ↔ ∃ a s', m s = Ok (a, s') ∧ Q a s'.
Proof. unfold wp. destruct (m s) as [[a s']|e]; naive_solver. Qed.

Lemma wp_ret {A} (a : A) Q s : Q a s → wp (mret a) Q s.
Proof. done. Qed.

Lemma wp_bind {A B} (m : stM S A) (f : A → stM S B) Q s :
  wp m (λ a s', wp (f a) Q s') s → wp (m ≫= f) Q s.
Proof. unfold wp, mbind, stM_bind. by destruct (m s) as [[a s']|e]. Qed.

Lemma wp_bind_inv {A B} (m : stM S A) (f : A → stM S B) Q s :
  wp (m ≫= f) Q s → wp m (λ a s', wp (f a) Q s') s.
Proof. unfold wp, mbind, stM_bind. by destruct (m s) as [[a s']|e]. Qed.

Lemma wp_mono {A} (m : stM S A) (Q Q' : A → S → Prop) s :
  wp m Q s → (∀ a s', Q a s' → Q' a s') → wp m Q' s.
Proof. unfold wp. destruct (m s) as [[a s']|e]; naive_solver. Qed.

Lemma wp_conj {A} (m : stM S A) (Q Q' : A → S → Prop) s :
  wp m Q s → wp m Q' s → wp m (λ a s', Q a s' ∧ Q' a s') s.
Proof. unfold wp. destruct (m s) as [[a s']|e]; naive_solver. Qed.

Lemma wp_modify (f : S → S) Q s : Q tt (f s) → wp (st_modify f) Q s.
Proof. done. Qed.

Lemma wp_gets {A} (f : S → A) Q s : Q (f s) s → wp (st_gets f) Q s.
Proof. done. Qed.

Lemma wp_get Q s : Q s s → wp st_get Q s.
Proof. done. Qed.

Lemma wp_read {A} (f : S → res A) a Q s : f s = Ok a → Q a s → wp (st_read f) Q s.
Proof. unfold wp, st_read. intros ->. done. Qed.

Lemma wp_lift {A} (r : res A) a Q s : r = Ok a → Q a s → wp (st_lift r) Q s.
Proof. unfold wp, st_lift. intros ->. done. Qed.

Lemma wp_when (b : bool) m Q s :
  (b = true → wp m Q s) → (b = false → Q tt s) → wp (st_when b m) Q s.
Proof. destruct b; intros Ht Hf; [by apply Ht|by apply wp_ret, Hf]. Qed.

Lemma wp_iter {A} (f : A → stM S unit) (l : list A) (I : list A → S → Prop) (s : S) :
  I l s →
  (∀ a l s, I (a :: l) s → wp (f a) (λ _ s', I l s') s) →
  wp (st_iter f l) (λ _ s', I [] s') s.
Proof.
  intros HI Hf. revert s HI. induction l as [|a l IH]; intros s HI; [done|].
  apply wp_bind. eapply wp_mono; [by apply Hf|]. intros [] s' HI'. by apply IH.
Qed.
End wp.

#[export] Hint Resolve wp_ret wp_modify wp_gets wp_get : nanos6.

(** Step to the end of the first computation of a sequence, or through a trivial one. *)
Ltac wp_step :=
  lazymatch goal with
  | |- wp (_ ≫= _) _ _ => apply wp_bind
  | |- wp (mret _) _ _ => apply wp_ret
  | |- wp (st_modify _) _ _ => apply wp_modify
  | |- wp (st_gets _) _ _ => apply wp_gets
  | |- wp st_get _ _ => apply wp_get
  end.
Ltac wp_steps := repeat wp_step.

(** ** Local variables

    A closure that assigns local variables of its function runs on the state paired with them. *)

Section locals.
Context {S L : Type}.

Definition st_shared {A} (m : stM S A) : stM (S * L) A := λ s,
  match m s.1 with Ok (a, s') => Ok (a, (s', s.2)) | Err e => Err e end.

Definition st_local : stM (S * L) L := λ s, Ok (s.2, s).
Definition st_set_local (f : L → L) : stM (S * L) unit := λ s, Ok (tt, (s.1, f s.2)).

(** Run with initial values of the variables, and return the final ones. *)
Definition st_with {A} (l : L) (m : stM (S * L) A) : stM S (A * L) := λ s,
  match m (s, l) with Ok (a, (s', l')) => Ok ((a, l'), s') | Err e => Err e end.

Lemma wp_shared {A} (m : stM S A) Q s l :
  wp m (λ a s', Q a (s', l)) s → wp (st_shared m) Q (s, l).
Proof. unfold wp, st_shared. simpl. by destruct (m s) as [[a s']|e]. Qed.

Lemma wp_local Q s : Q s.2 s → wp st_local Q s.
Proof. done. Qed.

Lemma wp_set_local f Q s : Q tt (s.1, f s.2) → wp (st_set_local f) Q s.
Proof. done. Qed.

Lemma wp_with {A} l (m : stM (S * L) A) Q s :
  wp m (λ a s', Q (a, s'.2) s'.1) (s, l) → wp (st_with l m) Q s.
Proof. unfold wp, st_with. by destruct (m (s, l)) as [[a [s' l']]|e]. Qed.
End locals.

(** ** What can be seen of a state

    The weakest precondition of a computation on what an abstraction shows of the state: it holds in
    every state that looks the same. *)

Section abstraction.
Context {S O : Type} (abs : S → O).

Definition awp {A} (m : stM S A) (Q : A → O → Prop) (o : O) : Prop :=
  ∀ s, abs s = o → wp m (λ a s', Q a (abs s')) s.

Lemma awp_ret {A} (a : A) (Q : A → O → Prop) o : Q a o → awp (mret a) Q o.
Proof. intros HQ s <-. by apply wp_ret. Qed.

Lemma awp_bind {A A'} (m : stM S A) (f : A → stM S A') Q o :
  awp m (λ a o', awp (f a) Q o') o → awp (m ≫= f) Q o.
Proof. intros H s Hs. apply wp_bind. eapply wp_mono; [by apply H|]. intros a s' H'. by apply H'. Qed.

Lemma awp_mono {A} (m : stM S A) (Q Q' : A → O → Prop) o :
  awp m Q o → (∀ a o', Q a o' → Q' a o') → awp m Q' o.
Proof. intros H HQ s Hs. eapply wp_mono; [by apply H|]. intros a s'. apply HQ. Qed.

(** Computations are functions: two postconditions hold together. *)
Lemma awp_and {A} (m : stM S A) (Q Q' : A → O → Prop) o :
  awp m Q o → awp m Q' o → awp m (λ a o', Q a o' ∧ Q' a o') o.
Proof. intros H1 H2 s Hs. specialize (H1 s Hs). specialize (H2 s Hs). unfold wp in *. by destruct (m s) as [[a s']|e]. Qed.

Lemma awp_when (b : bool) (m : stM S unit) Q o :
  (b = true → awp m Q o) → (b = false → Q tt o) → awp (st_when b m) Q o.
Proof. destruct b; intros Ht Hf; [by apply Ht|by apply awp_ret, Hf]. Qed.

(** A test of what cannot be seen. *)
Lemma awp_when_any (b : bool) (m : stM S unit) Q o : awp m Q o → Q tt o → awp (st_when b m) Q o.
Proof. intros. by apply awp_when. Qed.

Lemma awp_lift {A} (r : res A) a (Q : A → O → Prop) o : r = Ok a → Q a o → awp (st_lift r) Q o.
Proof. intros Hr HQ s <-. by eapply wp_lift. Qed.

Lemma awp_gets {A} (f : S → A) (Q : A → O → Prop) o :
  (∀ s, abs s = o → Q (f s) o) → awp (st_gets f) Q o.
Proof. intros HQ s Hs. apply wp_gets. rewrite Hs. by apply HQ. Qed.

Lemma awp_modify (f : S → S) g (Q : unit → O → Prop) o :
  (∀ s, abs s = o → abs (f s) = g o) → Q tt (g o) → awp (st_modify f) Q o.
Proof. intros Hf HQ s Hs. apply wp_modify. by rewrite (Hf s Hs). Qed.

Lemma awp_iter {A} (f : A → stM S unit) (l : list A) (I : list A → O → Prop) o :
  I l o → (∀ a l o, I (a :: l) o → awp (f a) (λ _ o', I l o') o) →
  awp (st_iter f l) (λ _ o', I [] o') o.
Proof.
  intros HI Hf. revert o HI. induction l as [|a l IH]; intros o HI; [by apply awp_ret|].
  apply awp_bind. eapply awp_mono; [by apply Hf|]. intros [] o' HI'. by apply IH.
Qed.


End abstraction.

Definition abs_locals {S O} (L : Type) (abs : S → O) (s : S * L) : O * L := (abs s.1, s.2).

Section abstract_locals.
Context {S O L : Type} (abs : S → O).
Notation absL := (abs_locals L abs).

Lemma awp_shared {A} (m : stM S A) (Q : A → O * L → Prop) o l :
  awp abs m (λ a o', Q a (o', l)) o → awp absL (st_shared m) Q (o, l).
Proof. intros H [s l'] [= Hs <-]. apply wp_shared. by apply H. Qed.

Lemma awp_local (Q : L → O * L → Prop) o l : Q l (o, l) → awp absL st_local Q (o, l).
Proof. intros HQ [s l'] [= <- <-]. by apply wp_local. Qed.

Lemma awp_set_local f (Q : unit → O * L → Prop) o l : Q tt (o, f l) → awp absL (st_set_local f) Q (o, l).
Proof. intros HQ [s l'] [= <- <-]. by apply wp_set_local. Qed.

Lemma awp_with {A} l (m : stM (S * L) A) (Q : A * L → O → Prop) o :
  awp absL m (λ a o', Q (a, o'.2) o'.1) (o, l) → awp abs (st_with l m) Q o.
Proof. intros H s <-. apply wp_with. by apply H. Qed.
End abstract_locals.

Ltac awp_step :=
  lazymatch goal with
  | |- awp _ (_ ≫= _) _ _ => apply awp_bind
  | |- awp _ (mret _) _ _ => apply awp_ret
  end.
