(* ===== verification/DataAccessType.v ===== *)
(** * Types of data accesses

    [src/dependencies/DataAccessType.hpp]: how a task uses the data of an access; shared by the
    implementations of dependencies. *)

From S2P Require Import Prelude.

Inductive DataAccessType :=
  | NO_ACCESS_TYPE | READ_ACCESS_TYPE | WRITE_ACCESS_TYPE | READWRITE_ACCESS_TYPE
  | CONCURRENT_ACCESS_TYPE | COMMUTATIVE_ACCESS_TYPE | REDUCTION_ACCESS_TYPE.

#[export] Instance DataAccessType_eq_dec : EqDecision DataAccessType.
Proof. solve_decision. Defined.
