(* ===== verification/RegionMap.v ===== *)
(** * The map of linear regions

    [LinearRegionMap] of [src/dependencies/linear-regions/LinearRegionMap.hpp] and
    [LinearRegionMapImplementation.hpp]: contents with an access region, kept in an AVL set
    ordered by start address.  Traversals hand iterators to a processor that may itself
    change the map; an iterator is the start address of its node. *)

From S2P Require Import Prelude Region Boost.
Local Open Scope Z_scope.

(** What the template asks of [ContentType]. *)
Class RegionContent (C : Type) := {
  getAccessRegion : C → DataAccessRegion;
  setAccessRegion : DataAccessRegion → C → C;
  get_set_region r c : getAccessRegion (setAccessRegion r c) = r;
  set_set_region r r' c : setAccessRegion r (setAccessRegion r' c) = setAccessRegion r c;
}.

(** [KeyOfNodeArtifact]: the start address of the region of the contents. *)
Definition node_key {C} `{RegionContent C} (c : C) : Z := startAddress (getAccessRegion c).

Section region_map.
Context {C : Type} `{!RegionContent C} {M : Type} `{!AvlSet C node_key M}.
Context {St : Type}.

(** A processor gets an iterator; it may change the map and captured state, and says
    whether to continue. *)
Definition processor : Type := Z → M * St → bool * (M * St).

(** ** Operations *)

Definition map_empty (m : M) : bool := bool_decide (avl_nodes m = []).

Definition map_find (region : DataAccessRegion) (m : M) : option Z :=
  node_key <$> it_deref node_key (startAddress region) (avl_nodes m).

Definition map_insert (c : C) (m : M) : M := avl_insert c m.

(** Returns the iterator to the following node as well. *)
Definition map_erase (position : Z) (m : M) : option Z * M :=
  (it_next node_key position (avl_nodes m), avl_erase position m).

(** [clear]: erase from [begin()] until [end()]. *)
Fixpoint map_clear_loop (fuel : nat) (it : option Z) (m : M) : M :=
  match it, fuel with
  | Some k, S fuel => let '(it, m) := map_erase k m in map_clear_loop fuel it m
  | _, _ => m
  end.
Definition map_clear (m : M) : M :=
  map_clear_loop (length (avl_nodes m)) (it_begin node_key (avl_nodes m)) m.

(** Relink a node whose region was assigned through an iterator. *)
Definition map_moved (position : Z) (m : M) : M :=
  match it_deref node_key position (avl_nodes m) with
  | Some c => avl_insert c (avl_erase position m)
  | None => m
  end.

(** The iterator is advanced before the processor runs.  [None]: out of fuel. *)
Fixpoint processAll_loop (fuel : nat) (p : processor) (it : option Z) (s : M * St) :
    option (bool * (M * St)) :=
  match it with
  | None => Some (true, s)
  | Some position =>
      match fuel with
      | O => None
      | S fuel =>
          let it := it_next node_key position (avl_nodes s.1) in
          let '(cont, s) := p position s in
          if cont then processAll_loop fuel p it s else Some (false, s)
      end
  end.

Definition processAll (fuel : nat) (p : processor) (s : M * St) : option (bool * (M * St)) :=
  processAll_loop fuel p (it_begin node_key (avl_nodes s.1)) s.

(** The start of every traversal of a region: [lower_bound], moved back one node unless it
    is the first one or starts exactly at the region. *)
Definition step_back (region : DataAccessRegion) (m : M) : option Z :=
  let lb := avl_lower_bound (startAddress region) m in
  let it := node_key <$> lb in
  if decide (it = it_begin node_key (avl_nodes m)) then it
  else
    match lb with
    | None => it_prev node_key None (avl_nodes m)
    | Some n =>
        if startAddress region <? startAddress (getAccessRegion n)
        then it_prev node_key it (avl_nodes m) else it
    end.

(** [None]: out of fuel, or the processor invalidated the iterator. *)
Fixpoint processIntersecting_loop (fuel : nat) (region : DataAccessRegion) (p : processor)
    (it : option Z) (s : M * St) : option (bool * (M * St)) :=
  match it with
  | None => Some (true, s)
  | Some position =>
      match fuel, it_deref node_key position (avl_nodes s.1) with
      | S fuel, Some n =>
          if startAddress (getAccessRegion n) <? getEndAddress region then
            let it := it_next node_key position (avl_nodes s.1) in
            if negb (empty (intersect region (getAccessRegion n))) then
              let '(cont, s) := p position s in
              if cont then processIntersecting_loop fuel region p it s else Some (false, s)
            else processIntersecting_loop fuel region p it s
          else Some (true, s)
      | _, _ => None
      end
  end.

Definition processIntersecting (fuel : nat) (region : DataAccessRegion) (p : processor)
    (s : M * St) : option (bool * (M * St)) :=
  processIntersecting_loop fuel region p (step_back region s.1) s.

(** The processor of missing subregions. *)
Definition missing_processor : Type := DataAccessRegion → M * St → bool * (M * St).

(** The part of the loop body that follows the missing subregion: [lastEnd] moves to the end
    of the node, or of the region, and [next] is the rest of the loop. *)
Definition process_position (region : DataAccessRegion) (p : processor) (position : Z)
    (next : Z → M * St → option (bool * (M * St))) (s : M * St) : option (bool * (M * St)) :=
  match it_deref node_key position (avl_nodes s.1) with
  | Some n =>
      let endp := getEndAddress (getAccessRegion n) in
      let lastEnd := if endp <=? getEndAddress region then endp else getEndAddress region in
      let '(cont, s) := p position s in
      if cont then next lastEnd s else Some (false, s)
  | None => None
  end.

Fixpoint processIntersectingAndMissing_loop (fuel : nat) (region : DataAccessRegion)
    (p : processor) (missing : missing_processor) (lastEnd : Z) (it : option Z) (s : M * St) :
    option (bool * (M * St)) :=
  let finish lastEnd s :=
    if lastEnd <? getEndAddress region
    then Some (missing (region_of_bounds lastEnd (getEndAddress region)) s)
    else Some (true, s) in
  match it with
  | None => finish lastEnd s
  | Some position =>
      match fuel, it_deref node_key position (avl_nodes s.1) with
      | S fuel, Some n =>
          let r := getAccessRegion n in
          if startAddress r <? getEndAddress region then
            let it := it_next node_key position (avl_nodes s.1) in
            let '(cont, s) :=
              if lastEnd <? startAddress r
              then missing (region_of_bounds lastEnd (startAddress r)) s
              else (true, s) in
            if cont then
              process_position region p position
                (λ lastEnd s,
                   processIntersectingAndMissing_loop fuel region p missing lastEnd it s) s
            else Some (false, s)
          else finish lastEnd s
      | _, _ => None
      end
  end.

Definition processIntersectingAndMissing (fuel : nat) (region : DataAccessRegion)
    (p : processor) (missing : missing_processor) (s : M * St) : option (bool * (M * St)) :=
  if map_empty s.1 then Some (missing region s)
  else
    let initial := node_key <$> avl_lower_bound (startAddress region) s.1 in
    let it := step_back region s.1 in
    let it :=
      match it with
      | Some k =>
          match it_deref node_key k (avl_nodes s.1) with
          | Some n =>
              if getEndAddress (getAccessRegion n) <=? startAddress region
              then initial else it
          | None => it
          end
      | None => it
      end in
    processIntersectingAndMissing_loop fuel region p missing (startAddress region) it s.

(** [exists] and [contains] do not change the map. *)
Fixpoint exists_loop (fuel : nat) (region : DataAccessRegion) (condition : C → bool)
    (it : option Z) (m : M) : option bool :=
  match it with
  | None => Some false
  | Some position =>
      match fuel, it_deref node_key position (avl_nodes m) with
      | S fuel, Some n =>
          if startAddress (getAccessRegion n) <? getEndAddress region then
            if negb (empty (intersect region (getAccessRegion n))) && condition n then Some true
            else exists_loop fuel region condition (it_next node_key position (avl_nodes m)) m
          else Some false
      | _, _ => None
      end
  end.

Definition map_exists (fuel : nat) (region : DataAccessRegion) (condition : C → bool) (m : M) :
    option bool :=
  exists_loop fuel region condition (step_back region m) m.

Definition map_contains (fuel : nat) (region : DataAccessRegion) (m : M) : option bool :=
  map_exists fuel region (λ _, true) m.

(** ** Fragmentation *)

(** The variables the lambdas of [fragmentByIntersection] capture: the map, the node that
    [position] and [contents] refer to (its current start address, [None] once it has been
    deleted), [alreadyShrinked] and [intersectionPosition]. *)
Record frag_state := mkFrag {
  frag_map : M;
  frag_position : option Z;
  frag_alreadyShrinked : bool;
  frag_intersectionPosition : option Z;
}.

(** [position->getAccessRegion() = region]. *)
Definition frag_assign (r : DataAccessRegion) (s : frag_state) : option frag_state :=
  k ← frag_position s;
  Some (mkFrag (avl_assign k (setAccessRegion r) (frag_map s)) (Some (startAddress r)) true
          (frag_intersectionPosition s)).

(** [ContentType newContents(contents)], its region set, inserted: reading [contents] needs
    the node to be alive. *)
Definition frag_copy (r : DataAccessRegion) (s : frag_state) : option frag_state :=
  k ← frag_position s;
  contents ← it_deref node_key k (avl_nodes (frag_map s));
  Some (mkFrag (avl_insert (setAccessRegion r contents) (frag_map s)) (Some k)
          (frag_alreadyShrinked s) (frag_intersectionPosition s)).

Definition frag_set_result (r : DataAccessRegion) (s : frag_state) : frag_state :=
  mkFrag (frag_map s) (frag_position s) (frag_alreadyShrinked s) (Some (startAddress r)).

(** [None]: the code reads a deleted node. *)
Definition fragmentByIntersection (position : Z) (fragmenter : DataAccessRegion)
    (removeIntersection : bool) (m : M) : option (M * option Z) :=
  original ← it_deref node_key position (avl_nodes m);
  s ← processIntersectingFragments (getAccessRegion original) fragmenter
    (* original region only *)
    (λ r os, s ← os;
       if negb (frag_alreadyShrinked s) then frag_assign r s else frag_copy r s)
    (* intersection *)
    (λ r os, s ← os;
       if negb removeIntersection then
         (if negb (frag_alreadyShrinked s) then frag_set_result r <$> frag_assign r s
          else frag_set_result r <$> frag_copy r s)
       else if negb (frag_alreadyShrinked s) then
         k ← frag_position s;
         Some (mkFrag (avl_erase k (frag_map s)) None true (frag_intersectionPosition s))
       else Some s)
    (* fragmenter region only *)
    (λ _ os, os)
    (Some (mkFrag m (Some position) false None));
  Some (frag_map s, frag_intersectionPosition s).
End region_map.

Arguments processor : clear implicits.
Arguments missing_processor : clear implicits.
Arguments frag_state : clear implicits.
