(* ===== verification/RegionMapProofs.v ===== *)
(** * The map of linear regions: theorems

    Traversals visit exactly the nodes that intersect the region when they start, in address
    order, whatever local fragmentation the processor performs; the missing subregions are
    exactly the gaps; fragmentation preserves the map's invariant and its addresses. *)

From S2P Require Import Prelude Region Boost RegionMap.
Local Open Scope Z_scope.

(** ** Iterators over sorted nodes *)

Section iterators.
Context {N : Type} (key : N → Z).
Implicit Types l : list N.

Lemma key_sorted_middle l1 n l2 :
  key_sorted key (l1 ++ n :: l2) →
  (∀ a, a ∈ l1 → key a < key n) ∧ (∀ b, b ∈ l2 → key n < key b).
Proof.
  rewrite key_sorted_app, key_sorted_cons. intros (_ & [Hn _] & Hl).
  split; [|done]. intros a Ha. apply Hl; set_solver.
Qed.

Lemma it_deref_middle l1 n l2 :
  key_sorted key (l1 ++ n :: l2) → it_deref key (key n) (l1 ++ n :: l2) = Some n.
Proof.
  intros [Hl _]%key_sorted_middle. unfold it_deref. rewrite filter_app, filter_cons_True by done.
  induction l1 as [|a l1 IH]; [done|].
  rewrite filter_cons_False; [apply IH; set_solver|].
  specialize (Hl a ltac:(set_solver)). lia.
Qed.

Lemma it_deref_elem l n : key_sorted key l → n ∈ l → it_deref key (key n) l = Some n.
Proof. intros Hs (l1 & l2 & ->)%list_elem_of_split. by apply it_deref_middle. Qed.

Lemma it_next_middle l1 n l2 :
  key_sorted key (l1 ++ n :: l2) → it_next key (key n) (l1 ++ n :: l2) = key <$> head l2.
Proof.
  intros [Hl _]%key_sorted_middle.
  induction l1 as [|a l1 IH]; simpl; [by rewrite Z.eqb_refl|].
  destruct (_ =? _) eqn:E; bool_hyps.
  - specialize (Hl a ltac:(set_solver)). lia.
  - apply IH. set_solver.
Qed.

Lemma it_prev_middle l1 n l2 :
  key_sorted key (l1 ++ n :: l2) →
  it_prev key (key <$> head l2) (l1 ++ n :: l2) = Some (key n).
Proof.
  induction l1 as [|a l1 IH]; simpl; intros Hs.
  - destruct l2 as [|b l2]; simpl; [done|]. by rewrite decide_True.
  - apply key_sorted_cons in Hs as [_ Hs]. specialize (IH Hs).
    apply key_sorted_middle in Hs as Hm. destruct Hm as [Hl1 Hl2].
    destruct (l1 ++ n :: l2) as [|c l] eqn:E; [by destruct l1|].
    rewrite decide_False; [done|].
    intros (b & Hb & Hk)%fmap_Some.
    assert (key n < key b) by (apply Hl2; destruct l2; simplify_eq/=; set_solver).
    assert (key c ≤ key n); [|lia].
    destruct l1 as [|c' l1]; simplify_eq/=; [lia|]. specialize (Hl1 c ltac:(set_solver)). lia.
Qed.

(** [lower_bound] splits a sorted list. *)
Lemma filter_ge_split k l :
  key_sorted key l →
  ∃ l1 l2, l = l1 ++ l2 ∧ filter (λ n, k ≤ key n) l = l2 ∧
    (∀ n, n ∈ l1 → key n < k) ∧ (∀ n, n ∈ l2 → k ≤ key n).
Proof.
  induction l as [|a l IH]; intros Hs; [by exists [], []; set_solver|].
  apply key_sorted_cons in Hs as [Ha Hs]. destruct (decide (k ≤ key a)) as [Hle|Hlt].
  - exists [], (a :: l). split_and!; [done| |set_solver|].
    + rewrite filter_cons_True by done. f_equal. apply filter_all.
      intros n Hn. specialize (Ha n Hn). lia.
    + intros n [->|Hn]%elem_of_cons; [done|]. specialize (Ha n Hn). lia.
  - destruct (IH Hs) as (l1 & l2 & -> & Hf & H1 & H2). exists (a :: l1), l2.
    rewrite filter_cons_False by done. split_and!; [done..| |done].
    intros n [->|Hn]%elem_of_cons; [lia|auto].
Qed.
End iterators.

(** ** The invariant of the map *)

Section invariant.
Context {C : Type} `{!RegionContent C}.
Implicit Types c : C.

Definition cstart (c : C) : Z := startAddress (getAccessRegion c).
Definition cend (c : C) : Z := cstart c + rlength (getAccessRegion c).

Definition content_wf (c : C) : Prop :=
  region_wf (getAccessRegion c) ∧ 0 < rlength (getAccessRegion c).

(** Non-empty regions, sorted and disjoint. *)
Definition map_wf (l : list C) : Prop :=
  Forall content_wf l ∧ StronglySorted (λ a b, cend a ≤ cstart b) l.

Definition intersects (region : DataAccessRegion) (c : C) : Prop :=
  empty (intersect region (getAccessRegion c)) = false.

#[global] Instance intersects_dec region c : Decision (intersects region c).
Proof. unfold intersects. apply _. Defined.

Lemma content_wf_lt c : content_wf c → cstart c < cend c.
Proof. unfold content_wf, cend. lia. Qed.

Lemma getEndAddress_cend c : content_wf c → getEndAddress (getAccessRegion c) = cend c.
Proof. intros [? _]. by apply end_address_wf. Qed.

Lemma intersects_spec region c :
  region_wf region → content_wf c →
  intersects region c ↔
  Z.max (startAddress region) (cstart c) < Z.min (startAddress region + rlength region) (cend c).
Proof. intros ? [? _]. by apply empty_intersect. Qed.

Lemma map_wf_nil : map_wf [].
Proof. split; constructor. Qed.

Lemma map_wf_app l1 l2 :
  map_wf (l1 ++ l2) ↔
  map_wf l1 ∧ map_wf l2 ∧ ∀ a b, a ∈ l1 → b ∈ l2 → cend a ≤ cstart b.
Proof.
  unfold map_wf. rewrite Forall_app, StronglySorted_app. tauto.
Qed.

Lemma map_wf_cons a l :
  map_wf (a :: l) ↔ content_wf a ∧ map_wf l ∧ ∀ b, b ∈ l → cend a ≤ cstart b.
Proof.
  unfold map_wf. rewrite Forall_cons, StronglySorted_cons, (Forall_forall (λ b, cend a ≤ cstart b)).
  tauto.
Qed.

Lemma map_wf_elem l c : map_wf l → c ∈ l → content_wf c.
Proof. intros [Hf _]. rewrite Forall_forall in Hf. auto. Qed.

Lemma map_wf_sorted l : map_wf l → key_sorted node_key l.
Proof.
  induction l as [|a l IH]; [constructor|]. rewrite map_wf_cons, key_sorted_cons.
  intros (Ha & Hl & Hab). split; [|auto]. intros b Hb.
  specialize (Hab b Hb). pose proof (content_wf_lt _ Ha). unfold cstart, node_key in *. lia.
Qed.

Lemma map_wf_filter (P : C → Prop) `{!∀ c, Decision (P c)} l :
  map_wf l → map_wf (filter P l).
Proof.
  induction l as [|a l IH]; [done|]. rewrite map_wf_cons. intros (Ha & Hl & Hab).
  rewrite filter_cons. case_decide; [|auto]. apply map_wf_cons. split_and!; [done|auto|].
  intros b [_ Hb]%list_elem_of_filter. auto.
Qed.

(** What lies beyond the first of a suffix. *)
Lemma filter_beyond a l :
  map_wf (a :: l) → filter (λ c, cend a ≤ node_key c) (a :: l) = l.
Proof.
  rewrite map_wf_cons. intros (Ha & Hl & Hab). pose proof (content_wf_lt _ Ha).
  rewrite filter_cons_False by (unfold node_key, cstart in *; lia).
  apply filter_all. intros b Hb. specialize (Hab b Hb). done.
Qed.
End invariant.

#[export] Hint Resolve map_wf_sorted map_wf_nil : nanos6.

Section intersecting.
Context {C : Type} `{!RegionContent C}.
Implicit Types l : list C.

(** No node from one that starts after the region intersects it. *)
Lemma filter_intersects_beyond region n l :
  region_wf region → map_wf (n :: l) →
  startAddress region + rlength region ≤ startAddress (getAccessRegion n) →
  filter (intersects region) (n :: l) = [].
Proof.
  intros Hr Hwf Hle. apply filter_none. intros c Hc Hi.
  apply intersects_spec in Hi; [|done|by eapply map_wf_elem].
  apply map_wf_cons in Hwf as (Hn & _ & Hnl). pose proof (content_wf_lt _ Hn).
  apply elem_of_cons in Hc as [->|Hc]; [|specialize (Hnl c Hc)]; unfold cstart in *; lia.
Qed.
End intersecting.

(** ** Traversals *)

Section traversal.
Context {C : Type} `{!RegionContent C} {M : Type} `{!AvlSet C node_key M}
  `{!AvlSetLaws C node_key M}.
Implicit Types m : M.

(** Where a traversal of [region] starts: everything before ends before the region, and only
    the first node can start before it. *)
Lemma step_back_spec region m :
  map_wf (avl_nodes m) →
  ∃ pre l, avl_nodes m = pre ++ l ∧ step_back region m = node_key <$> head l ∧
    (∀ c, c ∈ pre → cend c ≤ startAddress region) ∧
    (∀ c, c ∈ tail l → startAddress region ≤ cstart c).
Proof.
  intros Hwf. pose proof (map_wf_sorted _ Hwf) as Hs. unfold step_back.
  rewrite (avl_lower_bound_law (N := C)) by done.
  destruct (filter_ge_split node_key (startAddress region) _ Hs)
    as (l1 & l2 & Hl & Hf & H1 & H2).
  rewrite Hf. destruct (decide _) as [Hb|Hb].
  - (* the lower bound is the first node *)
    exists [], (avl_nodes m). split_and!; [done| |set_solver|].
    + by rewrite Hb.
    + destruct l1 as [|a l1]; simpl in *.
      { rewrite Hl. intros c Hc. apply H2. by destruct l2; [|apply elem_of_cons; right]. }
      exfalso. rewrite Hl in Hb. unfold it_begin in Hb. simpl in Hb.
      destruct l2 as [|b l2]; simplify_eq/=.
      specialize (H1 a ltac:(set_solver)). specialize (H2 b ltac:(set_solver)). lia.
  - (* there is a node before it *)
    destruct (exists_last (l := l1)) as (pre & a & ->).
    { intros ->. by rewrite Hl in Hb. }
    rewrite <- app_assoc in Hl. simpl in Hl.
    rewrite Hl in Hwf, Hs |- *.
    apply map_wf_app in Hwf as (Hpre & Hal & Hpa).
    assert (∀ c, c ∈ pre → cend c ≤ startAddress region) as Hend.
    { intros c Hc. specialize (Hpa c a Hc ltac:(set_solver)).
      specialize (H1 a ltac:(set_solver)). unfold cstart, node_key in *. lia. }
    destruct l2 as [|b l2]; simpl.
    + exists pre, [a]. split_and!; [done| |done|set_solver].
      by apply (it_prev_middle node_key pre a []).
    + destruct (_ <? _) eqn:E; bool_hyps.
      * exists pre, (a :: b :: l2). split_and!; [done| |done|done].
        by apply (it_prev_middle node_key pre a (b :: l2)).
      * exists (pre ++ [a]), (b :: l2). rewrite <- app_assoc. split_and!; [done..| |].
        -- intros c [Hc|Hc]%elem_of_app; [auto|]. apply list_elem_of_singleton in Hc as ->.
           apply map_wf_cons in Hal as (_ & _ & Hab). specialize (Hab b ltac:(set_solver)).
           specialize (H2 b ltac:(set_solver)). unfold cstart, node_key in *. lia.
        -- intros c Hc. apply H2. set_solver.
Qed.

Context {St : Type}.
Implicit Types (s : M * St) (p : processor M St).

(** A processor may do what it likes to the map up to the end of the node it is given:
    everything beyond stays, and the map stays well formed. *)
Definition local_processor p : Prop :=
  ∀ n s, map_wf (avl_nodes s.1) → n ∈ avl_nodes s.1 →
    map_wf (avl_nodes (p (node_key n) s).2.1) ∧
    filter (λ c, cend n ≤ node_key c) (avl_nodes (p (node_key n) s).2.1) =
    filter (λ c, cend n ≤ node_key c) (avl_nodes s.1) ∧
    ∀ c, c ∈ avl_nodes (p (node_key n) s).2.1 → node_key c < cend n → cend c ≤ cend n.

(** Reference behaviour: feed the positions to the processor until it refuses one. *)
Fixpoint run p (ks : list Z) s : bool * (M * St) :=
  match ks with
  | [] => (true, s)
  | k :: ks => let '(cont, s) := p k s in if cont then run p ks s else (false, s)
  end.

(** The state of a traversal: the nodes from bound [b] on are [l]. *)
Definition suffix_from (b : Z) (l : list C) s : Prop :=
  map_wf (avl_nodes s.1) ∧ filter (λ c, b ≤ node_key c) (avl_nodes s.1) = l.

Lemma suffix_from_split b l s :
  suffix_from b l s → ∃ pre, avl_nodes s.1 = pre ++ l ∧ map_wf l.
Proof.
  intros [Hwf Hf].
  destruct (filter_ge_split node_key b _ (map_wf_sorted _ Hwf)) as (l1 & l2 & Hl & Hf' & _ & _).
  exists l1. rewrite Hf in Hf'. subst l2. split; [done|].
  rewrite Hl in Hwf. by apply map_wf_app in Hwf as (_ & ? & _).
Qed.

Lemma suffix_from_deref b n l s :
  suffix_from b (n :: l) s →
  it_deref node_key (node_key n) (avl_nodes s.1) = Some n ∧
  it_next node_key (node_key n) (avl_nodes s.1) = node_key <$> head l ∧
  content_wf n ∧ n ∈ avl_nodes s.1.
Proof.
  intros Hsuf. destruct (suffix_from_split _ _ _ Hsuf) as (pre & Hn & Hwf).
  destruct Hsuf as [Hm _]. pose proof (map_wf_sorted _ Hm) as Hs. rewrite Hn in Hs |- *.
  split_and!; [by apply it_deref_middle|by apply it_next_middle| |set_solver].
  by apply map_wf_cons in Hwf as [? _].
Qed.

(** Skipping a node, or handing it to a local processor. *)
Lemma suffix_from_skip b n l s : suffix_from b (n :: l) s → suffix_from (cend n) l s.
Proof.
  intros Hsuf. destruct (suffix_from_split _ _ _ Hsuf) as (pre & Hn & Hwf).
  destruct Hsuf as [Hm _]. split; [done|]. rewrite Hn, filter_app, filter_beyond by done.
  rewrite filter_none; [done|]. intros c Hc. rewrite Hn in Hm.
  apply map_wf_app in Hm as (Hp & _ & Hpn). specialize (Hpn c n Hc ltac:(set_solver)).
  pose proof (content_wf_lt _ (map_wf_elem _ _ Hp Hc)).
  apply map_wf_cons in Hwf as (Hwn & _). pose proof (content_wf_lt _ Hwn).
  unfold node_key, cstart in *. lia.
Qed.

Lemma suffix_from_step p b n l s :
  local_processor p → suffix_from b (n :: l) s →
  suffix_from (cend n) l (p (node_key n) s).2.
Proof.
  intros Hp Hsuf. destruct (suffix_from_deref _ _ _ _ Hsuf) as (_ & _ & _ & Hn).
  destruct (suffix_from_skip _ _ _ _ Hsuf) as [Hm Hf].
  destruct (Hp n s Hm Hn) as (Hm' & Hf' & _). split; [done|]. by rewrite Hf'.
Qed.

Lemma suffix_from_all s :
  map_wf (avl_nodes s.1) →
  ∃ b, suffix_from b (avl_nodes s.1) s.
Proof.
  intros Hwf. destruct (avl_nodes s.1) as [|n l] eqn:E.
  - exists 0. split; [by rewrite E|]. by rewrite E.
  - exists (node_key n). split; [by rewrite E|]. rewrite E. apply filter_all.
    intros c Hc. apply map_wf_sorted in Hwf. apply key_sorted_cons in Hwf as [Hn _].
    apply elem_of_cons in Hc as [->|Hc]; [done|]. specialize (Hn c Hc). lia.
Qed.

Lemma suffix_from_app pre l s :
  map_wf (avl_nodes s.1) → avl_nodes s.1 = pre ++ l →
  ∃ b, suffix_from b l s ∧ match l with [] => True | n :: _ => b = node_key n end.
Proof.
  intros Hwf Hl. destruct l as [|n l].
  - exists (Z.succ (foldr Z.max 0 (node_key <$> pre))). split; [|done]. split; [done|].
    rewrite Hl, app_nil_r. apply filter_none. clear.
    induction pre as [|a pre IH]; [set_solver|]. intros c [->|Hc]%elem_of_cons; csimpl; [lia|].
    specialize (IH c Hc). lia.
  - exists (node_key n). split; [|done]. split; [done|]. pose proof (map_wf_sorted _ Hwf) as Hs.
    rewrite Hl in Hs |- *. apply key_sorted_middle in Hs as [H1 H2].
    rewrite filter_app, filter_none, filter_all; [done|..].
    + intros c [->|Hc]%elem_of_cons; [done|]. specialize (H2 c Hc). lia.
    + intros c Hc. specialize (H1 c Hc). lia.
Qed.

Lemma processAll_loop_spec p fuel b l s :
  local_processor p → (length l ≤ fuel)%nat → suffix_from b l s →
  processAll_loop fuel p (node_key <$> head l) s = Some (run p (node_key <$> l) s).
Proof.
  intros Hp. revert fuel b s. induction l as [|n l IH]; intros fuel b s Hfuel Hsuf.
  { by destruct fuel. }
  destruct fuel as [|fuel]; [simpl in *; lia|]. simpl.
  destruct (suffix_from_deref _ _ _ _ Hsuf) as (_ & -> & _ & _).
  pose proof (suffix_from_step _ _ _ _ _ Hp Hsuf) as Hsuf'.
  destruct (p (node_key n) s) as [[] s'] eqn:E; [|done].
  apply (IH fuel (cend n) s'); [simpl in *; lia|done].
Qed.

Lemma processIntersecting_loop_spec region p fuel b l s :
  region_wf region → local_processor p → (length l ≤ fuel)%nat → suffix_from b l s →
  processIntersecting_loop fuel region p (node_key <$> head l) s =
    Some (run p (node_key <$> filter (intersects region) l) s).
Proof.
  intros Hr Hp. revert fuel b s. induction l as [|n l IH]; intros fuel b s Hfuel Hsuf.
  { by destruct fuel. }
  destruct fuel as [|fuel]; [simpl in *; lia|]. simpl.
  destruct (suffix_from_deref _ _ _ _ Hsuf) as (-> & -> & Hn & _).
  rewrite (end_address_wf _ Hr). destruct (_ <? _) eqn:E; bool_hyps.
  - destruct (decide (intersects region n)) as [Hi|Hi].
    + rewrite (filter_cons_True (intersects region) n l) by done.
      pose proof Hi as Hi'. unfold intersects in Hi'. rewrite Hi'. simpl.
      pose proof (suffix_from_step _ _ _ _ _ Hp Hsuf) as Hsuf'.
      destruct (p (node_key n) s) as [[] s']; [|done].
      apply (IH fuel (cend n) s'); [simpl in *; lia|done].
    + rewrite filter_cons_False by done.
      unfold intersects in Hi. apply not_false_iff_true in Hi as ->. simpl.
      apply (IH fuel (cend n) s); [simpl in *; lia|by eapply suffix_from_skip].
  - destruct (suffix_from_split _ _ _ Hsuf) as (pre & _ & Hwf).
    by rewrite (filter_intersects_beyond region n l).
Qed.

(** The nodes before the starting point of a traversal do not intersect. *)
Lemma filter_intersects_skip region pre l :
  region_wf region → map_wf (pre ++ l) → (∀ c, c ∈ pre → cend c ≤ startAddress region) →
  filter (intersects region) (pre ++ l) = filter (intersects region) l.
Proof.
  intros Hr Hwf Hpre. rewrite filter_app, filter_none; [done|].
  intros c Hc Hi. apply intersects_spec in Hi; [|done|eapply map_wf_elem; set_solver].
  specialize (Hpre c Hc). lia.
Qed.

(** [processIntersecting] feeds its processor exactly the nodes that intersect the region
    when the traversal starts, in address order, stopping when it returns false, even though
    the processor may fragment each node it is given; fuel for every node is enough. *)
Theorem processIntersecting_correct region p fuel s :
  region_wf region → map_wf (avl_nodes s.1) → local_processor p →
  (length (avl_nodes s.1) ≤ fuel)%nat →
  processIntersecting fuel region p s =
    Some (run p (node_key <$> filter (intersects region) (avl_nodes s.1)) s).
Proof.
  intros Hr Hwf Hp Hfuel. unfold processIntersecting.
  destruct (step_back_spec region s.1 Hwf) as (pre & l & Hl & -> & Hpre & _).
  destruct (suffix_from_app pre l s Hwf Hl) as (b & Hsuf & _).
  rewrite Hl in Hwf, Hfuel |- *. rewrite length_app in Hfuel.
  rewrite filter_intersects_skip by done.
  apply (processIntersecting_loop_spec _ _ _ b); [done..|lia|done].
Qed.

Lemma exists_loop_spec region cond fuel b l s :
  region_wf region → (length l ≤ fuel)%nat → suffix_from b l s →
  exists_loop fuel region cond (node_key <$> head l) s.1 =
    Some (existsb cond (filter (intersects region) l)).
Proof.
  intros Hr. revert fuel b. induction l as [|n l IH]; intros fuel b Hfuel Hsuf.
  { by destruct fuel. }
  destruct fuel as [|fuel]; [simpl in *; lia|]. simpl.
  destruct (suffix_from_deref _ _ _ _ Hsuf) as (-> & -> & Hn & _).
  specialize (IH fuel (cend n) ltac:(simpl in *; lia) (suffix_from_skip _ _ _ _ Hsuf)).
  rewrite (end_address_wf _ Hr). destruct (_ <? _) eqn:E; bool_hyps.
  - rewrite filter_cons. case_decide as Hi; unfold intersects in Hi.
    + rewrite Hi. simpl. destruct (cond n); [done|]. by rewrite IH.
    + apply not_false_iff_true in Hi as ->. simpl. by rewrite IH.
  - destruct (suffix_from_split _ _ _ Hsuf) as (pre & _ & Hwf).
    by rewrite (filter_intersects_beyond region n l).
Qed.

(** [exists] and [contains] look at every intersecting node. *)
Theorem map_exists_correct region cond fuel s :
  region_wf region → map_wf (avl_nodes s.1) → (length (avl_nodes s.1) ≤ fuel)%nat →
  (map_exists fuel region cond s.1 = Some true ↔
     ∃ c, c ∈ avl_nodes s.1 ∧ intersects region c ∧ cond c = true) ∧
  (map_contains fuel region s.1 = Some true ↔
     ∃ c, c ∈ avl_nodes s.1 ∧ intersects region c) ∧
  map_exists fuel region cond s.1 ≠ None.
Proof.
  intros Hr Hwf Hfuel. unfold map_contains, map_exists.
  destruct (step_back_spec region s.1 Hwf) as (pre & l & Hl & -> & Hpre & _).
  destruct (suffix_from_app pre l s Hwf Hl) as (b & Hsuf & _).
  rewrite Hl in Hwf, Hfuel |- *. rewrite length_app in Hfuel.
  rewrite !(exists_loop_spec _ _ _ b l) by (done || lia).
  setoid_rewrite <- (filter_intersects_skip region pre l); [|done..].
  split_and!; [| |done].
  - rewrite (inj_iff Some), <- Is_true_true, existb_True, Exists_exists. setoid_rewrite Is_true_true.
    setoid_rewrite list_elem_of_filter. naive_solver.
  - rewrite (inj_iff Some), <- Is_true_true, existb_True, Exists_exists.
    setoid_rewrite list_elem_of_filter. naive_solver.
Qed.

Lemma processAll_correct p fuel s :
  map_wf (avl_nodes s.1) → local_processor p → (length (avl_nodes s.1) ≤ fuel)%nat →
  processAll fuel p s = Some (run p (node_key <$> avl_nodes s.1) s).
Proof.
  intros Hwf Hp Hfuel. destruct (suffix_from_all s Hwf) as [b Hsuf].
  by apply (processAll_loop_spec _ _ b).
Qed.

(** *** Intersecting nodes and gaps *)

Implicit Types missing : missing_processor M St.

(** A processor of missing subregions gets one that no node of the map touches; it may fill
    it, and leaves what lies beyond. *)
Definition local_missing missing : Prop :=
  ∀ r s, map_wf (avl_nodes s.1) → region_wf r → 0 < rlength r →
    (∀ c, c ∈ avl_nodes s.1 → cend c ≤ startAddress r ∨ startAddress r + rlength r ≤ cstart c) →
    map_wf (avl_nodes (missing r s).2.1) ∧
    filter (λ c, startAddress r + rlength r ≤ node_key c) (avl_nodes (missing r s).2.1) =
    filter (λ c, startAddress r + rlength r ≤ node_key c) (avl_nodes s.1) ∧
    ∀ c, c ∈ avl_nodes (missing r s).2.1 → node_key c < startAddress r + rlength r →
      cend c ≤ startAddress r + rlength r.

(** An event is a gap or a position. *)
Fixpoint run_events p missing (es : list (DataAccessRegion + Z)) s : bool * (M * St) :=
  match es with
  | [] => (true, s)
  | e :: es =>
      let '(cont, s) := match e with inl r => missing r s | inr k => p k s end in
      if cont then run_events p missing es s else (false, s)
  end.

Definition gap (a b : Z) : list (DataAccessRegion + Z) :=
  if a <? b then [inl (mkRegion a (b - a))] else [].

(** Reference traversal of [[last, endp)] over the nodes [l]. *)
Fixpoint cover (last endp : Z) (l : list C) : list (DataAccessRegion + Z) :=
  match l with
  | [] => gap last endp
  | n :: l =>
      if cstart n <? endp
      then gap last (cstart n) ++ inr (node_key n) :: cover (Z.min (cend n) endp) endp l
      else gap last endp
  end.

Lemma run_events_app p missing es1 es2 s :
  run_events p missing (es1 ++ es2) s =
  let '(cont, s) := run_events p missing es1 s in
  if cont then run_events p missing es2 s else (false, s).
Proof.
  revert s. induction es1 as [|e es1 IH]; intros s; simpl; [by destruct (run_events _ _ _ _)|].
  destruct (match e with inl r => missing r s | inr k => p k s end) as [[] s']; [apply IH|done].
Qed.

(** The loop state: nodes from [b] on are [l], the ones before end by [b] or before the
    region, and the region is covered up to [lastEnd]. *)
Record cover_inv (region : DataAccessRegion) (b lastEnd : Z) (l : list C) s : Prop := {
  ci_suffix : suffix_from b l s;
  ci_below : ∀ c, c ∈ avl_nodes s.1 → node_key c < b → cend c ≤ Z.max b (startAddress region);
  ci_last : lastEnd =
    Z.max (startAddress region) (Z.min b (startAddress region + rlength region));
  ci_above : ∀ c, c ∈ l → startAddress region < cend c;
}.

Lemma suffix_from_raise b b' n l s :
  suffix_from b (n :: l) s → b ≤ b' ≤ node_key n → suffix_from b' (n :: l) s.
Proof.
  intros Hsuf Hb. destruct (suffix_from_split _ _ _ Hsuf) as (pre & Hl & Hwf).
  destruct Hsuf as [Hm Hf]. split; [done|]. rewrite Hl, filter_app in Hf |- *.
  apply map_wf_sorted, key_sorted_cons in Hwf as [Hn _].
  rewrite (filter_all _ (n :: l)), (filter_none _ pre); [done|..].
  - intros c Hc Hle. assert (c ∈ filter (λ c, b ≤ node_key c) pre) as Hin.
    { apply list_elem_of_filter. split; [lia|done]. }
    rewrite (filter_all _ (n :: l)) in Hf.
    + apply (app_inv_tail (n :: l) _ []) in Hf. rewrite Hf in Hin. set_solver.
    + intros d [->|Hd]%elem_of_cons; [lia|]. specialize (Hn d Hd). lia.
  - intros d [->|Hd]%elem_of_cons; [lia|]. specialize (Hn d Hd). lia.
Qed.

(** Filling the gap before the next node. *)
Lemma cover_missing_step region missing b lastEnd n l s :
  region_wf region → local_missing missing → cover_inv region b lastEnd (n :: l) s →
  lastEnd < cstart n → cstart n < startAddress region + rlength region →
  region_of_bounds lastEnd (cstart n) = mkRegion lastEnd (cstart n - lastEnd) ∧
  cover_inv region (cstart n) (cstart n) (n :: l)
    (missing (mkRegion lastEnd (cstart n - lastEnd)) s).2.
Proof.
  intros Hr Hm [Hsuf Hb Hlast Ha] Hlt HltE. unfold region_wf in Hr.
  rewrite region_of_bounds_wf by lia. split; [done|].
  assert (b ≤ cstart n) as Hbn.
  { destruct Hsuf as [_ Hf]. assert (n ∈ filter (λ c, b ≤ node_key c) (avl_nodes s.1)) as Hn.
    { rewrite Hf. set_solver. }
    by apply list_elem_of_filter in Hn as [? _]. }
  destruct (suffix_from_raise b (cstart n) n l s Hsuf (conj Hbn (Z.le_refl _))) as [Hwf Hf].
  destruct (Hm (mkRegion lastEnd (cstart n - lastEnd)) s Hwf) as (Hwf' & Hf' & Hbel);
    [unfold region_wf; simpl; lia|simpl; lia| |].
  { intros c Hc. simpl. destruct (decide (node_key c < b)) as [Hlo|Hhi].
    - left. specialize (Hb c Hc Hlo). lia.
    - right. assert (c ∈ n :: l) as Hcl.
      { destruct Hsuf as [_ <-]. apply list_elem_of_filter. split; [lia|done]. }
      destruct (suffix_from_split _ _ _ Hsuf) as (pre & _ & Hnl).
      apply map_wf_sorted, key_sorted_cons in Hnl as [Hk _].
      apply elem_of_cons in Hcl as [->|Hcl]; [lia|]. specialize (Hk c Hcl).
      unfold node_key, cstart in *. lia. }
  simpl in *. replace (lastEnd + (cstart n - lastEnd)) with (cstart n) in * by lia.
  split; [split; [done|by rewrite Hf']| |lia|done].
  intros c Hc Hk. specialize (Hbel c Hc Hk). lia.
Qed.

(** Handing the next node to the processor. *)
Lemma cover_step region p b lastEnd n l s :
  region_wf region → local_processor p → cover_inv region b lastEnd (n :: l) s →
  cstart n < startAddress region + rlength region →
  cover_inv region (cend n) (Z.min (cend n) (startAddress region + rlength region)) l
    (p (node_key n) s).2.
Proof.
  intros Hr Hp [Hsuf Hb Hlast Ha] HltE. unfold region_wf in Hr.
  destruct (suffix_from_deref _ _ _ _ Hsuf) as (_ & _ & Hnwf & Hn).
  pose proof (content_wf_lt _ Hnwf). pose proof (Ha n ltac:(set_solver)).
  pose proof (suffix_from_step _ _ _ _ _ Hp Hsuf) as Hsuf'.
  destruct (Hp n s (proj1 Hsuf) Hn) as (_ & _ & Hbel).
  split; [done| |lia|set_solver]. intros c Hc Hk. specialize (Hbel c Hc Hk). lia.
Qed.

Lemma run_gap p missing a b s :
  run_events p missing (gap a b) s =
  if a <? b then missing (mkRegion a (b - a)) s else (true, s).
Proof. unfold gap. destruct (_ <? _); simpl; [|done]. by destruct (missing _ _) as [[] ?]. Qed.

(** What follows the last node of the region. *)
Lemma cover_finish region p missing b lastEnd l s :
  region_wf region → cover_inv region b lastEnd l s →
  (if lastEnd <? startAddress region + rlength region
   then Some (missing (region_of_bounds lastEnd (startAddress region + rlength region)) s)
   else Some (true, s)) =
  Some (run_events p missing (gap lastEnd (startAddress region + rlength region)) s).
Proof.
  intros Hr [_ _ Hlast _]. rewrite run_gap. destruct (_ <? _) eqn:E; bool_hyps; [|done].
  unfold region_wf in Hr. by rewrite region_of_bounds_wf by lia.
Qed.

Lemma processIntersectingAndMissing_loop_spec region p missing fuel b lastEnd l s :
  region_wf region → local_processor p → local_missing missing → (length l ≤ fuel)%nat →
  cover_inv region b lastEnd l s →
  processIntersectingAndMissing_loop fuel region p missing lastEnd (node_key <$> head l) s =
    Some (run_events p missing (cover lastEnd (startAddress region + rlength region) l) s).
Proof.
  intros Hr Hp Hm. revert fuel b lastEnd s.
  induction l as [|n l IH]; intros fuel b lastEnd s Hfuel Hinv.
  { destruct fuel; simpl; rewrite (end_address_wf _ Hr); by eapply cover_finish. }
  destruct fuel as [|fuel]; [simpl in *; lia|]. simpl.
  destruct (suffix_from_deref _ _ _ _ (ci_suffix _ _ _ _ _ Hinv)) as (-> & -> & Hnwf & _).
  rewrite (end_address_wf _ Hr). fold (cstart n).
  destruct (cstart n <? _) eqn:E; bool_hyps; [|by eapply cover_finish].
  assert (∀ b lastEnd' s', cover_inv region b lastEnd' (n :: l) s' →
    process_position region p (node_key n) (λ lastEnd s,
      processIntersectingAndMissing_loop fuel region p missing lastEnd (node_key <$> head l) s) s' =
    Some (run_events p missing (inr (node_key n) ::
      cover (Z.min (cend n) (startAddress region + rlength region))
        (startAddress region + rlength region) l) s')) as Hnode.
  { intros b' le s' Hinv'. unfold process_position. rewrite (end_address_wf _ Hr).
    destruct (suffix_from_deref _ _ _ _ (ci_suffix _ _ _ _ _ Hinv')) as (-> & _ & _ & _).
    rewrite getEndAddress_cend by done. simpl.
    pose proof (cover_step _ _ _ _ _ _ _ Hr Hp Hinv' E) as Hinv2.
    destruct (p (node_key n) s') as [[] s2]; [|done].
    rewrite <- (IH fuel (cend n) _ s2); [|simpl in *; lia|done].
    f_equal. destruct (_ <=? _) eqn:E'; bool_hyps; lia. }
  rewrite run_events_app, run_gap. destruct (lastEnd <? cstart n) eqn:El; bool_hyps.
  - destruct (cover_missing_step _ _ _ _ _ _ _ Hr Hm Hinv El E) as [-> Hinv2].
    destruct (missing _ s) as [[] s2]; [|done]. by eapply Hnode.
  - by eapply Hnode.
Qed.

Lemma in_gap x y a : (∃ r, inl r ∈ gap x y ∧ a ∈ r) ↔ x ≤ a < y.
Proof.
  unfold gap. destruct (_ <? _) eqn:E; bool_hyps.
  - split; [intros (r & Hr & Ha); apply list_elem_of_singleton in Hr; simplify_eq|intros Ha].
    + rewrite elem_of_region in Ha. simpl in *. lia.
    + exists (mkRegion x (y - x)). rewrite elem_of_region. simpl. split; [set_solver|lia].
  - split; [set_solver|lia].
Qed.

(** The gaps of the reference traversal are the addresses no node covers. *)
Lemma cover_gaps last endp l a :
  last ≤ endp → map_wf l → (∀ c, c ∈ l → last < cend c) →
  (∃ r, inl r ∈ cover last endp l ∧ a ∈ r) ↔
  last ≤ a < endp ∧ ∀ c, c ∈ l → ¬ (cstart c ≤ a < cend c).
Proof.
  revert last. induction l as [|n l IH]; intros last Hle Hwf Hc; simpl.
  { rewrite in_gap. set_solver. }
  apply map_wf_cons in Hwf as (Hn & Hwf & Hnl). pose proof (content_wf_lt _ Hn).
  pose proof (Hc n ltac:(set_solver)).
  destruct (_ <? _) eqn:E; bool_hyps.
  - assert (∀ c, c ∈ l → Z.min (cend n) endp < cend c) as Hc'.
    { intros c Hcl. specialize (Hnl c Hcl).
      pose proof (content_wf_lt _ (map_wf_elem _ _ Hwf Hcl)). lia. }
    specialize (IH (Z.min (cend n) endp) ltac:(lia) Hwf Hc').
    split.
    + intros (r & Hr & Ha). apply elem_of_app in Hr as [Hr|Hr].
      * assert (last ≤ a < cstart n) as Hin by (apply in_gap; eauto).
        split; [lia|]. intros c [->|Hcl]%elem_of_cons; [lia|]. specialize (Hnl c Hcl). lia.
      * apply elem_of_cons in Hr as [Hr|Hr]; [done|].
        destruct (proj1 IH ltac:(eauto)) as [Hin Hno].
        split; [lia|]. intros c [->|Hcl]%elem_of_cons; [lia|auto].
    + intros [Hin Hno]. pose proof (Hno n ltac:(set_solver)).
      destruct (decide (a < cstart n)) as [Hlt|Hge].
      * assert (last ≤ a < cstart n) as (r & ? & ?)%in_gap by lia.
        exists r. rewrite elem_of_app. auto.
      * destruct (proj2 IH) as (r & ? & ?).
        { split; [lia|]. intros c Hcl. apply Hno. set_solver. }
        exists r. rewrite elem_of_app, elem_of_cons. auto.
  - rewrite in_gap. split; [|naive_solver]. intros Hin. split; [done|].
    intros c [->|Hcl]%elem_of_cons; [lia|]. specialize (Hnl c Hcl). lia.
Qed.

Lemma cover_positions region last l :
  region_wf region → 0 < rlength region → map_wf l →
  (∀ c, c ∈ l → startAddress region < cend c) →
  omap (λ e, match e with inr k => Some k | inl _ => None end)
    (cover last (startAddress region + rlength region) l) =
  node_key <$> filter (intersects region) l.
Proof.
  intros Hr Hpos. revert last.
  assert (∀ x y, omap (λ e, match e with inr k => Some k | inl _ => None end) (gap x y)
                 = @nil Z) as Hgap.
  { intros x y. unfold gap. by destruct (_ <? _). }
  induction l as [|n l IH]; intros last Hwf Hc; simpl; [apply Hgap|].
  pose proof Hwf as Hwf'. apply map_wf_cons in Hwf' as (Hn & Hwf' & Hnl).
  pose proof (content_wf_lt _ Hn). pose proof (Hc n ltac:(set_solver)).
  destruct (_ <? _) eqn:E; bool_hyps.
  - rewrite omap_app, Hgap. simpl. rewrite filter_cons_True.
    + csimpl. f_equal. apply IH; [done|set_solver].
    + apply intersects_spec; [done..|]. unfold region_wf in *. lia.
  - by rewrite Hgap, (filter_intersects_beyond region n l).
Qed.

Lemma cover_inv_init region s pre l :
  region_wf region → map_wf (avl_nodes s.1) → avl_nodes s.1 = pre ++ l →
  (∀ c, c ∈ pre → cend c ≤ startAddress region) →
  (∀ c, c ∈ l → startAddress region < cend c) →
  ∃ b, cover_inv region b (startAddress region) l s.
Proof.
  intros Hr Hwf Hl Hpre Hab. unfold region_wf in Hr.
  set (b := match l with [] => startAddress region
            | n :: _ => Z.min (startAddress region) (node_key n) end).
  assert (b ≤ startAddress region) by (unfold b; destruct l; lia).
  assert (∀ c, c ∈ pre → node_key c < b) as Hlo.
  { intros c Hc. specialize (Hpre c Hc). rewrite Hl in Hwf.
    apply map_wf_app in Hwf as (Hp & _ & Hpl). pose proof (content_wf_lt _ (map_wf_elem _ _ Hp Hc)).
    unfold b. destruct l as [|n l]; [unfold node_key, cstart in *; lia|].
    specialize (Hpl c n Hc ltac:(set_solver)). unfold node_key, cstart in *. lia. }
  assert (∀ c, c ∈ l → b ≤ node_key c) as Hhi.
  { intros c Hc. rewrite Hl in Hwf. apply map_wf_app in Hwf as (_ & Hll & _).
    unfold b. destruct l as [|n l]; [set_solver|].
    apply map_wf_sorted, key_sorted_cons in Hll as [Hk _].
    apply elem_of_cons in Hc as [->|Hc]; [lia|]. specialize (Hk c Hc). lia. }
  exists b. split; [split; [done|]| |lia|done].
  - rewrite Hl, filter_app, filter_none, filter_all; [done..|].
    intros c Hc. specialize (Hlo c Hc). lia.
  - intros c Hc Hk. rewrite Hl in Hc. apply elem_of_app in Hc as [Hc|Hc].
    + specialize (Hpre c Hc). lia.
    + specialize (Hhi c Hc). lia.
Qed.

(** The traversal starts at the first node that ends after the start of the region. *)
Lemma missing_start region s :
  map_wf (avl_nodes s.1) →
  ∃ pre l, avl_nodes s.1 = pre ++ l ∧
    (∀ c, c ∈ pre → cend c ≤ startAddress region) ∧
    (∀ c, c ∈ l → startAddress region < cend c) ∧
    match step_back region s.1 with
    | Some k =>
        match it_deref node_key k (avl_nodes s.1) with
        | Some n =>
            if getEndAddress (getAccessRegion n) <=? startAddress region
            then node_key <$> avl_lower_bound (startAddress region) s.1
            else step_back region s.1
        | None => step_back region s.1
        end
    | None => step_back region s.1
    end = node_key <$> head l.
Proof.
  intros Hwf. destruct (step_back_spec region s.1 Hwf) as (pre & l & Hl & Hsb & Hpre & Htl).
  rewrite Hsb. pose proof (map_wf_sorted _ Hwf) as Hs.
  destruct l as [|n l]; simpl in *.
  { exists pre, []. set_solver. }
  assert (∀ c, c ∈ l → startAddress region < cend c) as Hgt.
  { intros c Hc. specialize (Htl c Hc).
    assert (content_wf c) as Hcw by (eapply map_wf_elem; [done|]; rewrite Hl; set_solver).
    pose proof (content_wf_lt _ Hcw). lia. }
  rewrite Hl, it_deref_middle by (by rewrite <- Hl).
  assert (content_wf n) as Hn by (eapply map_wf_elem; [done|]; rewrite Hl; set_solver).
  rewrite getEndAddress_cend by done. destruct (_ <=? _) eqn:E; bool_hyps.
  - exists (pre ++ [n]), l. rewrite <- app_assoc. split_and!; [done| |done|].
    + intros c [Hc|Hc%list_elem_of_singleton]%elem_of_app; subst; auto.
    + rewrite (avl_lower_bound_law (N := C)) by done. do 2 f_equal.
      rewrite Hl. change (n :: l) with ([n] ++ l). rewrite app_assoc, filter_app, filter_none, filter_all;
        [done|done|].
      intros c Hc. assert (content_wf c) as Hcw.
      { eapply map_wf_elem; [done|]. rewrite Hl. set_solver. }
      pose proof (content_wf_lt _ Hcw).
      apply elem_of_app in Hc as [Hc|Hc%list_elem_of_singleton]; subst;
        [specialize (Hpre c Hc)|]; unfold node_key, cstart in *; lia.
  - exists pre, (n :: l). split_and!; [done..| |done].
    intros c [->|Hc]%elem_of_cons; [lia|auto].
Qed.

(** [processIntersectingAndMissing] hands over, besides the intersecting nodes in address
    order, missing subregions that are exactly the part of the region no node covers. *)
Theorem processIntersectingAndMissing_correct region p missing fuel s :
  region_wf region → 0 < rlength region → map_wf (avl_nodes s.1) →
  local_processor p → local_missing missing → (length (avl_nodes s.1) ≤ fuel)%nat →
  ∃ es,
    processIntersectingAndMissing fuel region p missing s = Some (run_events p missing es s) ∧
    omap (λ e, match e with inr k => Some k | inl _ => None end) es =
      node_key <$> filter (intersects region) (avl_nodes s.1) ∧
    ∀ a, (∃ r, inl r ∈ es ∧ a ∈ r) ↔
         a ∈ region ∧ ∀ c, c ∈ avl_nodes s.1 → a ∉ getAccessRegion c.
Proof.
  intros Hr Hpos Hwf Hp Hm Hfuel. unfold processIntersectingAndMissing, map_empty.
  destruct (bool_decide_reflect (avl_nodes s.1 = [])) as [Hnil|_].
  { exists [inl region]. simpl. rewrite Hnil. split_and!; [by destruct (missing _ _) as [[] ?]|done|].
    intros a. set_solver. }
  destruct (missing_start region s Hwf) as (pre & l & Hl & Hpre & Hab & ->).
  destruct (cover_inv_init region s pre l) as [b Hinv]; [done..|].
  exists (cover (startAddress region) (startAddress region + rlength region) l).
  rewrite Hl, length_app in Hfuel.
  assert (map_wf l) as Hwl by (rewrite Hl in Hwf; by apply map_wf_app in Hwf as (_ & ? & _)).
  split_and!.
  - apply (processIntersectingAndMissing_loop_spec _ _ _ _ b); [done..|lia|done].
  - rewrite cover_positions, Hl, filter_intersects_skip by (done || by rewrite <- Hl). done.
  - intros a. unfold region_wf in Hr. rewrite cover_gaps by (done || lia).
    rewrite Hl, elem_of_region. split; intros [Ha Hc]; (split; [done|]); intros c Hin.
    + rewrite elem_of_region. apply elem_of_app in Hin as [Hin|Hin].
      * specialize (Hpre c Hin). unfold cend, cstart in *. lia.
      * by apply Hc.
    + specialize (Hc c ltac:(set_solver)). by rewrite elem_of_region in Hc.
Qed.
End traversal.

(** ** Fragmentation *)

Section fragmentation.
Context {C : Type} `{!RegionContent C} {M : Type} `{!AvlSet C node_key M}
  `{!AvlSetLaws C node_key M}.
Implicit Types m : M.

Lemma insert_middle c m l1 l2 :
  avl_nodes m = l1 ++ l2 → key_sorted node_key (avl_nodes m) →
  (∀ a, a ∈ l1 → node_key a < node_key c) → (∀ b, b ∈ l2 → node_key c < node_key b) →
  avl_nodes (avl_insert c m) = l1 ++ c :: l2.
Proof.
  intros Hl Hs H1 H2. rewrite (avl_insert_law (N := C)); [|done|].
  2: { rewrite Hl. intros n [Hn|Hn]%elem_of_app; [specialize (H1 n Hn)|specialize (H2 n Hn)]; lia. }
  rewrite Hl, !filter_app.
  rewrite (filter_all (λ n, node_key n < node_key c) l1) by done.
  rewrite (filter_all (λ n, node_key c < node_key n) l2) by done.
  rewrite filter_none, filter_none; [by rewrite app_nil_r|..];
    intros n Hn; [specialize (H1 n Hn)|specialize (H2 n Hn)]; lia.
Qed.

Lemma assign_middle m l1 n l2 f :
  avl_nodes m = l1 ++ n :: l2 → key_sorted node_key (avl_nodes m) →
  avl_nodes (avl_assign (node_key n) f m) = l1 ++ f n :: l2.
Proof.
  intros Hl Hs. rewrite (avl_assign_law (N := C)), Hl, fmap_app, fmap_cons.
  rewrite Hl in Hs. apply key_sorted_middle in Hs as [H1 H2]. rewrite decide_True by done.
  rewrite !fmap_id_on; [done|..]; intros x Hx; apply decide_False;
    [specialize (H2 x Hx)|specialize (H1 x Hx)]; lia.
Qed.

Lemma erase_middle m l1 n l2 :
  avl_nodes m = l1 ++ n :: l2 → key_sorted node_key (avl_nodes m) →
  avl_nodes (avl_erase (node_key n) m) = l1 ++ l2.
Proof.
  intros Hl Hs. rewrite (avl_erase_law (N := C)), Hl, filter_app, filter_cons_False by naive_solver.
  rewrite Hl in Hs. apply key_sorted_middle in Hs as [H1 H2].
  rewrite !filter_all; [done|intros x Hx; specialize (H2 x Hx); lia
                       |intros x Hx; specialize (H1 x Hx); lia].
Qed.

Definition cut (c : C) (s e : Z) : C := setAccessRegion (mkRegion s (e - s)) c.

(** What the node [n] becomes when it is cut by [fr]: the bounds of the intersection, and
    the part to the left, the intersection and the part to the right. *)
Definition cut_start (n : C) (fr : DataAccessRegion) : Z := Z.max (cstart n) (startAddress fr).
Definition cut_end (n : C) (fr : DataAccessRegion) : Z :=
  Z.min (cend n) (startAddress fr + rlength fr).
Definition left_piece (n : C) (fr : DataAccessRegion) : list C :=
  if cstart n <? cut_start n fr then [cut n (cstart n) (cut_start n fr)] else [].
Definition right_piece (n : C) (fr : DataAccessRegion) : list C :=
  if cut_end n fr <? cend n then [cut n (cut_end n fr) (cend n)] else [].
Definition middle_piece (n : C) (fr : DataAccessRegion) : C :=
  cut n (cut_start n fr) (cut_end n fr).
Definition pieces (n : C) (fr : DataAccessRegion) : list C :=
  left_piece n fr ++ middle_piece n fr :: right_piece n fr.

Lemma key_cut c s e : node_key (cut c s e) = s.
Proof. unfold node_key, cut. by rewrite get_set_region. Qed.

Lemma cut_wf c s e : 0 ≤ s → s < e → e < word_max → content_wf (cut c s e).
Proof. intros. unfold content_wf, cut, region_wf. rewrite get_set_region. simpl. lia. Qed.

Lemma bounds_cut c s e : cstart (cut c s e) = s ∧ cend (cut c s e) = e.
Proof. unfold cend, cstart, cut. rewrite get_set_region. simpl. lia. Qed.

Lemma cut_cut c s e s' e' : cut (cut c s e) s' e' = cut c s' e'.
Proof. unfold cut. apply set_set_region. Qed.

Lemma pieces_bounds n fr c :
  region_wf fr → content_wf n → intersects fr n → c ∈ pieces n fr →
  content_wf c ∧ cstart n ≤ cstart c ∧ cend c ≤ cend n.
Proof.
  intros Hfr Hn Hi Hc. apply intersects_spec in Hi; [|done..].
  destruct Hn as [Hn _]. unfold region_wf in *.
  unfold pieces, left_piece, right_piece, middle_piece, cut_start, cut_end in Hc.
  fold (cstart n) in *.
  assert (cend n < word_max) by (unfold cend, cstart in *; lia).
  repeat case_match; bool_hyps; set_unfold in Hc; destruct_or?; subst;
    match goal with |- content_wf (cut ?c ?s ?e) ∧ _ =>
      destruct (bounds_cut c s e) as [-> ->]; split; [apply cut_wf|] end; lia.
Qed.

Lemma pieces_sorted n fr :
  region_wf fr → content_wf n → intersects fr n → map_wf (pieces n fr).
Proof.
  intros Hfr Hn Hi. pose proof (pieces_bounds n fr) as Hb.
  split; [apply Forall_forall; intros c Hc; by apply (Hb c)|].
  apply intersects_spec in Hi; [|done..].
  unfold pieces, left_piece, right_piece, middle_piece, cut_start, cut_end.
  repeat case_match; bool_hyps; simpl; repeat constructor;
    repeat match goal with |- context [cstart (cut ?c ?s ?e)] =>
      destruct (bounds_cut c s e) as [-> _]
    | |- context [cend (cut ?c ?s ?e)] => destruct (bounds_cut c s e) as [_ ->] end; lia.
Qed.

(** A copy of the live node lands in place. *)
Lemma frag_copy_middle s e m k b r c l1 l2 :
  it_deref node_key k (avl_nodes m) = Some c → avl_nodes m = l1 ++ l2 →
  key_sorted node_key (l1 ++ cut c s e :: l2) →
  ∃ m', frag_copy (mkRegion s (e - s)) (mkFrag m (Some k) b r) = Some (mkFrag m' (Some k) b r) ∧
    avl_nodes m' = l1 ++ cut c s e :: l2.
Proof.
  intros Hc Hl Hs. unfold frag_copy. simpl. rewrite Hc. simpl.
  eexists. split; [reflexivity|]. apply key_sorted_middle in Hs as Hk. destruct Hk as [H1 H2].
  apply (insert_middle (cut c s e)); [done| |done..]. rewrite Hl.
  eapply key_sorted_sublist; [|done]. by apply sublist_app, sublist_cons.
Qed.

Context (m : M) (l1 : list C) (n : C) (l2 : list C) (fr : DataAccessRegion).
Context (Hwf : map_wf (avl_nodes m)) (Hnodes : avl_nodes m = l1 ++ n :: l2).
Context (Hfr : region_wf fr) (Hint : intersects fr n).

Lemma frag_facts :
  content_wf n ∧ key_sorted node_key (avl_nodes m) ∧
  (∀ a, a ∈ l1 → node_key a < cend a ∧ cend a ≤ cstart n) ∧
  (∀ a, a ∈ l2 → cend n ≤ node_key a) ∧
  Z.max (startAddress fr) (cstart n) < Z.min (startAddress fr + rlength fr) (cend n) ∧
  empty (intersect (getAccessRegion n) fr) = false.
Proof.
  assert (content_wf n) as Hn by (eapply map_wf_elem; [done|]; rewrite Hnodes; set_solver).
  pose proof (map_wf_sorted _ Hwf). split_and!; [done..| | | |].
  - intros a Ha. assert (content_wf a) as Haw by (eapply map_wf_elem; [done|]; rewrite Hnodes; set_solver).
    split; [by apply content_wf_lt|]. rewrite Hnodes in Hwf.
    apply map_wf_app in Hwf as (_ & _ & Hx). apply Hx; set_solver.
  - intros a Ha. rewrite Hnodes in Hwf. apply map_wf_app in Hwf as (_ & Hx & _).
    apply map_wf_cons in Hx as (_ & _ & Hx). by apply Hx.
  - by apply intersects_spec.
  - destruct Hn. by apply empty_intersect_comm.
Qed.

(** The invariant after replacing the node by its pieces. *)
Lemma pieces_map_wf : map_wf (l1 ++ pieces n fr ++ l2).
Proof.
  destruct frag_facts as (Hn & _ & H1 & H2 & _ & _).
  pose proof (pieces_bounds n fr) as Hb. pose proof Hwf as Hw. rewrite Hnodes in Hw.
  apply map_wf_app in Hw as (Hw1 & Hw2 & Hw12). apply map_wf_cons in Hw2 as (_ & Hw2 & Hn2).
  apply map_wf_app. split_and!; [done| |].
  - apply map_wf_app. split_and!; [by apply pieces_sorted|done|].
    intros a b Ha Hbl. destruct (Hb a Hfr Hn Hint Ha) as (_ & _ & ?).
    specialize (Hn2 b Hbl). lia.
  - intros a b Ha [Hbl|Hbl]%elem_of_app; [|apply Hw12; set_solver].
    destruct (Hb b Hfr Hn Hint Hbl) as (_ & ? & _). destruct (H1 a Ha). lia.
Qed.

(** The original node only: to the left and to the right of the intersection. *)
Lemma frag_left m1 r :
  avl_nodes m1 = l1 ++ middle_piece n fr :: l2 →
  ∃ m2,
    (if cstart n <? cut_start n fr
     then frag_copy (mkRegion (cstart n) (cut_start n fr - cstart n))
            (mkFrag m1 (Some (cut_start n fr)) true r)
     else Some (mkFrag m1 (Some (cut_start n fr)) true r)) =
    Some (mkFrag m2 (Some (cut_start n fr)) true r) ∧
    avl_nodes m2 = (l1 ++ left_piece n fr) ++ middle_piece n fr :: l2.
Proof.
  intros Hm1. pose proof (map_wf_sorted _ pieces_map_wf) as Hs. unfold pieces in Hs.
  revert Hs. unfold left_piece. destruct (_ <? _) eqn:E; bool_hyps; intros Hs;
    [|rewrite app_nil_r; eauto]. simpl in Hs.
  destruct (frag_copy_middle (cstart n) (cut_start n fr) m1 (cut_start n fr) true r
    (middle_piece n fr) l1 (middle_piece n fr :: l2)) as (m2 & -> & Hm2).
  - replace (cut_start n fr) with (node_key (middle_piece n fr)) by apply key_cut.
    rewrite Hm1. apply it_deref_middle. eapply key_sorted_sublist; [|exact Hs].
    by apply sublist_app, sublist_cons, sublist_skip, sublist_inserts_l.
  - done.
  - unfold middle_piece at 1. rewrite cut_cut. eapply key_sorted_sublist; [|exact Hs].
    by apply sublist_app, sublist_skip, sublist_skip, sublist_inserts_l.
  - exists m2. split; [done|]. rewrite Hm2. unfold middle_piece at 1. rewrite cut_cut.
    by rewrite <- app_assoc.
Qed.

Lemma frag_right m2 r :
  avl_nodes m2 = (l1 ++ left_piece n fr) ++ middle_piece n fr :: l2 →
  ∃ m',
    (if cut_end n fr <? cend n
     then frag_copy (mkRegion (cut_end n fr) (cend n - cut_end n fr))
            (mkFrag m2 (Some (cut_start n fr)) true r)
     else Some (mkFrag m2 (Some (cut_start n fr)) true r)) =
    Some (mkFrag m' (Some (cut_start n fr)) true r) ∧
    avl_nodes m' = l1 ++ pieces n fr ++ l2.
Proof.
  intros Hm2. pose proof (map_wf_sorted _ pieces_map_wf) as Hs. unfold pieces in Hs |- *.
  revert Hs. unfold right_piece. destruct (_ <? _) eqn:E; bool_hyps; intros Hs.
  - rewrite <- !app_assoc in Hs. simpl in Hs.
    destruct (frag_copy_middle (cut_end n fr) (cend n) m2 (cut_start n fr) true r
      (middle_piece n fr) (l1 ++ left_piece n fr ++ [middle_piece n fr]) l2) as (m' & -> & Hm').
    + replace (cut_start n fr) with (node_key (middle_piece n fr)) by apply key_cut.
      rewrite Hm2. apply it_deref_middle. rewrite <- app_assoc. eapply key_sorted_sublist; [|exact Hs].
      by apply sublist_app, sublist_app, sublist_skip, sublist_cons.
    + by rewrite Hm2, <- !app_assoc.
    + unfold middle_piece at 2. rewrite cut_cut. by rewrite <- !app_assoc.
    + exists m'. split; [done|]. rewrite Hm'. unfold middle_piece at 2. rewrite cut_cut.
      by rewrite <- !app_assoc.
  - exists m2. split; [done|]. rewrite Hm2. by rewrite <- !app_assoc.
Qed.

#[local] Arguments frag_copy : simpl never.

(** [fragmentByIntersection] that keeps the intersection replaces the node by its pieces
    (copies of its contents whose regions partition it), returns the piece that is inside the
    fragmenting region, and keeps the map well formed. *)
Theorem fragmentByIntersection_keep :
  ∃ m', fragmentByIntersection (node_key n) fr false m =
          Some (m', Some (node_key (middle_piece n fr))) ∧
    avl_nodes m' = l1 ++ pieces n fr ++ l2 ∧ map_wf (avl_nodes m').
Proof.
  destruct frag_facts as (Hn & Hs & _ & _ & _ & Hne). unfold fragmentByIntersection.
  rewrite (it_deref_elem node_key (avl_nodes m) n); [simpl|done|rewrite Hnodes; set_solver].
  rewrite processIntersectingFragments_closed by (done || apply Hn). simpl.
  fold (cstart n). fold (cend n). fold (cut_start n fr). fold (cut_end n fr).
  destruct (frag_left _ (Some (cut_start n fr)) (assign_middle m l1 n l2 _ Hnodes Hs)) as (m2 & Hl & Hm2).
  destruct (frag_right m2 (Some (cut_start n fr)) Hm2) as (m' & Hr & Hm').
  exists m'. split; [|split; [done|rewrite Hm'; apply pieces_map_wf]].
  unfold middle_piece. rewrite key_cut. unfold frag_set_result. simpl. revert Hl Hr.
  destruct (cstart n <? _) eqn:El.
  - intros ->. simpl. destruct (_ <? cend n) eqn:Er.
    + by intros ->.
    + intros [= ->]. by destruct (_ <? startAddress fr + _).
  - intros [= Hl]. destruct (_ <? cend n) eqn:Er.
    + intros Hr. destruct (startAddress fr <? cut_start n fr); simpl; rewrite Hl, Hr; done.
    + intros [= Hr]. subst m'. 
      destruct (startAddress fr <? cut_start n fr), (_ <? startAddress fr + _); simpl; by rewrite Hl.
Qed.

(** With [removeIntersection] the node is simply erased when the fragmenting region covers
    it; otherwise the code copies the contents of the node it has just deleted to make the
    remaining fragments, which the model reports as undefined behaviour. *)
Theorem fragmentByIntersection_remove :
  match fragmentByIntersection (node_key n) fr true m with
  | Some (m', it) =>
      startAddress fr ≤ cstart n ∧ cend n ≤ startAddress fr + rlength fr ∧
      it = None ∧ avl_nodes m' = l1 ++ l2
  | None => cstart n < startAddress fr ∨ startAddress fr + rlength fr < cend n
  end.
Proof.
  destruct frag_facts as (Hn & Hs & _ & _ & _ & Hne). unfold fragmentByIntersection.
  rewrite (it_deref_elem node_key (avl_nodes m) n); [simpl|done|rewrite Hnodes; set_solver].
  rewrite processIntersectingFragments_closed by (done || apply Hn). simpl.
  fold (cstart n). fold (cend n). fold (cut_start n fr). fold (cut_end n fr).
  pose proof (erase_middle m l1 n l2 Hnodes Hs) as He. unfold cut_start, cut_end.
  repeat (case_match; bool_hyps; simplify_eq/=); try lia; split_and!; try done; lia.
Qed.
End fragmentation.

(** ** Concrete maps *)

(** Processors that only observe the map are local. *)
Section observers.
Context {C : Type} `{!RegionContent C} {M : Type} `{!AvlSet C node_key M} {St : Type}.

Lemma map_wf_before (l : list C) a b :
  map_wf l → a ∈ l → b ∈ l → node_key a < cend b → cend a ≤ cend b.
Proof.
  intros Hwf Ha Hb Hlt. apply list_elem_of_split in Hb as (l1 & l2 & ->).
  apply map_wf_app in Hwf as (_ & Hwf & H1). apply map_wf_cons in Hwf as (Hb & _ & H2).
  pose proof (content_wf_lt _ Hb). apply elem_of_app in Ha as [Ha|Ha].
  - specialize (H1 a b Ha ltac:(set_solver)). lia.
  - apply elem_of_cons in Ha as [->|Ha]; [done|]. specialize (H2 a Ha).
    unfold node_key, cstart in *. lia.
Qed.

Lemma observer_local (g : Z → St → bool * St) :
  local_processor (λ k (s : M * St), ((g k s.2).1, (s.1, (g k s.2).2))).
Proof.
  intros n s Hwf Hn. simpl. split_and!; [done..|]. intros c Hc. by eapply map_wf_before.
Qed.

Lemma observer_missing_local (g : DataAccessRegion → St → bool * St) :
  local_missing (λ r (s : M * St), ((g r s.2).1, (s.1, (g r s.2).2))).
Proof.
  intros r s Hwf Hr Hpos Hfree. simpl. split_and!; [done..|]. intros c Hc Hk.
  destruct (Hfree c Hc); [lia|]. unfold node_key, cstart in *. lia.
Qed.
End observers.

(** A map of two tagged regions. *)
#[export] Instance tagged_content : RegionContent (DataAccessRegion * nat) := {|
  getAccessRegion := fst;
  setAccessRegion r c := (r, snd c);
  get_set_region r c := eq_refl;
  set_set_region r r' c := eq_refl;
|}.

Definition sample_map : list (DataAccessRegion * nat) :=
  [(mkRegion 0 16, 1%nat); (mkRegion 32 16, 2%nat)].

Lemma sample_map_wf : map_wf sample_map.
Proof.
  apply map_wf_cons. split; [vm_compute; intuition discriminate|]. split.
  - apply map_wf_cons. split; [vm_compute; intuition discriminate|]. split; [apply map_wf_nil|set_solver].
  - intros b ->%list_elem_of_singleton. vm_compute. discriminate.
Qed.

Lemma processIntersecting_correct_witness :
  processIntersecting (C := DataAccessRegion * nat) 2 (mkRegion 8 32)
    (λ k (s : list (DataAccessRegion * nat) * list Z), (true, (s.1, s.2 ++ [k]))) (sample_map, []) =
  Some (true, (sample_map, [0; 32])).
Proof.
  etransitivity; [|shelve].
  apply (processIntersecting_correct (C := DataAccessRegion * nat)).
  - vm_compute; intuition discriminate.
  - apply sample_map_wf.
  - apply (observer_local (λ k st, (true, st ++ [k]))).
  - apply le_n.
  Unshelve. reflexivity.
Defined.

Lemma map_exists_correct_witness :
  map_contains (C := DataAccessRegion * nat) 2 (mkRegion 40 4) sample_map = Some true.
Proof.
  apply (map_exists_correct (C := DataAccessRegion * nat) (mkRegion 40 4) (λ _, true) 2 (sample_map, tt)).
  - vm_compute; intuition discriminate.
  - apply sample_map_wf.
  - apply le_n.
  - exists (mkRegion 32 16, 2%nat). split; [right; left|reflexivity].
Defined.

(** Processors that record what they are given. *)
Definition record_position (k : Z)
    (s : list (DataAccessRegion * nat) * list (DataAccessRegion + Z)) :=
  (true, (s.1, s.2 ++ [inr k])).
Definition record_missing (r : DataAccessRegion)
    (s : list (DataAccessRegion * nat) * list (DataAccessRegion + Z)) :=
  (true, (s.1, s.2 ++ [inl r])).

Lemma processIntersectingAndMissing_correct_witness :
  ∃ es,
    processIntersectingAndMissing (C := DataAccessRegion * nat) 2 (mkRegion 8 56)
      record_position record_missing (sample_map, []) =
    Some (run_events record_position record_missing es (sample_map, [])) ∧
    (∃ r, inl r ∈ es ∧ 20 ∈ r) ∧ ¬ ∃ r, inl r ∈ es ∧ 40 ∈ r.
Proof.
  destruct (processIntersectingAndMissing_correct (C := DataAccessRegion * nat) (mkRegion 8 56)
    record_position record_missing 2 (sample_map, [])) as (es & Heq & _ & Hgap).
  - vm_compute; intuition discriminate.
  - reflexivity.
  - apply sample_map_wf.
  - apply (observer_local (λ k st, (true, st ++ [inr k]))).
  - apply (observer_missing_local (λ r st, (true, st ++ [inl r]))).
  - apply le_n.
  - exists es. split; [exact Heq|]. split.
    + apply Hgap. split; [vm_compute; intuition discriminate|].
      intros c [->|[->|Hc]%elem_of_cons]%elem_of_cons; [..|set_solver];
        rewrite elem_of_region; simpl; lia.
    + rewrite Hgap. intros [_ Hc]. apply (Hc (mkRegion 32 16, 2%nat)); [right; left|].
      vm_compute; intuition discriminate.
Defined.

Lemma fragmentByIntersection_keep_witness :
  ∃ m', fragmentByIntersection (C := DataAccessRegion * nat) 32 (mkRegion 36 4) false sample_map =
    Some (m', Some 36) ∧ map_wf m'.
Proof.
  destruct (fragmentByIntersection_keep (C := DataAccessRegion * nat) sample_map
    [(mkRegion 0 16, 1%nat)] (mkRegion 32 16, 2%nat) [] (mkRegion 36 4)) as (m' & Hm & _ & Hwf).
  - apply sample_map_wf.
  - reflexivity.
  - vm_compute; intuition discriminate.
  - reflexivity.
  - exists m'. split; [exact Hm|exact Hwf].
Defined.

Lemma fragmentByIntersection_remove_witness :
  fragmentByIntersection (C := DataAccessRegion * nat) 32 (mkRegion 36 4) true sample_map = None ∧
  (32 < 36 ∨ 40 < 48).
Proof.
  split; [reflexivity|].
  pose proof (fragmentByIntersection_remove (C := DataAccessRegion * nat) sample_map
    [(mkRegion 0 16, 1%nat)] (mkRegion 32 16, 2%nat) [] (mkRegion 36 4)
    sample_map_wf eq_refl ltac:(vm_compute; intuition discriminate) eq_refl) as H.
  vm_compute in H. exact H.
Defined.
