(* ===== verification/IntrusiveRegionMap.v ===== *)
(** * The intrusive map of linear regions

    [IntrusiveLinearRegionMap] of [src/dependencies/linear-regions/IntrusiveLinearRegionMap.hpp]
    and [IntrusiveLinearRegionMapImplementation.hpp].  The nodes are the objects themselves, and
    the processors are closures over the whole state of the program, so a map is a reference
    into a larger state and its operations are computations on that state.  Iterators are the
    start addresses of their nodes. *)

From S2P Require Import Prelude Region Boost RegionMap StateMonad.
Local Open Scope Z_scope.

(** Where a map lives in a state. *)
Record map_ref (S MC : Type) := mkMapRef {
  ref_get : S → res MC;
  ref_put : MC → S → S;
}.
Arguments mkMapRef {S MC} _ _.
Arguments ref_get {S MC} _ _.
Arguments ref_put {S MC} _ _ _.

Section intrusive_map.
Context {C : Type} `{!RegionContent C} {MC : Type} `{!AvlSet C node_key MC}.
Context {S : Type}.
Implicit Types r : map_ref S MC.

Definition map_nodes r : stM S (list C) := st_read (λ s, m ← ref_get r s; Ok (avl_nodes m)).

(** [*it] *)
Definition map_deref r (position : Z) : stM S C :=
  st_read (λ s, m ← ref_get r s; get (it_deref node_key position (avl_nodes m))).

Definition map_update r (f : MC → MC) : stM S unit :=
  m ← st_read (ref_get r); st_modify (ref_put r (f m)).

(** Writing fields of the object that an iterator points at. *)
Definition map_assign r (position : Z) (f : C → C) : stM S unit :=
  _ ← map_deref r position; map_update r (avl_assign position f).

(** [BaseType::insert] *)
Definition map_insert r (c : C) : stM S unit := map_update r (avl_insert c).

(** [erase]: the object is unlinked, not deleted. *)
Definition map_erase r (position : Z) : stM S unit :=
  _ ← map_deref r position; map_update r (avl_erase position).

Definition map_isEmpty r : stM S bool := l ← map_nodes r; mret (bool_decide (l = [])).

(** [clear] and [deleteAll] *)
Definition map_clear r : stM S unit := map_update r (λ _, avl_empty).

(** ** Traversals *)

Fixpoint processAll_loop (fuel : nat) r (processor : Z → stM S bool) (it : option Z) : stM S bool :=
  match it with
  | None => mret true
  | Some position =>
      match fuel with
      | O => st_fail OutOfFuel
      | Datatypes.S fuel =>
          _ ← map_deref r position;
          l ← map_nodes r;
          let it := it_next node_key position l in
          cont ← processor position;
          if cont : bool then processAll_loop fuel r processor it else mret false
      end
  end.

(** Every traversal has as many rounds of fuel as the map has nodes when it starts. *)
Definition processAll r (processor : Z → stM S bool) : stM S bool :=
  l ← map_nodes r; processAll_loop (length l) r processor (it_begin node_key l).

(** [lower_bound], moved back one node unless it is the first one or starts at the region. *)
Definition first_position r (region : DataAccessRegion) : stM S (option Z) :=
  m ← st_read (ref_get r); mret (step_back region m).

Fixpoint processIntersecting_loop (fuel : nat) r (region : DataAccessRegion)
    (processor : Z → stM S bool) (it : option Z) : stM S bool :=
  match it with
  | None => mret true
  | Some position =>
      match fuel with
      | O => st_fail OutOfFuel
      | Datatypes.S fuel =>
          n ← map_deref r position;
          if startAddress (getAccessRegion n) <? getEndAddress region then
            l ← map_nodes r;
            let it := it_next node_key position l in
            if negb (empty (intersect region (getAccessRegion n))) then
              cont ← processor position;
              if cont : bool then processIntersecting_loop fuel r region processor it else mret false
            else processIntersecting_loop fuel r region processor it
          else mret true
      end
  end.

Definition processIntersecting r (region : DataAccessRegion) (processor : Z → stM S bool) :
    stM S bool :=
  l ← map_nodes r; it ← first_position r region;
  processIntersecting_loop (length l) r region processor it.

(** The end of [processIntersectingAndMissing]. *)
Definition missing_finish (region : DataAccessRegion)
    (missingProcessor : DataAccessRegion → stM S bool) (lastEnd : Z) : stM S bool :=
  if lastEnd <? getEndAddress region
  then missingProcessor (region_of_bounds lastEnd (getEndAddress region))
  else mret true.

Fixpoint processIntersectingAndMissing_loop (fuel : nat) r (region : DataAccessRegion)
    (intersectingProcessor : Z → stM S bool) (missingProcessor : DataAccessRegion → stM S bool)
    (lastEnd : Z) (it : option Z) : stM S bool :=
  match it with
  | None => missing_finish region missingProcessor lastEnd
  | Some position =>
      match fuel with
      | O => st_fail OutOfFuel
      | Datatypes.S fuel =>
          n ← map_deref r position;
          let start := startAddress (getAccessRegion n) in
          if start <? getEndAddress region then
            l ← map_nodes r;
            let it := it_next node_key position l in
            cont ← (if lastEnd <? start then missingProcessor (region_of_bounds lastEnd start)
                    else mret true);
            if cont : bool then
              n ← map_deref r position;
              let endp := getEndAddress (getAccessRegion n) in
              let lastEnd := if endp <=? getEndAddress region then endp else getEndAddress region in
              cont ← intersectingProcessor position;
              if cont : bool then
                processIntersectingAndMissing_loop fuel r region intersectingProcessor
                  missingProcessor lastEnd it
              else mret false
            else mret false
          else missing_finish region missingProcessor lastEnd
      end
  end.

Definition processIntersectingAndMissing r (region : DataAccessRegion)
    (intersectingProcessor : Z → stM S bool) (missingProcessor : DataAccessRegion → stM S bool) :
    stM S bool :=
  l ← map_nodes r;
  if bool_decide (l = []) then missingProcessor region
  else
    m ← st_read (ref_get r);
    let initial := node_key <$> avl_lower_bound (startAddress region) m in
    it ← first_position r region;
    it ← match it with
         | Some position =>
             n ← map_deref r position;
             mret (if getEndAddress (getAccessRegion n) <=? startAddress region then initial else it)
         | None => st_fail Dangling
         end;
    processIntersectingAndMissing_loop (length l) r region intersectingProcessor missingProcessor
      (startAddress region) it.

(** ** Fragmentation *)

(** The variables that the lambdas of [fragmentByIntersection] capture: the node [position] and
    [contents] refer to (its start address, or the object itself once it has been unlinked),
    [alreadyShrinked] and [intersectionPosition]. *)
Record frag_vars := mkFragVars {
  fv_position : Z + C;
  fv_alreadyShrinked : bool;
  fv_intersectionPosition : option Z;
}.

Section fragment.
Context r (duplicator : C → stM S C) (postprocessor : Z → Z → stM S unit).

(** [position->setAccessRegion(region)]; [alreadyShrinked = true]; the postprocessor. *)
Definition frag_shrink (region : DataAccessRegion) (v : frag_vars) : stM S frag_vars :=
  match fv_position v with
  | inl k =>
      map_assign r k (setAccessRegion region);;
      postprocessor (startAddress region) (startAddress region);;
      mret (mkFragVars (inl (startAddress region)) true (fv_intersectionPosition v))
  | inr _ => st_fail Dangling
  end.

(** [newContents = duplicator(contents)], its region set, inserted; the postprocessor.  A
    postprocessor does not look at a node that has been unlinked. *)
Definition frag_new (region : DataAccessRegion) (v : frag_vars) : stM S frag_vars :=
  contents ← match fv_position v with inl k => map_deref r k | inr c => mret c end;
  newContents ← duplicator contents;
  map_insert r (setAccessRegion region newContents);;
  match fv_position v with
  | inl k => postprocessor (startAddress region) k
  | inr _ => mret tt
  end;;
  mret v.

Definition frag_original (region : DataAccessRegion) (v : frag_vars) : stM S frag_vars :=
  if negb (fv_alreadyShrinked v) then frag_shrink region v else frag_new region v.

Definition frag_intersection (removeIntersection : bool) (region : DataAccessRegion)
    (v : frag_vars) : stM S frag_vars :=
  if negb removeIntersection then
    v ← (if negb (fv_alreadyShrinked v) then frag_shrink region v else frag_new region v);
    mret (mkFragVars (fv_position v) (fv_alreadyShrinked v) (Some (startAddress region)))
  else if negb (fv_alreadyShrinked v) then
    match fv_position v with
    | inl k =>
        c ← map_deref r k;
        map_erase r k;;
        mret (mkFragVars (inr c) true (fv_intersectionPosition v))
    | inr _ => st_fail Dangling
    end
  else mret v.

Definition fragmentByIntersection (position : Z) (fragmenterRegion : DataAccessRegion)
    (removeIntersection : bool) : stM S (option Z) :=
  original ← map_deref r position;
  v ← processIntersectingFragments (getAccessRegion original) fragmenterRegion
        (λ region m, m ≫= frag_original region)
        (λ region m, m ≫= frag_intersection removeIntersection region)
        (λ region m, m)
        (mret (mkFragVars (inl position) false None));
  mret (fv_intersectionPosition v).

Definition fragmentIntersecting (region : DataAccessRegion) : stM S unit :=
  _ ← processIntersecting r region
        (λ position, _ ← fragmentByIntersection position region false; mret true);
  mret tt.
End fragment.
End intrusive_map.
