(* ===== verification/IntrusiveRegionMapProofs.v ===== *)
(** * The intrusive map of linear regions: rules

    Weakest precondition rules for the operations of the intrusive maps.  A traversal whose
    processor leaves alone what lies beyond the node that it gets visits the nodes that the map had
    when it started, whatever the processor does to the rest of the state; fragmentation replaces a
    node by the pieces that its duplicator and postprocessor make. *)

From S2P Require Import Prelude Region Boost RegionMap RegionMapProofs StateMonad.
From S2P Require Import IntrusiveRegionMap.
Local Open Scope Z_scope.

Section rules.
Context {C : Type} `{!RegionContent C} {MC : Type} `{!AvlSet C node_key MC} `{!AvlSetLaws C node_key MC}.
Context {S : Type}.
Implicit Types (r : map_ref S MC) (s : S) (l : list C).

(** The nodes of the map that a reference designates. *)
Definition nodes_at r s l : Prop := ∃ m, ref_get r s = Ok m ∧ avl_nodes m = l.

Lemma nodes_at_det r s l l' : nodes_at r s l → nodes_at r s l' → l = l'.
Proof. intros (m & Hm & <-) (m' & Hm' & <-). congruence. Qed.

(** Beyond an address, the map is as it was. *)
Definition keeps_beyond r (b : Z) s s' : Prop :=
  ∃ l l', nodes_at r s l ∧ nodes_at r s' l' ∧ map_wf l' ∧
    filter (λ c, b ≤ node_key c) l' = filter (λ c, b ≤ node_key c) l.

Lemma keeps_beyond_refl r b s l : nodes_at r s l → map_wf l → keeps_beyond r b s s.
Proof. intros. by exists l, l. Qed.

Lemma keeps_beyond_same r b s s' l :
  nodes_at r s l → map_wf l → nodes_at r s' l → keeps_beyond r b s s'.
Proof. intros. by exists l, l. Qed.

(** The nodes from [b] on. *)
Definition suffix_at r (b : Z) l s : Prop := ∃ m, ref_get r s = Ok m ∧ suffix_from b l (m, tt).

Lemma suffix_at_head r b n l s :
  suffix_at r b (n :: l) s →
  ∃ m, ref_get r s = Ok m ∧ map_wf (avl_nodes m) ∧ n ∈ avl_nodes m ∧ content_wf n ∧
    it_deref node_key (node_key n) (avl_nodes m) = Some n ∧
    it_next node_key (node_key n) (avl_nodes m) = node_key <$> head l.
Proof.
  intros (m & Hm & Hs). destruct (suffix_from_deref _ _ _ _ Hs) as (? & ? & ? & ?).
  exists m. destruct Hs as [? _]. done.
Qed.

Lemma suffix_at_skip r b n l s : suffix_at r b (n :: l) s → suffix_at r (cend n) l s.
Proof. intros (m & ? & ?). exists m. split; [done|]. by eapply suffix_from_skip. Qed.

Lemma suffix_at_keeps r b n l s s' :
  suffix_at r b (n :: l) s → keeps_beyond r (cend n) s s' → suffix_at r (cend n) l s'.
Proof.
  intros Hs (l1 & l2 & (m1 & H1 & <-) & (m2 & H2 & <-) & Hwf & Hf).
  destruct (suffix_at_skip _ _ _ _ _ Hs) as (m & Hm & Hwf' & Hf').
  exists m2. split; [done|]. split; [done|]. simpl in *. congruence.
Qed.

Lemma suffix_at_app r pre l s :
  nodes_at r s (pre ++ l) → map_wf (pre ++ l) → ∃ b, suffix_at r b l s.
Proof.
  intros (m & Hm & Hl) Hwf. destruct (suffix_from_app pre l (m, tt)) as (b & Hb & _); simpl.
  - by rewrite Hl.
  - done.
  - exists b, m. done.
Qed.

(** ** Single operations *)

Lemma wp_map_nodes r l (Q : list C → S → Prop) s : nodes_at r s l → Q l s → wp (map_nodes r) Q s.
Proof.
  intros (m & Hm & <-) HQ. unfold map_nodes. eapply wp_read; [|done]. by rewrite Hm.
Qed.

Lemma wp_map_deref r l n (Q : C → S → Prop) s :
  nodes_at r s l → map_wf l → n ∈ l → Q n s → wp (map_deref r (node_key n)) Q s.
Proof.
  intros (m & Hm & <-) Hwf Hn HQ. unfold map_deref. eapply wp_read; [|done]. rewrite Hm. simpl.
  rewrite (it_deref_elem node_key _ n); [done|by apply map_wf_sorted|done].
Qed.

Lemma wp_map_update r m f (Q : unit → S → Prop) s :
  ref_get r s = Ok m → Q tt (ref_put r (f m) s) → wp (map_update r f) Q s.
Proof. intros Hm HQ. unfold map_update. apply wp_bind. by eapply wp_read. Qed.

Lemma wp_map_assign r m l1 n l2 f (Q : unit → S → Prop) s :
  ref_get r s = Ok m → avl_nodes m = l1 ++ n :: l2 → map_wf (avl_nodes m) →
  (∀ m', avl_nodes m' = l1 ++ f n :: l2 → Q tt (ref_put r m' s)) →
  wp (map_assign r (node_key n) f) Q s.
Proof.
  intros Hm Hl Hwf HQ. unfold map_assign. apply wp_bind.
  apply (wp_map_deref r (avl_nodes m)); [by exists m|done|rewrite Hl; set_solver|]. eapply wp_map_update; [done|].
  apply HQ, assign_middle; [done|by apply map_wf_sorted].
Qed.

Lemma wp_map_insert r m l1 c l2 (Q : unit → S → Prop) s :
  ref_get r s = Ok m → avl_nodes m = l1 ++ l2 → map_wf (avl_nodes m) → map_wf (l1 ++ c :: l2) →
  (∀ m', avl_nodes m' = l1 ++ c :: l2 → Q tt (ref_put r m' s)) →
  wp (map_insert r c) Q s.
Proof.
  intros Hm Hl Hwf Hwf' HQ. eapply wp_map_update; [done|]. apply HQ, insert_middle; [done| |..].
  - by apply map_wf_sorted.
  - apply map_wf_sorted, key_sorted_middle in Hwf' as [? _]. done.
  - apply map_wf_sorted, key_sorted_middle in Hwf' as [_ ?]. done.
Qed.

Lemma wp_map_erase r m l1 n l2 (Q : unit → S → Prop) s :
  ref_get r s = Ok m → avl_nodes m = l1 ++ n :: l2 → map_wf (avl_nodes m) →
  (∀ m', avl_nodes m' = l1 ++ l2 → Q tt (ref_put r m' s)) →
  wp (map_erase r (node_key n)) Q s.
Proof.
  intros Hm Hl Hwf HQ. unfold map_erase. apply wp_bind.
  apply (wp_map_deref r (avl_nodes m)); [by exists m|done|rewrite Hl; set_solver|]. eapply wp_map_update; [done|].
  apply HQ, erase_middle; [done|by apply map_wf_sorted].
Qed.

Lemma wp_map_isEmpty r l (Q : bool → S → Prop) s :
  nodes_at r s l → Q (bool_decide (l = [])) s → wp (map_isEmpty r) Q s.
Proof. intros Hl HQ. apply wp_bind. by eapply wp_map_nodes. Qed.

(** ** Traversals *)

(** What a step of a traversal guarantees: the processor continues, the invariant goes from the
    remaining nodes to those after the one it got, and what lies beyond is kept. *)
Definition visits r (p : Z → stM S bool) (I : list C → S → Prop) (P : C → Prop) : Prop :=
  ∀ n rest s l, nodes_at r s l → map_wf l → n ∈ l → P n → I (n :: rest) s →
    wp (p (node_key n)) (λ c s', c = true ∧ I rest s' ∧ keeps_beyond r (cend n) s s') s.

Lemma wp_processAll_loop r p I fuel b l s :
  visits r p I (λ _, True) → (length l ≤ fuel)%nat → suffix_at r b l s → I l s →
  wp (processAll_loop fuel r p (node_key <$> head l)) (λ c s', c = true ∧ I [] s') s.
Proof.
  intros Hp. revert fuel b s. induction l as [|n l IH]; intros fuel b s Hfuel Hsuf HI.
  { destruct fuel; by apply wp_ret. }
  destruct fuel as [|fuel]; [simpl in *; lia|]. simpl.
  destruct (suffix_at_head _ _ _ _ _ Hsuf) as (m & Hm & Hwf & Hin & Hn & Hd & Hnext).
  apply wp_bind. eapply wp_map_deref; [by exists m|done..|].
  apply wp_bind. eapply wp_map_nodes; [by exists m|].
  apply wp_bind. eapply wp_mono; [eapply Hp; [by exists m|done..]|].
  intros c s' (-> & HI' & Hk). rewrite Hnext. eapply IH; [simpl in *; lia| |done].
  by eapply suffix_at_keeps.
Qed.

Lemma wp_processAll r p I l s :
  nodes_at r s l → map_wf l → visits r p I (λ _, True) → I l s →
  wp (processAll r p) (λ c s', c = true ∧ I [] s') s.
Proof.
  intros Hl Hwf Hp HI. unfold processAll. apply wp_bind. eapply wp_map_nodes; [done|].
  destruct (suffix_at_app r [] l s Hl Hwf) as (b & Hb). eapply wp_processAll_loop; [done..|by apply Hb|done].
Qed.

Lemma wp_processIntersecting_loop r region p I fuel b l s :
  region_wf region → visits r p I (intersects region) →
  (length l ≤ fuel)%nat → suffix_at r b l s → I (filter (intersects region) l) s →
  wp (processIntersecting_loop fuel r region p (node_key <$> head l)) (λ c s', c = true ∧ I [] s') s.
Proof.
  intros Hr Hp. revert fuel b s. induction l as [|n l IH]; intros fuel b s Hfuel Hsuf HI.
  { destruct fuel; by apply wp_ret. }
  destruct fuel as [|fuel]; [simpl in *; lia|]. simpl.
  destruct (suffix_at_head _ _ _ _ _ Hsuf) as (m & Hm & Hwf & Hin & Hn & Hd & Hnext).
  apply wp_bind. eapply wp_map_deref; [by exists m|done..|].
  rewrite (end_address_wf _ Hr). destruct (_ <? _) eqn:E; bool_hyps.
  - apply wp_bind. eapply wp_map_nodes; [by exists m|]. rewrite Hnext.
    destruct (decide (intersects region n)) as [Hi|Hi].
    + rewrite filter_cons_True in HI by done. pose proof Hi as Hi'. unfold intersects in Hi'.
      rewrite Hi'. simpl. apply wp_bind. eapply wp_mono; [eapply Hp; [by exists m|done..]|].
      intros c s' (-> & HI' & Hk). eapply IH; [simpl in *; lia| |done]. by eapply suffix_at_keeps.
    + rewrite filter_cons_False in HI by done. unfold intersects in Hi.
      apply not_false_iff_true in Hi as ->. simpl. eapply IH; [simpl in *; lia| |done].
      by eapply suffix_at_skip.
  - apply wp_ret. split; [done|]. destruct Hsuf as (m' & _ & Hs).
    destruct (suffix_from_split _ _ _ Hs) as (pre & _ & Hwfl).
    by rewrite filter_intersects_beyond in HI.
Qed.

Lemma wp_processIntersecting r region p I l s :
  region_wf region → nodes_at r s l → map_wf l → visits r p I (intersects region) →
  I (filter (intersects region) l) s →
  wp (processIntersecting r region p) (λ c s', c = true ∧ I [] s') s.
Proof.
  intros Hr (m & Hm & Hl) Hwf Hp HI. subst l. unfold processIntersecting.
  apply wp_bind. eapply wp_map_nodes; [by exists m|].
  apply wp_bind. unfold first_position. apply wp_bind. eapply wp_read; [done|]. apply wp_ret.
  destruct (step_back_spec region m Hwf) as (pre & l & Hl & -> & Hpre & _).
  rewrite Hl in Hwf, HI. rewrite filter_intersects_skip in HI by done.
  destruct (suffix_at_app r pre l s) as (b & Hb); [by exists m|done|].
  eapply wp_processIntersecting_loop; [done..| |done|done]. rewrite Hl, length_app. lia.
Qed.

(** *** Nodes and gaps *)

(** Beyond an address the map is as it was, and nothing reaches across the address. *)
Definition keeps_local r (b : Z) s s' : Prop :=
  keeps_beyond r b s s' ∧
  ∀ l' c, nodes_at r s' l' → c ∈ l' → node_key c < b → cend c ≤ b.

Definition cover_at r region (b lastEnd : Z) l s : Prop :=
  ∃ m, ref_get r s = Ok m ∧ cover_inv region b lastEnd l (m, tt).

(** The processors of a traversal of nodes and gaps: the invariant goes with the address up to
    which the region has been covered. *)
Definition visits_node r region (p : Z → stM S bool) (I : Z → S → Prop) : Prop :=
  ∀ n s l, nodes_at r s l → map_wf l → n ∈ l → intersects region n →
    I (Z.max (startAddress region) (cstart n)) s →
    wp (p (node_key n)) (λ c s', c = true ∧
      I (Z.min (cend n) (startAddress region + rlength region)) s' ∧ keeps_local r (cend n) s s') s.

Definition visits_gap r region (missing : DataAccessRegion → stM S bool) (I : Z → S → Prop) : Prop :=
  ∀ a b s l, nodes_at r s l → map_wf l →
    startAddress region ≤ a → a < b → b ≤ startAddress region + rlength region →
    (∀ c, c ∈ l → cend c ≤ a ∨ b ≤ cstart c) →
    (b < startAddress region + rlength region → ∃ c, c ∈ l ∧ cstart c = b) → I a s →
    wp (missing (mkRegion a (b - a))) (λ c s', c = true ∧ I b s' ∧
      (b < startAddress region + rlength region → keeps_local r b s s')) s.

Lemma cover_at_gap r region b lastEnd n l s s' :
  cover_at r region b lastEnd (n :: l) s → lastEnd < cstart n →
  cstart n < startAddress region + rlength region → keeps_local r (cstart n) s s' →
  cover_at r region (cstart n) (cstart n) (n :: l) s'.
Proof.
  intros (m & Hm & [Hsuf Hb Hlast Ha]) Hlt HltE ((l1 & l2 & (m1 & H1 & <-) & (m2 & H2 & <-) & Hwf & Hf) & Hbel).
  assert (m1 = m) as -> by congruence.
  assert (b ≤ cstart n) as Hbn.
  { destruct Hsuf as [_ Hf']. simpl in Hf'.
    assert (n ∈ filter (λ c, b ≤ node_key c) (avl_nodes m)) as Hn by (rewrite Hf'; set_solver).
    by apply list_elem_of_filter in Hn as [? _]. }
  destruct (suffix_from_raise b (cstart n) n l (m, tt) Hsuf (conj Hbn (Z.le_refl _))) as [_ Hf'].
  exists m2. split; [done|]. split.
  - split; [done|]. simpl in *. congruence.
  - intros c Hc Hk. specialize (Hbel _ c ltac:(by exists m2) Hc Hk). lia.
  - lia.
  - done.
Qed.

Lemma cover_at_node r region b lastEnd n l s s' :
  region_wf region → cover_at r region b lastEnd (n :: l) s →
  cstart n < startAddress region + rlength region → keeps_local r (cend n) s s' →
  cover_at r region (cend n) (Z.min (cend n) (startAddress region + rlength region)) l s'.
Proof.
  intros Hr (m & Hm & [Hsuf Hb Hlast Ha]) HltE ((l1 & l2 & (m1 & H1 & <-) & (m2 & H2 & <-) & Hwf & Hf) & Hbel).
  assert (m1 = m) as -> by congruence. destruct (suffix_from_deref _ _ _ _ Hsuf) as (_ & _ & Hn & _).
  pose proof (content_wf_lt _ Hn). pose proof (Ha n ltac:(set_solver)).
  destruct (suffix_from_skip _ _ _ _ Hsuf) as [_ Hf']. unfold region_wf in Hr.
  exists m2. split; [done|]. split.
  - split; [done|]. simpl in *. congruence.
  - intros c Hc Hk. specialize (Hbel _ c ltac:(by exists m2) Hc Hk). lia.
  - lia.
  - set_solver.
Qed.

(** The gap before the next node, and the last gap, hold no node. *)
Lemma cover_at_disjoint r region b lastEnd l e s :
  cover_at r region b lastEnd l s → (∀ n, n ∈ l → e ≤ cstart n) →
  e ≤ startAddress region + rlength region →
  ∃ l', nodes_at r s l' ∧ map_wf l' ∧
    (lastEnd < e → ∀ c, c ∈ l' → cend c ≤ lastEnd ∨ e ≤ cstart c) ∧
    (startAddress region ≤ lastEnd) ∧ (∀ n, n ∈ l → n ∈ l').
Proof.
  intros (m & Hm & [Hsuf Hb Hlast Ha]) He HeE. exists (avl_nodes m).
  split_and!; [by exists m|by destruct Hsuf| |lia|].
  2:{ intros c Hc. destruct Hsuf as [_ Hsuf]. simpl in Hsuf. rewrite <- Hsuf in Hc.
    by apply list_elem_of_filter in Hc as [_ Hc]. }
  intros Hlt c Hc. simpl in *. destruct (decide (node_key c < b)) as [Hlo|Hhi].
  - left. specialize (Hb c Hc Hlo). lia.
  - right. apply He. destruct Hsuf as [_ <-]. apply list_elem_of_filter. split; [lia|done].
Qed.

Lemma wp_missing_finish r region missing I b lastEnd l s :
  region_wf region → visits_gap r region missing I → cover_at r region b lastEnd l s →
  (∀ n, n ∈ l → startAddress region + rlength region ≤ cstart n) → I lastEnd s →
  lastEnd ≤ startAddress region + rlength region →
  wp (missing_finish region missing lastEnd)
    (λ c s', c = true ∧ I (startAddress region + rlength region) s') s.
Proof.
  intros Hr Hg Hc Hl HI Hle. unfold missing_finish. rewrite (end_address_wf _ Hr).
  destruct (cover_at_disjoint _ _ _ _ _ _ _ Hc Hl (Z.le_refl _)) as (l' & Hn & Hwf & Hd & Hst & _).
  destruct (_ <? _) eqn:E; bool_hyps.
  - unfold region_wf in Hr. rewrite region_of_bounds_wf by lia.
    eapply wp_mono; [eapply Hg; [done|done|done|done|lia|by apply Hd|lia|done]|].
    intros c s' (-> & ? & _). done.
  - apply wp_ret. split; [done|]. replace (startAddress region + rlength region) with lastEnd by lia. done.
Qed.

Lemma wp_processIntersectingAndMissing_loop r region p missing I fuel b lastEnd l s :
  region_wf region → 0 < rlength region → visits_node r region p I → visits_gap r region missing I →
  (length l ≤ fuel)%nat → cover_at r region b lastEnd l s → I lastEnd s →
  lastEnd ≤ startAddress region + rlength region →
  wp (processIntersectingAndMissing_loop fuel r region p missing lastEnd (node_key <$> head l))
    (λ c s', c = true ∧ I (startAddress region + rlength region) s') s.
Proof.
  intros Hr Hpos Hp Hg. revert fuel b lastEnd s.
  induction l as [|n l IH]; intros fuel b lastEnd s Hfuel Hc HI Hle.
  { destruct fuel; simpl; (eapply wp_missing_finish; [done..| |done|done]; set_solver). }
  destruct fuel as [|fuel]; [simpl in *; lia|]. simpl.
  assert (∃ b, suffix_at r b (n :: l) s) as (b' & Hsuf).
  { destruct Hc as (m & Hm & [Hs _ _ _]). exists b, m. done. }
  destruct (suffix_at_head _ _ _ _ _ Hsuf) as (m & Hm & Hwf & Hin & Hn & Hd & Hnext).
  pose proof (content_wf_lt _ Hn) as Hlt.
  apply wp_bind. apply (wp_map_deref r (avl_nodes m)); [by exists m|done..|].
  rewrite (end_address_wf _ Hr). fold (cstart n). destruct (cstart n <? _) eqn:E; bool_hyps.
  2: { eapply wp_missing_finish; [done..| |done|done]. intros c Hc'.
    destruct Hsuf as (m' & _ & Hs). destruct (suffix_from_split _ _ _ Hs) as (pre & _ & Hnl).
    apply map_wf_cons in Hnl as (_ & _ & Hnl).
    apply elem_of_cons in Hc' as [->|Hc']; [done|]. specialize (Hnl c Hc'). lia. }
  apply wp_bind. apply (wp_map_nodes r (avl_nodes m)); [by exists m|]. rewrite Hnext.
  assert (∀ b s', cover_at r region b (Z.max (startAddress region) (cstart n)) (n :: l) s' →
    I (Z.max (startAddress region) (cstart n)) s' →
    wp (n' ← map_deref r (node_key n);
        let endp := getEndAddress (getAccessRegion n') in
        let lastEnd := if endp <=? startAddress region + rlength region then endp
                       else startAddress region + rlength region in
        cont ← p (node_key n);
        if cont : bool then
          processIntersectingAndMissing_loop fuel r region p missing lastEnd (node_key <$> head l)
        else mret false)
      (λ c s', c = true ∧ I (startAddress region + rlength region) s') s') as Hnode.
  { intros b1 s1 Hc1 HI1. assert (suffix_at r b1 (n :: l) s1) as Hsuf1.
    { destruct Hc1 as (m1 & Hm1 & [Hs _ _ _]). exists m1. done. }
    destruct (suffix_at_head _ _ _ _ _ Hsuf1) as (m1 & Hm1 & Hwf1 & Hin1 & _ & _ & _).
    apply wp_bind. apply (wp_map_deref r (avl_nodes m1)); [by exists m1|done..|].
    rewrite getEndAddress_cend by done.
    assert (startAddress region < cend n) as Hgt.
    { destruct Hc1 as (m2 & _ & [_ _ _ Ha]). apply Ha. set_solver. }
    apply wp_bind. eapply wp_mono.
    { apply (Hp n s1 (avl_nodes m1)); [by exists m1|done..| |done].
      apply intersects_spec; [done..|]. unfold region_wf in Hr. lia. }
    intros c s2 (-> & HI2 & Hk).
    replace (if cend n <=? startAddress region + rlength region then cend n
             else startAddress region + rlength region)
      with (Z.min (cend n) (startAddress region + rlength region)) by (case_Z; lia).
    eapply IH; [simpl in *; lia| |done|lia]. by eapply cover_at_node. }
  apply wp_bind. destruct (lastEnd <? cstart n) eqn:El; bool_hyps.
  - assert (∀ c, c ∈ n :: l → cstart n ≤ cstart c) as Hfar.
    { destruct Hsuf as (m' & _ & Hs). destruct (suffix_from_split _ _ _ Hs) as (pre & _ & Hnl).
      apply map_wf_cons in Hnl as (_ & _ & Hnl). intros c [->|Hc']%elem_of_cons; [done|].
      specialize (Hnl c Hc'). lia. }
    destruct (cover_at_disjoint _ _ _ _ _ _ _ Hc Hfar (Z.lt_le_incl _ _ E)) as (l' & Hn' & Hwf' & Hdis & Hst & Hsub).
    unfold region_wf in Hr. rewrite region_of_bounds_wf by (destruct Hn as [[? ?] ?]; unfold cstart in *; lia).
    eapply wp_mono; [eapply Hg; [done|done|done|done|lia|by apply Hdis| |done]|].
    { intros _. exists n. split; [apply Hsub; by left|done]. }
    intros c s' (-> & HI' & Hk). specialize (Hk E).
    pose proof (cover_at_gap _ _ _ _ _ _ _ _ Hc El E Hk) as Hc'.
    replace (cstart n) with (Z.max (startAddress region) (cstart n)) in Hc' at 2 by lia.
    eapply Hnode; [done|]. by replace (Z.max (startAddress region) (cstart n)) with (cstart n) by lia.
  - apply wp_ret. assert (lastEnd = Z.max (startAddress region) (cstart n)) as ->.
    { destruct Hc as (m' & _ & [Hs _ Hlast _]). assert (b ≤ cstart n).
      { destruct Hs as [_ Hf]. simpl in Hf.
        assert (n ∈ filter (λ c, b ≤ node_key c) (avl_nodes m')) as Hx by (rewrite Hf; set_solver).
        by apply list_elem_of_filter in Hx as [? _]. }
      unfold region_wf in Hr. lia. }
    by eapply Hnode.
Qed.

(** A traversal of a map that has nodes starts at one. *)
Lemma step_back_some region (m : MC) :
  map_wf (avl_nodes m) → avl_nodes m ≠ [] →
  ∃ k n, step_back region m = Some k ∧ it_deref node_key k (avl_nodes m) = Some n.
Proof.
  intros Hwf Hne. pose proof (map_wf_sorted _ Hwf) as Hs.
  assert (∀ n, n ∈ avl_nodes m → ∃ k n', Some (node_key n) = Some k ∧
    it_deref node_key k (avl_nodes m) = Some n') as Hok.
  { intros n Hn. exists (node_key n), n. split; [done|]. by apply it_deref_elem. }
  destruct (step_back_spec region m Hwf) as (pre & [|n l] & Hl & Hsb & _); simpl in Hsb.
  2: { rewrite Hsb. apply Hok. rewrite Hl. set_solver. }
  exfalso. rewrite app_nil_r in Hl.
  destruct (exists_last (l := pre)) as (q & a & ->); [by rewrite <- Hl|].
  unfold step_back in Hsb. destruct (decide _) as [He|He].
  - rewrite He in Hsb. destruct (avl_nodes m); [done|]. done.
  - destruct (filter_ge_split node_key (startAddress region) _ Hs) as (l1 & l2 & Hs12 & Hf & _ & _).
    rewrite (avl_lower_bound_law (N := C)), Hf in Hsb, He by done. destruct l2 as [|b l2]; simpl in *.
    + rewrite Hl, (it_prev_middle node_key q a []) in Hsb by (by rewrite <- Hl). done.
    + case_match; [|done]. destruct (exists_last (l := l1)) as (q1 & a1 & ->).
      { intros ->. rewrite Hs12 in He. done. }
      rewrite Hs12, <- app_assoc in Hs, Hsb. simpl in *.
      pose proof (it_prev_middle node_key q1 a1 (b :: l2) Hs) as Hp. simpl in Hp. by rewrite Hp in Hsb.
Qed.

Lemma wp_processIntersectingAndMissing r region p missing I l s :
  region_wf region → 0 < rlength region → nodes_at r s l → map_wf l →
  visits_node r region p I → visits_gap r region missing I → I (startAddress region) s →
  wp (processIntersectingAndMissing r region p missing)
    (λ c s', c = true ∧ I (startAddress region + rlength region) s') s.
Proof.
  intros Hr Hpos (m & Hm & <-) Hwf Hp Hg HI. unfold processIntersectingAndMissing.
  apply wp_bind. apply (wp_map_nodes r (avl_nodes m)); [by exists m|].
  destruct (bool_decide_reflect (avl_nodes m = [])) as [Hnil|Hnil].
  { eapply wp_mono.
    - specialize (Hg (startAddress region) (startAddress region + rlength region) s []).
      replace (startAddress region + rlength region - startAddress region) with (rlength region) in Hg by lia.
      replace (mkRegion (startAddress region) (rlength region)) with region in Hg by by destruct region.
      apply Hg; [exists m; done|apply map_wf_nil|lia|lia|lia|set_solver|lia|done].
    - intros c s' (-> & ? & _). done. }
  apply wp_bind. eapply wp_read; [done|]. apply wp_bind. unfold first_position. apply wp_bind.
  eapply wp_read; [done|]. apply wp_ret. apply wp_bind.
  destruct (missing_start region (m, tt) Hwf) as (pre & l & Hl & Hpre & Hab & Hit). simpl in *.
  pose proof (step_back_some region m Hwf Hnil) as (k & n & Hsb & Hd).
  rewrite Hsb, Hd in Hit. rewrite Hsb.
  apply wp_bind. eapply wp_read; [rewrite Hm; simpl; by rewrite Hd|]. apply wp_ret. rewrite Hit.
  destruct (cover_inv_init region (m, tt) pre l) as [b Hinv]; [done..|].
  unfold region_wf in Hr. eapply wp_processIntersectingAndMissing_loop; [done..| | |done|lia].
  - rewrite Hl, length_app. lia.
  - by exists m.
Qed.

(** ** Fragmentation *)

(** The order of a map depends on the regions only. *)
Lemma map_wf_ext l l' : getAccessRegion <$> l = getAccessRegion <$> l' → map_wf l → map_wf l'.
Proof.
  revert l'. induction l as [|a l IH]; intros [|a' l'] He Hwf; try done.
  rewrite !fmap_cons in He. injection He as Ha' Hl'.
  apply map_wf_cons in Hwf as (Ha & Hl & Hab). apply map_wf_cons. split_and!.
  - unfold content_wf in *. congruence.
  - by apply IH.
  - intros b' Hb'. assert (getAccessRegion b' ∈ getAccessRegion <$> l) as Hb.
    { rewrite Hl'. by apply list_elem_of_fmap_2. }
    apply list_elem_of_fmap in Hb as (b & Hbb & Hb). specialize (Hab b Hb).
    unfold cend, cstart in *. congruence.
Qed.

Lemma map_wf_sublist l l' : l `sublist_of` l' → map_wf l' → map_wf l.
Proof.
  induction 1 as [|a l l' Hs IH|a l l' Hs IH]; [done|..]; intros (Ha & Hl & Hab)%map_wf_cons.
  - apply map_wf_cons. split_and!; [done|auto|]. intros b Hb. apply Hab. by eapply elem_of_sublist.
  - auto.
Qed.

(** The rest of [fragmentByIntersection] after the intersection. *)
Section fragment.
Context (l1 : list C) (n : C) (l2 : list C) (fr : DataAccessRegion).
Context (Hwf : map_wf (l1 ++ n :: l2)) (Hfr : region_wf fr) (Hint : intersects fr n).

(** What a duplicator and a postprocessor make of a copy of the node, given its region. *)
Variable g : C → C.
Hypothesis Hg : ∀ c, getAccessRegion (g c) = getAccessRegion c.

(** The nodes after the fragmentation: the copies went through the duplicator and the
    postprocessor. *)
Definition new_pieces : list C :=
  (g <$> left_piece n fr) ++ middle_piece n fr :: (g <$> right_piece n fr).

Lemma new_pieces_wf : map_wf (l1 ++ new_pieces ++ l2).
Proof.
  pose proof Hwf as Hw. apply map_wf_app in Hw as (H1 & H2 & H12). apply map_wf_cons in H2 as (Hn & H2 & Hn2).
  pose proof (pieces_sorted n fr Hfr Hn Hint) as Hp.
  assert (map_wf new_pieces) as Hnp.
  { unfold new_pieces, pieces in *. eapply map_wf_ext; [|exact Hp]. rewrite !fmap_app, !fmap_cons.
    f_equal; [|f_equal]; rewrite <- list_fmap_compose; apply list_fmap_ext; intros; simpl; by rewrite Hg. }
  assert (∀ c, c ∈ new_pieces → ∃ c', c' ∈ pieces n fr ∧ getAccessRegion c = getAccessRegion c') as Hin.
  { unfold new_pieces, pieces. intros c [Hc|[->|Hc]%elem_of_cons]%elem_of_app.
    - apply list_elem_of_fmap in Hc as (c' & -> & Hc). exists c'. rewrite Hg. set_solver.
    - exists (middle_piece n fr). set_solver.
    - apply list_elem_of_fmap in Hc as (c' & -> & Hc). exists c'. rewrite Hg. set_solver. }
  apply map_wf_app. split_and!; [done| |].
  - apply map_wf_app. split_and!; [done|done|]. intros a b Ha Hb. destruct (Hin a Ha) as (a' & Ha' & He).
    destruct (pieces_bounds n fr a' Hfr Hn Hint Ha') as (_ & _ & Hle). specialize (Hn2 b Hb).
    unfold cend, cstart in *. rewrite He. lia.
  - intros a b Ha [Hb|Hb]%elem_of_app; [|apply H12; set_solver].
    destruct (Hin b Hb) as (b' & Hb' & He).
    destruct (pieces_bounds n fr b' Hfr Hn Hint Hb') as (_ & Hle & _).
    specialize (H12 a n Ha ltac:(set_solver)). unfold cstart in *. rewrite He. lia.
Qed.

Context r (dup : C → stM S C) (post : Z → Z → stM S unit).
Variable I : list C → S → Prop.
Hypothesis HI : ∀ l s, I l s → nodes_at r s l.
Hypothesis Hshrink : ∀ s, I (l1 ++ n :: l2) s →
  wp (map_assign r (node_key n) (setAccessRegion (getAccessRegion (middle_piece n fr)));;
      post (cut_start n fr) (cut_start n fr))
     (λ _ s', I (l1 ++ middle_piece n fr :: l2) s') s.
Hypothesis Hnew : ∀ L1 L2 st e s,
  I (L1 ++ L2) s → map_wf (L1 ++ g (cut n st e) :: L2) → middle_piece n fr ∈ L1 ++ L2 →
  cut n st e ∈ left_piece n fr ++ right_piece n fr →
  wp (newContents ← dup (middle_piece n fr);
      map_insert r (setAccessRegion (mkRegion st (e - st)) newContents);;
      post st (cut_start n fr))
     (λ _ s', I (L1 ++ g (cut n st e) :: L2) s') s.

Lemma wp_frag_new L1 L2 st e s :
  I (L1 ++ L2) s → map_wf (L1 ++ L2) → map_wf (L1 ++ g (cut n st e) :: L2) →
  middle_piece n fr ∈ L1 ++ L2 → cut n st e ∈ left_piece n fr ++ right_piece n fr →
  wp (frag_new r dup post (mkRegion st (e - st)) (mkFragVars (inl (cut_start n fr)) true (Some (cut_start n fr))))
     (λ v s', v = mkFragVars (inl (cut_start n fr)) true (Some (cut_start n fr)) ∧
              I (L1 ++ g (cut n st e) :: L2) s') s.
Proof.
  intros HIs Hw Hw' Hm Hin. unfold frag_new. simpl. apply wp_bind.
  replace (cut_start n fr) with (node_key (middle_piece n fr)) at 1 by apply key_cut.
  eapply wp_map_deref; [by apply HI|done..|].
  specialize (Hnew L1 L2 st e s HIs Hw' Hm Hin).
  apply wp_bind. apply wp_bind_inv in Hnew. eapply wp_mono; [exact Hnew|]. intros c s1 Hc.
  apply wp_bind. apply wp_bind_inv in Hc. eapply wp_mono; [exact Hc|]. intros [] s2 Hc2.
  apply wp_bind. eapply wp_mono; [exact Hc2|]. intros [] s3 HI3. by apply wp_ret.
Qed.

Lemma wp_fragmentByIntersection_keep s :
  I (l1 ++ n :: l2) s →
  wp (fragmentByIntersection r dup post (node_key n) fr false)
     (λ k s', k = Some (cut_start n fr) ∧ I (l1 ++ new_pieces ++ l2) s') s.
Proof.
  intros HIs. unfold fragmentByIntersection. apply wp_bind.
  eapply wp_map_deref; [by apply HI|done|set_solver|].
  assert (content_wf n) as Hn by (eapply map_wf_elem; [done|]; set_solver).
  assert (empty (intersect (getAccessRegion n) fr) = false) as Hne.
  { destruct Hn. by apply empty_intersect_comm. }
  pose proof new_pieces_wf as Hnp. unfold new_pieces in Hnp |- *.
  rewrite processIntersectingFragments_closed by (done || apply Hn). simpl.
  fold (cstart n). fold (cend n). fold (cut_start n fr). fold (cut_end n fr).
  set (v := mkFragVars (C := C) (inl (cut_start n fr)) true (Some (cut_start n fr))).
  (* the intersection *)
  assert (∀ (Q : @frag_vars C → S → Prop), (∀ s', I (l1 ++ middle_piece n fr :: l2) s' → Q v s') →
    wp (frag_intersection r dup post false (mkRegion (cut_start n fr) (cut_end n fr - cut_start n fr))
          (mkFragVars (inl (node_key n)) false None)) Q s) as Hmid.
  { intros Q HQ. unfold frag_intersection, frag_shrink. simpl. apply wp_bind.
    pose proof (wp_bind_inv _ _ _ _ (Hshrink s HIs)) as Hsh. unfold middle_piece at 1, cut in Hsh.
    rewrite get_set_region in Hsh. apply wp_bind. eapply wp_mono; [exact Hsh|]. intros [] s1 H1.
    apply wp_bind. eapply wp_mono; [exact H1|]. intros [] s2 H2. apply wp_ret, wp_ret. by apply HQ. }
  (* the left part *)
  set (m1 := mret _ ≫= _).
  assert (∀ (Q : @frag_vars C → S → Prop),
    (∀ s', I (l1 ++ (g <$> left_piece n fr) ++ middle_piece n fr :: l2) s' → Q v s') →
    wp (if cstart n <? cut_start n fr
        then m1 ≫= frag_original r dup post (mkRegion (cstart n) (cut_start n fr - cstart n))
        else if startAddress fr <? cut_start n fr then m1 else m1) Q s) as Hleft.
  { intros Q HQ. unfold left_piece in HQ, Hnp. destruct (cstart n <? _) eqn:E.
    - apply wp_bind. subst m1. apply wp_bind, wp_ret. apply Hmid. intros s1 H1.
      eapply wp_mono; [apply (wp_frag_new l1 (middle_piece n fr :: l2)); [done| | | |]|].
      + eapply map_wf_sublist; [|exact Hnp]. simpl. by apply sublist_app, sublist_cons, sublist_skip, sublist_inserts_l.
      + eapply map_wf_sublist; [|exact Hnp]. simpl. by apply sublist_app, sublist_skip, sublist_skip, sublist_inserts_l.
      + set_solver.
      + unfold left_piece. rewrite E. set_solver.
      + intros ? s2 [-> H2]. by apply HQ.
    - assert (wp m1 Q s) as Hm1.
      { subst m1. apply wp_bind, wp_ret. apply Hmid. intros s1 H1. by apply HQ. }
      by destruct (startAddress fr <? _). }
  set (m2 := if cstart n <? _ then _ else _) in *.
  apply wp_bind. unfold right_piece in Hnp |- *. destruct (_ <? cend n) eqn:E.
  - apply wp_bind, Hleft. intros s1 H1. simpl in Hnp.
    eapply wp_mono; [apply (wp_frag_new (l1 ++ (g <$> left_piece n fr) ++ [middle_piece n fr]) l2)|].
    + by rewrite <- !app_assoc.
    + rewrite <- !app_assoc in Hnp |- *. simpl in *. eapply map_wf_sublist; [|exact Hnp].
      rewrite <- app_assoc. by apply sublist_app, sublist_app, sublist_skip, sublist_cons.
    + rewrite <- !app_assoc in Hnp |- *. rewrite <- app_assoc. done.
    + set_solver.
    + unfold right_piece. rewrite E. set_solver.
    + intros ? s2 [-> H2]. apply wp_ret. split; [done|]. rewrite <- !app_assoc in H2. by rewrite <- !app_assoc.
  - assert (wp m2 (λ v s', wp (mret (fv_intersectionPosition v))
      (λ k s', k = Some (cut_start n fr) ∧ I (l1 ++ ((g <$> left_piece n fr) ++ middle_piece n fr :: (g <$> [])) ++ l2) s') s') s) as Hm2.
    { apply Hleft. intros s1 H1. apply wp_ret. rewrite <- app_assoc. done. }
    by destruct (_ <? startAddress fr + _).
Qed.
End fragment.

(** Where writing a map through its reference is reading back what was written, and nothing
    else. *)
Record ref_laws r : Prop := {
  ref_get_put s m m' : ref_get r s = Ok m → ref_get r (ref_put r m' s) = Ok m';
  ref_put_put s m m' : ref_put r m (ref_put r m' s) = ref_put r m s;
}.

(** With [removeIntersection] the node is unlinked, and copies of it stand for the rest. *)
Lemma wp_fragmentByIntersection_remove r dup post c0 l1 n l2 fr m s :
  ref_laws r → map_wf (l1 ++ n :: l2) → region_wf fr → intersects fr n →
  (∀ c, dup c = mret (c0 c)) → (∀ region c, setAccessRegion region (c0 c) = setAccessRegion region c) →
  ref_get r s = Ok m → avl_nodes m = l1 ++ n :: l2 →
  wp (fragmentByIntersection r dup post (node_key n) fr true)
     (λ k s', k = None ∧ ∃ m', avl_nodes m' = l1 ++ (left_piece n fr ++ right_piece n fr) ++ l2 ∧
        s' = ref_put r m' s) s.
Proof.
  intros [Hgp Hpp] Hwf Hfr Hint Hdup Hc0 Hm Hl. unfold fragmentByIntersection. apply wp_bind.
  apply (wp_map_deref r (avl_nodes m)); [by exists m|by rewrite Hl|rewrite Hl; set_solver|].
  assert (content_wf n) as Hn by (eapply map_wf_elem; [done|]; set_solver).
  assert (empty (intersect (getAccessRegion n) fr) = false) as Hne.
  { destruct Hn. by apply empty_intersect_comm. }
  pose proof (new_pieces_wf l1 n l2 fr Hwf Hfr Hint id (λ _, eq_refl)) as Hnp. unfold new_pieces in Hnp.
  rewrite !list_fmap_id in Hnp.
  rewrite processIntersectingFragments_closed by (done || apply Hn). simpl.
  fold (cstart n). fold (cend n). fold (cut_start n fr). fold (cut_end n fr).
  set (v := mkFragVars (C := C) (inr n) true None). set (m1 := mret _ ≫= _).
  assert (∀ (Q : @frag_vars C → S → Prop),
    (∀ m', avl_nodes m' = l1 ++ l2 → Q v (ref_put r m' s)) → wp m1 Q s) as Hmid.
  { intros Q HQ. subst m1. apply wp_bind, wp_ret. unfold frag_intersection. simpl. apply wp_bind.
    apply (wp_map_deref r (avl_nodes m)); [by exists m|by rewrite Hl|rewrite Hl; set_solver|].
    apply wp_bind. eapply wp_map_erase; [done|done|by rewrite Hl|]. intros m' Hm'. by apply wp_ret, HQ. }
  assert (∀ L1 L2 st e m' (Q : @frag_vars C → S → Prop),
    avl_nodes m' = L1 ++ L2 → map_wf (L1 ++ cut n st e :: L2) →
    (∀ m', avl_nodes m' = L1 ++ cut n st e :: L2 → Q v (ref_put r m' s)) →
    wp (frag_original r dup post (mkRegion st (e - st)) v) Q (ref_put r m' s)) as Hcopy.
  { intros L1 L2 st e m' Q Hm' Hw HQ. unfold frag_original, frag_new. simpl.
    apply wp_bind, wp_ret. rewrite Hdup. apply wp_bind, wp_ret. rewrite Hc0. apply wp_bind.
    eapply wp_map_insert; [by eapply Hgp|done| |done|].
    - rewrite Hm'. eapply map_wf_sublist; [|exact Hw]. by apply sublist_app, sublist_cons.
    - intros m2 Hm2. rewrite Hpp. apply wp_bind, wp_ret, wp_ret, HQ, Hm2. }
  assert (∀ (Q : @frag_vars C → S → Prop),
    (∀ m', avl_nodes m' = (l1 ++ left_piece n fr) ++ l2 → Q v (ref_put r m' s)) →
    wp (if cstart n <? cut_start n fr
        then m1 ≫= frag_original r dup post (mkRegion (cstart n) (cut_start n fr - cstart n))
        else if startAddress fr <? cut_start n fr then m1 else m1) Q s) as Hleft.
  { intros Q HQ. unfold left_piece in HQ, Hnp. destruct (cstart n <? _) eqn:E.
    - apply wp_bind, Hmid. intros m' Hm'. eapply Hcopy; [done| |].
      + eapply map_wf_sublist; [|exact Hnp]. simpl.
        by apply sublist_app, sublist_skip, sublist_cons, sublist_inserts_l.
      + intros m2 Hm2. apply HQ. by rewrite <- app_assoc.
    - assert (wp m1 Q s) as Hm1.
      { apply Hmid. intros m' Hm'. apply HQ. by rewrite app_nil_r. }
      by destruct (startAddress fr <? _). }
  set (m2 := if cstart n <? _ then _ else _) in *.
  apply wp_bind. unfold right_piece in Hnp |- *. destruct (_ <? cend n) eqn:E.
  - apply wp_bind, Hleft. intros m' Hm'. eapply Hcopy; [done| |].
    + eapply map_wf_sublist; [|exact Hnp]. simpl. rewrite <- !app_assoc.
      by apply sublist_app, sublist_app, sublist_cons.
    + intros m3 Hm3. apply wp_ret. split; [done|]. exists m3. split; [|done].
      rewrite Hm3. by rewrite <- !app_assoc.
  - assert (wp m2 (λ v s', wp (mret (fv_intersectionPosition v))
      (λ k s', k = None ∧ ∃ m', avl_nodes m' = l1 ++ (left_piece n fr ++ []) ++ l2 ∧ s' = ref_put r m' s) s') s) as Hm2.
    { apply Hleft. intros m' Hm'. apply wp_ret. split; [done|]. exists m'. split; [|done].
      rewrite Hm', app_nil_r. by rewrite <- app_assoc. }
    by destruct (_ <? startAddress fr + _).
Qed.
End rules.
