(* ===== verification/IntrusiveRegionMapViews.v ===== *)
(** * The intrusive map of linear regions: rules on what can be seen

    The rules of the intrusive map through an abstraction of the state that shows the nodes of the map
    and that a write of the map changes in a known way. *)

From S2P Require Import Prelude Region Boost RegionMap RegionMapProofs StateMonad.
From S2P Require Import IntrusiveRegionMap IntrusiveRegionMapProofs.
Local Open Scope Z_scope.

(** A map that can be seen: [look] gives its nodes, and [put] is a write of it. *)
Record seen {C : Type} `{!RegionContent C} {MC : Type} `{!AvlSet C node_key MC} {S O : Type}
    (abs : S → O) (r : map_ref S MC) (look : O → option (list C)) (put : list C → O → O) : Prop := {
  seen_nodes s l : nodes_at r s l ↔ look (abs s) = Some l;
  seen_put s m m' : ref_get r s = Ok m → abs (ref_put r m' s) = put (avl_nodes m') (abs s);
}.

(** ** What steps leave alone *)

Section keeps.
Context {C : Type} `{!RegionContent C} {O : Type} (look : O → option (list C)).
Implicit Types (o : O) (l : list C).

(** Beyond an address the map is as it was. *)
Definition keeps (b : Z) o o' : Prop :=
  ∃ l l', look o = Some l ∧ look o' = Some l' ∧ map_wf l' ∧
    filter (λ c, b ≤ node_key c) l' = filter (λ c, b ≤ node_key c) l.

Lemma keeps_same b l o o' : look o = Some l → look o' = Some l → map_wf l → keeps b o o'.
Proof. intros. by exists l, l. Qed.

(** The node before [b] gives way to others before [b]. *)
Lemma keeps_middle l1 n l l2 o o' :
  look o = Some (l1 ++ n :: l2) → look o' = Some (l1 ++ l ++ l2) → map_wf (l1 ++ n :: l2) →
  map_wf (l1 ++ l ++ l2) → (∀ c, c ∈ l → cstart c < cend n) → keeps (cend n) o o'.
Proof.
  intros Ho Ho' Hwf Hwf' Hl. exists (l1 ++ n :: l2), (l1 ++ l ++ l2). split_and!; try done.
  apply map_wf_app in Hwf as (H1 & [Hn _]%map_wf_cons & H12).
  rewrite !filter_app, filter_cons. f_equal. rewrite (filter_none _ l).
  - simpl. rewrite decide_False; [done|]. destruct Hn as [_ Hn]. unfold node_key, cend, cstart. lia.
  - intros c Hc. specialize (Hl c Hc). unfold node_key. unfold cstart in Hl. lia.
Qed.

Lemma keeps_trans b o o1 o2 : keeps b o o1 → keeps b o1 o2 → keeps b o o2.
Proof.
  intros (l & l1 & H & H1 & Hw1 & He1) (l1' & l2 & H1' & H2 & Hw2 & He2).
  assert (l1' = l1) as -> by congruence. exists l, l2. split_and!; try done. congruence.
Qed.

(** No node goes over [b]. *)
Definition keeps_within (b : Z) o o' : Prop :=
  keeps b o o' ∧ ∀ l' c, look o' = Some l' → c ∈ l' → node_key c < b → cend c ≤ b.

End keeps.

Section views.
Context {C : Type} `{!RegionContent C} {MC : Type} `{!AvlSet C node_key MC} `{!AvlSetLaws C node_key MC}.
Context {S O : Type} (abs : S → O) (r : map_ref S MC) (look : O → option (list C)) (put : list C → O → O).
Context (Hseen : seen abs r look put).
Implicit Types (o : O) (l : list C).
Notation keeps := (keeps look).
Notation keeps_within := (keeps_within look).

Lemma seen_get s l : look (abs s) = Some l → ∃ m, ref_get r s = Ok m ∧ avl_nodes m = l.
Proof. intros Hl. by apply (seen_nodes _ _ _ _ Hseen) in Hl. Qed.

Lemma awp_map_nodes l (Q : list C → O → Prop) o : look o = Some l → Q l o → awp abs (map_nodes r) Q o.
Proof. intros Hl HQ s <-. eapply wp_map_nodes; [|done]. by apply (seen_nodes _ _ _ _ Hseen). Qed.

Lemma awp_map_isEmpty l (Q : bool → O → Prop) o :
  look o = Some l → Q (bool_decide (l = [])) o → awp abs (map_isEmpty r) Q o.
Proof. intros Hl HQ. apply awp_bind. eapply awp_map_nodes; [done|]. by apply awp_ret. Qed.

Lemma awp_map_deref l n (Q : C → O → Prop) o :
  look o = Some l → map_wf l → n ∈ l → Q n o → awp abs (map_deref r (node_key n)) Q o.
Proof. intros Hl Hwf Hn HQ s <-. eapply wp_map_deref; [|done..]. by apply (seen_nodes _ _ _ _ Hseen). Qed.

Lemma awp_map_assign l1 n l2 f (Q : unit → O → Prop) o :
  look o = Some (l1 ++ n :: l2) → map_wf (l1 ++ n :: l2) → Q tt (put (l1 ++ f n :: l2) o) →
  awp abs (map_assign r (node_key n) f) Q o.
Proof.
  intros Hl Hwf HQ s <-. destruct (seen_get _ _ Hl) as (m & Hm & Hn).
  eapply wp_map_assign; [done|done|by rewrite Hn|]. intros m' Hm'. by rewrite (seen_put _ _ _ _ Hseen _ _ _ Hm), Hm'.
Qed.

Lemma awp_map_insert l1 c l2 (Q : unit → O → Prop) o :
  look o = Some (l1 ++ l2) → map_wf (l1 ++ c :: l2) → Q tt (put (l1 ++ c :: l2) o) →
  awp abs (map_insert r c) Q o.
Proof.
  intros Hl Hwf HQ s <-. destruct (seen_get _ _ Hl) as (m & Hm & Hn).
  eapply wp_map_insert; [done|done| |done|].
  - rewrite Hn. eapply map_wf_sublist; [|exact Hwf]. by apply sublist_app, sublist_cons.
  - intros m' Hm'. by rewrite (seen_put _ _ _ _ Hseen _ _ _ Hm), Hm'.
Qed.

Lemma awp_map_erase l1 n l2 (Q : unit → O → Prop) o :
  look o = Some (l1 ++ n :: l2) → map_wf (l1 ++ n :: l2) → Q tt (put (l1 ++ l2) o) →
  awp abs (map_erase r (node_key n)) Q o.
Proof.
  intros Hl Hwf HQ s <-. destruct (seen_get _ _ Hl) as (m & Hm & Hn).
  eapply wp_map_erase; [done|done|by rewrite Hn|]. intros m' Hm'. by rewrite (seen_put _ _ _ _ Hseen _ _ _ Hm), Hm'.
Qed.

Lemma awp_map_clear l (Q : unit → O → Prop) o :
  look o = Some l → Q tt (put [] o) → awp abs (map_clear r) Q o.
Proof.
  intros Hl HQ s <-. destruct (seen_get _ _ Hl) as (m & Hm & Hn).
  eapply wp_map_update; [done|]. by rewrite (seen_put _ _ _ _ Hseen _ _ _ Hm), avl_nodes_empty.
Qed.

(** ** Traversals *)

Definition avisits (p : Z → stM S bool) (I : list C → O → Prop) (P : C → Prop) : Prop :=
  ∀ n rest o l, look o = Some l → map_wf l → n ∈ l → P n → I (n :: rest) o →
    awp abs (p (node_key n)) (λ c o', c = true ∧ I rest o' ∧ keeps (cend n) o o') o.

Lemma avisits_visits p I P : avisits p I P → visits r p (λ l s, I l (abs s)) P.
Proof.
  intros Hp n rest s l Hl Hwf Hn HP HI. apply (seen_nodes _ _ _ _ Hseen) in Hl.
  eapply wp_mono; [by apply (Hp n rest (abs s) l)|]. intros c s' (-> & HI' & (k1 & k2 & H1 & H2 & Hw & He)).
  split_and!; [done|done|]. apply (seen_nodes _ _ _ _ Hseen) in H1, H2. by exists k1, k2.
Qed.

Lemma awp_processAll p I l o :
  look o = Some l → map_wf l → avisits p I (λ _, True) → I l o →
  awp abs (processAll r p) (λ c o', c = true ∧ I [] o') o.
Proof.
  intros Hl Hwf Hp HI s <-. apply (seen_nodes _ _ _ _ Hseen) in Hl.
  apply (wp_processAll r p (λ l s, I l (abs s)) l); [done..|by apply avisits_visits|done].
Qed.

Lemma awp_processIntersecting region p I l o :
  region_wf region → look o = Some l → map_wf l → avisits p I (intersects region) →
  I (filter (intersects region) l) o →
  awp abs (processIntersecting r region p) (λ c o', c = true ∧ I [] o') o.
Proof.
  intros Hr Hl Hwf Hp HI s <-. apply (seen_nodes _ _ _ _ Hseen) in Hl.
  apply (wp_processIntersecting r region p (λ l s, I l (abs s)) l); [done..|by apply avisits_visits|done].
Qed.

Definition avisits_node region (p : Z → stM S bool) (I : Z → O → Prop) : Prop :=
  ∀ n o l, look o = Some l → map_wf l → n ∈ l → intersects region n →
    I (Z.max (startAddress region) (cstart n)) o →
    awp abs (p (node_key n)) (λ c o', c = true ∧
      I (Z.min (cend n) (startAddress region + rlength region)) o' ∧ keeps_within (cend n) o o') o.

Definition avisits_gap region (missing : DataAccessRegion → stM S bool) (I : Z → O → Prop) : Prop :=
  ∀ a b o l, look o = Some l → map_wf l →
    startAddress region ≤ a → a < b → b ≤ startAddress region + rlength region →
    (∀ c, c ∈ l → cend c ≤ a ∨ b ≤ cstart c) →
    (b < startAddress region + rlength region → ∃ c, c ∈ l ∧ cstart c = b) → I a o →
    awp abs (missing (mkRegion a (b - a))) (λ c o', c = true ∧ I b o' ∧
      (b < startAddress region + rlength region → keeps_within b o o')) o.

Lemma keeps_within_local b s s' : keeps_within b (abs s) (abs s') → keeps_local r b s s'.
Proof.
  intros [(k1 & k2 & H1 & H2 & Hw & He) Hb]. apply (seen_nodes _ _ _ _ Hseen) in H1, H2. split.
  - by exists k1, k2.
  - intros l' c Hl'. apply (seen_nodes _ _ _ _ Hseen) in Hl'. by apply Hb.
Qed.

Lemma awp_processIntersectingAndMissing region p missing I l o :
  region_wf region → 0 < rlength region → look o = Some l → map_wf l →
  avisits_node region p I → avisits_gap region missing I → I (startAddress region) o →
  awp abs (processIntersectingAndMissing r region p missing)
    (λ c o', c = true ∧ I (startAddress region + rlength region) o') o.
Proof.
  intros Hr Hpos Hl Hwf Hp Hg HI s <-. apply (seen_nodes _ _ _ _ Hseen) in Hl.
  apply (wp_processIntersectingAndMissing r region p missing (λ b s, I b (abs s)) l); try done.
  - intros n s1 l1 Hl1 Hwf1 Hn Hi HI1. apply (seen_nodes _ _ _ _ Hseen) in Hl1.
    eapply wp_mono; [by apply (Hp n (abs s1) l1)|]. intros c s' (-> & HI' & Hk).
    split_and!; [done|done|]. by apply keeps_within_local.
  - intros a b s1 l1 Hl1 Hwf1 H1 H2 H3 Hd He HI1. apply (seen_nodes _ _ _ _ Hseen) in Hl1.
    eapply wp_mono; [by apply (Hg a b (abs s1) l1)|]. intros c s' (-> & HI' & Hk).
    split_and!; [done|done|]. intros Hb. apply keeps_within_local. auto.
Qed.

(** ** Fragmentation *)

Section fragment.
Context (l1 : list C) (n : C) (l2 : list C) (fr : DataAccessRegion).
Context (Hwf : map_wf (l1 ++ n :: l2)) (Hfr : region_wf fr) (Hint : intersects fr n).
Context (g : C → C) (Hg : ∀ c, getAccessRegion (g c) = getAccessRegion c).
Context (dup : C → stM S C) (post : Z → Z → stM S unit).
Context (J : list C → O → Prop) (HJ : ∀ l o, J l o → look o = Some l).
Hypothesis Hshrink : ∀ o, J (l1 ++ n :: l2) o →
  awp abs (post (cut_start n fr) (cut_start n fr)) (λ _ o', J (l1 ++ middle_piece n fr :: l2) o')
    (put (l1 ++ middle_piece n fr :: l2) o).
Hypothesis Hnew : ∀ L1 L2 st e o,
  J (L1 ++ L2) o → map_wf (L1 ++ g (cut n st e) :: L2) → middle_piece n fr ∈ L1 ++ L2 →
  cut n st e ∈ left_piece n fr ++ right_piece n fr →
  awp abs (newContents ← dup (middle_piece n fr);
           map_insert r (setAccessRegion (mkRegion st (e - st)) newContents);;
           post st (cut_start n fr))
    (λ _ o', J (L1 ++ g (cut n st e) :: L2) o') o.

Lemma awp_fragmentByIntersection_keep o :
  J (l1 ++ n :: l2) o →
  awp abs (fragmentByIntersection r dup post (node_key n) fr false)
    (λ k o', k = Some (cut_start n fr) ∧ J (l1 ++ new_pieces n fr g ++ l2) o') o.
Proof.
  intros Ho s <-.
  apply (wp_fragmentByIntersection_keep l1 n l2 fr Hwf Hfr Hint g Hg r dup post (λ l s, J l (abs s))); [|..|done].
  - intros l s' Hl. by apply (seen_nodes _ _ _ _ Hseen), HJ.
  - intros s' Hs'. apply wp_bind. destruct (seen_get _ _ (HJ _ _ Hs')) as (m & Hm & Hn).
    eapply wp_map_assign; [done|done|by rewrite Hn|]. intros m' Hm'.
    apply (Hshrink (abs s') Hs'). rewrite (seen_put _ _ _ _ Hseen _ _ _ Hm), Hm'.
    unfold middle_piece, cut. by rewrite get_set_region.
  - intros L1 L2 st e s' Hs' Hw Hm Hc. by apply (Hnew L1 L2 st e (abs s')); [..|reflexivity].
Qed.
End fragment.

(** With [removeIntersection]. *)
Lemma awp_fragmentByIntersection_remove dup post c0 l1 n l2 fr (Q : option Z → O → Prop) o :
  ref_laws r → map_wf (l1 ++ n :: l2) → region_wf fr → intersects fr n →
  (∀ c, dup c = mret (c0 c)) → (∀ region c, setAccessRegion region (c0 c) = setAccessRegion region c) →
  look o = Some (l1 ++ n :: l2) → Q None (put (l1 ++ (left_piece n fr ++ right_piece n fr) ++ l2) o) →
  awp abs (fragmentByIntersection r dup post (node_key n) fr true) Q o.
Proof.
  intros Hlaws Hwf Hfr Hi Hdup Hc0 Hl HQ s <-. destruct (seen_get _ _ Hl) as (m & Hm & Hn).
  eapply wp_mono; [by eapply (wp_fragmentByIntersection_remove r dup post c0 l1 n l2 fr m)|].
  intros k s' (-> & m' & Hm' & ->). by rewrite (seen_put _ _ _ _ Hseen _ _ _ Hm), Hm'.
Qed.
End views.
