(* ===== verification/DiscreteDeps.v ===== *)
(** * Discrete dependencies

    [src/dependencies/discrete]: the accesses that tasks perform on an address form a
    sequence, each access owning the nested sequence of the accesses of its children.
    Accesses, sequences and tasks are heap objects that point at each other: a heap of
    accesses and root sequences, with identifiers for pointers. *)

From S2P Require Import Prelude Boost DataAccessType.
Local Open Scope Z_scope.

(** ** Data *)

(** The pointers: an access, a task, the worker thread whose dependency domain holds a root
    sequence, an address (the discrete [DataAccessRegion] ignores the length). *)
Notation access_ptr := nat (only parsing).
Notation task_ptr := nat (only parsing).
Notation thread_ptr := nat (only parsing).
Notation address := Z (only parsing).

(** A sequence is the root of an address in a dependency domain, or embedded in an access. *)
Inductive seq_ptr := RootSeq (domain : thread_ptr) (a : address) | SubSeq (a : access_ptr).

#[export] Instance seq_ptr_eq_dec : EqDecision seq_ptr.
Proof. solve_decision. Defined.

Section discrete.
Context {L : Type} `{!IntrusiveList nat L}.

Record DataAccessSequence := mkSeq {
  seq_accessRegion : address;
  seq_superAccess : option access_ptr;
  seq_accessSequence : L;
}.

Record DataAccess := mkAccess {
  da_type : DataAccessType;
  da_weak : bool;
  da_satisfied : bool;
  da_originator : task_ptr;
  da_dataAccessSequence : seq_ptr;
  da_subaccesses : DataAccessSequence;
  da_reductionInfo : Z;
}.

(** What the dependency code uses of [Task]. *)
Record Task := mkTask {
  t_parent : option task_ptr;
  t_predecessorCount : Z;
  t_dataAccesses : L;
  t_final : bool;
  t_taskloop : bool;
}.

Record heap := mkHeap {
  h_accesses : gmap nat DataAccess;
  h_roots : gmap (nat * Z) DataAccessSequence;
  h_tasks : gmap nat Task;
  (** The next fresh access pointer. *)
  h_next : nat;
}.

(** ** Field updates *)

Definition set_type (t : DataAccessType) (d : DataAccess) : DataAccess :=
  mkAccess t (da_weak d) (da_satisfied d) (da_originator d) (da_dataAccessSequence d)
    (da_subaccesses d) (da_reductionInfo d).
Definition set_weak (w : bool) (d : DataAccess) : DataAccess :=
  mkAccess (da_type d) w (da_satisfied d) (da_originator d) (da_dataAccessSequence d)
    (da_subaccesses d) (da_reductionInfo d).
Definition set_satisfied (s : bool) (d : DataAccess) : DataAccess :=
  mkAccess (da_type d) (da_weak d) s (da_originator d) (da_dataAccessSequence d)
    (da_subaccesses d) (da_reductionInfo d).
Definition set_sequence (q : seq_ptr) (d : DataAccess) : DataAccess :=
  mkAccess (da_type d) (da_weak d) (da_satisfied d) (da_originator d) q
    (da_subaccesses d) (da_reductionInfo d).
Definition set_subaccesses (q : DataAccessSequence) (d : DataAccess) : DataAccess :=
  mkAccess (da_type d) (da_weak d) (da_satisfied d) (da_originator d)
    (da_dataAccessSequence d) q (da_reductionInfo d).

Definition set_list (l : L) (q : DataAccessSequence) : DataAccessSequence :=
  mkSeq (seq_accessRegion q) (seq_superAccess q) l.

Definition get_seq (q : seq_ptr) (h : heap) : option DataAccessSequence :=
  match q with
  | RootSeq d a => h_roots h !! (d, a)
  | SubSeq a => da_subaccesses <$> h_accesses h !! a
  end.

Definition put_access (a : access_ptr) (d : DataAccess) (h : heap) : heap :=
  mkHeap (<[a := d]> (h_accesses h)) (h_roots h) (h_tasks h) (h_next h).

Definition put_seq (q : seq_ptr) (s : DataAccessSequence) (h : heap) : heap :=
  match q with
  | RootSeq d a => mkHeap (h_accesses h) (<[(d, a) := s]> (h_roots h)) (h_tasks h) (h_next h)
  | SubSeq a =>
      mkHeap (alter (set_subaccesses s) a (h_accesses h)) (h_roots h) (h_tasks h) (h_next h)
  end.

Definition put_task (t : task_ptr) (x : Task) (h : heap) : heap :=
  mkHeap (h_accesses h) (h_roots h) (<[t := x]> (h_tasks h)) (h_next h).

(** ** Satisfiability *)

(** [DataAccess::evaluateSatisfiability(effectivePrevious, nextAccessType)] *)
Definition evaluateSatisfiability (effectivePrevious : option DataAccess)
    (nextAccessType : DataAccessType) : bool :=
  match effectivePrevious with
  | None => true
  | Some previous =>
      if negb (da_satisfied previous) then false
      else if decide (nextAccessType = WRITE_ACCESS_TYPE) then false
      else if decide (nextAccessType = READWRITE_ACCESS_TYPE) then false
      else if decide (nextAccessType = READ_ACCESS_TYPE) then
        bool_decide (da_type previous = READ_ACCESS_TYPE)
      else bool_decide (da_type previous = CONCURRENT_ACCESS_TYPE)
  end.

(** The overload for reductions. *)
Definition evaluateReductionSatisfiability (effectivePrevious : option DataAccess)
    (reductionOperation : Z) : bool :=
  match effectivePrevious with
  | None => true
  | Some previous =>
      if negb (da_satisfied previous) then false
      else bool_decide (da_type previous = REDUCTION_ACCESS_TYPE) &&
           (da_reductionInfo previous =? reductionOperation)
  end.

(** The overload that an access resolves to. *)
Definition evaluate (effectivePrevious : option DataAccess) (t : DataAccessType) (info : Z) : bool :=
  if decide (t = REDUCTION_ACCESS_TYPE)
  then evaluateReductionSatisfiability effectivePrevious info
  else evaluateSatisfiability effectivePrevious t.

(** [DataAccess::reevaluateSatisfiability]: the access and whether it became satisfied. *)
Definition reevaluateSatisfiability (effectivePrevious : option DataAccess) (d : DataAccess) :
    DataAccess * bool :=
  if da_satisfied d then (d, false)
  else
    let satisfied := evaluate effectivePrevious (da_type d) (da_reductionInfo d) in
    (set_satisfied satisfied d, satisfied).

Definition access (a : access_ptr) (h : heap) : res DataAccess := get (h_accesses h !! a).
Definition sequence (q : seq_ptr) (h : heap) : res DataAccessSequence := get (get_seq q h).
Definition task (t : task_ptr) (h : heap) : res Task := get (h_tasks h !! t).

(** The elements of a sequence, in order. *)
Definition seq_elems (s : DataAccessSequence) : list access_ptr := il_elems (seq_accessSequence s).

(** [DataAccessSequence::getEffectivePrevious]: the previous access in the sequence, or the
    one before the access that contains the sequence, and so on upwards.  The argument is
    [None] for an access that is yet to be added to an empty sequence. *)
Fixpoint getEffectivePrevious (fuel : nat) (q : seq_ptr) (next : option access_ptr) (h : heap) :
    res (option access_ptr) :=
  match fuel with
  | O => Err OutOfFuel
  | S fuel =>
      s ← sequence q h;
      if decide (next = head (seq_elems s)) then
        match seq_superAccess s with
        | None => Ok None
        | Some super =>
            d ← access super h;
            getEffectivePrevious fuel (da_dataAccessSequence d) (Some super) h
        end
      else Ok (match next with Some a => list_prev a (seq_elems s) | None => last (seq_elems s) end)
  end.

(** The access object behind a possibly null pointer. *)
Definition deref (p : option access_ptr) (h : heap) : res (option DataAccess) :=
  match p with
  | None => Ok None
  | Some a => d ← access a h; Ok (Some d)
  end.

(** [DataAccessRegistration::reevaluateAndPropagateSatisfiability]: from the target to the end
    of its sequence, and into the subaccesses of the weak ones that become satisfied; the
    originators of the strong ones are appended to [satisfiedOriginators].  [positions] is
    what is left of the sequence. *)
Fixpoint propagate_loop (fuel : nat) (previous : option access_ptr) (positions : list access_ptr)
    (st : heap * list task_ptr) : res (heap * list task_ptr) :=
  match positions with
  | [] => Ok st
  | current :: positions =>
      match fuel with
      | O => Err OutOfFuel
      | S fuel =>
          let '(h, satisfiedOriginators) := st in
          d ← access current h;
          prev ← deref previous h;
          let '(d, becomesSatisfied) := reevaluateSatisfiability prev d in
          let h := put_access current d h in
          if becomesSatisfied then
            st ← (if da_weak d then
                    match head (seq_elems (da_subaccesses d)) with
                    | None => Ok (h, satisfiedOriginators)
                    | Some it =>
                        sub ← access it h;
                        s ← sequence (da_dataAccessSequence sub) h;
                        propagate_loop fuel previous (list_from it (seq_elems s))
                          (h, satisfiedOriginators)
                    end
                  else Ok (h, satisfiedOriginators ++ [da_originator d]));
            propagate_loop fuel (Some current) positions st
          else Ok (h, satisfiedOriginators)
      end
  end.

Definition reevaluateAndPropagateSatisfiability (fuel : nat) (previous target : option access_ptr)
    (st : heap * list task_ptr) : res (heap * list task_ptr) :=
  match target with
  | None => Ok st
  | Some t =>
      d ← access t st.1;
      s ← sequence (da_dataAccessSequence d) st.1;
      propagate_loop fuel previous (list_from t (seq_elems s)) st
  end.

(** ** Removing an access *)

(** The loop of [unregisterDataAccess] that moves the subaccesses to where the access was,
    before [next]; it returns the last one moved ([newPreviousPosition]). *)
Fixpoint move_subaccesses (subs : list access_ptr) (a : access_ptr) (q : seq_ptr)
    (next : option access_ptr) (newPrevious : option access_ptr) (h : heap) :
    res (heap * option access_ptr) :=
  match subs with
  | [] => Ok (h, newPrevious)
  | sub :: subs =>
      d ← access sub h;
      let h := put_access sub (set_sequence q d) h in
      own ← sequence (SubSeq a) h;
      let h := put_seq (SubSeq a) (set_list (il_erase sub (seq_accessSequence own)) own) h in
      s ← sequence q h;
      let h := put_seq q (set_list (il_insert next sub (seq_accessSequence s)) s) h in
      move_subaccesses subs a q next (Some sub) h
  end.

(** [DataAccessRegistration::unregisterDataAccess] *)
Definition unregisterDataAccess (fuel : nat) (a : access_ptr) (st : heap * list task_ptr) :
    res (heap * list task_ptr) :=
  let '(h, satisfiedOriginators) := st in
  d ← access a h;
  let q := da_dataAccessSequence d in
  s ← sequence q h;
  let nextPosition := list_next a (seq_elems s) in
  let h := put_seq q (set_list (il_erase a (seq_accessSequence s)) s) h in
  moved ← move_subaccesses (seq_elems (da_subaccesses d)) a q nextPosition None h;
  let '(h, newPreviousPosition) := moved in
  match nextPosition with
  | None => Ok (h, satisfiedOriginators)
  | Some next =>
      n ← access next h;
      if negb (da_satisfied n) then
        effectivePrevious ←
          (match newPreviousPosition with
           | Some p => Ok (Some p)
           | None => getEffectivePrevious fuel q (Some next) h
           end);
        reevaluateAndPropagateSatisfiability fuel effectivePrevious (Some next)
          (h, satisfiedOriginators)
      else Ok (h, satisfiedOriginators)
  end.

(** [Task::increasePredecessors] and [Task::decreasePredecessors]. *)
Definition increasePredecessors (t : task_ptr) (amount : Z) (h : heap) : res heap :=
  x ← task t h;
  Ok (put_task t (mkTask (t_parent x) (wrap_int (t_predecessorCount x + amount))
        (t_dataAccesses x) (t_final x) (t_taskloop x)) h).

Definition decreasePredecessors (t : task_ptr) (amount : Z) (h : heap) : res (heap * bool) :=
  x ← task t h;
  let count := wrap_int (t_predecessorCount x - amount) in
  Ok (put_task t (mkTask (t_parent x) count (t_dataAccesses x) (t_final x) (t_taskloop x)) h,
      count =? 0).

(** [DataAccessRegistration::processSatisfiedOriginators]: the tasks handed to
    [Scheduler::addReadyTask] as siblings, in order. *)
Fixpoint processSatisfiedOriginators (satisfiedOriginators : list task_ptr)
    (st : heap * list task_ptr) : res (heap * list task_ptr) :=
  match satisfiedOriginators with
  | [] => Ok st
  | t :: ts =>
      let '(h, ready) := st in
      r ← decreasePredecessors t 1 h;
      let '(h, becomesReady) := r in
      processSatisfiedOriginators ts (h, if becomesReady : bool then ready ++ [t] else ready)
  end.

(** [DataAccessRegistration::unregisterTaskDataAccesses]: the loop over the accesses of the
    task, each unlinked from the task after it has been processed. *)
Fixpoint unregister_accesses (fuel : nat) (t : task_ptr) (accesses : list access_ptr)
    (st : heap * list task_ptr) : res (heap * list task_ptr) :=
  match accesses with
  | [] => Ok st
  | a :: accesses =>
      let '(h, ready) := st in
      r ← unregisterDataAccess fuel a (h, []);
      r ← processSatisfiedOriginators r.2 (r.1, ready);
      let '(h, ready) := r in
      x ← task t h;
      let h := put_task t (mkTask (t_parent x) (t_predecessorCount x)
                 (il_erase a (t_dataAccesses x)) (t_final x) (t_taskloop x)) h in
      unregister_accesses fuel t accesses (h, ready)
  end.

Definition unregisterTaskDataAccesses (fuel : nat) (t : task_ptr) (h : heap) :
    res (heap * list task_ptr) :=
  x ← task t h;
  unregister_accesses fuel t (il_elems (t_dataAccesses x)) (h, []).

(** ** Adding an access *)

(** [new DataAccess(...)] followed by [push_back] on its sequence. *)
Definition new_access (q : seq_ptr) (t : DataAccessType) (weak satisfied : bool)
    (originator : task_ptr) (reductionInfo : Z) (h : heap) : res (heap * access_ptr) :=
  s ← sequence q h;
  let a := h_next h in
  let d := mkAccess t weak satisfied originator q
             (mkSeq (seq_accessRegion s) (Some a) il_empty) reductionInfo in
  let h := mkHeap (<[a := d]> (h_accesses h)) (h_roots h) (h_tasks h) (S a) in
  Ok (put_seq q (set_list (il_push_back a (seq_accessSequence s)) s) h, a).

(** The upgrades return false when the new access brings a dependency to count. *)
Definition upgradeSameTypeAccess (a : access_ptr) (newAccessWeakness : bool) (h : heap) :
    res (heap * bool) :=
  d ← access a h;
  if bool_decide (da_weak d ≠ newAccessWeakness)
  then Ok (put_access a (set_weak (da_weak d && newAccessWeakness) d) h, true)
  else Ok (h, true).

(** The part of two upgrades that turns the access into a readwrite one. *)
Definition upgrade_to_readwrite (fuel : nat) (a : access_ptr) (d : DataAccess) (h : heap) :
    res (heap * bool) :=
  if da_satisfied d then
    effectivePrevious ← getEffectivePrevious fuel (da_dataAccessSequence d) (Some a) h;
    prev ← deref effectivePrevious h;
    let satisfied := evaluateSatisfiability prev (da_type d) in
    Ok (put_access a (set_satisfied satisfied d) h, satisfied)
  else Ok (h, true).

Definition upgradeSameStrengthAccess (fuel : nat) (a : access_ptr)
    (newAccessType : DataAccessType) (h : heap) : res (heap * bool) :=
  d ← access a h;
  if decide (da_type d = READWRITE_ACCESS_TYPE) then Ok (h, true)
  else if decide (da_type d = WRITE_ACCESS_TYPE) then
    Ok (put_access a (set_type newAccessType d) h, true)
  else
    let d := set_type READWRITE_ACCESS_TYPE d in
    upgrade_to_readwrite fuel a d (put_access a d h).

Definition upgradeStrongAccessWithWeak (task : task_ptr) (a : access_ptr)
    (newAccessType : DataAccessType) (h : heap) : res (heap * bool) :=
  d ← access a h;
  if decide (da_type d = READWRITE_ACCESS_TYPE) then Ok (h, true)
  else if decide (da_type d = WRITE_ACCESS_TYPE) then
    Ok (put_access a (set_type newAccessType d) h, true)
  else if decide (newAccessType = READ_ACCESS_TYPE) then Ok (h, true)
  else
    let satisfied := evaluateSatisfiability (Some d) newAccessType in
    r ← new_access (da_dataAccessSequence d) newAccessType true satisfied task 0 h;
    Ok (r.1, satisfied).

(** [Instrument::linkedDataAccesses] reads through [effectivePrevious], which is null at the
    beginning of a sequence. *)
Definition upgradeWeakAccessWithStrong (fuel : nat) (task : task_ptr) (a : access_ptr)
    (newAccessType : DataAccessType) (h : heap) : res (heap * bool) :=
  d ← access a h;
  if negb (bool_decide (newAccessType = READ_ACCESS_TYPE)) then
    let d := set_weak false (set_type READWRITE_ACCESS_TYPE d) in
    upgrade_to_readwrite fuel a d (put_access a d h)
  else if decide (da_type d = READ_ACCESS_TYPE) then
    Ok (put_access a (set_weak false d) h, da_satisfied d)
  else
    effectivePrevious ← getEffectivePrevious fuel (da_dataAccessSequence d) (Some a) h;
    prev ← deref effectivePrevious h;
    let satisfied := evaluateSatisfiability prev newAccessType in
    let h := put_access a
               (set_satisfied satisfied (set_weak false (set_type READ_ACCESS_TYPE d))) h in
    _ ← get effectivePrevious;
    r ← new_access (da_dataAccessSequence d) (da_type d) true false task 0 h;
    Ok (r.1, satisfied).

(** [DataAccess::upgradeAccess] *)
Definition upgradeAccess (fuel : nat) (task : task_ptr) (a : access_ptr)
    (newAccessType : DataAccessType) (newAccessWeakness : bool) (h : heap) : res (heap * bool) :=
  d ← access a h;
  _ ← failIf (bool_decide (da_type d = CONCURRENT_ACCESS_TYPE) ||
              bool_decide (newAccessType = CONCURRENT_ACCESS_TYPE))
        "Combining accesses of type concurrent with other accesses over the same data is not permitted"%string;
  if decide (da_type d = newAccessType) then upgradeSameTypeAccess a newAccessWeakness h
  else if decide (da_weak d = newAccessWeakness) then
    upgradeSameStrengthAccess fuel a newAccessType h
  else if negb (da_weak d) then upgradeStrongAccessWithWeak task a newAccessType h
  else upgradeWeakAccessWithStrong fuel task a newAccessType h.

(** [DataAccessRegistration::registerTaskDataAccess]: whether the access can start, and the
    new access, null for a repeated one. *)
Definition registerTaskDataAccess (fuel : nat) (task : task_ptr) (accessType : DataAccessType)
    (weak : bool) (q : seq_ptr) (reductionInfo : Z) (h : heap) :
    res (heap * bool * option access_ptr) :=
  s ← sequence q h;
  let add (effectivePrevious : option access_ptr) :=
    prev ← deref effectivePrevious h;
    let satisfied := evaluate prev accessType reductionInfo in
    r ← new_access q accessType weak satisfied task
          (if decide (accessType = REDUCTION_ACCESS_TYPE) then reductionInfo else 0) h;
    Ok (r.1, satisfied || weak, Some r.2) in
  match last (seq_elems s) with
  | Some lastAccess =>
      d ← access lastAccess h;
      if decide (da_originator d = task) then
        r ← upgradeAccess fuel task lastAccess accessType weak h;
        Ok (r.1, r.2, None)
      else add (Some lastAccess)
  | None => p ← getEffectivePrevious fuel q None h; add p
  end.

(** The access of the parent whose sequence covers the address, if any. *)
Fixpoint find_parent_access (accesses : list access_ptr) (a : address) (h : heap) :
    res (option access_ptr) :=
  match accesses with
  | [] => Ok None
  | p :: accesses =>
      d ← access p h;
      s ← sequence (da_dataAccessSequence d) h;
      if seq_accessRegion s =? a then Ok (Some p) else find_parent_access accesses a h
  end.

(** [FixedAddressDataAccessMap::operator[]] *)
Definition domain_sequence (domain : thread_ptr) (a : address) (h : heap) : heap :=
  match h_roots h !! (domain, a) with
  | Some _ => h
  | None =>
      mkHeap (h_accesses h) (<[(domain, a) := mkSeq a None il_empty]> (h_roots h))
        (h_tasks h) (h_next h)
  end.

(** [register_access] of [RegisterDependencies.cpp], run by worker thread [thread]. *)
Definition register_access (fuel : nat) (thread : thread_ptr) (accessType : DataAccessType)
    (weak : bool) (t : task_ptr) (start : address) (reductionInfo : Z) (h : heap) : res heap :=
  x ← task t h;
  parentAccess ←
    (match t_parent x with
     | None => Ok None
     | Some parent =>
         p ← task parent h;
         find_parent_access (il_elems (t_dataAccesses p)) start h
     end);
  let '(h, q) :=
    match parentAccess with
    | Some p => (h, SubSeq p)
    | None => (domain_sequence thread start h, RootSeq thread start)
    end in
  r ← registerTaskDataAccess fuel t accessType (weak && negb (t_final x) && negb (t_taskloop x))
        q reductionInfo h;
  let '(h, canStart, dataAccess) := r in
  x ← task t h;
  let h :=
    match dataAccess with
    | Some a => put_task t (mkTask (t_parent x) (t_predecessorCount x)
                  (il_push_back a (t_dataAccesses x)) (t_final x) (t_taskloop x)) h
    | None => h
    end in
  if negb canStart then increasePredecessors t 1 h else Ok h.

(** The accesses the generated [register_depinfo] of a task declares. *)
Record depinfo := mkDepinfo {
  dep_type : DataAccessType; dep_weak : bool; dep_start : address; dep_reduction : Z }.

Fixpoint register_all (fuel : nat) (thread : thread_ptr) (t : task_ptr) (deps : list depinfo)
    (h : heap) : res heap :=
  match deps with
  | [] => Ok h
  | d :: deps =>
      h ← register_access fuel thread (dep_type d) (dep_weak d) t (dep_start d) (dep_reduction d) h;
      register_all fuel thread t deps h
  end.

(** [DataAccessRegistration::registerTaskDataAccesses]: whether the task is ready. *)
Definition registerTaskDataAccesses (fuel : nat) (thread : thread_ptr) (t : task_ptr)
    (deps : list depinfo) (h : heap) : res (heap * bool) :=
  h ← increasePredecessors t 2 h;
  h ← register_all fuel thread t deps h;
  decreasePredecessors t 2 h.
End discrete.

Arguments DataAccessSequence : clear implicits.
Arguments DataAccess : clear implicits.
Arguments Task : clear implicits.
Arguments heap : clear implicits.
