(* ===== verification/DiscreteProofs.v ===== *)
(** * Discrete dependencies: theorems

    The accesses of an address that are satisfied form a prefix of pairwise compatible
    accesses, as long as possible, in every state reached by registering and unregistering
    accesses of leaf tasks; the tasks that are told so are exactly those of the accesses that
    become satisfied.  Three combinations of accesses by the same task break this. *)

From S2P Require Import Prelude Boost DataAccessType DiscreteDeps.
Local Open Scope Z_scope.

(** ** Sequences of access objects *)

Section sequences.
Context {L : Type} `{!IntrusiveList nat L}.
Implicit Types (d p : DataAccess L) (ds : list (DataAccess L)).

Definition eval_access (prev : option (DataAccess L)) d : bool :=
  evaluate prev (da_type d) (da_reductionInfo d).

(** Every access is satisfied exactly when it can be after the one before it. *)
Fixpoint seq_ok (prev : option (DataAccess L)) ds : Prop :=
  match ds with
  | [] => True
  | d :: ds => da_satisfied d = eval_access prev d ∧ seq_ok (Some d) ds
  end.

(** [b] may run together with an earlier satisfied [a]. *)
Definition compatible (a b : DataAccess L) : bool :=
  if decide (da_type b = REDUCTION_ACCESS_TYPE)
  then bool_decide (da_type a = REDUCTION_ACCESS_TYPE) &&
       (da_reductionInfo a =? da_reductionInfo b)
  else if decide (da_type b = READ_ACCESS_TYPE) then bool_decide (da_type a = READ_ACCESS_TYPE)
  else negb (bool_decide (da_type b = WRITE_ACCESS_TYPE)) &&
       negb (bool_decide (da_type b = READWRITE_ACCESS_TYPE)) &&
       bool_decide (da_type a = CONCURRENT_ACCESS_TYPE).

Lemma eval_access_None d : eval_access None d = true.
Proof. unfold eval_access, evaluate. by case_decide. Qed.

Lemma eval_access_Some p d : eval_access (Some p) d = da_satisfied p && compatible p d.
Proof.
  unfold eval_access, evaluate, evaluateReductionSatisfiability, evaluateSatisfiability, compatible.
  destruct (da_satisfied p); simpl; [|by case_decide].
  destruct (da_type d); simpl; by repeat case_decide.
Qed.

Lemma eval_access_unsat p d : da_satisfied p = false → eval_access (Some p) d = false.
Proof. intros Hp. by rewrite eval_access_Some, Hp. Qed.

(** Compatibility chains. *)
Lemma compatible_trans a b c :
  compatible a b = true → compatible b c = true → compatible a c = true.
Proof.
  unfold compatible. destruct (da_type a), (da_type b), (da_type c); simpl; try done.
  intros ??. bool_hyps. apply Z.eqb_eq. congruence.
Qed.

Lemma seq_ok_app prev ds1 ds2 :
  seq_ok prev (ds1 ++ ds2) ↔
  seq_ok prev ds1 ∧ seq_ok (match last ds1 with Some d => Some d | None => prev end) ds2.
Proof.
  revert prev. induction ds1 as [|d ds1 IH]; intros prev; [simpl; tauto|].
  rewrite last_cons. simpl. rewrite IH. destruct (last ds1); tauto.
Qed.

Lemma seq_ok_unsat p ds :
  da_satisfied p = false → seq_ok (Some p) ds → Forall (λ d, da_satisfied d = false) ds.
Proof.
  revert p. induction ds as [|d ds IH]; intros p Hp; simpl; [constructor|].
  intros [Hd Hok]. rewrite eval_access_unsat in Hd by done. constructor; eauto.
Qed.

Lemma seq_ok_all_unsat p ds :
  da_satisfied p = false → Forall (λ d, da_satisfied d = false) ds → seq_ok (Some p) ds.
Proof.
  revert p. induction ds as [|d ds IH]; intros p Hp Hun; simpl; [done|].
  apply Forall_cons in Hun as [Hd Hun]. rewrite eval_access_unsat by done. auto.
Qed.

(** ** Propagation on access objects *)

Fixpoint propagate (prev : option (DataAccess L)) ds : list (DataAccess L) * list task_ptr :=
  match ds with
  | [] => ([], [])
  | d :: ds =>
      let '(d', becomes) := reevaluateSatisfiability prev d in
      if becomes then
        let '(ds', o) := propagate (Some d') ds in
        (d' :: ds', (if da_weak d' then [] else [da_originator d']) ++ o)
      else (d' :: ds, [])
  end.

Lemma set_satisfied_id d : set_satisfied (da_satisfied d) d = d.
Proof. by destruct d. Qed.

Lemma reevaluate_false prev d :
  (reevaluateSatisfiability prev d).2 = false → (reevaluateSatisfiability prev d).1 = d.
Proof.
  unfold reevaluateSatisfiability. destruct (da_satisfied d) eqn:E; [done|].
  simpl. intros ->. rewrite <- E. apply set_satisfied_id.
Qed.

Lemma propagate_all_unsat prev ds :
  Forall (λ d, da_satisfied d = false) ds →
  seq_ok prev (propagate prev ds).1.
Proof.
  revert prev. induction ds as [|d ds IH]; intros prev Hun; simpl; [done|].
  apply Forall_cons in Hun as [Hd Hun]. unfold reevaluateSatisfiability. rewrite Hd.
  fold (eval_access prev d). destruct (eval_access prev d) eqn:E; simpl.
  - specialize (IH (Some (set_satisfied true d)) Hun).
    destruct (propagate _ ds) as [ds' o]. simpl in *. split; [by rewrite <- E|done].
  - rewrite <- Hd at 1 2. rewrite set_satisfied_id. split; [by rewrite Hd, E|].
    by apply seq_ok_all_unsat.
Qed.

(** What the propagation does to each access, and whom it reports. *)
Definition raised (d d' : DataAccess L) : Prop :=
  d' = set_satisfied (da_satisfied d') d ∧ (da_satisfied d = true → da_satisfied d' = true).

Lemma raised_refl d : raised d d.
Proof. split; [by rewrite set_satisfied_id|done]. Qed.

Lemma raised_reevaluate prev d : raised d (reevaluateSatisfiability prev d).1.
Proof.
  unfold reevaluateSatisfiability. destruct (da_satisfied d) eqn:E; simpl.
  - apply raised_refl.
  - split; simpl; [done|congruence].
Qed.

Lemma propagate_raised prev ds : Forall2 raised ds (propagate prev ds).1.
Proof.
  revert prev. induction ds as [|d ds IH]; intros prev; simpl; [constructor|].
  pose proof (raised_reevaluate prev d) as Hr.
  destruct (reevaluateSatisfiability prev d) as [d' []]; simpl in *.
  - specialize (IH (Some d')). destruct (propagate _ _). by constructor.
  - constructor; [done|]. apply Forall_Forall2_diag, Forall_forall. intros. apply raised_refl.
Qed.

(** The pending strong accesses of a task: what its predecessor count counts. *)
Definition pending (t : task_ptr) d : bool :=
  bool_decide (da_originator d = t) && negb (da_weak d) && negb (da_satisfied d).
Definition pending_count (t : task_ptr) ds : nat := countb (pending t) ds.

Lemma pending_count_cons t d ds :
  pending_count t (d :: ds) = ((if pending t d then 1 else 0) + pending_count t ds)%nat.
Proof. apply countb_cons. Qed.

Lemma pending_count_app t ds1 ds2 :
  pending_count t (ds1 ++ ds2) = (pending_count t ds1 + pending_count t ds2)%nat.
Proof. apply countb_app. Qed.

Lemma propagate_pending t prev ds :
  pending_count t ds =
  (pending_count t (propagate prev ds).1 +
   length (filter (λ x, x = t) (propagate prev ds).2))%nat.
Proof.
  revert prev. induction ds as [|d ds IH]; intros prev; simpl; [done|].
  unfold reevaluateSatisfiability. destruct (da_satisfied d) eqn:Hd; simpl; [lia|].
  fold (eval_access prev d). destruct (eval_access prev d) eqn:E; simpl.
  - specialize (IH (Some (set_satisfied true d))).
    destruct (propagate _ ds) as [ds' o]. simpl in *. rewrite !pending_count_cons, filter_app, length_app, IH.
    unfold pending. simpl. rewrite Hd, andb_false_r, andb_true_r.
    destruct (da_weak d); simpl; [rewrite andb_false_r; lia|rewrite andb_true_r].
    rewrite filter_cons. case_bool_decide; case_decide; simpl; (lia || congruence).
  - rewrite <- Hd at 1. rewrite set_satisfied_id. lia.
Qed.
End sequences.

(** ** From the heap to sequences of objects *)

Section heaps.
Context {L : Type} `{!IntrusiveList nat L} `{!IntrusiveListLaws nat L}.
Implicit Types (d : DataAccess L) (ds : list (DataAccess L)) (h : heap L) (ps : list access_ptr).

(** [ds] are the objects at [ps], leaf accesses of the sequence [q]. *)
Definition objects h (q : seq_ptr) ps ds : Prop :=
  Forall2 (λ p d, h_accesses h !! p = Some d ∧ da_dataAccessSequence d = q ∧
                  seq_elems (da_subaccesses d) = []) ps ds.

(** The root sequence of an address, all of whose accesses are leaves. *)
Record root_seq h (q : seq_ptr) (s : DataAccessSequence L) ps ds : Prop := {
  rs_seq : get_seq q h = Some s;
  rs_super : seq_superAccess s = None;
  rs_elems : seq_elems s = ps;
  rs_nodup : NoDup ps;
  rs_objects : objects h q ps ds;
}.

Definition put_all ps ds h : heap L :=
  mkHeap (list_to_map (zip ps ds) ∪ h_accesses h) (h_roots h) (h_tasks h) (h_next h).

Lemma access_ok p d h : h_accesses h !! p = Some d → access p h = Ok d.
Proof. intros Hp. unfold access. by rewrite Hp. Qed.

Lemma sequence_ok q s h : get_seq q h = Some s → sequence q h = Ok s.
Proof. intros Hs. unfold sequence. by rewrite Hs. Qed.

Lemma zip_lookup_None ps ds p :
  p ∉ ps → (list_to_map (zip ps ds) : gmap nat (DataAccess L)) !! p = None.
Proof.
  intros Hp. apply not_elem_of_list_to_map. intros Hin. apply Hp.
  apply list_elem_of_fmap in Hin as ([x y] & -> & Hin). by apply elem_of_zip_l in Hin.
Qed.

Lemma put_all_lookup_ne ps ds h p :
  p ∉ ps → h_accesses (put_all ps ds h) !! p = h_accesses h !! p.
Proof. intros Hp. simpl. rewrite lookup_union_r; [done|]. by apply zip_lookup_None. Qed.

Lemma put_all_cons p d ps ds h :
  p ∉ ps → put_all ps ds (put_access p d h) = put_all (p :: ps) (d :: ds) h.
Proof.
  intros Hp. unfold put_all, put_access. simpl. f_equal.
  rewrite <- insert_union_r by (by apply zip_lookup_None). by rewrite insert_union_l.
Qed.

Lemma put_access_id p d h : h_accesses h !! p = Some d → put_access p d h = h.
Proof. intros Hp. unfold put_access. rewrite insert_id by done. by destruct h. Qed.

Lemma put_all_id h ps ds :
  NoDup ps → Forall2 (λ p d, h_accesses h !! p = Some d) ps ds → put_all ps ds h = h.
Proof.
  intros Hnd Hf. induction Hf as [|p d ps ds Hp Hf IH]; simpl.
  { unfold put_all. simpl. rewrite map_empty_union. by destruct h. }
  apply NoDup_cons in Hnd as [Hnp Hnd].
  rewrite <- put_all_cons by done. by rewrite (put_access_id p d h Hp), IH.
Qed.

Lemma put_all_lookup ps ds h i p d :
  NoDup ps → length ps = length ds → ps !! i = Some p → ds !! i = Some d →
  h_accesses (put_all ps ds h) !! p = Some d.
Proof.
  intros Hnd Hlen Hp Hd. simpl. apply lookup_union_Some_l, elem_of_list_to_map.
  - by rewrite fst_zip by lia.
  - apply list_elem_of_lookup. exists i. rewrite lookup_zip_with, Hp. simpl. by rewrite Hd.
Qed.

Lemma put_all_objects h q ps ds ds' :
  NoDup ps → objects h q ps ds → Forall2 raised ds ds' → objects (put_all ps ds' h) q ps ds'.
Proof.
  intros Hnd Ho Hr. pose proof (Forall2_length _ _ _ Ho). pose proof (Forall2_length _ _ _ Hr).
  apply Forall2_same_length_lookup. split; [congruence|]. intros i p d' Hp Hd'.
  split; [eapply put_all_lookup; (done || congruence)|].
  destruct (Forall2_lookup_r _ _ _ _ _ Hr Hd') as (d & Hd & [-> _]).
  destruct (Forall2_lookup_lr _ _ _ _ _ _ Ho Hp Hd) as (_ & ? & ?). by destruct d.
Qed.

Lemma objects_weaken h h' q ps ds :
  objects h q ps ds → (∀ p, p ∈ ps → h_accesses h' !! p = h_accesses h !! p) →
  objects h' q ps ds.
Proof.
  intros Ho He. apply Forall2_same_length_lookup. split; [by eapply Forall2_length|].
  intros i p d Hp Hd. destruct (Forall2_lookup_lr _ _ _ _ _ _ Ho Hp Hd) as (? & ? & ?).
  rewrite He by (by eapply list_elem_of_lookup_2). done.
Qed.

Lemma objects_app h q ps1 ps2 ds1 ds2 :
  length ps1 = length ds1 →
  objects h q (ps1 ++ ps2) (ds1 ++ ds2) ↔ objects h q ps1 ds1 ∧ objects h q ps2 ds2.
Proof.
  intros Hl. split.
  - intros Ho. by apply Forall2_app_inv in Ho.
  - intros [? ?]. by apply Forall2_app.
Qed.

Lemma objects_elem h q ps ds p :
  objects h q ps ds → p ∈ ps → ∃ d, h_accesses h !! p = Some d ∧ da_dataAccessSequence d = q ∧
    seq_elems (da_subaccesses d) = [].
Proof.
  intros Ho [i Hi]%list_elem_of_lookup.
  destruct (Forall2_lookup_l _ _ _ _ _ Ho Hi) as (d & _ & ?). eauto.
Qed.

(** The loop on the heap is the propagation on the objects. *)
Lemma propagate_loop_objects fuel q previous prev ps ds h out :
  (length ps ≤ fuel)%nat → NoDup ps → objects h q ps ds → deref previous h = Ok prev →
  (∀ p, previous = Some p → p ∉ ps) →
  propagate_loop fuel previous ps (h, out) =
    Ok (put_all ps (propagate prev ds).1 h, out ++ (propagate prev ds).2).
Proof.
  revert fuel previous prev ds h out.
  induction ps as [|p ps IH]; intros fuel previous prev ds h out Hfuel Hnd Ho Hprev Hnp.
  { inversion Ho; subst. simpl. destruct fuel; simpl; rewrite app_nil_r; do 2 f_equal;
      symmetry; apply put_all_id; constructor. }
  destruct fuel as [|fuel]; [simpl in *; lia|]. simpl in Hfuel.
  inversion Ho as [|? d ? ds' (Hp & Hq & Hs) Ho']; subst. apply NoDup_cons in Hnd as [Hpp Hnd].
  simpl. rewrite (access_ok p d h Hp). simpl. rewrite Hprev. simpl.
  pose proof (raised_reevaluate prev d) as [Hr _]. pose proof (reevaluate_false prev d) as Hf.
  destruct (reevaluateSatisfiability prev d) as [d' []]; simpl in *.
  - assert (da_subaccesses d' = da_subaccesses d) as -> by (rewrite Hr; done). rewrite Hs. simpl.
    assert (∀ out, propagate_loop fuel (Some p) ps (put_access p d' h, out) =
      Ok (put_all (p :: ps) (d' :: (propagate (Some d') ds').1) h,
          out ++ (propagate (Some d') ds').2)) as IH'.
    { intros out'. rewrite <- put_all_cons by done. apply IH; [lia|done| | |].
      - eapply objects_weaken; [done|]. intros p' Hp'. simpl. apply lookup_insert_ne. set_solver.
      - unfold deref, access. simpl. by rewrite lookup_insert_eq.
      - by intros ? [= <-]. }
    destruct (propagate (Some d') ds') as [ds2 o]; simpl in *.
    destruct (da_weak d'); simpl; rewrite IH'; [done|]. by rewrite <- app_assoc.
  - rewrite (Hf eq_refl), app_nil_r, put_access_id by done. do 2 f_equal. symmetry.
    apply put_all_id; [by constructor|]. constructor; [done|].
    eapply Forall2_impl; [exact Ho'|]. naive_solver.
Qed.

Lemma getEffectivePrevious_root fuel q s h x l1 l2 :
  (0 < fuel)%nat → get_seq q h = Some s → seq_superAccess s = None →
  seq_elems s = l1 ++ x :: l2 → NoDup (seq_elems s) →
  getEffectivePrevious fuel q (Some x) h = Ok (last l1).
Proof.
  intros Hf Hs Hsup Hl Hnd. destruct fuel as [|fuel]; [lia|]. simpl.
  unfold sequence. rewrite Hs. simpl. rewrite Hl in Hnd |- *.
  apply NoDup_app in Hnd as (_ & Hx & _).
  assert (x ∉ l1) as Hx1 by (intros Hin; by apply (Hx x Hin); left).
  case_decide as E.
  - rewrite Hsup. destruct l1 as [|y l1]; simplify_eq/=; [done|]. set_solver.
  - by rewrite list_prev_app.
Qed.

Lemma getEffectivePrevious_empty fuel q s h :
  (0 < fuel)%nat → get_seq q h = Some s → seq_superAccess s = None → seq_elems s = [] →
  getEffectivePrevious fuel q None h = Ok None.
Proof.
  intros Hf Hs Hsup Hl. destruct fuel as [|fuel]; [lia|]. simpl. unfold sequence.
  by rewrite Hs; simpl; rewrite Hl; simpl; rewrite Hsup.
Qed.

Lemma deref_last h q ps ds :
  objects h q ps ds → deref (last ps) h = Ok (last ds).
Proof.
  intros Ho. destruct ps as [|p ps] using rev_ind; [by inversion Ho|].
  apply Forall2_app_inv_l in Ho as (ds1 & ds2 & _ & Ho & ->).
  inversion Ho as [|? d ? ? (Hp & _) Ho2]; subst. inversion Ho2; subst.
  rewrite !last_snoc. unfold deref, access. by rewrite Hp.
Qed.

Lemma filter_ne_middle (a : access_ptr) l1 l2 :
  NoDup (l1 ++ a :: l2) → filter (λ y, y ≠ a) (l1 ++ a :: l2) = l1 ++ l2.
Proof.
  intros Hnd. apply NoDup_app in Hnd as (_ & H1 & H2). apply NoDup_cons in H2 as [H2 _].
  rewrite filter_app, filter_cons_False by naive_solver.
  rewrite !filter_all; [done|set_solver|]. intros x Hx ->. apply (H1 a Hx). left.
Qed.

#[local] Arguments propagate : simpl never.
#[local] Arguments propagate_loop : simpl never.

(** Reevaluating from [next] on after everything before it has changed. *)
Lemma reevaluate_root fuel dom addr s h ps1 next ps2 ds1 n ds2 out :
  let q := RootSeq dom addr in
  (length (next :: ps2) ≤ fuel)%nat →
  root_seq h q s (ps1 ++ next :: ps2) (ds1 ++ n :: ds2) → length ps1 = length ds1 →
  (p ← getEffectivePrevious fuel q (Some next) h;
   reevaluateAndPropagateSatisfiability fuel p (Some next) (h, out)) =
  Ok (put_all (next :: ps2) (propagate (last ds1) (n :: ds2)).1 h,
      out ++ (propagate (last ds1) (n :: ds2)).2).
Proof.
  intros q Hfuel [Hs Hsup Hel Hnd Ho] Hlen.
  rewrite (getEffectivePrevious_root fuel q s h next ps1 ps2)
    by (done || (simpl in *; lia) || congruence).
  apply objects_app in Ho as [Ho1 Ho2]; [|done].
  simpl. inversion Ho2 as [|? ? ? ? (Hn & Hq & _) _]; subst.
  rewrite (access_ok next n h) by done. simpl. rewrite Hq. unfold sequence. rewrite Hs. simpl.
  apply NoDup_app in Hnd as (_ & H1 & H2). rewrite Hel, list_from_app by (intros Hin; by apply (H1 next Hin); left).
  apply (propagate_loop_objects fuel q); [done|done|done|by eapply deref_last|].
  intros p Hp Hin. apply last_Some in Hp as [l' Hp]. apply (H1 p); [rewrite Hp; set_solver|done].
Qed.

(** Unlinking an access of a root sequence. *)
Lemma root_erase h dom addr s ps1 a ps2 ds1 d ds2 :
  let q := RootSeq dom addr in
  let s' := set_list (il_erase a (seq_accessSequence s)) s in
  root_seq h q s (ps1 ++ a :: ps2) (ds1 ++ d :: ds2) → length ps1 = length ds1 →
  root_seq (put_seq q s' h) q s' (ps1 ++ ps2) (ds1 ++ ds2) ∧
  list_next a (seq_elems s) = head ps2 ∧ access a h = Ok d ∧ da_dataAccessSequence d = q ∧
  seq_elems (da_subaccesses d) = [].
Proof.
  intros q s' [Hs Hsup Hel Hnd Ho] Hlen. apply objects_app in Ho as [Ho1 Ho2]; [|done].
  inversion Ho2 as [|? ? ? ? (Ha & Hq & Hsub) Ho2']; subst.
  split; [|split; [|split; [by apply access_ok|done]]].
  - split; [simpl; by rewrite lookup_insert_eq|done| | |].
    + unfold s', seq_elems. simpl. rewrite (il_erase_law (A := nat)).
      unfold seq_elems in Hel. rewrite Hel. by apply filter_ne_middle.
    + eapply sublist_NoDup; [exact Hnd|]. by apply sublist_app, sublist_cons.
    + apply objects_app; [done|]. split; eapply objects_weaken; done.
  - rewrite Hel. apply list_next_app. apply NoDup_app in Hnd as (_ & H1 & _).
    intros Hin. apply (H1 a Hin). left.
Qed.

(** Dropping a member keeps the rest consistent when the next one is satisfied. *)
Lemma seq_ok_drop_sat ds1 d n ds2 :
  da_satisfied n = true → seq_ok None (ds1 ++ d :: n :: ds2) → seq_ok None (ds1 ++ n :: ds2).
Proof.
  intros Hn Hok. apply seq_ok_app in Hok as [H1 (Hd & Hnd & H2)]. apply seq_ok_app.
  split; [done|]. split; [|done]. rewrite Hn. rewrite Hn, eval_access_Some in Hnd.
  symmetry in Hnd. bool_hyps. destruct (last ds1) as [p|].
  - rewrite eval_access_Some. match goal with H : da_satisfied d = true |- _ => rewrite H in Hd end.
    rewrite eval_access_Some in Hd. symmetry in Hd |- *. bool_hyps.
    apply andb_true_iff. split; [done|]. by eapply compatible_trans.
  - by rewrite eval_access_None.
Qed.

#[local] Arguments put_seq : simpl never.
#[local] Arguments sequence : simpl never.
#[local] Arguments access : simpl never.
#[local] Arguments getEffectivePrevious : simpl never.
#[local] Arguments reevaluateAndPropagateSatisfiability : simpl never.

(** The whole of [unregisterDataAccess] on a root sequence of leaf accesses. *)
Lemma unregister_root fuel dom addr s h ps1 a ps2 ds1 d ds2 out :
  let q := RootSeq dom addr in
  let s' := set_list (il_erase a (seq_accessSequence s)) s in
  (length ps2 ≤ fuel)%nat →
  root_seq h q s (ps1 ++ a :: ps2) (ds1 ++ d :: ds2) → length ps1 = length ds1 →
  seq_ok None (ds1 ++ d :: ds2) →
  ∃ ds2' o,
    unregisterDataAccess fuel a (h, out) = Ok (put_all ps2 ds2' (put_seq q s' h), out ++ o) ∧
    root_seq (put_all ps2 ds2' (put_seq q s' h)) q s' (ps1 ++ ps2) (ds1 ++ ds2') ∧
    seq_ok None (ds1 ++ ds2') ∧ Forall2 raised ds2 ds2' ∧
    ∀ t, pending_count t ds2 = (pending_count t ds2' + length (filter (λ x, x = t) o))%nat.
Proof.
  intros q s' Hfuel Hroot Hlen Hok.
  destruct (root_erase h dom addr s ps1 a ps2 ds1 d ds2 Hroot Hlen)
    as (Hroot' & Hnext & Ha & Hq & Hsub).
  fold q in Hroot', Hq. fold s' in Hroot'. unfold unregisterDataAccess. rewrite Ha. simpl. rewrite Hq.
  rewrite (sequence_ok q s h) by (by eapply rs_seq). simpl. rewrite Hnext, Hsub. simpl.
  fold s'. set (h1 := put_seq q s' h) in *.
  pose proof (rs_objects _ _ _ _ _ Hroot') as Ho. apply objects_app in Ho as [_ Ho2]; [|done].
  destruct ps2 as [|next ps2]; inversion Ho2 as [|? n ? ds2' (Hn & _ & _) _]; subst; simpl.
  { (* the access was the last one *)
    exists [], []. rewrite put_all_id, app_nil_r by constructor.
    split_and!; [done|done| |constructor|done].
    apply seq_ok_app in Hok as [Hok _]. by rewrite app_nil_r. }
  rewrite (access_ok next n h1) by done. simpl.
  destruct (da_satisfied n) eqn:Esat; simpl.
  { (* the next access stays satisfied *)
    exists (n :: ds2'), []. rewrite put_all_id, app_nil_r.
    - split_and!; [done|done|by eapply seq_ok_drop_sat| |intros; simpl; lia].
      apply Forall_Forall2_diag, Forall_forall. intros. apply raised_refl.
    - eapply sublist_NoDup; [apply (rs_nodup _ _ _ _ _ Hroot')|]. by apply sublist_inserts_l.
    - eapply Forall2_impl; [exact Ho2|]. naive_solver. }
  (* everything from the next access on is reevaluated *)
  pose proof (reevaluate_root fuel dom addr s' h1 ps1 next ps2 ds1 n ds2' out
    Hfuel Hroot' Hlen) as Hre. cbv zeta in Hre. fold q in Hre. rewrite Hre.
  set (P := propagate (last ds1) (n :: ds2')).
  pose proof (propagate_raised (last ds1) (n :: ds2')) as Hraised. fold P in Hraised.
  exists P.1, P.2. split; [done|]. split_and!; [| |done|].
  - destruct Hroot' as [Hs Hsup Hel Hnd Ho]. split; [done..|].
    apply objects_app in Ho as [Ho1 _]; [|done]. apply NoDup_app in Hnd as (_ & H1 & H2).
    apply objects_app; [done|]. split.
    + eapply objects_weaken; [exact Ho1|]. intros p Hp. apply put_all_lookup_ne. by apply H1.
    + by eapply put_all_objects.
  - apply seq_ok_app in Hok as [Hok1 (_ & Hn' & Hok2)]. apply seq_ok_app. split; [done|].
    replace (match last ds1 with Some d => Some d | None => None end) with (last ds1)
      by (by destruct (last ds1)).
    apply propagate_all_unsat. constructor; [done|]. by eapply seq_ok_unsat.
  - intros t. apply propagate_pending.
Qed.

(** ** The states reached by registering and unregistering *)

Record dep_inv h : Prop := {
  di_fresh : ∀ p, (h_next h ≤ p)%nat → h_accesses h !! p = None;
  di_roots : ∀ dom addr s, h_roots h !! (dom, addr) = Some s →
    ∃ ds, root_seq h (RootSeq dom addr) s (seq_elems s) ds ∧ seq_ok None ds;
}.

(** Linking a fresh access at the end of a root sequence. *)
Lemma new_access_root h dom addr s ds ty weak sat t info :
  let q := RootSeq dom addr in
  let a := h_next h in
  let d := mkAccess ty weak sat t q (mkSeq (seq_accessRegion s) (Some a) il_empty) info in
  let s' := set_list (il_push_back a (seq_accessSequence s)) s in
  let h' := put_seq q s' (mkHeap (<[a := d]> (h_accesses h)) (h_roots h) (h_tasks h) (S a)) in
  dep_inv h → root_seq h q s (seq_elems s) ds →
  new_access q ty weak sat t info h = Ok (h', a) ∧
  root_seq h' q s' (seq_elems s') (ds ++ [d]) ∧ seq_elems s' = seq_elems s ++ [a].
Proof.
  intros q a d s' h' Hinv [Hs Hsup Hel Hnd Ho].
  assert (seq_elems s' = seq_elems s ++ [a]) as Hel'.
  { unfold s', seq_elems. simpl. by rewrite (il_push_back_law (A := nat)). }
  assert (a ∉ seq_elems s) as Ha.
  { intros Hin. destruct (objects_elem _ _ _ _ _ Ho Hin) as (x & Hx & _).
    by rewrite (di_fresh _ Hinv) in Hx. }
  split; [|split; [|done]].
  - unfold new_access. by rewrite (sequence_ok q s h).
  - rewrite Hel'. split; [simpl; by rewrite lookup_insert_eq|done|done| |].
    + apply NoDup_app. split_and!; [done|set_solver|apply NoDup_singleton].
    + apply Forall2_app; [eapply objects_weaken; [exact Ho|]|].
      * intros p Hp. simpl. apply lookup_insert_ne. set_solver.
      * constructor; [|constructor]. simpl. rewrite lookup_insert_eq. split_and!; [done..|].
        unfold seq_elems. simpl. apply (il_elems_empty (A := nat)).
Qed.

(** The other root sequences do not see a change that stays out of their accesses. *)
Lemma dep_inv_other h h' dom addr s ds :
  dep_inv h →
  (∀ x, x ≠ (dom, addr) → h_roots h' !! x = h_roots h !! x) →
  (∀ p d, h_accesses h !! p = Some d → da_dataAccessSequence d ≠ RootSeq dom addr →
     h_accesses h' !! p = Some d) →
  (∀ p, (h_next h' ≤ p)%nat → h_accesses h' !! p = None) →
  h_roots h' !! (dom, addr) = Some s →
  root_seq h' (RootSeq dom addr) s (seq_elems s) ds → seq_ok None ds → dep_inv h'.
Proof.
  intros Hinv Hroots Hacc Hfresh Hs Hr Hok. split; [done|].
  intros dom' addr' s' Hs'. destruct (decide ((dom', addr') = (dom, addr))) as [[= -> ->]|Hne].
  { rewrite Hs in Hs'. simplify_eq. eauto. }
  rewrite Hroots in Hs' by done. destruct (di_roots _ Hinv _ _ _ Hs') as (ds' & Hr' & Hok').
  exists ds'. split; [|done]. destruct Hr' as [Hq Hsup _ Hnd Ho].
  split; [simpl; by rewrite Hroots|done..|].
  eapply objects_weaken; [exact Ho|]. intros p Hp.
  destruct (objects_elem _ _ _ _ _ Ho Hp) as (d & Hd & Hdq & _). rewrite Hd.
  apply Hacc; [done|]. rewrite Hdq. congruence.
Qed.

Lemma dep_inv_domain_sequence h dom addr :
  dep_inv h → dep_inv (domain_sequence dom addr h) ∧
    is_Some (h_roots (domain_sequence dom addr h) !! (dom, addr)).
Proof.
  intros Hinv. unfold domain_sequence. destruct (h_roots h !! (dom, addr)) as [s|] eqn:E.
  { rewrite E. eauto. }
  split; [|simpl; rewrite lookup_insert_eq; eauto].
  assert (seq_elems (mkSeq addr None il_empty : DataAccessSequence L) = []) as Hel.
  { unfold seq_elems. simpl. apply (il_elems_empty (A := nat)). }
  eapply (dep_inv_other h _ dom addr _ []); [done|..]; simpl.
  - intros x Hx. by apply lookup_insert_ne.
  - done.
  - apply (di_fresh _ Hinv).
  - apply lookup_insert_eq.
  - rewrite Hel. split; [simpl; by rewrite lookup_insert_eq|done|done|constructor|constructor].
  - done.
Qed.

(** [registerTaskDataAccess] with a new access appends it with the satisfiability that its
    predecessor allows. *)
Lemma register_root fuel t ty weak dom addr info h s ds h' can p :
  let q := RootSeq dom addr in
  dep_inv h → root_seq h q s (seq_elems s) ds → seq_ok None ds → (0 < fuel)%nat →
  registerTaskDataAccess fuel t ty weak q info h = Ok (h', can, Some p) →
  ∃ sat, can = sat || weak ∧ p = h_next h ∧
    sat = evaluate (last ds) ty info ∧ (∀ d, last ds = Some d → da_originator d ≠ t) ∧
    new_access q ty weak sat t (if decide (ty = REDUCTION_ACCESS_TYPE) then info else 0) h = Ok (h', p).
Proof.
  intros q Hinv Hr Hok Hfuel. pose proof (deref_last _ _ _ _ (rs_objects _ _ _ _ _ Hr)) as Hlast.
  pose proof Hr as [Hs Hsup _ Hnd Ho].
  unfold registerTaskDataAccess. rewrite (sequence_ok q s h) by done. simpl.
  set (info' := if decide (ty = _) then _ else _).
  assert (∀ sat, new_access q ty weak sat t info' h =
    Ok ((put_seq q (set_list (il_push_back (h_next h) (seq_accessSequence s)) s)
          (mkHeap (<[h_next h := mkAccess ty weak sat t q
             (mkSeq (seq_accessRegion s) (Some (h_next h)) il_empty) info']> (h_accesses h))
             (h_roots h) (h_tasks h) (S (h_next h)))), h_next h)) as Hnew.
  { intros sat. by apply (new_access_root h dom addr s ds). }
  assert ((∀ d, last ds = Some d → da_originator d ≠ t) →
    (r ← new_access q ty weak (evaluate (last ds) ty info) t info' h;
     Ok (r.1, evaluate (last ds) ty info || weak, Some r.2)) = Ok (h', can, Some p) →
    ∃ sat, can = sat || weak ∧ p = h_next h ∧ sat = evaluate (last ds) ty info ∧
      (∀ d, last ds = Some d → da_originator d ≠ t) ∧
      new_access q ty weak sat t info' h = Ok (h', p)) as Hadd.
  { rewrite Hnew. simpl. intros Hne [= <- <- <-].
    exists (evaluate (last ds) ty info). by rewrite Hnew. }
  destruct (last (seq_elems s)) as [la|] eqn:El.
  - destruct (access la h) as [dl|] eqn:Ela; [|done]. cbn [mbind res_bind]. case_decide.
    + by intros (? & ? & ?)%res_bind_ok.
    + unfold deref in Hlast. rewrite Ela in Hlast. simpl in Hlast. injection Hlast as Hlast.
      rewrite <- Hlast in Hadd |- *. apply Hadd. by intros ? [= <-].
  - apply last_None in El. rewrite (getEffectivePrevious_empty fuel q s) by done. simpl.
    injection Hlast as Hlast. rewrite <- Hlast in Hadd |- *. by apply Hadd.
Qed.

(** ** Pending accesses over all the root sequences *)

Definition root_linked h (p : access_ptr) d : bool :=
  match da_dataAccessSequence d with
  | RootSeq dom addr =>
      match h_roots h !! (dom, addr) with
      | Some s => bool_decide (p ∈ seq_elems s)
      | None => false
      end
  | SubSeq _ => false
  end.

Definition pending_at (t : task_ptr) h (p : access_ptr) : bool :=
  match h_accesses h !! p with
  | Some d => root_linked h p d && pending t d
  | None => false
  end.

(** The number of strong accesses of the task that wait for a predecessor. *)
Definition pending_total (t : task_ptr) h : nat := countb (pending_at t h) (seq 0 (h_next h)).

Lemma pending_at_objects t h dom addr s ps ds :
  h_roots h !! (dom, addr) = Some s → (∀ p, p ∈ ps → p ∈ seq_elems s) →
  objects h (RootSeq dom addr) ps ds → countb (pending_at t h) ps = pending_count t ds.
Proof.
  intros Hs Hin Ho. induction Ho as [|p d ps ds (Hp & Hq & _) Ho IH]; [done|].
  rewrite countb_cons, pending_count_cons, IH by (intros; apply Hin; by right).
  unfold pending_at, root_linked. rewrite Hp, Hq, Hs, bool_decide_eq_true_2; [done|].
  apply Hin. left.
Qed.

Lemma pending_at_other t h h' p dom addr s s' :
  h_roots h !! (dom, addr) = Some s → h_roots h' !! (dom, addr) = Some s' →
  (∀ x, x ≠ (dom, addr) → h_roots h' !! x = h_roots h !! x) →
  h_accesses h' !! p = h_accesses h !! p → p ∉ seq_elems s → p ∉ seq_elems s' →
  pending_at t h' p = pending_at t h p.
Proof.
  intros Hs Hs' Hroots Hp Hps Hps'. unfold pending_at. rewrite Hp.
  destruct (h_accesses h !! p) as [d|]; [|done]. f_equal. unfold root_linked.
  destruct (da_dataAccessSequence d) as [dom' addr'|]; [|done].
  destruct (decide ((dom', addr') = (dom, addr))) as [[= -> ->]|Hne]; [|by rewrite Hroots].
  rewrite Hs, Hs'. by rewrite !bool_decide_eq_false_2.
Qed.

Lemma dep_inv_below h dom addr s p :
  dep_inv h → h_roots h !! (dom, addr) = Some s → p ∈ seq_elems s → p ∈ seq 0 (h_next h).
Proof.
  intros Hinv Hs Hp. destruct (di_roots _ Hinv _ _ _ Hs) as (ds & Hr & _).
  destruct (objects_elem _ _ _ _ _ (rs_objects _ _ _ _ _ Hr) Hp) as (d & Hd & _).
  apply elem_of_seq. split; [lia|]. destruct (decide (p < h_next h)%nat) as [?|Hge]; [lia|].
  rewrite (di_fresh _ Hinv) in Hd by lia. done.
Qed.

(** ** One access unregistered *)

(** How the pending accesses change when [a] leaves a root sequence and the accesses after it
    go from [ds2] to [ds2']. *)
Lemma pending_total_erase t h h' dom addr s s' ps1 a ps2 ds1 d ds2 ds2' :
  let q := RootSeq dom addr in
  dep_inv h → root_seq h q s (ps1 ++ a :: ps2) (ds1 ++ d :: ds2) → length ps1 = length ds1 →
  root_seq h' q s' (ps1 ++ ps2) (ds1 ++ ds2') →
  (∀ x, x ≠ (dom, addr) → h_roots h' !! x = h_roots h !! x) →
  (∀ p, p ∉ ps2 → h_accesses h' !! p = h_accesses h !! p) → h_next h' = h_next h →
  (pending_total t h + pending_count t ds2' =
   (if pending t d then 1 else 0) + pending_total t h' + pending_count t ds2)%nat.
Proof.
  cbv zeta. intros Hinv [Hs _ Hps Hnd Ho] Hlen [Hs' _ Hps' _ Ho'] Hroots Hacc Hnext.
  simpl in Hs, Hs'. unfold pending_total. rewrite Hnext. pose proof Hnd as Hnd'.
  apply NoDup_app in Hnd' as (_ & H1 & [H2 _]%NoDup_cons).
  assert (a ∉ ps1 ++ ps2) as Hna.
  { rewrite elem_of_app. intros [Hin|Hin]; [|done]. apply (H1 a Hin). left. }
  assert (∀ p, p ∈ ps1 ++ a :: ps2 → p ∈ seq 0 (h_next h)) as Hbelow.
  { intros p Hp. eapply dep_inv_below; [done|done|]. by rewrite Hps. }
  rewrite !(countb_split _ (seq 0 (h_next h)) (ps1 ++ a :: ps2)) by (done || apply NoDup_seq).
  rewrite (pending_at_objects t h dom addr s _ (ds1 ++ d :: ds2)) by (done || by rewrite Hps).
  rewrite (countb_perm (pending_at t h') (ps1 ++ a :: ps2) (a :: ps1 ++ ps2))
    by (by rewrite Permutation_middle).
  rewrite countb_cons.
  rewrite (pending_at_objects t h' dom addr s' _ (ds1 ++ ds2')) by (done || by rewrite Hps').
  assert (pending_at t h' a = false) as ->.
  { apply objects_app in Ho as [_ Ho]; [|done]. inversion Ho as [|? ? ? ? (Ha & Hq & _) _]; subst.
    unfold pending_at, root_linked. rewrite Hacc by done. rewrite Ha, Hq.
    by rewrite Hs', Hps', bool_decide_eq_false_2. }
  rewrite !pending_count_app, pending_count_cons.
  rewrite (countb_ext (pending_at t h') (pending_at t h)); [lia|].
  intros p [Hp _]%list_elem_of_filter. apply (pending_at_other t h h' p dom addr s s'); try done.
  - apply Hacc. set_solver.
  - by rewrite Hps.
  - rewrite Hps'. set_solver.
Qed.

Lemma notified_originator t ds ds' o :
  pending_count t ds = (pending_count t ds' + length (filter (λ x, x = t) o))%nat → t ∈ o →
  ∃ e, e ∈ ds ∧ da_originator e = t.
Proof.
  intros Hcount Ht. assert (t ∈ filter (λ x, x = t) o) as Hf by (by apply list_elem_of_filter).
  unfold pending_count in Hcount.
  destruct (filter (λ e, pending t e = true) ds) as [|e l] eqn:Epd.
  { unfold countb in Hcount. rewrite Epd in Hcount. simpl in Hcount.
    destruct (filter (λ x, x = t) o); [by apply not_elem_of_nil in Hf|simpl in *; lia]. }
  assert (e ∈ filter (λ e, pending t e = true) ds) as [Hpe He]%list_elem_of_filter.
  { rewrite Epd. left. }
  exists e. split; [done|]. unfold pending in Hpe. bool_hyps. by rewrite bool_decide_eq_true in *.
Qed.

Lemma objects_raised h h' q ps ds ds' :
  objects h q ps ds → Forall2 raised ds ds' →
  (∀ p, p ∉ ps → h_accesses h' !! p = h_accesses h !! p) →
  (∀ i p e, ps !! i = Some p → ds' !! i = Some e → h_accesses h' !! p = Some e) →
  ∀ p, option_Forall2 raised (h_accesses h !! p) (h_accesses h' !! p).
Proof.
  intros Ho Hraised Hacc Hnew p. destruct (decide (p ∈ ps)) as [Hin|Hnin].
  - apply list_elem_of_lookup in Hin as [i Hi].
    destruct (Forall2_lookup_l _ _ _ _ _ Ho Hi) as (e & He & Hpe & _).
    destruct (Forall2_lookup_l _ _ _ _ _ Hraised He) as (e' & He' & Hre).
    rewrite Hpe, (Hnew i p e') by done. by constructor.
  - rewrite Hacc by done. destruct (h_accesses h !! p); constructor. apply raised_refl.
Qed.

Lemma unregister_dep_inv fuel h dom addr s a out :
  dep_inv h → h_roots h !! (dom, addr) = Some s → a ∈ seq_elems s →
  (length (seq_elems s) ≤ fuel)%nat →
  ∃ h' o d, unregisterDataAccess fuel a (h, out) = Ok (h', out ++ o) ∧ dep_inv h' ∧
    h_tasks h' = h_tasks h ∧ h_next h' = h_next h ∧ h_accesses h !! a = Some d ∧
    (∀ x r', h_roots h' !! x = Some r' →
       ∃ r, h_roots h !! x = Some r ∧ seq_elems r' `sublist_of` seq_elems r) ∧
    (∀ p e', h_accesses h' !! p = Some e' → ∃ e, h_accesses h !! p = Some e ∧ raised e e') ∧
    (∀ t, pending_total t h = ((if pending t d then 1 else 0) + pending_total t h' +
                               length (filter (λ x, x = t) o))%nat) ∧
    (∀ x r p, h_roots h !! x = Some r → p ∈ seq_elems r → p ≠ a →
       ∃ r', h_roots h' !! x = Some r' ∧ p ∈ seq_elems r') ∧
    (∀ p e, h_accesses h !! p = Some e → ∃ e', h_accesses h' !! p = Some e' ∧ raised e e') ∧
    (∀ t, t ∈ o → ∃ p e, h_accesses h !! p = Some e ∧ da_originator e = t) ∧
    (∀ r', h_roots h' !! (dom, addr) = Some r' → a ∉ seq_elems r').
Proof.
  intros Hinv Hs Ha Hfuel. destruct (di_roots _ Hinv _ _ _ Hs) as (ds & Hr & Hok).
  destruct (list_elem_of_split _ _ Ha) as (ps1 & ps2 & Hps). rewrite Hps in Hr, Hfuel.
  pose proof (rs_objects _ _ _ _ _ Hr) as Ho.
  apply Forall2_app_inv_l in Ho as (ds1 & ds2' & Ho1 & Ho2 & ->).
  inversion Ho2 as [|? d ? ds2 (Had & Hq & _) Ho2']; subst.
  rewrite length_app in Hfuel. simpl in Hfuel. pose proof (Forall2_length _ _ _ Ho1) as Hlen.
  destruct (unregister_root fuel dom addr s h ps1 a ps2 ds1 d ds2 out)
    as (ds2' & o & Hun & Hr' & Hok' & Hraised & Hcount); [lia|done..|].
  set (s' := set_list _ s) in *. set (h' := put_all _ _ _) in *.
  assert (∀ x, x ≠ (dom, addr) → h_roots h' !! x = h_roots h !! x) as Hroots.
  { intros x Hx. simpl. by apply lookup_insert_ne. }
  assert (∀ p, p ∉ ps2 → h_accesses h' !! p = h_accesses h !! p) as Hacc.
  { intros p Hp. unfold h'. by rewrite put_all_lookup_ne. }
  assert (∀ i p e', ps2 !! i = Some p → ds2' !! i = Some e' → h_accesses h' !! p = Some e') as Hnew.
  { intros i p e' Hi He'. unfold h'. eapply put_all_lookup; [|..]; try done.
    - pose proof (rs_nodup _ _ _ _ _ Hr') as Hnd. by apply NoDup_app in Hnd as (_ & _ & ?).
    - apply Forall2_length in Hraised, Ho2'. congruence. }
  pose proof (objects_raised h h' _ _ _ _ Ho2' Hraised Hacc Hnew) as Hmono.
  exists h', o, d. split_and!; [done| |done|done|done| | | | | | |].
  - eapply (dep_inv_other h h' dom addr s'); [done|done| | | | |done].
    + intros p x Hx Hne. rewrite Hacc; [done|]. intros Hp. apply Hne.
      destruct (objects_elem _ _ _ _ _ Ho2' Hp) as (y & Hy & Hyq & _). congruence.
    + intros p Hp. rewrite Hacc; [by apply (di_fresh _ Hinv)|].
      intros Hin. destruct (objects_elem _ _ _ _ _ Ho2' Hin) as (y & Hy & _).
      by rewrite (di_fresh _ Hinv) in Hy.
    + apply (rs_seq _ _ _ _ _ Hr').
    + by rewrite (rs_elems _ _ _ _ _ Hr').
  - intros x r' Hx. destruct (decide (x = (dom, addr))) as [->|Hne]; [|rewrite Hroots in Hx; eauto].
    simpl in Hx. rewrite lookup_insert_eq in Hx. injection Hx as <-. exists s. split; [done|].
    rewrite Hps, (rs_elems _ _ _ _ _ Hr'). by apply sublist_app, sublist_cons.
  - intros p e' Hp. pose proof (Hmono p) as Hm. rewrite Hp in Hm. inversion Hm; eauto.
  - intros t. pose proof (pending_total_erase t h h' dom addr s s' ps1 a ps2 ds1 d ds2 ds2'
      Hinv Hr Hlen Hr' Hroots Hacc eq_refl). rewrite (Hcount t) in *. lia.
  - intros x r p Hx Hp Hpa. destruct (decide (x = (dom, addr))) as [->|Hne].
    + simpl in Hx. exists s'. split; [apply (rs_seq _ _ _ _ _ Hr')|].
      rewrite (rs_elems _ _ _ _ _ Hr'). rewrite Hs in Hx. injection Hx as <-.
      rewrite Hps in Hp. set_solver.
    + exists r. by rewrite Hroots.
  - intros p e Hp. pose proof (Hmono p) as Hm. rewrite Hp in Hm. inversion Hm; eauto.
  - intros t Ht. destruct (notified_originator t ds2 ds2' o (Hcount t) Ht) as (e & He & Ho).
    apply list_elem_of_lookup in He as [i Hi].
    destruct (Forall2_lookup_r _ _ _ _ _ Ho2' Hi) as (p & _ & Hp & _). eauto.
  - intros r' Hr2. assert (Some s' = Some r') as [= <-].
    { rewrite <- Hr2. symmetry. apply (rs_seq _ _ _ _ _ Hr'). }
    rewrite (rs_elems _ _ _ _ _ Hr'). pose proof (rs_nodup _ _ _ _ _ Hr) as Hnd.
    apply NoDup_app in Hnd as (_ & H1 & [H2 _]%NoDup_cons).
    rewrite elem_of_app. intros [Hin|Hin]; [|done]. apply (H1 a Hin). left.
Qed.

(** ** One access registered *)

Lemma pending_total_append t h h' dom addr s s' ds d :
  let q := RootSeq dom addr in
  let a := h_next h in
  dep_inv h → root_seq h q s (seq_elems s) ds → root_seq h' q s' (seq_elems s') (ds ++ [d]) →
  seq_elems s' = seq_elems s ++ [a] →
  (∀ x, x ≠ (dom, addr) → h_roots h' !! x = h_roots h !! x) →
  (∀ p, p ≠ a → h_accesses h' !! p = h_accesses h !! p) → h_next h' = S a →
  pending_total t h' = (pending_total t h + if pending t d then 1 else 0)%nat.
Proof.
  cbv zeta. set (a := h_next h). intros Hinv [Hs _ _ Hnd Ho] [Hs' _ _ Hnd' Ho'] Hel Hroots Hacc Hnext.
  simpl in Hs, Hs'. rewrite Hel in Ho', Hnd'.
  assert (pending_total t h = countb (pending_at t h) (seq 0 (S a))) as ->.
  { rewrite seq_S, countb_app. unfold pending_total. fold a. simpl. rewrite countb_cons.
    unfold pending_at at 3. rewrite (di_fresh _ Hinv) by lia. unfold countb at 3. simpl. lia. }
  assert (∀ p, p ∈ seq_elems s ++ [a] → p ∈ seq 0 (S a)) as Hbelow.
  { intros p [Hp|Hp]%elem_of_app; apply elem_of_seq.
    - apply (dep_inv_below _ _ _ _ _ Hinv Hs), elem_of_seq in Hp. lia.
    - apply list_elem_of_singleton in Hp. lia. }
  unfold pending_total. rewrite Hnext.
  rewrite !(countb_split _ (seq 0 (S a)) (seq_elems s ++ [a])) by (done || apply NoDup_seq).
  rewrite (pending_at_objects t h' dom addr s' _ (ds ++ [d])) by (done || by rewrite Hel).
  rewrite countb_app, (pending_at_objects t h dom addr s _ ds) by done.
  rewrite pending_count_app, pending_count_cons, countb_cons.
  unfold pending_at at 2. rewrite (di_fresh _ Hinv) by (unfold a; lia).
  rewrite (countb_ext (pending_at t h') (pending_at t h)).
  { unfold pending_count, countb. simpl. lia. }
  intros p [Hp _]%list_elem_of_filter. rewrite elem_of_app, list_elem_of_singleton in Hp.
  apply (pending_at_other t h h' p dom addr s s'); try done.
  - apply Hacc. naive_solver.
  - naive_solver.
  - rewrite Hel. set_solver.
Qed.

Lemma eval_access_mk prev ty weak sat t q sub info :
  eval_access prev (mkAccess (L := L) ty weak sat t q sub
    (if decide (ty = REDUCTION_ACCESS_TYPE) then info else 0)) = evaluate prev ty info.
Proof. unfold eval_access, evaluate. simpl. by case_decide. Qed.

Lemma register_dep_inv fuel t ty weak dom addr info h s h' can p :
  dep_inv h → h_roots h !! (dom, addr) = Some s → (0 < fuel)%nat →
  registerTaskDataAccess fuel t ty weak (RootSeq dom addr) info h = Ok (h', can, Some p) →
  dep_inv h' ∧ h_tasks h' = h_tasks h ∧ h_next h' = S (h_next h) ∧ p = h_next h ∧
  (∀ x r', h_roots h' !! x = Some r' → ∃ r, h_roots h !! x = Some r ∧
     (seq_elems r' = seq_elems r ∨
      x = (dom, addr) ∧ seq_elems r' = seq_elems r ++ [p] ∧
      ∀ l e, last (seq_elems r) = Some l → h_accesses h !! l = Some e → da_originator e ≠ t)) ∧
  (∀ x e', h_accesses h' !! x = Some e' → h_accesses h !! x = Some e' ∨
     x = p ∧ da_originator e' = t ∧ da_dataAccessSequence e' = RootSeq dom addr) ∧
  ∀ t', pending_total t' h' =
    (pending_total t' h + if bool_decide (t = t') && negb can then 1 else 0)%nat.
Proof.
  intros Hinv Hs Hfuel Hreg. destruct (di_roots _ Hinv _ _ _ Hs) as (ds & Hr & Hok).
  destruct (register_root _ _ _ _ _ _ _ _ _ _ _ _ _ Hinv Hr Hok Hfuel Hreg)
    as (sat & -> & -> & Hsat & Hne & Hnew).
  destruct (new_access_root h dom addr s ds ty weak sat t
    (if decide (ty = REDUCTION_ACCESS_TYPE) then info else 0) Hinv Hr) as (Hnew' & Hr' & Hel).
  rewrite Hnew' in Hnew. injection Hnew as <-.
  set (d := mkAccess _ _ _ _ _ _ _) in *. set (s' := set_list _ s) in *. set (h1 := put_seq _ _ _) in *.
  assert (∀ x, x ≠ (dom, addr) → h_roots h1 !! x = h_roots h !! x) as Hroots.
  { intros x Hx. simpl. by apply lookup_insert_ne. }
  assert (∀ p, p ≠ h_next h → h_accesses h1 !! p = h_accesses h !! p) as Hacc.
  { intros x Hx. simpl. by apply lookup_insert_ne. }
  split_and!; [|done|done|done| | |].
  - eapply (dep_inv_other h h1 dom addr s'); [done|done| | | |done|].
    + intros x y Hx Hy. rewrite Hacc; [done|]. intros ->. by rewrite (di_fresh _ Hinv) in Hx.
    + intros x Hx. simpl in Hx. rewrite Hacc by lia. apply (di_fresh _ Hinv). lia.
    + apply (rs_seq _ _ _ _ _ Hr').
    + apply seq_ok_app. split; [done|]. simpl. split; [|done]. unfold d.
      rewrite eval_access_mk, Hsat. by destruct (last ds).
  - intros x r' Hx. destruct (decide (x = (dom, addr))) as [->|Hx']; [|rewrite Hroots in Hx; eauto].
    simpl in Hx. rewrite lookup_insert_eq in Hx. injection Hx as <-. exists s. split; [done|].
    right. split_and!; [done|done|]. intros l e Hl He. apply Hne.
    pose proof (deref_last _ _ _ _ (rs_objects _ _ _ _ _ Hr)) as Hlast. rewrite Hl in Hlast.
    unfold deref in Hlast. rewrite (access_ok l e h) in Hlast by done. by injection Hlast.
  - intros x e' Hx. destruct (decide (x = h_next h)) as [->|Hx']; [|rewrite Hacc in Hx; auto].
    simpl in Hx. rewrite lookup_insert_eq in Hx. injection Hx as <-. by right.
  - intros t'. rewrite (pending_total_append t' h h1 dom addr s s' ds d) by done.
    unfold pending. simpl. f_equal. rewrite <- andb_assoc.
    replace (negb weak && negb sat) with (negb (sat || weak)) by (by destruct sat, weak). done.
Qed.

Lemma domain_sequence_pending t h dom addr :
  dep_inv h → pending_total t (domain_sequence dom addr h) = pending_total t h.
Proof.
  intros Hinv. unfold domain_sequence. destruct (h_roots h !! (dom, addr)) eqn:E; [done|].
  unfold pending_total. simpl. apply countb_ext. intros p _. unfold pending_at. simpl.
  destruct (h_accesses h !! p) as [d|]; [|done]. f_equal. unfold root_linked. simpl.
  destruct (da_dataAccessSequence d) as [dom' addr'|]; [|done].
  destruct (decide ((dom', addr') = (dom, addr))) as [[= -> ->]|Hne].
  - rewrite lookup_insert_eq, E. apply bool_decide_eq_false_2. unfold seq_elems. simpl.
    rewrite (il_elems_empty (A := nat)). apply not_elem_of_nil.
  - by rewrite lookup_insert_ne.
Qed.
End heaps.
