(* ===== verification/DiscreteProtocol.v ===== *)
(** * Discrete dependencies: the protocol

    How the registration of tasks, the release of their accesses and the delivery of the
    notifications interleave.  A registering thread adds an access to its sequence and counts
    it as a predecessor in two steps; a releasing thread collects the originators that become
    satisfied under the lock of the sequence and decreases their counts afterwards.  Under
    every interleaving of these steps a task becomes ready exactly once, when none of its
    strong accesses waits, and the oldest task with accesses is never stuck.

    The protocol is about the sequences of the dependency domains: the accesses of tasks whose parent has
    no access to the address, each task accessing an address once, and no more than 2^30 accesses in all.
    Nested sequences, and tasks that declare an address twice, are not part of it (file
    [DiscreteTheorems] shows what goes wrong in the code with some of the latter). *)

From S2P Require Import Prelude Boost DataAccessType DiscreteDeps DiscreteProofs.
Local Open Scope Z_scope.

Section protocol.
Context {L : Type} `{!IntrusiveList nat L} `{!IntrusiveListLaws nat L}.
Implicit Types (h : heap L) (t : task_ptr).

(** How far a task is in [registerTaskDataAccesses]: the domain it registers in, the first
    access pointer it can get, and whether it has yet to count its last access. *)
Inductive phase :=
  | Registering (domain : thread_ptr) (base : access_ptr) (owed : bool)
  | Registered.

Record proto := mkProto {
  p_heap : heap L;
  p_phase : gmap nat phase;
  (** The satisfied originators whose counts have not been decreased yet. *)
  p_notify : list task_ptr;
  (** The tasks that became ready, in order. *)
  p_ready : list task_ptr;
}.

Definition push_access t (p : access_ptr) (x : Task L) h : heap L :=
  put_task t (mkTask (t_parent x) (t_predecessorCount x) (il_push_back p (t_dataAccesses x))
                (t_final x) (t_taskloop x)) h.

Inductive step : proto → proto → Prop :=
  | step_begin s t dom h' :
      p_phase s !! t = None →
      (∀ t' base owed, p_phase s !! t' ≠ Some (Registering dom base owed)) →
      increasePredecessors t 2 (p_heap s) = Ok h' →
      step s (mkProto h' (<[t := Registering dom (h_next (p_heap s)) false]> (p_phase s))
                (p_notify s) (p_ready s))
  | step_link s t dom base fuel ty weak addr info h' can p x :
      p_phase s !! t = Some (Registering dom base false) →
      (0 < fuel)%nat → (Z.of_nat (h_next (p_heap s)) < 2 ^ 30) →
      registerTaskDataAccess fuel t ty weak (RootSeq dom addr) info
        (domain_sequence dom addr (p_heap s)) = Ok (h', can, Some p) →
      h_tasks h' !! t = Some x →
      step s (mkProto (push_access t p x h')
                (<[t := Registering dom base (negb can)]> (p_phase s)) (p_notify s) (p_ready s))
  | step_count s t dom base h' :
      p_phase s !! t = Some (Registering dom base true) →
      increasePredecessors t 1 (p_heap s) = Ok h' →
      step s (mkProto h' (<[t := Registering dom base false]> (p_phase s))
                (p_notify s) (p_ready s))
  | step_end s t dom base h' ready :
      p_phase s !! t = Some (Registering dom base false) →
      decreasePredecessors t 2 (p_heap s) = Ok (h', ready) →
      step s (mkProto h' (<[t := Registered]> (p_phase s)) (p_notify s)
                (if ready then p_ready s ++ [t] else p_ready s))
  | step_unregister s a d dom addr q fuel h' o :
      h_roots (p_heap s) !! (dom, addr) = Some q → a ∈ seq_elems q →
      (length (seq_elems q) ≤ fuel)%nat →
      h_accesses (p_heap s) !! a = Some d → da_originator d ∈ p_ready s →
      unregisterDataAccess fuel a (p_heap s, []) = Ok (h', o) →
      step s (mkProto h' (p_phase s) (p_notify s ++ o) (p_ready s))
  | step_deliver s t l1 l2 h' ready :
      p_notify s = l1 ++ t :: l2 →
      decreasePredecessors t 1 (p_heap s) = Ok (h', ready) →
      step s (mkProto h' (p_phase s) (l1 ++ l2)
                (if ready then p_ready s ++ [t] else p_ready s))
  | step_unlink s t x l :
      h_tasks (p_heap s) !! t = Some x →
      step s (mkProto (put_task t (mkTask (t_parent x) (t_predecessorCount x) l (t_final x)
                         (t_taskloop x)) (p_heap s)) (p_phase s) (p_notify s) (p_ready s)).

(** Before any task registers. *)
Definition initial (s : proto) : Prop :=
  h_accesses (p_heap s) = ∅ ∧ h_roots (p_heap s) = ∅ ∧ h_next (p_heap s) = 0%nat ∧ p_phase s = ∅ ∧ p_notify s = [] ∧
  p_ready s = [] ∧ ∀ t x, h_tasks (p_heap s) !! t = Some x → t_predecessorCount x = 0.

Definition reachable (s : proto) : Prop := ∃ s0, initial s0 ∧ rtc step s0 s.

(** ** The predecessor count *)

Definition undelivered t (l : list task_ptr) : nat := length (filter (λ x, x = t) l).

(** What the count holds besides the pending accesses. *)
Definition bonus (o : option phase) : Z :=
  match o with Some (Registering _ _ owed) => if owed then 1 else 2 | _ => 0 end.

(** What a task still waits for. *)
Definition waits (s : proto) t : nat :=
  (pending_total t (p_heap s) + undelivered t (p_notify s))%nat.

Definition count_is h t (c : Z) : Prop :=
  ∀ x, h_tasks h !! t = Some x → t_predecessorCount x = c.

Record count_inv (s : proto) : Prop := {
  ci_dep : dep_inv (p_heap s);
  ci_count : ∀ t, count_is (p_heap s) t (bonus (p_phase s !! t) + Z.of_nat (waits s t));
  ci_bound : ∀ t, (waits s t ≤ h_next (p_heap s))%nat;
  ci_next : Z.of_nat (h_next (p_heap s)) ≤ 2 ^ 30;
  ci_none : ∀ t, p_phase s !! t = None → waits s t = 0%nat;
  ci_ready : ∀ t, t ∈ p_ready s ↔ p_phase s !! t = Some Registered ∧ waits s t = 0%nat;
  ci_once : NoDup (p_ready s);
}.

(** The functions on counts only touch the count of their task. *)
Definition recount t (f : Z → Z) h h' : Prop :=
  h_accesses h' = h_accesses h ∧ h_roots h' = h_roots h ∧ h_next h' = h_next h ∧
  (∀ t' c, t' ≠ t → count_is h t' c → count_is h' t' c) ∧
  (∀ c, count_is h t c → count_is h' t (wrap_int (f c))).

Lemma increase_recount t n h h' :
  increasePredecessors t n h = Ok h' → recount t (λ c, c + n) h h'.
Proof.
  intros (x & Hx & Hh')%res_bind_ok. unfold task, get in Hx.
  destruct (h_tasks h !! t) eqn:E; simplify_eq. unfold recount, count_is. split_and!; try done.
  - intros t' c Ht Hc y. simpl. rewrite lookup_insert_ne by done. apply Hc.
  - intros c Hc y. simpl. rewrite lookup_insert_eq. intros [= <-]. simpl. by rewrite (Hc x).
Qed.

Lemma decrease_recount t n h h' ready :
  decreasePredecessors t n h = Ok (h', ready) →
  recount t (λ c, c - n) h h' ∧
  ((∃ x, h_tasks h !! t = Some x) ∧ ∀ c, count_is h t c → ready = (wrap_int (c - n) =? 0)).
Proof.
  intros (x & Hx & Hh')%res_bind_ok. unfold task, get in Hx.
  destruct (h_tasks h !! t) eqn:E; simplify_eq/=. split.
  - unfold recount, count_is. split_and!; try done.
    + intros t' c Ht Hc y. simpl. rewrite lookup_insert_ne by done. apply Hc.
    + intros c Hc y. simpl. rewrite lookup_insert_eq. intros [= <-]. simpl. by rewrite (Hc x).
  - split; [eauto|]. intros c Hc. by rewrite (Hc x).
Qed.

Lemma recount_same h h' :
  h_accesses h' = h_accesses h → h_roots h' = h_roots h → h_next h' = h_next h →
  (dep_inv h → dep_inv h') ∧ ∀ t, pending_total t h' = pending_total t h.
Proof.
  destruct h as [acc roots ts n], h' as [acc' roots' ts' n']. simpl. intros -> -> ->.
  split; [|done]. intros [Hf Hr]. split; [done|]. intros dom addr q Hq.
  destruct (Hr dom addr q Hq) as (ds & [] & ?). exists ds. by repeat split.
Qed.

Lemma undelivered_app t l1 l2 :
  undelivered t (l1 ++ l2) = (undelivered t l1 + undelivered t l2)%nat.
Proof. unfold undelivered. by rewrite filter_app, length_app. Qed.

Lemma undelivered_cons t t' l :
  undelivered t (t' :: l) = ((if decide (t' = t) then 1 else 0) + undelivered t l)%nat.
Proof. unfold undelivered. rewrite filter_cons. by case_decide. Qed.

Lemma wrap_count c : 0 ≤ c ≤ 2 ^ 30 + 3 → wrap_int c = c.
Proof. intros. apply wrap_int_small. unfold is_int. lia. Qed.

(** A step that recounts one task, and moves its phase and notifications along. *)
Lemma count_inv_recount s t f h' ph nt rd :
  count_inv s → recount t f (p_heap s) h' →
  let s' := mkProto h' ph nt rd in
  (∀ t', t' ≠ t → ph !! t' = p_phase s !! t' ∧
     undelivered t' nt = undelivered t' (p_notify s) ∧ (t' ∈ rd ↔ t' ∈ p_ready s)) →
  (undelivered t nt ≤ undelivered t (p_notify s))%nat → is_Some (ph !! t) →
  f (bonus (p_phase s !! t) + Z.of_nat (waits s t)) = bonus (ph !! t) + Z.of_nat (waits s' t) →
  (t ∈ rd ↔ ph !! t = Some Registered ∧ waits s' t = 0%nat) → NoDup rd → count_inv s'.
Proof.
  intros Hinv (Hacc & Hroots & Hnext & Hother & Hself) s' Hsame Hle Hph Hf Hready Hnd.
  destruct (recount_same (p_heap s) h' Hacc Hroots Hnext) as [Hdep Hpend].
  assert (∀ t', t' ≠ t → waits s' t' = waits s t') as Hw.
  { intros t' Ht. unfold waits. simpl. rewrite Hpend. by destruct (Hsame t' Ht) as (_ & -> & _). }
  assert (waits s' t ≤ waits s t)%nat as Hwt.
  { unfold waits. simpl. rewrite Hpend. lia. }
  pose proof (ci_next _ Hinv). split; simpl; [apply Hdep, Hinv| | |lia| | |done].
  - intros t'. destruct (decide (t' = t)) as [->|Ht].
    + rewrite <- Hf. pose proof (ci_bound _ Hinv t).
      intros x Hx. rewrite (Hself _ (ci_count _ Hinv t) x Hx), Hf. apply wrap_count.
      unfold bonus. destruct (ph !! t) as [[? ? []|]|]; lia.
    + destruct (Hsame t' Ht) as (-> & _ & _). rewrite Hw by done. apply Hother; [done|].
      apply (ci_count _ Hinv).
  - intros t'. rewrite Hnext. destruct (decide (t' = t)) as [->|Ht].
    + pose proof (ci_bound _ Hinv t). lia.
    + rewrite Hw by done. apply (ci_bound _ Hinv).
  - intros t' Hn. destruct (decide (t' = t)) as [->|Ht]; [by destruct Hph; congruence|].
    rewrite Hw by done. apply (ci_none _ Hinv). by destruct (Hsame t' Ht) as (<- & _ & _).
  - intros t'. destruct (decide (t' = t)) as [->|Ht]; [done|].
    destruct (Hsame t' Ht) as (-> & _ & ->). rewrite Hw by done. apply (ci_ready _ Hinv).
Qed.

(** The steps that increase the count, at the beginning and after linking an access. *)
Lemma count_inv_increase s t n ph h' :
  count_inv s → increasePredecessors t n (p_heap s) = Ok h' →
  p_phase s !! t ≠ Some Registered → ph ≠ Registered →
  bonus (p_phase s !! t) + n = bonus (Some ph) →
  count_inv (mkProto h' (<[t := ph]> (p_phase s)) (p_notify s) (p_ready s)).
Proof.
  intros Hinv Hinc Hph Hph' Hb. pose proof (increase_recount _ _ _ _ Hinc) as Hrc.
  destruct (recount_same _ _ (proj1 Hrc) (proj1 (proj2 Hrc)) (proj1 (proj2 (proj2 Hrc))))
    as [_ Hpend].
  eapply count_inv_recount; [done|exact Hrc|..].
  - intros t' Ht. by rewrite lookup_insert_ne.
  - done.
  - rewrite lookup_insert_eq. eauto.
  - rewrite lookup_insert_eq, <- Hb. unfold waits. simpl. rewrite Hpend. lia.
  - rewrite lookup_insert_eq, (ci_ready _ Hinv). naive_solver congruence.
  - apply (ci_once _ Hinv).
Qed.

(** Appending the task to the ready ones when its count reached zero. *)
Lemma ready_append t t' (b : bool) (rd : list task_ptr) :
  t' ∈ (if b then rd ++ [t] else rd) ↔ t' ∈ rd ∨ t' = t ∧ b = true.
Proof. destruct b; [rewrite elem_of_app, list_elem_of_singleton|]; naive_solver. Qed.

Lemma ready_append_NoDup t (b : bool) (rd : list task_ptr) :
  NoDup rd → t ∉ rd → NoDup (if b then rd ++ [t] else rd).
Proof.
  intros Hnd Ht. destruct b; [|done]. apply NoDup_app. split_and!; [done| |apply NoDup_singleton].
  intros x Hx Hx'. apply list_elem_of_singleton in Hx' as ->. done.
Qed.

Lemma count_inv_end s t dom base h' ready :
  count_inv s → p_phase s !! t = Some (Registering dom base false) →
  decreasePredecessors t 2 (p_heap s) = Ok (h', ready) →
  count_inv (mkProto h' (<[t := Registered]> (p_phase s)) (p_notify s)
               (if ready then p_ready s ++ [t] else p_ready s)).
Proof.
  intros Hinv Hph Hdec. destruct (decrease_recount _ _ _ _ _ Hdec) as [Hrc [_ Hready]].
  specialize (Hready _ (ci_count _ Hinv t)). rewrite Hph in Hready. simpl in Hready.
  destruct (recount_same _ _ (proj1 Hrc) (proj1 (proj2 Hrc)) (proj1 (proj2 (proj2 Hrc))))
    as [_ Hpend].
  assert (t ∉ p_ready s) as Hnr by (rewrite (ci_ready _ Hinv); naive_solver congruence).
  pose proof (ci_bound _ Hinv t). pose proof (ci_next _ Hinv).
  replace (2 + Z.of_nat (waits s t) - 2) with (Z.of_nat (waits s t)) in Hready by lia.
  rewrite wrap_count in Hready by lia.
  assert (∀ ph nt rd, nt = p_notify s → waits (mkProto h' ph nt rd) t = waits s t) as Hw.
  { intros ph nt rd ->. unfold waits. simpl. by rewrite Hpend. }
  eapply count_inv_recount; [done|exact Hrc|..].
  - intros t' Ht. rewrite lookup_insert_ne, ready_append by done. naive_solver.
  - done.
  - rewrite lookup_insert_eq. eauto.
  - rewrite lookup_insert_eq, Hph, Hw by done. simpl. lia.
  - rewrite lookup_insert_eq, ready_append, Hw, Hready, Z.eqb_eq by done.
    split; [intros [?|[_ ?]]; [done|split; [done|lia]]|intros [_ ?]; right; split; [done|lia]].
  - apply ready_append_NoDup; [apply (ci_once _ Hinv)|done].
Qed.

Lemma count_inv_deliver s t l1 l2 h' ready :
  count_inv s → p_notify s = l1 ++ t :: l2 →
  decreasePredecessors t 1 (p_heap s) = Ok (h', ready) →
  count_inv (mkProto h' (p_phase s) (l1 ++ l2)
               (if ready then p_ready s ++ [t] else p_ready s)).
Proof.
  intros Hinv Hn Hdec. destruct (decrease_recount _ _ _ _ _ Hdec) as [Hrc [_ Hready]].
  specialize (Hready _ (ci_count _ Hinv t)).
  destruct (recount_same _ _ (proj1 Hrc) (proj1 (proj2 Hrc)) (proj1 (proj2 (proj2 Hrc))))
    as [_ Hpend].
  assert (∀ ph rd, waits s t = S (waits (mkProto h' ph (l1 ++ l2) rd) t)) as Hw.
  { intros ph rd. unfold waits. simpl. rewrite Hpend, Hn, !undelivered_app, undelivered_cons.
    rewrite decide_True by done. lia. }
  assert (is_Some (p_phase s !! t)) as Hph.
  { destruct (p_phase s !! t) eqn:E; [eauto|]. pose proof (ci_none _ Hinv t E).
    rewrite (Hw ∅ []) in *. lia. }
  assert (t ∉ p_ready s) as Hnr.
  { rewrite (ci_ready _ Hinv). rewrite (Hw ∅ []). naive_solver lia. }
  pose proof (ci_bound _ Hinv t). pose proof (ci_next _ Hinv).
  rewrite wrap_count in Hready by (unfold bonus; rewrite (Hw ∅ []) in *; repeat case_goal; lia).
  eapply count_inv_recount; [done|exact Hrc|..].
  - intros t' Ht. rewrite ready_append, Hn, !undelivered_app, undelivered_cons.
    rewrite decide_False by done. naive_solver.
  - rewrite Hn, !undelivered_app, undelivered_cons. lia.
  - done.
  - rewrite (Hw (p_phase s) (if ready then p_ready s ++ [t] else p_ready s)). lia.
  - rewrite ready_append, Hready, Z.eqb_eq.
    set (w := waits (mkProto h' _ _ _) t). rewrite (Hw (p_phase s)
      (if ready then p_ready s ++ [t] else p_ready s)). fold w.
    destruct Hph as [[? ? []|] Hph]; rewrite Hph; simpl; naive_solver lia.
  - apply ready_append_NoDup; [apply (ci_once _ Hinv)|done].
Qed.

(** Linking an access makes the task wait for it if it cannot start. *)
Lemma count_inv_link s t dom base fuel ty weak addr info h' can p x :
  count_inv s → p_phase s !! t = Some (Registering dom base false) →
  (0 < fuel)%nat → Z.of_nat (h_next (p_heap s)) < 2 ^ 30 →
  registerTaskDataAccess fuel t ty weak (RootSeq dom addr) info
    (domain_sequence dom addr (p_heap s)) = Ok (h', can, Some p) →
  h_tasks h' !! t = Some x →
  count_inv (mkProto (push_access t p x h')
    (<[t := Registering dom base (negb can)]> (p_phase s)) (p_notify s) (p_ready s)).
Proof.
  intros Hinv Hph Hfuel Hb Hreg Hx. set (s' := mkProto _ _ _ _).
  destruct (dep_inv_domain_sequence _ dom addr (ci_dep _ Hinv)) as [Hdep [q Hq]].
  pose proof (register_dep_inv _ _ _ _ _ _ _ _ _ _ _ _ Hdep Hq Hfuel Hreg)
    as (Hdep' & Htasks & Hnext & _ & _ & _ & Hpend).
  assert (h_tasks (domain_sequence dom addr (p_heap s)) = h_tasks (p_heap s) ∧
          h_next (domain_sequence dom addr (p_heap s)) = h_next (p_heap s)) as [Ht Hn].
  { unfold domain_sequence. by case_match. }
  assert (∀ t', waits s' t' =
    (waits s t' + if bool_decide (t = t') && negb can then 1 else 0)%nat) as Hw.
  { intros t'. unfold waits, s'. simpl.
    change (pending_total t' (push_access t p x h')) with (pending_total t' h').
    rewrite Hpend, domain_sequence_pending by apply Hinv. lia. }
  rewrite Htasks, Ht in Hx. rewrite Hn in Hnext.
  split; simpl.
  - by apply (recount_same h').
  - intros t' y. simpl. rewrite Htasks, Ht, Hw. destruct (decide (t' = t)) as [->|Hne].
    + rewrite !lookup_insert_eq, bool_decide_eq_true_2 by done. intros [= <-]. simpl.
      rewrite (ci_count _ Hinv t x Hx), Hph. simpl. destruct can; simpl; lia.
    + rewrite !lookup_insert_ne, bool_decide_eq_false_2 by done. simpl.
      rewrite Nat.add_0_r. apply (ci_count _ Hinv).
  - intros t'. rewrite Hw, Hnext. pose proof (ci_bound _ Hinv t').
    destruct (bool_decide (t = t') && negb can); lia.
  - rewrite Hnext. lia.
  - intros t' Hn'. destruct (decide (t' = t)) as [->|Hne]; [by rewrite lookup_insert_eq in Hn'|].
    rewrite lookup_insert_ne in Hn' by done. rewrite Hw, (ci_none _ Hinv) by done.
    by rewrite bool_decide_eq_false_2.
  - intros t'. rewrite Hw, (ci_ready _ Hinv). destruct (decide (t' = t)) as [->|Hne].
    + rewrite lookup_insert_eq, Hph. naive_solver.
    + rewrite lookup_insert_ne, bool_decide_eq_false_2 by done. by rewrite Nat.add_0_r.
  - apply (ci_once _ Hinv).
Qed.

Lemma count_inv_unregister s a d dom addr q fuel h' o :
  count_inv s → h_roots (p_heap s) !! (dom, addr) = Some q → a ∈ seq_elems q →
  (length (seq_elems q) ≤ fuel)%nat →
  h_accesses (p_heap s) !! a = Some d → da_originator d ∈ p_ready s →
  unregisterDataAccess fuel a (p_heap s, []) = Ok (h', o) →
  count_inv (mkProto h' (p_phase s) (p_notify s ++ o) (p_ready s)).
Proof.
  intros Hinv Hq Ha Hfuel Hd Hrd Hun. set (s' := mkProto _ _ _ _).
  destruct (unregister_dep_inv fuel (p_heap s) dom addr q a [] (ci_dep _ Hinv) Hq Ha Hfuel)
    as (h2 & o2 & d2 & Hun' & Hdep & Ht & Hn & Hd2 & _ & _ & Hpend & _).
  rewrite Hun' in Hun. rewrite Hd in Hd2. injection Hd2 as <-. injection Hun as <- <-.
  assert (∀ t, pending t d = false) as Hnp.
  { intros t. apply (ci_ready _ Hinv) in Hrd as [_ Hw]. unfold waits in Hw.
    apply not_true_iff_false. intros Hpd. specialize (Hpend t). rewrite Hpd in Hpend.
    unfold pending in Hpd. bool_hyps. apply bool_decide_eq_true in H. subst t. lia. }
  assert (∀ t, waits s' t = waits s t) as Hw.
  { intros t. unfold waits, s'. simpl. rewrite undelivered_app, (Hpend t), Hnp.
    unfold undelivered. lia. }
  split; simpl.
  - done.
  - intros t x. simpl. rewrite Ht, Hw. apply (ci_count _ Hinv).
  - intros t. rewrite Hw, Hn. apply (ci_bound _ Hinv).
  - rewrite Hn. apply (ci_next _ Hinv).
  - intros t. rewrite Hw. apply (ci_none _ Hinv).
  - intros t. rewrite Hw. apply (ci_ready _ Hinv).
  - apply (ci_once _ Hinv).
Qed.

Lemma count_inv_step s s' : count_inv s → step s s' → count_inv s'.
Proof.
  intros Hinv Hs. destruct Hs.
  - eapply count_inv_increase; [done..|congruence|done|]. rewrite H. done.
  - by eapply count_inv_link.
  - eapply count_inv_increase; [done..|congruence|done|]. by rewrite H.
  - by eapply count_inv_end.
  - by eapply count_inv_unregister.
  - by eapply count_inv_deliver.
  - destruct Hinv as [? Hc ????]. split; [by apply (recount_same (p_heap s))| |done..].
    intros t' y. simpl. destruct (decide (t' = t)) as [->|Hne].
    + rewrite lookup_insert_eq. intros [= <-]. exact (Hc t x H).
    + rewrite lookup_insert_ne by done. apply Hc.
Qed.

Lemma count_inv_initial s : initial s → count_inv s.
Proof.
  intros (Hacc & Hroots & Hn & Hph & Hnt & Hrd & Hcnt).
  assert (∀ t, waits s t = 0%nat) as Hw.
  { intros t. unfold waits, pending_total. by rewrite Hn, Hnt. }
  split.
  - split; [by intros; rewrite Hacc|]. intros dom addr q. by rewrite Hroots.
  - intros t x Hx. rewrite Hw, Hph. simpl. by apply (Hcnt t).
  - intros t. rewrite Hw. lia.
  - rewrite Hn. lia.
  - done.
  - intros t. rewrite Hrd, Hph. split; [by intros ?%not_elem_of_nil|]. by intros [? _].
  - rewrite Hrd. constructor.
Qed.

(** ** The order of registration *)

(** The access is in a root sequence of the domain. *)
Definition linked h (dom : thread_ptr) (p : access_ptr) (d : DataAccess L) : Prop :=
  h_accesses h !! p = Some d ∧
  ∃ addr r, da_dataAccessSequence d = RootSeq dom addr ∧ h_roots h !! (dom, addr) = Some r ∧
            p ∈ seq_elems r.

(** Sequences follow the order of the pointers; the accesses of a task are a block of it. *)
Record heap_block h : Prop := {
  hb_sorted : ∀ x r, h_roots h !! x = Some r → StronglySorted lt (seq_elems r);
  hb_block : ∀ dom p q r dp dq dr, linked h dom p dp → linked h dom q dq → linked h dom r dr →
    (p < q < r)%nat → da_originator dp = da_originator dr → da_originator dq = da_originator dp;
  hb_distinct : ∀ x r p q dp dq, h_roots h !! x = Some r → p ∈ seq_elems r → q ∈ seq_elems r →
    p ≠ q → h_accesses h !! p = Some dp → h_accesses h !! q = Some dq →
    da_originator dp ≠ da_originator dq;
  hb_domain : ∀ dom dom' p q dp dq, linked h dom p dp → linked h dom' q dq →
    da_originator dp = da_originator dq → dom' = dom;
}.

(** Where the accesses of the tasks that are registering, or have not begun, are. *)
Definition phase_block h (t : task_ptr) (o : option phase) : Prop :=
  match o with
  | None => ∀ dom p d, linked h dom p d → da_originator d ≠ t
  | Some (Registering dom base _) =>
      (∀ p d, linked h dom p d → da_originator d = t ↔ (base ≤ p)%nat) ∧
      (∀ dom' p d, linked h dom' p d → da_originator d = t → dom' = dom) ∧
      (base ≤ h_next h)%nat
  | Some Registered => True
  end.

Record block_inv (s : proto) : Prop := {
  bi_heap : heap_block (p_heap s);
  bi_phase : ∀ t, phase_block (p_heap s) t (p_phase s !! t);
  bi_one : ∀ t t' dom b b' o o', p_phase s !! t = Some (Registering dom b o) →
    p_phase s !! t' = Some (Registering dom b' o') → t' = t;
}.

(** Removing accesses and raising satisfiabilities keeps the order. *)
Definition shrinks h h' : Prop :=
  (∀ x r', h_roots h' !! x = Some r' → seq_elems r' = [] ∨
     ∃ r, h_roots h !! x = Some r ∧ seq_elems r' `sublist_of` seq_elems r) ∧
  (∀ p e', h_accesses h' !! p = Some e' → ∃ e, h_accesses h !! p = Some e ∧ raised e e') ∧
  (h_next h ≤ h_next h')%nat.

Lemma shrinks_linked h h' dom p d' :
  shrinks h h' → linked h' dom p d' →
  ∃ d, linked h dom p d ∧ da_originator d' = da_originator d.
Proof.
  intros (Hroots & Hacc & _) (Hp & addr & r' & Hq & Hr' & Hin).
  destruct (Hacc _ _ Hp) as (d & Hd & [Hraise _]). exists d.
  rewrite Hraise in Hq |- *. simpl in Hq. split; [|done]. split; [done|]. exists addr.
  destruct (Hroots _ _ Hr') as [Hnil|(r & Hr & Hsub)].
  - rewrite Hnil in Hin. by apply not_elem_of_nil in Hin.
  - exists r. split_and!; [done..|]. by eapply elem_of_sublist.
Qed.

Lemma StronglySorted_sublist (l1 l2 : list nat) :
  l1 `sublist_of` l2 → StronglySorted lt l2 → StronglySorted lt l1.
Proof.
  induction 1 as [|x l1 l2 Hsub IH|x l1 l2 Hsub IH]; intros Hs; [done|..];
    apply StronglySorted_cons in Hs as [Hx Hs]; [|auto].
  constructor; [auto|]. rewrite Forall_forall in Hx |- *. intros y Hy. apply Hx.
  by eapply elem_of_sublist.
Qed.

Lemma heap_block_shrinks h h' : shrinks h h' → heap_block h → heap_block h'.
Proof.
  intros Hsh [Hs Hb Hd Hdom]. pose proof (shrinks_linked h h') as Hl. split.
  - intros x r' Hr'. destruct (proj1 Hsh _ _ Hr') as [->|(r & Hr & Hsub)]; [constructor|].
    eapply StronglySorted_sublist; eauto.
  - intros dom p q r dp dq dr Hp Hq Hr. apply Hl in Hp as (? & ? & ->); [|done].
    apply Hl in Hq as (? & ? & ->); [|done]. apply Hl in Hr as (? & ? & ->); [|done]. eauto.
  - intros x r' p q dp dq Hr' Hp Hq Hne Hdp Hdq.
    destruct (proj1 Hsh _ _ Hr') as [Hnil|(r & Hr & Hsub)].
    { rewrite Hnil in Hp. by apply not_elem_of_nil in Hp. }
    destruct (proj1 (proj2 Hsh) _ _ Hdp) as (ep & Hep & [-> _]).
    destruct (proj1 (proj2 Hsh) _ _ Hdq) as (eq & Heq & [-> _]). simpl.
    apply (elem_of_sublist _ _ _ Hp) in Hsub as Hp'. apply (elem_of_sublist _ _ _ Hq) in Hsub as Hq'.
    by apply (Hd x r p q).
  - intros dom dom' p q dp dq Hp Hq. apply Hl in Hp as (? & ? & ->); [|done].
    apply Hl in Hq as (? & ? & ->); [|done]. eauto.
Qed.

Lemma phase_block_shrinks h h' t o : shrinks h h' → phase_block h t o → phase_block h' t o.
Proof.
  intros Hsh. pose proof (shrinks_linked h h') as Hl. destruct o as [[dom base owed|]|]; simpl.
  - intros (H1 & H2 & H3). split_and!.
    + intros p d Hp. apply Hl in Hp as (? & ? & ->); [|done]. auto.
    + intros dom' p d Hp. apply Hl in Hp as (? & ? & ->); [|done]. eauto.
    + destruct Hsh as (_ & _ & ?). lia.
  - done.
  - intros H1 dom p d Hp. apply Hl in Hp as (? & ? & ->); [|done]. eauto.
Qed.

Lemma shrinks_same h h' :
  h_accesses h' = h_accesses h → h_roots h' = h_roots h → h_next h' = h_next h → shrinks h h'.
Proof.
  intros Ha Hr Hn. split_and!; [|rewrite Ha|lia].
  - rewrite Hr. intros x r Hx. right. eauto.
  - eauto using raised_refl.
Qed.

Lemma shrinks_domain_sequence h dom addr : shrinks h (domain_sequence dom addr h).
Proof.
  unfold domain_sequence. destruct (h_roots h !! _) eqn:E; [by apply shrinks_same|].
  split_and!; simpl; [|eauto using raised_refl|done].
  intros x r'. destruct (decide (x = (dom, addr))) as [->|Hne].
  - rewrite lookup_insert_eq. intros [= <-]. left. apply (il_elems_empty (A := nat)).
  - rewrite lookup_insert_ne by done. right. eauto.
Qed.

(** ** Linking keeps the order *)

Lemma sorted_le_last (l : list nat) q x :
  StronglySorted lt l → q ∈ l → last l = Some x → (q ≤ x)%nat.
Proof.
  intros Hs Hq (l' & ->)%last_Some. apply elem_of_app in Hq as [Hq|Hq].
  - apply StronglySorted_app in Hs as (Hlt & _ & _). specialize (Hlt q x Hq). set_solver by lia.
  - apply list_elem_of_singleton in Hq. lia.
Qed.

Lemma linked_below h dom p d : dep_inv h → linked h dom p d → (p < h_next h)%nat.
Proof.
  intros Hinv (_ & addr & r & _ & Hr & Hin).
  apply (dep_inv_below _ _ _ _ _ Hinv Hr), elem_of_seq in Hin. lia.
Qed.

Section link.
Context (h h' : heap L) (t dom base fuel p : nat) (owed weak can : bool) (addr info : Z)
  (r : DataAccessSequence L) (ty : DataAccessType).
Context (Hdep : dep_inv h) (Hblock : heap_block h)
  (Hphase : phase_block h t (Some (Registering dom base owed)))
  (Hr : h_roots h !! (dom, addr) = Some r) (Hfuel : (0 < fuel)%nat)
  (Hreg : registerTaskDataAccess fuel t ty weak (RootSeq dom addr) info h = Ok (h', can, Some p)).

Lemma link_linked dom' x e :
  linked h' dom' x e → linked h dom' x e ∨ x = p ∧ dom' = dom ∧ da_originator e = t.
Proof.
  clear Hphase Hblock.
  destruct (register_dep_inv _ _ _ _ _ _ _ _ _ _ _ _ Hdep Hr Hfuel Hreg)
    as (_ & _ & _ & -> & Hroots & Hacc & _).
  intros (He & addr' & r' & Hq & Hr' & Hin).
  destruct (Hacc x e He) as [He'|(-> & Ho & Hq')]; [left|right; naive_solver congruence].
  split; [done|]. destruct (Hroots _ _ Hr') as (r2 & Hr2 & Hcase). exists addr', r2.
  split_and!; [done..|]. destruct Hcase as [Heq|(_ & Heq & _)]; rewrite Heq in Hin; [done|].
  apply elem_of_app in Hin as [?|Hin]; [done|]. apply list_elem_of_singleton in Hin as ->.
  by rewrite (di_fresh _ Hdep) in He'.
Qed.

Lemma link_sorted x r' : h_roots h' !! x = Some r' → StronglySorted lt (seq_elems r').
Proof.
  destruct (register_dep_inv _ _ _ _ _ _ _ _ _ _ _ _ Hdep Hr Hfuel Hreg)
    as (_ & _ & _ & -> & Hroots & _ & _).
  intros Hr'. destruct (Hroots _ _ Hr') as (r2 & Hr2 & [->|(-> & -> & _)]).
  - by eapply hb_sorted.
  - apply StronglySorted_app. split_and!.
    + intros q y Hq Hy. apply list_elem_of_singleton in Hy as ->.
      apply (dep_inv_below _ _ _ _ _ Hdep Hr2), elem_of_seq in Hq. lia.
    + by eapply hb_sorted.
    + repeat constructor.
Qed.

(** No other access of the sequence comes from the same task. *)
Lemma link_distinct x r' q e dq :
  h_roots h' !! x = Some r' → p ∈ seq_elems r' → q ∈ seq_elems r' → q ≠ p →
  h_accesses h' !! p = Some e → h_accesses h' !! q = Some dq → da_originator dq ≠ t.
Proof.
  pose proof link_sorted as Hsort. destruct Hphase as (Hbase & _ & _).
  destruct (register_dep_inv _ _ _ _ _ _ _ _ _ _ _ _ Hdep Hr Hfuel Hreg)
    as (_ & _ & _ & -> & Hroots & Hacc & _).
  intros Hr' Hp Hq Hne He Hdq Ht.
  destruct (Hacc _ _ Hdq) as [Hdq'|(? & _)]; [|done].
  destruct (Hroots _ _ Hr') as ([sr sup sl] & Hr2 & Hcase).
  set (r2 := mkSeq sr sup sl) in *.
  assert (h_next h ∉ seq_elems r2) as Hnew.
  { destruct x as [dom' addr']. intros Hin.
    apply (dep_inv_below _ _ _ _ _ Hdep Hr2), elem_of_seq in Hin. lia. }
  destruct Hcase as [Heq|(-> & Heq & Hlast)]; rewrite Heq in Hp, Hq; [done|].
  apply elem_of_app in Hq as [Hq|Hq%list_elem_of_singleton]; [|done].
  destruct (last (seq_elems r2)) as [l|] eqn:El.
  2:{ apply last_None in El. rewrite El in Hq. by apply not_elem_of_nil in Hq. }
  assert (∀ y, y ∈ seq_elems r2 → ∃ dy, linked h dom y dy ∧ h_accesses h !! y = Some dy) as Hlk.
  { intros y Hy. destruct (di_roots _ Hdep _ _ _ Hr2) as (ds & Hrs & _).
    destruct (objects_elem _ _ _ _ _ (rs_objects _ _ _ _ _ Hrs) Hy) as (dy & Hdy & Hqy & _).
    exists dy. split; [|done]. split; [done|]. exists addr, r2. done. }
  destruct (Hlk l) as (dl & Hll & Hdl).
  { apply last_Some in El as [l' ->]. set_solver. }
  apply (Hlast l dl eq_refl Hdl). apply (Hbase l dl Hll).
  destruct (Hlk q Hq) as (dq2 & Hlq & Hdq2). rewrite Hdq' in Hdq2. injection Hdq2 as <-.
  apply (Hbase q dq Hlq) in Ht. pose proof (sorted_le_last _ q l (hb_sorted _ Hblock _ _ Hr2) Hq El).
  lia.
Qed.

Lemma link_new_origin e : h_accesses h' !! p = Some e → da_originator e = t.
Proof.
  destruct (register_dep_inv _ _ _ _ _ _ _ _ _ _ _ _ Hdep Hr Hfuel Hreg)
    as (_ & _ & _ & -> & _ & Hacc & _).
  intros He. destruct (Hacc _ _ He) as [He'|(_ & ? & _)]; [|done].
  by rewrite (di_fresh _ Hdep) in He'.
Qed.

Lemma heap_block_link : heap_block h'.
Proof.
  pose proof link_linked as Hlink. pose proof link_distinct as Hdis. pose proof link_new_origin as Hnew.
  destruct (register_dep_inv _ _ _ _ _ _ _ _ _ _ _ _ Hdep Hr Hfuel Hreg)
    as (_ & _ & _ & Hp & Hroots & Hacc & _).
  pose proof (λ dom x d, linked_below h dom x d Hdep) as Hbelow.
  destruct Hphase as (Hbase & Hdom & Hle). split.
  - apply link_sorted.
  - intros dom' x y z dx dy dz Hx Hy Hz Hlt Ho.
    apply Hlink in Hy as [Hy|(-> & -> & Hoy)].
    2:{ exfalso. apply Hlink in Hz as [Hz%Hbelow|(-> & _)]; lia. }
    apply Hlink in Hx as [Hx|(-> & -> & Hox)]; [|apply Hbelow in Hy; lia].
    apply Hlink in Hz as [Hz|(-> & -> & Hoz)]; [by eapply (hb_block _ Hblock dom' x y z)|].
    rewrite Ho, Hoz. apply (Hbase y dy Hy). rewrite Hoz in Ho. apply (Hbase x dx Hx) in Ho. lia.
  - intros x r' y z dy dz Hr' Hy Hz Hne Hdy Hdz Ho.
    destruct (decide (y = p)) as [->|Hyp].
    { eapply (Hdis x r' z dy dz); try done. by rewrite <- Ho, (Hnew dy). }
    destruct (decide (z = p)) as [->|Hzp].
    { eapply (Hdis x r' y dz dy); try done. by rewrite Ho, (Hnew dz). }
    destruct (Hroots _ _ Hr') as (r2 & Hr2 & Hcase).
    assert (∀ w, w ∈ seq_elems r' → w ≠ p → w ∈ seq_elems r2) as Hold.
    { intros w. destruct Hcase as [->|(_ & -> & _)]; set_solver. }
    destruct (Hacc _ _ Hdy) as [?|(? & _)]; [|done]. destruct (Hacc _ _ Hdz) as [?|(? & _)]; [|done].
    by eapply (hb_distinct _ Hblock x r2 y z dy dz); eauto.
  - intros d1 d2 x y dx dy Hx Hy Ho.
    apply Hlink in Hx as [Hx|(-> & -> & Hox)]; apply Hlink in Hy as [Hy|(-> & -> & Hoy)].
    + by eapply hb_domain.
    + symmetry. eapply Hdom; [done|congruence].
    + eapply Hdom; [done|congruence].
    + done.
Qed.

Lemma phase_block_link owed' : phase_block h' t (Some (Registering dom base owed')).
Proof.
  pose proof link_linked as Hlink.
  destruct (register_dep_inv _ _ _ _ _ _ _ _ _ _ _ _ Hdep Hr Hfuel Hreg)
    as (_ & _ & Hn & Hp & _).
  destruct Hphase as (Hbase & Hdom & Hle). split_and!.
  - intros x d Hx. apply Hlink in Hx as [Hx|(-> & _ & Ho)]; [auto|]. split; [lia|done].
  - intros dom' x d Hx Ho. apply Hlink in Hx as [Hx|(_ & -> & _)]; [eauto|done].
  - lia.
Qed.

Lemma phase_block_link_other t' o :
  t' ≠ t → (∀ b ow, o ≠ Some (Registering dom b ow)) →
  phase_block h t' o → phase_block h' t' o.
Proof.
  intros Hne Ho. pose proof link_linked as Hlink.
  destruct (register_dep_inv _ _ _ _ _ _ _ _ _ _ _ _ Hdep Hr Hfuel Hreg)
    as (_ & _ & Hn & Hp & _).
  destruct o as [[dom' b ow|]|]; simpl; [|done|].
  - intros (H1 & H2 & H3). assert (dom' ≠ dom) by (intros ->; by eapply Ho). split_and!.
    + intros x d Hx. apply Hlink in Hx as [Hx|(_ & ? & _)]; [auto|done].
    + intros d2 x d Hx Hox. apply Hlink in Hx as [Hx|(_ & _ & ?)]; [eauto|congruence].
    + lia.
  - intros H1 d2 x d Hx Hox. apply Hlink in Hx as [Hx|(_ & _ & ?)]; [by eapply H1|congruence].
Qed.
End link.

(** A step that does not link an access. *)
Lemma block_inv_shrinks s h' ph nt rd :
  block_inv s → shrinks (p_heap s) h' →
  (∀ t dom b o, ph !! t = Some (Registering dom b o) →
     ∃ o', p_phase s !! t = Some (Registering dom b o')) →
  (∀ t, ph !! t = None → p_phase s !! t = None) →
  block_inv (mkProto h' ph nt rd).
Proof.
  intros [Hh Hp Ho] Hsh Hr Hn. split; simpl.
  - by eapply heap_block_shrinks.
  - intros t. eapply phase_block_shrinks; [done|]. specialize (Hp t).
    destruct (ph !! t) as [[dom b o|]|] eqn:E; [|done|by rewrite (Hn t E) in Hp].
    destruct (Hr _ _ _ _ E) as [o' E']. rewrite E' in Hp. apply Hp.
  - intros t t' dom b b' o o' H1 H2. destruct (Hr _ _ _ _ H1), (Hr _ _ _ _ H2). by eapply Ho.
Qed.

Lemma recount_shrinks t f h h' : recount t f h h' → shrinks h h'.
Proof. intros (? & ? & ? & _). by apply shrinks_same. Qed.

Lemma block_inv_begin s t dom h' :
  count_inv s → block_inv s → p_phase s !! t = None →
  (∀ t' base owed, p_phase s !! t' ≠ Some (Registering dom base owed)) →
  increasePredecessors t 2 (p_heap s) = Ok h' →
  block_inv (mkProto h' (<[t := Registering dom (h_next (p_heap s)) false]> (p_phase s))
               (p_notify s) (p_ready s)).
Proof.
  intros Hc [Hh Hp Ho] Ht Hfree Hinc. pose proof (increase_recount _ _ _ _ Hinc) as Hrc.
  pose proof (recount_shrinks _ _ _ _ Hrc) as Hsh. split; simpl.
  - by eapply heap_block_shrinks.
  - intros t'. destruct (decide (t' = t)) as [->|Hne].
    + rewrite lookup_insert_eq. specialize (Hp t). rewrite Ht in Hp. split_and!.
      * intros p d (d' & Hl & Hd)%(shrinks_linked (p_heap s)); [|done]. rewrite Hd.
        pose proof (linked_below _ _ _ _ (ci_dep _ Hc) Hl). specialize (Hp _ _ _ Hl).
        split; [done|lia].
      * intros dom' p d (d' & Hl & Hd)%(shrinks_linked (p_heap s)) Hod; [|done].
        rewrite Hd in Hod. by specialize (Hp _ _ _ Hl).
      * destruct Hrc as (_ & _ & -> & _). lia.
    + rewrite lookup_insert_ne by done. by eapply phase_block_shrinks.
  - intros t1 t2 d b b' o o'. rewrite !lookup_insert_Some.
    intros [[<- ?]|[? H1]] [[<- ?]|[? H2]]; simplify_eq; [done|..].
    + by apply Hfree in H2.
    + by apply Hfree in H1.
    + by eapply Ho.
Qed.

Lemma block_inv_link s t dom base fuel ty weak addr info h' can p x :
  count_inv s → block_inv s → p_phase s !! t = Some (Registering dom base false) →
  (0 < fuel)%nat →
  registerTaskDataAccess fuel t ty weak (RootSeq dom addr) info
    (domain_sequence dom addr (p_heap s)) = Ok (h', can, Some p) →
  block_inv (mkProto (push_access t p x h')
    (<[t := Registering dom base (negb can)]> (p_phase s)) (p_notify s) (p_ready s)).
Proof.
  intros Hc [Hh Hp Ho] Ht Hfuel Hreg.
  destruct (dep_inv_domain_sequence _ dom addr (ci_dep _ Hc)) as [Hdep [q Hq]].
  pose proof (shrinks_domain_sequence (p_heap s) dom addr) as Hsh.
  pose proof (shrinks_same h' (push_access t p x h') eq_refl eq_refl eq_refl) as Hsh'.
  pose proof (heap_block_shrinks _ _ Hsh Hh) as Hh1.
  assert (∀ t, phase_block (domain_sequence dom addr (p_heap s)) t (p_phase s !! t)) as Hp1.
  { intros t'. by eapply phase_block_shrinks. }
  pose proof (Hp1 t) as Hpt. rewrite Ht in Hpt. split; simpl.
  - eapply heap_block_shrinks; [done|]. by eapply heap_block_link.
  - intros t'. eapply phase_block_shrinks; [done|]. destruct (decide (t' = t)) as [->|Hne].
    + rewrite lookup_insert_eq. by eapply phase_block_link.
    + rewrite lookup_insert_ne by done.
      assert (∀ b ow, p_phase s !! t' ≠ Some (Registering dom b ow)) as Hno.
      { intros b ow Hph. apply Hne. by eapply Ho. }
      by eapply phase_block_link_other.
  - intros t1 t2 d b b' o o'. rewrite !lookup_insert_Some.
    intros [[<- ?]|[? H1]] [[<- ?]|[? H2]]; simplify_eq; eauto.
Qed.

Lemma block_inv_step s s' : count_inv s → block_inv s → step s s' → block_inv s'.
Proof.
  intros Hc Hb Hs. destruct Hs.
  - by apply block_inv_begin.
  - by eapply block_inv_link.
  - eapply block_inv_shrinks; [done|eapply recount_shrinks; by eapply increase_recount|..].
    + intros t' d b o. rewrite lookup_insert_Some. naive_solver.
    + intros t'. by rewrite lookup_insert_None; naive_solver.
  - eapply block_inv_shrinks; [done|eapply recount_shrinks; by eapply decrease_recount|..].
    + intros t' d b o. rewrite lookup_insert_Some. naive_solver.
    + intros t'. by rewrite lookup_insert_None; naive_solver.
  - eapply block_inv_shrinks; [done| |eauto|done].
    destruct (unregister_dep_inv fuel (p_heap s) dom addr q a [] (ci_dep _ Hc) H H0 H1)
      as (h2 & o2 & d2 & Hun & _ & _ & Hn & _ & Hroots & Hacc & _).
    rewrite Hun in H4. injection H4 as <- <-. split_and!; [|done|lia].
    intros x r' Hr'. right. by apply Hroots.
  - eapply block_inv_shrinks; [done|eapply recount_shrinks; by eapply decrease_recount|eauto|done].
  - eapply block_inv_shrinks; [done|by apply shrinks_same|eauto|done].
Qed.

Lemma block_inv_initial s : initial s → block_inv s.
Proof.
  intros (Hacc & Hroots & _ & Hph & _).
  assert (∀ dom p d, ¬ linked (p_heap s) dom p d) as Hno.
  { intros dom p d [Hp _]. by rewrite Hacc in Hp. }
  split.
  - split; intros until 1; first [by rewrite Hroots in * | by exfalso; eapply Hno].
  - intros t. rewrite Hph, lookup_empty. intros dom p d Hl. by apply Hno in Hl.
  - intros *. by rewrite Hph, lookup_empty.
Qed.

Lemma reachable_inv s : reachable s → count_inv s ∧ block_inv s.
Proof.
  intros (s0 & Hs0 & Hsteps). assert (count_inv s0 ∧ block_inv s0) as Hinv.
  { split; [by apply count_inv_initial|by apply block_inv_initial]. }
  clear Hs0. induction Hsteps as [|s1 s2 s3 Hs _ IH]; [done|]. apply IH.
  destruct Hinv. split; [by eapply count_inv_step|by eapply block_inv_step].
Qed.

(** ** Running the protocol *)

Inductive event :=
  | Begin t (dom : thread_ptr)
  | Link t (ty : DataAccessType) (weak : bool) (addr info : Z)
  | Count t
  | End t
  | Unregister (a : access_ptr)
  | Deliver t.

Definition ok {A} (r : res A) : option A := match r with Ok a => Some a | Err _ => None end.

(** No task registers in the domain. *)
Definition domain_free (dom : thread_ptr) (s : proto) : bool :=
  forallb (λ x, match x.2 with Registering d _ _ => negb (Nat.eqb d dom) | Registered => true end)
    (map_to_list (p_phase s)).

Definition exec (e : event) (s : proto) : option proto :=
  let h := p_heap s in
  match e with
  | Begin t dom =>
      match p_phase s !! t with
      | None =>
          if domain_free dom s then
            h' ← ok (increasePredecessors t 2 h);
            Some (mkProto h' (<[t := Registering dom (h_next h) false]> (p_phase s))
                    (p_notify s) (p_ready s))
          else None
      | Some _ => None
      end
  | Link t ty weak addr info =>
      match p_phase s !! t with
      | Some (Registering dom base false) =>
          if Z.of_nat (h_next h) <? 2 ^ 30 then
            r ← ok (registerTaskDataAccess 1 t ty weak (RootSeq dom addr) info
                      (domain_sequence dom addr h));
            match r with
            | (h', can, Some p) =>
                x ← h_tasks h' !! t;
                Some (mkProto (push_access t p x h')
                        (<[t := Registering dom base (negb can)]> (p_phase s)) (p_notify s) (p_ready s))
            | (_, _, None) => None
            end
          else None
      | _ => None
      end
  | Count t =>
      match p_phase s !! t with
      | Some (Registering dom base true) =>
          h' ← ok (increasePredecessors t 1 h);
          Some (mkProto h' (<[t := Registering dom base false]> (p_phase s)) (p_notify s) (p_ready s))
      | _ => None
      end
  | End t =>
      match p_phase s !! t with
      | Some (Registering dom base false) =>
          r ← ok (decreasePredecessors t 2 h);
          let '(h', ready) := r in
          Some (mkProto h' (<[t := Registered]> (p_phase s)) (p_notify s)
                  (if ready : bool then p_ready s ++ [t] else p_ready s))
      | _ => None
      end
  | Unregister a =>
      d ← h_accesses h !! a;
      match da_dataAccessSequence d with
      | RootSeq dom addr =>
          q ← h_roots h !! (dom, addr);
          if bool_decide (a ∈ seq_elems q) && bool_decide (da_originator d ∈ p_ready s) then
            r ← ok (unregisterDataAccess (length (seq_elems q)) a (h, []));
            Some (mkProto r.1 (p_phase s) (p_notify s ++ r.2) (p_ready s))
          else None
      | SubSeq _ => None
      end
  | Deliver t =>
      match p_notify s with
      | t' :: l =>
          if decide (t' = t) then
            r ← ok (decreasePredecessors t 1 h);
            let '(h', ready) := r in
            Some (mkProto h' (p_phase s) l (if ready : bool then p_ready s ++ [t] else p_ready s))
          else None
      | [] => None
      end
  end.

Fixpoint exec_all (es : list event) (s : proto) : option proto :=
  match es with [] => Some s | e :: es => s' ← exec e s; exec_all es s' end.

Lemma ok_Some {A} (r : res A) a : ok r = Some a ↔ r = Ok a.
Proof. destruct r; naive_solver. Qed.

Lemma domain_free_spec dom s t b o :
  domain_free dom s = true → p_phase s !! t ≠ Some (Registering dom b o).
Proof.
  unfold domain_free. rewrite forallb_forall. intros Hf Ht.
  apply elem_of_map_to_list in Ht. apply list_elem_of_In, Hf in Ht. simpl in Ht.
  by rewrite Nat.eqb_refl in Ht.
Qed.

Lemma exec_step e s s' : exec e s = Some s' → step s s'.
Proof.
  destruct e as [t dom|t ty weak addr info|t|t|a|t]; simpl; intros He.
  - destruct (p_phase s !! t) eqn:Hp; [done|]. destruct (domain_free dom s) eqn:Hf; [|done].
    apply bind_Some in He as (h' & Hh%ok_Some & [= <-]).
    constructor; [done| |done]. intros t' b o. by apply domain_free_spec.
  - destruct (p_phase s !! t) as [[dom base []|]|] eqn:Hp; try done.
    case_match eqn:Hb; [|done]. apply bind_Some in He as ([[h' can] [p|]] & Hh%ok_Some & He); [|done].
    apply bind_Some in He as (x & Hx & [= <-]). bool_hyps. by eapply (step_link _ _ _ _ 1); eauto.
  - destruct (p_phase s !! t) as [[dom base []|]|] eqn:Hp; try done.
    apply bind_Some in He as (h' & Hh%ok_Some & [= <-]). by constructor.
  - destruct (p_phase s !! t) as [[dom base []|]|] eqn:Hp; try done.
    apply bind_Some in He as ([h' ready] & Hh%ok_Some & [= <-]). by eapply step_end.
  - apply bind_Some in He as (d & Hd & He). destruct (da_dataAccessSequence d); [|done].
    apply bind_Some in He as (q & Hq & He). case_match eqn:Hb; [|done].
    apply bind_Some in He as ([h' o] & Hh%ok_Some & [= <-]). bool_hyps.
    rewrite bool_decide_eq_true in *. by eapply step_unregister.
  - destruct (p_notify s) as [|t' l] eqn:Hn; [done|]. case_decide; [subst t'|done].
    apply bind_Some in He as ([h' ready] & Hh%ok_Some & [= <-]). by eapply (step_deliver _ _ []).
Qed.

Lemma exec_all_steps es s s' : exec_all es s = Some s' → rtc step s s'.
Proof.
  revert s. induction es as [|e es IH]; simpl; intros s He; [simplify_eq; constructor|].
  apply bind_Some in He as (s1 & Hs1 & He). eapply rtc_l; [by eapply exec_step|auto].
Qed.

(** A state before any registration: the main task 0, which has no accesses, and its children. *)
Definition start (ts : list task_ptr) : proto :=
  mkProto (mkHeap ∅ ∅ (list_to_map ((λ t, (t, mkTask (if decide (t = 0%nat) then None else Some 0%nat) 0
                                               il_empty false false)) <$> 0%nat :: ts)) 0)
    ∅ [] [].

Lemma start_initial ts : initial (start ts).
Proof.
  unfold initial. simpl. split_and!; try done. intros t x Hx.
  apply lookup_insert_Some in Hx as [[_ <-]|[_ Hx]]; [done|].
  apply elem_of_list_to_map_2, list_elem_of_fmap in Hx as (? & [= -> ->] & _). done.
Qed.

Lemma exec_reachable ts es s : exec_all es (start ts) = Some s → reachable s.
Proof. intros He. exists (start ts). split; [apply start_initial|by eapply exec_all_steps]. Qed.
End protocol.
