(* ===== verification/DiscreteHandlers.v ===== *)
(** * Discrete dependencies: the handlers run the protocol

    [registerTaskDataAccesses] and [unregisterTaskDataAccesses], run to completion by one
    thread, are sequences of steps of the protocol, and they succeed. *)

From S2P Require Import Prelude Boost DataAccessType DiscreteDeps DiscreteProofs.
From S2P Require Import DiscreteProtocol.
Local Open Scope Z_scope.

Section handlers.
Context {L : Type} `{!IntrusiveList nat L} `{!IntrusiveListLaws nat L}.
Implicit Types (s : proto (L := L)) (t : task_ptr) (h : heap L).

Definition inv s : Prop := count_inv s ∧ block_inv s.

Lemma inv_step s s' : inv s → step s s' → inv s'.
Proof. intros [Hc Hb] Hs. split; [by eapply count_inv_step|by eapply block_inv_step]. Qed.

Lemma inv_steps s s' : inv s → rtc step s s' → inv s'.
Proof. intros Hi Hs. induction Hs; eauto using inv_step. Qed.

(** ** Registration *)

(** An access whose predecessor comes from another task is always added. *)
Lemma register_succeeds fuel t ty weak dom addr info h r :
  dep_inv h → h_roots h !! (dom, addr) = Some r → (0 < fuel)%nat →
  (∀ l d, last (seq_elems r) = Some l → h_accesses h !! l = Some d → da_originator d ≠ t) →
  ∃ h' can p, registerTaskDataAccess fuel t ty weak (RootSeq dom addr) info h = Ok (h', can, Some p).
Proof.
  intros Hdep Hr Hfuel Hlast. destruct (di_roots _ Hdep _ _ _ Hr) as (ds & Hrs & _).
  pose proof Hrs as [Hs Hsup _ _ Ho]. unfold registerTaskDataAccess.
  rewrite (sequence_ok (RootSeq dom addr) r h) by done. cbn [mbind res_bind].
  assert (∀ sat i, ∃ h' p, new_access (RootSeq dom addr) ty weak sat t i h = Ok (h', p)) as Hnew.
  { intros sat i. destruct (new_access_root h dom addr r ds ty weak sat t i Hdep Hrs) as [-> _]. eauto. }
  destruct (last (seq_elems r)) as [l|] eqn:El.
  - destruct (objects_elem _ _ _ _ l Ho) as (d & Hd & _).
    { apply last_Some in El as [l' ->]. set_solver. }
    rewrite (access_ok l d h Hd). cbn [mbind res_bind]. rewrite decide_False by (by eapply Hlast).
    unfold deref. rewrite (access_ok l d h Hd). cbn [mbind res_bind].
    edestruct Hnew as (h' & p & ->). cbn [mbind res_bind]. eauto.
  - apply last_None in El. rewrite (getEffectivePrevious_empty fuel _ r) by done.
    cbn [mbind res_bind deref]. edestruct Hnew as (h' & p & ->). cbn [mbind res_bind]. eauto.
Qed.

(** The task is a child of none whose accesses cover the address. *)
Definition at_root h (x : Task L) (addr : address) : Prop :=
  match t_parent x with
  | None => True
  | Some parent => ∃ px, h_tasks h !! parent = Some px ∧
      find_parent_access (il_elems (t_dataAccesses px)) addr h = Ok None
  end.

(** No access of the task at the address. *)
Definition unused h t dom addr : Prop :=
  ∀ p d, linked h dom p d → da_originator d = t → da_dataAccessSequence d ≠ RootSeq dom addr.

Lemma unused_last h t dom addr r l d :
  dep_inv h → unused h t dom addr → h_roots h !! (dom, addr) = Some r →
  last (seq_elems r) = Some l → h_accesses h !! l = Some d → da_originator d ≠ t.
Proof.
  intros Hdep Hun Hr Hl Hd Ho. destruct (di_roots _ Hdep _ _ _ Hr) as (ds & Hrs & _).
  assert (l ∈ seq_elems r) as Hin by (apply last_Some in Hl as [l' ->]; set_solver).
  destruct (objects_elem _ _ _ _ l (rs_objects _ _ _ _ _ Hrs) Hin) as (d' & Hd' & Hq & _).
  rewrite Hd in Hd'. injection Hd' as <-. apply (Hun l d); [|done|done]. split; eauto.
Qed.

Lemma unused_domain_sequence h t dom addr :
  unused h t dom addr → unused (domain_sequence dom addr h) t dom addr.
Proof.
  intros Hun p d Hl Ho. destruct Hl as (Hd & addr' & r & Hq & Hr & Hin).
  unfold domain_sequence in *. destruct (h_roots h !! (dom, addr)) eqn:E.
  - apply (Hun p d); [|done]. split; eauto.
  - simpl in *. destruct (decide (addr' = addr)) as [->|Hne].
    + rewrite lookup_insert_eq in Hr. injection Hr as <-. unfold seq_elems in Hin. simpl in Hin.
      rewrite (il_elems_empty (A := nat)) in Hin. by apply not_elem_of_nil in Hin.
    + rewrite Hq. congruence.
Qed.

Lemma task_ok t (x : Task L) h : h_tasks h !! t = Some x → task t h = Ok x.
Proof. intros Hx. unfold task. by rewrite Hx. Qed.

(** [register_access] at the root, once the access has been added. *)
Lemma register_access_root fuel dom ty weak t addr info h x h' can p :
  h_tasks h !! t = Some x → at_root h x addr →
  registerTaskDataAccess fuel t ty (weak && negb (t_final x) && negb (t_taskloop x))
    (RootSeq dom addr) info (domain_sequence dom addr h) = Ok (h', can, Some p) →
  h_tasks h' !! t = Some x →
  register_access fuel dom ty weak t addr info h =
    if negb can then increasePredecessors t 1 (push_access t p x h') else Ok (push_access t p x h').
Proof.
  intros Hx Hroot Hreg Hx'. unfold register_access. rewrite (task_ok t x h Hx). cbn [mbind res_bind].
  assert ((match t_parent x with
           | None => Ok None
           | Some parent => p ← task parent h;
               find_parent_access (il_elems (t_dataAccesses p)) addr h
           end) = Ok None) as ->.
  { unfold at_root in Hroot. destruct (t_parent x) as [par|]; [|done].
    destruct Hroot as (px & Hpx & Hf). by rewrite (task_ok par px h Hpx). }
  cbn [mbind res_bind]. rewrite Hreg. cbn [mbind res_bind]. by rewrite (task_ok t x h' Hx').
Qed.

(** The accesses stay as they are, and the sequences keep their addresses. *)
Definition same_regions h h' : Prop :=
  (∀ p d, h_accesses h !! p = Some d → h_accesses h' !! p = Some d) ∧
  (∀ y r, h_roots h !! y = Some r → ∃ r', h_roots h' !! y = Some r' ∧ seq_accessRegion r' = seq_accessRegion r).

Lemma same_regions_trans h1 h2 h3 : same_regions h1 h2 → same_regions h2 h3 → same_regions h1 h3.
Proof.
  intros [A1 R1] [A2 R2]. split; [auto|]. intros y r (r2 & H2 & E2)%R1.
  destruct (R2 y r2 H2) as (r3 & H3 & E3). exists r3. split; [done|congruence].
Qed.

Lemma find_parent_access_same l addr h h' res :
  same_regions h h' → find_parent_access l addr h = Ok res → find_parent_access l addr h' = Ok res.
Proof.
  intros [HA HR]. induction l as [|p l IH]; [done|]. simpl.
  intros (d & Hd & (r & Hr & Hres)%res_bind_ok)%res_bind_ok. unfold access, get in *.
  destruct (h_accesses h !! p) as [d0|] eqn:Hp; simplify_eq/=. rewrite (HA _ _ Hp). cbn [mbind res_bind].
  unfold sequence, get_seq, get in *. destruct (da_dataAccessSequence d) as [dom a|a].
  - destruct (h_roots h !! (dom, a)) as [r0|] eqn:Hr0; simplify_eq/=.
    destruct (HR _ _ Hr0) as (r' & -> & He). cbn [mbind res_bind]. rewrite He. case_match; auto.
  - destruct (h_accesses h !! a) as [d1|] eqn:Ha; simplify_eq/=. rewrite (HA _ _ Ha). cbn [mbind res_bind fmap option_fmap option_map].
    case_match; auto.
Qed.

Lemma same_regions_domain dom addr h : same_regions h (domain_sequence dom addr h).
Proof.
  unfold domain_sequence. destruct (h_roots h !! (dom, addr)) as [r0|] eqn:E; (split; [done|]); intros y r Hy; [eauto|].
  simpl. rewrite lookup_insert_ne by congruence. eauto.
Qed.

Lemma same_regions_register fuel t ty weak dom addr info h h' can p :
  dep_inv h → registerTaskDataAccess fuel t ty weak (RootSeq dom addr) info h = Ok (h', can, Some p) →
  same_regions h h'.
Proof.
  intros Hdep (r & Hr & Hreg)%res_bind_ok.
  assert (∃ sat i p', new_access (RootSeq dom addr) ty weak sat t i h = Ok (h', p')) as (sat & i & p' & Hnew).
  { destruct (last (seq_elems r)) as [l|].
    - apply res_bind_ok in Hreg as (d & Hd & Hreg). case_decide.
      + by apply res_bind_ok in Hreg as (r' & _ & [= _ _ ?]).
      + apply res_bind_ok in Hreg as (prev & _ & ([h2 p2] & Hn & [= <- <- <-])%res_bind_ok). eauto.
    - apply res_bind_ok in Hreg as (prev & _ & (prev' & _ & ([h2 p2] & Hn & [= <- <- <-])%res_bind_ok)%res_bind_ok). eauto. }
  unfold new_access in Hnew. rewrite Hr in Hnew. cbn [mbind res_bind] in Hnew. injection Hnew as <- _.
  unfold sequence, get_seq, get in Hr. destruct (h_roots h !! (dom, addr)) as [r0|] eqn:Hr0; simplify_eq/=. split; simpl.
  - intros q d Hq. rewrite lookup_insert_ne; [done|]. intros <-. by rewrite (di_fresh _ Hdep) in Hq by lia.
  - intros y q Hy. destruct (decide (y = (dom, addr))) as [->|Hne].
    + rewrite lookup_insert_eq. eexists. split; [done|]. simpl. congruence.
    + rewrite lookup_insert_ne by done. eauto.
Qed.

(** What the registration of one access leaves alone. *)
Record registers_one t dom addr h h' : Prop := {
  ro_regions : same_regions h h';
  ro_next : h_next h' = S (h_next h);
  ro_task : ∀ x, h_tasks h !! t = Some x →
    ∃ x', h_tasks h' !! t = Some x' ∧ t_parent x' = t_parent x;
  ro_tasks : ∀ t', t' ≠ t → h_tasks h' !! t' = h_tasks h !! t';
  ro_unused : ∀ addr', addr' ≠ addr → unused h t dom addr' → unused h' t dom addr';
}.

Lemma unused_same h h' t dom addr :
  h_accesses h' = h_accesses h → h_roots h' = h_roots h →
  unused h t dom addr → unused h' t dom addr.
Proof.
  intros Ha Hr Hun p d (Hp & addr' & r & Hq & Hr' & Hin). rewrite Ha in Hp. rewrite Hr in Hr'.
  apply (Hun p d). split; eauto.
Qed.

Lemma registers_one_link fuel t ty weak dom addr info h r h' can p x :
  dep_inv h → h_roots h !! (dom, addr) = Some r → (0 < fuel)%nat →
  registerTaskDataAccess fuel t ty weak (RootSeq dom addr) info h = Ok (h', can, Some p) →
  h_tasks h !! t = Some x → registers_one t dom addr h (push_access t p x h').
Proof.
  intros Hdep Hr Hfuel Hreg Hx.
  pose proof (register_dep_inv _ _ _ _ _ _ _ _ _ _ _ _ Hdep Hr Hfuel Hreg)
    as (_ & Ht & Hn & Hpn & _ & Hacc & _).
  split; simpl.
  - pose proof (same_regions_register _ _ _ _ _ _ _ _ _ _ _ Hdep Hreg) as [? ?]. by split.
  - done.
  - intros y Hy. rewrite lookup_insert_eq. eexists. split; [done|]. simpl. congruence.
  - intros t' Hne. by rewrite lookup_insert_ne, Ht.
  - intros addr' Hne Hun q d Hl Ho. change (linked h' dom q d) in Hl.
    destruct (Hacc q d (proj1 Hl)) as [Hold|(_ & _ & ->)]; [|congruence].
    assert (linked h dom q d) as Hl'; [|by apply (Hun q d)].
    destruct (link_linked _ _ _ _ _ _ _ _ _ _ _ _ Hdep Hr Hfuel Hreg dom q d Hl)
      as [?|(-> & _)]; [done|]. by rewrite (di_fresh _ Hdep) in Hold by lia.
Qed.

Lemma registers_one_increase t n dom addr h h1 h' :
  registers_one t dom addr h h1 → increasePredecessors t n h1 = Ok h' → registers_one t dom addr h h'.
Proof.
  intros [Hs Hn Hx Ht Hu] (x & Hx1 & [= <-])%res_bind_ok. unfold task, get in Hx1.
  destruct (h_tasks h1 !! t) eqn:E; simplify_eq. split; simpl.
  - destruct Hs. by split.
  - done.
  - intros y (y' & Hy' & Hp)%Hx. rewrite lookup_insert_eq. eexists. split; [done|]. simpl. congruence.
  - intros t' Hne. rewrite lookup_insert_ne by done. auto.
  - intros addr' Hne Hun. by apply (unused_same h1); [..|apply Hu].
Qed.

Lemma registers_one_domain t dom addr h h' :
  registers_one t dom addr (domain_sequence dom addr h) h' → registers_one t dom addr h h'.
Proof.
  assert (h_tasks (domain_sequence dom addr h) = h_tasks h ∧
          h_next (domain_sequence dom addr h) = h_next h) as [Ht Hn].
  { unfold domain_sequence. by case_match. }
  intros [Hs Hn' Hx Ht' Hu]. rewrite Hn in Hn'. rewrite Ht in Hx, Ht'. split; [|done..|].
  { eapply same_regions_trans; [apply same_regions_domain|done]. }
  intros addr' Hne Hun. apply Hu; [done|]. intros p d Hl Ho.
  destruct (shrinks_linked _ _ dom p d (shrinks_domain_sequence h dom addr) Hl) as (d' & Hl' & _).
  assert (d' = d) as ->.
  { destruct Hl' as [H1 _], Hl as [H2 _]. unfold domain_sequence in H2. case_match; simpl in H2; congruence. }
  by eapply Hun.
Qed.

(** [register_access] links the access, and counts it if it cannot start. *)
Lemma register_access_steps s t x dom base fuel ty weak addr info :
  inv s → h_tasks (p_heap s) !! t = Some x → at_root (p_heap s) x addr →
  p_phase s !! t = Some (Registering dom base false) → (0 < fuel)%nat →
  Z.of_nat (h_next (p_heap s)) < 2 ^ 30 → unused (p_heap s) t dom addr →
  ∃ s', register_access fuel dom ty weak t addr info (p_heap s) = Ok (p_heap s') ∧
    rtc step s s' ∧ p_phase s' !! t = Some (Registering dom base false) ∧
    p_ready s' = p_ready s ∧ registers_one t dom addr (p_heap s) (p_heap s').
Proof.
  intros [Hc _] Hx Hroot Hph Hfuel Hb Hun.
  set (h1 := domain_sequence dom addr (p_heap s)).
  destruct (dep_inv_domain_sequence _ dom addr (ci_dep _ Hc)) as [Hdep [r Hr]]. fold h1 in Hdep, Hr.
  assert (h_tasks h1 = h_tasks (p_heap s)) as Ht by (unfold h1, domain_sequence; by case_match).
  destruct (register_succeeds fuel t ty (weak && negb (t_final x) && negb (t_taskloop x))
    dom addr info h1 r Hdep Hr Hfuel) as (h2 & can & p & Hreg).
  { intros l d. eapply unused_last; [done|by apply unused_domain_sequence|done]. }
  pose proof (register_dep_inv _ _ _ _ _ _ _ _ _ _ _ _ Hdep Hr Hfuel Hreg) as (_ & Htasks & _).
  assert (h_tasks h2 !! t = Some x) as Hx2 by (by rewrite Htasks, Ht).
  set (s1 := mkProto (push_access t p x h2)
               (<[t := Registering dom base (negb can)]> (p_phase s)) (p_notify s) (p_ready s)).
  assert (step s s1) as Hstep by (by eapply step_link).
  assert (registers_one t dom addr (p_heap s) (push_access t p x h2)) as Hone.
  { apply registers_one_domain. fold h1. eapply registers_one_link; try done. by rewrite Ht. }
  rewrite (register_access_root _ _ _ _ _ _ _ _ x h2 can p Hx Hroot Hreg Hx2).
  destruct can; simpl.
  - exists s1. split_and!; [done|by apply rtc_once|simpl; by rewrite lookup_insert_eq|done|done].
  - destruct (increasePredecessors t 1 (push_access t p x h2)) as [h3|] eqn:Hinc.
    2:{ unfold increasePredecessors, task in Hinc. simpl in Hinc. by rewrite lookup_insert_eq in Hinc. }
    exists (mkProto h3 (<[t := Registering dom base false]> (p_phase s1)) (p_notify s) (p_ready s)).
    split_and!; [done|..].
    + eapply rtc_l; [done|]. apply rtc_once. eapply (step_count s1 t dom base); [|done].
      simpl. apply lookup_insert_eq.
    + simpl. apply lookup_insert_eq.
    + done.
    + by eapply registers_one_increase.
Qed.

(** The task has accesses to make at the addresses, and no access of its parent covers one of them: they go to
    the sequences of the dependency domain of the thread. *)
Definition outermost h t (addrs : list address) : Prop :=
  ∃ x, h_tasks h !! t = Some x ∧ t_parent x ≠ Some t ∧ ∀ addr, addr ∈ addrs → at_root h x addr.

Lemma outermost_next t dom addr h h' addrs :
  registers_one t dom addr h h' → outermost h t (addr :: addrs) → outermost h' t addrs.
Proof.
  intros [Hs _ Hx Ht _] (x & Htx & Hne & Hroot). destruct (Hx x Htx) as (x' & Hx' & Hp). exists x'.
  split; [done|]. rewrite Hp. split; [done|]. intros a Ha. specialize (Hroot a (list_elem_of_further _ _ _ Ha)).
  unfold at_root in *. rewrite Hp. destruct (t_parent x) as [par|]; [|done]. destruct Hroot as (px & Hpx & Hf).
  exists px. rewrite Ht by congruence. split; [done|]. by eapply find_parent_access_same.
Qed.

Lemma register_all_steps fuel dom t base deps s :
  inv s → outermost (p_heap s) t (dep_start <$> deps) →
  p_phase s !! t = Some (Registering dom base false) → (0 < fuel)%nat →
  Z.of_nat (h_next (p_heap s) + length deps) ≤ 2 ^ 30 → NoDup (dep_start <$> deps) →
  (∀ addr, addr ∈ dep_start <$> deps → unused (p_heap s) t dom addr) →
  ∃ s', register_all fuel dom t deps (p_heap s) = Ok (p_heap s') ∧ rtc step s s' ∧
    p_phase s' !! t = Some (Registering dom base false) ∧ p_ready s' = p_ready s ∧
    is_Some (h_tasks (p_heap s') !! t).
Proof.
  revert s. induction deps as [|dep deps IH]; intros s Hinv Hroot Hph Hfuel Hb Hnd Hun.
  { exists s. split_and!; try done. destruct Hroot as (x & Hx & _). eauto. }
  csimpl in *. apply NoDup_cons in Hnd as [Hnew Hnd]. pose proof Hroot as (x & Hx & _ & Hat).
  destruct (register_access_steps s t x dom base fuel (dep_type dep) (dep_weak dep) (dep_start dep)
    (dep_reduction dep)) as (s1 & -> & Hsteps & Hph1 & Hrd1 & Hone);
    [done|done|apply Hat; left|done|done|lia|apply Hun; left|].
  pose proof Hone as [_ Hn1 Hx1 Ht1 Hu1]. cbn [mbind res_bind].
  destruct (IH s1) as (s2 & Hs2 & Hsteps2 & Hph2 & Hrd2 & Hroot2); try done.
  - by eapply inv_steps.
  - by eapply outermost_next.
  - rewrite Hn1. lia.
  - intros addr Haddr. apply Hu1; [by intros ->|]. apply Hun. by right.
  - exists s2. split_and!; [done|by etrans|done|congruence|done].
Qed.

Lemma increase_outermost t n h addrs :
  outermost h t addrs → ∃ h', increasePredecessors t n h = Ok h' ∧ outermost h' t addrs.
Proof.
  intros (x & Hx & Hne & Hroot). unfold increasePredecessors. rewrite (task_ok t x h Hx). cbn [mbind res_bind].
  eexists. split; [done|]. eexists. simpl. rewrite lookup_insert_eq. split; [done|]. split; [done|].
  intros a Ha. specialize (Hroot a Ha). unfold at_root in *. simpl. destruct (t_parent x) as [par|]; [|done].
  destruct Hroot as (px & Hpx & Hf). exists px. rewrite lookup_insert_ne by congruence. split; [done|].
  eapply find_parent_access_same; [|exact Hf]. split; [done|eauto].
Qed.

Lemma registerTaskDataAccesses_steps fuel dom t deps s :
  inv s → outermost (p_heap s) t (dep_start <$> deps) → p_phase s !! t = None →
  (∀ t' base owed, p_phase s !! t' ≠ Some (Registering dom base owed)) → (0 < fuel)%nat →
  Z.of_nat (h_next (p_heap s) + length deps) ≤ 2 ^ 30 → NoDup (dep_start <$> deps) →
  ∃ s' ready, registerTaskDataAccesses fuel dom t deps (p_heap s) = Ok (p_heap s', ready) ∧
    rtc step s s' ∧ p_phase s' !! t = Some Registered ∧
    p_ready s' = (if ready then p_ready s ++ [t] else p_ready s).
Proof.
  intros Hinv Hroot Hph Hfree Hfuel Hb Hnd.
  destruct (increase_outermost t 2 (p_heap s) _ Hroot) as (h1 & Hinc & Hroot1).
  set (s1 := mkProto h1 (<[t := Registering dom (h_next (p_heap s)) false]> (p_phase s))
               (p_notify s) (p_ready s)).
  assert (step s s1) as Hstep by (by constructor).
  pose proof (increase_recount _ _ _ _ Hinc) as (Ha & Hr & Hn & _).
  destruct (register_all_steps fuel dom t (h_next (p_heap s)) deps s1)
    as (s2 & Hall & Hsteps & Hph2 & Hrd2 & [x2 Hx2]); simpl; try done.
  - by eapply inv_step.
  - by rewrite lookup_insert_eq.
  - by rewrite Hn.
  - intros addr _ p d Hl Ho. exfalso. destruct Hinv as [_ [_ Hp _]]. specialize (Hp t).
    rewrite Hph in Hp. apply (Hp dom p d); [|done]. destruct Hl as (Hd & a' & r & Hq & Hr' & Hin).
    rewrite Ha in Hd. rewrite Hr in Hr'. split; eauto.
  - unfold registerTaskDataAccesses. rewrite Hinc. cbn [mbind res_bind]. simpl in Hall. rewrite Hall.
    cbn [mbind res_bind].
    destruct (decreasePredecessors t 2 (p_heap s2)) as [[h3 ready]|] eqn:Hdec.
    2:{ unfold decreasePredecessors in Hdec. by rewrite (task_ok t x2 _ Hx2) in Hdec. }
    exists (mkProto h3 (<[t := Registered]> (p_phase s2)) (p_notify s2)
              (if ready then p_ready s2 ++ [t] else p_ready s2)), ready.
    split_and!; [done|..].
    + eapply rtc_l; [done|]. eapply rtc_r; [done|]. by eapply step_end.
    + simpl. apply lookup_insert_eq.
    + simpl. by rewrite Hrd2.
Qed.

(** ** Release *)

(** The originators of the accesses still exist. *)
Definition alive h : Prop :=
  ∀ p d, h_accesses h !! p = Some d → is_Some (h_tasks h !! da_originator d).

(** The fuel covers every sequence. *)
Definition fits (fuel : nat) h : Prop :=
  ∀ x r, h_roots h !! x = Some r → (length (seq_elems r) ≤ fuel)%nat.

(** The task made the accesses, all of them different. *)
Definition owns h t (l : list access_ptr) : Prop :=
  NoDup l ∧ ∀ a, a ∈ l → ∃ dom d, linked h dom a d ∧ da_originator d = t.

(** Only the tasks change, and none disappears. *)
Definition same_accesses h h' : Prop :=
  h_accesses h' = h_accesses h ∧ h_roots h' = h_roots h ∧
  ∀ t, is_Some (h_tasks h !! t) → is_Some (h_tasks h' !! t).

Lemma put_task_same t x h : same_accesses h (put_task t x h).
Proof.
  split_and!; [done..|]. intros t' Ht'. simpl. destruct (decide (t' = t)) as [->|Hne].
  - rewrite lookup_insert_eq. eauto.
  - by rewrite lookup_insert_ne.
Qed.

Lemma same_accesses_trans h1 h2 h3 :
  same_accesses h1 h2 → same_accesses h2 h3 → same_accesses h1 h3.
Proof. intros (? & ? & ?) (? & ? & ?). split_and!; [congruence..|auto]. Qed.

Lemma same_accesses_linked h h' dom p d : same_accesses h h' → linked h' dom p d ↔ linked h dom p d.
Proof. intros (Ha & Hr & _). unfold linked. by rewrite Ha, Hr. Qed.

Lemma process_steps o l s ready :
  p_notify s = l ++ o → (∀ t, t ∈ o → is_Some (h_tasks (p_heap s) !! t)) →
  ∃ s' new, processSatisfiedOriginators o (p_heap s, ready) = Ok (p_heap s', ready ++ new) ∧
    rtc step s s' ∧ p_notify s' = l ∧ p_ready s' = p_ready s ++ new ∧
    same_accesses (p_heap s) (p_heap s').
Proof.
  revert s ready. induction o as [|t o IH]; intros s ready Hn Halive.
  { exists s, []. rewrite !app_nil_r in *. by split_and!. }
  destruct (Halive t) as [x Hx]; [left|]. simpl. unfold decreasePredecessors at 1.
  rewrite (task_ok t x _ Hx). cbn [mbind res_bind].
  set (c := wrap_int _). set (h' := put_task _ _ _).
  set (s1 := mkProto h' (p_phase s) (l ++ o)
               (if c =? 0 then p_ready s ++ [t] else p_ready s)).
  assert (step s s1) as Hstep.
  { apply (step_deliver s t l o h' (c =? 0)); [done|]. unfold decreasePredecessors.
    by rewrite (task_ok t x _ Hx). }
  pose proof (put_task_same t (mkTask (t_parent x) c (t_dataAccesses x) (t_final x) (t_taskloop x))
    (p_heap s)) as Hsame. fold h' in Hsame.
  destruct (IH s1 (if c =? 0 then ready ++ [t] else ready)) as (s2 & new & Hs2 & Hst & Hn2 & Hr2 & Hsm).
  - done.
  - intros t' Ht'. apply Hsame, Halive. by right.
  - exists s2, ((if c =? 0 then [t] else []) ++ new). simpl in Hs2. rewrite Hs2. split_and!.
    + f_equal. f_equal. destruct (c =? 0); [by rewrite <- app_assoc|done].
    + by eapply rtc_l.
    + done.
    + rewrite Hr2. simpl. destruct (c =? 0); [by rewrite <- app_assoc|done].
    + by eapply same_accesses_trans.
Qed.

(** What is left for the following accesses after one of them. *)
Record releases_one a h h' : Prop := {
  rel_alive : alive h → alive h';
  rel_fits : ∀ fuel, fits fuel h → fits fuel h';
  rel_linked : ∀ dom p d, linked h dom p d → p ≠ a →
    ∃ d', linked h' dom p d' ∧ da_originator d' = da_originator d;
  rel_shrinks : ∀ dom p d', linked h' dom p d' → p ≠ a ∧ ∃ d, linked h dom p d;
  rel_tasks : ∀ t, is_Some (h_tasks h !! t) → is_Some (h_tasks h' !! t);
}.

Lemma releases_one_same a h h1 h' :
  releases_one a h h1 → same_accesses h1 h' → releases_one a h h'.
Proof.
  intros [H1 H2 H3 H4 H5] Hsame. pose proof Hsame as (Ha & Hr & Ht). split.
  - intros Hal p d Hp. rewrite Ha in Hp. by eapply Ht, H1.
  - intros fuel Hf x r Hx. rewrite Hr in Hx. by eapply H2.
  - intros dom p d Hl Hne. destruct (H3 dom p d Hl Hne) as (d' & Hl' & ?). exists d'.
    by rewrite same_accesses_linked.
  - intros dom p d' Hl. apply (same_accesses_linked _ _ _ _ _ Hsame) in Hl. eauto.
  - auto.
Qed.

Lemma unregister_releases fuel s a dom d h' o :
  dep_inv (p_heap s) → linked (p_heap s) dom a d → fits fuel (p_heap s) →
  unregisterDataAccess fuel a (p_heap s, []) = Ok (h', o) → releases_one a (p_heap s) h'.
Proof.
  intros Hdep (Hd & addr & r & Hq & Hr & Hin) Hfits Hun.
  destruct (unregister_dep_inv fuel (p_heap s) dom addr r a [] Hdep Hr Hin (Hfits _ _ Hr))
    as (h2 & o2 & d2 & Hun' & _ & Ht & _ & Hd2 & Hroots & Hacc & _ & Hkeep & Hkacc & _ & Hgone).
  rewrite Hun' in Hun. injection Hun as <- <-. split.
  - intros Hal p e' He'. destruct (Hacc p e' He') as (e & He & [-> _]). simpl. rewrite Ht. by eapply Hal.
  - intros f Hf x r' Hx. destruct (Hroots x r' Hx) as (r0 & Hr0 & Hsub).
    apply sublist_length in Hsub. specialize (Hf x r0 Hr0). lia.
  - intros dom' p e (He & addr' & r' & Hqe & Hr' & Hin') Hne.
    destruct (Hkacc p e He) as (e' & He' & [Hraise _]). exists e'.
    destruct (Hkeep _ _ _ Hr' Hin' Hne) as (r2 & Hr2 & Hin2). rewrite Hraise. simpl.
    split; [|done]. rewrite <- Hraise. split; [done|]. exists addr', r2.
    split_and!; [by rewrite Hraise|done|done].
  - intros dom' p e' (He' & addr' & r' & Hqe & Hr' & Hin').
    destruct (Hacc p e' He') as (e & He & [Hraise _]). rewrite Hraise in Hqe. simpl in Hqe.
    split.
    + intros ->. rewrite Hd in He. injection He as <-. rewrite Hq in Hqe. injection Hqe as <- <-.
      by apply (Hgone r').
    + exists e. split; [done|]. destruct (Hroots _ _ Hr') as (r0 & Hr0 & Hsub). exists addr', r0.
      split_and!; [done..|]. by eapply elem_of_sublist.
  - intros t. by rewrite Ht.
Qed.

(** One round of the loop of [unregisterTaskDataAccesses]. *)
Lemma unregister_one_steps fuel t a dom d s ready :
  inv s → alive (p_heap s) → fits fuel (p_heap s) → t ∈ p_ready s →
  linked (p_heap s) dom a d → da_originator d = t →
  ∃ h1 o h2 x s' new,
    unregisterDataAccess fuel a (p_heap s, []) = Ok (h1, o) ∧
    processSatisfiedOriginators o (h1, ready) = Ok (h2, ready ++ new) ∧
    task t h2 = Ok x ∧
    p_heap s' = put_task t (mkTask (t_parent x) (t_predecessorCount x)
                  (il_erase a (t_dataAccesses x)) (t_final x) (t_taskloop x)) h2 ∧
    rtc step s s' ∧ p_notify s' = p_notify s ∧ p_ready s' = p_ready s ++ new ∧
    releases_one a (p_heap s) (p_heap s').
Proof.
  intros [Hc _] Hal Hfits Hrd Hl Ho. pose proof Hl as (Hd & addr & r & Hq & Hr & Hin).
  destruct (unregister_dep_inv fuel (p_heap s) dom addr r a [] (ci_dep _ Hc) Hr Hin (Hfits _ _ Hr))
    as (h1 & o & d2 & Hun & _ & Ht & _ & _ & _ & _ & _ & _ & _ & Hnote & _).
  rewrite app_nil_l in Hun.
  pose proof (unregister_releases fuel s a dom d h1 o (ci_dep _ Hc) Hl Hfits Hun) as Hrel.
  set (s1 := mkProto h1 (p_phase s) (p_notify s ++ o) (p_ready s)).
  assert (step s s1) as Hstep.
  { eapply (step_unregister s a d dom addr r fuel); try done; [by eapply Hfits|by rewrite Ho]. }
  destruct (process_steps o (p_notify s) s1 ready) as (s2 & new & Hp & Hst & Hn & Hr2 & Hsame);
    [done| |].
  { intros t' Ht'. destruct (Hnote t' Ht') as (p & e & He & <-). simpl. rewrite Ht. by eapply Hal. }
  destruct (proj2 (proj2 Hsame) t) as [x Hx].
  { simpl. rewrite Ht, <- Ho. by eapply Hal. }
  set (x' := mkTask (t_parent x) (t_predecessorCount x) (il_erase a (t_dataAccesses x)) (t_final x)
               (t_taskloop x)).
  exists h1, o, (p_heap s2), x,
    (mkProto (put_task t x' (p_heap s2)) (p_phase s2) (p_notify s2) (p_ready s2)), new.
  split_and!; try done.
  - by apply task_ok.
  - eapply rtc_l; [done|]. eapply rtc_r; [done|]. by apply step_unlink.
  - simpl. eapply releases_one_same; [eapply releases_one_same; done|apply put_task_same].
Qed.

Lemma unregister_accesses_steps fuel t accesses s ready :
  inv s → alive (p_heap s) → fits fuel (p_heap s) → t ∈ p_ready s →
  owns (p_heap s) t accesses →
  ∃ s' new, unregister_accesses fuel t accesses (p_heap s, ready) = Ok (p_heap s', ready ++ new) ∧
    rtc step s s' ∧ p_notify s' = p_notify s ∧ p_ready s' = p_ready s ++ new ∧
    ∀ dom p d, linked (p_heap s') dom p d → p ∉ accesses ∧ ∃ d0, linked (p_heap s) dom p d0.
Proof.
  revert s ready. induction accesses as [|a l IH]; intros s ready Hinv Hal Hfits Hrd [Hnd Hown].
  { exists s, []. rewrite !app_nil_r. split_and!; try done. intros dom p d Hl.
    split; [apply not_elem_of_nil|eauto]. }
  apply NoDup_cons in Hnd as [Ha Hnd]. destruct (Hown a) as (dom & d & Hl & Ho); [left|].
  destruct (unregister_one_steps fuel t a dom d s ready)
    as (h1 & o & h2 & x & s1 & new & Hun & Hproc & Hx & Hheap & Hst & Hn1 & Hr1 & Hrel); [done..|].
  cbn [unregister_accesses]. rewrite Hun. cbn [mbind res_bind fst snd]. rewrite Hproc. cbn [mbind res_bind]. rewrite Hx.
  cbn [mbind res_bind]. rewrite <- Hheap.
  destruct (IH s1 (ready ++ new)) as (s2 & new2 & Hs2 & Hst2 & Hn2 & Hr2 & Hgone).
  - by eapply inv_steps.
  - by apply (rel_alive _ _ _ Hrel).
  - by apply (rel_fits _ _ _ Hrel).
  - rewrite Hr1. set_solver.
  - split; [done|]. intros b Hb. destruct (Hown b) as (dom' & e & Hle & Hoe); [by right|].
    destruct (rel_linked _ _ _ Hrel dom' b e Hle) as (e' & Hle' & Hoe'); [by intros ->|].
    exists dom', e'. split; [done|congruence].
  - exists s2, (new ++ new2). rewrite app_assoc. split_and!.
    + done.
    + by etrans.
    + congruence.
    + rewrite Hr2, Hr1. by rewrite app_assoc.
    + intros dom' p e He. destruct (Hgone _ _ _ He) as (Hp & e1 & He1).
      destruct (rel_shrinks _ _ _ Hrel _ _ _ He1) as (Hpa & e0 & He0). split; [set_solver|eauto].
Qed.
End handlers.
