(* ===== verification/DiscreteTheorems.v ===== *)
(** * Discrete dependencies: correctness

    The properties of the protocol: every task becomes ready exactly once, tasks that are
    ready together make compatible accesses, accesses are satisfied as soon as they can be,
    the oldest task is never stuck, and the handlers of the code are runs of the protocol.
    The last section shows the combinations of accesses of one task for which the code leaves
    the protocol. *)

From S2P Require Import Prelude Boost DataAccessType DiscreteDeps DiscreteProofs.
From S2P Require Import DiscreteProtocol DiscreteHandlers.
Local Open Scope Z_scope.

Section theorems.
Context {L : Type} `{!IntrusiveList nat L} `{!IntrusiveListLaws nat L}.
Implicit Types (s : proto (L := L)) (t : task_ptr).

Lemma seq_ok_lookup (ds : list (DataAccess L)) prev i d :
  seq_ok prev ds → ds !! i = Some d →
  da_satisfied d = eval_access (match i with O => prev | S j => ds !! j end) d.
Proof.
  revert prev i. induction ds as [|d0 ds IH]; intros prev i Hok Hd; [done|].
  destruct Hok as [Hd0 Hok]. destruct i as [|i]; simplify_eq/=; [done|].
  rewrite (IH (Some d0) i) by done. by destruct i.
Qed.

Lemma seq_ok_compatible (ds : list (DataAccess L)) i j a b :
  seq_ok None ds → (i < j)%nat → ds !! i = Some a → ds !! j = Some b → da_satisfied b = true →
  da_satisfied a = true ∧ compatible a b = true.
Proof.
  intros Hok Hij Ha. revert b. induction Hij as [|j Hij IH]; intros b Hb Hsat;
    pose proof (seq_ok_lookup _ _ _ _ Hok Hb) as Hev; rewrite Hsat in Hev; symmetry in Hev.
  - rewrite Ha, eval_access_Some in Hev. by bool_hyps.
  - destruct (ds !! j) as [c|] eqn:Hc.
    + rewrite eval_access_Some in Hev. bool_hyps. destruct (IH c) as [? Hac]; [done..|].
      split; [done|]. by eapply compatible_trans.
    + apply lookup_ge_None in Hc. apply lookup_lt_Some in Hb. lia.
Qed.

(** The objects of a root sequence of a reachable state. *)
Lemma reachable_objects s dom addr r :
  reachable s → h_roots (p_heap s) !! (dom, addr) = Some r →
  ∃ ds, objects (p_heap s) (RootSeq dom addr) (seq_elems r) ds ∧ seq_ok None ds.
Proof.
  intros [Hc _]%reachable_inv Hr. destruct (di_roots _ (ci_dep _ Hc) _ _ _ Hr) as (ds & Hrs & Hok).
  exists ds. split; [apply (rs_objects _ _ _ _ _ Hrs)|done].
Qed.

Lemma objects_lookup h q ps (ds : list (DataAccess L)) i p d :
  objects h q ps ds → ps !! i = Some p → h_accesses h !! p = Some d → ds !! i = Some d.
Proof.
  intros Ho Hp Hd. destruct (Forall2_lookup_l _ _ _ _ _ Ho Hp) as (d' & Hd' & ? & _). congruence.
Qed.

(** A task that waits for nothing has its strong accesses satisfied. *)
Lemma waits_satisfied s t dom p d :
  count_inv s → waits s t = 0%nat → linked (p_heap s) dom p d → da_originator d = t →
  da_weak d = false → da_satisfied d = true.
Proof.
  intros Hc Hw Hl Ho Hweak. destruct Hl as (Hd & addr & r & Hq & Hr & Hp).
  pose proof (dep_inv_below _ _ _ _ _ (ci_dep _ Hc) Hr Hp) as Hin.
  assert (pending_total t (p_heap s) = 0%nat) as Ht by (unfold waits in Hw; lia).
  pose proof (countb_0 _ _ p Ht Hin) as Hpa. unfold pending_at, root_linked, pending in Hpa.
  rewrite Hd, Hq, Hr, bool_decide_eq_true_2, Hweak, bool_decide_eq_true_2 in Hpa by done.
  by destruct (da_satisfied d).
Qed.

(** C3: For the accesses in the sequences of the dependency domains (no access of the parent covers the
    address), with one access of a task to an address: in every state that any interleaving of registrations,
    releases and notifications reaches, no task has been made ready twice, and a task has been made ready exactly when
    its registration has ended, no strong access of it waits in a sequence and no
    notification for it is still to be delivered. *)
Theorem task_ready_exactly_once s :
  reachable s →
  NoDup (p_ready s) ∧
  ∀ t, t ∈ p_ready s ↔
    p_phase s !! t = Some Registered ∧ pending_total t (p_heap s) = 0%nat ∧ t ∉ p_notify s.
Proof.
  intros [Hc _]%reachable_inv. split; [apply (ci_once _ Hc)|].
  intros t. rewrite (ci_ready _ Hc). unfold waits.
  assert (undelivered t (p_notify s) = 0%nat ↔ t ∉ p_notify s) as <-; [|naive_solver lia].
  unfold undelivered. rewrite length_zero_iff_nil. split.
  - intros Hn Ht. assert (t ∈ filter (λ x, x = t) (p_notify s)) as Hin.
    { by apply list_elem_of_filter. } rewrite Hn in Hin. by apply not_elem_of_nil in Hin.
  - intros Hn. apply filter_none. by intros x Hx ->.
Qed.


(** C8: In the sequences of the dependency domains, with one access of a task to an address, accesses are
    satisfied as early as they can be: the first access of an address
    always is, and any other one exactly when the access before it is satisfied and
    compatible with it. *)
Theorem satisfied_as_early_as_possible s dom addr r i p d :
  reachable s → h_roots (p_heap s) !! (dom, addr) = Some r →
  seq_elems r !! i = Some p → h_accesses (p_heap s) !! p = Some d →
  da_satisfied d =
    match i with
    | O => true
    | S j =>
        match (p' ← seq_elems r !! j; h_accesses (p_heap s) !! p') with
        | Some d' => da_satisfied d' && compatible d' d
        | None => true
        end
    end.
Proof.
  intros Hreach Hr Hp Hd. destruct (reachable_objects _ _ _ _ Hreach Hr) as (ds & Ho & Hok).
  rewrite (seq_ok_lookup ds None i d) by (done || by eapply objects_lookup).
  destruct i as [|j]; [apply eval_access_None|].
  destruct (seq_elems r !! j) as [p'|] eqn:Hp'.
  - destruct (Forall2_lookup_l _ _ _ _ _ Ho Hp') as (d' & Hd' & Hpd' & _). simpl.
    by rewrite Hd', Hpd', eval_access_Some.
  - apply lookup_ge_None in Hp'. apply lookup_lt_Some in Hp. lia.
Qed.

(** C11: No deadlock in the sequences of the dependency domains, with one access of a task to an address: when
    every registration has ended and every notification has been
    delivered, the task of the oldest access of a domain is ready. *)
Theorem oldest_task_ready s dom p d :
  reachable s → p_notify s = [] →
  (∀ t dom b o, p_phase s !! t ≠ Some (Registering dom b o)) →
  linked (p_heap s) dom p d → (∀ q e, linked (p_heap s) dom q e → (p ≤ q)%nat) →
  da_originator d ∈ p_ready s.
Proof.
  intros Hreach Hnt Hend Hl Hmin. destruct (reachable_inv _ Hreach) as [Hc [Hh Hp _]].
  apply (ci_ready _ Hc). set (t := da_originator d). split.
  { specialize (Hp t). destruct (p_phase s !! t) as [[? ? ?|]|] eqn:E; [|done|].
    - by apply Hend in E.
    - by specialize (Hp _ _ _ Hl). }
  unfold waits. rewrite Hnt. unfold undelivered. simpl. rewrite Nat.add_0_r.
  apply countb_none. intros q _. apply not_true_iff_false. unfold pending_at, root_linked, pending.
  destruct (h_accesses (p_heap s) !! q) as [e|] eqn:He; [|done].
  destruct (da_dataAccessSequence e) as [dom' addr|] eqn:Hq; [|done].
  destruct (h_roots (p_heap s) !! (dom', addr)) as [r|] eqn:Hr; [|done].
  intros Hpend. bool_hyps. rewrite bool_decide_eq_true in *.
  assert (linked (p_heap s) dom' q e) as Hlq by (split; eauto).
  assert (dom' = dom) as -> by (eapply (hb_domain _ Hh dom dom' p q d e); done).
  destruct (proj1 (list_elem_of_lookup _ _) H) as [i Hi].
  destruct (reachable_objects _ _ _ _ Hreach Hr) as (ds & Ho & Hok).
  pose proof (seq_ok_lookup ds None i e Hok (objects_lookup _ _ _ _ _ _ _ Ho Hi He)) as Hsat.
  destruct i as [|j]; [rewrite eval_access_None in Hsat; congruence|].
  destruct (seq_elems r !! j) as [q'|] eqn:Hj.
  2:{ apply lookup_ge_None in Hj. apply lookup_lt_Some in Hi. lia. }
  assert (q' ∈ seq_elems r) as Hq' by (by eapply list_elem_of_lookup_2).
  destruct (objects_elem _ _ _ _ _ Ho Hq') as (e' & He' & Hqe' & _).
  assert (linked (p_heap s) dom q' e') as Hlq' by (split; eauto 6).
  assert (q' < q)%nat as Hlt.
  { eapply (StronglySorted_lookup _ _ j (S j)); [apply (hb_sorted _ Hh _ _ Hr)|lia|done|done]. }
  assert (da_originator e' = t) as Ho'.
  { pose proof (Hmin _ _ Hlq'). destruct (decide (p = q')) as [->|Hne].
    - destruct Hlq' as [? _], Hl as [? _]. unfold t. congruence.
    - apply (hb_block _ Hh dom p q' q d e' e); [done..|lia|by symmetry]. }
  eapply (hb_distinct _ Hh _ r q' q e' e); [done..|lia|done|done|congruence].
Qed.

(** C9: Registering a task that declares different addresses, none of which an access of its parent covers,
    succeeds and is a run of the protocol, as long as no other task registers in the domain and there are no
    more than 2^30 accesses; the handler answers that the task is ready exactly when the protocol made it so. *)
Theorem register_handler_runs_protocol fuel dom t deps s :
  reachable s → outermost (p_heap s) t (dep_start <$> deps) → p_phase s !! t = None →
  (∀ t' base owed, p_phase s !! t' ≠ Some (Registering dom base owed)) → (0 < fuel)%nat →
  Z.of_nat (h_next (p_heap s) + length deps) ≤ 2 ^ 30 → NoDup (dep_start <$> deps) →
  ∃ s' ready, registerTaskDataAccesses fuel dom t deps (p_heap s) = Ok (p_heap s', ready) ∧
    rtc step s s' ∧ p_phase s' !! t = Some Registered ∧ (ready = true ↔ t ∈ p_ready s').
Proof.
  intros Hreach Hroot Hph Hfree Hfuel Hb Hnd. pose proof (reachable_inv _ Hreach) as Hinv.
  destruct (registerTaskDataAccesses_steps fuel dom t deps s)
    as (s' & ready & Hreg & Hst & Hph' & Hrd); [done..|].
  exists s', ready. split_and!; [done..|]. rewrite Hrd, ready_append.
  assert (t ∉ p_ready s) as Hn; [|naive_solver].
  intros Hin. apply (ci_ready _ (proj1 Hinv)) in Hin as [Hin _]. congruence.
Qed.

(** C10: When a ready task finishes, whose accesses are all in sequences of dependency domains and have no
    accesses of children nested in them, releasing its accesses succeeds, is a run of the protocol that leaves none of them in a sequence, and hands to the scheduler exactly the
    tasks that become ready, in order. *)
Theorem release_handler_runs_protocol fuel t x s :
  reachable s → t ∈ p_ready s → h_tasks (p_heap s) !! t = Some x →
  owns (p_heap s) t (il_elems (t_dataAccesses x)) → alive (p_heap s) → fits fuel (p_heap s) →
  ∃ s' new, unregisterTaskDataAccesses fuel t (p_heap s) = Ok (p_heap s', new) ∧
    rtc step s s' ∧ p_ready s' = p_ready s ++ new ∧ p_notify s' = p_notify s ∧
    ∀ dom p d, linked (p_heap s') dom p d → p ∉ il_elems (t_dataAccesses x).
Proof.
  intros Hreach Hrd Hx Hown Hal Hfits. pose proof (reachable_inv _ Hreach) as Hinv.
  destruct (unregister_accesses_steps fuel t _ s [] Hinv Hal Hfits Hrd Hown)
    as (s' & new & Hun & Hst & Hn & Hr & Hgone).
  exists s', new. split_and!; [|done..|].
  - unfold unregisterTaskDataAccesses. by rewrite (task_ok t x _ Hx).
  - intros dom p d Hl. by destruct (Hgone dom p d Hl).
Qed.
End theorems.

(** ** A run: two readers and a writer *)

Definition no_reduction : Z := 0.

Definition sample_events : list event :=
  [Begin 1 0; Link 1 READ_ACCESS_TYPE false 100 no_reduction; End 1;
   Begin 2 0; Link 2 READ_ACCESS_TYPE false 100 no_reduction; End 2;
   Begin 3 0; Link 3 WRITE_ACCESS_TYPE false 100 no_reduction; Count 3; End 3].

Definition sample : proto (L := list nat) :=
  default (start []) (exec_all sample_events (start [1; 2; 3; 4]%nat)).

Lemma sample_run : exec_all sample_events (start [1; 2; 3; 4]%nat) = Some sample.
Proof. vm_compute. reflexivity. Qed.

Lemma sample_reachable : reachable sample.
Proof. apply (exec_reachable [1; 2; 3; 4]%nat sample_events), sample_run. Qed.

Lemma sample_registered t dom b o : p_phase sample !! t ≠ Some (Registering dom b o).
Proof.
  change (p_phase sample) with
    (<[3%nat := Registered]> (<[2%nat := Registered]> (<[1%nat := Registered]> ∅)) : gmap nat phase).
  rewrite !lookup_insert_Some, lookup_empty. naive_solver.
Qed.

Lemma task_ready_exactly_once_witness : NoDup (p_ready sample) ∧ 3%nat ∉ p_ready sample.
Proof.
  destruct (task_ready_exactly_once sample sample_reachable) as [Hnd Hr].
  split; [exact Hnd|]. rewrite Hr. intros (_ & Hp & _). vm_compute in Hp. discriminate.
Defined.


Lemma satisfied_as_early_as_possible_witness :
  ∃ d, h_accesses (p_heap sample) !! 2%nat = Some d ∧ da_satisfied d = false.
Proof.
  eexists. split; [vm_compute; reflexivity|].
  rewrite (satisfied_as_early_as_possible sample 0 100 (mkSeq 100 None [0; 1; 2]%nat) 2 2 _
    sample_reachable); vm_compute; reflexivity.
Defined.

Lemma oldest_task_ready_witness :
  ∃ d, h_accesses (p_heap sample) !! 0%nat = Some d ∧ da_originator d ∈ p_ready sample.
Proof.
  eexists. split; [vm_compute; reflexivity|].
  eapply (oldest_task_ready sample 0 0 _ sample_reachable).
  - vm_compute. reflexivity.
  - apply sample_registered.
  - split; [vm_compute; reflexivity|]. eexists 100, _.
    split; [vm_compute; reflexivity|]. split; [vm_compute; reflexivity|].
    apply (bool_decide_unpack _); vm_compute; exact I.
  - lia.
Defined.

(** Task 4, a child of the main task, registers two accesses; task 1 finishes. *)
Definition sample_deps : list depinfo :=
  [mkDepinfo READ_ACCESS_TYPE false 100 no_reduction;
   mkDepinfo READWRITE_ACCESS_TYPE true 200 no_reduction].

Lemma register_handler_runs_protocol_witness :
  ∃ s' ready, registerTaskDataAccesses 1 0 4 sample_deps (p_heap sample) = Ok (p_heap s', ready) ∧
    rtc step sample s' ∧ (ready = true ↔ 4%nat ∈ p_ready s').
Proof.
  destruct (register_handler_runs_protocol 1 0 4 sample_deps sample sample_reachable)
    as (s' & ready & H1 & H2 & _ & H3).
  - eexists. split; [vm_compute; reflexivity|]. split; [discriminate|]. intros addr _. eexists.
    split; [vm_compute; reflexivity|reflexivity].
  - vm_compute. reflexivity.
  - intros t b o. apply sample_registered.
  - lia.
  - vm_compute. discriminate.
  - apply (bool_decide_unpack _). vm_compute. exact I.
  - exists s', ready. exact (conj H1 (conj H2 H3)).
Defined.

Lemma sample_accesses p (d : DataAccess (list nat)) :
  h_accesses (p_heap sample) !! p = Some d → (p < 3)%nat ∧ da_originator d = S p.
Proof.
  assert (∀ x, x ∈ map_to_list (h_accesses (p_heap sample)) → (x.1 < 3)%nat ∧ da_originator x.2 = S x.1)
    as Hall; [|intros Hp; by apply (Hall (p, d)), elem_of_map_to_list].
  apply Forall_forall. vm_compute map_to_list.
  repeat constructor.
Qed.

Lemma release_handler_runs_protocol_witness :
  ∃ s' new, unregisterTaskDataAccesses 3 1 (p_heap sample) = Ok (p_heap s', new) ∧
    rtc step sample s' ∧ p_ready s' = p_ready sample ++ new.
Proof.
  destruct (release_handler_runs_protocol 3 1 (mkTask (Some 0%nat) 0 [0%nat] false false) sample sample_reachable)
    as (s' & new & H1 & H2 & H3 & _).
  - apply (bool_decide_unpack _). vm_compute. exact I.
  - vm_compute. reflexivity.
  - split; [apply (bool_decide_unpack _); vm_compute; exact I|].
    intros a Ha. apply list_elem_of_singleton in Ha as ->. eexists 0%nat, _.
    split; [split; [vm_compute; reflexivity|]|vm_compute; reflexivity].
    eexists 100, _. split; [vm_compute; reflexivity|]. split; [vm_compute; reflexivity|].
    apply (bool_decide_unpack _). vm_compute. exact I.
  - intros p d Hp. destruct (sample_accesses p d Hp) as [Hlt ->].
    destruct p as [|[|[|p]]]; [..|lia]; vm_compute; eauto.
  - intros x r Hr. apply elem_of_map_to_list in Hr. vm_compute in Hr.
    apply list_elem_of_singleton in Hr. injection Hr as _ ->. vm_compute. reflexivity.
  - exists s', new. exact (conj H1 (conj H2 H3)).
Defined.

(** ** Repeated accesses of one task *)

(** A heap with two tasks and no accesses, and the registration of the first, then the second. *)
Definition two_tasks : heap (list nat) := p_heap (start [1; 2]%nat).

Definition register_both (deps1 deps2 : list depinfo) : res (heap (list nat) * bool * bool) :=
  r1 ← registerTaskDataAccesses 10 0 1 deps1 two_tasks;
  r2 ← registerTaskDataAccesses 10 0 2 deps2 r1.1;
  Ok (r2.1, r1.2, r2.2).

Definition dep (t : DataAccessType) (weak : bool) : depinfo := mkDepinfo t weak 100 no_reduction.

(** A task that declares a write and then a read of the same address ends up with a read
    access, so that a reader registered after it is ready at the same time as the writer. *)
Theorem write_then_read_loses_the_write :
  ∃ h d, register_both [dep WRITE_ACCESS_TYPE false; dep READ_ACCESS_TYPE false]
                       [dep READ_ACCESS_TYPE false] = Ok (h, true, true) ∧
    h_accesses h !! 0%nat = Some d ∧ da_originator d = 1%nat ∧ da_type d = READ_ACCESS_TYPE.
Proof. eexists _, _. split; [vm_compute; reflexivity|]. split; [vm_compute; reflexivity|]. split; reflexivity. Qed.

(** A task that declares a weak and then a strong access of the same type to an address
    that another task holds is ready at once, while its strong access is not satisfied; when
    the holder finishes, the predecessor count of the task becomes negative. *)
Theorem weak_then_strong_does_not_wait :
  ∃ h d h' x, register_both [dep READWRITE_ACCESS_TYPE false]
                [dep READWRITE_ACCESS_TYPE true; dep READWRITE_ACCESS_TYPE false] = Ok (h, true, true) ∧
    h_accesses h !! 1%nat = Some d ∧ da_originator d = 2%nat ∧ da_weak d = false ∧
    da_satisfied d = false ∧
    unregisterTaskDataAccesses 10 1 h = Ok (h', []) ∧ h_tasks h' !! 2%nat = Some x ∧
    t_predecessorCount x = -1.
Proof.
  eexists _, _, _, _. split; [vm_compute; reflexivity|]. split; [vm_compute; reflexivity|].
  split; [reflexivity|]. split; [reflexivity|]. split; [reflexivity|].
  split; [vm_compute; reflexivity|]. split; vm_compute; reflexivity.
Qed.

(** A task that declares a strong read and then a weak write of an address that nobody
    uses is not ready, although nothing is left that would make it so: its strong access is
    satisfied, and the weak one, which it does not even own, notifies nobody. *)
Theorem strong_read_then_weak_write_never_ready :
  ∃ h x, registerTaskDataAccesses 10 0 1 [dep READ_ACCESS_TYPE false; dep WRITE_ACCESS_TYPE true] two_tasks
           = Ok (h, false) ∧
    pending_total 1 h = 0%nat ∧ h_tasks h !! 1%nat = Some x ∧ t_predecessorCount x = 1 ∧
    il_elems (t_dataAccesses x) = [0%nat].
Proof.
  eexists _, _. split; [vm_compute; reflexivity|]. split; [vm_compute; reflexivity|].
  split; [vm_compute; reflexivity|]. split; vm_compute; reflexivity.
Qed.

(** A task that declares a weak readwrite and then a strong read of an address that
    nobody uses makes the upgrade dereference a null pointer. *)
Theorem weak_readwrite_then_read_dereferences_null :
  registerTaskDataAccesses 10 0 1 [dep READWRITE_ACCESS_TYPE true; dep READ_ACCESS_TYPE false] two_tasks
    = Err Dangling.
Proof. vm_compute. reflexivity. Qed.
