(* ===== verification/FragmentedAccess.v ===== *)
(** * Accesses of the fragmented region dependencies

    [DataAccess] of [src/dependencies/linear-regions-fragmented/DataAccess.hpp] and the effects of
    its status, [DataAccessStatusEffects] of [DataAccessRegistration.cpp].  The bits that only
    debug builds have are left out, and so is the identifier of the instrumentation. *)

From S2P Require Import Prelude Region Boost RegionMap DataAccessType.
Local Open Scope Z_scope.

(** [DataAccessObjectType.hpp] *)
Inductive DataAccessObjectType :=
  | access_type | fragment_type | taskwait_type | top_level_sink_type.

#[export] Instance DataAccessObjectType_eq_dec : EqDecision DataAccessObjectType.
Proof. solve_decision. Defined.

(** [DataAccessLink.hpp]: the accesses of an object type of a task; the link with a null task is
    [None] where a link is optional. *)
Record DataAccessLink := mkLink {
  link_task : nat;
  link_objectType : DataAccessObjectType;
}.

#[export] Instance DataAccessLink_eq_dec : EqDecision DataAccessLink.
Proof. solve_decision. Defined.

(** [ReductionSpecific.hpp] *)
Definition no_reduction_type_and_operator : Z := 2 ^ 31 - 1.
Definition no_reduction_index : Z := 2 ^ 31 - 1.

(** ** The status *)

(** The bits of [status_bit_coding]. *)
Record status_t := mkStatus {
  st_registered : bool;
  st_complete : bool;
  st_readSatisfied : bool;
  st_writeSatisfied : bool;
  st_concurrentSatisfied : bool;
  st_receivedReductionInfo : bool;
  st_allocatedReductionInfo : bool;
  st_receivedReductionCpuSet : bool;
  st_readInhibited : bool;
  st_concurrentInhibited : bool;
  st_reductionInfoInhibited : bool;
  st_hasSubaccesses : bool;
  st_inBottomMap : bool;
  st_topmost : bool;
  st_topLevel : bool;
}.

#[export] Instance status_t_eq_dec : EqDecision status_t.
Proof. solve_decision. Defined.

Definition no_status : status_t :=
  mkStatus false false false false false false false false
    false false false false false false false.

Definition set_st_registered (b : bool) (s : status_t) : status_t :=
  mkStatus b (st_complete s) (st_readSatisfied s) (st_writeSatisfied s) (st_concurrentSatisfied s)
    (st_receivedReductionInfo s) (st_allocatedReductionInfo s) (st_receivedReductionCpuSet s)
    (st_readInhibited s) (st_concurrentInhibited s) (st_reductionInfoInhibited s)
    (st_hasSubaccesses s) (st_inBottomMap s) (st_topmost s) (st_topLevel s).
Definition set_st_complete (b : bool) (s : status_t) : status_t :=
  mkStatus (st_registered s) b (st_readSatisfied s) (st_writeSatisfied s) (st_concurrentSatisfied s)
    (st_receivedReductionInfo s) (st_allocatedReductionInfo s) (st_receivedReductionCpuSet s)
    (st_readInhibited s) (st_concurrentInhibited s) (st_reductionInfoInhibited s)
    (st_hasSubaccesses s) (st_inBottomMap s) (st_topmost s) (st_topLevel s).
Definition set_st_readSatisfied (b : bool) (s : status_t) : status_t :=
  mkStatus (st_registered s) (st_complete s) b (st_writeSatisfied s) (st_concurrentSatisfied s)
    (st_receivedReductionInfo s) (st_allocatedReductionInfo s) (st_receivedReductionCpuSet s)
    (st_readInhibited s) (st_concurrentInhibited s) (st_reductionInfoInhibited s)
    (st_hasSubaccesses s) (st_inBottomMap s) (st_topmost s) (st_topLevel s).
Definition set_st_writeSatisfied (b : bool) (s : status_t) : status_t :=
  mkStatus (st_registered s) (st_complete s) (st_readSatisfied s) b (st_concurrentSatisfied s)
    (st_receivedReductionInfo s) (st_allocatedReductionInfo s) (st_receivedReductionCpuSet s)
    (st_readInhibited s) (st_concurrentInhibited s) (st_reductionInfoInhibited s)
    (st_hasSubaccesses s) (st_inBottomMap s) (st_topmost s) (st_topLevel s).
Definition set_st_concurrentSatisfied (b : bool) (s : status_t) : status_t :=
  mkStatus (st_registered s) (st_complete s) (st_readSatisfied s) (st_writeSatisfied s) b
    (st_receivedReductionInfo s) (st_allocatedReductionInfo s) (st_receivedReductionCpuSet s)
    (st_readInhibited s) (st_concurrentInhibited s) (st_reductionInfoInhibited s)
    (st_hasSubaccesses s) (st_inBottomMap s) (st_topmost s) (st_topLevel s).
Definition set_st_receivedReductionInfo (b : bool) (s : status_t) : status_t :=
  mkStatus (st_registered s) (st_complete s) (st_readSatisfied s) (st_writeSatisfied s)
    (st_concurrentSatisfied s) b (st_allocatedReductionInfo s) (st_receivedReductionCpuSet s)
    (st_readInhibited s) (st_concurrentInhibited s) (st_reductionInfoInhibited s)
    (st_hasSubaccesses s) (st_inBottomMap s) (st_topmost s) (st_topLevel s).
Definition set_st_allocatedReductionInfo (b : bool) (s : status_t) : status_t :=
  mkStatus (st_registered s) (st_complete s) (st_readSatisfied s) (st_writeSatisfied s)
    (st_concurrentSatisfied s) (st_receivedReductionInfo s) b (st_receivedReductionCpuSet s)
    (st_readInhibited s) (st_concurrentInhibited s) (st_reductionInfoInhibited s)
    (st_hasSubaccesses s) (st_inBottomMap s) (st_topmost s) (st_topLevel s).
Definition set_st_receivedReductionCpuSet (b : bool) (s : status_t) : status_t :=
  mkStatus (st_registered s) (st_complete s) (st_readSatisfied s) (st_writeSatisfied s)
    (st_concurrentSatisfied s) (st_receivedReductionInfo s) (st_allocatedReductionInfo s) b
    (st_readInhibited s) (st_concurrentInhibited s) (st_reductionInfoInhibited s)
    (st_hasSubaccesses s) (st_inBottomMap s) (st_topmost s) (st_topLevel s).
Definition set_st_readInhibited (b : bool) (s : status_t) : status_t :=
  mkStatus (st_registered s) (st_complete s) (st_readSatisfied s) (st_writeSatisfied s)
    (st_concurrentSatisfied s) (st_receivedReductionInfo s) (st_allocatedReductionInfo s)
    (st_receivedReductionCpuSet s) b (st_concurrentInhibited s) (st_reductionInfoInhibited s)
    (st_hasSubaccesses s) (st_inBottomMap s) (st_topmost s) (st_topLevel s).
Definition set_st_concurrentInhibited (b : bool) (s : status_t) : status_t :=
  mkStatus (st_registered s) (st_complete s) (st_readSatisfied s) (st_writeSatisfied s)
    (st_concurrentSatisfied s) (st_receivedReductionInfo s) (st_allocatedReductionInfo s)
    (st_receivedReductionCpuSet s) (st_readInhibited s) b (st_reductionInfoInhibited s)
    (st_hasSubaccesses s) (st_inBottomMap s) (st_topmost s) (st_topLevel s).
Definition set_st_reductionInfoInhibited (b : bool) (s : status_t) : status_t :=
  mkStatus (st_registered s) (st_complete s) (st_readSatisfied s) (st_writeSatisfied s)
    (st_concurrentSatisfied s) (st_receivedReductionInfo s) (st_allocatedReductionInfo s)
    (st_receivedReductionCpuSet s) (st_readInhibited s) (st_concurrentInhibited s) b
    (st_hasSubaccesses s) (st_inBottomMap s) (st_topmost s) (st_topLevel s).
Definition set_st_hasSubaccesses (b : bool) (s : status_t) : status_t :=
  mkStatus (st_registered s) (st_complete s) (st_readSatisfied s) (st_writeSatisfied s)
    (st_concurrentSatisfied s) (st_receivedReductionInfo s) (st_allocatedReductionInfo s)
    (st_receivedReductionCpuSet s) (st_readInhibited s) (st_concurrentInhibited s)
    (st_reductionInfoInhibited s) b (st_inBottomMap s) (st_topmost s) (st_topLevel s).
Definition set_st_inBottomMap (b : bool) (s : status_t) : status_t :=
  mkStatus (st_registered s) (st_complete s) (st_readSatisfied s) (st_writeSatisfied s)
    (st_concurrentSatisfied s) (st_receivedReductionInfo s) (st_allocatedReductionInfo s)
    (st_receivedReductionCpuSet s) (st_readInhibited s) (st_concurrentInhibited s)
    (st_reductionInfoInhibited s) (st_hasSubaccesses s) b (st_topmost s) (st_topLevel s).
Definition set_st_topmost (b : bool) (s : status_t) : status_t :=
  mkStatus (st_registered s) (st_complete s) (st_readSatisfied s) (st_writeSatisfied s)
    (st_concurrentSatisfied s) (st_receivedReductionInfo s) (st_allocatedReductionInfo s)
    (st_receivedReductionCpuSet s) (st_readInhibited s) (st_concurrentInhibited s)
    (st_reductionInfoInhibited s) (st_hasSubaccesses s) (st_inBottomMap s) b (st_topLevel s).
Definition set_st_topLevel (b : bool) (s : status_t) : status_t :=
  mkStatus (st_registered s) (st_complete s) (st_readSatisfied s) (st_writeSatisfied s)
    (st_concurrentSatisfied s) (st_receivedReductionInfo s) (st_allocatedReductionInfo s)
    (st_receivedReductionCpuSet s) (st_readInhibited s) (st_concurrentInhibited s)
    (st_reductionInfoInhibited s) (st_hasSubaccesses s) (st_inBottomMap s) (st_topmost s) b.

(** ** Accesses *)

Section access.
Context {B : Type} `{!DynamicBitset B}.

(** Reductions are identified by numbers; the sets of CPUs are [boost::dynamic_bitset], and the
    symbols an [std::bitset]. *)
Record DataAccess := mkDataAccess {
  da_type : DataAccessType;
  da_weak : bool;
  da_originator : nat;
  da_objectType : DataAccessObjectType;
  da_region : DataAccessRegion;
  da_status : status_t;
  da_next : option DataAccessLink;
  da_reductionTypeAndOperatorIndex : Z;
  da_symbols : N;
  da_reductionIndex : Z;
  da_reductionInfo : option nat;
  da_previousReductionInfo : option nat;
  da_reductionCpuSet : B;
  da_previousReductionCpuSet : B;
}.

(** The constructor, with the default status and next link. *)
Definition new_DataAccess (totalCPUs : nat) (objectType : DataAccessObjectType)
    (type : DataAccessType) (weak : bool) (originator : nat) (accessRegion : DataAccessRegion)
    (reductionTypeAndOperatorIndex reductionIndex : Z) : DataAccess :=
  mkDataAccess type weak originator objectType accessRegion no_status None
    reductionTypeAndOperatorIndex 0 reductionIndex None None
    (if decide (type = REDUCTION_ACCESS_TYPE) then bs_zero totalCPUs else bs_zero 0) (bs_zero 0).

(** *** Fields *)

Definition update_status (f : status_t → status_t) (a : DataAccess) : DataAccess :=
  mkDataAccess (da_type a) (da_weak a) (da_originator a) (da_objectType a) (da_region a)
    (f (da_status a)) (da_next a) (da_reductionTypeAndOperatorIndex a) (da_symbols a)
    (da_reductionIndex a) (da_reductionInfo a) (da_previousReductionInfo a)
    (da_reductionCpuSet a) (da_previousReductionCpuSet a).

Definition set_da_region (region : DataAccessRegion) (a : DataAccess) : DataAccess :=
  mkDataAccess (da_type a) (da_weak a) (da_originator a) (da_objectType a) region
    (da_status a) (da_next a) (da_reductionTypeAndOperatorIndex a) (da_symbols a)
    (da_reductionIndex a) (da_reductionInfo a) (da_previousReductionInfo a)
    (da_reductionCpuSet a) (da_previousReductionCpuSet a).

Definition setNext (next : option DataAccessLink) (a : DataAccess) : DataAccess :=
  mkDataAccess (da_type a) (da_weak a) (da_originator a) (da_objectType a) (da_region a)
    (da_status a) next (da_reductionTypeAndOperatorIndex a) (da_symbols a)
    (da_reductionIndex a) (da_reductionInfo a) (da_previousReductionInfo a)
    (da_reductionCpuSet a) (da_previousReductionCpuSet a).

(** [upgrade] *)
Definition upgrade (newWeak : bool) (newType : DataAccessType) (a : DataAccess) : DataAccess :=
  mkDataAccess newType newWeak (da_originator a) (da_objectType a) (da_region a)
    (da_status a) (da_next a) (da_reductionTypeAndOperatorIndex a) (da_symbols a)
    (da_reductionIndex a) (da_reductionInfo a) (da_previousReductionInfo a)
    (da_reductionCpuSet a) (da_previousReductionCpuSet a).

Definition addToSymbols (symbols : N) (a : DataAccess) : DataAccess :=
  mkDataAccess (da_type a) (da_weak a) (da_originator a) (da_objectType a) (da_region a)
    (da_status a) (da_next a) (da_reductionTypeAndOperatorIndex a) (N.lor (da_symbols a) symbols)
    (da_reductionIndex a) (da_reductionInfo a) (da_previousReductionInfo a)
    (da_reductionCpuSet a) (da_previousReductionCpuSet a).

Definition setReductionInfo (info : option nat) (a : DataAccess) : DataAccess :=
  mkDataAccess (da_type a) (da_weak a) (da_originator a) (da_objectType a) (da_region a)
    (da_status a) (da_next a) (da_reductionTypeAndOperatorIndex a) (da_symbols a)
    (da_reductionIndex a) info (da_previousReductionInfo a)
    (da_reductionCpuSet a) (da_previousReductionCpuSet a).

Definition setPreviousReductionInfo (info : option nat) (a : DataAccess) : DataAccess :=
  mkDataAccess (da_type a) (da_weak a) (da_originator a) (da_objectType a) (da_region a)
    (da_status a) (da_next a) (da_reductionTypeAndOperatorIndex a) (da_symbols a)
    (da_reductionIndex a) (da_reductionInfo a) info
    (da_reductionCpuSet a) (da_previousReductionCpuSet a).

Definition setReductionCpuSet (cpus : B) (a : DataAccess) : DataAccess :=
  mkDataAccess (da_type a) (da_weak a) (da_originator a) (da_objectType a) (da_region a)
    (da_status a) (da_next a) (da_reductionTypeAndOperatorIndex a) (da_symbols a)
    (da_reductionIndex a) (da_reductionInfo a) (da_previousReductionInfo a)
    cpus (da_previousReductionCpuSet a).

Definition setPreviousReductionCpuSet (cpus : B) (a : DataAccess) : DataAccess :=
  mkDataAccess (da_type a) (da_weak a) (da_originator a) (da_objectType a) (da_region a)
    (da_status a) (da_next a) (da_reductionTypeAndOperatorIndex a) (da_symbols a)
    (da_reductionIndex a) (da_reductionInfo a) (da_previousReductionInfo a)
    (da_reductionCpuSet a) cpus.

#[export] Program Instance DataAccess_content : RegionContent DataAccess := {|
  getAccessRegion := da_region;
  setAccessRegion := set_da_region;
|}.
Solve All Obligations with done.

(** *** Setters and observers *)

Definition setRegistered : DataAccess → DataAccess := update_status (set_st_registered true).
Definition clearRegistered : DataAccess → DataAccess := update_status (set_st_registered false).
Definition setComplete : DataAccess → DataAccess := update_status (set_st_complete true).
Definition setReadSatisfied : DataAccess → DataAccess := update_status (set_st_readSatisfied true).
Definition setWriteSatisfied : DataAccess → DataAccess := update_status (set_st_writeSatisfied true).
Definition setConcurrentSatisfied : DataAccess → DataAccess :=
  update_status (set_st_concurrentSatisfied true).
Definition setReceivedReductionInfo : DataAccess → DataAccess :=
  update_status (set_st_receivedReductionInfo true).
Definition setAllocatedReductionInfo : DataAccess → DataAccess :=
  update_status (set_st_allocatedReductionInfo true).
Definition setReceivedReductionCpuSet : DataAccess → DataAccess :=
  update_status (set_st_receivedReductionCpuSet true).
Definition unsetCanPropagateReadSatisfiability : DataAccess → DataAccess :=
  update_status (set_st_readInhibited true).
Definition unsetCanPropagateConcurrentSatisfiability : DataAccess → DataAccess :=
  update_status (set_st_concurrentInhibited true).
Definition unsetCanPropagateReductionInfo : DataAccess → DataAccess :=
  update_status (set_st_reductionInfoInhibited true).
Definition setHasSubaccesses : DataAccess → DataAccess := update_status (set_st_hasSubaccesses true).
Definition unsetHasSubaccesses : DataAccess → DataAccess :=
  update_status (set_st_hasSubaccesses false).
Definition setInBottomMap : DataAccess → DataAccess := update_status (set_st_inBottomMap true).
Definition unsetInBottomMap : DataAccess → DataAccess := update_status (set_st_inBottomMap false).
Definition setTopmost : DataAccess → DataAccess := update_status (set_st_topmost true).
Definition setTopLevel : DataAccess → DataAccess := update_status (set_st_topLevel true).

Definition isRegistered (a : DataAccess) : bool := st_registered (da_status a).
Definition complete (a : DataAccess) : bool := st_complete (da_status a).
Definition readSatisfied (a : DataAccess) : bool := st_readSatisfied (da_status a).
Definition writeSatisfied (a : DataAccess) : bool := st_writeSatisfied (da_status a).
Definition concurrentSatisfied (a : DataAccess) : bool := st_concurrentSatisfied (da_status a).
Definition receivedReductionInfo (a : DataAccess) : bool := st_receivedReductionInfo (da_status a).
Definition allocatedReductionInfo (a : DataAccess) : bool := st_allocatedReductionInfo (da_status a).
Definition receivedReductionCpuSet (a : DataAccess) : bool := st_receivedReductionCpuSet (da_status a).
Definition canPropagateReadSatisfiability (a : DataAccess) : bool :=
  negb (st_readInhibited (da_status a)).
Definition canPropagateConcurrentSatisfiability (a : DataAccess) : bool :=
  negb (st_concurrentInhibited (da_status a)).
Definition canPropagateReductionInfo (a : DataAccess) : bool :=
  negb (st_reductionInfoInhibited (da_status a)).
Definition hasSubaccesses (a : DataAccess) : bool := st_hasSubaccesses (da_status a).
Definition isInBottomMap (a : DataAccess) : bool := st_inBottomMap (da_status a).
Definition isTopmost (a : DataAccess) : bool := st_topmost (da_status a).
Definition isTopLevel (a : DataAccess) : bool := st_topLevel (da_status a).
Definition hasNext (a : DataAccess) : bool := bool_decide (da_next a ≠ None).

(** Whether a set of CPUs has bits at all. *)
Definition bs_sized (cpus : B) : bool := bool_decide (bs_bits cpus ≠ []).

(** [inheritFragmentStatus] *)
Definition inheritFragmentStatus (other a : DataAccess) : DataAccess :=
  let a := if readSatisfied other then setReadSatisfied a else a in
  let a := if writeSatisfied other then setWriteSatisfied a else a in
  let a := if concurrentSatisfied other then setConcurrentSatisfied a else a in
  let a :=
    if receivedReductionInfo other
    then setPreviousReductionInfo (da_previousReductionInfo other) (setReceivedReductionInfo a)
    else a in
  let a :=
    if bool_decide (da_reductionInfo other ≠ None)
    then setReductionInfo (da_reductionInfo other) a else a in
  let a :=
    if receivedReductionCpuSet other
    then setPreviousReductionCpuSet (da_previousReductionCpuSet other) (setReceivedReductionCpuSet a)
    else a in
  let a :=
    if bs_sized (da_reductionCpuSet other)
    then setReductionCpuSet (da_reductionCpuSet other) a else a in
  if complete other then setComplete a else a.

(** [satisfied] *)
Definition satisfied (a : DataAccess) : bool :=
  let receivedReductionStructures :=
    receivedReductionInfo a &&
    (bool_decide (da_previousReductionInfo a = None) || receivedReductionCpuSet a) in
  match da_type a with
  | READ_ACCESS_TYPE => readSatisfied a && receivedReductionStructures
  | CONCURRENT_ACCESS_TYPE => concurrentSatisfied a && receivedReductionStructures
  | REDUCTION_ACCESS_TYPE =>
      receivedReductionInfo a &&
      (writeSatisfied a ||
       bool_decide (da_reductionInfo a ≠ None ∧ da_reductionInfo a = da_previousReductionInfo a))
  | _ => readSatisfied a && writeSatisfied a && receivedReductionStructures
  end.

(** ** The effects of the status *)

Record DataAccessStatusEffects := mkEffects {
  e_isRegistered : bool;
  e_isSatisfied : bool;
  e_enforcesDependency : bool;
  e_hasNext : bool;
  e_propagatesReadSatisfiabilityToNext : bool;
  e_propagatesWriteSatisfiabilityToNext : bool;
  e_propagatesConcurrentSatisfiabilityToNext : bool;
  e_propagatesReductionInfoToNext : bool;
  e_propagatesReductionCpuSetToNext : bool;
  e_makesNextTopmost : bool;
  e_propagatesTopLevel : bool;
  e_propagatesReadSatisfiabilityToFragments : bool;
  e_propagatesWriteSatisfiabilityToFragments : bool;
  e_propagatesConcurrentSatisfiabilityToFragments : bool;
  e_propagatesReductionInfoToFragments : bool;
  e_propagatesReductionCpuSetToFragments : bool;
  e_closesPreviousReduction : bool;
  e_linksBottomMapAccessesToNextAndInhibitsPropagation : bool;
  e_isRemovable : bool;
}.

(** The default constructor. *)
Definition no_effects : DataAccessStatusEffects :=
  mkEffects false false false false false false false false false false false false false false
    false false false false false.

(** A write or readwrite access. *)
Definition writes (a : DataAccess) : bool :=
  match da_type a with WRITE_ACCESS_TYPE | READWRITE_ACCESS_TYPE => true | _ => false end.

Definition hasReductionInfo (a : DataAccess) : bool :=
  receivedReductionInfo a || allocatedReductionInfo a.

(** The read, write, concurrent, reduction info and reduction CPU set parts of "Propagation to
    next", for an access with a next one. *)
Definition propagates_read (a : DataAccess) : bool :=
  if hasSubaccesses a then
    canPropagateReadSatisfiability a && readSatisfied a && bool_decide (da_type a = READ_ACCESS_TYPE)
  else match da_objectType a with
  | access_type =>
      canPropagateReadSatisfiability a && readSatisfied a &&
      (bool_decide (da_type a = READ_ACCESS_TYPE) || complete a)
  | _ => canPropagateReadSatisfiability a && readSatisfied a
  end.

Definition propagates_write (a : DataAccess) : bool :=
  if hasSubaccesses a then false
  else match da_objectType a with
  | access_type => writeSatisfied a && complete a
  | _ => writeSatisfied a
  end.

Definition propagates_concurrent (a : DataAccess) : bool :=
  if hasSubaccesses a then
    canPropagateConcurrentSatisfiability a && concurrentSatisfied a &&
    bool_decide (da_type a = CONCURRENT_ACCESS_TYPE)
  else match da_objectType a with
  | access_type =>
      canPropagateConcurrentSatisfiability a && concurrentSatisfied a &&
      (bool_decide (da_type a = CONCURRENT_ACCESS_TYPE) || complete a)
  | _ => canPropagateConcurrentSatisfiability a && concurrentSatisfied a
  end.

Definition propagates_reductionInfo (a : DataAccess) : bool :=
  if hasSubaccesses a then canPropagateReductionInfo a && hasReductionInfo a && negb (writes a)
  else match da_objectType a with
  | access_type => canPropagateReductionInfo a && hasReductionInfo a && (negb (writes a) || complete a)
  | _ => canPropagateReductionInfo a && hasReductionInfo a
  end.

Definition propagates_reductionCpuSet (a : DataAccess) : bool :=
  if hasSubaccesses a then false
  else
    bool_decide (da_type a = REDUCTION_ACCESS_TYPE) && complete a && receivedReductionInfo a &&
    (bool_decide (da_reductionInfo a ≠ da_previousReductionInfo a) || receivedReductionCpuSet a).

Definition closesPreviousReduction (a : DataAccess) : bool :=
  writeSatisfied a && receivedReductionInfo a && receivedReductionCpuSet a &&
  bool_decide (da_previousReductionInfo a ≠ None) &&
  ((bool_decide (da_objectType a = taskwait_type) &&
    bool_decide (da_type a ≠ REDUCTION_ACCESS_TYPE)) ||
   (bool_decide (da_objectType a = access_type) &&
    bool_decide (da_reductionInfo a ≠ da_previousReductionInfo a))).

Definition isRemovable (a : DataAccess) : bool :=
  isTopmost a && readSatisfied a && writeSatisfied a && receivedReductionInfo a &&
  (bool_decide (da_previousReductionInfo a = None) || receivedReductionCpuSet a) &&
  complete a &&
  (negb (isInBottomMap a) || hasNext a || bool_decide (da_objectType a = taskwait_type) ||
   bool_decide (da_objectType a = top_level_sink_type)).

Definition enforcesDependency (a : DataAccess) : bool :=
  negb (da_weak a) && negb (satisfied a) &&
  negb (bool_decide (da_type a = REDUCTION_ACCESS_TYPE) && hasReductionInfo a) &&
  bool_decide (da_objectType a = access_type).

Section effects.
(** [Task::getParent] *)
Variable getParent : nat → option nat.

(** The task whose children or fragments an object type of a task is among. *)
Definition domainParent (task : nat) (objectType : DataAccessObjectType) : option nat :=
  match objectType with access_type => getParent task | _ => Some task end.

Definition makesNextTopmost (a : DataAccess) : bool :=
  match da_next a with
  | Some next =>
      isRemovable a &&
      bool_decide (domainParent (da_originator a) (da_objectType a) =
                   domainParent (link_task next) (link_objectType next))
  | None => false
  end.

Definition propagatesTopLevel (a : DataAccess) : bool :=
  match da_next a with
  | Some next => isTopLevel a && bool_decide (getParent (da_originator a) = getParent (link_task next))
  | None => false
  end.

(** [DataAccessStatusEffects(DataAccess const *access)] *)
Definition effects (a : DataAccess) : DataAccessStatusEffects :=
  {| e_isRegistered := isRegistered a;
     e_isSatisfied := satisfied a;
     e_enforcesDependency := enforcesDependency a;
     e_hasNext := hasNext a;
     e_propagatesReadSatisfiabilityToNext := hasNext a && propagates_read a;
     e_propagatesWriteSatisfiabilityToNext := hasNext a && propagates_write a;
     e_propagatesConcurrentSatisfiabilityToNext := hasNext a && propagates_concurrent a;
     e_propagatesReductionInfoToNext := hasNext a && propagates_reductionInfo a;
     e_propagatesReductionCpuSetToNext := hasNext a && propagates_reductionCpuSet a;
     e_makesNextTopmost := makesNextTopmost a;
     e_propagatesTopLevel := propagatesTopLevel a;
     e_propagatesReadSatisfiabilityToFragments := hasSubaccesses a && readSatisfied a;
     e_propagatesWriteSatisfiabilityToFragments := hasSubaccesses a && writeSatisfied a;
     e_propagatesConcurrentSatisfiabilityToFragments := hasSubaccesses a && concurrentSatisfied a;
     e_propagatesReductionInfoToFragments := hasSubaccesses a && hasReductionInfo a;
     e_propagatesReductionCpuSetToFragments := hasSubaccesses a && receivedReductionCpuSet a;
     e_closesPreviousReduction := closesPreviousReduction a;
     e_linksBottomMapAccessesToNextAndInhibitsPropagation :=
       hasNext a && complete a && hasSubaccesses a;
     e_isRemovable := isRemovable a |}.
End effects.
End access.

Arguments DataAccess : clear implicits.
