(* ===== verification/ReductionInfo.v ===== *)
(** * Reductions

    [src/dependencies/linear-regions-fragmented/ReductionInfo.hpp] and [ReductionInfo.cpp]: the
    private storage of the CPUs that take part in a reduction, and its combination into the
    original region.  The functions that initialize and combine are those of the user program:
    what is recorded is the addresses that they are called with. *)

From S2P Require Import Prelude Region Boost.
Local Open Scope Z_scope.

Section reduction_info.
Context {B : Type} `{!DynamicBitset B}.

Record ReductionInfo := mkReductionInfo {
  ri_paddedRegionSize : Z;
  ri_region : DataAccessRegion;
  ri_storage : DataAccessRegion;
  ri_isCpuStorageInitialized : B;
  ri_sizeCounter : Z;
  ri_typeAndOperatorIndex : Z;
}.

(** The size of the storage of one CPU: whole cache lines. *)
Definition paddedRegionSize (cacheLineSize : Z) (region : DataAccessRegion) : Z :=
  wrap64 (wrap64 (rlength region + cacheLineSize - 1) / cacheLineSize * cacheLineSize).

(** The constructor; [storage] is what [mmap] returns, [None] for [MAP_FAILED]. *)
Definition new_ReductionInfo (totalCPUs : nat) (cacheLineSize : Z) (region : DataAccessRegion)
    (typeAndOperatorIndex : Z) (storage : option Z) : res ReductionInfo :=
  let padded := paddedRegionSize cacheLineSize region in
  let size := wrap64 (padded * Z.of_nat totalCPUs) in
  match storage with
  | None => Err (Fatal "Cannot allocate")
  | Some address =>
      Ok (mkReductionInfo padded region (mkRegion address size) (bs_zero totalCPUs)
            (rlength region) typeAndOperatorIndex)
  end.

(** The start of the storage of a CPU. *)
Definition cpu_storage (i : nat) (info : ReductionInfo) : Z :=
  wrap64 (startAddress (ri_storage info) + ri_paddedRegionSize info * Z.of_nat i).

(** [getCPUPrivateStorage]: the storage, and the call of the initialization function if it is
    the first time (the address and the size). *)
Definition getCPUPrivateStorage (virtualCpuId : nat) (info : ReductionInfo) :
    res (ReductionInfo * DataAccessRegion * list (Z * Z)) :=
  let storage := cpu_storage virtualCpuId info in
  initialized ← get (bs_bits (ri_isCpuStorageInitialized info) !! virtualCpuId);
  let size := rlength (ri_region info) in
  if initialized : bool then Ok (info, mkRegion storage size, [])
  else
    Ok (mkReductionInfo (ri_paddedRegionSize info) (ri_region info) (ri_storage info)
          (bs_set virtualCpuId true (ri_isCpuStorageInitialized info)) (ri_sizeCounter info)
          (ri_typeAndOperatorIndex info),
        mkRegion storage size, [(storage, size)]).

(** The loop of [combineRegion] over the CPUs: the calls of the combination function (the
    original address, the address in the storage of the CPU, the size). *)
Fixpoint combine_cpus (cpus : list nat) (region : DataAccessRegion) (reductionCpuSet : B)
    (info : ReductionInfo) : res (list (Z * Z * Z)) :=
  match cpus with
  | [] => Ok []
  | i :: cpus =>
      used ← get (bs_bits reductionCpuSet !! i);
      calls ← combine_cpus cpus region reductionCpuSet info;
      let offset := startAddress region - startAddress (ri_region info) in
      Ok (if used : bool
          then (wrap64 (startAddress (ri_region info) + offset),
                wrap64 (cpu_storage i info + offset), rlength region) :: calls
          else calls)
  end.

(** [combineRegion]: the calls and whether everything has been combined. *)
Definition combineRegion (totalCPUs : nat) (region : DataAccessRegion) (reductionCpuSet : B)
    (info : ReductionInfo) : res (ReductionInfo * list (Z * Z * Z) * bool) :=
  calls ← combine_cpus (seq 0 totalCPUs) region reductionCpuSet info;
  let counter := wrap64 (ri_sizeCounter info - rlength region) in
  Ok (mkReductionInfo (ri_paddedRegionSize info) (ri_region info) (ri_storage info)
        (ri_isCpuStorageInitialized info) counter (ri_typeAndOperatorIndex info),
      calls, counter =? 0).
End reduction_info.

Arguments ReductionInfo : clear implicits.
