(* ===== verification/FragmentedWorld.v ===== *)
(** * Fragmented region dependencies: the data

    [src/dependencies/linear-regions-fragmented]: [TaskDataAccesses.hpp], [BottomMapEntry.hpp],
    [CPUDependencyData.hpp], and what the dependency system uses of [Task].  A task owns four maps:
    its accesses, the fragments through which they reach its children, the fragments of a taskwait
    or a top level sink, and the bottom map with the last access of its children to each address.
    A pointer to an access is the task and the map that hold it and its start address. *)

From S2P Require Import Prelude Region Boost RegionMap StateMonad IntrusiveRegionMap.
From S2P Require Import DataAccessType FragmentedAccess ReductionInfo.
Local Open Scope Z_scope.

(** ** Data *)

Record BottomMapEntry := mkBottomMapEntry {
  bme_region : DataAccessRegion;
  bme_link : DataAccessLink;
  bme_accessType : DataAccessType;
}.

#[export] Program Instance BottomMapEntry_content : RegionContent BottomMapEntry := {|
  getAccessRegion := bme_region;
  setAccessRegion region e := mkBottomMapEntry region (bme_link e) (bme_accessType e);
|}.
Solve All Obligations with done.

(** What the machine gives: the number of CPUs, the size of a cache line, and the results of the
    successive calls of [mmap]. *)
Record machine := mkMachine {
  mc_totalCPUs : nat;
  mc_cacheLineSize : Z;
  mc_mmap : nat → Z → option Z;
}.

Section world.
Context {B : Type} `{!DynamicBitset B}.
Context {MA : Type} `{!AvlSet (DataAccess B) node_key MA}.
Context {MB : Type} `{!AvlSet BottomMapEntry node_key MB}.

Record UpdateOperation := mkUpdateOperation {
  uo_target : DataAccessLink;
  uo_region : DataAccessRegion;
  uo_makeReadSatisfied : bool;
  uo_makeWriteSatisfied : bool;
  uo_makeConcurrentSatisfied : bool;
  uo_makeTopmost : bool;
  uo_makeTopLevel : bool;
  uo_setReductionInfo : bool;
  uo_reductionInfo : option nat;
  uo_reductionCpuSet : B;
}.

(** [UpdateOperation::empty] *)
Definition uo_empty (o : UpdateOperation) : bool :=
  negb (uo_makeReadSatisfied o) && negb (uo_makeWriteSatisfied o) &&
  negb (uo_makeConcurrentSatisfied o) && negb (uo_makeTopmost o) && negb (uo_makeTopLevel o) &&
  negb (uo_setReductionInfo o) && negb (bs_sized (uo_reductionCpuSet o)).

Record CPUDependencyData := mkCPUDependencyData {
  cd_satisfiedOriginators : list nat;
  cd_delayedOperations : list UpdateOperation;
  cd_removableTasks : list nat;
}.

Definition no_dependency_data : CPUDependencyData := mkCPUDependencyData [] [] [].

Record TaskDataAccesses := mkTaskDataAccesses {
  tda_accesses : MA;
  tda_accessFragments : MA;
  tda_taskwaitFragments : MA;
  tda_subaccessBottomMap : MB;
  tda_removalBlockers : Z;
  tda_liveTaskwaitFragmentCount : Z;
}.

Definition new_TaskDataAccesses : TaskDataAccesses :=
  mkTaskDataAccesses avl_empty avl_empty avl_empty avl_empty 0 0.

(** What the dependency system uses of [Task]. *)
Record Task := mkTask {
  t_parent : option nat;
  t_dataAccesses : TaskDataAccesses;
  t_predecessorCount : Z;
  t_countdownToBeWokenUp : Z;
  t_final : bool;
  t_taskloop : bool;
}.

(** The tasks, the reductions, the dependency data of the thread that runs, and the calls made
    to other components: the combinations, the tasks handed to the scheduler (and whether by a
    busy thread), and the tasks handed to [TaskFinalization::disposeOrUnblockTask]. *)
Record world := mkWorld {
  w_tasks : gmap nat Task;
  w_reductions : gmap nat (ReductionInfo B);
  w_nextReduction : nat;
  w_dependencyData : CPUDependencyData;
  w_combinations : list (Z * Z * Z);
  w_scheduled : list (nat * bool);
  w_disposed : list nat;
}.

(** ** Fields *)

Definition set_w_tasks (l : gmap nat Task) (w : world) : world :=
  mkWorld l (w_reductions w) (w_nextReduction w) (w_dependencyData w) (w_combinations w)
    (w_scheduled w) (w_disposed w).
Definition set_w_reductions (l : gmap nat (ReductionInfo B)) (next : nat) (w : world) : world :=
  mkWorld (w_tasks w) l next (w_dependencyData w) (w_combinations w) (w_scheduled w) (w_disposed w).
Definition set_w_dependencyData (d : CPUDependencyData) (w : world) : world :=
  mkWorld (w_tasks w) (w_reductions w) (w_nextReduction w) d (w_combinations w) (w_scheduled w)
    (w_disposed w).
Definition add_w_combinations (l : list (Z * Z * Z)) (w : world) : world :=
  mkWorld (w_tasks w) (w_reductions w) (w_nextReduction w) (w_dependencyData w)
    (w_combinations w ++ l) (w_scheduled w) (w_disposed w).
Definition add_w_scheduled (t : nat) (fromBusyThread : bool) (w : world) : world :=
  mkWorld (w_tasks w) (w_reductions w) (w_nextReduction w) (w_dependencyData w) (w_combinations w)
    (w_scheduled w ++ [(t, fromBusyThread)]) (w_disposed w).
Definition add_w_disposed (t : nat) (w : world) : world :=
  mkWorld (w_tasks w) (w_reductions w) (w_nextReduction w) (w_dependencyData w) (w_combinations w)
    (w_scheduled w) (w_disposed w ++ [t]).

Definition set_t_dataAccesses (d : TaskDataAccesses) (t : Task) : Task :=
  mkTask (t_parent t) d (t_predecessorCount t) (t_countdownToBeWokenUp t) (t_final t) (t_taskloop t).
Definition set_t_predecessorCount (c : Z) (t : Task) : Task :=
  mkTask (t_parent t) (t_dataAccesses t) c (t_countdownToBeWokenUp t) (t_final t) (t_taskloop t).
Definition set_t_countdownToBeWokenUp (c : Z) (t : Task) : Task :=
  mkTask (t_parent t) (t_dataAccesses t) (t_predecessorCount t) c (t_final t) (t_taskloop t).

Definition set_removalBlockers (c : Z) (d : TaskDataAccesses) : TaskDataAccesses :=
  mkTaskDataAccesses (tda_accesses d) (tda_accessFragments d) (tda_taskwaitFragments d)
    (tda_subaccessBottomMap d) c (tda_liveTaskwaitFragmentCount d).
Definition set_liveTaskwaitFragmentCount (c : Z) (d : TaskDataAccesses) : TaskDataAccesses :=
  mkTaskDataAccesses (tda_accesses d) (tda_accessFragments d) (tda_taskwaitFragments d)
    (tda_subaccessBottomMap d) (tda_removalBlockers d) c.
Definition set_bottomMap (m : MB) (d : TaskDataAccesses) : TaskDataAccesses :=
  mkTaskDataAccesses (tda_accesses d) (tda_accessFragments d) (tda_taskwaitFragments d)
    m (tda_removalBlockers d) (tda_liveTaskwaitFragmentCount d).

(** The map that holds the objects of a type. *)
Definition objects_map (o : DataAccessObjectType) (d : TaskDataAccesses) : MA :=
  match o with
  | access_type => tda_accesses d
  | fragment_type => tda_accessFragments d
  | taskwait_type | top_level_sink_type => tda_taskwaitFragments d
  end.

Definition set_objects_map (o : DataAccessObjectType) (m : MA) (d : TaskDataAccesses) :
    TaskDataAccesses :=
  match o with
  | access_type =>
      mkTaskDataAccesses m (tda_accessFragments d) (tda_taskwaitFragments d)
        (tda_subaccessBottomMap d) (tda_removalBlockers d) (tda_liveTaskwaitFragmentCount d)
  | fragment_type =>
      mkTaskDataAccesses (tda_accesses d) m (tda_taskwaitFragments d)
        (tda_subaccessBottomMap d) (tda_removalBlockers d) (tda_liveTaskwaitFragmentCount d)
  | taskwait_type | top_level_sink_type =>
      mkTaskDataAccesses (tda_accesses d) (tda_accessFragments d) m
        (tda_subaccessBottomMap d) (tda_removalBlockers d) (tda_liveTaskwaitFragmentCount d)
  end.

(** ** Tasks *)

Definition readTask (t : nat) : stM world Task := st_read (λ w, get (w_tasks w !! t)).
Definition updateTask (t : nat) (f : Task → Task) : stM world unit :=
  x ← readTask t; st_modify (λ w, set_w_tasks (<[t := f x]> (w_tasks w)) w).
Definition updateAccesses (t : nat) (f : TaskDataAccesses → TaskDataAccesses) : stM world unit :=
  updateTask t (λ x, set_t_dataAccesses (f (t_dataAccesses x)) x).

Definition getParent (w : world) (t : nat) : option nat := w_tasks w !! t ≫= t_parent.

(** [Task::increasePredecessors], [Task::decreasePredecessors] *)
Definition increasePredecessors (t : nat) (amount : Z) : stM world unit :=
  updateTask t (λ x, set_t_predecessorCount (wrap_int (t_predecessorCount x + amount)) x).
Definition decreasePredecessors (t : nat) (amount : Z) : stM world bool :=
  updateTask t (λ x, set_t_predecessorCount (wrap_int (t_predecessorCount x - amount)) x);;
  x ← readTask t; mret (t_predecessorCount x =? 0).

(** [Task::increaseRemovalBlockingCount], [Task::decreaseRemovalBlockingCount] *)
Definition increaseRemovalBlockingCount (t : nat) : stM world unit :=
  updateTask t (λ x, set_t_countdownToBeWokenUp (wrap_int (t_countdownToBeWokenUp x + 1)) x).
Definition decreaseRemovalBlockingCount (t : nat) : stM world bool :=
  updateTask t (λ x, set_t_countdownToBeWokenUp (wrap_int (t_countdownToBeWokenUp x - 1)) x);;
  x ← readTask t; mret (t_countdownToBeWokenUp x =? 0).

(** ** Maps and accesses *)

Definition objects_of (t : nat) (o : DataAccessObjectType) : map_ref world MA :=
  mkMapRef
    (λ w, x ← get (w_tasks w !! t); Ok (objects_map o (t_dataAccesses x)))
    (λ m w,
       match w_tasks w !! t with
       | Some x =>
           set_w_tasks (<[t := set_t_dataAccesses (set_objects_map o m (t_dataAccesses x)) x]>
                          (w_tasks w)) w
       | None => w
       end).

Definition bottomMap_of (t : nat) : map_ref world MB :=
  mkMapRef
    (λ w, x ← get (w_tasks w !! t); Ok (tda_subaccessBottomMap (t_dataAccesses x)))
    (λ m w,
       match w_tasks w !! t with
       | Some x =>
           set_w_tasks (<[t := set_t_dataAccesses (set_bottomMap m (t_dataAccesses x)) x]>
                          (w_tasks w)) w
       | None => w
       end).

Record access_ref := mkRef {
  ar_task : nat;
  ar_objectType : DataAccessObjectType;
  ar_start : Z;
}.

Definition ref_map (a : access_ref) : map_ref world MA := objects_of (ar_task a) (ar_objectType a).
Definition readAccess (a : access_ref) : stM world (DataAccess B) :=
  map_deref (ref_map a) (ar_start a).
Definition updateAccess (a : access_ref) (f : DataAccess B → DataAccess B) : stM world unit :=
  map_assign (ref_map a) (ar_start a) f.

(** [DataAccessStatusEffects(access)] *)
Definition readEffects (a : access_ref) : stM world DataAccessStatusEffects :=
  d ← readAccess a; w ← st_get; mret (effects (getParent w) d).

(** ** Dependency data *)

Definition updateDependencyData (f : CPUDependencyData → CPUDependencyData) : stM world unit :=
  st_modify (λ w, set_w_dependencyData (f (w_dependencyData w)) w).

Definition push_satisfiedOriginator (t : nat) : stM world unit :=
  updateDependencyData (λ d,
    mkCPUDependencyData (cd_satisfiedOriginators d ++ [t]) (cd_delayedOperations d)
      (cd_removableTasks d)).
Definition push_delayedOperation (o : UpdateOperation) : stM world unit :=
  updateDependencyData (λ d,
    mkCPUDependencyData (cd_satisfiedOriginators d) (cd_delayedOperations d ++ [o])
      (cd_removableTasks d)).
Definition push_removableTask (t : nat) : stM world unit :=
  updateDependencyData (λ d,
    mkCPUDependencyData (cd_satisfiedOriginators d) (cd_delayedOperations d)
      (cd_removableTasks d ++ [t])).

(** A [CPUDependencyData] on the stack, dropped at the end of its scope. *)
Definition with_local_dependency_data {A} (m : stM world A) : stM world A :=
  d ← st_gets w_dependencyData;
  st_modify (set_w_dependencyData no_dependency_data);;
  a ← m;
  st_modify (set_w_dependencyData d);;
  mret a.
End world.

Arguments UpdateOperation : clear implicits.
Arguments CPUDependencyData : clear implicits.
Arguments TaskDataAccesses : clear implicits.
Arguments Task : clear implicits.
Arguments world : clear implicits.
