(* ===== verification/FragmentedDeps.v ===== *)
(** * Fragmented region dependencies: the operations

    [src/dependencies/linear-regions-fragmented/DataAccessRegistration.cpp], the default
    implementation of dependencies.  Every change of an access compares the effects of its status
    before and after ([handleDataAccessStatusChanges]); what has to be propagated to other tasks is
    queued as update operations.  The operations of [DataAccessRegistration.hpp], those of
    [RegisterDependencies.cpp] and [ReleaseDirective.cpp], and [Reductions.cpp]. *)

From S2P Require Import Prelude Region Boost RegionMap StateMonad IntrusiveRegionMap.
From S2P Require Import DataAccessType FragmentedAccess ReductionInfo FragmentedWorld.
Local Open Scope Z_scope.

Section deps.
Context {B : Type} `{!DynamicBitset B}.
Context {MA : Type} `{!AvlSet (DataAccess B) node_key MA}.
Context {MB : Type} `{!AvlSet BottomMapEntry node_key MB}.
Context (mc : machine).

Notation W := (world B MA MB).
Notation Effects := DataAccessStatusEffects.

(** ** The parts of [handleDataAccessStatusChanges] *)

(** "Registration" *)
Definition handle_registration (initial updated : Effects) (a : access_ref) : stM W unit :=
  st_when (xorb (e_isRegistered initial) (e_isRegistered updated)) (
    let task := ar_task a in
    st_when (negb (e_isRemovable initial)) (
      x ← readTask task;
      st_when (tda_removalBlockers (t_dataAccesses x) =? 0) (increaseRemovalBlockingCount task);;
      updateAccesses task (λ d, set_removalBlockers (wrap_int (tda_removalBlockers d + 1)) d);;
      d ← readAccess a;
      st_when (bool_decide (da_objectType d = taskwait_type))
        (updateAccesses task (λ d,
           set_liveTaskwaitFragmentCount (wrap_int (tda_liveTaskwaitFragmentCount d + 1)) d)));;
    st_when (e_enforcesDependency updated) (increasePredecessors task 1)).

(** "Dependency updates" *)
Definition handle_dependency (initial updated : Effects) (a : access_ref) : stM W unit :=
  st_when (xorb (e_enforcesDependency initial) (e_enforcesDependency updated)) (
    if e_enforcesDependency updated then mret tt
    else
      ready ← decreasePredecessors (ar_task a) 1;
      st_when ready (push_satisfiedOriginator (ar_task a))).

(** "Reduction combination" *)
Definition handle_combination (initial updated : Effects) (a : access_ref) : stM W unit :=
  st_when (xorb (e_closesPreviousReduction initial) (e_closesPreviousReduction updated)) (
    d ← readAccess a;
    id ← st_lift (get (da_previousReductionInfo d));
    info ← st_read (λ w, get (w_reductions w !! id));
    r ← st_lift (combineRegion (mc_totalCPUs mc) (da_region d) (da_previousReductionCpuSet d) info);
    let '(info, calls, wasLastCombination) := r in
    st_modify (add_w_combinations calls);;
    st_modify (λ w,
      set_w_reductions
        (if wasLastCombination : bool then delete id (w_reductions w)
         else <[id := info]> (w_reductions w)) (w_nextReduction w) w)).

(** The reduction CPU set of an access and that of the previous one, when they belong to the same
    reduction. *)
Definition merge_reductionCpuSet (d : DataAccess B) : DataAccess B :=
  if decide (da_reductionInfo d = da_previousReductionInfo d)
  then setReductionCpuSet (bs_or (da_reductionCpuSet d) (da_previousReductionCpuSet d)) d else d.

(** "Propagation to Next" *)
Definition handle_next (initial updated : Effects) (a : access_ref) : stM W unit :=
  d ← readAccess a;
  match da_next d with
  | None => mret tt
  | Some next =>
      let cpuSet := xorb (e_propagatesReductionCpuSetToNext initial)
                      (e_propagatesReductionCpuSetToNext updated) in
      st_when cpuSet (updateAccess a merge_reductionCpuSet);;
      d ← readAccess a;
      let info := xorb (e_propagatesReductionInfoToNext initial)
                    (e_propagatesReductionInfoToNext updated) in
      let operation :=
        {| uo_target := next;
           uo_region := da_region d;
           uo_makeReadSatisfied := xorb (e_propagatesReadSatisfiabilityToNext initial)
                                     (e_propagatesReadSatisfiabilityToNext updated);
           uo_makeWriteSatisfied := xorb (e_propagatesWriteSatisfiabilityToNext initial)
                                      (e_propagatesWriteSatisfiabilityToNext updated);
           uo_makeConcurrentSatisfied := xorb (e_propagatesConcurrentSatisfiabilityToNext initial)
                                           (e_propagatesConcurrentSatisfiabilityToNext updated);
           uo_makeTopmost := xorb (e_makesNextTopmost initial) (e_makesNextTopmost updated);
           uo_makeTopLevel := xorb (e_propagatesTopLevel initial) (e_propagatesTopLevel updated);
           uo_setReductionInfo := info;
           uo_reductionInfo := if info then da_reductionInfo d else None;
           uo_reductionCpuSet := if cpuSet then da_reductionCpuSet d else bs_zero 0 |} in
      st_when (negb (uo_empty operation)) (push_delayedOperation operation)
  end.

(** "Propagation to Fragments" *)
Definition handle_fragments (initial updated : Effects) (a : access_ref) : stM W unit :=
  d ← readAccess a;
  st_when (hasSubaccesses d) (
    let cpuSet := xorb (e_propagatesReductionCpuSetToFragments initial)
                    (e_propagatesReductionCpuSetToFragments updated) in
    let reduction := bool_decide (da_type d = REDUCTION_ACCESS_TYPE) in
    st_when (cpuSet && reduction) (updateAccess a merge_reductionCpuSet);;
    d ← readAccess a;
    let info := xorb (e_propagatesReductionInfoToFragments initial)
                  (e_propagatesReductionInfoToFragments updated) in
    let operation :=
      {| uo_target := mkLink (ar_task a) fragment_type;
         uo_region := da_region d;
         uo_makeReadSatisfied := xorb (e_propagatesReadSatisfiabilityToFragments initial)
                                   (e_propagatesReadSatisfiabilityToFragments updated);
         uo_makeWriteSatisfied := xorb (e_propagatesWriteSatisfiabilityToFragments initial)
                                    (e_propagatesWriteSatisfiabilityToFragments updated);
         uo_makeConcurrentSatisfied := xorb (e_propagatesConcurrentSatisfiabilityToFragments initial)
                                         (e_propagatesConcurrentSatisfiabilityToFragments updated);
         uo_makeTopmost := false;
         uo_makeTopLevel := false;
         uo_setReductionInfo := info;
         uo_reductionInfo := if info then da_reductionInfo d else None;
         uo_reductionCpuSet :=
           if cpuSet
           then if reduction then da_reductionCpuSet d else da_previousReductionCpuSet d
           else bs_zero 0 |} in
    st_when (negb (uo_empty operation)) (push_delayedOperation operation)).

(** [BottomMapUpdateOperation], as the part "Bottom Map Updates" fills it in. *)
Record BottomMapUpdateOperation := mkBottomMapUpdate {
  bu_region : DataAccessRegion;
  bu_parentAccessType : DataAccessType;
  bu_next : option DataAccessLink;
  bu_inhibitReadSatisfiabilityPropagation : bool;
  bu_inhibitConcurrentSatisfiabilityPropagation : bool;
  bu_inhibitReductionInfoPropagation : bool;
}.

Definition bottom_map_update (d : DataAccess B) : BottomMapUpdateOperation :=
  {| bu_region := da_region d;
     bu_parentAccessType := da_type d;
     bu_next := da_next d;
     bu_inhibitReadSatisfiabilityPropagation := bool_decide (da_type d = READ_ACCESS_TYPE);
     bu_inhibitConcurrentSatisfiabilityPropagation := bool_decide (da_type d = CONCURRENT_ACCESS_TYPE);
     bu_inhibitReductionInfoPropagation := negb (writes d) |}.

(** [fragmentBottomMapEntry]; [None] is the null pointer. *)
Definition fragmentBottomMapEntry (t : nat) (position : Z) (region : DataAccessRegion)
    (removeIntersection : bool) : stM W (option Z) :=
  e ← map_deref (bottomMap_of t) position;
  if fullyContainedIn (bme_region e) region then mret (Some position)
  else
    position ← fragmentByIntersection (bottomMap_of t)
      (λ e, mret (mkBottomMapEntry null_region (bme_link e) (bme_accessType e)))
      (λ _ _, mret tt) position region removeIntersection;
    if negb removeIntersection then mret position else mret None.

(** [removeBottomMapTaskwaitOrTopLevelSink] *)
Definition removeBottomMapTaskwaitOrTopLevelSink (a : access_ref) : stM W unit :=
  let task := ar_task a in
  d ← readAccess a;
  _ ← processIntersecting (bottomMap_of task) (da_region d) (λ position,
        e ← map_deref (bottomMap_of task) position;
        (if region_eqb (da_region d) (bme_region e) then map_erase (bottomMap_of task) position
         else _ ← fragmentBottomMapEntry task position (da_region d) true; mret tt);;
        mret true);
  map_erase (objects_of task taskwait_type) (ar_start a).

(** The count of a task's accesses that block its removal reaches zero. *)
Definition unblock_removal (t : nat) : stM W unit :=
  removable ← decreaseRemovalBlockingCount t;
  st_when removable (push_removableTask t).

(** "Removable" *)
Definition handle_removable (initial updated : Effects) (a : access_ref) : stM W unit :=
  st_when (xorb (e_isRemovable initial) (e_isRemovable updated)) (
    let task := ar_task a in
    updateAccesses task (λ d, set_removalBlockers (wrap_int (tda_removalBlockers d - 1)) d);;
    d ← readAccess a;
    st_when (bool_decide (da_objectType d = taskwait_type)) (
      st_when (bool_decide (da_type d = REDUCTION_ACCESS_TYPE)) (
        _ ← processIntersecting (objects_of task access_type) (da_region d) (λ position,
              updateAccess (mkRef task access_type position) (λ dataAccess,
                setReductionCpuSet
                  (bs_or (da_reductionCpuSet dataAccess) (da_previousReductionCpuSet d)) dataAccess);;
              mret true);
        mret tt);;
      updateAccesses task (λ d,
        set_liveTaskwaitFragmentCount (wrap_int (tda_liveTaskwaitFragmentCount d - 1)) d);;
      x ← readTask task;
      st_when (tda_liveTaskwaitFragmentCount (t_dataAccesses x) =? 0) (unblock_removal task));;
    d ← readAccess a;
    st_when (negb (hasNext d)) (removeBottomMapTaskwaitOrTopLevelSink a);;
    x ← readTask task;
    st_when (tda_removalBlockers (t_dataAccesses x) =? 0) (unblock_removal task)).

(** ** The functions that call [handleDataAccessStatusChanges] and that it calls *)

Section open_recursion.
Variable handle : Effects → Effects → access_ref → stM W unit.

(** The status of an access before a change, the change, the status after it, and what
    follows from the difference. *)
Definition changeAccess (a : access_ref) (f : DataAccess B → DataAccess B) : stM W unit :=
  initialStatus ← readEffects a;
  updateAccess a f;;
  updatedStatus ← readEffects a;
  handle initialStatus updatedStatus a.

(** [setUpNewFragment] *)
Definition setUpNewFragment (fragment original : access_ref) : stM W unit :=
  st_when (negb (ar_start fragment =? ar_start original))
    (with_local_dependency_data (changeAccess fragment setRegistered)).

(** [duplicateDataAccess] *)
Definition duplicateDataAccess (toBeDuplicated : DataAccess B) : DataAccess B :=
  clearRegistered toBeDuplicated.

(** [fragmentAccess], and [fragmentAccessObject], [fragmentFragmentObject] and
    [fragmentTaskwaitFragmentObject], which differ in the map. *)
Definition fragmentAccess (a : access_ref) (region : DataAccessRegion) : stM W access_ref :=
  d ← readAccess a;
  if fullyContainedIn (da_region d) region then mret a
  else
    position ← fragmentByIntersection (ref_map a)
      (λ d, mret (duplicateDataAccess d))
      (λ fragment original,
         setUpNewFragment (mkRef (ar_task a) (ar_objectType a) fragment)
           (mkRef (ar_task a) (ar_objectType a) original))
      (ar_start a) region false;
    position ← st_lift (get position);
    mret (mkRef (ar_task a) (ar_objectType a) position).

(** [followLink] *)
Definition followLink (link : DataAccessLink) (region : DataAccessRegion)
    (processor : access_ref → stM W bool) : stM W bool :=
  processIntersecting (objects_of (link_task link) (link_objectType link)) region (λ position,
    access ← fragmentAccess (mkRef (link_task link) (link_objectType link) position) region;
    processor access).

(** [foreachBottomMapMatch], with the empty processor of bottom map entries. *)
Definition foreachBottomMapMatch (region : DataAccessRegion) (task : nat)
    (processor : access_ref → stM W unit) : stM W unit :=
  _ ← processIntersecting (bottomMap_of task) region (λ position,
        e ← map_deref (bottomMap_of task) position;
        let subregion := intersect region (bme_region e) in
        _ ← followLink (bme_link e) subregion (λ access, processor access;; mret true);
        mret true);
  mret tt.

(** [processBottomMapUpdate] *)
Definition processBottomMapUpdate (operation : BottomMapUpdateOperation) (task : nat) : stM W unit :=
  foreachBottomMapMatch (bu_region operation) task (λ access,
    d ← readAccess access;
    st_lift (failIf
      (bool_decide (bu_parentAccessType operation = CONCURRENT_ACCESS_TYPE ∨
                    bu_parentAccessType operation = COMMUTATIVE_ACCESS_TYPE) &&
       bool_decide (da_type d = REDUCTION_ACCESS_TYPE))
      "declares a reduction within a region registered as concurrent or commutative");;
    changeAccess access (λ d,
      let d := if bu_inhibitReadSatisfiabilityPropagation operation
               then unsetCanPropagateReadSatisfiability d else d in
      let d := if bu_inhibitConcurrentSatisfiabilityPropagation operation
               then unsetCanPropagateConcurrentSatisfiability d else d in
      let d := if bu_inhibitReductionInfoPropagation operation
               then unsetCanPropagateReductionInfo d else d in
      setNext (bu_next operation) d)).

(** "Bottom Map Updates" *)
Definition handle_bottom_map (initial updated : Effects) (a : access_ref) : stM W unit :=
  d ← readAccess a;
  st_when (hasSubaccesses d &&
           xorb (e_linksBottomMapAccessesToNextAndInhibitsPropagation initial)
             (e_linksBottomMapAccessesToNextAndInhibitsPropagation updated))
    (processBottomMapUpdate (bottom_map_update d) (ar_task a)).

(** The body of [handleDataAccessStatusChanges]. *)
Definition handle_body (initial updated : Effects) (a : access_ref) : stM W unit :=
  handle_registration initial updated a;;
  if negb (e_isRegistered updated) then mret tt
  else
    handle_dependency initial updated a;;
    handle_combination initial updated a;;
    handle_next initial updated a;;
    handle_fragments initial updated a;;
    handle_bottom_map initial updated a;;
    handle_removable initial updated a.
End open_recursion.

(** [handleDataAccessStatusChanges]: the recursion goes down the tree of tasks. *)
Fixpoint handleDataAccessStatusChanges (fuel : nat) (initial updated : Effects) (a : access_ref) :
    stM W unit :=
  match fuel with
  | O => st_fail OutOfFuel
  | S fuel => handle_body (handleDataAccessStatusChanges fuel) initial updated a
  end.

Section operations.
(** The depth of the recursion of [handleDataAccessStatusChanges]. *)
Variable depth : nat.
Notation handle := (handleDataAccessStatusChanges depth).

(** ** Update operations *)

(** The changes of [applyUpdateOperationOnAccess]; [compatible] tells whether the reduction that
    is received has the type and operator of the access. *)
Definition apply_update (operation : UpdateOperation B) (compatible : bool) (d : DataAccess B) :
    DataAccess B :=
  let d := if uo_makeReadSatisfied operation then setReadSatisfied d else d in
  let d := if uo_makeWriteSatisfied operation then setWriteSatisfied d else d in
  let d := if uo_makeConcurrentSatisfied operation then setConcurrentSatisfied d else d in
  let d :=
    if uo_setReductionInfo operation then
      let d := setPreviousReductionInfo (uo_reductionInfo operation) d in
      let d :=
        if bool_decide (da_reductionInfo d = None) && bool_decide (da_type d = REDUCTION_ACCESS_TYPE) &&
           compatible
        then setReductionInfo (uo_reductionInfo operation) d else d in
      setReceivedReductionInfo d
    else d in
  let d :=
    if bs_sized (uo_reductionCpuSet operation)
    then setReceivedReductionCpuSet (setPreviousReductionCpuSet (uo_reductionCpuSet operation) d)
    else d in
  let d := if uo_makeTopmost operation then setTopmost d else d in
  if uo_makeTopLevel operation then setTopLevel d else d.

(** [updateOperation._reductionInfo->getTypeAndOperatorIndex()], read only when the code reads it. *)
Definition compatible_reduction (operation : UpdateOperation B) (d : DataAccess B) : stM W bool :=
  if uo_setReductionInfo operation && bool_decide (da_reductionInfo d = None) &&
     bool_decide (da_type d = REDUCTION_ACCESS_TYPE)
  then
    match uo_reductionInfo operation with
    | Some id =>
        info ← st_read (λ w, get (w_reductions w !! id));
        mret (da_reductionTypeAndOperatorIndex d =? ri_typeAndOperatorIndex info)
    | None => mret false
    end
  else mret false.

(** [applyUpdateOperationOnAccess] *)
Definition applyUpdateOperationOnAccess (operation : UpdateOperation B) (a : access_ref) :
    stM W unit :=
  a ← fragmentAccess handle a (uo_region operation);
  d ← readAccess a;
  compatible ← compatible_reduction operation d;
  changeAccess handle a (apply_update operation compatible).

(** [processUpdateOperation] *)
Definition processUpdateOperation (operation : UpdateOperation B) : stM W unit :=
  let task := link_task (uo_target operation) in
  let objectType := link_objectType (uo_target operation) in
  _ ← processIntersecting (objects_of task objectType) (uo_region operation) (λ position,
        applyUpdateOperationOnAccess operation (mkRef task objectType position);; mret true);
  mret tt.

Definition pop_delayedOperation : stM W unit :=
  updateDependencyData (λ d,
    mkCPUDependencyData (cd_satisfiedOriginators d) (tail (cd_delayedOperations d))
      (cd_removableTasks d)).

(** [processDelayedOperations] *)
Fixpoint processDelayedOperations (fuel : nat) : stM W unit :=
  d ← st_gets w_dependencyData;
  match cd_delayedOperations d with
  | [] => mret tt
  | delayedOperation :: _ =>
      match fuel with
      | O => st_fail OutOfFuel
      | S fuel =>
          processUpdateOperation delayedOperation;;
          pop_delayedOperation;;
          processDelayedOperations fuel
      end
  end.

(** [processSatisfiedOriginators] *)
Definition processSatisfiedOriginators (fromBusyThread : bool) : stM W unit :=
  d ← st_gets w_dependencyData;
  st_iter (λ t, st_modify (add_w_scheduled t fromBusyThread)) (cd_satisfiedOriginators d);;
  updateDependencyData (λ d,
    mkCPUDependencyData [] (cd_delayedOperations d) (cd_removableTasks d)).

(** [handleRemovableTasks] *)
Definition handleRemovableTasks : stM W unit :=
  d ← st_gets w_dependencyData;
  st_iter (λ t, st_modify (add_w_disposed t)) (cd_removableTasks d);;
  updateDependencyData (λ d,
    mkCPUDependencyData (cd_satisfiedOriginators d) (cd_delayedOperations d) []).

(** [processDelayedOperationsSatisfiedOriginatorsAndRemovableTasks] *)
Definition processDelayedOperationsSatisfiedOriginatorsAndRemovableTasks (fuel : nat)
    (fromBusyThread : bool) : stM W unit :=
  processDelayedOperations fuel;;
  processSatisfiedOriginators fromBusyThread;;
  handleRemovableTasks.

(** ** Linking the accesses of a task *)

(** [createAccess] *)
Definition createAccess (originator : nat) (objectType : DataAccessObjectType)
    (accessType : DataAccessType) (weak : bool) (region : DataAccessRegion)
    (reductionTypeAndOperatorIndex reductionIndex : Z) : DataAccess B :=
  new_DataAccess (mc_totalCPUs mc) objectType accessType weak originator region
    reductionTypeAndOperatorIndex reductionIndex.

(** The bottom map entries that [createInitialFragment] adds: the part of the access outside the
    subregion. *)
Definition excluded_entries (d : DataAccess B) (subregion : DataAccessRegion) :
    list BottomMapEntry :=
  if region_neqb subregion (da_region d) then
    processIntersectingFragments (da_region d) subregion
      (λ excluded l, l ++ [mkBottomMapEntry excluded (mkLink (da_originator d) fragment_type) (da_type d)])
      (λ _ l, l) (λ _ l, l) []
  else [].

(** [createInitialFragment] *)
Definition createInitialFragment (t : nat) (accessPosition : Z) (subregion : DataAccessRegion) :
    stM W access_ref :=
  let a := mkRef t access_type accessPosition in
  d ← readAccess a;
  let fragment :=
    inheritFragmentStatus d
      (new_DataAccess (mc_totalCPUs mc) fragment_type (da_type d) (da_weak d) (da_originator d)
         (da_region d) (da_reductionTypeAndOperatorIndex d) (da_reductionIndex d)) in
  map_insert (objects_of t fragment_type) (setInBottomMap fragment);;
  updateAccess a setHasSubaccesses;;
  st_iter (map_insert (bottomMap_of t)) (excluded_entries d subregion);;
  mret (mkRef t fragment_type (startAddress (da_region d))).

(** [foreachBottomMapMatchPossiblyCreatingInitialFragmentsAndMissingRegion]; the processors have
    local variables. *)
Section with_locals.
Context {L : Type}.

Definition shared_ref {MC} (r : map_ref W MC) : map_ref (W * L) MC :=
  mkMapRef (λ s, ref_get r s.1) (λ m s, (ref_put r m s.1, s.2)).

Definition followLink_locals (link : DataAccessLink) (region : DataAccessRegion)
    (processor : access_ref → stM (W * L) bool) : stM (W * L) bool :=
  processIntersecting (shared_ref (objects_of (link_task link) (link_objectType link))) region
    (λ position,
       access ← st_shared
         (fragmentAccess handle (mkRef (link_task link) (link_objectType link) position) region);
       processor access).

(** The processor of the bottom map entries that intersect the region. *)
Definition bottom_map_match (parent : nat) (region : DataAccessRegion)
    (matchingProcessor : access_ref → BottomMapEntry → stM (W * L) bool) (position : Z) :
    stM (W * L) bool :=
  e ← st_shared (map_deref (bottomMap_of parent) position);
  let subregion := intersect region (bme_region e) in
  result ← followLink_locals (bme_link e) subregion (λ previous, matchingProcessor previous e);
  position ← st_shared (fragmentBottomMapEntry parent position subregion false);
  position ← st_lift (get position);
  st_shared (map_erase (bottomMap_of parent) position);;
  mret result.

(** The processor of the accesses of the parent in a region that the bottom map lacks. *)
Definition initial_fragment (parent : nat) (missingRegion : DataAccessRegion)
    (matchingProcessor : access_ref → BottomMapEntry → stM (W * L) bool) (position : Z) :
    stM (W * L) bool :=
  previous ← st_shared (createInitialFragment parent position missingRegion);
  st_shared (updateAccess previous (setRegistered ∘ setTopmost));;
  updatedStatus ← st_shared (readEffects previous);
  d ← st_shared (readAccess previous);
  st_shared (with_local_dependency_data (handle no_effects updatedStatus previous));;
  previous ← st_shared (fragmentAccess handle previous missingRegion);
  matchingProcessor previous
    (mkBottomMapEntry missingRegion (mkLink parent fragment_type) (da_type d)).

Definition foreachBottomMapMatchPossiblyCreatingInitialFragmentsAndMissingRegion
    (parent : nat) (region : DataAccessRegion)
    (matchingProcessor : access_ref → BottomMapEntry → stM (W * L) bool)
    (missingProcessor : DataAccessRegion → stM (W * L) bool) : stM (W * L) bool :=
  processIntersectingAndMissing (shared_ref (bottomMap_of parent)) region
    (bottom_map_match parent region matchingProcessor)
    (λ missingRegion,
       _ ← processIntersectingAndMissing (shared_ref (objects_of parent access_type)) missingRegion
             (initial_fragment parent missingRegion matchingProcessor)
             missingProcessor;
       mret true).
End with_locals.

(** [allocateReductionInfo], with the storage that [mmap] gives. *)
Definition allocateReductionInfo (a : access_ref) : stM W unit :=
  d ← readAccess a;
  id ← st_gets w_nextReduction;
  let size := wrap64 (paddedRegionSize (mc_cacheLineSize mc) (da_region d) *
                      Z.of_nat (mc_totalCPUs mc)) in
  info ← st_lift (new_ReductionInfo (mc_totalCPUs mc) (mc_cacheLineSize mc) (da_region d)
                    (da_reductionTypeAndOperatorIndex d) (mc_mmap mc id size));
  st_modify (λ w, set_w_reductions (<[id := info]> (w_reductions w)) (S id) w);;
  updateAccess a (setAllocatedReductionInfo ∘ setReductionInfo (Some id)).

(** [allocateReductionInfo] between the two statuses. *)
Definition allocate_and_handle (a : access_ref) : stM W unit :=
  initialStatus ← readEffects a;
  allocateReductionInfo a;;
  updatedStatus ← readEffects a;
  handle initialStatus updatedStatus a.

(** The local variables of [replaceMatchingInBottomMapLinkAndPropagate] that its closures assign.
    [lv_dataAccess] is where the object [dataAccess] starts: it moves when the object is shrunk. *)
Record link_vars := mkLinkVars {
  lv_dataAccess : Z;
  lv_hasAllocatedReductionInfo : bool;
  lv_previousReductionInfo : option nat;
  lv_parentAccessType : DataAccessType;
}.

(** Whether linking a reduction after [previous] needs a new reduction, and the reduction of the
    previous accesses. *)
Definition allocates_reductionInfo (previous dataAccess : DataAccess B) (v : link_vars) :
    bool * option nat :=
  if negb (da_reductionTypeAndOperatorIndex previous =? da_reductionTypeAndOperatorIndex dataAccess)
  then (true, lv_previousReductionInfo v)
  else
    match lv_previousReductionInfo v with
    | None => (false, da_reductionInfo previous)
    | Some info => (bool_decide (da_reductionInfo previous ≠ Some info), Some info)
    end.

(** The closure for the accesses of the bottom map. *)
Definition link_previous (next : DataAccessLink) (previous : access_ref) (e : BottomMapEntry) :
    stM (W * link_vars) bool :=
  st_set_local (λ v,
    mkLinkVars (lv_dataAccess v) (lv_hasAllocatedReductionInfo v) (lv_previousReductionInfo v)
      (bme_accessType e));;
  v ← st_local;
  let a := mkRef (link_task next) access_type (lv_dataAccess v) in
  dataAccess ← st_shared (readAccess a);
  st_when (bool_decide (da_type dataAccess = REDUCTION_ACCESS_TYPE) &&
           negb (lv_hasAllocatedReductionInfo v)) (
    p ← st_shared (readAccess previous);
    let '(allocates, info) := allocates_reductionInfo p dataAccess v in
    st_set_local (λ v, mkLinkVars (lv_dataAccess v) allocates info (lv_parentAccessType v));;
    st_when allocates (st_shared (allocate_and_handle a)));;
  st_shared (changeAccess handle previous (unsetInBottomMap ∘ setNext (Some next)));;
  mret true.

(** The closure for the accesses of the new task in a region that the parent does not have. *)
Definition satisfy_missing (next : DataAccessLink) (missingRegion : DataAccessRegion)
    (position : Z) : stM (W * link_vars) bool :=
  v ← st_local;
  let a := mkRef (link_task next) access_type (lv_dataAccess v) in
  dataAccess ← st_shared (readAccess a);
  st_when (bool_decide (da_type dataAccess = REDUCTION_ACCESS_TYPE) &&
           negb (lv_hasAllocatedReductionInfo v)) (
    st_set_local (λ v,
      mkLinkVars (lv_dataAccess v) true (lv_previousReductionInfo v) (lv_parentAccessType v));;
    st_shared (allocate_and_handle a));;
  targetAccess ← st_shared
    (fragmentAccess handle (mkRef (link_task next) access_type position) missingRegion);
  st_when (position =? lv_dataAccess v)
    (st_set_local (λ v,
       mkLinkVars (ar_start targetAccess) (lv_hasAllocatedReductionInfo v)
         (lv_previousReductionInfo v) (lv_parentAccessType v)));;
  st_shared (changeAccess handle targetAccess
    (setTopLevel ∘ setTopmost ∘ setReceivedReductionInfo ∘ setConcurrentSatisfied ∘
     setWriteSatisfied ∘ setReadSatisfied));;
  mret true.

(** [replaceMatchingInBottomMapLinkAndPropagate] *)
Definition replaceMatchingInBottomMapLinkAndPropagate (next : DataAccessLink) (dataAccess : Z)
    (parent : nat) : stM W unit :=
  d ← readAccess (mkRef (link_task next) access_type dataAccess);
  let region := da_region d in
  r ← st_with (mkLinkVars dataAccess false None NO_ACCESS_TYPE)
        (foreachBottomMapMatchPossiblyCreatingInitialFragmentsAndMissingRegion parent region
           (link_previous next)
           (λ missingRegion,
              _ ← processIntersecting (shared_ref (objects_of (link_task next) access_type))
                    missingRegion (satisfy_missing next missingRegion);
              mret true));
  map_insert (bottomMap_of parent) (mkBottomMapEntry region next (lv_parentAccessType r.2)).

(** [linkTaskAccesses] *)
Definition linkTaskAccesses (task : nat) : stM W unit :=
  isEmpty ← map_isEmpty (objects_of task access_type);
  if isEmpty : bool then mret tt
  else
    x ← readTask task;
    parent ← st_lift (get (t_parent x));
    _ ← processAll (objects_of task access_type) (λ position,
          changeAccess handle (mkRef task access_type position) (setRegistered ∘ setInBottomMap);;
          replaceMatchingInBottomMapLinkAndPropagate (mkLink task access_type) position parent;;
          mret true);
    mret tt.

(** ** Completing accesses *)

(** [finalizeFragments] *)
Definition finalizeFragments (task : nat) : stM W unit :=
  _ ← processAll (objects_of task fragment_type) (λ position,
        let fragment := mkRef task fragment_type position in
        d ← readAccess fragment;
        (if complete d then mret tt else changeAccess handle fragment setComplete);;
        mret true);
  mret tt.

(** [applyToAccessAndFragments]; the processor says whether it also applies to the fragments. *)
Definition applyToAccessAndFragments (a : access_ref) (region : DataAccessRegion)
    (processor : access_ref → stM W bool) : stM W unit :=
  a ← fragmentAccess handle a region;
  d ← readAccess a;
  alsoSubaccesses ← processor a;
  st_when (alsoSubaccesses && hasSubaccesses d) (
    _ ← processIntersecting (objects_of (ar_task a) fragment_type) (da_region d) (λ position,
          fragment ← fragmentAccess handle (mkRef (ar_task a) fragment_type position) (da_region d);
          _ ← processor fragment;
          mret true);
    mret tt).

(** [finalizeAccess] *)
Definition finalizeAccess (a : access_ref) (region : DataAccessRegion) : stM W unit :=
  d ← readAccess a;
  if complete d then mret tt
  else applyToAccessAndFragments a region (λ a, changeAccess handle a setComplete;; mret true).

(** The body of the loops of [createTaskwait] and [createTopLevelSink]: the fragment, the update of
    the bottom map entry, and the link from the previous accesses, which is to a taskwait in both. *)
Definition create_fragment_after (task : nat) (objectType : DataAccessObjectType) (position : Z) :
    stM W unit :=
  e ← map_deref (bottomMap_of task) position;
  let region := bme_region e in
  let fragment := createAccess task objectType (bme_accessType e) false region
                    no_reduction_type_and_operator (-1) in
  parents ← st_gets getParent;
  let a := mkRef task objectType (startAddress region) in
  map_insert (objects_of task objectType) (setComplete (setRegistered (setInBottomMap fragment)));;
  map_assign (bottomMap_of task) position
    (λ e, mkBottomMapEntry (bme_region e) (mkLink task objectType) (bme_accessType e));;
  updatedStatus ← readEffects a;
  handle (effects parents fragment) updatedStatus a;;
  _ ← followLink handle (bme_link e) region (λ previousAccess,
        changeAccess handle previousAccess
          (unsetInBottomMap ∘ setNext (Some (mkLink task taskwait_type)));;
        mret true);
  mret tt.

(** [createTaskwait] *)
Definition createTaskwait (task : nat) : stM W unit :=
  isEmpty ← map_isEmpty (bottomMap_of task);
  if isEmpty : bool then mret tt
  else
    increaseRemovalBlockingCount task;;
    _ ← processAll (bottomMap_of task) (λ position,
          create_fragment_after task taskwait_type position;; mret true);
    mret tt.

(** [createTopLevelSink] *)
Definition createTopLevelSink (task : nat) : stM W unit :=
  _ ← processAll (bottomMap_of task) (λ position,
        e ← map_deref (bottomMap_of task) position;
        (if bool_decide (bme_accessType e ≠ NO_ACCESS_TYPE) then mret tt
         else create_fragment_after task top_level_sink_type position);;
        mret true);
  mret tt.

(** ** Registering the accesses of a task *)

(** [upgradeAccess] *)
Definition upgradeAccess (accessType : DataAccessType) (weak : bool)
    (reductionTypeAndOperatorIndex : Z) (dataAccess : DataAccess B) : res (DataAccess B) :=
  let newWeak := da_weak dataAccess && weak in
  if decide (accessType = da_type dataAccess) then
    failIf (bool_decide (accessType = REDUCTION_ACCESS_TYPE) &&
            negb (da_reductionTypeAndOperatorIndex dataAccess =? reductionTypeAndOperatorIndex))
      "has two overlapping reductions over different types or with different operators";;
    Ok (upgrade newWeak accessType dataAccess)
  else
    failIf (bool_decide (accessType = REDUCTION_ACCESS_TYPE) ||
            bool_decide (da_type dataAccess = REDUCTION_ACCESS_TYPE))
      "has non-reduction accesses that overlap a reduction";;
    Ok (upgrade newWeak READWRITE_ACCESS_TYPE dataAccess).

(** The symbols that the first traversal collects: [symbolIndex] selects a bit of an
    [std::bitset], and [set] throws when it is out of range. *)
Definition initial_symbols (symbolIndex : Z) : res N :=
  if symbolIndex <? 0 then Ok 0%N
  else if symbolIndex <? 64 then Ok (N.setbit 0 (Z.to_N symbolIndex))
  else Err (Fatal "bitset::set").

(** [registerTaskDataAccess] *)
Definition registerTaskDataAccess (task : nat) (accessType : DataAccessType) (weak : bool)
    (region : DataAccessRegion) (symbolIndex reductionTypeAndOperatorIndex reductionIndex : Z) :
    stM W unit :=
  symbols ← st_lift (initial_symbols symbolIndex);
  let accesses := objects_of task access_type in
  r ← st_with symbols
        (fragmentIntersecting (shared_ref accesses)
           (λ d, mret (duplicateDataAccess d))
           (λ _ original,
              d ← st_shared (readAccess (mkRef task access_type original));
              st_set_local (λ symbols, N.lor symbols (da_symbols d)))
           region);
  let symbols := r.2 in
  _ ← processIntersectingAndMissing accesses region
        (λ position,
           let a := mkRef task access_type position in
           d ← readAccess a;
           d' ← st_lift (upgradeAccess accessType weak reductionTypeAndOperatorIndex d);
           updateAccess a (λ _, addToSymbols symbols d');;
           mret true)
        (λ missingRegion,
           map_insert accesses
             (addToSymbols symbols
                (createAccess task access_type accessType weak missingRegion
                   reductionTypeAndOperatorIndex reductionIndex));;
           mret true);
  mret tt.

(** One call of [register_access] of [RegisterDependencies.cpp] by the code of the user. *)
Record depinfo := mkDepinfo {
  dep_type : DataAccessType;
  dep_weak : bool;
  dep_start : Z;
  dep_length : Z;
  dep_symbolIndex : Z;
  dep_reductionTypeAndOperatorIndex : Z;
  dep_reductionIndex : Z;
}.

(** [register_access] *)
Definition register_access (task : nat) (i : depinfo) : stM W unit :=
  x ← readTask task;
  if (dep_start i =? 0) || (dep_length i =? 0) then mret tt
  else
    registerTaskDataAccess task (dep_type i) (dep_weak i && negb (t_final x) && negb (t_taskloop x))
      (mkRegion (dep_start i) (dep_length i)) (dep_symbolIndex i)
      (dep_reductionTypeAndOperatorIndex i) (dep_reductionIndex i).

(** [registerTaskDataAccesses]; [deps] is what [register_depinfo] does, and the result tells
    whether the task is ready. *)
Definition registerTaskDataAccesses (fuel : nat) (task : nat) (deps : list depinfo) : stM W bool :=
  st_iter (register_access task) deps;;
  isEmpty ← map_isEmpty (objects_of task access_type);
  if negb isEmpty then
    increasePredecessors task 2;;
    linkTaskAccesses task;;
    processDelayedOperationsSatisfiedOriginatorsAndRemovableTasks fuel true;;
    decreasePredecessors task 2
  else mret true.

(** ** Release and end of a task *)

(** [releaseAccessRegion] *)
Definition releaseAccessRegion (fuel : nat) (task : nat) (region : DataAccessRegion) : stM W unit :=
  _ ← processIntersecting (objects_of task access_type) region (λ position,
        finalizeAccess (mkRef task access_type position) region;; mret true);
  processDelayedOperationsSatisfiedOriginatorsAndRemovableTasks fuel true.

(** [release_access] of [ReleaseDirective.cpp] *)
Definition release_access (fuel : nat) (task : nat) (base_address dim1start dim1end : Z) : stM W unit :=
  releaseAccessRegion fuel task
    (mkRegion (wrap64 (base_address + dim1start)) (wrap64 (dim1end - dim1start))).

(** [unregisterTaskDataAccesses] *)
Definition unregisterTaskDataAccesses (fuel : nat) (task : nat) : stM W unit :=
  createTopLevelSink task;;
  _ ← processAll (objects_of task access_type) (λ position,
        let a := mkRef task access_type position in
        d ← readAccess a;
        finalizeAccess a (da_region d);; mret true);
  processDelayedOperationsSatisfiedOriginatorsAndRemovableTasks fuel false.

(** ** Blocking and waiting *)

Definition when_has_accesses (task : nat) (m : stM W unit) : stM W unit :=
  isEmpty ← map_isEmpty (objects_of task access_type); st_when (negb isEmpty) m.

(** [handleEnterBlocking] *)
Definition handleEnterBlocking (task : nat) : stM W unit :=
  when_has_accesses task (_ ← decreaseRemovalBlockingCount task; mret tt).

(** [handleExitBlocking] *)
Definition handleExitBlocking (task : nat) : stM W unit :=
  when_has_accesses task (increaseRemovalBlockingCount task).

(** [handleEnterTaskwait] *)
Definition handleEnterTaskwait (fuel : nat) (task : nat) : stM W unit :=
  when_has_accesses task (_ ← decreaseRemovalBlockingCount task; mret tt);;
  createTaskwait task;;
  finalizeFragments task;;
  processDelayedOperationsSatisfiedOriginatorsAndRemovableTasks fuel true.

(** [handleExitTaskwait] *)
Definition handleExitTaskwait (task : nat) : stM W unit :=
  when_has_accesses task (
    increaseRemovalBlockingCount task;;
    _ ← processAll (objects_of task access_type) (λ position,
          let a := mkRef task access_type position in
          d ← readAccess a;
          st_when (hasSubaccesses d) (updateAccess a unsetHasSubaccesses);;
          mret true);
    _ ← processAll (objects_of task fragment_type) (λ position,
          map_erase (objects_of task fragment_type) position;; mret true);
    map_clear (objects_of task fragment_type);;
    _ ← processAll (objects_of task taskwait_type) (λ position,
          map_erase (objects_of task taskwait_type) position;; mret true);
    map_clear (objects_of task taskwait_type));;
  _ ← processAll (bottomMap_of task) (λ position,
        map_erase (bottomMap_of task) position;; mret true);
  mret tt.

(** ** The storage of a reduction *)

(** The closure of [nanos6_get_reduction_storage1]: [first] is the start of [firstAccess]. *)
Definition mark_reductionCpu (task cpuId : nat) (position : Z) : stM (W * option Z) bool :=
  let a := mkRef task access_type position in
  d ← st_shared (readAccess a);
  if bool_decide (da_type d ≠ REDUCTION_ACCESS_TYPE) then mret false
  else
    st_shared (updateAccess a (λ d,
      setReductionCpuSet (bs_set cpuId true (da_reductionCpuSet d)) d));;
    st_set_local (λ first,
      match first with
      | None => Some position
      | Some start => if start <? position then Some position else first
      end);;
    mret true.

(** [nanos6_get_reduction_storage1]: the address, and the call of the initialization function. *)
Definition nanos6_get_reduction_storage1 (task cpuId : nat) (original dim1size : Z) :
    stM W (Z * list (Z * Z)) :=
  r ← st_with None
        (processIntersecting (shared_ref (objects_of task access_type)) (mkRegion original dim1size)
           (mark_reductionCpu task cpuId));
  match r.2 with
  | None => mret (original, [])
  | Some first =>
      d ← readAccess (mkRef task access_type first);
      id ← st_lift (get (da_reductionInfo d));
      info ← st_read (λ w, get (w_reductions w !! id));
      s ← st_lift (getCPUPrivateStorage cpuId info);
      let '(info', storage, calls) := s in
      st_modify (λ w, set_w_reductions (<[id := info']> (w_reductions w)) (w_nextReduction w) w);;
      mret (wrap64 (startAddress storage + (original - startAddress (ri_region info))), calls)
  end.

(** [~TaskDataAccesses] *)
Definition delete_TaskDataAccesses (task : nat) : stM W unit :=
  map_clear (objects_of task access_type);;
  map_clear (bottomMap_of task);;
  map_clear (objects_of task fragment_type);;
  map_clear (objects_of task taskwait_type).
End operations.
End deps.
