(* ===== verification/FragmentedProtocol.v ===== *)
(** * Fragmented region dependencies: the protocol

    What the dependency system does to the accesses, as a transition system on what can be seen of
    a world: for each task its parent, the nodes of its four maps and the number of its predecessors,
    the operations and ready tasks that are queued, and the tasks that the scheduler has got.  The functions of [FragmentedDeps] are runs of this
    system (file [FragmentedRun]); here are its invariants: the maps stay well formed, pointers stay
    valid, the count of predecessors is exact and the propagation terminates.

    Programs without reductions are considered. *)

From S2P Require Import Prelude Region Boost RegionMap RegionMapProofs StateMonad.
From S2P Require Import IntrusiveRegionMap IntrusiveRegionMapProofs DataAccessType.
From S2P Require Import FragmentedAccess ReductionInfo FragmentedWorld.
Local Open Scope Z_scope.

(** Object types whose objects live in the same map. *)
Definition map_kind (o : DataAccessObjectType) : DataAccessObjectType :=
  match o with top_level_sink_type => taskwait_type | o => o end.

Section protocol.
Context {B : Type} `{!DynamicBitset B} `{!DynamicBitsetLaws B}.

(** ** What can be seen of a world *)

Record task_view := mkView {
  v_parent : option nat;
  v_accesses : list (DataAccess B);
  v_fragments : list (DataAccess B);
  v_taskwaits : list (DataAccess B);
  v_bottom : list BottomMapEntry;
}.

Definition v_objects (o : DataAccessObjectType) (x : task_view) : list (DataAccess B) :=
  match o with
  | access_type => v_accesses x
  | fragment_type => v_fragments x
  | taskwait_type | top_level_sink_type => v_taskwaits x
  end.

Definition set_v_objects (o : DataAccessObjectType) (l : list (DataAccess B)) (x : task_view) : task_view :=
  match o with
  | access_type => mkView (v_parent x) l (v_fragments x) (v_taskwaits x) (v_bottom x)
  | fragment_type => mkView (v_parent x) (v_accesses x) l (v_taskwaits x) (v_bottom x)
  | taskwait_type | top_level_sink_type => mkView (v_parent x) (v_accesses x) (v_fragments x) l (v_bottom x)
  end.

Definition set_v_bottom (l : list BottomMapEntry) (x : task_view) : task_view :=
  mkView (v_parent x) (v_accesses x) (v_fragments x) (v_taskwaits x) l.

Record obs := mkObs {
  o_view : gmap nat task_view;
  o_pred : gmap nat Z;
  o_queue : list (UpdateOperation B);
  o_ready : list nat;
  o_scheduled : list nat;
}.

Definition obs_view (f : gmap nat task_view → gmap nat task_view) (o : obs) : obs :=
  mkObs (f (o_view o)) (o_pred o) (o_queue o) (o_ready o) (o_scheduled o).
Definition obs_pred (f : gmap nat Z → gmap nat Z) (o : obs) : obs :=
  mkObs (o_view o) (f (o_pred o)) (o_queue o) (o_ready o) (o_scheduled o).
Definition obs_queue (f : list (UpdateOperation B) → list (UpdateOperation B)) (o : obs) : obs :=
  mkObs (o_view o) (o_pred o) (f (o_queue o)) (o_ready o) (o_scheduled o).
Definition obs_ready (f : list nat → list nat) (o : obs) : obs :=
  mkObs (o_view o) (o_pred o) (o_queue o) (f (o_ready o)) (o_scheduled o).

Definition put_objects (t : nat) (k : DataAccessObjectType) (l : list (DataAccess B)) : obs → obs :=
  obs_view (alter (set_v_objects k l) t).
Definition put_bottom (t : nat) (l : list BottomMapEntry) : obs → obs :=
  obs_view (alter (set_v_bottom l) t).
Definition add_pred (t : nat) (n : Z) : obs → obs := obs_pred (alter (λ c, wrap_int (c + n)) t).

(** [decreasePredecessors], and the task becomes ready when there is none left. *)
Definition dec_pred (t : nat) (o : obs) : obs :=
  let o := add_pred t (-1) o in
  if decide (o_pred o !! t = Some 0) then obs_ready (λ l, l ++ [t]) o else o.

(** ** The transitions *)

Section transitions.
Variable par : nat → option nat.

(** The operations that follow from a change of an access that is registered. *)
Definition next_ops (d d' : DataAccess B) : list (UpdateOperation B) :=
  match da_next d' with
  | None => []
  | Some next =>
      let i := effects par d in
      let u := effects par d' in
      let operation :=
        {| uo_target := next;
           uo_region := da_region d';
           uo_makeReadSatisfied := xorb (e_propagatesReadSatisfiabilityToNext i)
                                     (e_propagatesReadSatisfiabilityToNext u);
           uo_makeWriteSatisfied := xorb (e_propagatesWriteSatisfiabilityToNext i)
                                      (e_propagatesWriteSatisfiabilityToNext u);
           uo_makeConcurrentSatisfied := xorb (e_propagatesConcurrentSatisfiabilityToNext i)
                                           (e_propagatesConcurrentSatisfiabilityToNext u);
           uo_makeTopmost := xorb (e_makesNextTopmost i) (e_makesNextTopmost u);
           uo_makeTopLevel := xorb (e_propagatesTopLevel i) (e_propagatesTopLevel u);
           uo_setReductionInfo := xorb (e_propagatesReductionInfoToNext i)
                                    (e_propagatesReductionInfoToNext u);
           uo_reductionInfo := None;
           uo_reductionCpuSet := bs_zero 0 |} in
      if uo_empty operation then [] else [operation]
  end.

Definition fragment_ops (t : nat) (d d' : DataAccess B) : list (UpdateOperation B) :=
  if hasSubaccesses d' then
    let i := effects par d in
    let u := effects par d' in
    let operation :=
      {| uo_target := mkLink t fragment_type;
         uo_region := da_region d';
         uo_makeReadSatisfied := xorb (e_propagatesReadSatisfiabilityToFragments i)
                                   (e_propagatesReadSatisfiabilityToFragments u);
         uo_makeWriteSatisfied := xorb (e_propagatesWriteSatisfiabilityToFragments i)
                                    (e_propagatesWriteSatisfiabilityToFragments u);
         uo_makeConcurrentSatisfied := xorb (e_propagatesConcurrentSatisfiabilityToFragments i)
                                         (e_propagatesConcurrentSatisfiabilityToFragments u);
         uo_makeTopmost := false;
         uo_makeTopLevel := false;
         uo_setReductionInfo := xorb (e_propagatesReductionInfoToFragments i)
                                  (e_propagatesReductionInfoToFragments u);
         uo_reductionInfo := None;
         uo_reductionCpuSet := bs_zero 0 |} in
    if uo_empty operation then [] else [operation]
  else [].

Definition change_ops (t : nat) (d d' : DataAccess B) : list (UpdateOperation B) :=
  if isRegistered d' then next_ops d d' ++ fragment_ops t d d' else [].

(** The count of predecessors after a change. *)
Definition count_registration (t : nat) (d d' : DataAccess B) (o : obs) : obs :=
  if xorb (isRegistered d) (isRegistered d') && enforcesDependency d' then add_pred t 1 o else o.
Definition count_dependency (t : nat) (d d' : DataAccess B) (o : obs) : obs :=
  if isRegistered d' && enforcesDependency d && negb (enforcesDependency d')
  then dec_pred t o else o.

(** A change of the object [d] between [l1] and [l2], with what follows locally. *)
Definition change (t : nat) (k : DataAccessObjectType) (l1 : list (DataAccess B))
    (d d' : DataAccess B) (l2 : list (DataAccess B)) (o : obs) : obs :=
  obs_queue (λ q, q ++ change_ops t d d')
    (count_dependency t d d'
      (count_registration t d d' (put_objects t k (l1 ++ d' :: l2) o))).

(** The copies that fragmentation makes are registered one by one. *)
Definition count_copies (t : nat) (d : DataAccess B) (n : nat) (o : obs) : obs :=
  if enforcesDependency d then Nat.iter n (add_pred t 1) o else o.

Definition split (t : nat) (k : DataAccessObjectType) (l1 : list (DataAccess B)) (d : DataAccess B)
    (l2 : list (DataAccess B)) (fr : DataAccessRegion) (o : obs) : obs :=
  count_copies t d (length (new_pieces d fr setRegistered) - 1)
    (put_objects t k (l1 ++ new_pieces d fr setRegistered ++ l2) o).

(** *** What changes are allowed *)

(** An access that no reduction has to do with. *)
Definition plain (d : DataAccess B) : Prop :=
  da_type d ≠ REDUCTION_ACCESS_TYPE ∧ da_reductionInfo d = None ∧ da_previousReductionInfo d = None ∧
  receivedReductionCpuSet d = false ∧ allocatedReductionInfo d = false.

(** The bits that are only ever set, with the link to the next access. *)
Definition growing_bits (d : DataAccess B) : list bool :=
  [isRegistered d; complete d; readSatisfied d; writeSatisfied d; concurrentSatisfied d;
   receivedReductionInfo d; isTopmost d; isTopLevel d; hasNext d;
   negb (canPropagateReadSatisfiability d); negb (canPropagateConcurrentSatisfiability d);
   negb (canPropagateReductionInfo d)].

(** The access is the last one of its region, or has a next one. *)
Definition anchored (d : DataAccess B) : bool := isInBottomMap d || hasNext d.

Definition live_link (o : obs) (l : DataAccessLink) : Prop := is_Some (o_view o !! link_task l).

(** A change that registers an access leaves alone whether it enforces a dependency. *)
Record change_ok (o : obs) (k : DataAccessObjectType) (d d' : DataAccess B) : Prop := {
  co_same : da_type d' = da_type d ∧ da_weak d' = da_weak d ∧ da_originator d' = da_originator d ∧
    da_objectType d' = da_objectType d ∧ da_region d' = da_region d ∧
    hasSubaccesses d' = hasSubaccesses d;
  co_plain : plain d';
  co_bits : Forall2 (λ b b', implb b b' = true) (growing_bits d) (growing_bits d');
  co_registration : isRegistered d = isRegistered d' ∨ enforcesDependency d = enforcesDependency d';
  co_next : ∀ l, da_next d' = Some l → live_link o l;
  co_anchored : anchored d = true → anchored d' = true;
  co_bottom : map_kind k ≠ taskwait_type → k = fragment_type ∨ complete d' = true → anchored d' = true;
}.

(** A bottom map entry points at a child's access, or at a fragment or taskwait of the task. *)
Definition entry_ok (o : obs) (t : nat) (e : BottomMapEntry) : Prop :=
  live_link o (bme_link e) ∧
  match link_objectType (bme_link e) with
  | access_type => par (link_task (bme_link e)) = Some t
  | _ => link_task (bme_link e) = t
  end ∧
  bme_accessType e ≠ REDUCTION_ACCESS_TYPE.

(** An object of a map. *)
Record object_ok (o : obs) (t : nat) (k : DataAccessObjectType) (d : DataAccess B) : Prop := {
  ok_originator : da_originator d = t;
  ok_kind : map_kind (da_objectType d) = map_kind k;
  ok_plain : plain d;
  ok_next : ∀ l, da_next d = Some l → live_link o l;
  ok_sub : hasSubaccesses d = true → k = access_type;
  ok_bottom : map_kind k ≠ taskwait_type → k = fragment_type ∨ complete d = true → anchored d = true;
}.

(** The steps that propagation is made of. *)
Inductive pstep : obs → obs → Prop :=
  | step_split o t x k l1 d l2 fr :
      o_view o !! t = Some x → v_objects k x = l1 ++ d :: l2 → region_wf fr → intersects fr d →
      pstep o (split t k l1 d l2 fr o)
  | step_change o t x k l1 d d' l2 :
      o_view o !! t = Some x → v_objects k x = l1 ++ d :: l2 → change_ok o k d d' →
      pstep o (change t k l1 d d' l2 o)
  | step_erase o t x l1 d l2 :
      o_view o !! t = Some x → v_taskwaits x = l1 ++ d :: l2 →
      pstep o (put_objects t taskwait_type (l1 ++ l2) o)
  (** entries of the bottom map go with the fragments of a taskwait *)
  | step_bottom o t x l :
      o_view o !! t = Some x → v_taskwaits x ≠ [] → map_wf l → Forall (entry_ok o t) l →
      pstep o (put_bottom t l o).

(** The steps that only the thread of a task makes on its structures. *)
Inductive tstep : obs → obs → Prop :=
  | step_p o o' : pstep o o' → tstep o o'
  (** the accesses of a child become the last ones *)
  | step_link o t x l :
      o_view o !! t = Some x → map_wf l → Forall (entry_ok o t) l →
      tstep o (put_bottom t l o)
  (** a new object among the fragments or the taskwait fragments *)
  | step_insert o t x k l1 d l2 :
      o_view o !! t = Some x → v_objects k x = l1 ++ l2 → k ≠ access_type →
      map_wf (l1 ++ d :: l2) → object_ok o t k d →
      tstep o (put_objects t k (l1 ++ d :: l2) o)
  (** an access that is not linked yet *)
  | step_new_access o t x l1 d l2 :
      o_view o !! t = Some x → v_accesses x = l1 ++ l2 → isRegistered d = false →
      Forall (λ d, isRegistered d = false) (v_accesses x) →
      map_wf (l1 ++ d :: l2) → object_ok o t access_type d →
      tstep o (put_objects t access_type (l1 ++ d :: l2) o)
  (** accesses that are not linked yet are fragmented and upgraded *)
  | step_prepare o t x l :
      o_view o !! t = Some x → map_wf l → Forall (object_ok o t access_type) l →
      Forall (λ d, isRegistered d = false) (v_accesses x) → Forall (λ d, isRegistered d = false) l →
      tstep o (put_objects t access_type l o)
  (** whether accesses have subaccesses *)
  | step_sub o t x l1 d l2 b :
      o_view o !! t = Some x → v_accesses x = l1 ++ d :: l2 →
      tstep o (put_objects t access_type
                 (l1 ++ update_status (set_st_hasSubaccesses b) d :: l2) o)
  (** fragments and taskwait fragments are deleted *)
  | step_clear o t x k l :
      o_view o !! t = Some x → k ≠ access_type → l `sublist_of` v_objects k x →
      tstep o (put_objects t k l o).
End transitions.
End protocol.

Arguments task_view : clear implicits.
Arguments obs : clear implicits.
