(* ===== verification/FragmentedInvariant.v ===== *)
(** * Fragmented region dependencies: invariants of the protocol

    Every step keeps the maps sorted and disjoint, their objects of the right type, links to tasks
    that exist, and the count of predecessors of each task equal to the number of its registered
    accesses that enforce a dependency. *)

From S2P Require Import Prelude Region Boost RegionMap RegionMapProofs StateMonad.
From S2P Require Import IntrusiveRegionMap IntrusiveRegionMapProofs DataAccessType.
From S2P Require Import FragmentedAccess ReductionInfo FragmentedWorld FragmentedProtocol.
Local Open Scope Z_scope.

Section invariant.
Context {B : Type} `{!DynamicBitset B} `{!DynamicBitsetLaws B}.
Context (par : nat → option nat).
Implicit Types (o : obs B) (d : DataAccess B).

(** ** Well-formed states *)

Record op_ok o (u : UpdateOperation B) : Prop := {
  op_target : live_link o (uo_target u);
  op_region : region_wf (uo_region u);
  op_length : 0 < rlength (uo_region u);
  op_info : uo_reductionInfo u = None;
  op_cpus : bs_bits (uo_reductionCpuSet u) = [];
}.

Record view_ok o (t : nat) (x : task_view B) : Prop := {
  vo_parent : v_parent x = par t;
  vo_live_parent : ∀ p, par t = Some p → is_Some (o_view o !! p);
  vo_maps : ∀ k, map_wf (v_objects k x);
  vo_objects : ∀ k d, d ∈ v_objects k x → object_ok o t k d;
  vo_bottom : map_wf (v_bottom x);
  vo_entries : Forall (entry_ok par o t) (v_bottom x);
}.

Record wf o : Prop := {
  wf_view : ∀ t x, o_view o !! t = Some x → view_ok o t x;
  wf_queue : Forall (op_ok o) (o_queue o);
}.

(** ** Views *)

Lemma v_objects_set k k' l (x : task_view B) :
  v_objects k (set_v_objects k' l x) = if decide (map_kind k = map_kind k') then l else v_objects k x.
Proof. by destruct k, k'. Qed.

Lemma v_objects_bottom k l (x : task_view B) : v_objects k (set_v_bottom l x) = v_objects k x.
Proof. by destruct k. Qed.

Lemma v_parent_set k l (x : task_view B) : v_parent (set_v_objects k l x) = v_parent x.
Proof. by destruct k. Qed.

Lemma v_bottom_set k l (x : task_view B) : v_bottom (set_v_objects k l x) = v_bottom x.
Proof. by destruct k. Qed.

Lemma v_objects_kind k k' (x : task_view B) : map_kind k = map_kind k' → v_objects k x = v_objects k' x.
Proof. by destruct k, k'. Qed.

(** No step adds or removes tasks: links stay alive. *)
Definition same_tasks o o' : Prop := ∀ t, is_Some (o_view o' !! t) ↔ is_Some (o_view o !! t).

Lemma same_tasks_alter o (f : task_view B → task_view B) t : same_tasks o (obs_view (alter f t) o).
Proof.
  intros t'. simpl. destruct (decide (t = t')) as [<-|Hne].
  - by rewrite lookup_alter_eq, fmap_is_Some.
  - by rewrite lookup_alter_ne.
Qed.

Lemma same_tasks_refl o : same_tasks o o.
Proof. done. Qed.

Lemma live_link_mono o o' l : same_tasks o o' → live_link o l → live_link o' l.
Proof. intros Hs. apply Hs. Qed.

Lemma entry_ok_mono o o' t e : same_tasks o o' → entry_ok par o t e → entry_ok par o' t e.
Proof. intros Hs (? & ? & ?). split_and!; [by eapply live_link_mono|done..]. Qed.

Lemma op_ok_mono o o' u : same_tasks o o' → op_ok o u → op_ok o' u.
Proof. intros Hs [? ? ? ? ?]. split; try done. by eapply live_link_mono. Qed.

Lemma object_ok_mono o o' t k d : same_tasks o o' → object_ok o t k d → object_ok o' t k d.
Proof. intros Hs []. split; try done. intros l Hl. eapply live_link_mono; eauto. Qed.

Lemma object_ok_kind o t k k' d : map_kind k = map_kind k' → object_ok o t k d → object_ok o t k' d.
Proof.
  intros Hk [H1 H2 H3 H4 H5 H6]. split; try done.
  - congruence.
  - intros Hs. specialize (H5 Hs). subst k. by destruct k'.
  - intros Hne Ho. apply H6; [congruence|]. destruct Ho as [->|?]; [left|by right]. by destruct k.
Qed.

Lemma view_ok_mono o o' t x : same_tasks o o' → view_ok o t x → view_ok o' t x.
Proof.
  intros Hs [H1 H2 H3 H4 H5 H6]. split; try done.
  - intros p Hp. apply Hs. auto.
  - intros k d Hd. eapply object_ok_mono; eauto.
  - eapply Forall_impl; [done|]. intros e. by apply entry_ok_mono.
Qed.

(** A step that puts objects into one map of one task. *)
Lemma wf_put_objects o t x k l :
  wf o → o_view o !! t = Some x → map_wf l → (∀ d, d ∈ l → object_ok o t k d) →
  wf (put_objects t k l o).
Proof.
  intros [Hv Hq] Hx Hl Hd. assert (same_tasks o (put_objects t k l o)) as Hs by apply same_tasks_alter.
  split.
  - intros t' x'. simpl. destruct (decide (t = t')) as [<-|Hne].
    + rewrite lookup_alter_eq, Hx. simpl. intros [= <-].
      apply view_ok_mono with (1 := Hs). destruct (Hv _ _ Hx) as [H1 H2 H3 H4 H5 H6]. split.
      * by rewrite v_parent_set.
      * done.
      * intros k'. rewrite v_objects_set. by destruct (decide _).
      * intros k' d'. rewrite v_objects_set. destruct (decide _) as [He|He]; [|auto].
        intros Hd'. eapply object_ok_kind; [symmetry; done|auto].
      * by rewrite v_bottom_set.
      * by rewrite v_bottom_set.
    + rewrite lookup_alter_ne by done. intros Hx'. eapply view_ok_mono; eauto.
  - simpl. eapply Forall_impl; [done|]. intros u. by apply op_ok_mono.
Qed.

Lemma wf_put_bottom o t x l :
  wf o → o_view o !! t = Some x → map_wf l → Forall (entry_ok par o t) l → wf (put_bottom t l o).
Proof.
  intros [Hv Hq] Hx Hl He. assert (same_tasks o (put_bottom t l o)) as Hs by apply same_tasks_alter.
  split.
  - intros t' x'. simpl. destruct (decide (t = t')) as [<-|Hne].
    + rewrite lookup_alter_eq, Hx. simpl. intros [= <-].
      apply view_ok_mono with (1 := Hs). destruct (Hv _ _ Hx) as [H1 H2 H3 H4 H5 H6].
      split; [done..| | |done|done]; intros k'; rewrite v_objects_bottom; auto.
    + rewrite lookup_alter_ne by done. intros Hx'. eapply view_ok_mono; eauto.
  - simpl. eapply Forall_impl; [done|]. intros u. by apply op_ok_mono.
Qed.

(** The counts and the list of ready tasks do not matter. *)
Lemma wf_ext o o' : o_view o' = o_view o → o_queue o' = o_queue o → wf o → wf o'.
Proof.
  intros Hv Hq [H1 H2]. assert (same_tasks o o') as Hs by (intros t; by rewrite Hv). split.
  - intros t x. rewrite Hv. intros Hx. eapply view_ok_mono; eauto.
  - rewrite Hq. eapply Forall_impl; [done|]. intros u. by apply op_ok_mono.
Qed.

Lemma wf_queue_app o l : wf o → Forall (op_ok o) l → wf (obs_queue (λ q, q ++ l) o).
Proof.
  intros [H1 H2] Hl. split; simpl.
  - intros t x Hx. eapply view_ok_mono; [|eauto]. done.
  - apply Forall_app. split; (eapply Forall_impl; [done|]); intros u; by apply op_ok_mono.
Qed.

(** ** The parts of a step *)

Lemma count_registration_view t d d' o :
  o_view (count_registration t d d' o) = o_view o ∧ o_queue (count_registration t d d' o) = o_queue o.
Proof. unfold count_registration. by case_match. Qed.

Lemma count_registration_ready t d d' o : o_ready (count_registration t d d' o) = o_ready o.
Proof. unfold count_registration. by case_match. Qed.

Lemma count_dependency_view t d d' o :
  o_view (count_dependency t d d' o) = o_view o ∧ o_queue (count_dependency t d d' o) = o_queue o.
Proof. unfold count_dependency, dec_pred. case_match; [|done]. by case_decide. Qed.

Lemma count_copies_view t d n o :
  o_view (count_copies t d n o) = o_view o ∧ o_queue (count_copies t d n o) = o_queue o ∧
  o_ready (count_copies t d n o) = o_ready o.
Proof. unfold count_copies. case_match; [|done]. induction n as [|n IH]; [done|]. done. Qed.

Lemma change_view t k l1 d d' l2 o :
  o_view (change par t k l1 d d' l2 o) = o_view (put_objects t k (l1 ++ d' :: l2) o) ∧
  o_queue (change par t k l1 d d' l2 o) = o_queue o ++ change_ops par t d d'.
Proof.
  unfold change. simpl. destruct (count_dependency_view t d d'
    (count_registration t d d' (put_objects t k (l1 ++ d' :: l2) o))) as [-> ->].
  by destruct (count_registration_view t d d' (put_objects t k (l1 ++ d' :: l2) o)) as [-> ->].
Qed.

(** *** Objects *)

Lemma setRegistered_region d : getAccessRegion (setRegistered d) = getAccessRegion d.
Proof. done. Qed.

Lemma object_ok_cut o t k d r : object_ok o t k d → object_ok o t k (setAccessRegion r d).
Proof. by intros []. Qed.

Lemma object_ok_registered o t k d : object_ok o t k d → object_ok o t k (setRegistered d).
Proof. by intros []. Qed.

Lemma new_pieces_ok o t k d fr c :
  object_ok o t k d → c ∈ new_pieces d fr setRegistered → object_ok o t k c.
Proof.
  intros Hd. unfold new_pieces.
  assert (∀ c', c' ∈ left_piece d fr ++ right_piece d fr → object_ok o t k (setRegistered c')) as Hp.
  { intros c'. unfold left_piece, right_piece. intros Hc'. apply object_ok_registered.
    repeat case_match; set_unfold in Hc'; destruct_or?; subst; by try apply object_ok_cut. }
  intros [Hc|[->|Hc]%elem_of_cons]%elem_of_app; [| by apply object_ok_cut|];
    apply list_elem_of_fmap in Hc as (c' & -> & Hc); apply Hp; set_solver.
Qed.

Lemma object_ok_change o t k d d' : object_ok o t k d → change_ok o k d d' → object_ok o t k d'.
Proof.
  intros [H1 H2 H3 H4 H5 H6] [(_ & _ & Ho & Hk & _ & Hs) Hp _ _ Hn _ Hb].
  split; try done; try congruence.
  rewrite Hs. done.
Qed.

Lemma change_ops_ok o t x k d d' :
  wf o → o_view o !! t = Some x → content_wf d → change_ok o k d d' →
  Forall (op_ok o) (change_ops par t d d').
Proof.
  intros Hwf Hx Hcw Hc. pose proof (co_same _ _ _ _ Hc) as (_ & _ & _ & _ & Hr & _).
  destruct Hcw as [Hcw1 Hcw2]. simpl in *.
  unfold change_ops. case_match; [|constructor]. apply Forall_app. split.
  - unfold next_ops. destruct (da_next d') as [l|] eqn:Hl; [|constructor]. case_match; [constructor|].
    constructor; [|constructor]. split; simpl.
    + by eapply co_next.
    + by rewrite Hr.
    + by rewrite Hr.
    + done.
    + by rewrite (bs_bits_zero (B := B)).
  - unfold fragment_ops. case_match; [|constructor]. case_match; [constructor|].
    constructor; [|constructor]. split; simpl.
    + by exists x.
    + by rewrite Hr.
    + by rewrite Hr.
    + done.
    + by rewrite (bs_bits_zero (B := B)).
Qed.

(** ** Well-formedness is kept *)

Lemma wf_lookup o t x k l1 d l2 :
  wf o → o_view o !! t = Some x → v_objects k x = l1 ++ d :: l2 →
  map_wf (l1 ++ d :: l2) ∧ content_wf d ∧ object_ok o t k d ∧
  ∀ c, c ∈ l1 ++ l2 → object_ok o t k c.
Proof.
  intros Hwf Hx Hl. destruct (wf_view _ Hwf _ _ Hx) as [_ _ Hm Ho _ _].
  specialize (Hm k). specialize (Ho k). rewrite Hl in Hm, Ho.
  split_and!; [done| |apply Ho; set_solver|intros c Hc; apply Ho; set_solver].
  eapply map_wf_elem; [done|]. set_solver.
Qed.

Lemma pstep_wf o o' : wf o → pstep par o o' → wf o'.
Proof.
  intros Hwf Hs. destruct Hs as [o t x k l1 d l2 fr Hx Hl Hfr Hi|o t x k l1 d d' l2 Hx Hl Hc
    |o t x l1 d l2 Hx Hl|o t x l Hx Htw Hl He].
  - destruct (wf_lookup _ _ _ _ _ _ _ Hwf Hx Hl) as (Hm & Hcw & Hd & Ho). unfold split.
    eapply wf_ext; [apply count_copies_view..|]. eapply wf_put_objects; [done|done| |].
    + by apply new_pieces_wf.
    + intros c [Hc|[Hc|Hc]%elem_of_app]%elem_of_app; [apply Ho; set_solver| |apply Ho; set_solver].
      by eapply new_pieces_ok.
  - destruct (wf_lookup _ _ _ _ _ _ _ Hwf Hx Hl) as (Hm & Hcw & Hd & Ho).
    destruct (change_view t k l1 d d' l2 o) as [Hv Hq].
    assert (wf (put_objects t k (l1 ++ d' :: l2) o)) as Hwf'.
    { eapply wf_put_objects; [done|done| |].
      - eapply map_wf_ext; [|exact Hm]. rewrite !fmap_app, !fmap_cons. do 2 f_equal. simpl.
        symmetry. apply (co_same _ _ _ _ Hc).
      - intros c [Hc'|[->|Hc']%elem_of_cons]%elem_of_app; [apply Ho; set_solver| |apply Ho; set_solver].
        by eapply object_ok_change. }
    apply (wf_ext (obs_queue (λ q, q ++ change_ops par t d d') (put_objects t k (l1 ++ d' :: l2) o)));
      [exact Hv|exact Hq|].
    apply wf_queue_app; [done|]. eapply Forall_impl; [exact (change_ops_ok o t x k d d' Hwf Hx Hcw Hc)|]. intros u. apply op_ok_mono, same_tasks_alter.
  - destruct (wf_lookup _ _ _ taskwait_type _ _ _ Hwf Hx Hl) as (Hm & Hcw & Hd & Ho).
    eapply wf_put_objects; [done|done| |done]. eapply map_wf_sublist; [|exact Hm].
    by apply sublist_app, sublist_cons.
  - by eapply wf_put_bottom.
Qed.

Lemma tstep_wf o o' : wf o → tstep par o o' → wf o'.
Proof.
  intros Hwf Hs. destruct Hs as [o o' Hs|o t x l Hx Hl He|o t x k l1 d l2 Hx Hl Hk Hm Hd|o t x l1 d l2 Hx Hl Hr Hr0 Hm Hd
    |o t x l Hx Hm Ho Hr Hr'|o t x l1 d l2 b Hx Hl|o t x k l Hx Hk Hl].
  - by eapply pstep_wf.
  - by eapply wf_put_bottom.
  - eapply wf_put_objects; [done..|]. intros c [Hc|[->|Hc]%elem_of_cons]%elem_of_app; [|done|];
      (apply (vo_objects _ _ _ (wf_view _ Hwf _ _ Hx)); rewrite Hl; set_solver).
  - eapply wf_put_objects; [done..|]. intros c [Hc|[->|Hc]%elem_of_cons]%elem_of_app; [|done|];
      (apply (vo_objects _ _ _ (wf_view _ Hwf _ _ Hx) access_type); simpl; rewrite Hl; set_solver).
  - eapply wf_put_objects; [done..|]. by apply Forall_forall.
  - destruct (wf_lookup _ _ _ access_type _ _ _ Hwf Hx Hl) as (Hm & Hcw & Hd & Ho).
    eapply wf_put_objects; [done|done| |].
    + eapply map_wf_ext; [|exact Hm]. by rewrite !fmap_app, !fmap_cons.
    + intros c [Hc|[->|Hc]%elem_of_cons]%elem_of_app; [apply Ho; set_solver| |apply Ho; set_solver].
      by destruct Hd.
  - pose proof (wf_view _ Hwf _ _ Hx) as Hv. eapply wf_put_objects; [done|done| |].
    + eapply map_wf_sublist; [done|]. apply (vo_maps _ _ _ Hv).
    + intros c Hc. apply (vo_objects _ _ _ Hv). by eapply elem_of_sublist.
Qed.

(** ** The count of predecessors is exact *)

(** The registered accesses of a task that enforce a dependency. *)
Definition enforcing (d : DataAccess B) : bool := isRegistered d && enforcesDependency d.
Definition unsatisfied (x : task_view B) : nat := countb enforcing (v_accesses x).

(** Every count is that of the unsatisfied accesses plus an extra amount. *)
Definition counted (extra : nat → Z) o : Prop :=
  ∀ t x, o_view o !! t = Some x → o_pred o !! t = Some (wrap_int (extra t + Z.of_nat (unsatisfied x))).

Lemma wrap_int_idemp a b : wrap_int (wrap_int a + b) = wrap_int (a + b).
Proof.
  unfold wrap_int. f_equal. replace ((a + 2 ^ 31) `mod` 2 ^ 32 - 2 ^ 31 + b + 2 ^ 31)
    with ((a + 2 ^ 31) `mod` 2 ^ 32 + b) by lia.
  rewrite Zplus_mod_idemp_l. f_equal. lia.
Qed.

Lemma add_pred_view t n o : o_view (add_pred t n o) = o_view o.
Proof. done. Qed.

Lemma iter_add_pred t n o t' :
  o_pred (Nat.iter n (add_pred t 1) o) !! t' =
  if decide (t = t') then (λ c, if decide (n = 0%nat) then c else wrap_int (c + Z.of_nat n)) <$> o_pred o !! t'
  else o_pred o !! t'.
Proof.
  induction n as [|n IH]; simpl.
  - destruct (decide (t = t')); [|done]. by destruct (o_pred o !! t').
  - destruct (decide (t = t')) as [<-|Hne].
    + rewrite lookup_alter_eq, IH. destruct (o_pred o !! t) as [c|]; [|done]. simpl. f_equal.
      destruct (decide (n = 0%nat)) as [->|]; [done|]. rewrite wrap_int_idemp. f_equal. lia.
    + by rewrite lookup_alter_ne, IH.
Qed.

(** Only accesses enforce dependencies. *)
Lemma enforces_access o t k d :
  object_ok o t k d → enforcesDependency d = true → k = access_type ∧ da_objectType d = access_type.
Proof.
  intros [_ Hk _ _ _ _]. unfold enforcesDependency. intros He. bool_hyps.
  apply bool_decide_eq_true in H0. rewrite H0 in Hk. by destruct k.
Qed.

Lemma enforces_cut d r : enforcesDependency (setAccessRegion r d) = enforcesDependency d.
Proof. done. Qed.

Lemma countb_copies d fr :
  countb enforcing (new_pieces d fr setRegistered) =
  ((if enforcing d then 1 else 0) +
   if enforcesDependency d then length (new_pieces d fr setRegistered) - 1 else 0)%nat.
Proof.
  unfold new_pieces, left_piece, right_piece, middle_piece, cut, countb, enforcing.
  destruct (cstart d <? _), (_ <? cend d); simpl;
  change (isRegistered (set_da_region ?r d)) with (isRegistered d);
  rewrite ?filter_cons, ?filter_nil; simpl;
  unfold isRegistered, setRegistered, update_status; simpl;
  repeat match goal with |- context [enforcesDependency ?c] =>
    lazymatch c with d => fail | _ => change (enforcesDependency c) with (enforcesDependency d) end end;
  destruct (st_registered (da_status d)), (enforcesDependency d); simpl; reflexivity.
Qed.

(** The task has accesses, and all are registered and linked. *)
Definition all_registered (l : list (DataAccess B)) : Prop :=
  l ≠ [] ∧ Forall (λ d, isRegistered d = true ∧ anchored d = true) l.
Definition linked (x : task_view B) : Prop := all_registered (v_accesses x).

Lemma all_registered_middle l1 d l2 l :
  all_registered (l1 ++ d :: l2) → l ≠ [] →
  (isRegistered d = true → anchored d = true → Forall (λ d, isRegistered d = true ∧ anchored d = true) l) →
  all_registered (l1 ++ l ++ l2).
Proof.
  intros [_ [H1 [[H2 H2'] H3]%Forall_cons]%Forall_app] Hne Hl. split.
  - intros He. apply app_nil in He as [_ He]. apply app_nil in He as [He _]. done.
  - rewrite !Forall_app. auto.
Qed.

(** What a step does to the count of a task: the task becomes ready when its last unsatisfied access
    is satisfied, and stays so once all its accesses are registered. *)
Definition count_step (extra : nat → Z) o o' : Prop :=
  ∃ added, o_ready o' = o_ready o ++ added ∧
  ∀ t x x', o_view o !! t = Some x → o_view o' !! t = Some x' →
    occ t added = (if decide ((unsatisfied x' < unsatisfied x)%nat ∧
                              wrap_int (extra t + Z.of_nat (unsatisfied x')) = 0) then 1%nat else 0%nat) ∧
    (linked x → linked x' ∧ (unsatisfied x = 0%nat → unsatisfied x' = 0%nat)).

(** Putting objects into a map changes the accesses of one task at most. *)
Lemma lookup_put_objects t k l o t' :
  o_view (put_objects t k l o) !! t' =
  if decide (t = t') then set_v_objects k l <$> o_view o !! t' else o_view o !! t'.
Proof.
  simpl. destruct (decide (t = t')) as [<-|Hne]; [by rewrite lookup_alter_eq|by rewrite lookup_alter_ne].
Qed.

Lemma v_accesses_set k l (x : task_view B) :
  v_accesses (set_v_objects k l x) = if decide (k = access_type) then l else v_accesses x.
Proof. by destruct k. Qed.

Lemma unsatisfied_set k l (x : task_view B) :
  unsatisfied (set_v_objects k l x) = if decide (k = access_type) then countb enforcing l else unsatisfied x.
Proof. unfold unsatisfied. rewrite v_accesses_set. by destruct (decide _). Qed.

(** A step that changes nothing that is counted. *)
Lemma counted_put_objects extra o t x k l :
  counted extra o → o_view o !! t = Some x →
  (k = access_type → countb enforcing l = unsatisfied x) → counted extra (put_objects t k l o).
Proof.
  intros Hc Hx Hl t' x'. rewrite lookup_put_objects. simpl. destruct (decide (t = t')) as [<-|Hne].
  - rewrite Hx. simpl. intros [= <-]. rewrite unsatisfied_set, (Hc _ _ Hx).
    destruct (decide _) as [He|He]; [by rewrite Hl|done].
  - apply Hc.
Qed.

Lemma count_step_same extra o t x k l :
  o_view o !! t = Some x →
  (k = access_type → countb enforcing l = unsatisfied x ∧
     (linked x → all_registered l)) →
  count_step extra o (put_objects t k l o).
Proof.
  intros Hx Hl. exists []. split; [by rewrite app_nil_r|]. intros t' y y' Hy. rewrite lookup_put_objects.
  assert (∀ u : nat, ¬ ((u < u)%nat ∧ wrap_int (extra t' + Z.of_nat u) = 0)) as Hirr by lia.
  destruct (decide (t = t')) as [<-|Hne].
  - rewrite Hx in Hy |- *. injection Hy as <-. simpl. intros [= <-]. unfold linked.
    rewrite unsatisfied_set, v_accesses_set. destruct (decide (k = access_type)) as [He|He].
    + destruct (Hl He) as [Hc Hr]. rewrite Hc, decide_False by done. auto.
    + rewrite decide_False by done. auto.
  - rewrite Hy. intros [= <-]. rewrite decide_False by done. auto.
Qed.

(** *** Splitting *)

Lemma unsatisfied_split x l1 d l2 l :
  v_accesses x = l1 ++ d :: l2 →
  countb enforcing (l1 ++ l ++ l2) =
  (unsatisfied x - (if enforcing d then 1 else 0) + countb enforcing l)%nat.
Proof.
  intros Hx. unfold unsatisfied. rewrite Hx, !countb_app, countb_cons. destruct (enforcing d); lia.
Qed.

Lemma new_pieces_length d fr : (1 ≤ length (new_pieces d fr setRegistered))%nat.
Proof. unfold new_pieces. rewrite length_app. simpl. lia. Qed.

Lemma pred_count_copies t d n o t' :
  o_pred (count_copies t d n o) !! t' =
  if decide (t = t' ∧ enforcesDependency d = true ∧ n ≠ 0%nat)
  then (λ c, wrap_int (c + Z.of_nat n)) <$> o_pred o !! t' else o_pred o !! t'.
Proof.
  unfold count_copies. destruct (enforcesDependency d).
  - rewrite iter_add_pred. destruct (decide (t = t')) as [->|Hne].
    + destruct (decide (n = 0%nat)) as [->|Hn].
      * rewrite decide_False by tauto. by destruct (o_pred o !! t').
      * by rewrite decide_True.
    + by rewrite decide_False by tauto.
  - by rewrite decide_False by (intros (_ & ? & _); done).
Qed.

Lemma split_counted extra o t x k l1 d l2 fr :
  wf o → counted extra o → o_view o !! t = Some x → v_objects k x = l1 ++ d :: l2 →
  counted extra (split t k l1 d l2 fr o) ∧ count_step extra o (split t k l1 d l2 fr o).
Proof.
  intros Hwf Hc Hx Hl. destruct (wf_lookup _ _ _ _ _ _ _ Hwf Hx Hl) as (_ & _ & Hd & _).
  unfold split. set (np := new_pieces d fr setRegistered). set (n := (length np - 1)%nat).
  destruct (count_copies_view t d n (put_objects t k (l1 ++ np ++ l2) o)) as (Hv & _ & Hr).
  assert (k = access_type → countb enforcing (l1 ++ np ++ l2) =
    (unsatisfied x + if enforcesDependency d then n else 0)%nat) as Hcnt.
  { intros ->. rewrite (unsatisfied_split x l1 d l2) by done. subst np n. rewrite countb_copies.
    assert (enforcing d = true → (1 ≤ unsatisfied x)%nat).
    { intros He. unfold unsatisfied. simpl in Hl. rewrite Hl, countb_app, countb_cons, He. lia. }
    destruct (enforcing d); lia. }
  split.
  - intros t' x'. rewrite Hv, pred_count_copies, lookup_put_objects. simpl.
    destruct (decide (t = t')) as [<-|Hne].
    + rewrite Hx. simpl. intros [= <-]. rewrite unsatisfied_set, (Hc _ _ Hx).
      destruct (enforcesDependency d) eqn:He.
      * destruct (enforces_access _ _ _ _ Hd He) as [-> _].
        destruct (decide (access_type = access_type)) as [_|?]; [|done]. rewrite Hcnt by done.
        destruct (decide (n = 0%nat)) as [Hn|Hn].
        -- rewrite decide_False by tauto. do 2 f_equal. lia.
        -- rewrite decide_True by tauto. simpl. rewrite wrap_int_idemp. do 2 f_equal. lia.
      * rewrite decide_False by (intros (_ & ? & _); done).
        destruct (decide (k = access_type)) as [->|]; [|done]. rewrite Hcnt by done. do 3 f_equal. lia.
    + rewrite decide_False by tauto. apply Hc.
  - exists []. rewrite Hr. split; [by rewrite app_nil_r|]. intros t' y y' Hy. rewrite Hv, lookup_put_objects.
    destruct (decide (t = t')) as [<-|Hne].
    + rewrite Hx in Hy |- *. injection Hy as <-. simpl. intros [= <-]. unfold linked.
      rewrite unsatisfied_set, v_accesses_set. destruct (decide (k = access_type)) as [->|].
      * rewrite Hcnt, decide_False by (done || lia). split; [done|]. simpl in Hl. rewrite Hl.
        intros Hlk. split.
        -- eapply all_registered_middle; [done| |].
           ++ intros He. pose proof (new_pieces_length d fr) as Hlen. fold np in Hlen. rewrite He in Hlen.
              simpl in Hlen. lia.
           ++ intros H2 H2'. subst np. unfold new_pieces. apply Forall_app. split; [|constructor; [done|]];
                apply Forall_fmap, Forall_forall; intros c Hin; unfold left_piece, right_piece in Hin;
                case_match; set_unfold in Hin; destruct_or?; subst; done.
        -- intros H0. destruct (enforcesDependency d) eqn:He; [|lia]. exfalso.
           assert (1 ≤ unsatisfied x)%nat; [|lia]. unfold unsatisfied. rewrite Hl, countb_app, countb_cons.
           destruct Hlk as [_ [_ [[H2 _] _]%Forall_cons]%Forall_app]. unfold enforcing at 2. rewrite H2, He. simpl. lia.
      * rewrite decide_False by lia. auto.
    + rewrite Hy. intros [= <-]. rewrite decide_False by lia. auto.
Qed.

(** *** Changes *)

(** The bits of a change, one by one. *)
Lemma change_bits o k d d' :
  change_ok o k d d' →
  (isRegistered d = true → isRegistered d' = true) ∧ (complete d = true → complete d' = true) ∧
  (readSatisfied d = true → readSatisfied d' = true) ∧
  (writeSatisfied d = true → writeSatisfied d' = true) ∧
  (concurrentSatisfied d = true → concurrentSatisfied d' = true) ∧
  (receivedReductionInfo d = true → receivedReductionInfo d' = true) ∧
  (isTopmost d = true → isTopmost d' = true) ∧ (isTopLevel d = true → isTopLevel d' = true) ∧
  (hasNext d = true → hasNext d' = true).
Proof.
  intros Hc. pose proof (co_bits _ _ _ _ Hc) as Hb. unfold growing_bits in Hb.
  repeat match goal with H : Forall2 _ (_ :: _) (_ :: _) |- _ => apply Forall2_cons in H as [? H] end.
  split_and!; intros Ht; match goal with
  | Ht : ?b = true |- ?b' = true =>
      match goal with H : implb b b' = true |- _ => rewrite Ht in H; exact H end end.
Qed.

(** Without reductions, an access stays satisfied. *)
Lemma satisfied_grows o k d d' :
  plain d → change_ok o k d d' → satisfied d = true → satisfied d' = true.
Proof.
  intros (_ & Hi & Hp & Hcpu & _) Hc. destruct (change_bits _ _ _ _ Hc) as (_ & _ & Hr & Hw & Hcc & Hri & _).
  destruct (co_plain _ _ _ _ Hc) as (Ht & Hi' & Hp' & Hcpu' & _).
  destruct (co_same _ _ _ _ Hc) as (Hty & _). unfold satisfied. rewrite Hty, Hp, Hp'. simpl.
  destruct (da_type d) eqn:Et; try done; intros Hs; bool_hyps; rewrite ?Hr, ?Hw, ?Hcc, ?Hri by done; done.
Qed.

Lemma enforces_shrinks o k d d' :
  plain d → change_ok o k d d' → enforcesDependency d' = true → enforcesDependency d = true.
Proof.
  intros Hp Hc He. destruct (co_same _ _ _ _ Hc) as (Hty & Hwk & _ & Ho & _).
  pose proof (satisfied_grows _ _ _ _ Hp Hc) as Hs. destruct (co_plain _ _ _ _ Hc) as (Ht & _).
  unfold enforcesDependency in *. rewrite Hty in Ht, He. rewrite Hwk, Ho in He.
  rewrite (bool_decide_eq_false_2 (da_type d = _)) in He |- * by done.
  destruct (satisfied d) eqn:Es; [rewrite (Hs eq_refl) in He|]; by destruct (da_weak d), (satisfied d').
Qed.

Lemma unsatisfied_change x l1 d d' l2 :
  v_accesses x = l1 ++ d :: l2 →
  (countb enforcing (l1 ++ d' :: l2) + (if enforcing d then 1 else 0) =
   unsatisfied x + (if enforcing d' then 1 else 0))%nat.
Proof. intros Hx. unfold unsatisfied. rewrite Hx, !countb_app, !countb_cons. lia. Qed.

Lemma pred_count_registration t d d' o t' :
  o_pred (count_registration t d d' o) !! t' =
  if decide (t = t' ∧ xorb (isRegistered d) (isRegistered d') && enforcesDependency d' = true)
  then (λ c, wrap_int (c + 1)) <$> o_pred o !! t' else o_pred o !! t'.
Proof.
  unfold count_registration. destruct (xorb _ _ && _).
  - simpl. destruct (decide (t = t')) as [<-|Hne].
    + rewrite decide_True by done. by rewrite lookup_alter_eq.
    + rewrite decide_False by tauto. by rewrite lookup_alter_ne.
  - by rewrite decide_False by (intros [_ ?]; done).
Qed.

Lemma pred_count_dependency t d d' o t' :
  o_pred (count_dependency t d d' o) !! t' =
  (if decide (t = t' ∧ isRegistered d' && enforcesDependency d && negb (enforcesDependency d') = true)
   then (λ c, wrap_int (c - 1)) <$> o_pred o !! t' else o_pred o !! t') ∧
  o_ready (count_dependency t d d' o) =
    o_ready o ++ (if decide (isRegistered d' && enforcesDependency d && negb (enforcesDependency d') = true ∧
                            (λ c, wrap_int (c - 1)) <$> o_pred o !! t = Some 0) then [t] else []).
Proof.
  unfold count_dependency, dec_pred. destruct (_ && _ && _).
  - simpl. split.
    + assert (∀ P Q : obs B, o_pred (if decide (alter (λ c, wrap_int (c + -1)) t (o_pred o) !! t = Some 0) then P else Q) =
        if decide (alter (λ c, wrap_int (c + -1)) t (o_pred o) !! t = Some 0) then o_pred P else o_pred Q) as Hif.
      { intros. by destruct (decide _). }
      rewrite Hif. assert (alter (λ c, wrap_int (c + -1)) t (o_pred o) !! t' =
        if decide (t = t' ∧ true = true) then (λ c, wrap_int (c - 1)) <$> o_pred o !! t' else o_pred o !! t') as <-.
      { destruct (decide (t = t')) as [<-|Hne].
        - by rewrite decide_True, lookup_alter_eq.
        - rewrite decide_False by tauto. by rewrite lookup_alter_ne. }
      by destruct (decide _).
    + rewrite lookup_alter_eq. replace (λ c, wrap_int (c + -1)) with (λ c, wrap_int (c - 1)) by done.
      destruct (decide (_ = Some 0)) as [He|He]; simpl.
      * by rewrite decide_True.
      * rewrite decide_False by tauto. by rewrite app_nil_r.
  - split; [by rewrite decide_False by (intros [_ ?]; done)|].
    rewrite decide_False by (intros [? _]; done). by rewrite app_nil_r.
Qed.

(** What a change counts: registrations, and dependencies that are satisfied. *)
Lemma change_counts o t k d d' :
  object_ok o t k d → change_ok o k d d' →
  let registers := xorb (isRegistered d) (isRegistered d') && enforcesDependency d' in
  let satisfies := isRegistered d' && enforcesDependency d && negb (enforcesDependency d') in
  (registers = true ∨ satisfies = true → k = access_type) ∧
  (registers = true → satisfies = false) ∧
  ((if enforcing d' then 1 else 0) + (if satisfies then 1 else 0) =
   (if enforcing d then 1 else 0) + (if registers then 1 else 0))%nat ∧
  (isRegistered d = true → registers = false).
Proof.
  intros Hd Hc. pose proof (enforces_shrinks _ _ _ _ (ok_plain _ _ _ _ Hd) Hc) as He.
  destruct (change_bits _ _ _ _ Hc) as (Hr & _). pose proof (co_registration _ _ _ _ Hc) as Hreg.
  pose proof (object_ok_change _ _ _ _ _ Hd Hc) as Hd'. simpl.
  pose proof (enforces_access _ _ _ _ Hd) as Ha. pose proof (enforces_access _ _ _ _ Hd') as Ha'.
  unfold enforcing. destruct (isRegistered d), (isRegistered d'), (enforcesDependency d), (enforcesDependency d');
    simpl; try (by specialize (Hr eq_refl)); try (by specialize (He eq_refl));
    try (by destruct Hreg); split_and!; try done; intros [?|?]; try done; by (apply Ha || apply Ha').
Qed.

Definition registers d d' : bool := xorb (isRegistered d) (isRegistered d') && enforcesDependency d'.
Definition satisfies d d' : bool :=
  isRegistered d' && enforcesDependency d && negb (enforcesDependency d').

Lemma pred_change t k l1 d d' l2 o n :
  (registers d d' = true → satisfies d d' = false) → o_pred o !! t = Some (wrap_int n) →
  let n' := n + (if registers d d' then 1 else 0) - (if satisfies d d' then 1 else 0) in
  o_pred (change par t k l1 d d' l2 o) !! t = Some (wrap_int n') ∧
  o_ready (change par t k l1 d d' l2 o) =
    o_ready o ++ (if decide (satisfies d d' = true ∧ wrap_int n' = 0) then [t] else []) ∧
  ∀ t', t ≠ t' → o_pred (change par t k l1 d d' l2 o) !! t' = o_pred o !! t'.
Proof.
  intros Hexcl Hn n'. set (o1 := put_objects t k (l1 ++ d' :: l2) o).
  assert (o_pred o1 = o_pred o) as Ho1 by done. assert (o_ready o1 = o_ready o) as Hr1 by done.
  unfold change. fold o1. clearbody o1. simpl.
  set (o2 := count_registration t d d' o1).
  assert (o_pred o2 !! t = Some (wrap_int (n + if registers d d' then 1 else 0))) as Hp2.
  { subst o2. rewrite pred_count_registration, Ho1, Hn. unfold registers.
    destruct (xorb _ _ && _); simpl.
    - by rewrite decide_True, wrap_int_idemp.
    - rewrite decide_False by (intros [_ ?]; done). do 2 f_equal. lia. }
  assert (o_ready o2 = o_ready o) as Hr2 by (subst o2; by rewrite count_registration_ready).
  assert (∀ t', t ≠ t' → o_pred o2 !! t' = o_pred o !! t') as Ho2.
  { intros t' Hne. subst o2. rewrite pred_count_registration, Ho1. by rewrite decide_False by tauto. }
  clearbody o2. destruct (pred_count_dependency t d d' o2 t) as [-> ->]. rewrite Hr2, Hp2.
  fold (satisfies d d'). simpl. split_and!.
  - destruct (satisfies d d'); simpl.
    + rewrite decide_True by done. rewrite <- Z.add_opp_r, wrap_int_idemp. do 2 f_equal.
    + rewrite decide_False by (intros [_ ?]; done). do 2 f_equal. lia.
  - f_equal. destruct (satisfies d d') eqn:Es; [|by rewrite !decide_False by (intros [? _]; done)].
    rewrite <- Z.add_opp_r, wrap_int_idemp. unfold n'. rewrite Z.add_opp_r.
    apply decide_ext. rewrite (inj_iff Some). naive_solver.
  - intros t' Hne. destruct (pred_count_dependency t d d' o2 t') as [-> _].
    rewrite decide_False by tauto. auto.
Qed.

Lemma change_counted extra o t x k l1 d d' l2 :
  wf o → counted extra o → o_view o !! t = Some x → v_objects k x = l1 ++ d :: l2 → change_ok o k d d' →
  counted extra (change par t k l1 d d' l2 o) ∧ count_step extra o (change par t k l1 d d' l2 o).
Proof.
  intros Hwf Hc Hx Hl Hok. destruct (wf_lookup _ _ _ _ _ _ _ Hwf Hx Hl) as (_ & _ & Hd & _).
  destruct (change_counts _ _ _ _ _ Hd Hok) as (Hk & Hexcl & Hcnt & Hlk).
  fold (registers d d') (satisfies d d') in Hk, Hexcl, Hcnt, Hlk.
  destruct (change_view t k l1 d d' l2 o) as [Hv _].
  set (x' := set_v_objects k (l1 ++ d' :: l2) x).
  assert (unsatisfied x' + (if satisfies d d' then 1 else 0) =
          unsatisfied x + (if registers d d' then 1 else 0))%nat as Hu.
  { subst x'. rewrite unsatisfied_set. destruct (decide (k = access_type)) as [->|Hne].
    - pose proof (unsatisfied_change x l1 d d' l2 Hl). lia.
    - destruct (registers d d'), (satisfies d d'); try lia; exfalso; auto. }
  destruct (pred_change t k l1 d d' l2 o _ Hexcl (Hc _ _ Hx)) as (Hpt & Hready & Hp').
  replace (extra t + _ + _ - _) with (extra t + Z.of_nat (unsatisfied x')) in Hpt, Hready
    by (destruct (registers d d'), (satisfies d d'); lia).
  split.
  - intros t' y'. rewrite Hv, lookup_put_objects. destruct (decide (t = t')) as [<-|Hne].
    + rewrite Hx. simpl. by intros [= <-].
    + rewrite Hp' by done. apply Hc.
  - eexists. split; [exact Hready|]. intros t' y y' Hy. rewrite Hv, lookup_put_objects.
    destruct (decide (t = t')) as [<-|Hne].
    + rewrite Hx in Hy |- *. injection Hy as <-. simpl. intros [= <-]. fold x'. split.
      * destruct (decide (satisfies d d' = true ∧ _)) as [[Hs Hw]|Hs].
        -- rewrite Hs in Hu, Hexcl. destruct (registers d d'); [discriminate (Hexcl eq_refl)|].
           rewrite decide_True by (split; [lia|done]). by rewrite occ_cons, decide_True, occ_nil.
        -- rewrite decide_False; [by rewrite occ_nil|]. intros [Hlt Hw]. apply Hs. split; [|done].
           destruct (satisfies d d'); [done|]. lia.
      * unfold linked. subst x'. rewrite v_accesses_set. intros Hlx. destruct (decide (k = access_type)) as [->|Hne].
        -- simpl in Hl. rewrite Hl in Hlx. pose proof Hlx as [Hne [_ [[H2 _] _]%Forall_cons]%Forall_app].
           rewrite (Hlk H2) in Hu. split; [|lia]. apply (all_registered_middle l1 d l2 [d']); [done|done|].
           intros H3 H4. constructor; [|done]. split; [by apply (change_bits _ _ _ _ Hok)|].
           by apply (co_anchored _ _ _ _ Hok).
        -- rewrite unsatisfied_set, decide_False by done. done.
    + rewrite Hy. intros [= <-]. split; [|auto].
      rewrite (decide_False (P := (unsatisfied y < unsatisfied y)%nat ∧ _)) by lia.
      destruct (decide _); [|by rewrite occ_nil]. by rewrite occ_cons, decide_False, occ_nil.
Qed.

(** *** All the steps *)

Lemma bottom_counted extra o t x l :
  counted extra o → o_view o !! t = Some x →
  counted extra (put_bottom t l o) ∧ count_step extra o (put_bottom t l o).
Proof.
  intros Hc Hx. assert (∀ t' y, o_view (put_bottom t l o) !! t' = Some y →
    ∃ y', o_view o !! t' = Some y' ∧ v_accesses y = v_accesses y') as Hsame.
  { intros t' y. simpl. destruct (decide (t = t')) as [<-|Hne].
    - rewrite lookup_alter_eq, Hx. simpl. intros [= <-]. by exists x.
    - rewrite lookup_alter_ne by done. intros Hy. by exists y. }
  unfold counted, count_step, linked, unsatisfied in *. split.
  - intros t' y Hy. destruct (Hsame _ _ Hy) as (y' & Hy' & ->). by apply Hc.
  - exists []. split; [by rewrite app_nil_r|]. intros t' y y' Hy Hy'.
    destruct (Hsame _ _ Hy') as (y'' & Hy'' & ->). assert (y'' = y) as -> by congruence.
    rewrite decide_False by lia. auto.
Qed.

Lemma pstep_counted extra o o' :
  wf o → counted extra o → pstep par o o' → counted extra o' ∧ count_step extra o o'.
Proof.
  intros Hwf Hc Hs. destruct Hs as [o t x k l1 d l2 fr Hx Hl Hfr Hi|o t x k l1 d d' l2 Hx Hl Hok
    |o t x l1 d l2 Hx Hl|o t x l Hx Htw Hl He].
  - by eapply split_counted.
  - by eapply change_counted.
  - split; [by eapply counted_put_objects|by eapply count_step_same].
  - by eapply bottom_counted.
Qed.

Lemma countb_unregistered l : Forall (λ d, isRegistered d = false) l → countb enforcing l = 0%nat.
Proof.
  induction 1 as [|d l Hd Hl IH]; [done|]. rewrite countb_cons, IH. unfold enforcing. by rewrite Hd.
Qed.

Lemma unregistered_not_linked x :
  Forall (λ d, isRegistered d = false) (v_accesses x) → linked x → False.
Proof.
  unfold linked, all_registered. destruct (v_accesses x) as [|d l]; [by intros _ [? _]|].
  intros [H1 _]%Forall_cons [_ [[H2 _] _]%Forall_cons]. congruence.
Qed.

Lemma tstep_counted extra o o' :
  wf o → counted extra o → tstep par o o' → counted extra o' ∧ count_step extra o o'.
Proof.
  intros Hwf Hc Hs. destruct Hs as [o o' Hs|o t x l Hx Hl He|o t x k l1 d l2 Hx Hl Hk Hm Hd|o t x l1 d l2 Hx Hl Hr Hr0 Hm Hd
    |o t x l Hx Hm Ho Hr Hr'|o t x l1 d l2 b Hx Hl|o t x k l Hx Hk Hl].
  - by eapply pstep_counted.
  - by eapply bottom_counted.
  - split; [by eapply counted_put_objects|by eapply count_step_same].
  - assert (countb enforcing (l1 ++ d :: l2) = unsatisfied x).
    { unfold unsatisfied. rewrite Hl, !countb_app, countb_cons. unfold enforcing at 2. by rewrite Hr. }
    split; [by eapply counted_put_objects|eapply count_step_same]; [done|]. intros _. split; [done|].
    intros Hlk. by destruct (unregistered_not_linked x).
  - assert (countb enforcing l = unsatisfied x).
    { unfold unsatisfied. by rewrite !countb_unregistered. }
    split; [by eapply counted_put_objects|eapply count_step_same]; [done|]. intros _. split; [done|].
    intros Hlk. by destruct (unregistered_not_linked x).
  - assert (countb enforcing (l1 ++ update_status (set_st_hasSubaccesses b) d :: l2) = unsatisfied x).
    { unfold unsatisfied. by rewrite Hl, !countb_app, !countb_cons. }
    split; [by eapply counted_put_objects|eapply count_step_same]; [done|]. intros _. split; [done|].
    unfold linked. rewrite Hl. intros Hlk.
    eapply (all_registered_middle l1 d l2 [_]); [done|done|]. intros Hd Hd'. by constructor.
  - split; [by eapply counted_put_objects|by eapply count_step_same].
Qed.
End invariant.
