(* ===== verification/FragmentedPotential.v ===== *)
(** * Fragmented region dependencies: the cost of propagation

    A potential that pays for the update operations that propagation queues.  Every bit of an access
    that is still to be set weighs four times the length of the access: setting it pays for the
    operations on the next access and on the fragments, and for those of the subaccesses that are
    linked to the next access. *)

From S2P Require Import Prelude Region Boost RegionMap RegionMapProofs StateMonad.
From S2P Require Import IntrusiveRegionMap IntrusiveRegionMapProofs DataAccessType.
From S2P Require Import FragmentedAccess ReductionInfo FragmentedWorld FragmentedProtocol.
From S2P Require Import FragmentedInvariant.
Local Open Scope Z_scope.

Section potential.
Context {B : Type} `{!DynamicBitset B} `{!DynamicBitsetLaws B}.
Context (par : nat → option nat).
Implicit Types (o : obs B) (d : DataAccess B) (x : task_view B).

(** ** The potential *)

Definition weight d : Z := 4 * rlength (da_region d) * Z.of_nat (countb negb (growing_bits d)).
Definition view_weight x : Z :=
  sumZ weight (v_accesses x) + sumZ weight (v_fragments x) + sumZ weight (v_taskwaits x).
Definition views_weight (m : gmap nat (task_view B)) : Z :=
  sumZ (λ p : nat * task_view B, view_weight p.2) (map_to_list m).
Definition potential o : Z := views_weight (o_view o) + Z.of_nat (length (o_queue o)).

Lemma views_weight_delete (m : gmap nat (task_view B)) t x :
  m !! t = Some x → views_weight m = view_weight x + views_weight (delete t m).
Proof. intros Hx. unfold views_weight. by rewrite <- (sumZ_perm _ _ _ (map_to_list_delete m t x Hx)). Qed.

Lemma views_weight_alter (m : gmap nat (task_view B)) t x f :
  m !! t = Some x → views_weight (alter f t m) = views_weight m - view_weight x + view_weight (f x).
Proof.
  intros Hx. rewrite (views_weight_delete m t x Hx).
  rewrite (views_weight_delete (alter f t m) t (f x)) by (by rewrite lookup_alter_eq, Hx).
  replace (delete t (alter f t m)) with (delete t m); [lia|].
  apply map_eq. intros t'. destruct (decide (t = t')) as [<-|Hne].
  - by rewrite !lookup_delete_eq.
  - by rewrite !lookup_delete_ne, lookup_alter_ne.
Qed.

Lemma view_weight_set k l x :
  view_weight (set_v_objects k l x) = view_weight x - sumZ weight (v_objects k x) + sumZ weight l.
Proof. unfold view_weight. destruct k; simpl; lia. Qed.

Lemma potential_put_objects o t x k l :
  o_view o !! t = Some x →
  potential (put_objects t k l o) = potential o - sumZ weight (v_objects k x) + sumZ weight l.
Proof.
  intros Hx. unfold potential. simpl. rewrite (views_weight_alter _ _ _ _ Hx), view_weight_set. lia.
Qed.

Lemma potential_put_bottom o t x l :
  o_view o !! t = Some x → potential (put_bottom t l o) = potential o.
Proof.
  intros Hx. unfold potential. simpl. rewrite (views_weight_alter _ _ _ _ Hx). unfold view_weight. simpl. lia.
Qed.

Lemma potential_ext o o' : o_view o' = o_view o → o_queue o' = o_queue o → potential o' = potential o.
Proof. unfold potential. by intros -> ->. Qed.

Lemma weight_nonneg d : content_wf d → 0 ≤ weight d.
Proof. intros [_ Hd]. unfold weight. simpl in Hd. nia. Qed.

Lemma weights_nonneg l : map_wf l → 0 ≤ sumZ weight l.
Proof. intros [Hl _]. apply sumZ_nonneg. intros d Hd. apply weight_nonneg. by eapply Forall_forall in Hl. Qed.

(** The potential is never negative, so it bounds the number of operations that are queued. *)
Lemma potential_queue o : wf par o → Z.of_nat (length (o_queue o)) ≤ potential o.
Proof.
  intros [Hv _]. unfold potential. assert (0 ≤ views_weight (o_view o)); [|lia].
  apply sumZ_nonneg. intros [t x] Hx. apply elem_of_map_to_list in Hx. simpl.
  pose proof (vo_maps _ _ _ _ (Hv _ _ Hx)) as Hm. unfold view_weight.
  pose proof (weights_nonneg _ (Hm access_type)). pose proof (weights_nonneg _ (Hm fragment_type)).
  pose proof (weights_nonneg _ (Hm taskwait_type)). simpl in *. lia.
Qed.

(** ** The steps *)

Lemma implb_count l l' :
  Forall2 (λ b b', implb b b' = true) l l' →
  (countb negb l' ≤ countb negb l)%nat ∧ (l ≠ l' → (countb negb l' < countb negb l)%nat).
Proof.
  induction 1 as [|b b' l l' Hb Hl [IH1 IH2]]; [done|]. rewrite !countb_cons.
  destruct b, b'; simpl in *; try done; split; try lia; intros Hne; try lia;
    (assert (l ≠ l') as Hne' by congruence; specialize (IH2 Hne'); lia).
Qed.

Definition flips d d' : Prop := growing_bits d ≠ growing_bits d'.

Lemma weight_change o k d d' :
  content_wf d → change_ok o k d d' →
  weight d' ≤ weight d ∧ (flips d d' → weight d' + 4 * rlength (da_region d) ≤ weight d).
Proof.
  intros [_ Hd] Hc. simpl in Hd. destruct (implb_count _ _ (co_bits _ _ _ _ Hc)) as [H1 H2].
  destruct (co_same _ _ _ _ Hc) as (_ & _ & _ & _ & Hr & _). unfold weight. rewrite Hr.
  split; [nia|]. intros Hf. specialize (H2 Hf). nia.
Qed.

Lemma change_ops_length t d d' : (length (change_ops par t d d') ≤ 2)%nat.
Proof.
  unfold change_ops, next_ops, fragment_ops. case_match; simpl; [|lia]. rewrite length_app.
  repeat (case_match; simpl); lia.
Qed.

Lemma change_ops_same t d d' : effects par d = effects par d' → change_ops par t d d' = [].
Proof.
  intros He. unfold change_ops, next_ops, fragment_ops. rewrite He, !xorb_nilpotent. unfold uo_empty, bs_sized. simpl.
  rewrite (bs_bits_zero (B := B)). by repeat case_match.
Qed.

Lemma potential_change o t x k l1 d d' l2 :
  wf par o → o_view o !! t = Some x → v_objects k x = l1 ++ d :: l2 →
  potential (change par t k l1 d d' l2 o) =
  potential o - weight d + weight d' + Z.of_nat (length (change_ops par t d d')).
Proof.
  intros Hwf Hx Hl. destruct (change_view par t k l1 d d' l2 o) as [Hv Hq].
  pose proof (potential_put_objects o t x k (l1 ++ d' :: l2) Hx) as Hp.
  unfold potential in Hp |- *. rewrite Hv, Hq, length_app. rewrite Hl, !sumZ_app, !sumZ_cons in Hp.
  simpl in *. lia.
Qed.

(** A change pays for twice the length of the access when it sets a bit. *)
Lemma potential_change_le o t x k l1 d d' l2 :
  wf par o → o_view o !! t = Some x → v_objects k x = l1 ++ d :: l2 → change_ok o k d d' →
  potential (change par t k l1 d d' l2 o) ≤ potential o + 2 ∧
  (flips d d' → potential (change par t k l1 d d' l2 o) + 2 * rlength (da_region d) ≤ potential o) ∧
  (effects par d = effects par d' → potential (change par t k l1 d d' l2 o) ≤ potential o).
Proof.
  intros Hwf Hx Hl Hc. destruct (wf_lookup _ _ _ _ _ _ _ _ Hwf Hx Hl) as (_ & Hcw & _ & _).
  rewrite (potential_change _ _ _ _ _ _ _ _ Hwf Hx Hl). destruct (weight_change _ _ _ _ Hcw Hc) as [H1 H2].
  pose proof (change_ops_length t d d'). destruct Hcw as [_ Hlen]. simpl in Hlen. split_and!; [lia| |].
  - intros Hf. specialize (H2 Hf). lia.
  - intros He. rewrite (change_ops_same t d d' He). simpl. lia.
Qed.

Lemma weight_cut d s e : weight (cut d s e) = 4 * (e - s) * Z.of_nat (countb negb (growing_bits d)).
Proof. done. Qed.

Lemma weight_registered d : 0 ≤ rlength (da_region d) → weight (setRegistered d) ≤ weight d.
Proof.
  intros Hr. unfold weight. assert (countb negb (growing_bits (setRegistered d)) ≤ countb negb (growing_bits d))%nat.
  { assert (∃ l, growing_bits (setRegistered d) = true :: l ∧ growing_bits d = isRegistered d :: l) as (l & -> & ->).
    { eexists. split; reflexivity. }
    rewrite !countb_cons. simpl. lia. }
  change (da_region (setRegistered d)) with (da_region d). nia.
Qed.

Lemma potential_split o t x k l1 d l2 fr :
  wf par o → o_view o !! t = Some x → v_objects k x = l1 ++ d :: l2 → region_wf fr → intersects fr d →
  potential (split t k l1 d l2 fr o) ≤ potential o.
Proof.
  intros Hwf Hx Hl Hfr Hi. destruct (wf_lookup _ _ _ _ _ _ _ _ Hwf Hx Hl) as (_ & Hcw & _ & _).
  unfold split. set (np := new_pieces d fr setRegistered).
  destruct (count_copies_view t d (length np - 1) (put_objects t k (l1 ++ np ++ l2) o)) as (Hv & Hq & _).
  rewrite (potential_ext _ _ Hv Hq), (potential_put_objects _ _ _ _ _ Hx), Hl, !sumZ_app, sumZ_cons.
  assert (sumZ weight np ≤ weight d); [|lia]. subst np.
  pose proof (pieces_bounds d fr (middle_piece d fr) Hfr Hcw Hi ltac:(set_solver)) as (_ & Hm1 & Hm2).
  unfold new_pieces. rewrite sumZ_app, sumZ_cons.
  assert (weight d = 4 * (cend d - cstart d) * Z.of_nat (countb negb (growing_bits d))) as ->.
  { unfold weight, cend, cstart. simpl. f_equal. lia. }
  set (n := Z.of_nat (countb negb (growing_bits d))). assert (0 ≤ n) by lia.
  assert (∀ s e, s < e → weight (setRegistered (cut d s e)) ≤ 4 * (e - s) * n) as Hcopy.
  { intros s e Hse. etrans; [apply weight_registered; simpl; lia|]. by rewrite weight_cut. }
  assert (sumZ weight (setRegistered <$> left_piece d fr) ≤ 4 * (cut_start d fr - cstart d) * n) as Hleft.
  { unfold left_piece. destruct (cstart d <? _) eqn:E; simpl.
    - apply Z.ltb_lt in E. specialize (Hcopy (cstart d) (cut_start d fr) E). rewrite Z.add_0_r. exact Hcopy.
    - unfold cut_start in *. nia. }
  assert (sumZ weight (setRegistered <$> right_piece d fr) ≤ 4 * (cend d - cut_end d fr) * n) as Hright.
  { unfold right_piece. destruct (_ <? cend d) eqn:E; simpl.
    - apply Z.ltb_lt in E. specialize (Hcopy (cut_end d fr) (cend d) E). rewrite Z.add_0_r. exact Hcopy.
    - unfold cut_end in *. nia. }
  unfold middle_piece. rewrite weight_cut. fold n. nia.
Qed.
End potential.
