(* ===== verification/FragmentedObs.v ===== *)
(** * Fragmented region dependencies: reasoning on what can be seen

    Maps, counts and steps of the protocol on what can be seen of a world: what a step leaves alone,
    runs that keep the bottom maps, and what they cost. *)

From S2P Require Import Prelude Region Boost RegionMap RegionMapProofs StateMonad.
From S2P Require Import IntrusiveRegionMap IntrusiveRegionMapProofs IntrusiveRegionMapViews.
From S2P Require Import DataAccessType FragmentedAccess ReductionInfo FragmentedWorld.
From S2P Require Import FragmentedDeps FragmentedProtocol FragmentedInvariant.
From S2P Require Import FragmentedPotential.
Local Open Scope Z_scope.

Section objects.
Context {B : Type} `{!DynamicBitset B} `{!DynamicBitsetLaws B}.
Implicit Types (o : obs B) (d : DataAccess B) (x : task_view B).

Lemma obs_pred_id t o : obs_pred (alter (λ c, c) t) o = o.
Proof.
  destruct o as [v p q r]. unfold obs_pred. simpl. f_equal. apply map_eq. intros t'.
  destruct (decide (t = t')) as [<-|Hne].
  - rewrite lookup_alter_eq. by destruct (p !! t).
  - by rewrite lookup_alter_ne.
Qed.

(** ** Maps *)

Definition objects (t : nat) (k : DataAccessObjectType) o : option (list (DataAccess B)) :=
  v_objects k <$> o_view o !! t.
Definition bottom (t : nat) o : option (list BottomMapEntry) := v_bottom <$> o_view o !! t.

Lemma objects_view t k o l : objects t k o = Some l ↔ ∃ x, o_view o !! t = Some x ∧ v_objects k x = l.
Proof. unfold objects. rewrite fmap_Some. by split; intros (x & Hx & He); exists x. Qed.

Lemma bottom_view t o l : bottom t o = Some l ↔ ∃ x, o_view o !! t = Some x ∧ v_bottom x = l.
Proof. unfold bottom. rewrite fmap_Some. by split; intros (x & Hx & He); exists x. Qed.

Lemma objects_put t k l l' o : objects t k o = Some l → objects t k (put_objects t k l' o) = Some l'.
Proof.
  intros (x & Hx & _)%objects_view. unfold objects. simpl. rewrite lookup_alter_eq, Hx. simpl. by destruct k.
Qed.

Lemma objects_put_bottom t k t' b o : objects t k (put_bottom t' b o) = objects t k o.
Proof.
  unfold objects. simpl. destruct (decide (t' = t)) as [->|Hne].
  - rewrite lookup_alter_eq. destruct (o_view o !! t) as [x|]; [|done]. simpl. by destruct k.
  - by rewrite lookup_alter_ne.
Qed.

Lemma bottom_put_objects t k t' l o : bottom t (put_objects t' k l o) = bottom t o.
Proof.
  unfold bottom. simpl. destruct (decide (t' = t)) as [->|Hne].
  - rewrite lookup_alter_eq. destruct (o_view o !! t) as [x|]; [|done]. simpl. by destruct k.
  - by rewrite lookup_alter_ne.
Qed.

Lemma objects_put_ne t k u k' l o :
  ¬ (u = t ∧ map_kind k' = map_kind k) → objects u k' (put_objects t k l o) = objects u k' o.
Proof.
  intros Hne. unfold objects. simpl. destruct (decide (t = u)) as [<-|Hu].
  - rewrite lookup_alter_eq. destruct (o_view o !! t) as [x|]; [|done]. simpl. f_equal.
    rewrite v_objects_set. rewrite decide_False; [done|]. tauto.
  - by rewrite lookup_alter_ne.
Qed.

Lemma objects_ext t k o o' : o_view o' = o_view o → objects t k o' = objects t k o.
Proof. unfold objects. by intros ->. Qed.

Lemma objects_kind t k k' o : map_kind k = map_kind k' → objects t k o = objects t k' o.
Proof.
  intros Hk. unfold objects. destruct (o_view o !! t) as [x|]; [|done]. simpl. f_equal. by apply v_objects_kind.
Qed.

Lemma put_bottom_id t b o : bottom t o = Some b → put_bottom t b o = o.
Proof.
  intros (x & Hx & <-)%bottom_view. destruct o as [v p q r]. unfold put_bottom, obs_view. simpl in *. f_equal.
  apply map_eq. intros t'. destruct (decide (t = t')) as [<-|Hne].
  - rewrite lookup_alter_eq, Hx. simpl. by destruct x.
  - by rewrite lookup_alter_ne.
Qed.

Lemma put_bottom_put t b b' o : put_bottom t b (put_bottom t b' o) = put_bottom t b o.
Proof. unfold put_bottom, obs_view. simpl. by rewrite alter_alter_eq. Qed.

Lemma put_objects_put t k l l' o : put_objects t k l (put_objects t k l' o) = put_objects t k l o.
Proof.
  unfold put_objects, obs_view. simpl. rewrite alter_alter_eq. f_equal. apply alter_ext. intros x _. by destruct k.
Qed.

Lemma put_objects_id t k l o : objects t k o = Some l → put_objects t k l o = o.
Proof.
  intros (x & Hx & <-)%objects_view. destruct o as [v p q r]. unfold put_objects, obs_view. simpl in *. f_equal.
  apply map_eq. intros t'. destruct (decide (t = t')) as [<-|Hne].
  - rewrite lookup_alter_eq, Hx. simpl. by destruct x, k.
  - by rewrite lookup_alter_ne.
Qed.

Lemma bottom_put t b b' o : bottom t o = Some b → bottom t (put_bottom t b' o) = Some b'.
Proof. intros (x & Hx & _)%bottom_view. unfold bottom. simpl. by rewrite lookup_alter_eq, Hx. Qed.

Lemma elem_middle {A} (l1 : list A) c l2 : c ∈ l1 ++ c :: l2.
Proof. rewrite elem_of_app, elem_of_cons. auto. Qed.

Lemma elem_split {A} (c : A) l : c ∈ l → ∃ l1 l2, l = l1 ++ c :: l2.
Proof. apply list_elem_of_split. Qed.

(** Where an access is. *)
Definition aref (t : nat) (k : DataAccessObjectType) d : access_ref := mkRef t k (node_key d).

Lemma effects_ext p p' d :
  p (da_originator d) = p' (da_originator d) →
  (∀ l, da_next d = Some l → p (link_task l) = p' (link_task l)) → effects p d = effects p' d.
Proof.
  intros H1 H2. unfold effects, makesNextTopmost, propagatesTopLevel, domainParent.
  destruct (da_next d) as [l|]; [|done]. specialize (H2 l eq_refl).
  by destruct (da_objectType d), (link_objectType l); rewrite ?H1, ?H2.
Qed.

Lemma plain_closes d0 : plain d0 → closesPreviousReduction d0 = false.
Proof. intros (_ & _ & _ & H & _). unfold closesPreviousReduction. rewrite H. by rewrite !andb_false_r. Qed.

Lemma plain_cpuSet d0 : plain d0 → propagates_reductionCpuSet d0 = false.
Proof.
  intros (H & _). unfold propagates_reductionCpuSet. rewrite (bool_decide_eq_false_2 _ H). by case_match.
Qed.

Lemma obs_queue_app q1 q2 o :
  obs_queue (λ q, q ++ q2) (obs_queue (λ q, q ++ q1) o) = obs_queue (λ q, q ++ (q1 ++ q2)) o.
Proof. unfold obs_queue. simpl. by rewrite app_assoc. Qed.

(** The entries of [b'] have links and types of entries of [b]. *)
Definition entries_of (b' b : list BottomMapEntry) : Prop :=
  ∀ e, e ∈ b' → ∃ e0, e0 ∈ b ∧ bme_link e = bme_link e0 ∧ bme_accessType e = bme_accessType e0.

Lemma entries_of_pieces b1 e b2 region b :
  entries_of (b1 ++ e :: b2) b → entries_of (b1 ++ (left_piece e region ++ right_piece e region) ++ b2) b.
Proof.
  intros Hb c Hc.
  assert (c ∈ b1 ++ b2 ∨ bme_link c = bme_link e ∧ bme_accessType c = bme_accessType e) as [Hc'|[Hc1 Hc2]].
  { unfold left_piece, right_piece in Hc. repeat case_match; set_unfold; naive_solver. }
  - apply Hb. set_solver.
  - rewrite Hc1, Hc2. apply Hb. set_solver.
Qed.

Lemma pieces_rest_wf (b1 : list BottomMapEntry) e b2 region :
  map_wf (b1 ++ e :: b2) → region_wf region → intersects region e →
  map_wf (b1 ++ (left_piece e region ++ right_piece e region) ++ b2) ∧
  ∀ c, c ∈ left_piece e region ++ right_piece e region → cstart c < cend e.
Proof.
  intros Hwf Hr Hi. pose proof (new_pieces_wf b1 e b2 region Hwf Hr Hi id (λ _, eq_refl)) as Hnp.
  unfold new_pieces in Hnp. rewrite !list_fmap_id in Hnp.
  assert (content_wf e) as He by (eapply map_wf_elem; [exact Hwf|]; rewrite elem_of_app, elem_of_cons; tauto). split.
  - eapply map_wf_sublist; [|exact Hnp]. apply sublist_app; [done|]. apply sublist_app; [|done].
    apply sublist_app; [done|]. by apply sublist_cons.
  - intros c Hc. assert (c ∈ pieces e region) as Hc'.
    { unfold pieces. rewrite elem_of_app, elem_of_cons. apply elem_of_app in Hc. tauto. }
   
    destruct (pieces_bounds e region c Hr He Hi Hc') as ([_ H1] & _ & H2). unfold cend, cstart in *. lia.
Qed.

(** ** When accesses become removable *)

Lemma removable_grows o t k d d' :
  object_ok o t k d → change_ok o k d d' → isRemovable d = true → isRemovable d' = true.
Proof.
  intros Hd Hc. destruct (change_bits _ _ _ _ Hc) as (_ & Hcm & Hr & Hw & _ & Hri & Htm & _ & Hn).
  destruct (co_same _ _ _ _ Hc) as (_ & _ & _ & Ho & _).
  destruct (ok_plain _ _ _ _ Hd) as (_ & _ & Hp & _). destruct (co_plain _ _ _ _ Hc) as (_ & _ & Hp' & _).
  pose proof (ok_bottom _ _ _ _ Hd) as Hb. pose proof (ok_kind _ _ _ _ Hd) as Hk.
  unfold isRemovable. rewrite Ho, Hp, Hp'. simpl. intros He. bool_hyps.
  rewrite Hcm, Hr, Hw, Hri, Htm by done. simpl.
  destruct (hasNext d) eqn:E; [by rewrite Hn, orb_true_r by done|].
  destruct (decide (map_kind k = taskwait_type)) as [Htw|Htw].
  - rewrite Htw in Hk. destruct (da_objectType d); try done; simpl; by rewrite !orb_true_r.
  - pose proof (Hb Htw ltac:(by right)) as Hi. unfold anchored in Hi. rewrite E, orb_false_r in Hi.
    rewrite Hi in H0. simpl in H0. destruct (da_objectType d); simpl in *; try done; congruence.
Qed.

(** Only fragments of taskwaits and top level sinks are removed. *)
Lemma removable_no_next o t k d :
  object_ok o t k d → isRemovable d = true → hasNext d = false → map_kind k = taskwait_type.
Proof.
  intros [_ Hk _ _ _ Hb] He Hn. unfold isRemovable in He. rewrite Hn in He. bool_hyps.
  destruct (decide (map_kind k = taskwait_type)) as [Htw|Htw]; [done|].
  pose proof (Hb Htw ltac:(by right)) as Hi. unfold anchored in Hi. rewrite Hn, orb_false_r in Hi.
  rewrite Hi in H0. simpl in H0. rewrite <- Hk in Htw |- *. by destruct (da_objectType d).
Qed.

Definition links d : bool := hasNext d && complete d && hasSubaccesses d.

(** The change does not remove the access. *)
Definition stays (k : DataAccessObjectType) d d' : Prop :=
  isRemovable d = isRemovable d' ∨ hasNext d' = true ∨ map_kind k ≠ taskwait_type.

Lemma change_ok_mono o o' k d d' : same_tasks o o' → change_ok o k d d' → change_ok o' k d d'.
Proof. intros Hs []. split; try done. intros l Hl. eapply live_link_mono; eauto. Qed.

Lemma same_tasks_view o o' : o_view o' = o_view o → same_tasks o o'.
Proof. intros Hv t. by rewrite Hv. Qed.

Definition without_data o : obs B := mkObs (o_view o) (o_pred o) [] [] (o_scheduled o).
Definition restore o o' : obs B := mkObs (o_view o') (o_pred o') (o_queue o) (o_ready o) (o_scheduled o').

(** The copy that a fragmentation makes of an access. *)
Lemma copy_ok o t k d :
  object_ok o t k d →
  let c := clearRegistered d in
  object_ok o t k c ∧ change_ok o k c (setRegistered c) ∧ links c = links (setRegistered c) ∧
  isRemovable c = isRemovable (setRegistered c) ∧ setRegistered c = setRegistered d.
Proof.
  intros Hd c. split_and!; try done.
  - by destruct Hd.
  - destruct Hd as [H1 H2 H3 H4 H5 H6]. split; try done; [|by right].
    repeat constructor; apply implb_same.
Qed.

Lemma aref_change o t k k' d d' : change_ok o k' d d' → aref t k d' = aref t k d.
Proof. intros Hc. unfold aref, node_key. simpl. by destruct (co_same _ _ _ _ Hc) as (_ & _ & _ & _ & -> & _). Qed.

Lemma count_copies_S t d n o :
  count_copies t d (S n) o = if enforcesDependency d then add_pred t 1 (count_copies t d n o) else count_copies t d n o.
Proof. unfold count_copies. by case_match. Qed.

Lemma count_copies_put t k l d n o :
  put_objects t k l (count_copies t d n o) = count_copies t d n (put_objects t k l o).
Proof. unfold count_copies. case_match; [|done]. induction n as [|n IH]; [done|]. simpl. by rewrite <- IH. Qed.

Lemma contained_bounds {C} `{!RegionContent C} (c : C) fr :
  content_wf c → region_wf fr → fullyContainedIn (getAccessRegion c) fr = true →
  startAddress fr ≤ cstart c ∧ cend c ≤ startAddress fr + rlength fr.
Proof.
  intros [Hd Hpos] Hfr Hin. unfold fullyContainedIn in Hin. rewrite region_eqb_spec in Hin.
  apply bool_decide_eq_true in Hin. rewrite intersect_closed in Hin by done. unfold cend, cstart.
  destruct (getAccessRegion c) as [s n]. unfold region_wf in *. simpl in *.
  destruct (_ <? _) eqn:E; injection Hin; lia.
Qed.

Lemma middle_piece_self d fr :
  content_wf d → region_wf fr → fullyContainedIn (da_region d) fr = true →
  middle_piece d fr = d ∧ left_piece d fr = [] ∧ right_piece d fr = [].
Proof.
  intros Hd Hfr Hin. destruct (contained_bounds d fr Hd Hfr Hin) as [H1 H2].
  unfold middle_piece, left_piece, right_piece, cut_start, cut_end.
  rewrite Z.max_l, Z.min_l by lia. rewrite !Z.ltb_irrefl. split_and!; [|done..].
  unfold cut, cend. destruct d as [? ? ? ? [s n]]. unfold cstart. simpl.
  replace (s + n - s) with n by lia. done.
Qed.

Lemma split_self t k l1 d l2 fr o :
  content_wf d → region_wf fr → fullyContainedIn (da_region d) fr = true →
  objects t k o = Some (l1 ++ d :: l2) → split t k l1 d l2 fr o = o.
Proof.
  intros Hd Hfr Hin Hl. destruct (middle_piece_self d fr Hd Hfr Hin) as (Hm & Hlf & Hr).
  unfold split, new_pieces. rewrite Hm, Hlf, Hr. simpl. rewrite put_objects_id by done.
  unfold count_copies. by case_match.
Qed.

Lemma split_view t k l1 d l2 fr o :
  o_view (split t k l1 d l2 fr o) = o_view (put_objects t k (l1 ++ new_pieces d fr setRegistered ++ l2) o) ∧
  o_queue (split t k l1 d l2 fr o) = o_queue o.
Proof.
  unfold split. destruct (count_copies_view t d (length (new_pieces d fr setRegistered) - 1)
    (put_objects t k (l1 ++ new_pieces d fr setRegistered ++ l2) o)) as (-> & -> & _). done.
Qed.

Definition left_copies d fr : list (DataAccess B) := setRegistered <$> left_piece d fr.
Definition right_copies d fr : list (DataAccess B) := setRegistered <$> right_piece d fr.

Lemma split_app t k l1 d l2 fr o :
  objects t k o = Some (l1 ++ d :: l2) →
  objects t k (split t k l1 d l2 fr o) =
    Some ((l1 ++ left_copies d fr) ++ middle_piece d fr :: (right_copies d fr ++ l2)).
Proof.
  intros Hl. rewrite (objects_ext _ _ (put_objects t k (l1 ++ new_pieces d fr setRegistered ++ l2) o))
    by apply split_view.
  rewrite (objects_put _ _ _ _ _ Hl). f_equal. unfold new_pieces, left_copies, right_copies.
  by rewrite <- !app_assoc.
Qed.

(** All the tasks are below a bound. *)
Definition bounded (N : nat) o : Prop := ∀ t, is_Some (o_view o !! t) → (t < N)%nat.

Lemma bounded_mono N o o' : same_tasks o o' → bounded N o → bounded N o'.
Proof. intros Hs Hb t Ht. apply Hb, Hs, Ht. Qed.

(** Maps that a run leaves alone. *)
Definition frame (P : nat → DataAccessObjectType → Prop) o o' : Prop :=
  ∀ u k, P u (map_kind k) → objects u k o' = objects u k o.

Definition ilen {C} `{!RegionContent C} (region : DataAccessRegion) (c : C) : Z := cut_end c region - cut_start c region.

Lemma ilen_pos {C} `{!RegionContent C} region (c : C) :
  region_wf region → content_wf c → intersects region c → 1 ≤ ilen region c.
Proof.
  intros Hr Hc Hi. apply intersects_spec in Hi; [|done..]. unfold ilen, cut_end, cut_start. lia.
Qed.

Lemma sum_ilen {C} `{!RegionContent C} region (l : list C) :
  region_wf region → map_wf l → sumZ (ilen region) (filter (intersects region) l) ≤ rlength region.
Proof.
  intros Hr Hl. assert (∀ a, (∀ c, c ∈ l → a ≤ cstart c) →
    sumZ (ilen region) (filter (intersects region) l) ≤
    Z.max 0 (startAddress region + rlength region - Z.max a (startAddress region))) as Hgen.
  { induction l as [|c l IH]; intros a Ha; [simpl; lia|].
    apply map_wf_cons in Hl as (Hc & Hl & Hcl). specialize (IH Hl (cend c) Hcl).
    pose proof (Ha c ltac:(by left)) as Hac. destruct Hc as [Hcw Hcp].
    rewrite filter_cons. destruct (decide (intersects region c)) as [Hi|Hi].
    - rewrite sumZ_cons. apply intersects_spec in Hi; [|done|done].
      unfold ilen at 1, cut_end, cut_start. lia.
    - unfold cend in *. lia. }
  etrans; [apply (Hgen 0)|].
  - intros c Hc. apply (map_wf_elem _ _ Hl) in Hc as [(? & _) _]. done.
  - destruct Hr as (H1 & H2 & H3). lia.
Qed.

Lemma intersect_ilen {C} `{!RegionContent C} region (c : C) :
  region_wf region → content_wf c → intersects region c →
  region_wf (intersect region (getAccessRegion c)) ∧
  rlength (intersect region (getAccessRegion c)) = ilen region c.
Proof.
  intros Hr Hc Hi. pose proof (ilen_pos region c Hr Hc Hi) as Hp. apply intersects_spec in Hi; [|done|done].
  destruct Hc as [Hc _]. split; [by apply intersect_wf|]. rewrite intersect_closed by done.
  unfold ilen, cut_end, cut_start, cend, cstart in *. case_match; bool_hyps; simpl; lia.
Qed.

(** What a change costs beyond its own operations. *)
Definition cost d d' : Z :=
  if decide (growing_bits d = growing_bits d') then 0 else 2 * rlength (da_region d').

Lemma cost_nonneg d d' : content_wf d' → 0 ≤ cost d d'.
Proof. intros [_ Hd]. simpl in Hd. unfold cost. case_decide; lia. Qed.

Lemma links_flip o k d d' : change_ok o k d d' → growing_bits d = growing_bits d' → links d = links d'.
Proof.
  intros Hc He. destruct (co_same _ _ _ _ Hc) as (_ & _ & _ & _ & _ & Hs). unfold links. rewrite Hs.
  by injection He as _ -> _ _ _ _ _ _ -> _ _ _.
Qed.

(** What [processBottomMapUpdate] does to an access. *)
Definition relink (operation : BottomMapUpdateOperation) d : DataAccess B :=
  let d := if bu_inhibitReadSatisfiabilityPropagation operation
           then unsetCanPropagateReadSatisfiability d else d in
  let d := if bu_inhibitConcurrentSatisfiabilityPropagation operation
           then unsetCanPropagateConcurrentSatisfiability d else d in
  let d := if bu_inhibitReductionInfoPropagation operation
           then unsetCanPropagateReductionInfo d else d in
  setNext (bu_next operation) d.

Lemma relink_ok o t k d operation next :
  object_ok o t k d → bu_next operation = Some next → live_link o next →
  change_ok o k d (relink operation d) ∧ hasNext (relink operation d) = true.
Proof.
  intros [H1 H2 H3 H4 H5 H6] Hn Hlive. unfold relink. rewrite Hn.
  destruct (bu_inhibitReadSatisfiabilityPropagation operation), (bu_inhibitConcurrentSatisfiabilityPropagation operation),
    (bu_inhibitReductionInfoPropagation operation); simpl; (split; [split|done]); try done;
    try (by left); try (by intros l [= <-]); try (intros; unfold anchored; simpl; by rewrite orb_true_r);
    (repeat constructor; simpl; try apply implb_same; try apply implb_true_r).
Qed.

End objects.

Section runs.
Context {B : Type} `{!DynamicBitset B} `{!DynamicBitsetLaws B}.
Context (par : nat → option nat).
Implicit Types (o : obs B) (d : DataAccess B) (x : task_view B).

(** ** What changes leave alone *)

(** The descendants of a task. *)
Definition below (u t : nat) : Prop := tc (λ v p, par v = Some p) u t.

Lemma below_lt u t : (∀ v p, par v = Some p → (p < v)%nat) → below u t → (t < u)%nat.
Proof. intros Hpar. induction 1 as [u t Hu|u p t Hu _ IH]; apply Hpar in Hu; lia. Qed.

(** What a change of an access of the task [t] leaves alone: its accesses, and the maps of the tasks that
    are not its descendants; everything when a fragment changes. *)
Definition under (t : nat) (k : DataAccessObjectType) (u : nat) (k' : DataAccessObjectType) : Prop :=
  k = access_type → (u = t ∨ ¬ below u t) ∧ (u = t → k' = access_type).

Lemma under_self t k : under t k t (map_kind k).
Proof. intros ->. by split; [left|]. Qed.

Lemma objects_wf o t k l : wf par o → objects t k o = Some l → map_wf l.
Proof. intros Hwf (x & Hx & <-)%objects_view. apply (vo_maps _ _ _ _ (wf_view _ _ Hwf _ _ Hx)). Qed.

Lemma bottom_wf o t l : wf par o → bottom t o = Some l → map_wf l.
Proof. intros Hwf (x & Hx & <-)%bottom_view. apply (vo_bottom _ _ _ _ (wf_view _ _ Hwf _ _ Hx)). Qed.

Definition finish (t : nat) d d' o : obs B :=
  obs_queue (λ q, q ++ change_ops par t d d') (count_dependency t d d' (count_registration t d d' o)).

Lemma finish_view t d d' o :
  o_view (finish t d d' o) = o_view o ∧ o_queue (finish t d d' o) = o_queue o ++ change_ops par t d d'.
Proof.
  unfold finish. simpl. destruct (count_dependency_view t d d' (count_registration t d d' o)) as [-> ->].
  by destruct (count_registration_view t d d' o) as [-> ->].
Qed.

(** Only accesses enforce dependencies; without links nothing follows from a change. *)
Lemma enforces_other d : da_objectType d ≠ access_type → enforcesDependency d = false.
Proof. intros Hd. unfold enforcesDependency. by rewrite (bool_decide_eq_false_2 _ Hd), !andb_false_r. Qed.

Lemma finish_no_links t d d' o :
  da_objectType d ≠ access_type → da_objectType d' ≠ access_type → da_next d' = None →
  hasSubaccesses d' = false → finish t d d' o = o.
Proof.
  intros Hk Hk' Hn Hs. unfold finish, count_registration, count_dependency, change_ops, next_ops, fragment_ops.
  rewrite !enforces_other by done. rewrite Hn, Hs, !andb_false_r. destruct o. unfold obs_queue. simpl.
  by destruct (isRegistered d'); rewrite app_nil_r.
Qed.

Lemma finish_objects t d d' o t' k : objects t' k (finish t d d' o) = objects t' k o.
Proof. apply objects_ext, finish_view. Qed.

Lemma finish_bottom t d d' o t' : bottom t' (finish t d d' o) = bottom t' o.
Proof. unfold bottom. by rewrite (proj1 (finish_view t d d' o)). Qed.

Lemma wf_finish t k d d' l o :
  wf par o → objects t k o = Some l → d' ∈ l → change_ok o k d d' → wf par (finish t d d' o).
Proof.
  intros Hwf (x & Hx & Hl)%objects_view Hd Hc. destruct (finish_view t d d' o) as [Hv Hq].
  apply (wf_ext _ (obs_queue (λ q, q ++ change_ops par t d d') o)); [exact Hv|exact Hq|].
  apply wf_queue_app; [done|]. eapply change_ops_ok; [done|done| |done].
  assert (content_wf d') as Hcw.
  { eapply map_wf_elem; [apply (vo_maps _ _ _ _ (wf_view _ _ Hwf _ _ Hx) k)|]. by rewrite Hl. }
  unfold content_wf in *. simpl in *. destruct (co_same _ _ _ _ Hc) as (_ & _ & _ & _ & <- & _). done.
Qed.

Lemma wf_without_data o : wf par o → wf par (without_data o).
Proof.
  intros [Hv Hq]. split; [|constructor]. intros t x Hx. eapply view_ok_mono; [|by apply Hv].
  by apply same_tasks_view.
Qed.

Lemma finish_copy t c o :
  isRegistered c = false →
  finish t c (setRegistered c) o = (if enforcesDependency c then add_pred t 1 o else o).
Proof.
  intros Hc. unfold finish, count_registration, count_dependency. rewrite Hc.
  change (isRegistered (setRegistered c)) with true.
  change (enforcesDependency (setRegistered c)) with (enforcesDependency c).
  assert (change_ops par t c (setRegistered c) = []) as ->.
  { unfold change_ops, next_ops, fragment_ops. simpl.
    change (hasNext (setRegistered c)) with (hasNext c).
    change (hasSubaccesses (setRegistered c)) with (hasSubaccesses c).
    change (propagates_read (setRegistered c)) with (propagates_read c).
    change (propagates_write (setRegistered c)) with (propagates_write c).
    change (propagates_concurrent (setRegistered c)) with (propagates_concurrent c).
    change (propagates_reductionInfo (setRegistered c)) with (propagates_reductionInfo c).
    change (makesNextTopmost par (setRegistered c)) with (makesNextTopmost par c).
    change (propagatesTopLevel par (setRegistered c)) with (propagatesTopLevel par c).
    change (readSatisfied (setRegistered c)) with (readSatisfied c).
    change (writeSatisfied (setRegistered c)) with (writeSatisfied c).
    change (concurrentSatisfied (setRegistered c)) with (concurrentSatisfied c).
    change (hasReductionInfo (setRegistered c)) with (hasReductionInfo c).
    rewrite !xorb_nilpotent. unfold uo_empty, bs_sized. simpl. rewrite (bs_bits_zero (B := B)).
    by repeat case_match. }
  simpl. destruct (enforcesDependency c); simpl; destruct o; unfold obs_queue, add_pred, obs_pred; simpl; by rewrite app_nil_r.
Qed.

Lemma wf_put_change o t k l1 d d' l2 :
  wf par o → objects t k o = Some (l1 ++ d :: l2) → change_ok o k d d' →
  wf par (put_objects t k (l1 ++ d' :: l2) o).
Proof.
  intros Hwf (x & Hx & Hl)%objects_view Hc.
  destruct (wf_lookup _ _ _ _ _ _ _ _ Hwf Hx Hl) as (Hm & _ & Hd & Ho). eapply wf_put_objects; [done|done| |].
  - eapply map_wf_ext; [|exact Hm]. rewrite !fmap_app, !fmap_cons. do 2 f_equal. simpl.
    symmetry. apply (co_same _ _ _ _ Hc).
  - intros c [Hc'|[->|Hc']%elem_of_cons]%elem_of_app; [apply Ho; set_solver| |apply Ho; set_solver].
    by eapply object_ok_change.
Qed.

Notation psteps := (rtc (pstep par)).

Lemma pstep_tasks o o' : pstep par o o' → same_tasks o o'.
Proof.
  intros Hs. destruct Hs as [o t x k l1 d l2 fr Hx Hl Hfr Hi|o t x k l1 d d' l2 Hx Hl Hc
    |o t x l1 d l2 Hx Hl|o t x l Hx Htw Hl He].
  - intros t'. rewrite (proj1 (split_view t k l1 d l2 fr o)). apply (same_tasks_alter o).
  - intros t'. rewrite (proj1 (change_view par t k l1 d d' l2 o)). apply (same_tasks_alter o).
  - apply same_tasks_alter.
  - apply same_tasks_alter.
Qed.

Lemma psteps_tasks o o' : psteps o o' → same_tasks o o'.
Proof.
  induction 1 as [o|o o1 o2 Hs _ IH]; [done|]. pose proof (pstep_tasks _ _ Hs) as H. intros t. by rewrite (IH t), (H t).
Qed.

Lemma psteps_wf o o' : wf par o → psteps o o' → wf par o'.
Proof. intros Hwf Hs. induction Hs as [|o o1 o2 Hs _ IH]; [done|]. apply IH. by eapply pstep_wf. Qed.

(** Operations are queued at the end. *)
Lemma psteps_queue o o' : psteps o o' → ∃ q, o_queue o' = o_queue o ++ q.
Proof.
  induction 1 as [o|o o1 o2 Hs _ (q & IH)]; [exists []; by rewrite app_nil_r|].
  assert (∃ q', o_queue o1 = o_queue o ++ q') as (q' & Hq).
  { destruct Hs as [o t x k l1 d l2 fr Hx Hl Hfr Hi|o t x k l1 d d' l2 Hx Hl Hc
      |o t x l1 d l2 Hx Hl|o t x l Hx Htw Hl He].
    - exists []. rewrite app_nil_r. apply split_view.
    - eexists. apply change_view.
    - exists []. by rewrite app_nil_r.
    - exists []. by rewrite app_nil_r. }
  exists (q' ++ q). by rewrite IH, Hq, app_assoc.
Qed.

(** A run that keeps some of the maps and all the bottom maps, and its cost. *)
Record quiet (P : nat → DataAccessObjectType → Prop) (c : Z) o o' : Prop := {
  q_steps : psteps o o';
  q_frame : frame P o o';
  q_bottoms : ∀ u, bottom u o' = bottom u o;
  q_potential : potential o' ≤ potential o + c;
}.

Lemma quiet_refl P o : quiet P 0 o o.
Proof. split; [done|done|done|lia]. Qed.

Lemma quiet_trans P c1 c2 o o1 o2 : quiet P c1 o o1 → quiet P c2 o1 o2 → quiet P (c1 + c2) o o2.
Proof.
  intros [H1 H2 H3 H4] [K1 K2 K3 K4]. split.
  - by etrans.
  - intros u k Hu. rewrite K2 by done. by apply H2.
  - intros u. by rewrite K3.
  - lia.
Qed.

Lemma quiet_mono (P P' : nat → DataAccessObjectType → Prop) c c' o o' :
  quiet P c o o' → (∀ u k, P' u k → P u k) → c ≤ c' → quiet P' c' o o'.
Proof. intros [H1 H2 H3 H4] HP Hc. split; [done| |done|lia]. intros u k Hu. by apply H2, HP. Qed.

Lemma quiet_wf P c o o' : quiet P c o o' → wf par o → wf par o'.
Proof. intros Hq Hwf. eapply psteps_wf; [done|apply Hq]. Qed.

Lemma quiet_tasks P c o o' : quiet P c o o' → same_tasks o o'.
Proof. intros Hq. apply psteps_tasks, Hq. Qed.

Record visited (t : nat) (k : DataAccessObjectType) (region : DataAccessRegion)
    (l1 : list (DataAccess B)) d (l2 : list (DataAccess B)) d' o o' : Prop := {
  vi_steps : psteps o o';
  vi_objects : objects t k o' = Some ((l1 ++ left_copies d region) ++ d' :: (right_copies d region ++ l2));
  vi_frame : ∀ u k', under t k u (map_kind k') → ¬ (u = t ∧ map_kind k' = map_kind k) →
    objects u k' o' = objects u k' o;
  vi_bottoms : ∀ u, bottom u o' = bottom u o;
  vi_potential : potential o' ≤ potential o + 2;
  vi_paid : flips (middle_piece d region) d' ∨ effects par (middle_piece d region) = effects par d' →
    potential o' ≤ potential o;
}.

Lemma visited_quiet t k region l1 d l2 f o o' :
  wf par o → objects t k o = Some (l1 ++ d :: l2) → region_wf region → intersects region d →
  let o1 := split t k l1 d l2 region o in
  let m := middle_piece d region in
  change_ok o1 k m (f m) →
  quiet (under t k) (cost m (f m))
    (change par t k (l1 ++ left_copies d region) m (f m) (right_copies d region ++ l2) o1) o' →
  visited t k region l1 d l2 (f m) o o'.
Proof.
  intros Hwf Hl Hr Hi o1 m Hc [Hq1 Hq2 Hq3 Hq4]. pose proof Hl as (x & Hx & Hlx)%objects_view.
  assert (pstep par o o1) as Hs1 by (by eapply step_split).
  assert (wf par o1) as Hwf1 by (by eapply pstep_wf).
  pose proof (split_app t k l1 d l2 region o Hl) as Hl1. fold o1 m in Hl1.
  pose proof Hl1 as (x1 & Hx1 & Hlx1)%objects_view.
  assert (pstep par o1 (change par t k (l1 ++ left_copies d region) m (f m) (right_copies d region ++ l2) o1)) as Hs2
    by (by eapply step_change).
  set (o2 := change par t k _ m (f m) _ o1) in *.
  assert (o_view o2 = o_view (put_objects t k ((l1 ++ left_copies d region) ++ f m :: (right_copies d region ++ l2)) o1)) as Hv2
    by apply change_view.
  assert (∀ u k', objects u k' o2 = objects u k' (put_objects t k ((l1 ++ left_copies d region) ++ f m :: (right_copies d region ++ l2)) o1)) as Ho2
    by (intros; by apply objects_ext).
  destruct (potential_change_le par o1 t x1 k _ m (f m) _ Hwf1 Hx1 Hlx1 Hc) as (Hp1 & Hp2 & Hp3). fold o2 in Hp1, Hp2, Hp3.
  pose proof (potential_split par o t x k l1 d l2 region Hwf Hx Hlx Hr Hi) as Hp. fold o1 in Hp.
  destruct (co_same _ _ _ _ Hc) as (_ & _ & _ & _ & Hreg & _).
  unfold cost in Hq4. rewrite Hreg in Hq4. split.
  - eapply rtc_l; [exact Hs1|]. by eapply rtc_l.
  - rewrite Hq2 by apply under_self. rewrite Ho2. by eapply objects_put.
  - intros u k' Hu Hne. rewrite Hq2 by done. rewrite Ho2, objects_put_ne by done.
    rewrite (objects_ext _ _ (put_objects t k (l1 ++ new_pieces d region setRegistered ++ l2) o)) by apply split_view.
    by apply objects_put_ne.
  - intros u. rewrite Hq3. unfold bottom. rewrite Hv2. fold (bottom u (put_objects t k
      ((l1 ++ left_copies d region) ++ f m :: (right_copies d region ++ l2)) o1)). rewrite bottom_put_objects.
    unfold o1, bottom. rewrite (proj1 (split_view t k l1 d l2 region o)).
    fold (bottom u (put_objects t k (l1 ++ new_pieces d region setRegistered ++ l2) o)). apply bottom_put_objects.
  - case_decide as Hf; [lia|]. specialize (Hp2 Hf). lia.
  - intros [Hf|He].
    + specialize (Hp2 Hf). rewrite decide_False in Hq4 by done. lia.
    + specialize (Hp3 He). case_decide as Hf; [lia|]. specialize (Hp2 Hf). lia.
Qed.

Lemma visited_keeps t k region l1 d l2 d' o o' :
  wf par o → objects t k o = Some (l1 ++ d :: l2) → region_wf region → intersects region d →
  da_region d' = da_region (middle_piece d region) →
  visited t k region l1 d l2 d' o o' → keeps (objects t k) (cend d) o o'.
Proof.
  intros Hwf Hl Hr Hi Hreg Hv. pose proof (objects_wf _ _ _ _ Hwf Hl) as Hm.
  assert (content_wf d) as Hd by (eapply map_wf_elem; [exact Hm|]; set_solver).
  pose proof (vi_objects _ _ _ _ _ _ _ _ _ Hv) as Ho'.
  assert (wf par o') as Hwf' by (eapply psteps_wf; [exact Hwf|apply Hv]).
  pose proof (objects_wf _ _ _ _ Hwf' Ho') as Hm'.
  assert ((l1 ++ left_copies d region) ++ d' :: right_copies d region ++ l2 =
    l1 ++ (left_copies d region ++ d' :: right_copies d region) ++ l2) as He.
  { rewrite <- !app_assoc. done. }
  rewrite He in Ho', Hm'. eapply keeps_middle; [exact Hl|exact Ho'|done|done|].
  intros c Hc. assert (∃ c', c' ∈ pieces d region ∧ da_region c = da_region c') as (c' & Hc' & Heq).
  { unfold pieces. apply elem_of_app in Hc as [Hc|[->|Hc]%elem_of_cons].
    - apply list_elem_of_fmap in Hc as (c' & -> & Hc). exists c'. set_solver.
    - exists (middle_piece d region). set_solver.
    - apply list_elem_of_fmap in Hc as (c' & -> & Hc). exists c'. set_solver. }
  destruct (pieces_bounds d region c' Hr Hd Hi Hc') as ([_ Hp] & _ & Hlt).
  unfold cend, cstart in *. simpl in *. rewrite Heq. lia.
Qed.

(** A visit leaves alone the maps that the change leaves alone, but for the visited one. *)
Definition spares (P : nat → DataAccessObjectType → Prop) (u : nat) (k : DataAccessObjectType) : Prop :=
  ∀ v k', P v (map_kind k') → under u k v (map_kind k') ∧ ¬ (v = u ∧ map_kind k' = map_kind k).

(** The accesses of children, and the fragments of the task. *)
Lemma spares_below t u k :
  (∀ v p, par v = Some p → (p < v)%nat) →
  (k = access_type ∧ par u = Some t ∨ k ≠ access_type ∧ u = t) → spares (under t access_type) u k.
Proof.
  intros Hpar Hu v k' Hb. destruct (Hb eq_refl) as [Hv Hk'].
  destruct Hu as [[-> Hu]|[Hk ->]].
  - assert (v ≠ u) as Hne.
    { intros ->. destruct Hv as [->|Hv]; [apply Hpar in Hu; lia|]. apply Hv. by apply tc_once. }
    split; [|by intros [? _]]. intros _. split; [|done]. right. intros Hvu. destruct Hv as [->|Hv].
    + apply (below_lt _ _ Hpar) in Hvu. apply Hpar in Hu. lia.
    + apply Hv. eapply tc_r; [exact Hvu|done].
  - split; [done|]. intros [-> He]. rewrite He in Hk'. specialize (Hk' eq_refl). by destruct k.
Qed.

Lemma visited_spares P u k region l1 d l2 d' o o' :
  wf par o → objects u k o = Some (l1 ++ d :: l2) → region_wf region → intersects region d →
  spares P u k → visited u k region l1 d l2 d' o o' → quiet P (2 * ilen region d) o o'.
Proof.
  intros Hwf Hl Hr Hi Hsp Hv. assert (content_wf d) as Hd.
  { eapply map_wf_elem; [by eapply objects_wf|apply elem_middle]. }
  pose proof (ilen_pos region d Hr Hd Hi). split.
  - apply Hv.
  - intros v k' Hb. destruct (Hsp v k' Hb). by apply (vi_frame _ _ _ _ _ _ _ _ _ Hv).
  - apply Hv.
  - pose proof (vi_potential _ _ _ _ _ _ _ _ _ Hv). lia.
Qed.

Lemma quiet_finish t k d d' l o :
  wf par o → objects t k o = Some l → d' ∈ l → quiet (under t k) (cost d d') (finish t d d' o) (finish t d d' o).
Proof.
  intros Hwf Hl Hd. eapply quiet_mono; [apply quiet_refl|done|]. apply cost_nonneg.
  eapply map_wf_elem; [by eapply objects_wf|done].
Qed.

End runs.
