(* ===== verification/FragmentedRun.v ===== *)
(** * Fragmented region dependencies: the code runs the protocol

    Each function of [FragmentedDeps] succeeds in a well-formed state, and what it does there is a
    sequence of steps of [FragmentedProtocol].  With that come the frames that let a traversal of a map
    go on after its processor has run, and the potential that bounds the propagation. *)

From S2P Require Import Prelude Region Boost RegionMap RegionMapProofs StateMonad.
From S2P Require Import IntrusiveRegionMap IntrusiveRegionMapProofs IntrusiveRegionMapViews.
From S2P Require Import DataAccessType FragmentedAccess ReductionInfo FragmentedWorld.
From S2P Require Import FragmentedDeps FragmentedProtocol FragmentedInvariant.
From S2P Require Import FragmentedPotential FragmentedObs.
Local Open Scope Z_scope.

Section run.
Context {B : Type} `{!DynamicBitset B} `{!DynamicBitsetLaws B}.
Context {MA : Type} `{!AvlSet (DataAccess B) node_key MA} `{!AvlSetLaws (DataAccess B) node_key MA}.
Context {MB : Type} `{!AvlSet BottomMapEntry node_key MB} `{!AvlSetLaws BottomMapEntry node_key MB}.
Context (mc : machine) (par : nat → option nat).
Notation W := (world B MA MB).
Implicit Types (w : W) (o : obs B) (d : DataAccess B) (x : task_view B).
Notation finish := (finish par).
Notation psteps := (rtc (pstep par)).
Notation quiet := (quiet par).
Notation visited := (visited par).
Notation under := (under par).
Notation spares := (spares par).

(** ** What can be seen of a world *)

Definition view (x : Task MA MB) : task_view B :=
  mkView (t_parent x) (avl_nodes (tda_accesses (t_dataAccesses x)))
    (avl_nodes (tda_accessFragments (t_dataAccesses x)))
    (avl_nodes (tda_taskwaitFragments (t_dataAccesses x)))
    (avl_nodes (tda_subaccessBottomMap (t_dataAccesses x))).

Definition obs_of w : obs B :=
  mkObs (view <$> w_tasks w) (t_predecessorCount <$> w_tasks w)
    (cd_delayedOperations (w_dependencyData w)) (cd_satisfiedOriginators (w_dependencyData w))
    (w_scheduled w).*1.

(** What a computation does as far as it can be seen. *)
Notation owp := (awp obs_of).

(** ** Tasks *)

Lemma lookup_view w t x : o_view (obs_of w) !! t = Some x → ∃ y, w_tasks w !! t = Some y ∧ view y = x.
Proof. simpl. rewrite lookup_fmap. destruct (w_tasks w !! t) as [y|]; [|done]. intros [= <-]. by exists y. Qed.

Lemma owp_readTask t x (Q : Task MA MB → obs B → Prop) o :
  o_view o !! t = Some x → (∀ y, view y = x → o_pred o !! t = Some (t_predecessorCount y) → Q y o) →
  owp (readTask t) Q o.
Proof.
  intros Hx HQ w <-. destruct (lookup_view _ _ _ Hx) as (y & Hy & Hv).
  eapply wp_read; [by rewrite Hy|]. apply HQ; [done|]. simpl. by rewrite lookup_fmap, Hy.
Qed.

(** Updates of a task that cannot be seen, and of its predecessors. *)
Lemma owp_updateTask t x (f : Task MA MB → Task MA MB) g (Q : unit → obs B → Prop) o :
  o_view o !! t = Some x →
  (∀ y, view y = x → view (f y) = x ∧ t_predecessorCount (f y) = g (t_predecessorCount y)) →
  Q tt (obs_pred (alter g t) o) → owp (updateTask t f) Q o.
Proof.
  intros Hx Hf HQ w <-. destruct (lookup_view _ _ _ Hx) as (y & Hy & Hv).
  destruct (Hf y Hv) as [H1 H2]. apply wp_bind. eapply wp_read; [by rewrite Hy|]. apply wp_modify.
  assert (obs_of (set_w_tasks (<[t:=f y]> (w_tasks w)) w) = obs_pred (alter g t) (obs_of w)) as ->; [|done].
  unfold obs_of, obs_pred. simpl. f_equal.
  - rewrite fmap_insert, H1, <- Hv. apply insert_id. by rewrite lookup_fmap, Hy.
  - rewrite fmap_insert, H2. apply map_eq. intros t'. destruct (decide (t = t')) as [<-|Hne].
    + by rewrite lookup_insert_eq, lookup_alter_eq, lookup_fmap, Hy.
    + by rewrite lookup_insert_ne, lookup_alter_ne.
Qed.

Lemma owp_updateTask_hidden t x (f : Task MA MB → Task MA MB) (Q : unit → obs B → Prop) o :
  o_view o !! t = Some x →
  (∀ y, view y = x → view (f y) = x ∧ t_predecessorCount (f y) = t_predecessorCount y) →
  Q tt o → owp (updateTask t f) Q o.
Proof.
  intros Hx Hf HQ. apply (owp_updateTask t x f (λ c, c)); [done|done|]. by rewrite obs_pred_id.
Qed.

Lemma owp_increasePredecessors t x n (Q : unit → obs B → Prop) o :
  o_view o !! t = Some x → Q tt (add_pred t n o) → owp (increasePredecessors t n) Q o.
Proof. intros Hx HQ. by apply (owp_updateTask t x _ (λ c, wrap_int (c + n))). Qed.

Lemma owp_decreasePredecessors t x n (Q : bool → obs B → Prop) o :
  o_view o !! t = Some x →
  (∀ c, o_pred (add_pred t (- n) o) !! t = Some c → Q (c =? 0) (add_pred t (- n) o)) →
  owp (decreasePredecessors t n) Q o.
Proof.
  intros Hx HQ. apply awp_bind. apply (owp_updateTask t x _ (λ c, wrap_int (c + - n))); [done|done|].
  fold (add_pred t (- n) o). apply awp_bind. eapply owp_readTask; [done|]. intros y Hy Hp. apply awp_ret. by apply HQ.
Qed.

Lemma owp_increaseRemovalBlockingCount t x (Q : unit → obs B → Prop) o :
  o_view o !! t = Some x → Q tt o → owp (increaseRemovalBlockingCount t) Q o.
Proof. intros Hx HQ. by eapply owp_updateTask_hidden. Qed.

Lemma owp_updateAccesses_hidden t x f (Q : unit → obs B → Prop) o :
  o_view o !! t = Some x →
  (∀ y : TaskDataAccesses MA MB,
     tda_accesses (f y) = tda_accesses y ∧ tda_accessFragments (f y) = tda_accessFragments y ∧
     tda_taskwaitFragments (f y) = tda_taskwaitFragments y ∧
     tda_subaccessBottomMap (f y) = tda_subaccessBottomMap y) →
  Q tt o → owp (updateAccesses t f) Q o.
Proof.
  intros Hx Hf HQ. eapply owp_updateTask_hidden; [done| |done]. intros y Hy. split; [|done].
  destruct (Hf (t_dataAccesses y)) as (H1 & H2 & H3 & H4). unfold view in *. simpl.
  by rewrite H1, H2, H3, H4.
Qed.

Lemma view_objects k (y : Task MA MB) : v_objects k (view y) = avl_nodes (objects_map k (t_dataAccesses y)).
Proof. by destruct k. Qed.

Lemma view_set_objects k m (y : Task MA MB) :
  view (set_t_dataAccesses (set_objects_map k m (t_dataAccesses y)) y) = set_v_objects k (avl_nodes m) (view y).
Proof. by destruct k. Qed.

Lemma objects_seen t k : seen obs_of (objects_of t k) (objects t k) (put_objects t k).
Proof.
  split.
  - intros w l. unfold nodes_at, objects, objects_of. simpl. rewrite lookup_fmap.
    destruct (w_tasks w !! t) as [y|]; simpl; [|split; [by intros (? & ? & ?)|done]].
    rewrite view_objects. split; [by intros (m & [= <-] & <-)|]. intros [= <-]. eauto.
  - intros w m m'. simpl. destruct (w_tasks w !! t) as [y|] eqn:Hy; [|done]. intros _.
    unfold obs_of, put_objects, obs_view. simpl. f_equal.
    + rewrite fmap_insert, view_set_objects. apply map_eq. intros t'. destruct (decide (t = t')) as [<-|Hne].
      * by rewrite lookup_insert_eq, lookup_alter_eq, lookup_fmap, Hy.
      * by rewrite lookup_insert_ne, lookup_alter_ne.
    + rewrite fmap_insert. simpl. apply insert_id. by rewrite lookup_fmap, Hy.
Qed.

Lemma bottom_seen t : seen obs_of (bottomMap_of t) (bottom t) (put_bottom t).
Proof.
  split.
  - intros w l. unfold nodes_at, bottom, bottomMap_of. simpl. rewrite lookup_fmap.
    destruct (w_tasks w !! t) as [y|]; simpl; [|split; [by intros (? & ? & ?)|done]].
    split; [by intros (m & [= <-] & <-)|]. intros [= <-]. eauto.
  - intros w m m'. simpl. destruct (w_tasks w !! t) as [y|] eqn:Hy; [|done]. intros _.
    unfold obs_of, put_bottom, obs_view. simpl. f_equal.
    + rewrite fmap_insert. apply map_eq. intros t'. destruct (decide (t = t')) as [<-|Hne].
      * by rewrite lookup_insert_eq, lookup_alter_eq, lookup_fmap, Hy.
      * by rewrite lookup_insert_ne, lookup_alter_ne.
    + rewrite fmap_insert. simpl. apply insert_id. by rewrite lookup_fmap, Hy.
Qed.

Lemma bottomMap_laws t : ref_laws (bottomMap_of (B := B) (MA := MA) (MB := MB) t).
Proof.
  split.
  - intros w m m'. simpl. destruct (w_tasks w !! t) as [y|] eqn:Hy; [|done]. intros _. simpl.
    by rewrite lookup_insert_eq.
  - intros w m m'. simpl. destruct (w_tasks w !! t) as [y|] eqn:Hy; simpl.
    + rewrite lookup_insert_eq. unfold set_w_tasks. simpl. by rewrite insert_insert_eq.
    + by rewrite Hy.
Qed.

(** ** Accesses *)

Lemma owp_readAccess t k l d (Q : DataAccess B → obs B → Prop) o :
  objects t k o = Some l → map_wf l → d ∈ l → Q d o → owp (readAccess (aref t k d)) Q o.
Proof. apply (awp_map_deref _ _ _ _ (objects_seen t k)). Qed.

Lemma owp_updateAccess t k l1 d l2 f (Q : unit → obs B → Prop) o :
  objects t k o = Some (l1 ++ d :: l2) → map_wf (l1 ++ d :: l2) →
  Q tt (put_objects t k (l1 ++ f d :: l2) o) → owp (updateAccess (aref t k d) f) Q o.
Proof. apply (awp_map_assign _ _ _ _ (objects_seen t k)). Qed.

Lemma getParent_par w t : wf par (obs_of w) → is_Some (o_view (obs_of w) !! t) → getParent w t = par t.
Proof.
  intros Hwf [x Hx]. rewrite <- (vo_parent _ _ _ _ (wf_view _ _ Hwf _ _ Hx)).
  destruct (lookup_view _ _ _ Hx) as (y & Hy & <-). unfold getParent. by rewrite Hy.
Qed.

Lemma effects_par w t k l d :
  wf par (obs_of w) → objects t k (obs_of w) = Some l → d ∈ l → effects (getParent w) d = effects par d.
Proof.
  intros Hwf (x & Hx & <-)%objects_view Hd.
  pose proof (vo_objects _ _ _ _ (wf_view _ _ Hwf _ _ Hx) _ _ Hd) as [Ho _ _ Hn _ _].
  apply effects_ext.
  - apply getParent_par; [done|]. rewrite Ho. by exists x.
  - intros l Hl. apply getParent_par; [done|]. by apply Hn.
Qed.

Lemma owp_readEffects t k l d (Q : DataAccessStatusEffects → obs B → Prop) o :
  wf par o → objects t k o = Some l → d ∈ l → Q (effects par d) o → owp (readEffects (aref t k d)) Q o.
Proof.
  intros Hwf Hl Hd HQ. pose proof (objects_wf par _ _ _ _ Hwf Hl) as Hm. apply awp_bind.
  eapply owp_readAccess; [done..|]. intros w <-. apply wp_bind, wp_get, wp_ret.
  by rewrite (effects_par w t k l d).
Qed.

(** ** The local parts of [handleDataAccessStatusChanges] *)

Section handle.
Context (t : nat) (k : DataAccessObjectType) (l : list (DataAccess B)) (d d' : DataAccess B).
Context (Hmw : map_wf l) (Hd' : d' ∈ l) (Hplain : plain d) (Hplain' : plain d').
Notation a := (aref t k d').

Lemma objects_live o : objects t k o = Some l → ∃ x, o_view o !! t = Some x.
Proof. intros (x & Hx & _)%objects_view. by exists x. Qed.

Lemma owp_handle_registration (Q : unit → obs B → Prop) o :
  objects t k o = Some l → Q tt (count_registration t d d' o) →
  owp (handle_registration (effects par d) (effects par d') a) Q o.
Proof.
  intros Hl HQ. destruct (objects_live o Hl) as [x Hx]. unfold count_registration in HQ.
  apply awp_when; simpl; intros Hb; rewrite Hb in HQ; simpl in HQ; [|done].
  assert (Q tt (if enforcesDependency d' then add_pred t 1 o else o) →
    owp (st_when (enforcesDependency d') (increasePredecessors t 1)) Q o) as Hrest.
  { intros HQ'. apply awp_when; intros He; rewrite He in HQ'; [|done]. by eapply owp_increasePredecessors. }
  specialize (Hrest HQ). apply awp_bind. apply awp_when; [intros _|done].
  apply awp_bind. eapply owp_readTask; [done|]. intros y _ _.
  apply awp_bind. apply awp_when_any; [eapply owp_increaseRemovalBlockingCount; [done|]|];
    (apply awp_bind; eapply owp_updateAccesses_hidden; [done|done|]; apply awp_bind;
     eapply owp_readAccess; [done..|]; apply awp_when_any; [by eapply owp_updateAccesses_hidden|done]).
Qed.

Lemma owp_push_satisfiedOriginator t' (Q : unit → obs B → Prop) o :
  Q tt (obs_ready (λ l, l ++ [t']) o) → owp (push_satisfiedOriginator t') Q o.
Proof. intros HQ. eapply awp_modify; [|exact HQ]. by intros w <-. Qed.

Lemma owp_push_delayedOperation u (Q : unit → obs B → Prop) o :
  Q tt (obs_queue (λ l, l ++ [u]) o) → owp (push_delayedOperation u) Q o.
Proof. intros HQ. eapply awp_modify; [|exact HQ]. by intros w <-. Qed.

Lemma owp_push_removableTask t' (Q : unit → obs B → Prop) o : Q tt o → owp (push_removableTask t') Q o.
Proof. intros HQ. apply (awp_modify _ _ id); [by intros w <-|exact HQ]. Qed.

Lemma owp_handle_dependency (Q : unit → obs B → Prop) o :
  objects t k o = Some l → isRegistered d' = true → Q tt (count_dependency t d d' o) →
  owp (handle_dependency (effects par d) (effects par d') a) Q o.
Proof.
  intros Hl Hr HQ. destruct (objects_live o Hl) as [x Hx]. unfold count_dependency in HQ. rewrite Hr in HQ.
  apply awp_when; simpl; intros Hb; destruct (enforcesDependency d), (enforcesDependency d'); try done; simpl in *.
  - apply awp_bind. eapply owp_decreasePredecessors; [done|]. intros c Hc. unfold dec_pred in HQ.
    replace (- (1)) with (-1) in * by lia. apply awp_when; intros E.
    + apply Z.eqb_eq in E as ->. rewrite decide_True in HQ by done. by apply owp_push_satisfiedOriginator.
    + rewrite decide_False in HQ; [done|]. rewrite Hc. intros [= ->]. done.
  - by apply awp_ret.
Qed.

Lemma owp_handle_combination (Q : unit → obs B → Prop) o :
  Q tt o → owp (handle_combination mc (effects par d) (effects par d') a) Q o.
Proof. intros HQ. apply awp_when; simpl; [|done]. by rewrite !plain_closes by done. Qed.

Lemma owp_handle_next (Q : unit → obs B → Prop) o :
  objects t k o = Some l → Q tt (obs_queue (λ q, q ++ next_ops par d d') o) →
  owp (handle_next (effects par d) (effects par d') a) Q o.
Proof.
  intros Hl HQ. unfold handle_next, next_ops in *. apply awp_bind. eapply owp_readAccess; [done..|].
  assert (Q tt (obs_queue (λ q, q ++ []) o) → Q tt o) as Hnil.
  { destruct o. unfold obs_queue. simpl. by rewrite app_nil_r. }
  destruct (da_next d') as [next|]; [|apply awp_ret; auto].
  assert (e_propagatesReductionCpuSetToNext (effects par d) = false ∧
          e_propagatesReductionCpuSetToNext (effects par d') = false) as [H1 H2].
  { simpl. by rewrite !plain_cpuSet, !andb_false_r. }
  rewrite H1, H2. change (xorb false false) with false. apply awp_bind, awp_ret, awp_bind. eapply owp_readAccess; [done..|].
  destruct Hplain' as (_ & Hri & _). rewrite Hri.
  assert (∀ b : bool, (if b then @None nat else None) = None) as Hif by (by intros []). rewrite Hif.
  apply awp_when; intros E.
  - apply negb_true_iff in E. rewrite E in HQ. by apply owp_push_delayedOperation.
  - apply negb_false_iff in E. rewrite E in HQ. auto.
Qed.

Lemma owp_handle_fragments (Q : unit → obs B → Prop) o :
  objects t k o = Some l → Q tt (obs_queue (λ q, q ++ fragment_ops par t d d') o) →
  owp (handle_fragments (effects par d) (effects par d') a) Q o.
Proof.
  intros Hl HQ. unfold handle_fragments, fragment_ops in *. apply awp_bind. eapply owp_readAccess; [done..|].
  assert (Q tt (obs_queue (λ q, q ++ []) o) → Q tt o) as Hnil.
  { destruct o. unfold obs_queue. simpl. by rewrite app_nil_r. }
  apply awp_when; intros Hs; rewrite Hs in HQ; [|auto].
  assert (e_propagatesReductionCpuSetToFragments (effects par d) = false ∧
          e_propagatesReductionCpuSetToFragments (effects par d') = false) as [H1 H2].
  { simpl. destruct Hplain as (_ & _ & _ & -> & _), Hplain' as (_ & _ & _ & -> & _). by rewrite !andb_false_r. }
  rewrite H1, H2. change (xorb false false) with false. cbn [andb]. apply awp_bind, awp_ret, awp_bind. eapply owp_readAccess; [done..|].
  destruct Hplain' as (_ & Hri & _). rewrite Hri. change (ar_task a) with t.
  assert (∀ b : bool, (if b then @None nat else None) = None) as Hif by (by intros []). rewrite Hif.
  apply awp_when; intros E.
  - apply negb_true_iff in E. rewrite E in HQ. by apply owp_push_delayedOperation.
  - apply negb_false_iff in E. rewrite E in HQ. auto.
Qed.

(** The parts that look at the access only. *)
Lemma owp_handle_body handle (Q : unit → obs B → Prop) o :
  objects t k o = Some l →
  (isRegistered d' = false → Q tt (finish t d d' o)) →
  (isRegistered d' = true →
     owp (handle_bottom_map handle (effects par d) (effects par d') a;;
          handle_removable (effects par d) (effects par d') a) Q (finish t d d' o)) →
  owp (handle_body mc handle (effects par d) (effects par d') a) Q o.
Proof.
  intros Hl Hf Ht. unfold handle_body, finish, change_ops in *. apply awp_bind, owp_handle_registration; [done|].
  set (o1 := count_registration t d d' o) in *.
  assert (objects t k o1 = Some l) as H1 by (rewrite (objects_ext _ _ o); [done|apply count_registration_view]).
  simpl e_isRegistered. destruct (isRegistered d') eqn:Hr; simpl.
  - apply awp_bind, owp_handle_dependency; [done..|]. set (o2 := count_dependency t d d' o1) in *.
    assert (objects t k o2 = Some l) as H2 by (rewrite (objects_ext _ _ o1); [done|apply count_dependency_view]).
    apply awp_bind, owp_handle_combination, awp_bind, owp_handle_next; [done|].
    apply awp_bind, owp_handle_fragments; [done|]. rewrite obs_queue_app. auto.
  - apply awp_ret. specialize (Hf eq_refl). destruct o1. unfold count_dependency, obs_queue in Hf.
    rewrite Hr in Hf. simpl in Hf. by rewrite app_nil_r in Hf.
Qed.
End handle.

(** ** Removing taskwait fragments *)

(** The part of an entry outside a region. *)
Lemma owp_fragmentBottomMapEntry_remove t b1 e b2 region (Q : option Z → obs B → Prop) o :
  bottom t o = Some (b1 ++ e :: b2) → map_wf (b1 ++ e :: b2) → region_wf region → intersects region e →
  (fullyContainedIn (bme_region e) region = true → Q (Some (node_key e)) o) →
  (fullyContainedIn (bme_region e) region = false →
     Q None (put_bottom t (b1 ++ (left_piece e region ++ right_piece e region) ++ b2) o)) →
  owp (fragmentBottomMapEntry t (node_key e) region true) Q o.
Proof.
  intros Hb Hwf Hr Hi Hin Hout. unfold fragmentBottomMapEntry. apply awp_bind.
  eapply (awp_map_deref _ _ _ _ (bottom_seen t)); [done|done|set_solver|].
  destruct (fullyContainedIn _ _); [by apply awp_ret; auto|]. apply awp_bind.
  eapply (awp_fragmentByIntersection_remove _ _ _ _ (bottom_seen t) _ _ _ b1 e b2);
    [apply bottomMap_laws|done..| | |done|].
  - intros c. reflexivity.
  - done.
  - apply awp_ret. auto.
Qed.

Lemma owp_removeBottomMap t k l1 d l2 b (Q : unit → obs B → Prop) o :
  map_kind k = taskwait_type → objects t k o = Some (l1 ++ d :: l2) → map_wf (l1 ++ d :: l2) →
  bottom t o = Some b → map_wf b →
  (∀ b', map_wf b' → entries_of b' b → Q tt (put_objects t taskwait_type (l1 ++ l2) (put_bottom t b' o))) →
  owp (removeBottomMapTaskwaitOrTopLevelSink (aref t k d)) Q o.
Proof.
  intros Hk Hl Hwf Hb Hbw HQ. unfold removeBottomMapTaskwaitOrTopLevelSink. apply awp_bind.
  eapply owp_readAccess; [done|done|set_solver|].
  assert (content_wf d) as [Hr _] by (eapply map_wf_elem; [done|]; set_solver). simpl in Hr.
  apply awp_bind.
  set (I := λ (_ : list BottomMapEntry) o', ∃ b', o' = put_bottom t b' o ∧ map_wf b' ∧ entries_of b' b).
  eapply awp_mono.
  - eapply (awp_processIntersecting _ _ _ _ (bottom_seen t) _ _ I); [done|done|done| |].
    + intros e rest o' b' Hb' Hw' He Hi (b'' & -> & _ & Hent).
      rewrite (bottom_put _ _ _ _ Hb) in Hb'. injection Hb' as ->.
      apply elem_split in He as (b1 & b2 & ->).
      assert (bottom t (put_bottom t (b1 ++ e :: b2) o) = Some (b1 ++ e :: b2)) as Hb' by by eapply bottom_put.
      apply awp_bind. eapply (awp_map_deref _ _ _ _ (bottom_seen t)); [done|done|set_solver|].
      apply awp_bind. simpl ar_task. case_match.
      * eapply (awp_map_erase _ _ _ _ (bottom_seen t)); [done..|]. apply awp_ret.
        assert (map_wf (b1 ++ b2)) as Hw'' by (eapply map_wf_sublist; [|exact Hw']; by apply sublist_app, sublist_cons).
        rewrite put_bottom_put. split_and!; [done| |].
        -- exists (b1 ++ b2). split_and!; [done|done|]. intros c Hc. apply Hent. set_solver.
        -- eapply (keeps_middle _ b1 e [] b2); [done|by eapply bottom_put|done|done|set_solver].
      * apply awp_bind. eapply owp_fragmentBottomMapEntry_remove; [done..| |]; intros _; apply awp_ret, awp_ret.
        -- split_and!; [done|by exists (b1 ++ e :: b2)|]. by eapply keeps_same.
        -- destruct (pieces_rest_wf b1 e b2 (da_region d) Hw' Hr Hi) as [Hw'' Hlt].
           rewrite put_bottom_put. split_and!; [done| |].
           ++ eexists. split_and!; [done|done|by apply entries_of_pieces].
           ++ eapply keeps_middle; [done|by eapply bottom_put|done..].
    + exists b. rewrite put_bottom_id by done. split_and!; [done|done|]. intros e He. by exists e.
  - intros c o' (_ & b' & -> & Hbw' & Hent). simpl ar_task. simpl ar_start.
    eapply (awp_map_erase _ _ _ _ (objects_seen t taskwait_type)); [|done|].
    + rewrite objects_put_bottom, (objects_kind t taskwait_type k) by done. exact Hl.
    + by apply HQ.
Qed.

Lemma owp_unblock_removal t x (Q : unit → obs B → Prop) o :
  o_view o !! t = Some x → Q tt o → owp (unblock_removal t) Q o.
Proof.
  intros Hx HQ. apply awp_bind, awp_bind. eapply owp_updateTask_hidden; [done|done|]. apply awp_bind.
  eapply owp_readTask; [done|]. intros y _ _. apply awp_ret. apply awp_when_any; [|done].
  by apply owp_push_removableTask.
Qed.

Lemma owp_handle_removable t k l1 d d' l2 b (Q : unit → obs B → Prop) o :
  wf par o → objects t k o = Some (l1 ++ d' :: l2) → bottom t o = Some b →
  object_ok o t k d → change_ok o k d d' →
  (isRemovable d = isRemovable d' ∨ hasNext d' = true ∨ map_kind k ≠ taskwait_type → Q tt o) →
  (map_kind k = taskwait_type → isRemovable d ≠ isRemovable d' → hasNext d' = false →
     ∀ b', map_wf b' → entries_of b' b → Q tt (put_objects t taskwait_type (l1 ++ l2) (put_bottom t b' o))) →
  owp (handle_removable (effects par d) (effects par d') (aref t k d')) Q o.
Proof.
  intros Hwf Hl Hb Hd Hc Hq Hrm. pose proof (objects_wf par _ _ _ _ Hwf Hl) as Hm.
  pose proof (bottom_wf par _ _ _ Hwf Hb) as Hbm. pose proof (object_ok_change _ _ _ _ _ Hd Hc) as Hd'.
  pose proof (removable_grows _ _ _ _ _ Hd Hc) as Hgrow.
  pose proof Hl as (x & Hx & _)%objects_view. apply awp_when; simpl; [|intros He; apply Hq; left; by apply xorb_eq].
  intros Hxor. assert (isRemovable d' = true) as Hrem.
  { destruct (isRemovable d), (isRemovable d'); try done. by specialize (Hgrow eq_refl). }
  pose proof (removable_no_next _ _ _ _ Hd' Hrem) as Hkind.
  assert (∀ o' y, o_view o' !! t = Some y → Q tt o' → owp (x ← readTask t;
    st_when (tda_removalBlockers (t_dataAccesses x) =? 0) (unblock_removal t)) Q o') as Hlast.
  { intros o' y Hy HQ. apply awp_bind. eapply owp_readTask; [done|]. intros z _ _.
    apply awp_when_any; [by eapply owp_unblock_removal|done]. }
  assert (owp (d ← readAccess (aref t k d');
    st_when (negb (hasNext d)) (removeBottomMapTaskwaitOrTopLevelSink (aref t k d'));;
    x ← readTask t;
    st_when (tda_removalBlockers (t_dataAccesses x) =? 0) (unblock_removal t)) Q o) as Htail.
  { apply awp_bind. eapply owp_readAccess; [done|done|set_solver|]. apply awp_bind, awp_when; intros Hn.
    - apply negb_true_iff in Hn. eapply owp_removeBottomMap; [auto|done..|]. intros b' Hb' He.
      eapply Hlast; [|apply Hrm; auto; by intros He'; rewrite He', xorb_nilpotent in Hxor]. simpl. by rewrite lookup_alter_eq, lookup_alter_eq, Hx.
    - apply negb_false_iff in Hn. eapply Hlast; [done|]. auto. }
  apply awp_bind. eapply owp_updateAccesses_hidden; [done|done|]. apply awp_bind.
  eapply owp_readAccess; [done|done|set_solver|]. apply awp_bind, awp_when; intros Htw; [|exact Htail].
  apply awp_bind. rewrite bool_decide_eq_false_2 by apply Hd'. apply awp_ret, awp_bind.
  eapply owp_updateAccesses_hidden; [done|done|]. apply awp_bind. eapply owp_readTask; [done|].
  intros y _ _. apply awp_when_any; [by eapply owp_unblock_removal|exact Htail].
Qed.

(** ** Changes that reach no other access *)

Lemma owp_handle_simple n t k l1 d d' l2 (Q : unit → obs B → Prop) o :
  wf par o → objects t k o = Some (l1 ++ d' :: l2) → object_ok o t k d → change_ok o k d d' →
  links d = links d' → stays k d d' → Q tt (finish t d d' o) →
  owp (handleDataAccessStatusChanges mc (S n) (effects par d) (effects par d') (aref t k d')) Q o.
Proof.
  intros Hwf Hl Hd Hc Hlk Hst HQ. pose proof (objects_wf par _ _ _ _ Hwf Hl) as Hm.
  assert (same_tasks o (finish t d d' o)) as Hs by apply same_tasks_view, finish_view.
  pose proof Hl as (x & Hx & _)%objects_view.
  apply (owp_handle_body t k (l1 ++ d' :: l2)); [done|set_solver|apply Hd|apply Hc|done|done|].
  intros Hr. apply awp_bind, awp_bind.
  eapply owp_readAccess; [by rewrite finish_objects|done|set_solver|]. apply awp_when; simpl.
  { fold (links d) (links d'). by rewrite Hlk, xorb_nilpotent, andb_false_r. }
  intros _. eapply owp_handle_removable.
  - eapply wf_finish; [done|exact Hl|set_solver|done].
  - by rewrite finish_objects.
  - rewrite finish_bottom. unfold bottom. by rewrite Hx.
  - by eapply object_ok_mono.
  - by eapply change_ok_mono.
  - done.
  - intros Hk He Hn. destruct Hst as [?|[?|?]]; congruence.
Qed.

(** ** Fragmenting an access *)

Lemma owp_local {A} (m : stM W A) (Q : A → obs B → Prop) o :
  owp m (λ a o', Q a (restore o o')) (without_data o) → owp (with_local_dependency_data m) Q o.
Proof.
  intros H w <-. apply wp_bind, wp_gets, wp_bind, wp_modify, wp_bind.
  eapply wp_mono; [by apply H|]. intros a w' HQ. by apply wp_bind, wp_modify, wp_ret.
Qed.

(** A change, up to the call of [handleDataAccessStatusChanges]. *)
Lemma owp_changeAccess handle t k l1 d l2 f (Q : unit → obs B → Prop) o :
  wf par o → objects t k o = Some (l1 ++ d :: l2) → change_ok o k d (f d) →
  owp (handle (effects par d) (effects par (f d)) (aref t k (f d))) Q (put_objects t k (l1 ++ f d :: l2) o) →
  owp (changeAccess handle (aref t k d) f) Q o.
Proof.
  intros Hwf Hl Hc HQ. pose proof (objects_wf par _ _ _ _ Hwf Hl) as Hm. apply awp_bind.
  eapply owp_readEffects; [done|done|set_solver|]. apply awp_bind.
  eapply owp_updateAccess; [done|done|]. apply awp_bind.
  rewrite <- (aref_change _ t k _ _ _ Hc).
  eapply owp_readEffects; [by eapply wf_put_change|by eapply objects_put|set_solver|exact HQ].
Qed.

Lemma owp_changeAccess_simple n t k l1 d l2 f (Q : unit → obs B → Prop) o :
  wf par o → objects t k o = Some (l1 ++ d :: l2) → change_ok o k d (f d) →
  links d = links (f d) → stays k d (f d) → Q tt (change par t k l1 d (f d) l2 o) →
  owp (changeAccess (handleDataAccessStatusChanges mc (S n)) (aref t k d) f) Q o.
Proof.
  intros Hwf Hl Hc Hlk Hst HQ. eapply owp_changeAccess; [done..|].
  pose proof Hl as (x & Hx & Hlx)%objects_view.
  destruct (wf_lookup _ _ _ _ _ _ _ _ Hwf Hx Hlx) as (_ & _ & Hd & _).
  assert (same_tasks o (put_objects t k (l1 ++ f d :: l2) o)) as Hs by apply same_tasks_alter.
  eapply owp_handle_simple; [by eapply wf_put_change|by eapply objects_put| | |done|done|exact HQ].
  - by eapply object_ok_mono.
  - by eapply change_ok_mono.
Qed.

Section fragmentAccess.
Context (n t : nat) (k : DataAccessObjectType) (l1 : list (DataAccess B)) (d : DataAccess B)
  (l2 : list (DataAccess B)) (fr : DataAccessRegion) (o : obs B).
Context (Hwf : wf par o) (Hl : objects t k o = Some (l1 ++ d :: l2)) (Hfr : region_wf fr)
  (Hint : intersects fr d).

(** In the middle of a fragmentation: the copies so far have been counted. *)
Definition fragmented (l : list (DataAccess B)) o' : Prop :=
  wf par o' ∧ (length (l1 ++ d :: l2) ≤ length l)%nat ∧
  o' = count_copies t d (length l - length (l1 ++ d :: l2)) (put_objects t k l o).

Lemma fragmented_objects l o' : fragmented l o' → objects t k o' = Some l.
Proof.
  intros (_ & _ & ->). rewrite (objects_ext _ _ (put_objects t k l o)) by apply count_copies_view.
  by eapply objects_put.
Qed.

Lemma object_d : object_ok o t k d.
Proof.
  pose proof Hl as (x & Hx & Hlx)%objects_view. by destruct (wf_lookup _ _ _ _ _ _ _ _ Hwf Hx Hlx) as (_ & _ & ? & _).
Qed.

Lemma fragmented_insert L1 c L2 o' :
  fragmented (L1 ++ L2) o' → map_wf (L1 ++ c :: L2) → object_ok o' t k c →
  wf par (put_objects t k (L1 ++ c :: L2) o').
Proof.
  intros Hf Hm Hc. pose proof (fragmented_objects _ _ Hf) as (x & Hx & Hlx)%objects_view.
  destruct Hf as (Hwf' & _ & _). eapply wf_put_objects; [done|done|done|].
  intros c' [Hc'|[->|Hc']%elem_of_cons]%elem_of_app; [|done|];
    (apply (vo_objects _ _ _ _ (wf_view _ _ Hwf' _ _ Hx)); rewrite Hlx; set_solver).
Qed.

Lemma fragmented_tasks l o' : fragmented l o' → same_tasks o o'.
Proof.
  intros (_ & _ & ->) t'.
  rewrite (proj1 (count_copies_view t d (length l - length (l1 ++ d :: l2)) (put_objects t k l o))).
  apply (same_tasks_alter o).
Qed.

(** A copy is inserted and registered. *)
Lemma owp_new_copy L1 L2 st e o' :
  fragmented (L1 ++ L2) o' → map_wf (L1 ++ setRegistered (cut d st e) :: L2) →
  middle_piece d fr ∈ L1 ++ L2 →
  owp (newContents ← mret (duplicateDataAccess (middle_piece d fr));
       map_insert (objects_of t k) (setAccessRegion (mkRegion st (e - st)) newContents);;
       setUpNewFragment (handleDataAccessStatusChanges mc (S n)) (mkRef t k st) (mkRef t k (cut_start d fr)))
    (λ _ o', fragmented (L1 ++ setRegistered (cut d st e) :: L2) o') o'.
Proof.
  intros Hf Hm Hin. apply awp_bind, awp_ret, awp_bind.
  set (c0 := cut d st e). set (c := clearRegistered c0).
  change (setAccessRegion _ (duplicateDataAccess (middle_piece d fr))) with c.
  assert (map_wf (L1 ++ c :: L2)) as Hmc.
  { eapply map_wf_ext; [|exact Hm]. by rewrite !fmap_app, !fmap_cons. }
  pose proof (fragmented_objects _ _ Hf) as Hl'. pose proof (fragmented_tasks _ _ Hf) as Hs.
  eapply (awp_map_insert _ _ _ _ (objects_seen t k)); [exact Hl'|exact Hmc|].
  destruct (copy_ok o' t k c0) as (Hc1 & Hc2 & Hc3 & Hc4 & Hc5).
  { apply object_ok_cut. eapply object_ok_mono; [exact Hs|]. apply object_d. }
  fold c in Hc1, Hc2, Hc3, Hc4, Hc5.
  set (o1 := put_objects t k (L1 ++ c :: L2) o'). assert (same_tasks o' o1) as Hs1 by apply same_tasks_alter.
  assert (wf par o1) as Hwf1 by (by apply fragmented_insert).
  apply awp_when; intros Hst.
  - apply owp_local. change (mkRef t k st) with (aref t k c).
    eapply owp_changeAccess_simple; [by apply wf_without_data| |by eapply change_ok_mono|done|by left|].
    { rewrite (objects_ext _ _ o1) by done. by eapply objects_put. }
    unfold change. fold (finish t c (setRegistered c) (put_objects t k (L1 ++ setRegistered c :: L2) (without_data o1))).
    rewrite finish_copy by done.
    change (enforcesDependency c) with (enforcesDependency d).
    set (z := put_objects t k (L1 ++ setRegistered c :: L2) o').
    assert (restore o1 (if enforcesDependency d
      then add_pred t 1 (put_objects t k (L1 ++ setRegistered c :: L2) (without_data o1))
      else put_objects t k (L1 ++ setRegistered c :: L2) (without_data o1)) =
      if enforcesDependency d then add_pred t 1 z else z) as ->.
    { assert (o_view (put_objects t k (L1 ++ setRegistered c :: L2) o1) = o_view z) as Hv
        by (unfold o1; by rewrite put_objects_put).
      unfold restore. case_match; simpl in *; rewrite Hv; done. }
    assert (wf par z) as Hwfz.
    { unfold z. rewrite Hc5. apply fragmented_insert; [done|done|]. rewrite <- Hc5. by eapply object_ok_change. }
    destruct Hf as (Hwf' & Hlen & Ho'). split_and!.
    + case_match; [|done]. by apply (wf_ext _ z).
    + rewrite !length_app in Hlen |- *. simpl in *. lia.
    + unfold z. rewrite Hc5, Ho', count_copies_put, put_objects_put.
      assert (length (L1 ++ setRegistered c0 :: L2) - length (l1 ++ d :: l2) =
        S (length (L1 ++ L2) - length (l1 ++ d :: l2)))%nat as Hlen'.
      { rewrite (length_app L1 (_ :: _)). rewrite (length_app L1 L2) in Hlen |- *. simpl length at 2. lia. }
      by rewrite Hlen', count_copies_S.
  - exfalso. apply negb_false_iff, Z.eqb_eq in Hst. simpl in Hst.
    assert (cstart (middle_piece d fr) = st ∧ cstart (setRegistered (cut d st e)) = st) as [He1 He2].
    { split; [|done]. rewrite Hst. unfold middle_piece. by destruct (bounds_cut d (cut_start d fr) (cut_end d fr)). }
    apply map_wf_app in Hm as (Hm1 & (Hm2 & Hm3 & Hm4)%map_wf_cons & Hm5).
    assert (∀ c', c' ∈ L1 ++ L2 → cstart c' ≠ st) as Hne; [|exact (Hne _ Hin He1)].
    intros c' [Hc'|Hc']%elem_of_app.
    + specialize (Hm5 c' _ Hc' ltac:(by left)). assert (content_wf c') as [_ Hp] by (eapply map_wf_elem; [exact Hm1|done]).
      rewrite He2 in Hm5. unfold cend in Hm5. lia.
    + specialize (Hm4 c' Hc'). destruct Hm2 as [_ Hp]. unfold cend in Hm4. rewrite He2 in Hm4. lia.
Qed.

Lemma fragmented_shrink o' :
  fragmented (l1 ++ d :: l2) o' →
  fragmented (l1 ++ middle_piece d fr :: l2) (put_objects t k (l1 ++ middle_piece d fr :: l2) o').
Proof.
  intros Hf. pose proof (fragmented_objects _ _ Hf) as (x & Hx & Hlx)%objects_view.
  pose proof (fragmented_tasks _ _ Hf) as Hs. destruct Hf as (Hwf' & Hlen & Ho').
  assert (length (l1 ++ middle_piece d fr :: l2) = length (l1 ++ d :: l2)) as He by (by rewrite !length_app).
  split_and!; [|lia|].
  - eapply wf_put_objects; [done|done| |].
    + pose proof (new_pieces_wf l1 d l2 fr (objects_wf par _ _ _ _ Hwf Hl) Hfr Hint id (λ _, eq_refl)) as Hnp.
      eapply map_wf_sublist; [|exact Hnp]. apply sublist_app; [done|]. unfold new_pieces.
      rewrite <- app_assoc. apply sublist_inserts_l. simpl. apply sublist_skip. by apply sublist_inserts_l.
    + intros c [Hc|[->|Hc]%elem_of_cons]%elem_of_app;
        [|apply object_ok_cut; eapply object_ok_mono; [exact Hs|apply object_d]|];
        (apply (vo_objects _ _ _ _ (wf_view _ _ Hwf' _ _ Hx)); rewrite Hlx; set_solver).
  - by rewrite He, Ho', count_copies_put, put_objects_put.
Qed.

Lemma owp_fragmentAccess (Q : access_ref → obs B → Prop) :
  Q (aref t k (middle_piece d fr)) (split t k l1 d l2 fr o) →
  owp (fragmentAccess (handleDataAccessStatusChanges mc (S n)) (aref t k d) fr) Q o.
Proof.
  intros HQ. pose proof (objects_wf par _ _ _ _ Hwf Hl) as Hm.
  assert (content_wf d) as Hcw by (eapply map_wf_elem; [exact Hm|]; set_solver).
  apply awp_bind. eapply owp_readAccess; [done|done|set_solver|].
  destruct (fullyContainedIn (da_region d) fr) eqn:Hin.
  { apply awp_ret. rewrite split_self in HQ by done.
    destruct (middle_piece_self d fr Hcw Hfr Hin) as (He & _ & _). by rewrite He in HQ. }
  apply awp_bind. eapply awp_mono.
  - eapply (awp_fragmentByIntersection_keep _ _ _ _ (objects_seen t k) l1 d l2 fr Hm Hfr Hint setRegistered
      (λ _, eq_refl) _ _ fragmented fragmented_objects).
    + intros o' Hf. apply awp_when; intros E; [by rewrite Z.eqb_refl in E|]. by apply fragmented_shrink.
    + intros L1 L2 st e o' Hf Hw Hin' _. by apply owp_new_copy.
    + split_and!; [done|done|]. rewrite put_objects_id, Nat.sub_diag by done. unfold count_copies. by case_match.
  - intros p o' (-> & Hwf' & Hlen & ->). apply awp_bind. eapply awp_lift; [done|]. apply awp_ret.
    assert (length (l1 ++ new_pieces d fr setRegistered ++ l2) - length (l1 ++ d :: l2) =
      length (new_pieces d fr setRegistered) - 1)%nat as -> by (rewrite !length_app; simpl; lia).
    exact HQ.
Qed.
End fragmentAccess.

(** ** Runs *)

(** ** Traversals and their cost *)

(** A traversal whose processor makes quiet runs. *)
Lemma owp_quiet_traversal {C} `{!RegionContent C} {MC} `{!AvlSet C node_key MC} `{!AvlSetLaws C node_key MC}
    (r : map_ref W MC) look put (P : nat → DataAccessObjectType → Prop) region (p : Z → stM W bool) l o :
  seen obs_of r look put → region_wf region → look o = Some l → map_wf l → wf par o →
  (∀ n o1 l, look o1 = Some l → map_wf l → n ∈ l → intersects region n → wf par o1 → same_tasks o o1 →
     owp (p (node_key n)) (λ c o', c = true ∧ quiet P (2 * ilen region n) o1 o' ∧ keeps look (cend n) o1 o') o1) →
  owp (processIntersecting r region p) (λ c o', c = true ∧ quiet P (2 * rlength region) o o') o.
Proof.
  intros Hseen Hr Hl Hm Hwf Hp. pose proof (sum_ilen region l Hr Hm) as Hsum.
  set (total := sumZ (ilen region) (filter (intersects region) l)) in *.
  set (I := λ rest o', quiet P (2 * (total - sumZ (ilen region) rest)) o o').
  eapply awp_mono; [eapply (awp_processIntersecting _ _ _ _ Hseen _ _ I); [done..| |]|].
  - intros n rest o1 l1 Hl1 Hm1 Hn Hi Hq. eapply awp_mono.
    + apply (Hp n o1 l1); try done; [by eapply quiet_wf|by eapply quiet_tasks].
    + intros c o2 (-> & Hq2 & Hk). split_and!; [done| |done]. unfold I in *. rewrite sumZ_cons in Hq.
      eapply quiet_mono; [by eapply quiet_trans|done|lia].
  - unfold I. subst total. eapply quiet_mono; [apply quiet_refl|done|lia].
  - intros c o' [-> Hq]. split; [done|]. eapply quiet_mono; [exact Hq|done|]. simpl. lia.
Qed.

(** ** The recursion *)

Definition handle_ok (n N t : nat) (k : DataAccessObjectType) : Prop :=
  ∀ l1 d d' l2 o, bounded N o → wf par o → objects t k o = Some (l1 ++ d' :: l2) →
    object_ok o t k d → change_ok o k d d' → stays k d d' →
    owp (handleDataAccessStatusChanges mc n (effects par d) (effects par d') (aref t k d'))
      (λ _ o', quiet (under t k) (cost d d') (finish t d d' o) o') o.

Lemma owp_changeAccess_quiet n N t k l1 d l2 f o :
  handle_ok n N t k → bounded N o → wf par o → objects t k o = Some (l1 ++ d :: l2) →
  change_ok o k d (f d) → stays k d (f d) →
  owp (changeAccess (handleDataAccessStatusChanges mc n) (aref t k d) f)
    (λ _ o', quiet (under t k) (cost d (f d)) (change par t k l1 d (f d) l2 o) o') o.
Proof.
  intros Hok Hb Hwf Hl Hc Hst. eapply owp_changeAccess; [done..|].
  pose proof Hl as (x & Hx & Hlx)%objects_view.
  destruct (wf_lookup _ _ _ _ _ _ _ _ Hwf Hx Hlx) as (_ & _ & Hd & _).
  assert (same_tasks o (put_objects t k (l1 ++ f d :: l2) o)) as Hs by apply same_tasks_alter.
  eapply Hok; [by eapply bounded_mono|by eapply wf_put_change|by eapply objects_put| | |done].
  - by eapply object_ok_mono.
  - by eapply change_ok_mono.
Qed.

(** *** Visits

    A traversal fragments an access and changes the part in its region. *)

(** *** Following a link

    The accesses that a link designates in a region get a next access. *)

Section follow.
Context (n N u : nat) (k : DataAccessObjectType) (P : nat → DataAccessObjectType → Prop).
Context (Hok : handle_ok (S n) N u k) (Hsp : spares P u k).
Notation handle := (handleDataAccessStatusChanges mc (S n)).

Lemma owp_link_visit region l1 d l2 f o :
  wf par o → bounded N o → objects u k o = Some (l1 ++ d :: l2) → region_wf region → intersects region d →
  (∀ o1 m, same_tasks o o1 → object_ok o1 u k m → change_ok o1 k m (f m) ∧ hasNext (f m) = true) →
  owp (changeAccess handle (aref u k (middle_piece d region)) f)
    (λ _ o', quiet P (2 * ilen region d) o o' ∧ keeps (objects u k) (cend d) o o')
    (split u k l1 d l2 region o).
Proof.
  intros Hwf Hb Hl Hr Hi Hf. pose proof Hl as (x & Hx & Hlx)%objects_view.
  set (o1 := split u k l1 d l2 region o). set (m := middle_piece d region).
  assert (pstep par o o1) as Hs1 by (by eapply step_split).
  assert (wf par o1) as Hwf1 by (by eapply pstep_wf). pose proof (pstep_tasks par _ _ Hs1) as Ht1.
  pose proof (split_app u k l1 d l2 region o Hl) as Hl1. fold o1 m in Hl1.
  pose proof Hl1 as (x1 & Hx1 & Hlx1)%objects_view.
  destruct (wf_lookup _ _ _ _ _ _ _ _ Hwf1 Hx1 Hlx1) as (_ & _ & Hmo & _).
  destruct (Hf o1 m Ht1 Hmo) as [Hc Hnext]. eapply awp_mono.
  - eapply (owp_changeAccess_quiet (S n) N); [done|by eapply bounded_mono|done|exact Hl1|done|right; by left].
  - intros [] o' Hq. pose proof (visited_quiet par u k region l1 d l2 f o o' Hwf Hl Hr Hi Hc Hq) as Hv.
    split; [by eapply visited_spares|]. eapply visited_keeps; [done..| |exact Hv]. apply (co_same _ _ _ _ Hc).
Qed.

Lemma owp_followLink region (p : access_ref → stM W bool) f o x :
  wf par o → bounded N o → o_view o !! u = Some x → region_wf region →
  (∀ o1 m, same_tasks o o1 → object_ok o1 u k m → change_ok o1 k m (f m) ∧ hasNext (f m) = true) →
  (∀ o1 l m (Q : bool → obs B → Prop), wf par o1 → objects u k o1 = Some l → m ∈ l →
     owp (changeAccess handle (aref u k m) f) (λ _ o', Q true o') o1 → owp (p (aref u k m)) Q o1) →
  owp (followLink handle (mkLink u k) region p) (λ c o', c = true ∧ quiet P (2 * rlength region) o o') o.
Proof.
  intros Hwf Hb Hx Hr Hf Hp. assert (objects u k o = Some (v_objects k x)) as Hl by (unfold objects; by rewrite Hx).
  eapply (owp_quiet_traversal _ _ _ P _ _ _ o (objects_seen u k)); [done|exact Hl|by eapply objects_wf|done|].
  intros d o1 l Hl1 Hm1 Hd Hi Hwf1 Hs1. apply elem_split in Hd as (l1 & l2 & ->). simpl link_task. simpl link_objectType.
  apply awp_bind. change (mkRef u k (node_key d)) with (aref u k d). eapply owp_fragmentAccess; [done..|].
  eapply Hp; [|by apply split_app|apply elem_middle|].
  - pose proof Hl1 as (x1 & Hx1 & Hlx1)%objects_view. eapply pstep_wf; [exact Hwf1|]. by eapply step_split.
  - eapply awp_mono; [apply owp_link_visit; try done|].
    + by eapply bounded_mono.
    + intros o2 m Hs2. apply Hf. intros t. rewrite (Hs2 t). apply Hs1.
    + intros [] o' [Hq Hk]. done.
Qed.
End follow.

Section bottom_map.
Context (n N t : nat).
Context (Hchild : ∀ u, (t < u)%nat → handle_ok (S n) N u access_type).
Context (Hself : ∀ k, k ≠ access_type → handle_ok (S n) N t k).
Context (Hpar : ∀ u p, par u = Some p → (p < u)%nat).
Notation handle := (handleDataAccessStatusChanges mc (S n)).

Lemma owp_processBottomMapUpdate operation next b o :
  wf par o → bounded N o → bottom t o = Some b → region_wf (bu_region operation) →
  bu_next operation = Some next → live_link o next →
  owp (processBottomMapUpdate handle operation t)
    (λ _ o', quiet (under t access_type) (2 * rlength (bu_region operation)) o o') o.
Proof.
  intros Hwf Hb Hbot Hr Hn Hlive. apply awp_bind. eapply awp_mono.
  - apply (owp_quiet_traversal _ _ _ (under t access_type) _ _ b o (bottom_seen t)); try done.
    + by eapply bottom_wf.
    + intros e o1 b1 Hb1 Hbw He Hi Hwf1 Hs1. apply awp_bind.
      eapply (awp_map_deref _ _ _ _ (bottom_seen t)); [done..|].
      pose proof Hb1 as (x & Hx & Hxb)%bottom_view. destruct (wf_view _ _ Hwf1 _ _ Hx) as [_ _ _ _ _ Hent].
      rewrite Hxb in Hent. destruct (proj1 (Forall_forall _ _) Hent e He) as ([y Hy] & Hlink & _).
      assert (content_wf e) as Hew by (by eapply map_wf_elem).
      destruct (intersect_ilen _ e Hr Hew Hi) as [Hsw Hsl]. simpl in Hsw, Hsl.
      set (link := bme_link e) in *. assert (link = mkLink (link_task link) (link_objectType link)) as -> by (by destruct link).
      assert (link_objectType link = access_type ∧ par (link_task link) = Some t ∨
              link_objectType link ≠ access_type ∧ link_task link = t) as Hu.
      { destruct (link_objectType link); [left; auto|right; by split..]. }
      apply awp_bind. eapply awp_mono.
      * eapply (owp_followLink n N _ _ (under t access_type)) with (f := relink operation); try done.
        -- destruct Hu as [[-> Hu%Hpar]|[Hk ->]]; auto.
        -- by apply spares_below.
        -- by eapply bounded_mono.
        -- intros o2 m Hs2 Hm. eapply relink_ok; [done..|]. eapply live_link_mono; [exact Hs2|]. by eapply live_link_mono.
        -- intros o2 l m Q Hwf2 Hl2 Hm HQ. pose proof (objects_wf par _ _ _ _ Hwf2 Hl2) as Hmw.
           apply awp_bind, awp_bind. eapply owp_readAccess; [done..|]. apply awp_bind. apply (awp_lift _ _ tt).
           ++ pose proof Hl2 as (y2 & Hy2 & <-)%objects_view.
              pose proof (vo_objects _ _ _ _ (wf_view _ _ Hwf2 _ _ Hy2) _ _ Hm) as [_ _ [Hty _] _ _ _].
              by rewrite (bool_decide_eq_false_2 (da_type m = _) Hty), andb_false_r.
           ++ eapply awp_mono; [exact HQ|]. intros [] o3 H3. by apply awp_ret.
      * intros c o2 [_ Hq]. apply awp_ret. rewrite Hsl in Hq. split_and!; [done|done|].
        eapply keeps_same; [exact Hb1| |done]. by rewrite (q_bottoms par _ _ _ _ Hq).
  - intros c o' [_ Hq]. by apply awp_ret.
Qed.
End bottom_map.

Lemma handle_ok_other n N t k : k ≠ access_type → handle_ok (S n) N t k.
Proof.
  intros Hk l1 d d' l2 o Hb Hwf Hl Hd Hc Hst. eapply owp_handle_simple; [done..| |done|].
  - pose proof (ok_sub _ _ _ _ Hd) as Hs. destruct (co_same _ _ _ _ Hc) as (_ & _ & _ & _ & _ & Hs').
    unfold links. rewrite Hs'. destruct (hasSubaccesses d); [by destruct Hk; apply Hs|]. by rewrite !andb_false_r.
  - eapply quiet_finish; [done|done|set_solver].
Qed.

(** The depth of the recursion is bounded by the number of tasks. *)
Lemma handle_ok_all n N t k :
  (∀ u p, par u = Some p → (p < u)%nat) → (N - t < n)%nat → handle_ok n N t k.
Proof.
  intros Hpar. revert t k. induction n as [|n IH]; intros t k Hn; [lia|].
  destruct (decide (k = access_type)) as [->|Hk]; [|by apply handle_ok_other].
  intros l1 d d' l2 o Hb Hwf Hl Hd Hc Hst.
  destruct (decide (links d = links d')) as [He|He].
  { eapply owp_handle_simple; [done..|]. eapply quiet_finish; [done|done|set_solver]. }
  pose proof Hl as (x & Hx & Hlx)%objects_view. assert (t < N)%nat as HtN by (apply Hb; by exists x).
  destruct n as [|n]; [lia|]. pose proof (objects_wf par _ _ _ _ Hwf Hl) as Hm.
  destruct (change_bits _ _ _ _ Hc) as (_ & Hcm & _ & _ & _ & _ & _ & _ & Hnx).
  destruct (co_same _ _ _ _ Hc) as (_ & _ & _ & _ & Hreg & Hs').
  assert (links d' = true) as Hlk.
  { unfold links in *. rewrite Hs' in *.
    destruct (hasNext d'), (complete d'), (hasSubaccesses d), (hasNext d), (complete d); simpl in *;
      try congruence; try discriminate (Hnx eq_refl); discriminate (Hcm eq_refl). }
  assert (growing_bits d ≠ growing_bits d') as Hbits by (intros Hg; by apply He, (links_flip o access_type)).
  assert (hasSubaccesses d' = true) as Hsub by (unfold links in Hlk; by bool_hyps).
  pose proof Hlk as Hlk'. unfold links in Hlk. bool_hyps. destruct (da_next d') as [next|] eqn:Hnext; [|by unfold hasNext in *; rewrite Hnext in *].
  assert (same_tasks o (finish t d d' o)) as Hs by apply same_tasks_view, finish_view.
  assert (wf par (finish t d d' o)) as Hwf1 by (eapply wf_finish; [done|done| |done]; set_solver).
  assert (content_wf d') as [Hcw _] by (eapply map_wf_elem; [exact Hm|]; set_solver).
  apply (owp_handle_body t access_type (l1 ++ d' :: l2)); [done|set_solver|apply Hd|apply Hc|done|..].
  { intros _. eapply quiet_finish; [done|done|set_solver]. }
  intros _. apply awp_bind, awp_bind. eapply owp_readAccess; [by rewrite finish_objects|done|set_solver|].
  assert (quiet (under t access_type) (cost d d') (finish t d d' o) (finish t d d' o)) as Hq0
    by (eapply quiet_finish; [done|done|set_solver]).
  apply awp_when; intros Hw.
  - eapply awp_mono.
    + eapply (owp_processBottomMapUpdate n N t) with (next := next); try done.
      * intros u Hu. apply IH. lia.
      * intros k Hk. by apply handle_ok_other.
      * by eapply bounded_mono.
      * rewrite finish_bottom. unfold bottom. by rewrite Hx.
      * eapply live_link_mono; [exact Hs|]. by eapply co_next.
    + intros [] o2 Hq. simpl in Hq. pose proof (quiet_wf par _ _ _ _ Hq Hwf1) as Hwf2.
      pose proof (quiet_tasks par _ _ _ _ Hq) as Hs2.
      eapply (owp_handle_removable t access_type l1 d d' l2); [done| | | | | |].
      * rewrite (q_frame par _ _ _ _ Hq) by apply (under_self par t access_type). by rewrite finish_objects.
      * rewrite (q_bottoms par _ _ _ _ Hq), finish_bottom. unfold bottom. by rewrite Hx.
      * eapply object_ok_mono; [exact Hs2|]. by eapply object_ok_mono.
      * eapply change_ok_mono; [exact Hs2|]. by eapply change_ok_mono.
      * intros _. unfold cost. by rewrite decide_False.
      * done.
  - exfalso. simpl in Hw. fold (links d) (links d') in Hw. rewrite Hlk', Hsub in Hw.
    destruct (links d); [congruence|done].
Qed.
End run.
