(* ===== verification/FragmentedPropagation.v ===== *)
(** * Fragmented region dependencies: propagation

    Update operations, the completion of accesses and the end of taskwaits run the protocol, and the
    queue of operations empties within the potential of the state. *)

From S2P Require Import Prelude Region Boost RegionMap RegionMapProofs StateMonad.
From S2P Require Import IntrusiveRegionMap IntrusiveRegionMapProofs IntrusiveRegionMapViews.
From S2P Require Import DataAccessType FragmentedAccess ReductionInfo FragmentedWorld.
From S2P Require Import FragmentedDeps FragmentedProtocol FragmentedInvariant.
From S2P Require Import FragmentedPotential FragmentedObs FragmentedRun.
Local Open Scope Z_scope.

Section stays.
Context {B : Type} `{!DynamicBitset B} `{!DynamicBitsetLaws B}.
Implicit Types (o : obs B) (d : DataAccess B) (x : task_view B).

(** ** What stays

    Objects are cut and their bits are set: what follows from bits that are set stays. *)

Definition grown d d' : Prop :=
  cstart d ≤ cstart d' ∧ cend d' ≤ cend d ∧
  Forall2 (λ b b', implb b b' = true) (growing_bits d) (growing_bits d').

Definition persistent (P : DataAccess B → Prop) : Prop :=
  ∀ d d', content_wf d → content_wf d' → grown d d' → P d → P d'.

(** All the objects of a map have a property. *)
Definition every_object (t : nat) (k : DataAccessObjectType) (P : DataAccess B → Prop) o : Prop :=
  ∀ l, objects t k o = Some l → Forall P l.

Lemma every_view t k P o o' : o_view o' = o_view o → every_object t k P o → every_object t k P o'.
Proof. intros Hv Hh l. rewrite (objects_ext _ _ o) by done. apply Hh. Qed.

Lemma every_put t k P u k' l o :
  every_object t k P o → (t = u → map_kind k = map_kind k' → Forall P l) → every_object t k P (put_objects u k' l o).
Proof.
  intros Hh Hl l'. destruct (decide (t = u ∧ map_kind k = map_kind k')) as [[-> Hk]|Hne].
  - rewrite (objects_kind u k k') by done. intros (x & Hx & <-)%objects_view. simpl in Hx.
    rewrite lookup_alter_eq in Hx. destruct (o_view o !! u); [|done]. injection Hx as <-.
    rewrite v_objects_set, decide_True by done. by apply Hl.
  - rewrite objects_put_ne by exact Hne. apply Hh.
Qed.

Lemma every_lookup t k k' P o x :
  every_object t k P o → o_view o !! t = Some x → map_kind k = map_kind k' → Forall P (v_objects k' x).
Proof.
  intros Hh Hx Hk. rewrite <- (v_objects_kind k k') by done. apply Hh. unfold objects. by rewrite Hx.
Qed.

Lemma grown_pieces d fr c :
  region_wf fr → content_wf d → intersects fr d → c ∈ new_pieces d fr setRegistered → content_wf c ∧ grown d c.
Proof.
  intros Hfr Hd Hi Hc. assert (∃ c', c' ∈ pieces d fr ∧ (c = c' ∨ c = setRegistered c')) as (c' & Hc' & He).
  { unfold new_pieces, pieces in *. apply elem_of_app in Hc as [Hc|[->|Hc]%elem_of_cons].
    - apply list_elem_of_fmap in Hc as (c' & -> & Hc). exists c'. set_solver.
    - exists (middle_piece d fr). set_solver.
    - apply list_elem_of_fmap in Hc as (c' & -> & Hc). exists c'. set_solver. }
  destruct (pieces_bounds d fr c' Hfr Hd Hi Hc') as (H0 & H1 & H2).
  assert (Forall2 (λ b b', implb b b' = true) (growing_bits d) (growing_bits c)) as Hb.
  { unfold pieces, left_piece, right_piece in Hc'.
    assert (∃ r, c' = setAccessRegion r d) as [r ->].
    { apply elem_of_app in Hc' as [Hc'|[->|Hc']%elem_of_cons]; [|by eexists|]; case_match;
        try (by apply not_elem_of_nil in Hc'); apply list_elem_of_singleton in Hc' as ->; by eexists. }
    destruct He as [->| ->]; repeat constructor; simpl; try apply implb_same; apply implb_true_r. }
  split; [|split; [|split]]; [| | |exact Hb]; by destruct He as [->| ->].
Qed.

Lemma growing_persistent d d' :
  grown d d' →
  (complete d = true → complete d' = true) ∧ (readSatisfied d = true → readSatisfied d' = true) ∧
  (writeSatisfied d = true → writeSatisfied d' = true) ∧
  (concurrentSatisfied d = true → concurrentSatisfied d' = true) ∧
  (receivedReductionInfo d = true → receivedReductionInfo d' = true) ∧
  (isTopmost d = true → isTopmost d' = true) ∧ (isTopLevel d = true → isTopLevel d' = true) ∧
  (hasNext d = true → hasNext d' = true).
Proof.
  intros (_ & _ & Hb). unfold growing_bits in Hb.
  repeat match goal with H : Forall2 _ (_ :: _) (_ :: _) |- _ => apply Forall2_cons in H as [? H] end.
  split_and!; intros Ht; match goal with
    H : implb ?b ?b' = true |- ?b' = true => rewrite Ht in H; exact H end.
Qed.

Lemma grown_intersects d d' region :
  region_wf region → content_wf d → content_wf d' → grown d d' → intersects region d' → intersects region d.
Proof. intros Hr Hd Hd' (H1 & H2 & _). rewrite !intersects_spec by done. lia. Qed.

Lemma complete_persistent : persistent (λ d, complete d = true).
Proof. intros d d' _ _ Hg. apply (growing_persistent d d' Hg). Qed.

Lemma hasNext_persistent : persistent (λ d, hasNext d = true).
Proof. intros d d' _ _ Hg. apply (growing_persistent d d' Hg). Qed.

(** *** Traversals

    A traversal that gives the visited objects a property. *)

Definition reached (t : nat) (k : DataAccessObjectType) (P : DataAccess B → Prop) (rest : list (DataAccess B)) o : Prop :=
  ∀ l c, objects t k o = Some l → c ∈ l → P c ∨ c ∈ rest.

(** The object [d] is replaced by its parts outside of the region and by one that has the property. *)
Definition visit_gives (t : nat) (k : DataAccessObjectType) (region : DataAccessRegion) d (P : DataAccess B → Prop) o o' : Prop :=
  ∀ l l' c, objects t k o = Some l → objects t k o' = Some l' → c ∈ l' →
    (c ∈ l ∧ c ≠ d) ∨ c ∈ left_copies d region ++ right_copies d region ∨ P c.

Lemma reached_visits t k region d P rest o o' l :
  objects t k o = Some l → (∀ c, c ∈ left_copies d region ++ right_copies d region → P c) →
  visit_gives t k region d P o o' → reached t k P (d :: rest) o → reached t k P rest o'.
Proof.
  intros Hl Hc Hv Hr l' c Hl' Hin. destruct (Hv l l' c Hl Hl' Hin) as [[Hin' Hne]|[Hin'|HP]]; [|by left; auto|by left].
  destruct (Hr l c Hl Hin') as [HP|[->|Hrest]%elem_of_cons]; [by left|done|by right].
Qed.

Lemma visit_gives_mono t k region d (P P' : DataAccess B → Prop) o o' :
  (∀ c, P c → P' c) → visit_gives t k region d P o o' → visit_gives t k region d P' o o'.
Proof. intros HP Hv l l' c Hl Hl' Hc. destruct (Hv l l' c Hl Hl' Hc) as [?|[?|?]]; auto. Qed.

Lemma reached_every t k P o : reached t k P [] o → every_object t k P o.
Proof.
  intros Hr l Hl. apply Forall_forall. intros c Hc. destruct (Hr l c Hl Hc) as [|[]%not_elem_of_nil]; done.
Qed.

(** The parts of an object outside of a region do not meet it. *)
Lemma copies_outside d region c :
  region_wf region → content_wf d → intersects region d →
  c ∈ left_copies d region ++ right_copies d region → ¬ intersects region c.
Proof.
  intros Hr Hd Hi Hc. assert (content_wf c) as Hcw.
  { assert (∃ c', c' ∈ pieces d region ∧ c = setRegistered c') as (c' & Hc' & ->).
    { unfold left_copies, right_copies in Hc. rewrite <- fmap_app in Hc. apply list_elem_of_fmap in Hc as (c' & -> & Hc).
      exists c'. unfold pieces. set_solver. }
    by destruct (pieces_bounds d region c' Hr Hd Hi Hc'). }
  rewrite intersects_spec by done. apply intersects_spec in Hi; [|done..].
  unfold left_copies, right_copies, left_piece, right_piece, cut_start, cut_end in Hc.
  repeat case_match; bool_hyps; rewrite ?fmap_nil, ?app_nil_r, ?app_nil_l in Hc; simpl in Hc;
    set_unfold in Hc; destruct_or?; subst; try done; unfold cend, cstart in *; simpl in *; lia.
Qed.

Lemma no_copies d c : content_wf d → c ∉ left_copies d (da_region d) ++ right_copies d (da_region d).
Proof.
  intros [_ Hp]. unfold left_copies, right_copies, left_piece, right_piece, cut_start, cut_end, cend, cstart. simpl in *.
  rewrite Z.max_id, Z.min_id, !Z.ltb_irrefl. apply not_elem_of_nil.
Qed.

End stays.

Section propagation.
Context {B : Type} `{!DynamicBitset B} `{!DynamicBitsetLaws B}.
Context {MA : Type} `{!AvlSet (DataAccess B) node_key MA} `{!AvlSetLaws (DataAccess B) node_key MA}.
Context {MB : Type} `{!AvlSet BottomMapEntry node_key MB} `{!AvlSetLaws BottomMapEntry node_key MB}.
Context (mc : machine) (par : nat → option nat).
Context (Hpar : ∀ u p, par u = Some p → (p < u)%nat).
Notation W := (world B MA MB).
Notation owp := (awp (obs_of (B := B) (MA := MA) (MB := MB))).
Notation psteps := (rtc (pstep par)).
Implicit Types (w : W) (o : obs B) (d : DataAccess B) (x : task_view B).

(** ** Update operations *)

Lemma effects_status d d' :
  da_status d = da_status d' → da_type d = da_type d' → da_weak d = da_weak d' →
  da_originator d = da_originator d' → da_objectType d = da_objectType d' → da_next d = da_next d' →
  da_reductionInfo d = da_reductionInfo d' → da_previousReductionInfo d = da_previousReductionInfo d' →
  effects par d = effects par d'.
Proof. destruct d, d'. simpl. intros. by subst. Qed.

(** Changes that only set bits of the status. *)
Lemma effects_bits o k d d' :
  plain d → change_ok o k d d' → growing_bits d = growing_bits d' → da_next d = da_next d' →
  isInBottomMap d = isInBottomMap d' → effects par d = effects par d'.
Proof.
  intros (_ & Hi & Hp & Hcpu & Ha) Hc Hg Hn Hb.
  destruct (co_plain _ _ _ _ Hc) as (_ & Hi' & Hp' & Hcpu' & Ha').
  destruct (co_same _ _ _ _ Hc) as (H1 & H2 & H3 & H4 & _ & Hs).
  apply effects_status; try congruence. injection Hg as E1 E2 E3 E4 E5 E6 E7 E8 _ E10 E11 E12.
  unfold isRegistered, complete, readSatisfied, writeSatisfied, concurrentSatisfied, receivedReductionInfo,
    isTopmost, isTopLevel, canPropagateReadSatisfiability, canPropagateConcurrentSatisfiability,
    canPropagateReductionInfo, isInBottomMap, hasSubaccesses, receivedReductionCpuSet, allocatedReductionInfo in *.
  rewrite !negb_involutive in E10, E11, E12.
  destruct (da_status d), (da_status d'); simpl in *. by subst.
Qed.

Lemma update_ok o t k d u :
  object_ok o t k d → op_ok o u →
  change_ok o k d (apply_update u false d) ∧
  (flips d (apply_update u false d) ∨ effects par d = effects par (apply_update u false d)).
Proof.
  intros Hd Hu. assert (change_ok o k d (apply_update u false d) ∧ da_next (apply_update u false d) = da_next d ∧
    isInBottomMap (apply_update u false d) = isInBottomMap d) as (Hc & Hn & Hb).
  { destruct Hd as [H1 H2 (P1 & P2 & P3 & P4 & P5) H4 H5 H6]. destruct Hu as [_ _ _ Hinfo Hcpus].
    unfold apply_update, bs_sized. rewrite Hcpus, Hinfo. rewrite andb_false_r. simpl.
    destruct (uo_makeReadSatisfied u), (uo_makeWriteSatisfied u), (uo_makeConcurrentSatisfied u),
      (uo_setReductionInfo u), (uo_makeTopmost u), (uo_makeTopLevel u); simpl;
      (split; [split; try done; [repeat constructor; simpl; try apply implb_same; try apply implb_true_r|by left]|done]). }
  split; [done|]. unfold flips.
  destruct (decide (growing_bits d = growing_bits (apply_update u false d))) as [He|He]; [right|by left].
  by eapply effects_bits; [apply Hd|done..].
Qed.

(** ** What stays along the steps *)

Lemma pstep_every t k P o o' :
  persistent P → wf par o → pstep par o o' → every_object t k P o → every_object t k P o'.
Proof.
  intros HP Hwf Hs Hh. destruct Hs as [o u x k' l1 d l2 fr Hx Hl Hfr Hi|o u x k' l1 d d' l2 Hx Hl Hc
    |o u x l1 d l2 Hx Hl|o u x l Hx Htw Hl He].
  - eapply every_view; [apply split_view|]. apply every_put; [done|]. intros -> Hk.
    pose proof (every_lookup _ _ _ _ _ _ Hh Hx Hk) as Hall. rewrite Hl in Hall.
    destruct (wf_lookup _ _ _ _ _ _ _ _ Hwf Hx Hl) as (_ & Hcw & _).
    apply Forall_app in Hall as [H1 [H2 H3]%Forall_cons]. rewrite !Forall_app. split_and!; [done| |done].
    apply Forall_forall. intros c Hc. destruct (grown_pieces d fr c) as [Hc1 Hc2]; [done..|].
    eapply HP; [exact Hcw|exact Hc1|exact Hc2|exact H2].
  - eapply every_view; [apply change_view|]. apply every_put; [done|]. intros -> Hk.
    pose proof (every_lookup _ _ _ _ _ _ Hh Hx Hk) as Hall. rewrite Hl in Hall.
    apply Forall_app in Hall as [H1 [H2 H3]%Forall_cons]. rewrite Forall_app, Forall_cons. split_and!; try done.
    destruct (wf_lookup _ _ _ _ _ _ _ _ Hwf Hx Hl) as (_ & Hcw & _).
    destruct (co_same _ _ _ _ Hc) as (_ & _ & _ & _ & Hr & _).
    eapply HP; [exact Hcw| | |exact H2]; [unfold content_wf in *; simpl in *; by rewrite Hr|].
    unfold grown, cend, cstart. simpl. rewrite Hr. split; [lia|]. split; [lia|]. apply Hc.
  - apply every_put; [done|]. intros -> Hk. pose proof (every_lookup _ _ _ _ _ _ Hh Hx Hk) as Hall. simpl in Hall.
    rewrite Hl in Hall. apply Forall_app in Hall as [H1 [_ H3]%Forall_cons]. by apply Forall_app.
  - intros l'. rewrite objects_put_bottom. apply Hh.
Qed.

Lemma psteps_every t k P o o' :
  persistent P → wf par o → psteps o o' → every_object t k P o → every_object t k P o'.
Proof.
  intros HP Hwf Hs. induction Hs as [|o o1 o2 Hs _ IH]; [done|]. intros Hh.
  apply IH; [by eapply pstep_wf|by eapply pstep_every].
Qed.

(** ** Changes that may remove the access *)

Section depth.
Context (n N : nat) (Hdepth : (N < S n)%nat).
Notation handle := (handleDataAccessStatusChanges mc (S n)).

Lemma handle_ok_depth t k : handle_ok mc par (S n) N t k.
Proof. apply handle_ok_all; [done|lia]. Qed.

(** What a change of the part of an access in a region does. *)
Record touched (t : nat) (k : DataAccessObjectType) (region : DataAccessRegion) d d' o o' : Prop := {
  to_steps : psteps o o';
  to_keeps : keeps (objects t k) (cend d) o o';
  to_frame : ∀ u k', under par t k u (map_kind k') → ¬ (u = t ∧ map_kind k' = map_kind k) →
    objects u k' o' = objects u k' o;
  to_visits : visit_gives t k region d (λ c, c = d') o o';
  to_bottoms : map_kind k ≠ taskwait_type → ∀ u, bottom u o' = bottom u o;
  to_paid : flips (middle_piece d region) d' ∨ effects par (middle_piece d region) = effects par d' →
    potential o' ≤ potential o;
}.

Lemma replaced_visits t k region l1 d l2 P new o o' :
  wf par o → objects t k o = Some (l1 ++ d :: l2) → objects t k o' = Some new →
  (∀ c, c ∈ new → c ∈ l1 ++ l2 ∨ c ∈ left_copies d region ++ right_copies d region ∨ P c) →
  visit_gives t k region d P o o'.
Proof.
  intros Hwf Hl Hl' Hnew l l' c. rewrite Hl, Hl'. intros [= <-] [= <-] Hc.
  pose proof (objects_wf par _ _ _ _ Hwf Hl) as Hm. destruct (Hnew c Hc) as [Hin|?]; [left|by right].
  apply map_wf_app in Hm as (_ & ([_ Hp] & _ & H2)%map_wf_cons & H1). split; [set_solver|]. intros ->.
  apply elem_of_app in Hin as [Hin|Hin]; [specialize (H1 d d Hin (list_elem_of_here _ _))|specialize (H2 d Hin)];
    unfold cend in *; simpl in *; lia.
Qed.

Lemma visited_visits t k region l1 d l2 d' o o' :
  wf par o → objects t k o = Some (l1 ++ d :: l2) → visited par t k region l1 d l2 d' o o' →
  visit_gives t k region d (λ c, c = d') o o'.
Proof.
  intros Hwf Hl Hv. eapply replaced_visits; [exact Hwf|exact Hl|apply Hv|]. intros c Hc. set_solver.
Qed.

Lemma owp_handle_removing t k l1 d d' l2 o :
  map_kind k = taskwait_type → wf par o → objects t k o = Some (l1 ++ d' :: l2) →
  object_ok o t k d → change_ok o k d d' →
  owp (handle (effects par d) (effects par d') (aref t k d'))
    (λ _ o', o' = finish par t d d' o ∨ ∃ b b', bottom t o = Some b ∧ map_wf b' ∧ entries_of b' b ∧
      o' = put_objects t taskwait_type (l1 ++ l2) (put_bottom t b' (finish par t d d' o))) o.
Proof.
  intros Hk Hwf Hl Hd Hc. pose proof (objects_wf par _ _ _ _ Hwf Hl) as Hm.
  assert (same_tasks o (finish par t d d' o)) as Hs by apply same_tasks_view, finish_view.
  pose proof Hl as (x & Hx & _)%objects_view.
  assert (links d = links d') as Hlk.
  { pose proof (ok_sub _ _ _ _ Hd) as Hsub. destruct (co_same _ _ _ _ Hc) as (_ & _ & _ & _ & _ & Hs').
    unfold links. rewrite Hs'. destruct (hasSubaccesses d); [by rewrite Hsub in Hk|]. by rewrite !andb_false_r. }
  apply (owp_handle_body mc par t k (l1 ++ d' :: l2)); [done|set_solver|apply Hd|apply Hc|done|by left|].
  intros Hr. apply awp_bind. apply awp_bind.
  eapply owp_readAccess; [by rewrite finish_objects|done|set_solver|]. apply awp_when; simpl.
  { fold (links d) (links d'). by rewrite Hlk, xorb_nilpotent, andb_false_r. }
  intros _. eapply owp_handle_removable.
  - eapply wf_finish; [done|exact Hl|set_solver|done].
  - by rewrite finish_objects.
  - rewrite finish_bottom. unfold bottom. by rewrite Hx.
  - by eapply object_ok_mono.
  - by eapply change_ok_mono.
  - by left.
  - intros _ _ _ b' Hb' He. right. eexists _, b'. split_and!; [|done|exact He|done]. unfold bottom. by rewrite Hx.
Qed.

Lemma removed_steps t k l1 d l2 b b' o :
  wf par o → map_kind k = taskwait_type → objects t k o = Some (l1 ++ d :: l2) →
  bottom t o = Some b → map_wf b' → entries_of b' b →
  let o' := put_objects t taskwait_type (l1 ++ l2) (put_bottom t b' o) in
  psteps o o' ∧ potential o' ≤ potential o ∧ objects t k o' = Some (l1 ++ l2) ∧
  ∀ u k', ¬ (u = t ∧ map_kind k' = map_kind k) → objects u k' o' = objects u k' o.
Proof.
  intros Hwf Hk Hl Hb Hbw He o'. pose proof Hl as (x & Hx & Hlx)%objects_view.
  assert (v_taskwaits x = l1 ++ d :: l2) as Htw by (rewrite <- Hlx; symmetry; apply (v_objects_kind k taskwait_type x Hk)).
  assert (v_bottom x = b) as Hbx by (unfold bottom in Hb; rewrite Hx in Hb; by injection Hb).
  assert (Forall (entry_ok par o t) b') as Hent.
  { apply Forall_forall. intros e Hin. destruct (He e Hin) as (e0 & Hin0 & Hlink & Htype).
    pose proof (vo_entries _ _ _ _ (wf_view _ _ Hwf _ _ Hx)) as Hall. rewrite Hbx in Hall.
    destruct (proj1 (Forall_forall _ _) Hall e0 Hin0) as (? & ? & ?). by split_and!; rewrite ?Hlink, ?Htype. }
  assert (o_view (put_bottom t b' o) !! t = Some (set_v_bottom b' x)) as Hx'.
  { simpl. by rewrite lookup_alter_eq, Hx. }
  split_and!.
  - eapply rtc_l; [eapply step_bottom; [exact Hx| |done|exact Hent]; rewrite Htw; by destruct l1|].
    eapply rtc_l; [|done]. eapply step_erase; [exact Hx'|exact Htw].
  - unfold o'. rewrite (potential_put_objects _ _ _ _ _ Hx'), (potential_put_bottom _ _ _ _ Hx).
    simpl. rewrite Htw, !sumZ_app, sumZ_cons.
    assert (content_wf d) as Hd by (eapply map_wf_elem; [by eapply objects_wf|apply elem_middle]).
    pose proof (weight_nonneg d Hd). lia.
  - unfold o'. rewrite (objects_kind t k taskwait_type) by done. eapply objects_put.
    rewrite objects_put_bottom, (objects_kind t taskwait_type k) by done. exact Hl.
  - intros u k' Hne. unfold o'. rewrite objects_put_ne by (intros [-> He']; apply Hne; split; [done|]; by rewrite He', Hk). apply objects_put_bottom.
Qed.

Lemma owp_touch t k l1 d l2 region f o :
  wf par o → bounded N o → objects t k o = Some (l1 ++ d :: l2) → region_wf region → intersects region d →
  let o1 := split t k l1 d l2 region o in
  let m := middle_piece d region in
  change_ok o1 k m (f m) →
  owp (changeAccess handle (aref t k m) f) (λ _ o', touched t k region d (f m) o o') o1.
Proof.
  intros Hwf Hb Hl Hr Hi o1 m Hc. pose proof Hl as (x & Hx & Hlx)%objects_view.
  assert (pstep par o o1) as Hs1 by (by eapply step_split).
  assert (wf par o1) as Hwf1 by (by eapply pstep_wf). pose proof (pstep_tasks par _ _ Hs1) as Ht1.
  pose proof (split_app t k l1 d l2 region o Hl) as Hl1. fold o1 m in Hl1.
  assert (content_wf d) as Hd by (eapply map_wf_elem; [exact (objects_wf par _ _ _ _ Hwf Hl)|apply elem_middle]).
  destruct (decide (map_kind k = taskwait_type)) as [Hk|Hk].
  2: { eapply awp_mono; [eapply (owp_changeAccess_quiet mc par (S n) N)|].
    - apply handle_ok_depth.
    - by eapply bounded_mono.
    - done.
    - exact Hl1.
    - done.
    - right. by right.
    - intros [] o' Hq. pose proof (visited_quiet par t k region l1 d l2 f o o' Hwf Hl Hr Hi Hc Hq) as Hv.
      split; try apply Hv; [|by eapply visited_visits|intros _; apply Hv].
      eapply visited_keeps; [done..| |exact Hv]. apply (co_same _ _ _ _ Hc). }
  assert (∀ P, quiet par P (cost m (f m)) (change par t k (l1 ++ left_copies d region) m (f m) (right_copies d region ++ l2) o1)
     (change par t k (l1 ++ left_copies d region) m (f m) (right_copies d region ++ l2) o1)) as Hq.
  { intros P. eapply quiet_mono; [apply quiet_refl|done|]. apply cost_nonneg.
    assert (content_wf m) as Hcw by (eapply map_wf_elem; [exact (objects_wf par _ _ _ _ Hwf1 Hl1)|apply elem_middle]).
    unfold content_wf in *. simpl in *. destruct (co_same _ _ _ _ Hc) as (_ & _ & _ & _ & -> & _). done. }
  pose proof (visited_quiet par t k region l1 d l2 f o _ Hwf Hl Hr Hi Hc (Hq _)) as Hv. clear Hq.
  assert (keeps (objects t k) (cend d) o _) as Hkeep
    by (eapply visited_keeps; [done..| |exact Hv]; apply (co_same _ _ _ _ Hc)).
  set (o2 := change par t k _ m (f m) _ o1) in *.
  eapply owp_changeAccess; [done|exact Hl1|done|]. eapply awp_mono.
  - eapply owp_handle_removing; [done|by eapply wf_put_change|by eapply objects_put| |].
    + pose proof Hl1 as (x1 & Hx1 & Hlx1)%objects_view.
      destruct (wf_lookup _ _ _ _ _ _ _ _ Hwf1 Hx1 Hlx1) as (_ & _ & Hmo & _).
      eapply object_ok_mono; [apply same_tasks_alter|exact Hmo].
    + eapply change_ok_mono; [apply same_tasks_alter|done].
  - intros [] o' [->|(b & b' & Hbb & Hbw & He & ->)].
    + fold o2. split; try apply Hv; try done. by eapply visited_visits.
    + fold o2. assert (bottom t o2 = Some b) as Hb2 by (etrans; [apply (finish_bottom par)|exact Hbb]).
      assert (wf par o2) as Hwf2 by (eapply psteps_wf; [exact Hwf|apply Hv]).
      destruct (removed_steps t k _ (f m) _ b b' o2 Hwf2 Hk (vi_objects _ _ _ _ _ _ _ _ _ _ Hv) Hb2 Hbw He)
        as (R1 & R2 & R3 & R4).
      set (o3 := put_objects t taskwait_type _ _) in *. split.
      * etrans; [apply Hv|exact R1].
      * eapply keeps_trans; [exact Hkeep|]. exists (((l1 ++ left_copies d region) ++ f m :: right_copies d region ++ l2)), ((l1 ++ left_copies d region) ++ right_copies d region ++ l2).
        split_and!; [apply Hv|done| |].
        -- eapply objects_wf; [|exact R3]. eapply psteps_wf; [exact Hwf2|done].
        -- rewrite !filter_app, filter_cons, decide_False, filter_app; [done|]. simpl.
           destruct (pieces_bounds d region m Hr Hd Hi (elem_middle _ _ _)) as ([_ Hp] & _ & Hlt).
           unfold node_key, cend, cstart in *. simpl in *.
           destruct (co_same _ _ _ _ Hc) as (_ & _ & _ & _ & -> & _). subst m. simpl. lia.
      * intros u k' Hu Hne. rewrite R4 by done. by apply (vi_frame _ _ _ _ _ _ _ _ _ _ Hv).
      * eapply replaced_visits; [exact Hwf|exact Hl|exact R3|]. clear. intros c Hc. set_solver.
      * done.
      * intros Hp. pose proof (vi_paid _ _ _ _ _ _ _ _ _ _ Hv Hp). lia.
Qed.
(** The object that a fragmentation leaves in the region. *)
Lemma split_object t k l1 d l2 region o :
  wf par o → objects t k o = Some (l1 ++ d :: l2) → region_wf region → intersects region d →
  let o1 := split t k l1 d l2 region o in
  let m := middle_piece d region in
  wf par o1 ∧ same_tasks o o1 ∧ psteps o o1 ∧
  objects t k o1 = Some ((l1 ++ left_copies d region) ++ m :: right_copies d region ++ l2) ∧
  map_wf ((l1 ++ left_copies d region) ++ m :: right_copies d region ++ l2) ∧ object_ok o1 t k m.
Proof.
  intros Hwf Hl Hr Hi o1 m. pose proof Hl as (x & Hx & Hlx)%objects_view.
  assert (pstep par o o1) as Hs1 by (by eapply step_split).
  assert (wf par o1) as Hwf1 by (by eapply pstep_wf).
  pose proof (split_app t k l1 d l2 region o Hl) as Hl1. fold o1 m in Hl1.
  pose proof Hl1 as (x1 & Hx1 & Hlx1)%objects_view.
  destruct (wf_lookup _ _ _ _ _ _ _ _ Hwf1 Hx1 Hlx1) as (Hm1 & _ & Hmo & _).
  split_and!; try done; [by apply (pstep_tasks par)|by eapply rtc_once].
Qed.

(** The bits that an operation sets. *)
Definition received (u : UpdateOperation B) d : Prop :=
  (uo_makeReadSatisfied u = true → readSatisfied d = true) ∧
  (uo_makeWriteSatisfied u = true → writeSatisfied d = true) ∧
  (uo_makeConcurrentSatisfied u = true → concurrentSatisfied d = true) ∧
  (uo_setReductionInfo u = true → receivedReductionInfo d = true) ∧
  (uo_makeTopmost u = true → isTopmost d = true) ∧ (uo_makeTopLevel u = true → isTopLevel d = true).

Lemma received_update u d : received u (apply_update u false d).
Proof.
  unfold received, apply_update. rewrite andb_false_r. destruct (bs_sized (uo_reductionCpuSet u)),
    (uo_makeReadSatisfied u), (uo_makeWriteSatisfied u), (uo_makeConcurrentSatisfied u),
    (uo_setReductionInfo u), (uo_makeTopmost u), (uo_makeTopLevel u); simpl; done.
Qed.

(** The objects that an operation is for have what it gives. *)
Definition applied (u : UpdateOperation B) o : Prop :=
  every_object (link_task (uo_target u)) (link_objectType (uo_target u))
    (λ d, intersects (uo_region u) d → received u d) o.

Lemma owp_applyUpdateOperationOnAccess t k l1 d l2 u o :
  wf par o → bounded N o → op_ok o u → objects t k o = Some (l1 ++ d :: l2) → intersects (uo_region u) d →
  owp (applyUpdateOperationOnAccess mc (S n) u (aref t k d))
    (λ _ o', psteps o o' ∧ potential o' ≤ potential o ∧ keeps (objects t k) (cend d) o o' ∧
       visit_gives t k (uo_region u) d (received u) o o') o.
Proof.
  intros Hwf Hb Hu Hl Hi. pose proof (op_region _ _ Hu) as Hr.
  destruct (split_object t k l1 d l2 (uo_region u) o Hwf Hl Hr Hi) as (Hwf1 & Hs1 & _ & Hl1 & Hm1 & Hmo).
  apply awp_bind. eapply owp_fragmentAccess; [done..|].
  set (o1 := split t k l1 d l2 (uo_region u) o) in *. set (m := middle_piece d (uo_region u)) in *.
  apply awp_bind. eapply owp_readAccess; [exact Hl1|done|apply elem_middle|]. apply awp_bind.
  unfold compatible_reduction. rewrite (bool_decide_eq_false_2 (da_type m = _)), andb_false_r by apply Hmo.
  apply awp_ret. destruct (update_ok o1 t k m u Hmo) as [Hc Hpay]; [by eapply op_ok_mono|].
  eapply awp_mono; [by apply owp_touch|]. intros [] o' Ht. split_and!; [apply Ht|by apply Ht|apply Ht|].
  intros l l' c Hl0 Hl' Hin. destruct (to_visits _ _ _ _ _ _ _ Ht l l' c Hl0 Hl' Hin) as [?|[?| ->]]; [by left|auto|].
  right. right. apply received_update.
Qed.

Lemma owp_processUpdateOperation u o :
  wf par o → bounded N o → op_ok o u →
  owp (processUpdateOperation mc (S n) u) (λ _ o', psteps o o' ∧ potential o' ≤ potential o ∧ applied u o') o.
Proof.
  intros Hwf Hb Hu. pose proof (op_region _ _ Hu) as Hr. destruct (op_target _ _ Hu) as [x Hx].
  set (t := link_task (uo_target u)) in *. set (k := link_objectType (uo_target u)).
  assert (objects t k o = Some (v_objects k x)) as Hl by (unfold objects; by rewrite Hx).
  set (P := λ d, intersects (uo_region u) d → received u d). pose proof (objects_wf par _ _ _ _ Hwf Hl) as Hm.
  apply awp_bind. eapply awp_mono.
  - eapply (awp_processIntersecting _ _ _ _ (objects_seen t k) _ _
      (λ rest o', (psteps o o' ∧ potential o' ≤ potential o) ∧ reached t k P rest o')); [done|exact Hl|done| |].
    + intros d rest o1 l Hl1 Hm1 Hd Hi [[Hs Hp] Hre]. assert (content_wf d) as Hcw by (by eapply map_wf_elem).
      apply elem_split in Hd as (l1 & l2 & ->). pose proof (psteps_tasks par _ _ Hs) as Ht. apply awp_bind. eapply awp_mono.
      * apply (owp_applyUpdateOperationOnAccess t k l1 d l2); try done; [by eapply psteps_wf| |].
        -- by eapply bounded_mono.
        -- by eapply op_ok_mono.
      * intros [] o2 (Hs2 & Hp2 & Hk & Hv). apply awp_ret. split_and!; [done|by etrans|lia| |done].
        eapply reached_visits; [exact Hl1| |eapply visit_gives_mono; [|exact Hv]; by intros c Hc _|exact Hre].
        intros c Hc Hic. by destruct (copies_outside d (uo_region u) c Hr Hcw Hi Hc).
    + split; [split; [done|lia]|]. intros l c Hl' Hc. rewrite Hl in Hl'. injection Hl' as <-.
      destruct (decide (intersects (uo_region u) c)) as [Hi|Hi]; [right|by left]. by apply list_elem_of_filter.
  - intros c o' (_ & [Hs Hp] & Hre). apply awp_ret. split; [done|]. split; [done|]. by apply reached_every.
Qed.

(** ** The queue *)

(** Propagation, and the end of an operation: the objects that it is for have what it gives. *)
Inductive dstep : obs B → obs B → Prop :=
  | dstep_p o o' : pstep par o o' → dstep o o'
  | dstep_pop o u q : o_queue o = u :: q → applied u o → dstep o (obs_queue tail o).

Lemma dstep_wf o o' : wf par o → dstep o o' → wf par o'.
Proof.
  intros Hwf Hs. destruct Hs as [o1 o2 Hs|o1 u q Hu _]; [by eapply pstep_wf|]. destruct Hwf as [Hv Hq]. split; simpl.
  - intros t x Hx. eapply view_ok_mono; [|by apply Hv]. done.
  - rewrite Hu in Hq |- *. apply Forall_cons in Hq as [_ Hq]. simpl.
    eapply Forall_impl; [exact Hq|]. intros v. by apply op_ok_mono.
Qed.

Lemma dstep_tasks o o' : dstep o o' → same_tasks o o'.
Proof. intros [o1 o2 Hs|o1 u q _ _]; [by eapply pstep_tasks|done]. Qed.

Lemma dsteps_every t k P o o' : persistent P → wf par o → rtc dstep o o' → every_object t k P o → every_object t k P o'.
Proof.
  intros HP Hwf Hs. induction Hs as [|o o1 o2 Hs _ IH]; [done|]. intros Hh. apply IH; [by eapply dstep_wf|].
  destruct Hs as [o1 o3 Hs|o1 u q _ _]; [by eapply pstep_every|by eapply every_view].
Qed.

Lemma psteps_dsteps o o' : psteps o o' → rtc dstep o o'.
Proof. apply rtc_subrel. intros. by apply dstep_p. Qed.

Lemma owp_pop_delayedOperation (Q : unit → obs B → Prop) o :
  Q tt (obs_queue tail o) → owp pop_delayedOperation Q o.
Proof. intros HQ. eapply awp_modify; [|exact HQ]. by intros w <-. Qed.

(** The potential bounds the number of operations that are processed. *)
Lemma owp_processDelayedOperations fuel o :
  wf par o → bounded N o → potential o ≤ Z.of_nat fuel →
  owp (processDelayedOperations mc (S n) fuel)
    (λ _ o', rtc dstep o o' ∧ o_queue o' = [] ∧ potential o' ≤ potential o) o.
Proof.
  revert o. induction fuel as [|fuel IH]; intros o Hwf Hb Hp; intros w Hw.
  - pose proof (potential_queue par o Hwf) as Hq. apply wp_bind, wp_gets.
    assert (cd_delayedOperations (w_dependencyData w) = []) as ->.
    { change (cd_delayedOperations (w_dependencyData w)) with (o_queue (obs_of w)). rewrite Hw.
      destruct (o_queue o); [done|]. simpl in Hq. lia. }
    apply wp_ret. rewrite Hw. split_and!; [done| |lia]. destruct (o_queue o); [done|]. simpl in Hq. lia.
  - apply wp_bind, wp_gets.
    change (cd_delayedOperations (w_dependencyData w)) with (o_queue (obs_of w)). rewrite Hw.
    destruct (o_queue o) as [|u q] eqn:Hq.
    { apply wp_ret. rewrite Hw. split_and!; [done|done|lia]. }
    revert w Hw. change (owp (processUpdateOperation mc (S n) u;; pop_delayedOperation;; processDelayedOperations mc (S n) fuel)
      (λ _ o', rtc dstep o o' ∧ o_queue o' = [] ∧ potential o' ≤ potential o) o).
    apply awp_bind. eapply awp_mono.
    + apply owp_processUpdateOperation; [done|done|]. pose proof (wf_queue _ _ Hwf) as Ha. rewrite Hq in Ha.
      by apply Forall_cons in Ha as [? _].
    + intros [] o1 (Hs1 & Hp1 & Happ). apply awp_bind, owp_pop_delayedOperation.
      destruct (psteps_queue par _ _ Hs1) as (q' & Hq'). rewrite Hq in Hq'. simpl in Hq'.
      assert (potential (obs_queue tail o1) = potential o1 - 1) as Hp2.
      { unfold potential. simpl. rewrite Hq'. simpl. lia. }
      assert (dstep o1 (obs_queue tail o1)) as Hpop by (by eapply dstep_pop).
      assert (rtc dstep o (obs_queue tail o1)) as Hs2 by (eapply rtc_r; [by apply psteps_dsteps|done]).
      eapply awp_mono; [apply IH|].
      * eapply dstep_wf; [by eapply psteps_wf|done].
      * eapply bounded_mono; [|exact Hb]. exact (psteps_tasks par _ _ Hs1).
      * lia.
      * intros [] o2 (Hs3 & Hq3 & Hp3). split_and!; [by etrans|done|lia].
Qed.
(** The ready tasks go to the scheduler. *)
Definition deliver o : obs B :=
  mkObs (o_view o) (o_pred o) (o_queue o) [] (o_scheduled o ++ o_ready o).

Lemma owp_processSatisfiedOriginators busy (Q : unit → obs B → Prop) o :
  Q tt (deliver o) → owp (processSatisfiedOriginators busy) Q o.
Proof.
  intros HQ w <-. apply wp_bind, wp_gets, wp_bind.
  set (ready := cd_satisfiedOriginators (w_dependencyData w)).
  set (I := λ (l : list nat) w', w_tasks w' = w_tasks w ∧ w_dependencyData w' = w_dependencyData w ∧
    (w_scheduled w').*1 ++ l = (w_scheduled w).*1 ++ ready).
  eapply wp_mono; [apply (wp_iter _ ready I)|].
  - done.
  - intros t l w' (H1 & H2 & H3). apply wp_modify. split_and!; [done|done|]. simpl.
    rewrite fmap_app. simpl. by rewrite <- app_assoc.
  - intros [] w' (H1 & H2 & H3). apply wp_modify. rewrite app_nil_r in H3.
    assert (obs_of _ = deliver (obs_of w)) as ->; [|exact HQ].
    unfold obs_of, deliver. simpl. by rewrite H1, H2, H3.
Qed.

Lemma owp_handleRemovableTasks (Q : unit → obs B → Prop) o : Q tt o → owp handleRemovableTasks Q o.
Proof.
  intros HQ w <-. apply wp_bind, wp_gets, wp_bind.
  set (I := λ (_ : list nat) w', obs_of w' = obs_of w).
  eapply wp_mono; [apply (wp_iter _ _ I)|].
  - done.
  - intros t l w' Hw'. by apply wp_modify.
  - intros [] w' Hw'. apply wp_modify.
    assert (obs_of _ = obs_of w) as ->; [|exact HQ]. by rewrite <- Hw'.
Qed.

Lemma owp_process fuel busy o :
  wf par o → bounded N o → potential o ≤ Z.of_nat fuel →
  owp (processDelayedOperationsSatisfiedOriginatorsAndRemovableTasks mc (S n) fuel busy)
    (λ _ o', ∃ o1, rtc dstep o o1 ∧ o_queue o1 = [] ∧ o' = deliver o1) o.
Proof.
  intros Hwf Hb Hp. apply awp_bind. eapply awp_mono; [by apply owp_processDelayedOperations|].
  intros [] o1 (Hs & Hq & _). apply awp_bind, owp_processSatisfiedOriginators, owp_handleRemovableTasks.
  by exists o1.
Qed.

(** ** Completing accesses *)

Lemma complete_ok o t k d :
  object_ok o t k d → anchored d = true →
  change_ok o k d (setComplete d) ∧
  (flips d (setComplete d) ∨ effects par d = effects par (setComplete d)).
Proof.
  intros Hd Ha. assert (change_ok o k d (setComplete d)) as Hc.
  { destruct Hd as [H1 H2 H3 H4 H5 H6]. split; try done; [|by left].
    repeat constructor; simpl; try apply implb_same; apply implb_true_r. }
  split; [done|]. unfold flips.
  destruct (decide (growing_bits d = growing_bits (setComplete d))) as [He|He]; [right|by left].
  by eapply effects_bits; [apply Hd|done..].
Qed.

(** The part of an access in a region is completed. *)
Lemma owp_complete t k l1 d l2 region o :
  wf par o → bounded N o → objects t k o = Some (l1 ++ d :: l2) → region_wf region → intersects region d →
  anchored d = true →
  owp (changeAccess handle (aref t k (middle_piece d region)) setComplete)
    (λ _ o', touched t k region d (setComplete (middle_piece d region)) o o' ∧ potential o' ≤ potential o)
    (split t k l1 d l2 region o).
Proof.
  intros Hwf Hb Hl Hr Hi Ha.
  destruct (split_object t k l1 d l2 region o Hwf Hl Hr Hi) as (Hwf1 & Hs1 & _ & Hl1 & Hm1 & Hmo).
  destruct (complete_ok _ t k (middle_piece d region) Hmo Ha) as [Hc Hpay].
  eapply awp_mono; [by apply owp_touch|]. intros [] o' Ht. split; [done|]. by apply Ht.
Qed.

Lemma owp_complete_fragments t region o x :
  wf par o → bounded N o → o_view o !! t = Some x → region_wf region →
  owp (processIntersecting (objects_of t fragment_type) region (λ position,
         fragment ← fragmentAccess handle (mkRef t fragment_type position) region;
         _ ← (changeAccess handle fragment setComplete;; mret true);
         mret true))
    (λ _ o', psteps o o' ∧ potential o' ≤ potential o ∧
       objects t access_type o' = objects t access_type o ∧ ∀ u, bottom u o' = bottom u o) o.
Proof.
  intros Hwf Hb Hx Hr. assert (objects t fragment_type o = Some (v_fragments x)) as Hl
    by (unfold objects; by rewrite Hx).
  set (I := λ (_ : list (DataAccess B)) o', psteps o o' ∧ potential o' ≤ potential o ∧
    objects t access_type o' = objects t access_type o ∧ ∀ u, bottom u o' = bottom u o).
  eapply awp_mono; [eapply (awp_processIntersecting _ _ _ _ (objects_seen t fragment_type) _ _ I);
    [done|exact Hl|by eapply objects_wf| |done]|by intros c o' [_ H]].
  intros d rest o1 l Hl1 Hm1 Hd Hi (Hs & Hp & Ho & Hbt). apply elem_split in Hd as (l1 & l2 & ->).
  assert (wf par o1) as Hwf1 by (by eapply psteps_wf). pose proof (psteps_tasks par _ _ Hs) as Ht.
  pose proof Hl1 as (x1 & Hx1 & Hlx1)%objects_view.
  destruct (wf_lookup _ _ _ _ _ _ _ _ Hwf1 Hx1 Hlx1) as (_ & _ & Hdo & _).
  assert (anchored d = true) as Ha by (apply (ok_bottom _ _ _ _ Hdo); [done|by left]).
  apply awp_bind. change (mkRef t fragment_type (node_key d)) with (aref t fragment_type d).
  eapply owp_fragmentAccess; [done..|]. apply awp_bind, awp_bind. eapply awp_mono.
  - apply (owp_complete t fragment_type l1 d l2); try done. by eapply bounded_mono.
  - intros [] o2 [Hto Hp2]. apply awp_ret, awp_ret. split_and!; [done| |apply Hto].
    split_and!; [by etrans; [|apply Hto]|lia| |].
    + etrans; [|exact Ho]. by apply Hto; [|intros [_ ?]].
    + intros u. etrans; [|apply Hbt]. by apply Hto.
Qed.

Lemma owp_finalizeAccess t l1 d l2 region o :
  wf par o → bounded N o → objects t access_type o = Some (l1 ++ d :: l2) → region_wf region →
  intersects region d → anchored d = true →
  owp (finalizeAccess mc (S n) (aref t access_type d) region)
    (λ _ o', psteps o o' ∧ potential o' ≤ potential o ∧ keeps (objects t access_type) (cend d) o o' ∧
       visit_gives t access_type region d (λ c, complete c = true) o o' ∧ ∀ u, bottom u o' = bottom u o) o.
Proof.
  intros Hwf Hb Hl Hr Hi Ha. pose proof (objects_wf par _ _ _ _ Hwf Hl) as Hm.
  apply awp_bind. eapply owp_readAccess; [done|done|apply elem_middle|]. destruct (complete d) eqn:Hcd.
  { apply awp_ret. split_and!; [done|lia| | |done]; [eapply keeps_same; [exact Hl|exact Hl|done]|].
    eapply replaced_visits; [exact Hwf|exact Hl|exact Hl|]. intros c [Hc|[->|Hc]%elem_of_cons]%elem_of_app; [|auto|];
      left; apply elem_of_app; auto. }
  destruct (split_object t access_type l1 d l2 region o Hwf Hl Hr Hi) as (Hwf1 & Hs1 & _ & Hl1 & Hm1 & Hmo).
  apply awp_bind. eapply owp_fragmentAccess; [done..|]. apply awp_bind.
  eapply owp_readAccess; [exact Hl1|done|apply elem_middle|]. apply awp_bind, awp_bind. eapply awp_mono.
  { by apply (owp_complete t access_type l1 d l2). }
  intros [] o2 [Hto Hp2]. apply awp_ret. pose proof (to_steps _ _ _ _ _ _ _ Hto) as Hs2.
  assert (visit_gives t access_type region d (λ c, complete c = true) o o2) as Hvc
    by (eapply visit_gives_mono; [|apply Hto]; by intros c ->).
  assert (wf par o2) as Hwf2 by (eapply psteps_wf; [exact Hwf|exact Hs2]). pose proof (psteps_tasks par _ _ Hs2) as Ht2.
  apply awp_when; intros Hsub.
  - assert (content_wf (middle_piece d region)) as [Hmw _] by (eapply map_wf_elem; [exact Hm1|apply elem_middle]).
    destruct (proj2 (Ht2 t)) as [x Hx].
    { pose proof Hl as (x & Hx & _)%objects_view. by exists x. }
    apply awp_bind. eapply awp_mono.
    + eapply (owp_complete_fragments t (da_region (middle_piece d region))); [done|by eapply bounded_mono|exact Hx|exact Hmw].
    + intros _ o3 (Hs3 & Hp3 & Ho3 & Hb3). apply awp_ret. split_and!; [by etrans|lia| | |].
      * destruct (to_keeps _ _ _ _ _ _ _ Hto) as (k1 & k2 & K1 & K2 & K3 & K4). exists k1, k2.
        split_and!; try done. by rewrite Ho3.
      * intros l l' c Hl0 Hl'. rewrite Ho3 in Hl'. by apply Hvc.
      * intros u. rewrite Hb3. by apply Hto.
  - split_and!; [done|done|apply Hto|done|]. intros u. by apply Hto.
Qed.
(** All the accesses of the task are linked. *)
Definition anchored_at (t : nat) o : Prop :=
  ∀ l, objects t access_type o = Some l → Forall (λ d, anchored d = true) l.

Lemma anchored_put t u k l o :
  anchored_at t o → (t = u → k = access_type → Forall (λ d, anchored d = true) l) →
  anchored_at t (put_objects u k l o).
Proof.
  intros Ha Hl l'. destruct (decide (t = u ∧ access_type = map_kind k)) as [[-> Hk]|Hne].
  - assert (k = access_type) as -> by (by destruct k). intros (x & Hx & <-)%objects_view.
    simpl in Hx. rewrite lookup_alter_eq in Hx. destruct (o_view o !! u); [|done]. injection Hx as <-. by apply Hl.
  - rewrite objects_put_ne by exact Hne. apply Ha.
Qed.

Lemma anchored_view t o o' : o_view o' = o_view o → anchored_at t o → anchored_at t o'.
Proof. intros Hv Ha l. rewrite (objects_ext _ _ o) by done. apply Ha. Qed.

Lemma pstep_anchored t o o' : pstep par o o' → anchored_at t o → anchored_at t o'.
Proof.
  intros Hs Ha. destruct Hs as [o u x k l1 d l2 fr Hx Hl Hfr Hi|o u x k l1 d d' l2 Hx Hl Hc
    |o u x l1 d l2 Hx Hl|o u x l Hx Htw Hl He].
  - eapply anchored_view; [apply split_view|]. apply anchored_put; [done|]. intros <- ->.
    assert (Forall (λ d, anchored d = true) (l1 ++ d :: l2)) as Hall.
    { apply Ha. unfold objects. rewrite Hx. simpl. by f_equal. }
    apply Forall_app in Hall as [H1 [H2 H3]%Forall_cons]. rewrite !Forall_app. split_and!; [done| |done].
    apply Forall_forall. unfold new_pieces, left_piece, right_piece. intros c Hin.
    repeat case_match; simpl in Hin; set_unfold in Hin; destruct_or?; subst; exact H2 || done.
  - eapply anchored_view; [apply change_view|]. apply anchored_put; [done|]. intros <- ->.
    assert (Forall (λ d, anchored d = true) (l1 ++ d :: l2)) as Hall.
    { apply Ha. unfold objects. rewrite Hx. simpl. by f_equal. }
    apply Forall_app in Hall as [H1 [H2 H3]%Forall_cons]. rewrite Forall_app, Forall_cons. split_and!; try done.
    by apply (co_anchored _ _ _ _ Hc).
  - by apply anchored_put.
  - intros l'. rewrite objects_put_bottom. apply Ha.
Qed.

Lemma psteps_anchored t o o' : psteps o o' → anchored_at t o → anchored_at t o'.
Proof. induction 1 as [|o o1 o2 Hs _ IH]; [done|]. intros Ha. by apply IH, (pstep_anchored t o). Qed.

(** A loop that completes accesses. *)
Definition completing (t : nat) (P : DataAccess B → Prop) o (rest : list (DataAccess B)) o' : Prop :=
  (psteps o o' ∧ potential o' ≤ potential o ∧ ∀ u, bottom u o' = bottom u o) ∧ reached t access_type P rest o'.

Lemma completing_visit t P o rest d o1 l region :
  wf par o → bounded N o → anchored_at t o → objects t access_type o1 = Some l → d ∈ l →
  region_wf region → intersects region d →
  (∀ c, complete c = true → P c) → (∀ c, c ∈ left_copies d region ++ right_copies d region → P c) →
  completing t P o (d :: rest) o1 →
  owp (finalizeAccess mc (S n) (aref t access_type d) region;; mret true)
    (λ c o', c = true ∧ completing t P o rest o' ∧ keeps (objects t access_type) (cend d) o1 o') o1.
Proof.
  intros Hwf Hb Ha Hl1 Hd Hr Hi HP Hout ((Hs & Hp & Hbt) & Hre). apply elem_split in Hd as (l1 & l2 & ->).
  assert (wf par o1) as Hwf1 by (by eapply psteps_wf). pose proof (psteps_tasks par _ _ Hs) as Ht.
  assert (anchored d = true) as Had.
  { pose proof (psteps_anchored t _ _ Hs Ha _ Hl1) as Hall. by apply Forall_app in Hall as [_ [? _]%Forall_cons]. }
  apply awp_bind. eapply awp_mono.
  - apply (owp_finalizeAccess t l1 d l2); try done. by eapply bounded_mono.
  - intros [] o2 (Hs2 & Hp2 & Hk & Hv & Hb2). apply awp_ret. split_and!; [done| |done].
    split; [split_and!; [by etrans|lia|]; intros u; by rewrite Hb2|].
    eapply reached_visits; [exact Hl1|exact Hout|eapply visit_gives_mono; [exact HP|exact Hv]|exact Hre].
Qed.

Lemma completing_start t P o rest : reached t access_type P rest o → completing t P o rest o.
Proof. split; [|done]. split_and!; [done|apply Z.le_refl|done]. Qed.

(** The parts of the accesses of a task in a region are complete. *)
Definition complete_in (t : nat) (region : DataAccessRegion) o : Prop :=
  every_object t access_type (λ d, intersects region d → complete d = true) o.

Lemma complete_in_persistent region : region_wf region → persistent (λ d, intersects region d → complete d = true).
Proof.
  intros Hr d d' Hd Hd' Hg Hc Hi. apply (growing_persistent d d' Hg), Hc. by eapply grown_intersects.
Qed.

(** [releaseAccessRegion] *)
Lemma owp_releaseAccessRegion fuel t x region o :
  wf par o → bounded N o → o_view o !! t = Some x → anchored_at t o → region_wf region →
  potential o ≤ Z.of_nat fuel →
  owp (releaseAccessRegion mc (S n) fuel t region)
    (λ _ o', ∃ o1, rtc dstep o o1 ∧ complete_in t region o1 ∧ o_queue o1 = [] ∧ o' = deliver o1) o.
Proof.
  intros Hwf Hb Hx Ha Hr Hfuel. assert (objects t access_type o = Some (v_accesses x)) as Hl
    by (unfold objects; by rewrite Hx).
  set (P := λ d, intersects region d → complete d = true).
  apply awp_bind. eapply awp_mono.
  - eapply (awp_processIntersecting _ _ _ _ (objects_seen t access_type) _ _ (completing t P o));
      [done|exact Hl|by eapply objects_wf| |].
    + intros d rest o1 l Hl1 Hm1 Hd Hi HI. eapply completing_visit; try done; [by intros c Hc _|].
      intros c Hc Hic. assert (content_wf d) as Hcw by (by eapply map_wf_elem).
      by destruct (copies_outside d region c Hr Hcw Hi Hc).
    + apply completing_start. intros l c Hl' Hc. rewrite Hl in Hl'. injection Hl' as <-.
      destruct (decide (intersects region c)) as [Hi|Hi]; [right|left; intros Hic; by destruct Hi]. by apply list_elem_of_filter.
  - intros c o1 (_ & (Hs & Hp & _) & Hre). eapply awp_mono; [apply owp_process|].
    + by eapply psteps_wf.
    + eapply bounded_mono; [by eapply psteps_tasks|done].
    + lia.
    + intros [] o' (o2 & Hs2 & Hq & ->). exists o2.
      split; [etrans; [by apply psteps_dsteps|done]|]. split; [|done].
      eapply dsteps_every; [by apply complete_in_persistent|by eapply psteps_wf|exact Hs2|by apply reached_every].
Qed.
End depth.
End propagation.
