(* ===== verification/FragmentedWaiting.v ===== *)
(** * Fragmented region dependencies: taskwaits and the end of a task

    A taskwait and the end of a task add fragments after the last accesses of the children, and
    complete the accesses of the task. *)

From S2P Require Import Prelude Region Boost RegionMap RegionMapProofs StateMonad.
From S2P Require Import IntrusiveRegionMap IntrusiveRegionMapProofs IntrusiveRegionMapViews.
From S2P Require Import DataAccessType FragmentedAccess ReductionInfo FragmentedWorld.
From S2P Require Import FragmentedDeps FragmentedProtocol FragmentedInvariant.
From S2P Require Import FragmentedPotential FragmentedObs FragmentedRun FragmentedPropagation.
Local Open Scope Z_scope.

(** The order of a map depends on the regions only. *)
Lemma map_wf_fmap {C C'} `{!RegionContent C} `{!RegionContent C'} (f : C → C') (l : list C) :
  (∀ c, getAccessRegion (f c) = getAccessRegion c) → map_wf l → map_wf (f <$> l).
Proof.
  intros Hf. induction l as [|c l IH]; intros Hl; [apply map_wf_nil|].
  apply map_wf_cons in Hl as (Hc & Hl & Hcl). rewrite fmap_cons. apply map_wf_cons. split_and!.
  - unfold content_wf. by rewrite Hf.
  - by apply IH.
  - intros c' Hc'. apply list_elem_of_fmap in Hc' as (c0 & -> & Hc0). specialize (Hcl c0 Hc0).
    unfold cend, cstart in *. by rewrite !Hf.
Qed.

Lemma link_eta l : l = mkLink (link_task l) (link_objectType l).
Proof. by destruct l. Qed.

Section waiting.
Context {B : Type} `{!DynamicBitset B} `{!DynamicBitsetLaws B}.
Context {MA : Type} `{!AvlSet (DataAccess B) node_key MA} `{!AvlSetLaws (DataAccess B) node_key MA}.
Context {MB : Type} `{!AvlSet BottomMapEntry node_key MB} `{!AvlSetLaws BottomMapEntry node_key MB}.
Context (mc : machine) (par : nat → option nat).
Context (Hpar : ∀ u p, par u = Some p → (p < u)%nat).
Context (n N : nat) (Hdepth : (N < S n)%nat).
Notation W := (world B MA MB).
Notation owp := (awp (obs_of (B := B) (MA := MA) (MB := MB))).
Notation psteps := (rtc (pstep par)).
Notation tsteps := (rtc (tstep par)).
Notation handle := (handleDataAccessStatusChanges mc (S n)).
Implicit Types (w : W) (o : obs B) (d : DataAccess B) (x : task_view B) (e : BottomMapEntry).

Lemma same_tasks_trans o o1 o2 : same_tasks o o1 → same_tasks o1 o2 → same_tasks o o2.
Proof. intros H1 H2 t. by rewrite (H2 t). Qed.

Lemma psteps_tsteps o o' : psteps o o' → tsteps o o'.
Proof. apply rtc_subrel. intros. by apply step_p. Qed.

Lemma tstep_tasks o o' : tstep par o o' → same_tasks o o'.
Proof. intros Hs. destruct Hs; [by eapply pstep_tasks|apply same_tasks_alter..]. Qed.

Lemma tsteps_tasks o o' : tsteps o o' → same_tasks o o'.
Proof.
  induction 1 as [o|o o1 o2 Hs _ IH]; [done|]. pose proof (tstep_tasks _ _ Hs) as H. intros t. by rewrite (IH t), (H t).
Qed.

Lemma tsteps_wf o o' : wf par o → tsteps o o' → wf par o'.
Proof. intros Hwf Hs. induction Hs as [|o o1 o2 Hs _ IH]; [done|]. apply IH. by eapply tstep_wf. Qed.

(** ** Following a link

    The objects that a link designates in a region have a next one afterwards. *)

Definition linked_in (link : DataAccessLink) (region : DataAccessRegion) o : Prop :=
  every_object (link_task link) (link_objectType link) (λ d, intersects region d → hasNext d = true) o.

Lemma linked_in_persistent region : region_wf region → persistent (λ d, intersects region d → hasNext d = true).
Proof.
  intros Hr d d' Hd Hd' Hg Hc Hi. apply (growing_persistent d d' Hg), Hc. by eapply grown_intersects.
Qed.

Lemma owp_followLink_links u k region (p : access_ref → stM W bool) f o x :
  wf par o → bounded N o → o_view o !! u = Some x → region_wf region →
  (∀ o1 m, same_tasks o o1 → object_ok o1 u k m → change_ok o1 k m (f m) ∧ hasNext (f m) = true) →
  (∀ o1 l m (Q : bool → obs B → Prop), wf par o1 → objects u k o1 = Some l → m ∈ l →
     owp (changeAccess handle (aref u k m) f) (λ _ o', Q true o') o1 → owp (p (aref u k m)) Q o1) →
  owp (followLink handle (mkLink u k) region p) (λ _ o', linked_in (mkLink u k) region o') o.
Proof.
  intros Hwf Hb Hx Hr Hf Hp. assert (objects u k o = Some (v_objects k x)) as Hl by (unfold objects; by rewrite Hx).
  set (P := λ d, intersects region d → hasNext d = true). eapply awp_mono.
  - eapply (awp_processIntersecting _ _ _ _ (objects_seen u k) _ _ (λ rest o', psteps o o' ∧ reached u k P rest o'));
      [done|exact Hl|by eapply objects_wf| |].
    + intros d rest o1 l Hl1 Hm1 Hd Hi [Hs Hre]. assert (content_wf d) as Hcw by (by eapply map_wf_elem).
      apply elem_split in Hd as (l1 & l2 & ->). pose proof (psteps_tasks par _ _ Hs) as Ht.
      assert (wf par o1) as Hwf1 by (eapply psteps_wf; [exact Hwf|done]).
      simpl link_task. simpl link_objectType. apply awp_bind. change (mkRef u k (node_key d)) with (aref u k d).
      eapply owp_fragmentAccess; [done..|].
      destruct (split_object par u k l1 d l2 region o1 Hwf1 Hl1 Hr Hi) as (Hwf2 & Ht2 & _ & Hl2 & _ & Hmo).
      eapply Hp; [exact Hwf2|exact Hl2|apply elem_middle|].
      destruct (Hf _ _ (same_tasks_trans _ _ _ Ht Ht2) Hmo) as [Hc Hn]. eapply awp_mono.
      * apply (owp_touch mc par Hpar n N Hdepth u k l1 d l2); try done. by eapply bounded_mono.
      * intros [] o2 Hto. split_and!; [done|by etrans; [|apply Hto]| |apply Hto].
        eapply reached_visits; [exact Hl1| |eapply visit_gives_mono; [|apply Hto]; by intros c -> _|exact Hre].
        intros c Hin Hic. by destruct (copies_outside d region c Hr Hcw Hi Hin).
    + split; [done|]. intros l c Hl' Hc. rewrite Hl in Hl'. injection Hl' as <-.
      destruct (decide (intersects region c)) as [Hi|Hi]; [right|left; intros Hic; by destruct Hi].
      by apply list_elem_of_filter.
  - intros c o' (_ & _ & Hre). by apply reached_every.
Qed.

Section fragments.
Context (t : nat) (k : DataAccessObjectType) (Hk : map_kind k = taskwait_type).

(** ** The fragment after an entry of the bottom map *)

Definition new_fragment e : DataAccess B :=
  createAccess mc t k (bme_accessType e) false (bme_region e) no_reduction_type_and_operator (-1).
Definition waiting_fragment e : DataAccess B := setComplete (setRegistered (setInBottomMap (new_fragment e))).
Definition waiting_entry e : BottomMapEntry := mkBottomMapEntry (bme_region e) (mkLink t k) (bme_accessType e).

Lemma new_fragment_type e : da_objectType (new_fragment e) = k.
Proof. done. Qed.

Lemma new_fragment_ok o e :
  bme_accessType e ≠ REDUCTION_ACCESS_TYPE →
  object_ok o t k (new_fragment e) ∧ change_ok o k (new_fragment e) (waiting_fragment e) ∧
  stays k (new_fragment e) (waiting_fragment e) ∧ links (new_fragment e) = links (waiting_fragment e).
Proof.
  intros He. assert (k ≠ access_type) as Hka by (by intros ->). split_and!; [| |by left|done].
  - split; try done.
  - split; try done.
    + repeat constructor.
    + right. unfold enforcesDependency. simpl. by rewrite !(bool_decide_eq_false_2 (k = access_type)), !andb_false_r.
Qed.

Lemma finish_new_fragment e o : finish par t (new_fragment e) (waiting_fragment e) o = o.
Proof.
  assert (k ≠ access_type) as Hka by (by intros ->). by apply finish_no_links.
Qed.

(** Entries that do not wait already. *)
Definition not_waiting e : Prop := map_kind (link_objectType (bme_link e)) ≠ taskwait_type.

(** What is left alone: all but the fragments of the task, among the tasks up to it. *)
Definition up_to (v : nat) (k' : DataAccessObjectType) : Prop :=
  (v < t)%nat ∨ (v = t ∧ k' ≠ fragment_type).

Lemma spares_up_to o e :
  entry_ok par o t e → not_waiting e → spares par up_to (link_task (bme_link e)) (link_objectType (bme_link e)).
Proof.
  intros (_ & Hl & _) Hw v k' Hv. unfold not_waiting in Hw. destruct (link_objectType (bme_link e)); try done.
  - apply Hpar in Hl. assert (v < link_task (bme_link e))%nat as Hlt by (destruct Hv as [Hv|[-> _]]; lia).
    split; [|intros [? _]; lia]. intros _. split; [|lia]. right. intros Hb%below_lt; [lia|done].
  - rewrite Hl. split; [done|]. intros [-> Hk']. destruct Hv as [Hv|[_ Hv]]; [lia|done].
Qed.

Lemma link_next_ok o u k' d next :
  live_link o next → object_ok o u k' d →
  let d' := (unsetInBottomMap ∘ setNext (Some next)) d in
  change_ok o k' d d' ∧ hasNext d' = true.
Proof.
  intros Hn [H1 H2 H3 H4 H5 H6] d'. split; [split|]; try done.
  - repeat constructor; simpl; try apply implb_same; apply implb_true_r.
  - by left.
  - by intros l [= <-].
Qed.

(** The steps up to the links. *)
Lemma create_steps b1 e b2 tws o :
  wf par o → bottom t o = Some (b1 ++ e :: b2) → bme_accessType e ≠ REDUCTION_ACCESS_TYPE →
  objects t k o = Some tws → map_wf (tws ++ [waiting_fragment e]) →
  let o1 := put_objects t k (tws ++ [waiting_fragment e]) o in
  let o2 := put_bottom t (b1 ++ waiting_entry e :: b2) o1 in
  tsteps o o2 ∧ potential o2 ≤ potential o + 48 * rlength (bme_region e).
Proof.
  intros Hwf Hbot He Htws Hmw o1 o2. pose proof Htws as (x & Hx & Hlx)%objects_view.
  destruct (new_fragment_ok o e He) as (Hf0 & Hf1 & _).
  pose proof Hbot as (x' & Hx' & Hxb)%bottom_view. assert (x' = x) as -> by congruence.
  assert (map_wf (tws ++ [new_fragment e])) as Hmw0.
  { eapply map_wf_ext; [|exact Hmw]. by rewrite !fmap_app. }
  set (o0 := put_objects t k (tws ++ [new_fragment e]) o).
  assert (tstep par o o0) as Hs0.
  { eapply step_insert; [exact Hx|by rewrite app_nil_r|by intros ->|done|done]. }
  assert (o_view o0 !! t = Some (set_v_objects k (tws ++ [new_fragment e]) x)) as Hx0.
  { unfold o0. simpl. by rewrite lookup_alter_eq, Hx. }
  assert (pstep par o0 o1) as Hs1.
  { assert (change par t k tws (new_fragment e) (waiting_fragment e) [] o0 = o1) as <-.
    { unfold change. fold (finish par t (new_fragment e) (waiting_fragment e) (put_objects t k (tws ++ [waiting_fragment e]) o0)).
      rewrite finish_new_fragment. unfold o0. apply put_objects_put. }
    eapply step_change; [exact Hx0| |]. { rewrite v_objects_set. by rewrite decide_True. }
    eapply change_ok_mono; [|exact Hf1]. by apply tstep_tasks. }
  assert (o_view o1 !! t = Some (set_v_objects k (tws ++ [waiting_fragment e]) x)) as Hx1.
  { unfold o1. simpl. by rewrite lookup_alter_eq, Hx. }
  assert (same_tasks o o1) as Ht1 by apply same_tasks_alter.
  pose proof (wf_view _ _ Hwf _ _ Hx) as Hvo.
  pose proof (vo_entries _ _ _ _ Hvo) as Hent. rewrite Hxb in Hent.
  pose proof (vo_bottom _ _ _ _ Hvo) as Hbw. rewrite Hxb in Hbw.
  assert (pstep par o1 o2) as Hs2.
  { eapply step_bottom; [exact Hx1| | |].
    - change (v_taskwaits (set_v_objects k (tws ++ [waiting_fragment e]) x))
        with (v_objects taskwait_type (set_v_objects k (tws ++ [waiting_fragment e]) x)).
      rewrite v_objects_set, decide_True by done. by destruct tws.
    - eapply map_wf_ext; [|exact Hbw]. by rewrite !fmap_app, !fmap_cons.
    - apply Forall_app in Hent as [H1 [(_ & _ & H3) H2]%Forall_cons].
      apply Forall_app. split; [|constructor].
      + eapply Forall_impl; [exact H1|]. intros c. by apply entry_ok_mono.
      + split_and!; [eexists; exact Hx1|clear -Hk; simpl; by destruct k|done].
      + eapply Forall_impl; [exact H2|]. intros c. by apply entry_ok_mono. }
  split; [eapply rtc_l; [exact Hs0|]; eapply rtc_l; [by apply step_p|]; apply rtc_once; by apply step_p|].
  unfold o2. rewrite (potential_put_bottom _ _ _ _ Hx1). unfold o1. rewrite (potential_put_objects _ _ _ _ _ Hx), Hlx.
  rewrite sumZ_app, sumZ_cons. simpl sumZ. unfold weight. simpl.
  assert (0 < rlength (bme_region e)).
  { apply map_wf_app in Hbw as (_ & (Hc & _)%map_wf_cons & _). apply Hc. }
  unfold countb. simpl. lia.
Qed.

(** What stays of the objects that are not fragments of taskwaits. *)
Definition remains o o' : Prop :=
  ∀ u k' P, map_kind k' ≠ taskwait_type → persistent P → every_object u k' P o → every_object u k' P o'.

Lemma remains_trans o o1 o2 : remains o o1 → remains o1 o2 → remains o o2.
Proof. intros H1 H2 u k' P Hk' HP Hh. by apply H2, H1. Qed.

Lemma owp_create_fragment_after b1 e b2 tws o :
  wf par o → bounded N o → bottom t o = Some (b1 ++ e :: b2) → not_waiting e →
  objects t k o = Some tws → map_wf (tws ++ [waiting_fragment e]) →
  owp (create_fragment_after mc (S n) t k (node_key e))
    (λ _ o', tsteps o o' ∧ bottom t o' = Some (b1 ++ waiting_entry e :: b2) ∧
       objects t k o' = Some (tws ++ [waiting_fragment e]) ∧
       objects t access_type o' = objects t access_type o ∧
       linked_in (bme_link e) (bme_region e) o' ∧ remains o o' ∧
       potential o' ≤ potential o + 50 * rlength (bme_region e)) o.
Proof.
  intros Hwf Hb Hbot Hnw Htws Hmw. pose proof (bottom_wf par _ _ _ Hwf Hbot) as Hbw.
  pose proof Hbot as (x & Hx & Hxb)%bottom_view. pose proof (objects_wf par _ _ _ _ Hwf Htws) as Htw.
  assert (entry_ok par o t e) as He.
  { pose proof (vo_entries _ _ _ _ (wf_view _ _ Hwf _ _ Hx)) as Ha. rewrite Hxb in Ha.
    by apply Forall_app in Ha as [_ [? _]%Forall_cons]. }
  assert (content_wf e) as [Hcw Hcp] by (eapply map_wf_elem; [exact Hbw|apply elem_middle]).
  destruct (create_steps b1 e b2 tws o Hwf Hbot (proj2 (proj2 He)) Htws Hmw) as [Hs2 Hp2].
  set (o1 := put_objects t k (tws ++ [waiting_fragment e]) o) in *.
  set (o2 := put_bottom t (b1 ++ waiting_entry e :: b2) o1) in *.
  pose proof (tsteps_wf _ _ Hwf Hs2) as Hwf2. pose proof (tsteps_tasks _ _ Hs2) as Ht2.
  assert (objects t k o2 = Some (tws ++ [waiting_fragment e])) as Hl2.
  { unfold o2. rewrite objects_put_bottom. by eapply objects_put. }
  assert (bottom t o1 = Some (b1 ++ e :: b2)) as Hb1 by (unfold o1; by rewrite bottom_put_objects).
  apply awp_bind. eapply (awp_map_deref _ _ _ _ (bottom_seen t)); [exact Hbot|done|apply elem_middle|].
  apply awp_bind, awp_gets. intros w Hw. fold (new_fragment e).
  assert (effects (getParent w) (new_fragment e) = effects par (new_fragment e)) as ->.
  { apply effects_ext; [|done]. simpl. apply getParent_par; rewrite Hw; [done|by exists x]. }
  clear w Hw. apply awp_bind. eapply (awp_map_insert _ _ _ _ (objects_seen t k)) with (l1 := tws) (l2 := []);
    [by rewrite app_nil_r|exact Hmw|]. fold o1.
  apply awp_bind. eapply (awp_map_assign _ _ _ _ (bottom_seen t)); [exact Hb1|done|]. fold (waiting_entry e) o2.
  apply awp_bind. change (mkRef t k (startAddress (bme_region e))) with (aref t k (waiting_fragment e)).
  eapply owp_readEffects; [exact Hwf2|exact Hl2|apply elem_middle|]. apply awp_bind.
  destruct (new_fragment_ok o2 e (proj2 (proj2 He))) as (Hf0 & Hf1 & Hst & Hlk).
  eapply owp_handle_simple; [exact Hwf2|exact Hl2|done..|]. rewrite finish_new_fragment.
  pose proof (spares_up_to o e He Hnw) as Hspare. destruct He as ([y Hy] & Hlink & Hty). destruct (proj2 (Ht2 (link_task (bme_link e)))) as [y2 Hy2]; [by exists y|].
  apply awp_bind. eapply awp_mono.
  - rewrite (link_eta (bme_link e)). apply awp_and.
    + eapply (owp_followLink mc par n N _ _ up_to) with (f := unsetInBottomMap ∘ setNext (Some (mkLink t taskwait_type)));
        [apply handle_ok_all; [exact Hpar|lia]|exact Hspare|exact Hwf2|by eapply bounded_mono|exact Hy2|exact Hcw| |].
      * intros o3 m Hs3 Hm. apply (link_next_ok o3 (link_task (bme_link e))); [|done]. apply Hs3, Ht2. by exists x.
      * intros o3 l m Q _ _ _ HQ. apply awp_bind. eapply awp_mono; [exact HQ|]. intros [] o4 H4. by apply awp_ret.
    + eapply owp_followLink_links with (f := unsetInBottomMap ∘ setNext (Some (mkLink t taskwait_type)));
        [exact Hwf2|by eapply bounded_mono|exact Hy2|exact Hcw| |].
      * intros o3 m Hs3 Hm. apply (link_next_ok o3 (link_task (bme_link e))); [|done]. apply Hs3, Ht2. by exists x.
      * intros o3 l m Q _ _ _ HQ. apply awp_bind. eapply awp_mono; [exact HQ|]. intros [] o4 H4. by apply awp_ret.
  - intros c o3 [[_ Hq] Hlk3]. apply awp_ret. assert (up_to t (map_kind k)) as Hup by (right; by rewrite Hk).
    split_and!.
    + etrans; [exact Hs2|]. apply psteps_tsteps, Hq.
    + rewrite (q_bottoms _ _ _ _ _ Hq). unfold o2. by eapply bottom_put.
    + rewrite (q_frame _ _ _ _ _ Hq) by done. exact Hl2.
    + rewrite (q_frame _ _ _ _ _ Hq) by (right; by split). unfold o2. rewrite objects_put_bottom. unfold o1.
      apply objects_put_ne. rewrite Hk. by intros [_ ?].
    + by rewrite <- (link_eta (bme_link e)) in Hlk3.
    + intros u k' P Hk' HP Hh. eapply psteps_every; [exact HP|exact Hwf2|apply Hq|]. unfold o2.
      intros l. rewrite objects_put_bottom. revert l. apply every_put; [done|]. intros _ He'. by rewrite He' in Hk'.
    + pose proof (q_potential _ _ _ _ _ Hq) as Hp3. fold (waiting_fragment e) o1 o2 in Hp3. lia.
Qed.
(** ** The loops over the bottom map *)

Section loop.
Context (sel : BottomMapEntry → bool) (b : list BottomMapEntry) (o0 : obs B).
Context (Hwf0 : wf par o0) (Hb0 : bounded N o0) (Hbot0 : bottom t o0 = Some b)
  (Hnone : objects t k o0 = Some []) (Hnw : Forall not_waiting b).

Definition waited e : BottomMapEntry := if sel e then waiting_entry e else e.
Definition entries_length (l : list BottomMapEntry) : Z := sumZ (λ e, rlength (bme_region e)) l.

Definition waits (rest : list BottomMapEntry) o : Prop :=
  ∃ visited, b = visited ++ rest ∧ tsteps o0 o ∧
    bottom t o = Some ((waited <$> visited) ++ rest) ∧
    objects t k o = Some (waiting_fragment <$> filter sel visited) ∧
    objects t access_type o = objects t access_type o0 ∧
    (∀ e, e ∈ visited → sel e = true → linked_in (bme_link e) (bme_region e) o) ∧
    potential o ≤ potential o0 + 50 * entries_length visited.

Lemma waits_start : waits b o0.
Proof.
  exists []. split_and!; try done; [by intros e ?%not_elem_of_nil|]. unfold entries_length. simpl. lia.
Qed.

Lemma entries_wf : map_wf b.
Proof. by eapply bottom_wf. Qed.

Lemma waits_next v e rest o o' :
  b = v ++ e :: rest → tsteps o0 o → bottom t o = Some ((waited <$> v) ++ e :: rest) →
  potential o ≤ potential o0 + 50 * entries_length v →
  tsteps o o' → bottom t o' = Some ((waited <$> v) ++ waited e :: rest) →
  objects t k o' = Some (waiting_fragment <$> filter sel (v ++ [e])) →
  objects t access_type o' = objects t access_type o0 →
  (∀ e', e' ∈ v → sel e' = true → linked_in (bme_link e') (bme_region e') o) →
  remains o o' → (sel e = true → linked_in (bme_link e) (bme_region e) o') →
  potential o' ≤ potential o + 50 * rlength (bme_region e) →
  waits rest o' ∧ keeps (bottom t) (cend e) o o'.
Proof.
  intros Hb Hs Hbot Hp Hs' Hbot' Htw Hac Hlk Hrem He Hp'.
  assert (wf par o') as Hwf' by (eapply tsteps_wf; [eapply tsteps_wf; [exact Hwf0|exact Hs]|exact Hs']). split.
  - exists (v ++ [e]). split_and!.
    + by rewrite <- app_assoc.
    + by etrans.
    + rewrite fmap_app, <- app_assoc. done.
    + done.
    + done.
    + intros e' [Hin|Hin]%elem_of_app Hsel; [|apply list_elem_of_singleton in Hin as ->; auto].
      assert (e' ∈ b) as Hin' by (rewrite Hb; apply elem_of_app; by left).
      apply Hrem; [exact (proj1 (Forall_forall _ _) Hnw e' Hin')| |by apply Hlk].
      apply linked_in_persistent. by destruct (map_wf_elem b e' entries_wf Hin').
    + unfold entries_length in *. rewrite sumZ_app, sumZ_cons. simpl. lia.
  - assert (wf par o) as Hwf by (eapply tsteps_wf; [exact Hwf0|exact Hs]).
    assert (content_wf e) as Hcw by (eapply map_wf_elem; [exact (bottom_wf par _ _ _ Hwf Hbot)|apply elem_middle]).
    eapply (keeps_middle _ (waited <$> v) e [waited e] rest); [exact Hbot|exact Hbot'|..].
    + by eapply bottom_wf.
    + eapply bottom_wf; [exact Hwf'|]. exact Hbot'.
    + intros c [->|Hc]%elem_of_cons; [|by apply not_elem_of_nil in Hc]. destruct Hcw as [_ Hcp].
      unfold cend, cstart, waited. destruct (sel e); simpl in *; lia.
Qed.

Lemma owp_wait_step e rest o :
  sel e = true → waits (e :: rest) o →
  owp (create_fragment_after mc (S n) t k (node_key e))
    (λ _ o', waits rest o' ∧ keeps (bottom t) (cend e) o o') o.
Proof.
  intros Hsel (v & Hb & Hs & Hbot & Htw & Hac & Hlk & Hp). pose proof entries_wf as Hbw. rewrite Hb in Hbw.
  assert (wf par o) as Hwf by (eapply tsteps_wf; [exact Hwf0|exact Hs]).
  eapply awp_mono; [eapply (owp_create_fragment_after (waited <$> v) e rest)|].
  - done.
  - eapply bounded_mono; [by eapply tsteps_tasks|done].
  - exact Hbot.
  - rewrite Hb in Hnw. by apply Forall_app in Hnw as [_ [? _]%Forall_cons].
  - exact Htw.
  - rewrite <- (fmap_app waiting_fragment _ [e]). apply (map_wf_fmap waiting_fragment); [done|].
    eapply map_wf_sublist; [|exact Hbw]. apply sublist_app; [apply sublist_filter|]. by apply sublist_skip, sublist_nil_l.
  - intros [] o' (Hs' & Hbot' & Htw' & Hac' & Hlk' & Hrem & Hp'). eapply waits_next; try done.
    + unfold waited at 2. by rewrite Hsel.
    + rewrite filter_app, filter_cons, filter_nil, decide_True by (by rewrite Hsel). by rewrite fmap_app.
    + by rewrite Hac'.
Qed.

Lemma wait_skip e rest o : sel e = false → waits (e :: rest) o → waits rest o ∧ keeps (bottom t) (cend e) o o.
Proof.
  intros Hsel (v & Hb & Hs & Hbot & Htw & Hac & Hlk & Hp). eapply waits_next; try done.
  - unfold waited at 2. by rewrite Hsel.
  - rewrite filter_app, filter_cons, filter_nil, decide_False by (rewrite Hsel; by intros []). by rewrite app_nil_r.
  - by intros u k' P.
  - by rewrite Hsel.
  - pose proof entries_wf as Hbw. rewrite Hb in Hbw. apply map_wf_app in Hbw as (_ & ([_ Hcp] & _)%map_wf_cons & _).
    simpl in Hcp. lia.
Qed.
End loop.
End fragments.

(** After the entries [b] of its bottom map, the task has a fragment of the taskwait for each of them, which
    takes its place in the bottom map and is the next one of the objects of the entry. *)
Record taskwait_added (t : nat) (b : list BottomMapEntry) o : Prop := {
  ta_bottom : bottom t o = Some (waiting_entry t taskwait_type <$> b);
  ta_fragments : objects t taskwait_type o = Some (waiting_fragment t taskwait_type <$> b);
  ta_linked : ∀ e, e ∈ b → linked_in (bme_link e) (bme_region e) o;
}.

(** [createTaskwait] *)
Lemma owp_createTaskwait t b o :
  wf par o → bounded N o → bottom t o = Some b → objects t taskwait_type o = Some [] → Forall not_waiting b →
  owp (createTaskwait mc (S n) t)
    (λ _ o', tsteps o o' ∧ taskwait_added t b o' ∧ potential o' ≤ potential o + 50 * entries_length b) o.
Proof.
  intros Hwf Hb Hbot Hnone Hnw. pose proof (bottom_wf par _ _ _ Hwf Hbot) as Hbw.
  apply awp_bind. eapply (awp_map_isEmpty _ _ _ _ (bottom_seen t)); [exact Hbot|].
  destruct (decide (b = [])) as [->|Hne].
  { rewrite bool_decide_eq_true_2 by done. apply awp_ret.
    split_and!; [done|split; [done|done|by intros e ?%not_elem_of_nil]|]. unfold entries_length. simpl. lia. }
  rewrite bool_decide_eq_false_2 by done. pose proof Hbot as (x & Hx & _)%bottom_view.
  apply awp_bind. eapply owp_increaseRemovalBlockingCount; [exact Hx|]. apply awp_bind. eapply awp_mono.
  - eapply (awp_processAll _ _ _ _ (bottom_seen t) _ (waits t taskwait_type (λ _, true) b o));
      [exact Hbot|exact Hbw| |by apply waits_start].
    intros e rest o1 l Hl1 Hm1 He _ HI. apply awp_bind. eapply awp_mono; [by eapply owp_wait_step|].
    intros [] o2 [H1 H2]. by apply awp_ret.
  - intros c o' (_ & v & -> & Hs & Hb' & Htw & _ & Hlk & Hp). apply awp_ret. rewrite app_nil_r in *.
    split; [done|]. split; [|done]. split; [exact Hb'| |auto].
    rewrite Htw. f_equal. f_equal. clear. induction v as [|e v IH]; [done|]. by rewrite filter_cons, decide_True, IH.
Qed.

(** [createTopLevelSink] *)
Lemma owp_createTopLevelSink t b o :
  wf par o → bounded N o → bottom t o = Some b → objects t taskwait_type o = Some [] → Forall not_waiting b →
  owp (createTopLevelSink mc (S n) t)
    (λ _ o', tsteps o o' ∧ objects t access_type o' = objects t access_type o ∧
       potential o' ≤ potential o + 50 * entries_length b) o.
Proof.
  intros Hwf Hb Hbot Hnone Hnw. pose proof (bottom_wf par _ _ _ Hwf Hbot) as Hbw. apply awp_bind.
  set (sel := λ e, bool_decide (bme_accessType e = NO_ACCESS_TYPE)). eapply awp_mono.
  - eapply (awp_processAll _ _ _ _ (bottom_seen t) _ (waits t top_level_sink_type sel b o));
      [exact Hbot|exact Hbw| |by apply waits_start].
    intros e rest o1 l Hl1 Hm1 He _ HI. apply awp_bind. eapply (awp_map_deref _ _ _ _ (bottom_seen t)); [done..|].
    apply awp_bind. destruct (decide (bme_accessType e = NO_ACCESS_TYPE)) as [Hty|Hty].
    + rewrite bool_decide_eq_false_2 by auto. eapply awp_mono; [eapply (owp_wait_step t top_level_sink_type) with (sel := sel); try done|].
      * unfold sel. by apply bool_decide_eq_true_2.
      * intros [] o2 [H1 H2]. by apply awp_ret.
    + rewrite bool_decide_eq_true_2 by done. apply awp_ret, awp_ret. split; [done|].
      eapply (wait_skip t top_level_sink_type sel); try done. unfold sel. by apply bool_decide_eq_false_2.
  - intros c o' (_ & v & -> & Hs & _ & _ & Hac & _ & Hp). apply awp_ret. rewrite app_nil_r. done.
Qed.
(** ** Completing everything *)

Lemma intersects_self d : content_wf d → intersects (da_region d) d.
Proof.
  intros Hd. pose proof Hd as [Hw Hp]. apply intersects_spec; [done|done|]. unfold cend, cstart. simpl in *. lia.
Qed.

Lemma contained_self d : content_wf d → fullyContainedIn (da_region d) (da_region d) = true.
Proof.
  intros [Hw Hp]. simpl in *. unfold fullyContainedIn. rewrite region_eqb_spec. apply bool_decide_eq_true.
  rewrite intersect_closed by done. destruct (da_region d) as [a len]. simpl in *.
  rewrite Z.max_id, Z.min_id. rewrite (proj2 (Z.ltb_lt _ _)) by lia. f_equal. lia.
Qed.

(** [finalizeFragments] *)
Lemma owp_finalizeFragments t x o :
  wf par o → bounded N o → o_view o !! t = Some x →
  owp (finalizeFragments mc (S n) t)
    (λ _ o', psteps o o' ∧ potential o' ≤ potential o ∧ every_object t fragment_type (λ d, complete d = true) o') o.
Proof.
  intros Hwf Hb Hx. assert (objects t fragment_type o = Some (v_fragments x)) as Hl
    by (unfold objects; by rewrite Hx).
  apply awp_bind. set (P := λ d : DataAccess B, complete d = true).
  set (I := λ (rest : list (DataAccess B)) o', (psteps o o' ∧ potential o' ≤ potential o) ∧ reached t fragment_type P rest o').
  eapply awp_mono.
  - eapply (awp_processAll _ _ _ _ (objects_seen t fragment_type) _ I);
      [exact Hl|by eapply objects_wf| |].
    2: { split; [done|]. intros l c Hl' Hc. rewrite Hl in Hl'. injection Hl' as <-. by right. }
    intros d rest o1 l Hl1 Hm1 Hd _ [[Hs Hp] Hre]. apply elem_split in Hd as (l1 & l2 & ->).
    assert (wf par o1) as Hwf1 by (eapply psteps_wf; [exact Hwf|done]). pose proof (psteps_tasks par _ _ Hs) as Ht.
    pose proof Hl1 as (x1 & Hx1 & Hlx1)%objects_view.
    destruct (wf_lookup _ _ _ _ _ _ _ _ Hwf1 Hx1 Hlx1) as (_ & Hcw & Hdo & _).
    assert (anchored d = true) as Ha by (apply (ok_bottom _ _ _ _ Hdo); [done|by left]).
    pose proof (contained_self d Hcw) as Hself. pose proof (proj1 Hcw) as Hr. simpl in Hr.
    apply awp_bind. change (mkRef t fragment_type (node_key d)) with (aref t fragment_type d).
    eapply owp_readAccess; [exact Hl1|done|apply elem_middle|]. apply awp_bind. destruct (complete d) eqn:Hcd.
    { apply awp_ret, awp_ret. split; [done|]. split; [split; [done|]|by eapply keeps_same].
      intros l c Hl' Hc. destruct (Hre l c Hl' Hc) as [?|[->|?]%elem_of_cons]; [by left|by left|by right]. }
    eapply awp_mono.
    + pose proof (owp_complete mc par Hpar n N Hdepth t fragment_type l1 d l2 (da_region d) o1 Hwf1) as Hoc.
      rewrite split_self in Hoc by done.
      destruct (middle_piece_self d (da_region d)) as (Hmid & _ & _); [done..|]. rewrite Hmid in Hoc.
      apply Hoc; try done; [by eapply bounded_mono|by apply intersects_self].
    + intros [] o2 [Hto Hp2]. apply awp_ret. split; [done|]. split; [|apply Hto].
      split; [split; [etrans; [exact Hs|apply Hto]|lia]|].
      eapply reached_visits; [exact Hl1| |eapply visit_gives_mono; [|apply Hto]; by intros c ->|exact Hre].
      intros c Hc. by destruct (no_copies d c Hcw).
  - intros c o' (_ & [Hs Hp] & Hre). apply awp_ret. split; [done|]. split; [done|]. by apply reached_every.
Qed.

(** The steps of one operation: those of the thread of a task, and the ends of update operations. *)
Inductive ostep : obs B → obs B → Prop :=
  | ostep_t o o' : tstep par o o' → ostep o o'
  | ostep_pop o u q : o_queue o = u :: q → applied u o → ostep o (obs_queue tail o).
Notation osteps := (rtc ostep).

Lemma dsteps_osteps o o' : rtc (dstep par) o o' → osteps o o'.
Proof.
  apply rtc_subrel. intros o1 o2 Hs. destruct Hs as [o1 o2 Hs|o1 u q Hu Ha]; [by apply ostep_t, step_p|by eapply ostep_pop].
Qed.

Lemma tsteps_osteps o o' : tsteps o o' → osteps o o'.
Proof. apply rtc_subrel. intros. by apply ostep_t. Qed.

(** A task that is not in a taskwait. *)
Record not_in_taskwait (t : nat) o : Prop := {
  nw_fragments : objects t taskwait_type o = Some [];
  nw_entries : ∀ b, bottom t o = Some b → Forall not_waiting b;
}.

Definition bottom_length (t : nat) o : Z := from_option entries_length 0 (bottom t o).

Lemma owp_process_after fuel busy o o1 :
  wf par o → bounded N o → tsteps o o1 → potential o1 ≤ Z.of_nat fuel →
  owp (processDelayedOperationsSatisfiedOriginatorsAndRemovableTasks mc (S n) fuel busy)
    (λ _ o', ∃ o2, osteps o o2 ∧ rtc (dstep par) o1 o2 ∧ o_queue o2 = [] ∧ o' = deliver o2) o1.
Proof.
  intros Hwf Hb Hs Hp. eapply awp_mono; [eapply (owp_process mc par Hpar n N Hdepth)|].
  - eapply tsteps_wf; [exact Hwf|exact Hs].
  - eapply bounded_mono; [by eapply tsteps_tasks|exact Hb].
  - exact Hp.
  - intros [] o' (o2 & Hs2 & Hq & ->). exists o2. split; [|done].
    etrans; [by apply tsteps_osteps|by apply dsteps_osteps].
Qed.

(** [unregisterTaskDataAccesses] *)
Lemma owp_unregisterTaskDataAccesses fuel t x o :
  wf par o → bounded N o → o_view o !! t = Some x → not_in_taskwait t o → anchored_at t o →
  potential o + 50 * bottom_length t o ≤ Z.of_nat fuel →
  owp (unregisterTaskDataAccesses mc (S n) fuel t)
    (λ _ o', ∃ o1, osteps o o1 ∧ every_object t access_type (λ d, complete d = true) o1 ∧ o_queue o1 = [] ∧ o' = deliver o1) o.
Proof.
  intros Hwf Hb Hx [Hnone Hnw] Ha Hfuel. assert (bottom t o = Some (v_bottom x)) as Hbot
    by (unfold bottom; by rewrite Hx).
  unfold bottom_length in Hfuel. rewrite Hbot in Hfuel. simpl in Hfuel. specialize (Hnw _ Hbot).
  apply awp_bind. eapply awp_mono; [by eapply owp_createTopLevelSink|]. intros [] o1 (Hs1 & Hac & Hp1).
  assert (wf par o1) as Hwf1 by (eapply tsteps_wf; [exact Hwf|done]).
  assert (bounded N o1) as Hb1 by (eapply bounded_mono; [by eapply tsteps_tasks|done]).
  assert (anchored_at t o1) as Ha1 by (intros l; rewrite Hac; apply Ha).
  assert (objects t access_type o1 = Some (v_accesses x)) as Hl by (rewrite Hac; unfold objects; by rewrite Hx).
  apply awp_bind. eapply awp_mono.
  - eapply (awp_processAll _ _ _ _ (objects_seen t access_type) _ (completing par t (λ d, complete d = true) o1));
      [exact Hl|by eapply objects_wf| |].
    2: { apply completing_start. intros l c Hl' Hc. rewrite Hl in Hl'. injection Hl' as <-. by right. }
    intros d rest o2 l Hl2 Hm2 Hd _ HI. assert (content_wf d) as Hcw by (eapply map_wf_elem; [exact Hm2|done]).
    apply awp_bind. change (mkRef t access_type (node_key d)) with (aref t access_type d).
    eapply owp_readAccess; [done..|]. eapply (completing_visit mc par Hpar n N Hdepth); try done.
    + apply Hcw.
    + by apply intersects_self.
    + intros c' Hc'. by destruct (no_copies d c' Hcw).
  - intros c o2 (_ & (Hs2 & Hp2 & _) & Hre). assert (tsteps o o2) as Hs by (etrans; [exact Hs1|by apply psteps_tsteps]).
    eapply awp_mono; [eapply owp_process_after; [exact Hwf|exact Hb|exact Hs|lia]|].
    intros [] o' (o3 & Hs3 & Hd3 & Hq & ->). exists o3. split; [done|]. split; [|done].
    eapply (dsteps_every par); [apply complete_persistent|eapply tsteps_wf; [exact Hwf|exact Hs]|exact Hd3|by apply reached_every].
Qed.

Lemma owp_when_has_accesses t x (m : stM W unit) (Q : unit → obs B → Prop) o :
  o_view o !! t = Some x → (v_accesses x ≠ [] → owp m Q o) → (v_accesses x = [] → Q tt o) →
  owp (when_has_accesses t m) Q o.
Proof.
  intros Hx Hm HQ. apply awp_bind.
  eapply (awp_map_isEmpty _ _ _ _ (objects_seen t access_type)); [unfold objects; by rewrite Hx|].
  destruct (decide (v_objects access_type x = [])) as [He|He].
  - rewrite bool_decide_eq_true_2 by done. by apply awp_ret, HQ.
  - rewrite bool_decide_eq_false_2 by done. by apply Hm.
Qed.

Lemma owp_decreaseRemovalBlockingCount t x (Q : bool → obs B → Prop) o :
  o_view o !! t = Some x → (∀ r, Q r o) → owp (decreaseRemovalBlockingCount t) Q o.
Proof.
  intros Hx HQ. apply awp_bind. eapply owp_updateTask_hidden; [done|done|]. apply awp_bind.
  eapply owp_readTask; [done|]. intros y _ _. by apply awp_ret.
Qed.

(** [handleEnterTaskwait] *)
Lemma owp_handleEnterTaskwait fuel t x o :
  wf par o → bounded N o → o_view o !! t = Some x → not_in_taskwait t o →
  potential o + 50 * bottom_length t o ≤ Z.of_nat fuel →
  owp (handleEnterTaskwait mc (S n) fuel t)
    (λ _ o', ∃ o1 o2, tsteps o o1 ∧ taskwait_added t (v_bottom x) o1 ∧ rtc (dstep par) o1 o2 ∧
       every_object t fragment_type (λ d, complete d = true) o2 ∧ o_queue o2 = [] ∧ o' = deliver o2) o.
Proof.
  intros Hwf Hb Hx [Hnone Hnw] Hfuel. assert (bottom t o = Some (v_bottom x)) as Hbot
    by (unfold bottom; by rewrite Hx).
  unfold bottom_length in Hfuel. rewrite Hbot in Hfuel. simpl in Hfuel. specialize (Hnw _ Hbot).
  assert (owp (createTaskwait mc (S n) t;; finalizeFragments mc (S n) t;;
    processDelayedOperationsSatisfiedOriginatorsAndRemovableTasks mc (S n) fuel true)
    (λ _ o', ∃ o1 o2, tsteps o o1 ∧ taskwait_added t (v_bottom x) o1 ∧ rtc (dstep par) o1 o2 ∧
       every_object t fragment_type (λ d, complete d = true) o2 ∧ o_queue o2 = [] ∧ o' = deliver o2) o) as Hrest.
  { apply awp_bind. eapply awp_mono; [by eapply owp_createTaskwait|]. intros [] o1 (Hs1 & Hta & Hp1).
    destruct (proj2 (tsteps_tasks _ _ Hs1 t)) as [x1 Hx1]; [by exists x|].
    assert (wf par o1) as Hwf1 by (eapply tsteps_wf; [exact Hwf|done]).
    apply awp_bind. eapply awp_mono; [eapply owp_finalizeFragments; [exact Hwf1| |exact Hx1]|].
    - eapply bounded_mono; [by eapply tsteps_tasks|done].
    - intros [] o2 (Hs2 & Hp2 & Hh). eapply awp_mono; [eapply owp_process_after; [exact Hwf|exact Hb| |lia]|].
      + etrans; [exact Hs1|by apply psteps_tsteps].
      + intros [] o' (o3 & _ & Hd3 & Hq & ->). exists o1, o3. split; [done|]. split; [done|].
        split; [etrans; [by apply psteps_dsteps|done]|]. split; [|done].
        eapply (dsteps_every par); [apply complete_persistent|eapply psteps_wf; [exact Hwf1|done]|exact Hd3|exact Hh]. }
  apply awp_bind. eapply owp_when_has_accesses; [exact Hx| |done].
  intros _. apply awp_bind. eapply owp_decreaseRemovalBlockingCount; [exact Hx|]. intros _. by apply awp_ret.
Qed.
End waiting.
