(* ===== verification/FragmentedContract.v ===== *)
(** * Fragmented region dependencies: what a task can rely on

    Along the steps of any sequence of operations: a task whose accesses are linked stays so, and it is
    handed to the scheduler once, when the last of its unsatisfied accesses is satisfied. *)

From S2P Require Import Prelude Region Boost RegionMap RegionMapProofs StateMonad.
From S2P Require Import IntrusiveRegionMap IntrusiveRegionMapProofs IntrusiveRegionMapViews.
From S2P Require Import DataAccessType FragmentedAccess ReductionInfo FragmentedWorld.
From S2P Require Import FragmentedDeps FragmentedProtocol FragmentedInvariant.
From S2P Require Import FragmentedPotential FragmentedObs FragmentedRun FragmentedPropagation.
From S2P Require Import FragmentedWaiting.
Local Open Scope Z_scope.

Section contract.
Context {B : Type} `{!DynamicBitset B} `{!DynamicBitsetLaws B}.
Context (par : nat → option nat).
Implicit Types (o : obs B) (d : DataAccess B) (x : task_view B).
Notation osteps := (rtc (ostep par)).

(** ** Invariants of the steps *)

Lemma ostep_tasks o o' : ostep par o o' → same_tasks o o'.
Proof. intros Hs. destruct Hs as [o o' Hs|o u q _ _]; [by eapply tstep_tasks|done]. Qed.

Lemma osteps_tasks o o' : osteps o o' → same_tasks o o'.
Proof.
  induction 1 as [o|o o1 o2 Hs _ IH]; [done|]. pose proof (ostep_tasks _ _ Hs) as H. intros t. by rewrite (IH t), (H t).
Qed.

Lemma ostep_wf o o' : wf par o → ostep par o o' → wf par o'.
Proof.
  intros Hwf Hs. destruct Hs as [o o' Hs|o u q Hu Ha]; [by eapply tstep_wf|]. eapply (dstep_wf par); [done|]. by eapply dstep_pop.
Qed.

Lemma ostep_counted extra o o' :
  wf par o → counted extra o → ostep par o o' → counted extra o' ∧ count_step extra o o'.
Proof.
  intros Hwf Hc Hs. destruct Hs as [o o' Hs|o u q _ _]; [by eapply tstep_counted|]. split; [done|].
  exists []. split; [by rewrite app_nil_r|]. intros t x x' Hx Hx'. simpl in Hx'. assert (x' = x) as -> by congruence.
  rewrite decide_False by lia. auto.
Qed.

Lemma osteps_wf extra o o' :
  wf par o → counted extra o → osteps o o' → wf par o' ∧ counted extra o'.
Proof.
  intros Hwf Hc Hs. induction Hs as [|o o1 o2 Hs _ IH]; [done|]. apply IH; [by eapply ostep_wf|].
  by eapply ostep_counted.
Qed.

(** ** The size of the accesses of a task *)

Definition accesses_length (l : list (DataAccess B)) : Z := sumZ (λ d, rlength (da_region d)) l.

Lemma length_le_accesses l : map_wf l → Z.of_nat (length l) ≤ accesses_length l.
Proof.
  intros [Hl _]. unfold accesses_length. induction Hl as [|d l [_ Hd] _ IH]; simpl in *; lia.
Qed.

Lemma unsatisfied_le o t x : wf par o → o_view o !! t = Some x → Z.of_nat (unsatisfied x) ≤ accesses_length (v_accesses x).
Proof.
  intros Hwf Hx. pose proof (vo_maps _ _ _ _ (wf_view _ _ Hwf _ _ Hx) access_type) as Hm. simpl in Hm.
  pose proof (length_le_accesses _ Hm). pose proof (countb_le enforcing (v_accesses x)). unfold unsatisfied. lia.
Qed.

Lemma pieces_length d fr :
  content_wf d → region_wf fr → intersects fr d →
  accesses_length (new_pieces d fr setRegistered) = rlength (da_region d).
Proof.
  intros Hd Hfr Hi. apply intersects_spec in Hi; [|done|done]. unfold accesses_length, new_pieces, left_piece, right_piece.
  unfold middle_piece, cut_start, cut_end in *. unfold cend, cstart in *. simpl in *.
  repeat case_match; bool_hyps; simpl; lia.
Qed.

Lemma accesses_length_set o t u x' k l (x : task_view B) :
  o_view o !! t = Some x → o_view (put_objects u k l o) !! t = Some x' →
  (t = u → k = access_type → accesses_length l = accesses_length (v_accesses x)) →
  accesses_length (v_accesses x') = accesses_length (v_accesses x).
Proof.
  intros Hx. rewrite lookup_put_objects. destruct (decide (u = t)) as [->|Hne].
  - rewrite Hx. simpl. intros [= <-] Hl. rewrite v_accesses_set. destruct (decide (k = access_type)); auto.
  - rewrite Hx. by intros [= <-].
Qed.

Lemma pstep_length o o' t x x' :
  wf par o → pstep par o o' → o_view o !! t = Some x → o_view o' !! t = Some x' →
  accesses_length (v_accesses x') = accesses_length (v_accesses x).
Proof.
  intros Hwf Hs Hx. destruct Hs as [o u y k l1 d l2 fr Hy Hl Hfr Hi|o u y k l1 d d' l2 Hy Hl Hc
    |o u y l1 d l2 Hy Hl|o u y l Hy Htw Hl He].
  - rewrite (proj1 (split_view u k l1 d l2 fr o)). intros Hx'. eapply accesses_length_set; [exact Hx|exact Hx'|].
    intros -> ->. assert (y = x) as -> by congruence. simpl in Hl. rewrite Hl.
    destruct (wf_lookup _ _ _ _ access_type _ _ _ Hwf Hy Hl) as (_ & Hcw & _).
    pose proof (pieces_length d fr Hcw Hfr Hi) as Hp. unfold accesses_length in *.
    rewrite !sumZ_app, sumZ_cons. lia.
  - rewrite (proj1 (change_view par u k l1 d d' l2 o)). intros Hx'. eapply accesses_length_set; [exact Hx|exact Hx'|].
    intros -> ->. assert (y = x) as -> by congruence. simpl in Hl. rewrite Hl. unfold accesses_length.
    rewrite !sumZ_app, !sumZ_cons. destruct (co_same _ _ _ _ Hc) as (_ & _ & _ & _ & -> & _). done.
  - intros Hx'. by eapply accesses_length_set.
  - simpl. destruct (decide (u = t)) as [->|Hne].
    + rewrite lookup_alter_eq, Hx. by intros [= <-].
    + rewrite lookup_alter_ne by done. rewrite Hx. by intros [= <-].
Qed.

(** Only accesses that are not linked are added to a task. *)
Lemma ostep_length o o' t x x' :
  wf par o → ostep par o o' → o_view o !! t = Some x → linked x → o_view o' !! t = Some x' →
  accesses_length (v_accesses x') = accesses_length (v_accesses x).
Proof.
  intros Hwf Hs Hx Hlk. destruct Hs as [o o' Hs|o v q _ _]; [|simpl; rewrite Hx; by intros [= <-]].
  destruct Hs as [o o' Hs|o u y l Hy Hl He|o u y k l1 d l2 Hy Hl Hk Hm Hd|o u y l1 d l2 Hy Hl Hr Hr0 Hm Hd
    |o u y l Hy Hm Ho Hr Hr'|o u y l1 d l2 b Hy Hl|o u y k l Hy Hk Hl].
  - by eapply pstep_length.
  - simpl. destruct (decide (u = t)) as [->|Hne].
    + rewrite lookup_alter_eq, Hx. by intros [= <-].
    + rewrite lookup_alter_ne by done. rewrite Hx. by intros [= <-].
  - intros Hx'. by eapply accesses_length_set.
  - intros Hx'. eapply accesses_length_set; [exact Hx|exact Hx'|]. intros -> _. assert (y = x) as -> by congruence.
    by destruct (unregistered_not_linked x).
  - intros Hx'. eapply accesses_length_set; [exact Hx|exact Hx'|]. intros -> _. assert (y = x) as -> by congruence.
    by destruct (unregistered_not_linked x).
  - intros Hx'. eapply accesses_length_set; [exact Hx|exact Hx'|]. intros -> _. assert (y = x) as -> by congruence.
    rewrite Hl. unfold accesses_length. by rewrite !sumZ_app, !sumZ_cons.
  - intros Hx'. by eapply accesses_length_set.
Qed.

(** ** Tasks become ready once *)

(** The accesses of the task are linked, and they are few enough for the count of predecessors. *)
Definition settled x : Prop := linked x ∧ accesses_length (v_accesses x) < 2 ^ 31.

Lemma osteps_ready extra o o' t :
  wf par o → counted extra o → extra t = 0 → osteps o o' →
  ∃ added, o_ready o' = o_ready o ++ added ∧
  ∀ x x', o_view o !! t = Some x → settled x → o_view o' !! t = Some x' →
    settled x' ∧ (unsatisfied x = 0%nat → unsatisfied x' = 0%nat) ∧
    occ t added = (if decide ((0 < unsatisfied x)%nat ∧ unsatisfied x' = 0%nat) then 1%nat else 0%nat).
Proof.
  intros Hwf Hc He Hs. induction Hs as [o|o o1 o2 Hs Hs' IH].
  { exists []. split; [by rewrite app_nil_r|]. intros x x' Hx Hst Hx'. assert (x' = x) as -> by congruence.
    rewrite decide_False by lia. by rewrite occ_nil. }
  destruct (ostep_counted extra _ _ Hwf Hc Hs) as [Hc1 (a1 & Hr1 & Ha1)].
  pose proof (ostep_wf _ _ Hwf Hs) as Hwf1. destruct (IH Hwf1 Hc1) as (a2 & Hr2 & Ha2).
  exists (a1 ++ a2). split; [by rewrite Hr2, Hr1, app_assoc|]. intros x x' Hx [Hlk Hsm] Hx'.
  destruct (proj2 (ostep_tasks _ _ Hs t)) as [x1 Hx1]; [by exists x|].
  destruct (Ha1 t x x1 Hx Hx1) as [Hocc1 Hlk1]. destruct (Hlk1 Hlk) as [Hlk1' Hz1].
  pose proof (ostep_length _ _ _ _ _ Hwf Hs Hx Hlk Hx1) as Hlen.
  destruct (Ha2 x1 x' Hx1) as (Hst' & Hz2 & Hocc2); [split; [done|lia]|done|].
  split_and!; [done|auto|]. rewrite occ_app, Hocc1, Hocc2.
  assert (wrap_int (extra t + Z.of_nat (unsatisfied x1)) = Z.of_nat (unsatisfied x1)) as Hw.
  { rewrite He, Z.add_0_l. apply wrap_int_small. pose proof (unsatisfied_le _ _ _ Hwf1 Hx1). unfold is_int. lia. }
  rewrite Hw. repeat destruct (decide _); lia.
Qed.
(** The scheduler gets nothing before the ready tasks are delivered. *)
Lemma ostep_scheduled o o' : ostep par o o' → o_scheduled o' = o_scheduled o.
Proof.
  assert (∀ t d n o, o_scheduled (count_copies t d n o) = o_scheduled o) as Hcopies.
  { intros t d n o1. unfold count_copies. case_match; [|done]. by induction n. }
  intros Hs. destruct Hs as [o o' Hs|o u q _ _]; [|done]. destruct Hs as [o o' Hs| | | | | |]; try done.
  destruct Hs; try done.
  - unfold split. by rewrite Hcopies.
  - unfold change, count_dependency, count_registration, dec_pred. simpl.
    repeat (case_match || case_decide); done.
Qed.

Lemma osteps_scheduled o o' : osteps o o' → o_scheduled o' = o_scheduled o.
Proof. induction 1 as [|o o1 o2 Hs _ IH]; [done|]. by rewrite IH, (ostep_scheduled _ _ Hs). Qed.
End contract.

(** ** Worlds *)

Section worlds.
Context {B : Type} `{!DynamicBitset B} `{!DynamicBitsetLaws B}.
Context {MA : Type} `{!AvlSet (DataAccess B) node_key MA} `{!AvlSetLaws (DataAccess B) node_key MA}.
Context {MB : Type} `{!AvlSet BottomMapEntry node_key MB} `{!AvlSetLaws BottomMapEntry node_key MB}.
Context (par : nat → option nat) (extra : nat → Z) (N : nat).
Notation W := (world B MA MB).
Implicit Types (w : W) (o : obs B).

(** Between two operations: the maps are well formed, the counts of predecessors exact (up to the extra
    that registration adds), the tasks are below [N], and nothing is left to propagate. *)
Record consistent w : Prop := {
  cn_wf : wf par (obs_of w);
  cn_counted : counted extra (obs_of w);
  cn_bounded : bounded N (obs_of w);
  cn_queue : cd_delayedOperations (w_dependencyData w) = [];
  cn_ready : cd_satisfiedOriginators (w_dependencyData w) = [];
}.

(** The registered accesses of a task that are not satisfied. *)
Definition unsatisfiedAccesses w (t : nat) : nat := from_option (unsatisfied ∘ view) 0%nat (w_tasks w !! t).

Definition settledTask w (t : nat) : Prop := ∃ y, w_tasks w !! t = Some y ∧ settled (view y).

(** The tasks that the scheduler gets from an operation: those whose last unsatisfied access the
    operation satisfies, each once. *)
Definition schedules_ready w w' : Prop :=
  ∃ added, (w_scheduled w').*1 = (w_scheduled w).*1 ++ added ∧
  ∀ t, settledTask w t → extra t = 0 → settledTask w' t ∧
    (unsatisfiedAccesses w t = 0%nat → unsatisfiedAccesses w' t = 0%nat) ∧
    occ t added = (if decide ((0 < unsatisfiedAccesses w t)%nat ∧ unsatisfiedAccesses w' t = 0%nat)
                   then 1%nat else 0%nat).

Lemma deliver_contract w w' o1 :
  consistent w → rtc (ostep par) (obs_of w) o1 → o_queue o1 = [] → obs_of w' = deliver o1 →
  consistent w' ∧ schedules_ready w w'.
Proof.
  intros [Hwf Hc Hb Hq Hr] Hs Hq1 Hw'. destruct (osteps_wf par extra _ _ Hwf Hc Hs) as [Hwf1 Hc1].
  pose proof (osteps_tasks par _ _ Hs) as Ht.
  assert (o_view (obs_of w') = o_view o1) as Hv by (by rewrite Hw'). split.
  - split.
    + apply (wf_ext _ o1); [done|by rewrite Hw'|done].
    + intros t x. rewrite Hw'. apply Hc1.
    + intros t. rewrite Hv. intros Hx. apply Hb, Ht, Hx.
    + change (o_queue (obs_of w') = []). by rewrite Hw'.
    + change (o_ready (obs_of w') = []). by rewrite Hw'.
  - exists (o_ready o1). split.
    { change (o_scheduled (obs_of w') = o_scheduled (obs_of w) ++ o_ready o1). rewrite Hw'. simpl.
      by rewrite (osteps_scheduled par _ _ Hs). }
    intros t (y & Hy & Hst) He. assert (o_view (obs_of w) !! t = Some (view y)) as Hx.
    { simpl. by rewrite lookup_fmap, Hy. }
    destruct (proj2 (Ht t)) as [x1 Hx1]; [by eexists|].
    destruct (osteps_ready par extra _ _ t Hwf Hc He Hs) as (added & Hadd & Hall).
    destruct (Hall _ _ Hx Hst Hx1) as (Hst1 & Hz & Hocc).
    assert (o_ready (obs_of w) = []) as Hr0 by done. rewrite Hr0 in Hadd. simpl in Hadd.
    rewrite <- Hv in Hx1. destruct (lookup_view w' t x1 Hx1) as (y1 & Hy1 & <-).
    split_and!.
    + by exists y1.
    + unfold unsatisfiedAccesses. rewrite Hy, Hy1. exact Hz.
    + rewrite Hadd. unfold unsatisfiedAccesses. rewrite Hy, Hy1. exact Hocc.
Qed.
End worlds.
