(* ===== verification/FragmentedCheck.v ===== *)
(** * Fragmented region dependencies: checking the invariants

    Executable checks of the invariants of [FragmentedInvariant], for the states of concrete programs. *)

From S2P Require Import Prelude Region Boost RegionMap RegionMapProofs StateMonad.
From S2P Require Import IntrusiveRegionMap IntrusiveRegionMapProofs IntrusiveRegionMapViews.
From S2P Require Import DataAccessType FragmentedAccess ReductionInfo FragmentedWorld.
From S2P Require Import FragmentedDeps FragmentedProtocol FragmentedInvariant.
From S2P Require Import FragmentedPotential FragmentedObs FragmentedRun.
Local Open Scope Z_scope.

(** ** Maps *)

Fixpoint map_wfb {C} `{!RegionContent C} (l : list C) : bool :=
  match l with
  | [] => true
  | c :: l =>
      bool_decide (region_wf (getAccessRegion c)) && (0 <? rlength (getAccessRegion c)) &&
      forallb (λ b, cend c <=? cstart b) l && map_wfb l
  end.

Lemma map_wfb_sound {C} `{!RegionContent C} (l : list C) : map_wfb l = true → map_wf l.
Proof.
  induction l as [|c l IH]; intros Hl; [apply map_wf_nil|]. simpl in Hl.
  rewrite !andb_true_iff, bool_decide_eq_true in Hl. destruct Hl as (((H1 & H2) & H3) & H4).
  apply map_wf_cons. split_and!.
  - split; [done|lia].
  - by apply IH.
  - intros b Hb. rewrite forallb_forall in H3. specialize (H3 b). rewrite <- list_elem_of_In in H3. specialize (H3 Hb). lia.
Qed.

Section check.
Context {B : Type} `{!DynamicBitset B} `{!DynamicBitsetLaws B}.
Context (par : nat → option nat).
Implicit Types (o : obs B) (d : DataAccess B) (x : task_view B).

Definition plainb d : bool :=
  bool_decide (da_type d ≠ REDUCTION_ACCESS_TYPE) && bool_decide (da_reductionInfo d = None) &&
  bool_decide (da_previousReductionInfo d = None) && negb (receivedReductionCpuSet d) &&
  negb (allocatedReductionInfo d).

Definition liveb o (l : DataAccessLink) : bool := bool_decide (is_Some (o_view o !! link_task l)).

Definition object_okb o (t : nat) (k : DataAccessObjectType) d : bool :=
  bool_decide (da_originator d = t) && bool_decide (map_kind (da_objectType d) = map_kind k) && plainb d &&
  from_option (liveb o) true (da_next d) &&
  implb (hasSubaccesses d) (bool_decide (k = access_type)) &&
  implb (bool_decide (map_kind k ≠ taskwait_type) && (bool_decide (k = fragment_type) || complete d)) (anchored d).

Lemma plainb_sound d : plainb d = true → plain d.
Proof.
  unfold plainb, plain. rewrite !andb_true_iff, !bool_decide_eq_true, !negb_true_iff. tauto.
Qed.

Lemma object_okb_sound o t k d : object_okb o t k d = true → object_ok o t k d.
Proof.
  unfold object_okb. rewrite !andb_true_iff, !bool_decide_eq_true.
  intros (((((H1 & H2) & H3) & H4) & H5) & H6). split; try done.
  - by apply plainb_sound.
  - intros l Hl. rewrite Hl in H4. simpl in H4. unfold liveb in H4. by apply bool_decide_eq_true in H4.
  - intros Hs. rewrite Hs in H5. simpl in H5. by apply bool_decide_eq_true in H5.
  - intros Hk Hc. rewrite bool_decide_eq_true_2 in H6 by done.
    destruct Hc as [->|Hc]; [|rewrite Hc, orb_true_r in H6]; done.
Qed.

Definition entry_okb o (t : nat) (e : BottomMapEntry) : bool :=
  liveb o (bme_link e) &&
  match link_objectType (bme_link e) with
  | access_type => bool_decide (par (link_task (bme_link e)) = Some t)
  | _ => bool_decide (link_task (bme_link e) = t)
  end && bool_decide (bme_accessType e ≠ REDUCTION_ACCESS_TYPE).

Lemma entry_okb_sound o t e : entry_okb o t e = true → entry_ok par o t e.
Proof.
  unfold entry_okb, liveb. rewrite !andb_true_iff, !bool_decide_eq_true. intros [[H1 H2] H3].
  split_and!; [done| |done]. destruct (link_objectType (bme_link e)); by apply bool_decide_eq_true in H2.
Qed.

Definition view_okb o (t : nat) x : bool :=
  bool_decide (v_parent x = par t) &&
  from_option (λ p, bool_decide (is_Some (o_view o !! p))) true (par t) &&
  forallb (λ k, map_wfb (v_objects k x) && forallb (object_okb o t k) (v_objects k x))
    [access_type; fragment_type; taskwait_type; top_level_sink_type] &&
  map_wfb (v_bottom x) && forallb (entry_okb o t) (v_bottom x).

Lemma forallb_elem {A} (f : A → bool) l a : forallb f l = true → a ∈ l → f a = true.
Proof. rewrite forallb_forall. intros Hf Ha. by apply Hf, list_elem_of_In. Qed.

Lemma view_okb_sound o t x : view_okb o t x = true → view_ok par o t x.
Proof.
  unfold view_okb. rewrite !andb_true_iff. intros ((((H1 & H3) & H2) & H4) & H5).
  assert (∀ k, map_wfb (v_objects k x) && forallb (object_okb o t k) (v_objects k x) = true) as Hk.
  { intros k. apply (forallb_elem _ _ k H2). destruct k; set_solver. }
  split.
  - by apply bool_decide_eq_true in H1.
  - intros p Hp. rewrite Hp in H3. by apply bool_decide_eq_true in H3.
  - intros k. specialize (Hk k). bool_hyps. by apply map_wfb_sound.
  - intros k d Hd. specialize (Hk k). bool_hyps. apply object_okb_sound. by eapply forallb_elem.
  - by apply map_wfb_sound.
  - apply Forall_forall. intros e He. apply entry_okb_sound. by eapply forallb_elem.
Qed.

Definition op_okb o (u : UpdateOperation B) : bool :=
  liveb o (uo_target u) && bool_decide (region_wf (uo_region u)) && (0 <? rlength (uo_region u)) &&
  bool_decide (uo_reductionInfo u = None) && bool_decide (bs_bits (uo_reductionCpuSet u) = []).

(** [wf] *)
Definition wfb o : bool :=
  forallb (λ p : nat * task_view B, view_okb o p.1 p.2) (map_to_list (o_view o)) &&
  forallb (op_okb o) (o_queue o).

Lemma wfb_sound o : wfb o = true → wf par o.
Proof.
  unfold wfb. rewrite andb_true_iff. intros [H H0]. split.
  - intros t x Hx. apply view_okb_sound.
    apply (forallb_elem _ _ (t, x) H). by apply elem_of_map_to_list.
  - apply Forall_forall. intros u Hu. pose proof (forallb_elem _ _ _ H0 Hu) as Hok. unfold op_okb, liveb in Hok.
    rewrite !andb_true_iff, !bool_decide_eq_true in Hok. destruct Hok as ((((K1 & K2) & K3) & K4) & K5).
    split; try done. lia.
Qed.

(** [counted], with the same extra count for every task. *)
Definition countedb (extra : nat → Z) o : bool :=
  forallb (λ p : nat * task_view B,
    bool_decide (o_pred o !! p.1 = Some (wrap_int (extra p.1 + Z.of_nat (unsatisfied p.2)))))
    (map_to_list (o_view o)).

Lemma countedb_sound extra o : countedb extra o = true → counted extra o.
Proof.
  intros Hb t x Hx. assert ((t, x) ∈ map_to_list (o_view o)) as Hin by (by apply elem_of_map_to_list).
  pose proof (forallb_elem _ _ _ Hb Hin) as H. by apply bool_decide_eq_true in H.
Qed.

(** [bounded] *)
Definition boundedb (N : nat) o : bool :=
  forallb (λ p : nat * task_view B, bool_decide (p.1 < N)%nat) (map_to_list (o_view o)).

Lemma boundedb_sound N o : boundedb N o = true → bounded N o.
Proof.
  intros Hb t [x Hx]. assert ((t, x) ∈ map_to_list (o_view o)) as Hin by (by apply elem_of_map_to_list).
  pose proof (forallb_elem _ _ _ Hb Hin) as H. by apply bool_decide_eq_true in H.
Qed.
End check.

(** ** Sample program

    A task 0 with two children: 1, which reads and writes [100, 108), and 2, which reads [104, 112).
    Task 1 has a child 3, which reads and writes [102, 106), and a child 4, which is not registered
    yet. *)

Notation sample := (world (list bool) (list (DataAccess (list bool))) (list BottomMapEntry)).

Definition sample_machine : machine := mkMachine 2 64 (λ _ _, None).
Definition sample_parent (t : nat) : option nat :=
  match t with 0 => None | 3 | 4 => Some 1 | _ => Some 0 end%nat.
Definition sample_task (t : nat) : Task (list (DataAccess (list bool))) (list BottomMapEntry) :=
  mkTask (sample_parent t) new_TaskDataAccesses 0 0 false false.
Definition sample_start : sample :=
  mkWorld (list_to_map ((λ t, (t, sample_task t)) <$> seq 0 5)) ∅ 0 no_dependency_data [] [] [].
Definition sample_dep (type : DataAccessType) (start len : Z) : depinfo :=
  mkDepinfo type false start len (-1) no_reduction_type_and_operator no_reduction_index.

(** The three tasks are registered. *)
Definition sample_registration : stM sample bool :=
  _ ← registerTaskDataAccesses sample_machine 6 1000 1 [sample_dep READWRITE_ACCESS_TYPE 100 8];
  _ ← registerTaskDataAccesses sample_machine 6 1000 2 [sample_dep READ_ACCESS_TYPE 104 8];
  registerTaskDataAccesses sample_machine 6 1000 3 [sample_dep READWRITE_ACCESS_TYPE 102 4].

Definition run_sample {A} (m : stM sample A) : sample :=
  match m sample_start with Ok (_, w) => w | Err _ => sample_start end.

Definition sample_registered : sample := run_sample sample_registration.
