(* ===== verification/FragmentedRegistration.v ===== *)
(** * Fragmented region dependencies: registration of accesses

    [registerTaskDataAccess] fragments the accesses of the task that the region overlaps, upgrades
    them, and adds accesses for the rest of the region: address by address, the type and the weakness
    of the access of the task are those of the combination of the declarations. *)

From S2P Require Import Prelude Region Boost RegionMap RegionMapProofs StateMonad.
From S2P Require Import IntrusiveRegionMap IntrusiveRegionMapProofs IntrusiveRegionMapViews.
From S2P Require Import DataAccessType FragmentedAccess ReductionInfo FragmentedWorld.
From S2P Require Import FragmentedDeps FragmentedProtocol FragmentedInvariant.
From S2P Require Import FragmentedPotential FragmentedObs FragmentedRun FragmentedPropagation.
From S2P Require Import FragmentedWaiting.
Local Open Scope Z_scope.

(** ** Address by address *)

Section at_address.
Context {B : Type} `{!DynamicBitset B} `{!DynamicBitsetLaws B}.
Implicit Types (d : DataAccess B) (l : list (DataAccess B)).

Definition covers (a : Z) d : Prop := cstart d ≤ a < cend d.
#[global] Instance covers_dec a d : Decision (covers a d).
Proof. unfold covers. apply _. Defined.

(** The type and weakness of the access at an address. *)
Definition declared l (a : Z) : option (DataAccessType * bool) :=
  (λ d, (da_type d, da_weak d)) <$> head (filter (covers a) l).

(** What one more declaration makes of it. *)
Definition declare (accessType : DataAccessType) (weak : bool) (before : option (DataAccessType * bool)) :
    option (DataAccessType * bool) :=
  match before with
  | None => Some (accessType, weak)
  | Some (type, wk) =>
      Some (if decide (accessType = type) then type else READWRITE_ACCESS_TYPE, wk && weak)
  end.

Lemma declared_app l1 l2 a :
  declared (l1 ++ l2) a = match declared l1 a with Some r => Some r | None => declared l2 a end.
Proof. unfold declared. rewrite filter_app. by destruct (filter (covers a) l1). Qed.

Lemma declared_cons d l a :
  declared (d :: l) a = if decide (covers a d) then Some (da_type d, da_weak d) else declared l a.
Proof. unfold declared. rewrite filter_cons. by case_decide. Qed.

Lemma declared_none l a : (∀ d, d ∈ l → ¬ covers a d) → declared l a = None.
Proof. intros Hl. unfold declared. by rewrite filter_none. Qed.

(** Accesses in order: those before an access do not cover its addresses. *)
Lemma declared_middle l1 d l2 a :
  map_wf (l1 ++ d :: l2) → covers a d → declared (l1 ++ d :: l2) a = Some (da_type d, da_weak d).
Proof.
  intros Hm Ha. rewrite declared_app, declared_none, declared_cons, decide_True; [done|done|].
  apply map_wf_app in Hm as (_ & _ & H12). intros c Hc. specialize (H12 c d Hc ltac:(by left)).
  unfold covers in *. lia.
Qed.

Lemma declared_skip l1 d l2 a :
  ¬ covers a d → declared (l1 ++ d :: l2) a = declared (l1 ++ l2) a.
Proof. intros Ha. by rewrite !declared_app, declared_cons, decide_False. Qed.

(** Cutting an access changes nothing. *)
Lemma declared_pieces l1 d l2 fr a :
  content_wf d → region_wf fr → intersects fr d →
  declared (l1 ++ pieces d fr ++ l2) a = declared (l1 ++ d :: l2) a.
Proof.
  intros Hd Hfr Hi. apply intersects_spec in Hi; [|done|done]. rewrite !declared_app, declared_cons.
  destruct (declared l1 a); [done|].
  assert (declared (pieces d fr) a = if decide (covers a d) then Some (da_type d, da_weak d) else None) as ->.
  { unfold pieces, left_piece, right_piece, middle_piece.
    assert (∀ s e, covers a (cut d s e) ↔ s ≤ a < e) as Hcut by (intros s e; unfold covers; by destruct (bounds_cut d s e) as [-> ->]).
    destruct (Z.ltb_spec (cstart d) (cut_start d fr)); destruct (Z.ltb_spec (cut_end d fr) (cend d));
      cbn [app]; rewrite !declared_cons; repeat (case_decide; rewrite ?Hcut in *); try done; exfalso;
      unfold covers, cut_start, cut_end in *; lia. }
  by destruct (decide (covers a d)).
Qed.
End at_address.

(** ** Accesses before they are linked *)

Section fresh.
Context {B : Type} `{!DynamicBitset B} `{!DynamicBitsetLaws B}.
Implicit Types (d : DataAccess B) (l : list (DataAccess B)).

(** An access as [createAccess] makes it, apart from what the declarations say. *)
Record fresh (t : nat) d : Prop := {
  fr_type : da_type d ≠ REDUCTION_ACCESS_TYPE;
  fr_originator : da_originator d = t;
  fr_objectType : da_objectType d = access_type;
  fr_status : da_status d = no_status;
  fr_next : da_next d = None;
  fr_info : da_reductionInfo d = None;
  fr_previousInfo : da_previousReductionInfo d = None;
}.

Lemma fresh_duplicate t d : fresh t d → duplicateDataAccess d = d.
Proof.
  intros [_ _ _ Hs _ _ _]. destruct d. simpl in Hs. subst. reflexivity.
Qed.

Lemma fresh_cut t d s e : fresh t d → fresh t (cut d s e).
Proof. intros []. by split. Qed.

Lemma fresh_pieces t d fr : fresh t d → Forall (fresh t) (pieces d fr).
Proof.
  intros Hd. unfold pieces, left_piece, right_piece, middle_piece.
  destruct (_ <? _), (_ <? _); repeat constructor; by destruct Hd.
Qed.

(** What the declaration of an access makes of one that the task has. *)
Definition redeclare (accessType : DataAccessType) (weak : bool) (symbols : N) d : DataAccess B :=
  addToSymbols symbols
    (upgrade (da_weak d && weak) (if decide (accessType = da_type d) then accessType else READWRITE_ACCESS_TYPE) d).

Lemma upgradeAccess_fresh t accessType weak index d :
  accessType ≠ REDUCTION_ACCESS_TYPE → fresh t d →
  upgradeAccess accessType weak index d =
  Ok (upgrade (da_weak d && weak) (if decide (accessType = da_type d) then accessType else READWRITE_ACCESS_TYPE) d).
Proof.
  intros Ha Hd. unfold upgradeAccess. rewrite (bool_decide_false (accessType = _)) by done.
  rewrite (bool_decide_false (da_type d = _)) by apply Hd. simpl. by case_decide.
Qed.

Lemma fresh_redeclare t accessType weak symbols d :
  accessType ≠ REDUCTION_ACCESS_TYPE → fresh t d → fresh t (redeclare accessType weak symbols d).
Proof. intros Ha []. split; try done. simpl. by case_decide. Qed.

Lemma declare_redeclare accessType weak symbols d :
  let d' := redeclare accessType weak symbols d in
  Some (da_type d', da_weak d') = declare accessType weak (Some (da_type d, da_weak d)).
Proof. simpl. repeat case_decide; congruence. Qed.

Definition within (region : DataAccessRegion) d : Prop :=
  startAddress region ≤ cstart d ∧ cend d ≤ startAddress region + rlength region.

Lemma pieces_within d fr c :
  region_wf fr → content_wf d → intersects fr d → c ∈ pieces d fr → intersects fr c → within fr c.
Proof.
  intros Hfr Hd Hi Hc Hic. destruct (pieces_bounds d fr c Hfr Hd Hi Hc) as (Hcw & _).
  apply intersects_spec in Hi, Hic; [|done..]. revert Hc Hic.
  unfold pieces, left_piece, right_piece, middle_piece. rewrite elem_of_app, elem_of_cons. unfold within.
  intros [Hc|[->|Hc]]; [case_match; [|set_solver]; apply list_elem_of_singleton in Hc as ->| |
    case_match; [|set_solver]; apply list_elem_of_singleton in Hc as ->];
    rewrite ?(proj1 (bounds_cut _ _ _)), ?(proj2 (bounds_cut _ _ _)); unfold cut_start, cut_end; lia.
Qed.

(** Where an object that fills a gap goes. *)
Lemma gap_split l a b :
  map_wf l → a ≤ b → (∀ c, c ∈ l → cend c ≤ a ∨ b ≤ cstart c) →
  ∃ l1 l2, l = l1 ++ l2 ∧ (∀ c, c ∈ l1 → cend c ≤ a) ∧ (∀ c, c ∈ l2 → b ≤ cstart c).
Proof.
  induction l as [|d l IH]; intros Hm Hab Hl; [exists [], []; set_solver|].
  apply map_wf_cons in Hm as (Hd & Hm & Hdl). destruct (Hl d ltac:(by left)) as [Hle|Hge].
  - destruct IH as (l1 & l2 & -> & H1 & H2); [done|done|set_solver|]. exists (d :: l1), l2. set_solver.
  - exists [], (d :: l). split_and!; [done|set_solver|]. intros c [->|Hc]%elem_of_cons; [done|].
    specialize (Hdl c Hc). destruct Hd as [_ Hd]. unfold cend in Hdl. unfold cstart in *. lia.
Qed.
End fresh.

(** ** [registerTaskDataAccess] *)

Section registration.
Context {B : Type} `{!DynamicBitset B} `{!DynamicBitsetLaws B}.
Context {MA : Type} `{!AvlSet (DataAccess B) node_key MA} `{!AvlSetLaws (DataAccess B) node_key MA}.
Context {MB : Type} `{!AvlSet BottomMapEntry node_key MB} `{!AvlSetLaws BottomMapEntry node_key MB}.
Context (mc : machine).
Notation W := (world B MA MB).
Implicit Types (d : DataAccess B) (l : list (DataAccess B)).

(** A map seen by a computation with local variables. *)
Lemma seen_shared {L C MC O : Type} `{!RegionContent C} `{!AvlSet C node_key MC}
    (abs : W → O) (r : map_ref W MC) look put :
  seen abs r look put →
  seen (abs_locals L abs) (shared_ref r) (λ p, look p.1) (λ (l : list C) p, (put l p.1, p.2)).
Proof.
  intros [Hn Hp]. split.
  - intros s l. apply (Hn s.1 l).
  - intros s m m' Hm. unfold abs_locals. simpl. by rewrite (Hp s.1 m m' Hm).
Qed.

(** What can be seen, where the accesses of the task are, and how a write of them changes it. *)
Context (t : nat) {O : Type} (abs : W → O) (look : O → option (list (DataAccess B))).
Context (write : list (DataAccess B) → O → O) (Hseen : seen abs (objects_of t access_type) look write).
Context (write_write : ∀ l l' o, write l (write l' o) = write l o).
Context (look_write : ∀ l l' o, look o = Some l → look (write l' o) = Some l').
Context (write_id : ∀ l o, look o = Some l → write l o = o).
Notation awpN := (awp (abs_locals N abs)).

Context (o0 : O) (l0 : list (DataAccess B)) (Hl0 : look o0 = Some l0).
Context (region : DataAccessRegion) (Hregion : region_wf region) (Hpos : 0 < rlength region).
Notation put l := (write l o0).

Lemma look_here l : look (put l) = Some l.
Proof. by eapply look_write. Qed.

(** The accesses that the region cuts give way to their pieces. *)
Record cut_up l : Prop := {
  cu_wf : map_wf l;
  cu_fresh : Forall (fresh t) l;
  cu_declared : ∀ a, declared l a = declared l0 a;
}.

Lemma cut_up_pieces l1 n l2 :
  cut_up (l1 ++ n :: l2) → intersects region n → cut_up (l1 ++ pieces n region ++ l2).
Proof.
  intros [Hm Hf Hd] Hi. assert (content_wf n) as Hn by (eapply map_wf_elem; [done|apply elem_middle]).
  split.
  - pose proof (new_pieces_wf l1 n l2 region Hm Hregion Hi id (λ _, eq_refl)) as Hw.
    unfold new_pieces in Hw. by rewrite !list_fmap_id in Hw.
  - apply Forall_app in Hf as [H1 [H2 H3]%Forall_cons]. rewrite !Forall_app. split_and!; [done| |done].
    by apply fresh_pieces.
  - intros a. rewrite <- Hd. by apply declared_pieces.
Qed.

Notation dup := (λ d, mret (duplicateDataAccess d)).
Notation post := (λ _ original : Z,
  d ← st_shared (readAccess (mkRef t access_type original));
  st_set_local (λ symbols, N.lor symbols (da_symbols d))).

Lemma awp_post l d (Q : unit → O * N → Prop) (o : O) s :
  look o = Some l → map_wf l → d ∈ l → (∀ s', Q tt (o, s')) →
  awpN (post 0 (node_key d)) Q (o, s).
Proof.
  intros Hl Hm Hd HQ. apply awp_bind, awp_shared. eapply (awp_map_deref _ _ _ _ Hseen); [done..|]. by apply awp_set_local.
Qed.

Lemma awp_fragment_fresh l1 n l2 s :
  cut_up (l1 ++ n :: l2) → intersects region n →
  awpN (fragmentByIntersection (shared_ref (objects_of t access_type)) dup post (node_key n) region false)
    (λ _ p, p.1 = put (l1 ++ pieces n region ++ l2)) (put (l1 ++ n :: l2), s).
Proof.
  intros Hc Hi. pose proof (cu_wf _ Hc) as Hm. assert (fresh t n) as Hfr.
  { pose proof (cu_fresh _ Hc) as Hf. rewrite Forall_forall in Hf. apply Hf, elem_middle. }
  assert (new_pieces n region id = pieces n region) as <- by (unfold new_pieces; by rewrite !list_fmap_id).
  pose proof (seen_shared (L := N) _ _ _ _ Hseen) as HseenN.
  eapply awp_mono; [eapply (awp_fragmentByIntersection_keep _ _ _ _ HseenN l1 n l2 region Hm Hregion Hi id
    (λ _, eq_refl) _ _ (λ l p, p.1 = put l))|].
  - intros l [o s'] Ho. simpl in *. subst. apply look_here.
  - intros [o s'] Ho. simpl in Ho. subst. simpl. rewrite write_write.
    replace (cut_start n region) with (node_key (middle_piece n region)) by apply key_cut.
    eapply awp_post; [apply look_here| |apply elem_middle|done].
    pose proof (new_pieces_wf l1 n l2 region Hm Hregion Hi id (λ _, eq_refl)) as Hw. unfold new_pieces in Hw.
    eapply map_wf_sublist; [|exact Hw]. apply sublist_app; [done|]. rewrite <- app_assoc. simpl.
    apply sublist_inserts_l, sublist_skip. by apply sublist_inserts_l.
  - intros L1 L2 st e [o s'] Ho Hw Hmid Hcut. simpl in Ho. subst. apply awp_bind, awp_ret, awp_bind.
    rewrite (fresh_duplicate t) by (by apply fresh_cut).
    change (setAccessRegion _ (middle_piece n region)) with (cut (middle_piece n region) st e).
    unfold middle_piece. rewrite cut_cut.
    eapply (awp_map_insert _ _ _ _ HseenN L1); [apply look_here|exact Hw|]. simpl. rewrite write_write.
    replace (cut_start n region) with (node_key (middle_piece n region)) by apply key_cut.
    eapply awp_post; [apply look_here|exact Hw| |done]. revert Hmid. rewrite !elem_of_app, elem_of_cons. tauto.
  - done.
  - intros k [o s'] [_ Ho]. done.
Qed.

(** The first traversal: afterwards no access crosses the ends of the region. *)
Lemma awp_fragmentIntersecting_fresh s :
  cut_up l0 →
  awpN (fragmentIntersecting (shared_ref (objects_of t access_type)) dup post region)
    (λ _ p, ∃ l, p.1 = put l ∧ cut_up l ∧ ∀ c, c ∈ l → intersects region c → within region c) (o0, s).
Proof.
  intros Hc. apply awp_bind.
  pose (I := λ (rest : list (DataAccess B)) (o : O * N), ∃ l, o.1 = put l ∧ cut_up l ∧
    ∀ c, c ∈ l → intersects region c → within region c ∨ c ∈ rest).
  pose proof (seen_shared (L := N) _ _ _ _ Hseen) as HseenN.
  eapply awp_mono; [apply (awp_processIntersecting _ _ _ _ HseenN region _ I l0); [done|done|apply Hc| |]|].
  - intros n rest [o s'] l Hl Hm Hn Hi (l' & Ho & Hc' & Hrest). simpl in Ho, Hl. subst.
    rewrite look_here in Hl. injection Hl as ->. destruct (elem_split _ _ Hn) as (l1 & l2 & ->).
    assert (content_wf n) as Hcn by (eapply map_wf_elem; [done|apply elem_middle]).
    apply awp_bind. eapply awp_mono; [by apply awp_fragment_fresh|]. intros k [o s''] Ho. simpl in Ho. subst.
    pose proof (cut_up_pieces _ _ _ Hc' Hi) as Hc''.
    apply awp_ret. split_and!; [done| |].
    + exists (l1 ++ pieces n region ++ l2). split_and!; [done|done|]. intros c. rewrite !elem_of_app.
      assert (c ∈ l1 ∨ c ∈ l2 → intersects region c → within region c ∨ c ∈ rest) as Hother.
      { intros Hin Hci. destruct (Hrest c) as [?|[->|?]%elem_of_cons]; [set_solver|done|by left| |by right].
        exfalso. apply map_wf_app in Hm as (_ & (Hn1 & _ & H2)%map_wf_cons & H12).
        assert (cend n ≤ cstart n) as Hbad by (destruct Hin; [apply H12; [done|by left]|by apply H2]).
        destruct Hn1 as [_ Hlen]. unfold cend, cstart in Hbad. lia. }
      intros [Hin|[Hin|Hin]] Hci; [by apply Hother; [left|]| |by apply Hother; [right|]].
      left. by eapply pieces_within.
    + eapply (keeps_middle _ l1 n (pieces n region) l2); [apply look_here|apply look_here|done|apply Hc''|].
      intros c Hcin. destruct (pieces_bounds n region c) as ([_ Hcp] & _ & Hle); [done..|].
      unfold cend, cstart in *. lia.
  - exists l0. split_and!; [symmetry; by apply write_id|done|]. intros c Hcin Hi. right.
    by apply list_elem_of_filter.
  - intros c [o s'] (-> & l & Ho & Hc' & Hw). apply awp_ret. exists l. split_and!; [done..|].
    intros c' Hc'' Hi. destruct (Hw c' Hc'' Hi) as [?|?]; [done|set_solver].
Qed.

(** The second traversal, up to an address. *)
Context (accessType : DataAccessType) (weak : bool) (symbols : N) (typeIndex redIndex : Z).
Context (Htype : accessType ≠ REDUCTION_ACCESS_TYPE).
Notation finish := (startAddress region + rlength region).

Record declared_to (b : Z) l : Prop := {
  dt_wf : map_wf l;
  dt_fresh : Forall (fresh t) l;
  dt_within : ∀ c, c ∈ l → intersects region c → within region c;
  dt_declared : ∀ a, declared l a =
    if decide (startAddress region ≤ a < b) then declare accessType weak (declared l0 a) else declared l0 a;
}.

Definition declaring (b : Z) (o : O) : Prop := ∃ l, o = put l ∧ declared_to b l.

(** An access of the task in the region. *)
Lemma declared_to_node l1 n l2 :
  declared_to (cstart n) (l1 ++ n :: l2) → intersects region n →
  declared_to (cend n) (l1 ++ redeclare accessType weak symbols n :: l2).
Proof.
  intros [Hm Hf Hw Hd] Hi. set (n' := redeclare _ _ _ _).
  assert (fresh t n) as Hn by (rewrite Forall_forall in Hf; apply Hf, elem_middle).
  assert (map_wf (l1 ++ n' :: l2)) as Hm' by (eapply map_wf_ext; [|exact Hm]; rewrite !fmap_app; done).
  destruct (Hw n (elem_middle _ _ _) Hi) as [Hlo Hhi].
  assert (cstart n < cend n) as Hlt.
  { destruct (map_wf_elem _ n Hm (elem_middle _ _ _)) as [_ ?]. unfold cend. lia. }
  split; [done| | |].
  - apply Forall_app in Hf as [H1 [H2 H3]%Forall_cons]. apply Forall_app. split; [done|].
    constructor; [by apply fresh_redeclare|done].
  - intros c [Hc|[->|Hc]%elem_of_cons]%elem_of_app; [apply Hw; set_solver| |apply Hw; set_solver].
    intros _. done.
  - intros a. specialize (Hd a). destruct (decide (covers a n)) as [Ha|Ha].
    + rewrite declared_middle in Hd |- *; [|done..]. unfold covers in Ha.
      rewrite decide_False in Hd by lia. rewrite decide_True by lia. rewrite <- Hd. apply declare_redeclare.
    + rewrite declared_skip in Hd by done. rewrite declared_skip by done. rewrite Hd. unfold covers in Ha.
      repeat case_decide; try done; lia.
Qed.

Lemma node_keeps l1 n n' l2 :
  map_wf (l1 ++ n :: l2) → getAccessRegion n' = getAccessRegion n →
  keeps_within look (cend n) (put (l1 ++ n :: l2)) (put (l1 ++ n' :: l2)).
Proof.
  intros Hm Hr. assert (map_wf (l1 ++ n' :: l2)) as Hm' by (eapply map_wf_ext; [|exact Hm]; by rewrite !fmap_app, !fmap_cons, Hr).
  assert (cstart n' = cstart n ∧ cend n' = cend n) as [Hs He] by (unfold cend, cstart; by rewrite Hr).
  assert (cstart n < cend n) as Hlt.
  { destruct (map_wf_elem _ n Hm (elem_middle _ _ _)) as [_ ?]. unfold cend. lia. }
  split.
  - apply (keeps_middle _ l1 n [n'] l2); [apply look_here|apply look_here|done|done|].
    intros c ->%list_elem_of_singleton. lia.
  - intros l' c. rewrite look_here. intros [= <-]. unfold node_key. fold (cstart c).
    apply map_wf_app in Hm' as (_ & (_ & _ & H2)%map_wf_cons & H12).
    intros [Hc|[->|Hc]%elem_of_cons]%elem_of_app Hk; [|lia|specialize (H2 c Hc); lia].
    specialize (H12 c n' Hc ltac:(by left)). lia.
Qed.

(** A part of the region where the task has no access. *)
Notation created a b := (addToSymbols symbols
  (createAccess mc t access_type accessType weak (mkRegion a (b - a)) typeIndex redIndex)).

Lemma declared_to_gap l1 l2 a b :
  declared_to a (l1 ++ l2) → startAddress region ≤ a → a < b → b ≤ finish →
  (∀ c, c ∈ l1 → cend c ≤ a) → (∀ c, c ∈ l2 → b ≤ cstart c) →
  declared_to b (l1 ++ created a b :: l2).
Proof.
  intros [Hm Hf Hw Hd] Ha Hab Hb H1 H2. set (n := addToSymbols _ _).
  assert (cstart n = a ∧ cend n = b) as [Hns Hne] by (unfold cend, cstart; simpl; lia).
  apply map_wf_app in Hm as (Hm1 & Hm2 & H12). split.
  - apply map_wf_app. split_and!; [done| |].
    + apply map_wf_cons. split_and!; [|done|rewrite Hne; done]. split; [|simpl; lia].
      unfold region_wf in *. simpl. lia.
    + intros c c' Hc [->|Hc']%elem_of_cons; [rewrite Hns; by apply H1|by apply H12].
  - apply Forall_app in Hf as [Hf1 Hf2]. apply Forall_app. split; [done|]. constructor; [by split|done].
  - intros c [Hc|[->|Hc]%elem_of_cons]%elem_of_app; [apply Hw; set_solver| |apply Hw; set_solver].
    intros _. unfold within. lia.
  - intros x. specialize (Hd x). destruct (decide (covers x n)) as [Hx|Hx].
    + assert (declared (l1 ++ l2) x = None) as Hnone.
      { apply declared_none. intros c Hc%elem_of_app Hcx. unfold covers in *.
        destruct Hc as [Hc|Hc]; [specialize (H1 c Hc)|specialize (H2 c Hc)]; lia. }
      rewrite Hnone in Hd. unfold covers in Hx. rewrite decide_False in Hd by lia. rewrite decide_True by lia.
      rewrite <- Hd, declared_app, declared_none, declared_cons, decide_True; [done|unfold covers; lia|].
      intros c Hc Hcx. specialize (H1 c Hc). unfold covers in *. lia.
    + rewrite declared_skip by done. rewrite Hd. unfold covers in Hx. repeat case_decide; try done; lia.
Qed.

Lemma gap_keeps l1 n l2 b :
  map_wf (l1 ++ n :: l2) → cend n = b →
  keeps_within look b (put (l1 ++ l2)) (put (l1 ++ n :: l2)).
Proof.
  intros Hm Hn. pose proof Hm as Hm'. apply map_wf_app in Hm' as (_ & (Hnw & _ & H2)%map_wf_cons & H12).
  assert (cstart n < cend n) as Hlt by (destruct Hnw as [_ ?]; unfold cend; lia). split.
  - exists (l1 ++ l2), (l1 ++ n :: l2). split_and!; [apply look_here|apply look_here|done|].
    rewrite !filter_app, filter_cons_False; [done|]. unfold node_key. fold (cstart n). lia.
  - intros l' c. rewrite look_here. intros [= <-]. unfold node_key. fold (cstart c).
    intros [Hc|[->|Hc]%elem_of_cons]%elem_of_app Hk; [|lia|specialize (H2 c Hc); lia].
    specialize (H12 c n Hc ltac:(by left)). lia.
Qed.

Lemma awp_declare_all o :
  declaring (startAddress region) o →
  awp abs (processIntersectingAndMissing (objects_of t access_type) region
        (λ position,
           d ← readAccess (mkRef t access_type position);
           d' ← st_lift (upgradeAccess accessType weak typeIndex d);
           updateAccess (mkRef t access_type position) (λ _, addToSymbols symbols d');;
           mret true)
        (λ missingRegion,
           map_insert (objects_of t access_type)
             (addToSymbols symbols
                (createAccess mc t access_type accessType weak missingRegion typeIndex redIndex));;
           mret true))
    (λ c o', c = true ∧ declaring finish o') o.
Proof.
  intros HI. destruct HI as (l & -> & Hl).
  apply (awp_processIntersectingAndMissing _ _ _ _ Hseen region _ _ declaring l);
    [done|done|apply look_here|apply Hl| | |by exists l].
  - intros n o l' Hl' Hm Hn Hi (l'' & -> & HI). rewrite look_here in Hl'. injection Hl' as ->.
    destruct (dt_within _ _ HI n Hn Hi) as [Hlo Hhi]. rewrite Z.max_r in HI by done. rewrite Z.min_l by done.
    assert (fresh t n) as Hf by (pose proof (dt_fresh _ _ HI) as Hf; rewrite Forall_forall in Hf; by apply Hf).
    destruct (elem_split _ _ Hn) as (l1 & l2 & ->).
    apply awp_bind. eapply (awp_map_deref _ _ _ _ Hseen); [apply look_here|done|done|].
    apply awp_bind. eapply awp_lift; [by eapply upgradeAccess_fresh|].
    apply awp_bind. eapply (awp_map_assign _ _ _ _ Hseen l1 n l2); [apply look_here|done|].
    rewrite write_write. apply awp_ret. split_and!; [done| |by apply node_keeps].
    eexists. split; [reflexivity|]. by apply declared_to_node.
  - intros a b o l' Hl' Hm Ha Hab Hb Hgap _ (l'' & -> & HI). rewrite look_here in Hl'. injection Hl' as ->.
    destruct (gap_split l' a b) as (l1 & l2 & -> & H1 & H2); [done|lia|done|].
    pose proof (declared_to_gap l1 l2 a b HI Ha Hab Hb H1 H2) as HI'.
    apply awp_bind. eapply (awp_map_insert _ _ _ _ Hseen l1);
      [apply look_here|apply HI'|]. rewrite write_write.
    apply awp_ret. split_and!; [done| |].
    + eexists. split; [reflexivity|done].
    + intros _. apply gap_keeps; [apply HI'|]. unfold cend, cstart. simpl. lia.
Qed.
End registration.

(** Address by address, the declaration of an access combines with those that the task has made. *)
Section register.
Context {B : Type} `{!DynamicBitset B} `{!DynamicBitsetLaws B}.
Context {MA : Type} `{!AvlSet (DataAccess B) node_key MA} `{!AvlSetLaws (DataAccess B) node_key MA}.
Context {MB : Type} `{!AvlSet BottomMapEntry node_key MB} `{!AvlSetLaws BottomMapEntry node_key MB}.
Context (mc : machine).
Notation W := (world B MA MB).

Lemma awp_registerTaskDataAccess t {O : Type} (abs : W → O) look write :
  seen abs (objects_of t access_type) look write →
  (∀ l l' o, write l (write l' o) = write l o) → (∀ l l' o, look o = Some l → look (write l' o) = Some l') →
  (∀ l o, look o = Some l → write l o = o) →
  ∀ accessType weak region symbolIndex typeIndex redIndex l o,
  look o = Some l → map_wf l → Forall (fresh t) l → region_wf region →
  0 < rlength region → accessType ≠ REDUCTION_ACCESS_TYPE → symbolIndex < 64 →
  awp abs (registerTaskDataAccess mc t accessType weak region symbolIndex typeIndex redIndex)
    (λ _ o', ∃ l', o' = write l' o ∧ map_wf l' ∧ Forall (fresh t) l' ∧
       ∀ a, declared l' a =
         if decide (startAddress region ≤ a < startAddress region + rlength region)
         then declare accessType weak (declared l a) else declared l a) o.
Proof.
  intros Hseen Hww Hlw Hwi accessType weak region symbolIndex typeIndex redIndex l o Hl Hm Hf Hr Hpos Ht Hs.
  unfold registerTaskDataAccess.
  assert (∃ symbols, initial_symbols symbolIndex = Ok symbols) as [symbols Hsym].
  { unfold initial_symbols. destruct (_ <? _); [by eexists|]. rewrite (proj2 (Z.ltb_lt _ _)) by done. by eexists. }
  apply awp_bind. eapply awp_lift; [done|]. apply awp_bind, awp_with.
  eapply awp_mono; [by eapply (awp_fragmentIntersecting_fresh t abs look write Hseen Hww Hlw Hwi o l Hl region Hr)|].
  intros [] [o1 s1] (l1 & Ho1 & [Hm1 Hf1 Hd1] & Hw1). simpl in Ho1 |- *. subst o1.
  apply awp_bind. eapply awp_mono; [eapply (awp_declare_all mc t abs look write Hseen Hww Hlw Hwi o l Hl region Hr Hpos); [done|]|].
  - exists l1. split; [done|]. split; [done..|]. intros a. rewrite Hd1. case_decide; [lia|done].
  - intros c o' (_ & l' & -> & [Hm' Hf' _ Hd']). apply awp_ret. by exists l'.
Qed.

(** ** The declarations of a task *)

(** What can be seen, and the flags of the tasks that decide whether a weak declaration is one. *)
Definition flags (w : W) : gmap nat (bool * bool) := (λ y, (t_final y, t_taskloop y)) <$> w_tasks w.
Definition obs_flags (w : W) : obs B * gmap nat (bool * bool) := (obs_of w, flags w).

Lemma objects_seen_flags t k :
  seen obs_flags (objects_of t k) (λ p, objects t k p.1) (λ l p, (put_objects t k l p.1, p.2)).
Proof.
  destruct (objects_seen (B := B) (MA := MA) (MB := MB) t k) as [Hn Hp]. split.
  - intros w l. apply (Hn w l).
  - intros w m m' Hm. unfold obs_flags. simpl fst. f_equal; [by apply (Hp w m m')|].
    revert Hm. simpl. destruct (w_tasks w !! t) as [y|] eqn:Hy; [|done]. intros _. unfold flags. simpl.
    rewrite fmap_insert. apply insert_id. by rewrite lookup_fmap, Hy.
Qed.

(** A declaration of the code of the user that the system can represent, of another type than a
    reduction. *)
Definition dep_ok (i : depinfo) : Prop :=
  dep_type i ≠ REDUCTION_ACCESS_TYPE ∧ region_wf (mkRegion (dep_start i) (dep_length i)) ∧
  dep_symbolIndex i < 64.

(** What it says about an address. *)
Definition declaration (final taskloop : bool) (a : Z) (before : option (DataAccessType * bool))
    (i : depinfo) : option (DataAccessType * bool) :=
  if decide (dep_start i ≠ 0 ∧ dep_start i ≤ a < dep_start i + dep_length i)
  then declare (dep_type i) (dep_weak i && negb final && negb taskloop) before else before.

Lemma awp_register_access t final taskloop i l o :
  o.2 !! t = Some (final, taskloop) → objects t access_type o.1 = Some l → map_wf l →
  Forall (fresh t) l → dep_ok i →
  awp obs_flags (register_access mc t i)
    (λ _ o', ∃ l', o' = (put_objects t access_type l' o.1, o.2) ∧ map_wf l' ∧ Forall (fresh t) l' ∧
       ∀ a, declared l' a = declaration final taskloop a (declared l a) i) o.
Proof.
  intros Hfl Hl Hm Hf (Htype & Hr & Hsym). apply awp_bind. intros w <-.
  destruct (w_tasks w !! t) as [y|] eqn:Hy.
  2:{ simpl in Hfl. unfold flags in Hfl. by rewrite lookup_fmap, Hy in Hfl. }
  simpl in Hfl. unfold flags in Hfl. rewrite lookup_fmap, Hy in Hfl. injection Hfl as <- <-.
  eapply wp_read; [by rewrite Hy|]. pose proof Hr as [Hs [Hlen _]]. simpl in Hs, Hlen.
  destruct ((dep_start i =? 0) || (dep_length i =? 0)) eqn:E.
  - apply awp_ret. exists l. split_and!; [|done|done|].
    + unfold obs_flags. simpl fst. by rewrite put_objects_id.
    + intros a. unfold declaration. rewrite decide_False; [done|]. apply orb_true_iff in E as [E|E]; bool_hyps; lia.
  - bool_hyps. eapply awp_mono.
    + eapply (awp_registerTaskDataAccess t obs_flags _ _ (objects_seen_flags t access_type));
        [| | |exact Hl|done|done|exact Hr| |done|done].
      * intros l1 l2 [o f]. simpl. by rewrite put_objects_put.
      * intros l1 l2 [o f]. simpl. apply objects_put.
      * intros l1 [o f] Hl1. simpl in *. by rewrite put_objects_id.
      * simpl. lia.
    + intros [] o' (l' & Ho & Hm' & Hf' & Hd). exists l'. split_and!; [done..|].
      intros a. rewrite Hd. unfold declaration. simpl.
      repeat case_decide; try done; lia.
Qed.

(** All of them. *)
Lemma awp_register_accesses t final taskloop deps l o :
  o.2 !! t = Some (final, taskloop) → objects t access_type o.1 = Some l → map_wf l →
  Forall (fresh t) l → Forall dep_ok deps →
  awp obs_flags (st_iter (register_access mc t) deps)
    (λ _ o', ∃ l', o' = (put_objects t access_type l' o.1, o.2) ∧ map_wf l' ∧ Forall (fresh t) l' ∧
       ∀ a, declared l' a = fold_left (declaration final taskloop a) deps (declared l a)) o.
Proof.
  intros Hfl Hl Hm Hf Hdeps. revert l o Hfl Hl Hm Hf. induction Hdeps as [|i deps Hi _ IH]; intros l o Hfl Hl Hm Hf.
  - apply awp_ret. exists l. destruct o as [o f]. simpl in *. by rewrite put_objects_id.
  - apply awp_bind. eapply awp_mono; [by eapply awp_register_access|].
    intros [] o1 (l1 & -> & Hm1 & Hf1 & Hd1).
    eapply awp_mono; [apply (IH l1); [done|by eapply objects_put|done|done]|].
    intros [] o2 (l2 & -> & Hm2 & Hf2 & Hd2). exists l2. simpl. split_and!; [by rewrite put_objects_put|done|done|].
    intros a. by rewrite Hd2, Hd1.
Qed.
End register.
