(* ===== verification/FragmentedSteady.v ===== *)
(** * Fragmented region dependencies: what linking and propagation leave as declared

    Address by address the type and the weakness of the accesses of a task stay what the task has
    declared, however its accesses are fragmented; so does the number of addresses, which bounds the
    count of predecessors. *)

From S2P Require Import Prelude Region Boost RegionMap RegionMapProofs StateMonad.
From S2P Require Import IntrusiveRegionMap IntrusiveRegionMapProofs IntrusiveRegionMapViews.
From S2P Require Import DataAccessType FragmentedAccess ReductionInfo FragmentedWorld.
From S2P Require Import FragmentedDeps FragmentedProtocol FragmentedInvariant.
From S2P Require Import FragmentedPotential FragmentedObs FragmentedRun FragmentedPropagation.
From S2P Require Import FragmentedWaiting FragmentedContract FragmentedRegistration.
Local Open Scope Z_scope.

Section steady.
Context {B : Type} `{!DynamicBitset B} `{!DynamicBitsetLaws B}.
Context (par : nat → option nat).
Implicit Types (o : obs B) (d : DataAccess B) (l T : list (DataAccess B)).

(** ** The addresses of the accesses *)

Definition addresses l : gset Z := ⋃ ((λ d, list_to_set (seqZ (cstart d) (rlength (da_region d)))) <$> l).

Lemma elem_of_addresses l a : a ∈ addresses l ↔ declared l a ≠ None.
Proof.
  unfold addresses. rewrite elem_of_union_list. split.
  - intros (X & (d & -> & Hd)%list_elem_of_fmap & Ha). rewrite elem_of_list_to_set, elem_of_seqZ in Ha.
    unfold declared. rewrite fmap_None. intros Hn. assert (d ∈ filter (covers a) l) as Hin.
    { apply list_elem_of_filter. split; [|done]. unfold covers, cend, cstart in *. simpl in *. lia. }
    destruct (filter (covers a) l); [by apply not_elem_of_nil in Hin|done].
  - unfold declared. destruct (filter (covers a) l) as [|d l'] eqn:E; [done|]. intros _.
    assert (d ∈ filter (covers a) l) as [Hc Hd]%list_elem_of_filter by (rewrite E; by left).
    eexists. split; [apply list_elem_of_fmap; by exists d|]. rewrite elem_of_list_to_set, elem_of_seqZ.
    unfold covers, cend, cstart in *. simpl in *. lia.
Qed.

Lemma addresses_cons d l : addresses (d :: l) = list_to_set (seqZ (cstart d) (rlength (da_region d))) ∪ addresses l.
Proof. done. Qed.

Lemma size_interval s n : 0 ≤ n → Z.of_nat (size (list_to_set (seqZ s n) : gset Z)) = n.
Proof. intros Hn. rewrite size_list_to_set by apply NoDup_seqZ. rewrite length_seqZ. lia. Qed.

Lemma accesses_length_size l : map_wf l → accesses_length l = Z.of_nat (size (addresses l)).
Proof.
  unfold accesses_length. induction l as [|d l IH]; intros Hl; [done|].
  apply map_wf_cons in Hl as ([Hd Hp] & Hl & Hdl). simpl in Hp. rewrite sumZ_cons, addresses_cons, size_union.
  - rewrite Nat2Z.inj_add, size_interval, <- IH by (done || lia). done.
  - intros a. rewrite elem_of_list_to_set, elem_of_seqZ. intros Ha.
    rewrite elem_of_addresses. intros Hn. apply Hn, declared_none. intros c Hc Hca.
    specialize (Hdl c Hc). unfold covers, cend, cstart in *. simpl in *. lia.
Qed.

(** The same declarations make the same length. *)
Lemma declared_length l l' :
  map_wf l → map_wf l' → (∀ a, declared l' a = declared l a) → accesses_length l' = accesses_length l.
Proof.
  intros Hl Hl' He. rewrite !accesses_length_size by done. do 2 f_equal. apply set_eq. intros a.
  by rewrite !elem_of_addresses, He.
Qed.

(** Nothing is declared without accesses only. *)
Lemma declared_nil l : map_wf l → (∀ a, None = declared l a) → l = [].
Proof.
  destruct l as [|d l]; [done|]. intros ([_ Hp] & _ & _)%map_wf_cons Hn. simpl in Hp. specialize (Hn (cstart d)).
  rewrite declared_cons, decide_True in Hn; [done|]. unfold covers, cend, cstart. simpl. lia.
Qed.

Lemma declared_deps final taskloop deps a r :
  fold_left (declaration final taskloop a) deps r ≠ None →
  r ≠ None ∨ ∃ i, i ∈ deps ∧ dep_start i ≤ a < dep_start i + dep_length i.
Proof.
  revert r. induction deps as [|i deps IH]; intros r Hr; [by left|]. simpl in Hr.
  apply IH in Hr as [Hr|(j & Hj & Ha)]; [|right; exists j; split; [by right|done]].
  unfold declaration in Hr. case_decide as Hi; [|by left]. right. exists i. split; [by left|]. lia.
Qed.

(** No more addresses than the declarations have. *)
Lemma declarations_length final taskloop deps l :
  map_wf l → Forall dep_ok deps → (∀ a, declared l a = fold_left (declaration final taskloop a) deps None) →
  accesses_length l ≤ sumZ dep_length deps.
Proof.
  intros Hl Hdeps He. rewrite accesses_length_size by done.
  set (X := ⋃ ((λ i, list_to_set (seqZ (dep_start i) (dep_length i))) <$> deps) : gset Z).
  assert (addresses l ⊆ X) as Hsub.
  { intros a Ha. apply elem_of_addresses in Ha. rewrite He in Ha.
    apply declared_deps in Ha as [?|(i & Hi & Ha)]; [done|]. apply elem_of_union_list.
    eexists. split; [apply list_elem_of_fmap; by exists i|]. rewrite elem_of_list_to_set, elem_of_seqZ. lia. }
  apply subseteq_size in Hsub. transitivity (Z.of_nat (size X)); [lia|]. clear Hsub He. subst X.
  induction Hdeps as [|i deps (_ & (_ & Hlen & _) & _) _ IH]; [done|]. simpl in Hlen. rewrite fmap_cons, sumZ_cons. simpl.
  rewrite size_union_alt, Nat2Z.inj_add, size_interval by done. apply Z.add_le_mono_l. etrans; [|exact IH].
  apply inj_le, subseteq_size. set_solver.
Qed.

(** ** Steps *)

Lemma covers_region d d' a : da_region d' = da_region d → covers a d' ↔ covers a d.
Proof. intros Hr. unfold covers, cend, cstart. simpl. by rewrite Hr. Qed.

Lemma declared_fmap (f : DataAccess B → DataAccess B) l a :
  (∀ d, da_region (f d) = da_region d ∧ da_type (f d) = da_type d ∧ da_weak (f d) = da_weak d) →
  declared (f <$> l) a = declared l a.
Proof.
  intros Hf. induction l as [|d l IH]; [done|]. rewrite fmap_cons, !declared_cons, IH.
  destruct (Hf d) as (Hr & -> & ->). by apply decide_ext, covers_region.
Qed.

Lemma declared_new_pieces l1 d l2 fr a :
  content_wf d → region_wf fr → intersects fr d →
  declared (l1 ++ new_pieces d fr setRegistered ++ l2) a = declared (l1 ++ d :: l2) a.
Proof.
  intros Hd Hfr Hi. rewrite <- (declared_pieces l1 d l2 fr a Hd Hfr Hi). unfold new_pieces, pieces.
  rewrite !declared_app, !declared_cons. by rewrite !declared_fmap.
Qed.

Lemma declared_same l1 d d' l2 a :
  da_region d' = da_region d → da_type d' = da_type d → da_weak d' = da_weak d →
  declared (l1 ++ d' :: l2) a = declared (l1 ++ d :: l2) a.
Proof.
  intros Hr Ht Hw. rewrite !declared_app, !declared_cons, Ht, Hw.
  destruct (declared l1 a); [done|]. by apply decide_ext, covers_region.
Qed.

(** The accesses stay as declared. *)
Definition steady o o' : Prop :=
  ∀ t T T', objects t access_type o = Some T → objects t access_type o' = Some T' → ∀ a, declared T' a = declared T a.

Lemma steady_put o u k l l' :
  objects u k o = Some l → (k = access_type → ∀ a, declared l' a = declared l a) → steady o (put_objects u k l' o).
Proof.
  intros Hl Hd t T T' HT HT' a. destruct (decide (t = u ∧ map_kind access_type = map_kind k)) as [[-> Hk]|Hne].
  - assert (k = access_type) as -> by (by destruct k). rewrite (objects_put _ _ _ _ _ Hl) in HT'. injection HT' as <-.
    rewrite Hl in HT. injection HT as <-. by apply Hd.
  - rewrite objects_put_ne in HT' by done. congruence.
Qed.

Lemma steady_same o o' : (∀ t, objects t access_type o' = objects t access_type o) → steady o o'.
Proof. intros Hs t T T' HT. rewrite Hs. intros HT' a. congruence. Qed.

Lemma steady_view o o1 o2 : o_view o2 = o_view o1 → steady o o1 → steady o o2.
Proof. intros Hv Hs t T T' HT HT'. eapply Hs; [exact HT|]. by rewrite (objects_ext _ _ _ _ Hv) in HT'. Qed.

Lemma pstep_steady o o' : wf par o → pstep par o o' → steady o o'.
Proof.
  intros Hwf Hs. destruct Hs as [o u x k l1 d l2 fr Hx Hl Hfr Hi|o u x k l1 d d' l2 Hx Hl Hc
    |o u x l1 d l2 Hx Hl|o u x b Hx Htw Hb He].
  - assert (objects u k o = Some (l1 ++ d :: l2)) as Hu by (apply objects_view; eauto).
    destruct (wf_lookup _ _ _ _ _ _ _ _ Hwf Hx Hl) as (_ & Hd & _ & _).
    eapply steady_view; [apply split_view|]. eapply steady_put; [exact Hu|]. intros _ a. by apply declared_new_pieces.
  - assert (objects u k o = Some (l1 ++ d :: l2)) as Hu by (apply objects_view; eauto).
    eapply steady_view; [apply change_view|]. eapply steady_put; [exact Hu|]. intros _ a.
    destruct (co_same _ _ _ _ Hc) as (? & ? & _ & _ & ? & _). by apply declared_same.
  - eapply steady_put; [apply objects_view; eauto|done].
  - apply steady_same. intros t. apply objects_put_bottom.
Qed.

(** Steps of linking. *)
Definition lstep o o' : Prop := tstep par o o' ∧ steady o o'.
Notation lsteps := (rtc lstep).

Lemma psteps_lsteps o o' : wf par o → rtc (pstep par) o o' → lsteps o o'.
Proof.
  intros Hwf Hs. induction Hs as [|o o1 o2 Hs _ IH]; [done|].
  eapply rtc_l; [split; [by apply step_p|by apply pstep_steady]|]. apply IH. by eapply pstep_wf.
Qed.

Lemma lstep_bottom o t b : tstep par o (put_bottom t b o) → lstep o (put_bottom t b o).
Proof. intros Hs. split; [done|]. apply steady_same. intros u. apply objects_put_bottom. Qed.

Lemma lsteps_tsteps o o' : lsteps o o' → rtc (tstep par) o o'.
Proof. apply rtc_subrel. by intros ? ? [? _]. Qed.

Lemma lsteps_steady o o' : lsteps o o' → steady o o'.
Proof.
  induction 1 as [o|o o1 o2 [Ht Hs] _ IH]; [by apply steady_same|]. intros t T T' HT HT' a.
  pose proof HT as (x & Hx & _)%objects_view. destruct (proj2 (tstep_tasks par _ _ Ht t)) as [x1 Hx1]; [by exists x|].
  assert (objects t access_type o1 = Some (v_accesses x1)) as HT1 by (apply objects_view; by exists x1).
  by rewrite (IH t _ _ HT1 HT' a), (Hs t _ _ HT HT1 a).
Qed.

(** Once the accesses are linked, all the steps leave them as declared. *)
Lemma ostep_declared o o' t x x' :
  wf par o → ostep par o o' → o_view o !! t = Some x → linked x → o_view o' !! t = Some x' →
  ∀ a, declared (v_accesses x') a = declared (v_accesses x) a.
Proof.
  intros Hwf Hs Hx Hlk Hx' a.
  assert (objects t access_type o = Some (v_accesses x)) as HT by (apply objects_view; by exists x).
  assert (objects t access_type o' = Some (v_accesses x')) as HT' by (apply objects_view; by exists x').
  destruct Hs as [o o' Hs|o]; [|change (objects t access_type (obs_queue tail o)) with (objects t access_type o) in HT'; congruence].
  assert (∀ u y l, o_view o !! u = Some y → Forall (λ d, isRegistered d = false) (v_accesses y) →
    objects t access_type (put_objects u access_type l o) = Some (v_accesses x') →
    declared (v_accesses x') a = declared (v_accesses x) a) as Hunreg.
  { intros u y l Hy Hr Hobj. destruct (decide (u = t)) as [->|Hne].
    - assert (y = x) as -> by congruence. by destruct (unregistered_not_linked x).
    - rewrite objects_put_ne in Hobj by (intros [? _]; done). congruence. }
  destruct Hs as [o o' Hs|o u y l Hy Hl He|o u y k l1 d l2 Hy Hl Hk Hm Hd|o u y l1 d l2 Hy Hl Hr Hr0 Hm Hd
    |o u y l Hy Hm Ho Hr Hr'|o u y l1 d l2 b Hy Hl|o u y k l Hy Hk Hl].
  - by eapply pstep_steady.
  - rewrite objects_put_bottom in HT'. congruence.
  - eapply steady_put; [apply objects_view; by exists y| |exact HT|exact HT']. done.
  - eapply Hunreg; [exact Hy|done|exact HT'].
  - eapply Hunreg; [exact Hy|done|exact HT'].
  - eapply steady_put; [apply objects_view; by exists y| |exact HT|exact HT']. intros _ a'.
    change (v_objects access_type y) with (v_accesses y). rewrite Hl. by apply declared_same.
  - eapply steady_put; [apply objects_view; by exists y| |exact HT|exact HT']. done.
Qed.

(** ** A task that is held back *)

(** Steps that keep the number of addresses of a task. *)
Definition held_step (t : nat) o o' : Prop :=
  ostep par o o' ∧ ∀ x x', o_view o !! t = Some x → o_view o' !! t = Some x' →
    accesses_length (v_accesses x') = accesses_length (v_accesses x).

Lemma lsteps_held t o o' : wf par o → lsteps o o' → rtc (held_step t) o o'.
Proof.
  intros Hwf Hs. induction Hs as [|o o1 o2 [Ht Hs] _ IH]; [done|].
  pose proof (tstep_wf par _ _ Hwf Ht) as Hwf1. eapply rtc_l; [|by apply IH]. split; [by apply ostep_t|].
  intros x x' Hx Hx'. apply declared_length.
  - apply (vo_maps _ _ _ _ (wf_view _ _ Hwf _ _ Hx) access_type).
  - apply (vo_maps _ _ _ _ (wf_view _ _ Hwf1 _ _ Hx') access_type).
  - apply (Hs t); apply objects_view; eauto.
Qed.

Lemma osteps_held t o o' x extra :
  wf par o → counted extra o → rtc (ostep par) o o' → o_view o !! t = Some x → linked x → rtc (held_step t) o o'.
Proof.
  intros Hwf Hc Hs Hx Hlk. revert x Hx Hlk. induction Hs as [o|o o1 o2 Hs _ IH]; intros x Hx Hlk; [done|].
  destruct (ostep_counted par extra _ _ Hwf Hc Hs) as [Hc1 (a1 & _ & Ha1)].
  destruct (proj2 (ostep_tasks par _ _ Hs t)) as [x1 Hx1]; [by exists x|].
  eapply rtc_l; [split; [exact Hs|]|].
  - intros y y' Hy Hy'. assert (y = x) as -> by congruence. by eapply ostep_length.
  - apply (IH (ostep_wf par _ _ Hwf Hs) Hc1 x1); [done|]. by apply (Ha1 t x x1 Hx Hx1).
Qed.

(** It is not handed to the scheduler. *)
Lemma held_not_ready extra t o o' x :
  wf par o → counted extra o → 0 < extra t → o_view o !! t = Some x →
  extra t + accesses_length (v_accesses x) < 2 ^ 31 → rtc (held_step t) o o' →
  ∃ added, o_ready o' = o_ready o ++ added ∧ occ t added = 0%nat.
Proof.
  intros Hwf Hc He Hx Hsm Hs. revert x Hx Hsm. induction Hs as [o|o o1 o2 [Hs Hlen] _ IH]; intros x Hx Hsm.
  { exists []. by rewrite app_nil_r, occ_nil. }
  destruct (ostep_counted par extra _ _ Hwf Hc Hs) as [Hc1 (a1 & Hr1 & Ha1)].
  pose proof (ostep_wf par _ _ Hwf Hs) as Hwf1.
  destruct (proj2 (ostep_tasks par _ _ Hs t)) as [x1 Hx1]; [by exists x|].
  destruct (Ha1 t x x1 Hx Hx1) as [Hocc _]. specialize (Hlen x x1 Hx Hx1).
  destruct (IH Hwf1 Hc1 x1 Hx1) as (a2 & Hr2 & Ha2); [lia|].
  exists (a1 ++ a2). split; [by rewrite Hr2, Hr1, app_assoc|]. rewrite occ_app, Ha2, Hocc, decide_False; [done|].
  pose proof (unsatisfied_le par _ _ _ Hwf1 Hx1). intros [_ Hw]. rewrite wrap_int_small in Hw; unfold is_int; lia.
Qed.


Lemma osteps_declared extra o o' t x x' :
  wf par o → counted extra o → rtc (ostep par) o o' → o_view o !! t = Some x → linked x → o_view o' !! t = Some x' →
  linked x' ∧ ∀ a, declared (v_accesses x') a = declared (v_accesses x) a.
Proof.
  intros Hwf Hc Hs Hx Hlk Hx'. revert x Hx Hlk. induction Hs as [o|o o1 o2 Hs _ IH]; intros x Hx Hlk.
  { assert (x' = x) as -> by congruence. done. }
  destruct (ostep_counted par extra _ _ Hwf Hc Hs) as [Hc1 (a1 & _ & Ha1)].
  destruct (proj2 (ostep_tasks par _ _ Hs t)) as [x1 Hx1]; [by exists x|].
  assert (linked x1) as Hlk1 by (by apply (Ha1 t x x1 Hx Hx1)).
  destruct (IH (ostep_wf par _ _ Hwf Hs) Hc1 Hx' x1 Hx1 Hlk1) as [Hlk2 Hd2]. split; [done|].
  intros a. rewrite Hd2. by eapply ostep_declared.
Qed.
End steady.
