(* ===== verification/FragmentedCoverage.v ===== *)
(** * Fragmented region dependencies: the bottom map covers the subaccesses

    An access of a task has subaccesses when children have been linked inside it.  From then on every
    address of it has an entry in the bottom map of the task, until a taskwait; before, neither an
    entry nor a fragment meets it.  Linking a child relies on that, and keeps it up: it removes the
    entries in the region of the new access from left to right and adds one for the whole. *)

From S2P Require Import Prelude Region Boost RegionMap RegionMapProofs StateMonad.
From S2P Require Import IntrusiveRegionMap IntrusiveRegionMapProofs IntrusiveRegionMapViews.
From S2P Require Import DataAccessType FragmentedAccess ReductionInfo FragmentedWorld.
From S2P Require Import FragmentedDeps FragmentedProtocol FragmentedInvariant.
From S2P Require Import FragmentedPotential FragmentedObs.
Local Open Scope Z_scope.

(** ** Regions inside and apart of each other *)

Section regions.
Context {C C' : Type} `{!RegionContent C} `{!RegionContent C'}.

Definition inside (c : C) (d : C') : Prop := cstart d ≤ cstart c ∧ cend c ≤ cend d.
Definition apart (c : C) (d : C') : Prop := cend c ≤ cstart d ∨ cend d ≤ cstart c.
End regions.

Lemma apart_inside {C1 C2 C3 : Type} `{!RegionContent C1} `{!RegionContent C2} `{!RegionContent C3}
    (c : C1) (d : C2) (e : C3) : inside d e → apart c e → apart c d.
Proof. unfold inside, apart. lia. Qed.

Lemma map_wf_apart {C : Type} `{!RegionContent C} (l1 : list C) n l2 c :
  map_wf (l1 ++ n :: l2) → c ∈ l1 ++ l2 → apart c n.
Proof.
  intros (_ & (_ & _ & H2)%map_wf_cons & H12)%map_wf_app [Hc|Hc]%elem_of_app.
  - left. apply H12; [done|by left].
  - right. by apply H2.
Qed.

Lemma cstart_cend {C : Type} `{!RegionContent C} (c : C) : content_wf c → cstart c < cend c.
Proof. intros [_ Hc]. unfold cend. lia. Qed.

(** What is left of an object when its part in a region is taken out. *)
Lemma rest_bounds {C : Type} `{!RegionContent C} (e : C) region :
  content_wf e → region_wf region → intersects region e →
  ∀ c, c ∈ left_piece e region ++ right_piece e region →
  inside c e ∧ (cend c ≤ startAddress region ∨
                Z.min (cend e) (startAddress region + rlength region) ≤ cstart c).
Proof.
  intros He Hr Hi%intersects_spec; [|done..]. pose proof (cstart_cend e He) as Hlt.
  intros c. unfold left_piece, right_piece, cut_start, cut_end.
  rewrite elem_of_app. intros [Hc|Hc]; case_match; try (by apply not_elem_of_nil in Hc); bool_hyps;
    apply list_elem_of_singleton in Hc as ->;
    unfold inside; rewrite ?(proj1 (bounds_cut e _ _)), ?(proj2 (bounds_cut e _ _)); lia.
Qed.

(** ** Fragmentation refines a map *)

Section refines.
Context {B : Type} `{!DynamicBitset B} `{!DynamicBitsetLaws B}.
Context (par : nat → option nat).
Implicit Types (o : obs B) (d : DataAccess B) (l : list (DataAccess B)).

Definition refines l' l : Prop :=
  ∀ c, c ∈ l' → ∃ d, d ∈ l ∧ inside c d ∧ hasSubaccesses c = hasSubaccesses d.

Lemma refines_refl l : refines l l.
Proof. intros c Hc. exists c. split_and!; [done|split; lia|done]. Qed.

Lemma refines_trans l1 l2 l3 : refines l1 l2 → refines l2 l3 → refines l1 l3.
Proof.
  intros H1 H2 c (d & Hd & [? ?] & ->)%H1. apply H2 in Hd as (e & He & [? ?] & ->). exists e. split_and!; [done|split; lia|done].
Qed.

Lemma refines_middle l1 l l' l2 : refines l' l → refines (l1 ++ l' ++ l2) (l1 ++ l ++ l2).
Proof.
  intros Hl c. rewrite !elem_of_app. intros [Hc|[Hc|Hc]].
  - exists c. split_and!; [set_solver|split; lia|done].
  - apply Hl in Hc as (d & Hd & Hi). exists d. split; [set_solver|done].
  - exists c. split_and!; [set_solver|split; lia|done].
Qed.

Lemma new_pieces_refine d fr :
  content_wf d → region_wf fr → intersects fr d → refines (new_pieces d fr setRegistered) [d].
Proof.
  intros Hd Hfr Hi c Hc. exists d. split; [by left|].
  assert (∃ c', c' ∈ pieces d fr ∧ da_region c = da_region c' ∧ hasSubaccesses c = hasSubaccesses c') as (c' & Hc' & He & Hs).
  { unfold new_pieces in Hc. unfold pieces. apply elem_of_app in Hc as [Hc|[->|Hc]%elem_of_cons].
    - apply list_elem_of_fmap in Hc as (c' & -> & Hc). exists c'. set_solver.
    - exists (middle_piece d fr). set_solver.
    - apply list_elem_of_fmap in Hc as (c' & -> & Hc). exists c'. set_solver. }
  destruct (pieces_bounds d fr c' Hfr Hd Hi Hc') as (_ & ? & ?). rewrite Hs. split.
  - unfold inside, cend, cstart in *. simpl in *. rewrite He. done.
  - unfold pieces, left_piece, right_piece, middle_piece in Hc'. repeat case_match; set_solver.
Qed.

Lemma objects_put_refines o t k u k' l l' l0 :
  objects u k' o = Some l0 → refines l' l0 → objects t k o = Some l →
  ∃ l1, objects t k (put_objects u k' l' o) = Some l1 ∧ refines l1 l.
Proof.
  intros Hu Hr Hl. destruct (decide (t = u ∧ map_kind k = map_kind k')) as [[-> Hk]|Hne].
  - rewrite (objects_kind u k k' _ Hk) in Hl. rewrite (objects_kind u k k' _ Hk). exists l'. split; [by eapply objects_put|].
    rewrite Hu in Hl. by injection Hl as <-.
  - exists l. split; [|apply refines_refl]. by rewrite objects_put_ne.
Qed.

Lemma pstep_refines o o' t k l :
  wf par o → pstep par o o' → objects t k o = Some l → ∃ l', objects t k o' = Some l' ∧ refines l' l.
Proof.
  intros Hwf Hs Hl. destruct Hs as [o u x k' l1 d l2 fr Hx Hlx Hfr Hi|o u x k' l1 d d' l2 Hx Hlx Hc
    |o u x l1 d l2 Hx Hlx|o u x b Hx Htw Hb He].
  - assert (objects u k' o = Some (l1 ++ d :: l2)) as Hu by (apply objects_view; eauto).
    destruct (wf_lookup _ _ _ _ _ _ _ _ Hwf Hx Hlx) as (_ & Hd & _ & _).
    rewrite (objects_ext _ _ (put_objects u k' (l1 ++ new_pieces d fr setRegistered ++ l2) o)) by apply split_view.
    eapply objects_put_refines; [exact Hu| |done]. apply (refines_middle l1 [d]). by apply new_pieces_refine.
  - assert (objects u k' o = Some (l1 ++ d :: l2)) as Hu by (apply objects_view; eauto).
    rewrite (objects_ext _ _ (put_objects u k' (l1 ++ d' :: l2) o)) by apply change_view.
    eapply objects_put_refines; [exact Hu| |done]. apply (refines_middle l1 [d] [d']).
    intros c ->%list_elem_of_singleton. exists d. split; [by left|].
    destruct (co_same _ _ _ _ Hc) as (_ & _ & _ & _ & He & ->). unfold inside, cend, cstart. simpl. rewrite He.
    split; [lia|done].
  - assert (objects u taskwait_type o = Some (l1 ++ d :: l2)) as Hu by (apply objects_view; eauto).
    eapply objects_put_refines; [exact Hu| |done]. intros c Hc. exists c. split_and!; [set_solver|split; lia|done].
  - exists l. rewrite objects_put_bottom. split; [done|apply refines_refl].
Qed.

Lemma psteps_refines o o' t k l :
  wf par o → rtc (pstep par) o o' → objects t k o = Some l → ∃ l', objects t k o' = Some l' ∧ refines l' l.
Proof.
  intros Hwf Hs. revert l. induction Hs as [o|o o1 o2 Hs _ IH]; intros l Hl; [exists l; split; [done|apply refines_refl]|].
  destruct (pstep_refines _ _ _ _ _ Hwf Hs Hl) as (l1 & Hl1 & Hr1).
  destruct (IH (pstep_wf _ _ _ Hwf Hs) l1 Hl1) as (l2 & Hl2 & Hr2). exists l2. split; [done|by eapply refines_trans].
Qed.

(** ** Coverage *)

(** The addresses in [rs, b) have been unlinked for the time being. *)
Record coverage (A F : list (DataAccess B)) (Bm : list BottomMapEntry) (rs b : Z) : Prop := {
  cov_sub a x : a ∈ A → hasSubaccesses a = true → cstart a ≤ x < cend a →
    (∃ e, e ∈ Bm ∧ cstart e ≤ x < cend e) ∨ rs ≤ x < b;
  cov_free a : a ∈ A → hasSubaccesses a = false →
    (∀ e, e ∈ Bm → apart a e) ∧ (∀ f, f ∈ F → apart a f) ∧ (b ≤ rs ∨ cend a ≤ rs ∨ b ≤ cstart a);
}.

Lemma coverage_idle A F Bm rs b rs' b' : coverage A F Bm rs b → b ≤ rs → b' ≤ rs' → coverage A F Bm rs' b'.
Proof.
  intros [Hs Hf] Hb Hb'. split.
  - intros a x Ha Has Hx. destruct (Hs a x Ha Has Hx) as [?|?]; [by left|lia].
  - intros a Ha Has. destruct (Hf a Ha Has) as (H1 & H2 & _). split_and!; [done|done|by left].
Qed.

Lemma coverage_refine A F F' Bm rs b : coverage A F Bm rs b → refines F' F → coverage A F' Bm rs b.
Proof.
  intros [Hs Hf] Hr. split; [done|]. intros a Ha Has. destruct (Hf a Ha Has) as (H1 & H2 & H3).
  split_and!; [done| |done]. intros f' (f & Hin & Hi & _)%Hr. apply (apart_inside _ _ f); auto.
Qed.

Lemma coverage_split A A' F Bm rs b : coverage A F Bm rs b → refines A' A → coverage A' F Bm rs b.
Proof.
  intros [Hs Hf] Hr. split.
  - intros a' x (a & Ha & [? ?] & Hsub)%Hr Has Hx. apply (Hs a); [done|congruence|lia].
  - intros a' (a & Ha & Hi & Hsub)%Hr Has. destruct (Hf a Ha) as (H1 & H2 & H3); [congruence|]. split_and!.
    + intros e He. specialize (H1 e He). unfold apart, inside in *. lia.
    + intros f Hin. specialize (H2 f Hin). unfold apart, inside in *. lia.
    + unfold inside in Hi. lia.
Qed.

(** The part of an entry in the region goes. *)
Lemma coverage_unlink A F b1 e b2 region :
  map_wf A → coverage A F (b1 ++ e :: b2) (startAddress region) (Z.max (startAddress region) (cstart e)) →
  content_wf e → region_wf region → intersects region e →
  coverage A F (b1 ++ (left_piece e region ++ right_piece e region) ++ b2) (startAddress region)
    (Z.min (cend e) (startAddress region + rlength region)).
Proof.
  intros HA [Hs Hf] He Hr Hi. pose proof (cstart_cend e He) as Hlt.
  pose proof (rest_bounds e region He Hr Hi) as Hin. apply intersects_spec in Hi; [|done|done].
  split.
  - intros a x Ha Has Hx. destruct (Hs a x Ha Has Hx) as [(c & Hc & Hcx)|Hd]; [|right; lia].
    apply elem_of_app in Hc as [Hc|[->|Hc]%elem_of_cons]; [left; exists c; set_solver| |left; exists c; set_solver].
    destruct (decide (x < cut_start e region)) as [H1|H1].
    { left. exists (cut e (cstart e) (cut_start e region)). split.
      - unfold left_piece. rewrite (proj2 (Z.ltb_lt _ _)) by lia. set_solver.
      - destruct (bounds_cut e (cstart e) (cut_start e region)) as [-> ->]. lia. }
    destruct (decide (cut_end e region ≤ x)) as [H2|H2].
    { left. exists (cut e (cut_end e region) (cend e)). split.
      - unfold right_piece. rewrite (proj2 (Z.ltb_lt _ _)) by lia. set_solver.
      - destruct (bounds_cut e (cut_end e region) (cend e)) as [-> ->]. lia. }
    right. unfold cut_start, cut_end in *. lia.
  - intros a Ha Has. destruct (Hf a Ha Has) as (H1 & H2 & H3). split_and!; [|done|].
    + intros c. rewrite !elem_of_app. intros [Hc|[Hc|Hc]]; [apply H1; set_solver| |apply H1; set_solver].
      apply elem_of_app in Hc. apply (apart_inside _ _ e); [by apply Hin|]. apply H1, elem_middle.
    + pose proof (cstart_cend a (map_wf_elem _ _ HA Ha)). destruct (H1 e (elem_middle _ _ _)) as [?|?]; lia.
Qed.

(** A part of the region that the task has no access to. *)
Lemma coverage_gap A F Bm rs b b' :
  map_wf A → coverage A F Bm rs b → rs ≤ b → (∀ a, a ∈ A → cend a ≤ b ∨ b' ≤ cstart a) → b ≤ b' →
  coverage A F Bm rs b'.
Proof.
  intros HA [Hs Hf] Hrs Hgap Hb. split.
  - intros a x Ha Has Hx. destruct (Hs a x Ha Has Hx) as [?|?]; [by left|right; lia].
  - intros a Ha Has. destruct (Hf a Ha Has) as (H1 & H2 & H3). split_and!; [done|done|].
    pose proof (cstart_cend a (map_wf_elem _ _ HA Ha)). specialize (Hgap a Ha). lia.
Qed.

(** An access of the task gets its first subaccess. *)
Lemma coverage_fragment a1 n a2 F F' f Bm Bm' rs g1 g2 n' :
  map_wf (a1 ++ n :: a2) → coverage (a1 ++ n :: a2) F Bm rs (Z.max g1 (cstart n)) → rs ≤ g1 → g1 < g2 →
  hasSubaccesses n' = true → da_region n' = da_region n → da_region f = da_region n →
  g1 < cend n → cstart n < g2 →
  refines F' (f :: F) →
  (∀ e, e ∈ Bm → e ∈ Bm') → (∀ e, e ∈ Bm' → e ∈ Bm ∨ inside e n) →
  (∀ x, cstart n ≤ x < cend n → x < g1 ∨ g2 ≤ x → ∃ e, e ∈ Bm' ∧ cstart e ≤ x < cend e) →
  coverage (a1 ++ n' :: a2) F' Bm' rs (Z.min (cend n) g2).
Proof.
  intros HA [Hs Hf] Hrs Hg Hn' Hr' Hrf Hlt1 Hlt2 HF' Hsub Hnew Hcov.
  assert (cstart n' = cstart n ∧ cend n' = cend n) as [Hs' He'] by (unfold cend, cstart; simpl; by rewrite Hr').
  pose proof (cstart_cend n (map_wf_elem _ _ HA (elem_middle _ _ _))) as Hne.
  split.
  - intros a x Ha Has Hx. assert (a ∈ a1 ++ a2 ∨ a = n') as [Hin| ->] by set_solver.
    + destruct (Hs a x) as [(e & He & Hex)|Hd]; [set_solver|done|done|left; exists e; auto|right; lia].
    + rewrite Hs', He' in Hx.
      destruct (decide (x < g1 ∨ g2 ≤ x)) as [Ho|Ho]; [left; auto|right; lia].
  - intros a Ha Has. assert (a ∈ a1 ++ a2) as Hin.
    { apply elem_of_app in Ha as [Ha|[->|Ha]%elem_of_cons]; [set_solver|congruence|set_solver]. }
    destruct (Hf a) as (H1 & H2 & H3); [set_solver|done|].
    pose proof (map_wf_apart _ _ _ _ HA Hin) as Hap. split_and!.
    + intros e [He|He]%Hnew; [auto|by apply (apart_inside _ _ n)].
    + intros f' (d & Hd & Hi & _)%HF'. apply (apart_inside _ _ d); [exact Hi|].
      apply elem_of_cons in Hd as [->|Hd]; [|auto]. unfold apart, cend, cstart in *. simpl in *. rewrite Hrf. exact Hap.
    + assert (a ∈ a1 ++ n :: a2) as Ha' by set_solver.
      pose proof (cstart_cend a (map_wf_elem _ _ HA Ha')). unfold apart in Hap. lia.
Qed.

(** The entry of the new access takes the place of those that have gone. *)
Lemma coverage_link A F b1 b2 rs b e rs' :
  map_wf A → coverage A F (b1 ++ b2) rs b → cstart e = rs → cend e = b → rs < b →
  coverage A F (b1 ++ e :: b2) rs' rs'.
Proof.
  intros HA [Hs Hf] Hes Hee Hlt. split.
  - intros a x Ha Has Hx. left. destruct (Hs a x Ha Has Hx) as [(c & Hc & Hcx)|Hd].
    + exists c. split; [set_solver|done].
    + exists e. split; [apply elem_middle|lia].
  - intros a Ha Has. destruct (Hf a Ha Has) as (H1 & H2 & H3). split_and!; [|done|lia].
    intros c [Hc|[->|Hc]%elem_of_cons]%elem_of_app; [apply H1; set_solver| |apply H1; set_solver].
    unfold apart. lia.
Qed.

(** Propagation keeps that while the task is not in a taskwait. *)
Lemma psteps_covered t o o' A F Bm :
  wf par o → rtc (pstep par) o o' → objects t access_type o = Some A → objects t fragment_type o = Some F →
  objects t taskwait_type o = Some [] → bottom t o = Some Bm → coverage A F Bm 0 0 →
  ∃ A' F', objects t access_type o' = Some A' ∧ objects t fragment_type o' = Some F' ∧
    objects t taskwait_type o' = Some [] ∧ bottom t o' = Some Bm ∧ coverage A' F' Bm 0 0.
Proof.
  intros Hwf Hs HA HF Htw HB Hc.
  destruct (psteps_refines _ _ t access_type A Hwf Hs HA) as (A' & HA' & HrA).
  destruct (psteps_refines _ _ t fragment_type F Hwf Hs HF) as (F' & HF' & HrF).
  destruct (psteps_refines _ _ t taskwait_type [] Hwf Hs Htw) as (T' & HT' & HrT).
  assert (T' = []) as ->.
  { destruct T' as [|c T']; [done|]. destruct (HrT c) as (d & Hd & _); [by left|]. by apply not_elem_of_nil in Hd. }
  exists A', F'. split_and!; [done..| |by eapply coverage_refine; [eapply coverage_split|]].
  clear HA' HF' HT' HrA HrF HrT HA HF Hc A A' F F'. induction Hs as [|o o1 o2 Hs _ IH]; [done|].
  apply IH; [by eapply pstep_wf| |].
  - destruct (pstep_refines _ _ t taskwait_type [] Hwf Hs Htw) as (T' & HT' & HrT). rewrite HT'.
    destruct T' as [|c T']; [done|]. destruct (HrT c) as (d & Hd & _); [by left|]. by apply not_elem_of_nil in Hd.
  - destruct Hs as [o u x k l1 d l2 fr Hx Hlx Hfr Hi|o u x k l1 d d' l2 Hx Hlx Hc
      |o u x l1 d l2 Hx Hlx|o u x b Hx Htw' Hb He].
    + unfold bottom. rewrite (proj1 (split_view u k l1 d l2 fr o)). fold (bottom t (put_objects u k (l1 ++ new_pieces d fr setRegistered ++ l2) o)).
      by rewrite bottom_put_objects.
    + unfold bottom. rewrite (proj1 (change_view par u k l1 d d' l2 o)). fold (bottom t (put_objects u k (l1 ++ d' :: l2) o)).
      by rewrite bottom_put_objects.
    + by rewrite bottom_put_objects.
    + destruct (decide (u = t)) as [->|Hne].
      * pose proof Htw as (x' & Hx' & Hv)%objects_view. assert (x' = x) as -> by congruence. done.
      * unfold bottom. simpl. by rewrite lookup_alter_ne.
Qed.
End refines.
