(* ===== verification/FragmentedInitial.v ===== *)
(** * Fragmented region dependencies: the first fragment of an access

    When a child is linked inside an access of its parent that has no subaccesses yet,
    [createInitialFragment] makes a fragment of the access, and adds entries of the bottom map for
    what is outside of the region of the child. *)

From S2P Require Import Prelude Region Boost RegionMap RegionMapProofs StateMonad.
From S2P Require Import IntrusiveRegionMap IntrusiveRegionMapProofs IntrusiveRegionMapViews.
From S2P Require Import DataAccessType FragmentedAccess ReductionInfo FragmentedWorld.
From S2P Require Import FragmentedDeps FragmentedProtocol FragmentedInvariant.
From S2P Require Import FragmentedPotential FragmentedObs FragmentedRun FragmentedPropagation.
From S2P Require Import FragmentedWaiting FragmentedRegistration FragmentedSteady FragmentedCoverage.
Local Open Scope Z_scope.

(** ** Maps *)

Section maps.
Context {C : Type} `{!RegionContent C}.
Implicit Types (c e : C) (l : list C).

(** An object apart from those of a map has a place in it. *)
Lemma map_wf_place l c :
  map_wf l → content_wf c → (∀ d, d ∈ l → apart c d) → ∃ l1 l2, l = l1 ++ l2 ∧ map_wf (l1 ++ c :: l2).
Proof.
  intros Hl Hc. pose proof (cstart_cend c Hc). induction l as [|d l IH]; intros Ha.
  - exists [], []. split; [done|]. apply map_wf_cons. split_and!; [done|apply map_wf_nil|set_solver].
  - pose proof Hl as (Hd & Hl' & Hdl)%map_wf_cons. destruct (Ha d ltac:(by left)) as [Hcd|Hdc].
    + exists [], (d :: l). split; [done|]. apply map_wf_cons. split_and!; [done|done|].
      pose proof (cstart_cend d Hd). intros e [->|He]%elem_of_cons; [done|]. specialize (Hdl e He). lia.
    + destruct IH as (l1 & l2 & -> & Hw); [done|set_solver|]. exists (d :: l1), l2. split; [done|].
      apply map_wf_cons. split_and!; [done|done|]. intros e He.
      assert (e = c ∨ e ∈ l1 ++ l2) as [->|He'] by set_solver; [done|auto].
Qed.

(** The part of an object outside of a region. *)
Lemma rest_covers e region x :
  content_wf e → region_wf region → intersects region e → cstart e ≤ x < cend e →
  x < startAddress region ∨ startAddress region + rlength region ≤ x →
  ∃ c, c ∈ left_piece e region ++ right_piece e region ∧ cstart c ≤ x < cend c.
Proof.
  intros He Hr Hi Hx Hor. apply intersects_spec in Hi; [|done|done]. destruct Hor as [Hlt|Hge].
  - exists (cut e (cstart e) (cut_start e region)). unfold left_piece, cut_start in *.
    rewrite (proj2 (Z.ltb_lt _ _)) by lia. split; [set_solver|].
    destruct (bounds_cut e (cstart e) (Z.max (cstart e) (startAddress region))) as [-> ->]. lia.
  - exists (cut e (cut_end e region) (cend e)). unfold right_piece, cut_end in *.
    rewrite (proj2 (Z.ltb_lt _ _)) by lia. split; [set_solver|].
    destruct (bounds_cut e (Z.min (cend e) (startAddress region + rlength region)) (cend e)) as [-> ->]. lia.
Qed.
End maps.

(** The rest of an entry has its link and type. *)
Lemma rest_entry e region c :
  c ∈ left_piece e region ++ right_piece e region →
  bme_link c = bme_link e ∧ bme_accessType c = bme_accessType e.
Proof.
  unfold left_piece, right_piece. rewrite elem_of_app.
  intros [Hc|Hc]; case_match; try (by apply not_elem_of_nil in Hc); by apply list_elem_of_singleton in Hc as ->.
Qed.

Section initial.
Context {B : Type} `{!DynamicBitset B} `{!DynamicBitsetLaws B}.
Context {MA : Type} `{!AvlSet (DataAccess B) node_key MA} `{!AvlSetLaws (DataAccess B) node_key MA}.
Context {MB : Type} `{!AvlSet BottomMapEntry node_key MB} `{!AvlSetLaws BottomMapEntry node_key MB}.
Context (mc : machine) (par : nat → option nat).
Notation owp := (awp (obs_of (B := B) (MA := MA) (MB := MB))).
Notation lsteps := (rtc (lstep par)).
Implicit Types (o : obs B) (d : DataAccess B) (e : BottomMapEntry).

(** ** The entries outside of the region *)

Definition whole_entry d : BottomMapEntry :=
  mkBottomMapEntry (da_region d) (mkLink (da_originator d) fragment_type) (da_type d).

Lemma excluded_closed d region :
  content_wf d → region_wf region → intersects region d →
  excluded_entries d region = left_piece (whole_entry d) region ++ right_piece (whole_entry d) region.
Proof.
  intros Hd Hr Hi. assert (content_wf (whole_entry d)) as He by exact Hd.
  unfold excluded_entries, left_piece, right_piece, cut_start, cut_end, cut, cend, cstart. simpl.
  destruct (region_neqb region (da_region d)) eqn:E.
  - assert (empty (intersect (da_region d) region) = false) as Hne.
    { apply empty_intersect; [apply Hd|done|]. apply intersects_spec in Hi; [|done|done].
      unfold cend, cstart in Hi. simpl in *. destruct Hd as [_ Hp]. simpl in Hp. unfold region_wf in *. lia. }
    rewrite processIntersectingFragments_closed by (done || apply Hd). simpl.
    repeat case_match; done.
  - unfold region_neqb in E. apply orb_false_iff in E as [E1%negb_false_iff%Z.eqb_eq E2%negb_false_iff%Z.eqb_eq].
    rewrite E1, E2. by rewrite Z.max_id, Z.min_id, !Z.ltb_irrefl.
Qed.

(** Entries are inserted one after the other. *)
Lemma owp_insert_entries t l b1 b2 (Q : unit → obs B → Prop) o :
  bottom t o = Some (b1 ++ b2) → map_wf (b1 ++ l ++ b2) → Q tt (put_bottom t (b1 ++ l ++ b2) o) →
  owp (st_iter (map_insert (bottomMap_of t)) l) Q o.
Proof.
  revert b1 o. induction l as [|c l IH]; intros b1 o Hb Hm HQ; simpl in *.
  - apply awp_ret. by rewrite put_bottom_id in HQ.
  - apply awp_bind. eapply (awp_map_insert _ _ _ _ (bottom_seen t) b1 c b2); [exact Hb| |].
    + eapply map_wf_sublist; [|exact Hm]. apply sublist_app; [done|]. apply sublist_skip. by apply sublist_inserts_l.
    + apply (IH (b1 ++ [c])).
      * rewrite <- app_assoc. by eapply bottom_put.
      * by rewrite <- app_assoc.
      * by rewrite put_bottom_put, <- app_assoc.
Qed.

(** ** The fragment *)

Definition initial_copy d : DataAccess B :=
  inheritFragmentStatus d
    (new_DataAccess (mc_totalCPUs mc) fragment_type (da_type d) (da_weak d) (da_originator d)
       (da_region d) (da_reductionTypeAndOperatorIndex d) (da_reductionIndex d)).
Definition first_fragment d : DataAccess B := setRegistered (setTopmost (setInBottomMap (initial_copy d))).

(** As [handleDataAccessStatusChanges] sees it before. *)
Definition blank_fragment d : DataAccess B :=
  update_status (λ _, set_st_inBottomMap true no_status) (first_fragment d).

Lemma initial_copy_fields d :
  plain d →
  let f := initial_copy d in
  da_type f = da_type d ∧ da_weak f = da_weak d ∧ da_originator f = da_originator d ∧
  da_objectType f = fragment_type ∧ da_region f = da_region d ∧ da_next f = None ∧
  hasSubaccesses f = false ∧ plain f.
Proof.
  intros (H1 & H2 & H3 & H4 & H5) f. unfold plain, f, initial_copy, inheritFragmentStatus.
  rewrite H2, H3, H4. rewrite (bool_decide_eq_false_2 (None ≠ None)) by auto.
  repeat case_match; done.
Qed.

Lemma first_fragment_ok o t d :
  object_ok o t access_type d →
  object_ok o t fragment_type (setInBottomMap (initial_copy d)) ∧
  object_ok o t fragment_type (blank_fragment d) ∧
  change_ok o fragment_type (setInBottomMap (initial_copy d)) (first_fragment d) ∧
  change_ok o fragment_type (blank_fragment d) (first_fragment d) ∧
  effects par (blank_fragment d) = no_effects.
Proof.
  intros [Ho _ Hp _ _ _]. destruct (initial_copy_fields d Hp) as (Ht & Hw & Hor & Hk & Hr & Hn & Hs & Hpl).
  unfold blank_fragment, first_fragment. rewrite Ho in Hor.
  revert Ht Hw Hor Hk Hr Hn Hs Hpl. generalize (initial_copy d). clear Ho Hp. intros f Ht Hw Hor Hk Hr Hn Hs Hpl.
  pose proof Hpl as (Hp1 & Hp2 & Hp3 & Hp4 & Hp5).
  assert (∀ c : DataAccess B, da_objectType c = fragment_type → enforcesDependency c = false) as Hen
    by (intros c Hc; apply enforces_other; by rewrite Hc).
  split_and!.
  - split; simpl; try congruence; try done.
    + by rewrite Hk.
    + intros He. change (hasSubaccesses f = true) in He. congruence.
  - split; simpl; try congruence; try done. by rewrite Hk.
  - split; try done.
    + repeat constructor; simpl; try apply implb_same; apply implb_true_r.
    + right. by rewrite !Hen.
    + simpl. rewrite Hn. done.
  - split; try done.
    + repeat constructor; simpl; apply implb_same.
    + right. by rewrite !Hen.
    + simpl. rewrite Hn. done.
  - unfold effects, makesNextTopmost, propagatesTopLevel, hasNext. simpl. rewrite Hn. simpl.
    rewrite Hen by done. unfold no_effects. f_equal. unfold satisfied. simpl. by destruct (da_type _).
Qed.


Lemma first_fragment_fields d :
  plain d →
  da_objectType (first_fragment d) = fragment_type ∧ da_next (first_fragment d) = None ∧
  hasSubaccesses (first_fragment d) = false ∧
  da_objectType (blank_fragment d) = fragment_type ∧ hasSubaccesses (blank_fragment d) = false.
Proof.
  intros (_ & _ & _ & Hk & _ & Hn & Hs & _)%initial_copy_fields. unfold blank_fragment, first_fragment.
  revert Hk Hn Hs. generalize (initial_copy d). intros f. by destruct f as [? ? ? ? ? []].
Qed.

(** ** [createInitialFragment] *)

Section create.
Context (t : nat) (a1 : list (DataAccess B)) (d : DataAccess B) (a2 f1 f2 : list (DataAccess B)).
Context (b1 b2 : list BottomMapEntry) (region : DataAccessRegion) (o : obs B).
Context (Hwf : wf par o) (HA : objects t access_type o = Some (a1 ++ d :: a2)).
Context (HF : objects t fragment_type o = Some (f1 ++ f2)) (HFm : map_wf (f1 ++ first_fragment d :: f2)).
Context (HB : bottom t o = Some (b1 ++ b2)) (HBm : map_wf (b1 ++ excluded_entries d region ++ b2)).
Context (HBok : Forall (entry_ok par o t) (b1 ++ excluded_entries d region ++ b2)).

Definition with_copy : obs B :=
  put_bottom t (b1 ++ excluded_entries d region ++ b2)
    (put_objects t access_type (a1 ++ setHasSubaccesses d :: a2)
      (put_objects t fragment_type (f1 ++ setInBottomMap (initial_copy d) :: f2) o)).
Definition with_fragment : obs B := put_objects t fragment_type (f1 ++ first_fragment d :: f2) with_copy.

Lemma object_first : object_ok o t access_type d.
Proof.
  pose proof HA as (x & Hx & Hlx)%objects_view. by destruct (wf_lookup _ _ _ _ _ _ _ _ Hwf Hx Hlx) as (_ & _ & ? & _).
Qed.

Lemma copy_region : da_region (initial_copy d) = da_region d.
Proof. apply initial_copy_fields, object_first. Qed.

Lemma copy_wf : map_wf (f1 ++ setInBottomMap (initial_copy d) :: f2).
Proof. eapply map_wf_ext; [|exact HFm]. by rewrite !fmap_app, !fmap_cons. Qed.

Lemma with_copy_objects :
  objects t fragment_type with_copy = Some (f1 ++ setInBottomMap (initial_copy d) :: f2) ∧
  objects t access_type with_copy = Some (a1 ++ setHasSubaccesses d :: a2) ∧
  bottom t with_copy = Some (b1 ++ excluded_entries d region ++ b2).
Proof.
  unfold with_copy. rewrite !objects_put_bottom. split_and!.
  - rewrite objects_put_ne by (by intros [_ ?]). by eapply objects_put.
  - eapply objects_put. rewrite objects_put_ne by (by intros [_ ?]). exact HA.
  - eapply bottom_put. rewrite !bottom_put_objects. exact HB.
Qed.

Lemma with_copy_steps : lsteps o with_copy.
Proof.
  pose proof HA as (x & Hx & Hlx)%objects_view. pose proof HF as (x' & Hx' & Hlx')%objects_view.
  assert (x' = x) as -> by congruence. destruct (first_fragment_ok o t d object_first) as (Hc & _).
  eapply rtc_l; [|eapply rtc_l; [|apply rtc_once]].
  - split; [eapply step_insert; [exact Hx|exact Hlx'|done|apply copy_wf|exact Hc]|]. by eapply steady_put.
  - split.
    + eapply step_sub; [simpl; rewrite lookup_alter_eq, Hx; done|exact Hlx].
    + eapply steady_put; [rewrite objects_put_ne by (by intros [_ ?]); exact HA|]. intros _ a. by apply declared_same.
  - split; [|apply steady_same; intros; apply objects_put_bottom]. eapply step_link; [|exact HBm|].
    + simpl. by rewrite lookup_alter_eq, lookup_alter_eq, Hx.
    + eapply Forall_impl; [exact HBok|]. intros e. apply entry_ok_mono.
      intros u. etrans; [apply (same_tasks_alter (put_objects t fragment_type _ o))|apply same_tasks_alter].
Qed.

Lemma with_fragment_steps : lsteps o with_fragment.
Proof.
  etrans; [apply with_copy_steps|]. destruct (first_fragment_ok o t d object_first) as (_ & _ & Hc & _).
  destruct with_copy_objects as (Hf & _). pose proof Hf as (x & Hx & Hlx)%objects_view.
  assert (change par t fragment_type f1 (setInBottomMap (initial_copy d)) (first_fragment d) f2 with_copy = with_fragment) as <-.
  { destruct (initial_copy_fields d (ok_plain _ _ _ _ object_first)) as (_ & _ & _ & Hk & _ & Hn & Hs & _).
    unfold change. rewrite <- (finish_no_links par t (setInBottomMap (initial_copy d)) (first_fragment d) with_fragment);
      [done| | | |]; simpl; try congruence. exact Hs. }
  pose proof (lsteps_tsteps _ _ _ with_copy_steps) as Hs. apply psteps_lsteps; [by eapply tsteps_wf|].
  apply rtc_once. eapply step_change; [exact Hx|exact Hlx|].
  eapply change_ok_mono; [|exact Hc]. by apply (tsteps_tasks par).
Qed.

Lemma with_fragment_objects :
  objects t fragment_type with_fragment = Some (f1 ++ first_fragment d :: f2) ∧
  objects t access_type with_fragment = Some (a1 ++ setHasSubaccesses d :: a2) ∧
  bottom t with_fragment = Some (b1 ++ excluded_entries d region ++ b2) ∧
  (∀ u k, ¬ (u = t ∧ map_kind k ≠ taskwait_type) → objects u k with_fragment = objects u k o).
Proof.
  destruct with_copy_objects as (H1 & H2 & H3). unfold with_fragment. rewrite bottom_put_objects. split_and!.
  - by eapply objects_put.
  - rewrite objects_put_ne by (by intros [_ ?]). exact H2.
  - exact H3.
  - intros u k Hu. unfold with_copy. rewrite objects_put_ne, objects_put_bottom, objects_put_ne, objects_put_ne; [done|..];
      intros [-> Hk]; apply Hu; by rewrite Hk.
Qed.

Lemma owp_createInitialFragment (Q : access_ref → obs B → Prop) :
  Q (aref t fragment_type (setInBottomMap (initial_copy d))) with_copy →
  owp (createInitialFragment mc t (node_key d) region) Q o.
Proof.
  intros HQ. pose proof (objects_wf par _ _ _ _ Hwf HA) as Hm.
  apply awp_bind. change (mkRef t access_type (node_key d)) with (aref t access_type d).
  eapply owp_readAccess; [exact HA|done|apply elem_middle|]. fold (initial_copy d).
  apply awp_bind. eapply (awp_map_insert _ _ _ _ (objects_seen t fragment_type)); [exact HF|apply copy_wf|].
  apply awp_bind. eapply owp_updateAccess; [|exact Hm|].
  { rewrite objects_put_ne by (by intros [_ ?]). exact HA. }
  apply awp_bind. eapply owp_insert_entries; [|exact HBm|].
  { rewrite !bottom_put_objects. exact HB. }
  apply awp_ret. unfold aref in HQ. unfold node_key in HQ. simpl in HQ. rewrite copy_region in HQ. exact HQ.
Qed.

(** The fragment is registered; nothing else follows. *)
Lemma owp_register_fragment n (Q : unit → obs B → Prop) :
  Q tt with_fragment →
  owp (with_local_dependency_data
    (handleDataAccessStatusChanges mc (S n) no_effects (effects par (first_fragment d))
       (aref t fragment_type (first_fragment d)))) Q with_fragment.
Proof.
  intros HQ. pose proof (lsteps_tsteps _ _ _ with_fragment_steps) as Hst. pose proof (tsteps_wf par _ _ Hwf Hst) as Hwf'.
  destruct with_fragment_objects as (Hf & _).
  destruct (first_fragment_ok (without_data with_fragment) t d) as (_ & Hbo & _ & Hc & He).
  { eapply object_ok_mono; [|apply object_first].
    intros u. rewrite <- (tsteps_tasks par _ _ Hst u). done. }
  apply owp_local. rewrite <- He.
  destruct (first_fragment_fields d (ok_plain _ _ _ _ object_first)) as (Hk & Hn & Hs & Hk' & Hs').
  eapply owp_handle_simple; [by apply wf_without_data|exact Hf|exact Hbo|exact Hc| | |].
  - unfold links. by rewrite Hs, Hs', !andb_false_r.
  - by right; right.
  - rewrite finish_no_links by (rewrite ?Hk, ?Hk'; done). by destruct with_fragment.
Qed.
End create.
End initial.
