(* ===== verification/FragmentedLinking.v ===== *)
(** * Fragmented region dependencies: linking the accesses of a new task

    [linkTaskAccesses] registers the accesses of a new task one by one, links the last accesses of its
    siblings, or fragments of the accesses of the parent, to them, and satisfies at once what the
    parent does not access. *)

From S2P Require Import Prelude Region Boost RegionMap RegionMapProofs StateMonad.
From S2P Require Import IntrusiveRegionMap IntrusiveRegionMapProofs IntrusiveRegionMapViews.
From S2P Require Import DataAccessType FragmentedAccess ReductionInfo FragmentedWorld.
From S2P Require Import FragmentedDeps FragmentedProtocol FragmentedInvariant.
From S2P Require Import FragmentedPotential FragmentedObs FragmentedRun FragmentedPropagation.
From S2P Require Import FragmentedWaiting FragmentedContract FragmentedRegistration FragmentedSteady.
From S2P Require Import FragmentedCoverage FragmentedInitial.
Local Open Scope Z_scope.

(** ** Traversals with local variables *)

Section locals.
Context {B : Type} `{!DynamicBitset B} `{!DynamicBitsetLaws B}.
Context {MA : Type} `{!AvlSet (DataAccess B) node_key MA} `{!AvlSetLaws (DataAccess B) node_key MA}.
Context {MB : Type} `{!AvlSet BottomMapEntry node_key MB} `{!AvlSetLaws BottomMapEntry node_key MB}.
Context (mc : machine) (par : nat → option nat) {L : Type} (Jv : L → Prop).
Notation W := (world B MA MB).
Notation owp := (awp (obs_of (B := B) (MA := MA) (MB := MB))).
Notation owpL := (awp (abs_locals L (obs_of (B := B) (MA := MA) (MB := MB)))).
Notation quiet := (quiet par).
Implicit Types (o : obs B) (d : DataAccess B) (v : L).

Lemma owp_quiet_traversal_locals {C} `{!RegionContent C} {MC} `{!AvlSet C node_key MC} `{!AvlSetLaws C node_key MC}
    (r : map_ref W MC) look put (P : nat → DataAccessObjectType → Prop) region (p : Z → stM (W * L) bool) l o v :
  seen obs_of r look put → region_wf region → look o = Some l → map_wf l → wf par o → Jv v →
  (∀ n o1 v1 l, look o1 = Some l → map_wf l → n ∈ l → intersects region n → wf par o1 → same_tasks o o1 →
     frame P o o1 → Jv v1 →
     owpL (p (node_key n)) (λ c s, c = true ∧ quiet P (2 * ilen region n) o1 s.1 ∧
       keeps look (cend n) o1 s.1 ∧ Jv s.2) (o1, v1)) →
  owpL (processIntersecting (shared_ref r) region p)
    (λ c s, c = true ∧ quiet P (2 * rlength region) o s.1 ∧ Jv s.2) (o, v).
Proof.
  intros Hseen Hr Hl Hm Hwf Hv Hp. pose proof (sum_ilen region l Hr Hm) as Hsum.
  set (total := sumZ (ilen region) (filter (intersects region) l)) in *.
  set (I := λ rest (s : obs B * L), quiet P (2 * (total - sumZ (ilen region) rest)) o s.1 ∧ Jv s.2).
  eapply awp_mono; [eapply (awp_processIntersecting _ _ _ _ (seen_shared _ _ _ _ Hseen) _ _ I); [done..| |]|].
  - intros n rest [o1 v1] l1 Hl1 Hm1 Hn Hi [Hq Hv1]. cbn [fst snd] in *. eapply awp_mono.
    + apply (Hp n o1 v1 l1); try done; [by eapply quiet_wf|by eapply quiet_tasks|apply Hq].
    + intros c [o2 v2] (-> & Hq2 & (k1 & k2 & Hk) & Hv2). cbn [fst snd] in *. split_and!; [done| |by exists k1, k2].
      unfold I in *. rewrite sumZ_cons in Hq. split; [|done]. simpl.
      eapply quiet_mono; [by eapply quiet_trans|done|lia].
  - unfold I. subst total. split; [|done]. eapply quiet_mono; [apply quiet_refl|done|simpl; lia].
  - intros c [o' v'] (-> & Hq & Hv'). split_and!; [done| |done]. eapply quiet_mono; [exact Hq|done|]. simpl. lia.
Qed.

Section follow.
Context (n N u : nat) (k : DataAccessObjectType) (P : nat → DataAccessObjectType → Prop).
Context (Hok : handle_ok mc par (S n) N u k) (Hsp : spares par P u k).
Notation handle := (handleDataAccessStatusChanges mc (S n)).

(** A split spares what a visit spares. *)
Lemma split_frame l1 d l2 region o :
  frame P o (split u k l1 d l2 region o).
Proof.
  intros v k' Hv. destruct (Hsp v k' Hv) as [_ Hne].
  rewrite (objects_ext _ _ (put_objects u k (l1 ++ new_pieces d region setRegistered ++ l2) o)) by apply split_view.
  by apply objects_put_ne.
Qed.

Lemma owp_followLink_locals region (p : access_ref → stM (W * L) bool) f o x v :
  wf par o → bounded N o → o_view o !! u = Some x → region_wf region → Jv v →
  (∀ o1 m, same_tasks o o1 → object_ok o1 u k m → change_ok o1 k m (f m) ∧ hasNext (f m) = true) →
  (∀ o1 v1 l m (Q : bool → obs B * L → Prop), wf par o1 → frame P o o1 → objects u k o1 = Some l → m ∈ l → Jv v1 →
     owp (changeAccess handle (aref u k m) f) (λ _ o', ∀ v', Jv v' → Q true (o', v')) o1 →
     owpL (p (aref u k m)) Q (o1, v1)) →
  owpL (followLink_locals mc (S n) (mkLink u k) region p)
    (λ c s, c = true ∧ quiet P (2 * rlength region) o s.1 ∧ Jv s.2) (o, v).
Proof.
  intros Hwf Hb Hx Hr Hv Hf Hp. assert (objects u k o = Some (v_objects k x)) as Hl by (unfold objects; by rewrite Hx).
  eapply (owp_quiet_traversal_locals _ _ _ P _ _ _ o v (objects_seen u k)); [done|exact Hl|by eapply objects_wf|done|done|].
  intros d o1 v1 l Hl1 Hm1 Hd Hi Hwf1 Hs1 Hfr Hv1. apply elem_split in Hd as (l1 & l2 & ->). simpl link_task. simpl link_objectType.
  apply awp_bind, awp_shared. change (mkRef u k (node_key d)) with (aref u k d). eapply owp_fragmentAccess; [done..|].
  eapply Hp; [| |by apply split_app|apply elem_middle|done|].
  - pose proof Hl1 as (x1 & Hx1 & Hlx1)%objects_view. eapply pstep_wf; [exact Hwf1|]. by eapply step_split.
  - intros w k' Hw. rewrite (split_frame l1 d l2 region o1 w k' Hw). by apply Hfr.
  - eapply awp_mono; [eapply (owp_link_visit mc par n N u k P); try done|].
    + by eapply bounded_mono.
    + intros o2 m Hs2. apply Hf. intros t. rewrite (Hs2 t). apply Hs1.
    + intros [] o' [Hq Hk] v' Hv'. done.
Qed.
End follow.
End locals.

(** ** Entries of the bottom map *)

Section entries.
Context {B : Type} `{!DynamicBitset B} `{!DynamicBitsetLaws B}.
Context {MA : Type} `{!AvlSet (DataAccess B) node_key MA} `{!AvlSetLaws (DataAccess B) node_key MA}.
Context {MB : Type} `{!AvlSet BottomMapEntry node_key MB} `{!AvlSetLaws BottomMapEntry node_key MB}.
Notation owp := (awp (obs_of (B := B) (MA := MA) (MB := MB))).
Implicit Types (o : obs B) (e : BottomMapEntry).

(** The pieces of an entry cut by its part in a region. *)
Lemma cut_bounds_intersect region e :
  region_wf region → content_wf e → intersects region e →
  cut_start e (intersect region (bme_region e)) = cut_start e region ∧
  cut_end e (intersect region (bme_region e)) = cut_end e region ∧
  intersects (intersect region (bme_region e)) e.
Proof.
  intros Hr He Hi. pose proof (intersect_ilen region e Hr He Hi) as [Hw Hl]. simpl in Hw, Hl.
  pose proof (ilen_pos region e Hr He Hi) as Hp.
  assert (startAddress (intersect region (bme_region e)) = cut_start e region) as Hs.
  { pose proof He as [Hew _]. simpl in Hew. apply intersects_spec in Hi; [|done|done]. rewrite intersect_closed by done.
    unfold cut_start, cend, cstart in *. simpl in *. case_match; bool_hyps; simpl; lia. }
  unfold ilen in *. split_and!.
  - unfold cut_start at 1. rewrite Hs. unfold cut_start. lia.
  - unfold cut_end at 1. rewrite Hs, Hl. unfold cut_end. lia.
  - apply intersects_spec; [done|done|]. rewrite Hs, Hl. unfold cut_start, cut_end in *. lia.
Qed.

Lemma owp_fragmentBottomMapEntry_keep t b1 e b2 region (Q : option Z → obs B → Prop) o :
  bottom t o = Some (b1 ++ e :: b2) → map_wf (b1 ++ e :: b2) → region_wf region → intersects region e →
  Q (Some (cut_start e region)) (put_bottom t (b1 ++ pieces e region ++ b2) o) →
  owp (fragmentBottomMapEntry t (node_key e) region false) Q o.
Proof.
  intros Hb Hm Hr Hi HQ. assert (content_wf e) as He by (eapply map_wf_elem; [exact Hm|apply elem_middle]).
  apply awp_bind. eapply (awp_map_deref _ _ _ _ (bottom_seen t)); [exact Hb|exact Hm|apply elem_middle|].
  destruct (fullyContainedIn (bme_region e) region) eqn:Hin.
  - apply awp_ret. assert (cut_start e region = cstart e ∧ cut_end e region = cend e) as [Hs He'].
    { destruct (contained_bounds e region He Hr Hin). unfold cut_start, cut_end. lia. }
    assert (pieces e region = [e]) as Hp.
    { unfold pieces, left_piece, right_piece, middle_piece. rewrite Hs, He', !Z.ltb_irrefl. simpl. f_equal.
      unfold cut, cend, cstart. simpl. destruct e as [[s l] ? ?]. simpl. do 2 f_equal. lia. }
    rewrite Hp, Hs in HQ. simpl in HQ. rewrite put_bottom_id in HQ by done. exact HQ.
  - apply awp_bind. eapply awp_mono.
    + eapply (awp_fragmentByIntersection_keep _ _ _ _ (bottom_seen t) b1 e b2 region Hm Hr Hi id (λ _, eq_refl) _ _
        (λ l o', o' = put_bottom t l o)).
      * intros l o' ->. by eapply bottom_put.
      * intros o' ->. apply awp_ret. by rewrite put_bottom_put.
      * intros L1 L2 st en o' -> Hw _ _. apply awp_bind, awp_ret, awp_bind.
        eapply (awp_map_insert _ _ _ _ (bottom_seen t) L1); [by eapply bottom_put|exact Hw|].
        apply awp_ret. by rewrite put_bottom_put.
      * by rewrite put_bottom_id.
    + intros k o' [-> ->]. apply awp_ret. unfold new_pieces in *. by rewrite !list_fmap_id.
Qed.

(** The middle of an entry is taken out of the map. *)
Lemma owp_remove_middle t b1 e b2 region (Q : unit → obs B → Prop) o :
  map_wf (b1 ++ e :: b2) → region_wf region → intersects region e → is_Some (bottom t o) →
  Q tt (put_bottom t (b1 ++ (left_piece e region ++ right_piece e region) ++ b2) o) →
  owp (map_erase (bottomMap_of t) (cut_start e region)) Q (put_bottom t (b1 ++ pieces e region ++ b2) o).
Proof.
  intros Hm Hr Hi [b0 Hb0] HQ. replace (cut_start e region) with (node_key (middle_piece e region)) by apply key_cut.
  assert (b1 ++ pieces e region ++ b2 = (b1 ++ left_piece e region) ++ middle_piece e region :: (right_piece e region ++ b2)) as Hp.
  { unfold pieces. by rewrite <- !app_assoc. }
  assert (map_wf (b1 ++ pieces e region ++ b2)) as Hmp.
  { pose proof (new_pieces_wf b1 e b2 region Hm Hr Hi id (λ _, eq_refl)) as Hw. unfold new_pieces in Hw.
    by rewrite !list_fmap_id in Hw. }
  eapply (awp_map_erase _ _ _ _ (bottom_seen t) (b1 ++ left_piece e region) _ (right_piece e region ++ b2)).
  - rewrite <- Hp. by eapply bottom_put.
  - by rewrite <- Hp.
  - rewrite put_bottom_put. by rewrite <- !app_assoc in HQ |- *.
Qed.
End entries.

(** ** Linking one access *)

Section link.
Context {B : Type} `{!DynamicBitset B} `{!DynamicBitsetLaws B}.
Context {MA : Type} `{!AvlSet (DataAccess B) node_key MA} `{!AvlSetLaws (DataAccess B) node_key MA}.
Context {MB : Type} `{!AvlSet BottomMapEntry node_key MB} `{!AvlSetLaws BottomMapEntry node_key MB}.
Context (mc : machine) (par : nat → option nat).
Context (Hpar : ∀ u p, par u = Some p → (p < u)%nat).
Context (n N : nat) (Hdepth : (N < S n)%nat).
Context (t p : nat) (Htp : par t = Some p).
Notation W := (world B MA MB).
Notation owp := (awp (obs_of (B := B) (MA := MA) (MB := MB))).
Notation owpL := (awp (abs_locals link_vars (obs_of (B := B) (MA := MA) (MB := MB)))).
Notation lsteps := (rtc (lstep par)).
Notation quiet := (quiet par).
Notation handle := (handleDataAccessStatusChanges mc (S n)).
Notation next := (mkLink t access_type).
Notation set_link := (unsetInBottomMap ∘ setNext (Some next)).
Implicit Types (o : obs B) (d : DataAccess B) (e : BottomMapEntry) (v : link_vars).

(** What the links of the others leave alone: the accesses of the new task, and the maps of the parent but
    its fragments. *)
Definition kept (u : nat) (k : DataAccessObjectType) : Prop :=
  u = t ∧ k = access_type ∨ u = p ∧ k ≠ fragment_type.

Lemma sibling_not_below u : par u = Some p → ¬ below par t u.
Proof.
  intros Hu Hb. apply Hpar in Hu. inversion Hb as [? ? H|? q ? H Hq]; subst.
  - rewrite Htp in H. injection H as ->. lia.
  - rewrite Htp in H. injection H as <-. apply (below_lt par _ _ Hpar) in Hq. lia.
Qed.

Lemma spares_kept o e :
  entry_ok par o p e → not_waiting e → link_task (bme_link e) ≠ t →
  spares par kept (link_task (bme_link e)) (link_objectType (bme_link e)).
Proof.
  intros (_ & Hl & _) Hw Hne u k Hu. unfold not_waiting in Hw.
  pose proof (Hpar _ _ Htp) as Hlt. destruct (link_objectType (bme_link e)); try done.
  - pose proof (Hpar _ _ Hl) as Hlt'. destruct Hu as [[-> Hk]|[-> Hk]].
    + split; [|by intros [? _]]. intros _. split; [|by intros ->]. right. by apply sibling_not_below.
    + split; [|intros [? _]; lia]. intros _. split; [|lia]. right. intros Hb%below_lt; [lia|done].
  - rewrite Hl. split; [done|]. destruct Hu as [[-> Hk]|[-> Hk]]; [intros [? _]; lia|by intros [_ ?]].
Qed.

Lemma link_change_ok o u k d :
  is_Some (o_view o !! t) → object_ok o u k d → change_ok o k d (set_link d) ∧ hasNext (set_link d) = true.
Proof. intros Ht Hd. by apply (link_next_ok o u k d next). Qed.

(** [link_previous] is the change of the previous access. *)
Lemma owp_link_previous u k (m : DataAccess B) e T d o v (Q : bool → obs B * link_vars → Prop) :
  wf par o → objects t access_type o = Some T → d ∈ T → lv_dataAccess v = node_key d →
  owp (changeAccess handle (aref u k m) set_link)
    (λ _ o', Q true (o', mkLinkVars (lv_dataAccess v) (lv_hasAllocatedReductionInfo v)
                           (lv_previousReductionInfo v) (bme_accessType e))) o →
  owpL (link_previous mc (S n) next (aref u k m) e) Q (o, v).
Proof.
  intros Hwf HT Hd Hv HQ. pose proof (objects_wf par _ _ _ _ Hwf HT) as Hm.
  assert (da_type d ≠ REDUCTION_ACCESS_TYPE) as Hty.
  { pose proof HT as (x & Hx & <-)%objects_view.
    apply (vo_objects _ _ _ _ (wf_view _ _ Hwf _ _ Hx) access_type d Hd). }
  apply awp_bind, awp_set_local, awp_bind, awp_local, awp_bind, awp_shared. simpl lv_dataAccess. rewrite Hv.
  change (mkRef (link_task next) access_type (node_key d)) with (aref t access_type d).
  eapply owp_readAccess; [exact HT|done|done|]. rewrite bool_decide_eq_false_2 by done. simpl andb.
  apply awp_bind, awp_ret, awp_bind, awp_shared. rewrite <- Hv. eapply awp_mono; [exact HQ|].
  intros [] o' H. by apply awp_ret.
Qed.

Section access.
Context (R : DataAccessRegion) (HR : region_wf R) (HRpos : 0 < rlength R).
Context (o0 : obs B) (T0 : list (DataAccess B)) (HT0 : objects t access_type o0 = Some T0).
Notation rs := (startAddress R).
Notation rf := (startAddress R + rlength R).

(** The parent while the region is linked up to [b]; no entry is left in the region up to [g]. *)
Record parent_state (b g : Z) (A F : list (DataAccess B)) (Bm : list BottomMapEntry) : Prop := {
  ps_coverage : coverage A F Bm rs b;
  ps_clear e : e ∈ Bm → g ≤ rs ∨ cend e ≤ rs ∨ g ≤ cstart e;
  ps_entries : Forall not_waiting Bm;
  ps_own e : e ∈ Bm → link_task (bme_link e) = t → cend e ≤ rs;
}.

(** The new task: its accesses beyond the region are as they were, those before its end are linked. *)
Record task_state (T : list (DataAccess B)) (position : Z) : Prop := {
  ts_position : ∃ d, d ∈ T ∧ position = node_key d;
  ts_beyond : filter (λ c, rf ≤ node_key c) T = filter (λ c, rf ≤ node_key c) T0;
  ts_linked c : c ∈ T → cstart c < rf → cend c ≤ rf ∧ isRegistered c = true ∧ anchored c = true;
}.

Record linking (b g : Z) o v : Prop := {
  lk_wf : wf par o;
  lk_bounded : bounded N o;
  lk_steps : lsteps o0 o;
  lk_parent : ∃ A F Bm, objects p access_type o = Some A ∧ objects p fragment_type o = Some F ∧
    objects p taskwait_type o = Some [] ∧ bottom p o = Some Bm ∧ parent_state b g A F Bm;
  lk_task : ∃ T, objects t access_type o = Some T ∧ task_state T (lv_dataAccess v);
  lk_type : lv_parentAccessType v ≠ REDUCTION_ACCESS_TYPE;
}.

(** The links of the others keep all that. *)
Lemma linking_quiet b g o v o' v' c :
  linking b g o v → quiet kept c o o' → lv_dataAccess v' = lv_dataAccess v →
  lv_parentAccessType v' ≠ REDUCTION_ACCESS_TYPE → linking b g o' v'.
Proof.
  intros [Hwf Hb Hs (A & F & Bm & HA & HF & Htw & HBm & [Hc1 Hc2 Hc3 Hc4]) (T & HT & Hts) _] Hq Hv Hty.
  destruct (psteps_refines par _ _ p fragment_type F Hwf (q_steps _ _ _ _ _ Hq) HF) as (F' & HF' & Hr).
  split.
  - by eapply quiet_wf.
  - eapply bounded_mono; [by eapply quiet_tasks|done].
  - etrans; [exact Hs|]. apply psteps_lsteps; [done|apply Hq].
  - exists A, F', Bm. split_and!; [| |..|].
    + rewrite (q_frame _ _ _ _ _ Hq) by (right; done). done.
    + done.
    + rewrite (q_frame _ _ _ _ _ Hq) by (right; done). done.
    + rewrite (q_bottoms _ _ _ _ _ Hq). done.
    + split; [by eapply coverage_refine|done..].
  - exists T. rewrite (q_frame _ _ _ _ _ Hq) by (left; done). by rewrite Hv.
  - done.
Qed.

(** The part of an entry in the region goes. *)
Lemma parent_state_unlink A F b1 e b2 :
  map_wf A → map_wf (b1 ++ e :: b2) → intersects R e → link_task (bme_link e) ≠ t →
  parent_state (Z.max rs (cstart e)) (Z.max rs (cstart e)) A F (b1 ++ e :: b2) →
  parent_state (Z.min (cend e) rf) (Z.min (cend e) rf) A F (b1 ++ (left_piece e R ++ right_piece e R) ++ b2).
Proof.
  intros HA Hm Hi Hne [Hc1 Hc2 Hc3 Hc4].
  assert (content_wf e) as He by (eapply map_wf_elem; [exact Hm|apply elem_middle]).
  pose proof (rest_bounds e R He HR Hi) as Hrest.
  assert (∀ c, c ∈ b1 ++ (left_piece e R ++ right_piece e R) ++ b2 →
    c ∈ b1 ++ b2 ∨ c ∈ left_piece e R ++ right_piece e R ∧ bme_link c = bme_link e) as Hin.
  { intros c. rewrite !elem_of_app. intros [Hc|[[Hc|Hc]|Hc]]; [left; tauto|right..|left; tauto]; (split; [tauto|]);
      unfold left_piece, right_piece in Hc; case_match; try (by apply not_elem_of_nil in Hc);
      by apply list_elem_of_singleton in Hc as ->. }
  assert (∀ c, c ∈ b1 ++ b2 → c ∈ b1 ++ e :: b2) as Hsub by (intros c; rewrite !elem_of_app, elem_of_cons; tauto).
  split.
  - by apply coverage_unlink.
  - intros c Hc. destruct (Hin c Hc) as [Hc'|[Hc' _]].
    + assert (content_wf c) as Hcw by (eapply map_wf_elem; [exact Hm|by apply Hsub]).
      pose proof (cstart_cend c Hcw). specialize (Hc2 c (Hsub c Hc')).
      destruct (map_wf_apart _ _ _ _ Hm Hc') as [?|?]; lia.
    + right. by apply Hrest.
  - apply Forall_forall. rewrite Forall_forall in Hc3. intros c Hc. destruct (Hin c Hc) as [Hc'|[_ Hl]]; [auto|].
    unfold not_waiting. rewrite Hl. apply Hc3, elem_middle.
  - intros c Hc Hct. destruct (Hin c Hc) as [Hc'|[_ Hl]]; [auto|]. by rewrite Hl in Hct.
Qed.

Lemma unlink_keeps b1 e b2 o o' :
  bottom p o = Some (b1 ++ e :: b2) →
  bottom p o' = Some (b1 ++ (left_piece e R ++ right_piece e R) ++ b2) → map_wf (b1 ++ e :: b2) → intersects R e →
  keeps_within (bottom p) (cend e) o o'.
Proof.
  intros Ho Ho' Hm Hi. assert (content_wf e) as He by (eapply map_wf_elem; [exact Hm|apply elem_middle]).
  destruct (pieces_rest_wf b1 e b2 R Hm HR Hi) as [Hm' Hlt].
  split; [by eapply keeps_middle|]. intros l c. rewrite Ho'. intros [= <-] Hc Hk.
  pose proof (cstart_cend e He). apply map_wf_app in Hm as (_ & (_ & _ & H2)%map_wf_cons & H12).
  rewrite !elem_of_app in Hc. destruct Hc as [Hc|[Hc|Hc]].
  - specialize (H12 c e Hc ltac:(by left)). lia.
  - apply (rest_bounds e R He HR Hi c). by apply elem_of_app.
  - specialize (H2 c Hc). unfold node_key in Hk. unfold cstart in H2. lia.
Qed.

(** A change of the bottom map of the parent. *)
Lemma linking_bottom b g b' g' o v Bm Bm' :
  linking b g o v → bottom p o = Some Bm → map_wf Bm' → Forall (entry_ok par o p) Bm' →
  (∀ A F, objects p access_type o = Some A → objects p fragment_type o = Some F → parent_state b g A F Bm →
     parent_state b' g' A F Bm') →
  linking b' g' (put_bottom p Bm' o) v.
Proof.
  intros [Hwf Hb Hs (A & F & Bm0 & HA & HF & Htw & HBm0 & Hps) (T & HT & Hts) Hty] HBm Hm He Hps'.
  assert (Bm0 = Bm) as -> by congruence. pose proof HBm as (x & Hx & _)%bottom_view.
  assert (tstep par o (put_bottom p Bm' o)) as Hstep by (by eapply step_link).
  split; [by eapply tstep_wf| |eapply rtc_r; [exact Hs|by apply lstep_bottom]| | |done].
  - eapply bounded_mono; [by eapply tstep_tasks|done].
  - exists A, F, Bm'. rewrite !objects_put_bottom. split_and!; [done..|by eapply bottom_put|auto].
  - exists T. by rewrite objects_put_bottom.
Qed.

(** An entry of the bottom map in the region: the last accesses there get the new one as next, and the
    entry gives way. *)
Lemma owp_bottom_map_match e o v Bm :
  bottom p o = Some Bm → e ∈ Bm → intersects R e →
  linking (Z.max rs (cstart e)) (Z.max rs (cstart e)) o v →
  owpL (bottom_map_match mc (S n) p R (link_previous mc (S n) next) (node_key e))
    (λ c s, c = true ∧ linking (Z.min (cend e) rf) (Z.min (cend e) rf) s.1 s.2 ∧
       keeps_within (bottom p) (cend e) o s.1) (o, v).
Proof.
  intros HBm He Hi Hlk. pose proof (lk_wf _ _ _ _ Hlk) as Hwf.
  pose proof (bottom_wf par _ _ _ Hwf HBm) as Hmb. assert (content_wf e) as Hew by (by eapply map_wf_elem).
  pose proof HBm as (x & Hx & Hxb)%bottom_view.
  assert (entry_ok par o p e) as Hent.
  { pose proof (vo_entries _ _ _ _ (wf_view _ _ Hwf _ _ Hx)) as Ha. rewrite Hxb, Forall_forall in Ha. auto. }
  destruct (lk_parent _ _ _ _ Hlk) as (A & F & Bm' & HA & HF & Htw & HBm' & Hps).
  assert (Bm' = Bm) as -> by congruence. clear HBm'.
  assert (not_waiting e) as Hnw by (pose proof (ps_entries _ _ _ _ _ Hps) as Ha; rewrite Forall_forall in Ha; auto).
  pose proof (cstart_cend e Hew) as Hlt. pose proof Hi as Hib. apply intersects_spec in Hib; [|done|done].
  assert (link_task (bme_link e) ≠ t) as Hne.
  { intros Heq. pose proof (ps_own _ _ _ _ _ Hps e He Heq). lia. }
  destruct (cut_bounds_intersect R e HR Hew Hi) as (Hcs & Hce & His).
  destruct (intersect_ilen R e HR Hew Hi) as [Hsw _]. simpl in Hsw.
  destruct (lk_task _ _ _ _ Hlk) as (T & HT & Hts). destruct (ts_position _ _ Hts) as (d & Hd & Hvd).
  pose proof HT as (xt & Hxt & _)%objects_view.
  pose proof Hent as ([y Hy] & _ & Hty).
  apply awp_bind, awp_shared. eapply (awp_map_deref _ _ _ _ (bottom_seen p)); [exact HBm|done|done|].
  apply awp_bind. eapply awp_mono.
  { rewrite (link_eta (bme_link e)).
    eapply (owp_followLink_locals mc par
      (λ v', lv_dataAccess v' = lv_dataAccess v ∧ lv_parentAccessType v' ≠ REDUCTION_ACCESS_TYPE) n N
      (link_task (bme_link e)) (link_objectType (bme_link e)) kept) with (f := set_link).
    - apply handle_ok_all; [exact Hpar|lia].
    - by eapply spares_kept.
    - exact Hwf.
    - apply Hlk.
    - exact Hy.
    - exact Hsw.
    - split; [done|apply Hlk].
    - intros o1 m Hs1 Hm. eapply link_change_ok; [|exact Hm]. apply Hs1. by exists xt.
    - intros o1 v1 l m Q Hwf1 Hfr Hl1 Hm [Hv1 _] HQ.
      eapply (owp_link_previous _ _ _ _ T d); [exact Hwf1| |exact Hd|by rewrite Hv1|].
      + rewrite (Hfr t access_type) by (by left). exact HT.
      + eapply awp_mono; [exact HQ|]. intros [] o2 H2. apply H2. by split. }
  intros c [o1 v1] (-> & Hq & Hv1 & Hty1). simpl fst in *. simpl snd in *.
  pose proof (linking_quiet _ _ _ _ _ _ _ Hlk Hq Hv1 Hty1) as Hlk1.
  assert (bottom p o1 = Some Bm) as HBm1 by (by rewrite (q_bottoms _ _ _ _ _ Hq)).
  destruct (elem_split _ _ He) as (b1 & b2 & ->).
  apply awp_bind, awp_shared. eapply owp_fragmentBottomMapEntry_keep; [exact HBm1|done|exact Hsw|exact His|].
  apply awp_bind. eapply awp_lift; [done|]. apply awp_bind, awp_shared.
  eapply owp_remove_middle; [done|exact Hsw|exact His|by exists (b1 ++ e :: b2)|].
  apply awp_ret. set (rest := left_piece e _ ++ right_piece e _).
  assert (rest = left_piece e R ++ right_piece e R) as Hrest.
  { unfold rest, left_piece, right_piece. by rewrite Hcs, Hce. }
  rewrite Hrest. split_and!; [done| |].
  - eapply linking_bottom; [exact Hlk1|exact HBm1|by apply pieces_rest_wf| |].
    + apply Forall_forall. intros c Hc.
      destruct (entries_of_pieces b1 e b2 R (b1 ++ e :: b2) (λ c Hc, ex_intro _ c (conj Hc (conj eq_refl eq_refl))) c Hc)
        as (c0 & Hc0 & Hl0 & Ht0).
      pose proof HBm1 as (x1 & Hx1 & Hxb1)%bottom_view.
      pose proof (vo_entries _ _ _ _ (wf_view _ _ (lk_wf _ _ _ _ Hlk1) _ _ Hx1)) as Ha.
      rewrite Hxb1, Forall_forall in Ha. specialize (Ha c0 Hc0). unfold entry_ok in *. by rewrite Hl0, Ht0.
    + intros A1 F1 HA1 HF1 Hps1. apply parent_state_unlink; try done. eapply objects_wf; [apply Hlk1|exact HA1].
  - eapply unlink_keeps; [exact HBm|by eapply bottom_put|done..].
Qed.

(** ** What the parent does not access *)

Notation satisfy := (setTopLevel ∘ setTopmost ∘ setReceivedReductionInfo ∘ setConcurrentSatisfied ∘
  setWriteSatisfied ∘ setReadSatisfied).

Lemma satisfy_ok o u d : object_ok o u access_type d → change_ok o access_type d (satisfy d).
Proof.
  intros [H1 H2 H3 H4 H5 H6]. split; try done.
  - repeat constructor; simpl; try apply implb_same; apply implb_true_r.
  - by left.
Qed.

Lemma task_state_visited T l1 d l2 G d' T' q q' o o' :
  wf par o → objects t access_type o = Some T → T = l1 ++ d :: l2 → region_wf G → intersects G d →
  task_state T q → cend d ≤ rf → cstart d < rf →
  da_region d' = da_region (middle_piece d G) → isRegistered d' = isRegistered d → anchored d' = anchored d →
  visited par t access_type G l1 d l2 d' o o' → objects t access_type o' = Some T' →
  q' = (if node_key d =? q then node_key (middle_piece d G) else q) →
  task_state T' q'.
Proof.
  intros Hwf HT HTd HG Hi [Hpos Hbey Hlk] Hd Hds Hreg Hr Ha Hv HT' ->. subst T.
  assert (content_wf d) as Hdw by (eapply map_wf_elem; [by eapply objects_wf|apply elem_middle]).
  pose proof (vi_objects _ _ _ _ _ _ _ _ _ _ Hv) as HT''. rewrite HT' in HT''. injection HT'' as ->.
  destruct (visited_keeps par t access_type G l1 d l2 d' o o' Hwf HT HG Hi Hreg Hv) as (k1 & k2 & Hk1 & Hk2 & _ & Hf).
  rewrite HT in Hk1. injection Hk1 as <-. rewrite HT' in Hk2. injection Hk2 as <-. split.
  - destruct (node_key d =? q) eqn:E; [exists d'; split; [apply elem_middle|]|].
    { unfold node_key. simpl. by rewrite Hreg. }
    destruct Hpos as (c & Hc & ->). exists c. split; [|done]. apply Z.eqb_neq in E.
    rewrite !elem_of_app, elem_of_cons, elem_of_app. apply elem_of_app in Hc as [Hc|[->|Hc]%elem_of_cons]; tauto.
  - rewrite <- Hbey.
    rewrite <- (list_filter_filter_l (λ c, rf ≤ node_key c) (λ c, cend d ≤ node_key c)) by (intros; lia).
    rewrite Hf. apply list_filter_filter_l. intros; lia.
  - intros c Hc Hcs. destruct (Hlk d (elem_middle _ _ _) Hds) as (_ & Hdr & Hda).
    assert (∀ c0, c0 ∈ pieces d G → cend c0 ≤ rf) as Hp.
    { intros c0 Hc0. destruct (pieces_bounds d G c0 HG Hdw Hi Hc0) as (_ & _ & ?). lia. }
    assert (c ∈ l1 ++ l2 ∨ c = d' ∨ c ∈ left_copies d G ++ right_copies d G) as [Hin|[->|Hin]].
    { rewrite !elem_of_app, elem_of_cons, elem_of_app in Hc. rewrite !elem_of_app. tauto. }
    + apply Hlk; [|done]. rewrite !elem_of_app, elem_of_cons in *. tauto.
    + rewrite Hr, Ha. split_and!; [|done|done]. transitivity (cend (middle_piece d G)).
      * unfold cend, cstart. simpl. by rewrite Hreg.
      * apply Hp. unfold pieces. apply elem_middle.
    + assert (∃ c0, c0 ∈ left_piece d G ++ right_piece d G ∧ c = setRegistered c0) as (c0 & Hc0 & ->).
      { apply elem_of_app in Hin as [Hin|Hin]; apply list_elem_of_fmap in Hin as (c0 & -> & Hin); exists c0;
          rewrite elem_of_app; tauto. }
      split_and!; [|done|].
      * apply (Hp c0). unfold pieces. rewrite elem_of_app, elem_of_cons. apply elem_of_app in Hc0. tauto.
      * assert (da_status c0 = da_status d ∧ da_next c0 = da_next d) as [Hst Hnx].
        { unfold left_piece, right_piece in Hc0. repeat case_match; set_solver. }
        unfold anchored, isInBottomMap, hasNext in *. simpl. by rewrite Hst, Hnx.
Qed.

(** A change of the new task keeps the parent. *)
Definition same_parent o o' : Prop :=
  (∀ k, objects p k o' = objects p k o) ∧ bottom p o' = bottom p o.

Lemma same_parent_trans o o1 o2 : same_parent o o1 → same_parent o1 o2 → same_parent o o2.
Proof. intros [H1 H2] [K1 K2]. split; [intros k; by rewrite K1|by rewrite K2]. Qed.

Lemma visited_parent G l1 d l2 d' o o' :
  visited par t access_type G l1 d l2 d' o o' → same_parent o o'.
Proof.
  intros Hv. split; [intros k|apply Hv]. pose proof (Hpar _ _ Htp) as Hlt. apply (vi_frame _ _ _ _ _ _ _ _ _ _ Hv); [|intros [? _]; lia].
  intros _. split; [|lia]. right. intros Hbl%below_lt; [lia|done].
Qed.

Lemma linking_visited b g o v v' G l1 d l2 d' o' :
  linking b g o v → objects t access_type o = Some (l1 ++ d :: l2) → region_wf G → intersects G d →
  startAddress G + rlength G ≤ rf → da_region d' = da_region (middle_piece d G) →
  isRegistered d' = isRegistered d → anchored d' = anchored d →
  visited par t access_type G l1 d l2 d' o o' →
  lv_dataAccess v' = (if node_key d =? lv_dataAccess v then node_key (middle_piece d G) else lv_dataAccess v) →
  lv_parentAccessType v' = lv_parentAccessType v → linking b g o' v'.
Proof.
  intros [Hwf Hb Hs (A & F & Bm & HA & HF & Htw & HBm & Hps) (T & HT & Hts) Hty] Hl HG Hi HGR Hreg Hr Ha Hv Hv' Hty'.
  rewrite HT in Hl. injection Hl as ->.
  assert (content_wf d) as Hdw by (eapply map_wf_elem; [by eapply objects_wf|apply elem_middle]).
  pose proof Hi as Hib. apply intersects_spec in Hib; [|done|done]. assert (cstart d < rf) as Hds by lia.
  destruct (ts_linked _ _ Hts d (elem_middle _ _ _) Hds) as (Hde & _ & _).
  destruct (visited_parent _ _ _ _ _ _ _ Hv) as [Hp Hbp].
  split.
  - eapply psteps_wf; [exact Hwf|apply Hv].
  - eapply bounded_mono; [eapply psteps_tasks; apply Hv|done].
  - etrans; [exact Hs|]. apply psteps_lsteps; [done|apply Hv].
  - exists A, F, Bm. rewrite !Hp, Hbp. done.
  - eexists. split; [apply (vi_objects _ _ _ _ _ _ _ _ _ _ Hv)|].
    eapply task_state_visited; [exact Hwf|exact HT|done|done|done|exact Hts|done|done|done|done|done|exact Hv| |done].
    apply (vi_objects _ _ _ _ _ _ _ _ _ _ Hv).
  - by rewrite Hty'.
Qed.

Lemma owp_satisfy_missing G d o v b g T :
  region_wf G → startAddress G + rlength G ≤ rf → objects t access_type o = Some T → d ∈ T → intersects G d →
  linking b g o v →
  owpL (satisfy_missing mc (S n) next G (node_key d))
    (λ c s, c = true ∧ linking b g s.1 s.2 ∧ keeps (objects t access_type) (cend d) o s.1 ∧
       same_parent o s.1) (o, v).
Proof.
  intros HG HGR HT Hd Hi Hlk. pose proof (lk_wf _ _ _ _ Hlk) as Hwf. pose proof (objects_wf par _ _ _ _ Hwf HT) as Hm.
  destruct (lk_task _ _ _ _ Hlk) as (T' & HT' & Hts). assert (T' = T) as -> by congruence. clear HT'.
  destruct (ts_position _ _ Hts) as (d0 & Hd0 & Hv0). assert (content_wf d) as Hdw by (by eapply map_wf_elem).
  pose proof HT as (x & Hx & Hlx)%objects_view.
  assert (da_type d0 ≠ REDUCTION_ACCESS_TYPE) as Hty.
  { apply (vo_objects _ _ _ _ (wf_view _ _ Hwf _ _ Hx) access_type d0). by rewrite Hlx. }
  pose proof Hi as Hib. apply intersects_spec in Hib; [|done|done]. assert (cstart d < rf) as Hds by lia.
  destruct (ts_linked _ _ Hts d Hd Hds) as (Hde & _ & _).
  destruct (elem_split _ _ Hd) as (l1 & l2 & ->).
  apply awp_bind, awp_local, awp_bind, awp_shared. rewrite Hv0.
  change (mkRef (link_task next) access_type (node_key d0)) with (aref t access_type d0).
  eapply owp_readAccess; [exact HT|done|done|]. rewrite bool_decide_eq_false_2 by done. simpl andb.
  apply awp_bind, awp_ret, awp_bind, awp_shared.
  change (mkRef (link_task next) access_type (node_key d)) with (aref t access_type d).
  eapply owp_fragmentAccess; [done..|].
  set (o1 := split t access_type l1 d l2 G o). set (m := middle_piece d G).
  assert (pstep par o o1) as Hs1 by (by eapply step_split).
  assert (wf par o1) as Hwf1 by (by eapply pstep_wf).
  pose proof (split_app t access_type l1 d l2 G o HT) as Hl1. fold o1 m in Hl1.
  pose proof Hl1 as (x1 & Hx1 & Hlx1)%objects_view.
  destruct (wf_lookup _ _ _ _ _ _ _ _ Hwf1 Hx1 Hlx1) as (_ & _ & Hmo & _).
  pose proof (satisfy_ok _ _ _ Hmo) as Hc.
  assert (∀ v' : link_vars, lv_dataAccess v' = (if node_key d =? node_key d0 then node_key m else node_key d0) →
    lv_parentAccessType v' = lv_parentAccessType v →
    owpL (st_shared (changeAccess handle (aref t access_type m) satisfy);; mret true)
      (λ c s, c = true ∧ linking b g s.1 s.2 ∧ keeps (objects t access_type) (cend d) o s.1 ∧
         same_parent o s.1) (o1, v')) as Hrest.
  { intros v' Hv' Hty'. apply awp_bind, awp_shared. eapply awp_mono.
    - eapply (owp_changeAccess_quiet mc par (S n) N); [apply handle_ok_all; [exact Hpar|lia]| |exact Hwf1|exact Hl1|exact Hc|].
      + eapply bounded_mono; [by eapply pstep_tasks|apply Hlk].
      + by right; right.
    - intros [] o' Hq. apply awp_ret. split; [done|]. cbn [fst snd].
      pose proof (visited_quiet par t access_type G l1 d l2 satisfy o o' Hwf HT HG Hi Hc Hq) as Hv. fold m in Hv.
      split_and!; [|eapply visited_keeps; [exact Hwf|exact HT|done|done| |exact Hv]; done|by eapply visited_parent].
      eapply linking_visited; [exact Hlk|exact HT|done|done|done| | | |exact Hv| |done]; [done..|]. by rewrite Hv0. }
  apply awp_bind, awp_when; intros Heq.
  - apply awp_set_local, Hrest; [|done]. by rewrite Heq.
  - apply Hrest; [|done]. by rewrite Heq.
Qed.

(** A part of the region that the parent does not access is satisfied at once. *)
Lemma owp_missing a b g o v A :
  objects p access_type o = Some A → rs ≤ a → a < b → b ≤ rf →
  (∀ c, c ∈ A → cend c ≤ a ∨ b ≤ cstart c) → linking a g o v →
  owpL (_ ← processIntersecting (shared_ref (objects_of t access_type)) (mkRegion a (b - a))
          (satisfy_missing mc (S n) next (mkRegion a (b - a))); mret true)
    (λ c s, c = true ∧ linking b g s.1 s.2 ∧ same_parent o s.1) (o, v).
Proof.
  intros HA Ha Hab Hb Hgap Hlk. pose proof (lk_wf _ _ _ _ Hlk) as Hwf.
  assert (region_wf (mkRegion a (b - a))) as HG by (unfold region_wf in *; simpl; lia).
  destruct (lk_task _ _ _ _ Hlk) as (T & HT & _).
  set (I := λ (_ : list (DataAccess B)) (s : obs B * link_vars), linking a g s.1 s.2 ∧ same_parent o s.1).
  apply awp_bind. eapply awp_mono.
  - eapply (awp_processIntersecting _ _ _ _ (seen_shared _ _ _ _ (objects_seen t access_type)) _ _ I);
      [exact HG|exact HT|by eapply objects_wf| |done].
    intros d rest [o1 v1] T1 HT1 Hm1 Hd Hi [Hlk1 Hp1]. simpl in HT1, Hp1, Hlk1.
    eapply awp_mono; [eapply owp_satisfy_missing; [exact HG|simpl; lia|exact HT1|exact Hd|exact Hi|exact Hlk1]|].
    intros c [o2 v2] (-> & Hlk2 & (k1 & k2 & Hk) & Hp2). simpl in *. split_and!; [done| |by exists k1, k2].
    split; [done|]. by eapply same_parent_trans.
  - intros c [o1 v1] (_ & Hlk1 & Hp1). simpl in *. apply awp_ret. split_and!; [done| |done].
    destruct Hlk1 as [Hwf1 Hb1 Hs1 (A1 & F & Bm & HA1' & HF & Htw & HBm & [Hc1 Hc2 Hc3 Hc4]) Htask Hty].
    split; try done. exists A1, F, Bm. split_and!; try done. split; try done.
    rewrite (proj1 Hp1), HA in HA1'. injection HA1' as <-.
    eapply coverage_gap; [exact (objects_wf par _ _ _ _ Hwf HA)|exact Hc1|done|done|lia].
Qed.

(** ** An access of the parent without subaccesses *)

Section gap.
Context (g1 g2 : Z) (Hg1 : rs ≤ g1) (Hg : g1 < g2) (Hg2 : g2 ≤ rf).
Notation G := (mkRegion g1 (g2 - g1)).

(** Where no entry is, the access has no subaccesses. *)
Lemma no_subaccesses A F Bm a :
  map_wf A → parent_state (Z.max g1 (cstart a)) g2 A F Bm → a ∈ A → g1 < cend a → cstart a < g2 →
  hasSubaccesses a = false ∧ (∀ e, e ∈ Bm → apart a e) ∧ (∀ f, f ∈ F → apart a f) ∧ (cstart a < g1 → g1 = rs).
Proof.
  intros HA [[Hs Hf] Hcl _ _] Ha H1 H2. pose proof (cstart_cend a (map_wf_elem _ _ HA Ha)).
  destruct (hasSubaccesses a) eqn:Hsub.
  - exfalso. destruct (Hs a (Z.max g1 (cstart a)) Ha Hsub) as [(e & He & Hx)|Hx]; [lia| |lia].
    specialize (Hcl e He). lia.
  - destruct (Hf a Ha Hsub) as (He & Hfr & Hb). split_and!; [done|done|done|]. intros Hlt. lia.
Qed.

(** The entries of the parts of the access outside of the gap. *)
Lemma excluded_outside A F Bm a c :
  map_wf A → parent_state (Z.max g1 (cstart a)) g2 A F Bm → a ∈ A → intersects G a → region_wf G →
  (g2 < rf → ∃ e, e ∈ Bm ∧ cstart e = g2 ∧ content_wf e) →
  c ∈ excluded_entries a G → content_wf c ∧ inside c a ∧ (cend c ≤ rs ∨ rf ≤ cstart c) ∧
  bme_link c = mkLink (da_originator a) fragment_type ∧ bme_accessType c = da_type a.
Proof.
  intros HA Hps Ha Hi HG Hguard Hc. assert (content_wf a) as Haw by (by eapply map_wf_elem).
  pose proof Hi as Hib. apply intersects_spec in Hib; [|done|done]. simpl in Hib.
  destruct (no_subaccesses A F Bm a HA Hps Ha) as (_ & Hap & _ & Hleft); [lia|lia|].
  rewrite excluded_closed in Hc by done. pose proof (rest_entry _ _ _ Hc) as [Hl Hty].
  assert (content_wf (whole_entry a)) as Hww by exact Haw.
  assert (intersects G (whole_entry a)) as Hwi by exact Hi.
  destruct (rest_bounds (whole_entry a) G Hww HG Hwi c Hc) as [Hin Hout].
  assert (content_wf c) as Hcw.
  { apply (pieces_bounds (whole_entry a) G c HG Hww Hwi). unfold pieces. apply elem_of_app in Hc.
    rewrite elem_of_app, elem_of_cons. tauto. }
  split_and!; [done|exact Hin| |done|done]. pose proof (cstart_cend c Hcw) as Hlt. simpl in Hout.
  assert (cstart (whole_entry a) = cstart a ∧ cend (whole_entry a) = cend a) as [Hws Hwe] by done.
  unfold inside in Hin. rewrite Hws, Hwe in *. destruct Hout as [Hle|Hge]; [left; lia|].
  right. destruct (decide (g2 = rf)) as [->|Hne]; [lia|]. destruct Hguard as (e & He & Hes & Hew); [lia|].
  pose proof (cstart_cend e Hew). destruct (Hap e He); lia.
Qed.

Lemma parent_state_fragment a1 a a2 F F' b1 b2 :
  let A := a1 ++ a :: a2 in
  map_wf A → parent_state (Z.max g1 (cstart a)) g2 A F (b1 ++ b2) → intersects G a → region_wf G →
  (g2 < rf → ∃ e, e ∈ b1 ++ b2 ∧ cstart e = g2 ∧ content_wf e) →
  da_originator a = p → plain a → refines F' (first_fragment mc a :: F) →
  parent_state (Z.min (cend a) g2) g2 (a1 ++ setHasSubaccesses a :: a2) F' (b1 ++ excluded_entries a G ++ b2).
Proof.
  intros A HA Hps Hi HG Hguard Ho Hpl HF'. pose proof (Hpar _ _ Htp) as Hlt.
  assert (a ∈ A) as Ha by apply elem_middle. assert (content_wf a) as Haw by (by eapply map_wf_elem).
  pose proof (λ c, excluded_outside A F (b1 ++ b2) a c HA Hps Ha Hi HG Hguard) as Hex.
  pose proof Hi as Hib. apply intersects_spec in Hib; [|done|done]. simpl in Hib.
  assert (∀ c, c ∈ b1 ++ excluded_entries a G ++ b2 → c ∈ b1 ++ b2 ∨ c ∈ excluded_entries a G) as Hin.
  { intros c. rewrite !elem_of_app. tauto. }
  destruct (initial_copy_fields mc a Hpl) as (_ & _ & _ & _ & Hreg & _).
  destruct Hps as [Hc1 Hc2 Hc3 Hc4]. split.
  - eapply (coverage_fragment a1 a a2 F F' (first_fragment mc a)); [exact HA|exact Hc1|done|done|done|done|exact Hreg|lia|lia|done|..].
    + intros e. rewrite !elem_of_app. tauto.
    + intros e [He|He]%Hin; [by left|]. right. by apply Hex.
    + intros x Hx Hout. destruct (rest_covers (whole_entry a) G x) as (c & Hc & Hcx); [exact Haw|exact HG|exact Hi|exact Hx|simpl; lia|].
      exists c. split; [|done]. rewrite <- excluded_closed in Hc by done. rewrite !elem_of_app. tauto.
  - intros e [He|He]%Hin; [by apply Hc2|]. right. destruct (Hex e He) as (_ & _ & [?|?] & _); lia.
  - apply Forall_forall. rewrite Forall_forall in Hc3. intros e [He|He]%Hin; [by apply Hc3|].
    unfold not_waiting. destruct (Hex e He) as (_ & _ & _ & -> & _). done.
  - intros e [He|He]%Hin Het; [by apply Hc4|]. destruct (Hex e He) as (_ & _ & _ & Hl & _).
    rewrite Hl in Het. simpl in Het. lia.
Qed.

Lemma spares_fragment : spares par kept p fragment_type.
Proof.
  pose proof (Hpar _ _ Htp) as Hlt. intros u k Hu. split; [done|]. intros [-> Hk]. destruct Hu as [[? _]|[_ Hne]]; [lia|].
  by destruct k.
Qed.

Lemma linking_fragment a1 a a2 F f1 f2 b1 b2 o v :
  linking (Z.max g1 (cstart a)) g2 o v → objects p access_type o = Some (a1 ++ a :: a2) →
  objects p fragment_type o = Some F → F = f1 ++ f2 → bottom p o = Some (b1 ++ b2) →
  intersects G a → region_wf G → (g2 < rf → ∃ e, e ∈ b1 ++ b2 ∧ cstart e = g2 ∧ content_wf e) →
  let o1 := with_fragment mc p a1 a a2 f1 f2 b1 b2 G o in
  lsteps o o1 → map_wf (f1 ++ first_fragment mc a :: f2) →
  linking (Z.min (cend a) g2) g2 o1 v.
Proof.
  intros Hlk HA HF -> HBm Hi HG Hguard o1 Hs Hmf. pose proof (Hpar _ _ Htp) as Hlt.
  destruct (with_fragment_objects mc p a1 a a2 f1 f2 b1 b2 G o HA HF HBm) as (Hf1 & Ha1 & Hb1 & Hne).
  pose proof (objects_wf par _ _ _ _ (lk_wf _ _ _ _ Hlk) HA) as HAw.
  pose proof HA as (x & Hx & Hlx)%objects_view.
  destruct (wf_lookup _ _ _ _ _ _ _ _ (lk_wf _ _ _ _ Hlk) Hx Hlx) as (_ & _ & [Ho _ Hpl _ _ _] & _).
  destruct Hlk as [Hwf Hb Hst (A & F & Bm & HA' & HF' & Htw & HBm' & Hps) (T & HT & Hts) Hty].
  rewrite HA in HA'. injection HA' as <-. rewrite HF in HF'. injection HF' as <-. rewrite HBm in HBm'. injection HBm' as <-.
  split.
  - eapply tsteps_wf; [exact Hwf|by apply lsteps_tsteps].
  - eapply bounded_mono; [by eapply tsteps_tasks, lsteps_tsteps|done].
  - by etrans.
  - eexists _, _, _. split_and!; [exact Ha1|exact Hf1| |exact Hb1|].
    + rewrite Hne; [exact Htw|]. by intros [_ ?].
    + eapply parent_state_fragment; try done. intros c Hc. exists c. split_and!; [set_solver|split; lia|done].
  - exists T. rewrite Hne; [done|]. intros [? _]. lia.
  - done.
Qed.

(** The places of the new fragment and entries. *)
Lemma fragment_places a A F Bm o v :
  linking (Z.max g1 (cstart a)) g2 o v → objects p access_type o = Some A → objects p fragment_type o = Some F →
  bottom p o = Some Bm → a ∈ A → intersects G a → region_wf G →
  (g2 < rf → ∃ e, e ∈ Bm ∧ cstart e = g2 ∧ content_wf e) →
  ∃ f1 f2 b1 b2, F = f1 ++ f2 ∧ Bm = b1 ++ b2 ∧ map_wf (f1 ++ first_fragment mc a :: f2) ∧
    map_wf (b1 ++ excluded_entries a G ++ b2) ∧ Forall (entry_ok par o p) (b1 ++ excluded_entries a G ++ b2).
Proof.
  intros Hlk HA HF HBm Ha Hi HG Hguard. pose proof (lk_wf _ _ _ _ Hlk) as Hwf.
  pose proof (objects_wf par _ _ _ _ Hwf HA) as HAw. assert (content_wf a) as Haw by (by eapply map_wf_elem).
  pose proof HA as (x & Hx & Hlx)%objects_view.
  destruct (vo_objects _ _ _ _ (wf_view _ _ Hwf _ _ Hx) access_type a) as [Ho _ Hpl _ _ _]; [by rewrite Hlx|].
  destruct (initial_copy_fields mc a Hpl) as (_ & _ & _ & _ & Hreg & _).
  destruct (lk_parent _ _ _ _ Hlk) as (A' & F' & Bm' & HA' & HF' & _ & HBm' & Hps).
  rewrite HA in HA'. injection HA' as <-. rewrite HF in HF'. injection HF' as <-. rewrite HBm in HBm'. injection HBm' as <-.
  pose proof Hi as Hib. apply intersects_spec in Hib; [|done|done]. simpl in Hib.
  destruct (no_subaccesses A F Bm a HAw Hps Ha) as (_ & Hap & Haf & _); [lia|lia|].
  destruct (map_wf_place F (first_fragment mc a)) as (f1 & f2 & -> & Hmf).
  { by eapply objects_wf. }
  { unfold content_wf. simpl. rewrite Hreg. exact Haw. }
  { intros f Hf. specialize (Haf f Hf). unfold apart, cend, cstart in *. simpl in *. by rewrite Hreg. }
  destruct (map_wf_place Bm (whole_entry a)) as (b1 & b2 & -> & Hmb); [by eapply bottom_wf|exact Haw|exact Hap|].
  exists f1, f2, b1, b2. split_and!; [done|done|done| |].
  - rewrite excluded_closed by done. by apply pieces_rest_wf.
  - pose proof (vo_entries _ _ _ _ (wf_view _ _ Hwf _ _ Hx)) as Hent.
    pose proof HBm as (x' & Hx' & Hxb)%bottom_view. assert (x' = x) as -> by congruence. rewrite Hxb in Hent.
    apply Forall_app in Hent as [He1 He2]. apply Forall_app. split; [done|]. apply Forall_app. split; [|done].
    apply Forall_forall. intros c Hc.
    destruct (excluded_outside A (f1 ++ f2) (b1 ++ b2) a c HAw Hps Ha Hi HG Hguard Hc) as (_ & _ & _ & Hl & Hty).
    unfold entry_ok. rewrite Hl, Hty, Ho. split_and!; [by exists x|done|apply Hpl].
Qed.

Lemma fragment_keeps a1 a a2 F b1 b2 o o' v :
  linking (Z.max g1 (cstart a)) g2 o v → objects p access_type o = Some (a1 ++ a :: a2) →
  objects p fragment_type o = Some F → bottom p o = Some (b1 ++ b2) → intersects G a → region_wf G →
  (g2 < rf → ∃ e, e ∈ b1 ++ b2 ∧ cstart e = g2 ∧ content_wf e) → wf par o' →
  objects p access_type o' = Some (a1 ++ setHasSubaccesses a :: a2) →
  bottom p o' = Some (b1 ++ excluded_entries a G ++ b2) →
  keeps_within (objects p access_type) (cend a) o o' ∧ (g2 < rf → keeps (bottom p) g2 o o').
Proof.
  intros Hlk HA HF HBm Hi HG Hguard Hwf' HA' HBm'. pose proof (lk_wf _ _ _ _ Hlk) as Hwf.
  pose proof (objects_wf par _ _ _ _ Hwf HA) as HAw. pose proof (objects_wf par _ _ _ _ Hwf' HA') as HAw'.
  assert (content_wf a) as Haw by (eapply map_wf_elem; [exact HAw|apply elem_middle]).
  pose proof (cstart_cend a Haw) as Hlt. split; [split|].
  - eapply (keeps_middle _ a1 a [setHasSubaccesses a] a2); [exact HA|exact HA'|done|done|].
    intros c ->%list_elem_of_singleton. exact Hlt.
  - intros l c. rewrite HA'. intros [= <-] Hc Hk.
    apply map_wf_app in HAw as (_ & (_ & _ & H2)%map_wf_cons & H12).
    apply elem_of_app in Hc as [Hc|[->|Hc]%elem_of_cons].
    + specialize (H12 c a Hc ltac:(by left)). lia.
    + unfold cend, cstart. simpl. lia.
    + specialize (H2 c Hc). unfold node_key in Hk. unfold cstart in H2. lia.
  - intros Hlt2. eexists _, _. split_and!; [exact HBm|exact HBm'|exact (bottom_wf par _ _ _ Hwf' HBm')|].
    rewrite !filter_app. f_equal. rewrite (filter_none _ (excluded_entries a G)); [done|].
    intros c Hc. destruct (lk_parent _ _ _ _ Hlk) as (A' & F' & Bm' & HA2 & HF2 & _ & HBm2 & Hps).
    rewrite HA in HA2. injection HA2 as <-. rewrite HBm in HBm2. injection HBm2 as <-.
    assert (a ∈ a1 ++ a :: a2) as Ha by apply elem_middle.
    destruct (excluded_outside _ _ _ a c HAw Hps Ha Hi HG Hguard Hc) as (Hcw & Hin & Hout & _).
    pose proof (cstart_cend c Hcw). destruct (Hguard Hlt2) as (e & He & Hes & Hew). pose proof (cstart_cend e Hew).
    pose proof Hi as Hib. apply intersects_spec in Hib; [|done|done]. simpl in Hib.
    destruct (no_subaccesses _ _ _ a HAw Hps Ha) as (_ & Hap & _ & _); [lia|lia|].
    specialize (Hap e He). unfold apart, inside in *. unfold node_key. fold (cstart c). lia.
Qed.

(** The access gets its first fragment, which gets the new access as next. *)
Lemma owp_initial_fragment a A Bm o v :
  linking (Z.max g1 (cstart a)) g2 o v → objects p access_type o = Some A → bottom p o = Some Bm →
  a ∈ A → intersects G a → region_wf G →
  (g2 < rf → ∃ e, e ∈ Bm ∧ cstart e = g2 ∧ content_wf e) →
  owpL (initial_fragment mc (S n) p G (link_previous mc (S n) next) (node_key a))
    (λ c s, c = true ∧ linking (Z.min (cend a) g2) g2 s.1 s.2 ∧
       keeps_within (objects p access_type) (cend a) o s.1 ∧ (g2 < rf → keeps (bottom p) g2 o s.1)) (o, v).
Proof.
  intros Hlk HA HBm Ha Hi HG Hguard. pose proof (lk_wf _ _ _ _ Hlk) as Hwf.
  destruct (lk_parent _ _ _ _ Hlk) as (_ & F & _ & _ & HF & _).
  destruct (fragment_places a A F Bm o v Hlk HA HF HBm Ha Hi HG Hguard)
    as (f1 & f2 & b1 & b2 & -> & -> & Hmf & Hmb & Hent).
  apply elem_split in Ha as (a1 & a2 & ->).
  pose proof (object_first par p a1 a a2 o Hwf HA) as Hobj.
  pose proof (with_copy_objects mc p a1 a a2 f1 f2 b1 b2 G o HA HF HBm) as (Hcf & _ & _).
  pose proof (with_fragment_objects mc p a1 a a2 f1 f2 b1 b2 G o HA HF HBm) as (Hff & Hfa & Hfb & Hne).
  pose proof (with_fragment_steps mc par p a1 a a2 f1 f2 b1 b2 G o Hwf HA HF Hmf HBm Hmb Hent) as Hs.
  pose proof (tsteps_wf par _ _ Hwf (lsteps_tsteps _ _ _ Hs)) as Hwf1.
  assert (linking (Z.min (cend a) g2) g2 (with_fragment mc p a1 a a2 f1 f2 b1 b2 G o) v) as Hlk1.
  { eapply linking_fragment; [exact Hlk|exact HA|exact HF|done|exact HBm|done..]. }
  apply awp_bind, awp_shared. apply (owp_createInitialFragment mc par p a1 a a2 f1 f2 b1 b2 G o Hwf HA HF Hmf HBm Hmb).
  apply awp_bind, awp_shared. eapply owp_updateAccess; [exact Hcf|by eapply copy_wf|].
  change ((setRegistered ∘ setTopmost) (setInBottomMap (initial_copy mc a))) with (first_fragment mc a).
  fold (with_fragment mc p a1 a a2 f1 f2 b1 b2 G o). set (o1 := with_fragment mc p a1 a a2 f1 f2 b1 b2 G o) in *.
  change (aref p fragment_type (setInBottomMap (initial_copy mc a))) with (aref p fragment_type (first_fragment mc a)).
  apply awp_bind, awp_shared. eapply owp_readEffects; [exact Hwf1|exact Hff|apply elem_middle|].
  apply awp_bind, awp_shared. eapply owp_readAccess; [exact Hff|done|apply elem_middle|].
  apply awp_bind, awp_shared. apply (owp_register_fragment mc par p a1 a a2 f1 f2 b1 b2 G o Hwf HA HF Hmf HBm Hmb Hent).
  fold o1. set (f := first_fragment mc a) in *.
  assert (da_region f = da_region a) as Hreg by (apply (initial_copy_fields mc a), Hobj).
  assert (da_type f ≠ REDUCTION_ACCESS_TYPE) as Hty.
  { apply (initial_copy_fields mc a (ok_plain _ _ _ _ Hobj)). }
  assert (intersects G f) as Hif.
  { unfold intersects in *. change (getAccessRegion f) with (da_region f). rewrite Hreg. exact Hi. }
  apply awp_bind, awp_shared. eapply owp_fragmentAccess; [exact Hwf1|exact Hff|done|exact Hif|].
  destruct (lk_task _ _ _ _ Hlk1) as (T & HT & Hts). destruct (ts_position _ _ Hts) as (d & Hd & Hvd).
  pose proof HT as (xt & Hxt & _)%objects_view.
  pose proof Hff as (x1 & Hx1 & Hlx1)%objects_view.
  eapply (owp_link_previous _ _ _ _ T d); [eapply pstep_wf; [exact Hwf1|by eapply step_split]| |exact Hd|exact Hvd|].
  { rewrite (split_frame par p fragment_type kept spares_fragment f1 f f2 G o1 t access_type) by (by left). exact HT. }
  eapply awp_mono.
  { eapply (owp_link_visit mc par n N p fragment_type kept); try done.
    - by apply handle_ok_other.
    - apply spares_fragment.
    - apply Hlk1.
    - intros o2 m Hs2 Hm. eapply link_change_ok; [|exact Hm]. apply Hs2. by exists xt. }
  intros [] o2 [Hq _]. split; [done|]. cbn [fst snd].
  pose proof (linking_quiet _ _ _ _ _ (mkLinkVars (lv_dataAccess v) (lv_hasAllocatedReductionInfo v)
    (lv_previousReductionInfo v) (da_type f)) _ Hlk1 Hq eq_refl Hty) as Hlk2.
  split; [exact Hlk2|]. eapply fragment_keeps; [exact Hlk|exact HA|exact HF|exact HBm|done..| | |].
  - by eapply quiet_wf.
  - rewrite (q_frame _ _ _ _ _ Hq) by (by right). exact Hfa.
  - rewrite (q_bottoms _ _ _ _ _ Hq). exact Hfb.
Qed.
End gap.

(** ** A part of the region without entries *)

Lemma linking_clear b g g' o v Bm :
  linking b g o v → bottom p o = Some Bm → rs ≤ g → (∀ e, e ∈ Bm → cend e ≤ g ∨ g' ≤ cstart e) → linking b g' o v.
Proof.
  intros [Hwf Hb Hs (A & F & Bm0 & HA & HF & Htw & HBm0 & [Hc1 Hc2 Hc3 Hc4]) Htask Hty] HBm Hrs Hgap.
  assert (Bm0 = Bm) as -> by congruence. split; try done. exists A, F, Bm. split_and!; try done. split; try done.
  intros e He. pose proof (cstart_cend e (map_wf_elem _ _ (bottom_wf par _ _ _ Hwf HBm) He)).
  specialize (Hc2 e He). specialize (Hgap e He). lia.
Qed.

Lemma keeps_guard g o o' Bm Bm' e :
  keeps (bottom p) g o o' → bottom p o = Some Bm → bottom p o' = Some Bm' → e ∈ Bm → cstart e = g → e ∈ Bm'.
Proof.
  intros (l & l' & Hl & Hl' & _ & Hf) HB HB' He Hes. rewrite HB in Hl. injection Hl as <-.
  rewrite HB' in Hl'. injection Hl' as <-.
  assert (e ∈ filter (λ c, g ≤ node_key c) Bm) as Hin.
  { apply list_elem_of_filter. split; [|done]. unfold node_key. fold (cstart e). lia. }
  rewrite <- Hf in Hin. by apply list_elem_of_filter in Hin as [_ ?].
Qed.

Lemma owp_gap g1 g2 o v Bm :
  rs ≤ g1 → g1 < g2 → g2 ≤ rf → bottom p o = Some Bm → (∀ e, e ∈ Bm → cend e ≤ g1 ∨ g2 ≤ cstart e) →
  (g2 < rf → ∃ e, e ∈ Bm ∧ cstart e = g2) → linking g1 g1 o v →
  owpL (_ ← processIntersectingAndMissing (shared_ref (objects_of p access_type)) (mkRegion g1 (g2 - g1))
          (initial_fragment mc (S n) p (mkRegion g1 (g2 - g1)) (link_previous mc (S n) next))
          (λ missingRegion,
             _ ← processIntersecting (shared_ref (objects_of t access_type)) missingRegion
                   (satisfy_missing mc (S n) next missingRegion);
             mret true);
        mret true)
    (λ c s, c = true ∧ linking g2 g2 s.1 s.2 ∧ (g2 < rf → keeps_within (bottom p) g2 o s.1)) (o, v).
Proof.
  intros Hg1 Hg Hg2 HBm Hgap Hguard Hlk0.
  pose proof (linking_clear _ _ g2 _ _ _ Hlk0 HBm Hg1 Hgap) as Hlk. pose proof (lk_wf _ _ _ _ Hlk) as Hwf.
  pose proof (bottom_wf par _ _ _ Hwf HBm) as HBw.
  assert (region_wf (mkRegion g1 (g2 - g1))) as HG by (unfold region_wf in *; simpl; lia).
  destruct (lk_parent _ _ _ _ Hlk) as (A & _ & _ & HA & _).
  set (I := λ b (s : obs B * link_vars), linking b g2 s.1 s.2 ∧ (g2 < rf → keeps (bottom p) g2 o s.1)).
  apply awp_bind. eapply awp_mono.
  - eapply (awp_processIntersectingAndMissing _ _ _ _ (seen_shared _ _ _ _ (objects_seen p access_type)) _ _ _ I);
      [exact HG|simpl; lia|exact HA|by eapply objects_wf| | |].
    + intros a [o1 v1] A1 HA1 Hm1 Ha Hi [Hlk1 Hk1]. simpl in HA1, Hlk1, Hk1. cbn [startAddress rlength] in *.
      replace (g1 + (g2 - g1)) with g2 by lia. destruct (lk_parent _ _ _ _ Hlk1) as (_ & _ & Bm1 & _ & _ & _ & HBm1 & _).
      eapply awp_mono; [eapply (owp_initial_fragment g1 g2 Hg1 Hg Hg2 a A1 Bm1); try done|].
      { intros Hlt. destruct (Hguard Hlt) as (e & He & Hes). exists e. split_and!; [|done|by eapply map_wf_elem].
        eapply keeps_guard; [exact (Hk1 Hlt)|exact HBm|exact HBm1|done|done]. }
      intros c [o2 v2] (-> & Hlk2 & [(k1 & k2 & Hk) Hw] & Hk2). simpl in Hlk2, Hk2, Hk, Hw. split_and!; [done| |].
      * split; [done|]. intros Hlt. eapply keeps_trans; auto.
      * split; [by exists k1, k2|exact Hw].
    + intros a b [o1 v1] A1 HA1 Hm1 Ha Hab Hb Hd _ [Hlk1 Hk1]. simpl in HA1, Hlk1, Hk1. cbn [startAddress rlength] in *.
      eapply awp_mono; [eapply (owp_missing a b g2 o1 v1 A1); [exact HA1|lia|lia|lia|done|done]|].
      intros c [o2 v2] (-> & Hlk2 & [Hp2 Hb2]). simpl in Hlk2, Hp2, Hb2. split_and!; [done| |].
      * split; [done|]. intros Hlt. destruct (Hk1 Hlt) as (k1 & k2 & ? & ? & ? & ?). exists k1, k2. simpl. by rewrite Hb2.
      * intros Hlt. split.
        -- eapply keeps_same; [exact HA1|simpl; by rewrite Hp2|done].
        -- intros l' c. simpl. rewrite Hp2, HA1. intros [= <-] Hc Hkc. pose proof (cstart_cend c (map_wf_elem _ _ Hm1 Hc)).
           unfold node_key in Hkc. fold (cstart c) in Hkc. destruct (Hd c Hc); lia.
    + split; [exact Hlk|]. intros Hlt. by eapply keeps_same.
  - intros c [o1 v1] (-> & Hlk1 & Hk1). simpl in Hlk1, Hk1. apply awp_ret. replace (g1 + (g2 - g1)) with g2 in Hlk1 by lia.
    split_and!; [done|done|]. intros Hlt. split; [auto|]. intros l' e Hl' He Hke. simpl in Hl'.
    destruct (lk_parent _ _ _ _ Hlk1) as (_ & _ & Bm1 & _ & _ & _ & HBm1 & [_ Hcl _ _]).
    rewrite HBm1 in Hl'. injection Hl' as <-. specialize (Hcl e He). unfold node_key in Hke. fold (cstart e) in Hke. lia.
Qed.

(** ** The whole region *)

(** After the access has been linked. *)
Record access_linked o : Prop := {
  ld_wf : wf par o;
  ld_bounded : bounded N o;
  ld_steps : lsteps o0 o;
  ld_parent : ∃ A F Bm, objects p access_type o = Some A ∧ objects p fragment_type o = Some F ∧
    objects p taskwait_type o = Some [] ∧ bottom p o = Some Bm ∧ coverage A F Bm 0 0 ∧ Forall not_waiting Bm ∧
    ∀ e, e ∈ Bm → link_task (bme_link e) = t → cend e ≤ rf;
  ld_task : ∃ T q, objects t access_type o = Some T ∧ task_state T q;
}.

(** The new access becomes the last one of its region. *)
Lemma owp_link_entry o v (Q : unit → obs B → Prop) :
  linking rf rf o v → (∀ o', access_linked o' → Q tt o') →
  owp (map_insert (bottomMap_of p) (mkBottomMapEntry R next (lv_parentAccessType v))) Q o.
Proof.
  intros [Hwf Hb Hs (A & F & Bm & HA & HF & Htw & HBm & [Hc1 Hc2 Hc3 Hc4]) (T & HT & Hts) Hty] HQ.
  set (e := mkBottomMapEntry R next (lv_parentAccessType v)).
  assert (cstart e = rs ∧ cend e = rf) as [Hes Hee] by done.
  assert (content_wf e) as He by (split; [exact HR|exact HRpos]).
  destruct (map_wf_place Bm e) as (b1 & b2 & -> & Hm); [by eapply bottom_wf|done| |].
  { intros c Hc. unfold apart. rewrite Hes, Hee. specialize (Hc2 c Hc). lia. }
  eapply (awp_map_insert _ _ _ _ (bottom_seen p)); [exact HBm|exact Hm|]. apply HQ.
  pose proof HBm as (x & Hx & Hxb)%bottom_view. pose proof HT as (xt & Hxt & _)%objects_view.
  assert (tstep par o (put_bottom p (b1 ++ e :: b2) o)) as Hst.
  { eapply step_link; [exact Hx|exact Hm|]. pose proof (vo_entries _ _ _ _ (wf_view _ _ Hwf _ _ Hx)) as Hent.
    rewrite Hxb in Hent. apply Forall_app in Hent as [H1 H2]. apply Forall_app. split; [done|]. constructor; [|done].
    split_and!; [by exists xt|done|done]. }
  split.
  - by eapply tstep_wf.
  - eapply bounded_mono; [by eapply tstep_tasks|done].
  - eapply rtc_r; [exact Hs|by apply lstep_bottom].
  - exists A, F, (b1 ++ e :: b2). rewrite !objects_put_bottom. split_and!; [done..|by eapply bottom_put| | |].
    + eapply coverage_link; [by eapply objects_wf|exact Hc1|done|done|lia].
    + rewrite Forall_app, Forall_cons. apply Forall_app in Hc3 as [H1 H2]. done.
    + intros c Hc Hct. apply elem_of_app in Hc as [Hc|[->|Hc]%elem_of_cons]; [|by rewrite Hee|].
      * specialize (Hc4 c ltac:(set_solver) Hct). lia.
      * specialize (Hc4 c ltac:(set_solver) Hct). lia.
  - exists T, (lv_dataAccess v). by rewrite objects_put_bottom.
Qed.

Lemma owp_replaceMatchingInBottomMapLinkAndPropagate d T o :
  objects t access_type o = Some T → d ∈ T → da_region d = R →
  linking rs rs o (mkLinkVars (node_key d) false None NO_ACCESS_TYPE) →
  owp (replaceMatchingInBottomMapLinkAndPropagate mc (S n) next (node_key d) p) (λ _ o', access_linked o') o.
Proof.
  intros HT Hd Hreg Hlk. pose proof (lk_wf _ _ _ _ Hlk) as Hwf.
  apply awp_bind. change (mkRef (link_task next) access_type (node_key d)) with (aref t access_type d).
  eapply owp_readAccess; [exact HT|by eapply objects_wf|done|]. rewrite Hreg.
  destruct (lk_parent _ _ _ _ Hlk) as (_ & _ & Bm & _ & _ & _ & HBm & _).
  set (I := λ b (s : obs B * link_vars), linking b b s.1 s.2).
  apply awp_bind, awp_with. eapply awp_mono.
  - eapply (awp_processIntersectingAndMissing _ _ _ _ (seen_shared _ _ _ _ (bottom_seen p)) _ _ _ I);
      [exact HR|exact HRpos|exact HBm|by eapply bottom_wf| | |exact Hlk].
    + intros e [o1 v1] Bm1 HBm1 Hm1 He Hi Hlk1. simpl in HBm1, Hlk1.
      eapply awp_mono; [by eapply owp_bottom_map_match|].
      intros c [o2 v2] (-> & Hlk2 & [(k1 & k2 & Hk) Hw]). simpl in Hlk2, Hk, Hw.
      split_and!; [done|done|]. split; [by exists k1, k2|exact Hw].
    + intros a b [o1 v1] Bm1 HBm1 Hm1 Ha Hab Hb Hgap Hguard Hlk1. simpl in HBm1, Hlk1.
      eapply awp_mono; [by eapply owp_gap|].
      intros c [o2 v2] (-> & Hlk2 & Hk). simpl in Hlk2. split_and!; [done|done|].
      intros Hlt. destruct (Hk Hlt) as [(k1 & k2 & Hk1) Hw]. simpl in Hk1, Hw. split; [by exists k1, k2|exact Hw].
  - intros c [o1 v1] (-> & Hlk1). simpl in Hlk1. simpl. by eapply owp_link_entry.
Qed.
End access.

(** ** All the accesses of the task *)

Section accesses.
Context (oa : obs B).

Definition in_place (d : DataAccess B) : Prop := isRegistered d = true ∧ anchored d = true.

(** The parent while the accesses [rest] of the task are still to be linked. *)
Definition parent_open (rest : list (DataAccess B)) o : Prop :=
  ∃ A F Bm, objects p access_type o = Some A ∧ objects p fragment_type o = Some F ∧
    objects p taskwait_type o = Some [] ∧ bottom p o = Some Bm ∧ coverage A F Bm 0 0 ∧ Forall not_waiting Bm ∧
    ∀ e c, e ∈ Bm → link_task (bme_link e) = t → c ∈ rest → cend e ≤ cstart c.

Record link_loop (rest : list (DataAccess B)) o : Prop := {
  ll_wf : wf par o;
  ll_bounded : bounded N o;
  ll_steps : lsteps oa o;
  ll_parent : parent_open rest o;
  ll_task : ∃ before, objects t access_type o = Some (before ++ rest) ∧ Forall in_place before ∧ Forall (fresh t) rest;
}.

(** The access is registered as the last one of its region. *)
Lemma register_ok o d : fresh t d → change_ok o access_type d ((setRegistered ∘ setInBottomMap) d).
Proof.
  intros [Ht _ _ Hs Hn Hi Hp]. split; try done.
  - unfold plain, receivedReductionCpuSet, allocatedReductionInfo. simpl. by rewrite Hs.
  - repeat constructor; simpl; try apply implb_same; apply implb_true_r.
  - by right.
  - simpl. by rewrite Hn.
Qed.

Lemma owp_register_access d before rest o (Q : unit → obs B → Prop) :
  wf par o → objects t access_type o = Some (before ++ d :: rest) → fresh t d →
  Q tt (change par t access_type before d ((setRegistered ∘ setInBottomMap) d) rest o) →
  owp (changeAccess handle (aref t access_type d) (setRegistered ∘ setInBottomMap)) Q o.
Proof.
  intros Hwf HT Hd HQ. eapply owp_changeAccess_simple; [exact Hwf|exact HT|by apply register_ok| | |exact HQ].
  - unfold links, hasNext. simpl. by rewrite (fr_next _ _ Hd).
  - by right; right.
Qed.

(** Sorted accesses split at an address. *)
Lemma split_at (T : list (DataAccess B)) b :
  map_wf T → T = filter (λ c, node_key c < b) T ++ filter (λ c, b ≤ node_key c) T.
Proof.
  induction T as [|c T IH]; intros Hm; [done|]. apply map_wf_cons in Hm as (Hc & Hm & HcT). rewrite !filter_cons.
  destruct (decide (node_key c < b)) as [Hlt|Hge].
  - rewrite (decide_False (P := b ≤ node_key c)) by lia. simpl. f_equal. auto.
  - rewrite (decide_True (P := b ≤ node_key c)) by lia.
    assert (∀ c', c' ∈ T → b ≤ node_key c') as Hall.
    { intros c' Hc'. specialize (HcT c' Hc'). pose proof (cstart_cend c Hc). unfold node_key in *.
      fold (cstart c) in Hge. fold (cstart c'). lia. }
    rewrite filter_none; [|intros c' Hc'; specialize (Hall c' Hc'); lia]. simpl. f_equal. symmetry.
    by apply filter_all.
Qed.

Lemma beyond_rest before (d : DataAccess B) rest :
  map_wf (before ++ d :: rest) → filter (λ c, cend d ≤ node_key c) (before ++ d :: rest) = rest.
Proof.
  intros (H1 & (Hd & _ & H2)%map_wf_cons & H12)%map_wf_app. pose proof (cstart_cend d Hd) as Hlt.
  rewrite filter_app, filter_none, filter_cons, decide_False.
  - simpl. apply filter_all. intros c Hc. specialize (H2 c Hc). exact H2.
  - unfold node_key. fold (cstart d). lia.
  - intros c Hc. specialize (H12 c d Hc ltac:(by left)). unfold node_key. fold (cstart c).
    pose proof (cstart_cend c (map_wf_elem _ _ H1 Hc)). lia.
Qed.

(** One access after the other. *)
Lemma owp_link_access d rest o :
  link_loop (d :: rest) o →
  owp (changeAccess handle (mkRef t access_type (node_key d)) (setRegistered ∘ setInBottomMap);;
       replaceMatchingInBottomMapLinkAndPropagate mc (S n) next (node_key d) p;;
       mret true)
    (λ c o', c = true ∧ link_loop rest o' ∧ keeps (objects t access_type) (cend d) o o') o.
Proof.
  intros [Hwf Hb Hs (A & F & Bm & HA & HF & Htw & HBm & Hcov & Hnw & Hown) (before & HT & Hin & [Hd Hrest]%Forall_cons)].
  pose proof (objects_wf par _ _ _ _ Hwf HT) as Hm. pose proof (Hpar _ _ Htp) as Hlt.
  assert (content_wf d) as Hdw by (eapply map_wf_elem; [exact Hm|apply elem_middle]).
  apply awp_bind. change (mkRef t access_type (node_key d)) with (aref t access_type d).
  eapply owp_register_access; [exact Hwf|exact HT|exact Hd|].
  set (d' := (setRegistered ∘ setInBottomMap) d). set (o1 := change par t access_type before d d' rest o).
  pose proof HT as (x & Hx & Hlx)%objects_view.
  assert (pstep par o o1) as Hst by (eapply step_change; [exact Hx|exact Hlx|by apply register_ok]).
  assert (wf par o1) as Hwf1 by (by eapply pstep_wf).
  assert (o_view o1 = o_view (put_objects t access_type (before ++ d' :: rest) o)) as Hv1 by apply change_view.
  assert (objects t access_type o1 = Some (before ++ d' :: rest)) as HT1.
  { rewrite (objects_ext _ _ _ _ Hv1). by eapply objects_put. }
  assert (∀ k, objects p k o1 = objects p k o) as Hp1.
  { intros k. rewrite (objects_ext _ _ _ _ Hv1). apply objects_put_ne. intros [? _]. lia. }
  assert (bottom p o1 = bottom p o) as Hb1.
  { transitivity (bottom p (put_objects t access_type (before ++ d' :: rest) o)).
    - unfold bottom. by rewrite Hv1.
    - apply bottom_put_objects. }
  pose proof (objects_wf par _ _ _ _ Hwf1 HT1) as Hm1. destruct Hdw as [HR HRpos]. simpl in HR, HRpos.
  apply awp_bind. eapply awp_mono.
  - change (node_key d) with (node_key d').
    eapply (owp_replaceMatchingInBottomMapLinkAndPropagate (da_region d) HR HRpos o1 (before ++ d' :: rest) HT1 d' (before ++ d' :: rest));
      [exact HT1|apply elem_middle|done|].
    split; [done|by eapply bounded_mono; [eapply pstep_tasks|]|done| | |done].
    + exists A, F, Bm. rewrite !Hp1, Hb1. split_and!; try done. split; [by eapply coverage_idle|by left|done|].
      intros e He Het. exact (Hown e d He Het ltac:(by left)).
    + exists (before ++ d' :: rest). split; [done|]. split; [exists d'; split; [apply elem_middle|done]|done|].
      apply map_wf_app in Hm1 as (_ & (_ & _ & H2)%map_wf_cons & H12).
      intros c [Hc|[->|Hc]%elem_of_cons]%elem_of_app Hcs.
      * rewrite Forall_forall in Hin. split; [|by apply Hin]. specialize (H12 c d' Hc ltac:(by left)).
        unfold cstart in H12. simpl in H12. lia.
      * split; [|done]. done.
      * specialize (H2 c Hc). unfold cend, cstart in *. simpl in *. lia.
  - intros [] o2 [Hwf2 Hb2 Hs2 (A2 & F2 & Bm2 & HA2 & HF2 & Htw2 & HBm2 & Hcov2 & Hnw2 & Hown2) (T2 & q & HT2 & [Hpos Hbey Hlk])].
    apply awp_ret. assert (startAddress (da_region d) + rlength (da_region d) = cend d') as Hrf by done.
    rewrite Hrf in *. rewrite beyond_rest in Hbey by done.
    pose proof (objects_wf par _ _ _ _ Hwf2 HT2) as Hm2. split_and!; [done| |].
    + split; [done|done| | |].
      * etrans; [exact Hs|]. etrans; [apply psteps_lsteps; [exact Hwf|by apply rtc_once]|exact Hs2].
      * exists A2, F2, Bm2. split_and!; try done. intros e c He Het Hc. specialize (Hown2 e He Het).
        apply map_wf_app in Hm1 as (_ & (_ & _ & H2)%map_wf_cons & _). specialize (H2 c Hc). lia.
      * exists (filter (λ c, node_key c < cend d') T2). split_and!; [|apply Forall_forall|done].
        -- rewrite HT2. f_equal. rewrite <- Hbey. by apply split_at.
        -- intros c [Hlt' Hc]%list_elem_of_filter. by apply Hlk.
    + exists (before ++ d :: rest), T2. split_and!; [done|done|done|]. rewrite beyond_rest by done. exact Hbey.
Qed.
End accesses.

(** [linkTaskAccesses] *)
Lemma owp_linkTaskAccesses L o :
  wf par o → bounded N o → objects t access_type o = Some L → Forall (fresh t) L → parent_open L o →
  owp (linkTaskAccesses mc (S n) t) (λ _ o', link_loop o [] o') o.
Proof.
  intros Hwf Hb HL Hfr Hop. pose proof HL as (x & Hx & Hlx)%objects_view.
  assert (link_loop o L o) as Hloop by (split; [done..|exists []; by split_and!]).
  apply awp_bind. eapply (awp_map_isEmpty _ _ _ _ (objects_seen t access_type)); [exact HL|].
  destruct L as [|d L]; simpl; [by apply awp_ret|].
  apply awp_bind. eapply owp_readTask; [exact Hx|]. intros y Hy _.
  assert (t_parent y = Some p) as Hyp.
  { rewrite <- Htp, <- (vo_parent _ _ _ _ (wf_view _ _ Hwf _ _ Hx)), <- Hy. done. }
  apply awp_bind. eapply awp_lift; [by rewrite Hyp|]. apply awp_bind. eapply awp_mono.
  - eapply (awp_processAll _ _ _ _ (objects_seen t access_type) _ (link_loop o)); [exact HL|by eapply objects_wf| |exact Hloop].
    intros c rest o1 l Hl Hm Hc _ HI. by apply owp_link_access.
  - intros c o' [_ HI]. by apply awp_ret.
Qed.
End link.
