(* ===== verification/FragmentedCreation.v ===== *)
(** * Fragmented region dependencies: registering the accesses of a new task

    [registerTaskDataAccesses] declares the accesses, holds the task back with two predecessors, links
    the accesses, propagates, and lets the task go: it tells whether the task is ready at once. *)

From S2P Require Import Prelude Region Boost RegionMap RegionMapProofs StateMonad.
From S2P Require Import IntrusiveRegionMap IntrusiveRegionMapProofs IntrusiveRegionMapViews.
From S2P Require Import DataAccessType FragmentedAccess ReductionInfo FragmentedWorld.
From S2P Require Import FragmentedDeps FragmentedProtocol FragmentedInvariant.
From S2P Require Import FragmentedPotential FragmentedObs FragmentedRun FragmentedPropagation.
From S2P Require Import FragmentedWaiting FragmentedContract FragmentedRegistration FragmentedSteady.
From S2P Require Import FragmentedCoverage FragmentedLinking.
Local Open Scope Z_scope.

Section held.
Context {B : Type} `{!DynamicBitset B} `{!DynamicBitsetLaws B}.
Context (par : nat → option nat).
Implicit Types (o : obs B) (d : DataAccess B).

(** ** A task that children can be linked in *)

(** The task is not in a taskwait, and its bottom map covers its subaccesses. *)
Definition covered (t : nat) o : Prop :=
  ∃ A F Bm, objects t access_type o = Some A ∧ objects t fragment_type o = Some F ∧
    objects t taskwait_type o = Some [] ∧ bottom t o = Some Bm ∧ coverage A F Bm 0 0 ∧ Forall not_waiting Bm.

(** None of its last accesses is of the child. *)
Definition unlinked (t child : nat) o : Prop :=
  ∀ Bm e, bottom t o = Some Bm → e ∈ Bm → link_task (bme_link e) ≠ child.

Lemma dsteps_covered t o o' : wf par o → rtc (dstep par) o o' → covered t o → covered t o'.
Proof.
  intros Hwf Hs. induction Hs as [o|o o1 o2 Hs _ IH]; [done|]. intros Hc. apply IH; [by eapply dstep_wf|].
  destruct Hs as [o o1 Hs|o]; [|exact Hc]. destruct Hc as (A & F & Bm & HA & HF & Htw & HB & Hc & Hnw).
  destruct (psteps_covered par t o o1 A F Bm Hwf (rtc_once _ _ Hs) HA HF Htw HB Hc) as (A' & F' & HA' & HF' & Htw' & HB' & Hc').
  exists A', F', Bm. done.
Qed.

Lemma covered_view t o o' : o_view o' = o_view o → covered t o → covered t o'.
Proof. unfold covered, objects, bottom. by intros ->. Qed.

(** ** Predecessors that hold a task back *)

Definition held (t : nat) (n : Z) (extra : nat → Z) (u : nat) : Z := extra u + (if decide (u = t) then n else 0).

Lemma counted_add_pred extra t n o : counted extra o → counted (held t n extra) (add_pred t n o).
Proof.
  intros Hc u x Hx. specialize (Hc u x Hx). simpl. unfold held. destruct (decide (u = t)) as [->|Hne].
  - rewrite lookup_alter_eq, Hc. simpl. rewrite wrap_int_idemp. do 2 f_equal. lia.
  - rewrite lookup_alter_ne by done. rewrite Hc. do 2 f_equal. lia.
Qed.

Lemma counted_ext extra extra' o : (∀ t, extra t = extra' t) → counted extra o → counted extra' o.
Proof. intros He Hc t x Hx. rewrite <- He. by apply Hc. Qed.

Lemma wf_add_pred t n o : wf par o → wf par (add_pred t n o).
Proof. by apply wf_ext. Qed.

(** The accesses of a new task, before they are linked. *)
Lemma fresh_object o t d : fresh t d → object_ok o t access_type d.
Proof.
  intros [Ht Ho Hk Hs Hn Hi Hp]. split; try done.
  - by rewrite Hk.
  - unfold plain, receivedReductionCpuSet, allocatedReductionInfo. by rewrite Hs.
  - by rewrite Hn.
  - unfold complete. rewrite Hs. by intros _ [?|?].
Qed.

Lemma declare_step o t L :
  objects t access_type o = Some [] → map_wf L → Forall (fresh t) L → tstep par o (put_objects t access_type L o).
Proof.
  intros (x & Hx & Hlx)%objects_view Hm Hf. simpl in Hlx. eapply step_prepare; [exact Hx|done|..].
  - eapply Forall_impl; [exact Hf|]. intros d. apply fresh_object.
  - by rewrite Hlx.
  - eapply Forall_impl; [exact Hf|]. intros d Hd. unfold isRegistered. by rewrite (fr_status _ _ Hd).
Qed.

Lemma covered_open t p L o :
  t ≠ p → covered p o → unlinked p t o → parent_open t p L (put_objects t access_type L o).
Proof.
  intros Hne (A & F & Bm & HA & HF & Htw & HB & Hc & Hnw) Hun. exists A, F, Bm.
  rewrite !objects_put_ne by (intros [? _]; done). rewrite bottom_put_objects. split_and!; try done.
  intros e c He Het. by destruct (Hun Bm e HB He).
Qed.

Lemma loop_covered N t p oa o : link_loop par N t p oa [] o → covered p o.
Proof.
  intros [_ _ _ (A & F & Bm & HA & HF & Htw & HB & Hc & Hnw & _) _]. by exists A, F, Bm.
Qed.

Lemma loop_linked N t p oa o x :
  link_loop par N t p oa [] o → o_view o !! t = Some x → v_accesses x ≠ [] → linked x.
Proof.
  intros [_ _ _ _ (T & HT & Hin & _)] Hx Hne. pose proof HT as (x' & Hx' & Hl)%objects_view.
  assert (x' = x) as -> by congruence. simpl in Hl. rewrite app_nil_r in Hl. split; [done|]. rewrite Hl. exact Hin.
Qed.
End held.

Section creation.
Context {B : Type} `{!DynamicBitset B} `{!DynamicBitsetLaws B}.
Context {MA : Type} `{!AvlSet (DataAccess B) node_key MA} `{!AvlSetLaws (DataAccess B) node_key MA}.
Context {MB : Type} `{!AvlSet BottomMapEntry node_key MB} `{!AvlSetLaws BottomMapEntry node_key MB}.
Context (mc : machine) (par : nat → option nat) (extra : nat → Z) (N n : nat).
Context (Hpar : ∀ u p, par u = Some p → (p < u)%nat) (Hdepth : (N < S n)%nat).
Context (task parent : nat) (Htp : par task = Some parent) (Hextra : extra task = 0).
Notation W := (world B MA MB).
Notation hold := (held task 2 extra).
Implicit Types (w : W) (o : obs B).

(** What registering the accesses of the task gives: the invariants are kept; the other tasks that become
    ready go to the scheduler, and the task itself does not: its creator learns whether it is ready.
    Its accesses are what it has declared, and are all linked; more children can be linked. *)
Record registration (final taskloop : bool) (deps : list depinfo) w (ready : bool) w' : Prop := {
  rg_consistent : consistent par extra N w';
  rg_others : schedules_ready hold w w';
  rg_task : occ task (w_scheduled w').*1 = occ task (w_scheduled w).*1;
  rg_ready : ready = bool_decide (unsatisfiedAccesses w' task = 0%nat);
  rg_accesses : ∃ x, o_view (obs_of w') !! task = Some x ∧ (v_accesses x = [] ∨ settled x) ∧
    ∀ a, declared (v_accesses x) a = fold_left (declaration final taskloop a) deps None;
  rg_parent : covered parent (obs_of w');
}.

Lemma unsatisfied_view w t x : o_view (obs_of w) !! t = Some x → unsatisfiedAccesses w t = unsatisfied x.
Proof. intros (y & Hy & <-)%lookup_view. unfold unsatisfiedAccesses. by rewrite Hy. Qed.

Lemma settled_view w t : settledTask w t ↔ ∃ x, o_view (obs_of w) !! t = Some x ∧ settled x.
Proof.
  split.
  - intros (y & Hy & Hs). exists (view y). simpl. by rewrite lookup_fmap, Hy.
  - intros (x & (y & Hy & <-)%lookup_view & Hs). by exists y.
Qed.

(** Tasks that look the same. *)
Lemma schedules_ready_same ex w w1 w2 w3 :
  (w_scheduled w).*1 = (w_scheduled w1).*1 → (w_scheduled w3).*1 = (w_scheduled w2).*1 →
  (∀ u, ex u = 0 → o_view (obs_of w) !! u = o_view (obs_of w1) !! u) →
  (∀ u, ex u = 0 → o_view (obs_of w3) !! u = o_view (obs_of w2) !! u) →
  schedules_ready ex w1 w2 → schedules_ready ex w w3.
Proof.
  intros Hs Hs' Hv Hv' (added & Hadd & Hall). exists added. split; [congruence|].
  intros u Hu He. specialize (Hv u He). specialize (Hv' u He).
  assert (∀ w w' : W, o_view (obs_of w) !! u = o_view (obs_of w') !! u →
    unsatisfiedAccesses w u = unsatisfiedAccesses w' u ∧ (settledTask w u ↔ settledTask w' u)) as Hsame.
  { clear. intros w w' Hv. rewrite !settled_view, Hv. split; [|done]. unfold unsatisfiedAccesses. simpl in Hv.
    rewrite !lookup_fmap in Hv. destruct (w_tasks w !! u), (w_tasks w' !! u); simpl in *; congruence. }
  destruct (Hsame _ _ Hv) as [Hu1 Hst]. destruct (Hsame _ _ Hv') as [Hu2 Hst']. rewrite Hst', Hu1, Hu2. apply Hall; tauto.
Qed.

(** ** The parts *)

Lemma declare_run deps w y :
  w_tasks w !! task = Some y → avl_nodes (tda_accesses (t_dataAccesses y)) = [] → Forall dep_ok deps →
  ∃ w' l, st_iter (register_access mc task) deps w = Ok (tt, w') ∧
    obs_of w' = put_objects task access_type l (obs_of w) ∧ map_wf l ∧ Forall (fresh task) l ∧
    ∀ a, declared l a = fold_left (declaration (t_final y) (t_taskloop y) a) deps None.
Proof.
  intros Hy Hn Hdeps. assert (objects task access_type (obs_of w) = Some []) as Hl.
  { unfold objects. simpl. by rewrite lookup_fmap, Hy, <- Hn. }
  assert (flags w !! task = Some (t_final y, t_taskloop y)) as Hfl by (unfold flags; by rewrite lookup_fmap, Hy).
  pose proof (awp_register_accesses mc task _ _ deps [] (obs_flags w) Hfl Hl) as Hwp.
  specialize (Hwp (conj (Forall_nil_2 _) (SSorted_nil _)) (Forall_nil_2 _) Hdeps w eq_refl).
  apply wp_ok in Hwp as ([] & w' & Hrun & l & Ho & Hm & Hf & Hd). apply (f_equal fst) in Ho.
  exists w', l. split_and!; [exact Hrun|exact Ho|exact Hm|exact Hf|exact Hd].
Qed.


Section parts.
Context (w w2 : W) (L : list (DataAccess B)).
Context (Hcons : consistent par extra N w) (Hnone : objects task access_type (obs_of w) = Some []).
Context (Hm : map_wf L) (Hfresh : Forall (fresh task) L).
Context (Hw2 : obs_of w2 = add_pred task 2 (put_objects task access_type L (obs_of w))).

Lemma held_consistent : consistent par hold N w2.
Proof.
  destruct Hcons as [Hwf Hc Hb Hq Hr]. pose proof (declare_step par _ _ _ Hnone Hm Hfresh) as Hs. split; rewrite ?Hw2.
  - apply wf_add_pred. by eapply tstep_wf.
  - apply counted_add_pred. by eapply tstep_counted.
  - eapply bounded_mono; [exact (tstep_tasks par _ _ Hs)|done].
  - change (o_queue (obs_of w2) = []). by rewrite Hw2.
  - change (o_ready (obs_of w2) = []). by rewrite Hw2.
Qed.

Lemma held_accesses : objects task access_type (obs_of w2) = Some L.
Proof.
  rewrite Hw2. rewrite (objects_ext _ _ (put_objects task access_type L (obs_of w))) by done. by eapply objects_put.
Qed.

Lemma link_run :
  covered parent (obs_of w) → unlinked parent task (obs_of w) →
  ∃ w3, linkTaskAccesses mc (S n) task w2 = Ok (tt, w3) ∧ link_loop par N task parent (obs_of w2) [] (obs_of w3).
Proof.
  intros Hcov Hun. pose proof (cn_wf _ _ _ _ held_consistent) as Hwf. pose proof (Hpar _ _ Htp) as Hlt.
  pose proof (owp_linkTaskAccesses mc par Hpar n N Hdepth task parent Htp L (obs_of w2) Hwf) as Hwp.
  destruct (covered_open task parent L (obs_of w)) as (A & F & Bm & HA & HF & Htw & HB & Hrest); [lia|done|done|].
  specialize (Hwp (cn_bounded _ _ _ _ held_consistent) held_accesses Hfresh).
  assert (parent_open task parent L (obs_of w2)) as Hop by (rewrite Hw2; by exists A, F, Bm).
  specialize (Hwp Hop w2 eq_refl). apply wp_ok in Hwp as ([] & w3 & Hrun & Hloop). by exists w3.
Qed.

Lemma held_scheduled : (w_scheduled w2).*1 = (w_scheduled w).*1.
Proof. change (o_scheduled (obs_of w2) = o_scheduled (obs_of w)). by rewrite Hw2. Qed.

Lemma held_others u : hold u = 0 → o_view (obs_of w) !! u = o_view (obs_of w2) !! u.
Proof.
  intros Hu. assert (u ≠ task) as Hne by (intros ->; unfold held in Hu; rewrite decide_True in Hu by done; lia).
  rewrite Hw2. simpl. by rewrite lookup_alter_ne.
Qed.
End parts.


Section finished.
Context (final taskloop : bool) (deps : list depinfo) (w2 w3 w4 w5 w : W) (L : list (DataAccess B)) (o4 : obs B) (c : Z).
Context (Hcons2 : consistent par hold N w2) (HL2 : objects task access_type (obs_of w2) = Some L) (HL : L ≠ []).
Context (Hsmall : accesses_length L < 2 ^ 31 - 2).
Context (Hdecl : ∀ a, declared L a = fold_left (declaration final taskloop a) deps None).
Context (Hloop : link_loop par N task parent (obs_of w2) [] (obs_of w3)).
Context (Hprop : rtc (dstep par) (obs_of w3) o4) (Hq4 : o_queue o4 = []) (Hw4 : obs_of w4 = deliver o4).
Context (Hw5 : obs_of w5 = add_pred task (-2) (obs_of w4)) (Hc5 : o_pred (obs_of w5) !! task = Some c).

Lemma finished_tasks : ∃ x2 x3 x4, o_view (obs_of w2) !! task = Some x2 ∧ o_view (obs_of w3) !! task = Some x3 ∧
  o_view o4 !! task = Some x4 ∧ v_accesses x2 = L ∧ wf par (obs_of w3) ∧ wf par o4 ∧ counted hold (obs_of w3) ∧
  rtc (ostep par) (obs_of w2) (obs_of w3) ∧ rtc (ostep par) (obs_of w3) o4.
Proof.
  pose proof HL2 as (x2 & Hx2 & Hl2)%objects_view. destruct Hcons2 as [Hwf2 Hc2 _ _ _].
  pose proof (tsteps_osteps par _ _ (lsteps_tsteps _ _ _ (ll_steps _ _ _ _ _ _ _ Hloop))) as Hs23.
  destruct (osteps_wf par hold _ _ Hwf2 Hc2 Hs23) as [Hwf3 Hc3].
  pose proof (dsteps_osteps par _ _ Hprop) as Hs34. destruct (osteps_wf par hold _ _ Hwf3 Hc3 Hs34) as [Hwf4 _].
  destruct (proj2 (osteps_tasks par _ _ Hs23 task)) as [x3 Hx3]; [by exists x2|].
  destruct (proj2 (osteps_tasks par _ _ Hs34 task)) as [x4 Hx4]; [by exists x3|].
  exists x2, x3, x4. done.
Qed.

Lemma finished_linked x3 : o_view (obs_of w3) !! task = Some x3 → linked x3 ∧ ∀ a, declared (v_accesses x3) a = declared L a.
Proof.
  intros Hx3. assert (objects task access_type (obs_of w3) = Some (v_accesses x3)) as HL3 by (apply objects_view; by exists x3).
  pose proof (lsteps_steady par _ _ (ll_steps _ _ _ _ _ _ _ Hloop) task _ _ HL2 HL3) as Hd3. split; [|done].
  eapply loop_linked; [exact Hloop|done|]. intros Hnil. rewrite Hnil in Hd3. apply HL. apply declared_nil; [|done].
  exact (objects_wf par _ _ _ _ (cn_wf _ _ _ _ Hcons2) HL2).
Qed.

(** The accesses at the end. *)
Lemma finished_accesses x4 :
  o_view o4 !! task = Some x4 → settled x4 ∧ accesses_length (v_accesses x4) = accesses_length L ∧
  ∀ a, declared (v_accesses x4) a = declared L a.
Proof.
  intros Hx4. destruct finished_tasks as (x2 & x3 & x4' & Hx2 & Hx3 & Hx4' & Hl2 & Hwf3 & Hwf4 & Hc3 & Hs23 & Hs34).
  destruct (finished_linked x3 Hx3) as [Hlk3 Hd3].
  destruct (osteps_declared par hold _ _ task x3 x4 Hwf3 Hc3 Hs34 Hx3 Hlk3 Hx4) as [Hlk4 Hd4].
  assert (∀ a, declared (v_accesses x4) a = declared L a) as Hd by (intros a; by rewrite Hd4, Hd3).
  assert (accesses_length (v_accesses x4) = accesses_length L) as Hlen.
  { apply declared_length; [exact (objects_wf par _ _ _ _ (cn_wf _ _ _ _ Hcons2) HL2)| |done].
    apply (vo_maps _ _ _ _ (wf_view _ _ Hwf4 _ _ Hx4) access_type). }
  split_and!; [split; [done|lia]|done|done].
Qed.

(** The task is not handed to the scheduler. *)
Lemma finished_not_ready : occ task (o_ready o4) = 0%nat.
Proof.
  destruct finished_tasks as (x2 & x3 & x4 & Hx2 & Hx3 & Hx4 & Hl2 & Hwf3 & Hwf4 & Hc3 & Hs23 & Hs34).
  destruct Hcons2 as [Hwf2 Hc2 _ _ Hr2]. assert (hold task = 2) as Hh by (unfold held; rewrite decide_True by done; lia).
  destruct (held_not_ready par hold task (obs_of w2) o4 x2) as (added & Hadd & Hocc); [done|done|lia|done| |etrans|].
  - rewrite Hl2, Hh. lia.
  - eapply lsteps_held; [done|apply Hloop].
  - eapply osteps_held; [exact Hwf3|exact Hc3|exact Hs34|exact Hx3|by apply finished_linked].
  - assert (o_ready (obs_of w2) = []) as Hr by done. rewrite Hr in Hadd. simpl in Hadd. by rewrite Hadd.
Qed.

Lemma finished_registration :
  (w_scheduled w2).*1 = (w_scheduled w).*1 →
  (∀ u, hold u = 0 → o_view (obs_of w) !! u = o_view (obs_of w2) !! u) →
  registration final taskloop deps w (c =? 0) w5.
Proof.
  intros Hsch Hoth. destruct finished_tasks as (x2 & x3 & x4 & Hx2 & Hx3 & Hx4 & Hl2 & Hwf3 & Hwf4 & Hc3 & Hs23 & Hs34).
  destruct (finished_accesses x4 Hx4) as (Hset & Hlen & Hd).
  assert (rtc (ostep par) (obs_of w2) o4) as Hs by (by etrans).
  destruct (deliver_contract par hold N w2 w4 o4 Hcons2 Hs Hq4 Hw4) as [[Hwf Hc Hb Hq Hr] Hready].
  assert (o_view (obs_of w5) = o_view o4) as Hv5 by (by rewrite Hw5, Hw4).
  assert (o_scheduled (obs_of w5) = o_scheduled (obs_of w4)) as Hs5 by (by rewrite Hw5).
  assert (counted extra (obs_of w5)) as Hc5'.
  { rewrite Hw5. eapply counted_ext; [|by apply counted_add_pred]. intros u. unfold held. destruct (decide _); lia. }
  assert (o_view (obs_of w5) !! task = Some x4) as Hx5 by (by rewrite Hv5).
  split.
  - split; [|done|..].
    + rewrite Hw5. by apply wf_add_pred.
    + rewrite Hw5. exact Hb.
    + change (o_queue (obs_of w5) = []). by rewrite Hw5.
    + change (o_ready (obs_of w5) = []). by rewrite Hw5.
  - eapply schedules_ready_same; [by symmetry|exact Hs5|exact Hoth| |exact Hready]. intros u _. by rewrite Hw5.
  - change (occ task (o_scheduled (obs_of w5)) = occ task (o_scheduled (obs_of w))). rewrite Hs5, Hw4. simpl.
    rewrite occ_app, finished_not_ready, (osteps_scheduled par _ _ Hs).
    change (o_scheduled (obs_of w2)) with (w_scheduled w2).*1. rewrite Hsch. simpl. lia.
  - rewrite (unsatisfied_view _ _ _ Hx5). specialize (Hc5' _ _ Hx5). rewrite Hc5, Hextra in Hc5'. injection Hc5' as ->.
    pose proof (unsatisfied_le par _ _ _ Hwf4 Hx4). rewrite wrap_int_small by (unfold is_int; lia).
    rewrite Z.add_0_l. case_bool_decide; [apply Z.eqb_eq|apply Z.eqb_neq]; lia.
  - exists x4. split_and!; [done|by right|]. intros a. by rewrite Hd.
  - eapply covered_view; [exact Hv5|]. eapply dsteps_covered; [exact Hwf3|exact Hprop|]. by eapply loop_covered.
Qed.
End finished.


(** A task without accesses is ready. *)
Lemma empty_registration final taskloop deps w w1 :
  consistent par extra N w → obs_of w1 = obs_of w → objects task access_type (obs_of w) = Some [] →
  covered parent (obs_of w) → (∀ a, None = fold_left (declaration final taskloop a) deps None) →
  registration final taskloop deps w true w1.
Proof.
  intros [Hwf Hc Hb Hq Hr] Hw1 (x & Hx & Hlx)%objects_view Hcov Hdecl. simpl in Hlx.
  assert (o_view (obs_of w1) !! task = Some x) as Hx1 by (by rewrite Hw1).
  split.
  - split; [by rewrite Hw1..| |].
    + change (o_queue (obs_of w1) = []). by rewrite Hw1.
    + change (o_ready (obs_of w1) = []). by rewrite Hw1.
  - exists []. split; [change (o_scheduled (obs_of w1) = o_scheduled (obs_of w) ++ []); by rewrite Hw1, app_nil_r|].
    intros u (y & Hy & Hst)%settled_view _. assert (o_view (obs_of w1) !! u = Some y) as Hy1 by (by rewrite Hw1).
    rewrite (unsatisfied_view _ _ _ Hy), (unsatisfied_view _ _ _ Hy1), decide_False, occ_nil by lia.
    split_and!; [|done|done]. apply settled_view. by exists y.
  - change (occ task (o_scheduled (obs_of w1)) = occ task (o_scheduled (obs_of w))). by rewrite Hw1.
  - rewrite (unsatisfied_view _ _ _ Hx1). unfold unsatisfied. by rewrite Hlx.
  - exists x. split_and!; [done|by left|]. by rewrite Hlx.
  - by rewrite Hw1.
Qed.

(** ** The whole *)

Lemma bind_ok {S A A' : Type} (m : stM S A) (f : A → stM S A') s a s' : m s = Ok (a, s') → (m ≫= f) s = f a s'.
Proof. unfold mbind, stM_bind. by intros ->. Qed.

Lemma register_run deps w y :
  consistent par extra N w → w_tasks w !! task = Some y → avl_nodes (tda_accesses (t_dataAccesses y)) = [] →
  Forall dep_ok deps → sumZ dep_length deps < 2 ^ 31 - 2 →
  covered parent (obs_of w) → unlinked parent task (obs_of w) →
  ∃ enough, ∀ fuel, (enough ≤ fuel)%nat →
    ∃ ready w', registerTaskDataAccesses mc (S n) fuel task deps w = Ok (ready, w') ∧
      registration (t_final y) (t_taskloop y) deps w ready w'.
Proof.
  intros Hcons Hy Hnone Hdeps Hsmall Hcov Hun.
  assert (objects task access_type (obs_of w) = Some []) as Hl.
  { unfold objects. simpl. by rewrite lookup_fmap, Hy, <- Hnone. }
  destruct (declare_run deps w y Hy Hnone Hdeps) as (w1 & L & Hrun1 & Hw1 & Hm & Hf & Hd).
  pose proof (declarations_length _ _ deps L Hm Hdeps Hd) as Hlen.
  assert (objects task access_type (obs_of w1) = Some L) as HL1 by (rewrite Hw1; by eapply objects_put).
  pose proof HL1 as (x1 & Hx1 & _)%objects_view.
  pose proof (awp_map_isEmpty _ _ _ _ (objects_seen (B := B) (MA := MA) (MB := MB) task access_type) L
    (λ b o, b = bool_decide (L = []) ∧ o = obs_of w1) (obs_of w1) HL1 (conj eq_refl eq_refl) w1 eq_refl) as Hwe.
  apply wp_ok in Hwe as (e & w1' & Hrune & -> & Hw1').
  destruct (decide (L = [])) as [->|HL].
  { exists 0%nat. intros fuel _. exists true, w1'. split.
    - unfold registerTaskDataAccesses. rewrite (bind_ok _ _ _ _ _ Hrun1), (bind_ok _ _ _ _ _ Hrune). done.
    - apply empty_registration; [done| |done|done|done]. rewrite Hw1', Hw1. by apply put_objects_id. }
  pose proof (owp_increasePredecessors (B := B) (MA := MA) (MB := MB) task x1 2
    (λ _ o, o = add_pred task 2 (obs_of w1)) (obs_of w1) Hx1 eq_refl w1' Hw1') as Hwi.
  apply wp_ok in Hwi as ([] & w2 & Hruni & Hw2). rewrite Hw1 in Hw2.
  pose proof (held_consistent w w2 L Hcons Hl Hm Hf Hw2) as Hcons2.
  pose proof (held_accesses w w2 L Hl Hw2) as HL2.
  destruct (link_run w w2 L Hcons Hl Hm Hf Hw2 Hcov Hun) as (w3 & Hrun3 & Hloop).
  exists (Z.to_nat (potential (obs_of w3))). intros fuel Hfuel.
  pose proof (owp_process mc par Hpar n N Hdepth fuel true (obs_of w3) (ll_wf _ _ _ _ _ _ _ Hloop)
    (ll_bounded _ _ _ _ _ _ _ Hloop)) as Hwp.
  specialize (Hwp ltac:(lia) w3 eq_refl). apply wp_ok in Hwp as ([] & w4 & Hrun4 & o4 & Hprop & Hq4 & Hw4).
  assert (is_Some (o_view (obs_of w4) !! task)) as [x4 Hx4].
  { rewrite Hw4. simpl. apply (osteps_tasks par _ _ (dsteps_osteps par _ _ Hprop)).
    destruct (ll_task _ _ _ _ _ _ _ Hloop) as (T & (x & Hx & _)%objects_view & _). by exists x. }
  pose proof (owp_decreasePredecessors (B := B) (MA := MA) (MB := MB) task x4 2
    (λ b o, ∃ c, o = add_pred task (-2) (obs_of w4) ∧ o_pred o !! task = Some c ∧ b = (c =? 0)) (obs_of w4) Hx4) as Hwp.
  specialize (Hwp ltac:(intros c Hc; by exists c) w4 eq_refl).
  apply wp_ok in Hwp as (ready & w5 & Hrun5 & c & Hw5 & Hc5 & ->).
  exists (c =? 0), w5. split.
  - unfold registerTaskDataAccesses. rewrite (bind_ok _ _ _ _ _ Hrun1), (bind_ok _ _ _ _ _ Hrune).
    rewrite bool_decide_eq_false_2 by done. cbn iota beta delta [negb].
    rewrite (bind_ok _ _ _ _ _ Hruni), (bind_ok _ _ _ _ _ Hrun3), (bind_ok _ _ _ _ _ Hrun4). exact Hrun5.
  - eapply finished_registration; [exact Hcons2|exact HL2|exact HL|lia|exact Hd|exact Hloop|exact Hprop|exact Hq4|exact Hw4|exact Hw5|exact Hc5| |].
    + by eapply held_scheduled.
    + intros u. by eapply held_others.
Qed.
End creation.

(** ** Checks *)

Section check.
Context {B : Type} `{!DynamicBitset B} `{!DynamicBitsetLaws B}.
Implicit Types (o : obs B) (d : DataAccess B).

Definition apartb {C C'} `{!RegionContent C} `{!RegionContent C'} (c : C) (d : C') : bool :=
  (cend c <=? cstart d) || (cend d <=? cstart c).

Lemma apartb_sound {C C'} `{!RegionContent C} `{!RegionContent C'} (c : C) (d : C') : apartb c d = true → apart c d.
Proof. unfold apartb, apart. rewrite orb_true_iff, !Z.leb_le. done. Qed.

Definition coveredb (t : nat) o : bool :=
  match o_view o !! t with
  | None => false
  | Some x =>
      bool_decide (v_taskwaits x = []) &&
      forallb (λ e, bool_decide (map_kind (link_objectType (bme_link e)) ≠ taskwait_type)) (v_bottom x) &&
      forallb (λ a,
        if hasSubaccesses a
        then forallb (λ y, existsb (λ e, (cstart e <=? y) && (y <? cend e)) (v_bottom x))
               (seqZ (cstart a) (rlength (da_region a)))
        else forallb (apartb a) (v_bottom x) && forallb (apartb a) (v_fragments x)) (v_accesses x)
  end.

Lemma coveredb_sound t o : coveredb t o = true → covered t o.
Proof.
  unfold coveredb. destruct (o_view o !! t) as [x|] eqn:Hx; [|done].
  rewrite !andb_true_iff, bool_decide_eq_true, !forallb_forall. intros [[Htw Hnw] Ha].
  assert (∀ k, objects t k o = Some (v_objects k x)) as Hobj by (intros k; unfold objects; by rewrite Hx).
  exists (v_accesses x), (v_fragments x), (v_bottom x). rewrite !Hobj. split_and!; [done|done|simpl; by rewrite Htw| | |].
  - unfold bottom. by rewrite Hx.
  - split.
    + intros a y Hin Hs Hy. specialize (Ha a ltac:(by apply list_elem_of_In)). simpl in Ha. rewrite Hs, forallb_forall in Ha.
      specialize (Ha y). rewrite <- list_elem_of_In, elem_of_seqZ, existsb_exists in Ha.
      destruct Ha as (e & He & Hb); [unfold cend, cstart in *; simpl in *; lia|]. left. exists e.
      rewrite list_elem_of_In. split; [done|]. bool_hyps. lia.
    + intros a Hin Hs. specialize (Ha a ltac:(by apply list_elem_of_In)). simpl in Ha. rewrite Hs in Ha.
      apply andb_true_iff in Ha as [Hb Hf]. rewrite !forallb_forall in *. split_and!; [..|by left].
      * intros e He. apply apartb_sound, Hb. by apply list_elem_of_In.
      * intros f Hf'. apply apartb_sound, Hf. by apply list_elem_of_In.
  - apply Forall_forall. intros e He%list_elem_of_In. by apply Hnw, bool_decide_eq_true in He.
Qed.
End check.
