(* ===== verification/FragmentedTheorems.v ===== *)
(** * Fragmented region dependencies: theorems

    What the operations of the default implementation of dependencies guarantee, for programs without
    reductions. *)

From S2P Require Import Prelude Region Boost RegionMap RegionMapProofs StateMonad.
From S2P Require Import IntrusiveRegionMap IntrusiveRegionMapProofs IntrusiveRegionMapViews.
From S2P Require Import DataAccessType FragmentedAccess ReductionInfo FragmentedWorld.
From S2P Require Import FragmentedDeps FragmentedProtocol FragmentedInvariant.
From S2P Require Import FragmentedPotential FragmentedObs FragmentedRun FragmentedPropagation.
From S2P Require Import FragmentedWaiting FragmentedContract FragmentedCheck.
From S2P Require Import FragmentedRegistration FragmentedSteady FragmentedCoverage FragmentedLinking FragmentedCreation.
Local Open Scope Z_scope.

Section theorems.
Context {B : Type} `{!DynamicBitset B} `{!DynamicBitsetLaws B}.
Context {MA : Type} `{!AvlSet (DataAccess B) node_key MA} `{!AvlSetLaws (DataAccess B) node_key MA}.
Context {MB : Type} `{!AvlSet BottomMapEntry node_key MB} `{!AvlSetLaws BottomMapEntry node_key MB}.
Implicit Types (w : world B MA MB).

(** The tasks are numbered in the order of their creation. *)
Definition created_in_order (par : nat → option nat) : Prop := ∀ u p, par u = Some p → (p < u)%nat.

(** The operation goes from [o] to [w'] by the steps of the protocol: a change of an access queues what follows
    from it, an operation leaves the queue when the objects it is for have what it gives, and in the end
    the queue is empty and the ready tasks are delivered.  [R] holds when the queue is empty. *)
Definition propagates (par : nat → option nat) (R : obs B → Prop) (o : obs B) w' : Prop :=
  ∃ o1, rtc (ostep par) o o1 ∧ R o1 ∧ o_queue o1 = [] ∧ obs_of w' = deliver o1.

Lemma owp_contract par extra N w (m : stM (world B MA MB) unit) (R : obs B → Prop) :
  consistent par extra N w →
  awp obs_of m (λ _ o', ∃ o1, rtc (ostep par) (obs_of w) o1 ∧ R o1 ∧ o_queue o1 = [] ∧ o' = deliver o1) (obs_of w) →
  ∃ w', m w = Ok (tt, w') ∧ consistent par extra N w' ∧ schedules_ready extra w w' ∧
    propagates par R (obs_of w) w'.
Proof.
  intros Hc Hm. pose proof (Hm w eq_refl) as Hwp.
  apply wp_ok in Hwp as ([] & w' & Hrun & o1 & Hs & HR & Hq & Hw'). exists w'. split; [done|].
  destruct (deliver_contract par extra N w w' o1 Hc Hs Hq Hw') as [H1 H2]. split; [done|]. split; [done|]. by exists o1.
Qed.

(** The accesses, or the fragments, of a task are all complete. *)
Definition all_complete (t : nat) (k : DataAccessObjectType) : obs B → Prop := every_object t k (λ d : DataAccess B, complete d = true).
(** Its accesses in the region are. *)
Definition region_complete (t : nat) (region : DataAccessRegion) : obs B → Prop :=
  every_object t access_type (λ d : DataAccess B, intersects region d → complete d = true).

Lemma propagates_every par t k P o w' :
  propagates par (every_object t k P) o w' → every_object t k P (obs_of w').
Proof. intros (o1 & _ & Hh & _ & Hw'). eapply every_view; [|exact Hh]. by rewrite Hw'. Qed.

Lemma live_view w t : is_Some (w_tasks w !! t) → ∃ x, o_view (obs_of w) !! t = Some x.
Proof. intros [y Hy]. exists (view y). simpl. by rewrite lookup_fmap, Hy. Qed.


(** [releaseAccessRegion], the early release of a region, completes the accesses of the task in the
    region and propagates to the end, with the same guarantees. *)
Theorem releaseAccessRegion_schedules mc par extra N depth fuel task region w :
  created_in_order par → consistent par extra N w → (N < depth)%nat → is_Some (w_tasks w !! task) →
  anchored_at task (obs_of w) → region_wf region → potential (obs_of w) ≤ Z.of_nat fuel →
  ∃ w', releaseAccessRegion mc depth fuel task region w = Ok (tt, w') ∧
    consistent par extra N w' ∧ schedules_ready extra w w' ∧ region_complete task region (obs_of w') ∧
    propagates par (region_complete task region) (obs_of w) w'.
Proof.
  intros Hpar Hc Hd [x Hx]%live_view Ha Hr Hf. destruct depth as [|n]; [lia|].
  edestruct (owp_contract par extra N w (releaseAccessRegion mc (S n) fuel task region)
    (region_complete task region)) as (w' & H1 & H2 & H3 & H4); [done| |].
  - eapply awp_mono; [by eapply owp_releaseAccessRegion; [done|done|apply Hc|apply Hc|..]|].
    intros [] o' (o1 & Hs & Hr1 & Hq & ->). exists o1. split; [by apply dsteps_osteps|done].
  - exists w'. split_and!; try done. by eapply propagates_every.
Qed.


(** C4: Propagation terminates: whatever operations are queued, [processDelayedOperations] empties the queue
    in at most as many rounds as the potential of the state, that is the number of queued operations and four
    for each byte of an object and bit that it can still get; the recursion of
    [handleDataAccessStatusChanges] is no deeper than the number of tasks.  For programs without reductions. *)
Theorem processDelayedOperations_terminates mc par N depth fuel w :
  created_in_order par → wf par (obs_of w) → bounded N (obs_of w) → (N < depth)%nat →
  potential (obs_of w) ≤ Z.of_nat fuel →
  ∃ w', processDelayedOperations mc depth fuel w = Ok (tt, w') ∧
    cd_delayedOperations (w_dependencyData w') = [] ∧ potential (obs_of w') ≤ potential (obs_of w).
Proof.
  intros Hpar Hwf Hb Hd Hf. destruct depth as [|n]; [lia|].
  pose proof (owp_processDelayedOperations mc par Hpar n N Hd fuel (obs_of w) Hwf Hb Hf w eq_refl) as Hwp.
  apply wp_ok in Hwp as ([] & w' & Hrun & _ & Hq & Hp). by exists w'.
Qed.

End theorems.

(** ** Witnesses *)

Lemma sample_parent_order : created_in_order sample_parent.
Proof. intros [|[|[|[|[|u]]]]] p [= <-]; lia. Qed.

Lemma sample_consistent : consistent sample_parent (λ _, 0) 5 sample_registered.
Proof. split; [apply wfb_sound|apply countedb_sound|apply boundedb_sound|..]; vm_compute; reflexivity. Qed.

Lemma sample_not_in_taskwait t : (t < 4)%nat → not_in_taskwait t (obs_of sample_registered).
Proof.
  intros Ht. split; [do 4 (destruct t as [|t]; [vm_compute; reflexivity|]); lia|]. intros b Hb.
  do 4 (destruct t as [|t]; [vm_compute in Hb; injection Hb as <-; repeat constructor; discriminate|]). lia.
Qed.

Lemma sample_anchored t : (t < 4)%nat → anchored_at t (obs_of sample_registered).
Proof.
  intros Ht l Hl. do 4 (destruct t as [|t]; [vm_compute in Hl; injection Hl as <-; repeat constructor|]). lia.
Qed.


(** Once its child has ended, task 1 releases the region that task 2 reads. *)
Lemma releaseAccessRegion_schedules_witness :
  ∃ w', releaseAccessRegion sample_machine 6 1000 1 (mkRegion 104 4) sample_registered = Ok (tt, w') ∧
    consistent sample_parent (λ _, 0) 5 w' ∧ schedules_ready (λ _, 0) sample_registered w' ∧
    region_complete 1 (mkRegion 104 4) (obs_of w') ∧
    propagates sample_parent (region_complete 1 (mkRegion 104 4)) (obs_of sample_registered) w'.
Proof.
  apply (releaseAccessRegion_schedules sample_machine sample_parent (λ _, 0) 5 6 1000 1 (mkRegion 104 4) sample_registered).
  - exact sample_parent_order.
  - exact sample_consistent.
  - lia.
  - vm_compute. eexists. reflexivity.
  - apply sample_anchored. lia.
  - vm_compute. intuition discriminate.
  - vm_compute. discriminate.
Defined.

(** Task 0 has entries in its bottom map: the taskwait adds fragments. *)
Definition sample_view_0 : task_view (list bool) :=
  from_option id (mkView None [] [] [] []) (o_view (obs_of sample_registered) !! 0%nat).


(** With a queued operation that satisfies the access of task 2 in [104, 108). *)
Definition sample_operation : UpdateOperation (list bool) :=
  mkUpdateOperation (mkLink 2 access_type) (mkRegion 104 4) true true true false false true None [].
Definition sample_queued : sample :=
  run_sample (_ ← sample_registration; push_delayedOperation sample_operation).

Lemma processDelayedOperations_terminates_witness :
  length (cd_delayedOperations (w_dependencyData sample_queued)) = 1%nat ∧
  ∃ w', processDelayedOperations sample_machine 6 1000 sample_queued = Ok (tt, w') ∧
    cd_delayedOperations (w_dependencyData w') = [] ∧
    potential (obs_of w') ≤ potential (obs_of sample_queued).
Proof.
  split; [vm_compute; reflexivity|]. apply (processDelayedOperations_terminates sample_machine sample_parent 5).
  - exact sample_parent_order.
  - apply wfb_sound. vm_compute. reflexivity.
  - apply boundedb_sound. vm_compute. reflexivity.
  - lia.
  - vm_compute. discriminate.
Defined.

(** The operations on the sample program do schedule: when tasks 3 and 1 have ended, task 2 is ready. *)
Example sample_schedule :
  w_scheduled (run_sample (_ ← sample_registration;
    unregisterTaskDataAccesses sample_machine 6 1000 3;;
    unregisterTaskDataAccesses sample_machine 6 1000 1)) = [(2%nat, false)].
Proof. vm_compute. reflexivity. Qed.

(** Task 4 reads and writes [104, 110), and reads [106, 114) weakly: it meets the last access of task 3,
    the rest of the access of task 1, and memory that task 1 does not access. *)
Definition sample_declarations : list depinfo :=
  [sample_dep READWRITE_ACCESS_TYPE 104 6;
   mkDepinfo READ_ACCESS_TYPE true 106 8 0 no_reduction_type_and_operator no_reduction_index].


(** Its result on the sample program. *)
Example sample_not_ready :
  match registerTaskDataAccesses sample_machine 6 1000 4 sample_declarations sample_registered with
  | Ok (ready, w') => ready = false ∧ unsatisfiedAccesses w' 4 = 1%nat
  | Err _ => False
  end.
Proof. vm_compute. done. Qed.
