(* ===== verification/Multidimensional.v ===== *)
(** * Multidimensional regions

    [dependencies/MultidimensionalAPITraversal.hpp] and the [MultidimensionalAPI.hpp] of the linear regions and
    of the discrete dependencies: how the declaration of a region of an array with several
    dimensions becomes declarations of linear regions.  The first dimension of a list is the
    outermost one, the last one is in bytes.  The theorems compare the linear regions with the
    set of addresses that the array region denotes. *)

From S2P Require Import Prelude Region Boost RegionMap DataAccessType FragmentedAccess ReductionInfo FragmentedWorld.
From S2P Require Import FragmentedDeps FragmentedRegistration.
Local Open Scope Z_scope.

(** The size of a dimension, the first index and the one after the last. *)
Record dimension := mkDim { dim_size : Z; dim_start : Z; dim_end : Z }.

(** Signed 64-bit arithmetic. *)
Definition wrap_long (z : Z) : Z := (z + 2 ^ 63) mod 2 ^ 64 - 2 ^ 63.

(** ** Traversal *)

Definition currentDimensionIsContinuous (d : dimension) : bool := (dim_start d =? 0) && (dim_end d =? dim_size d).

Fixpoint getStride (dims : list dimension) : Z :=
  match dims with [] => 1 | d :: dims => wrap64 (dim_size d * getStride dims) end.

Fixpoint getStartOffset (dims : list dimension) : Z :=
  match dims with [] => 0 | d :: dims => wrap64 (dim_start d * getStride dims + getStartOffset dims) end.

Fixpoint getDiscreteSize (dims : list dimension) : Z :=
  match dims with [] => 1 | d :: dims => wrap64 ((dim_end d - dim_start d) * getDiscreteSize dims) end.

(** ** Linear regions *)

(** The loop over the indices of a dimension: the address advances by the stride. *)
Fixpoint strided {A} (f : Z → list A) (stride : Z) (count : nat) (address : Z) : list A :=
  match count with O => [] | S count => f address ++ strided f stride count (wrap64 (address + stride)) end.

(** A dimension in units of the next one. *)
Definition scale_by (next d : dimension) : dimension :=
  mkDim (wrap_long (dim_size d * dim_size next)) (wrap_long (dim_start d * dim_size next)) (wrap_long (dim_end d * dim_size next)).

Section access.
Context (accessType : DataAccessType) (weak : bool) (symbolIndex : Z).

(** [register_data_access_base]: a commutative access is declared as one that reads and writes. *)
Definition register_data_access_base (baseAddress : Z) (d : dimension) : depinfo :=
  mkDepinfo (if decide (accessType = COMMUTATIVE_ACCESS_TYPE) then READWRITE_ACCESS_TYPE else accessType) weak
    (wrap64 (baseAddress + dim_start d)) (wrap64 (dim_end d - dim_start d)) symbolIndex no_reduction_type_and_operator no_reduction_index.

(** [register_data_access], with [register_data_access_skip_next]: the linear regions in the order in which they
    are declared. *)
Fixpoint register_data_access (baseAddress : Z) (d : dimension) (otherDimensions : list dimension) : list depinfo :=
  match otherDimensions with
  | [] => [register_data_access_base baseAddress d]
  | next :: others =>
      if currentDimensionIsContinuous next then register_data_access baseAddress (scale_by next d) others
      else
        let stride := getStride otherDimensions in
        strided (λ address, register_data_access address next others) stride
          (Z.to_nat (dim_end d - dim_start d)) (wrap64 (baseAddress + dim_start d * stride))
  end.
End access.

Section reduction.
Context (weak : bool) (reductionOperation reductionIndex symbolIndex : Z).

(** [nanos6_register_region_reduction_depinfo1], which does not look at the start of the dimension *)
Definition register_reduction_base (baseAddress : Z) (d : dimension) : depinfo :=
  mkDepinfo REDUCTION_ACCESS_TYPE weak baseAddress (wrap64 (dim_size d)) symbolIndex reductionOperation reductionIndex.

(** [register_reduction_access], which passes on the address that does not advance *)
Fixpoint register_reduction_access (baseAddress : Z) (d : dimension) (otherDimensions : list dimension) : list depinfo :=
  match otherDimensions with
  | [] => [register_reduction_base baseAddress d]
  | next :: others =>
      if currentDimensionIsContinuous next then register_reduction_access baseAddress (scale_by next d) others
      else
        let stride := getStride otherDimensions in
        strided (λ _, register_reduction_access baseAddress next others) stride
          (Z.to_nat (dim_end d - dim_start d)) (wrap64 (baseAddress + dim_start d * stride))
  end.
End reduction.

(** ** Discrete dependencies *)

(** [register_data_access] of the discrete dependencies: the address and the size of the declaration. *)
Definition discrete_register_data_access (baseAddress : Z) (dims : list dimension) : Z * Z :=
  (wrap64 (baseAddress + getStartOffset dims), getDiscreteSize dims).

(** ** What a region denotes *)

(** The number of bytes of an array. *)
Fixpoint volume (dims : list dimension) : Z := match dims with [] => 1 | d :: dims => dim_size d * volume dims end.

(** The offsets of the bytes of a region: an index of the outermost dimension, and an offset in the rest. *)
Fixpoint in_region (dims : list dimension) (o : Z) : Prop :=
  match dims with
  | [] => o = 0
  | d :: dims => ∃ i o', dim_start d ≤ i < dim_end d ∧ in_region dims o' ∧ o = i * volume dims + o'
  end.

Definition dim_ok (d : dimension) : Prop := 0 < dim_size d ∧ 0 ≤ dim_start d ∧ dim_start d < dim_end d ∧ dim_end d ≤ dim_size d.

(** ** Lemmas *)

Lemma wrap_long_small z : 0 ≤ z < 2 ^ 63 → wrap_long z = z.
Proof. intros Hz. unfold wrap_long. rewrite Z.mod_small; lia. Qed.

Lemma volume_pos dims : Forall dim_ok dims → 0 < volume dims.
Proof. induction 1 as [|d dims [Hd _] _ IH]; simpl; [lia|nia]. Qed.

Lemma getStride_volume dims : Forall dim_ok dims → volume dims < 2 ^ 63 → getStride dims = volume dims.
Proof.
  induction 1 as [|d dims [Hd _] Hds IH]; simpl; [done|]. intros Hv. pose proof (volume_pos dims Hds). rewrite IH by nia.
  apply wrap64_small. split; [nia|]. rewrite word_max_val. lia.
Qed.

Lemma in_region_bounds d dims o :
  Forall dim_ok (d :: dims) → in_region (d :: dims) o → dim_start d * volume dims ≤ o < dim_end d * volume dims.
Proof.
  revert d o. induction dims as [|e dims IH]; intros d o Hok; inversion Hok as [|? ? Hd Hds]; subst; intros (i & o' & Hi & Ho & ->).
  - simpl in *. lia.
  - specialize (IH e o' Hds Ho). assert (Forall dim_ok dims) as Hds' by (by inversion Hds). pose proof (volume_pos dims Hds').
    inversion Hds as [|? ? (He1 & He2 & He3 & He4) _]; subst. simpl.
    assert (0 ≤ o' < dim_size e * volume dims) by nia. set (v := dim_size e * volume dims) in *. nia.
Qed.

(** A dimension whose next one is complete can be taken in units of that. *)
Lemma scale_ok next d dims :
  dim_ok d → dim_ok next → Forall dim_ok dims → volume (d :: next :: dims) < 2 ^ 63 →
  scale_by next d = mkDim (dim_size d * dim_size next) (dim_start d * dim_size next) (dim_end d * dim_size next) ∧
  dim_ok (scale_by next d) ∧ volume (scale_by next d :: dims) = volume (d :: next :: dims).
Proof.
  intros (H1 & H2 & H3 & H4) (H5 & _) Hds Hv. pose proof (volume_pos dims Hds) as Hp. simpl in Hv. unfold scale_by.
  assert (dim_size d * dim_size next < 2 ^ 63) by nia. rewrite !wrap_long_small by nia.
  split; [done|]. split; [unfold dim_ok; simpl; nia|]. simpl. lia.
Qed.

Lemma in_region_merge d next dims o :
  dim_ok next → currentDimensionIsContinuous next = true →
  in_region (mkDim (dim_size d * dim_size next) (dim_start d * dim_size next) (dim_end d * dim_size next) :: dims) o ↔ in_region (d :: next :: dims) o.
Proof.
  intros (Hp & _) Hc. unfold currentDimensionIsContinuous in Hc. bool_hyps. rename H into Hs, H0 into He. simpl. split.
  - intros (i & o' & Hi & Ho & ->). pose proof (Z.div_mod i (dim_size next) ltac:(lia)) as Hd.
    pose proof (Z.mod_pos_bound i (dim_size next) Hp). exists (i / dim_size next), (i mod dim_size next * volume dims + o').
    split_and!; [nia|nia| |nia]. exists (i mod dim_size next), o'. split_and!; [lia|lia|done|done].
  - intros (i & ? & Hi & (j & o' & Hj & Ho & ->) & ->). exists (i * dim_size next + j), o'. split_and!; [nia|nia|done|nia].
Qed.

Lemma strided_elem {A} (f : Z → list A) stride count address x :
  0 < stride → 0 ≤ address → address + Z.of_nat count * stride ≤ word_max →
  x ∈ strided f stride count address ↔ ∃ j, 0 ≤ j < Z.of_nat count ∧ x ∈ f (address + j * stride).
Proof.
  intros Hs. revert address. induction count as [|k IH]; intros address Ha Hm; simpl; [set_solver by lia|].
  rewrite elem_of_app. destruct k as [|k].
  - simpl. split; [intros [Hx|Hx%not_elem_of_nil]; [|done]; exists 0; rewrite Z.add_0_r; split; [lia|done]|].
    intros (j & Hj & Hx). left. assert (j = 0) as -> by lia. by rewrite Z.add_0_r in Hx.
  - assert (wrap64 (address + stride) = address + stride) as Hw by (apply wrap64_small; split; nia).
    rewrite IH by (rewrite ?Hw; nia). rewrite Hw. split.
    + intros [Hx|(j & Hj & Hx)]; [exists 0; rewrite Z.add_0_r; split; [lia|done]|]. exists (j + 1). split; [lia|]. by replace (address + (j + 1) * stride) with (address + stride + j * stride) by lia.
    + intros (j & Hj & Hx). destruct (decide (j = 0)) as [->|Hne]; [left; by rewrite Z.add_0_r in Hx|]. right. exists (j - 1). split; [lia|].
      by replace (address + stride + (j - 1) * stride) with (address + j * stride) by lia.
Qed.

(** The addresses of some declarations. *)
Definition covered_by (l : list depinfo) (a : Z) : Prop := ∃ i, i ∈ l ∧ dep_start i ≤ a < dep_start i + dep_length i.

Section registered.
Context (accessType : DataAccessType) (weak : bool) (symbolIndex : Z).
Notation register := (register_data_access accessType weak symbolIndex).

(** An array in the address space. *)
Definition array_ok (base : Z) (dims : list dimension) : Prop :=
  Forall dim_ok dims ∧ 0 ≤ base ∧ base + volume dims < word_max ∧ volume dims < 2 ^ 63.

Lemma array_ok_next base d next others j :
  array_ok base (d :: next :: others) → dim_start d ≤ j < dim_end d → array_ok (base + j * volume (next :: others)) (next :: others).
Proof.
  intros (Hok & H1 & H2 & H3) Hj. inversion Hok as [|? ? (? & ? & ? & ?) Hn]; subst. pose proof (volume_pos _ Hn) as Hp.
  remember (volume (next :: others)) as v eqn:Hv. change (volume (d :: next :: others)) with (dim_size d * volume (next :: others)) in *.
  rewrite <- Hv in *. split; [done|]. rewrite <- Hv. split; [nia|]. split; [nia|]. nia.
Qed.

Lemma array_ok_scale base d next others : array_ok base (d :: next :: others) → array_ok base (scale_by next d :: others).
Proof.
  intros (Hok & H1 & H2 & H3). inversion Hok as [|? ? Hd Hn]; subst. inversion Hn as [|? ? Hn1 Hn2]; subst.
  destruct (scale_ok next d others Hd Hn1 Hn2 H3) as (_ & Hs & Hv). rewrite <- Hv in H2, H3. split; [by constructor|done].
Qed.

(** The rows of a dimension that does not merge with the next one. *)
Lemma register_rows base d next others i :
  array_ok base (d :: next :: others) → currentDimensionIsContinuous next = false →
  i ∈ register base d (next :: others) ↔
  ∃ j, dim_start d ≤ j < dim_end d ∧ i ∈ register (base + j * volume (next :: others)) next others.
Proof.
  intros Ha Hc. destruct Ha as (Hok & H1 & H2 & H3). inversion Hok as [|? ? (Hs & Hd1 & Hd2 & Hd3) Hn]; subst. pose proof (volume_pos _ Hn) as Hp.
  cbn [register_data_access]. rewrite Hc. cbn zeta. change (volume (d :: next :: others)) with (dim_size d * volume (next :: others)) in *.
  rewrite getStride_volume by (done || nia). set (v := volume (next :: others)) in *.
  assert (wrap64 (base + dim_start d * v) = base + dim_start d * v) as -> by (apply wrap64_small; split; nia).
  rewrite strided_elem by (rewrite ?Z2Nat.id; nia). rewrite Z2Nat.id by lia. split.
  - intros (j & Hj & Hi). exists (dim_start d + j). split; [lia|]. by replace (base + (dim_start d + j) * v) with (base + dim_start d * v + j * v) by lia.
  - intros (j & Hj & Hi). exists (j - dim_start d). split; [lia|]. by replace (base + dim_start d * v + (j - dim_start d) * v) with (base + j * v) by lia.
Qed.

Lemma register_covers base d others a :
  array_ok base (d :: others) → covered_by (register base d others) a ↔ in_region (d :: others) (a - base).
Proof.
  revert base d. induction others as [|next others IH]; intros base d Ha.
  - destruct Ha as (Hok & H1 & H2 & H3). inversion Hok as [|? ? (Hs & Hd1 & Hd2 & Hd3) _]; subst. simpl in H2, H3. rewrite word_max_val in H2. unfold covered_by.
    assert (is_word (base + dim_start d) ∧ is_word (dim_end d - dim_start d)) as [Hw1 Hw2] by (unfold is_word; rewrite word_max_val; lia).
    cbn [register_data_access]. setoid_rewrite list_elem_of_singleton. split.
    + intros (i & -> & Hi). cbn in Hi. rewrite !wrap64_small in Hi by done. exists (a - base), 0. simpl. split; [lia|]. split; [done|]. lia.
    + intros (i & o & Hi & -> & Heq). simpl in Heq. eexists. split; [reflexivity|]. cbn. rewrite !wrap64_small by done. lia.
  - destruct (currentDimensionIsContinuous next) eqn:Hc.
    + cbn [register_data_access]. rewrite Hc. rewrite IH by (by apply array_ok_scale). destruct Ha as (Hok & H1 & H2 & H3).
      inversion Hok as [|? ? Hd Hn]; subst. inversion Hn as [|? ? Hn1 Hn2]; subst.
      destruct (scale_ok next d others Hd Hn1 Hn2 H3) as (-> & _). by apply in_region_merge.
    + unfold covered_by. setoid_rewrite (register_rows base d next others); [|done..]. split.
      * intros (i & (j & Hj & Hi) & Hai). exists j. assert (covered_by (register (base + j * volume (next :: others)) next others) a) as Hcov by (by exists i).
        apply IH in Hcov; [|by eapply array_ok_next]. eexists. split; [done|]. split; [exact Hcov|]. lia.
      * intros (j & o & Hj & Ho & Heq). assert (covered_by (register (base + j * volume (next :: others)) next others) a) as (i & Hi & Hai).
        { apply IH; [by eapply array_ok_next|]. by replace (a - (base + j * volume (next :: others))) with o by lia. }
        exists i. split; [|done]. by exists j.
Qed.
(** The declarations are of the given type and not empty. *)
Definition declared_type : DataAccessType := if decide (accessType = COMMUTATIVE_ACCESS_TYPE) then READWRITE_ACCESS_TYPE else accessType.

Definition as_declared (i : depinfo) : Prop :=
  dep_type i = declared_type ∧ dep_weak i = weak ∧ dep_symbolIndex i = symbolIndex ∧ 0 < dep_length i.

Lemma register_as_declared base d others i : array_ok base (d :: others) → i ∈ register base d others → as_declared i.
Proof.
  revert base d. induction others as [|next others IH]; intros base d Ha.
  - destruct Ha as (Hok & H1 & H2 & H3). inversion Hok as [|? ? (Hs & Hd1 & Hd2 & Hd3) _]; subst. simpl in H3.
    cbn [register_data_access]. intros ->%list_elem_of_singleton. split_and!; [done..|]. cbn. rewrite wrap64_small; [lia|]. unfold is_word. rewrite word_max_val. lia.
  - destruct (currentDimensionIsContinuous next) eqn:Hc.
    + cbn [register_data_access]. rewrite Hc. apply IH. by apply array_ok_scale.
    + rewrite register_rows by done. intros (j & Hj & Hi). eapply IH; [by eapply array_ok_next|done].
Qed.

(** A declaration lies between the first and the last index of the outermost dimension. *)
Lemma register_between base d others i :
  array_ok base (d :: others) → i ∈ register base d others →
  base + dim_start d * volume others ≤ dep_start i ∧ dep_start i + dep_length i ≤ base + dim_end d * volume others.
Proof.
  intros Ha Hi. pose proof (register_as_declared base d others i Ha Hi) as (_ & _ & _ & Hl). pose proof Ha as (Hok & _).
  assert (in_region (d :: others) (dep_start i - base)) as H1%in_region_bounds by (apply register_covers; [done|]; exists i; split; [done|lia]); [|done].
  assert (in_region (d :: others) (dep_start i + dep_length i - 1 - base)) as H2%in_region_bounds by (apply register_covers; [done|]; exists i; split; [done|lia]); [|done].
  lia.
Qed.

(** There is a gap between one declaration and the next. *)
Definition before_gap (i j : depinfo) : Prop := dep_start i + dep_length i < dep_start j.

Lemma strided_sorted {A} (R : A → A → Prop) (f : Z → list A) stride count address :
  0 < stride → 0 ≤ address → address + Z.of_nat count * stride ≤ word_max →
  (∀ j, 0 ≤ j < Z.of_nat count → StronglySorted R (f (address + j * stride))) →
  (∀ j k x y, 0 ≤ j → j < k → k < Z.of_nat count → x ∈ f (address + j * stride) → y ∈ f (address + k * stride) → R x y) →
  StronglySorted R (strided f stride count address).
Proof.
  intros Hs. revert address. induction count as [|n IH]; intros address Ha Hm Hf Hr; simpl; [constructor|].
  pose proof (Hf 0 ltac:(lia)) as H0. rewrite Z.add_0_r in H0. destruct n as [|n]; [by simpl; rewrite app_nil_r|].
  assert (wrap64 (address + stride) = address + stride) as Hw by (apply wrap64_small; split; nia). rewrite Hw.
  apply StronglySorted_app_2; [|done|].
  - intros x y Hx (k & Hk & Hy)%strided_elem; [|nia..]. apply (Hr 0 (k + 1)); [lia..|by rewrite Z.add_0_r|].
    by replace (address + (k + 1) * stride) with (address + stride + k * stride) by lia.
  - apply IH; [nia|nia| |].
    + intros j Hj. replace (address + stride + j * stride) with (address + (j + 1) * stride) by lia. apply Hf. lia.
    + intros j k x y H1 H2 H3 Hx Hy. apply (Hr (j + 1) (k + 1)); [lia..| |].
      * by replace (address + (j + 1) * stride) with (address + stride + j * stride) by lia.
      * by replace (address + (k + 1) * stride) with (address + stride + k * stride) by lia.
Qed.

Lemma regions_sorted base d others : array_ok base (d :: others) → StronglySorted before_gap (register base d others).
Proof.
  revert base d. induction others as [|next others IH]; intros base d Ha; [by repeat constructor|].
  cbn [register_data_access]. destruct (currentDimensionIsContinuous next) eqn:Hc; [by apply IH, array_ok_scale|].
  pose proof Ha as (Hok & H1 & H2 & H3). inversion Hok as [|? ? (Hs & Hd1 & Hd2 & Hd3) Hn]; subst. pose proof (volume_pos _ Hn) as Hp.
  cbn zeta. change (volume (d :: next :: others)) with (dim_size d * volume (next :: others)) in *.
  rewrite getStride_volume by (done || nia). set (v := volume (next :: others)) in *.
  assert (wrap64 (base + dim_start d * v) = base + dim_start d * v) as -> by (apply wrap64_small; split; nia).
  assert (∀ j, base + dim_start d * v + j * v = base + (dim_start d + j) * v) as Hj by (intros; lia).
  apply strided_sorted; [done|nia|rewrite Z2Nat.id; nia| |]; rewrite Z2Nat.id by lia.
  - intros j Hjr. rewrite Hj. apply IH. eapply array_ok_next; [done|lia].
  - intros j k x y H4 H5 H6 Hx Hy. rewrite Hj in Hx, Hy.
    apply register_between in Hx as [_ Hx]; [|eapply array_ok_next; [done|lia]]. apply register_between in Hy as [Hy _]; [|eapply array_ok_next; [done|lia]].
    unfold before_gap. inversion Hn as [|? ? (Hn1 & Hn2 & Hn3 & Hn4) Ho]; subst. pose proof (volume_pos _ Ho) as Hv.
    assert (dim_end next < dim_size next + dim_start next) as Hgap.
    { unfold currentDimensionIsContinuous in Hc. apply andb_false_iff in Hc as [Hc|Hc]; bool_hyps; lia. }
    assert (v = dim_size next * volume others) as Hveq by done. nia.
Qed.
End registered.

(** ** The declarations of a task *)

Lemma declarations_elsewhere final taskloop a l before :
  ¬ covered_by l a → fold_left (declaration final taskloop a) l before = before.
Proof.
  revert before. induction l as [|i l IH]; intros before Hn; simpl; [done|]. unfold declaration at 2. rewrite decide_False.
  - apply IH. intros (k & Hk & Ha). apply Hn. exists k. split; [by right|done].
  - intros [_ Ha]. apply Hn. exists i. split; [by left|done].
Qed.

Lemma declarations_once type weak final taskloop a l :
  StronglySorted before_gap l → Forall (λ i, dep_type i = type ∧ dep_weak i = weak ∧ 0 < dep_start i ∧ 0 < dep_length i) l →
  covered_by l a → fold_left (declaration final taskloop a) l None = Some (type, weak && negb final && negb taskloop).
Proof.
  induction 1 as [|i l Hl IH Hi]; intros Hf; [intros (? & ?%not_elem_of_nil & _); done|].
  inversion Hf as [|? ? (<- & <- & Hs & Hlen) Hf']; subst. simpl. intros Hc. unfold declaration at 2. case_decide as Ha.
  - simpl. rewrite declarations_elsewhere; [done|]. intros (k & Hk & Hak). rewrite Forall_forall in Hi. specialize (Hi k Hk). unfold before_gap in Hi. lia.
  - apply IH; [done|]. destruct Hc as (k & [->|Hk]%elem_of_cons & Hak); [destruct Ha; lia|]. by exists k.
Qed.

(** ** The reference of the discrete dependencies *)

Fixpoint offsets (dims : list dimension) : list Z :=
  match dims with
  | [] => [0]
  | d :: dims => i ← seqZ (dim_start d) (dim_end d - dim_start d); (λ o, i * volume dims + o) <$> offsets dims
  end.

Lemma elem_of_offsets dims o : o ∈ offsets dims ↔ in_region dims o.
Proof.
  revert o. induction dims as [|d dims IH]; intros o; simpl; [apply list_elem_of_singleton|]. rewrite list_elem_of_bind. split.
  - intros (i & (o' & -> & Ho)%list_elem_of_fmap & Hi%elem_of_seqZ). exists i, o'. split; [lia|]. split; [by apply IH|done].
  - intros (i & o' & Hi & Ho & ->). exists i. split; [|apply elem_of_seqZ; lia]. apply list_elem_of_fmap. exists o'. by rewrite IH.
Qed.

Lemma in_region_range dims o : Forall dim_ok dims → in_region dims o → 0 ≤ o < volume dims.
Proof.
  destruct dims as [|d dims]; simpl in_region; [intros _ ->; simpl; lia|]. intros Hok Ho.
  pose proof (in_region_bounds d dims o Hok Ho). inversion Hok as [|? ? (? & ? & ? & ?) Hds]; subst. pose proof (volume_pos dims Hds). simpl. nia.
Qed.

Lemma offsets_NoDup dims : Forall dim_ok dims → NoDup (offsets dims).
Proof.
  induction 1 as [|d dims Hd Hds IH]; simpl; [apply NoDup_singleton|]. apply NoDup_bind; [| |apply NoDup_seqZ].
  - intros i j y _ _ (o1 & -> & H1%elem_of_offsets)%list_elem_of_fmap (o2 & Heq & H2%elem_of_offsets)%list_elem_of_fmap.
    apply in_region_range in H1, H2; [|done..]. pose proof (volume_pos dims Hds). nia.
  - intros i _. apply NoDup_fmap_2; [intros ? ? ?; lia|done].
Qed.

Lemma length_offsets d dims : Forall dim_ok (d :: dims) → volume (d :: dims) < 2 ^ 63 → Z.of_nat (length (offsets (d :: dims))) = getDiscreteSize (d :: dims).
Proof.
  assert (∀ dims, Forall dim_ok dims → volume dims < 2 ^ 63 →
    Z.of_nat (length (offsets dims)) = getDiscreteSize dims ∧ 0 ≤ getDiscreteSize dims ≤ volume dims) as Hall.
  { clear. induction 1 as [|d dims (H1 & H2 & H3 & H4) Hds IH]; intros Hv; [simpl; lia|]. cbn [offsets getDiscreteSize volume] in *. pose proof (volume_pos dims Hds).
    destruct IH as [IH1 IH2]; [nia|]. assert (∀ l : list Z, length (i ← l; (λ o, i * volume dims + o) <$> offsets dims) = (length l * length (offsets dims))%nat) as Hl.
    { induction l as [|i l IHl]; [done|]. rewrite bind_cons, length_app, length_fmap, IHl. cbn. lia. }
    rewrite Hl, length_seqZ, Nat2Z.inj_mul, Z2Nat.id, IH1 by lia. rewrite wrap64_small; [nia|]. unfold is_word. rewrite word_max_val. nia. }
  intros Hok Hv. by apply Hall.
Qed.

Lemma first_offset dims :
  Forall dim_ok dims → volume dims < 2 ^ 63 → in_region dims (getStartOffset dims) ∧ ∀ o, in_region dims o → getStartOffset dims ≤ o.
Proof.
  induction 1 as [|d dims (H1 & H2 & H3 & H4) Hds IH]; simpl; intros Hv; [split; [done|]; by intros o ->|].
  pose proof (volume_pos dims Hds). destruct IH as [IH1 IH2]; [nia|]. rewrite getStride_volume by (done || nia).
  pose proof (in_region_range _ _ Hds IH1) as Hr. rewrite wrap64_small by (unfold is_word; rewrite word_max_val; nia). split.
  - exists (dim_start d), (getStartOffset dims). split_and!; [lia|lia|done|done].
  - intros o (i & o' & Hi & Ho & ->). specialize (IH2 o' Ho). nia.
Qed.

(** ** Properties *)

Module Multidim.
(** C13: the declaration of a region of an array with any number of dimensions, of any type but a reduction, becomes
    declarations of linear regions that the dependencies can represent; together they declare exactly the
    addresses of the array region, each of them once, and there is a gap between each and the next one, so
    that there are no more of them than necessary. *)
Theorem region_declared_exactly accessType weak symbolIndex base d others final taskloop :
  array_ok base (d :: others) → 0 < base → accessType ≠ REDUCTION_ACCESS_TYPE → symbolIndex < 64 →
  let deps := register_data_access accessType weak symbolIndex base d others in
  Forall dep_ok deps ∧ StronglySorted before_gap deps ∧
  ∀ a, (in_region (d :: others) (a - base) →
          fold_left (declaration final taskloop a) deps None = Some (declared_type accessType, weak && negb final && negb taskloop)) ∧
       (¬ in_region (d :: others) (a - base) → fold_left (declaration final taskloop a) deps None = None).
Proof.
  intros Ha Hb Ht Hsym deps.
  assert (∀ i, i ∈ deps → as_declared accessType weak symbolIndex i ∧ base ≤ dep_start i ∧ dep_start i + dep_length i < word_max) as Hi.
  { intros i Hi. pose proof Ha as (Hok & H1 & H2 & H3). inversion Hok as [|? ? (? & ? & ? & ?) Hds]; subst. pose proof (volume_pos _ Hds).
    split; [by eapply register_as_declared|]. apply register_between in Hi as [? ?]; [|done]. simpl in H2. nia. }
  assert (StronglySorted before_gap deps) as Hs by (by apply regions_sorted). split_and!; [|done|].
  - apply Forall_forall. intros i Hin. destruct (Hi i Hin) as ((H1 & H2 & H3 & H4) & H5 & H6). split_and!; [|split_and!; simpl; lia|lia].
    rewrite H1. unfold declared_type. by case_decide.
  - intros a. rewrite <- (register_covers accessType weak symbolIndex) by done. split; [|apply declarations_elsewhere].
    apply declarations_once; [done|]. apply Forall_forall. intros i Hin. destruct (Hi i Hin) as ((H1 & H2 & H3 & H4) & H5 & H6). split_and!; [done|done|lia|lia].
Qed.

(** Two of four planes with three rows of eight bytes, of which bytes 2 to 5 are in the region. *)
Definition sample_region : list dimension := [mkDim 3 0 3; mkDim 8 2 6].

Lemma region_declared_exactly_witness :
  let deps := register_data_access READ_ACCESS_TYPE false 0 1000 (mkDim 4 1 3) sample_region in
  length deps = 6%nat ∧ fold_left (declaration false false 1034) deps None = Some (READ_ACCESS_TYPE, false).
Proof.
  intros deps. split; [reflexivity|].
  destruct (region_declared_exactly READ_ACCESS_TYPE false 0 1000 (mkDim 4 1 3) sample_region false false) as (_ & _ & H).
  - split; [repeat constructor; simpl; lia|]. rewrite word_max_val. simpl. lia.
  - lia.
  - done.
  - lia.
  - apply H. apply elem_of_offsets. apply (bool_decide_unpack _). vm_compute. exact I.
Defined.

(** C39: the linear regions that a reduction over a region of an array with several dimensions declares all start at the
    base of the array: the rows of a region with incomplete rows are declared as so many times the
    first one, with its whole length, and the second row is not declared at all. *)
Theorem reduction_rows_collapse weak operation index symbolIndex base rows size bytes :
  array_ok base [mkDim rows 0 rows; mkDim size 0 bytes] → 0 < base → bytes < size → 1 < rows →
  let deps := register_reduction_access weak operation index symbolIndex base (mkDim rows 0 rows) [mkDim size 0 bytes] in
  deps = replicate (Z.to_nat rows) (mkDepinfo REDUCTION_ACCESS_TYPE weak base size symbolIndex operation index) ∧
  in_region [mkDim rows 0 rows; mkDim size 0 bytes] size ∧ ¬ covered_by deps (base + size).
Proof.
  intros (Hok & H1 & H2 & H3) Hb Hne Hrows deps. inversion Hok as [|? ? Hd Hn]; subst. inversion Hn as [|? ? (Hs1 & Hs2 & Hs3 & Hs4) _]; subst.
  cbn [dim_size dim_start dim_end volume] in *. assert (deps = replicate (Z.to_nat rows) (mkDepinfo REDUCTION_ACCESS_TYPE weak base size symbolIndex operation index)) as Hdeps.
  { unfold deps. cbn. unfold currentDimensionIsContinuous. cbn. assert (bytes =? size = false) as -> by (apply Z.eqb_neq; lia). cbn. rewrite Z.sub_0_r.
    assert (wrap64 size = size) as Hw by (apply wrap64_small; unfold is_word; rewrite word_max_val; nia).
    generalize (wrap64 (base + 0 * wrap64 (size * 1))). induction (Z.to_nat rows) as [|n IH]; intros addr; [done|]. cbn. rewrite IH. unfold register_reduction_base. cbn. by rewrite Hw. }
  split; [done|]. split.
  - exists 1, 0. cbn. split; [lia|]. split; [|lia]. exists 0, 0. split; [lia|]. by split.
  - clearbody deps. subst deps. intros (i & [-> _]%elem_of_replicate & Ha). cbn in Ha. lia.
Qed.

Lemma reduction_rows_collapse_witness :
  ¬ covered_by (register_reduction_access false 0 0 0 1000 (mkDim 3 0 3) [mkDim 8 0 4]) (1000 + 8).
Proof.
  apply (reduction_rows_collapse false 0 0 0 1000 3 8 4); [|lia|lia|lia].
  split; [repeat constructor; simpl; lia|]. rewrite word_max_val. simpl. lia.
Defined.

(** The discrete dependencies declare the region by its first byte and the number of its bytes: the address is
    the lowest one of the region. *)
Theorem discrete_declares_first base d others :
  array_ok base (d :: others) →
  let '(address, size) := discrete_register_data_access base (d :: others) in
  in_region (d :: others) (address - base) ∧ (∀ a, in_region (d :: others) (a - base) → address ≤ a) ∧
  ∃ bytes, NoDup bytes ∧ (∀ o, o ∈ bytes ↔ in_region (d :: others) o) ∧ Z.of_nat (length bytes) = size.
Proof.
  intros (Hok & H1 & H2 & H3). unfold discrete_register_data_access. destruct (first_offset (d :: others) Hok H3) as [Hf Hl].
  pose proof (in_region_range _ _ Hok Hf) as Hr. rewrite wrap64_small by (split; lia). split_and!.
  - by replace (base + getStartOffset (d :: others) - base) with (getStartOffset (d :: others)) by lia.
  - intros a Ha. specialize (Hl _ Ha). lia.
  - exists (offsets (d :: others)). split_and!; [by apply offsets_NoDup|intros o; apply elem_of_offsets|by apply length_offsets].
Qed.

Lemma discrete_declares_first_witness : in_region (mkDim 4 1 3 :: sample_region) (1026 - 1000).
Proof.
  apply (discrete_declares_first 1000 (mkDim 4 1 3) sample_region). split; [repeat constructor; simpl; lia|]. rewrite word_max_val. simpl. lia.
Defined.
End Multidim.
