(* ===== verification/Taskloop.v ===== *)
(** * Taskloops

    [src/tasks/Taskloop.hpp], [Taskloop.cpp], [TaskloopInfo.hpp], [TaskloopLogic.hpp]: the
    iteration space of a taskloop is split in one partition for each group of CPUs; the
    collaborators of the taskloop take chunks of iterations from the partitions with an
    atomic addition until none is todo. *)

From S2P Require Import Prelude.
Local Open Scope Z_scope.

(** ** Data *)

(** [nanos6_taskloop_bounds_t]; the fields are [size_t]. *)
Record bounds_t := mkBounds {
  lower_bound : Z; upper_bound : Z; step : Z; chunksize : Z }.

Record TaskloopPartition := mkPartition { upperBound : Z; nextLowerBound : Z }.

Record TaskloopInfo := mkInfo {
  ti_bounds : bounds_t;
  ti_remainingPartitions : Z;
  ti_partitions : list TaskloopPartition;
}.

(** ** Splitting the iterations *)

Definition getIterationCount (b : bounds_t) : Z := wrap64 (upper_bound b - lower_bound b).

(** The loop of [splitIterations]: the partitions from [partition] on, [todo] of them. *)
Fixpoint split_loop (todo : nat) (numPartitions partition totalChunks chunksPerPartition csize : Z)
    (lowerBound originalUpperBound : Z) : list bounds_t :=
  match todo with
  | O => []
  | S todo =>
      let extraChunk := if numPartitions - partition <=? totalChunks mod numPartitions then 1 else 0 in
      let myIterations := wrap64 (wrap64 (chunksPerPartition + extraChunk) * csize) in
      let upper := Z.min (wrap64 (lowerBound + myIterations)) originalUpperBound in
      mkBounds lowerBound upper 1 csize ::
      split_loop todo numPartitions (partition + 1) totalChunks chunksPerPartition csize upper
        originalUpperBound
  end.

Definition splitIterations (numPartitions : nat) (b : bounds_t) : list bounds_t :=
  let n := Z.of_nat numPartitions in
  let totalIterations := getIterationCount b in
  let totalChunks :=
    wrap64 (totalIterations / chunksize b + (if 0 <? totalIterations mod chunksize b then 1 else 0)) in
  split_loop numPartitions n 0 totalChunks (totalChunks / n) (chunksize b)
    (lower_bound b) (upper_bound b).

(** [TaskloopInfo::getPartitionCount]: at least one CPU, one CPU or more for each partition. *)
Definition getPartitionCount (totalCPUs CPUsPerPartition : Z) : Z :=
  1 + (totalCPUs - 1) / CPUsPerPartition.

(** The chunk size that [initialize] settles on. *)
Definition initial_chunksize (partitionCount : nat) (b : bounds_t) : Z :=
  if chunksize b =? 0
  then Z.max (getIterationCount b / (2 * Z.of_nat partitionCount)) 1
  else chunksize b.

(** [TaskloopInfo::initialize] *)
Definition initialize (partitionCount : nat) (b : bounds_t) : TaskloopInfo :=
  let b := mkBounds (lower_bound b) (upper_bound b) (step b) (initial_chunksize partitionCount b) in
  let partialBounds := splitIterations partitionCount b in
  mkInfo b
    (Z.of_nat (countb (λ p, 0 <? getIterationCount p) partialBounds))
    ((λ p, mkPartition (upper_bound p) (lower_bound p)) <$> partialBounds).

(** ** Taking chunks *)

Definition hasPendingIterations (info : TaskloopInfo) : bool := 0 <? ti_remainingPartitions info.

(** The atomic addition of [getPendingIterationsFromPartition]: the bounds obtained, if any. *)
Definition take_chunk (b : bounds_t) (p : TaskloopPartition) : TaskloopPartition * option bounds_t :=
  let steppedChunksize := wrap64 (step b * chunksize b) in
  let lowerBound := nextLowerBound p in
  (mkPartition (upperBound p) (wrap64 (nextLowerBound p + steppedChunksize)),
   if lowerBound <? upperBound p then
     Some (mkBounds lowerBound (Z.min (wrap64 (lowerBound + steppedChunksize)) (upperBound p))
             (step b) (chunksize b))
   else None).

(** The chunk was the last one of its partition. *)
Definition last_chunk (p : TaskloopPartition) (chunk : bounds_t) : bool :=
  upperBound p <=? upper_bound chunk.

(** [Taskloop::getPendingIterationsFromPartition] *)
Definition getPendingIterationsFromPartition (partitionId : nat) (info : TaskloopInfo) :
    res (TaskloopInfo * option bounds_t) :=
  p ← get (ti_partitions info !! partitionId);
  let '(p', obtained) := take_chunk (ti_bounds info) p in
  let remaining :=
    match obtained with
    | Some chunk =>
        if last_chunk p chunk then wrap64 (ti_remainingPartitions info - 1)
        else ti_remainingPartitions info
    | None => ti_remainingPartitions info
    end in
  Ok (mkInfo (ti_bounds info) remaining (<[partitionId := p']> (ti_partitions info)), obtained).

(** ** Visiting the partitions *)

(** [modulus], with the remainder of C. *)
Definition modulus (a b : Z) : Z :=
  if a <? 0 then Z.rem (Z.rem a b + b) b else Z.rem a b.

(** The two loops of [getPartitionPath], from iteration [i] on, [todo] of them. *)
Fixpoint path_distributed (todo : nat) (i sign partition partitionCount : Z) : list Z :=
  match todo with
  | O => []
  | S todo =>
      let partition := modulus (partition + sign * i) partitionCount in
      partition :: path_distributed todo (i + 1) (sign * -1) partition partitionCount
  end.

Fixpoint path_sequential (todo : nat) (partition partitionCount : Z) : list Z :=
  match todo with
  | O => []
  | S todo => partition :: path_sequential todo (Z.rem (partition + 1) partitionCount) partitionCount
  end.

(** [Taskloop::getPartitionPath] *)
Definition getPartitionPath (useDistributionFunction : bool) (CPUId : Z) (partitionCount : nat) : list Z :=
  let n := Z.of_nat partitionCount in
  let partition := Z.rem CPUId n in
  if useDistributionFunction then path_distributed partitionCount 0 1 partition n
  else path_sequential partitionCount partition n.

(** The loop of [Taskloop::run], with the chunks that the body has been called on: take from
    the current partition, the first of [path], until it is exhausted. *)
Fixpoint run_loop (fuel : nat) (path : list Z) (info : TaskloopInfo) (chunks : list bounds_t) :
    res (TaskloopInfo * list bounds_t) :=
  match fuel with
  | O => Err OutOfFuel
  | S fuel =>
      partitionId ← get (head path);
      r ← getPendingIterationsFromPartition (Z.to_nat partitionId) info;
      let '(info, work) := r in
      match work with
      | Some chunk => run_loop fuel path info (chunks ++ [chunk])
      | None =>
          let path := tail path in
          if negb (hasPendingIterations info) || bool_decide (path = []) then Ok (info, chunks)
          else run_loop fuel path info chunks
      end
  end.

(** [Taskloop::run], by a collaborator on the given CPU. *)
Definition run (fuel : nat) (useDistributionFunction : bool) (CPUId : Z) (info : TaskloopInfo) :
    res (TaskloopInfo * list bounds_t) :=
  run_loop fuel (getPartitionPath useDistributionFunction CPUId (length (ti_partitions info))) info [].
