(* ===== verification/TaskloopProofs.v ===== *)
(** * Taskloops: theorems

    The partitions of a taskloop tile its iteration space, every collaborator visits every
    partition, and under any interleaving of the collaborators each iteration is handed out
    exactly once, with no iteration left when no partition remains. *)

From S2P Require Import Prelude Taskloop.
Local Open Scope Z_scope.

(** ** The split *)

(** The loops the runtime is given: normalized, not backwards, and a chunk away from the end of
    the address space. *)
Definition loop_ok (n : nat) (b : bounds_t) : Prop :=
  (0 < n)%nat ∧ Z.of_nat n < 2 ^ 31 ∧ step b = 1 ∧ 0 ≤ lower_bound b ≤ upper_bound b ∧
  0 < chunksize b < word_max ∧  upper_bound b + chunksize b ≤ word_max.

Section split.
Context (n : nat) (b : bounds_t) (Hok : loop_ok n b).

Definition total_chunks : Z :=
  (upper_bound b - lower_bound b + chunksize b - 1) / chunksize b.

(** The chunks before partition [p]. *)
Definition chunks_before (p : Z) : Z :=
  p * (total_chunks / Z.of_nat n) + Z.max 0 (p - (Z.of_nat n - total_chunks mod Z.of_nat n)).

(** The first iteration of partition [p]. *)
Definition cut (p : Z) : Z := Z.min (lower_bound b + chunks_before p * chunksize b) (upper_bound b).

Lemma total_chunks_spec :
  let t := upper_bound b - lower_bound b in
  0 ≤ total_chunks ∧ t ≤ total_chunks * chunksize b < t + chunksize b.
Proof.
  destruct Hok as (_ & _ & _ & Hb & Hc & _). unfold total_chunks. cbv zeta.
  pose proof (Z.div_mod (upper_bound b - lower_bound b + chunksize b - 1) (chunksize b)) as Hd.
  pose proof (Z.mod_pos_bound (upper_bound b - lower_bound b + chunksize b - 1) (chunksize b)) as Hm.
  split; [apply Z.div_pos; lia|]. nia.
Qed.

Lemma chunks_before_0 : chunks_before 0 = 0.
Proof.
  destruct Hok as (Hn & _). unfold chunks_before.
  pose proof (Z.mod_pos_bound total_chunks (Z.of_nat n)). lia.
Qed.

Lemma chunks_before_n : chunks_before (Z.of_nat n) = total_chunks.
Proof.
  destruct Hok as (Hn & _). unfold chunks_before.
  pose proof (Z.mod_pos_bound total_chunks (Z.of_nat n)).
  pose proof (Z.div_mod total_chunks (Z.of_nat n)). lia.
Qed.

Lemma chunks_before_succ p :
  0 ≤ p →
  chunks_before (p + 1) = chunks_before p + total_chunks / Z.of_nat n +
    (if Z.of_nat n - p <=? total_chunks mod Z.of_nat n then 1 else 0).
Proof. intros Hp. unfold chunks_before. destruct (Z.leb_spec (Z.of_nat n - p) (total_chunks mod Z.of_nat n)); lia. Qed.

Lemma chunks_before_mono p q : 0 ≤ p ≤ q → chunks_before p ≤ chunks_before q.
Proof.
  intros Hpq. unfold chunks_before. destruct Hok as (Hn & _).
  assert (0 ≤ total_chunks / Z.of_nat n) by (apply Z.div_pos; [apply total_chunks_spec|lia]). nia.
Qed.

Lemma cut_mono p q : 0 ≤ p ≤ q → cut p ≤ cut q.
Proof.
  intros Hpq. pose proof (chunks_before_mono p q Hpq). destruct Hok as (_ & _ & _ & _ & Hc & _).
  unfold cut. nia.
Qed.

Lemma cut_0 : cut 0 = lower_bound b.
Proof. destruct Hok as (_ & _ & _ & Hb & _). unfold cut. rewrite chunks_before_0. lia. Qed.

Lemma cut_n : cut (Z.of_nat n) = upper_bound b.
Proof. pose proof total_chunks_spec as [_ Ht]. unfold cut. rewrite chunks_before_n. cbv zeta in Ht. lia. Qed.

Lemma cut_range p : 0 ≤ p ≤ Z.of_nat n → lower_bound b ≤ cut p ≤ upper_bound b.
Proof. intros Hp. rewrite <- cut_0 at 1. rewrite <- cut_n at 1. split; apply cut_mono; lia. Qed.

Lemma total_chunks_code :
  wrap64 (getIterationCount b / chunksize b +
          (if 0 <? getIterationCount b mod chunksize b then 1 else 0)) = total_chunks.
Proof.
  pose proof Hok as (_ & _ & _ & Hb & Hc & Hw). unfold getIterationCount.
  set (t := upper_bound b - lower_bound b).
  assert (wrap64 t = t) as -> by (apply wrap64_small; unfold is_word, t; lia).
  assert (t / chunksize b + (if 0 <? t mod chunksize b then 1 else 0) = total_chunks) as ->.
  { unfold total_chunks. fold t. pose proof (Z.div_mod t (chunksize b)).
    pose proof (Z.mod_pos_bound t (chunksize b)).
    destruct (Z.ltb_spec 0 (t mod chunksize b)).
    - apply Z.div_unique with (t mod chunksize b - 1); lia.
    - apply Z.div_unique with (chunksize b - 1); lia. }
  apply wrap64_small. unfold is_word. pose proof total_chunks_spec as [H0 Ht]. cbv zeta in Ht. nia.
Qed.

(** The partitions are the intervals between consecutive cuts. *)
Lemma split_loop_cuts todo p :
  0 ≤ p → p + Z.of_nat todo = Z.of_nat n →
  split_loop todo (Z.of_nat n) p total_chunks (total_chunks / Z.of_nat n) (chunksize b) (cut p)
    (upper_bound b) =
  (λ i, mkBounds (cut (p + Z.of_nat i)) (cut (p + Z.of_nat i + 1)) 1 (chunksize b)) <$> seq 0 todo.
Proof.
  revert p. induction todo as [|todo IH]; intros p Hp Hn; [done|].
  cbn [split_loop]. rewrite <- cons_seq, <- fmap_S_seq. csimpl. rewrite <- list_fmap_compose.
  assert (Z.min (wrap64 (cut p + wrap64 (wrap64 (total_chunks / Z.of_nat n +
    (if Z.of_nat n - p <=? total_chunks mod Z.of_nat n then 1 else 0)) * chunksize b)))
    (upper_bound b) = cut (p + 1)) as ->.
  { pose proof Hok as (Hn0 & _ & _ & Hb & Hc & Hw). pose proof (chunks_before_succ p Hp) as Hs.
    set (k := total_chunks / Z.of_nat n + _) in *.
    assert (chunks_before (p + 1) = chunks_before p + k) as Hk by (unfold k; lia). clear Hs.
    pose proof (chunks_before_mono 0 p). rewrite chunks_before_0 in *.
    pose proof (chunks_before_mono p (p + 1)).
    pose proof (chunks_before_mono (p + 1) (Z.of_nat n)). rewrite chunks_before_n in *.
    pose proof total_chunks_spec as [_ Ht]. cbv zeta in Ht.
    assert (0 ≤ k * chunksize b ≤ total_chunks * chunksize b) by nia.
    rewrite (wrap64_small k) by (unfold is_word; nia).
    rewrite (wrap64_small (k * chunksize b)) by (unfold is_word; lia).
    unfold cut. rewrite Hk. rewrite wrap64_small by (unfold is_word; nia). nia. }
  rewrite IH by lia. f_equal.
  - f_equal; [f_equal; lia|f_equal; lia].
  - apply list_fmap_ext. intros i j _. unfold compose. f_equal; f_equal; lia.
Qed.

Lemma splitIterations_cuts :
  splitIterations n b =
    (λ i, mkBounds (cut (Z.of_nat i)) (cut (Z.of_nat i + 1)) 1 (chunksize b)) <$> seq 0 n.
Proof.
  unfold splitIterations. cbv zeta. rewrite total_chunks_code, <- cut_0, split_loop_cuts by lia.
  apply list_fmap_ext. intros i j _. f_equal; f_equal; lia.
Qed.
End split.

(** ** The collaborators *)

Definition chunk_has (i : Z) (c : bounds_t) : bool := (lower_bound c <=? i) && (i <? upper_bound c).
Definition left_has (i : Z) (p : TaskloopPartition) : bool := (nextLowerBound p <=? i) && (i <? upperBound p).
Definition exhausted (p : TaskloopPartition) : bool := upperBound p <=? nextLowerBound p.

(** The taskloop, the chunks that the collaborators have been given, the collaborators that
    have taken the last chunk of a partition and not yet decreased the remaining partitions, and how
    often a collaborator has found each partition empty. *)
Record tl_state := mkTl {
  tl_info : TaskloopInfo;
  tl_chunks : list bounds_t;
  tl_owed : nat;
  tl_empty : nat → nat;
}.

Definition tl_start (n : nat) (b : bounds_t) : tl_state := mkTl (initialize n b) [] 0 (λ _, 0%nat).

Definition obtained_chunks (o : option bounds_t) : list bounds_t :=
  match o with Some c => [c] | None => [] end.

(** The two atomic operations of [getPendingIterationsFromPartition]. *)
Inductive tl_step : tl_state → tl_state → Prop :=
  | tl_take s id p p' obtained :
      let info := tl_info s in
      ti_partitions info !! id = Some p →
      take_chunk (ti_bounds info) p = (p', obtained) →
      tl_step s (mkTl (mkInfo (ti_bounds info) (ti_remainingPartitions info)
                         (<[id := p']> (ti_partitions info)))
                   (tl_chunks s ++ obtained_chunks obtained)
                   (match obtained with
                    | Some c => if last_chunk p c then S (tl_owed s) else tl_owed s
                    | None => tl_owed s
                    end)
                   (λ j, if decide (j = id ∧ obtained = None) then S (tl_empty s j) else tl_empty s j))
  | tl_decrease s owed :
      let info := tl_info s in
      tl_owed s = S owed →
      tl_step s (mkTl (mkInfo (ti_bounds info) (wrap64 (ti_remainingPartitions info - 1))
                         (ti_partitions info)) (tl_chunks s) owed (tl_empty s)).

(** No partition has been found empty so often that its next lower bound, which grows by a chunk
    each time, wraps.  (A collaborator finds each partition empty once.) *)
Definition in_range (b : bounds_t) (s : tl_state) : Prop :=
  ∀ id, upper_bound b + (Z.of_nat (tl_empty s id) + 1) * chunksize (ti_bounds (tl_info s)) ≤ word_max.

(** [has] counts the places where the iteration is: given out, or left in a partition. *)
Definition places (i : Z) (s : tl_state) : nat :=
  (countb (chunk_has i) (tl_chunks s) + countb (left_has i) (ti_partitions (tl_info s)))%nat.

Definition partition_ok (p : TaskloopPartition) : Prop :=
  0 ≤ nextLowerBound p < word_max ∧ 0 ≤ upperBound p < word_max.

Record tl_inv (b : bounds_t) (s : tl_state) : Prop := {
  tli_bounds : step (ti_bounds (tl_info s)) = 1 ∧ 0 < chunksize (ti_bounds (tl_info s)) < word_max;
  tli_places : ∀ i, places i s = if (lower_bound b <=? i) && (i <? upper_bound b) then 1%nat else 0%nat;
  tli_partitions : Forall partition_ok (ti_partitions (tl_info s));
  tli_remaining : ti_remainingPartitions (tl_info s) =
    Z.of_nat (countb (λ p, negb (exhausted p)) (ti_partitions (tl_info s)) + tl_owed s);
  tli_small : ti_remainingPartitions (tl_info s) < word_max;
  tli_next : ∀ id p, ti_partitions (tl_info s) !! id = Some p →
    upperBound p ≤ upper_bound b ∧
    nextLowerBound p < upper_bound b + (Z.of_nat (tl_empty s id) + 1) * chunksize (ti_bounds (tl_info s));
}.

Lemma take_chunk_spec b p p' obtained :
  step b = 1 → 0 < chunksize b < word_max → partition_ok p →
  nextLowerBound p + chunksize b < word_max → take_chunk b p = (p', obtained) →
  p' = mkPartition (upperBound p) (nextLowerBound p + chunksize b) ∧
  obtained = (if exhausted p then None else
    Some (mkBounds (nextLowerBound p) (Z.min (nextLowerBound p + chunksize b) (upperBound p)) 1 (chunksize b))).
Proof.
  intros Hs Hc [Hn Hu] Hw. unfold take_chunk. rewrite Hs, Z.mul_1_l.
  rewrite (wrap64_small (chunksize b)) by (unfold is_word; lia).
  rewrite (wrap64_small (nextLowerBound p + _)) by (unfold is_word; lia).
  intros [= <- <-]. split; [done|]. unfold exhausted.
  destruct (Z.ltb_spec (nextLowerBound p) (upperBound p)), (Z.leb_spec (upperBound p) (nextLowerBound p));
    (done || lia).
Qed.

Lemma tl_step_grows s s' :
  tl_step s s' → ti_bounds (tl_info s') = ti_bounds (tl_info s) ∧ ∀ id, (tl_empty s id ≤ tl_empty s' id)%nat.
Proof. intros [] ; (split; [done|]); intros j; simpl; [case_decide; lia|done]. Qed.

Lemma tl_steps_grow s s' :
  rtc tl_step s s' → ti_bounds (tl_info s') = ti_bounds (tl_info s) ∧ ∀ id, (tl_empty s id ≤ tl_empty s' id)%nat.
Proof.
  induction 1 as [|s1 s2 s3 Hs _ [IHb IHe]]; [done|]. apply tl_step_grows in Hs as [Hb He].
  split; [congruence|]. intros id. specialize (He id). specialize (IHe id). lia.
Qed.

(** A claim in range does not wrap. *)
Lemma claim_in_range b s id p p' obt :
  tl_inv b s → ti_partitions (tl_info s) !! id = Some p →
  upper_bound b + chunksize (ti_bounds (tl_info s)) ≤ word_max →
  (exhausted p = true → upper_bound b + (Z.of_nat (tl_empty s id) + 2) * chunksize (ti_bounds (tl_info s)) ≤ word_max) →
  take_chunk (ti_bounds (tl_info s)) p = (p', obt) →
  nextLowerBound p + chunksize (ti_bounds (tl_info s)) < word_max.
Proof.
  intros Hinv Hp Hr He Ht. pose proof (tli_next _ _ Hinv id p Hp) as [Hu Hn].
  unfold exhausted in He. destruct (Z.leb_spec (upperBound p) (nextLowerBound p)); [specialize (He eq_refl); lia|lia].
Qed.

Lemma exhausted_obtained b p : snd (take_chunk b p) = None ↔ exhausted p = true.
Proof.
  unfold take_chunk, exhausted. cbn [snd].
  destruct (Z.ltb_spec (nextLowerBound p) (upperBound p)), (Z.leb_spec (upperBound p) (nextLowerBound p)); (done || lia).
Qed.

Lemma tl_inv_step b s s' : tl_inv b s → tl_step s s' → in_range b s' → tl_inv b s'.
Proof.
  intros Hinv Hstep Hrange. pose proof Hinv as [[Hst Hc] Hpl Hps Hrem Hsm Hnx].
  destruct Hstep as [s id p p' obt info Hp Htk|s owed info Ho].
  - assert (partition_ok p) as Hpok by (by eapply Forall_lookup_1).
    assert (obt = None ↔ exhausted p = true) as Hobt by (by rewrite <- (exhausted_obtained (ti_bounds info)), Htk).
    pose proof (Hrange id) as Hid. simpl in Hid. fold info in Hst, Hc, Hid, Hnx.
    assert (nextLowerBound p + chunksize (ti_bounds info) < word_max) as Hw.
    { eapply claim_in_range; [done..| | |done]; fold info.
      - revert Hid. case_decide; nia.
      - intros Hex%Hobt. rewrite decide_True in Hid by done. nia. }
    destruct (take_chunk_spec (ti_bounds info) p p' obt) as [-> Hob]; [done..|].
    assert (∀ j q, <[id := mkPartition (upperBound p) (nextLowerBound p + chunksize (ti_bounds info))]> (ti_partitions info) !! j
      = Some q → upperBound q ≤ upper_bound b ∧ nextLowerBound q < upper_bound b +
        (Z.of_nat (if decide (j = id ∧ obt = None) then S (tl_empty s j) else tl_empty s j) + 1) * chunksize (ti_bounds info)) as Hnx'.
    { intros j q. rewrite list_lookup_insert_Some. intros [(<- & <- & _)|[Hne Hq]].
      - destruct (Hnx id p Hp) as [Hu Hn]. simpl. split; [done|]. case_decide as Hd; [nia|].
        assert (exhausted p = false) as Hex by (destruct (exhausted p); [exfalso; apply Hd; split; [done|by apply Hobt]|done]).
        unfold exhausted in Hex. bool_hyps. nia.
      - destruct (Hnx j q Hq) as [Hu Hn]. rewrite decide_False by naive_solver. done. }
    clear Hobt Hid. subst obt.
    pose proof Hpok as [Hn Hu]. fold info in Hst, Hc, Hrem, Hsm. split; simpl.
    + done.
    + intros i. rewrite <- Hpl. unfold places. simpl. rewrite countb_app. fold info.
      pose proof (countb_insert (left_has i) (ti_partitions info) id p
        (mkPartition (upperBound p) (nextLowerBound p + chunksize (ti_bounds info))) Hp) as Hci.
      assert (countb (chunk_has i) (obtained_chunks (if exhausted p then None else
        Some (mkBounds (nextLowerBound p) (Z.min (nextLowerBound p + chunksize (ti_bounds info))
          (upperBound p)) 1 (chunksize (ti_bounds info))))) +
        (if left_has i (mkPartition (upperBound p) (nextLowerBound p + chunksize (ti_bounds info)))
         then 1 else 0) = (if left_has i p then 1 else 0))%nat as Hsplit.
      { unfold exhausted, left_has. simpl. case_Z; simpl;
          rewrite ?countb_cons; unfold chunk_has; simpl; case_Z; simpl; (done || lia). }
      lia.
    + apply Forall_insert; [done|]. split; simpl; lia.
    + rewrite Hrem.
      pose proof (countb_insert (λ p, negb (exhausted p)) (ti_partitions info) id p
        (mkPartition (upperBound p) (nextLowerBound p + chunksize (ti_bounds info))) Hp) as Hci.
      cbv beta in Hci. set (c1 := countb _ (<[id := _]> _)) in *. set (c0 := countb _ (ti_partitions info)) in *.
      clearbody c0 c1. revert Hci. unfold exhausted, last_chunk. simpl. case_Z; simpl; case_Z; simpl in *; lia.
    + done.
    + exact Hnx'.
  - fold info in Hst, Hc, Hrem, Hsm. split; simpl.
    + done.
    + intros i. by rewrite <- Hpl.
    + done.
    + rewrite Ho in Hrem. rewrite wrap64_small by (unfold is_word; lia). lia.
    + rewrite Ho in Hrem. rewrite wrap64_small by (unfold is_word; lia). lia.
    + exact Hnx.
Qed.

(** ** The initial state *)

Definition with_chunksize (n : nat) (b : bounds_t) : bounds_t :=
  mkBounds (lower_bound b) (upper_bound b) (step b) (initial_chunksize n b).

Section initial.
Context (n : nat) (b : bounds_t) (Hok : loop_ok n (with_chunksize n b)).
Let b' := with_chunksize n b.

Lemma initialize_partitions :
  ti_partitions (initialize n b) =
    (λ i, mkPartition (cut n b' (Z.of_nat i + 1)) (cut n b' (Z.of_nat i))) <$> seq 0 n.
Proof.
  unfold initialize. fold (with_chunksize n b). fold b'. cbn [ti_partitions].
  rewrite splitIterations_cuts by done. rewrite <- list_fmap_compose. done.
Qed.

Lemma cuts_cover i k :
  (k ≤ n)%nat →
  countb (λ j, (cut n b' (Z.of_nat j) <=? i) && (i <? cut n b' (Z.of_nat j + 1))) (seq 0 k) =
    if (cut n b' 0 <=? i) && (i <? cut n b' (Z.of_nat k)) then 1%nat else 0%nat.
Proof.
  induction k as [|k IH]; intros Hk.
  { change (Z.of_nat 0) with 0. case_Z; cbn [andb]; (done || lia). }
  rewrite seq_S, countb_app, IH, countb_cons by lia. cbn [plus].
  pose proof (cut_mono n b' Hok 0 (Z.of_nat k)). pose proof (cut_mono n b' Hok (Z.of_nat k) (Z.of_nat k + 1)).
  replace (Z.of_nat (S k)) with (Z.of_nat k + 1) by lia.
  change (countb _ []) with 0%nat. case_Z; cbn [andb]; lia.
Qed.

Lemma tl_inv_initial : tl_inv b (tl_start n b).
Proof.
  pose proof Hok as (Hn & Hn31 & Hs & Hb & Hc & Hw). fold b' in Hs, Hb, Hc, Hw. unfold tl_start. split.
  - change (ti_bounds _) with b'. split; [done|lia].
  - intros i. unfold places. cbn [tl_chunks tl_info]. rewrite initialize_partitions, countb_fmap.
    unfold left_has. simpl. rewrite cuts_cover by lia.
    rewrite cut_0, cut_n by done. done.
  - cbn [tl_info]. rewrite initialize_partitions. apply Forall_fmap, Forall_forall.
    intros i Hi%elem_of_seq. unfold partition_ok. simpl.
    pose proof (cut_range n b' Hok (Z.of_nat i)). pose proof (cut_range n b' Hok (Z.of_nat i + 1)). lia.
  - cbn [tl_info tl_owed]. rewrite initialize_partitions, countb_fmap, Nat.add_0_r.
    unfold initialize. fold (with_chunksize n b). fold b'. cbn [ti_remainingPartitions].
    rewrite splitIterations_cuts, countb_fmap by done. f_equal. apply countb_ext.
    intros i Hi%elem_of_seq. unfold getIterationCount, exhausted. simpl.
    pose proof (cut_range n b' Hok (Z.of_nat i)). pose proof (cut_range n b' Hok (Z.of_nat i + 1)).
    pose proof (cut_mono n b' Hok (Z.of_nat i) (Z.of_nat i + 1)).
    rewrite wrap64_small by (unfold is_word; lia). case_Z; simpl; (done || lia).
  - cbn [tl_info]. unfold initialize. cbn [ti_remainingPartitions]. rewrite word_max_val.
    pose proof (countb_le (λ p, 0 <? getIterationCount p) (splitIterations n b')) as Hle.
    rewrite splitIterations_cuts, length_fmap, length_seq in Hle by done.
    fold (with_chunksize n b). fold b'. rewrite splitIterations_cuts by done. lia.
  - cbn [tl_start tl_info tl_empty]. rewrite initialize_partitions. intros id p Hp.
    apply list_lookup_fmap_Some in Hp as (i & -> & [-> Hi]%lookup_seq). change (ti_bounds _) with b'. simpl.
    pose proof (cut_range n b' Hok (Z.of_nat id)). pose proof (cut_range n b' Hok (Z.of_nat id + 1)).
    change (upper_bound b') with (upper_bound b) in *. change (initial_chunksize n b) with (chunksize b'). lia.
Qed.
End initial.

Lemma tl_inv_steps b s s' : tl_inv b s → rtc tl_step s s' → in_range b s' → tl_inv b s'.
Proof.
  intros Hi Hs Hr. induction Hs as [|s1 s2 s3 Hs Hss IH]; [done|]. apply IH; [|done]. eapply tl_inv_step; [done..|].
  destruct (tl_step_grows _ _ Hs) as [Hb _]. destruct (tl_steps_grow _ _ Hss) as [Hb3 He].
  intros id. specialize (Hr id). specialize (He id). rewrite Hb3, Hb in Hr. rewrite Hb.
  destruct (tli_bounds _ _ Hi) as [_ Hc]. nia.
Qed.

(** ** The partition path *)

Lemma modulus_mod a n : 0 < n → modulus a n = a mod n.
Proof.
  intros Hn. unfold modulus. destruct (Z.ltb_spec a 0).
  - pose proof (Z.rem_bound_pos_neg a n ltac:(lia) ltac:(lia)) as Hr. rewrite (Z.rem_mod_nonneg (Z.rem a n + n)) by lia.
    rewrite Z.rem_eq by lia. replace (a - n * (a ÷ n) + n) with (a + (1 - a ÷ n) * n) by lia.
    by rewrite Z.mod_add by lia.
  - apply Z.rem_mod_nonneg; lia.
Qed.

(** The offset of the [k]-th partition visited from the first one: 0, -1, 1, -2, 2, ... *)
Definition zigzag (k : Z) : Z := if Z.even k then k / 2 else - ((k + 1) / 2).

Lemma zigzag_succ k : 0 ≤ k → zigzag (k + 1) = zigzag k + (if Z.even k then -1 else 1) * (k + 1).
Proof.
  intros Hk. unfold zigzag. rewrite Z.add_1_r, Z.even_succ, <- Z.negb_even.
  pose proof (Zmod_even k) as Hm. destruct (Z.even k); simpl;
    Z.to_euclidean_division_equations; lia.
Qed.

Lemma path_distributed_zigzag todo i sign c n :
  0 < n → 0 ≤ i → sign = (if Z.even i then 1 else -1) →
  path_distributed todo i sign ((c + zigzag i - sign * i) mod n) n =
    (λ k, (c + zigzag (i + Z.of_nat k)) mod n) <$> seq 0 todo.
Proof.
  intros Hn. revert i sign. induction todo as [|todo IH]; intros i sign Hi Hs; [done|].
  cbn [path_distributed]. rewrite modulus_mod by done.
  rewrite Zplus_mod_idemp_l. replace (c + zigzag i - sign * i + sign * i) with (c + zigzag i) by lia.
  rewrite <- cons_seq, <- fmap_S_seq. csimpl. rewrite <- list_fmap_compose, Z.add_0_r. f_equal.
  replace (c + zigzag i) with (c + zigzag (i + 1) - (sign * -1) * (i + 1)).
  2:{ rewrite zigzag_succ, Hs by done. destruct (Z.even i); lia. }
  rewrite IH; [|lia|].
  - apply list_fmap_ext. intros k x _. unfold compose. do 3 f_equal. lia.
  - rewrite Z.add_1_r, Z.even_succ, <- Z.negb_even, Hs. by destruct (Z.even i).
Qed.

Lemma path_sequential_mod todo c n :
  0 < n → 0 ≤ c →
  path_sequential todo (c mod n) n = (λ k, (c + Z.of_nat k) mod n) <$> seq 0 todo.
Proof.
  intros Hn. revert c. induction todo as [|todo IH]; intros c Hc; [done|].
  cbn [path_sequential]. rewrite <- cons_seq, <- fmap_S_seq. csimpl.
  rewrite <- list_fmap_compose, Z.add_0_r. f_equal.
  pose proof (Z.mod_pos_bound c n Hn).
  rewrite Z.rem_mod_nonneg, Zplus_mod_idemp_l, IH by lia.
  apply list_fmap_ext. intros k x _. unfold compose. f_equal. lia.
Qed.

(** As many different remainders as partitions are all the partitions. *)
Lemma remainders_permutation n (f : nat → Z) :
  (0 < n)%nat →
  (∀ i j, (i < n)%nat → (j < n)%nat → f i mod Z.of_nat n = f j mod Z.of_nat n → i = j) →
  (λ k, f k mod Z.of_nat n) <$> seq 0 n ≡ₚ Z.of_nat <$> seq 0 n.
Proof.
  intros Hn Hinj. apply submseteq_length_Permutation.
  - apply NoDup_submseteq.
    + apply NoDup_fmap_2_strong; [|apply NoDup_seq].
      intros i j Hi%elem_of_seq Hj%elem_of_seq. apply Hinj; lia.
    + intros x (k & -> & _)%list_elem_of_fmap.
      pose proof (Z.mod_pos_bound (f k) (Z.of_nat n)).
      apply list_elem_of_fmap. exists (Z.to_nat (f k mod Z.of_nat n)).
      split; [lia|]. apply elem_of_seq. lia.
  - by rewrite !length_fmap.
Qed.

Lemma mod_close_inj a c n : 0 < n → - n < a - c < n → a mod n = c mod n → a = c.
Proof.
  intros Hn Hac Hm. pose proof (Z.div_mod a n ltac:(lia)). pose proof (Z.div_mod c n ltac:(lia)).
  rewrite Hm in *. clear Hm. set (u := a / n) in *. set (v := c / n) in *. set (w := c mod n) in *.
  clearbody u v w. assert (u = v) by nia. lia.
Qed.

Lemma zigzag_range k n : 0 ≤ k < n → - (n / 2) ≤ zigzag k ≤ (n - 1) / 2.
Proof.
  intros Hk. unfold zigzag. pose proof (Zmod_even k). destruct (Z.even k);
    Z.to_euclidean_division_equations; lia.
Qed.

Lemma zigzag_inj i j : 0 ≤ i → 0 ≤ j → zigzag i = zigzag j → i = j.
Proof.
  intros Hi Hj. unfold zigzag. pose proof (Zmod_even i). pose proof (Zmod_even j).
  destruct (Z.even i), (Z.even j); Z.to_euclidean_division_equations; lia.
Qed.

Lemma getPartitionPath_permutation d cpu n :
  (0 < n)%nat → 0 ≤ cpu →
  getPartitionPath d cpu n ≡ₚ Z.of_nat <$> seq 0 n ∧ head (getPartitionPath d cpu n) = Some (cpu mod Z.of_nat n).
Proof.
  intros Hn Hcpu. unfold getPartitionPath. rewrite Z.rem_mod_nonneg by lia. destruct d.
  - pose proof (path_distributed_zigzag n 0 1 cpu (Z.of_nat n) ltac:(lia) ltac:(lia) eq_refl) as Hp.
    change (zigzag 0) with 0 in Hp. replace (cpu + 0 - 1 * 0) with cpu in Hp by lia. rewrite Hp. split.
    + apply (remainders_permutation n (λ k, cpu + zigzag (0 + Z.of_nat k))); [done|].
      intros i j Hi Hj Hm. pose proof (zigzag_range (0 + Z.of_nat i) (Z.of_nat n)).
      pose proof (zigzag_range (0 + Z.of_nat j) (Z.of_nat n)).
      apply mod_close_inj in Hm; [|lia|Z.to_euclidean_division_equations; lia].
      assert (0 + Z.of_nat i = 0 + Z.of_nat j); [apply zigzag_inj|]; lia.
    + destruct n; [lia|]. rewrite <- cons_seq. csimpl. change (zigzag (0 + Z.of_nat 0)) with 0.
      by rewrite Z.add_0_r.
  - rewrite path_sequential_mod by lia. split.
    + apply remainders_permutation; [done|]. intros i j Hi Hj Hm. apply mod_close_inj in Hm; lia.
    + destruct n; [lia|]. rewrite <- cons_seq. csimpl. by rewrite Z.add_0_r.
Qed.

(** ** A collaborator *)

(** The whole of [getPendingIterationsFromPartition] is one or two of the atomic steps. *)
Lemma getPending_steps b s id p :
  tl_inv b s → tl_owed s = 0%nat → ti_partitions (tl_info s) !! id = Some p →
  nextLowerBound p + chunksize (ti_bounds (tl_info s)) < word_max →
  ∃ s' obtained, getPendingIterationsFromPartition id (tl_info s) = Ok (tl_info s', obtained) ∧
    rtc tl_step s s' ∧ tl_owed s' = 0%nat ∧ tl_chunks s' = tl_chunks s ++ obtained_chunks obtained ∧
    ti_bounds (tl_info s') = ti_bounds (tl_info s) ∧
    ti_partitions (tl_info s') =
      <[id := mkPartition (upperBound p) (nextLowerBound p + chunksize (ti_bounds (tl_info s)))]>
        (ti_partitions (tl_info s)) ∧
    (obtained = None ↔ exhausted p = true) ∧
    ∀ j, tl_empty s' j = if decide (j = id ∧ obtained = None) then S (tl_empty s j) else tl_empty s j.
Proof.
  intros Hinv Howed Hp Hw. unfold getPendingIterationsFromPartition. rewrite Hp. cbn [get mbind res_bind].
  destruct (take_chunk (ti_bounds (tl_info s)) p) as [p' obt] eqn:Ht.
  pose proof (tl_take s id p p' obt Hp Ht) as Hstep.
  destruct (take_chunk_spec (ti_bounds (tl_info s)) p p' obt) as [-> Hobt];
    [apply Hinv|apply Hinv|eapply Forall_lookup_1; [apply Hinv|done]|done|done|].
  assert (obt = None ↔ exhausted p = true) as Hnone by (rewrite Hobt; by destruct (exhausted p)).
  set (s1 := mkTl _ _ _ _) in Hstep.
  destruct obt as [c|]; [destruct (last_chunk p c) eqn:Hl|].
  - pose proof (tl_decrease s1 (tl_owed s) eq_refl) as Hstep2. simpl in Hstep2.
    eexists (mkTl _ _ _ _), _. split; [reflexivity|].
    split; [eapply rtc_l; [exact Hstep|]; apply rtc_once; exact Hstep2|].
    split_and!; done.
  - exists s1, (Some c). split_and!; [done|by apply rtc_once|done..].
  - exists s1, None. split_and!; [done|by apply rtc_once|done..].
Qed.

Definition need (ps : list TaskloopPartition) (id : nat) : nat :=
  match ps !! id with Some p => Z.to_nat (upperBound p - nextLowerBound p) | None => 0%nat end.

Definition drained (ps : list TaskloopPartition) (id : nat) : Prop :=
  ∃ p, ps !! id = Some p ∧ exhausted p = true.

Lemma need_insert_ne ps i j p : i ≠ j → need (<[i := p]> ps) j = need ps j.
Proof. intros Hij. unfold need. by rewrite list_lookup_insert_ne. Qed.

Lemma needs_insert ps id p ids :
  id ∉ ids → sum_list_with (need (<[id := p]> ps)) ids = sum_list_with (need ps) ids.
Proof.
  induction ids as [|i ids IH]; intros Hn; [done|]. simpl.
  rewrite need_insert_ne, IH by set_solver. done.
Qed.

Lemma run_loop_correct b fuel ids s :
  tl_inv b s → tl_owed s = 0%nat → NoDup ids → ids ≠ [] →
  Forall (λ id, (id < length (ti_partitions (tl_info s)))%nat) ids →
  upper_bound b + 2 * chunksize (ti_bounds (tl_info s)) ≤ word_max →
  (∀ id, tl_empty s id ≤ if decide (id ∈ ids) then 0 else 1)%nat →
  (sum_list_with (need (ti_partitions (tl_info s))) ids + length ids ≤ fuel)%nat →
  ∃ s', run_loop fuel (Z.of_nat <$> ids) (tl_info s) (tl_chunks s) = Ok (tl_info s', tl_chunks s') ∧
    rtc tl_step s s' ∧ tl_inv b s' ∧ tl_owed s' = 0%nat ∧ (∀ id, tl_empty s' id ≤ 1)%nat ∧
    (hasPendingIterations (tl_info s') = false ∨ Forall (drained (ti_partitions (tl_info s'))) ids) ∧
    ∀ j, j ∉ ids → ti_partitions (tl_info s') !! j = ti_partitions (tl_info s) !! j.
Proof.
  revert ids s. induction fuel as [|fuel IH]; intros ids s Hinv Howed Hnd Hne Hin Hup Hem Hfuel.
  { destruct ids; simpl in *; [done|lia]. }
  destruct ids as [|id ids]; [done|]. clear Hne. pose proof Hnd as [Hid Hnd']%NoDup_cons.
  pose proof Hin as [Hlt Hin']%Forall_cons. destruct (lookup_lt_is_Some_2 _ _ Hlt) as [p Hp].
  pose proof (tli_bounds _ _ Hinv) as [Hst Hc]. pose proof (tli_next _ _ Hinv id p Hp) as [Hpu Hpn].
  pose proof (Hem id) as Hid0. rewrite decide_True in Hid0 by left. replace (tl_empty s id) with 0%nat in Hpn by lia.
  destruct (getPending_steps b s id p) as (s1 & obt & Hget & Hsteps & Ho1 & Hch & Hb1 & Hps & Hobt & He1);
    [done|done|done|lia|].
  csimpl in *. cbn [get mbind res_bind]. rewrite Nat2Z.id, Hget. cbn [mbind res_bind].
  assert (∀ j, (tl_empty s1 j ≤ if decide (j ∈ (if obt then id :: ids else ids)) then 0 else 1)%nat) as Hem1.
  { intros j. rewrite He1. specialize (Hem j). destruct (decide (j = id)) as [->|Hne].
    - destruct obt; [rewrite decide_False by naive_solver; done|]. rewrite decide_True, decide_False by done. lia.
    - rewrite decide_False by naive_solver. destruct (decide (j ∈ id :: ids)), (decide (j ∈ (if obt then id :: ids else ids)));
        destruct obt; set_solver by lia. }
  assert (∀ j, tl_empty s1 j ≤ 1)%nat as Hem1' by (intros j; specialize (Hem1 j); case_decide; lia).
  assert (tl_inv b s1) as Hinv1.
  { eapply tl_inv_steps; [done..|]. intros j. rewrite Hb1. specialize (Hem1' j). nia. }
  assert (length (ti_partitions (tl_info s1)) = length (ti_partitions (tl_info s))) as Hlen by (rewrite Hps; apply length_insert).
  destruct obt as [c|].
  - (* a chunk: go on with the same partition *)
    assert (exhausted p = false) as Hex.
    { destruct (exhausted p); [|done]. discriminate (proj2 Hobt eq_refl). }
    unfold exhausted in Hex. bool_hyps. simpl in Hch. rewrite <- Hch.
    destruct (IH (id :: ids) s1) as (s2 & Hrun & Hst2 & Hi2 & Ho2 & He2 & Hdone & Hkeep); try done.
    + by rewrite Hlen.
    + by rewrite Hb1.
    + simpl. rewrite Hps, needs_insert by done. unfold need at 1. rewrite list_lookup_insert_eq by done.
      unfold need at 1 in Hfuel. rewrite Hp in Hfuel. simpl in *. lia.
    + exists s2. split; [done|]. split; [by etrans|]. split_and!; try done.
      intros j Hj. rewrite Hkeep, Hps by done. apply list_lookup_insert_ne. set_solver.
  - (* the partition is exhausted *)
    assert (exhausted p = true) as Hex by (by apply Hobt).
    simpl in Hch. rewrite app_nil_r in Hch. rewrite <- Hch.
    assert (drained (ti_partitions (tl_info s1)) id) as Hdr.
    { eexists. rewrite Hps, list_lookup_insert_eq by done. split; [done|]. unfold exhausted in *. simpl.
      bool_hyps. apply Z.leb_le. lia. }
    assert (∀ j, j ∉ id :: ids → ti_partitions (tl_info s1) !! j = ti_partitions (tl_info s) !! j) as Hk1.
    { intros j Hj. rewrite Hps. apply list_lookup_insert_ne. set_solver. }
    destruct (hasPendingIterations (tl_info s1)) eqn:Hpend; simpl; [|exists s1; split_and!; auto].
    case_bool_decide as Hnil.
    { apply fmap_nil_inv in Hnil as ->. exists s1. split_and!; auto. }
    destruct (IH ids s1) as (s2 & Hrun & Hst2 & Hi2 & Ho2 & He2 & Hdone & Hkeep); try done.
    + by intros ->.
    + by rewrite Hlen.
    + by rewrite Hb1.
    + rewrite Hps, needs_insert by done. simpl in Hfuel. lia.
    + exists s2. split; [done|]. split; [by etrans|]. split_and!; try done.
      * destruct Hdone as [?|Hd]; [by left|right]. constructor; [|done].
        destruct Hdr as (q & Hq & Hqe). exists q. by rewrite Hkeep.
      * intros j Hj. rewrite Hkeep, Hk1 by set_solver. done.
Qed.

(** ** Properties *)

Definition in_loop (i : Z) (b : bounds_t) : bool := (lower_bound b <=? i) && (i <? upper_bound b).

(** [splitIterations] makes the requested number of partitions, which tile the iteration
    space from its lower to its upper bound in order, each with the same number of chunks or
    one more; only a partition that reaches the upper bound may fall short of that. *)
Theorem splitIterations_tiles n b :
  loop_ok n b →
  let ps := splitIterations n b in
  let chunks := (upper_bound b - lower_bound b + chunksize b - 1) / chunksize b in
  let share := chunks / Z.of_nat n in
  length ps = n ∧
  lower_bound <$> head ps = Some (lower_bound b) ∧ upper_bound <$> last ps = Some (upper_bound b) ∧
  (∀ i p q, ps !! i = Some p → ps !! S i = Some q → upper_bound p = lower_bound q) ∧
  (∀ i p, ps !! i = Some p → lower_bound p ≤ upper_bound p ≤ lower_bound p + (share + 1) * chunksize b ∧
     (upper_bound p = upper_bound b ∨ lower_bound p + share * chunksize b ≤ upper_bound p)).
Proof.
  intros Hok. cbv zeta. rewrite splitIterations_cuts by done.
  pose proof Hok as (Hn & _ & _ & Hb & Hc & _). fold (total_chunks b).
  assert (∀ i x, seq 0 n !! i = Some x → x = i ∧ (i < n)%nat) as Hseq.
  { intros i x [-> ?]%lookup_seq. lia. }
  split_and!.
  - by rewrite length_fmap, length_seq.
  - destruct n; [lia|]. simpl. f_equal. by apply cut_0.
  - destruct n as [|n]; [lia|]. rewrite seq_S, fmap_app. csimpl. rewrite last_snoc. simpl. f_equal.
    rewrite <- (cut_n (S n) b Hok). f_equal. lia.
  - intros i p q Hp Hq. apply list_lookup_fmap_Some in Hp as (x & -> & [-> _]%Hseq).
    apply list_lookup_fmap_Some in Hq as (y & -> & [-> _]%Hseq). simpl. f_equal. lia.
  - intros i p Hp. apply list_lookup_fmap_Some in Hp as (x & -> & [-> Hi]%Hseq). simpl.
    pose proof (cut_mono n b Hok (Z.of_nat i) (Z.of_nat i + 1)).
    pose proof (chunks_before_succ n b (Z.of_nat i) ltac:(lia)) as Hs.
    assert (0 ≤ total_chunks b / Z.of_nat n) by (apply Z.div_pos; [apply (total_chunks_spec n b Hok)|lia]).
    split; [split; [lia|]|]; revert Hs; unfold cut; case_goal; nia.
Qed.

Lemma splitIterations_tiles_witness :
  loop_ok 3 (mkBounds 5 27 1 4) ∧ length (splitIterations 3 (mkBounds 5 27 1 4)) = 3%nat.
Proof.
  assert (loop_ok 3 (mkBounds 5 27 1 4)) as Hok by (unfold loop_ok; rewrite word_max_val; simpl; lia).
  split; [exact Hok|]. exact (proj1 (splitIterations_tiles 3 (mkBounds 5 27 1 4) Hok)).
Defined.

(** With either distribution, the path of a collaborator starts at the partition of its CPU
    and visits every partition exactly once. *)
Theorem getPartitionPath_visits_all d cpu n :
  (0 < n)%nat → 0 ≤ cpu →
  getPartitionPath d cpu n ≡ₚ Z.of_nat <$> seq 0 n ∧
  head (getPartitionPath d cpu n) = Some (cpu mod Z.of_nat n).
Proof. apply getPartitionPath_permutation. Qed.

Lemma getPartitionPath_visits_all_witness :
  getPartitionPath true 2 7 = [2; 1; 3; 0; 4; 6; 5] ∧ getPartitionPath true 2 7 ≡ₚ Z.of_nat <$> seq 0 7.
Proof. split; [vm_compute; reflexivity|]. apply (getPartitionPath_visits_all true 2 7); lia. Defined.

Lemma taskloop_places n b s :
  loop_ok n (with_chunksize n b) → rtc tl_step (tl_start n b) s → in_range b s →
  hasPendingIterations (tl_info s) = false →
  ∀ i, countb (chunk_has i) (tl_chunks s) = if in_loop i b then 1%nat else 0%nat.
Proof.
  intros Hok Hsteps Hrange Hpend i. pose proof (tl_inv_steps b _ _ (tl_inv_initial n b Hok) Hsteps Hrange) as Hinv.
  pose proof (tli_places _ _ Hinv i) as Hpl. unfold places in Hpl. fold (in_loop i b) in Hpl. rewrite <- Hpl.
  unfold hasPendingIterations in Hpend. bool_hyps. rewrite (tli_remaining _ _ Hinv) in Hpend.
  rewrite (countb_none (left_has i)); [lia|]. intros p Hp.
  assert (negb (exhausted p) = false) as Hex.
  { apply (countb_0 (λ p, negb (exhausted p)) (ti_partitions (tl_info s))); [lia|done]. }
  unfold exhausted, left_has in *. bool_hyps. case_Z; simpl; (done || lia).
Qed.

(** C34: Whatever the interleaving of the collaborators, no iteration is given out twice and none
    outside the loop is; once no partition remains, every iteration has been given out.  The loop
    is normalized and its upper bound and chunk size fit the word ([loop_ok]), and the claims that
    find a partition empty, one for each collaborator and partition, are not so many that the next
    lower bound wraps ([in_range]); [half_range_chunks_run_twice] shows what happens then. *)
Theorem taskloop_exactly_once n b s :
  loop_ok n (with_chunksize n b) → rtc tl_step (tl_start n b) s → in_range b s →
  (∀ i, (countb (chunk_has i) (tl_chunks s) ≤ if in_loop i b then 1 else 0)%nat) ∧
  (hasPendingIterations (tl_info s) = false →
   ∀ i, countb (chunk_has i) (tl_chunks s) = if in_loop i b then 1%nat else 0%nat).
Proof.
  intros Hok Hsteps Hrange. split; [|by apply (taskloop_places n)].
  pose proof (tl_inv_steps b _ _ (tl_inv_initial n b Hok) Hsteps Hrange) as Hinv. intros i.
  pose proof (tli_places _ _ Hinv i) as Hpl. unfold places in Hpl. fold (in_loop i b) in Hpl. lia.
Qed.

(** An executable run: the partitions that are claimed from in turn, each claim with the decrease. *)
Definition claim (id : nat) (s : tl_state) : tl_state :=
  match ti_partitions (tl_info s) !! id, getPendingIterationsFromPartition id (tl_info s) with
  | Some p, Ok (info, obtained) =>
      mkTl info (tl_chunks s ++ obtained_chunks obtained) (tl_owed s)
        (λ j, if decide (j = id ∧ obtained = None) then S (tl_empty s j) else tl_empty s j)
  | _, _ => s
  end.

Lemma claim_steps id s : rtc tl_step s (claim id s).
Proof.
  unfold claim, getPendingIterationsFromPartition. destruct (ti_partitions (tl_info s) !! id) as [p|] eqn:Hp; [|apply rtc_refl].
  cbn [get mbind res_bind]. destruct (take_chunk (ti_bounds (tl_info s)) p) as [p' obt] eqn:Ht.
  pose proof (tl_take s id p p' obt Hp Ht) as Hs. destruct obt as [c|]; [destruct (last_chunk p c)|]; try (by apply rtc_once).
  eapply rtc_l; [exact Hs|]. apply rtc_once.
  match goal with |- tl_step ?s1 _ => exact (tl_decrease s1 (tl_owed s) eq_refl) end.
Qed.

Fixpoint claims (ids : list nat) (s : tl_state) : tl_state :=
  match ids with [] => s | id :: ids => claims ids (claim id s) end.

Lemma claims_steps ids s : rtc tl_step s (claims ids s).
Proof. revert s. induction ids as [|id ids IH]; intros s; [apply rtc_refl|]. simpl. etrans; [apply claim_steps|apply IH]. Qed.

(** Two collaborators run a loop of 22 iterations in two partitions to the end. *)
Definition sample_claims : list nat := [0; 1; 0; 1; 1; 0; 0; 1]%nat.

Lemma taskloop_exactly_once_witness :
  let s := claims sample_claims (tl_start 2 (mkBounds 5 27 1 0)) in
  loop_ok 2 (with_chunksize 2 (mkBounds 5 27 1 0)) ∧ length (tl_chunks s) = 5%nat ∧
  hasPendingIterations (tl_info s) = false ∧ ∀ i, countb (chunk_has i) (tl_chunks s) = if in_loop i (mkBounds 5 27 1 0) then 1%nat else 0%nat.
Proof.
  intros s. assert (loop_ok 2 (with_chunksize 2 (mkBounds 5 27 1 0))) as Hok
    by (unfold loop_ok; rewrite word_max_val; vm_compute; intuition discriminate || lia).
  assert (hasPendingIterations (tl_info s) = false) as Hp by (vm_compute; reflexivity).
  split; [exact Hok|]. split; [vm_compute; reflexivity|]. split; [exact Hp|].
  apply (taskloop_exactly_once 2 (mkBounds 5 27 1 0) s Hok (claims_steps _ _)); [|exact Hp].
  intros [|[|id]]; vm_compute; discriminate.
Defined.

Lemma initialize_lookup n b i :
  loop_ok n (with_chunksize n b) → (i < n)%nat →
  ti_partitions (initialize n b) !! i =
    Some (mkPartition (cut n (with_chunksize n b) (Z.of_nat i + 1)) (cut n (with_chunksize n b) (Z.of_nat i))).
Proof.
  intros Hok Hi. rewrite initialize_partitions by done. rewrite list_lookup_fmap.
  by rewrite lookup_seq_lt by done.
Qed.

Lemma initial_needs n b k :
  loop_ok n (with_chunksize n b) → (k ≤ n)%nat →
  Z.of_nat (sum_list_with (need (ti_partitions (initialize n b))) (seq 0 k)) =
    cut n (with_chunksize n b) (Z.of_nat k) - lower_bound b.
Proof.
  intros Hok. induction k as [|k IH]; intros Hk.
  { cbn [seq sum_list_with]. change (Z.of_nat 0) with 0. rewrite cut_0 by done. simpl. lia. }
  rewrite seq_S, sum_list_with_app. cbn [sum_list_with plus]. unfold need at 2.
  rewrite initialize_lookup by (done || lia). cbn [upperBound nextLowerBound].
  pose proof (cut_mono n _ Hok (Z.of_nat k) (Z.of_nat k + 1)).
  replace (Z.of_nat (S k)) with (Z.of_nat k + 1) by lia. specialize (IH ltac:(lia)). lia.
Qed.

Lemma drained_not_pending b s :
  tl_inv b s → tl_owed s = 0%nat →
  Forall (drained (ti_partitions (tl_info s))) (seq 0 (length (ti_partitions (tl_info s)))) →
  hasPendingIterations (tl_info s) = false.
Proof.
  intros Hinv Ho Hd. unfold hasPendingIterations. apply Z.ltb_ge. rewrite (tli_remaining _ _ Hinv), Ho.
  rewrite countb_none; [lia|]. intros p [i Hi]%list_elem_of_lookup.
  rewrite Forall_forall in Hd. destruct (Hd i) as (q & Hq & Hex).
  { apply elem_of_seq. apply lookup_lt_Some in Hi. lia. }
  rewrite Hi in Hq. injection Hq as <-. by rewrite Hex.
Qed.

Lemma tl_steps_length s s' :
  rtc tl_step s s' → length (ti_partitions (tl_info s')) = length (ti_partitions (tl_info s)).
Proof.
  induction 1 as [|s1 s2 s3 Hs _ IH]; [done|]. rewrite IH. destruct Hs; simpl; [apply length_insert|done].
Qed.

(** A single collaborator that runs a taskloop to the end returns, having run every
    iteration exactly once, and leaves no partition pending; it needs no more rounds than
    iterations and partitions together. *)
Theorem run_completes n b d cpu fuel :
  loop_ok n (with_chunksize n b) → 0 ≤ cpu →
  upper_bound b + 2 * initial_chunksize n b < word_max →
  upper_bound b - lower_bound b + Z.of_nat n ≤ Z.of_nat fuel →
  ∃ info chunks, run fuel d cpu (initialize n b) = Ok (info, chunks) ∧
    hasPendingIterations info = false ∧
    ∀ i, countb (chunk_has i) chunks = if in_loop i b then 1%nat else 0%nat.
Proof.
  intros Hok Hcpu Hup Hfuel. set (s0 := tl_start n b).
  pose proof (tl_inv_initial n b Hok) as Hinv. fold s0 in Hinv.
  pose proof Hok as (Hn & _ & _ & Hb & Hc & _). simpl in Hb, Hc.
  assert (length (ti_partitions (initialize n b)) = n) as Hlen.
  { rewrite initialize_partitions by done. by rewrite length_fmap, length_seq. }
  destruct (getPartitionPath_permutation d cpu n Hn Hcpu) as [Hperm _].
  apply Permutation_map_inv in Hperm as (ids & Hpath & Hids). symmetry in Hids.
  change (map Z.of_nat ids) with (Z.of_nat <$> ids) in Hpath.
  unfold run. rewrite Hlen, Hpath.
  destruct (run_loop_correct b fuel ids s0) as (s' & Hrun & Hsteps & Hinv' & Ho & He & Hdone & _).
  - done.
  - done.
  - rewrite Hids. apply NoDup_seq.
  - intros ->. apply Permutation_length in Hids. rewrite length_seq in Hids. simpl in Hids. lia.
  - rewrite Hids. apply Forall_forall. intros i Hi%elem_of_seq. unfold s0. cbn [tl_start tl_info]. rewrite Hlen. lia.
  - unfold s0. cbn [tl_start tl_info]. change (chunksize _) with (initial_chunksize n b). lia.
  - intros id. unfold s0. cbn. case_decide; lia.
  - pose proof (initial_needs n b n Hok ltac:(lia)) as Hneeds. rewrite cut_n in Hneeds by done.
    rewrite (Permutation_length Hids), length_seq. unfold s0. cbn [tl_start tl_info].
    change (upper_bound (with_chunksize n b)) with (upper_bound b) in Hneeds.
    assert (sum_list_with (need (ti_partitions (initialize n b))) ids =
            sum_list_with (need (ti_partitions (initialize n b))) (seq 0 n)) as ->; [|lia].
    by rewrite Hids.
  - exists (tl_info s'), (tl_chunks s'). split; [done|].
    assert (hasPendingIterations (tl_info s') = false) as Hpend.
    { destruct Hdone as [?|Hd]; [done|]. eapply (drained_not_pending b); [done|done|].
      rewrite (tl_steps_length _ _ Hsteps). unfold s0. cbn [tl_start tl_info]. rewrite Hlen. by rewrite <- Hids. }
    split; [done|]. apply (taskloop_places n b s'); [done..| |done].
    intros id. destruct (tl_steps_grow _ _ Hsteps) as [-> _]. specialize (He id).
    change (chunksize (ti_bounds (tl_info s0))) with (initial_chunksize n b). nia.
Qed.

Lemma run_completes_witness :
  ∃ info chunks, run 25 true 1 (initialize 3 (mkBounds 5 27 1 4)) = Ok (info, chunks) ∧
    countb (chunk_has 26) chunks = 1%nat.
Proof.
  destruct (run_completes 3 (mkBounds 5 27 1 4) true 1 25) as (info & chunks & Hrun & _ & Hc).
  - unfold loop_ok. rewrite word_max_val. vm_compute. intuition (discriminate || lia).
  - lia.
  - vm_compute. reflexivity.
  - vm_compute. discriminate.
  - exists info, chunks. split; [exact Hrun|]. exact (Hc 26).
Defined.

(** The condition on the claims is needed: with chunks of half the range of a word, the second claim
    that finds the partition of a loop empty takes its next lower bound back to the start, and the whole loop
    is given out again. *)
Theorem half_range_chunks_run_twice l u h :
  2 * h = word_max → 0 ≤ l < u → u ≤ h →
  let b := mkBounds l u 1 h in
  loop_ok 1 (with_chunksize 1 b) ∧
  ∃ s, rtc tl_step (tl_start 1 b) s ∧ tl_empty s 0 = 1%nat ∧ tl_chunks s = [mkBounds l u 1 h; mkBounds l u 1 h].
Proof.
  intros Hh Hl Hu b. pose proof word_max_val as Hwm.
  assert (with_chunksize 1 b = b) as Hb.
  { unfold with_chunksize, initial_chunksize, b. cbn [lower_bound upper_bound step chunksize].
    by rewrite (proj2 (Z.eqb_neq h 0)) by lia. }
  rewrite Hb. assert (loop_ok 1 b) as Hok by (unfold loop_ok, b; cbn [lower_bound upper_bound step chunksize]; lia).
  split; [done|]. exists (claims [0; 0; 0]%nat (tl_start 1 b)). split; [apply claims_steps|].
  assert (tl_info (tl_start 1 b) = mkInfo b 1 [mkPartition u l]) as Hs0.
  { cbn [tl_start tl_info]. unfold initialize. fold (with_chunksize 1 b). rewrite Hb, splitIterations_cuts by done.
    cbn [seq fmap list_fmap]. change (Z.of_nat 0) with 0. change (0 + 1) with (Z.of_nat 1). rewrite cut_0, cut_n by done.
    rewrite countb_cons. unfold getIterationCount. simpl. rewrite wrap64_small by (unfold is_word; lia).
    case_Z; [done|lia]. }
  assert (∀ r cs e, claim 0 (mkTl (mkInfo b r [mkPartition u l]) cs 0 e) =
    mkTl (mkInfo b (wrap64 (r - 1)) [mkPartition u (l + h)]) (cs ++ [mkBounds l u 1 h]) 0
      (λ j, if decide (j = 0%nat ∧ Some (mkBounds l u 1 h) = None) then S (e j) else e j)) as Hc1.
  { intros r cs e. unfold claim, getPendingIterationsFromPartition. cbn -[take_chunk]. unfold take_chunk. cbn [upperBound nextLowerBound].
    change (step b) with 1. change (chunksize b) with h. rewrite Z.mul_1_l.
    rewrite (wrap64_small h), (wrap64_small (l + h)) by (unfold is_word; lia).
    rewrite (proj2 (Z.ltb_lt l u)), Z.min_r by lia. unfold last_chunk. cbn [upperBound upper_bound]. by rewrite Z.leb_refl. }
  assert (∀ r cs e, claim 0 (mkTl (mkInfo b r [mkPartition u (l + h)]) cs 0 e) =
    mkTl (mkInfo b r [mkPartition u l]) cs 0 (λ j, if decide (j = 0%nat ∧ @None bounds_t = None) then S (e j) else e j)) as Hc2.
  { intros r cs e. unfold claim, getPendingIterationsFromPartition. cbn -[take_chunk]. unfold take_chunk. cbn [upperBound nextLowerBound].
    change (step b) with 1. change (chunksize b) with h. rewrite Z.mul_1_l, (wrap64_small h) by (unfold is_word; lia).
    assert (wrap64 (l + h + h) = l) as ->.
    { unfold wrap64. replace (l + h + h) with (l + 1 * word_max) by lia.
      rewrite Z.mod_add by lia. apply Z.mod_small. lia. }
    rewrite (proj2 (Z.ltb_ge (l + h) u)) by lia. simpl. by rewrite app_nil_r. }
  assert (tl_start 1 b = mkTl (mkInfo b 1 [mkPartition u l]) [] 0 (λ _, 0%nat)) as -> by (rewrite <- Hs0; done).
  cbn [claims]. rewrite Hc1, Hc2, Hc1. done.
Qed.

(** *** Chunks past the end of the address space *)

Section huge.
Context (n : nat) (l u c : Z).
Context (Hn : (0 < n)%nat) (Hlu : 0 ≤ l < u) (Hu : u < word_max) (Hc : u - l ≤ c < word_max) (Hw : word_max ≤ l + c).
Let b := mkBounds l u 1 c.

Lemma huge_upper k : k = 1 → Z.min (wrap64 (l + wrap64 (wrap64 k * c))) u = l + c - word_max.
Proof.
  intros ->. rewrite (wrap64_small 1), Z.mul_1_l, (wrap64_small c) by (unfold is_word; lia).
  assert (wrap64 (l + c) = l + c - word_max) as -> by (unfold wrap64; symmetry; apply Z.mod_unique_pos with 1; lia). lia.
Qed.

(** The last partition ends before it starts, and the others are empty. *)
Lemma split_loop_huge todo p :
  0 ≤ p → p + Z.of_nat todo = Z.of_nat n → (0 < todo)%nat →
  split_loop todo (Z.of_nat n) p 1 (1 / Z.of_nat n) c l u =
    replicate (todo - 1) (mkBounds l l 1 c) ++ [mkBounds l (l + c - word_max) 1 c].
Proof.
  revert p. induction todo as [|todo IH]; intros p Hp Ht Hpos; [lia|]. cbn [split_loop].
  destruct (decide (Z.of_nat n = 1)) as [H1|H1].
  { assert (todo = 0%nat) as -> by lia. rewrite H1, Z.div_1_r, Z.mod_1_r, (proj2 (Z.leb_gt _ 0)) by lia.
    by rewrite huge_upper. }
  rewrite (Z.div_small 1 (Z.of_nat n)) in * by lia. rewrite (Z.mod_small 1 (Z.of_nat n)) by lia. destruct todo as [|todo].
  - rewrite (proj2 (Z.leb_le (Z.of_nat n - p) 1)) by lia. by rewrite huge_upper.
  - rewrite (proj2 (Z.leb_gt (Z.of_nat n - p) 1)) by lia. rewrite Z.add_0_l, (wrap64_small 0), Z.mul_0_l, (wrap64_small 0), Z.add_0_r,
      (wrap64_small l), Z.min_l, IH by (unfold is_word; lia). simpl. by rewrite Nat.sub_0_r.
Qed.

Lemma huge_split : splitIterations n b = replicate (n - 1) (mkBounds l l 1 c) ++ [mkBounds l (l + c - word_max) 1 c].
Proof.
  unfold splitIterations, getIterationCount, b. cbn [lower_bound upper_bound step chunksize]. cbv zeta.
  rewrite (wrap64_small (u - l)) by (unfold is_word; lia).
  assert (wrap64 ((u - l) / c + (if 0 <? (u - l) mod c then 1 else 0)) = 1) as ->; [|apply split_loop_huge; lia].
  destruct (decide (u - l = c)) as [->|Hne].
  - rewrite Z.div_same, Z.mod_same by lia. apply wrap64_small. unfold is_word. rewrite word_max_val. lia.
  - rewrite Z.div_small, Z.mod_small by lia. rewrite (proj2 (Z.ltb_lt 0 _)) by lia.
    apply wrap64_small. unfold is_word. rewrite word_max_val. lia.
Qed.

Lemma huge_info : initialize n b = mkInfo b 1 (replicate (n - 1) (mkPartition l l) ++ [mkPartition (l + c - word_max) l]).
Proof.
  unfold initialize. assert (initial_chunksize n b = c) as ->.
  { unfold initial_chunksize, b. cbn [chunksize]. by rewrite (proj2 (Z.eqb_neq c 0)) by lia. }
  change (mkBounds (lower_bound b) (upper_bound b) (step b) c) with b. rewrite huge_split, fmap_app, fmap_replicate, countb_app, countb_cons.
  rewrite (countb_none _ (replicate _ _)).
  2:{ intros x [-> _]%elem_of_replicate. unfold getIterationCount. cbn [upper_bound lower_bound]. by rewrite Z.sub_diag. }
  unfold getIterationCount. cbn [upper_bound lower_bound].
  assert (wrap64 (l + c - word_max - l) = c) as -> by (unfold wrap64; symmetry; apply Z.mod_unique_pos with (-1); lia).
  by rewrite (proj2 (Z.ltb_lt 0 c)) by lia.
Qed.
End huge.

(** A collaborator that finds the partitions on its path empty leaves, and no partition is taken off. *)
Lemma run_loop_empty fuel ids info chunks :
  NoDup ids → ids ≠ [] → (length ids ≤ fuel)%nat → Forall (drained (ti_partitions info)) ids →
  ∃ info', run_loop fuel (Z.of_nat <$> ids) info chunks = Ok (info', chunks) ∧
    ti_remainingPartitions info' = ti_remainingPartitions info.
Proof.
  revert fuel info. induction ids as [|id ids IH]; intros fuel info Hnd Hne Hf Hd; [done|].
  apply NoDup_cons in Hnd as [Hid Hnd]. apply Forall_cons in Hd as [(p & Hp & Hex) Hd].
  destruct fuel as [|fuel]; [simpl in Hf; lia|]. csimpl. cbn [get mbind res_bind].
  unfold getPendingIterationsFromPartition. rewrite Nat2Z.id, Hp. cbn [get mbind res_bind].
  destruct (take_chunk (ti_bounds info) p) as [p' obt] eqn:Ht.
  assert (obt = None) as -> by (rewrite <- (exhausted_obtained (ti_bounds info)), Ht in Hex; exact Hex). cbn [mbind res_bind].
  destruct (negb _ || _) eqn:Hstop; [by eexists|]. apply orb_false_iff in Hstop as [_ Hnil%bool_decide_eq_false].
  apply (IH fuel (mkInfo (ti_bounds info) (ti_remainingPartitions info) (<[id := p']> (ti_partitions info))) Hnd).
  - by intros ->.
  - simpl in Hf. lia.
  - rewrite Forall_forall in Hd |- *. intros j Hj. destruct (Hd j Hj) as (q & Hq & Hqe). exists q.
    cbn [ti_partitions]. by rewrite list_lookup_insert_ne by (by intros ->).
Qed.

(** C37: A chunk size that is at least the whole loop, and that takes the end of the chunk past the end of
    the address space, loses the iterations: whatever the loop, the number of partitions and
    the CPU, the collaborator that runs it returns without having run anything, and a partition remains
    pending. *)
Theorem huge_chunksize_loses_iterations n l u c d cpu fuel :
  (0 < n)%nat → 0 ≤ l < u → u < word_max → u - l ≤ c < word_max → word_max ≤ l + c → 0 ≤ cpu → (n ≤ fuel)%nat →
  ∃ info, run fuel d cpu (initialize n (mkBounds l u 1 c)) = Ok (info, []) ∧ hasPendingIterations info = true.
Proof.
  intros Hn Hl Hu Hc Hw Hcpu Hf. rewrite huge_info by done.
  destruct (getPartitionPath_permutation d cpu n Hn Hcpu) as [Hperm _].
  apply Permutation_map_inv in Hperm as (ids & Hpath & Hids). symmetry in Hids.
  unfold run. cbn [ti_partitions]. rewrite length_app, length_replicate. cbn [length].
  replace (n - 1 + 1)%nat with n by lia. rewrite Hpath.
  destruct (run_loop_empty fuel ids (mkInfo (mkBounds l u 1 c) 1
    (replicate (n - 1) (mkPartition l l) ++ [mkPartition (l + c - word_max) l])) []) as (info & Hrun & Hrem).
  - rewrite Hids. apply NoDup_seq.
  - intros ->. apply Permutation_length in Hids. rewrite length_seq in Hids. simpl in Hids. lia.
  - rewrite (Permutation_length Hids), length_seq. done.
  - rewrite Hids. apply Forall_forall. intros i Hi%elem_of_seq. cbn [ti_partitions]. unfold drained, exhausted.
    destruct (decide (i < n - 1)%nat).
    + exists (mkPartition l l). rewrite lookup_app_l by (rewrite length_replicate; lia).
      split; [by apply lookup_replicate_2|]. apply Z.leb_refl.
    + exists (mkPartition (l + c - word_max) l). rewrite lookup_app_r by (rewrite length_replicate; lia).
      rewrite length_replicate. replace (i - (n - 1))%nat with 0%nat by lia. split; [done|]. apply Z.leb_le. simpl. lia.
  - exists info. split; [exact Hrun|]. unfold hasPendingIterations. by rewrite Hrem.
Qed.

Lemma huge_chunksize_loses_iterations_witness :
  ∃ info, run 100 false 0 (initialize 2 (mkBounds 5 10 1 (word_max - 1))) = Ok (info, []) ∧ hasPendingIterations info = true.
Proof. apply (huge_chunksize_loses_iterations 2 5 10 (word_max - 1) false 0 100); try rewrite word_max_val; lia. Defined.

Lemma half_range_chunks_run_twice_witness :
  ∃ s, rtc tl_step (tl_start 1 (mkBounds 0 10 1 (2 ^ 63))) s ∧ tl_empty s 0 = 1%nat ∧
    tl_chunks s = [mkBounds 0 10 1 (2 ^ 63); mkBounds 0 10 1 (2 ^ 63)].
Proof. apply (half_range_chunks_run_twice 0 10 (2 ^ 63)); try rewrite word_max_val; lia. Defined.
