(* ===== verification/TaskLifecycle.v ===== *)
(** * The life of a task

    [src/tasks/Task.hpp], [TaskImplementation.hpp], [executors/threads/
    TaskFinalizationImplementation.hpp], the end of [WorkerThread::handleTask],
    [system/ompss/TaskWait.cpp], the inlining part of [TaskBlocking.cpp] and
    [system/EventsAPI.cpp]: the two counters of a task, and what happens when they reach zero.
    The release of the accesses, the scheduler and the destruction of a task are recorded in
    the order in which they are called.

    The system of dependencies also changes the counter of a task, [_countdownToBeWokenUp]: a task is not
    removed as long as its accesses block that.  It is used through the interface
    [TaskDependencies], whose operations are called where the code calls them. *)

From S2P Require Import Prelude.
Local Open Scope Z_scope.

Notation task_id := nat (only parsing).

Record Task := mkTask {
  t_parent : option task_id;
  (** Children that are alive, plus one if not blocked. *)
  t_countdownToBeWokenUp : Z;
  (** Events that prevent the release of the dependencies. *)
  t_countdownToRelease : Z;
  t_thread : option nat;
  t_computePlace : option nat;
  (** [device_type_id] is not that of the host. *)
  t_device : bool;
  t_wait_flag : bool;
  t_non_runnable_flag : bool;
}.

Record world := mkWorld {
  w_tasks : gmap nat Task;
  (** The calls to [unregisterTaskDataAccesses], the destroyed tasks, the calls to
      [Scheduler::addReadyTask] for a task that leaves a taskwait. *)
  w_released : list task_id;
  w_disposed : list task_id;
  w_ready : list task_id;
  (** [SpawnedFunctions::_pendingSpawnedFunctions], an [unsigned int] *)
  w_pendingSpawnedFunctions : Z;
}.

(** ** The system of dependencies *)

(** What the life of a task uses of [DataAccessRegistration].  ([handleTaskRemoval] deletes the accesses of a
    task that is destroyed, which are not part of this state.) *)
Class TaskDependencies := {
  handleEnterTaskwait : task_id → world → res world;
  handleExitTaskwait : task_id → world → res world;
  unregisterTaskDataAccesses : task_id → world → res world;
}.

(** Those of [src/dependencies/discrete]: the first two have an empty body, and the release of the accesses
    (file [DiscreteDeps]) leaves the counters of this file alone. *)
Definition discreteDependencies : TaskDependencies := {|
  handleEnterTaskwait _ w := Ok w;
  handleExitTaskwait _ w := Ok w;
  unregisterTaskDataAccesses _ w := Ok w;
|}.

(** ** Fields *)

Definition set_woken (c : Z) (x : Task) : Task :=
  mkTask (t_parent x) c (t_countdownToRelease x) (t_thread x) (t_computePlace x) (t_device x)
    (t_wait_flag x) (t_non_runnable_flag x).
Definition set_release (c : Z) (x : Task) : Task :=
  mkTask (t_parent x) (t_countdownToBeWokenUp x) c (t_thread x) (t_computePlace x) (t_device x)
    (t_wait_flag x) (t_non_runnable_flag x).
Definition set_executor (thread computePlace : option nat) (x : Task) : Task :=
  mkTask (t_parent x) (t_countdownToBeWokenUp x) (t_countdownToRelease x) thread computePlace
    (t_device x) (t_wait_flag x) (t_non_runnable_flag x).
Definition set_parent (p : option task_id) (x : Task) : Task :=
  mkTask p (t_countdownToBeWokenUp x) (t_countdownToRelease x) (t_thread x) (t_computePlace x)
    (t_device x) (t_wait_flag x) (t_non_runnable_flag x).
Definition set_wait (f : bool) (x : Task) : Task :=
  mkTask (t_parent x) (t_countdownToBeWokenUp x) (t_countdownToRelease x) (t_thread x)
    (t_computePlace x) (t_device x) f (t_non_runnable_flag x).

Definition task (t : task_id) (w : world) : res Task := get (w_tasks w !! t).

Definition put (t : task_id) (x : Task) (w : world) : world :=
  mkWorld (<[t := x]> (w_tasks w)) (w_released w) (w_disposed w) (w_ready w)
    (w_pendingSpawnedFunctions w).

(** ** The counters *)

(** The constructor; the parent is set when the task is submitted. *)
Definition new_Task (device wait non_runnable : bool) : Task :=
  mkTask None 1 1 None None device wait non_runnable.

Definition increaseRemovalBlockingCount (t : task_id) (w : world) : res world :=
  x ← task t w; Ok (put t (set_woken (wrap_int (t_countdownToBeWokenUp x + 1)) x) w).

Definition decreaseRemovalBlockingCount (t : task_id) (w : world) : res (world * bool) :=
  x ← task t w;
  let countdown := wrap_int (t_countdownToBeWokenUp x - 1) in
  Ok (put t (set_woken countdown x) w, countdown =? 0).

Definition addChild (t : task_id) (w : world) : res world := increaseRemovalBlockingCount t w.
Definition removeChild (t : task_id) (w : world) : res (world * bool) :=
  decreaseRemovalBlockingCount t w.
Definition markAsBlocked (t : task_id) (w : world) : res (world * bool) :=
  decreaseRemovalBlockingCount t w.
Definition enableScheduling (t : task_id) (w : world) : res (world * bool) :=
  decreaseRemovalBlockingCount t w.
Definition markAsReleased (t : task_id) (w : world) : res (world * bool) :=
  decreaseRemovalBlockingCount t w.

(** True if it does not have any children. *)
Definition markAsUnblocked (t : task_id) (w : world) : res (world * bool) :=
  w ← increaseRemovalBlockingCount t w;
  x ← task t w;
  Ok (w, t_countdownToBeWokenUp x =? 1).

(** The loop of compare-and-exchange, which ends with the increment unless the count is zero. *)
Definition disableScheduling (t : task_id) (w : world) : res (world * bool) :=
  x ← task t w;
  if 0 <? t_countdownToBeWokenUp x
  then w ← increaseRemovalBlockingCount t w; Ok (w, true)
  else Ok (w, false).

Definition canBeWokenUp (x : Task) : bool := t_countdownToBeWokenUp x =? 0.
Definition doesNotNeedToBlockForChildren (x : Task) : bool := t_countdownToBeWokenUp x =? 1.

Definition increaseReleaseCount (t : task_id) (amount : Z) (w : world) : res world :=
  x ← task t w; Ok (put t (set_release (wrap_int (t_countdownToRelease x + amount)) x) w).

Definition decreaseReleaseCount (t : task_id) (amount : Z) (w : world) : res (world * bool) :=
  x ← task t w;
  let count := wrap_int (t_countdownToRelease x - amount) in
  Ok (put t (set_release count x) w, count =? 0).

Definition hasFinished (x : Task) : bool :=
  if t_device x then bool_decide (t_computePlace x = None) else bool_decide (t_thread x = None).

Definition mustDelayRelease (x : Task) : bool := t_wait_flag x.

Definition completeDelayedRelease (t : task_id) (w : world) : res world :=
  x ← task t w; Ok (put t (set_wait false x) w).

Definition setParent (t parent : task_id) (w : world) : res world :=
  x ← task t w;
  addChild parent (put t (set_parent (Some parent) x) w).

Definition unlinkFromParent (t : task_id) (w : world) : res (world * bool) :=
  x ← task t w;
  match t_parent x with
  | Some parent => removeChild parent w
  | None => Ok (w, t_countdownToBeWokenUp x =? 0)
  end.

(** ** Finishing *)

Definition clear_executor (x : Task) : Task :=
  if t_non_runnable_flag x then x
  else if t_device x then set_executor (t_thread x) None x else set_executor None (t_computePlace x) x.

(** The record of a call to [unregisterTaskDataAccesses]. *)
Definition record_release (t : task_id) (w : world) : world :=
  mkWorld (w_tasks w) (w_released w ++ [t]) (w_disposed w) (w_ready w) (w_pendingSpawnedFunctions w).

(** The destructor and the release of the memory; a task without parent is a spawned function. *)
Definition destroy (t : task_id) (parent : option task_id) (w : world) : world :=
  mkWorld (delete t (w_tasks w)) (w_released w) (w_disposed w ++ [t]) (w_ready w)
    (match parent with
     | None => (w_pendingSpawnedFunctions w - 1) mod 2 ^ 32
     | Some _ => w_pendingSpawnedFunctions w
     end).

Definition addReadyTask (t : task_id) (w : world) : world :=
  mkWorld (w_tasks w) (w_released w) (w_disposed w) (w_ready w ++ [t]) (w_pendingSpawnedFunctions w).

Section with_dependencies.
Context `{!TaskDependencies}.

(** [Task::markAsFinished] *)
Definition markAsFinished (t : task_id) (w : world) : res (world * bool) :=
  x ← task t w;
  let w := put t (clear_executor x) w in
  if mustDelayRelease x then
    w ← handleEnterTaskwait t w;
    r ← decreaseRemovalBlockingCount t w;
    let '(w, none_left) := r in
    if negb none_left then Ok (w, false)
    else
      w ← completeDelayedRelease t w;
      w ← handleExitTaskwait t w;
      w ← increaseRemovalBlockingCount t w;
      decreaseReleaseCount t 1 w
  else decreaseReleaseCount t 1 w.

(** [Task::markAllChildrenAsFinished] *)
Definition markAllChildrenAsFinished (t : task_id) (w : world) : res (world * bool) :=
  w ← completeDelayedRelease t w;
  w ← handleExitTaskwait t w;
  w ← increaseRemovalBlockingCount t w;
  decreaseReleaseCount t 1 w.

(** The call to [DataAccessRegistration::unregisterTaskDataAccesses], recorded. *)
Definition unregister (t : task_id) (w : world) : res world :=
  unregisterTaskDataAccesses t (record_release t w).

(** [TaskFinalization::disposeOrUnblockTask]: the ancestors are at most as many as the tasks. *)
Fixpoint disposeOrUnblockTask (fuel : nat) (t : task_id) (w : world) : res world :=
  match fuel with
  | O => Err OutOfFuel
  | S fuel =>
      x ← task t w;
      let parent := t_parent x in
      r ← (if hasFinished x && mustDelayRelease x then
             r ← markAllChildrenAsFinished t w;
             let '(w, can_release) := r in
             if can_release : bool then w ← unregister t w; markAsReleased t w else Ok (w, false)
           else Ok (w, true));
      let '(w, readyOrDisposable) := r in
      if negb readyOrDisposable then Ok w
      else
        x ← task t w;
        if hasFinished x then
          r ← unlinkFromParent t w;
          let '(w, readyOrDisposable) := r in
          let w := destroy t parent w in
          match parent with
          | Some p => if readyOrDisposable : bool then disposeOrUnblockTask fuel p w else Ok w
          | None => Ok w
          end
        else Ok (addReadyTask t w)
  end.

(** The end of [WorkerThread::handleTask], after the body. *)
Definition finishTask (fuel : nat) (t : task_id) (w : world) : res world :=
  r ← markAsFinished t w;
  let '(w, can_release) := r in
  if can_release : bool then
    w ← unregister t w;
    r ← markAsReleased t w;
    let '(w, disposable) := r in
    if disposable : bool then disposeOrUnblockTask fuel t w else Ok w
  else Ok w.

(** [nanos6_increase_current_task_event_counter] *)
Definition increase_event_counter (t : task_id) (increment : Z) (w : world) : res world :=
  if increment =? 0 then Ok w else increaseReleaseCount t increment w.

(** [nanos6_decrease_task_event_counter] *)
Definition decrease_event_counter (fuel : nat) (t : task_id) (decrement : Z) (w : world) : res world :=
  if decrement =? 0 then Ok w
  else
    r ← decreaseReleaseCount t decrement w;
    let '(w, can_release) := r in
    if can_release : bool then
      w ← unregister t w;
      r ← markAsReleased t w;
      let '(w, disposable) := r in
      if disposable : bool then disposeOrUnblockTask fuel t w else Ok w
    else Ok w.

(** [nanos6_taskwait] up to where the task blocks: whether it does.  If it need not, the rest of the call too. *)
Definition taskwait (t : task_id) (w : world) : res (world * bool) :=
  x ← task t w;
  if doesNotNeedToBlockForChildren x then Ok (w, false)
  else
    w ← handleEnterTaskwait t w;
    r ← markAsBlocked t w;
    let '(w, done) := r in
    if done : bool then
      r ← markAsUnblocked t w;
      w ← handleExitTaskwait t r.1;
      Ok (w, false)
    else Ok (w, true).

(** The rest of the call, when the task has been resumed. *)
Definition taskwait_resumed (t : task_id) (w : world) : res world :=
  r ← markAsUnblocked t w;
  handleExitTaskwait t r.1.
End with_dependencies.

(** [Task::setThread], or [setComputePlace] for a device. *)
Definition startTask (t : task_id) (executor : nat) (w : world) : res world :=
  x ← task t w;
  Ok (put t (if t_device x then set_executor (t_thread x) (Some executor) x
             else set_executor (Some executor) (t_computePlace x) x) w).

(** [nanos6_create_task], and the part of [nanos6_submit_task] (or, for a spawned function, of
    [nanos6_spawn_function]) that links the task. *)
Definition createTask (t : task_id) (parent : option task_id) (device wait non_runnable : bool)
    (w : world) : res world :=
  let w := put t (new_Task device wait non_runnable) w in
  match parent with
  | Some p => setParent t p w
  | None =>
      Ok (mkWorld (w_tasks w) (w_released w) (w_disposed w) (w_ready w)
            ((w_pendingSpawnedFunctions w + 1) mod 2 ^ 32))
  end.
