(* ===== verification/TaskProtocol.v ===== *)
(** * The life of a task: the protocol

    Tasks are created, block, finish and fulfil events in any order and on any thread.  What a
    thread has still to do after one of the atomic counters told it to go on is an action
    waiting its turn, so that the steps of different threads interleave freely.  The system of
    dependencies holds tasks back: while the accesses of a task block its removal they count in
    [_countdownToBeWokenUp], and the thread that drops the last count goes on with the task
    ([handleRemovableTasks]).  The invariant gives every task one of fifteen states that determine its
    counters. *)

From S2P Require Import Prelude TaskLifecycle.
Local Open Scope Z_scope.

(** ** Actions *)

(** The continuations of [handleTask], [disposeOrUnblockTask] and the event API. *)
Inductive kind := EndWait | DecRelease | Unregister | MarkReleased | Dispose.

#[export] Instance kind_eq_dec : EqDecision kind.
Proof. solve_decision. Defined.

Notation action := (kind * nat)%type (only parsing).

Definition next (b : bool) (k : kind) (t : nat) : list action := if b then [(k, t)] else [].

(** One action up to the next atomic operation. *)
Definition perform (a : action) (w : world) : res (world * list action) :=
  let t := a.2 in
  match a.1 with
  | EndWait =>
      r ← decreaseRemovalBlockingCount t w;
      let '(w, none_left) := r in
      if none_left : bool then
        w ← completeDelayedRelease t w;
        w ← increaseRemovalBlockingCount t w;
        Ok (w, [(DecRelease, t)])
      else Ok (w, [])
  | DecRelease => r ← decreaseReleaseCount t 1 w; Ok (r.1, next r.2 Unregister t)
  | Unregister => Ok (record_release t w, [(MarkReleased, t)])
  | MarkReleased => r ← markAsReleased t w; Ok (r.1, next r.2 Dispose t)
  | Dispose =>
      x ← task t w;
      if hasFinished x && mustDelayRelease x then
        w ← completeDelayedRelease t w;
        w ← increaseRemovalBlockingCount t w;
        Ok (w, [(DecRelease, t)])
      else if hasFinished x then
        r ← unlinkFromParent t w;
        Ok (destroy t (t_parent x) r.1,
            match t_parent x with Some p => next r.2 Dispose p | None => [] end)
      else Ok (addReadyTask t w, [])
  end.

(** The beginning of [markAsFinished]. *)
Definition begin_finish (t : nat) (w : world) : res (world * list action) :=
  x ← task t w;
  Ok (put t (clear_executor x) w, [(if mustDelayRelease x then EndWait else DecRelease, t)]).

(** The part of [nanos6_taskwait] between [handleEnterTaskwait] and [handleExitTaskwait], up to where the task
    blocks: whether it does. *)
Definition block (t : nat) (w : world) : res (world * bool) :=
  r ← markAsBlocked t w;
  let '(w, done) := r in
  if done : bool then r ← markAsUnblocked t w; Ok (r.1, false) else Ok (w, true).

(** ** States *)

(** What the code of a task is doing. *)
Inductive mode := Created | Running | Blocked | Inlining | Done.

#[export] Instance mode_eq_dec : EqDecision mode.
Proof. solve_decision. Defined.

Record sys := mkSys {
  s_world : world;
  s_todo : list action;
  s_mode : gmap nat mode;
  (** The events of each task that have not been fulfilled yet. *)
  s_events : gmap nat nat;
  (** The tasks created with a wait clause. *)
  s_waits : list nat;
  (** How often the system of dependencies counts in [_countdownToBeWokenUp] of each task. *)
  s_holds : gmap nat nat;
}.

Definition mode_of (S : sys) (t : nat) : mode := default Done (s_mode S !! t).
Definition events_of (S : sys) (t : nat) : nat := default 0%nat (s_events S !! t).
Definition holds_of (S : sys) (t : nat) : nat := default 0%nat (s_holds S !! t).

(** The task counts itself: the accesses can block its removal. *)
Definition may_hold (S : sys) (t : nat) : Prop :=
  mode_of S t = Created ∨ mode_of S t = Running ∨ ∃ k, k ≠ Dispose ∧ (k, t) ∈ s_todo S.

Definition set_mode (t : nat) (m : mode) (S : sys) (w : world) (acts : list action) : sys :=
  mkSys w (s_todo S ++ acts) (<[t := m]> (s_mode S)) (s_events S) (s_waits S) (s_holds S).

(** The steps of the threads and of the program. *)
Inductive step : sys → sys → Prop :=
  | step_perform S l1 a l2 w acts :
      s_todo S = l1 ++ a :: l2 → perform a (s_world S) = Ok (w, acts) →
      step S (mkSys w (l1 ++ l2 ++ acts) (s_mode S) (s_events S) (s_waits S) (s_holds S))
  | step_create S t parent device wait non_runnable w :
      w_tasks (s_world S) !! t = None → t ∉ w_disposed (s_world S) →
      Z.of_nat (size (w_tasks (s_world S))) < 2 ^ 30 →
      (∀ p, parent = Some p → ∃ x, w_tasks (s_world S) !! p = Some x ∧
         mode_of S p = (if t_non_runnable_flag x then Created else Running)) →
      createTask t parent device wait non_runnable (s_world S) = Ok w →
      step S (mkSys w (s_todo S) (<[t := Created]> (s_mode S)) (<[t := 0%nat]> (s_events S))
                (if wait then t :: s_waits S else s_waits S) (s_holds S))
  | step_start S t x executor w :
      w_tasks (s_world S) !! t = Some x → t_non_runnable_flag x = false →
      mode_of S t = Created → startTask t executor (s_world S) = Ok w →
      step S (set_mode t Running S w [])
  | step_finish S t x w acts :
      w_tasks (s_world S) !! t = Some x →
      mode_of S t = (if t_non_runnable_flag x then Created else Running) →
      begin_finish t (s_world S) = Ok (w, acts) →
      step S (set_mode t Done S w acts)
  | step_taskwait S t w blocks :
      mode_of S t = Running → block t (s_world S) = Ok (w, blocks) →
      step S (set_mode t (if blocks then Blocked else Running) S w [])
  | step_resume S t l1 l2 w b :
      mode_of S t = Blocked → w_ready (s_world S) = l1 ++ t :: l2 →
      markAsUnblocked t (mkWorld (w_tasks (s_world S)) (w_released (s_world S))
        (w_disposed (s_world S)) (l1 ++ l2) (w_pendingSpawnedFunctions (s_world S))) = Ok (w, b) →
      step S (set_mode t Running S w [])
  | step_disable S t w :
      mode_of S t = Blocked → disableScheduling t (s_world S) = Ok (w, true) →
      step S (set_mode t Inlining S w [])
  | step_enable S t w :
      mode_of S t = Inlining → enableScheduling t (s_world S) = Ok (w, false) →
      step S (set_mode t Blocked S w [])
  | step_enable_done S t w w' b :
      mode_of S t = Inlining → enableScheduling t (s_world S) = Ok (w, true) →
      markAsUnblocked t w = Ok (w', b) →
      step S (set_mode t Running S w' [])
  | step_add_events S t n w :
      mode_of S t = Running → Z.of_nat (events_of S t + n) < 2 ^ 30 →
      increase_event_counter t (Z.of_nat n) (s_world S) = Ok w →
      step S (mkSys w (s_todo S) (s_mode S) (<[t := (events_of S t + n)%nat]> (s_events S)) (s_waits S) (s_holds S))
  | step_fulfil S t n w b :
      (0 < n ≤ events_of S t)%nat →
      decreaseReleaseCount t (Z.of_nat n) (s_world S) = Ok (w, b) →
      step S (mkSys w (s_todo S ++ next b Unregister t) (s_mode S)
                (<[t := (events_of S t - n)%nat]> (s_events S)) (s_waits S) (s_holds S))
  | step_hold S t w :
      may_hold S t → Z.of_nat (holds_of S t) < 2 ^ 20 →
      increaseRemovalBlockingCount t (s_world S) = Ok w →
      step S (mkSys w (s_todo S) (s_mode S) (s_events S) (s_waits S) (<[t := Datatypes.S (holds_of S t)]> (s_holds S)))
  | step_unhold S t n w b :
      holds_of S t = Datatypes.S n → decreaseRemovalBlockingCount t (s_world S) = Ok (w, b) →
      step S (mkSys w (s_todo S ++ next b Dispose t) (s_mode S) (s_events S) (s_waits S) (<[t := n]> (s_holds S))).

Definition start : sys := mkSys (mkWorld ∅ [] [] [] 0) [] ∅ ∅ [] ∅.

(** ** The invariant *)

Inductive status :=
  | SCreated | SRunning | SBlocked | SInlining | SWaking | SReady
  | SFinishing | SDelayed | SDelayDone | SDeciding | SEvents | SReleasing | SReleased | SChildren | SDisposable.

(** The task counts itself in [_countdownToBeWokenUp]. *)
Definition self (s : status) : Z :=
  match s with
  | SCreated | SRunning | SInlining | SFinishing | SDeciding | SEvents | SReleasing | SReleased => 1
  | _ => 0
  end.

(** The execution counts in [_countdownToRelease]. *)
Definition exec (s : status) : Z :=
  match s with SEvents | SReleasing | SReleased | SChildren | SDisposable => 0 | _ => 1 end.

Definition acts_of (s : status) : list kind :=
  match s with
  | SWaking | SDelayDone | SDisposable => [Dispose]
  | SFinishing => [EndWait]
  | SDeciding => [DecRelease]
  | SReleasing => [Unregister]
  | SReleased => [MarkReleased]
  | _ => []
  end.

Definition children_ok (s : status) (ch : nat) : Prop :=
  match s with
  | SWaking | SReady | SDelayDone | SDisposable => ch = 0%nat
  | SBlocked | SDelayed | SChildren => (0 < ch)%nat
  | _ => True
  end.

Definition events_ok (s : status) (ev : nat) : Prop :=
  match s with
  | SEvents => (0 < ev)%nat
  | SCreated | SReleasing | SReleased | SChildren | SDisposable => ev = 0%nat
  | _ => True
  end.

Definition status_mode (s : status) : mode :=
  match s with
  | SCreated => Created
  | SRunning => Running
  | SBlocked | SWaking | SReady => Blocked
  | SInlining => Inlining
  | _ => Done
  end.

(** The release has been asked for, or is past that. *)
Definition released (s : status) : bool :=
  match s with SReleased | SChildren | SDisposable => true | _ => false end.
Definition decided (s : status) : bool :=
  match s with SDeciding | SEvents | SReleasing | SReleased | SChildren | SDisposable => true | _ => false end.

Definition finished_ok (s : status) (x : Task) : Prop :=
  match status_mode s with
  | Created => t_thread x = None ∧ t_computePlace x = None
  | Done => hasFinished x = true
  | _ => hasFinished x = false ∧ t_non_runnable_flag x = false
  end.

Definition flag_ok (s : status) (x : Task) (wait : bool) : Prop :=
  match s with
  | SFinishing | SDelayed | SDelayDone => t_wait_flag x = true ∧ wait = true
  | _ => t_wait_flag x = wait && negb (decided s)
  end.

(** What the state says of one task. *)
Record view := mkView {
  v_task : option Task;
  v_children : nat;
  v_holds : nat;
  v_events : nat;
  v_mode : mode;
  v_acts : list kind;
  v_ready : nat;
  v_released : nat;
  v_disposed : nat;
  v_wait : bool;
}.

Definition this (t : nat) (x : nat) : bool := Nat.eqb x t.

Definition children (t : nat) (m : gmap nat Task) : nat :=
  size (filter (λ p : nat * Task, t_parent p.2 = Some t) m).

Definition acts_on (t : nat) (todo : list action) : list kind :=
  (filter (λ a : action, a.2 = t) todo).*1.

Definition view_of (S : sys) (t : nat) : view :=
  let w := s_world S in
  mkView (w_tasks w !! t) (children t (w_tasks w)) (holds_of S t) (events_of S t) (mode_of S t)
    (acts_on t (s_todo S)) (countb (this t) (w_ready w)) (countb (this t) (w_released w))
    (countb (this t) (w_disposed w)) (bool_decide (t ∈ s_waits S)).

Record has_status (v : view) (x : Task) (s : status) : Prop := {
  hs_woken : t_countdownToBeWokenUp x = self s + Z.of_nat (v_children v + v_holds v);
  hs_release : t_countdownToRelease x = exec s + Z.of_nat (v_events v);
  hs_children : children_ok s (v_children v + v_holds v);
  hs_events : events_ok s (v_events v);
  hs_mode : v_mode v = status_mode s;
  hs_acts : v_acts v = acts_of s;
  hs_ready : v_ready v = match s with SReady => 1%nat | _ => 0%nat end;
  hs_released : v_released v = if released s then 1%nat else 0%nat;
  hs_disposed : v_disposed v = 0%nat;
  hs_finished : finished_ok s x;
  hs_flag : flag_ok s x (v_wait v);
  hs_wait : v_wait v = true → decided s = true → v_children v = 0%nat;
  hs_small : Z.of_nat (v_events v) < 2 ^ 30;
  hs_holds : Z.of_nat (v_holds v) ≤ 2 ^ 20;
}.

Definition view_ok (v : view) : Prop :=
  match v_task v with
  | Some x => ∃ s, has_status v x s
  | None =>
      v_children v = 0%nat ∧ v_holds v = 0%nat ∧ v_events v = 0%nat ∧ v_acts v = [] ∧ v_ready v = 0%nat ∧
      v_released v = v_disposed v ∧ (v_disposed v ≤ 1)%nat ∧ v_mode v = Done ∧ 
      (v_disposed v = 0%nat → v_wait v = false)
  end.

Definition inv (S : sys) : Prop :=
  (∀ t, view_ok (view_of S t)) ∧ Z.of_nat (size (w_tasks (s_world S))) ≤ 2 ^ 30.

(** ** Views of neighbours *)

Lemma children_insert t c x m :
  m !! c = None →
  children t (<[c := x]> m) = ((if decide (t_parent x = Some t) then 1 else 0) + children t m)%nat.
Proof.
  intros Hc. unfold children. case_decide as Hp.
  - rewrite map_filter_insert_True by done. rewrite map_size_insert_None; [done|].
    by apply map_lookup_filter_None_2; left.
  - rewrite map_filter_insert_False, delete_id by done. done.
Qed.

Lemma children_delete t c x m :
  m !! c = Some x →
  children t m = ((if decide (t_parent x = Some t) then 1 else 0) + children t (delete c m))%nat.
Proof.
  intros Hc. rewrite <- (children_insert t c x (delete c m)) by apply lookup_delete_eq.
  by rewrite insert_delete_id.
Qed.

Lemma children_update t c x x' m :
  m !! c = Some x → t_parent x' = t_parent x → children t (<[c := x']> m) = children t m.
Proof.
  intros Hc Hp. rewrite <- insert_delete_eq, children_insert by apply lookup_delete_eq.
  by rewrite Hp, <- (children_delete t c x m Hc).
Qed.

Lemma children_le t m : (children t m ≤ size m)%nat.
Proof. apply map_size_filter. Qed.

Lemma acts_on_app t l1 l2 : acts_on t (l1 ++ l2) = acts_on t l1 ++ acts_on t l2.
Proof. unfold acts_on. by rewrite filter_app, fmap_app. Qed.

Lemma acts_on_cons t k t' l :
  acts_on t ((k, t') :: l) = (if decide (t' = t) then [k] else []) ++ acts_on t l.
Proof. unfold acts_on. rewrite filter_cons. simpl. by destruct (decide (t' = t)). Qed.

Lemma countb_this_app t l1 l2 : countb (this t) (l1 ++ l2) = (countb (this t) l1 + countb (this t) l2)%nat.
Proof. apply countb_app. Qed.

Lemma countb_this_cons t t' l :
  countb (this t) (t' :: l) = ((if decide (t' = t) then 1 else 0) + countb (this t) l)%nat.
Proof.
  rewrite countb_cons. unfold this. case_decide as Ht.
  - by rewrite Ht, Nat.eqb_refl.
  - by rewrite (proj2 (Nat.eqb_neq t' t) Ht).
Qed.

Lemma next_cons t b k t' : acts_on t (next b k t') = if decide (t' = t) then (if b then [k] else []) else [].
Proof. unfold next. destruct b; rewrite ?acts_on_cons; by case_decide. Qed.

(** ** Steps that change one task *)

Record frame (t : nat) (S S' : sys) : Prop := {
  fr_holds : ∀ t', t' ≠ t → holds_of S' t' = holds_of S t';
  fr_events : ∀ t', t' ≠ t → events_of S' t' = events_of S t';
  fr_mode : ∀ t', t' ≠ t → mode_of S' t' = mode_of S t';
  fr_acts : ∀ t', t' ≠ t → acts_on t' (s_todo S') = acts_on t' (s_todo S);
  fr_ready : ∀ t', t' ≠ t → countb (this t') (w_ready (s_world S')) = countb (this t') (w_ready (s_world S));
  fr_released : ∀ t', t' ≠ t →
    countb (this t') (w_released (s_world S')) = countb (this t') (w_released (s_world S));
  fr_disposed : w_disposed (s_world S') = w_disposed (s_world S);
  fr_waits : s_waits S' = s_waits S;
}.

Lemma inv_local S S' t x x' s' :
  inv S → frame t S S' → w_tasks (s_world S) !! t = Some x →
  w_tasks (s_world S') = <[t := x']> (w_tasks (s_world S)) → t_parent x' = t_parent x →
  has_status (mkView (Some x') (children t (w_tasks (s_world S))) (holds_of S' t) (events_of S' t) (mode_of S' t)
    (acts_on t (s_todo S')) (countb (this t) (w_ready (s_world S')))
    (countb (this t) (w_released (s_world S'))) (countb (this t) (w_disposed (s_world S)))
    (bool_decide (t ∈ s_waits S))) x' s' →
  inv S'.
Proof.
  intros [Hinv Hsz] [Hh He Hm Ha Hr Hl Hd Hw] Hx Ht Hp Hs'. split.
  2:{ rewrite Ht, map_size_insert_Some by eauto. done. }
  intros t'. unfold view_of. rewrite Ht, (children_update t' t x x') by done.
  destruct (decide (t' = t)) as [->|Hne].
  - rewrite lookup_insert_eq, Hd, Hw. unfold view_ok. simpl. eauto.
  - rewrite lookup_insert_ne, Hh, He, Hm, Ha, Hr, Hl, Hd, Hw by done. apply Hinv.
Qed.

Lemma act_status v x s k l1 l2 :
  has_status v x s → v_acts v = l1 ++ k :: l2 → l1 = [] ∧ l2 = [] ∧ acts_of s = [k].
Proof.
  intros Hs Ha. rewrite (hs_acts _ _ _ Hs) in Ha.
  assert (length (acts_of s) ≤ 1)%nat as Hl by (destruct s; simpl; lia).
  rewrite Ha in Hl |- *. rewrite length_app in Hl. simpl in Hl.
  destruct l1, l2; simpl in *; (done || lia).
Qed.

(** The task of an action that is waiting, and its state. *)
Lemma todo_status S l1 k t l2 :
  inv S → s_todo S = l1 ++ (k, t) :: l2 →
  ∃ x s, w_tasks (s_world S) !! t = Some x ∧ has_status (view_of S t) x s ∧
    acts_on t l1 = [] ∧ acts_on t l2 = [] ∧ acts_of s = [k].
Proof.
  intros [Hinv _] Htodo. specialize (Hinv t). unfold view_ok in Hinv.
  assert (v_acts (view_of S t) = acts_on t l1 ++ k :: acts_on t l2) as Ha.
  { simpl. rewrite Htodo, acts_on_app, acts_on_cons, decide_True by done. done. }
  destruct (v_task (view_of S t)) as [x|] eqn:Hx.
  - destruct Hinv as [s Hs]. destruct (act_status _ _ _ _ _ _ Hs Ha) as (? & ? & ?). by exists x, s.
  - destruct Hinv as (_ & _ & _ & Hn & _). rewrite Ha in Hn. by destruct (acts_on t l1).
Qed.

(** The task of a mode other than done. *)
Lemma mode_status S t :
  inv S → mode_of S t ≠ Done →
  ∃ x s, w_tasks (s_world S) !! t = Some x ∧ has_status (view_of S t) x s.
Proof.
  intros [Hinv _] Hm. specialize (Hinv t). unfold view_ok in Hinv.
  destruct (v_task (view_of S t)) as [x|] eqn:Hx.
  - destruct Hinv as [s Hs]. eauto.
  - destruct Hinv as (_ & _ & _ & _ & _ & _ & _ & Hd & _). done.
Qed.

Lemma task_status S t x :
  inv S → w_tasks (s_world S) !! t = Some x → ∃ s, has_status (view_of S t) x s.
Proof.
  intros [Hinv _] Hx. specialize (Hinv t). unfold view_ok in Hinv.
  assert (v_task (view_of S t) = Some x) as E by done. by rewrite E in Hinv.
Qed.

Lemma lookup_task t x w : w_tasks w !! t = Some x → task t w = Ok x.
Proof. intros Hx. unfold task. by rewrite Hx. Qed.

(** The counters stay far from the limits of an [int]. *)
Lemma wrap_small c : - 5 ≤ c ≤ 2 ^ 30 + 2 ^ 20 + 5 → wrap_int c = c.
Proof. intros. apply wrap_int_small. unfold is_int. lia. Qed.

Lemma children_small S t : inv S → Z.of_nat (children t (w_tasks (s_world S))) ≤ 2 ^ 30.
Proof. intros [_ Hsz]. pose proof (children_le t (w_tasks (s_world S))). lia. Qed.

Lemma blockers_small S t x s :
  inv S → has_status (view_of S t) x s →
  0 ≤ Z.of_nat (children t (w_tasks (s_world S)) + holds_of S t) ≤ 2 ^ 30 + 2 ^ 20.
Proof.
  intros Hinv Hs. pose proof (children_small S t Hinv). pose proof (hs_holds _ _ _ Hs) as Hh. simpl in Hh. lia.
Qed.

Lemma frame_todo t S w l1 k l2 acts :
  s_todo S = l1 ++ (k, t) :: l2 → (∀ t', t' ≠ t → acts_on t' acts = []) →
  w_ready w = w_ready (s_world S) → w_released w = w_released (s_world S) →
  w_disposed w = w_disposed (s_world S) →
  frame t S (mkSys w (l1 ++ l2 ++ acts) (s_mode S) (s_events S) (s_waits S) (s_holds S)).
Proof.
  intros Ht Ha Hr Hl Hd. split; simpl; try done.
  - intros t' Hne. rewrite Ht, !acts_on_app, acts_on_cons, Ha, decide_False by done.
    by rewrite app_nil_r.
  - intros t' _. by rewrite Hr.
  - intros t' _. by rewrite Hl.
Qed.

(** Rebuild the state of the task from the old one, case by case. *)
Ltac solve_status :=
  unfold holds_of, events_of, mode_of in *; split; simpl in *; rewrite ?lookup_insert_eq; simpl;
  try done; try lia; try congruence; try (intros; by eauto); try (intros; lia).

Lemma inv_DecRelease S l1 t l2 w acts :
  inv S → s_todo S = l1 ++ (DecRelease, t) :: l2 → perform (DecRelease, t) (s_world S) = Ok (w, acts) →
  inv (mkSys w (l1 ++ l2 ++ acts) (s_mode S) (s_events S) (s_waits S) (s_holds S)).
Proof.
  intros Hinv Ht Hp. destruct (todo_status S l1 DecRelease t l2 Hinv Ht) as (x & s & Hx & Hs & H1 & H2 & Hk).
  assert (s = SDeciding) as -> by (by destruct s).
  unfold perform in Hp. simpl in Hp. unfold decreaseReleaseCount in Hp. rewrite (lookup_task t x) in Hp by done.
  simpl in Hp. injection Hp as <- <-. pose proof (hs_release _ _ _ Hs) as Hrel.
  pose proof (hs_small _ _ _ Hs) as Hsm. simpl in Hrel, Hsm.
  eapply (inv_local S _ t x _ (if (events_of S t =? 0)%nat then SReleasing else SEvents)); [done| |done|done|done|].
  - apply (frame_todo _ _ _ _ DecRelease); try done. intros t' Hne. rewrite next_cons, decide_False by done. done.
  - cbn [s_todo]. rewrite !acts_on_app, H1, H2, next_cons, decide_True by done. simpl.
    rewrite wrap_small by lia. destruct Hs; simpl in *. destruct (Nat.eqb_spec (events_of S t) 0) as [He|He].
    + rewrite (proj2 (Z.eqb_eq _ _)) by lia. solve_status.
    + rewrite (proj2 (Z.eqb_neq _ _)) by lia. solve_status.
Qed.

(** The end of a task with a wait clause: it waits for its children, or goes on. *)
Lemma inv_EndWait S l1 t l2 w acts :
  inv S → s_todo S = l1 ++ (EndWait, t) :: l2 → perform (EndWait, t) (s_world S) = Ok (w, acts) →
  inv (mkSys w (l1 ++ l2 ++ acts) (s_mode S) (s_events S) (s_waits S) (s_holds S)).
Proof.
  intros Hinv Ht Hp. destruct (todo_status S l1 EndWait t l2 Hinv Ht) as (x & s & Hx & Hs & H1 & H2 & Hk).
  assert (s = SFinishing) as -> by (by destruct s). pose proof (blockers_small S t x _ Hinv Hs) as Hsm.
  pose proof (hs_woken _ _ _ Hs) as Hwk. simpl in Hwk.
  unfold perform in Hp. cbn [fst snd] in Hp. unfold decreaseRemovalBlockingCount in Hp.
  rewrite (lookup_task t x) in Hp by done. cbn [mbind res_bind] in Hp. rewrite Hwk, wrap_small in Hp by lia.
  destruct (Z.eqb_spec (1 + Z.of_nat (children t (w_tasks (s_world S)) + holds_of S t) - 1) 0) as [Hz|Hz].
  - unfold completeDelayedRelease, increaseRemovalBlockingCount in Hp. rewrite Hz in Hp.
    do 2 (erewrite (lookup_task t) in Hp by (simpl; apply lookup_insert_eq); cbn [mbind res_bind] in Hp).
    injection Hp as <- <-.
    eapply (inv_local S _ t x _ SDeciding); [done| |done|simpl; by rewrite !insert_insert_eq|done|].
    + apply (frame_todo _ _ _ _ EndWait); try done. intros t' Hne. by rewrite acts_on_cons, decide_False.
    + cbn [s_todo]. rewrite !acts_on_app, H1, H2, acts_on_cons, decide_True by done. simpl.
      destruct Hs; simpl in *. destruct hs_flag0 as [_ Hw]. rewrite wrap_small by lia. solve_status.
  - injection Hp as <- <-. eapply (inv_local S _ t x _ SDelayed); [done| |done|done|done|].
    + apply (frame_todo _ _ _ _ EndWait); done.
    + cbn [s_todo]. rewrite !acts_on_app, H1, H2. simpl. destruct Hs; simpl in *. solve_status.
Qed.

Lemma inv_Unregister S l1 t l2 w acts :
  inv S → s_todo S = l1 ++ (Unregister, t) :: l2 → perform (Unregister, t) (s_world S) = Ok (w, acts) →
  inv (mkSys w (l1 ++ l2 ++ acts) (s_mode S) (s_events S) (s_waits S) (s_holds S)).
Proof.
  intros Hinv Ht Hp. destruct (todo_status S l1 Unregister t l2 Hinv Ht) as (x & s & Hx & Hs & H1 & H2 & Hk).
  assert (s = SReleasing) as -> by (by destruct s). injection Hp as <- <-.
  eapply (inv_local S _ t x x SReleased); [done| |done| |done|].
  - split; simpl; try done.
    + intros t' Hne. by rewrite Ht, !acts_on_app, !acts_on_cons, !decide_False, app_nil_r by done.
    + intros t' Hne. rewrite countb_this_app, countb_this_cons, decide_False by done. unfold countb. simpl. lia.
  - simpl. by rewrite insert_id.
  - cbn [s_todo s_world record_release w_released]. rewrite !acts_on_app, H1, H2, acts_on_cons, decide_True by done.
    rewrite countb_this_app, countb_this_cons, decide_True by done. change (countb _ []) with 0%nat.
    destruct Hs; simpl in *. solve_status.
Qed.

Lemma inv_MarkReleased S l1 t l2 w acts :
  inv S → s_todo S = l1 ++ (MarkReleased, t) :: l2 → perform (MarkReleased, t) (s_world S) = Ok (w, acts) →
  inv (mkSys w (l1 ++ l2 ++ acts) (s_mode S) (s_events S) (s_waits S) (s_holds S)).
Proof.
  intros Hinv Ht Hp. destruct (todo_status S l1 MarkReleased t l2 Hinv Ht) as (x & s & Hx & Hs & H1 & H2 & Hk).
  assert (s = SReleased) as -> by (by destruct s).
  unfold perform in Hp. simpl in Hp. unfold markAsReleased, decreaseRemovalBlockingCount in Hp.
  rewrite (lookup_task t x) in Hp by done. simpl in Hp. injection Hp as <- <-.
  pose proof (hs_woken _ _ _ Hs) as Hwk. pose proof (blockers_small S t x _ Hinv Hs) as Hsm. simpl in Hwk.
  pose proof (hs_holds _ _ _ Hs) as Hhs. simpl in Hhs.
  set (ch := children t (w_tasks (s_world S))) in *.
  eapply (inv_local S _ t x _ (if (ch + holds_of S t =? 0)%nat then SDisposable else SChildren)); [done| |done|done|done|].
  - apply (frame_todo _ _ _ _ MarkReleased); try done. intros t' Hne. rewrite next_cons, decide_False by done. done.
  - cbn [s_todo]. rewrite !acts_on_app, H1, H2, next_cons, decide_True by done. simpl.
    rewrite wrap_small by lia. fold ch. destruct Hs; simpl in *. fold ch in hs_wait0, hs_woken0.
    destruct (Nat.eqb_spec (ch + holds_of S t) 0) as [He|He].
    + rewrite (proj2 (Z.eqb_eq _ _)) by lia. solve_status.
    + rewrite (proj2 (Z.eqb_neq _ _)) by lia. solve_status.
Qed.

(** A task with a wait clause whose children are gone: the delayed release. *)
Lemma inv_Dispose_delayed S l1 t l2 x w acts :
  inv S → s_todo S = l1 ++ (Dispose, t) :: l2 → perform (Dispose, t) (s_world S) = Ok (w, acts) →
  w_tasks (s_world S) !! t = Some x → hasFinished x && mustDelayRelease x = true →
  inv (mkSys w (l1 ++ l2 ++ acts) (s_mode S) (s_events S) (s_waits S) (s_holds S)).
Proof.
  intros Hinv Ht Hp Hx Hdel. destruct (todo_status S l1 Dispose t l2 Hinv Ht) as (x' & s & Hx' & Hs & H1 & H2 & Hk).
  rewrite Hx in Hx'. injection Hx' as <-. unfold perform in Hp. simpl in Hp.
  rewrite (lookup_task t x) in Hp by done. simpl in Hp. rewrite Hdel in Hp.
  unfold completeDelayedRelease, increaseRemovalBlockingCount in Hp.
  rewrite (lookup_task t x) in Hp by done. simpl in Hp.
  rewrite (lookup_task t (set_wait false x)) in Hp by (simpl; apply lookup_insert_eq). simpl in Hp.
  injection Hp as <- <-. apply andb_true_iff in Hdel as [Hfin Hfl]. unfold mustDelayRelease in Hfl.
  pose proof (hs_woken _ _ _ Hs) as Hwk. simpl in Hwk.
  assert (s = SDelayDone) as ->.
  { pose proof (hs_finished _ _ _ Hs) as Hf. pose proof (hs_flag _ _ _ Hs) as Hw.
    destruct s; try done; unfold finished_ok in Hf; simpl in *; [by destruct Hf; congruence|].
    rewrite Hfl in Hw. by destruct (bool_decide _). }
  eapply (inv_local S _ t x _ SDeciding); [done| |done|simpl; apply insert_insert_eq|done|].
  - apply (frame_todo _ _ _ _ Dispose); try done. intros t' Hne. by rewrite acts_on_cons, decide_False.
  - cbn [s_todo]. rewrite !acts_on_app, H1, H2, acts_on_cons, decide_True by done. simpl.
    destruct Hs; simpl in *. rewrite hs_children0 in Hwk. rewrite wrap_small by lia.
    destruct hs_flag0 as [_ Hw]. solve_status.
Qed.

(** A task in a taskwait whose children are gone: it goes to the scheduler. *)
Lemma inv_Dispose_wake S l1 t l2 x w acts :
  inv S → s_todo S = l1 ++ (Dispose, t) :: l2 → perform (Dispose, t) (s_world S) = Ok (w, acts) →
  w_tasks (s_world S) !! t = Some x → hasFinished x = false →
  inv (mkSys w (l1 ++ l2 ++ acts) (s_mode S) (s_events S) (s_waits S) (s_holds S)).
Proof.
  intros Hinv Ht Hp Hx Hfin. destruct (todo_status S l1 Dispose t l2 Hinv Ht) as (x' & s & Hx' & Hs & H1 & H2 & Hk).
  rewrite Hx in Hx'. injection Hx' as <-. unfold perform in Hp. simpl in Hp.
  rewrite (lookup_task t x) in Hp by done. simpl in Hp. rewrite Hfin in Hp. simpl in Hp. injection Hp as <- <-.
  assert (s = SWaking) as ->.
  { pose proof (hs_finished _ _ _ Hs) as Hf. destruct s; try done; unfold finished_ok in Hf; simpl in Hf; congruence. }
  eapply (inv_local S _ t x x SReady); [done| |done|simpl; by rewrite insert_id|done|].
  - split; simpl; try done.
    + intros t' Hne. by rewrite Ht, !acts_on_app, acts_on_cons, decide_False, app_nil_r by done.
    + intros t' Hne. rewrite countb_this_app, countb_this_cons, decide_False by done. unfold countb. simpl. lia.
  - cbn [s_todo s_world addReadyTask w_ready w_released w_disposed]. rewrite !acts_on_app, H1, H2 by done.
    rewrite countb_this_app, countb_this_cons, decide_True by done. change (countb _ []) with 0%nat.
    destruct Hs; simpl in *. solve_status.
Qed.

(** ** The destruction of a task *)

(** A child or a hold less: what the task becomes. *)
Definition child_gone (s : status) (ch : nat) : status :=
  match ch, s with
  | O, SBlocked => SWaking
  | O, SDelayed => SDelayDone
  | O, SChildren => SDisposable
  | _, _ => s
  end.

Lemma child_gone_status v x s ch ho :
  has_status v x s → (v_children v + v_holds v)%nat = S (ch + ho) → (ch ≤ v_children v)%nat → (ho ≤ v_holds v)%nat →
  Z.of_nat (ch + ho) ≤ 2 ^ 30 + 2 ^ 20 →
  let c := wrap_int (t_countdownToBeWokenUp x - 1) in
  has_status (mkView (Some (set_woken c x)) ch ho (v_events v) (v_mode v)
    (v_acts v ++ if c =? 0 then [Dispose] else []) (v_ready v) (v_released v) (v_disposed v) (v_wait v))
    (set_woken c x) (child_gone s (ch + ho)).
Proof.
  intros Hs Hch Hle Hleh Hsm c. pose proof (hs_woken _ _ _ Hs) as Hw. pose proof (hs_children _ _ _ Hs) as Hc.
  rewrite Hch in Hw, Hc.
  assert (c = self s + Z.of_nat (ch + ho)) as Hcv.
  { unfold c. rewrite wrap_small by (destruct s; simpl in *; lia). lia. }
  rewrite Hcv. clear c Hcv. remember (ch + ho)%nat as total eqn:Htot.
  destruct Hs. destruct s; simpl in *; try lia;
    (destruct total as [|total]; simpl; [|rewrite ?app_nil_r]); split; simpl in *;
    rewrite <- ?Htot, ?app_nil_r; try done; try lia; try congruence;
    try (rewrite (proj2 (Z.eqb_neq _ _)) by lia; by rewrite app_nil_r);
    try (by rewrite hs_acts0);
    try (intros Hw1 Hw2; specialize (hs_wait0 Hw1 Hw2); lia).
Qed.

(** The view of a task that is gone. *)
Lemma destroyed_view S t x :
  inv S → has_status (view_of S t) x SDisposable → w_tasks (s_world S) !! t = Some x →
  t_parent x ≠ Some t ∧ children t (w_tasks (s_world S)) = 0%nat ∧ holds_of S t = 0%nat.
Proof.
  intros Hinv Hs Hx. pose proof (hs_children _ _ _ Hs) as Hc. simpl in Hc. split; [|lia].
  intros Hp. rewrite (children_delete t t x), decide_True in Hc by done. lia.
Qed.

Lemma parent_status S t x p :
  inv S → w_tasks (s_world S) !! t = Some x → t_parent x = Some p →
  ∃ y s, w_tasks (s_world S) !! p = Some y ∧ has_status (view_of S p) y s.
Proof.
  intros Hinv Hx Hp. destruct Hinv as [Hinv _]. specialize (Hinv p). unfold view_ok in Hinv.
  destruct (v_task (view_of S p)) as [y|] eqn:Hy.
  - destruct Hinv as [s Hs]. by exists y, s.
  - destruct Hinv as (Hc & _). simpl in Hc. rewrite (children_delete p t x), decide_True in Hc by done. lia.
Qed.

Lemma view_ok_destroyed (S : sys) t m acts x :
  has_status (view_of S t) x SDisposable → children t m = 0%nat → m !! t = None → acts = [] →
  view_ok (mkView (m !! t) (children t m) (holds_of S t) (events_of S t) (mode_of S t) acts
    (countb (this t) (w_ready (s_world S))) (countb (this t) (w_released (s_world S)))
    (countb (this t) (w_disposed (s_world S) ++ [t])) (bool_decide (t ∈ s_waits S))).
Proof.
  intros Hs Hc Hm ->. unfold view_ok. simpl. rewrite Hm.
  rewrite countb_this_app, countb_this_cons, decide_True by done. change (countb _ []) with 0%nat.
  destruct Hs; simpl in *. rewrite hs_disposed0. split_and!; (done || lia).
Qed.

Section destroy.
Context (S : sys) (l1 l2 : list action) (t : nat) (x : Task).
Context (Hinv : inv S) (Ht : s_todo S = l1 ++ (Dispose, t) :: l2)
  (Hx : w_tasks (s_world S) !! t = Some x) (Hs : has_status (view_of S t) x SDisposable).

Lemma destroy_acts :
  acts_on t (l1 ++ l2) = [] ∧ ∀ t', t' ≠ t → acts_on t' (l1 ++ l2) = acts_on t' (s_todo S).
Proof.
  destruct (todo_status S l1 Dispose t l2 Hinv Ht) as (? & ? & _ & _ & H1 & H2 & _). split.
  - by rewrite acts_on_app, H1, H2.
  - intros t' Hne. by rewrite Ht, !acts_on_app, acts_on_cons, decide_False by done.
Qed.

Lemma destroy_disposed t' :
  t' ≠ t → countb (this t') (w_disposed (s_world S) ++ [t]) = countb (this t') (w_disposed (s_world S)).
Proof.
  intros Hne. rewrite countb_this_app, countb_this_cons, decide_False by done. unfold countb. simpl. lia.
Qed.

Lemma inv_destroy_root :
  t_parent x = None →
  inv (mkSys (destroy t None (s_world S)) (l1 ++ l2 ++ []) (s_mode S) (s_events S) (s_waits S) (s_holds S)).
Proof.
  intros Hpar. destruct destroy_acts as [Ha Hacts]. destruct (destroyed_view S t x Hinv Hs Hx) as (_ & Hct & _).
  set (m := delete t (w_tasks (s_world S))).
  assert (∀ t', children t' (w_tasks (s_world S)) = children t' m) as Hch.
  { intros t'. rewrite (children_delete t' t x) by done. by rewrite Hpar. }
  split.
  2:{ simpl. pose proof (proj2 Hinv) as Hsz. rewrite map_size_delete_Some by eauto. lia. }
  intros t'. unfold view_of. simpl. fold m. rewrite app_nil_r. destruct (decide (t' = t)) as [->|Htt].
  - apply (view_ok_destroyed S t m _ x); [done|by rewrite <- Hch|apply lookup_delete_eq|done].
  - rewrite destroy_disposed, Hacts, <- Hch by done. unfold m. rewrite lookup_delete_ne by done.
    apply Hinv.
Qed.

Lemma inv_destroy_child p y :
  t_parent x = Some p → w_tasks (s_world S) !! p = Some y →
  let c := wrap_int (t_countdownToBeWokenUp y - 1) in
  inv (mkSys (destroy t (Some p) (put p (set_woken c y) (s_world S)))
         (l1 ++ l2 ++ next (c =? 0) Dispose p) (s_mode S) (s_events S) (s_waits S) (s_holds S)).
Proof.
  intros Hpar Hy c. destruct destroy_acts as [Ha Hacts].
  destruct (destroyed_view S t x Hinv Hs Hx) as (Hself & Hct & _).
  destruct (task_status S p y Hinv Hy) as [sp Hsp]. assert (p ≠ t) as Hpt by congruence.
  set (m := delete t (<[p := set_woken c y]> (w_tasks (s_world S)))).
  assert (∀ t', children t' (w_tasks (s_world S)) =
    ((if decide (t' = p) then 1 else 0) + children t' m)%nat) as Hch.
  { intros t'. unfold m. rewrite <- (children_update t' p y (set_woken c y)) by done.
    rewrite (children_delete t' t x) by (by rewrite lookup_insert_ne). rewrite Hpar.
    destruct (decide (t' = p)) as [->|Hne]; [by rewrite decide_True|by rewrite decide_False by congruence]. }
  pose proof (children_small S p Hinv) as Hsm. split.
  2:{ simpl. pose proof (proj2 Hinv) as Hsz.
      rewrite map_size_delete_Some by (rewrite lookup_insert_ne by done; eauto).
      rewrite map_size_insert_Some by eauto. lia. }
  intros t'. unfold view_of. simpl. fold m. rewrite app_assoc, acts_on_app, next_cons.
  destruct (decide (t' = t)) as [->|Htt].
  { apply (view_ok_destroyed S t m _ x); [done| |apply lookup_delete_eq|].
    - rewrite Hch in Hct. lia.
    - by rewrite Ha, decide_False. }
  rewrite destroy_disposed, Hacts by done. pose proof (Hch t') as Hcht.
  destruct (decide (t' = p)) as [->|Htp].
  - assert (m !! p = Some (set_woken c y)) as Hmp.
    { unfold m. by rewrite lookup_delete_ne, lookup_insert_eq. }
    rewrite (decide_True (P := p = p)), Hmp by done. unfold view_ok. simpl.
    exists (child_gone sp (children p m + holds_of S p)). pose proof (blockers_small S p y sp Hinv Hsp).
    apply (child_gone_status (view_of S p) y sp (children p m) (holds_of S p) Hsp); simpl; lia.
  - rewrite (decide_False (P := p = t')), app_nil_r by done. simpl in Hcht.
    rewrite <- Hcht. unfold m.
    rewrite lookup_delete_ne, lookup_insert_ne by done. apply Hinv.
Qed.
End destroy.

Lemma inv_Dispose_destroy S l1 t l2 x w acts :
  inv S → s_todo S = l1 ++ (Dispose, t) :: l2 → perform (Dispose, t) (s_world S) = Ok (w, acts) →
  w_tasks (s_world S) !! t = Some x → hasFinished x = true → mustDelayRelease x = false →
  inv (mkSys w (l1 ++ l2 ++ acts) (s_mode S) (s_events S) (s_waits S) (s_holds S)).
Proof.
  intros Hinv Ht Hp Hx Hfin Hfl. destruct (todo_status S l1 Dispose t l2 Hinv Ht) as (x' & s & Hx' & Hs & _ & _ & Hk).
  rewrite Hx in Hx'. injection Hx' as <-. unfold perform in Hp. simpl in Hp.
  rewrite (lookup_task t x) in Hp by done. simpl in Hp. rewrite Hfin, Hfl in Hp. simpl in Hp.
  assert (s = SDisposable) as ->.
  { pose proof (hs_finished _ _ _ Hs) as Hf. pose proof (hs_flag _ _ _ Hs) as Hw. unfold mustDelayRelease in Hfl.
    destruct s; try done; unfold finished_ok in Hf; simpl in *; [destruct Hf|destruct Hw]; congruence. }
  unfold unlinkFromParent in Hp. rewrite (lookup_task t x) in Hp by done. simpl in Hp.
  destruct (t_parent x) as [p|] eqn:Hpar; simpl in Hp.
  - destruct (parent_status S t x p Hinv Hx Hpar) as (y & sp & Hy & _).
    unfold removeChild, decreaseRemovalBlockingCount in Hp. rewrite (lookup_task p y) in Hp by done.
    simpl in Hp. injection Hp as <- <-. by eapply inv_destroy_child.
  - injection Hp as <- <-. by eapply inv_destroy_root.
Qed.

Lemma inv_perform S l1 a l2 w acts :
  inv S → s_todo S = l1 ++ a :: l2 → perform a (s_world S) = Ok (w, acts) →
  inv (mkSys w (l1 ++ l2 ++ acts) (s_mode S) (s_events S) (s_waits S) (s_holds S)).
Proof.
  intros Hinv Ht Hp. destruct a as [[| | | |] t].
  - by apply (inv_EndWait S l1 t l2).
  - by apply (inv_DecRelease S l1 t l2).
  - by apply (inv_Unregister S l1 t l2).
  - by apply (inv_MarkReleased S l1 t l2).
  - destruct (todo_status S l1 Dispose t l2 Hinv Ht) as (x & s & Hx & _).
    destruct (hasFinished x) eqn:Hfin; [destruct (mustDelayRelease x) eqn:Hfl|].
    + eapply (inv_Dispose_delayed S l1 t l2 x); [done..|]. by rewrite Hfin, Hfl.
    + by eapply (inv_Dispose_destroy S l1 t l2 x).
    + by eapply (inv_Dispose_wake S l1 t l2 x).
Qed.

(** ** The steps of the program *)

Lemma mode_of_set t m S w acts : mode_of (set_mode t m S w acts) t = m.
Proof. unfold mode_of, set_mode. simpl. by rewrite lookup_insert_eq. Qed.

Lemma frame_mode t m S w acts :
  (∀ t', t' ≠ t → acts_on t' acts = []) →
  (∀ t', t' ≠ t → countb (this t') (w_ready w) = countb (this t') (w_ready (s_world S))) →
  w_released w = w_released (s_world S) → w_disposed w = w_disposed (s_world S) →
  frame t S (set_mode t m S w acts).
Proof.
  intros Ha Hr Hl Hd. split; simpl; try done.
  - intros t' Hne. unfold mode_of. simpl. by rewrite lookup_insert_ne.
  - intros t' Hne. by rewrite acts_on_app, Ha, app_nil_r.
  - intros t' _. by rewrite Hl.
Qed.

(** A step of the program that changes the mode and the task, and may leave it one action. *)
Lemma inv_set_mode S t m s' x x' w acts :
  inv S → w_tasks (s_world S) !! t = Some x → w_tasks w = <[t := x']> (w_tasks (s_world S)) →
  t_parent x' = t_parent x → (∀ t', t' ≠ t → acts_on t' acts = []) →
  (∀ t', t' ≠ t → countb (this t') (w_ready w) = countb (this t') (w_ready (s_world S))) →
  w_released w = w_released (s_world S) → w_disposed w = w_disposed (s_world S) →
  has_status (mkView (Some x') (children t (w_tasks (s_world S))) (holds_of S t) (events_of S t) m
    (acts_on t (s_todo S) ++ acts_on t acts) (countb (this t) (w_ready w))
    (countb (this t) (w_released (s_world S))) (countb (this t) (w_disposed (s_world S)))
    (bool_decide (t ∈ s_waits S))) x' s' →
  inv (set_mode t m S w acts).
Proof.
  intros Hinv Hx Hw Hp Ha Hr Hl Hd Hs'.
  eapply (inv_local S _ t x x' s'); [done|by apply frame_mode|done|done|done|].
  rewrite mode_of_set. cbn [set_mode s_todo s_world]. by rewrite acts_on_app, Hl.
Qed.

Lemma inv_start S t x executor w :
  inv S → w_tasks (s_world S) !! t = Some x → t_non_runnable_flag x = false →
  mode_of S t = Created → startTask t executor (s_world S) = Ok w → inv (set_mode t Running S w []).
Proof.
  intros Hinv Hx Hnr Hm Hst. destruct (task_status S t x Hinv Hx) as [s Hs].
  unfold startTask in Hst. rewrite (lookup_task t x) in Hst by done. injection Hst as <-.
  eapply (inv_set_mode S t _ SRunning x); try done; [by destruct (t_device x)|].
  assert (s = SCreated) as ->.
  { pose proof (hs_mode _ _ _ Hs) as Hms. simpl in Hms. rewrite Hm in Hms. by destruct s. }
  destruct Hs; simpl in *. rewrite app_nil_r.
  split; simpl in *; try done; try (by destruct (t_device x)).
  unfold finished_ok, hasFinished in *. simpl. by destruct (t_device x) eqn:E; simpl; rewrite E.
Qed.

Lemma hasFinished_clear x :
  (t_non_runnable_flag x = true → hasFinished x = true) → hasFinished (clear_executor x) = true.
Proof.
  unfold hasFinished, clear_executor. intros Hnr. destruct (t_non_runnable_flag x); [auto|].
  by destruct (t_device x) eqn:E; simpl; rewrite E.
Qed.

Lemma clear_executor_fields x :
  t_parent (clear_executor x) = t_parent x ∧
  t_countdownToBeWokenUp (clear_executor x) = t_countdownToBeWokenUp x ∧
  t_countdownToRelease (clear_executor x) = t_countdownToRelease x ∧
  t_wait_flag (clear_executor x) = t_wait_flag x.
Proof. unfold clear_executor. by destruct (t_non_runnable_flag x), (t_device x). Qed.

(** The states in which a task can finish. *)
Lemma finishing_status S t x s :
  has_status (view_of S t) x s → mode_of S t = (if t_non_runnable_flag x then Created else Running) →
  (s = SCreated ∨ s = SRunning) ∧ hasFinished (clear_executor x) = true.
Proof.
  intros Hs Hm. pose proof (hs_mode _ _ _ Hs) as Hms. pose proof (hs_finished _ _ _ Hs) as Hf.
  simpl in Hms. rewrite Hm in Hms. destruct (t_non_runnable_flag x) eqn:Hnr.
  - split; [left; by destruct s|]. apply hasFinished_clear. intros _.
    assert (s = SCreated) as -> by (by destruct s). destruct Hf as [Hth Hcp]. unfold hasFinished.
    rewrite Hth, Hcp. by destruct (t_device x).
  - split; [right; by destruct s|]. apply hasFinished_clear. congruence.
Qed.

Lemma inv_finish S t x w acts :
  inv S → w_tasks (s_world S) !! t = Some x →
  mode_of S t = (if t_non_runnable_flag x then Created else Running) →
  begin_finish t (s_world S) = Ok (w, acts) → inv (set_mode t Done S w acts).
Proof.
  intros Hinv Hx Hm Hfin. destruct (task_status S t x Hinv Hx) as [s Hs].
  destruct (finishing_status S t x s Hs Hm) as [Hst Hdone].
  destruct (clear_executor_fields x) as (Hp & Hwk & Hrl & Hfl).
  unfold begin_finish in Hfin. rewrite (lookup_task t x) in Hfin by done. injection Hfin as <- <-.
  assert (self s = 1 ∧ exec s = 1 ∧ acts_of s = [] ∧ released s = false ∧ decided s = false ∧
    ∀ A (a b : A), (match s with SReady => a | _ => b end) = b) as (Hself & Hexec & Hacts & Hrel & Hdec & Hnr)
    by (by destruct Hst as [-> | ->]).
  assert (t_wait_flag x = bool_decide (t ∈ s_waits S)) as Hwt.
  { pose proof (hs_flag _ _ _ Hs) as Hf. simpl in Hf. destruct Hst as [-> | ->]; simpl in Hf; by rewrite andb_true_r in Hf. }
  eapply (inv_set_mode S t Done (if mustDelayRelease x then SFinishing else SDeciding) x);
    [done|done|done|done| |done|done|done|].
  { intros t' Hne. by rewrite acts_on_cons, decide_False. }
  rewrite acts_on_cons, decide_True by done. unfold mustDelayRelease. destruct Hs; simpl in *.
  rewrite hs_acts0, Hacts in *. rewrite Hrel, Hnr in *.
  destruct (t_wait_flag x) eqn:Hdel; rewrite <- Hwt in *; split; simpl; try done; try lia; by rewrite Hfl.
Qed.

(** The statuses of the modes of a running program. *)
Lemma running_status S t x s :
  has_status (view_of S t) x s →
  (mode_of S t = Running → s = SRunning) ∧ (mode_of S t = Inlining → s = SInlining) ∧
  (mode_of S t = Blocked → s = SBlocked ∨ s = SWaking ∨ s = SReady).
Proof.
  intros Hs. pose proof (hs_mode _ _ _ Hs) as Hm. simpl in Hm.
  split_and!; intros Hmm; rewrite Hmm in Hm; destruct s; naive_solver.
Qed.

Lemma decrease_ok t x w :
  w_tasks w !! t = Some x →
  decreaseRemovalBlockingCount t w =
    let c := wrap_int (t_countdownToBeWokenUp x - 1) in Ok (put t (set_woken c x) w, c =? 0).
Proof. intros Hx. unfold decreaseRemovalBlockingCount. by rewrite (lookup_task t x). Qed.

Lemma increase_removal_ok t x w :
  w_tasks w !! t = Some x →
  increaseRemovalBlockingCount t w =
    Ok (put t (set_woken (wrap_int (t_countdownToBeWokenUp x + 1)) x) w).
Proof. intros Hx. unfold increaseRemovalBlockingCount. by rewrite (lookup_task t x). Qed.

Lemma unblock_ok t x w w' b :
  w_tasks w !! t = Some x → markAsUnblocked t w = Ok (w', b) →
  w' = put t (set_woken (wrap_int (t_countdownToBeWokenUp x + 1)) x) w.
Proof.
  intros Hx. unfold markAsUnblocked. rewrite (increase_removal_ok t x) by done. cbn [mbind res_bind].
  unfold task. simpl. rewrite lookup_insert_eq. cbn [get mbind res_bind]. by intros [= <- _].
Qed.

Lemma inv_taskwait S t w blocks :
  inv S → mode_of S t = Running → block t (s_world S) = Ok (w, blocks) →
  inv (set_mode t (if blocks then Blocked else Running) S w []).
Proof.
  intros Hinv Hm Hw. destruct (mode_status S t Hinv) as (x & s & Hx & Hs); [congruence|].
  destruct (running_status S t x s Hs) as (Hrun & _). assert (s = SRunning) as -> by auto. clear Hrun.
  pose proof (hs_woken _ _ _ Hs) as Hwk. pose proof (blockers_small S t x _ Hinv Hs) as Hsm. simpl in Hwk.
  unfold block, markAsBlocked in Hw. rewrite (decrease_ok t x) in Hw by done. cbn [mbind res_bind] in Hw. cbv zeta in Hw.
  pose proof (hs_holds _ _ _ Hs) as Hhs. simpl in Hhs. rewrite wrap_small in Hw by lia.
  destruct (Z.eqb_spec (t_countdownToBeWokenUp x - 1) 0) as [Hz|Hz].
  - unfold markAsUnblocked in Hw. erewrite increase_removal_ok in Hw by (simpl; apply lookup_insert_eq).
    cbn [mbind res_bind] in Hw. unfold task in Hw. simpl in Hw. rewrite lookup_insert_eq in Hw. injection Hw as <- <-.
    eapply (inv_set_mode S t Running SRunning x); [done|done|simpl; by rewrite insert_insert_eq|done..|].
    rewrite app_nil_r. simpl. rewrite wrap_small by lia. destruct Hs; simpl in *. split; simpl; try done; lia.
  - injection Hw as <- <-. eapply (inv_set_mode S t Blocked SBlocked x); try done. rewrite app_nil_r.
    destruct Hs; simpl in *. split; simpl; try done; lia.
Qed.

Lemma inv_resume S t l1 l2 w b :
  inv S → mode_of S t = Blocked → w_ready (s_world S) = l1 ++ t :: l2 →
  markAsUnblocked t (mkWorld (w_tasks (s_world S)) (w_released (s_world S))
    (w_disposed (s_world S)) (l1 ++ l2) (w_pendingSpawnedFunctions (s_world S))) = Ok (w, b) →
  inv (set_mode t Running S w []).
Proof.
  intros Hinv Hm Hr Hw. destruct (mode_status S t Hinv) as (x & s & Hx & Hs); [congruence|].
  pose proof (hs_ready _ _ _ Hs) as Hrd. simpl in Hrd.
  rewrite Hr, countb_this_app, countb_this_cons, decide_True in Hrd by done.
  destruct s; try lia. apply (unblock_ok t x) in Hw; [|done]. subst w.
  pose proof (hs_woken _ _ _ Hs) as Hwk. pose proof (hs_children _ _ _ Hs) as Hc. simpl in Hwk, Hc.
  eapply (inv_set_mode S t Running SRunning x); try done.
  - intros t' Hne. simpl. by rewrite Hr, !countb_this_app, countb_this_cons, decide_False by done.
  - rewrite app_nil_r. cbn [put w_ready]. rewrite wrap_small by lia.
    assert (countb (this t) (l1 ++ l2) = 0%nat) as -> by (rewrite countb_this_app; lia).
    destruct Hs; simpl in *. split; simpl; try done; lia.
Qed.

Lemma inv_disable S t w :
  inv S → mode_of S t = Blocked → disableScheduling t (s_world S) = Ok (w, true) →
  inv (set_mode t Inlining S w []).
Proof.
  intros Hinv Hm Hw. destruct (mode_status S t Hinv) as (x & s & Hx & Hs); [congruence|].
  destruct (running_status S t x s Hs) as (_ & _ & Hbl). specialize (Hbl Hm).
  unfold disableScheduling in Hw. rewrite (lookup_task t x) in Hw by done. cbn [mbind res_bind] in Hw.
  destruct (Z.ltb_spec 0 (t_countdownToBeWokenUp x)) as [Hpos|]; [|done].
  rewrite (increase_removal_ok t x) in Hw by done. cbn [mbind res_bind] in Hw. injection Hw as <-.
  pose proof (hs_woken _ _ _ Hs) as Hwk. pose proof (blockers_small S t x _ Hinv Hs) as Hsm. simpl in Hwk.
  pose proof (hs_children _ _ _ Hs) as Hc. simpl in Hc.
  assert (s = SBlocked) as -> by (destruct Hbl as [->|[->| ->]]; [done|simpl in *; lia..]).
  eapply (inv_set_mode S t Inlining SInlining x); try done. rewrite app_nil_r, wrap_small by (simpl in *; lia).
  destruct Hs; simpl in *. split; simpl; try done; lia.
Qed.

Lemma inv_enable S t w b :
  inv S → mode_of S t = Inlining → enableScheduling t (s_world S) = Ok (w, b) →
  (b = false → inv (set_mode t Blocked S w [])) ∧
  (b = true → ∀ w' b', markAsUnblocked t w = Ok (w', b') → inv (set_mode t Running S w' [])).
Proof.
  intros Hinv Hm Hw. destruct (mode_status S t Hinv) as (x & s & Hx & Hs); [congruence|].
  destruct (running_status S t x s Hs) as (_ & Hin & _). assert (s = SInlining) as -> by auto. clear Hin.
  unfold enableScheduling in Hw. rewrite (decrease_ok t x) in Hw by done. cbv zeta in Hw.
  pose proof (hs_woken _ _ _ Hs) as Hwk. pose proof (blockers_small S t x _ Hinv Hs) as Hsm. simpl in Hwk.
  rewrite Hwk, wrap_small in Hw by lia. injection Hw as <- <-. split.
  - intros Hb%Z.eqb_neq. eapply (inv_set_mode S t Blocked SBlocked x); try done. rewrite app_nil_r.
    destruct Hs; simpl in *. split; simpl; try done; lia.
  - intros Hb%Z.eqb_eq w' b' Hun. eapply unblock_ok in Hun; [|simpl; apply lookup_insert_eq]. subst w'.
    eapply (inv_set_mode S t Running SRunning x); [done|done|simpl; by rewrite insert_insert_eq|done..|].
    rewrite app_nil_r. simpl. rewrite wrap_small by lia. destruct Hs; simpl in *. split; simpl; try done; lia.
Qed.

(** ** Events *)

Lemma frame_events t n S w acts :
  w_ready w = w_ready (s_world S) → w_released w = w_released (s_world S) →
  w_disposed w = w_disposed (s_world S) → (∀ t', t' ≠ t → acts_on t' acts = []) →
  frame t S (mkSys w (s_todo S ++ acts) (s_mode S) (<[t := n]> (s_events S)) (s_waits S) (s_holds S)).
Proof.
  intros Hr Hl Hd Ha. split; simpl; try done.
  - intros t' Hne. unfold events_of. simpl. by rewrite lookup_insert_ne.
  - intros t' Hne. by rewrite acts_on_app, Ha, app_nil_r.
  - intros t' _. by rewrite Hr.
  - intros t' _. by rewrite Hl.
Qed.

Lemma inv_add_events S t n w :
  inv S → mode_of S t = Running → Z.of_nat (events_of S t + n) < 2 ^ 30 →
  increase_event_counter t (Z.of_nat n) (s_world S) = Ok w →
  inv (mkSys w (s_todo S) (s_mode S) (<[t := (events_of S t + n)%nat]> (s_events S)) (s_waits S) (s_holds S)).
Proof.
  intros Hinv Hm Hb Hw. destruct (mode_status S t Hinv) as (x & s & Hx & Hs); [congruence|].
  destruct (running_status S t x s Hs) as (Hrun & _). assert (s = SRunning) as -> by auto. clear Hrun.
  pose proof (hs_release _ _ _ Hs) as Hrl. simpl in Hrl.
  assert (w = put t (set_release (1 + Z.of_nat (events_of S t + n)) x) (s_world S)) as ->.
  { unfold increase_event_counter, increaseReleaseCount in Hw. destruct (Z.eqb_spec (Z.of_nat n) 0) as [Hn|Hn].
    - injection Hw as <-. replace (events_of S t + n)%nat with (events_of S t) by lia. rewrite <- Hrl.
      unfold put. rewrite insert_id by (by destruct x). by destruct (s_world S).
    - rewrite (lookup_task t x) in Hw by done. injection Hw as <-. do 2 f_equal.
      rewrite Hrl, wrap_small by lia. lia. }
  rewrite <- (app_nil_r (s_todo S)). set (S' := mkSys _ _ _ _ _ _).
  assert (events_of S' t = (events_of S t + n)%nat) as He'.
  { unfold events_of at 1, S'. simpl. by rewrite lookup_insert_eq. }
  eapply (inv_local S S' t x _ SRunning); [done|by apply frame_events|done|done|done|].
  rewrite He'. unfold S'. cbn [s_todo s_world put w_ready w_released].
  change (mode_of _ t) with (mode_of S t). change (holds_of _ t) with (holds_of S t). rewrite app_nil_r. destruct Hs; simpl in *.
  split; simpl; try done; lia.
Qed.

Lemma inv_fulfil S t n w b :
  inv S → (0 < n ≤ events_of S t)%nat →
  decreaseReleaseCount t (Z.of_nat n) (s_world S) = Ok (w, b) →
  inv (mkSys w (s_todo S ++ next b Unregister t) (s_mode S)
         (<[t := (events_of S t - n)%nat]> (s_events S)) (s_waits S) (s_holds S)).
Proof.
  intros Hinv Hn Hw. destruct (w_tasks (s_world S) !! t) as [x|] eqn:Hx.
  2:{ unfold decreaseReleaseCount, task in Hw. by rewrite Hx in Hw. }
  destruct (task_status S t x Hinv Hx) as [s Hs]. unfold decreaseReleaseCount in Hw.
  rewrite (lookup_task t x) in Hw by done. injection Hw as <- <-.
  pose proof (hs_release _ _ _ Hs) as Hrl. pose proof (hs_small _ _ _ Hs) as Hsm.
  pose proof (hs_events _ _ _ Hs) as Hev. simpl in Hrl, Hsm, Hev.
  rewrite wrap_small by (destruct s; simpl in *; lia).
  set (ev := (events_of S t - n)%nat).
  set (S' := mkSys _ _ _ _ _ _).
  assert (events_of S' t = ev) as He'.
  { unfold events_of, S'. simpl. by rewrite lookup_insert_eq. }
  eapply (inv_local S S' t x _ (match s with SEvents => if (ev =? 0)%nat then SReleasing else SEvents | _ => s end));
    [done| |done|done|done|].
  - apply frame_events; try done. intros t' Hne. by rewrite next_cons, decide_False.
  - rewrite He'. unfold S'. cbn [s_todo s_world put w_ready w_released].
    rewrite acts_on_app, next_cons, decide_True by done. change (mode_of _ t) with (mode_of S t).
    change (holds_of _ t) with (holds_of S t).
    destruct Hs; simpl in *. rewrite hs_acts0.
    destruct s; simpl in *; try lia;
      try (rewrite (proj2 (Z.eqb_neq _ _)) by lia; split; simpl; try done; unfold ev in *; lia).
    destruct (Nat.eqb_spec ev 0) as [He|He].
    + rewrite (proj2 (Z.eqb_eq _ _)) by (unfold ev in He; lia). split; simpl; try done; unfold ev in *; lia.
    + rewrite (proj2 (Z.eqb_neq _ _)) by (unfold ev in He; lia). split; simpl; try done; unfold ev in *; lia.
Qed.

(** ** The system of dependencies *)

Lemma frame_holds t n S w acts :
  w_ready w = w_ready (s_world S) → w_released w = w_released (s_world S) →
  w_disposed w = w_disposed (s_world S) → (∀ t', t' ≠ t → acts_on t' acts = []) →
  frame t S (mkSys w (s_todo S ++ acts) (s_mode S) (s_events S) (s_waits S) (<[t := n]> (s_holds S))).
Proof.
  intros Hr Hl Hd Ha. split; simpl; try done.
  - intros t' Hne. unfold holds_of. simpl. by rewrite lookup_insert_ne.
  - intros t' Hne. by rewrite acts_on_app, Ha, app_nil_r.
  - intros t' _. by rewrite Hr.
  - intros t' _. by rewrite Hl.
Qed.

Lemma holds_of_set w l S t n :
  holds_of (mkSys w l (s_mode S) (s_events S) (s_waits S) (<[t := n]> (s_holds S))) t = n.
Proof. unfold holds_of. simpl. by rewrite lookup_insert_eq. Qed.

Lemma may_hold_status S t : inv S → may_hold S t →
  ∃ x s, w_tasks (s_world S) !! t = Some x ∧ has_status (view_of S t) x s ∧ self s = 1.
Proof.
  intros Hinv Hm. assert (mode_of S t ≠ Done ∨ ∃ k, k ≠ Dispose ∧ (k, t) ∈ s_todo S) as Hor.
  { destruct Hm as [Hm|[Hm|Hm]]; [left; congruence|left; congruence|by right]. }
  destruct Hor as [Hd|(k & Hk & (l1 & l2 & Hl)%list_elem_of_split)].
  - destruct (mode_status S t Hinv Hd) as (x & s & Hx & Hs). exists x, s. split; [done|]. split; [done|].
    pose proof (hs_mode _ _ _ Hs) as Hms. simpl in Hms. destruct Hm as [Hm|[Hm|(k & Hk & (l1 & l2 & Hl)%list_elem_of_split)]];
      [rewrite Hm in Hms; by destruct s..|].
    destruct (todo_status S l1 k t l2 Hinv Hl) as (x' & s' & Hx' & Hs' & _ & _ & Ha).
    rewrite <- (hs_acts _ _ _ Hs'), (hs_acts _ _ _ Hs) in Ha. by destruct s, k.
  - destruct (todo_status S l1 k t l2 Hinv Hl) as (x & s & Hx & Hs & _ & _ & Ha). exists x, s.
    split; [done|]. split; [done|]. by destruct s, k.
Qed.

Lemma inv_hold S t w :
  inv S → may_hold S t → Z.of_nat (holds_of S t) < 2 ^ 20 → increaseRemovalBlockingCount t (s_world S) = Ok w →
  inv (mkSys w (s_todo S) (s_mode S) (s_events S) (s_waits S) (<[t := Datatypes.S (holds_of S t)]> (s_holds S))).
Proof.
  intros Hinv Hm Hb Hw. destruct (may_hold_status S t Hinv Hm) as (x & s & Hx & Hs & Hself).
  rewrite (increase_removal_ok t x) in Hw by done. injection Hw as <-. pose proof (blockers_small S t x s Hinv Hs) as Hsm.
  pose proof (hs_woken _ _ _ Hs) as Hwk. simpl in Hwk. rewrite <- (app_nil_r (s_todo S)). set (S' := mkSys _ _ _ _ _ _).
  eapply (inv_local S S' t x _ s); [done|by apply frame_holds|done|done|done|].
  unfold S' at 1. rewrite holds_of_set. cbn [S' s_todo s_world put w_ready w_released].
  change (mode_of S' t) with (mode_of S t). change (events_of S' t) with (events_of S t).
  rewrite app_nil_r, wrap_small by lia. destruct Hs; simpl in *.
  assert (children_ok s (children t (w_tasks (s_world S)) + Datatypes.S (holds_of S t))) by (by destruct s).
  split; simpl; try done; lia.
Qed.

Lemma inv_unhold S t n w b :
  inv S → holds_of S t = Datatypes.S n → decreaseRemovalBlockingCount t (s_world S) = Ok (w, b) →
  inv (mkSys w (s_todo S ++ next b Dispose t) (s_mode S) (s_events S) (s_waits S) (<[t := n]> (s_holds S))).
Proof.
  intros Hinv Hn Hw. destruct (w_tasks (s_world S) !! t) as [x|] eqn:Hx.
  2:{ unfold decreaseRemovalBlockingCount, task in Hw. by rewrite Hx in Hw. }
  destruct (task_status S t x Hinv Hx) as [s Hs]. rewrite (decrease_ok t x) in Hw by done. cbv zeta in Hw.
  injection Hw as <- <-. pose proof (blockers_small S t x s Hinv Hs) as Hsm. set (S' := mkSys _ _ _ _ _ _).
  eapply (inv_local S S' t x _ (child_gone s (children t (w_tasks (s_world S)) + n))); [done| |done|done|done|].
  - apply frame_holds; try done. intros t' Hne. by rewrite next_cons, decide_False.
  - unfold S' at 1. rewrite holds_of_set. cbn [S' s_todo s_world put w_ready w_released].
    rewrite acts_on_app, next_cons, decide_True by done.
    apply (child_gone_status (view_of S t) x s (children t (w_tasks (s_world S))) n Hs); simpl; lia.
Qed.

(** ** Creation *)

Lemma countb_this_0 t l : t ∉ l → countb (this t) l = 0%nat.
Proof.
  intros Ht. apply countb_none. intros x Hx. unfold this. apply Nat.eqb_neq. by intros ->.
Qed.

Section create.
Context (S : sys) (t : nat) (device wait non_runnable : bool) (Hinv : inv S).
Context (Hfresh : w_tasks (s_world S) !! t = None) (Hnd : t ∉ w_disposed (s_world S)).

Let waits := if wait then t :: s_waits S else s_waits S.

Lemma fresh_view :
  children t (w_tasks (s_world S)) = 0%nat ∧ holds_of S t = 0%nat ∧ acts_on t (s_todo S) = [] ∧
  countb (this t) (w_ready (s_world S)) = 0%nat ∧ countb (this t) (w_released (s_world S)) = 0%nat ∧
  countb (this t) (w_disposed (s_world S)) = 0%nat ∧ bool_decide (t ∈ waits) = wait.
Proof.
  destruct Hinv as [Hv _]. specialize (Hv t). unfold view_ok in Hv.
  assert (v_task (view_of S t) = None) as E by done. rewrite E in Hv. simpl in Hv.
  pose proof (countb_this_0 t _ Hnd) as Hd. rewrite Hd in Hv.
  destruct Hv as (Hc & Hh & _ & Ha & Hr & Hl & _ & _ & Hw). specialize (Hw eq_refl).
  split_and!; try done. unfold waits. destruct wait; [|done]. apply bool_decide_eq_true_2. left.
Qed.

Lemma waits_other t' : t' ≠ t → bool_decide (t' ∈ waits) = bool_decide (t' ∈ s_waits S).
Proof. intros Hne. unfold waits. destruct wait; [|done]. apply bool_decide_ext. set_solver. Qed.

Lemma new_view_ok parent :
  has_status (mkView (Some (set_parent parent (new_Task device wait non_runnable))) 0 0 0 Created [] 0 0 0
    wait) (set_parent parent (new_Task device wait non_runnable)) SCreated.
Proof. split; simpl; try done. by destruct wait. Qed.

(** The state after the creation, with the table of tasks [m]. *)
Lemma inv_create_with m spawned parent :
  m !! t = Some (set_parent parent (new_Task device wait non_runnable)) →
  children t m = 0%nat → Z.of_nat (size m) ≤ 2 ^ 30 →
  (∀ t', t' ≠ t → view_ok (mkView (m !! t') (children t' m) (holds_of S t') (events_of S t') (mode_of S t')
     (acts_on t' (s_todo S)) (countb (this t') (w_ready (s_world S)))
     (countb (this t') (w_released (s_world S))) (countb (this t') (w_disposed (s_world S)))
     (bool_decide (t' ∈ s_waits S)))) →
  inv (mkSys (mkWorld m (w_released (s_world S)) (w_disposed (s_world S)) (w_ready (s_world S)) spawned)
         (s_todo S) (<[t := Created]> (s_mode S)) (<[t := 0%nat]> (s_events S)) waits (s_holds S)).
Proof.
  intros Hm Hc Hsz Hother. split; [|done]. intros t'. unfold view_of, events_of, mode_of.
  change (holds_of (mkSys _ _ _ _ _ _) t') with (holds_of S t'). simpl.
  destruct (decide (t' = t)) as [->|Hne].
  - destruct fresh_view as (_ & Hh & Ha & Hr & Hl & Hd & Hw). rewrite !lookup_insert_eq, Hm, Hc, Hh, Ha, Hr, Hl, Hd, Hw.
    exists SCreated. apply new_view_ok.
  - rewrite !lookup_insert_ne, waits_other by done. by apply Hother.
Qed.
End create.

Lemma inv_create S t parent device wait non_runnable w :
  inv S → w_tasks (s_world S) !! t = None → t ∉ w_disposed (s_world S) →
  Z.of_nat (size (w_tasks (s_world S))) < 2 ^ 30 →
  (∀ p, parent = Some p → ∃ x, w_tasks (s_world S) !! p = Some x ∧
     mode_of S p = (if t_non_runnable_flag x then Created else Running)) →
  createTask t parent device wait non_runnable (s_world S) = Ok w →
  inv (mkSys w (s_todo S) (<[t := Created]> (s_mode S)) (<[t := 0%nat]> (s_events S))
         (if wait then t :: s_waits S else s_waits S) (s_holds S)).
Proof.
  intros Hinv Hfresh Hnd Hsz Hpar Hw. unfold createTask in Hw.
  destruct (fresh_view S t wait Hinv Hfresh Hnd) as (Hct & _).
  destruct parent as [p|].
  - destruct (Hpar p eq_refl) as (y & Hy & Hmode). destruct (task_status S p y Hinv Hy) as [s Hs].
    assert (p ≠ t) as Hpt by congruence. unfold setParent in Hw.
    rewrite (lookup_task t (new_Task device wait non_runnable)) in Hw by (simpl; apply lookup_insert_eq).
    cbn [mbind res_bind] in Hw. unfold addChild in Hw.
    rewrite (increase_removal_ok p y) in Hw by (simpl; by rewrite !lookup_insert_ne). injection Hw as <-.
    unfold put. simpl. rewrite insert_insert_eq.
    set (c := wrap_int _). set (x := set_parent (Some p) (new_Task device wait non_runnable)).
    set (m := <[p := set_woken c y]> (<[t := x]> (w_tasks (s_world S)))).
    assert (∀ t', children t' m =
      ((if decide (t' = p) then 1 else 0) + children t' (w_tasks (s_world S)))%nat) as Hch.
    { intros t'. unfold m. rewrite (children_update t' p y) by (done || by rewrite lookup_insert_ne).
      rewrite children_insert by done. unfold x. simpl.
      destruct (decide (t' = p)) as [->|Hne]; [by rewrite decide_True|by rewrite decide_False by congruence]. }
    apply (inv_create_with S t device wait non_runnable Hinv Hfresh Hnd m _ (Some p)).
    + unfold m. by rewrite lookup_insert_ne, lookup_insert_eq.
    + by rewrite Hch, decide_False.
    + unfold m. rewrite map_size_insert_Some by (rewrite lookup_insert_ne by done; eauto).
      rewrite map_size_insert_None by done. lia.
    + intros t' Hne. rewrite Hch. unfold m. destruct (decide (t' = p)) as [->|Hnp].
      * rewrite lookup_insert_eq. exists s.
        assert (s = SCreated ∨ s = SRunning) as Hst.
        { pose proof (hs_mode _ _ _ Hs) as Hms. simpl in Hms. rewrite Hms in Hmode.
          destruct s, (t_non_runnable_flag y); simpl in Hmode; auto; done. }
        pose proof (blockers_small S p y s Hinv Hs) as Hsm. pose proof (hs_woken _ _ _ Hs) as Hwk. simpl in Hwk.
        assert (c = t_countdownToBeWokenUp y + 1) as Hc.
        { unfold c. apply wrap_small. destruct Hst as [-> | ->]; simpl in Hwk; lia. }
        destruct Hs; simpl in *. destruct Hst as [-> | ->]; split; simpl in *; try done; lia.
      * rewrite !lookup_insert_ne by done. apply Hinv.
  - injection Hw as <-. simpl.
    apply (inv_create_with S t device wait non_runnable Hinv Hfresh Hnd _ _ None).
    + apply lookup_insert_eq.
    + by rewrite children_insert.
    + rewrite map_size_insert_None by done. lia.
    + intros t' Hne. rewrite lookup_insert_ne, children_insert by done. simpl. apply Hinv.
Qed.

Lemma sys_inv_step S S' : inv S → step S S' → inv S'.
Proof.
  intros Hinv Hs. destruct Hs.
  - by eapply inv_perform.
  - by eapply inv_create.
  - by eapply inv_start.
  - by eapply inv_finish.
  - by eapply inv_taskwait.
  - by eapply inv_resume.
  - by eapply inv_disable.
  - by eapply (inv_enable S t w false).
  - by eapply (inv_enable S t w true).
  - by eapply inv_add_events.
  - by eapply inv_fulfil.
  - by eapply inv_hold.
  - by eapply inv_unhold.
Qed.

Lemma inv_start_state : inv start.
Proof.
  split; [|done]. intros t. unfold view_ok, view_of. simpl. rewrite lookup_empty. unfold children.
  rewrite map_filter_empty, map_size_empty. unfold holds_of, events_of, mode_of. simpl. rewrite !lookup_empty.
  split_and!; try done. change (countb _ []) with 0%nat. lia.
Qed.

Definition reachable (S : sys) : Prop := rtc step start S.

Lemma reachable_sys_inv S : reachable S → inv S.
Proof.
  intros Hr. assert (inv start) as Hi by apply inv_start_state.
  induction Hr; eauto using sys_inv_step.
Qed.
