(* ===== verification/TaskHandlers.v ===== *)
(** * The life of a task: the handlers run the protocol

    [TaskFinalization::disposeOrUnblockTask], the end of [WorkerThread::handleTask], the
    fulfilment of events and [nanos6_taskwait], as whole functions: on every state that the protocol
    reaches they return, and what they do is a sequence of its steps.  They call the system of
    dependencies, which is only known by what it promises ([TaskDependenciesLaws]). *)

From S2P Require Import Prelude TaskLifecycle TaskProtocol.
Local Open Scope Z_scope.

(** ** What the system of dependencies promises *)

(** The tasks of [S'] are tasks of [S], with the same parents. *)
Definition tasks_from (S S' : sys) : Prop :=
  ∀ u x', w_tasks (s_world S') !! u = Some x' → ∃ x, w_tasks (s_world S) !! u = Some x ∧ t_parent x' = t_parent x.

(** A run in which the code of the tasks does nothing. *)
Record runs (S S' : sys) : Prop := {
  rn_steps : rtc step S S';
  rn_mode : s_mode S' = s_mode S;
  rn_events : s_events S' = s_events S;
  rn_tasks : tasks_from S S';
}.

(** The first two operations change the counters only, by holding tasks back and letting them go, and dispose of the
    tasks that they let go; they leave no action behind.  The last one only counts the accesses again, at most once,
    of a task that is not held back. *)
Class TaskDependenciesLaws `{!TaskDependencies} : Prop := {
  enter_runs : ∀ S t, inv S → mode_of S t = Running ∨ (EndWait, t) ∈ s_todo S →
    ∃ S', handleEnterTaskwait t (s_world S) = Ok (s_world S') ∧ runs S S' ∧ s_todo S' = s_todo S;
  unregister_runs : ∀ S t, inv S → (MarkReleased, t) ∈ s_todo S →
    ∃ S', unregisterTaskDataAccesses t (s_world S) = Ok (s_world S') ∧ runs S S' ∧ s_todo S' = s_todo S;
  exit_counts : ∀ t x w, w_tasks w !! t = Some x → 0 ≤ t_countdownToBeWokenUp x ≤ 1 →
    ∃ n : nat, (n ≤ 1)%nat ∧
      handleExitTaskwait t w = Ok (put t (set_woken (t_countdownToBeWokenUp x + Z.of_nat n) x) w);
}.

Lemma runs_refl S : runs S S.
Proof. split; try done. intros u x Hx. eauto. Qed.

Lemma runs_trans S1 S2 S3 : runs S1 S2 → runs S2 S3 → runs S1 S3.
Proof.
  intros [A1 A2 A3 A4] [B1 B2 B3 B4]. split; [by etrans|congruence..|].
  intros u x (y & Hy & Hp)%B4. destruct (A4 u y Hy) as (z & Hz & Hq). exists z. split; [done|congruence].
Qed.

Lemma runs_inv S S' : runs S S' → inv S → inv S'.
Proof. intros [Hr _ _ _] Hi. induction Hr; eauto using sys_inv_step. Qed.

Lemma runs_size S S' : runs S S' → (size (w_tasks (s_world S')) ≤ size (w_tasks (s_world S)))%nat.
Proof.
  intros Hr. rewrite <- !size_dom. apply subseteq_size. intros u. rewrite !elem_of_dom. intros [x' Hx'].
  destruct (rn_tasks _ _ Hr u x' Hx') as (x & Hx & _). eauto.
Qed.

Lemma put_same t x w : w_tasks w !! t = Some x → put t (set_woken (t_countdownToBeWokenUp x + 0) x) w = w.
Proof.
  intros Hx. rewrite Z.add_0_r. unfold put. rewrite insert_id by (by destruct x). by destruct w.
Qed.

(** The discrete dependencies keep the promises. *)
Lemma discrete_laws : @TaskDependenciesLaws discreteDependencies.
Proof.
  split.
  - intros S t _ _. exists S. split_and!; [done|apply runs_refl|done].
  - intros S t _ _. exists S. split_and!; [done|apply runs_refl|done].
  - intros t x w Hx _. exists 0%nat. split; [lia|]. simpl. by rewrite put_same.
Qed.

(** ** Steps *)

(** The state [S] with another world and other actions waiting. *)
Definition with_todo (S : sys) (w : world) (l : list action) : sys :=
  mkSys w l (s_mode S) (s_events S) (s_waits S) (s_holds S).

(** The tasks that an action leaves. *)
Lemma perform_tasks a w w' acts :
  perform a w = Ok (w', acts) →
  ∀ u x', w_tasks w' !! u = Some x' → ∃ x, w_tasks w !! u = Some x ∧ t_parent x' = t_parent x.
Proof.
  assert (∀ t (x y : Task) (m : gmap nat Task) u x', m !! t = Some x → t_parent y = t_parent x → <[t := y]> m !! u = Some x' →
    ∃ x0, m !! u = Some x0 ∧ t_parent x' = t_parent x0) as Hput.
  { intros t x y m u x' Hx Hp. rewrite lookup_insert_Some. intros [[<- <-]|[_ Hu]]; eauto. }
  destruct a as [k t]. unfold perform, decreaseRemovalBlockingCount, completeDelayedRelease, increaseRemovalBlockingCount,
    decreaseReleaseCount, markAsReleased, decreaseRemovalBlockingCount, unlinkFromParent, removeChild,
    decreaseRemovalBlockingCount, task. cbn [fst snd]. intros Hp u x' Hx'.
  destruct (w_tasks w !! t) as [x|] eqn:Hx; [|destruct k; simpl in Hp; try done; injection Hp as <- <-; eauto].
  destruct k; cbn [get mbind res_bind] in Hp.
  - destruct (wrap_int _ =? 0); cbn [put w_tasks get mbind res_bind] in Hp;
      [do 2 (rewrite lookup_insert_eq in Hp; cbn [put w_tasks get mbind res_bind] in Hp)|];
      injection Hp as <- <-; simpl in Hx'; rewrite ?insert_insert_eq in Hx'; by eapply (Hput t x); [exact Hx| |exact Hx'].
  - injection Hp as <- <-. by eapply (Hput t x); [exact Hx| |exact Hx'].
  - injection Hp as <- <-. eauto.
  - injection Hp as <- <-. by eapply (Hput t x); [exact Hx| |exact Hx'].
  - destruct (hasFinished x && mustDelayRelease x).
    { cbn [put w_tasks get mbind res_bind] in Hp. rewrite lookup_insert_eq in Hp. injection Hp as <- <-.
      simpl in Hx'. rewrite insert_insert_eq in Hx'. by eapply (Hput t x); [exact Hx| |exact Hx']. }
    destruct (hasFinished x); [|injection Hp as <- <-; eauto].
    destruct (t_parent x) as [p|].
    + destruct (w_tasks w !! p) as [y|] eqn:Hy; [|done]. cbn [get mbind res_bind] in Hp. injection Hp as <- <-.
      simpl in Hx'. apply lookup_delete_Some in Hx' as [_ Hx']. by eapply (Hput p y); [exact Hy| |exact Hx'].
    + cbn [mbind res_bind] in Hp. injection Hp as <- <-. simpl in Hx'. apply lookup_delete_Some in Hx' as [_ Hx']. eauto.
Qed.

(** A last action, done now: the state it leads to and its invariant. *)
Lemma perform_last S l a w acts :
  inv S → s_todo S = l ++ [a] → perform a (s_world S) = Ok (w, acts) →
  runs S (with_todo S w (l ++ acts)) ∧ inv (with_todo S w (l ++ acts)).
Proof.
  intros Hinv Ht Hp. assert (step S (with_todo S w (l ++ acts))) as Hs by (by apply (step_perform S l a [] w acts)).
  split; [|by eapply sys_inv_step]. split; [by apply rtc_once|done..|]. intros u x'. by eapply perform_tasks.
Qed.

(** The accesses of a task are counted again. *)
Lemma hold_runs S t x n :
  inv S → may_hold S t → holds_of S t = 0%nat → (n ≤ 1)%nat → w_tasks (s_world S) !! t = Some x →
  ∃ S', runs S S' ∧ inv S' ∧ s_todo S' = s_todo S ∧
    s_world S' = put t (set_woken (t_countdownToBeWokenUp x + Z.of_nat n) x) (s_world S).
Proof.
  intros Hinv Hm Hh Hn Hx. destruct n as [|[|n]]; [| |lia].
  { exists S. split_and!; [apply runs_refl|done|done|]. simpl. by rewrite put_same. }
  destruct (may_hold_status S t Hinv Hm) as (x' & s & Hx' & Hs & _). rewrite Hx in Hx'. injection Hx' as <-.
  pose proof (blockers_small S t x s Hinv Hs) as Hsm. pose proof (hs_woken _ _ _ Hs) as Hwk. simpl in Hwk.
  set (S' := mkSys (put t (set_woken (t_countdownToBeWokenUp x + 1) x) (s_world S)) (s_todo S) (s_mode S) (s_events S)
    (s_waits S) (<[t := 1%nat]> (s_holds S))).
  assert (step S S') as Hst.
  { pose proof (step_hold S t (s_world S') Hm) as Hstep. rewrite Hh in Hstep. apply Hstep; [lia|].
    rewrite (increase_removal_ok t x) by done. unfold S'. simpl. do 3 f_equal. apply wrap_small. destruct s; simpl in *; lia. }
  exists S'. split_and!; [|by eapply sys_inv_step|done|done]. split; [by apply rtc_once|done..|].
  intros u y. simpl. rewrite lookup_insert_Some. intros [[<- <-]|[_ Hu]]; eauto.
Qed.

Section handlers.
Context `{!TaskDependencies} `{!TaskDependenciesLaws}.

(** ** The release of the dependencies *)

(** A task whose dependencies have been released. *)
Definition past_release (S : sys) (t : nat) : Prop :=
  ∃ x, w_tasks (s_world S) !! t = Some x ∧ hasFinished x = true ∧ mustDelayRelease x = false.

(** Release the dependencies and mark the task as released. *)
Lemma release_runs S l t :
  inv S → s_todo S = l ++ [(Unregister, t)] →
  ∃ S' b, (w ← unregister t (s_world S); markAsReleased t w) = Ok (s_world S', b) ∧
    runs S S' ∧ inv S' ∧ s_todo S' = l ++ next b Dispose t ∧ past_release S' t.
Proof.
  intros Hinv Ht. destruct (perform_last S l _ _ _ Hinv Ht eq_refl) as [Hr1 Hi1].
  set (S1 := with_todo S _ _) in Hr1, Hi1.
  destruct (unregister_runs S1 t Hi1) as (S2 & Hu & Hr2 & Ht2); [apply elem_of_app; right; left|].
  change (s_todo S1) with (l ++ [(MarkReleased, t)]) in Ht2. pose proof (runs_inv _ _ Hr2 Hi1) as Hi2.
  destruct (todo_status S2 l MarkReleased t [] Hi2 Ht2) as (x & s & Hx & Hs & _ & _ & Hk).
  assert (s = SReleased) as -> by (by destruct s).
  unfold unregister. change (record_release t (s_world S)) with (s_world S1). rewrite Hu. cbn [mbind res_bind].
  assert (∃ w b, markAsReleased t (s_world S2) = Ok (w, b) ∧
    w = put t (set_woken (wrap_int (t_countdownToBeWokenUp x - 1)) x) (s_world S2)) as (w & b & Hm & Hw).
  { unfold markAsReleased. rewrite (decrease_ok t x) by done. eauto. }
  destruct (perform_last S2 l (MarkReleased, t) w (next b Dispose t) Hi2 Ht2) as [Hr3 Hi3].
  { unfold perform. cbn [fst snd]. by rewrite Hm. }
  rewrite Hm. exists (with_todo S2 w (l ++ next b Dispose t)), b. split; [done|]. split; [by eapply runs_trans; [|eapply runs_trans]|].
  split; [done|]. split; [done|]. rewrite Hw. eexists. split; [apply lookup_insert_eq|].
  pose proof (hs_finished _ _ _ Hs) as Hf. pose proof (hs_flag _ _ _ Hs) as Hfl. simpl in Hfl.
  rewrite andb_false_r in Hfl. done.
Qed.

(** Drop a count of the release counter, and release the dependencies if it was the last. *)
Lemma decrease_release_runs S l t :
  inv S → s_todo S = l ++ [(DecRelease, t)] →
  ∃ S' b, decreaseReleaseCount t 1 (s_world S) = Ok (s_world S', b) ∧
    runs S S' ∧ inv S' ∧ s_todo S' = l ++ next b Unregister t.
Proof.
  intros Hinv Ht. destruct (todo_status S l DecRelease t [] Hinv Ht) as (x & _ & Hx & _).
  unfold decreaseReleaseCount. rewrite (lookup_task t x) by done. cbn [mbind res_bind]. cbv zeta.
  destruct (perform_last S l (DecRelease, t) (put t (set_release (wrap_int (t_countdownToRelease x - 1)) x) (s_world S))
    (next (wrap_int (t_countdownToRelease x - 1) =? 0) Unregister t) Hinv Ht) as [Hr Hi].
  { unfold perform, decreaseReleaseCount. cbn [fst snd]. by rewrite (lookup_task t x) by done. }
  eexists (with_todo _ _ _), _. split; [reflexivity|]. split_and!; [exact Hr|exact Hi|done].
Qed.

(** The same, as the code composes them: whether the task is disposable. *)
Definition release_if (r : res (world * bool)) (t : nat) : res (world * bool) :=
  r ← r;
  let '(w, can_release) := r in
  if can_release : bool then w ← unregister t w; markAsReleased t w else Ok (w, false).

Lemma release_if_runs S l t b :
  inv S → s_todo S = l ++ next b Unregister t →
  ∃ S' b', release_if (Ok (s_world S, b)) t = Ok (s_world S', b') ∧ runs S S' ∧ inv S' ∧
    s_todo S' = l ++ next b' Dispose t ∧ (b' = true → past_release S' t).
Proof.
  intros Hinv Ht. destruct b.
  - destruct (release_runs S l t Hinv Ht) as (S' & b & H1 & H2 & H3 & H4 & H5). by exists S', b.
  - exists S, false. split_and!; [done|apply runs_refl|done|done|done].
Qed.

(** ** Disposal *)

(** [disposeOrUnblockTask] after the delayed release, with the rest of the walk as [rec]. *)
Definition dispose_rest (rec : nat → world → res world) (t : nat) (parent : option nat) (w : world) : res world :=
  x ← task t w;
  if hasFinished x then
    r ← unlinkFromParent t w;
    let '(w, readyOrDisposable) := r in
    let w := destroy t parent w in
    match parent with
    | Some p => if readyOrDisposable : bool then rec p w else Ok w
    | None => Ok w
    end
  else Ok (addReadyTask t w).

(** The walk succeeds from every task that can be disposed of, in a world of at most [n] tasks. *)
Definition walks (rec : nat → world → res world) (n : nat) : Prop :=
  ∀ S l t, inv S → s_todo S = l ++ [(Dispose, t)] → (size (w_tasks (s_world S)) ≤ n)%nat →
  ∃ S', rec t (s_world S) = Ok (s_world S') ∧ runs S S' ∧ s_todo S' = l.

(** A finished task whose dependencies are released is unlinked and destroyed. *)
Lemma destroy_runs rec n S l t x :
  walks rec n → inv S → s_todo S = l ++ [(Dispose, t)] → (size (w_tasks (s_world S)) ≤ Datatypes.S n)%nat →
  w_tasks (s_world S) !! t = Some x → hasFinished x = true → mustDelayRelease x = false →
  ∃ S', dispose_rest rec t (t_parent x) (s_world S) = Ok (s_world S') ∧ runs S S' ∧ s_todo S' = l.
Proof.
  intros Hrec Hinv Ht Hsz Hx Hfin Hdel.
  assert (∃ w b, unlinkFromParent t (s_world S) = Ok (w, b) ∧
    size (w_tasks w) = size (w_tasks (s_world S)) ∧ is_Some (w_tasks w !! t)) as (w & b & Hun & Hsz' & Hin).
  { unfold unlinkFromParent. rewrite (lookup_task t x) by done. cbn [mbind res_bind].
    destruct (t_parent x) as [p|] eqn:Hpar; [|by eauto 6].
    destruct (parent_status S t x p Hinv Hx Hpar) as (y & _ & Hy & _).
    unfold removeChild, decreaseRemovalBlockingCount. rewrite (lookup_task p y) by done.
    eexists _, _. split; [reflexivity|]. simpl. rewrite map_size_insert_Some by eauto. split; [done|].
    apply lookup_insert_is_Some'. eauto. }
  assert (perform (Dispose, t) (s_world S) = Ok (destroy t (t_parent x) w,
    match t_parent x with Some p => next b Dispose p | None => [] end)) as Hp.
  { unfold perform. cbn [fst snd]. rewrite (lookup_task t x) by done. cbn [mbind res_bind].
    rewrite Hfin, Hdel. cbn [andb]. by rewrite Hun. }
  destruct (perform_last S l _ _ _ Hinv Ht Hp) as [Hr1 Hi1].
  unfold dispose_rest. rewrite (lookup_task t x) by done. cbn [mbind res_bind]. rewrite Hfin, Hun. cbn [mbind res_bind].
  assert (size (w_tasks (destroy t (t_parent x) w)) ≤ n)%nat as Hsz1.
  { simpl. rewrite map_size_delete_Some by done. lia. }
  destruct (t_parent x) as [p|]; [destruct b|]; cbn [next] in *.
  - destruct (Hrec _ l p Hi1 eq_refl Hsz1) as (S' & Hw' & Hr' & Ht'). exists S'. split; [done|].
    split; [by eapply runs_trans|done].
  - eexists (with_todo _ _ _). split; [reflexivity|]. split; [exact Hr1|]. simpl. by rewrite app_nil_r.
  - eexists (with_todo _ _ _). split; [reflexivity|]. split; [exact Hr1|]. simpl. by rewrite app_nil_r.
Qed.

(** The wait flag is reset and the accesses count again: the same as the step, and a hold. *)
Lemma delay_done_runs S l k t x w y :
  inv S → s_todo S = l ++ [(k, t)] →
  perform (k, t) (s_world S) = Ok (w, [(DecRelease, t)]) →
  w = put t (set_woken 1 (set_wait false x)) (s_world S) → holds_of S t = 0%nat →
  w_tasks y = <[t := set_woken 0 x]> (w_tasks (s_world S)) → put t x y = put t x (s_world S) →
  ∃ S', (w ← completeDelayedRelease t y; w ← handleExitTaskwait t w; increaseRemovalBlockingCount t w) = Ok (s_world S') ∧
    runs S S' ∧ inv S' ∧ s_todo S' = l ++ [(DecRelease, t)].
Proof.
  intros Hinv Ht Hp Hw Hh Hy Hyx. destruct (perform_last S l _ _ _ Hinv Ht Hp) as [Hr1 Hi1].
  set (S1 := with_todo S w (l ++ [(DecRelease, t)])) in Hr1, Hi1.
  assert (∀ z, put t z y = put t z (s_world S)) as Hput.
  { intros z. unfold put in *. injection Hyx as H1 H2 H3 H4 H5.
    rewrite H2, H3, H4, H5. f_equal. rewrite Hy, insert_insert_eq. done. }
  unfold completeDelayedRelease. rewrite (lookup_task t (set_woken 0 x)) by (rewrite Hy; apply lookup_insert_eq).
  cbn [mbind res_bind]. rewrite Hput.
  destruct (exit_counts t (set_wait false (set_woken 0 x)) (put t (set_wait false (set_woken 0 x)) (s_world S)))
    as (n & Hn & ->); [simpl; apply lookup_insert_eq|simpl; lia|]. cbn [mbind res_bind].
  rewrite (increase_removal_ok t (set_woken (Z.of_nat n) (set_wait false x))) by (simpl; apply lookup_insert_eq).
  destruct (hold_runs S1 t (set_woken 1 (set_wait false x)) n Hi1) as (S' & Hr2 & Hi2 & Ht2 & Hw2); [| |done| |].
  - right. right. exists DecRelease. split; [done|]. apply elem_of_app. right. left.
  - done.
  - simpl. rewrite Hw. simpl. apply lookup_insert_eq.
  - exists S'. split_and!; [|by eapply runs_trans|done|done]. rewrite Hw2. cbn [S1 with_todo s_world]. rewrite Hw. f_equal.
    unfold put. simpl. rewrite !insert_insert_eq, wrap_small by (simpl; lia). rewrite (Z.add_comm 1). done.
Qed.

(** The delayed release of a task with a wait clause. *)
Lemma delayed_runs S l t x :
  inv S → s_todo S = l ++ [(Dispose, t)] → w_tasks (s_world S) !! t = Some x →
  hasFinished x && mustDelayRelease x = true →
  ∃ S' b, release_if (markAllChildrenAsFinished t (s_world S)) t = Ok (s_world S', b) ∧
    runs S S' ∧ inv S' ∧ s_todo S' = l ++ next b Dispose t ∧ (b = true → past_release S' t).
Proof.
  intros Hinv Ht Hx Hd. destruct (todo_status S l Dispose t [] Hinv Ht) as (x' & s & Hx' & Hs & _ & _ & Hk).
  rewrite Hx in Hx'. injection Hx' as <-. pose proof (hs_woken _ _ _ Hs) as Hwk. pose proof (hs_children _ _ _ Hs) as Hc.
  simpl in Hwk, Hc. assert (self s = 0 ∧ (children t (w_tasks (s_world S)) + holds_of S t)%nat = 0%nat) as [Hself Hz]
    by (by destruct s). assert (t_countdownToBeWokenUp x = 0) as Hzero by lia.
  set (w1 := put t (set_woken 1 (set_wait false x)) (s_world S)).
  assert (perform (Dispose, t) (s_world S) = Ok (w1, [(DecRelease, t)])) as Hp.
  { unfold perform. cbn [fst snd]. rewrite (lookup_task t x) by done. cbn [mbind res_bind]. rewrite Hd.
    unfold completeDelayedRelease, increaseRemovalBlockingCount. rewrite (lookup_task t x) by done. cbn [mbind res_bind].
    rewrite (lookup_task t (set_wait false x)) by (simpl; apply lookup_insert_eq). cbn [mbind res_bind].
    unfold w1, put. simpl. by rewrite insert_insert_eq, Hzero, wrap_small by lia. }
  destruct (delay_done_runs S l Dispose t x w1 (s_world S) Hinv Ht Hp) as (S1 & Hw1 & Hr1 & Hi1 & Ht1);
    [done|lia| |done|].
  { rewrite insert_id; [done|]. rewrite Hx. rewrite <- Hzero. by destruct x. }
  destruct (decrease_release_runs S1 l t Hi1 Ht1) as (S2 & b2 & Hw2 & Hr2 & Hi2 & Ht2).
  destruct (release_if_runs S2 l t b2 Hi2 Ht2) as (S3 & b3 & Hw3 & Hr3 & Hi3 & Ht3 & Hpast).
  assert (markAllChildrenAsFinished t (s_world S) = Ok (s_world S2, b2)) as Hall.
  { unfold markAllChildrenAsFinished. destruct (completeDelayedRelease t (s_world S)) as [wa|]; [|done]. cbn [mbind res_bind] in *.
    destruct (handleExitTaskwait t wa) as [wb|]; [|done]. cbn [mbind res_bind] in *. by rewrite Hw1. }
  rewrite Hall. exists S3, b3. split_and!; try done. by eapply runs_trans; [|eapply runs_trans].
Qed.

Lemma disposeOrUnblockTask_eq fuel t w x :
  w_tasks w !! t = Some x →
  disposeOrUnblockTask (S fuel) t w =
    r ← (if hasFinished x && mustDelayRelease x then release_if (markAllChildrenAsFinished t w) t
         else Ok (w, true));
    let '(w, readyOrDisposable) := r in
    if negb readyOrDisposable then Ok w
    else dispose_rest (disposeOrUnblockTask fuel) t (t_parent x) w.
Proof. intros Hx. cbn [disposeOrUnblockTask]. by rewrite (lookup_task t x) by done. Qed.

Lemma disposeOrUnblockTask_walks fuel : walks (disposeOrUnblockTask fuel) fuel.
Proof.
  induction fuel as [|fuel IH]; intros S l t Hinv Ht Hsz;
    destruct (todo_status S l Dispose t [] Hinv Ht) as (x & s & Hx & _).
  { exfalso. assert (w_tasks (s_world S) = ∅) as He by (apply map_size_empty_inv; lia). by rewrite He in Hx. }
  rewrite (disposeOrUnblockTask_eq fuel t _ x Hx).
  destruct (hasFinished x && mustDelayRelease x) eqn:Hd.
  - destruct (delayed_runs S l t x Hinv Ht Hx Hd) as (S1 & b & -> & Hr1 & Hi1 & Ht1 & Hpast).
    cbn [mbind res_bind]. destruct b; cbn [next negb] in *;
      [|exists S1; split_and!; [done|done|by rewrite Ht1, app_nil_r]].
    destruct (Hpast eq_refl) as (x1 & Hx1 & Hfin & Hdel). destruct (rn_tasks _ _ Hr1 t x1 Hx1) as (x0 & Hx0 & Hpar).
    assert (x0 = x) as -> by congruence. rewrite <- Hpar.
    destruct (destroy_runs (disposeOrUnblockTask fuel) fuel S1 l t x1 IH Hi1 Ht1) as (S2 & Hw2 & Hr2 & Ht2); [|done..|].
    + pose proof (runs_size _ _ Hr1). lia.
    + exists S2. split_and!; [done|by eapply runs_trans|done].
  - cbn [mbind res_bind negb]. destruct (hasFinished x) eqn:Hfin.
    + by apply (destroy_runs _ fuel).
    + unfold dispose_rest. rewrite (lookup_task t x) by done. cbn [mbind res_bind]. rewrite Hfin.
      destruct (perform_last S l (Dispose, t) (addReadyTask t (s_world S)) [] Hinv Ht) as [Hr _].
      { unfold perform. cbn [fst snd]. rewrite (lookup_task t x) by done. cbn [mbind res_bind]. by rewrite Hfin. }
      eexists (with_todo _ _ _). split; [reflexivity|]. split; [exact Hr|]. simpl. by rewrite app_nil_r.
Qed.

(** The tail that the end of a task and the fulfilment of its last event share. *)
Definition dispose_if (fuel : nat) (r : res (world * bool)) (t : nat) : res world :=
  r ← r;
  let '(w, disposable) := r in
  if disposable : bool then disposeOrUnblockTask fuel t w else Ok w.

Lemma release_and_dispose_runs S l t b fuel :
  inv S → s_todo S = l ++ next b Unregister t → (size (w_tasks (s_world S)) ≤ fuel)%nat →
  ∃ S', dispose_if fuel (release_if (Ok (s_world S, b)) t) t = Ok (s_world S') ∧ runs S S' ∧ s_todo S' = l.
Proof.
  intros Hinv Ht Hf. destruct (release_if_runs S l t b Hinv Ht) as (S1 & b' & -> & Hr1 & Hi1 & Ht1 & _).
  unfold dispose_if. cbn [mbind res_bind]. destruct b'; cbn [next] in *.
  - destruct (disposeOrUnblockTask_walks fuel S1 l t Hi1 Ht1) as (S2 & Hw2 & Hr2 & Ht2).
    + pose proof (runs_size _ _ Hr1). lia.
    + exists S2. split_and!; [done|by eapply runs_trans|done].
  - exists S1. split_and!; [done|done|by rewrite Ht1, app_nil_r].
Qed.

Lemma finishTask_eq fuel t w : finishTask fuel t w = dispose_if fuel (release_if (markAsFinished t w) t) t.
Proof.
  unfold finishTask, dispose_if, release_if. destruct (markAsFinished t w) as [[w' []]|e]; [|done..].
  cbn [mbind res_bind]. by destruct (unregister t w').
Qed.

Lemma decrease_event_counter_eq fuel t n w :
  n ≠ 0 → decrease_event_counter fuel t n w = dispose_if fuel (release_if (decreaseReleaseCount t n w) t) t.
Proof.
  intros Hn. unfold decrease_event_counter, dispose_if, release_if. rewrite (proj2 (Z.eqb_neq _ _) Hn).
  destruct (decreaseReleaseCount t n w) as [[w' []]|e]; [|done..]. cbn [mbind res_bind]. by destruct (unregister t w').
Qed.

(** ** The end of a task *)

Lemma runs_steps S S1 S2 : rtc step S S1 → runs S1 S2 → rtc step S S2.
Proof. intros H1 [H2 _ _ _]. by etrans. Qed.

Lemma runs_mode S S' t : runs S S' → mode_of S' t = mode_of S t.
Proof. intros [_ Hm _ _]. unfold mode_of. by rewrite Hm. Qed.

Lemma markAsFinished_runs S t x :
  inv S → w_tasks (s_world S) !! t = Some x →
  mode_of S t = (if t_non_runnable_flag x then Created else Running) →
  ∃ S' b, markAsFinished t (s_world S) = Ok (s_world S', b) ∧ rtc step S S' ∧ inv S' ∧
    s_todo S' = s_todo S ++ next b Unregister t ∧ mode_of S' t = Done ∧
    (size (w_tasks (s_world S')) ≤ size (w_tasks (s_world S)))%nat.
Proof.
  intros Hinv Hx Hm. set (l := s_todo S).
  set (S1 := set_mode t Done S (put t (clear_executor x) (s_world S))
    [(if mustDelayRelease x then EndWait else DecRelease, t)]).
  assert (step S S1) as Hs1 by (eapply (step_finish S t x); [done|done|]; unfold begin_finish; by rewrite (lookup_task t x)).
  pose proof (sys_inv_step _ _ Hinv Hs1) as Hi1. assert (mode_of S1 t = Done) as Hd1 by apply mode_of_set.
  assert (size (w_tasks (s_world S1)) = size (w_tasks (s_world S))) as Hz1 by (simpl; by rewrite map_size_insert_Some by eauto).
  assert (∀ S2, runs S1 S2 → inv S2 → s_todo S2 = l ++ [(DecRelease, t)] →
    ∃ S' b, decreaseReleaseCount t 1 (s_world S2) = Ok (s_world S', b) ∧ rtc step S S' ∧ inv S' ∧
      s_todo S' = l ++ next b Unregister t ∧ mode_of S' t = Done ∧
      (size (w_tasks (s_world S')) ≤ size (w_tasks (s_world S)))%nat) as Hlast.
  { intros S2 Hr2 Hi2 Ht2. destruct (decrease_release_runs S2 l t Hi2 Ht2) as (S3 & b & Hw3 & Hr3 & Hi3 & Ht3).
    pose proof (runs_trans _ _ _ Hr2 Hr3) as Hr. exists S3, b. pose proof (runs_size _ _ Hr).
    split; [done|]. split; [eapply rtc_l; [done|apply Hr]|]. split; [done|]. split; [done|].
    rewrite (runs_mode _ _ t Hr). split; [done|lia]. }
  unfold markAsFinished. rewrite (lookup_task t x) by done. cbn [mbind res_bind].
  change (put t (clear_executor x) (s_world S)) with (s_world S1).
  destruct (mustDelayRelease x) eqn:Hdel; [|by apply Hlast; [apply runs_refl|..]].
  destruct (enter_runs S1 t Hi1) as (S2 & -> & Hr2 & Ht2); [right; apply elem_of_app; right; left|].
  change (s_todo S1) with (l ++ [(EndWait, t)]) in Ht2. pose proof (runs_inv _ _ Hr2 Hi1) as Hi2. cbn [mbind res_bind].
  destruct (todo_status S2 l EndWait t [] Hi2 Ht2) as (y & s & Hy & Hs & _ & _ & Hk). assert (s = SFinishing) as -> by (by destruct s).
  pose proof (blockers_small S2 t y _ Hi2 Hs) as Hsm. pose proof (hs_woken _ _ _ Hs) as Hwk. simpl in Hwk.
  rewrite (decrease_ok t y) by done. cbv zeta. rewrite Hwk, wrap_small by lia. cbn [mbind res_bind].
  replace (1 + Z.of_nat (children t (w_tasks (s_world S2)) + holds_of S2 t) - 1)
    with (Z.of_nat (children t (w_tasks (s_world S2)) + holds_of S2 t)) by lia.
  destruct (Z.eqb_spec (Z.of_nat (children t (w_tasks (s_world S2)) + holds_of S2 t)) 0) as [Hz|Hz]; cbn [negb].
  - assert (perform (EndWait, t) (s_world S2) = Ok (put t (set_woken 1 (set_wait false y)) (s_world S2), [(DecRelease, t)])) as Hp.
    { unfold perform. cbn [fst snd]. rewrite (decrease_ok t y) by done. cbv zeta. rewrite Hwk, wrap_small by lia. cbn [mbind res_bind].
      rewrite (proj2 (Z.eqb_eq _ _)) by lia. unfold completeDelayedRelease, increaseRemovalBlockingCount.
      do 2 (erewrite (lookup_task t) by (simpl; apply lookup_insert_eq); cbn [mbind res_bind]).
      unfold put. simpl. rewrite !insert_insert_eq, Hz. done. }
    destruct (delay_done_runs S2 l EndWait t y _ (put t (set_woken 0 y) (s_world S2)) Hi2 Ht2 Hp)
      as (S3 & Hw3 & Hr3 & Hi3 & Ht3); [done|lia|done|unfold put; simpl; by rewrite insert_insert_eq|].
    rewrite Hz in *. destruct (completeDelayedRelease t (put t (set_woken 0 y) (s_world S2))) as [wa|]; [|done].
    cbn [mbind res_bind] in *. destruct (handleExitTaskwait t wa) as [wb|]; [|done]. cbn [mbind res_bind] in *.
    rewrite Hw3. cbn [mbind res_bind]. apply Hlast; [by eapply runs_trans|done|done].
  - set (w3 := put t _ (s_world S2)).
    destruct (perform_last S2 l (EndWait, t) w3 [] Hi2 Ht2) as [Hr3 Hi3].
    { unfold perform. cbn [fst snd]. rewrite (decrease_ok t y) by done. cbv zeta. rewrite Hwk, wrap_small by lia. cbn [mbind res_bind].
      rewrite (proj2 (Z.eqb_neq _ _)) by lia. unfold w3. do 5 f_equal. lia. }
    pose proof (runs_trans _ _ _ Hr2 Hr3) as Hr. exists (with_todo S2 w3 (l ++ [])), false. pose proof (runs_size _ _ Hr).
    split; [done|]. split; [eapply rtc_l; [done|apply Hr]|]. split; [done|]. split; [done|].
    rewrite (runs_mode _ _ t Hr). split; [done|lia].
Qed.

(** ** Taskwait *)

(** The accesses count again after a taskwait. *)
Lemma exit_runs S t x :
  inv S → mode_of S t = Running → w_tasks (s_world S) !! t = Some x → t_countdownToBeWokenUp x = 1 →
  ∃ S', handleExitTaskwait t (s_world S) = Ok (s_world S') ∧ runs S S' ∧ inv S' ∧ s_todo S' = s_todo S ∧
    children t (w_tasks (s_world S')) = 0%nat.
Proof.
  intros Hinv Hm Hx Hc. destruct (exit_counts t x (s_world S) Hx) as (n & Hn & Hw); [lia|].
  destruct (task_status S t x Hinv Hx) as [s Hs]. destruct (running_status S t x s Hs) as (Hrun & _).
  assert (s = SRunning) as -> by auto. pose proof (hs_woken _ _ _ Hs) as Hwk. simpl in Hwk.
  destruct (hold_runs S t x n Hinv) as (S' & Hr & Hi & Ht & Hs'); [by right; left|lia|done|done|].
  exists S'. rewrite Hw, Hs'. split; [done|]. split; [done|]. split; [done|]. split; [done|].
  simpl. rewrite (children_update t t x) by done. lia.
Qed.

Lemma taskwait_runs S t :
  inv S → mode_of S t = Running →
  ∃ S' blocks, taskwait t (s_world S) = Ok (s_world S', blocks) ∧ rtc step S S' ∧ inv S' ∧ s_todo S' = s_todo S ∧
    mode_of S' t = (if blocks then Blocked else Running) ∧
    (blocks = false → children t (w_tasks (s_world S')) = 0%nat).
Proof.
  intros Hinv Hm. destruct (mode_status S t Hinv) as (x & s & Hx & Hs); [congruence|].
  destruct (running_status S t x s Hs) as (Hrun & _). assert (s = SRunning) as -> by auto. clear Hrun.
  pose proof (hs_woken _ _ _ Hs) as Hwk. simpl in Hwk. unfold taskwait. rewrite (lookup_task t x) by done. cbn [mbind res_bind].
  destruct (doesNotNeedToBlockForChildren x) eqn:Hfast.
  { unfold doesNotNeedToBlockForChildren in Hfast. bool_hyps. exists S, false. split_and!; try done. intros _. lia. }
  destruct (enter_runs S t Hinv) as (S1 & -> & Hr1 & Ht1); [by left|]. pose proof (runs_inv _ _ Hr1 Hinv) as Hi1.
  cbn [mbind res_bind]. pose proof (runs_mode _ _ t Hr1) as Hm1. rewrite Hm in Hm1. clear x Hx Hs Hwk Hfast.
  destruct (mode_status S1 t Hi1) as (x & s & Hx & Hs); [congruence|].
  destruct (running_status S1 t x s Hs) as (Hrun & _). assert (s = SRunning) as -> by auto. clear Hrun.
  pose proof (hs_woken _ _ _ Hs) as Hwk. pose proof (blockers_small S1 t x _ Hi1 Hs) as Hsm. simpl in Hwk.
  unfold markAsBlocked. rewrite (decrease_ok t x) by done. cbv zeta. cbn [mbind res_bind]. rewrite wrap_small by lia.
  destruct (Z.eqb_spec (t_countdownToBeWokenUp x - 1) 0) as [Hz|Hz].
  - set (w2 := put t (set_woken 1 x) (s_world S1)).
    assert (∃ b, markAsUnblocked t (put t (set_woken (t_countdownToBeWokenUp x - 1) x) (s_world S1)) = Ok (w2, b)) as [b Hun].
    { unfold markAsUnblocked. erewrite increase_removal_ok by (simpl; apply lookup_insert_eq). cbn [mbind res_bind].
      unfold task. simpl. rewrite lookup_insert_eq. cbn [get mbind res_bind]. eexists. f_equal. f_equal.
      unfold w2, put. simpl. rewrite insert_insert_eq, wrap_small by lia. replace (t_countdownToBeWokenUp x - 1 + 1) with 1 by lia. done. }
    assert (step S1 (set_mode t Running S1 w2 [])) as Hs2.
    { eapply (step_taskwait S1 t w2 false); [done|]. unfold block, markAsBlocked. rewrite (decrease_ok t x) by done. cbv zeta.
      cbn [mbind res_bind]. rewrite wrap_small, (proj2 (Z.eqb_eq _ _)) by lia. by rewrite Hun. }
    rewrite Hun. cbn [mbind res_bind fst].
    destruct (exit_runs (set_mode t Running S1 w2 []) t (set_woken 1 x)) as (S3 & Hw3 & Hr3 & Hi3 & Ht3 & Hc3).
    + by eapply sys_inv_step.
    + apply mode_of_set.
    + simpl. apply lookup_insert_eq.
    + done.
    + exists S3, false. cbn [set_mode s_world] in Hw3. rewrite Hw3. split; [done|].
      split; [eapply runs_steps; [|exact Hr3]; eapply rtc_r; [apply Hr1|done]|]. split; [done|].
      split; [rewrite Ht3; simpl; by rewrite app_nil_r, Ht1|]. rewrite (runs_mode _ _ t Hr3). split; [apply mode_of_set|done].
  - set (w2 := put t _ (s_world S1)).
    assert (step S1 (set_mode t Blocked S1 w2 [])) as Hs2.
    { eapply (step_taskwait S1 t w2 true); [done|]. unfold block, markAsBlocked. rewrite (decrease_ok t x) by done. cbv zeta.
      cbn [mbind res_bind]. by rewrite wrap_small, (proj2 (Z.eqb_neq _ _)) by lia. }
    exists (set_mode t Blocked S1 w2 []), true. split; [done|]. split; [eapply rtc_r; [apply Hr1|done]|].
    split; [by eapply sys_inv_step|]. split; [simpl; by rewrite app_nil_r|]. split; [apply mode_of_set|done].
Qed.

(** The world once the scheduler has given out the task. *)
Definition taken (w : world) (ready : list nat) : world :=
  mkWorld (w_tasks w) (w_released w) (w_disposed w) ready (w_pendingSpawnedFunctions w).

Lemma taskwait_resumed_runs S t l1 l2 :
  inv S → mode_of S t = Blocked → w_ready (s_world S) = l1 ++ t :: l2 →
  ∃ S', taskwait_resumed t (taken (s_world S) (l1 ++ l2)) = Ok (s_world S') ∧ rtc step S S' ∧ inv S' ∧
    s_todo S' = s_todo S ∧ mode_of S' t = Running ∧ children t (w_tasks (s_world S')) = 0%nat.
Proof.
  intros Hinv Hm Hr. destruct (mode_status S t Hinv) as (x & s & Hx & Hs); [congruence|].
  pose proof (hs_ready _ _ _ Hs) as Hrd. simpl in Hrd.
  rewrite Hr, countb_this_app, countb_this_cons, decide_True in Hrd by done. destruct s; try lia.
  pose proof (hs_woken _ _ _ Hs) as Hwk. pose proof (hs_children _ _ _ Hs) as Hc. simpl in Hwk, Hc.
  unfold taskwait_resumed. destruct (markAsUnblocked t (taken (s_world S) (l1 ++ l2))) as [[w b]|e] eqn:Hun.
  2:{ unfold markAsUnblocked in Hun. rewrite (increase_removal_ok t x) in Hun by done. cbn [mbind res_bind] in Hun.
      unfold task in Hun. simpl in Hun. by rewrite lookup_insert_eq in Hun. }
  pose proof (step_resume S t l1 l2 w b Hm Hr Hun) as Hst. pose proof (sys_inv_step _ _ Hinv Hst) as Hi1.
  pose proof (unblock_ok t x (taken (s_world S) (l1 ++ l2)) _ _ Hx Hun) as Hw.
  destruct (exit_runs (set_mode t Running S w []) t (set_woken 1 x) Hi1) as (S3 & Hw3 & Hr3 & Hi3 & Ht3 & Hc3).
  - apply mode_of_set.
  - simpl. rewrite Hw. simpl. rewrite lookup_insert_eq. rewrite Hwk, Hc, wrap_small by lia. done.
  - done.
  - exists S3. cbn [mbind res_bind fst]. cbn [set_mode s_world] in Hw3. split; [done|].
    split; [by eapply runs_steps; [apply rtc_once|]|]. split; [done|]. split; [rewrite Ht3; simpl; by rewrite app_nil_r|].
    rewrite (runs_mode _ _ t Hr3). split; [apply mode_of_set|done].
Qed.
End handlers.

(** ** Running the protocol *)

(** An executable driver, that takes the steps of a list of events. *)
Inductive event :=
  | EPerform (i : nat)
  | ECreate (t : nat) (parent : option nat) (device wait non_runnable : bool)
  | EStart (t executor : nat)
  | EFinish (t : nat)
  | ETaskwait (t : nat)
  | EResume (t : nat)
  | EHold (t : nat)
  | EUnhold (t : nat)
  | EAddEvents (t n : nat)
  | EFulfil (t n : nat).

Definition can_create (S : sys) (t : nat) (parent : option nat) : bool :=
  bool_decide (w_tasks (s_world S) !! t = None) && bool_decide (t ∉ w_disposed (s_world S)) &&
  (Z.of_nat (size (w_tasks (s_world S))) <? 2 ^ 30) &&
  match parent with
  | None => true
  | Some p =>
      match w_tasks (s_world S) !! p with
      | Some x => bool_decide (mode_of S p = (if t_non_runnable_flag x then Created else Running))
      | None => false
      end
  end.

Definition ok_option {A} (r : res A) : option A := match r with Ok a => Some a | Err _ => None end.

Definition drive (e : event) (S : sys) : option sys :=
  match e with
  | EPerform i =>
      a ← s_todo S !! i;
      r ← ok_option (perform a (s_world S));
      Some (mkSys r.1 (take i (s_todo S) ++ drop (Datatypes.S i) (s_todo S) ++ r.2) (s_mode S) (s_events S) (s_waits S) (s_holds S))
  | ECreate t parent device wait non_runnable =>
      w ← ok_option (createTask t parent device wait non_runnable (s_world S));
      if can_create S t parent
      then Some (mkSys w (s_todo S) (<[t := Created]> (s_mode S)) (<[t := 0%nat]> (s_events S))
                  (if wait then t :: s_waits S else s_waits S) (s_holds S))
      else None
  | EStart t executor =>
      x ← w_tasks (s_world S) !! t;
      w ← ok_option (startTask t executor (s_world S));
      if negb (t_non_runnable_flag x) && bool_decide (mode_of S t = Created)
      then Some (set_mode t Running S w []) else None
  | EFinish t =>
      x ← w_tasks (s_world S) !! t;
      r ← ok_option (begin_finish t (s_world S));
      if bool_decide (mode_of S t = (if t_non_runnable_flag x then Created else Running))
      then Some (set_mode t Done S r.1 r.2) else None
  | ETaskwait t =>
      r ← ok_option (block t (s_world S));
      if bool_decide (mode_of S t = Running)
      then Some (set_mode t (if r.2 : bool then Blocked else Running) S r.1 []) else None
  | EResume t =>
      match w_ready (s_world S) with
      | t' :: ready =>
          r ← ok_option (markAsUnblocked t (mkWorld (w_tasks (s_world S)) (w_released (s_world S))
                (w_disposed (s_world S)) ready (w_pendingSpawnedFunctions (s_world S))));
          if bool_decide (t' = t) && bool_decide (mode_of S t = Blocked)
          then Some (set_mode t Running S r.1 []) else None
      | [] => None
      end
  | EHold t =>
      w ← ok_option (increaseRemovalBlockingCount t (s_world S));
      if (bool_decide (mode_of S t = Created) || bool_decide (mode_of S t = Running)) && (Z.of_nat (holds_of S t) <? 2 ^ 20)
      then Some (mkSys w (s_todo S) (s_mode S) (s_events S) (s_waits S) (<[t := Datatypes.S (holds_of S t)]> (s_holds S)))
      else None
  | EUnhold t =>
      r ← ok_option (decreaseRemovalBlockingCount t (s_world S));
      match holds_of S t with
      | Datatypes.S n =>
          Some (mkSys r.1 (s_todo S ++ next r.2 Dispose t) (s_mode S) (s_events S) (s_waits S) (<[t := n]> (s_holds S)))
      | O => None
      end
  | EAddEvents t n =>
      w ← ok_option (increase_event_counter t (Z.of_nat n) (s_world S));
      if bool_decide (mode_of S t = Running) && (Z.of_nat (events_of S t + n) <? 2 ^ 30)
      then Some (mkSys w (s_todo S) (s_mode S) (<[t := (events_of S t + n)%nat]> (s_events S)) (s_waits S) (s_holds S))
      else None
  | EFulfil t n =>
      r ← ok_option (decreaseReleaseCount t (Z.of_nat n) (s_world S));
      if (0 <? n)%nat && (n <=? events_of S t)%nat
      then Some (mkSys r.1 (s_todo S ++ next r.2 Unregister t) (s_mode S)
                   (<[t := (events_of S t - n)%nat]> (s_events S)) (s_waits S) (s_holds S))
      else None
  end.

Fixpoint drive_all (es : list event) (S : sys) : option sys :=
  match es with [] => Some S | e :: es => S' ← drive e S; drive_all es S' end.

Lemma ok_option_Some {A} (r : res A) a : ok_option r = Some a → r = Ok a.
Proof. destruct r; naive_solver. Qed.

Lemma can_create_spec S t parent :
  can_create S t parent = true →
  w_tasks (s_world S) !! t = None ∧ t ∉ w_disposed (s_world S) ∧
  Z.of_nat (size (w_tasks (s_world S))) < 2 ^ 30 ∧
  ∀ p, parent = Some p → ∃ x, w_tasks (s_world S) !! p = Some x ∧
    mode_of S p = (if t_non_runnable_flag x then Created else Running).
Proof.
  unfold can_create. rewrite !andb_true_iff, !bool_decide_eq_true, Z.ltb_lt. intros (((H1 & H2) & H3) & H4).
  split_and!; try done. intros p ->. destruct (w_tasks (s_world S) !! p) as [x|]; [|done].
  apply bool_decide_eq_true in H4. eauto.
Qed.

Lemma drive_step e S S' : drive e S = Some S' → step S S'.
Proof.
  destruct e; cbn [drive]; intros He.
  6: { destruct (w_ready (s_world S)) as [|t' ready] eqn:Hr; [done|].
    apply bind_Some in He as ([w b] & Hu%ok_option_Some & He). case_match eqn:Hg; [|done]. injection He as <-.
    apply andb_true_iff in Hg as [->%bool_decide_eq_true Hm%bool_decide_eq_true]. by apply (step_resume S t [] ready w b). }
  all: repeat (apply bind_Some in He as (? & ?%ok_option_Some & He)
    || apply bind_Some in He as (? & ? & He)); try (case_match eqn:Hg; try done); injection He as <-;
    rewrite ?andb_true_iff, ?orb_true_iff, ?bool_decide_eq_true, ?negb_true_iff in *.
  - match goal with p : world * _ |- _ => destruct p as [w acts] end. eapply step_perform; [|done].
    symmetry. by apply take_drop_middle.
  - apply can_create_spec in Hg as (? & ? & ? & ?). by eapply step_create.
  - destruct Hg. by eapply step_start.
  - match goal with p : world * _ |- _ => destruct p as [w acts] end. by eapply step_finish.
  - match goal with p : world * _ |- _ => destruct p as [w b] end. by eapply step_taskwait.
  - destruct Hg as [Hm ?%Z.ltb_lt]. eapply step_hold; try done. destruct Hm; [by left|by right; left].
  - match goal with p : world * _ |- _ => destruct p as [w b] end. by eapply step_unhold.
  - destruct Hg as [? ?%Z.ltb_lt]. by eapply step_add_events.
  - match goal with p : world * _ |- _ => destruct p as [w b] end.
    destruct Hg as [?%Nat.ltb_lt ?%Nat.leb_le]. by eapply step_fulfil.
Qed.

Lemma drive_all_reachable es S : drive_all es start = Some S → reachable S.
Proof.
  unfold reachable. generalize start. induction es as [|e es IH]; intros S0; cbn [drive_all].
  - intros [= <-]. apply rtc_refl.
  - intros (S1 & Hd%drive_step & Hr)%bind_Some. eapply rtc_l; eauto.
Qed.
