(* ===== verification/TaskTheorems.v ===== *)
(** * The life of a task: correctness

    Under every interleaving the dependencies of a task are released once, when it has
    finished, its events are fulfilled and, with a wait clause, its children are gone; it is
    destroyed once, after that and after its children; a task in a taskwait is woken up once,
    when its last child is gone; and nothing is left behind when no thread has work to do.  The
    system of dependencies takes part: its accesses may hold a task back, which counts like a
    child, and the handlers are proved for every system that keeps its promises. *)

From S2P Require Import Prelude TaskLifecycle TaskProtocol TaskHandlers.
Local Open Scope Z_scope.

Lemma countb_this_elem t l : t ∈ l → (0 < countb (this t) l)%nat.
Proof.
  intros Ht. destruct (countb (this t) l) eqn:E; [|lia].
  apply (countb_0 _ _ t) in E; [|done]. unfold this in E. by rewrite Nat.eqb_refl in E.
Qed.

Lemma countb_this_NoDup l : (∀ t, (countb (this t) l ≤ 1)%nat) → NoDup l.
Proof.
  induction l as [|t l IH]; intros Hl; constructor.
  - intros Ht%countb_this_elem. specialize (Hl t). rewrite countb_this_cons, decide_True in Hl by done. lia.
  - apply IH. intros t'. specialize (Hl t'). rewrite countb_this_cons in Hl. lia.
Qed.

Lemma acts_on_elem k t l : (k, t) ∈ l → k ∈ acts_on t l.
Proof.
  intros H. unfold acts_on. apply list_elem_of_fmap. exists (k, t). split; [done|].
  by apply list_elem_of_filter.
Qed.

Lemma acts_on_nil t k todo : todo = [] → k ∉ acts_on t todo.
Proof. intros ->. apply not_elem_of_nil. Qed.

(** The status of the task of an action. *)
Lemma action_status S k t :
  inv S → (k, t) ∈ s_todo S →
  ∃ x s, w_tasks (s_world S) !! t = Some x ∧ has_status (view_of S t) x s ∧ acts_of s = [k].
Proof.
  intros Hinv (l1 & l2 & Hl)%list_elem_of_split.
  destruct (todo_status S l1 k t l2 Hinv Hl) as (x & s & Hx & Hs & _ & _ & Hk). by exists x, s.
Qed.

Section theorems.
Implicit Types (S : sys) (t : nat).

(** C6: In every reachable state no task has had its dependencies released twice or has been
    destroyed twice, and every destroyed task had its dependencies released. *)
Theorem released_and_disposed_once S :
  reachable S →
  NoDup (w_released (s_world S)) ∧ NoDup (w_disposed (s_world S)) ∧
  ∀ t, t ∈ w_disposed (s_world S) → t ∈ w_released (s_world S).
Proof.
  intros [Hv _]%reachable_sys_inv.
  assert (∀ t, (countb (this t) (w_released (s_world S)) ≤ 1)%nat ∧
    (countb (this t) (w_disposed (s_world S)) ≤ countb (this t) (w_released (s_world S)))%nat) as Hc.
  { intros t. specialize (Hv t). unfold view_ok in Hv. destruct (v_task (view_of S t)) as [x|].
    - destruct Hv as [s []]. simpl in *. rewrite hs_disposed, hs_released. destruct (released s); lia.
    - destruct Hv as (_ & _ & _ & _ & _ & Hl & Hd & _). simpl in *. lia. }
  split_and!.
  - apply countb_this_NoDup. intros t. apply Hc.
  - apply countb_this_NoDup. intros t. specialize (Hc t). lia.
  - intros t Ht%countb_this_elem. specialize (Hc t).
    destruct (decide (t ∈ w_released (s_world S))) as [|Hn]; [done|].
    apply countb_this_0 in Hn. lia.
Qed.

(** When a thread is about to release the dependencies of a task, the task has finished,
    all its events are fulfilled, its dependencies have not been released before and, if it
    has a wait clause, all its children have been destroyed. *)
Theorem release_is_due S t :
  reachable S → (Unregister, t) ∈ s_todo S →
  mode_of S t = Done ∧ events_of S t = 0%nat ∧ t ∉ w_released (s_world S) ∧
  (t ∈ s_waits S → ∀ c x, w_tasks (s_world S) !! c = Some x → t_parent x ≠ Some t).
Proof.
  intros Hinv%reachable_sys_inv Hin. destruct (action_status S _ t Hinv Hin) as (x & s & Hx & Hs & Hk).
  assert (s = SReleasing) as -> by (by destruct s). destruct Hs; simpl in *.
  split_and!; try done.
  - intros Hr%countb_this_elem. lia.
  - intros Hw c y Hy Hp. rewrite bool_decide_eq_true_2 in hs_wait by done.
    specialize (hs_wait eq_refl eq_refl). rewrite (children_delete t c y), decide_True in hs_wait by done. lia.
Qed.

(** C35: A task blocked in a taskwait is handed to the scheduler only when it has no children
    left and its accesses do not hold it back (so that the assertion at the end of the taskwait
    holds), at most once, and without fail: when nothing holds
    it back it is in the scheduler or a thread is about to put it there. *)
Theorem taskwait_wakes_up S t :
  reachable S → mode_of S t = Blocked →
  (t ∈ w_ready (s_world S) → children t (w_tasks (s_world S)) = 0%nat ∧ holds_of S t = 0%nat ∧
     ∃ x, w_tasks (s_world S) !! t = Some x ∧ canBeWokenUp x = true) ∧
  (countb (this t) (w_ready (s_world S)) ≤ 1)%nat ∧
  (children t (w_tasks (s_world S)) = 0%nat → holds_of S t = 0%nat →
   t ∈ w_ready (s_world S) ∨ (Dispose, t) ∈ s_todo S).
Proof.
  intros Hinv%reachable_sys_inv Hm. destruct (mode_status S t Hinv) as (x & s & Hx & Hs); [congruence|].
  destruct (running_status S t x s Hs) as (_ & _ & Hbl). specialize (Hbl Hm). destruct Hs; simpl in *.
  split_and!.
  - intros Hr%countb_this_elem. destruct s; simpl in *; try (done || lia).
    split_and!; [lia|lia|]. exists x. split; [done|]. apply Z.eqb_eq. lia.
  - destruct s; simpl in *; lia.
  - intros Hc Hh. destruct Hbl as [->|[->| ->]]; simpl in *; [lia|right|left].
    + assert (Dispose ∈ acts_on t (s_todo S)) as Hin by (rewrite hs_acts; left).
      unfold acts_on in Hin. apply list_elem_of_fmap in Hin as ([k t'] & Hk & Hin).
      apply list_elem_of_filter in Hin as [Ht Hin]. simpl in *. by subst.
    + destruct (decide (t ∈ w_ready (s_world S))) as [|Hn]; [done|]. apply countb_this_0 in Hn. lia.
Qed.

(** A thread that is about to destroy a finished task finds that its dependencies have
    been released and that all its children have been destroyed. *)
Theorem disposal_is_due S t x :
  reachable S → (Dispose, t) ∈ s_todo S → w_tasks (s_world S) !! t = Some x →
  hasFinished x = true → mustDelayRelease x = false →
  t ∈ w_released (s_world S) ∧ t_countdownToBeWokenUp x = 0 ∧
  ∀ c y, w_tasks (s_world S) !! c = Some y → t_parent y ≠ Some t.
Proof.
  intros Hinv%reachable_sys_inv Hin Hx Hfin Hfl.
  destruct (action_status S _ t Hinv Hin) as (x' & s & Hx' & Hs & Hk). rewrite Hx in Hx'. injection Hx' as <-.
  assert (s = SDisposable) as ->.
  { destruct Hs. unfold mustDelayRelease in Hfl. destruct s; try done;
      unfold finished_ok in hs_finished; simpl in *; [destruct hs_finished|destruct hs_flag]; congruence. }
  destruct Hs; simpl in *. split_and!.
  - destruct (decide (t ∈ w_released (s_world S))) as [|Hn]; [done|]. apply countb_this_0 in Hn. lia.
  - lia.
  - intros c y Hy Hp. rewrite (children_delete t c y), decide_True in hs_children by done. lia.
Qed.

(** C36: Nothing is left behind: when no thread has anything to do, a task that has finished
    and still exists waits for a child that exists, for an event that is not fulfilled, or for
    its accesses, which hold it back. *)
Theorem finished_tasks_are_not_leaked S t x :
  reachable S → s_todo S = [] → w_tasks (s_world S) !! t = Some x → mode_of S t = Done →
  (0 < events_of S t)%nat ∨ (0 < holds_of S t)%nat ∨
  ∃ c y, w_tasks (s_world S) !! c = Some y ∧ t_parent y = Some t.
Proof.
  intros Hinv%reachable_sys_inv Htodo Hx Hm. destruct (task_status S t x Hinv Hx) as [s Hs].
  destruct Hs; simpl in *. rewrite Htodo in hs_acts. rewrite Hm in hs_mode.
  destruct (decide (children t (w_tasks (s_world S)) = 0%nat)) as [Hc|Hc].
  - rewrite Hc in *. destruct s; simpl in *; (done || lia).
  - right. right. unfold children in Hc.
    destruct (map_choose (filter (λ p : nat * Task, t_parent p.2 = Some t) (w_tasks (s_world S)))) as (c & y & Hy).
    { intros He. rewrite He, map_size_empty in Hc. done. }
    apply map_lookup_filter_Some in Hy as [Hy Hp]. eauto.
Qed.

(** The counters are exact, so that the assertions on them hold: the countdown to be woken
    up counts the children that exist and the accesses that hold the task back, plus one unless the task is blocked, waits for its
    children to release its dependencies, or has released them; the countdown to release
    counts the events, plus one until the end of the execution has been counted. *)
Theorem counters_are_exact S t x :
  reachable S → w_tasks (s_world S) !! t = Some x →
  let ch := Z.of_nat (children t (w_tasks (s_world S)) + holds_of S t) in
  let ev := Z.of_nat (events_of S t) in
  (t_countdownToBeWokenUp x = ch ∨ t_countdownToBeWokenUp x = ch + 1) ∧
  (t_countdownToRelease x = ev ∨ t_countdownToRelease x = ev + 1) ∧
  (mode_of S t = Running ∨ mode_of S t = Created →
   t_countdownToBeWokenUp x = ch + 1 ∧ t_countdownToRelease x = ev + 1) ∧
  (mode_of S t = Blocked → t_countdownToBeWokenUp x = ch).
Proof.
  intros Hinv%reachable_sys_inv Hx. destruct (task_status S t x Hinv Hx) as [s []]. simpl in *.
  rewrite hs_woken, hs_release, hs_mode. destruct s; simpl; split_and!; try lia; naive_solver lia.
Qed.

End theorems.

Section handlers.
Context `{!TaskDependencies} `{!TaskDependenciesLaws}.
Implicit Types (S : sys) (t : nat).

(** C7: The end of a task, run by one thread without interruption, returns: the walk over the
    ancestors ends within as many rounds as there are tasks.  It finishes the task, and what it
    does is a sequence of steps of the protocol that leaves no work behind, for every system of
    dependencies that keeps its promises. *)
Theorem finish_runs_protocol S t x :
  reachable S → w_tasks (s_world S) !! t = Some x →
  mode_of S t = (if t_non_runnable_flag x then Created else Running) →
  ∃ S', finishTask (size (w_tasks (s_world S))) t (s_world S) = Ok (s_world S') ∧
    rtc step S S' ∧ s_todo S' = s_todo S ∧ mode_of S' t = Done.
Proof.
  intros Hinv%reachable_sys_inv Hx Hm.
  destruct (markAsFinished_runs S t x Hinv Hx Hm) as (S1 & b & Hf & Hr & Hi & Ht & Hd & Hsz).
  rewrite finishTask_eq, Hf. destruct (release_and_dispose_runs S1 (s_todo S) t b _ Hi Ht Hsz) as (S2 & -> & Hr2 & Ht2).
  exists S2. split; [done|]. split; [by eapply runs_steps|]. split; [done|]. by rewrite (runs_mode _ _ t Hr2).
Qed.

(** The fulfilment of events of a task, run by one thread without interruption, returns,
    takes that many events from the task, and is a sequence of steps of the protocol that
    leaves no work behind. *)
Theorem fulfil_runs_protocol S t n :
  reachable S → (0 < n ≤ events_of S t)%nat →
  ∃ S', decrease_event_counter (size (w_tasks (s_world S))) t (Z.of_nat n) (s_world S) = Ok (s_world S') ∧
    rtc step S S' ∧ s_todo S' = s_todo S ∧ events_of S' t = (events_of S t - n)%nat.
Proof.
  intros Hinv%reachable_sys_inv Hn. destruct (w_tasks (s_world S) !! t) as [x|] eqn:Hx.
  2:{ destruct Hinv as [Hv _]. specialize (Hv t). unfold view_ok in Hv. simpl in Hv. rewrite Hx in Hv. lia. }
  rewrite decrease_event_counter_eq by lia.
  destruct (decreaseReleaseCount t (Z.of_nat n) (s_world S)) as [[w b]|e] eqn:Hdec.
  2:{ unfold decreaseReleaseCount in Hdec. by rewrite (lookup_task t x) in Hdec by done. }
  pose proof (step_fulfil S t n w b Hn Hdec) as Hs. pose proof (sys_inv_step _ _ Hinv Hs) as Hi.
  match type of Hs with step _ ?s => set (S1 := s) in Hs, Hi end.
  destruct (release_and_dispose_runs S1 (s_todo S) t b (size (w_tasks (s_world S))) Hi eq_refl) as (S2 & Hw2 & Hr2 & Ht2).
  { simpl. unfold decreaseReleaseCount in Hdec. rewrite (lookup_task t x) in Hdec by done.
    injection Hdec as <- _. simpl. by rewrite map_size_insert_Some by eauto. }
  change w with (s_world S1). rewrite Hw2. exists S2. split; [done|].
  split; [eapply rtc_l; [done|apply Hr2]|]. split; [done|].
  unfold events_of. rewrite (rn_events _ _ Hr2). simpl. by rewrite lookup_insert_eq.
Qed.

(** A taskwait of a running task returns: it blocks the task, or leaves it running without
    children; the resumption of the blocked task returns too, and finds no children.  Both are
    sequences of steps of the protocol that leave no work behind. *)
Theorem taskwait_runs_protocol S t :
  reachable S → mode_of S t = Running →
  ∃ S' blocks, taskwait t (s_world S) = Ok (s_world S', blocks) ∧ rtc step S S' ∧ s_todo S' = s_todo S ∧
    mode_of S' t = (if blocks then Blocked else Running) ∧
    (blocks = false → children t (w_tasks (s_world S')) = 0%nat).
Proof.
  intros Hinv%reachable_sys_inv Hm. destruct (taskwait_runs S t Hinv Hm) as (S' & b & ? & ? & _ & ? & ? & ?). by exists S', b.
Qed.

Theorem resume_runs_protocol S t l1 l2 :
  reachable S → mode_of S t = Blocked → w_ready (s_world S) = l1 ++ t :: l2 →
  ∃ S', taskwait_resumed t (taken (s_world S) (l1 ++ l2)) = Ok (s_world S') ∧ rtc step S S' ∧
    s_todo S' = s_todo S ∧ mode_of S' t = Running ∧ children t (w_tasks (s_world S')) = 0%nat.
Proof.
  intros Hinv%reachable_sys_inv Hm Hr.
  destruct (taskwait_resumed_runs S t l1 l2 Hinv Hm Hr) as (S' & ? & ? & _ & ? & ? & ?). by exists S'.
Qed.
End handlers.

(** ** A run *)

(** A spawned function (task 1) creates task 2, with a wait clause, and waits for it; task 2
    creates task 3, whose accesses hold it back and which registers two events; both finish.  A
    thread fulfils an event. *)
Definition sample_events : list event :=
  [ECreate 1 None false false false; EStart 1 0; ECreate 2 (Some 1%nat) false true false;
   ETaskwait 1; EStart 2 1; ECreate 3 (Some 2%nat) false false false; EHold 3; EStart 3 2;
   EAddEvents 3 2; EFinish 2; EPerform 0; EFinish 3; EPerform 0; EFulfil 3 1].

Definition sample_sys : sys := default start (drive_all sample_events start).

(** The same after the last event, after the release of the dependencies of task 3, and after
    the end of task 2, which wakes up task 1. *)
Definition sample_releasing : sys := default start (drive_all [EFulfil 3 1] sample_sys).
Definition sample_disposing : sys := default start (drive_all [EPerform 0; EUnhold 3; EPerform 0] sample_releasing).
Definition sample_woken : sys := default start (drive_all (replicate 7 (EPerform 0)) sample_disposing).

Lemma sample_sys_reachable : reachable sample_sys.
Proof. apply (drive_all_reachable sample_events). vm_compute. reflexivity. Qed.

Lemma sample_releasing_reachable : reachable sample_releasing.
Proof. apply (drive_all_reachable (sample_events ++ [EFulfil 3 1])). vm_compute. reflexivity. Qed.

Lemma sample_disposing_reachable : reachable sample_disposing.
Proof.
  apply (drive_all_reachable (sample_events ++ [EFulfil 3 1; EPerform 0; EUnhold 3; EPerform 0])). vm_compute. reflexivity.
Qed.

Lemma sample_woken_reachable : reachable sample_woken.
Proof.
  apply (drive_all_reachable (sample_events ++ [EFulfil 3 1; EPerform 0; EUnhold 3; EPerform 0] ++ replicate 7 (EPerform 0))).
  vm_compute. reflexivity.
Qed.

Lemma released_and_disposed_once_witness :
  w_released (s_world sample_disposing) = [3%nat] ∧ NoDup (w_released (s_world sample_disposing)).
Proof.
  split; [vm_compute; reflexivity|].
  exact (proj1 (released_and_disposed_once sample_disposing sample_disposing_reachable)).
Defined.

Lemma release_is_due_witness : (Unregister, 3%nat) ∈ s_todo sample_releasing ∧ mode_of sample_releasing 3 = Done.
Proof.
  assert ((Unregister, 3%nat) ∈ s_todo sample_releasing) as H
    by (apply (bool_decide_unpack _); vm_compute; exact I).
  split; [exact H|]. exact (proj1 (release_is_due sample_releasing 3 sample_releasing_reachable H)).
Defined.

Lemma taskwait_wakes_up_witness :
  mode_of sample_woken 1 = Blocked ∧ 1%nat ∈ w_ready (s_world sample_woken) ∧
  children 1 (w_tasks (s_world sample_woken)) = 0%nat.
Proof.
  assert (mode_of sample_woken 1 = Blocked) as H by (vm_compute; reflexivity).
  assert (1%nat ∈ w_ready (s_world sample_woken)) as Hr by (apply (bool_decide_unpack _); vm_compute; exact I).
  split; [exact H|]. split; [exact Hr|]. exact (proj1 (proj1 (taskwait_wakes_up sample_woken 1 sample_woken_reachable H) Hr)).
Defined.

Lemma disposal_is_due_witness : 3%nat ∈ w_released (s_world sample_disposing).
Proof.
  eapply (disposal_is_due sample_disposing 3 _ sample_disposing_reachable).
  - apply (bool_decide_unpack _); vm_compute; exact I.
  - vm_compute. reflexivity.
  - vm_compute. reflexivity.
  - vm_compute. reflexivity.
Defined.

Lemma finished_tasks_are_not_leaked_witness :
  (0 < events_of sample_sys 2)%nat ∨ (0 < holds_of sample_sys 2)%nat ∨
  ∃ c y, w_tasks (s_world sample_sys) !! c = Some y ∧ t_parent y = Some 2%nat.
Proof.
  eapply (finished_tasks_are_not_leaked sample_sys 2 _ sample_sys_reachable); vm_compute; reflexivity.
Defined.

Lemma counters_are_exact_witness :
  ∃ x, w_tasks (s_world sample_sys) !! 1%nat = Some x ∧
    t_countdownToBeWokenUp x = Z.of_nat (children 1 (w_tasks (s_world sample_sys)) + holds_of sample_sys 1).
Proof.
  eexists. split; [vm_compute; reflexivity|].
  eapply (counters_are_exact sample_sys 1 _ sample_sys_reachable); vm_compute; reflexivity.
Defined.

(** The end of task 3, before it registers events: its dependencies are released, and its
    accesses hold it back. *)
Lemma finish_runs_protocol_witness :
  ∃ S S', drive_all (take 8 sample_events) start = Some S ∧
    @finishTask discreteDependencies (size (w_tasks (s_world S))) 3 (s_world S) = Ok (s_world S') ∧ mode_of S' 3 = Done.
Proof.
  set (S := default start (drive_all (take 8 sample_events) start)).
  assert (drive_all (take 8 sample_events) start = Some S) as HS by (vm_compute; reflexivity).
  edestruct (@finish_runs_protocol discreteDependencies discrete_laws S 3) as (S' & H1 & _ & _ & H2).
  - exact (drive_all_reachable _ _ HS).
  - vm_compute. reflexivity.
  - vm_compute. reflexivity.
  - exists S, S'. exact (conj HS (conj H1 H2)).
Defined.

Lemma fulfil_runs_protocol_witness :
  ∃ S', @decrease_event_counter discreteDependencies (size (w_tasks (s_world sample_sys))) 3 (Z.of_nat 1)
          (s_world sample_sys) = Ok (s_world S') ∧ events_of S' 3 = 0%nat.
Proof.
  assert (events_of sample_sys 3 = 1%nat) as He by (vm_compute; reflexivity).
  destruct (@fulfil_runs_protocol discreteDependencies discrete_laws sample_sys 3 1 sample_sys_reachable) as (S' & H1 & _ & _ & H2).
  - rewrite He. lia.
  - exists S'. split; [exact H1|]. rewrite H2, He. reflexivity.
Defined.

Lemma taskwait_runs_protocol_witness :
  ∃ S S' blocks, drive_all (take 3 sample_events) start = Some S ∧
    @taskwait discreteDependencies 1 (s_world S) = Ok (s_world S', blocks) ∧
    mode_of S' 1 = (if blocks then Blocked else Running).
Proof.
  set (S := default start (drive_all (take 3 sample_events) start)).
  assert (drive_all (take 3 sample_events) start = Some S) as HS by (vm_compute; reflexivity).
  edestruct (@taskwait_runs_protocol discreteDependencies discrete_laws S 1) as (S' & b & H1 & _ & _ & H2 & _).
  - exact (drive_all_reachable _ _ HS).
  - vm_compute. reflexivity.
  - exists S, S', b. exact (conj HS (conj H1 H2)).
Defined.

Lemma resume_runs_protocol_witness :
  ∃ S', @taskwait_resumed discreteDependencies 1 (taken (s_world sample_woken) []) = Ok (s_world S') ∧ mode_of S' 1 = Running.
Proof.
  edestruct (@resume_runs_protocol discreteDependencies discrete_laws sample_woken 1 [] []) as (S' & H1 & _ & _ & H2 & _).
  - exact sample_woken_reachable.
  - vm_compute. reflexivity.
  - vm_compute. reflexivity.
  - exists S'. exact (conj H1 H2).
Defined.
