(* ===== verification/CpuManager.v ===== *)
(** * The CPU manager

    [src/executors/threads/CPUManager.hpp] and [CPUManager.cpp]: the numbering of the CPUs the
    process may use and the set of idle ones, over [boost::dynamic_bitset].  The set of idle
    CPUs refines a finite set of virtual CPU identifiers from which the least is taken. *)

From S2P Require Import Prelude Boost.
Local Open Scope nat_scope.

(** The fields of [CPU] that the manager uses. *)
Record CPU := mkCPU {
  cpu_systemCPUId : nat;
  cpu_virtualCPUId : Z;
  cpu_NUMANodeId : nat;
}.

(** [(size_t) ~0UL]: the CPU is not in the mask of the process. *)
Definition no_virtual : Z := word_max - 1.

(** Assignment to an element of a vector; out of bounds is undefined behaviour. *)
Definition vector_set {A} (i : nat) (x : A) (l : list A) : res (list A) :=
  if decide (i < length l) then Ok (<[i := x]> l) else Err Dangling.

Section manager.
Context {B : Type} `{!DynamicBitset B}.

(** The static members; pointers to CPUs are indices into the CPUs of the hardware
    description. *)
Record CPUManager := mkManager {
  m_objects : list CPU;
  m_cpus : list (option nat);
  m_totalCPUs : nat;
  m_idleCPUs : B;
  m_NUMANodeMask : list B;
  m_systemToVirtualCPUId : list Z;
}.

Definition set_idle (s : B) (m : CPUManager) : CPUManager :=
  mkManager (m_objects m) (m_cpus m) (m_totalCPUs m) s (m_NUMANodeMask m) (m_systemToVirtualCPUId m).

(** ** Initialization *)

Definition maxSystemCPUId (cpus : list CPU) : nat :=
  foldl (λ m c, if decide (m < cpu_systemCPUId c) then cpu_systemCPUId c else m) 0 cpus.

(** The CPU is in the mask of the process: it gets the next virtual identifier. *)
Definition enlist (i : nat) (cpu : CPU) (m : CPUManager) : res CPUManager :=
  let v := m_totalCPUs m in
  cpus ← vector_set v (Some i) (m_cpus m);
  mask ← get (m_NUMANodeMask m !! cpu_NUMANodeId cpu);
  masks ← vector_set (cpu_NUMANodeId cpu) (bs_set v true mask) (m_NUMANodeMask m);
  Ok (mkManager (m_objects m) cpus (S v) (m_idleCPUs m) masks (m_systemToVirtualCPUId m)).

(** [cpu->_virtualCPUId = v] and [_systemToVirtualCPUId[cpu->_systemCPUId] = v]. *)
Definition number (i : nat) (cpu : CPU) (v : Z) (m : CPUManager) : res CPUManager :=
  table ← vector_set (cpu_systemCPUId cpu) v (m_systemToVirtualCPUId m);
  Ok (mkManager (<[i := mkCPU (cpu_systemCPUId cpu) v (cpu_NUMANodeId cpu)]> (m_objects m)) (m_cpus m)
        (m_totalCPUs m) (m_idleCPUs m) (m_NUMANodeMask m) table).

Fixpoint preinitialize_loop (processCPUMask : nat → bool) (i : nat) (cpus : list CPU) (m : CPUManager) :
    res CPUManager :=
  match cpus with
  | [] => Ok m
  | cpu :: cpus =>
      if processCPUMask (cpu_systemCPUId cpu) then
        let v := Z.of_nat (m_totalCPUs m) in
        m ← enlist i cpu m;
        m ← number i cpu v m;
        preinitialize_loop processCPUMask (S i) cpus m
      else
        m ← number i cpu no_virtual m;
        preinitialize_loop processCPUMask (S i) cpus m
  end.

(** [CPUManager::preinitialize], with the mask of the process, the number of NUMA nodes and the
    CPUs that the hardware description reports. *)
Definition preinitialize (processCPUMask : nat → bool) (nodes : nat) (cpus : list CPU) : res CPUManager :=
  let n := length cpus in
  preinitialize_loop processCPUMask 0 cpus
    (mkManager cpus (replicate n None) 0 (bs_zero n) (replicate nodes (bs_zero n))
       (replicate (S (maxSystemCPUId cpus)) 0%Z)).

(** [CPUManager::getCPU] *)
Definition getCPU (systemCPUId : nat) (m : CPUManager) : res (option nat) :=
  v ← get (m_systemToVirtualCPUId m !! systemCPUId);
  get (m_cpus m !! Z.to_nat v).

(** ** Idle CPUs *)

Definition cpuBecomesIdle (virtualCPUId : nat) (m : CPUManager) : CPUManager :=
  set_idle (bs_set virtualCPUId true (m_idleCPUs m)) m.

Definition getIdleCPU (m : CPUManager) : CPUManager * option nat :=
  match bs_find_first (m_idleCPUs m) with
  | Some idleCPU => (set_idle (bs_set idleCPU false (m_idleCPUs m)) m, Some idleCPU)
  | None => (m, None)
  end.

(** The loop of [getIdleCPUs], which runs once per idle CPU. *)
Fixpoint getIdleCPUs_loop (fuel : nat) (idleCPU : option nat) (idle : B) (acc : list nat) : res (B * list nat) :=
  match idleCPU with
  | None => Ok (idle, acc)
  | Some i =>
      match fuel with
      | O => Err OutOfFuel
      | S fuel =>
          let idle := bs_set i false idle in
          getIdleCPUs_loop fuel (bs_find_next i idle) idle (acc ++ [i])
      end
  end.

Definition getIdleCPUs (fuel : nat) (m : CPUManager) : res (CPUManager * list nat) :=
  r ← getIdleCPUs_loop fuel (bs_find_first (m_idleCPUs m)) (m_idleCPUs m) [];
  Ok (set_idle r.1 m, r.2).

Definition getIdleNUMANodeCPU (NUMANodeId : nat) (m : CPUManager) : res (CPUManager * option nat) :=
  mask ← get (m_NUMANodeMask m !! NUMANodeId);
  match bs_find_first (bs_and (m_idleCPUs m) mask) with
  | Some idleCPU => Ok (set_idle (bs_set idleCPU false (m_idleCPUs m)) m, Some idleCPU)
  | None => Ok (m, None)
  end.

Definition unidleCPU (virtualCPUId : nat) (m : CPUManager) : CPUManager * bool :=
  if decide (bs_bits (m_idleCPUs m) !! virtualCPUId = Some true)
  then (set_idle (bs_set virtualCPUId false (m_idleCPUs m)) m, true)
  else (m, false).

(** ** The idle CPUs as a set *)

Definition members (bits : list bool) : gset nat :=
  list_to_set (filter (λ i, bits !! i = Some true) (seq 0 (length bits))).

Definition idle_set (m : CPUManager) : gset nat := members (bs_bits (m_idleCPUs m)).
Definition node_set (n : nat) (m : CPUManager) : gset nat :=
  match m_NUMANodeMask m !! n with Some mask => members (bs_bits mask) | None => ∅ end.

(** The least member of a set, if any. *)
Definition least (X : gset nat) (o : option nat) : Prop :=
  match o with
  | Some i => i ∈ X ∧ ∀ j, j ∈ X → i ≤ j
  | None => X = ∅
  end.

Definition without (o : option nat) (X : gset nat) : gset nat :=
  match o with Some i => X ∖ {[i]} | None => X end.

Lemma elem_of_members i bits : i ∈ members bits ↔ bits !! i = Some true.
Proof.
  unfold members. rewrite elem_of_list_to_set, list_elem_of_filter, elem_of_seq. split; [naive_solver|].
  intros Hi. split; [done|]. apply lookup_lt_Some in Hi. lia.
Qed.

Context `{!DynamicBitsetLaws B}.

Lemma members_clear i (s : B) : members (bs_bits (bs_set i false s)) = members (bs_bits s) ∖ {[i]}.
Proof.
  apply set_eq. intros j. rewrite bs_set_law, elem_of_difference, elem_of_singleton, !elem_of_members.
  destruct (decide (j = i)) as [->|Hne].
  - split; [|naive_solver]. intros Hl. destruct (decide (i < length (bs_bits s))).
    + by rewrite list_lookup_insert_eq in Hl.
    + rewrite list_insert_ge in Hl by lia. apply lookup_lt_Some in Hl. lia.
  - rewrite list_lookup_insert_ne by done. naive_solver.
Qed.

Lemma members_set i (s : B) :
  i < length (bs_bits s) → members (bs_bits (bs_set i true s)) = members (bs_bits s) ∪ {[i]}.
Proof.
  intros Hi. apply set_eq. intros j. rewrite bs_set_law, elem_of_union, elem_of_singleton, !elem_of_members.
  destruct (decide (j = i)) as [->|Hne].
  - rewrite list_lookup_insert_eq by done. naive_solver.
  - rewrite list_lookup_insert_ne by done. naive_solver.
Qed.

Lemma members_and (s t : B) :
  members (bs_bits (bs_and s t)) = members (bs_bits s) ∩ members (bs_bits t).
Proof.
  apply set_eq. intros j. rewrite bs_and_law, elem_of_intersection, !elem_of_members, lookup_zip_with_Some.
  split.
  - intros (x & y & Hxy & Hx & Hy). symmetry in Hxy. apply andb_true_iff in Hxy as [-> ->]. done.
  - intros [Hs Ht]. by exists true, true.
Qed.

Lemma first_least (s : B) : least (members (bs_bits s)) (bs_find_first s).
Proof.
  rewrite bs_find_first_law. unfold least. destruct (first_true_from 0 (bs_bits s)) as [i|] eqn:Hf.
  - apply first_true_from_Some in Hf as (_ & Hi & Hlow). rewrite Nat.sub_0_r in Hi.
    split; [by apply elem_of_members|]. intros j Hj%elem_of_members.
    destruct (decide (i ≤ j)) as [|Hlt]; [done|]. specialize (Hlow j ltac:(lia)). rewrite Nat.sub_0_r in Hlow.
    congruence.
  - apply set_eq. intros j. rewrite elem_of_members. split; [|set_solver]. intros Hj.
    by apply first_true_from_None with (k := j) in Hf.
Qed.

(** What the loop of [getIdleCPUs] still has to visit. *)
Lemma getIdleCPUs_loop_spec fuel (it : option nat) idle acc :
  match it with
  | Some i => i ∈ members (bs_bits idle) ∧ ∀ j, j ∈ members (bs_bits idle) → i ≤ j
  | None => members (bs_bits idle) = ∅
  end →
  size (members (bs_bits idle)) ≤ fuel →
  ∃ idle' rest, getIdleCPUs_loop fuel it idle acc = Ok (idle', acc ++ rest) ∧
    members (bs_bits idle') = ∅ ∧ list_to_set rest = members (bs_bits idle) ∧ StronglySorted lt rest.
Proof.
  revert it idle acc. induction fuel as [|fuel IH]; intros [i|] idle acc Hit Hsz; cbn [getIdleCPUs_loop].
  - destruct Hit as [Hi _]. assert (members (bs_bits idle) ≡ ∅) as He by (apply size_empty_inv; lia). set_solver.
  - exists idle, []. rewrite app_nil_r. split_and!; [done|done|by rewrite Hit|constructor].
  - destruct Hit as [Hi Hmin]. set (idle1 := bs_set i false idle).
    assert (members (bs_bits idle1) = members (bs_bits idle) ∖ {[i]}) as Hm1 by apply members_clear.
    destruct (IH (bs_find_next i idle1) idle1 (acc ++ [i])) as (idle' & rest & -> & He & Hr & Hs).
    + rewrite bs_find_next_law. destruct (first_true_from _ _) as [k|] eqn:Hf.
      * apply first_true_from_Some in Hf as (Hk & Hl & Hlow). rewrite lookup_drop in Hl.
        replace (S i + (k - S i)) with k in Hl by lia. split; [by apply elem_of_members|].
        intros j Hj. assert (i < j) as Hij.
        { rewrite Hm1 in Hj. specialize (Hmin j ltac:(set_solver)). assert (j ≠ i) by set_solver. lia. }
        apply elem_of_members in Hj. destruct (decide (k ≤ j)) as [|Hlt]; [done|].
        specialize (Hlow j ltac:(lia)). rewrite lookup_drop in Hlow.
        replace (S i + (j - S i)) with j in Hlow by lia. congruence.
      * apply set_eq. intros j. split; [|set_solver]. intros Hj. exfalso.
        assert (i < j) as Hij.
        { rewrite Hm1 in Hj. specialize (Hmin j ltac:(set_solver)). assert (j ≠ i) by set_solver. lia. }
        apply elem_of_members in Hj. apply first_true_from_None with (k := j - S i) in Hf.
        rewrite lookup_drop in Hf. by replace (S i + (j - S i)) with j in Hf by lia.
    + rewrite Hm1, size_difference, size_singleton by set_solver. lia.
    + exists idle', (i :: rest). rewrite <- app_assoc. split_and!; [done|done| |].
      * simpl. rewrite Hr, Hm1. apply set_eq. intros j. destruct (decide (j = i)); set_solver.
      * constructor; [done|]. apply Forall_forall. intros j Hj.
        assert (j ∈ (list_to_set rest : gset nat)) as Hj' by (by apply elem_of_list_to_set).
        rewrite Hr, Hm1 in Hj'. specialize (Hmin j ltac:(set_solver)). assert (j ≠ i) by set_solver. lia.
  - exists idle, []. rewrite app_nil_r. split_and!; [done|done|by rewrite Hit|constructor].
Qed.

(** The bitset of idle CPUs behaves as a set of virtual CPU identifiers: a CPU that becomes
    idle is added; the CPU handed out is the least one (of a NUMA node, if asked so) and is
    removed; asking for all of them returns each once, in order, and leaves none; taking a
    given CPU succeeds exactly when it is idle. *)
Theorem idle_cpus_are_a_set m :
  (∀ v, v < length (bs_bits (m_idleCPUs m)) → idle_set (cpuBecomesIdle v m) = idle_set m ∪ {[v]}) ∧
  (let r := getIdleCPU m in least (idle_set m) r.2 ∧ idle_set r.1 = without r.2 (idle_set m)) ∧
  (∀ fuel, size (idle_set m) ≤ fuel →
   ∃ m' l, getIdleCPUs fuel m = Ok (m', l) ∧ list_to_set l = idle_set m ∧ StronglySorted lt l ∧
     idle_set m' = ∅) ∧
  (∀ n, n < length (m_NUMANodeMask m) →
   ∃ m' o, getIdleNUMANodeCPU n m = Ok (m', o) ∧ least (idle_set m ∩ node_set n m) o ∧
     idle_set m' = without o (idle_set m)) ∧
  (∀ v, let r := unidleCPU v m in
   (r.2 = true ↔ v ∈ idle_set m) ∧ idle_set r.1 = idle_set m ∖ {[v]}).
Proof.
  split_and!.
  - intros v Hv. by apply members_set.
  - unfold getIdleCPU, idle_set. pose proof (first_least (m_idleCPUs m)) as Hl.
    destruct (bs_find_first (m_idleCPUs m)) as [i|]; simpl; [|done]. split; [done|]. apply members_clear.
  - intros fuel Hf. unfold getIdleCPUs.
    destruct (getIdleCPUs_loop_spec fuel (bs_find_first (m_idleCPUs m)) (m_idleCPUs m) []) as (s & l & -> & He & Hl & Hs);
      [apply first_least|done|]. by eexists _, _.
  - intros n [mask Hm]%lookup_lt_is_Some_2. unfold getIdleNUMANodeCPU, node_set, idle_set. rewrite Hm. simpl.
    pose proof (first_least (bs_and (m_idleCPUs m) mask)) as Hl. rewrite members_and in Hl.
    destruct (bs_find_first (bs_and (m_idleCPUs m) mask)) as [i|]; eexists _, _; split_and!; try done.
    apply members_clear.
  - intros v. unfold unidleCPU, idle_set. rewrite elem_of_members. case_decide as Hv; simpl.
    + split; [done|]. apply members_clear.
    + split; [naive_solver|]. rewrite <- elem_of_members in Hv. set_solver.
Qed.

(** ** The numbering *)

Section numbering.
Context (processCPUMask : nat → bool) (nodes : nat) (cpus : list CPU).

Definition usable (c : CPU) : bool := processCPUMask (cpu_systemCPUId c).

(** How many usable CPUs there are before the [i]-th one: its virtual identifier. *)
Definition rank (i : nat) : nat := countb usable (take i cpus).

Definition virtual_id (i : nat) (c : CPU) : Z := if usable c then Z.of_nat (rank i) else no_virtual.

Lemma rank_S i c : cpus !! i = Some c → rank (S i) = rank i + (if usable c then 1 else 0).
Proof.
  intros Hc. unfold rank. rewrite (take_S_r _ _ _ Hc), countb_app, countb_cons. change (countb _ []) with 0. lia.
Qed.

Lemma rank_le i j : i ≤ j → rank i ≤ rank j.
Proof.
  intros Hij. unfold rank. rewrite <- (take_drop i (take j cpus)), take_take, countb_app.
  replace (i `min` j) with i by lia. lia.
Qed.

Lemma rank_lt i j c : cpus !! i = Some c → usable c = true → i < j → rank i < rank j.
Proof. intros Hc Hu Hij. pose proof (rank_S i c Hc) as Hr. rewrite Hu in Hr. pose proof (rank_le (S i) j Hij). lia. Qed.

Lemma rank_bound i c : cpus !! i = Some c → rank i < length cpus.
Proof.
  intros Hc. apply lookup_lt_Some in Hc. unfold rank.
  pose proof (countb_le usable (take i cpus)) as Hle. rewrite length_take in Hle. lia.
Qed.

(** What the loop has established after the first [i] CPUs. *)
Record numbered (i : nat) (m : CPUManager) : Prop := {
  nu_total : m_totalCPUs m = rank i;
  nu_idle : m_idleCPUs m = bs_zero (length cpus);
  nu_cpus_length : length (m_cpus m) = length cpus;
  nu_cpus : ∀ j c, j < i → cpus !! j = Some c → usable c = true → m_cpus m !! rank j = Some (Some j);
  nu_objects : ∀ j c, j < i → cpus !! j = Some c →
    m_objects m !! j = Some (mkCPU (cpu_systemCPUId c) (virtual_id j c) (cpu_NUMANodeId c));
  nu_objects_length : length (m_objects m) = length cpus;
  nu_table_length : length (m_systemToVirtualCPUId m) = S (maxSystemCPUId cpus);
  nu_table : ∀ j c, j < i → cpus !! j = Some c →
    m_systemToVirtualCPUId m !! cpu_systemCPUId c = Some (virtual_id j c);
  nu_masks_length : length (m_NUMANodeMask m) = nodes;
  nu_mask_length : ∀ n mask, m_NUMANodeMask m !! n = Some mask → length (bs_bits mask) = length cpus;
  nu_masks : ∀ n v, v ∈ node_set n m ↔
    ∃ j c, j < i ∧ cpus !! j = Some c ∧ usable c = true ∧ cpu_NUMANodeId c = n ∧ v = rank j;
}.

Context (Hdistinct : ∀ i j c d, cpus !! i = Some c → cpus !! j = Some d →
  cpu_systemCPUId c = cpu_systemCPUId d → i = j).
Context (Hnodes : ∀ c, c ∈ cpus → cpu_NUMANodeId c < nodes).

Lemma maxSystemCPUId_le c l : c ∈ l → cpu_systemCPUId c ≤ maxSystemCPUId l.
Proof.
  unfold maxSystemCPUId. intros Hc.
  assert (∀ l m, m ≤ foldl (λ m c, if decide (m < cpu_systemCPUId c) then cpu_systemCPUId c else m) m l) as Hge.
  { clear. induction l as [|d l IH]; intros m; simpl; [done|]. etrans; [|apply IH]. case_decide; lia. }
  revert Hc. generalize 0. induction l as [|d l IH]; intros m Hc; [by apply not_elem_of_nil in Hc|]. simpl.
  apply elem_of_cons in Hc as [->|Hc]; [|by apply IH]. etrans; [|apply Hge]. case_decide; lia.
Qed.

Lemma vector_set_ok {A} i (x : A) l : i < length l → vector_set i x l = Ok (<[i := x]> l).
Proof. intros Hi. unfold vector_set. by rewrite decide_True. Qed.

(** Numbering one more CPU, once it is in the tables if it is usable. *)
Lemma numbered_number i c m :
  cpus !! i = Some c →
  m_totalCPUs m = rank (S i) → m_idleCPUs m = bs_zero (length cpus) → length (m_cpus m) = length cpus →
  (∀ j c, j < S i → cpus !! j = Some c → usable c = true → m_cpus m !! rank j = Some (Some j)) →
  (∀ j c, j < i → cpus !! j = Some c →
    m_objects m !! j = Some (mkCPU (cpu_systemCPUId c) (virtual_id j c) (cpu_NUMANodeId c))) →
  length (m_objects m) = length cpus → length (m_systemToVirtualCPUId m) = S (maxSystemCPUId cpus) →
  (∀ j c, j < i → cpus !! j = Some c → m_systemToVirtualCPUId m !! cpu_systemCPUId c = Some (virtual_id j c)) →
  length (m_NUMANodeMask m) = nodes →
  (∀ n mask, m_NUMANodeMask m !! n = Some mask → length (bs_bits mask) = length cpus) →
  (∀ n v, v ∈ node_set n m ↔
    ∃ j c, j < S i ∧ cpus !! j = Some c ∧ usable c = true ∧ cpu_NUMANodeId c = n ∧ v = rank j) →
  ∃ m', number i c (virtual_id i c) m = Ok m' ∧ numbered (S i) m'.
Proof.
  intros Hc Ht Hid Hcl Hcp Ho Hol Htl Htb Hml Hmk Hms.
  pose proof (maxSystemCPUId_le c cpus ltac:(by eapply list_elem_of_lookup_2)) as Hmax.
  pose proof (lookup_lt_Some _ _ _ Hc) as Hi.
  unfold number. rewrite vector_set_ok by lia. eexists. split; [reflexivity|].
  split; simpl; try done; rewrite ?length_insert; try done.
  - intros j d Hj Hd. destruct (decide (j = i)) as [->|Hne].
    + rewrite list_lookup_insert_eq by lia. by rewrite Hc in Hd; simplify_eq.
    + rewrite list_lookup_insert_ne by done. apply Ho; [lia|done].
  - intros j d Hj Hd. destruct (decide (j = i)) as [->|Hne].
    + rewrite Hc in Hd. simplify_eq. rewrite list_lookup_insert_eq by lia. done.
    + rewrite list_lookup_insert_ne; [apply Htb; [lia|done]|].
      intros He. apply Hne. symmetry. eapply Hdistinct; eauto.
Qed.

Lemma numbered_step i c m :
  cpus !! i = Some c → numbered i m →
  ∃ m', (if processCPUMask (cpu_systemCPUId c)
         then m' ← enlist i c m; number i c (Z.of_nat (m_totalCPUs m)) m'
         else number i c no_virtual m) = Ok m' ∧ numbered (S i) m'.
Proof.
  intros Hc Hn. pose proof (rank_S i c Hc) as Hr. pose proof (rank_bound i c Hc) as Hb.
  fold (usable c). destruct (usable c) eqn:Hu.
  - destruct Hn as [Ht Hid Hcl Hcp Ho Hol Htl Htb Hml Hmk Hms]. unfold enlist.
    assert (cpu_NUMANodeId c < nodes) as Hnd by (apply Hnodes; by eapply list_elem_of_lookup_2).
    rewrite Ht, vector_set_ok by lia. cbn [mbind res_bind].
    destruct (m_NUMANodeMask m !! cpu_NUMANodeId c) as [mask|] eqn:Hmask; [|apply lookup_ge_None in Hmask; lia].
    cbn [get mbind res_bind]. rewrite vector_set_ok by lia. cbn [mbind res_bind].
    assert (virtual_id i c = Z.of_nat (rank i)) as <- by (unfold virtual_id; by rewrite Hu).
    apply numbered_number; simpl; rewrite ?length_insert; try done; [lia|..].
    + intros j d Hj Hd Hud. destruct (decide (j = i)) as [->|Hne]; [by rewrite list_lookup_insert_eq by lia|].
      rewrite list_lookup_insert_ne; [apply (Hcp j d); [lia|done..]|].
      pose proof (rank_lt j i d Hd Hud ltac:(lia)). lia.
    + intros n mask' Hn. apply list_lookup_insert_Some in Hn as [(<- & <- & _)|[_ Hn]]; [|by eapply Hmk].
      rewrite bs_set_law, length_insert. by eapply Hmk.
    + intros n v. unfold node_set. simpl. destruct (decide (n = cpu_NUMANodeId c)) as [->|Hne].
      * rewrite list_lookup_insert_eq by lia. pose proof (Hms (cpu_NUMANodeId c) v) as Hv.
        unfold node_set in Hv. rewrite Hmask in Hv.
        rewrite members_set by (rewrite (Hmk _ _ Hmask); lia). rewrite elem_of_union, elem_of_singleton, Hv. split.
        -- intros [(j & d & ? & ?)| ->]; [exists j, d; split; [lia|done]|exists i, c; split_and!; (done || lia)].
        -- intros (j & d & Hj & Hd & Hud & Hnj & ->). destruct (decide (j = i)) as [->|]; [by right|left].
           exists j, d. split_and!; (done || lia).
      * rewrite list_lookup_insert_ne by done. pose proof (Hms n v) as Hv. unfold node_set in Hv. rewrite Hv. split.
        -- intros (j & d & ? & ?). exists j, d. split; [lia|done].
        -- intros (j & d & Hj & Hd & Hud & Hnj & ->). exists j, d. split_and!; try done.
           destruct (decide (j = i)) as [->|]; [congruence|lia].
  - destruct Hn as [Ht Hid Hcl Hcp Ho Hol Htl Htb Hml Hmk Hms].
    assert (virtual_id i c = no_virtual) as <- by (unfold virtual_id; by rewrite Hu).
    assert (∀ j d, cpus !! j = Some d → usable d = true → j < S i → j < i) as Hji.
    { intros j d Hd Hud Hj. destruct (decide (j = i)) as [->|]; [congruence|lia]. }
    apply numbered_number; try done; [lia|intros j d Hj Hd Hud; by apply (Hcp j d); eauto|].
    intros n v. rewrite Hms. split; intros (j & d & Hj & Hd & Hud & ?); exists j, d; split_and!; eauto; lia.
Qed.

Lemma preinitialize_loop_numbered rest i m :
  cpus = take i cpus ++ rest → i ≤ length cpus → numbered i m →
  ∃ m', preinitialize_loop processCPUMask i rest m = Ok m' ∧ numbered (length cpus) m'.
Proof.
  revert i m. induction rest as [|c rest IH]; intros i m Hsplit Hi Hn; cbn [preinitialize_loop].
  - exists m. split; [done|]. rewrite app_nil_r in Hsplit. rewrite Hsplit, length_take.
    by replace (i `min` length cpus) with i by lia.
  - assert (cpus !! i = Some c) as Hc.
    { rewrite Hsplit, lookup_app_r, length_take by (rewrite length_take; lia).
      by replace (i - i `min` length cpus) with 0 by lia. }
    destruct (numbered_step i c m Hc Hn) as (m' & Hm' & Hn').
    pose proof (lookup_lt_Some _ _ _ Hc) as Hlt.
    destruct (IH (S i) m') as (m'' & Hm'' & Hn''); [|lia|done|].
    + rewrite (take_S_r _ _ _ Hc), <- app_assoc. done.
    + exists m''. split; [|done]. destruct (processCPUMask (cpu_systemCPUId c)).
      * apply res_bind_ok in Hm' as (m1 & -> & Hm'). cbn [mbind res_bind]. rewrite Hm'. done.
      * by rewrite Hm'.
Qed.

Lemma numbered_start :
  numbered 0 (mkManager cpus (replicate (length cpus) None) 0 (bs_zero (length cpus))
    (replicate nodes (bs_zero (length cpus))) (replicate (S (maxSystemCPUId cpus)) 0%Z)).
Proof.
  split; simpl; rewrite ?length_replicate; try done; try (intros; lia).
  - intros n mask [-> _]%lookup_replicate. by rewrite bs_bits_zero, length_replicate.
  - intros n v. split; [|intros (j & ? & ? & _); lia]. unfold node_set. simpl.
    destruct (replicate nodes _ !! n) as [mask|] eqn:Hm; [|set_solver]. apply lookup_replicate in Hm as [-> _].
    rewrite elem_of_members, bs_bits_zero. intros [? _]%lookup_replicate. done.
Qed.

(** [preinitialize] on CPUs with distinct system identifiers succeeds: the usable CPUs are
    numbered in order without gaps, the table by system identifier finds each of them, the
    mask of a NUMA node holds exactly its usable CPUs, and no CPU is idle.  Looking up a CPU
    of the machine that the process may not use reads the vector of CPUs out of bounds. *)
Theorem preinitialize_numbers_cpus :
  (Z.of_nat (length cpus) < word_max - 1)%Z →
  ∃ m, preinitialize processCPUMask nodes cpus = Ok m ∧
    m_totalCPUs m = countb usable cpus ∧ idle_set m = ∅ ∧
    (∀ i c, cpus !! i = Some c →
       getCPU (cpu_systemCPUId c) m = (if usable c then Ok (Some i) else Err Dangling) ∧
       (usable c = true → rank i < m_totalCPUs m ∧ m_cpus m !! rank i = Some (Some i))) ∧
    (∀ n v, v ∈ node_set n m ↔
       ∃ i c, cpus !! i = Some c ∧ usable c = true ∧ cpu_NUMANodeId c = n ∧ v = rank i).
Proof.
  intros Hsize. unfold preinitialize.
  destruct (preinitialize_loop_numbered cpus 0 _ eq_refl ltac:(lia) numbered_start) as (m & -> & Hn).
  exists m. split; [done|]. destruct Hn. assert (rank (length cpus) = countb usable cpus) as Hall.
  { unfold rank. by rewrite firstn_all. }
  split_and!; [by rewrite nu_total0|..].
  - unfold idle_set. rewrite nu_idle0, bs_bits_zero. apply set_eq. intros v. rewrite elem_of_members.
    split; [|set_solver]. by intros [? _]%lookup_replicate.
  - intros i c Hc. pose proof (lookup_lt_Some _ _ _ Hc) as Hi. unfold getCPU.
    rewrite (nu_table0 i c Hi Hc). cbn [get mbind res_bind]. unfold virtual_id. destruct (usable c) eqn:Hu.
    + rewrite Nat2Z.id, (nu_cpus0 i c Hi Hc Hu). split_and!; [done|]. intros _. split; [|done].
      rewrite nu_total0. by eapply rank_lt.
    + assert (m_cpus m !! Z.to_nat no_virtual = None) as ->; [|done].
      apply lookup_ge_None_2. unfold no_virtual. rewrite nu_cpus_length0. lia.
  - intros n v. rewrite nu_masks0. split.
    + intros (j & c & _ & ?). eauto.
    + intros (j & c & Hc & ?). exists j, c. split; [by eapply lookup_lt_Some|done].
Qed.
End numbering.
End manager.
Arguments CPUManager : clear implicits.

(** Three CPUs on two nodes; the process may use the ones with system identifiers 1 and 4. *)
Definition sample_cpus : list CPU := [mkCPU 1 0 0; mkCPU 3 0 0; mkCPU 4 0 1].
Definition sample_mask (i : nat) : bool := Nat.eqb i 1 || Nat.eqb i 4.

Lemma preinitialize_numbers_cpus_witness :
  ∃ m : CPUManager (list bool), preinitialize sample_mask 2 sample_cpus = Ok m ∧ m_totalCPUs m = 2.
Proof.
  destruct (preinitialize_numbers_cpus (B := list bool) sample_mask 2 sample_cpus) as (m & Hm & Ht & _).
  - intros i j c d Hc Hd He.
    destruct i as [|[|[|i]]], j as [|[|[|j]]]; simplify_eq/=; done.
  - intros c Hc. apply (list_elem_of_lookup_1 sample_cpus) in Hc as [[|[|[|i]]] Hi]; simplify_eq/=; lia.
  - vm_compute. reflexivity.
  - exists m. split; [exact Hm|]. rewrite Ht. vm_compute. reflexivity.
Defined.

Lemma idle_cpus_are_a_set_witness :
  ∃ m l, getIdleCPUs 3 (mkManager [] [None; None; None] 3 [true; false; true] [] []) = Ok (m, l) ∧
    idle_set m = ∅.
Proof.
  destruct (proj1 (proj2 (proj2 (idle_cpus_are_a_set
    (mkManager [] [None; None; None] 3 [true; false; true] [] [])))) 3) as (m & l & H1 & _ & _ & H2).
  - vm_compute. repeat constructor.
  - exists m, l. exact (conj H1 H2).
Defined.
