(* ===== verification/CpuActivation.v ===== *)
(** * The activation of CPUs

    [src/executors/threads/CPUActivation.hpp] and [CPU::initializeIfNeeded]: the status of a CPU
    and the loops of compare-and-exchange with which threads enable it, disable it and check
    it.  The loops interleave freely; every one takes effect at one instant, and the effects
    in order are a walk of the state diagram of [docs/CPUActivationStates.dia], but for one
    transition: the diagram takes a CPU that is being enabled and is disabled to Disabling, the
    code to disabled. *)

From S2P Require Import Prelude.

Inductive activation_status :=
  | uninitialized_status | starting_status | enabled_status
  | enabling_status | disabling_status | disabled_status.

#[export] Instance activation_status_eq_dec : EqDecision activation_status.
Proof. solve_decision. Defined.

(** ** One round of each loop *)

(** What a round does with the status it read: loop again, leave the loop, wait to be resumed,
    or try to change the status. *)
Inductive decision := Again | Leave | Suspend | Exchange (target : activation_status).

(** [CPUActivation::enable]; the assertion is not compiled in. *)
Definition enable (currentStatus : activation_status) : decision :=
  match currentStatus with
  | uninitialized_status => Again
  | starting_status => Again
  | enabled_status => Leave
  | enabling_status => Leave
  | disabling_status => Exchange enabled_status
  | disabled_status => Exchange enabling_status
  end.

(** [CPUActivation::disable] *)
Definition disable (currentStatus : activation_status) : decision :=
  match currentStatus with
  | uninitialized_status => Again
  | starting_status => Again
  | enabled_status => Exchange disabling_status
  | enabling_status => Exchange disabled_status
  | disabling_status => Leave
  | disabled_status => Leave
  end.

(** [CPUActivation::activationCheck] *)
Definition activationCheck (hasPendingShutdown : bool) (currentStatus : activation_status) : decision :=
  match currentStatus with
  | uninitialized_status => Again
  | starting_status => Exchange enabled_status
  | enabled_status => Leave
  | enabling_status => Exchange enabled_status
  | disabling_status => Exchange disabled_status
  | disabled_status => if hasPendingShutdown then Leave else Suspend
  end.

Definition acceptsWork (currentStatus : activation_status) : bool :=
  match currentStatus with
  | starting_status | enabled_status | enabling_status => true
  | uninitialized_status | disabling_status | disabled_status => false
  end.

Definition hasStarted (s : activation_status) : bool := negb (bool_decide (s = starting_status)).
Definition isBeingInitialized (s : activation_status) : bool := bool_decide (s = starting_status).

(** ** Threads *)

Inductive operation := Enable | Disable | Check (hasPendingShutdown : bool).

Definition decide_round (o : operation) : activation_status → decision :=
  match o with Enable => enable | Disable => disable | Check p => activationCheck p end.

(** What a successful exchange does besides: [ThreadManager::resumeIdle],
    [Scheduler::enableComputePlace] and [Scheduler::disableComputePlace]. *)
Inductive effect := ResumeIdle | EnableComputePlace | DisableComputePlace.

#[export] Instance effect_eq_dec : EqDecision effect.
Proof. solve_decision. Defined.

Definition effects (o : operation) (seen : activation_status) : list effect :=
  match o, seen with
  | Enable, disabled_status => [ResumeIdle]
  | Check _, enabling_status => [EnableComputePlace]
  | Check _, disabling_status => [DisableComputePlace]
  | _, _ => []
  end.

(** Where a thread is in its loop. *)
Inductive position := AtRead (o : operation) | AtExchange (o : operation) (seen target : activation_status).

Record cpu := mkCpu {
  c_status : activation_status;
  c_threads : gmap nat position;
  (** The operations that have taken effect, and the effects on the rest of the runtime. *)
  c_log : list (nat * operation);
  c_effects : list effect;
}.

(** [CPU::initializeIfNeeded] *)
Definition initializeIfNeeded (s : cpu) : cpu * bool :=
  if decide (c_status s = uninitialized_status)
  then (mkCpu starting_status (c_threads s) (c_log s) (c_effects s), true)
  else (s, false).

(** The loop of [activationCheck] goes on after it has started the CPU. *)
Definition goes_on (o : operation) (seen : activation_status) : bool :=
  match o, seen with Check _, starting_status => true | _, _ => false end.

(** The next atomic operation of a thread. *)
Definition advance (t : nat) (s : cpu) : option cpu :=
  p ← c_threads s !! t;
  match p with
  | AtRead o =>
      match decide_round o (c_status s) with
      | Again => Some s
      | Leave | Suspend => Some (mkCpu (c_status s) (delete t (c_threads s)) (c_log s ++ [(t, o)]) (c_effects s))
      | Exchange target =>
          Some (mkCpu (c_status s) (<[t := AtExchange o (c_status s) target]> (c_threads s)) (c_log s) (c_effects s))
      end
  | AtExchange o seen target =>
      if decide (c_status s = seen)
      then Some (mkCpu target
                   (if goes_on o seen then <[t := AtRead o]> (c_threads s) else delete t (c_threads s))
                   (c_log s ++ [(t, o)]) (c_effects s ++ effects o seen))
      else Some (mkCpu (c_status s) (<[t := AtRead o]> (c_threads s)) (c_log s) (c_effects s))
  end.

Definition call (t : nat) (o : operation) (s : cpu) : cpu :=
  mkCpu (c_status s) (<[t := AtRead o]> (c_threads s)) (c_log s) (c_effects s).

Inductive cpu_step : cpu → cpu → Prop :=
  | cpu_step_call s t o : c_threads s !! t = None → cpu_step s (call t o s)
  | cpu_step_advance s t s' : advance t s = Some s' → cpu_step s s'.

(** A CPU that has been initialized by the runtime or by [enable]. *)
Definition started : cpu := (initializeIfNeeded (mkCpu uninitialized_status ∅ [] [])).1.

(** ** The state diagram *)

(** The transitions of [docs/CPUActivationStates.dia], and the one out of the starting state, which
    the diagram does not have. *)
Definition documented (s : activation_status) (o : operation) : activation_status :=
  match s, o with
  | enabled_status, Disable => disabling_status
  | disabling_status, Enable => enabled_status
  | disabling_status, Check _ => disabled_status
  | disabled_status, Enable => enabling_status
  | enabling_status, Disable => disabling_status
  | enabling_status, Check _ => enabled_status
  | starting_status, Check _ => enabled_status
  | s, _ => s
  end.

(** The transitions that the code makes: all but one are those of the document. *)
Definition diagram (s : activation_status) (o : operation) : activation_status :=
  match s, o with
  | enabling_status, Disable => disabled_status
  | s, o => documented s o
  end.

(** On the way a CPU that is being enabled is disabled. *)
Fixpoint deviates (s : activation_status) (os : list operation) : bool :=
  match os with
  | [] => false
  | o :: os => match s, o with enabling_status, Disable => true | _, _ => deviates (diagram s o) os end
  end.

Lemma documented_diagram s os : deviates s os = false → foldl diagram s os = foldl documented s os.
Proof.
  revert s. induction os as [|o os IH]; intros s Hd; [done|]. cbn [foldl].
  assert (diagram s o = documented s o) as Heq by (by destruct s, o). rewrite <- Heq. apply IH.
  cbn [deviates] in Hd. by destruct s, o.
Qed.

(** The effects of the diagram's transitions that the scheduler sees. *)
Definition told (es : list effect) : list effect := filter (λ e, e ≠ ResumeIdle) es.

Definition scheduler_disabled (s : activation_status) : bool :=
  match s with disabled_status | enabling_status => true | _ => false end.

(** Disable and enable notifications in turn, the first one a disable. *)
Fixpoint alternate (disabled : bool) (es : list effect) : option bool :=
  match es with
  | [] => Some disabled
  | e :: es =>
      if decide (e = if disabled then EnableComputePlace else DisableComputePlace)
      then alternate (negb disabled) es else None
  end.

Lemma alternate_app d es es' : alternate d (es ++ es') = d' ← alternate d es; alternate d' es'.
Proof. revert d. induction es as [|e es IH]; intros d; simpl; [done|]. by case_decide. Qed.

Record cpu_inv (s : cpu) : Prop := {
  ci_status : c_status s = foldl diagram starting_status (c_log s).*2;
  ci_init : c_status s ≠ uninitialized_status;
  ci_exchange : ∀ t o seen target, c_threads s !! t = Some (AtExchange o seen target) →
    decide_round o seen = Exchange target;
  ci_told : alternate false (told (c_effects s)) = Some (scheduler_disabled (c_status s));
}.

Lemma exchange_diagram o seen target :
  seen ≠ uninitialized_status → decide_round o seen = Exchange target → diagram seen o = target.
Proof. destruct o as [| |[]], seen; simpl; congruence. Qed.

Lemma no_change_diagram o s :
  decide_round o s = Leave ∨ decide_round o s = Suspend → diagram s o = s.
Proof. destruct o as [| |[]], s; simpl; naive_solver. Qed.

Lemma told_exchange o seen target :
  decide_round o seen = Exchange target →
  alternate (scheduler_disabled seen) (told (effects o seen)) = Some (scheduler_disabled target).
Proof. destruct o as [| |[]], seen; simpl; intros [= <-]; reflexivity. Qed.

Lemma log_snoc s (x : nat * operation) :
  foldl diagram starting_status (c_log s ++ [x]).*2 =
  diagram (foldl diagram starting_status (c_log s).*2) x.2.
Proof. by rewrite fmap_app, foldl_app. Qed.

Lemma cpu_inv_step s s' : cpu_inv s → cpu_step s s' → cpu_inv s'.
Proof.
  intros Hi Hs. destruct Hs as [s0 t o _|s0 t s1 Ha]; destruct Hi as [Hst Hin Hex Htl].
  - split; simpl; try done. intros t' o' seen target Ht. apply lookup_insert_Some in Ht as [[? ?]|[? Ht]]; [done|].
    by eapply Hex.
  - unfold advance in Ha. destruct (c_threads s0 !! t) as [[o|o seen target]|] eqn:Ht; [..|done]; cbn in Ha.
    + assert (∀ t' o' seen' target', delete t (c_threads s0) !! t' = Some (AtExchange o' seen' target') →
        decide_round o' seen' = Exchange target') as Hdel.
      { intros t' o' seen' target' [_ Ht']%lookup_delete_Some. by eapply Hex. }
      destruct (decide_round o (c_status s0)) as [| | |target] eqn:Hd; injection Ha as <-; [by split|..].
      1,2: split; try done; cbn [c_status c_log]; rewrite log_snoc; simpl; rewrite <- Hst; symmetry; apply no_change_diagram; auto.
      split; simpl; try done.
      intros t' o' seen' target' [[_ ?]|[_ Ht']]%lookup_insert_Some; [by simplify_eq|by eapply Hex].
    + pose proof (Hex t o seen target Ht) as Hd. case_decide as Hs; injection Ha as <-.
      * split; cbn [c_status c_log c_threads c_effects]; rewrite ?log_snoc; simpl; rewrite <- ?Hst.
        -- symmetry. subst. by apply exchange_diagram.
        -- destruct o as [| |[]], seen; simpl in *; congruence.
        -- intros t' o' seen' target' Ht'. destruct (goes_on o seen);
             [apply lookup_insert_Some in Ht' as [[_ ?]|[_ Ht']]; [done|]|apply lookup_delete_Some in Ht' as [_ Ht']];
             by eapply Hex.
        -- unfold told in *. rewrite filter_app, alternate_app, Htl. simpl. subst. by apply told_exchange.
      * split; simpl; try done. intros t' o' seen' target' [[_ ?]|[_ Ht']]%lookup_insert_Some; [done|by eapply Hex].
Qed.

Lemma cpu_inv_started : cpu_inv started.
Proof. by split. Qed.

Lemma cpu_inv_reachable s : rtc cpu_step started s → cpu_inv s.
Proof.
  intros Hs. assert (cpu_inv started) as Hi by apply cpu_inv_started. induction Hs; eauto using cpu_inv_step.
Qed.

(** C27: However the loops of the threads interleave, the status of a CPU is the one that the
    transitions of the code reach by the operations that have taken effect, in the order in which
    they did; and it is the one that the state diagram of the documentation reaches, unless one of
    the operations disabled a CPU that was being enabled. *)
Theorem activation_follows_diagram s :
  rtc cpu_step started s →
  c_status s = foldl diagram starting_status (c_log s).*2 ∧
  (deviates starting_status (c_log s).*2 = false → c_status s = foldl documented starting_status (c_log s).*2).
Proof. intros [Hs _ _ _]%cpu_inv_reachable. split; [done|]. intros Hd. by rewrite <- documented_diagram. Qed.

(** The scheduler is told in turn that a CPU is disabled and that it is enabled, and the last
    it was told is that it is disabled exactly when the CPU is disabled or being enabled. *)
Theorem scheduler_told_in_turn s :
  rtc cpu_step started s →
  alternate false (told (c_effects s)) = Some (scheduler_disabled (c_status s)).
Proof. intros Hs%cpu_inv_reachable. apply Hs. Qed.

(** The CPU starts; one thread disables it while another checks it, which takes two rounds. *)
Definition sample_cpu : cpu :=
  default started (
    s1 ← advance 1 (call 1 (Check false) started); s2 ← advance 1 s1;
    s3 ← advance 2 (call 2 Disable s2); s4 ← advance 2 s3; s5 ← advance 1 s4; advance 1 s5).

Lemma sample_cpu_reachable : rtc cpu_step started sample_cpu.
Proof.
  do 2 (eapply rtc_l; [first [eapply (cpu_step_call _ 1 (Check false)); vm_compute; reflexivity
    |eapply (cpu_step_advance _ 1); vm_compute; reflexivity]|]).
  eapply rtc_l; [eapply (cpu_step_advance _ 1); vm_compute; reflexivity|].
  eapply rtc_l; [eapply (cpu_step_call _ 2 Disable); vm_compute; reflexivity|].
  do 2 (eapply rtc_l; [eapply (cpu_step_advance _ 2); vm_compute; reflexivity|]).
  do 2 (eapply rtc_l; [eapply (cpu_step_advance _ 1); vm_compute; reflexivity|]).
  vm_compute. apply rtc_refl.
Qed.

Lemma activation_follows_diagram_witness :
  c_status sample_cpu = disabled_status ∧
  c_status sample_cpu = foldl diagram starting_status (c_log sample_cpu).*2 ∧
  c_status sample_cpu = foldl documented starting_status (c_log sample_cpu).*2.
Proof.
  destruct (activation_follows_diagram sample_cpu sample_cpu_reachable) as [H1 H2].
  split; [vm_compute; reflexivity|]. split; [exact H1|]. apply H2. vm_compute. reflexivity.
Defined.

(** The transition in which the code and the document differ: a thread enables the disabled CPU of
    the sample and another disables it before the first has been seen. *)
Theorem disable_of_enabling_deviates :
  ∃ s, rtc cpu_step sample_cpu s ∧ c_status s = disabled_status ∧
    foldl documented starting_status (c_log s).*2 = disabling_status.
Proof.
  set (s := default sample_cpu (
    s1 ← advance 1 (call 1 Enable sample_cpu); s2 ← advance 1 s1; s3 ← advance 2 (call 2 Disable s2); advance 2 s3)).
  exists s. split; [|by vm_compute].
  eapply rtc_l; [apply (cpu_step_call _ 1 Enable); by vm_compute|].
  do 2 (eapply rtc_l; [apply (cpu_step_advance _ 1); vm_compute; reflexivity|]).
  eapply rtc_l; [apply (cpu_step_call _ 2 Disable); by vm_compute|].
  do 2 (eapply rtc_l; [apply (cpu_step_advance _ 2); vm_compute; reflexivity|]).
  vm_compute. apply rtc_refl.
Qed.

Lemma scheduler_told_in_turn_witness :
  told (c_effects sample_cpu) = [DisableComputePlace] ∧
  alternate false (told (c_effects sample_cpu)) = Some (scheduler_disabled (c_status sample_cpu)).
Proof.
  split; [vm_compute; reflexivity|]. exact (scheduler_told_in_turn sample_cpu sample_cpu_reachable).
Defined.
