(* ===== verification/Scheduler.v ===== *)
(** * Schedulers: the interface and its clients

    [src/scheduling/SchedulerInterface.hpp] as a class of operations with what each scheduler
    promises, [Scheduler::getReadyTask] of [src/scheduling/Scheduler.cpp] as its client, and
    the interleavings of the threads that add tasks, ask for them and poll for them.  A
    scheduler takes a task with a part that does not hold its lock and a part that does; a
    task handed to a polling thread is written to its slot in a later step. *)

From S2P Require Import Prelude Boost CpuManager.
Local Open Scope nat_scope.

(** ** What the schedulers use of the CPU manager *)

Class IdleCPUs (M : Type) := {
  idle_cpus : M → gset nat;
  idle_valid : nat → M → Prop;
  idle_add : nat → M → M;
  idle_take : M → M * option nat;
}.

Class IdleCPUsLaws (M : Type) `{!IdleCPUs M} := {
  idle_add_law c m : idle_valid c m → idle_cpus (idle_add c m) = idle_cpus m ∪ {[c]};
  idle_take_law m :
    least (idle_cpus m) (idle_take m).2 ∧ idle_cpus (idle_take m).1 = without (idle_take m).2 (idle_cpus m);
}.

#[export] Instance manager_idle {B} `{!DynamicBitset B} : IdleCPUs (CPUManager B) := {|
  idle_cpus := idle_set;
  idle_valid c m := c < length (bs_bits (m_idleCPUs m));
  idle_add := cpuBecomesIdle;
  idle_take := getIdleCPU;
|}.

#[export] Instance manager_idle_laws {B} `{!DynamicBitset B, !DynamicBitsetLaws B} :
  IdleCPUsLaws (CPUManager B).
Proof.
  split.
  - intros c m Hc. by apply members_set.
  - intros m. simpl. unfold getIdleCPU, idle_set. pose proof (first_least (m_idleCPUs m)) as Hl.
    destruct (bs_find_first (m_idleCPUs m)) as [i|]; simpl; [|done]. split; [done|]. apply members_clear.
Qed.

(** ** Data *)

Inductive ReadyTaskHint :=
  | NO_HINT | CHILD_TASK_HINT | SIBLING_TASK_HINT | BUSY_COMPUTE_PLACE_TASK_HINT | UNBLOCKED_TASK_HINT.

#[export] Instance ReadyTaskHint_eq_dec : EqDecision ReadyTaskHint.
Proof. solve_decision. Defined.

(** What does not change in a task: its device, whether it is a taskloop, and what its
    [get_priority] function returns, if it has one. *)
Record attributes := mkAttributes {
  at_device : nat → bool;
  at_taskloop : nat → bool;
  at_get_priority : nat → option Z;
  (** The compute place is a CPU. *)
  at_host : nat → bool;
}.

(** What the threads share besides the scheduler: [_schedulerData] of each CPU, [_task] of each
    polling slot, the priority of each task, and the CPU manager. *)
Record env (M : Type) := mkEnv {
  e_schedulerData : gmap nat nat;
  e_slots : gmap nat nat;
  e_priority : gmap nat Z;
  e_manager : M;
}.
Arguments mkEnv {M}.
Arguments e_schedulerData {M}.
Arguments e_slots {M}.
Arguments e_priority {M}.
Arguments e_manager {M}.

Section env.
Context {M : Type} `{!IdleCPUs M}.
Implicit Types e : env M.

Definition set_schedulerData (cpu : nat) (t : option nat) e : env M :=
  mkEnv (partial_alter (λ _, t) cpu (e_schedulerData e)) (e_slots e) (e_priority e) (e_manager e).
Definition set_slot (p : nat) (t : option nat) e : env M :=
  mkEnv (e_schedulerData e) (partial_alter (λ _, t) p (e_slots e)) (e_priority e) (e_manager e).
Definition set_manager (m : M) e : env M := mkEnv (e_schedulerData e) (e_slots e) (e_priority e) m.

Definition getPriority (t : nat) e : Z := default 0%Z (e_priority e !! t).
Definition setPriority (t : nat) (p : Z) e : env M :=
  mkEnv (e_schedulerData e) (e_slots e) (<[t := p]> (e_priority e)) (e_manager e).

Definition cpuBecomesIdle_env (cpu : nat) e : env M := set_manager (idle_add cpu (e_manager e)) e.
Definition getIdleCPU_env e : env M * option nat :=
  let '(m, c) := idle_take (e_manager e) in (set_manager m e, c).

(** The task of a polling slot, taken out of it: [polling_slot_t::getTask]. *)
Definition getTask (p : nat) e : env M * option nat := (set_slot p None e, e_slots e !! p).

(** [polling_slot_t::setTask], or the exchange the schedulers write out. *)
Definition setTask (p t : nat) e : env M * bool :=
  match e_slots e !! p with None => (set_slot p (Some t) e, true) | Some _ => (e, false) end.

Definition cpu_tasks e : list nat := (map_to_list (e_schedulerData e)).*2.
Definition slot_tasks e : list nat := (map_to_list (e_slots e)).*2.
End env.

(** ** The interface *)

(** Where a task went without the lock: to the slot of the CPU, to a polling thread that still
    has to be told, or nowhere yet. *)
Inductive placement := Placed | Deliver (p : nat) | Pending.

Class SchedulerInterface (M S : Type) := {
  sch_held : S → list nat;
  (** The slots of the threads that poll. *)
  sch_pollers : S → list nat;
  (** [addReadyTask] up to the lock, and from there on: the slot to write the task to, and the
      idle CPU to resume. *)
  sch_addReadyTask_fast : nat → option nat → ReadyTaskHint → S → env M → res (S * env M * placement);
  sch_addReadyTask_locked : nat → ReadyTaskHint → bool → S → env M → res (S * env M * option nat * option nat);
  sch_getReadyTask : nat → bool → S → env M → res (S * env M * option nat);
  sch_getIdleComputePlace : bool → S → env M → env M * option nat;
  sch_disableComputePlace : nat → S → env M → S * env M;
  sch_requestPolling : nat → nat → S → env M → res (S * env M * bool);
  sch_releasePolling : nat → nat → S → env M → S * env M * bool;
  (** What the scheduler keeps true, and the tasks it accepts. *)
  sch_ok : S → env M → Prop;
  sch_supports : nat → Prop;
  (** The priority of a task has been set, for a task whose priority is the second argument. *)
  sch_prepared : nat → option Z → Prop;
}.

(** The tasks in the queues and in the slots of the CPUs. *)
Definition own {M S} `{!SchedulerInterface M S} (s : S) (e : env M) : list nat := sch_held s ++ cpu_tasks e.

(** The slots and the priorities are left alone. *)
Definition framed {M} (e e' : env M) : Prop := e_slots e' = e_slots e ∧ e_priority e' = e_priority e.

(** The slots and the priorities of the other tasks are left alone. *)
Definition framed_but {M} (t : nat) (e e' : env M) : Prop :=
  e_slots e' = e_slots e ∧ ∀ t', t' ≠ t → e_priority e' !! t' = e_priority e !! t'.

Lemma framed_framed_but {M} t (e e' : env M) : framed e e' → framed_but t e e'.
Proof. intros [Hs Hp]. split; [done|]. intros t' _. by rewrite Hp. Qed.

Class SchedulerLaws (M S : Type) `{!SchedulerInterface M S} := {
  law_fast t cpu hint s e :
    sch_ok s e → sch_supports t → t ∉ own s e →
    ∃ s' e' pl, sch_addReadyTask_fast t cpu hint s e = Ok (s', e', pl) ∧ sch_ok s' e' ∧ e_slots e' = e_slots e ∧
      (∀ t', t' ≠ t → e_priority e' !! t' = e_priority e !! t') ∧
      match pl with
      | Placed => own s' e' ≡ₚ t :: own s e ∧ sch_pollers s' = sch_pollers s
      | Deliver p => own s' e' ≡ₚ own s e ∧ sch_pollers s ≡ₚ p :: sch_pollers s'
      | Pending => own s' e' ≡ₚ own s e ∧ sch_pollers s' = sch_pollers s ∧ sch_prepared t (e_priority e' !! t)
      end;
  law_locked t hint doGetIdle s e :
    sch_ok s e → t ∉ own s e → sch_prepared t (e_priority e !! t) →
    ∃ s' e' d c, sch_addReadyTask_locked t hint doGetIdle s e = Ok (s', e', d, c) ∧ sch_ok s' e' ∧
      framed_but t e e' ∧
      match d with
      | Some p => own s' e' ≡ₚ own s e ∧ sch_pollers s ≡ₚ p :: sch_pollers s'
      | None => own s' e' ≡ₚ t :: own s e ∧ sch_pollers s' = sch_pollers s
      end;
  law_get cpu canMarkAsIdle s e :
    sch_ok s e →
    ∃ s' e' o, sch_getReadyTask cpu canMarkAsIdle s e = Ok (s', e', o) ∧ sch_ok s' e' ∧ framed e e' ∧
      sch_pollers s' = sch_pollers s ∧ own s e ≡ₚ option_list o ++ own s' e';
  law_idle force s e e' c :
    sch_ok s e → sch_getIdleComputePlace force s e = (e', c) →
    sch_ok s e' ∧ framed e e' ∧ e_schedulerData e' = e_schedulerData e;
  law_disable cpu s e s' e' :
    sch_ok s e → sch_disableComputePlace cpu s e = (s', e') →
    sch_ok s' e' ∧ framed e e' ∧ sch_pollers s' = sch_pollers s ∧ own s' e' ≡ₚ own s e;
  law_request cpu p s e :
    sch_ok s e → e_slots e !! p = None →
    ∃ s' e' b, sch_requestPolling cpu p s e = Ok (s', e', b) ∧ sch_ok s' e' ∧ e_priority e' = e_priority e ∧
      ((∃ t, b = true ∧ e_slots e' = <[p := t]> (e_slots e) ∧ own s e ≡ₚ t :: own s' e' ∧
          sch_pollers s' = sch_pollers s) ∨
       (b = true ∧ e_slots e' = e_slots e ∧ own s' e' ≡ₚ own s e ∧ sch_pollers s' ≡ₚ p :: sch_pollers s) ∨
       (b = false ∧ e_slots e' = e_slots e ∧ own s' e' ≡ₚ own s e ∧ sch_pollers s' = sch_pollers s));
  law_release cpu p s e s' e' b :
    sch_ok s e → NoDup (sch_pollers s) → sch_releasePolling cpu p s e = (s', e', b) →
    sch_ok s' e' ∧ framed e e' ∧ own s' e' ≡ₚ own s e ∧
    (if b : bool then ∀ q, q ∈ sch_pollers s' ↔ q ∈ sch_pollers s ∧ q ≠ p
     else sch_pollers s' = sch_pollers s ∧ p ∉ sch_pollers s);
  law_slot p t s e : sch_ok s e → sch_ok s (set_slot p t e);
}.

(** [addReadyTask] of a scheduler, run without interruption: the idle CPU to resume. *)
Definition sch_addReadyTask {M S} `{!SchedulerInterface M S} (t : nat) (cpu : option nat) (hint : ReadyTaskHint)
    (doGetIdle : bool) (s : S) (e : env M) : res (S * env M * option nat) :=
  r ← sch_addReadyTask_fast t cpu hint s e;
  let '(s, e, pl) := r in
  match pl with
  | Placed => Ok (s, e, None)
  | Deliver p => Ok (s, (setTask p t e).1, None)
  | Pending =>
      r ← sch_addReadyTask_locked t hint doGetIdle s e;
      let '(s, e, d, c) := r in
      match d with Some p => Ok (s, (setTask p t e).1, None) | None => Ok (s, e, c) end
  end.

(** The default [SchedulerInterface::requestPolling], over the [getReadyTask] of the scheduler, and
    [releasePolling]. *)
Definition default_requestPolling {M S} (getReadyTask : nat → bool → S → env M → res (S * env M * option nat))
    (cpu p : nat) (s : S) (e : env M) : res (S * env M * bool) :=
  r ← getReadyTask cpu true s e;
  let '(s, e, task) := r in
  match task with Some t => Ok (s, (setTask p t e).1, true) | None => Ok (s, e, false) end.

Definition default_releasePolling {M S} (cpu p : nat) (s : S) (e : env M) : S * env M * bool :=
  (s, e, bool_decide (e_slots e !! p = None)).

(** ** Interleavings *)

Record run (M S : Type) := mkRun {
  r_sched : S;
  r_env : env M;
  (** Tasks between the two parts of [addReadyTask], and tasks on their way to a polling slot. *)
  r_adding : list (nat * (ReadyTaskHint * bool));
  r_deliver : list (nat * nat);
  (** The threads in [Scheduler::getReadyTask]: by slot, the CPU and the local variable [task]. *)
  r_polling : gmap nat (nat * option nat);
  r_submitted : list nat;
  r_returned : list nat;
}.
Arguments mkRun {M S}.
Arguments r_sched {M S}.
Arguments r_env {M S}.
Arguments r_adding {M S}.
Arguments r_deliver {M S}.
Arguments r_polling {M S}.
Arguments r_submitted {M S}.
Arguments r_returned {M S}.

Inductive label := Normal | DisableCPU | LeaveDisabled.

Section protocol.
Context {M S : Type} `{!IdleCPUs M, !SchedulerInterface M S}.
Implicit Types (r : run M S) (s : S) (e : env M).

Definition polled (m : gmap nat (nat * option nat)) : list nat := omap snd (map_to_list m).*2.

(** Everywhere a task can be that has been submitted and not returned. *)
Definition places r : list nat :=
  own (r_sched r) (r_env r) ++ slot_tasks (r_env r) ++ (r_adding r).*1 ++ (r_deliver r).*1 ++ polled (r_polling r).

Definition with_sched r s e : run M S :=
  mkRun s e (r_adding r) (r_deliver r) (r_polling r) (r_submitted r) (r_returned r).

(** [Scheduler::getReadyTask] after the loop, when the CPU does not accept work: the slot is
    released and the local variable is assigned the task of the slot. *)
Definition leave_disabled (cpu p : nat) (task : option nat) s e : S * env M * option nat :=
  let '(s, e, _) := sch_releasePolling cpu p s e in
  let '(e, task) := getTask p e in
  (s, e, task).

Inductive sch_step : label → run M S → run M S → Prop :=
  | step_fast r t cpu hint doGetIdle s e pl :
      sch_supports t → t ∉ places r →
      sch_addReadyTask_fast t cpu hint (r_sched r) (r_env r) = Ok (s, e, pl) →
      sch_step Normal r
        (mkRun s e
           (match pl with Pending => r_adding r ++ [(t, (hint, doGetIdle))] | _ => r_adding r end)
           (match pl with Deliver p => r_deliver r ++ [(t, p)] | _ => r_deliver r end)
           (r_polling r) (r_submitted r ++ [t]) (r_returned r))
  | step_locked r l1 t hint doGetIdle l2 s e d c :
      r_adding r = l1 ++ (t, (hint, doGetIdle)) :: l2 →
      sch_addReadyTask_locked t hint doGetIdle (r_sched r) (r_env r) = Ok (s, e, d, c) →
      sch_step Normal r
        (mkRun s e (l1 ++ l2) (match d with Some p => r_deliver r ++ [(t, p)] | None => r_deliver r end)
           (r_polling r) (r_submitted r) (r_returned r))
  | step_deliver r l1 t p l2 :
      r_deliver r = l1 ++ (t, p) :: l2 →
      sch_step Normal r
        (mkRun (r_sched r) (setTask p t (r_env r)).1 (r_adding r) (l1 ++ l2) (r_polling r)
           (r_submitted r) (r_returned r))
  | step_get r cpu canMarkAsIdle s e o :
      sch_getReadyTask cpu canMarkAsIdle (r_sched r) (r_env r) = Ok (s, e, o) →
      sch_step Normal r
        (mkRun s e (r_adding r) (r_deliver r) (r_polling r) (r_submitted r) (r_returned r ++ option_list o))
  | step_idle r force e c :
      sch_getIdleComputePlace force (r_sched r) (r_env r) = (e, c) →
      sch_step Normal r (with_sched r (r_sched r) e)
  | step_request r cpu p s e b :
      r_polling r !! p = None → sch_requestPolling cpu p (r_sched r) (r_env r) = Ok (s, e, b) →
      sch_step Normal r
        (mkRun s e (r_adding r) (r_deliver r)
           (if b : bool then <[p := (cpu, None)]> (r_polling r) else r_polling r) (r_submitted r) (r_returned r))
  | step_poll r p cpu :
      r_polling r !! p = Some (cpu, None) →
      sch_step Normal r
        (mkRun (r_sched r) (getTask p (r_env r)).1 (r_adding r) (r_deliver r)
           (<[p := (cpu, (getTask p (r_env r)).2)]> (r_polling r)) (r_submitted r) (r_returned r))
  | step_leave r p cpu t :
      r_polling r !! p = Some (cpu, Some t) →
      sch_step Normal r
        (mkRun (r_sched r) (r_env r) (r_adding r) (r_deliver r) (delete p (r_polling r)) (r_submitted r)
           (r_returned r ++ [t]))
  | step_disable r cpu s e :
      sch_disableComputePlace cpu (r_sched r) (r_env r) = (s, e) →
      sch_step DisableCPU r (with_sched r s e)
  | step_leave_disabled r p cpu v s e o :
      r_polling r !! p = Some (cpu, v) →
      leave_disabled cpu p v (r_sched r) (r_env r) = (s, e, o) →
      sch_step LeaveDisabled r
        (mkRun s e (r_adding r) (r_deliver r) (delete p (r_polling r)) (r_submitted r)
           (r_returned r ++ option_list o)).

(** The steps with some of the labels. *)
Definition steps_with (ls : list label) : relation (run M S) :=
  rtc (λ r r', ∃ l, l ∈ ls ∧ sch_step l r r').

Definition initial_run s e : run M S := mkRun s e [] [] ∅ [] [].
End protocol.
