(* ===== verification/SchedulerProofs.v ===== *)
(** * Schedulers: no task is lost or given out twice

    Proved once against the interface, for every scheduler that keeps its promises and under
    every interleaving, as long as no CPU is disabled while a thread polls on it. *)

From S2P Require Import Prelude Boost CpuManager Scheduler.
Local Open Scope nat_scope.

Lemma polled_insert (m : gmap nat (nat * option nat)) p v :
  polled (<[p := v]> m) ≡ₚ option_list v.2 ++ polled (delete p m).
Proof. unfold polled. rewrite (vals_insert m p v). simpl. by destruct (v.2). Qed.

Lemma polled_delete (m : gmap nat (nat * option nat)) p v :
  m !! p = Some v → polled m ≡ₚ option_list v.2 ++ polled (delete p m).
Proof. intros Hp. by rewrite <- polled_insert, insert_id. Qed.

(** The task goes to the slot of the CPU if that is empty, or elsewhere. *)
Lemma successor_branch {X} (may : bool) (cpu : option nat) (data : gmap nat nat) (placed : nat → X) (other : X) :
  let branch :=
    match cpu with
    | Some c => if may && bool_decide (data !! c = None) then placed c else other
    | None => other
    end in
  branch = other ∨ ∃ c, data !! c = None ∧ branch = placed c.
Proof.
  simpl. destruct cpu as [c|]; [|by left]. destruct (may && _) eqn:Hc; [right|by left].
  apply andb_true_iff in Hc as [_ Hc%bool_decide_eq_true]. by exists c.
Qed.

Section protocol.
Context {M S : Type} `{!IdleCPUs M, !SchedulerInterface M S, !SchedulerLaws M S}.
Implicit Types (r : run M S) (s : S) (e : env M).

Definition polls r p : Prop := ∃ cpu, r_polling r !! p = Some (cpu, None).

Record sch_inv r : Prop := {
  si_ok : sch_ok (r_sched r) (r_env r);
  si_pollers : NoDup (sch_pollers (r_sched r) ++ (r_deliver r).*2);
  si_waiting : ∀ p, p ∈ sch_pollers (r_sched r) ++ (r_deliver r).*2 →
    e_slots (r_env r) !! p = None ∧ polls r p;
  si_slots : ∀ p t, e_slots (r_env r) !! p = Some t → polls r p;
  si_prepared : ∀ t, t ∈ (r_adding r).*1 → sch_prepared t (e_priority (r_env r) !! t);
  si_places : NoDup (places r);
  si_conserved : r_submitted r ≡ₚ r_returned r ++ places r;
}.

(** A step that keeps the tasks: the places and the returned tasks together gain exactly what
    is submitted. *)
Lemma conserved_step r r' a b :
  sch_inv r → r_submitted r' = r_submitted r ++ a → r_returned r' = r_returned r ++ b →
  a ++ places r ≡ₚ b ++ places r' → NoDup (a ++ places r) →
  NoDup (places r') ∧ r_submitted r' ≡ₚ r_returned r' ++ places r'.
Proof.
  intros Hi Hs Hr Hp Hn. split.
  - rewrite Hp in Hn. by apply NoDup_app in Hn as (_ & _ & Hn).
  - rewrite Hs, Hr. pose proof (si_conserved r Hi) as Hc. solve_perm.
Qed.

Lemma conserved_none r : r_submitted r = r_submitted r ++ [] ∧ r_returned r = r_returned r ++ [].
Proof. by rewrite !app_nil_r. Qed.

(** ** The steps *)

Lemma inv_fast r t cpu hint doGetIdle s e pl :
  sch_inv r → sch_supports t → t ∉ places r →
  sch_addReadyTask_fast t cpu hint (r_sched r) (r_env r) = Ok (s, e, pl) →
  sch_inv (mkRun s e
    (match pl with Pending => r_adding r ++ [(t, (hint, doGetIdle))] | _ => r_adding r end)
    (match pl with Deliver p => r_deliver r ++ [(t, p)] | _ => r_deliver r end)
    (r_polling r) (r_submitted r ++ [t]) (r_returned r)).
Proof.
  intros Hi Hsup Ht Hf. destruct (law_fast t cpu hint (r_sched r) (r_env r) (si_ok r Hi) Hsup)
    as (s' & e' & pl' & Hf' & Hok & Hsl & Hpr & Hpl).
  { intros Hin. apply Ht. unfold places. set_solver. }
  rewrite Hf in Hf'. simplify_eq. set (r' := mkRun _ _ _ _ _ _ _).
  assert (sch_pollers (r_sched r') ++ (r_deliver r').*2 ≡ₚ sch_pollers (r_sched r) ++ (r_deliver r).*2) as Hw.
  { destruct pl' as [|p|]; simpl; [destruct Hpl as [_ ->]|destruct Hpl as [_ Hp]|destruct Hpl as (_ & -> & _)]; try done.
    rewrite fmap_app. csimpl. solve_perm. }
  assert (slot_tasks e' = slot_tasks (r_env r)) as Hst by (unfold slot_tasks; by rewrite Hsl).
  assert ([t] ++ places r ≡ₚ [] ++ places r') as Hpp.
  { unfold places, r'. simpl. rewrite Hst. destruct pl' as [|p|]; simpl; destruct Hpl as [Ho _];
      rewrite ?fmap_app; csimpl; solve_perm. }
  destruct (conserved_step r r' [t] [] Hi) as [Hnd Hc]; simpl; try done; [by rewrite app_nil_r|by constructor; [|apply Hi]|].
  split; try done.
  - rewrite Hw. apply Hi.
  - intros p Hp. rewrite Hw in Hp. cbn [r' r_env]. rewrite Hsl. by apply (si_waiting r Hi).
  - intros p x. cbn [r' r_env]. rewrite Hsl. apply (si_slots r Hi).
  - intros t' Ht'. cbn [r' r_env r_adding] in *.
    assert (t' ∈ (r_adding r).*1 → sch_prepared t' (e_priority e' !! t')) as Hold.
    { intros Hin. rewrite Hpr; [by apply (si_prepared r Hi)|]. intros ->. apply Ht. unfold places. set_solver. }
    destruct pl' as [|p|]; [by auto..|]. rewrite fmap_app in Ht'.
    apply elem_of_app in Ht' as [Ht'|Ht'%list_elem_of_singleton]; [by auto|]. simpl in Ht'. subst. apply Hpl.
Qed.

Lemma inv_locked r l1 t hint doGetIdle l2 s e d c :
  sch_inv r → r_adding r = l1 ++ (t, (hint, doGetIdle)) :: l2 →
  sch_addReadyTask_locked t hint doGetIdle (r_sched r) (r_env r) = Ok (s, e, d, c) →
  sch_inv (mkRun s e (l1 ++ l2) (match d with Some p => r_deliver r ++ [(t, p)] | None => r_deliver r end)
    (r_polling r) (r_submitted r) (r_returned r)).
Proof.
  intros Hi Ha Hf. destruct (law_locked t hint doGetIdle (r_sched r) (r_env r) (si_ok r Hi))
    as (s' & e' & d' & c' & Hf' & Hok & [Hsl Hpr] & Hd).
  { intros Hin. pose proof (si_places r Hi) as Hn. unfold places in Hn.
    apply NoDup_app in Hn as (_ & Hn & _). apply (Hn t Hin). rewrite Ha, fmap_app. set_solver. }
  { apply (si_prepared r Hi). rewrite Ha, fmap_app. set_solver. }
  rewrite Hf in Hf'. simplify_eq. set (r' := mkRun _ _ _ _ _ _ _).
  assert (sch_pollers (r_sched r') ++ (r_deliver r').*2 ≡ₚ sch_pollers (r_sched r) ++ (r_deliver r).*2) as Hw.
  { destruct d' as [p|]; simpl; destruct Hd as [_ Hp]; [|by rewrite Hp]. rewrite fmap_app. csimpl. solve_perm. }
  assert (slot_tasks e' = slot_tasks (r_env r)) as Hst by (unfold slot_tasks; by rewrite Hsl).
  assert ([] ++ places r ≡ₚ [] ++ places r') as Hpp.
  { unfold places, r'. simpl. rewrite Hst, Ha. destruct d' as [p|]; simpl; destruct Hd as [Ho _];
      rewrite ?fmap_app; csimpl; solve_perm. }
  destruct (conserved_step r r' [] [] Hi) as [Hnd Hc]; simpl; rewrite ?app_nil_r; try done; [apply Hi|].
  split; try done.
  - rewrite Hw. apply Hi.
  - intros p Hp. rewrite Hw in Hp. cbn [r' r_env]. rewrite Hsl. by apply (si_waiting r Hi).
  - intros p x. cbn [r' r_env]. rewrite Hsl. apply (si_slots r Hi).
  - intros t' Ht'. cbn [r' r_env r_adding] in *. pose proof (si_places r Hi) as Hn. unfold places in Hn. rewrite Ha in Hn.
    rewrite Hpr; [apply (si_prepared r Hi); rewrite Ha, fmap_app in *; set_solver|]. intros ->.
    apply NoDup_app in Hn as (_ & _ & Hn). apply NoDup_app in Hn as (_ & _ & Hn). apply NoDup_app in Hn as (Hn & _ & _).
    rewrite fmap_app in Hn, Ht'. apply NoDup_app in Hn as (_ & Hn1 & Hn2). csimpl. apply NoDup_cons in Hn2 as [Hn2 _].
    apply elem_of_app in Ht' as [Ht'|Ht']; [by apply (Hn1 t Ht'); left|done].
Qed.

Lemma inv_deliver r l1 t p l2 :
  sch_inv r → r_deliver r = l1 ++ (t, p) :: l2 →
  sch_inv (mkRun (r_sched r) (setTask p t (r_env r)).1 (r_adding r) (l1 ++ l2) (r_polling r)
    (r_submitted r) (r_returned r)).
Proof.
  intros Hi Hd. assert (p ∈ sch_pollers (r_sched r) ++ (r_deliver r).*2) as Hin.
  { rewrite Hd, fmap_app. set_solver. }
  destruct (si_waiting r Hi p Hin) as [Hp Hpoll]. unfold setTask. rewrite Hp. simpl.
  set (r' := mkRun _ _ _ _ _ _ _).
  assert (sch_pollers (r_sched r) ++ (r_deliver r).*2 ≡ₚ p :: sch_pollers (r_sched r) ++ (l1 ++ l2).*2) as Hw.
  { rewrite Hd, !fmap_app. csimpl. solve_perm. }
  pose proof (si_pollers r Hi) as Hn. rewrite Hw in Hn. apply NoDup_cons in Hn as [Hnp Hn].
  assert ([] ++ places r ≡ₚ [] ++ places r') as Hpp.
  { unfold places, r', slot_tasks. simpl. rewrite Hd, !fmap_app.
    pose proof (vals_cell (e_slots (r_env r)) p (Some t)) as Hv. rewrite Hp in Hv. unfold vals in Hv. csimpl in *.
    unfold own, cpu_tasks. simpl. solve_perm. }
  destruct (conserved_step r r' [] [] Hi) as [Hnd Hc]; simpl; rewrite ?app_nil_r; try done; [apply Hi|].
  split; simpl; try done.
  - apply law_slot, Hi.
  - intros q Hq. change (partial_alter _ p _) with (<[p := t]> (e_slots (r_env r))).
    rewrite lookup_insert_ne by (by intros ->). apply (si_waiting r Hi). rewrite Hw. by right.
  - intros q x. change (partial_alter _ p _) with (<[p := t]> (e_slots (r_env r))).
    intros [[<- _]|[_ Hq]]%lookup_insert_Some; [done|]. by eapply (si_slots r Hi).
  - apply Hi.
Qed.

(** A step of the scheduler that leaves the slots and the polling threads alone. *)
Lemma inv_sched r s e b :
  sch_inv r → sch_ok s e → framed (r_env r) e → sch_pollers s = sch_pollers (r_sched r) →
  own (r_sched r) (r_env r) ≡ₚ b ++ own s e →
  sch_inv (mkRun s e (r_adding r) (r_deliver r) (r_polling r) (r_submitted r) (r_returned r ++ b)).
Proof.
  intros Hi Hok [Hsl Hpr] Hpo Ho. set (r' := mkRun _ _ _ _ _ _ _).
  assert ([] ++ places r ≡ₚ b ++ places r') as Hpp.
  { unfold places, r', slot_tasks. simpl. rewrite Hsl. solve_perm. }
  destruct (conserved_step r r' [] b Hi) as [Hnd Hc]; simpl; rewrite ?app_nil_r; try done; [apply Hi|].
  split; simpl; rewrite ?Hpo, ?Hsl, ?Hpr; try done; try apply Hi.
Qed.

Lemma inv_request r cpu p s e b :
  sch_inv r → r_polling r !! p = None → sch_requestPolling cpu p (r_sched r) (r_env r) = Ok (s, e, b) →
  sch_inv (mkRun s e (r_adding r) (r_deliver r)
    (if b : bool then <[p := (cpu, None)]> (r_polling r) else r_polling r) (r_submitted r) (r_returned r)).
Proof.
  intros Hi Hp Hf.
  assert (e_slots (r_env r) !! p = None) as Hsp.
  { destruct (e_slots (r_env r) !! p) eqn:E; [|done]. apply (si_slots r Hi) in E as [? E]. congruence. }
  assert (p ∉ sch_pollers (r_sched r) ++ (r_deliver r).*2) as Hnp.
  { intros Hin. destruct (si_waiting r Hi p Hin) as [_ [? E]]. congruence. }
  destruct (law_request cpu p (r_sched r) (r_env r) (si_ok r Hi) Hsp) as (s' & e' & b' & Hf' & Hok & Hpr & Hcase).
  rewrite Hf in Hf'. simplify_eq. set (r' := mkRun _ _ _ _ _ _ _).
  assert (polled (r_polling r') ≡ₚ polled (r_polling r)) as Hpd.
  { simpl. destruct b'; [|done]. rewrite polled_insert, delete_id by done. done. }
  assert (∀ q, polls r q → polls r' q) as Hkeep.
  { intros q [c Hq]. exists c. simpl. destruct b'; [|done]. by rewrite lookup_insert_ne by congruence. }
  assert (b' = true → polls r' p) as Hnew.
  { intros ->. exists cpu. simpl. apply lookup_insert_eq. }
  assert ([] ++ places r ≡ₚ [] ++ places r') as Hpp.
  { unfold places, slot_tasks. simpl in *. destruct Hcase as [(t & _ & -> & Ho & _)|[(_ & -> & Ho & _)|(_ & -> & Ho & _)]].
    - pose proof (vals_insert_new (e_slots (r_env r)) p t Hsp) as Hv. unfold vals in Hv. solve_perm.
    - solve_perm.
    - solve_perm. }
  destruct (conserved_step r r' [] [] Hi) as [Hnd Hc]; simpl; rewrite ?app_nil_r; try done; [apply Hi|].
  split; simpl; try done.
  - destruct Hcase as [(t & _ & _ & _ & ->)|[(_ & _ & _ & Hpo)|(_ & _ & _ & ->)]]; [apply Hi| |apply Hi].
    rewrite Hpo. simpl. constructor; [done|apply Hi].
  - intros q Hq.
    destruct Hcase as [(t & Hb & -> & _ & Hpo)|[(Hb & -> & _ & Hpo)|(_ & -> & _ & Hpo)]]; rewrite Hpo in Hq.
    + assert (q ≠ p) by (by intros ->). rewrite lookup_insert_ne by done.
      destruct (si_waiting r Hi q Hq). auto.
    + simpl in Hq. apply elem_of_cons in Hq as [->|Hq]; [auto|]. destruct (si_waiting r Hi q Hq). auto.
    + destruct (si_waiting r Hi q Hq). auto.
  - intros q t Hq. destruct Hcase as [(t' & Hb & He & _)|[(Hb & He & _)|(_ & He & _)]]; rewrite He in Hq.
    + apply lookup_insert_Some in Hq as [[<- _]|[_ Hq]]; [auto|]. apply Hkeep. by eapply (si_slots r Hi).
    + apply Hkeep. by eapply (si_slots r Hi).
    + apply Hkeep. by eapply (si_slots r Hi).
  - intros t Ht. rewrite Hpr. by apply (si_prepared r Hi).
Qed.

Lemma inv_poll r p cpu :
  sch_inv r → r_polling r !! p = Some (cpu, None) →
  sch_inv (mkRun (r_sched r) (getTask p (r_env r)).1 (r_adding r) (r_deliver r)
    (<[p := (cpu, (getTask p (r_env r)).2)]> (r_polling r)) (r_submitted r) (r_returned r)).
Proof.
  intros Hi Hp. unfold getTask. cbn [fst snd]. set (r' := mkRun _ _ _ _ _ _ _).
  assert ([] ++ places r ≡ₚ [] ++ places r') as Hpp.
  { unfold places, r', slot_tasks. simpl.
    pose proof (vals_cell (e_slots (r_env r)) p None) as Hv. unfold vals in Hv. simpl in Hv.
    pose proof (polled_delete (r_polling r) p _ Hp) as Hd. simpl in Hd.
    pose proof (polled_insert (r_polling r) p (cpu, e_slots (r_env r) !! p)) as Hq. simpl in Hq.
    unfold own, cpu_tasks. simpl. solve_perm. }
  destruct (conserved_step r r' [] [] Hi) as [Hnd Hc]; simpl; rewrite ?app_nil_r; try done; [apply Hi|].
  assert (∀ q, e_slots (r_env r) !! p = None ∨ q ≠ p → polls r q → polls r' q) as Hkeep.
  { intros q Hq [c Hqq]. unfold polls, r'. simpl. destruct (decide (q = p)) as [->|Hne].
    - rewrite lookup_insert_eq. destruct Hq as [->|?]; [by eauto|done].
    - rewrite lookup_insert_ne by done. eauto. }
  split; simpl; try done; [apply law_slot, Hi|apply Hi|..].
  - intros q Hq. destruct (si_waiting r Hi q Hq) as [Hs Hpo].
    change (partial_alter _ p _) with (delete p (e_slots (r_env r))). split.
    + destruct (decide (q = p)) as [->|]; [apply lookup_delete_eq|by rewrite lookup_delete_ne].
    + apply Hkeep; [|done]. destruct (decide (q = p)) as [->|]; auto.
  - intros q t. change (partial_alter _ p _) with (delete p (e_slots (r_env r))).
    intros [Hne Hq]%lookup_delete_Some. apply Hkeep; [by right|]. by eapply (si_slots r Hi).
  - apply Hi.
Qed.

Lemma inv_leave r p cpu t :
  sch_inv r → r_polling r !! p = Some (cpu, Some t) →
  sch_inv (mkRun (r_sched r) (r_env r) (r_adding r) (r_deliver r) (delete p (r_polling r)) (r_submitted r)
    (r_returned r ++ [t])).
Proof.
  intros Hi Hp. set (r' := mkRun _ _ _ _ _ _ _).
  assert ([] ++ places r ≡ₚ [t] ++ places r') as Hpp.
  { unfold places, r'. simpl. pose proof (polled_delete (r_polling r) p _ Hp) as Hd. simpl in Hd. solve_perm. }
  destruct (conserved_step r r' [] [t] Hi) as [Hnd Hc]; simpl; rewrite ?app_nil_r; try done; [apply Hi|].
  assert (∀ q, polls r q → polls r' q) as Hkeep.
  { intros q [c Hq]. exists c. unfold r'. simpl. by rewrite lookup_delete_ne by congruence. }
  split; simpl; try done; [apply Hi|apply Hi|..].
  - intros q Hq. destruct (si_waiting r Hi q Hq). auto.
  - intros q x Hq. apply Hkeep. by eapply (si_slots r Hi).
  - apply Hi.
Qed.

Lemma sch_inv_step l r r' : l ≠ LeaveDisabled → sch_inv r → sch_step l r r' → sch_inv r'.
Proof.
  intros Hl Hi Hs. destruct Hs.
  - by eapply inv_fast.
  - by eapply inv_locked.
  - by apply inv_deliver.
  - destruct (law_get cpu canMarkAsIdle (r_sched r) (r_env r) (si_ok r Hi)) as (s' & e' & o' & E & ? & ? & ? & ?).
    match goal with H : sch_getReadyTask _ _ _ _ = _ |- _ => rewrite E in H; injection H as -> -> -> end.
    by apply inv_sched.
  - destruct (law_idle force (r_sched r) (r_env r) e c (si_ok r Hi)) as (? & ? & He); [done|].
    unfold with_sched. rewrite <- (app_nil_r (r_returned r)). apply inv_sched; try done.
    unfold own, cpu_tasks. by rewrite He.
  - by eapply inv_request.
  - by apply inv_poll.
  - by eapply inv_leave.
  - destruct (law_disable cpu (r_sched r) (r_env r) s e (si_ok r Hi)) as (? & ? & ? & ?); [done|].
    unfold with_sched. rewrite <- (app_nil_r (r_returned r)). by apply inv_sched.
  - done.
Qed.

Lemma sch_inv_initial s e :
  sch_ok s e → own s e = [] → sch_pollers s = [] → e_slots e = ∅ → sch_inv (initial_run s e).
Proof.
  intros Hok Ho Hp He. split; simpl; try done.
  - rewrite Hp. constructor.
  - rewrite Hp. intros p Hin. by apply not_elem_of_nil in Hin.
  - intros p t. rewrite He, lookup_empty. done.
  - intros t Ht. by apply not_elem_of_nil in Ht.
  - unfold places. simpl. rewrite Ho. unfold slot_tasks. rewrite He. constructor.
  - unfold places. simpl. rewrite Ho. unfold slot_tasks. rewrite He. done.
Qed.

Lemma sch_inv_steps ls r r' :
  LeaveDisabled ∉ ls → sch_inv r → steps_with ls r r' → sch_inv r'.
Proof.
  intros Hls Hi Hr. induction Hr as [|r r1 r2 (l & Hl & Hs) _ IH]; [done|].
  apply IH. eapply sch_inv_step; [|done..]. by intros ->.
Qed.

(** C14: Every scheduler that keeps the promises of the interface neither loses a task nor gives
    it out twice, whatever the interleaving of the threads that add, ask and poll for tasks,
    as long as no thread stops polling because its CPU is disabled: the tasks submitted are
    the ones returned and the ones that are in one place of the scheduler; and a task on its
    way to a polling thread finds the slot of that thread empty. *)
Theorem scheduler_conserves_tasks s e r :
  sch_ok s e → own s e = [] → sch_pollers s = [] → e_slots e = ∅ →
  steps_with [Normal; DisableCPU] (initial_run s e) r →
  r_submitted r ≡ₚ r_returned r ++ places r ∧ NoDup (places r) ∧
  ∀ t p, (t, p) ∈ r_deliver r → e_slots (r_env r) !! p = None.
Proof.
  intros Hok Ho Hp He Hr.
  assert (sch_inv r) as Hi.
  { eapply sch_inv_steps; [|by apply sch_inv_initial|exact Hr]. set_solver. }
  split_and!; [apply Hi|apply Hi|]. intros t p Hin. apply (si_waiting r Hi).
  apply elem_of_app. right. apply list_elem_of_fmap. by exists (t, p).
Qed.
End protocol.
