(* ===== verification/PriorityScheduler.v ===== *)
(** * The default scheduler

    [src/scheduling/schedulers/PriorityScheduler.cpp]: queues by priority, one slot per CPU for
    the immediate successor and one polling thread.  It keeps the promises of the interface,
    and gives a CPU a task of the highest priority. *)

From S2P Require Import Prelude Boost CpuManager Scheduler SchedulerProofs.
Local Open Scope nat_scope.

(** The key of a priority class: [-priority], a [long]; the least [long], whose opposite is not
    one, is not a priority. *)
Definition class_key (priority : Z) : Z := (- priority)%Z.

(** [std::map<long, PriorityClass>], in the order of its keys.  [_tasks[key]._queue.push_front]
    and [push_back] create the class if there is none. *)
Fixpoint class_push (front : bool) (key : Z) (t : nat) (tasks : list (Z * list nat)) : list (Z * list nat) :=
  match tasks with
  | [] => [(key, [t])]
  | (k, q) :: tasks' =>
      if Z.eqb key k then (k, if front then t :: q else q ++ [t]) :: tasks'
      else if Z.ltb key k then (key, [t]) :: tasks
      else (k, q) :: class_push front key t tasks'
  end.

Definition all_tasks (tasks : list (Z * list nat)) : list nat := concat tasks.*2.

Record PriorityScheduler := mkPriorityScheduler {
  ps_tasks : list (Z * list nat);
  ps_pollingSlot : option nat;
}.

Section scheduler.
Context {M : Type} `{!IdleCPUs M} (A : attributes).
Implicit Types (s : PriorityScheduler) (e : env M).

Definition set_tasks (l : list (Z * list nat)) s : PriorityScheduler := mkPriorityScheduler l (ps_pollingSlot s).
Definition set_pollingSlot (p : option nat) s : PriorityScheduler := mkPriorityScheduler (ps_tasks s) p.

(** The checks and the priority of the task. *)
Definition ps_prepare (t : nat) e : res (env M) :=
  _ ← failIf (at_device A t) "Device tasks not supported by this scheduler";
  _ ← failIf (at_taskloop A t) "Task loop not supported by this scheduler";
  Ok (match at_get_priority A t with Some p => setPriority t p e | None => e end).

Definition ps_priority (t : nat) : Z := default 0%Z (at_get_priority A t).

Definition may_be_successor (hint : ReadyTaskHint) : bool :=
  negb (bool_decide (hint = CHILD_TASK_HINT)) && negb (bool_decide (hint = UNBLOCKED_TASK_HINT)) &&
  negb (bool_decide (hint = BUSY_COMPUTE_PLACE_TASK_HINT)).

(** Steps 2 and 3: take the polling slot, if there is one. *)
Definition take_pollingSlot s : PriorityScheduler * option nat :=
  (set_pollingSlot None s, ps_pollingSlot s).

Definition ps_offer s e : PriorityScheduler * env M * placement :=
  let '(s, pollingSlot) := take_pollingSlot s in
  match pollingSlot with Some p => (s, e, Deliver p) | None => (s, e, Pending) end.

Definition ps_addReadyTask_fast (t : nat) (computePlace : option nat) (hint : ReadyTaskHint) s e :
    res (PriorityScheduler * env M * placement) :=
  e ← ps_prepare t e;
  match computePlace with
  | Some cpu =>
      if may_be_successor hint && bool_decide (e_schedulerData e !! cpu = None)
      then Ok (s, set_schedulerData cpu (Some t) e, Placed)
      else Ok (ps_offer s e)
  | None => Ok (ps_offer s e)
  end.

Definition ps_addReadyTask_locked (t : nat) (hint : ReadyTaskHint) (doGetIdle : bool) s e :
    res (PriorityScheduler * env M * option nat * option nat) :=
  let '(s, pollingSlot) := take_pollingSlot s in
  match pollingSlot with
  | Some p => Ok (s, e, Some p, None)
  | None =>
      let front := bool_decide (hint = UNBLOCKED_TASK_HINT) || bool_decide (hint = CHILD_TASK_HINT) in
      let s := set_tasks (class_push front (class_key (ps_priority t)) t (ps_tasks s)) s in
      if doGetIdle then let '(e, c) := getIdleCPU_env e in Ok (s, e, None, c) else Ok (s, e, None, None)
  end.

(** Steps 1 to 3 of [getReadyTask] and of [requestPolling]: the chosen task, out of its place. *)
Definition ps_choose (cpu : nat) s e : res (PriorityScheduler * env M * option nat) :=
  let immediateSuccessor := e_schedulerData e !! cpu in
  match ps_tasks s with
  | [] =>
      match immediateSuccessor with
      | Some t => Ok (s, set_schedulerData cpu None e, Some t)
      | None => Ok (s, e, None)
      end
  | (key, queue) :: others =>
      match queue with
      | [] => Err Dangling
      | queuedTask :: queue =>
          let topPriority := getPriority queuedTask e in
          let tasks := match queue with [] => others | _ => (key, queue) :: others end in
          match immediateSuccessor with
          | None => Ok (set_tasks tasks s, e, Some queuedTask)
          | Some t =>
              if Z.ltb (getPriority t e) topPriority then
                Ok (set_tasks (class_push false (class_key (getPriority t e)) t tasks) s,
                    set_schedulerData cpu None e, Some queuedTask)
              else Ok (s, set_schedulerData cpu None e, Some t)
          end
      end
  end.

Definition ps_getReadyTask (cpu : nat) (canMarkAsIdle : bool) s e :
    res (PriorityScheduler * env M * option nat) :=
  if negb (at_host A cpu) then Ok (s, e, None)
  else
    r ← ps_choose cpu s e;
    let '(s, e, task) := r in
    match task with
    | Some t => Ok (s, e, Some t)
    | None => Ok (s, if canMarkAsIdle then cpuBecomesIdle_env cpu e else e, None)
    end.

Definition ps_getIdleComputePlace (force : bool) s e : env M * option nat :=
  if force || negb (bool_decide (ps_tasks s = [])) then getIdleCPU_env e else (e, None).

Definition ps_disableComputePlace (cpu : nat) s e : PriorityScheduler * env M :=
  match e_schedulerData e !! cpu with
  | Some t =>
      (set_tasks (class_push false (class_key (getPriority t e)) t (ps_tasks s)) s, set_schedulerData cpu None e)
  | None => (s, e)
  end.

Definition ps_requestPolling (cpu p : nat) s e : res (PriorityScheduler * env M * bool) :=
  r ← ps_choose cpu s e;
  let '(s, e, task) := r in
  match task with
  | Some t => Ok (s, set_slot p (Some t) e, true)
  | None =>
      match ps_pollingSlot s with
      | None => Ok (set_pollingSlot (Some p) s, e, true)
      | Some _ => Ok (s, cpuBecomesIdle_env cpu e, false)
      end
  end.

Definition ps_releasePolling (cpu p : nat) s e : PriorityScheduler * env M * bool :=
  if decide (ps_pollingSlot s = Some p)
  then (set_pollingSlot None s, cpuBecomesIdle_env cpu e, true)
  else (s, e, false).

(** The classes have tasks, each of the priority of its class. *)
Definition class_ok e (c : Z * list nat) : Prop :=
  c.2 ≠ [] ∧ ∀ t, t ∈ c.2 → class_key (getPriority t e) = c.1.

Definition ps_ok s e : Prop :=
  Forall (class_ok e) (ps_tasks s) ∧ key_sorted fst (ps_tasks s) ∧
  (∀ t, at_get_priority A t = None → e_priority e !! t = None).

#[local] Instance priority_scheduler : SchedulerInterface M PriorityScheduler := {|
  sch_held s := all_tasks (ps_tasks s);
  sch_pollers s := option_list (ps_pollingSlot s);
  sch_addReadyTask_fast := ps_addReadyTask_fast;
  sch_addReadyTask_locked := ps_addReadyTask_locked;
  sch_getReadyTask := ps_getReadyTask;
  sch_getIdleComputePlace := ps_getIdleComputePlace;
  sch_disableComputePlace := ps_disableComputePlace;
  sch_requestPolling := ps_requestPolling;
  sch_releasePolling := ps_releasePolling;
  sch_ok := ps_ok;
  sch_supports t := at_device A t = false ∧ at_taskloop A t = false;
  sch_prepared t p := default 0%Z p = ps_priority t;
|}.

(** ** The queues *)

Lemma all_tasks_push front key t l : all_tasks (class_push front key t l) ≡ₚ t :: all_tasks l.
Proof.
  unfold all_tasks. induction l as [|[k q] l IH]; [done|]. simpl. destruct (key =? k)%Z; [|destruct (key <? k)%Z];
    csimpl; [|done|].
  - destruct front; [done|]. solve_perm.
  - solve_perm.
Qed.

Lemma class_push_ok front t e l :
  Forall (class_ok e) l → Forall (class_ok e) (class_push front (class_key (getPriority t e)) t l).
Proof.
  induction 1 as [|[k q] l [Hq Hk] Hl IH]; simpl.
  - constructor; [|done]. split; [done|]. by intros t' ->%list_elem_of_singleton.
  - destruct (Z.eqb_spec (class_key (getPriority t e)) k) as [He|He]; [|destruct (_ <? k)%Z].
    + constructor; [|done]. simpl in *. split; [destruct front; [done|by destruct q]|].
      intros t' Ht'. destruct front; simpl in *; set_solver.
    + constructor; [|constructor; [by split|done]]. split; [done|]. by intros t' ->%list_elem_of_singleton.
    + constructor; [by split|done].
Qed.

Lemma class_push_keys front key t l c : c ∈ class_push front key t l → c.1 = key ∨ ∃ d, d ∈ l ∧ d.1 = c.1.
Proof.
  induction l as [|[k q] l IH]; simpl; [set_solver|]. destruct (Z.eqb_spec key k) as [->|He]; [|destruct (key <? k)%Z].
  - intros [->|Hc]%elem_of_cons; [by left|]. right. exists c. set_solver.
  - intros [->|Hc]%elem_of_cons; [by left|]. right. exists c. set_solver.
  - intros [->|Hc]%elem_of_cons; [right; exists (k, q); set_solver|]. destruct (IH Hc) as [?|(d & ? & ?)]; [by left|].
    right. exists d. set_solver.
Qed.

Lemma class_push_sorted front key t l : key_sorted fst l → key_sorted fst (class_push front key t l).
Proof.
  induction l as [|[k q] l IH]; simpl; [intros _; repeat constructor|]. rewrite key_sorted_cons. intros [Hk Hl].
  simpl in Hk. destruct (Z.eqb_spec key k) as [->|He]; [|destruct (Z.ltb_spec key k) as [Hlt|Hge]];
    rewrite ?key_sorted_cons; simpl.
  - done.
  - split_and!; [|done|done]. intros b [->|Hb]%elem_of_cons; simpl; [lia|]. specialize (Hk b Hb). lia.
  - split; [|auto]. intros b [->|(d & Hd & <-)]%class_push_keys; [lia|]. by apply Hk.
Qed.

(** The head of the queues has the highest priority. *)
Lemma top_priority e k q l t t' :
  Forall (class_ok e) ((k, q) :: l) → key_sorted fst ((k, q) :: l) → t ∈ q → t' ∈ all_tasks ((k, q) :: l) →
  (getPriority t' e ≤ getPriority t e)%Z.
Proof.
  rewrite Forall_cons, key_sorted_cons. intros [[_ Hq] Hl] [Hk _] Ht Ht'. specialize (Hq t Ht) as Hkt. simpl in *.
  unfold all_tasks in Ht'. simpl in Ht'. unfold class_key in *.
  apply elem_of_app in Ht' as [Ht'|Ht'].
  - specialize (Hq t' Ht'). lia.
  - apply list_elem_of_In, in_concat in Ht' as (q' & Hq' & Hin).
    apply list_elem_of_In, list_elem_of_fmap in Hq' as ([k' q''] & -> & Hc). apply list_elem_of_In in Hin.
    rewrite Forall_forall in Hl. destruct (Hl _ Hc) as [_ Hc']. specialize (Hc' t' Hin). specialize (Hk _ Hc).
    simpl in *. unfold class_key in *. lia.
Qed.

(** ** The promises *)

Lemma cpu_tasks_clear cpu e t :
  e_schedulerData e !! cpu = Some t → cpu_tasks e ≡ₚ t :: cpu_tasks (set_schedulerData cpu None e).
Proof.
  intros Ht. pose proof (vals_cell (e_schedulerData e) cpu None) as Hv. rewrite Ht in Hv.
  unfold cpu_tasks. symmetry. exact Hv.
Qed.

Lemma cpu_tasks_set cpu e t :
  e_schedulerData e !! cpu = None → cpu_tasks (set_schedulerData cpu (Some t) e) ≡ₚ t :: cpu_tasks e.
Proof.
  intros Ht. pose proof (vals_cell (e_schedulerData e) cpu (Some t)) as Hv. rewrite Ht in Hv. exact Hv.
Qed.

Lemma ps_ok_env s e e' : e_priority e' = e_priority e → ps_ok s e → ps_ok s e'.
Proof.
  intros He (Hf & Hs & Hp). split_and!; [|done|by rewrite He]. eapply Forall_impl; [done|].
  intros c [Hc Hk]. split; [done|]. unfold getPriority in *. by rewrite He.
Qed.

Lemma ps_ok_push s e t front :
  ps_ok s e → ps_ok (set_tasks (class_push front (class_key (getPriority t e)) t (ps_tasks s)) s) e.
Proof. intros (Hf & Hs & Hp). split_and!; [by apply class_push_ok|by apply class_push_sorted|done]. Qed.

(** The choice takes a task of the highest priority among the queues and the slot of the CPU. *)
Lemma ps_choose_spec cpu s e :
  ps_ok s e →
  ∃ s' e' o, ps_choose cpu s e = Ok (s', e', o) ∧ ps_ok s' e' ∧ framed e e' ∧ e_manager e' = e_manager e ∧
    ps_pollingSlot s' = ps_pollingSlot s ∧
    all_tasks (ps_tasks s) ++ cpu_tasks e ≡ₚ option_list o ++ all_tasks (ps_tasks s') ++ cpu_tasks e' ∧
    (ps_tasks s = [] → ps_tasks s' = []) ∧
    ∀ t, t ∈ all_tasks (ps_tasks s) ∨ e_schedulerData e !! cpu = Some t →
      ∃ t', o = Some t' ∧ (getPriority t e ≤ getPriority t' e)%Z.
Proof.
  intros Hok. pose proof Hok as (Hf & Hs & Hp). unfold ps_choose.
  destruct (ps_tasks s) as [|[k [|x q]] others] eqn:Etasks.
  - destruct (e_schedulerData e !! cpu) as [t|] eqn:Et.
    + eexists _, _, _. split; [reflexivity|]. split; [by apply (ps_ok_env s e)|]. split; [done|]. rewrite Etasks.
      split_and!; try done.
      * simpl. by apply cpu_tasks_clear.
      * intros t' [Ht'|[= <-]]; [by apply not_elem_of_nil in Ht'|]. exists t. split; [done|lia].
    + exists s, e, None. rewrite Etasks. split_and!; try done. intros t [Ht|?]; [by apply not_elem_of_nil in Ht|done].
  - apply Forall_cons in Hf as [[Hq _] _]. done.
  - set (tasks := match q with [] => others | _ => (k, q) :: others end).
    assert (all_tasks ((k, x :: q) :: others) ≡ₚ x :: all_tasks tasks) as Hall.
    { unfold all_tasks, tasks. destruct q; done. }
    assert (∀ t, t ∈ all_tasks ((k, x :: q) :: others) → (getPriority t e ≤ getPriority x e)%Z) as Hbest.
    { intros t Ht. eapply top_priority; [done..|left|done]. }
    assert (ps_ok (set_tasks tasks s) e) as Hok'.
    { apply Forall_cons in Hf as [[_ Hq] Hf]. apply key_sorted_cons in Hs as [Hk Hs]. split_and!; simpl; [| |done].
      - unfold tasks. destruct q; [done|]. constructor; [|done]. split; [done|]. intros t Ht. apply Hq. by right.
      - unfold tasks. destruct q; [done|]. by apply key_sorted_cons. }
    destruct (e_schedulerData e !! cpu) as [t|] eqn:Et; [destruct (Z.ltb_spec (getPriority t e) (getPriority x e)) as [Hlt|Hge]|].
    + eexists _, _, _. split; [reflexivity|].
      split; [apply (ps_ok_env _ e); [done|]; by apply (ps_ok_push (set_tasks tasks s))|]. split_and!; try done.
      * cbn [set_tasks ps_tasks]. pose proof (all_tasks_push false (class_key (getPriority t e)) t tasks) as Hpush.
        pose proof (cpu_tasks_clear cpu e t Et) as Hc. solve_perm.
      * intros t' [Ht'|[= <-]]; exists x; split; (done || auto || lia).
    + eexists _, _, _. split; [reflexivity|]. split; [by apply (ps_ok_env s e)|]. split_and!; try done.
      * rewrite Etasks. pose proof (cpu_tasks_clear cpu e t Et) as Hc. solve_perm.
      * intros t' [Ht'|[= <-]]; exists t; split; [done| |done|lia]. specialize (Hbest t' Ht'). lia.
    + eexists _, _, _. split; [reflexivity|]. split; [done|]. split_and!; try done.
      * cbn [set_tasks ps_tasks]. solve_perm.
      * intros t' [Ht'|?]; [|done]. exists x. auto.
Qed.

Lemma getIdleCPU_env_spec e e' c :
  getIdleCPU_env e = (e', c) →
  framed e e' ∧ e_schedulerData e' = e_schedulerData e.
Proof. unfold getIdleCPU_env. destruct (idle_take (e_manager e)) as [m o]. intros [= <- <-]. done. Qed.

Lemma ps_prepare_spec t s e :
  ps_ok s e → at_device A t = false ∧ at_taskloop A t = false → t ∉ own s e →
  ∃ e', ps_prepare t e = Ok e' ∧ ps_ok s e' ∧ e_slots e' = e_slots e ∧ e_schedulerData e' = e_schedulerData e ∧
    (∀ t', t' ≠ t → e_priority e' !! t' = e_priority e !! t') ∧ default 0%Z (e_priority e' !! t) = ps_priority t.
Proof.
  intros (Hf & Hs & Hp) [Hd Hl] Ht. unfold ps_prepare, ps_priority. rewrite Hd, Hl. simpl.
  eexists. split; [reflexivity|]. destruct (at_get_priority A t) as [p|] eqn:Hg; simpl; [|split_and!; try done; by rewrite Hp].
  split_and!; try done.
  - split_and!; [|done|].
    + rewrite Forall_forall in Hf |- *. intros c Hc. destruct (Hf c Hc) as [Hn Hk]. split; [done|]. intros t' Ht'.
      rewrite <- (Hk t' Ht'). unfold getPriority. simpl. rewrite lookup_insert_ne; [done|]. intros <-.
      apply Ht, elem_of_app. left. apply list_elem_of_In, in_concat. exists c.2. split; apply list_elem_of_In; [|done].
      by apply list_elem_of_fmap_2.
    + intros t' Ht'. simpl. rewrite lookup_insert_ne; [by apply Hp|]. intros <-. congruence.
  - intros t' Ht'. by rewrite lookup_insert_ne.
  - by rewrite lookup_insert_eq.
Qed.

Lemma ps_poller s : ps_pollingSlot s = None → set_pollingSlot None s = s.
Proof. destruct s; simpl. by intros ->. Qed.

Lemma ps_offer_spec s e :
  ∃ s' pl, ps_offer s e = (s', e, pl) ∧ ps_tasks s' = ps_tasks s ∧
    match pl with
    | Placed => False
    | Deliver p => option_list (ps_pollingSlot s) ≡ₚ p :: option_list (ps_pollingSlot s')
    | Pending => ps_pollingSlot s' = ps_pollingSlot s
    end.
Proof.
  unfold ps_offer. simpl. destruct (ps_pollingSlot s) as [p|] eqn:E.
  - by exists (set_pollingSlot None s), (Deliver p).
  - by exists (set_pollingSlot None s), Pending.
Qed.

Lemma ps_law_fast t cpu hint s e :
  ps_ok s e → at_device A t = false ∧ at_taskloop A t = false → t ∉ own s e →
  ∃ s' e' pl, ps_addReadyTask_fast t cpu hint s e = Ok (s', e', pl) ∧ ps_ok s' e' ∧ e_slots e' = e_slots e ∧
    (∀ t', t' ≠ t → e_priority e' !! t' = e_priority e !! t') ∧
    match pl with
    | Placed => own s' e' ≡ₚ t :: own s e ∧ sch_pollers s' = sch_pollers s
    | Deliver p => own s' e' ≡ₚ own s e ∧ sch_pollers s ≡ₚ p :: sch_pollers s'
    | Pending => own s' e' ≡ₚ own s e ∧ sch_pollers s' = sch_pollers s ∧ sch_prepared t (e_priority e' !! t)
    end.
Proof.
  intros Hok Hsup Ht.
  destruct (ps_prepare_spec t s e Hok Hsup Ht) as (e1 & Hp & Hok1 & Hsl & Hsd & Hpr & Hpt).
  unfold ps_addReadyTask_fast. rewrite Hp. cbn [mbind res_bind].
  assert (own s e1 = own s e) as Ho by (unfold own, cpu_tasks; by rewrite Hsd).
  destruct (successor_branch (may_be_successor hint) cpu (e_schedulerData e1)
    (λ c, Ok (s, set_schedulerData c (Some t) e1, Placed)) (Ok (ps_offer s e1))) as [->|(c & Hc & ->)].
  - destruct (ps_offer_spec s e1) as (s' & pl & -> & Hts & Hps). eexists _, _, _. split; [reflexivity|].
    split; [unfold ps_ok in *; by rewrite Hts|]. split; [done|]. split; [done|].
    assert (own s' e1 = own s e) as Ho' by (rewrite <- Ho; unfold own; simpl; by rewrite Hts).
    rewrite Ho'. destruct pl; [done..|]. simpl. by rewrite Hps.
  - eexists _, _, _. split; [reflexivity|]. split; [by apply (ps_ok_env s e1)|]. split_and!; try done.
    rewrite <- Ho. unfold own. simpl. pose proof (cpu_tasks_set c e1 t Hc). solve_perm.
Qed.

Lemma ps_law_locked t hint doGetIdle s e :
  ps_ok s e → default 0%Z (e_priority e !! t) = ps_priority t →
  ∃ s' e' d c, ps_addReadyTask_locked t hint doGetIdle s e = Ok (s', e', d, c) ∧ ps_ok s' e' ∧ framed e e' ∧
    match d with
    | Some p => own s' e' ≡ₚ own s e ∧ sch_pollers s ≡ₚ p :: sch_pollers s'
    | None => own s' e' ≡ₚ t :: own s e ∧ sch_pollers s' = sch_pollers s
    end.
Proof.
  intros Hok Hpt. unfold ps_addReadyTask_locked. simpl. destruct (ps_pollingSlot s) as [p|] eqn:E.
  { eexists _, _, _, _. split; [reflexivity|]. split_and!; try done; apply Hok. }
  rewrite ps_poller by done. rewrite <- Hpt. set (front := _ || _). fold (getPriority t e). set (s' := set_tasks _ _).
  assert (ps_ok s' e) as Hok' by (by apply (ps_ok_push s e t front)).
  assert (∀ e', e_schedulerData e' = e_schedulerData e → own s' e' ≡ₚ t :: own s e) as Ho.
  { intros e' He. unfold own, cpu_tasks. simpl. rewrite He.
    pose proof (all_tasks_push front (class_key (getPriority t e)) t (ps_tasks s)). solve_perm. }
  assert (ps_pollingSlot s' = None) as Es by done. destruct doGetIdle.
  - destruct (getIdleCPU_env e) as [e' c] eqn:Hi. destruct (getIdleCPU_env_spec e e' c Hi) as [[Hfs Hfp] Hsd].
    eexists _, _, _, _. split; [reflexivity|]. rewrite Es. split; [by apply (ps_ok_env s' e)|]. split_and!; auto; done.
  - eexists _, _, _, _. split; [reflexivity|]. rewrite Es. split; [done|]. split_and!; auto; done.
Qed.

Lemma ps_law_request cpu p s e :
  ps_ok s e →
  ∃ s' e' b, ps_requestPolling cpu p s e = Ok (s', e', b) ∧ ps_ok s' e' ∧ e_priority e' = e_priority e ∧
    ((∃ t, b = true ∧ e_slots e' = <[p := t]> (e_slots e) ∧ own s e ≡ₚ t :: own s' e' ∧
        sch_pollers s' = sch_pollers s) ∨
     (b = true ∧ e_slots e' = e_slots e ∧ own s' e' ≡ₚ own s e ∧ sch_pollers s' ≡ₚ p :: sch_pollers s) ∨
     (b = false ∧ e_slots e' = e_slots e ∧ own s' e' ≡ₚ own s e ∧ sch_pollers s' = sch_pollers s)).
Proof.
  intros Hok. unfold ps_requestPolling.
  destruct (ps_choose_spec cpu s e Hok) as (s' & e' & o & -> & Hok' & [Hfs Hfp] & _ & Hps & Hown & _).
  cbn [mbind res_bind]. destruct o as [t|]; [|destruct (ps_pollingSlot s') eqn:E].
  - eexists _, _, _. split; [reflexivity|]. split; [by apply (ps_ok_env s' e')|]. split; [done|].
    left. exists t. simpl. rewrite Hps, Hfs. split_and!; done.
  - eexists _, _, _. split; [reflexivity|]. split; [done|]. split; [done|]. right. right.
    simpl. rewrite E, <- Hps. split_and!; done.
  - eexists _, _, _. split; [reflexivity|]. split; [done|]. split; [done|]. right. left.
    simpl. rewrite <- Hps. split_and!; done.
Qed.

#[local] Instance priority_scheduler_laws : SchedulerLaws M PriorityScheduler.
Proof.
  split; simpl.
  - apply ps_law_fast.
  - intros t hint doGetIdle s e Hok _ Hp. destruct (ps_law_locked t hint doGetIdle s e Hok Hp) as (s' & e' & d & c & ? & ? & ?%(framed_framed_but t) & ?).
    by exists s', e', d, c.
  - intros cpu idle s e Hok. unfold ps_getReadyTask. destruct (at_host A cpu); simpl; [|by exists s, e, None].
    destruct (ps_choose_spec cpu s e Hok) as (s' & e' & o & -> & Hok' & Hfr & _ & Hps & Hown & _). cbn [mbind res_bind].
    destruct o as [t|]; eexists _, _, _; (split; [reflexivity|]); rewrite Hps; [done|by destruct idle].
  - intros force s e e' c Hok. unfold ps_getIdleComputePlace. destruct (force || _); [|by intros [= <- <-]].
    intros Hi. destruct (getIdleCPU_env_spec e e' c Hi) as [[Hfs Hfp] Hsd]. split; [by apply (ps_ok_env s e)|done].
  - intros cpu s e s' e' Hok. unfold ps_disableComputePlace.
    destruct (e_schedulerData e !! cpu) as [t|] eqn:Et; intros [= <- <-]; [|done].
    split; [apply (ps_ok_env _ e); [done|]; by apply ps_ok_push|]. split_and!; try done.
    unfold own. simpl. pose proof (cpu_tasks_clear cpu e t Et).
    pose proof (all_tasks_push false (class_key (getPriority t e)) t (ps_tasks s)). solve_perm.
  - intros cpu p s e Hok _. by apply ps_law_request.
  - intros cpu p s e s' e' b Hok _. unfold ps_releasePolling. case_decide as Hd; intros [= <- <- <-].
    + rewrite Hd. split_and!; try done. intros q. simpl. set_solver.
    + split_and!; try done. destruct (ps_pollingSlot s); simpl; set_solver.
  - intros p t s e Hok. by apply (ps_ok_env s e).
Qed.

(** ** Properties *)

(** C15: The default scheduler gives a CPU a task of the highest priority among the queued tasks
    and the immediate successor of the CPU; when there is none, it gives nothing and marks the
    CPU as idle if it may. *)
Theorem ps_gives_best_task `{!IdleCPUsLaws M} cpu canMarkAsIdle s e :
  ps_ok s e → at_host A cpu = true →
  ∃ s' e' o, ps_getReadyTask cpu canMarkAsIdle s e = Ok (s', e', o) ∧
    match o with
    | Some t =>
        (t ∈ all_tasks (ps_tasks s) ∨ e_schedulerData e !! cpu = Some t) ∧
        ∀ t', t' ∈ all_tasks (ps_tasks s) ∨ e_schedulerData e !! cpu = Some t' →
          (getPriority t' e ≤ getPriority t e)%Z
    | None =>
        all_tasks (ps_tasks s) = [] ∧ e_schedulerData e !! cpu = None ∧
        (canMarkAsIdle = true → idle_valid cpu (e_manager e) → cpu ∈ idle_cpus (e_manager e'))
    end.
Proof.
  intros Hok Hh. unfold ps_getReadyTask. rewrite Hh. cbn [negb].
  destruct (ps_choose_spec cpu s e Hok) as (s' & e' & o & Ec & _ & _ & Hm & _ & Hown & _ & Hbest). rewrite Ec.
  cbn [mbind res_bind]. destruct o as [t|]; eexists _, _, _; (split; [reflexivity|]).
  - split; [|intros t' Ht'; by destruct (Hbest t' Ht') as (? & [= <-] & ?)].
    unfold ps_choose in Ec. destruct (ps_tasks s) as [|[k [|x q]] others] eqn:Et; [|done|].
    + destruct (e_schedulerData e !! cpu); naive_solver.
    + assert (x ∈ all_tasks ((k, x :: q) :: others)) as Hx by (unfold all_tasks; simpl; set_solver).
      destruct (e_schedulerData e !! cpu) as [y|]; [destruct (_ <? _)%Z|]; simplify_eq; auto.
  - split_and!.
    + destruct (all_tasks (ps_tasks s)) as [|t l]; [done|].
      destruct (Hbest t) as (? & ? & _); [left; left|done].
    + destruct (e_schedulerData e !! cpu) as [t|] eqn:Et; [|done].
      destruct (Hbest t) as (? & ? & _); [by right|done].
    + intros -> Hv. simpl. rewrite Hm, idle_add_law by done. set_solver.
Qed.

(** A thread polls only while no task is queued. *)
Definition poller_idle s : Prop := ps_pollingSlot s ≠ None → ps_tasks s = [].

Lemma poller_idle_step r r' :
  sch_inv r → poller_idle (r_sched r) → sch_step Normal r r' → poller_idle (r_sched r').
Proof.
  intros Hi Hp Hs. inversion Hs as [? t cpu hint dg s e pl _ _ Hf|? l1 t hint dg l2 s e d c _ Hf| |? cpu idle s e o Hf|
    |? cpu p s e b _ Hf| | | |]; subst; simpl in *; try done.
  - unfold ps_addReadyTask_fast in Hf. apply res_bind_ok in Hf as (e1 & _ & Hf).
    assert (∀ e', ∃ s0 pl0, ps_offer (r_sched r) e' = (s0, e', pl0) ∧ poller_idle s0) as Hof.
    { intros e'. unfold ps_offer. simpl. destruct (ps_pollingSlot (r_sched r)); eexists _, _; (split; [reflexivity|by intros []]). }
    destruct (Hof e1) as (s0 & pl0 & E & Hs0). destruct cpu as [cpu|]; [case_match|]; rewrite ?E in Hf; by simplify_eq.
  - unfold ps_addReadyTask_locked in Hf. simpl in Hf. destruct (ps_pollingSlot (r_sched r)).
    + simplify_eq. by intros [].
    + destruct dg; [destruct (getIdleCPU_env (r_env r))|]; simplify_eq; by intros [].
  - unfold ps_getReadyTask in Hf. destruct (at_host A cpu); simpl in Hf; [|by simplify_eq].
    destruct (ps_choose_spec cpu _ _ (si_ok r Hi)) as (s1 & e1 & o1 & E & _ & _ & _ & Hps & _ & Hempty & _).
    rewrite E in Hf. simpl in Hf. assert (poller_idle s1) by (unfold poller_idle; rewrite Hps; auto).
    destruct o1; by simplify_eq.
  - unfold ps_requestPolling in Hf.
    destruct (ps_choose_spec cpu _ _ (si_ok r Hi)) as (s1 & e1 & o1 & E & _ & _ & _ & Hps & _ & Hempty & Hbest).
    rewrite E in Hf. simpl in Hf. assert (poller_idle s1) by (unfold poller_idle; rewrite Hps; auto).
    destruct o1 as [t|]; [by simplify_eq|]. destruct (ps_pollingSlot s1); simplify_eq; [done|]. intros _. simpl.
    apply Hempty. destruct (ps_tasks (r_sched r)) as [|[k [|x q]] others] eqn:Et; [done|..].
    + destruct (si_ok r Hi) as [Hf _]. rewrite Et in Hf. apply Forall_cons in Hf as [[? _] _]. done.
    + destruct (Hbest x) as (? & ? & _); [|done]. left. unfold all_tasks. simpl. set_solver.
Qed.

(** As long as no CPU is disabled, a thread polls for a task only while no task is queued:
    no queued task waits while a thread could run it. *)
Theorem ps_no_work_while_polling s e r :
  ps_ok s e → ps_tasks s = [] → cpu_tasks e = [] → ps_pollingSlot s = None → e_slots e = ∅ →
  steps_with [Normal] (initial_run s e) r →
  ps_pollingSlot (r_sched r) ≠ None → ps_tasks (r_sched r) = [].
Proof.
  intros Hok Ht Hc Hp He Hr.
  assert (sch_inv (initial_run s e)) as Hi.
  { apply sch_inv_initial; try done; [unfold own|]; simpl; [by rewrite Ht, Hc|by rewrite Hp]. }
  assert (poller_idle (r_sched (initial_run s e))) as Hpi by (intros _; exact Ht).
  revert Hi Hpi. induction Hr as [r|r r1 r2 (l & Hl%list_elem_of_singleton & Hs) _ IH]; intros Hi Hpi; [apply Hpi|].
  subst l. apply IH; [by apply (sch_inv_step Normal r)|by eapply poller_idle_step].
Qed.
End scheduler.

(** ** Runs *)

(** Host tasks without priorities; two CPUs, none of them idle. *)
Definition sample_attributes : attributes := mkAttributes (λ _, false) (λ _, false) (λ _, None) (λ _, true).

Definition two_cpus : env (CPUManager (list bool)) :=
  mkEnv ∅ ∅ ∅ (mkManager [] [Some 0; Some 1] 2 [false; false] [] []).
Definition empty_scheduler : PriorityScheduler := mkPriorityScheduler [] None.

#[local] Instance sample_scheduler : SchedulerInterface (CPUManager (list bool)) PriorityScheduler :=
  priority_scheduler sample_attributes.
#[local] Instance sample_scheduler_laws : SchedulerLaws (CPUManager (list bool)) PriorityScheduler :=
  priority_scheduler_laws sample_attributes.

Lemma sample_ok : sch_ok empty_scheduler two_cpus.
Proof. split_and!; [constructor|constructor|]. intros t _. apply lookup_empty. Qed.

Lemma step_rtc ls l (r1 r2 r3 : run (CPUManager (list bool)) PriorityScheduler) :
  l ∈ ls → sch_step l r1 r2 → steps_with ls r2 r3 → steps_with ls r1 r3.
Proof. intros Hl Hs Hr. eapply rtc_l; [|exact Hr]. eauto. Qed.

(** Task 5 is added by the main thread while CPU 1 polls with slot 7. *)
Definition r_polls : run (CPUManager (list bool)) PriorityScheduler :=
  mkRun (mkPriorityScheduler [] (Some 7)) two_cpus [] [] {[7 := (1, None)]} [] [].
Definition r_on_its_way : run (CPUManager (list bool)) PriorityScheduler :=
  mkRun empty_scheduler two_cpus [] [(5, 7)] {[7 := (1, None)]} [5] [].

Lemma sample_polls ls : Normal ∈ ls → steps_with ls (initial_run empty_scheduler two_cpus) r_polls.
Proof.
  intros Hl. eapply step_rtc; [exact Hl|eapply (step_request _ 1 7); vm_compute; reflexivity|]. apply rtc_refl.
Qed.

Lemma sample_on_its_way ls : Normal ∈ ls → steps_with ls (initial_run empty_scheduler two_cpus) r_on_its_way.
Proof.
  intros Hl. etrans; [by apply sample_polls|]. eapply step_rtc; [exact Hl| |apply rtc_refl].
  apply (step_fast r_polls 5 None NO_HINT true empty_scheduler two_cpus (Deliver 7)).
  - done.
  - vm_compute. set_solver.
  - reflexivity.
Qed.

(** Disabling a CPU can strand a task: its immediate successor is queued although a thread
    polls, and since that CPU is not idle none is found to run the task.  The polling thread
    finds its slot empty however often it looks. *)
Theorem disable_strands_task :
  ∃ r, steps_with [Normal; DisableCPU] (initial_run empty_scheduler two_cpus) r ∧
    sch_held (r_sched r) = [5] ∧ sch_pollers (r_sched r) = [7] ∧ r_adding r = [] ∧ r_deliver r = [] ∧
    (sch_getIdleComputePlace false (r_sched r) (r_env r)).2 = None ∧
    r_polling r !! 7 = Some (1, None) ∧ e_slots (r_env r) !! 7 = None.
Proof.
  eexists. split.
  { etrans; [apply sample_polls; set_solver|].
    eapply (step_rtc _ Normal); [set_solver| |].
    { apply (step_fast r_polls 5 (Some 0) SIBLING_TASK_HINT true (mkPriorityScheduler [] (Some 7))
        (set_schedulerData 0 (Some 5) two_cpus) Placed); [done|vm_compute; set_solver|reflexivity]. }
    eapply (step_rtc _ DisableCPU); [set_solver| |apply rtc_refl].
    eapply (step_disable _ 0). reflexivity. }
  split_and!; vm_compute; reflexivity.
Qed.

(** A thread that stops polling because its CPU is disabled can lose a task: in one run it has
    taken the task from its slot and overwrites it with the content of the empty slot; in
    another the task is still on its way to the slot, which does not exist any more. *)
Theorem leaving_disabled_loses_task :
  (∃ r, steps_with [Normal; LeaveDisabled] (initial_run empty_scheduler two_cpus) r ∧
     r_submitted r = [5] ∧ r_returned r = [] ∧ places r = []) ∧
  (∃ r, steps_with [Normal; LeaveDisabled] (initial_run empty_scheduler two_cpus) r ∧
     r_deliver r = [(5, 7)] ∧ r_polling r !! 7 = None ∧ r_returned r = []).
Proof.
  split; eexists.
  - split.
    { etrans; [apply sample_on_its_way; set_solver|].
      eapply (step_rtc _ Normal); [set_solver|by apply (step_deliver r_on_its_way [] 5 7 [])|].
      eapply (step_rtc _ Normal); [set_solver|by eapply (step_poll _ 7 1)|].
      eapply (step_rtc _ LeaveDisabled); [set_solver| |apply rtc_refl].
      eapply (step_leave_disabled _ 7 1 (Some 5)); vm_compute; reflexivity. }
    split_and!; vm_compute; reflexivity.
  - split.
    { etrans; [apply sample_on_its_way; set_solver|].
      eapply (step_rtc _ LeaveDisabled); [set_solver| |apply rtc_refl].
      eapply (step_leave_disabled _ 7 1 None); vm_compute; reflexivity. }
    split_and!; vm_compute; reflexivity.
Qed.

Lemma scheduler_conserves_tasks_witness :
  r_submitted r_on_its_way ≡ₚ r_returned r_on_its_way ++ places r_on_its_way.
Proof.
  apply (scheduler_conserves_tasks empty_scheduler two_cpus r_on_its_way).
  - exact sample_ok.
  - vm_compute. reflexivity.
  - reflexivity.
  - reflexivity.
  - apply sample_on_its_way. left.
Defined.

Lemma ps_no_work_while_polling_witness : ps_tasks (r_sched r_polls) = [].
Proof.
  apply (ps_no_work_while_polling sample_attributes empty_scheduler two_cpus r_polls).
  - exact sample_ok.
  - reflexivity.
  - vm_compute. reflexivity.
  - reflexivity.
  - reflexivity.
  - apply sample_polls. left.
  - vm_compute. discriminate.
Defined.

(** Task 1 has priority 3 and is queued; task 2, without priority, is the successor of CPU 0. *)
Definition prioritized : attributes :=
  mkAttributes (λ _, false) (λ _, false) (λ t, if decide (t = 1) then Some 3%Z else None) (λ _, true).
Definition e_prioritized : env (CPUManager (list bool)) :=
  mkEnv {[0 := 2]} ∅ {[1 := 3%Z]} (e_manager two_cpus).
Definition s_prioritized : PriorityScheduler := mkPriorityScheduler [((-3)%Z, [1])] None.

Lemma ps_gives_best_task_witness :
  ∃ s' e' t, ps_getReadyTask prioritized 0 true s_prioritized e_prioritized = Ok (s', e', Some t) ∧
    (getPriority 1 e_prioritized ≤ getPriority t e_prioritized)%Z.
Proof.
  destruct (ps_gives_best_task (M := CPUManager (list bool)) prioritized 0 true s_prioritized e_prioritized)
    as (s' & e' & o & H & Ho).
  - split_and!.
    + repeat constructor; [discriminate|]. intros t ->%list_elem_of_singleton. reflexivity.
    + repeat constructor.
    + intros t Ht. unfold e_prioritized. simpl. apply lookup_singleton_ne. intros <-. discriminate.
  - reflexivity.
  - destruct o as [t|].
    + exists s', e', t. split; [exact H|]. apply Ho. left. left.
    + destruct Ho as [Ho _]. discriminate.
Defined.
