(* ===== verification/QueueSchedulers.v ===== *)
(** * Schedulers with two queues and immediate successors

    [ImmediateSuccessorScheduler.cpp], [ImmediateSuccessorWithPollingScheduler.cpp] and
    [FIFOImmediateSuccessorWithPollingScheduler.cpp]: a queue of unblocked tasks, a queue of
    ready tasks and a slot per CPU.  They differ in the end of the queues they add to and in
    whether a thread can poll; the one without polling never has a polling slot. *)

From S2P Require Import Prelude Boost CpuManager Scheduler SchedulerProofs PriorityScheduler.
Local Open Scope nat_scope.

Record QueueScheduler := mkQueueScheduler {
  qs_readyTasks : list nat;
  qs_unblockedTasks : list nat;
  qs_pollingSlot : option nat;
}.

Section scheduler.
Context {M : Type} `{!IdleCPUs M} (A : attributes).
Implicit Types (s : QueueScheduler) (e : env M).

(** [push_back] in the FIFO scheduler, [push_front] in the other ones. *)
Context (fifo : bool).

Definition queue_push (t : nat) (q : list nat) : list nat := if fifo then q ++ [t] else t :: q.

Definition qs_prepare (t : nat) : res unit :=
  _ ← failIf (at_device A t) "Device tasks not supported by this scheduler";
  failIf (at_taskloop A t) "Task loop not supported by this scheduler".

Definition qs_may_be_successor (hint : ReadyTaskHint) : bool :=
  negb (bool_decide (hint = CHILD_TASK_HINT)) && negb (bool_decide (hint = UNBLOCKED_TASK_HINT)).

Definition qs_unpoll s : QueueScheduler := mkQueueScheduler (qs_readyTasks s) (qs_unblockedTasks s) None.

(** Step 2: a polling thread takes the task. *)
Definition qs_offer s e : QueueScheduler * env M * placement :=
  match qs_pollingSlot s with Some p => (qs_unpoll s, e, Deliver p) | None => (s, e, Pending) end.

Definition qs_addReadyTask_fast (t : nat) (computePlace : option nat) (hint : ReadyTaskHint) s e :
    res (QueueScheduler * env M * placement) :=
  _ ← qs_prepare t;
  match computePlace with
  | Some cpu =>
      if qs_may_be_successor hint && bool_decide (e_schedulerData e !! cpu = None)
      then Ok (s, set_schedulerData cpu (Some t) e, Placed)
      else Ok (qs_offer s e)
  | None => Ok (qs_offer s e)
  end.

Definition qs_addReadyTask_locked (t : nat) (hint : ReadyTaskHint) (doGetIdle : bool) s e :
    res (QueueScheduler * env M * option nat * option nat) :=
  match qs_pollingSlot s with
  | Some p => Ok (qs_unpoll s, e, Some p, None)
  | None =>
      let s :=
        if decide (hint = UNBLOCKED_TASK_HINT)
        then mkQueueScheduler (qs_readyTasks s) (queue_push t (qs_unblockedTasks s)) None
        else mkQueueScheduler (queue_push t (qs_readyTasks s)) (qs_unblockedTasks s) None in
      if doGetIdle then let '(e, c) := getIdleCPU_env e in Ok (s, e, None, c) else Ok (s, e, None, None)
  end.

(** [getReplacementTask] *)
Definition getReplacementTask s : QueueScheduler * option nat :=
  match qs_unblockedTasks s with
  | t :: q => (mkQueueScheduler (qs_readyTasks s) q (qs_pollingSlot s), Some t)
  | [] => (s, None)
  end.

(** Steps 1 to 3 of [getReadyTask] and of [requestPolling]. *)
Definition qs_choose (cpu : nat) s e : QueueScheduler * env M * option nat :=
  match e_schedulerData e !! cpu with
  | Some t => (s, set_schedulerData cpu None e, Some t)
  | None =>
      let '(s, task) := getReplacementTask s in
      match task with
      | Some t => (s, e, Some t)
      | None =>
          match qs_readyTasks s with
          | t :: q => (mkQueueScheduler q (qs_unblockedTasks s) (qs_pollingSlot s), e, Some t)
          | [] => (s, e, None)
          end
      end
  end.

Definition qs_getReadyTask (cpu : nat) (canMarkAsIdle : bool) s e : res (QueueScheduler * env M * option nat) :=
  if negb (at_host A cpu) then Ok (s, e, None)
  else
    let '(s, e, task) := qs_choose cpu s e in
    match task with
    | Some t => Ok (s, e, Some t)
    | None => Ok (s, if canMarkAsIdle then cpuBecomesIdle_env cpu e else e, None)
    end.

Definition qs_getIdleComputePlace (force : bool) s e : env M * option nat :=
  if force || negb (bool_decide (qs_readyTasks s = [])) || negb (bool_decide (qs_unblockedTasks s = []))
  then getIdleCPU_env e else (e, None).

(** In all of them the successor goes to the front of the ready tasks. *)
Definition qs_disableComputePlace (cpu : nat) s e : QueueScheduler * env M :=
  match e_schedulerData e !! cpu with
  | Some t =>
      (mkQueueScheduler (t :: qs_readyTasks s) (qs_unblockedTasks s) (qs_pollingSlot s), set_schedulerData cpu None e)
  | None => (s, e)
  end.

Definition qs_requestPolling (cpu p : nat) s e : res (QueueScheduler * env M * bool) :=
  let '(s, e, task) := qs_choose cpu s e in
  match task with
  | Some t => Ok (s, set_slot p (Some t) e, true)
  | None =>
      match qs_pollingSlot s with
      | None => Ok (mkQueueScheduler (qs_readyTasks s) (qs_unblockedTasks s) (Some p), e, true)
      | Some _ => Ok (s, cpuBecomesIdle_env cpu e, false)
      end
  end.

Definition qs_releasePolling (cpu p : nat) s e : QueueScheduler * env M * bool :=
  if decide (qs_pollingSlot s = Some p)
  then (qs_unpoll s, cpuBecomesIdle_env cpu e, true)
  else (s, e, false).

Definition qs_held s : list nat := qs_readyTasks s ++ qs_unblockedTasks s.

(** The schedulers with polling. *)
#[local] Instance polling_scheduler : SchedulerInterface M QueueScheduler := {|
  sch_held := qs_held;
  sch_pollers s := option_list (qs_pollingSlot s);
  sch_addReadyTask_fast := qs_addReadyTask_fast;
  sch_addReadyTask_locked := qs_addReadyTask_locked;
  sch_getReadyTask := qs_getReadyTask;
  sch_getIdleComputePlace := qs_getIdleComputePlace;
  sch_disableComputePlace := qs_disableComputePlace;
  sch_requestPolling := qs_requestPolling;
  sch_releasePolling := qs_releasePolling;
  sch_ok _ _ := True;
  sch_supports t := at_device A t = false ∧ at_taskloop A t = false;
  sch_prepared _ _ := True;
|}.

(** ** The promises *)

Lemma queue_push_perm t q : queue_push t q ≡ₚ t :: q.
Proof. unfold queue_push. destruct fifo; [|done]. solve_perm. Qed.

Lemma qs_choose_spec cpu s e s' e' o :
  qs_choose cpu s e = (s', e', o) →
  framed e e' ∧ qs_pollingSlot s' = qs_pollingSlot s ∧ own s e ≡ₚ option_list o ++ own s' e' ∧
  (o = None → s' = s ∧ qs_held s = []).
Proof.
  unfold qs_choose, own, getReplacementTask, qs_held. destruct (e_schedulerData e !! cpu) as [t|] eqn:Et.
  - intros [= <- <- <-]. pose proof (cpu_tasks_clear cpu e t Et). split_and!; try done. simpl. unfold qs_held. solve_perm.
  - destruct (qs_unblockedTasks s) as [|t q] eqn:Eu; [destruct (qs_readyTasks s) as [|t q] eqn:Er|]; intros [= <- <- <-];
      split_and!; try done; simpl; unfold qs_held; simpl; rewrite ?Eu, ?Er; try done; solve_perm.
Qed.

Lemma qs_fast_spec t cpu hint s e :
  at_device A t = false ∧ at_taskloop A t = false →
  ∃ s' e' pl, qs_addReadyTask_fast t cpu hint s e = Ok (s', e', pl) ∧ framed e e' ∧
    match pl with
    | Placed => own s' e' ≡ₚ t :: own s e ∧ sch_pollers s' = sch_pollers s
    | Deliver p => own s' e' ≡ₚ own s e ∧ sch_pollers s ≡ₚ p :: sch_pollers s'
    | Pending => own s' e' ≡ₚ own s e ∧ sch_pollers s' = sch_pollers s
    end.
Proof.
  intros [Hd Hl]. unfold qs_addReadyTask_fast, qs_prepare. rewrite Hd, Hl. cbn [failIf mbind res_bind].
  destruct (successor_branch (qs_may_be_successor hint) cpu (e_schedulerData e)
    (λ c, Ok (s, set_schedulerData c (Some t) e, Placed)) (Ok (qs_offer s e))) as [->|(c & Hc & ->)].
  - unfold qs_offer. destruct (qs_pollingSlot s) as [p|] eqn:E; eexists _, _, _; (split; [reflexivity|]); [|done].
    split; [done|]. simpl. by rewrite E.
  - eexists _, _, _. split; [reflexivity|]. split_and!; try done. unfold own.
    pose proof (cpu_tasks_set c e t Hc). solve_perm.
Qed.

Lemma qs_locked_spec t hint doGetIdle s e :
  ∃ s' e' d c, qs_addReadyTask_locked t hint doGetIdle s e = Ok (s', e', d, c) ∧ framed e e' ∧
    match d with
    | Some p => own s' e' ≡ₚ own s e ∧ sch_pollers s ≡ₚ p :: sch_pollers s'
    | None => own s' e' ≡ₚ t :: own s e ∧ sch_pollers s' = sch_pollers s
    end.
Proof.
  unfold qs_addReadyTask_locked. destruct (qs_pollingSlot s) as [p|] eqn:E.
  { eexists _, _, _, _. split; [reflexivity|]. split; [done|]. simpl. by rewrite E. }
  set (s' := if decide (hint = UNBLOCKED_TASK_HINT) then _ else _).
  assert (qs_held s' ≡ₚ t :: qs_held s ∧ qs_pollingSlot s' = None) as [Hh Hp].
  { unfold s', qs_held. case_decide; simpl; (split; [|done]).
    - pose proof (queue_push_perm t (qs_unblockedTasks s)). solve_perm.
    - pose proof (queue_push_perm t (qs_readyTasks s)). solve_perm. }
  assert (∀ e', e_schedulerData e' = e_schedulerData e → own s' e' ≡ₚ t :: own s e) as Ho.
  { intros e' He. unfold own, cpu_tasks. simpl. rewrite He. solve_perm. }
  destruct doGetIdle.
  - destruct (getIdleCPU_env e) as [e' c] eqn:Hi. destruct (getIdleCPU_env_spec e e' c Hi) as [Hf Hsd].
    eexists _, _, _, _. split; [reflexivity|]. simpl. rewrite Hp, E. auto.
  - eexists _, _, _, _. split; [reflexivity|]. simpl. rewrite Hp, E. split_and!; auto; done.
Qed.

Lemma qs_get_spec cpu idle s e :
  ∃ s' e' o, qs_getReadyTask cpu idle s e = Ok (s', e', o) ∧ framed e e' ∧
    qs_pollingSlot s' = qs_pollingSlot s ∧ own s e ≡ₚ option_list o ++ own s' e'.
Proof.
  unfold qs_getReadyTask. destruct (at_host A cpu); simpl; [|by exists s, e, None].
  destruct (qs_choose cpu s e) as [[s' e'] o] eqn:Ec. destruct (qs_choose_spec _ _ _ _ _ _ Ec) as (Hf & Hp & Ho & _).
  destruct o as [t|]; eexists _, _, _; (split; [reflexivity|]); [done|]. by destruct idle.
Qed.

Lemma qs_idle_spec force s e e' c :
  qs_getIdleComputePlace force s e = (e', c) → framed e e' ∧ e_schedulerData e' = e_schedulerData e.
Proof.
  unfold qs_getIdleComputePlace. destruct (force || _ || _); [apply getIdleCPU_env_spec|by intros [= <- <-]].
Qed.

Lemma qs_disable_spec cpu s e s' e' :
  qs_disableComputePlace cpu s e = (s', e') →
  framed e e' ∧ qs_pollingSlot s' = qs_pollingSlot s ∧ own s' e' ≡ₚ own s e.
Proof.
  unfold qs_disableComputePlace. destruct (e_schedulerData e !! cpu) as [t|] eqn:Et; intros [= <- <-]; [|done].
  split_and!; try done. unfold own. simpl. unfold qs_held. simpl. pose proof (cpu_tasks_clear cpu e t Et). solve_perm.
Qed.

#[local] Instance polling_scheduler_laws : SchedulerLaws M QueueScheduler.
Proof.
  split; simpl.
  - intros t cpu hint s e _ Hs _. destruct (qs_fast_spec t cpu hint s e Hs) as (s' & e' & pl & -> & [Hfs Hfp] & Hpl).
    exists s', e', pl. split_and!; try done; [by rewrite Hfp|]. destruct pl; naive_solver.
  - intros t hint dg s e _ _ _. destruct (qs_locked_spec t hint dg s e) as (s' & e' & d & c & -> & Hf%(framed_framed_but t) & Hd).
    by exists s', e', d, c.
  - intros cpu idle s e _. destruct (qs_get_spec cpu idle s e) as (s' & e' & o & -> & Hf & Hp & Ho).
    exists s', e', o. by rewrite Hp.
  - intros force s e e' c _ Hi. by destruct (qs_idle_spec force s e e' c Hi).
  - intros cpu s e s' e' _ Hd. by destruct (qs_disable_spec cpu s e s' e' Hd) as (? & -> & ?).
  - intros cpu p s e _ _. unfold qs_requestPolling. destruct (qs_choose cpu s e) as [[s' e'] o] eqn:Ec.
    destruct (qs_choose_spec _ _ _ _ _ _ Ec) as ([Hfs Hfp] & Hp & Ho & _).
    destruct o as [t|]; [|destruct (qs_pollingSlot s') eqn:E]; eexists _, _, _; (split; [reflexivity|]);
      (split; [done|]); (split; [done|]); simpl.
    + left. exists t. rewrite Hp, Hfs. done.
    + right. right. rewrite E, <- Hp. split_and!; done.
    + right. left. rewrite <- Hp. split_and!; done.
  - intros cpu p s e s' e' b _ _. unfold qs_releasePolling. case_decide as Hd; intros [= <- <- <-].
    + rewrite Hd. split_and!; try done. intros q. simpl. set_solver.
    + split_and!; try done. destruct (qs_pollingSlot s); simpl; set_solver.
  - done.
Qed.

(** ** Without polling *)

(** [ImmediateSuccessorScheduler]: there is no polling slot, and the operations on it are the
    default ones of the interface. *)
Definition successor_scheduler : SchedulerInterface M QueueScheduler := {|
  sch_held := qs_held;
  sch_pollers _ := [];
  sch_addReadyTask_fast := qs_addReadyTask_fast;
  sch_addReadyTask_locked := qs_addReadyTask_locked;
  sch_getReadyTask := qs_getReadyTask;
  sch_getIdleComputePlace := qs_getIdleComputePlace;
  sch_disableComputePlace := qs_disableComputePlace;
  sch_requestPolling := default_requestPolling qs_getReadyTask;
  sch_releasePolling := default_releasePolling;
  sch_ok s _ := qs_pollingSlot s = None;
  sch_supports t := at_device A t = false ∧ at_taskloop A t = false;
  sch_prepared _ _ := True;
|}.

Lemma qs_no_poller_fast t cpu hint s e s' e' pl :
  qs_pollingSlot s = None → qs_addReadyTask_fast t cpu hint s e = Ok (s', e', pl) →
  qs_pollingSlot s' = None ∧ ∀ p, pl ≠ Deliver p.
Proof.
  intros Hp Hf. unfold qs_addReadyTask_fast in Hf. apply res_bind_ok in Hf as (_ & _ & Hf). unfold qs_offer in Hf.
  rewrite Hp in Hf. destruct cpu as [c|]; [case_match|]; by simplify_eq.
Qed.

Lemma qs_no_poller_locked t hint dg s e s' e' d c :
  qs_pollingSlot s = None → qs_addReadyTask_locked t hint dg s e = Ok (s', e', d, c) →
  qs_pollingSlot s' = None ∧ d = None.
Proof.
  intros Hp Hf. unfold qs_addReadyTask_locked in Hf. rewrite Hp in Hf.
  destruct dg; [destruct (getIdleCPU_env e)|]; simplify_eq; by case_decide.
Qed.

Lemma successor_scheduler_laws : @SchedulerLaws M QueueScheduler successor_scheduler.
Proof.
  split; simpl; change (@own M _ successor_scheduler) with (@own M _ polling_scheduler).
  - intros t cpu hint s e Hp Hs _. destruct (qs_fast_spec t cpu hint s e Hs) as (s' & e' & pl & E & [Hfs Hfp] & Hpl).
    destruct (qs_no_poller_fast _ _ _ _ _ _ _ _ Hp E) as [Hp' Hd].
    exists s', e', pl. split_and!; try done; [by rewrite Hfp|]. destruct pl as [|p|]; [naive_solver|by destruct (Hd p)|naive_solver].
  - intros t hint dg s e Hp _ _. destruct (qs_locked_spec t hint dg s e) as (s' & e' & d & c & E & Hf%(framed_framed_but t) & Hd).
    destruct (qs_no_poller_locked _ _ _ _ _ _ _ _ _ Hp E) as [Hp' ->]. exists s', e', None, c. naive_solver.
  - intros cpu idle s e Hp. destruct (qs_get_spec cpu idle s e) as (s' & e' & o & -> & Hf & Hp' & Ho).
    exists s', e', o. by rewrite Hp'.
  - intros force s e e' c Hp Hi. by destruct (qs_idle_spec force s e e' c Hi).
  - intros cpu s e s' e' Hp Hd. destruct (qs_disable_spec cpu s e s' e' Hd) as (? & -> & ?). done.
  - intros cpu p s e Hp Hs. unfold default_requestPolling.
    destruct (qs_get_spec cpu true s e) as (s' & e' & o & -> & [Hfs Hfp] & Hp' & Ho). cbn [mbind res_bind].
    destruct o as [t|]; eexists _, _, _; (split; [reflexivity|]); unfold setTask.
    + rewrite Hfs, Hs. simpl. split; [congruence|]. split; [done|]. left. exists t. rewrite Hfs. done.
    + split; [congruence|]. split; [done|]. right. right. done.
  - intros cpu p s e s' e' b Hp _ [= <- <- <-]. split_and!; try done. case_bool_decide; set_solver.
  - done.
Qed.
End scheduler.

(** [ImmediateSuccessorWithPollingScheduler] and [FIFOImmediateSuccessorWithPollingScheduler]. *)
Definition lifo_polling_scheduler {M} `{!IdleCPUs M} (A : attributes) : SchedulerInterface M QueueScheduler :=
  polling_scheduler A false.
Definition fifo_polling_scheduler {M} `{!IdleCPUs M} (A : attributes) : SchedulerInterface M QueueScheduler :=
  polling_scheduler A true.

(** [ImmediateSuccessorScheduler] *)
Definition immediate_successor_scheduler {M} `{!IdleCPUs M} (A : attributes) : SchedulerInterface M QueueScheduler :=
  successor_scheduler A false.
