(* ===== verification/HeapSchedulers.v ===== *)
(** * Schedulers with priority queues

    [PriorityScheduler1.cpp] and [NoSleepPriorityScheduler.cpp]: a priority queue of unblocked
    tasks, one of ready tasks and a slot per CPU.  The first has one polling thread, which is
    handed a task without the lock; the second has a queue of them, under the lock.  The choice
    of the best of the three candidates is the same code in both. *)

From S2P Require Import Prelude Boost CpuManager Scheduler SchedulerProofs PriorityScheduler.
Local Open Scope nat_scope.

(** ** [std::priority_queue] *)

(** The comparison reads the priorities of the tasks when an operation runs; which one of
    several tasks of the highest priority is on top is not specified. *)
Class PriorityQueue (Q : Type) := {
  pq_elems : Q → list nat;
  pq_empty : Q;
  pq_push : (nat → Z) → nat → Q → Q;
  pq_top : Q → option nat;
  pq_pop : (nat → Z) → Q → Q;
  (** The queue has been built with these priorities. *)
  pq_heap : (nat → Z) → Q → Prop;
}.

Class PriorityQueueLaws (Q : Type) `{!PriorityQueue Q} := {
  pq_elems_empty : pq_elems pq_empty = [];
  pq_push_elems f t q : pq_elems (pq_push f t q) ≡ₚ t :: pq_elems q;
  pq_top_None q : pq_top q = None ↔ pq_elems q = [];
  pq_pop_elems f q t : pq_top q = Some t → pq_elems q ≡ₚ t :: pq_elems (pq_pop f q);
  pq_heap_empty f : pq_heap f pq_empty;
  pq_heap_push f t q : pq_heap f q → pq_heap f (pq_push f t q);
  pq_heap_pop f q : pq_heap f q → pq_heap f (pq_pop f q);
  pq_heap_top f q t t' : pq_heap f q → pq_top q = Some t → t' ∈ pq_elems q → (f t' ≤ f t)%Z;
  pq_heap_ext f g q : (∀ t, t ∈ pq_elems q → f t = g t) → pq_heap f q → pq_heap g q;
}.

(** A list in the order of the priorities. *)
Fixpoint insert_by (f : nat → Z) (t : nat) (l : list nat) : list nat :=
  match l with
  | [] => [t]
  | x :: l' => if Z.leb (f x) (f t) then t :: l else x :: insert_by f t l'
  end.

Lemma insert_by_perm f t l : insert_by f t l ≡ₚ t :: l.
Proof. induction l as [|x l IH]; simpl; [done|]. destruct (_ <=? _)%Z; [done|]. solve_perm. Qed.

#[export] Instance list_pq : PriorityQueue (list nat) := {|
  pq_elems := id;
  pq_empty := [];
  pq_push := insert_by;
  pq_top := head;
  pq_pop _ := tail;
  pq_heap f := StronglySorted (λ x y, (f y ≤ f x)%Z);
|}.

#[export] Instance list_pq_laws : PriorityQueueLaws (list nat).
Proof.
  split; simpl; unfold id.
  - done.
  - apply insert_by_perm.
  - by intros [].
  - by intros f [] t [= ->].
  - constructor.
  - intros f t q Hq. induction Hq as [|x l Hl IH Hx]; simpl; [repeat constructor|].
    destruct (Z.leb_spec (f x) (f t)) as [Hle|Hgt].
    + constructor; [by constructor|]. constructor; [done|]. eapply Forall_impl; [done|]. simpl. intros. lia.
    + constructor; [done|]. rewrite insert_by_perm. constructor; [lia|done].
  - intros f q Hq. destruct Hq; [constructor|done].
  - intros f q t t' Hq Ht Hin. destruct Hq as [|x l Hl Hx]; [done|]. injection Ht as ->.
    apply elem_of_cons in Hin as [->|Hin]; [lia|]. rewrite Forall_forall in Hx. auto.
  - intros f g q He Hq. induction Hq as [|x l Hl IH Hx]; [constructor|]. constructor; [set_solver|].
    rewrite Forall_forall in Hx |- *. intros y Hy. rewrite <- !He by set_solver. auto.
Qed.

Section scheduler.
Context {M : Type} `{!IdleCPUs M} {Q : Type} `{!PriorityQueue Q} (A : attributes).
Implicit Types e : env M.

(** ** The choice *)

(** [_readyTasks] and [_unblockedTasks] *)
Record queues := mkQueues { q_ready : Q; q_unblocked : Q }.

Definition prio e (t : nat) : Z := getPriority t e.

Inductive source := non_existant | from_immediate_successor_slot | from_unblocked_task_queue | from_ready_task_queue.

(** One of the tests "[(bestIs == non_existant) || (bestPriority < topPriority)]". *)
Definition consider (top : option nat) (from : source) e (best : source * Z) : source * Z :=
  match top with
  | None => best
  | Some t =>
      match best.1 with
      | non_existant => (from, getPriority t e)
      | _ => if Z.ltb best.2 (getPriority t e) then (from, getPriority t e) else best
      end
  end.

(** Steps 1 to 4 of [getReadyTask] and of [requestPolling]. *)
Definition hs_choose (cpu : nat) (q : queues) e : queues * env M * option nat :=
  let immediateSuccessor := e_schedulerData e !! cpu in
  let best := consider immediateSuccessor from_immediate_successor_slot e (non_existant, 0%Z) in
  let best := consider (pq_top (q_unblocked q)) from_unblocked_task_queue e best in
  let best := consider (pq_top (q_ready q)) from_ready_task_queue e best in
  match best.1 with
  | non_existant => (q, e, None)
  | from_immediate_successor_slot => (q, set_schedulerData cpu None e, immediateSuccessor)
  | from =>
      let '(q, e) :=
        match immediateSuccessor with
        | Some t => (mkQueues (pq_push (prio e) t (q_ready q)) (q_unblocked q), set_schedulerData cpu None e)
        | None => (q, e)
        end in
      match from with
      | from_ready_task_queue =>
          (mkQueues (pq_pop (prio e) (q_ready q)) (q_unblocked q), e, pq_top (q_ready q))
      | _ => (mkQueues (q_ready q) (pq_pop (prio e) (q_unblocked q)), e, pq_top (q_unblocked q))
      end
  end.

Definition hs_queue (t : nat) (hint : ReadyTaskHint) (q : queues) e : queues :=
  if decide (hint = UNBLOCKED_TASK_HINT)
  then mkQueues (q_ready q) (pq_push (prio e) t (q_unblocked q))
  else mkQueues (pq_push (prio e) t (q_ready q)) (q_unblocked q).

Definition hs_held (q : queues) : list nat := pq_elems (q_ready q) ++ pq_elems (q_unblocked q).

Definition hs_getIdleComputePlace (force : bool) (q : queues) e : env M * option nat :=
  if force || negb (bool_decide (pq_top (q_ready q) = None)) || negb (bool_decide (pq_top (q_unblocked q) = None))
  then getIdleCPU_env e else (e, None).

Definition hs_disableComputePlace (cpu : nat) (q : queues) e : queues * env M :=
  match e_schedulerData e !! cpu with
  | Some t => (mkQueues (pq_push (prio e) t (q_ready q)) (q_unblocked q), set_schedulerData cpu None e)
  | None => (q, e)
  end.

(** ** [PriorityScheduler1] *)

Record PriorityScheduler1 := mkPriorityScheduler1 { p1_queues : queues; p1_pollingSlot : option nat }.

Definition p1_offer (s : PriorityScheduler1) e : PriorityScheduler1 * env M * placement :=
  match p1_pollingSlot s with
  | Some p => (mkPriorityScheduler1 (p1_queues s) None, e, Deliver p)
  | None => (s, e, Pending)
  end.

Definition p1_addReadyTask_fast (t : nat) (computePlace : option nat) (hint : ReadyTaskHint)
    (s : PriorityScheduler1) e : res (PriorityScheduler1 * env M * placement) :=
  e ← ps_prepare A t e;
  match computePlace with
  | Some cpu =>
      if may_be_successor hint && bool_decide (e_schedulerData e !! cpu = None)
      then Ok (s, set_schedulerData cpu (Some t) e, Placed)
      else Ok (p1_offer s e)
  | None => Ok (p1_offer s e)
  end.

Definition p1_addReadyTask_locked (t : nat) (hint : ReadyTaskHint) (doGetIdle : bool) (s : PriorityScheduler1) e :
    res (PriorityScheduler1 * env M * option nat * option nat) :=
  match p1_pollingSlot s with
  | Some p => Ok (mkPriorityScheduler1 (p1_queues s) None, e, Some p, None)
  | None =>
      let s := mkPriorityScheduler1 (hs_queue t hint (p1_queues s) e) None in
      if doGetIdle then let '(e, c) := getIdleCPU_env e in Ok (s, e, None, c) else Ok (s, e, None, None)
  end.

Definition p1_getReadyTask (cpu : nat) (canMarkAsIdle : bool) (s : PriorityScheduler1) e :
    res (PriorityScheduler1 * env M * option nat) :=
  if negb (at_host A cpu) then Ok (s, e, None)
  else
    let '(q, e, task) := hs_choose cpu (p1_queues s) e in
    Ok (mkPriorityScheduler1 q (p1_pollingSlot s),
        match task with Some _ => e | None => if canMarkAsIdle then cpuBecomesIdle_env cpu e else e end, task).

Definition p1_getIdleComputePlace (force : bool) (s : PriorityScheduler1) e : env M * option nat :=
  hs_getIdleComputePlace force (p1_queues s) e.

Definition p1_disableComputePlace (cpu : nat) (s : PriorityScheduler1) e : PriorityScheduler1 * env M :=
  let '(q, e) := hs_disableComputePlace cpu (p1_queues s) e in (mkPriorityScheduler1 q (p1_pollingSlot s), e).

Definition p1_requestPolling (cpu p : nat) (s : PriorityScheduler1) e : res (PriorityScheduler1 * env M * bool) :=
  let '(q, e, task) := hs_choose cpu (p1_queues s) e in
  match task with
  | Some t => Ok (mkPriorityScheduler1 q (p1_pollingSlot s), set_slot p (Some t) e, true)
  | None =>
      match p1_pollingSlot s with
      | None => Ok (mkPriorityScheduler1 q (Some p), e, true)
      | Some p' => Ok (mkPriorityScheduler1 q (Some p'), cpuBecomesIdle_env cpu e, false)
      end
  end.

Definition p1_releasePolling (cpu p : nat) (s : PriorityScheduler1) e : PriorityScheduler1 * env M * bool :=
  if decide (p1_pollingSlot s = Some p)
  then (mkPriorityScheduler1 (p1_queues s) None, cpuBecomesIdle_env cpu e, true)
  else (s, e, false).

(** ** [NoSleepPriorityScheduler] *)

Record NoSleepPriorityScheduler := mkNoSleep { ns_queues : queues; ns_pollingSlots : list nat }.

Definition ns_prepare (t : nat) e : res (env M) :=
  _ ← failIf (at_device A t) "Device tasks not supported by this scheduler";
  Ok (match at_get_priority A t with Some p => setPriority t p e | None => e end).

Definition ns_addReadyTask_fast (t : nat) (computePlace : option nat) (hint : ReadyTaskHint)
    (s : NoSleepPriorityScheduler) e : res (NoSleepPriorityScheduler * env M * placement) :=
  e ← ns_prepare t e;
  match computePlace with
  | Some cpu =>
      if may_be_successor hint && bool_decide (e_schedulerData e !! cpu = None)
      then Ok (s, set_schedulerData cpu (Some t) e, Placed)
      else Ok (s, e, Pending)
  | None => Ok (s, e, Pending)
  end.

Definition ns_addReadyTask_locked (t : nat) (hint : ReadyTaskHint) (doGetIdle : bool)
    (s : NoSleepPriorityScheduler) e : res (NoSleepPriorityScheduler * env M * option nat * option nat) :=
  match ns_pollingSlots s with
  | p :: ps => Ok (mkNoSleep (ns_queues s) ps, e, Some p, None)
  | [] =>
      let s := mkNoSleep (hs_queue t hint (ns_queues s) e) [] in
      if doGetIdle then let '(e, c) := getIdleCPU_env e in Ok (s, e, None, c) else Ok (s, e, None, None)
  end.

Definition ns_getReadyTask (cpu : nat) (canMarkAsIdle : bool) (s : NoSleepPriorityScheduler) e :
    res (NoSleepPriorityScheduler * env M * option nat) :=
  if negb (at_host A cpu) then Ok (s, e, None)
  else
    let '(q, e, task) := hs_choose cpu (ns_queues s) e in
    Ok (mkNoSleep q (ns_pollingSlots s),
        match task with Some _ => e | None => if canMarkAsIdle then cpuBecomesIdle_env cpu e else e end, task).

Definition ns_getIdleComputePlace (force : bool) (s : NoSleepPriorityScheduler) e : env M * option nat :=
  hs_getIdleComputePlace force (ns_queues s) e.

Definition ns_disableComputePlace (cpu : nat) (s : NoSleepPriorityScheduler) e : NoSleepPriorityScheduler * env M :=
  let '(q, e) := hs_disableComputePlace cpu (ns_queues s) e in (mkNoSleep q (ns_pollingSlots s), e).

Definition ns_requestPolling (cpu p : nat) (s : NoSleepPriorityScheduler) e :
    res (NoSleepPriorityScheduler * env M * bool) :=
  let '(q, e, task) := hs_choose cpu (ns_queues s) e in
  match task with
  | Some t => Ok (mkNoSleep q (ns_pollingSlots s), set_slot p (Some t) e, true)
  | None => Ok (mkNoSleep q (ns_pollingSlots s ++ [p]), e, true)
  end.

(** [std::find] and [erase] *)
Fixpoint erase_first (p : nat) (l : list nat) : list nat :=
  match l with [] => [] | x :: l => if decide (x = p) then l else x :: erase_first p l end.

Definition ns_releasePolling (cpu p : nat) (s : NoSleepPriorityScheduler) e : NoSleepPriorityScheduler * env M * bool :=
  if decide (p ∈ ns_pollingSlots s)
  then (mkNoSleep (ns_queues s) (erase_first p (ns_pollingSlots s)), cpuBecomesIdle_env cpu e, true)
  else (s, e, false).

(** ** The promises *)

Context `{!PriorityQueueLaws Q}.

(** Both queues have been built with the priorities of the tasks. *)
Definition hs_ok (q : queues) e : Prop :=
  pq_heap (prio e) (q_ready q) ∧ pq_heap (prio e) (q_unblocked q) ∧
  ∀ t, at_get_priority A t = None → e_priority e !! t = None.

Lemma hs_ok_env q e e' : e_priority e' = e_priority e → hs_ok q e → hs_ok q e'.
Proof.
  intros He (H1 & H2 & H3). assert (∀ t, prio e t = prio e' t) as Hp by (intros t; unfold prio, getPriority; by rewrite He).
  split_and!; [by apply (pq_heap_ext (prio e)); auto..|by rewrite He].
Qed.

Lemma hs_queue_spec t hint q e :
  hs_ok q e → hs_ok (hs_queue t hint q e) e ∧ hs_held (hs_queue t hint q e) ≡ₚ t :: hs_held q.
Proof.
  intros (H1 & H2 & H3). unfold hs_queue, hs_held. case_decide; simpl.
  - split; [split_and!; [done|by apply pq_heap_push|done]|].
    pose proof (pq_push_elems (prio e) t (q_unblocked q)). solve_perm.
  - split; [split_and!; [by apply pq_heap_push|done|done]|].
    pose proof (pq_push_elems (prio e) t (q_ready q)). solve_perm.
Qed.

(** A candidate: a task of the place with the highest priority there. *)
Definition candidate (top : option nat) (l : list nat) e : Prop :=
  match top with Some t => t ∈ l ∧ ∀ t', t' ∈ l → (prio e t' ≤ prio e t)%Z | None => l = [] end.

Lemma queue_candidate q e : pq_heap (prio e) q → candidate (pq_top q) (pq_elems q) e.
Proof.
  intros Hq. unfold candidate. destruct (pq_top q) as [t|] eqn:Et; [|by apply pq_top_None].
  split; [|intros t' Ht'; by eapply pq_heap_top]. rewrite (pq_pop_elems (prio e) q t Et). left.
Qed.

(** After some tests, the best source is the one of the best candidate so far. *)
Definition best_so_far (best : source * Z) (top : source → option nat) (l : list nat) e : Prop :=
  match best.1 with
  | non_existant => l = []
  | from => ∃ t, top from = Some t ∧ t ∈ l ∧ best.2 = prio e t ∧ ∀ t', t' ∈ l → (prio e t' ≤ prio e t)%Z
  end.

Lemma consider_best o from e best top l l' :
  from ≠ non_existant → best_so_far best top l e → top from = o → candidate o l' e →
  best_so_far (consider o from e best) top (l ++ l') e.
Proof.
  intros Hf Hb Ht Hc. unfold consider, candidate in *. destruct o as [t|]; [|by rewrite Hc, app_nil_r].
  destruct Hc as [Hin Hmax]. destruct best as [b z]. simpl in *.
  assert (∀ t', t' ∈ l ++ l' → t' ∈ l ∨ (prio e t' ≤ prio e t)%Z) as Hcase.
  { intros t' [?|?]%elem_of_app; auto. }
  assert ((∀ t', t' ∈ l → (prio e t' ≤ prio e t)%Z) → best_so_far (from, getPriority t e) top (l ++ l') e) as Hnew.
  { intros Hl. unfold best_so_far. simpl. destruct from; [done|..]; exists t; split_and!; try done;
      [set_solver|intros t' [?|?]%Hcase; auto|set_solver|intros t' [?|?]%Hcase; auto|set_solver|intros t' [?|?]%Hcase; auto]. }
  unfold best_so_far in Hb. simpl in Hb. destruct b; [apply Hnew; set_solver|..];
    destruct Hb as (t0 & Ht0 & Hin0 & -> & Hl0); destruct (Z.ltb_spec (prio e t0) (getPriority t e)) as [Hlt|Hge];
    try (apply Hnew; intros t' Ht'; specialize (Hl0 t' Ht'); unfold prio in *; lia);
    (exists t0; split_and!; simpl; [done|set_solver|done|]; intros t' [?|?]%Hcase; [auto|unfold prio in *; lia]).
Qed.

(** The tasks a CPU may be given. *)
Definition offered (cpu : nat) (q : queues) e : list nat :=
  (option_list (e_schedulerData e !! cpu) ++ pq_elems (q_unblocked q)) ++ pq_elems (q_ready q).

Lemma hs_best cpu q e :
  hs_ok q e →
  let tops from :=
    match from with
    | non_existant => None
    | from_immediate_successor_slot => e_schedulerData e !! cpu
    | from_unblocked_task_queue => pq_top (q_unblocked q)
    | from_ready_task_queue => pq_top (q_ready q)
    end in
  best_so_far (consider (pq_top (q_ready q)) from_ready_task_queue e
    (consider (pq_top (q_unblocked q)) from_unblocked_task_queue e
      (consider (e_schedulerData e !! cpu) from_immediate_successor_slot e (non_existant, 0%Z)))) tops
    (offered cpu q e) e.
Proof.
  intros (H1 & H2 & _) tops. unfold offered. apply consider_best; [done| |done|by apply queue_candidate].
  apply consider_best; [done| |done|by apply queue_candidate].
  change (option_list (e_schedulerData e !! cpu)) with ([] ++ option_list (e_schedulerData e !! cpu)).
  apply consider_best; [done|done|done|]. destruct (e_schedulerData e !! cpu) as [t|]; [|done].
  split; [left|]. intros t' ->%list_elem_of_singleton. lia.
Qed.

Lemma pop_spec q e :
  pq_heap (prio e) q → pq_elems q ≠ [] →
  ∃ t, pq_top q = Some t ∧ pq_elems q ≡ₚ t :: pq_elems (pq_pop (prio e) q) ∧
    ∀ t', t' ∈ pq_elems q → (prio e t' ≤ prio e t)%Z.
Proof.
  intros Hq Hne. pose proof (queue_candidate q e Hq) as Hc. destruct (pq_top q) as [t|] eqn:Et; [|done].
  exists t. split_and!; [done|by apply pq_pop_elems|apply Hc].
Qed.

(** The choice takes a task of the highest priority out of the place where it is. *)
Lemma hs_choose_spec cpu q e q' e' o :
  hs_ok q e → hs_choose cpu q e = (q', e', o) →
  hs_ok q' e' ∧ framed e e' ∧
  hs_held q ++ cpu_tasks e ≡ₚ option_list o ++ hs_held q' ++ cpu_tasks e' ∧
  match o with
  | Some t => t ∈ offered cpu q e ∧ ∀ t', t' ∈ offered cpu q e → (prio e t' ≤ prio e t)%Z
  | None => offered cpu q e = [] ∧ q' = q ∧ e' = e
  end.
Proof.
  intros Hok. pose proof (hs_best cpu q e Hok) as Hb. unfold hs_choose.
  set (best := consider (pq_top (q_ready q)) _ _ _) in *. pose proof Hok as (H1 & H2 & H3).
  set (requeued := match e_schedulerData e !! cpu with Some t => _ | None => (q, e) end).
  assert (∃ q1 e1, requeued = (q1, e1) ∧ hs_ok q1 e ∧ e_priority e1 = e_priority e ∧ e_slots e1 = e_slots e ∧
    q_unblocked q1 = q_unblocked q ∧ pq_elems (q_ready q1) ≡ₚ option_list (e_schedulerData e !! cpu) ++ pq_elems (q_ready q) ∧
    cpu_tasks e ≡ₚ option_list (e_schedulerData e !! cpu) ++ cpu_tasks e1) as (q1 & e1 & Hr & Hok1 & Hp1 & Hs1 & Hu1 & Hr1 & Hc1).
  { unfold requeued. destruct (e_schedulerData e !! cpu) as [t|] eqn:Et; eexists _, _; (split; [reflexivity|]); [|done].
    split_and!; try done; [split_and!; [by apply pq_heap_push|done|done]|apply pq_push_elems|by apply cpu_tasks_clear]. }
  clearbody requeued. subst requeued. assert (prio e1 = prio e) as Hpe by (unfold prio, getPriority; by rewrite Hp1).
  destruct Hok1 as (K1 & K2 & K3). unfold best_so_far in Hb. destruct best as [[] z]; cbn [fst] in *.
  - intros [= <- <- <-]. done.
  - destruct Hb as (t & Ht & Hin & _ & Hmax). rewrite Ht. intros [= <- <- <-].
    split; [by apply (hs_ok_env q e)|]. pose proof (cpu_tasks_clear cpu e t Ht). split_and!; try done. solve_perm.
  - destruct Hb as (t & Ht & Hin & _ & Hmax). intros [= <- <- <-]. rewrite Hpe, Hu1, Ht. unfold hs_held. simpl.
    pose proof (pq_pop_elems (prio e) (q_unblocked q) t Ht) as Hpop. split_and!; try done.
    + apply (hs_ok_env _ e); [done|]. split_and!; simpl; [done|by apply pq_heap_pop|done].
    + solve_perm.
  - destruct Hb as (t & Ht & Hin & _ & Hmax). intros [= <- <- <-]. rewrite Hpe.
    destruct (pop_spec (q_ready q1) e K1) as (t2 & Et2 & Hpop & Hm2).
    { intros He. assert (pq_elems (q_ready q) = []) as Hnil.
      { rewrite He in Hr1. symmetry in Hr1. apply Permutation_nil_r in Hr1. by apply app_nil in Hr1 as [_ ?]. }
      apply pq_top_None in Hnil. congruence. }
    rewrite Et2. unfold hs_held. simpl. rewrite Hu1.
    assert (t ∈ pq_elems (q_ready q)) as Htr by (by rewrite (pq_pop_elems (prio e) _ _ Ht); left).
    assert (prio e t ≤ prio e t2)%Z as Hle by (apply Hm2; rewrite Hr1; set_solver).
    split_and!; try done.
    + apply (hs_ok_env _ e); [done|]. split_and!; simpl; [by apply pq_heap_pop|done|done].
    + solve_perm.
    + assert (t2 ∈ pq_elems (q_ready q1)) as Ht2 by (rewrite Hpop; left). rewrite Hr1 in Ht2. unfold offered. set_solver.
    + intros t' Ht'. specialize (Hmax t' Ht'). lia.
Qed.

(** [PriorityScheduler1] and [NoSleepPriorityScheduler] give a CPU a task of the highest
    priority among its immediate successor, the unblocked tasks and the ready tasks, and
    nothing only when there is none; the other tasks stay where they are, or move from the
    slot of the CPU to the ready tasks. *)
Theorem hs_chooses_best_task cpu q e :
  hs_ok q e →
  ∃ q' e' o, hs_choose cpu q e = (q', e', o) ∧ hs_ok q' e' ∧
    hs_held q ++ cpu_tasks e ≡ₚ option_list o ++ hs_held q' ++ cpu_tasks e' ∧
    match o with
    | Some t => t ∈ offered cpu q e ∧ ∀ t', t' ∈ offered cpu q e → (getPriority t' e ≤ getPriority t e)%Z
    | None => offered cpu q e = []
    end.
Proof.
  intros Hok. destruct (hs_choose cpu q e) as [[q' e'] o] eqn:Ec.
  destruct (hs_choose_spec cpu q e q' e' o Hok Ec) as (Hok' & _ & Hp & Ho). exists q', e', o.
  split_and!; try done. destruct o; [done|apply Ho].
Qed.

(** ** As instances of the interface *)

#[local] Instance priority_scheduler1 : SchedulerInterface M PriorityScheduler1 := {|
  sch_held s := hs_held (p1_queues s);
  sch_pollers s := option_list (p1_pollingSlot s);
  sch_addReadyTask_fast := p1_addReadyTask_fast;
  sch_addReadyTask_locked := p1_addReadyTask_locked;
  sch_getReadyTask := p1_getReadyTask;
  sch_getIdleComputePlace := p1_getIdleComputePlace;
  sch_disableComputePlace := p1_disableComputePlace;
  sch_requestPolling := p1_requestPolling;
  sch_releasePolling := p1_releasePolling;
  sch_ok s := hs_ok (p1_queues s);
  sch_supports t := at_device A t = false ∧ at_taskloop A t = false;
  sch_prepared _ _ := True;
|}.

#[local] Instance nosleep_scheduler : SchedulerInterface M NoSleepPriorityScheduler := {|
  sch_held s := hs_held (ns_queues s);
  sch_pollers := ns_pollingSlots;
  sch_addReadyTask_fast := ns_addReadyTask_fast;
  sch_addReadyTask_locked := ns_addReadyTask_locked;
  sch_getReadyTask := ns_getReadyTask;
  sch_getIdleComputePlace := ns_getIdleComputePlace;
  sch_disableComputePlace := ns_disableComputePlace;
  sch_requestPolling := ns_requestPolling;
  sch_releasePolling := ns_releasePolling;
  sch_ok s := hs_ok (ns_queues s);
  sch_supports t := at_device A t = false;
  sch_prepared _ _ := True;
|}.

(** Setting the priority of a task that is not queued. *)
Lemma hs_prioritize q t e :
  hs_ok q e → t ∉ hs_held q →
  let e' := match at_get_priority A t with Some p => setPriority t p e | None => e end in
  hs_ok q e' ∧ e_slots e' = e_slots e ∧ cpu_tasks e' = cpu_tasks e ∧
  ∀ t', t' ≠ t → e_priority e' !! t' = e_priority e !! t'.
Proof.
  intros (H1 & H2 & H3) Ht. unfold hs_held in Ht. destruct (at_get_priority A t) as [p|] eqn:Hg; simpl; [|done].
  split_and!; try done; [|intros t' Hne; by rewrite lookup_insert_ne].
  assert (∀ t', t' ≠ t → prio e t' = prio (setPriority t p e) t') as Hp.
  { intros t' Hne. unfold prio, getPriority. simpl. by rewrite lookup_insert_ne. }
  split_and!; [apply (pq_heap_ext (prio e)); [|done]; intros t' Ht'; apply Hp; set_solver..|].
  intros t' Ht'. simpl. rewrite lookup_insert_ne; [auto|]. intros <-. congruence.
Qed.

Lemma hs_idle_spec force q e e' c :
  hs_ok q e → hs_getIdleComputePlace force q e = (e', c) →
  hs_ok q e' ∧ framed e e' ∧ e_schedulerData e' = e_schedulerData e.
Proof.
  intros Hok. unfold hs_getIdleComputePlace. destruct (force || _ || _); [|by intros [= <- <-]].
  intros Hi. destruct (getIdleCPU_env_spec e e' c Hi) as [[Hfs Hfp] Hsd]. split_and!; try done. by apply (hs_ok_env q e).
Qed.

Lemma hs_disable_spec cpu q e q' e' :
  hs_ok q e → hs_disableComputePlace cpu q e = (q', e') →
  hs_ok q' e' ∧ framed e e' ∧ hs_held q' ++ cpu_tasks e' ≡ₚ hs_held q ++ cpu_tasks e.
Proof.
  intros (H1 & H2 & H3). unfold hs_disableComputePlace.
  destruct (e_schedulerData e !! cpu) as [t|] eqn:Et; intros [= <- <-]; [|done].
  split; [apply (hs_ok_env _ e); [done|]; split_and!; [by apply pq_heap_push|done|done]|]. split; [done|].
  unfold hs_held. simpl. pose proof (pq_push_elems (prio e) t (q_ready q)). pose proof (cpu_tasks_clear cpu e t Et). solve_perm.
Qed.

(** Queue the task and look for an idle CPU. *)
Lemma hs_add_spec t hint (doGetIdle : bool) q e :
  hs_ok q e →
  ∃ e' c, (if doGetIdle then getIdleCPU_env e else (e, None)) = (e', c) ∧ hs_ok (hs_queue t hint q e) e' ∧ framed e e' ∧
    hs_held (hs_queue t hint q e) ++ cpu_tasks e' ≡ₚ t :: hs_held q ++ cpu_tasks e.
Proof.
  intros Hok. destruct (hs_queue_spec t hint q e Hok) as [Hq Hh].
  destruct doGetIdle; [|exists e, None; split_and!; try done; solve_perm].
  destruct (getIdleCPU_env e) as [e' c] eqn:Hi. destruct (getIdleCPU_env_spec e e' c Hi) as [[Hfs Hfp] Hsd].
  exists e', c. split_and!; try done; [by apply (hs_ok_env _ e)|]. unfold cpu_tasks. rewrite Hsd. solve_perm.
Qed.

#[local] Instance priority_scheduler1_laws : SchedulerLaws M PriorityScheduler1.
Proof.
  split; simpl.
  - intros t cpu hint s e Hok [Hd Hl] Ht. unfold p1_addReadyTask_fast, ps_prepare. rewrite Hd, Hl. cbn [failIf mbind res_bind].
    destruct (hs_prioritize (p1_queues s) t e Hok) as (Hok1 & Hsl & Hct & Hpr); [unfold own in Ht; simpl in Ht; set_solver|].
    set (e1 := match at_get_priority A t with Some _ => _ | None => _ end) in *.
    destruct (successor_branch (may_be_successor hint) cpu (e_schedulerData e1)
      (λ c, Ok (s, set_schedulerData c (Some t) e1, Placed)) (Ok (p1_offer s e1))) as [->|(c & Hc & ->)].
    + unfold p1_offer. destruct (p1_pollingSlot s) as [p|] eqn:E; eexists _, _, _; (split; [reflexivity|]);
        split_and!; try done; unfold own; simpl; by rewrite ?Hct, ?E.
    + eexists _, _, _. split; [reflexivity|]. split; [by apply (hs_ok_env _ e1)|]. split_and!; try done.
      unfold own. simpl. rewrite <- Hct. pose proof (cpu_tasks_set c e1 t Hc). solve_perm.
  - intros t hint dg s e Hok _ _. unfold p1_addReadyTask_locked. destruct (p1_pollingSlot s) as [p|] eqn:E.
    { eexists _, _, _, _. split; [reflexivity|]. by rewrite ?E. }
    destruct (hs_add_spec t hint dg (p1_queues s) e Hok) as (e' & c & Hc & Hok' & Hf%(framed_framed_but t) & Hh).
    exists (mkPriorityScheduler1 (hs_queue t hint (p1_queues s) e) None), e', None, c.
    split; [destruct dg; [by rewrite Hc|by simplify_eq]|]. done.
  - intros cpu idle s e Hok. unfold p1_getReadyTask. destruct (at_host A cpu); simpl; [|by exists s, e, None].
    destruct (hs_choose cpu (p1_queues s) e) as [[q e'] o] eqn:Ec.
    destruct (hs_choose_spec _ _ _ _ _ _ Hok Ec) as (Hok' & Hf & Hh & _). eexists _, _, _. split; [reflexivity|].
    destruct o; [done|by destruct idle].
  - intros force s e e' c. apply hs_idle_spec.
  - intros cpu s e s' e' Hok. unfold p1_disableComputePlace.
    destruct (hs_disableComputePlace cpu (p1_queues s) e) as [q e1] eqn:Ed. intros [= <- <-].
    by destruct (hs_disable_spec _ _ _ _ _ Hok Ed) as (? & ? & ?).
  - intros cpu p s e Hok _. unfold p1_requestPolling. destruct (hs_choose cpu (p1_queues s) e) as [[q e'] o] eqn:Ec.
    destruct (hs_choose_spec _ _ _ _ _ _ Hok Ec) as (Hok' & [Hfs Hfp] & Hh & _).
    destruct o as [t|]; [|destruct (p1_pollingSlot s) eqn:E]; eexists _, _, _; (split; [reflexivity|]).
    + split; [by apply (hs_ok_env q e')|]. split; [done|]. left. exists t. simpl. by rewrite Hfs.
    + split; [done|]. split; [done|]. right. right. simpl. split_and!; done.
    + split; [done|]. split; [done|]. right. left. simpl. split_and!; done.
  - intros cpu p s e s' e' b Hok _. unfold p1_releasePolling. case_decide as Hd; intros [= <- <- <-].
    + rewrite Hd. split_and!; try done; try apply Hok. intros q. simpl. set_solver.
    + split_and!; try done; try apply Hok. destruct (p1_pollingSlot s); simpl; set_solver.
  - intros p t s e Hok. by apply (hs_ok_env _ e).
Qed.

Lemma erase_first_elem p l : NoDup l → ∀ q, q ∈ erase_first p l ↔ q ∈ l ∧ q ≠ p.
Proof.
  induction 1 as [|x l Hx Hl IH]; intros q; simpl; [set_solver|]. case_decide as Hxp; [set_solver|].
  rewrite !elem_of_cons, IH. naive_solver.
Qed.

#[local] Instance nosleep_scheduler_laws : SchedulerLaws M NoSleepPriorityScheduler.
Proof.
  split; simpl.
  - intros t cpu hint s e Hok Hd Ht. unfold ns_addReadyTask_fast, ns_prepare. rewrite Hd. cbn [failIf mbind res_bind].
    destruct (hs_prioritize (ns_queues s) t e Hok) as (Hok1 & Hsl & Hct & Hpr); [unfold own in Ht; simpl in Ht; set_solver|].
    set (e1 := match at_get_priority A t with Some _ => _ | None => _ end) in *.
    destruct (successor_branch (may_be_successor hint) cpu (e_schedulerData e1)
      (λ c, Ok (s, set_schedulerData c (Some t) e1, Placed)) (Ok (s, e1, Pending))) as [->|(c & Hc & ->)].
    + eexists _, _, _. split; [reflexivity|]. split_and!; try done; unfold own; simpl; by rewrite ?Hct.
    + eexists _, _, _. split; [reflexivity|]. split; [by apply (hs_ok_env _ e1)|]. split_and!; try done.
      unfold own. simpl. rewrite <- Hct. pose proof (cpu_tasks_set c e1 t Hc). solve_perm.
  - intros t hint dg s e Hok _ _. unfold ns_addReadyTask_locked. destruct (ns_pollingSlots s) as [|p ps] eqn:E.
    2:{ eexists _, _, _, _. split; [reflexivity|]. by rewrite ?E. }
    destruct (hs_add_spec t hint dg (ns_queues s) e Hok) as (e' & c & Hc & Hok' & Hf%(framed_framed_but t) & Hh).
    exists (mkNoSleep (hs_queue t hint (ns_queues s) e) []), e', None, c.
    split; [destruct dg; [by rewrite Hc|by simplify_eq]|]. done.
  - intros cpu idle s e Hok. unfold ns_getReadyTask. destruct (at_host A cpu); simpl; [|by exists s, e, None].
    destruct (hs_choose cpu (ns_queues s) e) as [[q e'] o] eqn:Ec.
    destruct (hs_choose_spec _ _ _ _ _ _ Hok Ec) as (Hok' & Hf & Hh & _). eexists _, _, _. split; [reflexivity|].
    destruct o; [done|by destruct idle].
  - intros force s e e' c. apply hs_idle_spec.
  - intros cpu s e s' e' Hok. unfold ns_disableComputePlace.
    destruct (hs_disableComputePlace cpu (ns_queues s) e) as [q e1] eqn:Ed. intros [= <- <-].
    by destruct (hs_disable_spec _ _ _ _ _ Hok Ed) as (? & ? & ?).
  - intros cpu p s e Hok _. unfold ns_requestPolling. destruct (hs_choose cpu (ns_queues s) e) as [[q e'] o] eqn:Ec.
    destruct (hs_choose_spec _ _ _ _ _ _ Hok Ec) as (Hok' & [Hfs Hfp] & Hh & _).
    destruct o as [t|]; eexists _, _, _; (split; [reflexivity|]).
    + split; [by apply (hs_ok_env q e')|]. split; [done|]. left. exists t. simpl. by rewrite Hfs.
    + split; [done|]. split; [done|]. right. left. simpl. split_and!; [done..|]. solve_perm.
  - intros cpu p s e s' e' b Hok Hnd. unfold ns_releasePolling. case_decide as Hd; intros [= <- <- <-].
    + split_and!; try done; try apply Hok. by apply erase_first_elem.
    + split_and!; try done; apply Hok.
  - intros p t s e Hok. by apply (hs_ok_env _ e).
Qed.
End scheduler.
Arguments queues : clear implicits.
Arguments PriorityScheduler1 : clear implicits.
Arguments NoSleepPriorityScheduler : clear implicits.

(** Task 1 of priority 3 is ready, task 4 of priority 9 is unblocked, task 2 is the successor. *)
Definition heap_attributes : attributes :=
  mkAttributes (λ _, false) (λ _, false) (λ t, if decide (t = 1) then Some 3%Z else if decide (t = 4) then Some 9%Z else None)
    (λ _, true).
Definition e_heap : env (CPUManager (list bool)) :=
  mkEnv {[0 := 2]} ∅ {[1 := 3%Z; 4 := 9%Z]} (e_manager two_cpus).

Lemma hs_chooses_best_task_witness :
  ∃ q' e' t, hs_choose 0 (mkQueues [1] [4]) e_heap = (q', e', Some t) ∧
    (getPriority 4 e_heap ≤ getPriority t e_heap)%Z.
Proof.
  destruct (hs_chooses_best_task (Q := list nat) heap_attributes 0 (mkQueues [1] [4]) e_heap) as (q' & e' & o & H & _ & _ & Ho).
  - split_and!; [repeat constructor..|]. intros t Ht. unfold e_heap. simpl.
    rewrite lookup_insert_ne, lookup_singleton_ne; [done|intros <-; discriminate..].
  - destruct o as [t|].
    + exists q', e', t. split; [exact H|]. apply Ho. apply (bool_decide_unpack _). vm_compute. exact I.
    + discriminate Ho.
Defined.
