(* ===== verification/NaiveSchedulers.v ===== *)
(** * The naive and the FIFO scheduler

    [NaiveScheduler.cpp] and [FIFOScheduler.cpp]: a queue of unblocked tasks and a queue of ready tasks
    without slots or polling.  They differ in the end of the queues they add to.  Unlike the other
    schedulers they take taskloops: a taskloop stays in the queue while it has iterations, a CPU gets a
    collaborator of it, and the taskloops that are found complete are finished after the lock. *)

From S2P Require Import Prelude Boost CpuManager Scheduler SchedulerProofs.
From S2P Require Import PriorityScheduler QueueSchedulers.
Local Open Scope nat_scope.

Record NaiveScheduler := mkNaiveScheduler {
  nv_readyTasks : list nat;
  nv_unblockedTasks : list nat;
}.

(** What a CPU gets: a task, or a new collaborator of a taskloop. *)
Inductive work := RunTask (t : nat) | Collaborate (taskloop : nat).

(** How [getReadyTask] ends: with work, by asking again, or with nothing. *)
Inductive outcome := Work (w : work) | Recheck | NoTask.

Section scheduler.
Context {M : Type} `{!IdleCPUs M} (A : attributes).
Implicit Types (s : NaiveScheduler) (e : env M).

(** [push_back] in the FIFO scheduler; [NANOS6_REQUEUE_TASKLOOP]. *)
Context (fifo requeue : bool).
(** [Taskloop::hasPendingIterations], and whether [markAsFinished] of a taskloop is the last one. *)
Context (hasPendingIterations markAsFinished : nat → bool).

Definition naive_addReadyTask (t : nat) (hint : ReadyTaskHint) (doGetIdle : bool) s e : res (NaiveScheduler * env M * option nat) :=
  _ ← failIf (at_device A t) "Device tasks not supported by this scheduler";
  let s :=
    if decide (hint = UNBLOCKED_TASK_HINT)
    then mkNaiveScheduler (nv_readyTasks s) (queue_push fifo t (nv_unblockedTasks s))
    else mkNaiveScheduler (queue_push fifo t (nv_readyTasks s)) (nv_unblockedTasks s) in
  if doGetIdle then let '(e, c) := getIdleCPU_env e in Ok (s, e, c) else Ok (s, e, None).

(** [getReplacementTask] *)
Definition naive_replacement s : NaiveScheduler * option nat :=
  match nv_unblockedTasks s with
  | t :: q => (mkNaiveScheduler (nv_readyTasks s) q, Some t)
  | [] => (s, None)
  end.

(** The loop of [getReadyTask]: the queue that is left, the work, and the complete taskloops. *)
Fixpoint naive_search (q : list nat) : list nat * option work * list nat :=
  match q with
  | [] => ([], None, [])
  | t :: q' =>
      if negb (at_taskloop A t) then (q', Some (RunTask t), [])
      else if hasPendingIterations t then (if requeue then q' ++ [t] else t :: q', Some (Collaborate t), [])
      else let '(q'', w, complete) := naive_search q' in (q'', w, t :: complete)
  end.

(** [getReadyTask], with the taskloops that it finishes *)
Definition naive_getReadyTask (cpu : nat) (canMarkAsIdle : bool) s e : NaiveScheduler * env M * outcome * list nat :=
  if negb (at_host A cpu) then (s, e, NoTask, [])
  else
    let '(s, task) := naive_replacement s in
    match task with
    | Some t => (s, e, Work (RunTask t), [])
    | None =>
        let '(q, w, complete) := naive_search (nv_readyTasks s) in
        let s := mkNaiveScheduler q (nv_unblockedTasks s) in
        match w with
        | Some w => (s, e, Work w, complete)
        | None =>
            if existsb markAsFinished complete then (s, e, Recheck, complete)
            else (s, if canMarkAsIdle then cpuBecomesIdle_env cpu e else e, NoTask, complete)
        end
    end.

Definition naive_getIdleComputePlace (force : bool) s e : env M * option nat :=
  if force || negb (bool_decide (nv_readyTasks s = [])) || negb (bool_decide (nv_unblockedTasks s = []))
  then getIdleCPU_env e else (e, None).

Definition nv_held s : list nat := nv_readyTasks s ++ nv_unblockedTasks s.

(** ** Taskloops *)

(** The tasks and the taskloops with iterations. *)
Definition live (t : nat) : Prop := at_taskloop A t = false ∨ hasPendingIterations t = true.

#[local] Instance live_dec t : Decision (live t).
Proof. unfold live. apply _. Defined.

(** The complete taskloops at the front of the queue leave it; the first that is not complete is the
    work. *)
Lemma naive_search_spec q :
  ∃ dead rest, q = dead ++ rest ∧ Forall (λ t, ¬ live t) dead ∧
    naive_search q =
      match rest with
      | [] => ([], None, dead)
      | t :: q' =>
          if at_taskloop A t then (if requeue then q' ++ [t] else t :: q', Some (Collaborate t), dead)
          else (q', Some (RunTask t), dead)
      end ∧ (∀ t q', rest = t :: q' → live t).
Proof.
  induction q as [|t q (dead & rest & -> & Hd & Hs & Hl)]; [by exists [], []|]. simpl.
  destruct (at_taskloop A t) eqn:Ht; simpl; [destruct (hasPendingIterations t) eqn:Hi|].
  - exists [], (t :: dead ++ rest). rewrite Ht. split_and!; [done..|]. intros t' q' [= <- <-]. by right.
  - exists (t :: dead), rest. rewrite Hs. split_and!; [done| |by destruct rest; [|destruct (at_taskloop A _)]|done].
    constructor; [|done]. intros [?|?]; congruence.
  - exists [], (t :: dead ++ rest). rewrite Ht. split_and!; [done..|]. intros t' q' [= <- <-]. by left.
Qed.


(** ** The promises of the interface, for tasks that are not taskloops *)

Definition naive_fast (t : nat) (cpu : option nat) (hint : ReadyTaskHint) s e : res (NaiveScheduler * env M * placement) :=
  _ ← failIf (at_device A t) "Device tasks not supported by this scheduler"; Ok (s, e, Pending).

Definition naive_get (cpu : nat) (canMarkAsIdle : bool) s e : res (NaiveScheduler * env M * option nat) :=
  match naive_getReadyTask cpu canMarkAsIdle s e with
  | (s, e, Work (RunTask t), _) => Ok (s, e, Some t)
  | (s, e, NoTask, _) => Ok (s, e, None)
  | _ => Err (Fatal "taskloop")
  end.

Definition naive_scheduler : SchedulerInterface M NaiveScheduler := {|
  sch_held := nv_held;
  sch_pollers _ := [];
  sch_addReadyTask_fast := naive_fast;
  sch_addReadyTask_locked t hint doGetIdle s e :=
    r ← naive_addReadyTask t hint doGetIdle s e; let '(s, e, c) := r in Ok (s, e, None, c);
  sch_getReadyTask := naive_get;
  sch_getIdleComputePlace := naive_getIdleComputePlace;
  sch_disableComputePlace _ s e := (s, e);
  sch_requestPolling := default_requestPolling naive_get;
  sch_releasePolling := default_releasePolling;
  sch_ok s _ := Forall (λ t, at_taskloop A t = false) (nv_held s);
  sch_supports t := at_device A t = false ∧ at_taskloop A t = false;
  sch_prepared t _ := at_device A t = false ∧ at_taskloop A t = false;
|}.

Lemma naive_add_spec t hint dg s e :
  at_device A t = false →
  ∃ s' e' c, naive_addReadyTask t hint dg s e = Ok (s', e', c) ∧ framed e e' ∧ cpu_tasks e' = cpu_tasks e ∧ nv_held s' ≡ₚ t :: nv_held s.
Proof.
  intros Hd. unfold naive_addReadyTask. rewrite Hd. cbn [failIf mbind res_bind]. set (s' := if decide (hint = _) then _ else _).
  assert (nv_held s' ≡ₚ t :: nv_held s) as Hh.
  { unfold s', nv_held. pose proof (queue_push_perm fifo t (nv_unblockedTasks s)). pose proof (queue_push_perm fifo t (nv_readyTasks s)).
    case_decide; simpl; solve_perm. }
  destruct dg; [|by exists s', e, None]. destruct (getIdleCPU_env e) as [e' c] eqn:Hi.
  destruct (getIdleCPU_env_spec e e' c Hi) as [Hf Hsd]. exists s', e', c. split_and!; try done. unfold cpu_tasks. by rewrite Hsd.
Qed.

Lemma naive_get_spec cpu idle s e :
  Forall (λ t, at_taskloop A t = false) (nv_held s) →
  ∃ s' e' o, naive_get cpu idle s e = Ok (s', e', o) ∧ framed e e' ∧ cpu_tasks e' = cpu_tasks e ∧ nv_held s ≡ₚ option_list o ++ nv_held s' ∧
    (o = None → at_host A cpu = true → nv_held s = []).
Proof.
  intros Hl. unfold naive_get, naive_getReadyTask, naive_replacement. destruct (at_host A cpu); simpl; [|by exists s, e, None].
  destruct (nv_unblockedTasks s) as [|t q] eqn:Hu.
  - unfold nv_held in Hl. rewrite Hu, app_nil_r in Hl. destruct (nv_readyTasks s) as [|t q] eqn:Hr; simpl.
    + rewrite Hu. exists (mkNaiveScheduler [] []), (if idle then cpuBecomesIdle_env cpu e else e), None. unfold nv_held. rewrite Hr, Hu.
      by destruct idle.
    + inversion Hl as [|? ? Ht _]; subst. rewrite Ht, Hu. simpl. eexists _, _, _. split; [reflexivity|]. unfold nv_held. simpl.
      rewrite Hr, Hu. split_and!; [done..|]. done.
  - eexists _, _, _. split; [reflexivity|]. unfold nv_held. simpl. rewrite Hu. split_and!; [done..| |done]. solve_perm.
Qed.

Lemma naive_scheduler_laws : @SchedulerLaws M NaiveScheduler naive_scheduler.
Proof.
  split; unfold own; simpl.
  - intros t cpu hint s e Hok [Hd Hl] _. unfold naive_fast. rewrite Hd. exists s, e, Pending. by split_and!.
  - intros t hint dg s e Hok _ [Hd Hl]. destruct (naive_add_spec t hint dg s e Hd) as (s' & e' & c & -> & Hf & Hc & Hh).
    exists s', e', None, c. split_and!; [done|rewrite Hh; by constructor|by apply framed_framed_but| |done]. by rewrite Hc, Hh.
  - intros cpu idle s e Hok. destruct (naive_get_spec cpu idle s e Hok) as (s' & e' & o & -> & Hf & Hc & Hh & _).
    exists s', e', o. rewrite Hc. rewrite Hh, Forall_app in Hok. split_and!; try done; [by destruct Hok|]. rewrite Hh. solve_perm.
  - intros force s e e' c Hok. unfold naive_getIdleComputePlace. destruct (force || _ || _); [|by intros [= <- <-]].
    intros Hi. destruct (getIdleCPU_env_spec e e' c Hi). done.
  - intros cpu s e s' e' Hok [= <- <-]. done.
  - intros cpu p s e Hok Hp. unfold default_requestPolling.
    destruct (naive_get_spec cpu true s e Hok) as (s' & e' & o & -> & [Hfs Hfp] & Hc & Hh & _). cbn [mbind res_bind].
    rewrite Hh, Forall_app in Hok. destruct Hok as [_ Hok]. destruct o as [t|]; eexists _, _, _; (split; [reflexivity|]); unfold setTask.
    + rewrite Hfs, Hp. simpl. split; [done|]. split; [done|]. left. exists t. rewrite Hfs. split_and!; try done.
      change (cpu_tasks (set_slot p (Some t) e')) with (cpu_tasks e'). rewrite Hc, Hh. done.
    + split; [done|]. split; [done|]. right. right. rewrite Hc, Hh. done.
  - intros cpu p s e s' e' b Hok _ [= <- <- <-]. split_and!; try done. case_bool_decide; set_solver.
  - done.
Qed.

(** ** Properties *)

(** [getReadyTask] of the naive and the FIFO scheduler on a CPU gives an unblocked task if there is one, and
    otherwise the first task or the first taskloop with iterations in the queue of ready tasks.  The
    taskloops without iterations that were before it leave the queue, once, to be finished; a taskloop
    that gets a collaborator stays in the queue, at its end when taskloops are requeued.  Without
    work the queue is empty, and the CPU is marked as idle if it may be and no taskloop was finished. *)
Theorem naive_gives_first cpu idle s e :
  at_host A cpu = true →
  let r := naive_getReadyTask cpu idle s e in
  match nv_unblockedTasks s with
  | t :: q => r = (mkNaiveScheduler (nv_readyTasks s) q, e, Work (RunTask t), [])
  | [] =>
      ∃ dead rest, nv_readyTasks s = dead ++ rest ∧ Forall (λ t, ¬ live t) dead ∧
        match rest with
        | [] =>
            r = if existsb markAsFinished dead then (mkNaiveScheduler [] [], e, Recheck, dead)
                else (mkNaiveScheduler [] [], if idle then cpuBecomesIdle_env cpu e else e, NoTask, dead)
        | t :: q =>
            live t ∧
            r = if at_taskloop A t then (mkNaiveScheduler (if requeue then q ++ [t] else t :: q) [], e, Work (Collaborate t), dead)
                else (mkNaiveScheduler q [], e, Work (RunTask t), dead)
        end
  end.
Proof.
  intros Hh r. unfold r, naive_getReadyTask, naive_replacement. rewrite Hh. cbn [negb].
  destruct (nv_unblockedTasks s) as [|t q] eqn:Hu; [|done]. rewrite Hu.
  destruct (naive_search_spec (nv_readyTasks s)) as (dead & rest & Hq & Hd & Hs & Hl). exists dead, rest. split_and!; [done..|].
  rewrite Hs. destruct rest as [|t q]; [by destruct (existsb _ _)|]. split; [by eapply Hl|]. by destruct (at_taskloop A t).
Qed.
(** ** The order of the tasks *)

Fixpoint naive_addAll (ts : list nat) (s : NaiveScheduler) (e : env M) : res (NaiveScheduler * env M) :=
  match ts with
  | [] => Ok (s, e)
  | t :: ts => r ← naive_addReadyTask t NO_HINT false s e; let '(s, e, _) := r in naive_addAll ts s e
  end.

Fixpoint naive_getAll (n : nat) (cpu : nat) (s : NaiveScheduler) (e : env M) : res (list nat) :=
  match n with
  | O => Ok []
  | S n => r ← naive_get cpu true s e; let '(s, e, o) := r in l ← naive_getAll n cpu s e; Ok (option_list o ++ l)
  end.

Lemma naive_addAll_spec ts s e :
  Forall (λ t, at_device A t = false) ts →
  naive_addAll ts s e =
    Ok (mkNaiveScheduler (if fifo then nv_readyTasks s ++ ts else reverse ts ++ nv_readyTasks s) (nv_unblockedTasks s), e).
Proof.
  revert s. induction ts as [|t ts IH]; intros s Hd; cbn [naive_addAll].
  - destruct s. simpl. by destruct fifo; rewrite ?app_nil_r.
  - inversion Hd as [|? ? Ht Hts]; subst. unfold naive_addReadyTask. rewrite Ht. cbn [failIf mbind res_bind].
    rewrite decide_False by done. rewrite (IH _ Hts). simpl. unfold queue_push. destruct fifo; [by rewrite <- app_assoc|].
    rewrite reverse_cons, <- app_assoc. done.
Qed.

Lemma naive_getAll_spec cpu ts e :
  at_host A cpu = true → Forall (λ t, at_taskloop A t = false) ts → naive_getAll (length ts) cpu (mkNaiveScheduler ts []) e = Ok ts.
Proof.
  intros Hh. revert e. induction ts as [|t ts IH]; intros e Hl; cbn [naive_getAll length]; [done|]. inversion Hl as [|? ? Ht Hts]; subst.
  unfold naive_get at 1, naive_getReadyTask. rewrite Hh. simpl. rewrite Ht. cbn. by rewrite (IH e Hts).
Qed.

(** Tasks that are added to an empty scheduler come out in the order in which they were added with the FIFO
    scheduler, and in the opposite order with the naive one. *)
Theorem naive_roundtrip cpu ts e :
  at_host A cpu = true → Forall (λ t, at_device A t = false) ts → Forall (λ t, at_taskloop A t = false) ts →
  (r ← naive_addAll ts (mkNaiveScheduler [] []) e; naive_getAll (length ts) cpu r.1 r.2) = Ok (if fifo then ts else reverse ts).
Proof.
  intros Hh Hd Hl. rewrite naive_addAll_spec by done. cbn [mbind res_bind fst snd nv_readyTasks nv_unblockedTasks].
  destruct fifo; [by apply naive_getAll_spec|]. rewrite app_nil_r, <- length_reverse. apply naive_getAll_spec; [done|]. by apply Forall_reverse.
Qed.
End scheduler.

(** Tasks 7 and 8 are taskloops, 7 is complete. *)
Definition loop_attributes : attributes := mkAttributes (λ _, false) (λ t, (t =? 7) || (t =? 8)) (λ _, None) (λ _, true).

Lemma naive_gives_first_witness :
  naive_getReadyTask loop_attributes true (λ t, t =? 8) (λ _, true) 0 true (mkNaiveScheduler [7; 8; 3] []) two_cpus
  = (mkNaiveScheduler [3; 8] [], two_cpus, Work (Collaborate 8), [7]).
Proof.
  destruct (naive_gives_first loop_attributes true (λ t, t =? 8) (λ _, true) 0 true (mkNaiveScheduler [7; 8; 3] []) two_cpus eq_refl)
    as (dead & rest & Hq & Hd & Hr).
  destruct dead as [|a [|b dead]].
  - cbn in Hq. subst rest. destruct Hr as [[Hr|Hr] _]; discriminate Hr.
  - cbn in Hq. injection Hq as <- <-. apply Hr.
  - cbn in Hq. injection Hq as <- <- Hq. inversion Hd as [|? ? _ Hd']; subst. inversion Hd' as [|? ? Hb _]; subst. destruct Hb. by right.
Defined.

Lemma naive_roundtrip_witness :
  (r ← naive_addAll loop_attributes true [3; 1; 2] (mkNaiveScheduler [] []) two_cpus;
   naive_getAll loop_attributes false (λ _, true) (λ _, true) (length [3; 1; 2]) 0 r.1 r.2) = Ok [3; 1; 2].
Proof.
  apply (naive_roundtrip loop_attributes true false (λ _, true) (λ _, true) 0 [3; 1; 2] two_cpus); [done|by repeat constructor..].
Defined.
