(* ===== verification/NumaScheduler.v ===== *)
(** * The scheduler of the NUMA nodes

    [NUMAHierarchicalScheduler.cpp]: a scheduler per NUMA node, with the number of tasks that were sent
    to each and of the CPUs that are enabled in each.  It is a client of the interface of the schedulers,
    and what is proved of it holds for every scheduler that keeps the promises of the interface. *)

From S2P Require Import Prelude Boost CpuManager Scheduler SchedulerProofs.
From S2P Require Import PriorityScheduler QueueSchedulers.
Local Open Scope nat_scope.

(** [CPUManager::getIdleNUMANodeCPU]; the manager has a mask for every node. *)
Class NodeIdleCPUs (M : Type) := idle_take_node : nat → M → M * option nat.

#[export] Instance manager_node_idle {B} `{!DynamicBitset B} : NodeIdleCPUs (CPUManager B) :=
  λ n m, match getIdleNUMANodeCPU n m with Ok r => r | Err _ => (m, None) end.

Record NUMAScheduler (S : Type) := mkNUMAScheduler {
  nm_NUMANodeScheduler : list S;
  nm_readyTasks : list Z;
  nm_enabledCPUs : list Z;
}.
Arguments mkNUMAScheduler {S}.
Arguments nm_NUMANodeScheduler {S}.
Arguments nm_readyTasks {S}.
Arguments nm_enabledCPUs {S}.

Section numa.
Context {M S : Type} `{!IdleCPUs M, !NodeIdleCPUs M, !SchedulerInterface M S} (A : attributes).
(** [_NUMANodeId] of a CPU, and of the CPU of the thread of a task. *)
Context (node_of thread_node : nat → nat).
Implicit Types (s : NUMAScheduler S) (e : env M).

Definition count (l : list Z) (n : nat) : Z := default 0%Z (l !! n).
Definition bump (d : Z) (n : nat) (l : list Z) : list Z := <[n := wrap_int (count l n + d)]> l.
Definition put_node (n : nat) (x : S) s : NUMAScheduler S :=
  mkNUMAScheduler (<[n := x]> (nm_NUMANodeScheduler s)) (nm_readyTasks s) (nm_enabledCPUs s).
Definition bump_ready (d : Z) (n : nat) s : NUMAScheduler S :=
  mkNUMAScheduler (nm_NUMANodeScheduler s) (bump d n (nm_readyTasks s)) (nm_enabledCPUs s).
Definition bump_enabled (d : Z) (n : nat) s : NUMAScheduler S :=
  mkNUMAScheduler (nm_NUMANodeScheduler s) (nm_readyTasks s) (bump d n (nm_enabledCPUs s)).

Definition getIdleNUMANodeCPU_env (n : nat) e : env M * option nat :=
  let '(m, c) := idle_take_node n (e_manager e) in (set_manager m e, c).

(** The loop over the nodes that finds the least loaded one; the minimum is -1 before the first. *)
Fixpoint min_loop (numa : nat) (l : list (Z * Z)) (min_load min_idx : Z) : Z * Z :=
  match l with
  | [] => (min_load, min_idx)
  | (enabled, ready) :: l =>
      if (0 <? enabled)%Z && ((min_load =? -1)%Z || (ready <? min_load)%Z)
      then min_loop (Datatypes.S numa) l ready (Z.of_nat numa)
      else min_loop (Datatypes.S numa) l min_load min_idx
  end.

Definition least_loaded s : Z * Z := min_loop 0 (zip (nm_enabledCPUs s) (nm_readyTasks s)) (-1) (-1).

(** The call of a node: one more task in it, and its [addReadyTask]. *)
Definition node_addReadyTask (n t : nat) (cpu : option nat) (hint : ReadyTaskHint) (doGetIdle : bool) s e :
    res (NUMAScheduler S * env M) :=
  x ← get (nm_NUMANodeScheduler s !! n);
  r ← sch_addReadyTask t cpu hint doGetIdle x e;
  let '(x, e, _) := r in Ok (put_node n x (bump_ready 1 n s), e).

Definition numa_addReadyTask (t : nat) (computePlace : option nat) (hint : ReadyTaskHint) (doGetIdle : bool) s e :
    res (NUMAScheduler S * env M * option nat) :=
  _ ← failIf (at_device A t) "Device tasks not supported by this scheduler";
  _ ← failIf (at_taskloop A t) "Task loop not supported by this scheduler";
  if decide (hint = UNBLOCKED_TASK_HINT) then
    r ← node_addReadyTask (thread_node t) t computePlace hint doGetIdle s e; Ok (r.1, r.2, None)
  else
    let min_idx := (least_loaded s).2 in
    _ ← failIf (min_idx =? -1)%Z "assertion";
    r ← node_addReadyTask (Z.to_nat min_idx) t computePlace hint false s e;
    let '(s, e) := r in
    if doGetIdle then
      let '(e, cp) := getIdleNUMANodeCPU_env (Z.to_nat min_idx) e in
      match cp with
      | Some c => Ok (s, e, Some c)
      | None => let '(e, c) := getIdleCPU_env e in Ok (s, e, c)
      end
    else Ok (s, e, None).

(** The call of a node: its [getReadyTask], and one task less in it when it gives one. *)
Definition node_getReadyTask (n cpu : nat) s e : res (NUMAScheduler S * env M * option nat) :=
  x ← get (nm_NUMANodeScheduler s !! n);
  r ← sch_getReadyTask cpu false x e;
  let '(x, e, task) := r in
  let s := put_node n x s in
  match task with Some t => Ok (bump_ready (-1) n s, e, Some t) | None => Ok (s, e, None) end.

(** The loop over the nodes that finds the most loaded one. *)
Fixpoint max_loop (i : nat) (l : list Z) (max_load : Z) (max_idx : nat) : nat :=
  match l with
  | [] => max_idx
  | ready :: l => if (max_load <? ready)%Z then max_loop (Datatypes.S i) l ready i else max_loop (Datatypes.S i) l max_load max_idx
  end.

Definition numa_getReadyTask (cpu : nat) (canMarkAsIdle : bool) s e : res (NUMAScheduler S * env M * option nat) :=
  if negb (at_host A cpu) then Ok (s, e, None)
  else
    let numa_node := node_of cpu in
    r ← (if (0 <? count (nm_readyTasks s) numa_node)%Z then node_getReadyTask numa_node cpu s e else Ok (s, e, None));
    r ← (match r with
         | (s, e, Some t) => Ok (s, e, Some t)
         | (s, e, None) => node_getReadyTask (max_loop 0 (nm_readyTasks s) (count (nm_readyTasks s) numa_node) numa_node) cpu s e
         end);
    let '(s, e, task) := r in
    match task with
    | Some t => Ok (s, e, Some t)
    | None => Ok (s, if canMarkAsIdle then cpuBecomesIdle_env cpu e else e, None)
    end.

(** The loop over the nodes with enabled CPUs and tasks. *)
Fixpoint idle_loop (numa : nat) (l : list (Z * Z)) e : env M * option nat :=
  match l with
  | [] => (e, None)
  | (enabled, ready) :: l =>
      if (0 <? enabled)%Z && (0 <? ready)%Z then
        let '(e, cp) := getIdleNUMANodeCPU_env numa e in
        match cp with Some c => (e, Some c) | None => idle_loop (Datatypes.S numa) l e end
      else idle_loop (Datatypes.S numa) l e
  end.

Definition numa_getIdleComputePlace (force : bool) s e : env M * option nat :=
  if force then getIdleCPU_env e else idle_loop 0 (zip (nm_enabledCPUs s) (nm_readyTasks s)) e.

Definition numa_disableComputePlace (cpu : nat) s e : res (NUMAScheduler S * env M) :=
  let n := node_of cpu in
  _ ← failIf (count (nm_enabledCPUs s) n <=? 0)%Z "assertion";
  x ← get (nm_NUMANodeScheduler s !! n);
  let '(x, e) := sch_disableComputePlace cpu x e in Ok (put_node n x (bump_enabled (-1) n s), e).

(** The schedulers of the nodes do nothing in [enableComputePlace]. *)
Definition numa_enableComputePlace (cpu : nat) s : NUMAScheduler S := bump_enabled 1 (node_of cpu) s.

Definition numa_requestPolling (cpu p : nat) s e : res (NUMAScheduler S * env M * bool) :=
  let n := node_of cpu in
  x ← get (nm_NUMANodeScheduler s !! n);
  r ← sch_requestPolling cpu p x e;
  let '(x, e, b) := r in Ok (put_node n x s, e, b).

Definition numa_releasePolling (cpu p : nat) s e : res (NUMAScheduler S * env M * bool) :=
  let n := node_of cpu in
  x ← get (nm_NUMANodeScheduler s !! n);
  let '(x, e, b) := sch_releasePolling cpu p x e in Ok (put_node n x s, e, b).

Definition getAvailableNUMANodeCount s : nat := length (filter (λ enabled, 0 < enabled)%Z (nm_enabledCPUs s)).
End numa.

(** The constructor: the CPUs of the manager with their NUMA nodes, and a scheduler for every node. *)
Definition new_numa {S} (NUMANodeCount : nat) (cpus : list (option nat)) (createNUMANodeScheduler : nat → S) : NUMAScheduler S :=
  mkNUMAScheduler (createNUMANodeScheduler <$> seq 0 NUMANodeCount) (replicate NUMANodeCount 0%Z)
    (foldl (λ enabled cpu, match cpu with Some n => bump 1 n enabled | None => enabled end) (replicate NUMANodeCount 0%Z) cpus).

(** What the scheduler of a node keeps true does not depend on the rest of the system, except for the
    priorities of the tasks that it has; a thread that stops polling leaves no other one twice. *)
Class SchedulerFrame (M S : Type) `{!SchedulerInterface M S} := {
  frame_ok (x y : S) (e e' : env M) :
    sch_ok x e → sch_ok y e' → (∀ t, t ∈ sch_held x → e_priority e' !! t = e_priority e !! t) → sch_ok x e';
  frame_env (x : S) (e e' : env M) : sch_ok x e → e_priority e' = e_priority e → sch_ok x e';
  frame_release (cpu p : nat) (x : S) (e : env M) :
    sch_ok x e → NoDup (sch_pollers x) → NoDup (sch_pollers (sch_releasePolling cpu p x e).1.1);
}.

(** ** One node *)

Section node.
Context {M S : Type} `{!IdleCPUs M, !SchedulerInterface M S, !SchedulerLaws M S}.
Implicit Types (x : S) (e : env M).

(** How a call changes what a scheduler and the slots have: the tasks [a] come in and [o] go out, and the
    slots of the threads that poll and those of [P] may change. *)
Record moves (a o P : list nat) (x x' : S) (e e' : env M) : Prop := {
  mv_ok : sch_ok x' e';
  mv_priority : ∀ t, t ∉ a → e_priority e' !! t = e_priority e !! t;
  mv_tasks : a ++ own x e ++ slot_tasks e ≡ₚ o ++ own x' e' ++ slot_tasks e';
  mv_slots : ∀ p, p ∉ sch_pollers x → p ∉ P → e_slots e' !! p = e_slots e !! p;
  mv_new : ∀ p, p ∈ sch_pollers x' → p ∈ sch_pollers x ∨ p ∈ P;
  mv_pollers : ∀ p, p ∈ sch_pollers x' → e_slots e' !! p = None;
  mv_nodup : NoDup (sch_pollers x');
}.

Context (x : S) (e : env M) (Hok : sch_ok x e) (Hnd : NoDup (sch_pollers x)) (Hsl : ∀ p, p ∈ sch_pollers x → e_slots e !! p = None).

Lemma slot_tasks_set p t e1 : e_slots e1 !! p = None → slot_tasks (set_slot p (Some t) e1) ≡ₚ t :: slot_tasks e1.
Proof. intros Hp. unfold slot_tasks. simpl. exact (vals_insert_new (e_slots e1) p t Hp). Qed.

(** The task is written to the slot of a thread that polls. *)
Lemma deliver_moves t p x' e' :
  sch_ok x' e' → e_slots e' = e_slots e → (∀ t', t' ≠ t → e_priority e' !! t' = e_priority e !! t') →
  own x' e' ≡ₚ own x e → sch_pollers x ≡ₚ p :: sch_pollers x' → moves [t] [] [] x x' e (setTask p t e').1.
Proof.
  intros Hok' Hs Hp Ho Hpoll. assert (e_slots e' !! p = None) as Hfree by (rewrite Hs; apply Hsl; rewrite Hpoll; left).
  pose proof Hnd as Hnd'. rewrite Hpoll in Hnd'. apply NoDup_cons in Hnd' as [Hnp Hnd'].
  unfold setTask. rewrite Hfree. simpl. split; try done.
  - by apply law_slot.
  - intros t' Ht'. apply Hp. set_solver.
  - pose proof (slot_tasks_set p t e' Hfree) as Hst. assert (slot_tasks e' = slot_tasks e) as He by (unfold slot_tasks; by rewrite Hs).
    rewrite Hst, He. change (own x' (set_slot p (Some t) e')) with (own x' e'). solve_perm.
  - intros q Hq _. simpl. rewrite Hpoll in Hq. assert (q ≠ p) by set_solver. change (partial_alter _ _ _) with (<[p := t]> (e_slots e')).
    rewrite lookup_insert_ne by done. by rewrite Hs.
  - intros q Hq. left. rewrite Hpoll. by right.
  - intros q Hq. simpl. assert (q ≠ p) by set_solver. change (partial_alter _ _ _) with (<[p := t]> (e_slots e')).
    rewrite lookup_insert_ne by done. rewrite Hs. apply Hsl. rewrite Hpoll. by right.
Qed.

(** The slots stay as they are. *)
Lemma quiet_moves a o x' e' :
  sch_ok x' e' → e_slots e' = e_slots e → (∀ t, t ∉ a → e_priority e' !! t = e_priority e !! t) →
  a ++ own x e ≡ₚ o ++ own x' e' → (∀ p, p ∈ sch_pollers x' → p ∈ sch_pollers x) → NoDup (sch_pollers x') → moves a o [] x x' e e'.
Proof.
  intros Hok' Hs Hp Ho Hpoll Hnd'. assert (slot_tasks e' = slot_tasks e) as He by (unfold slot_tasks; by rewrite Hs).
  split; try done; [rewrite He; solve_perm|by intros; rewrite Hs|by auto|]. intros p Hq. rewrite Hs. auto.
Qed.

Lemma moves_weaken a o P x' e' : moves a o [] x x' e e' → moves a o P x x' e e'.
Proof.
  intros [H1 H2 H3 H4 H5 H6 H7]. split; try done; [intros p Hp _; apply H4; set_solver|]. intros p Hp. destruct (H5 p Hp); set_solver.
Qed.

Lemma add_moves t cpu hint doGetIdle :
  sch_supports t → t ∉ own x e →
  ∃ x' e' c, sch_addReadyTask t cpu hint doGetIdle x e = Ok (x', e', c) ∧ moves [t] [] [] x x' e e'.
Proof.
  intros Hsup Ht. unfold sch_addReadyTask.
  destruct (law_fast t cpu hint x e Hok Hsup Ht) as (x1 & e1 & pl & -> & Hok1 & Hs1 & Hp1 & Hpl). cbn [mbind res_bind].
  destruct pl as [|p|].
  - destruct Hpl as [Ho Hpo]. eexists _, _, _. split; [done|]. apply quiet_moves; first [done|by rewrite Ho|by rewrite Hpo|intros t' Ht'; apply Hp1; set_solver].
  - destruct Hpl as [Ho Hpo]. eexists _, _, _. split; [done|]. by apply deliver_moves.
  - destruct Hpl as (Ho & Hpo & Hprep). destruct (law_locked t hint doGetIdle x1 e1 Hok1) as (x2 & e2 & d & c & -> & Hok2 & [Hs2 Hp2] & Hd); [by rewrite Ho|done|].
    cbn [mbind res_bind]. assert (e_slots e2 = e_slots e) as Hs by congruence.
    assert (∀ t', t' ≠ t → e_priority e2 !! t' = e_priority e !! t') as Hp by (intros t' Hne; by rewrite Hp2, Hp1).
    destruct d as [p|]; destruct Hd as [Ho2 Hpo2]; rewrite Ho in Ho2; rewrite Hpo in Hpo2; eexists _, _, _; (split; [done|]).
    + by apply deliver_moves.
    + apply quiet_moves; first [done|by rewrite Ho2|by rewrite Hpo2|intros t' Ht'; apply Hp; set_solver].
Qed.

Lemma get_moves cpu canMarkAsIdle :
  ∃ x' e' o, sch_getReadyTask cpu canMarkAsIdle x e = Ok (x', e', o) ∧ moves [] (option_list o) [] x x' e e'.
Proof.
  destruct (law_get cpu canMarkAsIdle x e Hok) as (x' & e' & o & -> & Hok' & [Hs Hp] & Hpo & Ho). exists x', e', o. split; [done|].
  apply quiet_moves; first [done|by rewrite Hp|by rewrite Hpo].
Qed.

Lemma disable_moves cpu x' e' : sch_disableComputePlace cpu x e = (x', e') → moves [] [] [] x x' e e'.
Proof.
  intros Hd. destruct (law_disable cpu x e x' e' Hok Hd) as (Hok' & [Hs Hp] & Hpo & Ho).
  apply quiet_moves; first [done|by rewrite Hp|by rewrite Ho|by rewrite Hpo].
Qed.

(** The thread of slot [p] gets a task, becomes the one that polls, or neither. *)
Lemma request_moves cpu p :
  e_slots e !! p = None → p ∉ sch_pollers x →
  ∃ x' e' b, sch_requestPolling cpu p x e = Ok (x', e', b) ∧ moves [] [] [p] x x' e e'.
Proof.
  intros Hfree Hp. destruct (law_request cpu p x e Hok Hfree) as (x' & e' & b & -> & Hok' & Hpr & Hcase).
  exists x', e', b. split; [done|]. destruct Hcase as [(t & -> & Hs & Ho & Hpo)|[(-> & Hs & Ho & Hpo)|(-> & Hs & Ho & Hpo)]].
  - split; try done; rewrite ?Hpo; try done.
    + by rewrite Hpr.
    + rewrite Ho. assert (slot_tasks e' ≡ₚ t :: slot_tasks e) as Hst by (unfold slot_tasks; rewrite Hs; by apply vals_insert_new). rewrite Hst. solve_perm.
    + intros q Hq Hq'. rewrite Hs, lookup_insert_ne; [done|set_solver].
    + by left.
    + intros q Hq. rewrite Hs, lookup_insert_ne; [by apply Hsl|set_solver].
  - assert (slot_tasks e' = slot_tasks e) as He by (unfold slot_tasks; by rewrite Hs). split; try done.
    + by rewrite Hpr.
    + rewrite He, Ho. done.
    + intros q _ _. by rewrite Hs.
    + intros q. rewrite Hpo. set_solver.
    + intros q. rewrite Hpo, Hs. intros [->|Hq]%elem_of_cons; auto.
    + rewrite Hpo. by constructor.
  - eapply moves_weaken, quiet_moves; first [done|by rewrite Hpr|by rewrite Hpo|by rewrite Ho].
Qed.

Lemma release_moves `{!SchedulerFrame M S} cpu p x' e' b : sch_releasePolling cpu p x e = (x', e', b) → moves [] [] [] x x' e e'.
Proof.
  intros Hd. destruct (law_release cpu p x e x' e' b Hok Hnd Hd) as (Hok' & [Hs Hp] & Ho & Hpo).
  pose proof (frame_release cpu p x e Hok Hnd) as Hnd'. rewrite Hd in Hnd'. cbn in Hnd'.
  apply quiet_moves; [done|done|by rewrite Hp|by rewrite Ho| |done]. intros q Hq. destruct b; [by apply Hpo in Hq as [? _]|].
  destruct Hpo as [Hpo _]. by rewrite Hpo in Hq.
Qed.
End node.

(** ** All the nodes *)

Section conservation.
Context {M S : Type} `{!IdleCPUs M, !NodeIdleCPUs M, !SchedulerInterface M S, !SchedulerLaws M S, !SchedulerFrame M S} (A : attributes).
Context (node_of thread_node : nat → nat).
Implicit Types (s : NUMAScheduler S) (e : env M) (x : S).

Definition numa_held s : list nat := nm_NUMANodeScheduler s ≫= sch_held.
Definition numa_pollers s : list nat := nm_NUMANodeScheduler s ≫= sch_pollers.
(** The tasks in the nodes, in the slots of the CPUs, and in the polling slots. *)
Definition numa_tasks s e : list nat := numa_held s ++ cpu_tasks e ++ slot_tasks e.

Record numa_inv s e : Prop := {
  nu_ready : length (nm_readyTasks s) = length (nm_NUMANodeScheduler s);
  nu_enabled : length (nm_enabledCPUs s) = length (nm_NUMANodeScheduler s);
  nu_ok : ∀ n x, nm_NUMANodeScheduler s !! n = Some x → sch_ok x e;
  nu_pollers : NoDup (numa_pollers s);
  nu_slots : ∀ p, p ∈ numa_pollers s → e_slots e !! p = None;
  nu_tasks : NoDup (numa_tasks s e);
}.

Lemma node_split n x (f : S → list nat) l :
  l !! n = Some x → ∃ before after, l ≫= f = before ++ f x ++ after ∧ (∀ x', <[n := x']> l ≫= f = before ++ f x' ++ after) ∧
    ∀ m y, m ≠ n → l !! m = Some y → f y ⊆ before ++ after.
Proof.
  intros Hx. exists (take n l ≫= f), (drop (Datatypes.S n) l ≫= f). assert (n < length l) as Hn by (by eapply lookup_lt_Some). split_and!.
  - rewrite <- (take_drop_middle l n x Hx) at 1. by rewrite bind_app.
  - intros x'. rewrite insert_take_drop by done. by rewrite bind_app.
  - intros m y Hm Hy. rewrite <- bind_app. intros t Ht. apply list_elem_of_bind. exists y. split; [done|]. apply elem_of_app.
    destruct (decide (m < n)) as [Hlt|Hge]; [left|right]; apply list_elem_of_lookup.
    + exists m. by rewrite lookup_take_lt.
    + exists (m - Datatypes.S n). rewrite lookup_drop. rewrite <- Hy. f_equal. lia.
Qed.

(** A call of a node keeps the invariant, and accounts for the tasks. *)
Lemma numa_moves n x x' s e e' a o P s' :
  numa_inv s e → nm_NUMANodeScheduler s !! n = Some x → moves a o P x x' e e' →
  (∀ p, p ∈ P → p ∉ numa_pollers s) → NoDup (a ++ numa_tasks s e) →
  nm_NUMANodeScheduler s' = <[n := x']> (nm_NUMANodeScheduler s) →
  length (nm_readyTasks s') = length (nm_readyTasks s) → length (nm_enabledCPUs s') = length (nm_enabledCPUs s) →
  numa_inv s' e' ∧ a ++ numa_tasks s e ≡ₚ o ++ numa_tasks s' e'.
Proof.
  intros Hi Hx Hm HP Ha Hs' Hl1 Hl2.
  destruct (node_split n x sch_held _ Hx) as (bh & ah & Hh & Hh' & Hho). destruct (node_split n x sch_pollers _ Hx) as (bp & ap & Hp & Hp' & Hpo).
  specialize (Hh' x'). specialize (Hp' x'). rewrite <- Hs' in Hh', Hp'.
  assert (a ++ numa_tasks s e ≡ₚ o ++ numa_tasks s' e') as Htasks.
  { pose proof (mv_tasks _ _ _ _ _ _ _ Hm) as Ht. unfold own in Ht. unfold numa_tasks, numa_held. rewrite Hh, Hh'. solve_perm. }
  split; [|done]. split.
  - rewrite Hl1, Hs', length_insert. apply Hi.
  - rewrite Hl2, Hs', length_insert. apply Hi.
  - intros m y. rewrite Hs'. intros [(-> & -> & _)|[Hne Hy]]%list_lookup_insert_Some; [apply Hm|].
    eapply frame_ok; [by eapply (nu_ok _ _ Hi)|apply Hm|]. intros t Ht. apply Hm. intros Hta.
    apply NoDup_app in Ha as (_ & Ha & _). apply (Ha t Hta). unfold numa_tasks, numa_held. rewrite Hh. specialize (Hho m y ltac:(done) Hy t Ht). set_solver.
  - pose proof (nu_pollers _ _ Hi) as Hn. unfold numa_pollers in *. rewrite Hp in Hn. rewrite Hp'.
    assert (∀ p, p ∈ bp ++ ap → p ∉ sch_pollers x') as Hdisj.
    { intros p Hin [Hpx|Hpx]%(mv_new _ _ _ _ _ _ _ Hm); [|apply (HP p Hpx); rewrite Hp; set_solver].
      rewrite (Permutation_app_comm (sch_pollers x)), app_assoc in Hn. apply NoDup_app in Hn as (_ & Hn & _). by apply (Hn p Hin). }
    rewrite (Permutation_app_comm (sch_pollers x)), app_assoc in Hn. rewrite (Permutation_app_comm (sch_pollers x')), app_assoc.
    apply NoDup_app in Hn as (Hn & _ & _). apply NoDup_app. split_and!; [done|done|apply Hm].
  - intros p. unfold numa_pollers. rewrite Hp'. intros Hin.
    destruct (decide (p ∈ sch_pollers x')) as [Hpx|Hpx]; [by apply Hm|].
    assert (p ∈ numa_pollers s) as Hps by (unfold numa_pollers; rewrite Hp; set_solver).
    assert (p ∉ sch_pollers x) as Hnx.
    { pose proof (nu_pollers _ _ Hi) as Hn. unfold numa_pollers in Hn. rewrite Hp, (Permutation_app_comm (sch_pollers x)), app_assoc in Hn.
      apply NoDup_app in Hn as (_ & Hn & _). apply (Hn p). set_solver. }
    rewrite (mv_slots _ _ _ _ _ _ _ Hm) by (first [done|intros HpP; by apply (HP p HpP)]). by apply Hi.
  - rewrite Htasks in Ha. by apply NoDup_app in Ha as (_ & _ & Ha).
Qed.

Lemma node_slots n x s e : numa_inv s e → nm_NUMANodeScheduler s !! n = Some x → NoDup (sch_pollers x) ∧ ∀ p, p ∈ sch_pollers x → e_slots e !! p = None.
Proof.
  intros Hi Hx. destruct (node_split n x sch_pollers _ Hx) as (bp & ap & Hp & _). pose proof (nu_pollers _ _ Hi) as Hn. unfold numa_pollers in Hn.
  rewrite Hp in Hn. split; [apply NoDup_app in Hn as (_ & _ & Hn); by apply NoDup_app in Hn as (Hn & _)|].
  intros p Hin. apply (nu_slots _ _ Hi). unfold numa_pollers. rewrite Hp. set_solver.
Qed.

(** What does not concern the nodes. *)
Lemma numa_env s e e' s' :
  numa_inv s e → framed e e' → e_schedulerData e' = e_schedulerData e → nm_NUMANodeScheduler s' = nm_NUMANodeScheduler s →
  length (nm_readyTasks s') = length (nm_readyTasks s) → length (nm_enabledCPUs s') = length (nm_enabledCPUs s) →
  numa_inv s' e' ∧ numa_tasks s' e' = numa_tasks s e.
Proof.
  intros Hi [Hs Hp] Hd Hn Hl1 Hl2. assert (numa_tasks s' e' = numa_tasks s e) as Ht.
  { unfold numa_tasks, numa_held, cpu_tasks, slot_tasks. by rewrite Hn, Hd, Hs. }
  split; [|done]. split.
  - rewrite Hl1, Hn. apply Hi.
  - rewrite Hl2, Hn. apply Hi.
  - intros n x. rewrite Hn. intros Hx. eapply frame_env; [by eapply (nu_ok _ _ Hi)|done].
  - unfold numa_pollers. rewrite Hn. apply Hi.
  - unfold numa_pollers. rewrite Hn, Hs. apply Hi.
  - rewrite Ht. apply Hi.
Qed.


(** ** The calls *)

Record numa_run := mkNumaRun {
  nr_sched : NUMAScheduler S;
  nr_env : env M;
  nr_submitted : list nat;
  nr_returned : list nat;
}.

(** The calls that can be made in a state, one after the other, each run without interruption, with the condition
    under which it may fail and its result.  A CPU or a thread is in one of the nodes; the schedulers of the
    nodes support the tasks that this one accepts; the thread of a polling slot takes the task that it finds in it.
    [addReadyTask] may fail for the tasks of devices and for taskloops, which it refuses, and when no CPU is enabled;
    [disableComputePlace] when no CPU of the node is enabled. *)
Inductive numa_calls (r : numa_run) : Prop → res numa_run → Prop :=
  | call_add t cpu hint doGetIdle :
      (at_device A t = false → at_taskloop A t = false → sch_supports t) → t ∉ numa_tasks (nr_sched r) (nr_env r) →
      thread_node t < length (nm_NUMANodeScheduler (nr_sched r)) →
      numa_calls r (at_device A t = true ∨ at_taskloop A t = true ∨ ¬ Exists (λ c, 0 < c)%Z (nm_enabledCPUs (nr_sched r)))
        (q ← numa_addReadyTask A thread_node t cpu hint doGetIdle (nr_sched r) (nr_env r);
         Ok (mkNumaRun q.1.1 q.1.2 (nr_submitted r ++ [t]) (nr_returned r)))
  | call_get cpu canMarkAsIdle :
      node_of cpu < length (nm_NUMANodeScheduler (nr_sched r)) →
      numa_calls r False
        (q ← numa_getReadyTask A node_of cpu canMarkAsIdle (nr_sched r) (nr_env r);
         Ok (mkNumaRun q.1.1 q.1.2 (nr_submitted r) (nr_returned r ++ option_list q.2)))
  | call_idle force :
      numa_calls r False
        (Ok (mkNumaRun (nr_sched r) (numa_getIdleComputePlace force (nr_sched r) (nr_env r)).1 (nr_submitted r) (nr_returned r)))
  | call_disable cpu :
      numa_calls r (count (nm_enabledCPUs (nr_sched r)) (node_of cpu) ≤ 0)%Z
        (q ← numa_disableComputePlace node_of cpu (nr_sched r) (nr_env r); Ok (mkNumaRun q.1 q.2 (nr_submitted r) (nr_returned r)))
  | call_enable cpu :
      numa_calls r False (Ok (mkNumaRun (numa_enableComputePlace node_of cpu (nr_sched r)) (nr_env r) (nr_submitted r) (nr_returned r)))
  | call_request cpu p :
      node_of cpu < length (nm_NUMANodeScheduler (nr_sched r)) → e_slots (nr_env r) !! p = None → p ∉ numa_pollers (nr_sched r) →
      numa_calls r False
        (q ← numa_requestPolling node_of cpu p (nr_sched r) (nr_env r); Ok (mkNumaRun q.1.1 q.1.2 (nr_submitted r) (nr_returned r)))
  | call_release cpu p :
      node_of cpu < length (nm_NUMANodeScheduler (nr_sched r)) →
      numa_calls r False
        (q ← numa_releasePolling node_of cpu p (nr_sched r) (nr_env r); Ok (mkNumaRun q.1.1 q.1.2 (nr_submitted r) (nr_returned r)))
  | call_poll p :
      numa_calls r False
        (Ok (mkNumaRun (nr_sched r) (getTask p (nr_env r)).1 (nr_submitted r) (nr_returned r ++ option_list (getTask p (nr_env r)).2))).

Record numa_ok (r : numa_run) : Prop := {
  no_inv : numa_inv (nr_sched r) (nr_env r);
  no_conserved : nr_submitted r ≡ₚ nr_returned r ++ numa_tasks (nr_sched r) (nr_env r);
}.

Definition numa_succeeds (q : res numa_run) : Prop := ∃ r, q = Ok r ∧ numa_ok r.

Lemma bump_length d n l : length (bump d n l) = length l.
Proof. apply length_insert. Qed.

Lemma take_idle_env n e : framed e (getIdleNUMANodeCPU_env n e).1 ∧ e_schedulerData (getIdleNUMANodeCPU_env n e).1 = e_schedulerData e.
Proof. unfold getIdleNUMANodeCPU_env. by destruct (idle_take_node n (e_manager e)). Qed.

Section call.
Context (r : numa_run) (Hr : numa_ok r).

(** A call of one node: the tasks [a] come in and [o] go out. *)
Lemma node_call n x x' e' a o P s' :
  nm_NUMANodeScheduler (nr_sched r) !! n = Some x → moves a o P x x' (nr_env r) e' →
  (∀ p, p ∈ P → p ∉ numa_pollers (nr_sched r)) → NoDup (a ++ numa_tasks (nr_sched r) (nr_env r)) →
  nm_NUMANodeScheduler s' = <[n := x']> (nm_NUMANodeScheduler (nr_sched r)) →
  length (nm_readyTasks s') = length (nm_readyTasks (nr_sched r)) → length (nm_enabledCPUs s') = length (nm_enabledCPUs (nr_sched r)) →
  numa_ok (mkNumaRun s' e' (nr_submitted r ++ a) (nr_returned r ++ o)).
Proof.
  intros Hx Hm HP Ha Hs' Hl1 Hl2. destruct (numa_moves n x x' (nr_sched r) (nr_env r) e' a o P s') as [Hi Ht]; try done; [apply Hr|].
  split; [done|]. simpl. pose proof (no_conserved r Hr). solve_perm.
Qed.

Lemma env_call e' s' :
  framed (nr_env r) e' → e_schedulerData e' = e_schedulerData (nr_env r) → nm_NUMANodeScheduler s' = nm_NUMANodeScheduler (nr_sched r) →
  length (nm_readyTasks s') = length (nm_readyTasks (nr_sched r)) → length (nm_enabledCPUs s') = length (nm_enabledCPUs (nr_sched r)) →
  numa_ok (mkNumaRun s' e' (nr_submitted r) (nr_returned r)).
Proof.
  intros Hf Hd Hn Hl1 Hl2. destruct (numa_env (nr_sched r) (nr_env r) e' s') as [Hi Ht]; try done; [apply Hr|].
  split; [done|]. simpl. rewrite Ht. apply Hr.
Qed.

Lemma node_add n t cpu hint doGetIdle :
  n < length (nm_NUMANodeScheduler (nr_sched r)) → sch_supports t → t ∉ numa_tasks (nr_sched r) (nr_env r) →
  ∃ s' e', node_addReadyTask n t cpu hint doGetIdle (nr_sched r) (nr_env r) = Ok (s', e') ∧
    numa_ok (mkNumaRun s' e' (nr_submitted r ++ [t]) (nr_returned r)).
Proof.
  intros [x Hx]%lookup_lt_is_Some_2 Hsup Ht. destruct (node_slots n x _ _ (no_inv r Hr) Hx) as [Hnd Hsl].
  destruct (add_moves x (nr_env r) (nu_ok _ _ (no_inv r Hr) n x Hx) Hnd Hsl t cpu hint doGetIdle) as (x' & e' & c & Hadd & Hm); [done| |].
  { intros Hin. apply Ht. destruct (node_split n x sch_held _ Hx) as (bh & ah & Hh & _). unfold numa_tasks, numa_held. rewrite Hh.
    unfold own in Hin. set_solver. }
  unfold node_addReadyTask. rewrite Hx. cbn [get mbind res_bind]. rewrite Hadd. cbn [mbind res_bind]. eexists _, _. split; [done|].
  rewrite <- (app_nil_r (nr_returned r)). eapply node_call; try done; [set_solver|by constructor; [|apply Hr]|apply bump_length].
Qed.

Lemma node_get n cpu :
  n < length (nm_NUMANodeScheduler (nr_sched r)) →
  ∃ s' e' o, node_getReadyTask n cpu (nr_sched r) (nr_env r) = Ok (s', e', o) ∧
    numa_ok (mkNumaRun s' e' (nr_submitted r) (nr_returned r ++ option_list o)) ∧
    length (nm_NUMANodeScheduler s') = length (nm_NUMANodeScheduler (nr_sched r)) ∧ length (nm_readyTasks s') = length (nm_readyTasks (nr_sched r)).
Proof.
  intros [x Hx]%lookup_lt_is_Some_2. destruct (node_slots n x _ _ (no_inv r Hr) Hx) as [Hnd Hsl].
  destruct (get_moves x (nr_env r) (nu_ok _ _ (no_inv r Hr) n x Hx) Hnd Hsl cpu false) as (x' & e' & o & Hget & Hm).
  unfold node_getReadyTask. rewrite Hx. cbn [get mbind res_bind]. rewrite Hget. cbn [mbind res_bind].
  rewrite <- (app_nil_r (nr_submitted r)).
  destruct o as [t|]; eexists _, _, _; (split; [done|]); (split; [eapply node_call; try done; first [apply (nu_tasks _ _ (no_inv r Hr))|by apply bump_length|set_solver]|]); simpl;
    by rewrite ?length_insert, ?bump_length.
Qed.
End call.


(** The least loaded node is one with enabled CPUs, and exists when there is one. *)
Lemma min_loop_spec (k : nat) (l : list (Z * Z)) (load idx : Z) :
  Exists (λ c, 0 < c.1)%Z l ∨ (0 ≤ idx)%Z → (idx = -1 ∧ load = -1 ∨ 0 ≤ idx < Z.of_nat k)%Z →
  (0 ≤ (min_loop k l load idx).2 < Z.of_nat (k + length l))%Z.
Proof.
  revert k load idx. induction l as [|[en rd] l IH]; intros k load idx He Hs.
  - destruct He as [He%Exists_nil|He]; [done|]. simpl. lia.
  - cbn [min_loop]. destruct (_ && _) eqn:Hc.
    + assert (0 ≤ (min_loop (Datatypes.S k) l rd (Z.of_nat k)).2 < Z.of_nat (Datatypes.S k + length l))%Z; [apply IH; [right; lia|right; lia]|]. simpl. lia.
    + assert (0 ≤ (min_loop (Datatypes.S k) l load idx).2 < Z.of_nat (Datatypes.S k + length l))%Z; [|simpl; lia]. apply IH; [|lia].
      destruct Hs as [[-> ->]|Hs]; [left|right; lia]. destruct He as [He|He]; [|lia].
      apply Exists_cons in He as [He|He]; [|done]. simpl in He. exfalso. apply andb_false_iff in Hc as [Hc|Hc]; [lia|done].
Qed.

Lemma min_loop_none (k : nat) (l : list (Z * Z)) : ¬ Exists (λ c, 0 < c.1)%Z l → min_loop k l (-1) (-1) = ((-1)%Z, (-1)%Z).
Proof.
  revert k. induction l as [|[en rd] l IH]; intros k He; [done|]. rewrite Exists_cons in He. cbn [min_loop].
  assert (0 <? en = false)%Z as -> by (apply Z.ltb_ge; destruct (Z.le_gt_cases en 0); [done|]; exfalso; apply He; by left).
  apply IH. tauto.
Qed.

Lemma least_loaded_spec s :
  length (nm_readyTasks s) = length (nm_enabledCPUs s) → Exists (λ c, 0 < c)%Z (nm_enabledCPUs s) →
  (0 ≤ (least_loaded s).2 < Z.of_nat (length (nm_enabledCPUs s)))%Z.
Proof.
  intros Hl He. unfold least_loaded. pose proof (min_loop_spec 0 (zip (nm_enabledCPUs s) (nm_readyTasks s)) (-1) (-1)) as H.
  rewrite length_zip_with, Hl, Nat.min_id in H. apply H; [left|by left].
  rewrite <- (fst_zip (nm_enabledCPUs s) (nm_readyTasks s)) in He by lia. exact (proj1 (Exists_fmap fst (Z.lt 0) _) He).
Qed.

Lemma max_loop_spec i l load idx : idx < i + length l → max_loop i l load idx < i + length l.
Proof.
  revert i load idx. induction l as [|rd l IH]; intros i load idx Hi; simpl in *; [lia|].
  destruct (_ <? _)%Z; (eapply Nat.lt_le_trans; [apply IH; lia|lia]).
Qed.

Section all.
Context (r : numa_run) (Hr : numa_ok r).

Lemma numa_add_ok t cpu hint doGetIdle :
  sch_supports t → at_device A t = false → at_taskloop A t = false → t ∉ numa_tasks (nr_sched r) (nr_env r) →
  thread_node t < length (nm_NUMANodeScheduler (nr_sched r)) →
  Exists (λ c, 0 < c)%Z (nm_enabledCPUs (nr_sched r)) ∨ hint = UNBLOCKED_TASK_HINT →
  numa_succeeds (q ← numa_addReadyTask A thread_node t cpu hint doGetIdle (nr_sched r) (nr_env r);
    Ok (mkNumaRun q.1.1 q.1.2 (nr_submitted r ++ [t]) (nr_returned r))).
Proof.
  intros Hsup Hd Hl Ht Hn He. unfold numa_addReadyTask. rewrite Hd, Hl. cbn [failIf mbind res_bind]. case_decide.
  - destruct (node_add r Hr (thread_node t) t cpu hint doGetIdle Hn Hsup Ht) as (s' & e' & -> & Hok). by eexists.
  - destruct He as [He|He]; [|done]. pose proof (least_loaded_spec (nr_sched r)) as Hm. rewrite (nu_ready _ _ (no_inv r Hr)), (nu_enabled _ _ (no_inv r Hr)) in Hm.
    specialize (Hm eq_refl He). destruct (_ =? _)%Z eqn:Hz; [lia|]. cbn [failIf mbind res_bind].
    destruct (node_add r Hr (Z.to_nat (least_loaded (nr_sched r)).2) t cpu hint false) as (s' & e' & -> & Hok); [lia|done|done|].
    cbn [mbind res_bind]. destruct doGetIdle; [|by eexists]. destruct (take_idle_env (Z.to_nat (least_loaded (nr_sched r)).2) e') as [Hf Hsd].
    destruct (getIdleNUMANodeCPU_env _ e') as [e1 [c|]]; simpl in *.
    { eexists. split; [done|]. by apply (env_call _ Hok e1 s'). }
    destruct (getIdleCPU_env e1) as [e2 c] eqn:Hi. destruct (getIdleCPU_env_spec e1 e2 c Hi) as [Hf2 Hsd2]. simpl. eexists. split; [done|].
    apply (env_call _ Hok e2 s'); try done; [destruct Hf, Hf2; split; simpl; congruence|simpl; congruence].
Qed.

Lemma numa_add_fails t cpu hint doGetIdle :
  at_device A t = true ∨ at_taskloop A t = true ∨ (¬ Exists (λ c, 0 < c)%Z (nm_enabledCPUs (nr_sched r)) ∧ hint ≠ UNBLOCKED_TASK_HINT) →
  ∃ msg, numa_addReadyTask A thread_node t cpu hint doGetIdle (nr_sched r) (nr_env r) = Err (Fatal msg).
Proof.
  intros Hf. unfold numa_addReadyTask. destruct (at_device A t); [by eexists|]. cbn [failIf mbind res_bind].
  destruct (at_taskloop A t); [by eexists|]. cbn [failIf mbind res_bind]. destruct Hf as [Hf|[Hf|[He Hh]]]; [done|done|].
  rewrite decide_False by done. unfold least_loaded. rewrite min_loop_none; [by eexists|]. intros Hz. apply He.
  rewrite <- (fst_zip (nm_enabledCPUs (nr_sched r)) (nm_readyTasks (nr_sched r))).
  - exact (proj2 (Exists_fmap fst (Z.lt 0) _) Hz).
  - rewrite (nu_ready _ _ (no_inv r Hr)), (nu_enabled _ _ (no_inv r Hr)). done.
Qed.

Lemma numa_get_ok cpu canMarkAsIdle :
  node_of cpu < length (nm_NUMANodeScheduler (nr_sched r)) →
  numa_succeeds (q ← numa_getReadyTask A node_of cpu canMarkAsIdle (nr_sched r) (nr_env r);
    Ok (mkNumaRun q.1.1 q.1.2 (nr_submitted r) (nr_returned r ++ option_list q.2))).
Proof.
  intros Hn. unfold numa_getReadyTask. destruct (at_host A cpu); cbn [negb].
  2: { eexists. split; [done|]. simpl. rewrite app_nil_r. by destruct r. }
  assert (∃ s1 e1 o1, (if (0 <? count (nm_readyTasks (nr_sched r)) (node_of cpu))%Z
      then node_getReadyTask (node_of cpu) cpu (nr_sched r) (nr_env r) else Ok (nr_sched r, nr_env r, None)) = Ok (s1, e1, o1) ∧
    numa_ok (mkNumaRun s1 e1 (nr_submitted r) (nr_returned r ++ option_list o1)) ∧
    length (nm_NUMANodeScheduler s1) = length (nm_NUMANodeScheduler (nr_sched r)) ∧ length (nm_readyTasks s1) = length (nm_readyTasks (nr_sched r)))
    as (s1 & e1 & o1 & -> & Hok1 & Hl1 & Hl2).
  { destruct (_ <? _)%Z; [by apply node_get|]. eexists _, _, _. split; [done|]. simpl. rewrite app_nil_r. by destruct r. }
  cbn [mbind res_bind]. destruct o1 as [t|]; [eexists; split; [done|]; exact Hok1|]. simpl in Hok1. rewrite app_nil_r in Hok1.
  set (n := max_loop _ _ _ _). assert (n < length (nm_NUMANodeScheduler s1)) as Hn1.
  { pose proof (max_loop_spec 0 (nm_readyTasks s1) (count (nm_readyTasks s1) (node_of cpu)) (node_of cpu)) as Hm. fold n in Hm. simpl in Hm.
    rewrite Hl2, (nu_ready _ _ (no_inv r Hr)) in Hm. rewrite Hl1. by apply Hm. }
  destruct (node_get (mkNumaRun s1 e1 (nr_submitted r) (nr_returned r)) Hok1 n cpu Hn1) as (s2 & e2 & o2 & Hget & Hok2 & _). simpl in Hget. rewrite Hget.
  cbn [mbind res_bind]. destruct o2 as [t|]; (eexists; split; [done|]); [exact Hok2|]. simpl in *.
  destruct canMarkAsIdle; [|exact Hok2]. by apply (env_call _ Hok2 (cpuBecomesIdle_env cpu e2) s2).
Qed.

Lemma numa_disable_ok cpu :
  (0 < count (nm_enabledCPUs (nr_sched r)) (node_of cpu))%Z →
  numa_succeeds (q ← numa_disableComputePlace node_of cpu (nr_sched r) (nr_env r); Ok (mkNumaRun q.1 q.2 (nr_submitted r) (nr_returned r))).
Proof.
  intros Hc. unfold numa_disableComputePlace. destruct (_ <=? _)%Z eqn:Hz; [lia|]. cbn [failIf mbind res_bind].
  assert (node_of cpu < length (nm_NUMANodeScheduler (nr_sched r))) as [x Hx]%lookup_lt_is_Some_2.
  { rewrite <- (nu_enabled _ _ (no_inv r Hr)). apply lookup_lt_is_Some_1. unfold count in Hc. destruct (_ !! _); [done|simpl in Hc; lia]. }
  rewrite Hx. cbn [get mbind res_bind]. destruct (sch_disableComputePlace cpu x (nr_env r)) as [x' e'] eqn:Hd.
  destruct (node_slots _ x _ _ (no_inv r Hr) Hx) as [Hnd Hsl].
  pose proof (disable_moves x (nr_env r) (nu_ok _ _ (no_inv r Hr) _ x Hx) Hnd Hsl cpu x' e' Hd) as Hm. eexists. split; [done|]. simpl.
  rewrite <- (app_nil_r (nr_submitted r)), <- (app_nil_r (nr_returned r)). eapply (node_call r Hr); try done; [set_solver|apply Hr|apply bump_length].
Qed.

Lemma numa_request_ok cpu p :
  node_of cpu < length (nm_NUMANodeScheduler (nr_sched r)) → e_slots (nr_env r) !! p = None → p ∉ numa_pollers (nr_sched r) →
  numa_succeeds (q ← numa_requestPolling node_of cpu p (nr_sched r) (nr_env r); Ok (mkNumaRun q.1.1 q.1.2 (nr_submitted r) (nr_returned r))).
Proof.
  intros [x Hx]%lookup_lt_is_Some_2 Hfree Hp. unfold numa_requestPolling. rewrite Hx. cbn [get mbind res_bind].
  destruct (node_slots _ x _ _ (no_inv r Hr) Hx) as [Hnd Hsl].
  destruct (request_moves x (nr_env r) (nu_ok _ _ (no_inv r Hr) _ x Hx) Hnd Hsl cpu p Hfree) as (x' & e' & b & Hreq & Hm).
  { intros Hin. apply Hp. destruct (node_split _ x sch_pollers _ Hx) as (bp & ap & Hpp & _). unfold numa_pollers. rewrite Hpp. set_solver. }
  rewrite Hreq. cbn [mbind res_bind]. eexists. split; [done|]. simpl.
  rewrite <- (app_nil_r (nr_submitted r)), <- (app_nil_r (nr_returned r)). eapply (node_call r Hr); try done; [set_solver|apply Hr].
Qed.

Lemma numa_release_ok cpu p :
  node_of cpu < length (nm_NUMANodeScheduler (nr_sched r)) →
  numa_succeeds (q ← numa_releasePolling node_of cpu p (nr_sched r) (nr_env r); Ok (mkNumaRun q.1.1 q.1.2 (nr_submitted r) (nr_returned r))).
Proof.
  intros [x Hx]%lookup_lt_is_Some_2. unfold numa_releasePolling. rewrite Hx. cbn [get mbind res_bind].
  destruct (node_slots _ x _ _ (no_inv r Hr) Hx) as [Hnd Hsl].
  destruct (sch_releasePolling cpu p x (nr_env r)) as [[x' e'] b] eqn:Hrel.
  pose proof (release_moves x (nr_env r) (nu_ok _ _ (no_inv r Hr) _ x Hx) Hnd Hsl cpu p x' e' b Hrel) as Hm.
  eexists. split; [done|]. simpl.
  rewrite <- (app_nil_r (nr_submitted r)), <- (app_nil_r (nr_returned r)). eapply (node_call r Hr); try done; [set_solver|apply Hr].
Qed.

Lemma numa_idle_ok force :
  numa_ok (mkNumaRun (nr_sched r) (numa_getIdleComputePlace force (nr_sched r) (nr_env r)).1 (nr_submitted r) (nr_returned r)).
Proof.
  assert (∀ n l e, framed e (idle_loop n l e).1 ∧ e_schedulerData (idle_loop n l e).1 = e_schedulerData e) as Hloop.
  { intros n l. revert n. induction l as [|[en rd] l IH]; intros n e; simpl; [done|]. destruct (_ && _); [|apply IH].
    destruct (take_idle_env n e) as [[Hf1 Hf2] Hd]. destruct (getIdleNUMANodeCPU_env n e) as [e1 [c|]]; simpl in *; [done|].
    destruct (IH (Datatypes.S n) e1) as [[Hf1' Hf2'] Hd']. split; [split|]; congruence. }
  unfold numa_getIdleComputePlace. destruct force.
  - destruct (getIdleCPU_env (nr_env r)) as [e' c] eqn:Hi. destruct (getIdleCPU_env_spec _ e' c Hi). by apply env_call.
  - destruct (Hloop 0 (zip (nm_enabledCPUs (nr_sched r)) (nm_readyTasks (nr_sched r))) (nr_env r)). by apply env_call.
Qed.

Lemma numa_poll_ok p :
  numa_ok (mkNumaRun (nr_sched r) (getTask p (nr_env r)).1 (nr_submitted r) (nr_returned r ++ option_list (getTask p (nr_env r)).2)).
Proof.
  destruct Hr as [Hi Hc]. simpl. assert (slot_tasks (nr_env r) ≡ₚ option_list (e_slots (nr_env r) !! p) ++ slot_tasks (set_slot p None (nr_env r))) as Hs.
  { pose proof (vals_cell (e_slots (nr_env r)) p None) as Hv. symmetry. exact Hv. }
  assert (numa_tasks (nr_sched r) (nr_env r) ≡ₚ option_list (e_slots (nr_env r) !! p) ++ numa_tasks (nr_sched r) (set_slot p None (nr_env r))) as Ht.
  { unfold numa_tasks. change (cpu_tasks (set_slot p None (nr_env r))) with (cpu_tasks (nr_env r)). solve_perm. }
  split; simpl; [|solve_perm]. destruct Hi as [H1 H2 H3 H4 H5 H6]. split; try done.
  - intros n x Hx. apply law_slot. by eapply H3.
  - intros q Hq. simpl. change (partial_alter _ _ _) with (delete p (e_slots (nr_env r))). apply lookup_delete_None. by auto.
  - rewrite Ht in H6. by apply NoDup_app in H6 as (_ & _ & H6).
Qed.
End all.

Lemma numa_calls_succeed r may_fail q :
  numa_ok r → numa_calls r may_fail q → (∃ r', q = Ok r' ∧ numa_ok r') ∨ (may_fail ∧ ∃ msg, q = Err (Fatal msg)).
Proof.
  intros Hr Hq. destruct Hq as [t cpu hint doGetIdle Hsup Ht Hn|cpu can Hn|force|cpu|cpu|cpu p Hn Hfree Hp|cpu p Hn|p].
  - destruct (at_device A t) eqn:Hd.
    { right. destruct (numa_add_fails r Hr t cpu hint doGetIdle) as [msg Hm]; [by left|]. rewrite Hm. split; [by left|by eexists]. }
    destruct (at_taskloop A t) eqn:Hl.
    { right. destruct (numa_add_fails r Hr t cpu hint doGetIdle) as [msg Hm]; [by auto|]. rewrite Hm. split; [by auto|by eexists]. }
    destruct (decide (Exists (λ c, 0 < c)%Z (nm_enabledCPUs (nr_sched r)) ∨ hint = UNBLOCKED_TASK_HINT)) as [He|He].
    + left. apply (numa_add_ok r Hr); auto.
    + right. apply Decidable.not_or in He as [He Hh]. destruct (numa_add_fails r Hr t cpu hint doGetIdle) as [msg Hm]; [by auto|]. rewrite Hm. split; [by auto|by eexists].
  - left. by apply numa_get_ok.
  - left. eexists. split; [done|]. by apply numa_idle_ok.
  - destruct (decide (0 < count (nm_enabledCPUs (nr_sched r)) (node_of cpu))%Z) as [Hc|Hc]; [left; by apply numa_disable_ok|].
    right. split; [lia|]. unfold numa_disableComputePlace. rewrite (proj2 (Z.leb_le _ 0)) by lia. by eexists.
  - left. eexists. split; [done|]. apply (env_call r Hr); try done. apply bump_length.
  - left. by apply numa_request_ok.
  - left. by apply numa_release_ok.
  - left. eexists. split; [done|]. by apply numa_poll_ok.
Qed.

Definition numa_step (r r' : numa_run) : Prop := ∃ may_fail, numa_calls r may_fail (Ok r').

Lemma numa_steps_ok r r' : numa_ok r → rtc numa_step r r' → numa_ok r'.
Proof.
  intros Hr Hs. induction Hs as [|r r1 r2 [P Hc] _ IH]; [done|]. apply IH.
  destruct (numa_calls_succeed r P _ Hr Hc) as [(? & [= <-] & ?)|(_ & ? & ?)]; done.
Qed.
End conservation.

(** ** The schedulers of the nodes *)

#[export] Instance polling_frame {M} `{!IdleCPUs M} A fifo : @SchedulerFrame M QueueScheduler (polling_scheduler A fifo).
Proof. split; [done|done|]. intros cpu p x e _ Hp. simpl. unfold qs_releasePolling. case_decide; [constructor|done]. Qed.

#[export] Instance successor_frame {M} `{!IdleCPUs M} A fifo : @SchedulerFrame M QueueScheduler (successor_scheduler A fifo).
Proof. by split. Qed.

#[export] Instance priority_frame {M} `{!IdleCPUs M} A : @SchedulerFrame M PriorityScheduler (priority_scheduler A).
Proof.
  split; [|intros x e e' Hok He; by apply (ps_ok_env A x e)|].
  2: { intros cpu p x e _ Hp. simpl. unfold ps_releasePolling. case_decide; [constructor|done]. }
  intros x y e e' (Hf & Hs & _) (_ & _ & Hp') Hpr. split_and!; [|done|done]. rewrite Forall_forall in *. intros c Hc.
  destruct (Hf c Hc) as [Hne Hk]. split; [done|]. intros t Ht. rewrite <- (Hk t Ht). unfold getPriority. rewrite Hpr; [done|].
  simpl. unfold all_tasks. apply list_elem_of_In, in_concat. exists c.2. rewrite <- !list_elem_of_In. split; [by apply list_elem_of_fmap_2|done].
Qed.

Module Numa.
(** C18: over the schedulers of the nodes, whichever they are, the scheduler of the NUMA nodes conserves the
    tasks: whatever calls are made, one after the other, each succeeds, or is one that may fail (the addition
    of a task of a device or of a taskloop, which the scheduler refuses, or while no CPU is enabled; the disabling of a CPU
    of a node without enabled ones) and fails with an assertion or a message; and after a call that succeeds the
    tasks that were added are those that were given out together with those that are in a node, in the
    slot of a CPU or in a polling slot, each of these once. *)
Theorem numa_conserves_tasks {M S} `{!IdleCPUs M, !NodeIdleCPUs M, !SchedulerInterface M S, !SchedulerLaws M S, !SchedulerFrame M S}
    (A : attributes) (node_of thread_node : nat → nat) (s : NUMAScheduler S) (e : env M) r may_fail q :
  numa_inv s e → numa_tasks s e = [] →
  rtc (numa_step A node_of thread_node) (mkNumaRun s e [] []) r → numa_calls A node_of thread_node r may_fail q →
  (∃ r', q = Ok r' ∧ nr_submitted r' ≡ₚ nr_returned r' ++ numa_tasks (nr_sched r') (nr_env r') ∧ NoDup (numa_tasks (nr_sched r') (nr_env r'))) ∨
  (may_fail ∧ ∃ msg, q = Err (Fatal msg)).
Proof.
  intros Hi Ht Hrun Hq. assert (numa_ok r) as Hr.
  { apply (numa_steps_ok A node_of thread_node _ r) in Hrun; [done|]. split; [done|by simpl; rewrite Ht]. }
  destruct (numa_calls_succeed A node_of thread_node r may_fail q Hr Hq) as [(r' & -> & [Hi' Hc'])|Hf]; [|by right].
  left. exists r'. split_and!; [done|done|apply Hi'].
Qed.

(** Two nodes with a CPU each, and an empty scheduler in each. *)
Definition two_nodes {S} (x : S) : NUMAScheduler S := new_numa 2 [Some 0; Some 1] (λ _, x).

Definition sample_add {S} `{!SchedulerInterface (CPUManager (list bool)) S} (t : nat) (r : @numa_run (CPUManager (list bool)) S) :=
  q ← numa_addReadyTask sample_attributes (λ _, 0) t None NO_HINT true (nr_sched r) (nr_env r);
  Ok (mkNumaRun q.1.1 q.1.2 (nr_submitted r ++ [t]) (nr_returned r)).

Lemma two_nodes_inv {S} `{!SchedulerInterface (CPUManager (list bool)) S} (x : S) :
  sch_ok x two_cpus → sch_held x = [] → sch_pollers x = [] → numa_inv (two_nodes x) two_cpus ∧ numa_tasks (two_nodes x) two_cpus = [].
Proof.
  intros Hok Hh Hp. assert (numa_tasks (two_nodes x) two_cpus = []) as Ht by (unfold numa_tasks, numa_held; cbn; by rewrite Hh).
  split; [|done]. split; try done.
  - intros [|[|n]] y; simpl; [by intros [= <-]..|done].
  - assert (numa_pollers (two_nodes x) = []) as -> by (unfold numa_pollers; cbn; by rewrite Hp). constructor.
  - rewrite Ht. constructor.
Qed.

Lemma numa_conserves_tasks_witness :
  ∃ r', @sample_add _ (priority_scheduler sample_attributes) 5 (mkNumaRun (two_nodes empty_scheduler) two_cpus [] []) = Ok r' ∧
    nr_submitted r' ≡ₚ nr_returned r' ++ @numa_tasks _ _ (priority_scheduler sample_attributes) (nr_sched r') (nr_env r') ∧
    NoDup (@numa_tasks _ _ (priority_scheduler sample_attributes) (nr_sched r') (nr_env r')).
Proof.
  destruct (@two_nodes_inv _ (priority_scheduler sample_attributes) empty_scheduler sample_ok eq_refl eq_refl) as [Hi Ht].
  pose (r0 := mkNumaRun (two_nodes empty_scheduler) two_cpus [] []).
  assert (numa_calls sample_attributes (λ c, c) (λ _, 0) r0 _ (@sample_add _ (priority_scheduler sample_attributes) 5 r0)) as Hc
    by (apply (call_add sample_attributes (λ c, c) (λ _, 0) r0 5 None NO_HINT true); [done|vm_compute; set_solver|simpl; lia]).
  destruct (@numa_conserves_tasks _ _ _ _ (priority_scheduler sample_attributes) (priority_scheduler_laws sample_attributes) _
    sample_attributes (λ c, c) (λ _, 0) (two_nodes empty_scheduler) two_cpus r0 _ _ Hi Ht (rtc_refl _ _) Hc) as [H|[[Hf|[Hf|Hf]] _]];
    [exact H|discriminate Hf|discriminate Hf|]. destruct Hf. by left.
Defined.

(** An unblocked task makes the scheduler of its node take an idle CPU, which is to run it; the scheduler of the NUMA
    nodes does not return the CPU, and it is neither idle nor resumed from there on. *)
Theorem unblocked_task_loses_cpu {M} `{!IdleCPUs M, !NodeIdleCPUs M, !IdleCPUsLaws M} (A : attributes) (fifo : bool) (thread_node : nat → nat)
    (t : nat) (s : NUMAScheduler QueueScheduler) (x : QueueScheduler) (e : env M) :
  at_device A t = false → at_taskloop A t = false → nm_NUMANodeScheduler s !! thread_node t = Some x → qs_pollingSlot x = None →
  idle_cpus (e_manager e) ≠ ∅ →
  ∃ s' e' c, @numa_addReadyTask M _ _ _ (polling_scheduler A fifo) A thread_node t None UNBLOCKED_TASK_HINT true s e = Ok (s', e', None) ∧
    c ∈ idle_cpus (e_manager e) ∧ idle_cpus (e_manager e') = idle_cpus (e_manager e) ∖ {[c]}.
Proof.
  intros Hd Hl Hx Hp Hi. unfold numa_addReadyTask, node_addReadyTask, sch_addReadyTask. rewrite Hd, Hl, decide_True by done.
  cbn [failIf mbind res_bind]. rewrite Hx. cbn [get mbind res_bind]. simpl. unfold qs_addReadyTask_fast, qs_prepare, qs_offer. rewrite Hd, Hl.
  cbn [failIf mbind res_bind]. rewrite Hp. cbn [mbind res_bind]. unfold qs_addReadyTask_locked. rewrite Hp. unfold getIdleCPU_env.
  destruct (idle_take_law (e_manager e)) as [Hleast Hset]. destruct (idle_take (e_manager e)) as [m o]. simpl in *.
  destruct o as [c|]; [|destruct Hi; by apply Hleast]. eexists _, _, c. split; [done|]. split; [apply Hleast|done].
Qed.

(** CPU 1 is idle. *)
Definition one_idle : env (CPUManager (list bool)) := mkEnv ∅ ∅ ∅ (mkManager [] [Some 0; Some 1] 2 [false; true] [] []).

Lemma unblocked_task_loses_cpu_witness :
  ∃ s' e' c, @numa_addReadyTask (CPUManager (list bool)) _ _ _ (polling_scheduler sample_attributes true) sample_attributes (λ _, 0) 5 None
      UNBLOCKED_TASK_HINT true (two_nodes (mkQueueScheduler [] [] None)) one_idle = Ok (s', e', None) ∧
    c ∈ idle_cpus (e_manager one_idle) ∧ idle_cpus (e_manager e') = idle_cpus (e_manager one_idle) ∖ {[c]}.
Proof.
  apply (unblocked_task_loses_cpu sample_attributes true (λ _, 0) 5 (two_nodes (mkQueueScheduler [] [] None)) (mkQueueScheduler [] [] None) one_idle);
    [done|done|done|done|]. intros He. assert (1 ∈ idle_cpus (e_manager one_idle)) as H1 by (apply elem_of_members; reflexivity). rewrite He in H1. set_solver.
Defined.

#[local] Instance node_scheduler : SchedulerInterface (CPUManager (list bool)) QueueScheduler := polling_scheduler sample_attributes true.

(** A thread that polls takes the tasks of its own node without counting them; the counter stays above the tasks
    that are there, and a CPU of that node finds neither the tasks of its node, because there are none, nor
    those of a node with a lower counter: it becomes idle while a task is queued. *)
Theorem polling_hides_tasks :
  ∃ r s e, rtc (numa_step sample_attributes (λ c, c) (λ _, 0)) (mkNumaRun (two_nodes (mkQueueScheduler [] [] None)) two_cpus [] []) r ∧
    numa_held (nr_sched r) = [2] ∧
    numa_getReadyTask sample_attributes (λ c, c) 0 true (nr_sched r) (nr_env r) = Ok (s, e, None) ∧ 0 ∈ idle_cpus (e_manager e).
Proof.
  eexists (mkNumaRun (mkNUMAScheduler [mkQueueScheduler [] [] None; mkQueueScheduler [2] [] None] [1; 1]%Z [1; 1]%Z) two_cpus [1; 2] [1]), _, _.
  split_and!; [|done|vm_compute; reflexivity|apply elem_of_members; reflexivity].
  pose (r1 := mkNumaRun (mkNUMAScheduler [mkQueueScheduler [1] [] None; mkQueueScheduler [] [] None] [1; 0]%Z [1; 1]%Z) two_cpus [1] []).
  eapply rtc_l with r1.
  { eexists. refine (call_add sample_attributes (λ c, c) (λ _, 0) (mkNumaRun (two_nodes (mkQueueScheduler [] [] None)) two_cpus [] []) 1 None NO_HINT false _ _ _);
      [done|vm_compute; set_solver|simpl; lia]. }
  pose (r2 := mkNumaRun (mkNUMAScheduler [mkQueueScheduler [] [] None; mkQueueScheduler [] [] None] [1; 0]%Z [1; 1]%Z) (set_slot 7 (Some 1) two_cpus) [1] []).
  eapply rtc_l with r2.
  { eexists. refine (call_request sample_attributes (λ c, c) (λ _, 0) r1 0 7 _ _ _); [simpl; lia|done|vm_compute; set_solver]. }
  pose (r3 := mkNumaRun (nr_sched r2) two_cpus [1] [1]).
  eapply rtc_l with r3.
  { assert (getTask 7 (nr_env r2) = (two_cpus, Some 1)) as H by (vm_compute; reflexivity).
    pose proof (call_poll sample_attributes (λ c, c) (λ _, 0) r2 7) as Hc. rewrite H in Hc. eexists. exact Hc. }
  apply rtc_once. eexists.
  refine (call_add sample_attributes (λ c, c) (λ _, 0) r3 2 None NO_HINT false _ _ _);
    [done|vm_compute; set_solver|simpl; lia].
Qed.
End Numa.
