(* ===== verification/TreeScheduler.v ===== *)
(** * The tree scheduler

    [TreeScheduler.cpp] with [tree-scheduler/LeafScheduler.hpp], [NodeScheduler.hpp] and the queues
    [FIFOQueue.cpp] and [LIFOQueue.cpp]: a leaf with a queue and a polling slot per CPU, nodes with a queue
    and a list of idle children above them, and a threshold for the length of the queues that the
    topmost node doubles and halves.  The leaves and the nodes call each other without holding a lock.

    A call is a stack of frames, each of which is a part of a function: what it does between two calls,
    or under a lock, or around one operation on an atomic variable.  The frames of several threads
    interleave freely. *)

From S2P Require Import Prelude.
From S2P Require Import Scheduler.
Local Open Scope Z_scope.

(** A child of a node. *)
Inductive child := Leaf (c : nat) | Node (n : nat).

#[export] Instance child_eq_dec : EqDecision child.
Proof. solve_decision. Defined.

(** ** The queues *)

(** The conversion of a [size_t] to the [int] that [getTaskBatch] takes. *)
Definition to_int : Z → Z := wrap_int.

(** How many tasks a batch has: all of them for -1, which is also what another negative number gives. *)
Definition batch_size (elements : Z) (q : list nat) : nat :=
  if (elements =? -1) || (Z.of_nat (length q) <? wrap64 elements) then length q else Z.to_nat elements.

Section queue.
Context (fifo : bool).

(** [addTask] *)
Definition q_addTask (t : nat) (q : list nat) : list nat := if fifo then q ++ [t] else t :: q.

(** [addTaskBatch]: the batch is traversed from its end. *)
Definition q_addTaskBatch (batch q : list nat) : list nat := foldl (λ q t, q_addTask t q) q (reverse batch).

(** [getTask] *)
Definition q_getTask (q : list nat) : option (nat * list nat) := match q with [] => None | t :: q => Some (t, q) end.

(** [getTaskBatch]: the tasks from the end of the queue on, and the queue that is left. *)
Definition q_getTaskBatch (elements : Z) (q : list nat) : list nat * list nat :=
  let k := batch_size elements q in (reverse (drop (length q - k) q), take (length q - k) q).
End queue.

(** ** The tree *)

Record leaf := mkLeaf {
  lf_queueThreshold : Z;
  lf_rebalance : bool;
  lf_pollingSlot : option nat;
  lf_queue : list nat;
  lf_parent : nat;
  lf_idle : bool;
  lf_running : bool;
}.

Record node := mkNode {
  nd_queueThreshold : Z;
  nd_rebalance : bool;
  nd_idleChildren : list child;
  nd_queue : list nat;
  nd_parent : option nat;
  nd_children : list child;
  nd_enabledChildren : nat;
}.

Record tree := mkTree {
  tr_leaves : gmap nat leaf;
  tr_nodes : gmap nat node;
  (* [_CPUScheduler] and [_schedRRCounter] *)
  tr_CPUScheduler : list (option nat);
  tr_schedRRCounter : nat;
  (* the idle CPUs of the manager, and the CPUs on which [ThreadManager::resumeIdle] was called *)
  tr_idleCPUs : gset nat;
  tr_resumed : list nat;
}.

Definition put_leaf (c : nat) (l : leaf) (s : tree) : tree :=
  mkTree (<[c := l]> (tr_leaves s)) (tr_nodes s) (tr_CPUScheduler s) (tr_schedRRCounter s) (tr_idleCPUs s) (tr_resumed s).
Definition put_nd (n : nat) (d : node) (s : tree) : tree :=
  mkTree (tr_leaves s) (<[n := d]> (tr_nodes s)) (tr_CPUScheduler s) (tr_schedRRCounter s) (tr_idleCPUs s) (tr_resumed s).
Definition put_idle_cpus (X : gset nat) (s : tree) : tree :=
  mkTree (tr_leaves s) (tr_nodes s) (tr_CPUScheduler s) (tr_schedRRCounter s) X (tr_resumed s).
Definition resume_idle (c : nat) (s : tree) : tree :=
  mkTree (tr_leaves s) (tr_nodes s) (tr_CPUScheduler s) (tr_schedRRCounter s) (tr_idleCPUs s) (tr_resumed s ++ [c]).

Definition leaf_threshold (th : Z) (l : leaf) := mkLeaf th (lf_rebalance l) (lf_pollingSlot l) (lf_queue l) (lf_parent l) (lf_idle l) (lf_running l).
Definition leaf_rebalance (b : bool) (l : leaf) := mkLeaf (lf_queueThreshold l) b (lf_pollingSlot l) (lf_queue l) (lf_parent l) (lf_idle l) (lf_running l).
Definition leaf_slot (t : option nat) (l : leaf) := mkLeaf (lf_queueThreshold l) (lf_rebalance l) t (lf_queue l) (lf_parent l) (lf_idle l) (lf_running l).
Definition leaf_queue (q : list nat) (l : leaf) := mkLeaf (lf_queueThreshold l) (lf_rebalance l) (lf_pollingSlot l) q (lf_parent l) (lf_idle l) (lf_running l).
Definition leaf_idle (b : bool) (l : leaf) := mkLeaf (lf_queueThreshold l) (lf_rebalance l) (lf_pollingSlot l) (lf_queue l) (lf_parent l) b (lf_running l).
Definition leaf_running (b : bool) (l : leaf) := mkLeaf (lf_queueThreshold l) (lf_rebalance l) (lf_pollingSlot l) (lf_queue l) (lf_parent l) (lf_idle l) b.

Definition node_threshold (th : Z) (d : node) := mkNode th (nd_rebalance d) (nd_idleChildren d) (nd_queue d) (nd_parent d) (nd_children d) (nd_enabledChildren d).
Definition node_rebalance (b : bool) (d : node) := mkNode (nd_queueThreshold d) b (nd_idleChildren d) (nd_queue d) (nd_parent d) (nd_children d) (nd_enabledChildren d).
Definition node_idle (l : list child) (d : node) := mkNode (nd_queueThreshold d) (nd_rebalance d) l (nd_queue d) (nd_parent d) (nd_children d) (nd_enabledChildren d).
Definition node_queue (q : list nat) (d : node) := mkNode (nd_queueThreshold d) (nd_rebalance d) (nd_idleChildren d) q (nd_parent d) (nd_children d) (nd_enabledChildren d).
Definition node_enabled (k : nat) (d : node) := mkNode (nd_queueThreshold d) (nd_rebalance d) (nd_idleChildren d) (nd_queue d) (nd_parent d) (nd_children d) k.

(** ** The frames *)

Inductive frame :=
  (* [LeafScheduler::addTask]: the check of [_running], the polling slot, the queue, the end *)
  | FAddTask (c t : nat) (hasComputePlace : bool)
  | FAddSlot (c t : nat)
  | FAddQueue (c t : nat)
  | FLeafBalanced (c : nat)
  | FLeafOverflow (c : nat)
  (* [LeafScheduler::getTask]: the start, the slot, the queue, a task of the queue, the polling loop, its
     time out, the last look, the return *)
  | FLeafGet (c : nat) (doWait : bool)
  | FLeafSlot (c : nat) (doWait : bool)
  | FLeafQueue (c : nat) (doWait : bool)
  | FLeafTaken (c t : nat)
  | FPoll (c : nat) (iterations : nat)
  | FTimeout (c : nat)
  | FLast (c : nat)
  | FReturn (c t : nat)
  (* [LeafScheduler::disable] and [enable] *)
  | FDisable (c : nat)
  | FUnidleCPU (c : nat)
  | FDisableQueue (c : nat)
  | FDisableSlot (c : nat) (batch : list nat)
  | FEnable (c : nat)
  (* [addTaskBatch] of a leaf or a node, and the parts after the lock *)
  | FAddBatch (target who : child) (batch : list nat) (handleThreshold : bool)
  | FQueueBatch (c : nat) (batch : list nat)
  | FOverflow (n : nat) (handleThreshold : bool)
  | FBalanced (n : nat)
  (* [NodeScheduler::getTask] *)
  | FGet (n : nat) (who : child) (force : bool)
  | FGetRebalance (n : nat)
  | FDecrease (n : nat) (force : bool)
  (* [updateQueueThreshold] *)
  | FUpdate (target : child)
  | FSetThreshold (c : nat) (th : Z)
  | FSetNodeThreshold (n : nat) (th : Z)
  | FUnidle (n : nat) (who : child)
  | FDisableChild (n : nat).

(** The tasks that a frame carries. *)
Definition carried (f : frame) : list nat :=
  match f with
  | FAddTask _ t _ | FAddSlot _ t | FAddQueue _ t | FLeafTaken _ t | FReturn _ t => [t]
  | FDisableSlot _ batch | FAddBatch _ _ batch _ | FQueueBatch _ batch => batch
  | _ => []
  end.

(** What a frame leaves behind: the state, the frames that it pushes, and the task that the call returns. *)
Definition outcome : Type := res (tree * list frame * option nat).

Definition goes (s : tree) (l : list frame) : outcome := Ok (s, l, None).

Definition theLeaf (c : nat) (s : tree) : res leaf := get (tr_leaves s !! c).
Definition theNode (n : nat) (s : tree) : res node := get (tr_nodes s !! n).
Definition assert_tree (b : bool) : res unit := failIf (negb b) "assertion".

(** Half of the threshold, and one at least *)
Definition half (th : Z) : Z := if th / 2 =? 0 then 1 else th / 2.

(** [_queue->getSize() > (_queueThreshold * 1.5)] *)
Definition well_above (q : list nat) (th : Z) : bool := 3 * th <? 2 * Z.of_nat (length q).

(** The erasure of the first occurrence *)
Fixpoint erase_child (x : child) (l : list child) : list child :=
  match l with [] => [] | y :: l => if decide (y = x) then l else y :: erase_child x l end.

(** The idle children up to the first that is not the one that calls, and the rest of them. *)
Fixpoint pop_idle (who : child) (l : list child) : option child * list child :=
  match l with
  | [] => (None, [])
  | x :: l => if decide (x = who) then pop_idle who l else (Some x, l)
  end.

Section scheduler.
(** The queues, [NANOS6_SCHEDULER_POLLING_ITER], and the height of the tree. *)
Context (fifo : bool) (pollingIterations : nat) (height : nat).

(** [NodeScheduler::getQueueThreshold]: the threshold of the topmost node *)
Fixpoint getQueueThreshold (k : nat) (n : nat) (s : tree) : res Z :=
  d ← theNode n s;
  match nd_parent d, k with
  | None, _ => Ok (nd_queueThreshold d)
  | Some p, S k => getQueueThreshold k p s
  | Some _, O => Err OutOfFuel
  end.

(** *** Leaves *)

Definition leaf_addTask (c t : nat) (hasComputePlace : bool) (s : tree) : outcome :=
  l ← theLeaf c s;
  if hasComputePlace then
    assert_tree (negb (lf_idle l));; assert_tree (lf_running l);; goes s [FAddQueue c t]
  else goes s [if lf_running l then FAddQueue c t else FAddSlot c t].

Definition leaf_addSlot (c t : nat) (s : tree) : outcome :=
  l ← theLeaf c s;
  match lf_pollingSlot l with
  | None =>
      let s := put_leaf c (leaf_slot (Some t) l) s in
      goes (if lf_idle l then resume_idle c s else s) [FLeafBalanced c]
  | Some _ => goes s [FAddQueue c t]
  end.

Definition leaf_addQueue (c t : nat) (s : tree) : outcome :=
  l ← theLeaf c s;
  let q := q_addTask fifo t (lf_queue l) in
  goes (put_leaf c (leaf_queue q l) s)
    (if lf_queueThreshold l <? Z.of_nat (length q) then [FLeafOverflow c; FLeafBalanced c] else [FLeafBalanced c]).

(** [handleQueueOverflow] *)
Definition leaf_overflow (c : nat) (s : tree) : outcome :=
  l ← theLeaf c s;
  let '(batch, q) := q_getTaskBatch (to_int (half (lf_queueThreshold l))) (lf_queue l) in
  goes (put_leaf c (leaf_queue q l) s) (match batch with [] => [] | _ => [FAddBatch (Node (lf_parent l)) (Leaf c) batch true] end).

(** The start of [getTask] *)
Definition leaf_get (c : nat) (doWait : bool) (s : tree) : outcome :=
  l ← theLeaf c s;
  let l' := leaf_idle false (leaf_running false l) in
  goes (put_leaf c l' (if lf_idle l then put_idle_cpus (tr_idleCPUs s ∖ {[c]}) s else s)) [FLeafSlot c doWait].

Definition leaf_getSlot (c : nat) (doWait : bool) (s : tree) : outcome :=
  l ← theLeaf c s;
  match lf_pollingSlot l with
  | Some t => goes (put_leaf c (leaf_rebalance false (leaf_slot None l)) s) [FReturn c t]
  | None => goes s [FLeafQueue c doWait]
  end.

Definition leaf_getQueue (c : nat) (doWait : bool) (s : tree) : outcome :=
  l ← theLeaf c s;
  match q_getTask (lf_queue l) with
  | Some (t, q) => goes (put_leaf c (leaf_queue q l) s) [FLeafTaken c t]
  | None =>
      goes (put_leaf c (leaf_rebalance false l) s)
        [FGet (lf_parent l) (Leaf c) false; FPoll c (if doWait then pollingIterations else 1%nat)]
  end.

Definition leaf_taken (c t : nat) (s : tree) : outcome :=
  l ← theLeaf c s;
  if lf_rebalance l then
    goes (put_leaf c (leaf_rebalance false l) s)
      (if well_above (lf_queue l) (lf_queueThreshold l) then [FLeafOverflow c; FReturn c t] else [FReturn c t])
  else goes s [FReturn c t].

Definition leaf_poll (c : nat) (iterations : nat) (s : tree) : outcome :=
  match iterations with
  | O => goes s [FTimeout c]
  | S k =>
      l ← theLeaf c s;
      match lf_pollingSlot l with
      | Some t => goes (put_leaf c (leaf_slot None l) s) [FReturn c t]
      | None => goes s [FPoll c k]
      end
  end.

Definition leaf_timeout (c : nat) (s : tree) : outcome :=
  l ← theLeaf c s;
  goes s (if lf_queueThreshold l =? 0 then [FLast c] else [FGet (lf_parent l) (Leaf c) true; FLast c]).

Definition leaf_last (c : nat) (s : tree) : outcome :=
  l ← theLeaf c s;
  match lf_pollingSlot l with
  | Some t => goes (put_leaf c (leaf_slot None l) s) [FReturn c t]
  | None => goes (put_leaf c (leaf_idle true l) (put_idle_cpus (tr_idleCPUs s ∪ {[c]}) s)) []
  end.

Definition leaf_return (c t : nat) (s : tree) : outcome :=
  l ← theLeaf c s; Ok (put_leaf c (leaf_running true l) s, [], Some t).

Definition leaf_disable (c : nat) (s : tree) : outcome :=
  l ← theLeaf c s;
  if lf_idle l
  then goes (put_leaf c (leaf_idle false l) s) [FUnidle (lf_parent l) (Leaf c); FUnidleCPU c; FDisableQueue c]
  else goes s [FDisableQueue c].

Definition leaf_disableQueue (c : nat) (s : tree) : outcome :=
  l ← theLeaf c s;
  let '(batch, q) := q_getTaskBatch (-1) (lf_queue l) in
  goes (put_leaf c (leaf_queue q l) s) [FDisableSlot c batch].

Definition leaf_disableSlot (c : nat) (batch : list nat) (s : tree) : outcome :=
  l ← theLeaf c s;
  let batch := batch ++ option_list (lf_pollingSlot l) in
  goes (put_leaf c (leaf_slot None l) s)
    (match batch with
     | [] => [FDisableChild (lf_parent l)]
     | _ => [FAddBatch (Node (lf_parent l)) (Leaf c) batch true; FDisableChild (lf_parent l)]
     end).

Definition leaf_enable (c : nat) (s : tree) : outcome :=
  l ← theLeaf c s; d ← theNode (lf_parent l) s;
  goes (put_nd (lf_parent l) (node_enabled (S (nd_enabledChildren d)) d) s) [].

(** [LeafScheduler::addTaskBatch]: the last task of the batch goes to the slot, if that is empty. *)
Definition leaf_addTaskBatch (c : nat) (who : child) (batch : list nat) (s : tree) : outcome :=
  l ← theLeaf c s;
  assert_tree (negb (bool_decide (batch = [])));; assert_tree (bool_decide (who = Node (lf_parent l)));;
  match lf_pollingSlot l, last batch with
  | None, Some t =>
      let s := put_leaf c (leaf_slot (Some t) l) s in
      goes (if lf_idle l then resume_idle c s else s) [FQueueBatch c (removelast batch)]
  | _, _ => goes s [FQueueBatch c batch]
  end.

Definition leaf_queueBatch (c : nat) (batch : list nat) (s : tree) : outcome :=
  l ← theLeaf c s; goes (put_leaf c (leaf_queue (q_addTaskBatch fifo batch (lf_queue l)) l) s) [].

Definition leaf_update (c : nat) (s : tree) : outcome :=
  l ← theLeaf c s;
  th ← getQueueThreshold height (lf_parent l) s;
  if (th =? 0) && lf_rebalance l && lf_running l then
    let '(batch, q) := q_getTaskBatch 1 (lf_queue l) in
    goes (put_leaf c (leaf_queue q l) s)
      (match batch with [] => [] | _ => [FAddBatch (Node (lf_parent l)) (Leaf c) batch false] end ++ [FSetThreshold c th])
  else goes (put_leaf c (if th <? lf_queueThreshold l then leaf_rebalance true l else l) s) [FSetThreshold c th].


(** *** Nodes *)

(** [NodeScheduler::addTaskBatch] *)
Definition node_addTaskBatch (n : nat) (who : child) (batch : list nat) (handleThreshold : bool) (s : tree) : outcome :=
  d ← theNode n s;
  let '(idleChild, idle) := pop_idle who (nd_idleChildren d) in
  match idleChild with
  | Some x => goes (put_nd n (node_idle idle d) s) [FAddBatch x (Node n) batch handleThreshold; FBalanced n]
  | None =>
      let q := q_addTaskBatch fifo batch (nd_queue d) in
      goes (put_nd n (node_queue q (node_idle idle d)) s)
        (if nd_queueThreshold d <? Z.of_nat (length q) then [FOverflow n handleThreshold; FBalanced n] else [FBalanced n])
  end.

(** [handleQueueOverflow], with [increaseQueueThreshold] *)
Definition node_overflow (n : nat) (handleThreshold : bool) (s : tree) : outcome :=
  d ← theNode n s;
  match nd_parent d with
  | Some p =>
      let '(batch, q) := q_getTaskBatch (to_int (half (nd_queueThreshold d))) (nd_queue d) in
      goes (put_nd n (node_queue q d) s) (match batch with [] => [] | _ => [FAddBatch (Node p) (Node n) batch handleThreshold] end)
  | None =>
      if handleThreshold
      then goes (put_nd n (node_threshold (if nd_queueThreshold d =? 0 then 1 else wrap64 (nd_queueThreshold d * 2)) d) s) [FUpdate (Node n)]
      else goes s []
  end.

Definition node_balanced (n : nat) (s : tree) : outcome := d ← theNode n s; goes (put_nd n (node_rebalance false d) s) [].

(** [NodeScheduler::getTask] *)
Definition node_getTask (n : nat) (who : child) (force : bool) (s : tree) : outcome :=
  d ← theNode n s;
  let '(batch, q) := q_getTaskBatch (to_int (half (nd_queueThreshold d))) (nd_queue d) in
  match batch with
  | [] =>
      let d := node_rebalance false (node_idle (nd_idleChildren d ++ [who]) d) in
      match nd_parent d with
      | Some p => goes (put_nd n d s) [FGet p (Node n) force]
      | None => goes (put_nd n d s) [FDecrease n force]
      end
  | _ => goes (put_nd n (node_queue q d) s) [FAddBatch who (Node n) batch true; FGetRebalance n]
  end.

(** The end of [NodeScheduler::getTask] in the topmost node, with [decreaseQueueThreshold] *)
Definition node_decrease (n : nat) (force : bool) (s : tree) : outcome :=
  d ← theNode n s; goes (put_nd n (node_threshold (if force then 0 else nd_queueThreshold d / 2) d) s) [FUpdate (Node n)].

Definition node_getRebalance (n : nat) (s : tree) : outcome :=
  d ← theNode n s;
  match nd_parent d with
  | Some _ =>
      if nd_rebalance d
      then goes (put_nd n (node_rebalance false d) s) (if well_above (nd_queue d) (nd_queueThreshold d) then [FOverflow n true] else [])
      else goes s []
  | None => goes s []
  end.

(** [NodeScheduler::updateQueueThreshold] *)
Definition node_update (n : nat) (s : tree) : outcome :=
  d ← theNode n s;
  match nd_parent d with
  | Some p =>
      th ← getQueueThreshold height p s;
      goes (put_nd n (if th <? nd_queueThreshold d then node_rebalance true d else d) s) (FSetNodeThreshold n th :: (FUpdate <$> nd_children d))
  | None => goes s (FUpdate <$> nd_children d)
  end.

Definition node_unidleChild (n : nat) (who : child) (s : tree) : outcome :=
  d ← theNode n s;
  goes (put_nd n (node_idle (erase_child who (nd_idleChildren d)) d) s)
    (match nd_parent d with Some p => [FUnidle p (Node n)] | None => [] end).

Definition node_disableChild (n : nat) (s : tree) : outcome :=
  d ← theNode n s;
  assert_tree (negb (bool_decide (nd_enabledChildren d = 0%nat)));;
  let k := (nd_enabledChildren d - 1)%nat in
  match nd_parent d with
  | Some p =>
      if decide (k = 0%nat) then
        let '(batch, q) := q_getTaskBatch (-1) (nd_queue d) in
        goes (put_nd n (node_queue q (node_enabled k d)) s)
          (match batch with [] => [FDisableChild p] | _ => [FAddBatch (Node p) (Node n) batch true; FDisableChild p] end)
      else goes (put_nd n (node_enabled k d) s) []
  | None => goes (put_nd n (node_enabled k d) s) []
  end.

(** *** One frame *)

Definition exec (f : frame) (s : tree) : outcome :=
  match f with
  | FAddTask c t hasComputePlace => leaf_addTask c t hasComputePlace s
  | FAddSlot c t => leaf_addSlot c t s
  | FAddQueue c t => leaf_addQueue c t s
  | FLeafBalanced c => l ← theLeaf c s; goes (put_leaf c (leaf_rebalance false l) s) []
  | FLeafOverflow c => leaf_overflow c s
  | FLeafGet c doWait => leaf_get c doWait s
  | FLeafSlot c doWait => leaf_getSlot c doWait s
  | FLeafQueue c doWait => leaf_getQueue c doWait s
  | FLeafTaken c t => leaf_taken c t s
  | FPoll c iterations => leaf_poll c iterations s
  | FTimeout c => leaf_timeout c s
  | FLast c => leaf_last c s
  | FReturn c t => leaf_return c t s
  | FDisable c => leaf_disable c s
  | FUnidleCPU c => goes (put_idle_cpus (tr_idleCPUs s ∖ {[c]}) s) []
  | FDisableQueue c => leaf_disableQueue c s
  | FDisableSlot c batch => leaf_disableSlot c batch s
  | FEnable c => leaf_enable c s
  | FAddBatch (Leaf c) who batch _ => leaf_addTaskBatch c who batch s
  | FAddBatch (Node n) who batch handleThreshold => node_addTaskBatch n who batch handleThreshold s
  | FQueueBatch c batch => leaf_queueBatch c batch s
  | FOverflow n handleThreshold => node_overflow n handleThreshold s
  | FBalanced n => node_balanced n s
  | FGet n who force => node_getTask n who force s
  | FGetRebalance n => node_getRebalance n s
  | FDecrease n force => node_decrease n force s
  | FUpdate (Leaf c) => leaf_update c s
  | FUpdate (Node n) => node_update n s
  | FSetThreshold c th => l ← theLeaf c s; goes (put_leaf c (leaf_threshold th l) s) []
  | FSetNodeThreshold n th => d ← theNode n s; goes (put_nd n (node_threshold th d) s) []
  | FUnidle n who => node_unidleChild n who s
  | FDisableChild n => node_disableChild n s
  end.

(** ** The calls of the tree *)

(** The loop of [addReadyTask] without a compute place: the next CPU that has a scheduler, in turn. *)
Fixpoint next_scheduler (fuel : nat) (s : tree) : res (tree * nat) :=
  match fuel with
  | O => Err OutOfFuel
  | S fuel =>
      let pos := tr_schedRRCounter s in
      let s := mkTree (tr_leaves s) (tr_nodes s) (tr_CPUScheduler s) ((pos + 1) mod length (tr_CPUScheduler s)) (tr_idleCPUs s) (tr_resumed s) in
      match tr_CPUScheduler s !! pos with
      | Some (Some c) => Ok (s, c)
      | Some None => next_scheduler fuel s
      | None => Err Dangling
      end
  end.

Definition tree_addReadyTask (t : nat) (isTaskloop : bool) (computePlace : option nat) (s : tree) : res (tree * list frame) :=
  failIf isTaskloop "Task loop not supported yet";;
  match computePlace with
  | Some c => Ok (s, [FAddTask c t true])
  | None => r ← next_scheduler (S (length (tr_CPUScheduler s))) s; let '(s, c) := r in Ok (s, [FAddTask c t false])
  end.

Definition tree_getReadyTask (c : nat) (doWait : bool) : list frame := [FLeafGet c doWait].
Definition tree_disableComputePlace (c : nat) : list frame := [FDisable c].
Definition tree_enableComputePlace (c : nat) : list frame := [FEnable c].

(** A call that runs alone, to its end. *)
Fixpoint run_alone (fuel : nat) (stack : list frame) (s : tree) (returned : list nat) : res (tree * list nat) :=
  match stack with
  | [] => Ok (s, returned)
  | f :: stack =>
      match fuel with
      | O => Err OutOfFuel
      | S fuel => r ← exec f s; let '(s, pushed, o) := r in run_alone fuel (pushed ++ stack) s (returned ++ option_list o)
      end
  end.
End scheduler.

(** ** Construction *)

Definition new_leaf (parent : nat) : leaf := mkLeaf 0 false None [] parent false false.
Definition new_node (parent : option nat) (children : list child) : node := mkNode 0 false [] [] parent children (length children).

(** The CPUs of the manager with their NUMA nodes, and those of some nodes. *)
Definition members (P : nat → bool) (cpus : list (option nat)) : list nat :=
  filter (λ c, match cpus !! c with Some (Some n) => P n | _ => false end = true) (seq 0 (length cpus)).

(** The leaves of the CPUs, the topmost node 0, and with several NUMA nodes the node [i + 1] of each [i]. *)
Definition new_tree (NUMANodeCount : nat) (cpus : list (option nat)) : tree :=
  mkTree
    (omap (λ x : option nat, (λ n, new_leaf (if decide (1 < NUMANodeCount)%nat then S n else 0%nat)) <$> x) (map_seq 0 cpus : gmap nat (option nat)))
    (map_seq 0
      (if decide (1 < NUMANodeCount)%nat then
         new_node None ((λ i, Node (S i)) <$> seq 0 NUMANodeCount) ::
         ((λ i, new_node (Some 0%nat) (Leaf <$> members (λ n, bool_decide (n = i)) cpus)) <$> seq 0 NUMANodeCount)
       else [new_node None (Leaf <$> members (λ _, true) cpus)]))
    (imap (λ c (x : option nat), (λ _, c) <$> x) cpus) 0 ∅ [].

(** ** Interleaving *)

Record tree_run := mkTreeRun {
  tw_tree : tree;
  tw_threads : list (list frame);
  tw_submitted : list nat;
  tw_returned : list nat;
}.

Section interleaving.
Context (fifo : bool) (pollingIterations height : nat).

(** A thread starts a call, or goes on with its innermost frame. *)
Inductive tree_step (r : tree_run) : tree_run → Prop :=
  | step_add t cpu s stack :
      tree_addReadyTask t false cpu (tw_tree r) = Ok (s, stack) → (∀ c, cpu = Some c → is_Some (tr_leaves (tw_tree r) !! c)) →
      tree_step r (mkTreeRun s (tw_threads r ++ [stack]) (tw_submitted r ++ [t]) (tw_returned r))
  | step_get c doWait :
      is_Some (tr_leaves (tw_tree r) !! c) →
      tree_step r (mkTreeRun (tw_tree r) (tw_threads r ++ [tree_getReadyTask c doWait]) (tw_submitted r) (tw_returned r))
  | step_disable c :
      is_Some (tr_leaves (tw_tree r) !! c) →
      tree_step r (mkTreeRun (tw_tree r) (tw_threads r ++ [tree_disableComputePlace c]) (tw_submitted r) (tw_returned r))
  | step_enable c :
      is_Some (tr_leaves (tw_tree r) !! c) →
      tree_step r (mkTreeRun (tw_tree r) (tw_threads r ++ [tree_enableComputePlace c]) (tw_submitted r) (tw_returned r))
  | step_exec l1 f stack l2 s pushed o :
      tw_threads r = l1 ++ (f :: stack) :: l2 → exec fifo pollingIterations height f (tw_tree r) = Ok (s, pushed, o) →
      tree_step r (mkTreeRun s (l1 ++ (pushed ++ stack) :: l2) (tw_submitted r) (tw_returned r ++ option_list o)).

Definition initial_tree_run (s : tree) : tree_run := mkTreeRun s [] [] [].
End interleaving.
