(* ===== verification/TreeProofs.v ===== *)
(** * The tree scheduler: conservation, the shape of the tree, idle children

    Every frame keeps the tasks: those that it carries, the queues and the slots have before what the
    frames that it pushes, the queues, the slots and the result have after it. *)

From S2P Require Import Prelude.
From S2P Require Import Scheduler SchedulerProofs.
From S2P Require Import TreeScheduler.
Local Open Scope nat_scope.

(** ** The queues *)

Lemma q_addTask_perm fifo t q : q_addTask fifo t q ≡ₚ t :: q.
Proof. unfold q_addTask. destruct fifo; [solve_perm|done]. Qed.

Lemma q_addTaskBatch_perm fifo batch q : q_addTaskBatch fifo batch q ≡ₚ batch ++ q.
Proof.
  unfold q_addTaskBatch. rewrite <- (reverse_Permutation batch) at 2. generalize (reverse batch) as b. intros b. revert q.
  induction b as [|t b IH]; intros q; simpl; [done|]. rewrite IH, q_addTask_perm. solve_perm.
Qed.

Lemma q_getTaskBatch_perm elements q : (q_getTaskBatch elements q).1 ++ (q_getTaskBatch elements q).2 ≡ₚ q.
Proof.
  unfold q_getTaskBatch. simpl. rewrite reverse_Permutation, Permutation_app_comm. by rewrite take_drop.
Qed.

(** A whole batch leaves nothing. *)
Lemma q_getTaskBatch_all q : q_getTaskBatch (-1) q = (reverse q, []).
Proof. unfold q_getTaskBatch, batch_size. simpl. rewrite Nat.sub_diag. by rewrite drop_0. Qed.


(** ** The tasks of the tree *)

Definition leaf_tasks (l : leaf) : list nat := option_list (lf_pollingSlot l) ++ lf_queue l.
Definition tree_tasks (s : tree) : list nat := (vals (tr_leaves s) ≫= leaf_tasks) ++ (vals (tr_nodes s) ≫= nd_queue).

Lemma bind_perm {A} (f : A → list nat) l l' : l ≡ₚ l' → l ≫= f ≡ₚ l' ≫= f.
Proof. apply bind_Permutation. Qed.

Lemma tasks_put_leaf c l l' s :
  tr_leaves s !! c = Some l → leaf_tasks l' ++ tree_tasks s ≡ₚ leaf_tasks l ++ tree_tasks (put_leaf c l' s).
Proof.
  intros Hl. unfold tree_tasks. simpl. pose proof (bind_perm leaf_tasks _ _ (vals_delete (tr_leaves s) c l Hl)) as H1.
  pose proof (bind_perm leaf_tasks _ _ (vals_insert (tr_leaves s) c l')) as H2. simpl in *. solve_perm.
Qed.

Lemma tasks_put_nd n d d' s :
  tr_nodes s !! n = Some d → nd_queue d' ++ tree_tasks s ≡ₚ nd_queue d ++ tree_tasks (put_nd n d' s).
Proof.
  intros Hd. unfold tree_tasks. simpl. pose proof (bind_perm nd_queue _ _ (vals_delete (tr_nodes s) n d Hd)) as H1.
  pose proof (bind_perm nd_queue _ _ (vals_insert (tr_nodes s) n d')) as H2. simpl in *. solve_perm.
Qed.

(** ** One frame *)

(** The tasks before and after. *)
Definition conserves (before : list nat) (s : tree) (r : outcome) : Prop :=
  match r with
  | Ok (s', pushed, o) => before ++ tree_tasks s ≡ₚ option_list o ++ (pushed ≫= carried) ++ tree_tasks s'
  | Err _ => True
  end.

Lemma conserves_bind {A} (m : res A) (f : A → outcome) before s :
  (∀ a, m = Ok a → conserves before s (f a)) → conserves before s (m ≫= f).
Proof. intros H. destruct m as [a|]; cbn; [by apply H|done]. Qed.

Lemma conserves_get {A} (o : option A) (f : A → outcome) before s :
  (∀ a, o = Some a → conserves before s (f a)) → conserves before s (get o ≫= f).
Proof. intros H. destruct o as [a|]; cbn; [by apply H|done]. Qed.

Lemma resume_tasks (b : bool) c s : tree_tasks (if b then resume_idle c s else s) = tree_tasks s.
Proof. by destruct b. Qed.
Lemma idle_tasks (b : bool) X s : tree_tasks (if b then put_idle_cpus X s else s) = tree_tasks s.
Proof. by destruct b. Qed.

(** Account for the leaf or the node that changes, and count. *)
Ltac count_tasks :=
  unfold goes, conserves; rewrite ?resume_tasks, ?idle_tasks; cbn [mbind list_bind carried option_list app];
  rewrite ?app_nil_r;
  repeat match goal with
  | H : tr_leaves ?s !! ?c = Some ?l |- context [put_leaf ?c ?l' ?s'] =>
      let Hp := fresh "Hp" in pose proof (tasks_put_leaf c l l' s' H) as Hp; unfold leaf_tasks in Hp; cbn in Hp;
      change (tree_tasks s') with (tree_tasks s) in Hp; revert Hp; generalize (tree_tasks (put_leaf c l' s')); intros ? Hp
  | H : tr_nodes ?s !! ?n = Some ?d |- context [put_nd ?n ?d' ?s'] =>
      let Hp := fresh "Hp" in pose proof (tasks_put_nd n d d' s' H) as Hp; cbn in Hp;
      revert Hp; generalize (tree_tasks (put_nd n d' s')); intros ? Hp
  end.

Section exec.
Context (fifo : bool) (pollingIterations height : nat).

Lemma leaf_addTask_conserves c t b s : conserves [t] s (leaf_addTask c t b s).
Proof.
  apply conserves_get. intros l Hl. destruct b; [|destruct (lf_running l); by count_tasks].
  apply conserves_bind. intros ? _. apply conserves_bind. intros ? _. by count_tasks.
Qed.

Lemma leaf_addSlot_conserves c t s : conserves [t] s (leaf_addSlot c t s).
Proof.
  apply conserves_get. intros l Hl. destruct (lf_pollingSlot l) as [t'|] eqn:Hs; [by count_tasks|].
  count_tasks. rewrite Hs in Hp. cbn in Hp. solve_perm.
Qed.

Lemma leaf_addQueue_conserves c t s : conserves [t] s (leaf_addQueue fifo c t s).
Proof.
  apply conserves_get. intros l Hl. cbn zeta. pose proof (q_addTask_perm fifo t (lf_queue l)) as Hq.
  destruct (_ <? _)%Z; count_tasks; solve_perm.
Qed.

Lemma leaf_overflow_conserves c s : conserves [] s (leaf_overflow c s).
Proof.
  apply conserves_get. intros l Hl. pose proof (q_getTaskBatch_perm (to_int (half (lf_queueThreshold l))) (lf_queue l)) as Hq.
  destruct (q_getTaskBatch _ _) as [[|t batch] q]; cbn in Hq; count_tasks; solve_perm.
Qed.


Lemma leaf_get_conserves c b s : conserves [] s (leaf_get c b s).
Proof. apply conserves_get. intros l Hl. cbn zeta. destruct (lf_idle l); count_tasks; solve_perm. Qed.

Lemma leaf_getSlot_conserves c b s : conserves [] s (leaf_getSlot c b s).
Proof.
  apply conserves_get. intros l Hl. destruct (lf_pollingSlot l) as [t|] eqn:Hs; [|by count_tasks].
  count_tasks. rewrite Hs in Hp. cbn in Hp. solve_perm.
Qed.

Lemma leaf_getQueue_conserves c b s : conserves [] s (leaf_getQueue pollingIterations c b s).
Proof.
  apply conserves_get. intros l Hl. destruct (lf_queue l) as [|t q] eqn:Hq; cbn; count_tasks; rewrite Hq in Hp; solve_perm.
Qed.

Lemma leaf_taken_conserves c t s : conserves [t] s (leaf_taken c t s).
Proof.
  apply conserves_get. intros l Hl. destruct (lf_rebalance l); [|by count_tasks]. destruct (well_above _ _); count_tasks; solve_perm.
Qed.

Lemma leaf_poll_conserves c k s : conserves [] s (leaf_poll c k s).
Proof.
  destruct k as [|k]; cbn [leaf_poll]; [by count_tasks|]. apply conserves_get. intros l Hl. destruct (lf_pollingSlot l) as [t|] eqn:Hs; [|by count_tasks].
  count_tasks. rewrite Hs in Hp. cbn in Hp. solve_perm.
Qed.

Lemma leaf_last_conserves c s : conserves [] s (leaf_last c s).
Proof.
  apply conserves_get. intros l Hl. destruct (lf_pollingSlot l) as [t|] eqn:Hs; count_tasks; rewrite ?Hs in Hp; cbn in Hp; solve_perm.
Qed.

Lemma leaf_return_conserves c t s : conserves [t] s (leaf_return c t s).
Proof. apply conserves_get. intros l Hl. count_tasks. solve_perm. Qed.

Lemma leaf_timeout_conserves c s : conserves [] s (leaf_timeout c s).
Proof. apply conserves_get. intros l Hl. destruct (_ =? _)%Z; by count_tasks. Qed.

Lemma leaf_disable_conserves c s : conserves [] s (leaf_disable c s).
Proof. apply conserves_get. intros l Hl. destruct (lf_idle l); [|by count_tasks]. count_tasks. solve_perm. Qed.

Lemma leaf_disableQueue_conserves c s : conserves [] s (leaf_disableQueue c s).
Proof.
  apply conserves_get. intros l Hl. rewrite q_getTaskBatch_all. pose proof (reverse_Permutation (lf_queue l)) as Hr. count_tasks. solve_perm.
Qed.

Lemma leaf_disableSlot_conserves c batch s : conserves batch s (leaf_disableSlot c batch s).
Proof.
  apply conserves_get. intros l Hl. cbn zeta. destruct (batch ++ option_list (lf_pollingSlot l)) as [|t b] eqn:Hb; count_tasks.
  - apply app_nil in Hb as [-> Hs]. rewrite Hs in Hp. solve_perm.
  - assert (batch ++ option_list (lf_pollingSlot l) ≡ₚ t :: b) as Hb' by (by rewrite Hb). solve_perm.
Qed.

Lemma leaf_enable_conserves c s : conserves [] s (leaf_enable c s).
Proof. apply conserves_get. intros l Hl. apply conserves_get. intros d Hd. count_tasks. solve_perm. Qed.

Lemma last_removelast (batch : list nat) t : last batch = Some t → removelast batch ++ [t] = batch.
Proof. intros [l ->]%last_Some. by rewrite removelast_last. Qed.

Lemma leaf_addTaskBatch_conserves c who batch s : conserves batch s (leaf_addTaskBatch c who batch s).
Proof.
  apply conserves_get. intros l Hl. apply conserves_bind. intros ? _. apply conserves_bind. intros ? _.
  destruct (lf_pollingSlot l) as [t'|] eqn:Hs; [by count_tasks|]. destruct (last batch) as [t|] eqn:Ht; [|by count_tasks].
  count_tasks. rewrite Hs in Hp. cbn in Hp. rewrite <- (last_removelast batch t Ht) at 1. solve_perm.
Qed.

Lemma leaf_queueBatch_conserves c batch s : conserves batch s (leaf_queueBatch fifo c batch s).
Proof. apply conserves_get. intros l Hl. pose proof (q_addTaskBatch_perm fifo batch (lf_queue l)). count_tasks. solve_perm. Qed.

Lemma leaf_update_conserves c s : conserves [] s (leaf_update height c s).
Proof.
  apply conserves_get. intros l Hl. apply conserves_bind. intros th _. destruct (_ && _).
  - pose proof (q_getTaskBatch_perm 1 (lf_queue l)) as Hq. destruct (q_getTaskBatch _ _) as [[|t batch] q]; cbn in Hq; count_tasks; solve_perm.
  - destruct (_ <? _)%Z; count_tasks; solve_perm.
Qed.

Lemma node_addTaskBatch_conserves n who batch b s : conserves batch s (node_addTaskBatch fifo n who batch b s).
Proof.
  apply conserves_get. intros d Hd. destruct (pop_idle _ _) as [[x|] idle]; [count_tasks; solve_perm|].
  cbn zeta. pose proof (q_addTaskBatch_perm fifo batch (nd_queue d)) as Hq. destruct (_ <? _)%Z; count_tasks; solve_perm.
Qed.

Lemma node_overflow_conserves n b s : conserves [] s (node_overflow n b s).
Proof.
  apply conserves_get. intros d Hd. destruct (nd_parent d) as [p|].
  - pose proof (q_getTaskBatch_perm (to_int (half (nd_queueThreshold d))) (nd_queue d)) as Hq.
    destruct (q_getTaskBatch _ _) as [[|t batch] q]; cbn in Hq; count_tasks; solve_perm.
  - destruct b; [|by count_tasks]. count_tasks. solve_perm.
Qed.

Lemma node_getTask_conserves n who b s : conserves [] s (node_getTask n who b s).
Proof.
  apply conserves_get. intros d Hd. pose proof (q_getTaskBatch_perm (to_int (half (nd_queueThreshold d))) (nd_queue d)) as Hq.
  destruct (q_getTaskBatch _ _) as [[|t batch] q]; cbn in Hq; [|count_tasks; solve_perm].
  cbn. destruct (nd_parent d) as [p|]; count_tasks; solve_perm.
Qed.

Lemma node_decrease_conserves n b s : conserves [] s (node_decrease n b s).
Proof. apply conserves_get. intros d Hd. count_tasks. solve_perm. Qed.

Lemma node_getRebalance_conserves n s : conserves [] s (node_getRebalance n s).
Proof.
  apply conserves_get. intros d Hd. destruct (nd_parent d), (nd_rebalance d); try by count_tasks. destruct (well_above _ _); count_tasks; solve_perm.
Qed.

Lemma updates_carry_nothing l : (FUpdate <$> l) ≫= carried = [].
Proof. by induction l. Qed.

Lemma node_update_conserves n s : conserves [] s (node_update height n s).
Proof.
  apply conserves_get. intros d Hd. destruct (nd_parent d) as [p|].
  - apply conserves_bind. intros th _. unfold goes, conserves. rewrite bind_cons, updates_carry_nothing. destruct (_ <? _)%Z; count_tasks; solve_perm.
  - unfold goes, conserves. by rewrite updates_carry_nothing.
Qed.

Lemma node_unidleChild_conserves n who s : conserves [] s (node_unidleChild n who s).
Proof. apply conserves_get. intros d Hd. destruct (nd_parent d); count_tasks; solve_perm. Qed.

Lemma node_disableChild_conserves n s : conserves [] s (node_disableChild n s).
Proof.
  apply conserves_get. intros d Hd. apply conserves_bind. intros ? _. cbn zeta. destruct (nd_parent d) as [p|]; [case_decide|]; [|count_tasks; solve_perm..].
  rewrite q_getTaskBatch_all. pose proof (reverse_Permutation (nd_queue d)) as Hr. destruct (reverse (nd_queue d)); count_tasks; solve_perm.
Qed.

(** Every frame conserves the tasks. *)
Lemma exec_conserves f s : conserves (carried f) s (exec fifo pollingIterations height f s).
Proof.
  destruct f as [| | |c| | | | | | | | | | |c| | | |[|] | | |n| | |n b|[|]|c th|n th| |]; cbn [exec carried].
  - apply leaf_addTask_conserves.
  - apply leaf_addSlot_conserves.
  - apply leaf_addQueue_conserves.
  - apply conserves_get. intros l Hl. count_tasks. solve_perm.
  - apply leaf_overflow_conserves.
  - apply leaf_get_conserves.
  - apply leaf_getSlot_conserves.
  - apply leaf_getQueue_conserves.
  - apply leaf_taken_conserves.
  - apply leaf_poll_conserves.
  - apply leaf_timeout_conserves.
  - apply leaf_last_conserves.
  - apply leaf_return_conserves.
  - apply leaf_disable_conserves.
  - by count_tasks.
  - apply leaf_disableQueue_conserves.
  - apply leaf_disableSlot_conserves.
  - apply leaf_enable_conserves.
  - apply leaf_addTaskBatch_conserves.
  - apply node_addTaskBatch_conserves.
  - apply leaf_queueBatch_conserves.
  - apply node_overflow_conserves.
  - apply conserves_get. intros d Hd. count_tasks. solve_perm.
  - apply node_getTask_conserves.
  - apply node_getRebalance_conserves.
  - apply node_decrease_conserves.
  - apply leaf_update_conserves.
  - apply node_update_conserves.
  - apply conserves_get. intros l Hl. count_tasks. solve_perm.
  - apply conserves_get. intros d Hd. count_tasks. solve_perm.
  - apply node_unidleChild_conserves.
  - apply node_disableChild_conserves.
Qed.
End exec.

(** ** The shape of the tree *)

Definition leaf_parent (s : tree) (c : nat) : option nat := lf_parent <$> tr_leaves s !! c.
Definition node_shape (s : tree) (n : nat) : option (option nat * list child) := (λ d, (nd_parent d, nd_children d)) <$> tr_nodes s !! n.

Definition same_shape (s s' : tree) : Prop :=
  (∀ c, leaf_parent s' c = leaf_parent s c) ∧ (∀ n, node_shape s' n = node_shape s n) ∧ tr_CPUScheduler s' = tr_CPUScheduler s.

#[export] Instance same_shape_preorder : PreOrder same_shape.
Proof. split; [intros s; unfold same_shape; by split_and!|]. intros s1 s2 s3 (H1 & H2 & H5) (H3 & H4 & H6). split_and!; intros; [by rewrite H3|by rewrite H4|congruence]. Qed.

Lemma same_shape_leaf c l l' s : tr_leaves s !! c = Some l → lf_parent l' = lf_parent l → same_shape s (put_leaf c l' s).
Proof.
  intros Hl Hp. split; [|done]. intros c'. unfold leaf_parent. simpl. destruct (decide (c' = c)) as [->|Hne].
  - by rewrite lookup_insert_eq, Hl; simpl; rewrite Hp.
  - by rewrite lookup_insert_ne.
Qed.

Lemma same_shape_nd n d d' s :
  tr_nodes s !! n = Some d → nd_parent d' = nd_parent d → nd_children d' = nd_children d → same_shape s (put_nd n d' s).
Proof.
  intros Hd Hp Hc. split_and!; [done| |done]. intros m. unfold node_shape. simpl. destruct (decide (m = n)) as [->|Hne].
  - by rewrite lookup_insert_eq, Hd; simpl; rewrite Hp, Hc.
  - by rewrite lookup_insert_ne.
Qed.

(** The topmost node is reached within the height of the tree. *)
Fixpoint reaches (k n : nat) (s : tree) : Prop :=
  match node_shape s n with
  | None => False
  | Some (None, _) => True
  | Some (Some p, _) => match k with O => False | S k => reaches k p s end
  end.

Lemma reaches_shape k n s s' : same_shape s s' → reaches k n s → reaches k n s'.
Proof.
  intros (_ & Hn & _). revert n. induction k as [|k IH]; intros n; simpl; rewrite Hn; destruct (node_shape s n) as [[[p|] ch]|]; auto.
Qed.

Lemma getQueueThreshold_ok k n s : reaches k n s → ∃ th, getQueueThreshold k n s = Ok th.
Proof.
  revert n. induction k as [|k IH]; intros n; cbn [reaches getQueueThreshold]; unfold node_shape, theNode;
    destruct (tr_nodes s !! n) as [d|]; cbn; try done; destruct (nd_parent d); try done; eauto.
Qed.

(** [strict] stands for the assumption that the thresholds fit in an [int]. *)
Section shape.
Context (height : nat) (strict : Prop).

Definition known (s : tree) (x : child) : Prop :=
  match x with Leaf c => is_Some (leaf_parent s c) | Node n => is_Some (node_shape s n) end.

Definition child_of (s : tree) (x : child) (n : nat) : Prop :=
  match x with Leaf c => leaf_parent s c = Some n | Node k => ∃ ch, node_shape s k = Some (Some n, ch) end.

Record shape_ok (s : tree) : Prop := {
  sh_leaf : ∀ c n, leaf_parent s c = Some n → ∃ p ch, node_shape s n = Some (p, ch) ∧ Leaf c ∈ ch;
  sh_node : ∀ k n ch, node_shape s k = Some (Some n, ch) → ∃ p ch', node_shape s n = Some (p, ch') ∧ Node k ∈ ch';
  sh_children : ∀ n p ch x, node_shape s n = Some (p, ch) → x ∈ ch → child_of s x n;
  sh_height : ∀ n, is_Some (node_shape s n) → reaches height n s;
  sh_cpus : ∀ c, Some c ∈ tr_CPUScheduler s → is_Some (leaf_parent s c);
}.

(** The idle children of a node are its children, and while there are some its queue is empty. *)
Definition idle_ok (d : node) : Prop := nd_idleChildren d ⊆ nd_children d ∧ (strict → nd_queue d ≠ [] → nd_idleChildren d = []).

Record tree_ok (s : tree) : Prop := {
  to_shape : shape_ok s;
  to_idle : ∀ n d, tr_nodes s !! n = Some d → idle_ok d;
}.

Lemma shape_ok_shape s s' : same_shape s s' → shape_ok s → shape_ok s'.
Proof.
  intros Hs [H1 H2 H3 H4 H5]. pose proof Hs as (Hl & Hn & Hc). split.
  - intros c n. rewrite Hl. setoid_rewrite Hn. apply H1.
  - intros k n ch. rewrite Hn. setoid_rewrite Hn. apply H2.
  - intros n p ch x. rewrite Hn. intros Hx Hin. specialize (H3 n p ch x Hx Hin). destruct x; cbn in *; [by rewrite Hl|]. by setoid_rewrite Hn.
  - intros n. rewrite Hn. intros Hx. eapply reaches_shape; [done|by apply H4].
  - intros c. rewrite Hc, Hl. apply H5.
Qed.

Lemma tree_ok_leaf c l l' s : tree_ok s → tr_leaves s !! c = Some l → lf_parent l' = lf_parent l → tree_ok (put_leaf c l' s).
Proof. intros [H1 H2] Hl Hp. split; [|done]. eapply shape_ok_shape; [by eapply same_shape_leaf|done]. Qed.

Lemma tree_ok_nd n d d' s :
  tree_ok s → tr_nodes s !! n = Some d → nd_parent d' = nd_parent d → nd_children d' = nd_children d → idle_ok d' → tree_ok (put_nd n d' s).
Proof.
  intros [H1 H2] Hd Hp Hc Hi. split; [eapply shape_ok_shape; [by eapply same_shape_nd|done]|].
  intros m e. cbn. intros [[<- <-]|[_ He]]%lookup_insert_Some; [done|by eapply H2].
Qed.

(** ** Frames *)

Definition frame_ok (s : tree) (f : frame) : Prop :=
  match f with
  | FAddTask c _ _ | FAddSlot c _ | FAddQueue c _ | FLeafBalanced c | FLeafOverflow c | FLeafGet c _ | FLeafSlot c _ | FLeafQueue c _
  | FLeafTaken c _ | FPoll c _ | FTimeout c | FLast c | FReturn c _ | FDisable c | FUnidleCPU c | FDisableQueue c | FDisableSlot c _
  | FEnable c | FQueueBatch c _ | FSetThreshold c _ => known s (Leaf c)
  | FAddBatch x who batch _ => batch ≠ [] ∧ known s x ∧ match x with Leaf c => ∃ n, leaf_parent s c = Some n ∧ who = Node n | Node _ => True end
  | FOverflow n _ | FBalanced n | FGetRebalance n | FDecrease n _ | FSetNodeThreshold n _ | FUnidle n _ | FDisableChild n => known s (Node n)
  | FGet n who _ => ∃ p ch, node_shape s n = Some (p, ch) ∧ who ∈ ch
  | FUpdate x => known s x
  end.

Lemma known_shape s s' x : same_shape s s' → known s x → known s' x.
Proof. intros (Hl & Hn & _). destruct x; cbn; by rewrite ?Hl, ?Hn. Qed.

Lemma frame_ok_shape s s' f : same_shape s s' → frame_ok s f → frame_ok s' f.
Proof.
  intros Hs. pose proof (known_shape s s') as Hk. pose proof Hs as (Hl & Hn & _).
  destruct f; cbn [frame_ok]; try (by apply Hk).
  - intros (Hb & Hx & Hw). split_and!; [done|by apply Hk|]. destruct target; [|done]. by rewrite Hl.
  - by rewrite Hn.
Qed.

(** A frame keeps the invariant and pushes good frames; [may_fail] when one of its assertions is not
    implied by them. *)
Definition fine (may_fail : Prop) (s : tree) (r : outcome) : Prop :=
  match r with
  | Ok (s', pushed, _) => tree_ok s' ∧ same_shape s s' ∧ Forall (frame_ok s) pushed
  | Err e => e = Fatal "assertion" ∧ may_fail
  end.

Lemma leaf_known s c : known s (Leaf c) → ∃ l, tr_leaves s !! c = Some l.
Proof. cbn. unfold leaf_parent. intros [n Hn]. apply fmap_Some in Hn as (l & Hl & _). by exists l. Qed.

Lemma node_known s n : known s (Node n) → ∃ d, tr_nodes s !! n = Some d.
Proof. cbn. unfold node_shape. intros [x Hx]. apply fmap_Some in Hx as (d & Hd & _). by exists d. Qed.

Lemma known_leaf s c l : tr_leaves s !! c = Some l → known s (Leaf c).
Proof. intros Hl. cbn. unfold leaf_parent. by rewrite Hl. Qed.

Lemma known_node s n d : tr_nodes s !! n = Some d → known s (Node n).
Proof. intros Hd. cbn. unfold node_shape. by rewrite Hd. Qed.

Lemma shape_at s n d : tr_nodes s !! n = Some d → node_shape s n = Some (nd_parent d, nd_children d).
Proof. intros Hd. unfold node_shape. by rewrite Hd. Qed.

Section known.
Context (s : tree) (Hs : tree_ok s).

Lemma parent_of_leaf c l : tr_leaves s !! c = Some l → known s (Node (lf_parent l)) ∧ ∃ p ch, node_shape s (lf_parent l) = Some (p, ch) ∧ Leaf c ∈ ch.
Proof.
  intros Hl. destruct (sh_leaf _ (to_shape _ Hs) c (lf_parent l)) as (p & ch & Hn & Hin); [unfold leaf_parent; by rewrite Hl|].
  split; [by cbn; rewrite Hn|]. by exists p, ch.
Qed.

Lemma parent_of_node n d p : tr_nodes s !! n = Some d → nd_parent d = Some p → known s (Node p) ∧ ∃ q ch, node_shape s p = Some (q, ch) ∧ Node n ∈ ch.
Proof.
  intros Hd Hp. destruct (sh_node _ (to_shape _ Hs) n p (nd_children d)) as (q & ch & Hn & Hin); [rewrite (shape_at s n d Hd); by rewrite Hp|].
  split; [by cbn; rewrite Hn|]. by exists q, ch.
Qed.

(** A child can be called with tasks. *)
Lemma child_batch n p ch x batch b : node_shape s n = Some (p, ch) → x ∈ ch → batch ≠ [] → frame_ok s (FAddBatch x (Node n) batch b).
Proof.
  intros Hn Hx Hb. pose proof (sh_children _ (to_shape _ Hs) n p ch x Hn Hx) as Hc. cbn. split; [done|].
  destruct x as [c|k]; cbn in *; [|by destruct Hc as [ch' Hc]; rewrite Hc]. rewrite Hc. split; [done|]. by exists n.
Qed.

Lemma child_known n p ch x : node_shape s n = Some (p, ch) → x ∈ ch → known s x.
Proof.
  intros Hn Hx. pose proof (sh_children _ (to_shape _ Hs) n p ch x Hn Hx) as Hc. destruct x as [c|k]; cbn in *; [by rewrite Hc|].
  destruct Hc as [ch' Hc]. by rewrite Hc.
Qed.

Lemma parent_batch x n batch b : known s (Node n) → batch ≠ [] → frame_ok s (FAddBatch (Node n) x batch b).
Proof. by cbn. Qed.

Lemma threshold_known n : known s (Node n) → ∃ th, getQueueThreshold height n s = Ok th.
Proof. intros Hn. apply getQueueThreshold_ok. by apply (sh_height _ (to_shape _ Hs)). Qed.

(** A leaf changes, and not its place in the tree. *)
Lemma fine_leaf P c l l' s' pushed o :
  tr_leaves s !! c = Some l → lf_parent l' = lf_parent l → tr_leaves s' = <[c := l']> (tr_leaves s) → tr_nodes s' = tr_nodes s →
  tr_CPUScheduler s' = tr_CPUScheduler s → Forall (frame_ok s) pushed → fine P s (Ok (s', pushed, o)).
Proof.
  intros Hl Hp Hs1 Hs2 Hs3 Hf. destruct (tree_ok_leaf c l l' s Hs Hl Hp) as [Hsh Hid]. cbn.
  assert (same_shape (put_leaf c l' s) s') as Hsame by (split_and!; intros; unfold leaf_parent, node_shape; rewrite ?Hs1, ?Hs2; done).
  split_and!; [|etrans; [by eapply same_shape_leaf|done]|done]. split; [by eapply shape_ok_shape|]. rewrite Hs2. apply Hid.
Qed.

Lemma fine_node P n d d' pushed o :
  tr_nodes s !! n = Some d → nd_parent d' = nd_parent d → nd_children d' = nd_children d → idle_ok d' →
  Forall (frame_ok s) pushed → fine P s (Ok (put_nd n d' s, pushed, o)).
Proof. intros Hd Hp Hc Hi Hf. split_and!; [by eapply tree_ok_nd|by eapply same_shape_nd|done]. Qed.

Lemma fine_same P pushed o : Forall (frame_ok s) pushed → fine P s (Ok (s, pushed, o)).
Proof. intros Hf. split; [done|]. by split. Qed.
End known.


(** ** Every frame *)

Section frames.
Context (fifo : bool) (pollingIterations : nat) (s : tree) (Hs : tree_ok s).

Ltac pushed := repeat apply Forall_cons_2; try apply Forall_nil_2; cbn [frame_ok]; eauto.

Lemma leaf_addTask_fine c t b : known s (Leaf c) → fine (b = true) s (leaf_addTask c t b s).
Proof.
  intros [l Hl]%leaf_known. unfold leaf_addTask, theLeaf. rewrite Hl. cbn [get mbind res_bind]. pose proof (known_leaf s c l Hl) as Hk.
  destruct b; [|apply (fine_same s Hs); destruct (lf_running l); pushed].
  unfold assert_tree. destruct (lf_idle l); [done|]. destruct (lf_running l); [|done]. cbn [negb failIf mbind res_bind]. apply (fine_same s Hs). pushed.
Qed.

Lemma leaf_addSlot_fine P c t : known s (Leaf c) → fine P s (leaf_addSlot c t s).
Proof.
  intros [l Hl]%leaf_known. unfold leaf_addSlot, theLeaf. rewrite Hl. cbn [get mbind res_bind]. pose proof (known_leaf s c l Hl) as Hk.
  destruct (lf_pollingSlot l); [apply (fine_same s Hs); pushed|].
  eapply (fine_leaf s Hs); [done| |by destruct (lf_idle l)|by destruct (lf_idle l)|by destruct (lf_idle l)|pushed]. done.
Qed.

Lemma leaf_addQueue_fine P c t : known s (Leaf c) → fine P s (leaf_addQueue fifo c t s).
Proof.
  intros [l Hl]%leaf_known. unfold leaf_addQueue, theLeaf. rewrite Hl. cbn [get mbind res_bind]. pose proof (known_leaf s c l Hl) as Hk.
  eapply (fine_leaf s Hs); [done| |done|done|done|destruct (_ <? _)%Z; pushed]. done.
Qed.

Lemma leaf_overflow_fine P c : known s (Leaf c) → fine P s (leaf_overflow c s).
Proof.
  intros [l Hl]%leaf_known. unfold leaf_overflow, theLeaf. rewrite Hl. cbn [get mbind res_bind]. destruct (parent_of_leaf s Hs c l Hl) as [Hp _].
  destruct (q_getTaskBatch _ _) as [[|t batch] q]; (eapply (fine_leaf s Hs); [done| |done|done|done|pushed]); done.
Qed.

Lemma leaf_get_fine P c b : known s (Leaf c) → fine P s (leaf_get c b s).
Proof.
  intros [l Hl]%leaf_known. unfold leaf_get, theLeaf. rewrite Hl. cbn [get mbind res_bind]. pose proof (known_leaf s c l Hl) as Hk.
  eapply (fine_leaf s Hs); [done| |by destruct (lf_idle l)|by destruct (lf_idle l)|by destruct (lf_idle l)|pushed]. done.
Qed.

Lemma leaf_getSlot_fine P c b : known s (Leaf c) → fine P s (leaf_getSlot c b s).
Proof.
  intros [l Hl]%leaf_known. unfold leaf_getSlot, theLeaf. rewrite Hl. cbn [get mbind res_bind]. pose proof (known_leaf s c l Hl) as Hk.
  destruct (lf_pollingSlot l); [|apply (fine_same s Hs); pushed].
  eapply (fine_leaf s Hs); [done| |done|done|done|pushed]. done.
Qed.

Lemma leaf_getQueue_fine P c b : known s (Leaf c) → fine P s (leaf_getQueue pollingIterations c b s).
Proof.
  intros [l Hl]%leaf_known. unfold leaf_getQueue, theLeaf. rewrite Hl. cbn [get mbind res_bind]. pose proof (known_leaf s c l Hl) as Hk.
  destruct (parent_of_leaf s Hs c l Hl) as [_ Hp].
  destruct (lf_queue l); cbn [q_getTask]; (eapply (fine_leaf s Hs); [done| |done|done|done|pushed]); done.
Qed.

Lemma leaf_taken_fine P c t : known s (Leaf c) → fine P s (leaf_taken c t s).
Proof.
  intros [l Hl]%leaf_known. unfold leaf_taken, theLeaf. rewrite Hl. cbn [get mbind res_bind]. pose proof (known_leaf s c l Hl) as Hk.
  destruct (lf_rebalance l); [|apply (fine_same s Hs); pushed].
  eapply (fine_leaf s Hs); [done| |done|done|done|destruct (well_above _ _); pushed]. done.
Qed.

Lemma leaf_poll_fine P c k : known s (Leaf c) → fine P s (leaf_poll c k s).
Proof.
  intros [l Hl]%leaf_known. pose proof (known_leaf s c l Hl) as Hk. destruct k as [|k]; cbn [leaf_poll]; [apply (fine_same s Hs); pushed|].
  unfold theLeaf. rewrite Hl. cbn [get mbind res_bind]. destruct (lf_pollingSlot l); [|apply (fine_same s Hs); pushed].
  eapply (fine_leaf s Hs); [done| |done|done|done|pushed]. done.
Qed.

Lemma leaf_timeout_fine P c : known s (Leaf c) → fine P s (leaf_timeout c s).
Proof.
  intros [l Hl]%leaf_known. unfold leaf_timeout, theLeaf. rewrite Hl. cbn [get mbind res_bind]. pose proof (known_leaf s c l Hl) as Hk.
  destruct (parent_of_leaf s Hs c l Hl) as [_ Hp]. apply (fine_same s Hs). destruct (_ =? _)%Z; pushed.
Qed.

Lemma leaf_last_fine P c : known s (Leaf c) → fine P s (leaf_last c s).
Proof.
  intros [l Hl]%leaf_known. unfold leaf_last, theLeaf. rewrite Hl. cbn [get mbind res_bind]. pose proof (known_leaf s c l Hl) as Hk.
  destruct (lf_pollingSlot l); (eapply (fine_leaf s Hs); [done| |done|done|done|pushed]); done.
Qed.

Lemma leaf_return_fine P c t : known s (Leaf c) → fine P s (leaf_return c t s).
Proof.
  intros [l Hl]%leaf_known. unfold leaf_return, theLeaf. rewrite Hl. cbn [get mbind res_bind].
  eapply (fine_leaf s Hs); [done| |done|done|done|pushed]. done.
Qed.

Lemma leaf_disable_fine P c : known s (Leaf c) → fine P s (leaf_disable c s).
Proof.
  intros [l Hl]%leaf_known. unfold leaf_disable, theLeaf. rewrite Hl. cbn [get mbind res_bind]. pose proof (known_leaf s c l Hl) as Hk.
  destruct (parent_of_leaf s Hs c l Hl) as [Hp _].
  destruct (lf_idle l); [|apply (fine_same s Hs); pushed]. eapply (fine_leaf s Hs); [done| |done|done|done|pushed]. done.
Qed.


Lemma leaf_disableQueue_fine P c : known s (Leaf c) → fine P s (leaf_disableQueue c s).
Proof.
  intros [l Hl]%leaf_known. unfold leaf_disableQueue, theLeaf. rewrite Hl. cbn [get mbind res_bind]. pose proof (known_leaf s c l Hl) as Hk.
  destruct (q_getTaskBatch _ _) as [batch q]. eapply (fine_leaf s Hs); [done| |done|done|done|pushed]. done.
Qed.

Lemma leaf_disableSlot_fine P c batch : known s (Leaf c) → fine P s (leaf_disableSlot c batch s).
Proof.
  intros [l Hl]%leaf_known. unfold leaf_disableSlot, theLeaf. rewrite Hl. cbn [get mbind res_bind]. destruct (parent_of_leaf s Hs c l Hl) as [Hp _].
  cbn zeta. destruct (batch ++ _) as [|t b]; (eapply (fine_leaf s Hs); [done| |done|done|done|pushed]); done.
Qed.

Lemma leaf_enable_fine P c : known s (Leaf c) → fine P s (leaf_enable c s).
Proof.
  intros [l Hl]%leaf_known. unfold leaf_enable, theLeaf. rewrite Hl. cbn [get mbind res_bind]. destruct (parent_of_leaf s Hs c l Hl) as [Hp _].
  apply node_known in Hp as [d Hd]. unfold theNode. rewrite Hd. cbn [get mbind res_bind].
  apply (fine_node s Hs) with (d := d); try done; exact (to_idle _ Hs _ d Hd).
Qed.

Lemma leaf_addTaskBatch_fine P c who batch :
  batch ≠ [] → known s (Leaf c) → (∃ n, leaf_parent s c = Some n ∧ who = Node n) → fine P s (leaf_addTaskBatch c who batch s).
Proof.
  intros Hb Hk (n & Hn & ->). destruct (leaf_known s c Hk) as [l Hl]. unfold leaf_addTaskBatch, theLeaf, assert_tree. rewrite Hl. cbn [get mbind res_bind].
  assert (lf_parent l = n) as Hp by (unfold leaf_parent in Hn; rewrite Hl in Hn; by injection Hn).
  rewrite (bool_decide_eq_false_2 _ Hb), bool_decide_eq_true_2 by (by rewrite Hp). cbn [negb failIf mbind res_bind].
  destruct (lf_pollingSlot l); [apply (fine_same s Hs); pushed|]. destruct (last batch) as [t|]; [|apply (fine_same s Hs); pushed].
  eapply (fine_leaf s Hs); [done| |by destruct (lf_idle l)|by destruct (lf_idle l)|by destruct (lf_idle l)|pushed]. done.
Qed.

Lemma leaf_queueBatch_fine P c batch : known s (Leaf c) → fine P s (leaf_queueBatch fifo c batch s).
Proof.
  intros [l Hl]%leaf_known. unfold leaf_queueBatch, theLeaf. rewrite Hl. cbn [get mbind res_bind].
  eapply (fine_leaf s Hs); [done| |done|done|done|pushed]. done.
Qed.

Lemma leaf_update_fine P c : known s (Leaf c) → fine P s (leaf_update height c s).
Proof.
  intros [l Hl]%leaf_known. unfold leaf_update, theLeaf. rewrite Hl. cbn [get mbind res_bind]. pose proof (known_leaf s c l Hl) as Hk.
  destruct (parent_of_leaf s Hs c l Hl) as [Hp _]. destruct (threshold_known s Hs _ Hp) as [th ->]. cbn [mbind res_bind].
  destruct (_ && _).
  - destruct (q_getTaskBatch _ _) as [[|t batch] q]; cbn [app]; (eapply (fine_leaf s Hs); [done| |done|done|done|pushed]); done.
  - eapply (fine_leaf s Hs); [done| |done|done|done|pushed]. by destruct (_ <? _)%Z.
Qed.

(** *** Nodes *)

Lemma pop_idle_spec who l : match pop_idle who l with (Some x, l') => x ∈ l ∧ l' ⊆ l | (None, l') => l' = [] end.
Proof.
  induction l as [|x l IH]; simpl; [done|]. case_decide; [|split; [left|set_solver]]. destruct (pop_idle who l) as [[y|] l']; [|done]. set_solver.
Qed.

Lemma erase_child_subset x l : erase_child x l ⊆ l.
Proof. induction l as [|y l IH]; simpl; [done|]. case_decide; set_solver. Qed.

Lemma idle_ok_sub d l q : idle_ok d → l ⊆ nd_idleChildren d → (q ≠ [] → nd_queue d ≠ [] ∨ l = []) → idle_ok (node_queue q (node_idle l d)).
Proof.
  intros [H1 H2] Hl Hq. split; cbn; [set_solver|]. intros Hst Hne. destruct (Hq Hne) as [Hd| ->]; [|done]. specialize (H2 Hst Hd). rewrite H2 in Hl.
  by apply list_nil_subseteq in Hl.
Qed.

Lemma q_getTaskBatch_rest elements q : (q_getTaskBatch elements q).2 ≠ [] → q ≠ [].
Proof. unfold q_getTaskBatch. cbn. intros H ->. by rewrite take_nil in H. Qed.

(** Half of a threshold is at least one, and is passed on as it is while it fits. *)
Lemma batch_empty th q : (0 ≤ th < 2 ^ 32)%Z → (q_getTaskBatch (to_int (half th)) q).1 = [] → q = [].
Proof.
  intros Hth. unfold q_getTaskBatch. cbn. intros Hr. assert (1 ≤ half th < 2 ^ 31)%Z as Hh.
  { unfold half. assert (0 ≤ th / 2)%Z by (apply Z.div_pos; lia). assert (th / 2 < 2 ^ 31)%Z by (apply Z.div_lt_upper_bound; lia).
    destruct (_ =? _)%Z eqn:He; lia. }
  assert (to_int (half th) = half th) as Hi by (unfold to_int, wrap_int; rewrite Z.mod_small; lia). rewrite Hi in Hr.
  assert (length q ≠ 0 → batch_size (half th) q ≠ 0) as Hne.
  { unfold batch_size. destruct (_ || _); lia. }
  apply (f_equal length) in Hr. rewrite length_reverse, length_drop in Hr. cbn in Hr. destruct q as [|t q]; [done|]. cbn in *. lia.
Qed.

Section node.
Context (n : nat) (d : node) (Hd : tr_nodes s !! n = Some d).

(** Tasks leave the queue, or idle children the list. *)
Lemma fine_less P d' pushed o :
  nd_parent d' = nd_parent d → nd_children d' = nd_children d → nd_idleChildren d' ⊆ nd_idleChildren d →
  (nd_queue d' ≠ [] → nd_queue d ≠ []) → Forall (frame_ok s) pushed → fine P s (Ok (put_nd n d' s, pushed, o)).
Proof.
  intros Hp Hc Hi Hq Hf. eapply (fine_node s Hs); try done. destruct (to_idle _ Hs n d Hd) as [H1 H2]. split; [rewrite Hc; set_solver|].
  intros Hst Hne. rewrite (H2 Hst (Hq Hne)) in Hi. by apply list_nil_subseteq in Hi.
Qed.

Lemma node_addTaskBatch_fine P who batch b : batch ≠ [] → fine P s (node_addTaskBatch fifo n who batch b s).
Proof.
  intros Hb. unfold node_addTaskBatch, theNode. rewrite Hd. cbn [get mbind res_bind]. pose proof (pop_idle_spec who (nd_idleChildren d)) as Hpop.
  destruct (to_idle _ Hs n d Hd) as [H1 H2]. destruct (pop_idle _ _) as [[x|] l].
  - destruct Hpop as [Hx Hl]. apply fine_less; try done. pushed; [|by eapply known_node].
    eapply (child_batch s Hs n _ _ x batch b); [by apply shape_at|by apply H1|done].
  - subst l. pose proof (known_node s n d Hd) as Hk. eapply (fine_node s Hs); [done|done|done|split; cbn; [set_solver|done]|destruct (_ <? _)%Z; pushed].
Qed.

Lemma node_overflow_fine P b : fine P s (node_overflow n b s).
Proof.
  unfold node_overflow, theNode. rewrite Hd. cbn [get mbind res_bind]. destruct (nd_parent d) as [p|] eqn:Hp.
  - destruct (parent_of_node s Hs n d p Hd Hp) as [Hk _]. pose proof (q_getTaskBatch_rest (to_int (half (nd_queueThreshold d))) (nd_queue d)) as Hr.
    destruct (q_getTaskBatch _ _) as [[|t batch] q]; apply fine_less; try done; pushed.
  - destruct b; [|apply (fine_same s Hs); pushed]. apply fine_less; try done. pushed. by eapply known_node.
Qed.

Lemma node_getTask_fine P who b : (strict → (0 ≤ nd_queueThreshold d < 2 ^ 32)%Z) → who ∈ nd_children d → fine P s (node_getTask n who b s).
Proof.
  intros Hth Hw. unfold node_getTask, theNode. rewrite Hd. cbn [get mbind res_bind].
  pose proof (q_getTaskBatch_rest (to_int (half (nd_queueThreshold d))) (nd_queue d)) as Hr.
  destruct (q_getTaskBatch (to_int (half (nd_queueThreshold d))) (nd_queue d)) as [[|t batch] q] eqn:Hq.
  - assert (strict → nd_queue d = []) as Hnil by (intros Hst; apply (batch_empty (nd_queueThreshold d)); [auto|by rewrite Hq]).
    destruct (to_idle _ Hs n d Hd) as [H1 H2]. cbn zeta. cbn [nd_parent node_rebalance node_idle]. destruct (nd_parent d) as [p|] eqn:Hp.
    + destruct (parent_of_node s Hs n d p Hd Hp) as [_ Hk]. eapply (fine_node s Hs); try done; [split; cbn; [set_solver|intros Hst; by rewrite (Hnil Hst)]|pushed].
    + eapply (fine_node s Hs); try done; [split; cbn; [set_solver|intros Hst; by rewrite (Hnil Hst)]|pushed]. by eapply known_node.
  - apply fine_less; try done. pushed; [|by eapply known_node]. eapply (child_batch s Hs n _ _ who (t :: batch) true); [by apply shape_at|done|done].
Qed.

Lemma node_decrease_fine P b : fine P s (node_decrease n b s).
Proof. unfold node_decrease, theNode. rewrite Hd. cbn [get mbind res_bind]. apply fine_less; try done. pushed. by eapply known_node. Qed.

Lemma node_getRebalance_fine P : fine P s (node_getRebalance n s).
Proof.
  unfold node_getRebalance, theNode. rewrite Hd. cbn [get mbind res_bind]. pose proof (known_node s n d Hd) as Hk.
  destruct (nd_parent d), (nd_rebalance d); try (apply (fine_same s Hs); pushed). apply fine_less; try done. destruct (well_above _ _); pushed.
Qed.

Lemma node_update_fine P : fine P s (node_update height n s).
Proof.
  unfold node_update, theNode. rewrite Hd. cbn [get mbind res_bind].
  assert (Forall (frame_ok s) (FUpdate <$> nd_children d)) as Hf.
  { apply Forall_forall. intros f (x & -> & Hx)%list_elem_of_fmap. cbn [frame_ok]. eapply (child_known s Hs); [by apply shape_at|done]. }
  destruct (nd_parent d) as [p|] eqn:Hp; [|by apply (fine_same s Hs)].
  destruct (parent_of_node s Hs n d p Hd Hp) as [Hk _]. destruct (threshold_known s Hs _ Hk) as [th ->]. cbn [mbind res_bind].
  pose proof (known_node s n d Hd) as Hn. destruct (_ <? _)%Z; apply fine_less; try done; by apply Forall_cons.
Qed.

Lemma node_unidleChild_fine P who : fine P s (node_unidleChild n who s).
Proof.
  unfold node_unidleChild, theNode. rewrite Hd. cbn [get mbind res_bind]. apply fine_less; try done; [apply erase_child_subset|].
  destruct (nd_parent d) as [p|] eqn:Hp; [|pushed]. destruct (parent_of_node s Hs n d p Hd Hp) as [Hk _]. pushed.
Qed.

Lemma node_disableChild_fine : fine True s (node_disableChild n s).
Proof.
  unfold node_disableChild, theNode, assert_tree. rewrite Hd. cbn [get mbind res_bind]. destruct (negb (negb _)); [done|]. cbn [failIf mbind res_bind].
  cbn zeta. destruct (nd_parent d) as [p|] eqn:Hp; [case_decide|]; [|apply fine_less; try done; pushed..].
  destruct (parent_of_node s Hs n d p Hd Hp) as [Hk _]. rewrite q_getTaskBatch_all. destruct (reverse _); apply fine_less; try done; pushed.
Qed.
End node.

(** The frames whose assertions depend on what the threads do. *)
Definition may_fail (f : frame) : Prop := match f with FAddTask _ _ true | FDisableChild _ => True | _ => False end.

Definition small : Prop := ∀ n d, tr_nodes s !! n = Some d → (0 ≤ nd_queueThreshold d < 2 ^ 32)%Z.

Lemma exec_fine f : (strict → small) → frame_ok s f → fine (may_fail f) s (exec fifo pollingIterations height f s).
Proof.
  intros Hsmall. destruct f as [c t b| | |c| | | | | | | | | | |c| | | |[c|n] who batch b| |n b|n|n who b|n|n b|[c|n]|c th|n th|n who|n]; cbn [exec frame_ok may_fail]; intros Hf.
  - destruct (leaf_addTask c t b s) as [[[s' pushed] o]|e] eqn:He; pose proof (leaf_addTask_fine c t b Hf) as Hok; rewrite He in Hok; [done|].
    destruct Hok as [-> ->]. done.
  - by apply leaf_addSlot_fine.
  - by apply leaf_addQueue_fine.
  - destruct (leaf_known s c Hf) as [l Hl]. unfold theLeaf. rewrite Hl. cbn [get mbind res_bind]. eapply (fine_leaf s Hs); [done| |done|done|done|pushed]. done.
  - by apply leaf_overflow_fine.
  - by apply leaf_get_fine.
  - by apply leaf_getSlot_fine.
  - by apply leaf_getQueue_fine.
  - by apply leaf_taken_fine.
  - by apply leaf_poll_fine.
  - by apply leaf_timeout_fine.
  - by apply leaf_last_fine.
  - by apply leaf_return_fine.
  - by apply leaf_disable_fine.
  - split; [|split]; [|done|pushed]. destruct Hs as [Hsh Hid]. split; [|done]. eapply shape_ok_shape; [|done]. done.
  - by apply leaf_disableQueue_fine.
  - by apply leaf_disableSlot_fine.
  - by apply leaf_enable_fine.
  - destruct Hf as (? & ? & ?). by apply leaf_addTaskBatch_fine.
  - destruct Hf as (Hb & [d Hd]%node_known & _). by eapply node_addTaskBatch_fine.
  - by apply leaf_queueBatch_fine.
  - destruct (node_known s n Hf) as [d Hd]. by eapply node_overflow_fine.
  - destruct (node_known s n Hf) as [d Hd]. unfold node_balanced, theNode. rewrite Hd. cbn [get mbind res_bind]. by eapply fine_less.
  - destruct Hf as (p & ch & Hn & Hw). unfold node_shape in Hn. apply fmap_Some in Hn as (d & Hd & [= -> ->]).
    eapply node_getTask_fine; [done|intros Hst; by eapply (Hsmall Hst)|done].
  - destruct (node_known s n Hf) as [d Hd]. by eapply node_getRebalance_fine.
  - destruct (node_known s n Hf) as [d Hd]. by eapply node_decrease_fine.
  - by apply leaf_update_fine.
  - destruct (node_known s n Hf) as [d Hd]. by eapply node_update_fine.
  - destruct (leaf_known s c Hf) as [l Hl]. unfold theLeaf. rewrite Hl. cbn [get mbind res_bind]. eapply (fine_leaf s Hs); [done| |done|done|done|pushed]. done.
  - destruct (node_known s n Hf) as [d Hd]. unfold theNode. rewrite Hd. cbn [get mbind res_bind]. by eapply fine_less.
  - destruct (node_known s n Hf) as [d Hd]. by eapply node_unidleChild_fine.
  - destruct (node_known s n Hf) as [d Hd]. by eapply node_disableChild_fine.
Qed.
End frames.
End shape.
