(* ===== verification/TreeTheorems.v ===== *)
(** * What the tree scheduler guarantees

    Under every interleaving of the calls: no task is lost or given out twice, no frame fails an assertion
    other than the two that depend on what the threads do, and no task waits in a node above a child
    that is known to be idle. *)

From S2P Require Import Prelude.
From S2P Require Import Scheduler SchedulerProofs.
From S2P Require Import TreeScheduler TreeProofs.
Local Open Scope nat_scope.

Section runs.
Context (fifo : bool) (pollingIterations height : nat) (strict : Prop).

Definition frames (r : tree_run) : list frame := concat (tw_threads r).

Record run_ok (r : tree_run) : Prop := {
  ro_tree : tree_ok height strict (tw_tree r);
  ro_frames : Forall (frame_ok (tw_tree r)) (frames r);
  ro_tasks : tw_submitted r ≡ₚ tw_returned r ++ (frames r ≫= carried) ++ tree_tasks (tw_tree r);
}.

(** A step; when [strict] holds, one after which the thresholds of the nodes are below 2{^32}. *)
Definition guarded_step (r r' : tree_run) : Prop := tree_step fifo pollingIterations height r r' ∧ (strict → small (tw_tree r')).

Lemma tree_ok_rr s k :
  tree_ok height strict s → tree_ok height strict (mkTree (tr_leaves s) (tr_nodes s) (tr_CPUScheduler s) k (tr_idleCPUs s) (tr_resumed s)).
Proof. intros [H1 H2]. split; [|exact H2]. eapply shape_ok_shape; [|exact H1]. by split_and!. Qed.

Lemma next_scheduler_spec fuel s s' c :
  next_scheduler fuel s = Ok (s', c) →
  (∃ k, s' = mkTree (tr_leaves s) (tr_nodes s) (tr_CPUScheduler s) k (tr_idleCPUs s) (tr_resumed s)) ∧ Some c ∈ tr_CPUScheduler s.
Proof.
  revert s. induction fuel as [|fuel IH]; intros s; [done|]. cbn. destruct (tr_CPUScheduler s !! tr_schedRRCounter s) as [[c'|]|] eqn:Hc; [| |done].
  - intros [= <- <-]. split; [by eexists|]. by eapply list_elem_of_lookup_2.
  - intros H%IH. cbn in H. done.
Qed.

(** A call starts. *)
Lemma start_ok r stack t :
  run_ok r → Forall (frame_ok (tw_tree r)) stack → (stack ≫= carried) = t →
  run_ok (mkTreeRun (tw_tree r) (tw_threads r ++ [stack]) (tw_submitted r ++ t) (tw_returned r)).
Proof.
  intros [H1 H2 H3] Hs <-. unfold frames in *. split; cbn; unfold frames; cbn; [done| |]; rewrite concat_app; cbn; rewrite app_nil_r.
  - by apply Forall_app.
  - rewrite bind_app. solve_perm.
Qed.

Lemma add_ok r t cpu s stack :
  run_ok r → tree_addReadyTask t false cpu (tw_tree r) = Ok (s, stack) → (∀ c, cpu = Some c → is_Some (tr_leaves (tw_tree r) !! c)) →
  run_ok (mkTreeRun s (tw_threads r ++ [stack]) (tw_submitted r ++ [t]) (tw_returned r)).
Proof.
  intros Hr Ha Hcpu. unfold tree_addReadyTask in Ha. cbn [failIf mbind res_bind] in Ha. destruct cpu as [c|].
  - injection Ha as <- <-. apply (start_ok r); [done| |done]. destruct (Hcpu c eq_refl) as [l Hl]. apply Forall_singleton. by eapply known_leaf.
  - apply res_bind_ok in Ha as ([s' c] & Hn & [= <- <-]). destruct (next_scheduler_spec _ _ _ _ Hn) as [[k ->] Hc].
    set (r' := mkTreeRun (mkTree (tr_leaves (tw_tree r)) (tr_nodes (tw_tree r)) (tr_CPUScheduler (tw_tree r)) k (tr_idleCPUs (tw_tree r))
      (tr_resumed (tw_tree r))) (tw_threads r) (tw_submitted r) (tw_returned r)).
    assert (run_ok r') as Hr'.
    { destruct Hr as [H1 H2 H3]. split; [by apply tree_ok_rr| |done]. eapply Forall_impl; [exact H2|]. intros f. apply frame_ok_shape. by split_and!. }
    apply (start_ok r'); [done| |done]. apply Forall_singleton. exact (sh_cpus _ _ (to_shape _ _ _ (ro_tree r Hr)) c Hc).
Qed.

Lemma concat_split {A} (l1 l2 : list (list A)) x : concat (l1 ++ x :: l2) = concat l1 ++ x ++ concat l2.
Proof. by rewrite concat_app. Qed.

Lemma exec_ok r l1 f stack l2 s pushed o :
  run_ok r → (strict → small (tw_tree r)) → tw_threads r = l1 ++ (f :: stack) :: l2 → exec fifo pollingIterations height f (tw_tree r) = Ok (s, pushed, o) →
  run_ok (mkTreeRun s (l1 ++ (pushed ++ stack) :: l2) (tw_submitted r) (tw_returned r ++ option_list o)).
Proof.
  intros [H1 H2 H3] Hsm Hth He. unfold frames in *. rewrite Hth, concat_split in H2, H3.
  rewrite !Forall_app, Forall_cons in H2. destruct H2 as (Hf1 & [Hf Hf2] & Hf3).
  pose proof (exec_fine height strict fifo pollingIterations (tw_tree r) H1 f Hsm Hf) as Hfine. rewrite He in Hfine. destruct Hfine as (Hok & Hsame & Hpush).
  pose proof (exec_conserves fifo pollingIterations height f (tw_tree r)) as Hc. rewrite He in Hc. cbn in Hc.
  assert (∀ l, Forall (frame_ok (tw_tree r)) l → Forall (frame_ok s) l) as Htr.
  { intros l Hl. eapply Forall_impl; [exact Hl|]. intros g. by apply frame_ok_shape. }
  split; cbn; [done| |]; unfold frames; cbn; rewrite concat_split.
  - rewrite !Forall_app. auto.
  - rewrite !bind_app in *. cbn in H3. solve_perm.
Qed.

Lemma guarded_step_ok r r' : run_ok r → (strict → small (tw_tree r)) → guarded_step r r' → run_ok r'.
Proof.
  intros Hr Hsm [Hs _]. destruct Hs.
  - by eapply add_ok.
  - rewrite <- (app_nil_r (tw_submitted r)). apply (start_ok r); [done| |done]. destruct H as [l Hl]. apply Forall_singleton. by eapply known_leaf.
  - rewrite <- (app_nil_r (tw_submitted r)). apply (start_ok r); [done| |done]. destruct H as [l Hl]. apply Forall_singleton. by eapply known_leaf.
  - rewrite <- (app_nil_r (tw_submitted r)). apply (start_ok r); [done| |done]. destruct H as [l Hl]. apply Forall_singleton. by eapply known_leaf.
  - by eapply exec_ok.
Qed.

Lemma guarded_steps_ok r r' : run_ok r → (strict → small (tw_tree r)) → rtc guarded_step r r' → run_ok r' ∧ (strict → small (tw_tree r')).
Proof.
  intros Hr Hsm. apply (rtc_ind_r (λ r', run_ok r' ∧ (strict → small (tw_tree r')))); [done|]. intros r1 r2 _ Hstep [H1 H2]. split; [by eapply guarded_step_ok|apply Hstep].
Qed.
End runs.

(** ** The start *)

Section start.
Context (N : nat) (cpus : list (option nat)).
(** The CPUs are in the NUMA nodes, when there are several. *)
Context (Hnodes : ∀ c n, cpus !! c = Some (Some n) → n < N).

Definition top_of (n : nat) : nat := if decide (1 < N) then S n else 0.

Lemma new_leaf_parent c n : leaf_parent (new_tree N cpus) c = Some n ↔ ∃ k, cpus !! c = Some (Some k) ∧ n = top_of k.
Proof.
  unfold leaf_parent, new_tree. cbn. rewrite lookup_omap, lookup_map_seq_0. destruct (cpus !! c) as [[k|]|]; cbn; [|naive_solver..].
  unfold top_of. split; [intros [= <-]; by exists k|]. by intros (? & [= <-] & ->).
Qed.

Lemma tree_members P c : c ∈ members P cpus ↔ ∃ n, cpus !! c = Some (Some n) ∧ P n = true.
Proof.
  unfold members. rewrite list_elem_of_filter, elem_of_seq. split.
  - intros [H _]. destruct (cpus !! c) as [[n|]|]; [by exists n|done..].
  - intros (n & Hn & HP). rewrite Hn. split; [done|]. apply lookup_lt_Some in Hn. lia.
Qed.

(** The nodes of the new tree. *)
Lemma new_node_shape n p ch :
  node_shape (new_tree N cpus) n = Some (p, ch) ↔
  if decide (1 < N) then
    (n = 0 ∧ p = None ∧ ch = (λ i, Node (S i)) <$> seq 0 N) ∨
    (∃ i, i < N ∧ n = S i ∧ p = Some 0 ∧ ch = Leaf <$> members (λ m, bool_decide (m = i)) cpus)
  else n = 0 ∧ p = None ∧ ch = Leaf <$> members (λ _, true) cpus.
Proof.
  unfold node_shape, new_tree. cbn [tr_nodes]. rewrite lookup_map_seq_0. destruct (decide (1 < N)) as [HN|HN].
  - destruct n as [|i]; [cbn; naive_solver|]. rewrite lookup_cons. rewrite list_lookup_fmap. destruct (decide (i < N)) as [Hi|Hi].
    + rewrite lookup_seq_lt by done. cbn. split; [intros [= <- <-]; right; by exists i|]. intros [(? & _)|(j & _ & [= <-] & -> & ->)]; done.
    + rewrite lookup_seq_ge by lia. split; [done|]. intros [(? & _)|(j & ? & [= <-] & _)]; [done|lia].
  - destruct n as [|[|n]]; cbn; naive_solver.
Qed.

Lemma new_tree_shape : shape_ok 1 (new_tree N cpus).
Proof.
  split.
  - intros c n (k & Hk & ->)%new_leaf_parent. unfold top_of. destruct (decide (1 < N)) as [HN|HN] eqn:HD; eexists _, _; rewrite new_node_shape, HD.
    + split; [right; exists k; split_and!; [by eapply Hnodes|done..]|]. apply list_elem_of_fmap_2, tree_members. exists k. by rewrite bool_decide_true.
    + split; [by split_and!|]. apply list_elem_of_fmap_2, tree_members. by exists k.
  - intros k n ch Hk%new_node_shape. destruct (decide (1 < N)) as [HN|HN] eqn:HD; [|naive_solver].
    destruct Hk as [(_ & ? & _)|(i & Hi & -> & [= ->] & ->)]; [done|]. eexists _, _. rewrite new_node_shape, HD. split; [by left|].
    apply list_elem_of_fmap. exists i. rewrite elem_of_seq. split; [done|lia].
  - intros n p ch x Hn%new_node_shape Hx. destruct (decide (1 < N)) as [HN|HN] eqn:HD.
    + destruct Hn as [(-> & -> & ->)|(i & Hi & -> & -> & ->)]; apply list_elem_of_fmap in Hx as (y & -> & Hy); cbn.
      * apply elem_of_seq in Hy. eexists. apply new_node_shape. rewrite HD. right. exists y. split_and!; [lia|done..].
      * apply tree_members in Hy as (m & Hm & ->%bool_decide_eq_true). apply new_leaf_parent. exists i. unfold top_of. by rewrite HD.
    + destruct Hn as (-> & -> & ->). apply list_elem_of_fmap in Hx as (y & -> & Hy). apply tree_members in Hy as (m & Hm & _).
      apply new_leaf_parent. exists m. unfold top_of. by rewrite HD.
  - intros n [[p ch] Hn]. cbn. rewrite Hn. destruct p as [p|]; [|done]. apply new_node_shape in Hn. destruct (decide (1 < N)) as [HN|HN] eqn:HD; [|naive_solver].
    destruct Hn as [(_ & ? & _)|(i & Hi & _ & [= ->] & _)]; [done|]. assert (∃ ch', node_shape (new_tree N cpus) 0 = Some (None, ch')) as [ch' ->]; [|done].
    eexists. apply new_node_shape. rewrite HD. by left.
  - intros c Hc. unfold new_tree in Hc. cbn in Hc. apply elem_of_lookup_imap in Hc as (i & x & Heq & Hx). destruct x as [k|]; [|done].
    injection Heq as ->. exists (top_of k). apply new_leaf_parent. by exists k.
Qed.

Lemma new_tree_nodes n d :
  tr_nodes (new_tree N cpus) !! n = Some d → nd_queueThreshold d = 0%Z ∧ nd_idleChildren d = [] ∧ nd_queue d = [].
Proof.
  unfold new_tree. cbn. rewrite lookup_map_seq_0. intros Hd%list_elem_of_lookup_2. destruct (decide (1 < N)).
  - apply elem_of_cons in Hd as [->|(i & -> & _)%list_elem_of_fmap]; done.
  - apply list_elem_of_singleton in Hd as ->. done.
Qed.

Lemma bind_vals_nil {A} (f : A → list nat) (m : gmap nat A) : (∀ k v, m !! k = Some v → f v = []) → vals m ≫= f = [].
Proof.
  intros Hf. assert (∀ l : list A, Forall (λ v, f v = []) l → l ≫= f = []) as Hl.
  { induction 1 as [|v l Hv _ IH]; [done|]. cbn. by rewrite Hv, IH. }
  apply Hl, Forall_forall. intros v (p & -> & Hp)%list_elem_of_fmap. destruct p as [k v]. apply elem_of_map_to_list in Hp. by eapply Hf.
Qed.

Lemma new_tree_tasks : tree_tasks (new_tree N cpus) = [].
Proof.
  unfold tree_tasks. rewrite !bind_vals_nil; [done|intros k d Hd; by apply (new_tree_nodes k)|]. intros c l. unfold new_tree. cbn [tr_leaves].
  rewrite lookup_omap. intros (x & _ & Hx)%bind_Some. destruct x; [|done]. cbn in Hx. by injection Hx as <-.
Qed.

Lemma new_tree_ok strict : run_ok 1 strict (initial_tree_run (new_tree N cpus)) ∧ small (new_tree N cpus).
Proof.
  split; [split; cbn; [|constructor|by rewrite new_tree_tasks]|].
  - split; [apply new_tree_shape|]. intros n d (_ & Hi & Hq)%new_tree_nodes. split; [rewrite Hi; set_solver|by rewrite Hq].
  - intros n d (-> & _)%new_tree_nodes. done.
Qed.
End start.

(** ** Runs *)

Inductive tree_action :=
  | AAdd (t : nat) (cpu : option nat)
  | AGet (c : nat) (doWait : bool)
  | ADisable (c : nat)
  | AEnable (c : nat)
  (* so many parts of the call of a thread *)
  | AExec (i k : nat).

Section actions.
Context (fifo : bool) (pollingIterations height : nat).

Definition small_b (s : tree) : bool := bool_decide (map_Forall (λ _ d, (0 ≤ nd_queueThreshold d < 2 ^ 32)%Z) (tr_nodes s)).

Definition start_call (c : nat) (stack : list frame) (r : tree_run) : option tree_run :=
  if decide (is_Some (tr_leaves (tw_tree r) !! c))
  then Some (mkTreeRun (tw_tree r) (tw_threads r ++ [stack]) (tw_submitted r) (tw_returned r)) else None.

Definition exec_part (i : nat) (r : tree_run) : option tree_run :=
  match tw_threads r !! i with
  | Some (f :: stack) =>
      match exec fifo pollingIterations height f (tw_tree r) with
      | Ok (s, pushed, o) => Some (mkTreeRun s (take i (tw_threads r) ++ (pushed ++ stack) :: drop (S i) (tw_threads r)) (tw_submitted r) (tw_returned r ++ option_list o))
      | Err _ => None
      end
  | _ => None
  end.

Definition checked (r : option tree_run) : option tree_run := r ← r; if small_b (tw_tree r) then Some r else None.

Fixpoint exec_parts (i k : nat) (r : tree_run) : option tree_run :=
  match k with O => Some r | S k => r ← checked (exec_part i r); exec_parts i k r end.

Definition act (a : tree_action) (r : tree_run) : option tree_run :=
  match a with
  | AAdd t cpu =>
      if match cpu with Some c => bool_decide (is_Some (tr_leaves (tw_tree r) !! c)) | None => true end then
        match tree_addReadyTask t false cpu (tw_tree r) with
        | Ok (s, stack) => checked (Some (mkTreeRun s (tw_threads r ++ [stack]) (tw_submitted r ++ [t]) (tw_returned r)))
        | Err _ => None
        end
      else None
  | AGet c doWait => checked (start_call c (tree_getReadyTask c doWait) r)
  | ADisable c => checked (start_call c (tree_disableComputePlace c) r)
  | AEnable c => checked (start_call c (tree_enableComputePlace c) r)
  | AExec i k => exec_parts i k r
  end.

Fixpoint acts (l : list tree_action) (r : tree_run) : option tree_run :=
  match l with [] => Some r | a :: l => r ← act a r; acts l r end.

(** The relation that the actions stay in. *)
Definition both (r r' : tree_run) : Prop := tree_step fifo pollingIterations height r r' ∧ small (tw_tree r').

Lemma checked_step r o r' : (∀ r1, o = Some r1 → tree_step fifo pollingIterations height r r1) → checked o = Some r' → both r r'.
Proof.
  intros Ho (r1 & H1 & H2)%bind_Some. destruct (small_b (tw_tree r1)) eqn:Hs; [|done]. injection H2 as <-. split; [by apply Ho|].
  intros n d Hd. apply bool_decide_eq_true in Hs. by apply (Hs n d).
Qed.

Lemma exec_part_step i r r' : exec_part i r = Some r' → tree_step fifo pollingIterations height r r'.
Proof.
  unfold exec_part. destruct (tw_threads r !! i) as [[|f stack]|] eqn:Hi; [done| |done].
  destruct (exec _ _ _ f _) as [[[s pushed] o]|] eqn:He; [|done]. intros [= <-]. eapply step_exec; [|done]. by rewrite take_drop_middle.
Qed.

Lemma exec_parts_steps i k r r' : exec_parts i k r = Some r' → rtc both r r'.
Proof.
  revert r. induction k as [|k IH]; cbn; intros r; [intros [= ->]; constructor|]. intros (r1 & H1 & H2)%bind_Some.
  eapply rtc_l; [|by apply IH]. eapply checked_step; [|exact H1]. apply exec_part_step.
Qed.

Lemma start_call_spec c stack r r' :
  start_call c stack r = Some r' →
  is_Some (tr_leaves (tw_tree r) !! c) ∧ r' = mkTreeRun (tw_tree r) (tw_threads r ++ [stack]) (tw_submitted r) (tw_returned r).
Proof. unfold start_call. case_decide; [|done]. by intros [= <-]. Qed.

Lemma act_steps a r r' : act a r = Some r' → rtc both r r'.
Proof.
  destruct a as [t cpu|c w|c|c|i k]; cbn [act]; [| | | |apply exec_parts_steps].
  - destruct (match cpu with Some _ => _ | None => _ end) eqn:Hc; [|done]. destruct (tree_addReadyTask _ _ _ _) as [[s stack]|] eqn:Ha; [|done].
    intros Hr. eapply rtc_once, checked_step; [|exact Hr]. intros r1 [= <-]. apply step_add with (cpu := cpu); [done|]. intros c ->. by apply bool_decide_eq_true in Hc.
  - intros Hr. eapply rtc_once, checked_step; [|exact Hr]. intros r1 [H ->]%start_call_spec. by constructor.
  - intros Hr. eapply rtc_once, checked_step; [|exact Hr]. intros r1 [H ->]%start_call_spec. by constructor.
  - intros Hr. eapply rtc_once, checked_step; [|exact Hr]. intros r1 [H ->]%start_call_spec. by constructor.
Qed.

Lemma acts_steps l r r' : acts l r = Some r' → rtc both r r'.
Proof.
  revert r. induction l as [|a l IH]; cbn; intros r; [intros [= ->]; constructor|]. intros (r1 & H1%act_steps & H2%IH)%bind_Some. by etrans.
Qed.

Lemma acts_tree_step l r r' : acts l r = Some r' → rtc (tree_step fifo pollingIterations height) r r'.
Proof. intros H%acts_steps. eapply rtc_subrel; [|exact H]. by intros ? ? []. Qed.

Lemma acts_guarded_step l r r' : acts l r = Some r' → rtc (guarded_step fifo pollingIterations height True) r r'.
Proof. intros H%acts_steps. eapply rtc_subrel; [|exact H]. intros ? ? []. by split. Qed.
End actions.

Module Tree.
(** C16: in the tree scheduler, with one or several NUMA nodes, whatever calls the threads make and however the parts of
    the calls interleave, no task is lost or given out twice: the tasks that were added are those that
    were returned, those that a call carries, and those in the queues and the slots.  Every part of a
    call succeeds, except that two assertions depend on the callers: a CPU that adds a task is not idle, and a
    child that is disabled is counted as enabled. *)
Theorem tree_conserves_tasks fifo pollingIterations N cpus r :
  (∀ c n, cpus !! c = Some (Some n) → n < N) →
  rtc (tree_step fifo pollingIterations 1) (initial_tree_run (new_tree N cpus)) r →
  tw_submitted r ≡ₚ tw_returned r ++ (frames r ≫= carried) ++ tree_tasks (tw_tree r) ∧
  ∀ f, f ∈ frames r →
    match exec fifo pollingIterations 1 f (tw_tree r) with Ok _ => True | Err e => e = Fatal "assertion" ∧ may_fail f end.
Proof.
  intros Hn Hrun. destruct (new_tree_ok N cpus Hn False) as [Hok _].
  assert (rtc (guarded_step fifo pollingIterations 1 False) (initial_tree_run (new_tree N cpus)) r) as Hrun'.
  { eapply rtc_subrel; [|exact Hrun]. by split. }
  destruct (guarded_steps_ok fifo pollingIterations 1 False _ r Hok ltac:(done) Hrun') as [[Ht Hf Hc] Hsm']. split; [done|]. intros f Hin.
  rewrite Forall_forall in Hf. pose proof (exec_fine 1 False fifo pollingIterations (tw_tree r) Ht f Hsm' (Hf f Hin)) as Hfine.
  destruct (exec _ _ _ f _) as [[[s pushed] o]|e]; [done|exact Hfine].
Qed.

(** Tasks are added and taken on two NUMA nodes; the last call is in its middle. *)
Definition busy_actions : list tree_action :=
  [AAdd 10 None; AExec 0 3; AGet 0 true; AExec 1 3; AAdd 11 (Some 0); AExec 2 19; AAdd 12 (Some 0); AExec 3 3; AAdd 13 (Some 0);
   AExec 4 6; AAdd 14 (Some 0); AExec 5 19; AGet 1 true; AExec 6 21; AGet 0 true; AExec 7 4].

Definition two_nodes : tree_run := initial_tree_run (new_tree 2 [Some 0; Some 1]).

Lemma two_nodes_wf c n : [Some 0; Some 1] !! c = Some (Some n) → n < 2.
Proof. destruct c as [|[|c]]; cbn; [intros [= <-]; lia..|done]. Qed.

Lemma tree_conserves_tasks_witness :
  ∃ r, rtc (tree_step true 0 1) two_nodes r ∧ tw_returned r = [10; 14] ∧ (frames r ≫= carried) = [12] ∧
    tw_submitted r ≡ₚ tw_returned r ++ (frames r ≫= carried) ++ tree_tasks (tw_tree r).
Proof.
  destruct (acts true 0 1 busy_actions two_nodes) as [r|] eqn:Hr; [|vm_compute in Hr; done].
  pose proof (acts_tree_step _ _ _ _ _ _ Hr) as Hrun. exists r. split; [done|].
  split; [vm_compute in Hr; by injection Hr as <-|]. split; [vm_compute in Hr; by injection Hr as <-|].
  exact (proj1 (tree_conserves_tasks true 0 2 [Some 0; Some 1] r two_nodes_wf Hrun)).
Defined.

(** C17: a node that knows of an idle child has no task in its queue, at every point of every interleaving in which the
    thresholds of the nodes stay below 2{^32} ([guarded_step]; a threshold that doubles beyond makes [getTask] ask for no tasks): tasks that come to the node go to the idle child, and a child
    becomes idle only when the queue is empty. *)
Theorem idle_child_means_empty_queue fifo pollingIterations N cpus r n d :
  (∀ c m, cpus !! c = Some (Some m) → m < N) →
  rtc (guarded_step fifo pollingIterations 1 True) (initial_tree_run (new_tree N cpus)) r →
  tr_nodes (tw_tree r) !! n = Some d → nd_idleChildren d ≠ [] → nd_queue d = [] ∧ nd_idleChildren d ⊆ nd_children d.
Proof.
  intros Hn Hrun Hd Hi. destruct (new_tree_ok N cpus Hn True) as [Hok Hsm].
  destruct (guarded_steps_ok fifo pollingIterations 1 True _ r Hok (λ _, Hsm) Hrun) as [[Ht _ _] _]. destruct (to_idle _ _ _ Ht n d Hd) as [H1 H2].
  split; [|done]. destruct (nd_queue d) as [|t q]; [done|]. by destruct Hi, H2.
Qed.
(** CPU 0 finds no task and waits; the node of its NUMA node and the topmost node know. *)
Lemma idle_child_means_empty_queue_witness :
  ∃ r d, rtc (guarded_step true 0 1 True) two_nodes r ∧ tr_nodes (tw_tree r) !! 0 = Some d ∧ nd_idleChildren d = [Node 1] ∧
    nd_queue d = [] ∧ nd_idleChildren d ⊆ nd_children d.
Proof.
  destruct (acts true 0 1 [AGet 0 true; AExec 0 8] two_nodes) as [r|] eqn:Hr; [|vm_compute in Hr; done].
  pose proof (acts_guarded_step _ _ _ _ _ _ Hr) as Hrun.
  assert (∃ d, tr_nodes (tw_tree r) !! 0 = Some d ∧ nd_idleChildren d = [Node 1]) as (d & Hd & Hi) by (vm_compute in Hr; injection Hr as <-; by eexists).
  exists r, d. split; [done|]. split; [done|]. split; [done|].
  apply (idle_child_means_empty_queue true 0 2 [Some 0; Some 1] r 0 d two_nodes_wf Hrun Hd). by rewrite Hi.
Defined.

(** CPU 0 of two NUMA nodes is disabled and enabled twice and then disabled, one call after the other.  Enabling it
    counts the leaf in its node, but not the node in the topmost one, which every disabling takes it
    from: the third time the assertion of [disableChild] that a child is enabled fails. *)
Theorem enabling_does_not_reach_the_root fifo :
  ∃ r, acts fifo 0 1 [ADisable 0; AExec 0 5; AEnable 0; AExec 1 1; ADisable 0; AExec 2 5; AEnable 0; AExec 3 1; ADisable 0; AExec 4 4] two_nodes = Some r ∧
    frames r = [FDisableChild 0] ∧ exec fifo 0 1 (FDisableChild 0) (tw_tree r) = Err (Fatal "assertion").
Proof. destruct fifo; eexists; split; [vm_compute; reflexivity| |vm_compute; reflexivity|]; vm_compute; auto. Qed.

(** A leaf that was idle and got a task in its slot stays in the list of idle children of its node; when it is
    disabled, it is not idle any more and is not taken out of the list.  The node gives the next task that
    comes to it to that leaf: with all calls finished, task 12 is in the slot of the disabled CPU 0
    while the scheduler has nothing else. *)
Theorem disabled_leaf_gets_task fifo :
  ∃ r l, acts fifo 0 1 [AGet 0 true; AExec 0 13; AAdd 10 None; AExec 1 3; AGet 0 true; AExec 2 3; ADisable 0; AExec 3 4;
    AAdd 11 None; AExec 4 3; AGet 1 true; AExec 5 3; AAdd 12 (Some 1); AExec 6 8] (initial_tree_run (new_tree 1 [Some 0; Some 0])) = Some r ∧
    frames r = [] ∧ tw_returned r = [10; 11] ∧ tree_tasks (tw_tree r) = [12] ∧ tr_leaves (tw_tree r) !! 0 = Some l ∧ lf_pollingSlot l = Some 12.
Proof. destruct fifo; eexists _, _; (split; [vm_compute; reflexivity|]); vm_compute; auto. Qed.


(** A batch of any size that is taken out of a FIFO queue and put into a FIFO queue again restores it; a LIFO
    queue gets the tasks of the batch in front and in reverse order, so that the one that was to run
    last runs first. *)
Theorem batch_roundtrip elements q :
  let '(batch, rest) := q_getTaskBatch elements q in
  q_addTaskBatch true batch rest = q ∧
  q_addTaskBatch false batch rest = batch ++ rest ∧ rest ++ reverse batch = q.
Proof.
  unfold q_getTaskBatch, q_addTaskBatch. cbn zeta. rewrite !reverse_involutive. set (m := length q - _).
  assert (∀ l r, foldl (λ q t, q_addTask true t q) r l = r ++ l) as Hf.
  { induction l as [|t l IH]; intros r; cbn; [by rewrite app_nil_r|]. by rewrite IH, <- app_assoc. }
  assert (∀ l r, foldl (λ q t, q_addTask false t q) r l = reverse l ++ r) as Hl.
  { induction l as [|t l IH]; intros r; cbn [foldl]; [done|]. by rewrite IH, reverse_cons, <- app_assoc. }
  rewrite Hf, Hl, take_drop. done.
Qed.
End Tree.
