(* ===== verification/Locks.v ===== *)
(** * Locks

    What a lock promises to the components that use it, as a class of implementations that refine a
    mutex, and the spin lock of [src/lowlevel/SpinLock.hpp] in its C++ implementation
    ([cxx/SpinLockImplementation.hpp]).  Each atomic operation of a thread is a step, and the steps of the
    threads interleave freely; the operations are sequentially consistent.  The checks of the owner, which
    only debug builds have, are left out. *)

From S2P Require Import Prelude.
Local Open Scope Z_scope.

(** ** What a lock promises *)

Module Mutex.
(** A lock as its clients see it: the thread that holds it. *)
Definition mutex := option nat.

Inductive step : mutex → mutex → Prop :=
  | step_stay m : step m m
  | step_acquire t : step None (Some t)
  | step_release t : step (Some t) None.

(** An implementation, with the threads that have come out of its [lock] or of a successful [tryLock]. *)
Class Lock (state : Type) := {
  initial : state;
  lock_step : state → state → Prop;
  owns : state → nat → Prop;
}.

Definition held_by `{Lock state} (m : mutex) (s : state) : Prop := ∀ t, owns s t ↔ m = Some t.

(** Each step of the implementation is a step of the mutex. *)
Class LockLaws (state : Type) `{Lock state} : Prop := {
  held_initial : held_by None initial;
  held_step m (s s' : state) :
    rtc lock_step initial s → held_by m s → lock_step s s' → ∃ m', held_by m' s' ∧ step m m';
}.

Section client.
Context `{LockLaws state}.
Implicit Types s : state.

Lemma run_refines s : rtc lock_step initial s → ∃ m, held_by m s ∧ rtc step None m.
Proof.
  revert s. apply rtc_ind_r.
  - exists None. split; [apply held_initial|constructor].
  - intros s s' Hs Hstep (m & Hm & Hr). destruct (held_step m s s' Hs Hm Hstep) as (m' & Hm' & Hmm).
    exists m'. split; [done|]. by eapply rtc_r.
Qed.
End client.
End Mutex.
Export Mutex (mutex, Lock, LockLaws, held_by).

(** ** Spin locks *)

Module Spin.
(** A thread that is in the loop of [lock], or that owns the lock. *)
Inductive position := Locking | Owner.

Record spin_lock := mkSpinLock {
  sl_lock : bool;
  sl_threads : gmap nat position;
}.

Definition new_SpinLock : spin_lock := mkSpinLock false ∅.

(** The call of [lock]. *)
Definition lock (t : nat) (s : spin_lock) : spin_lock := mkSpinLock (sl_lock s) (<[t := Locking]> (sl_threads s)).

(** The compare-and-exchange of [lock], which may also fail for no reason; the loads between two of
    them do not change anything. *)
Definition exchange (t : nat) (spurious : bool) (s : spin_lock) : spin_lock :=
  if sl_lock s || spurious then s else mkSpinLock true (<[t := Owner]> (sl_threads s)).

(** [tryLock] *)
Definition tryLock (t : nat) (s : spin_lock) : spin_lock * bool :=
  if sl_lock s then (s, false) else (mkSpinLock true (<[t := Owner]> (sl_threads s)), true).

(** [unlock] *)
Definition unlock (t : nat) (s : spin_lock) : spin_lock := mkSpinLock false (delete t (sl_threads s)).

Inductive step : spin_lock → spin_lock → Prop :=
  | step_lock s t : sl_threads s !! t = None → step s (lock t s)
  | step_exchange s t spurious : sl_threads s !! t = Some Locking → step s (exchange t spurious s)
  | step_tryLock s t : sl_threads s !! t = None → step s (tryLock t s).1
  | step_unlock s t : sl_threads s !! t = Some Owner → step s (unlock t s).

(** The flag is set exactly when a thread owns the lock, and one does at most. *)
Record inv (s : spin_lock) : Prop := {
  si_flag : sl_lock s = true ↔ ∃ t, sl_threads s !! t = Some Owner;
  si_owner : ∀ t t', sl_threads s !! t = Some Owner → sl_threads s !! t' = Some Owner → t = t';
}.

Lemma spin_inv_take s t : inv s → sl_lock s = false → inv (mkSpinLock true (<[t := Owner]> (sl_threads s))).
Proof.
  intros [Hf Ho] Hl. assert (∀ u, sl_threads s !! u ≠ Some Owner) as Hno.
  { intros u Hu. assert (sl_lock s = true) by (apply Hf; by exists u). congruence. }
  split; simpl.
  - split; [|done]. intros _. exists t. by rewrite lookup_insert_eq.
  - intros u u' [[-> _]|[_ Hu]]%lookup_insert_Some [[-> _]|[_ Hu']]%lookup_insert_Some; [done|..]; by exfalso; eapply Hno.
Qed.

Lemma spin_inv_step s s' : inv s → step s s' → inv s'.
Proof.
  intros Hi Hs. destruct Hs as [s t Ht|s t spurious Ht|s t Ht|s t Ht].
  - destruct Hi as [Hf Ho].
    assert (∀ u, <[t := Locking]> (sl_threads s) !! u = Some Owner ↔ sl_threads s !! u = Some Owner) as He.
    { intros u. rewrite lookup_insert_Some. naive_solver congruence. }
    split; simpl.
    + rewrite Hf. split; intros [u Hu]; exists u; by apply He.
    + intros u u' Hu%He Hu'%He. eauto.
  - unfold exchange. destruct (sl_lock s) eqn:Hl; [done|]. destruct spurious; [done|]. by apply spin_inv_take.
  - unfold tryLock. destruct (sl_lock s) eqn:Hl; [done|]. by apply spin_inv_take.
  - destruct Hi as [Hf Ho]. assert (∀ u, delete t (sl_threads s) !! u ≠ Some Owner) as Hno.
    { intros u [Hne Hu]%lookup_delete_Some. by destruct (Ho _ _ Ht Hu). }
    split; simpl.
    + split; [done|]. intros [u Hu]. by destruct (Hno u).
    + intros u u' Hu. by destruct (Hno u).
Qed.

Lemma spin_inv_reachable s : rtc step new_SpinLock s → inv s.
Proof.
  intros Hs. assert (inv new_SpinLock) as Hi.
  { split; simpl; [split; [done|intros [t Ht]]|intros t t' Ht]; by rewrite lookup_empty in Ht. }
  induction Hs; eauto using spin_inv_step.
Qed.

(** *** The mutex it implements *)

Definition owns (s : spin_lock) (t : nat) : Prop := sl_threads s !! t = Some Owner.

#[export] Instance spin_Lock : Lock spin_lock := Mutex.Build_Lock _ new_SpinLock step owns.

Lemma held_free s : inv s → sl_lock s = false → held_by None s.
Proof. intros Hi Hl t. split; [|done]. intros Ht. assert (sl_lock s = true) by (apply Hi; by exists t). congruence. Qed.

Lemma held_taken s m t : held_by m s → m = None → held_by (Some t) (mkSpinLock true (<[t := Owner]> (sl_threads s))).
Proof.
  intros Hm -> u. specialize (Hm u). cbn in *. unfold owns in *. cbn. rewrite lookup_insert_Some. naive_solver.
Qed.

Lemma held_unique s m : inv s → held_by m s → sl_lock s = false → m = None.
Proof.
  intros Hi Hm Hl. destruct m as [t|]; [|done]. destruct (held_free s Hi Hl t) as [Hn _]. symmetry. by apply Hn, Hm.
Qed.

#[export] Instance spin_LockLaws : LockLaws spin_lock.
Proof.
  split; [intros t; cbn; unfold owns; cbn; by rewrite lookup_empty|].
  intros m s s' Hs%spin_inv_reachable Hm Hstep. destruct Hstep as [s t Ht|s t spurious Ht|s t Ht|s t Ht].
  - exists m. split; [|constructor]. intros u. rewrite <- (Hm u). cbn. unfold owns. cbn. rewrite lookup_insert_Some.
    naive_solver congruence.
  - unfold exchange. destruct (sl_lock s || spurious) eqn:Hl; [exists m; split; [done|constructor]|].
    apply orb_false_iff in Hl as [Hl _]. pose proof (held_unique s m Hs Hm Hl) as ->.
    exists (Some t). split; [by eapply held_taken|constructor].
  - unfold tryLock. destruct (sl_lock s) eqn:Hl; [exists m; split; [done|constructor]|].
    pose proof (held_unique s m Hs Hm Hl) as ->. exists (Some t). split; [by eapply held_taken|constructor].
  - pose proof (proj1 (Hm t) Ht) as ->. exists None. split; [|constructor]. intros u. cbn. unfold owns. cbn.
    rewrite lookup_delete_Some. split; [|done]. intros [Hne Hu]. apply Hm in Hu. by injection Hu as ->.
Qed.
End Spin.
