(* ===== verification/TicketLocks.v ===== *)
(** * Ticket locks

    [src/lowlevel/TicketSpinLock.hpp] (and [PaddedTicketSpinLock.hpp], which only adds padding), with
    tickets of a bounded width.  The lock refines the mutex of [Locks], serves the threads in the order
    in which they come, and has one exception: a thread in [tryLock] that is overtaken by all the values
    of a ticket. *)

From S2P Require Import Prelude.
From S2P Require Import Locks.
Local Open Scope Z_scope.

Module Ticket.
Section ticket.
(** The number of values of [TICKET_T]: a value is represented by a count of which it is the residue. *)
Context (values : Z) (Hvalues : 1 < values).

Definition same_ticket (a b : Z) : bool := a mod values =? b mod values.

(** Where a thread is: in the loop of [lock] with its ticket, the owner, in [tryLock] after the load of
    [_nextFreeTicket], or before its compare-and-exchange. *)
Inductive position := Spinning (ticket : Z) | Owner | TryLoaded (ticket : Z) | TryMatched (ticket : Z).

Record ticket_lock := mkTicketLock {
  tl_currentTicket : Z;
  tl_nextFreeTicket : Z;
  tl_threads : gmap nat position;
}.

Definition new_TicketSpinLock : ticket_lock := mkTicketLock 0 0 ∅.

Definition set_position (t : nat) (p : position) (s : ticket_lock) : ticket_lock :=
  mkTicketLock (tl_currentTicket s) (tl_nextFreeTicket s) (<[t := p]> (tl_threads s)).
Definition leave (t : nat) (s : ticket_lock) : ticket_lock :=
  mkTicketLock (tl_currentTicket s) (tl_nextFreeTicket s) (delete t (tl_threads s)).

(** The next ticket is given out to a thread. *)
Definition take_ticket (t : nat) (p : position) (s : ticket_lock) : ticket_lock :=
  mkTicketLock (tl_currentTicket s) (tl_nextFreeTicket s + 1) (<[t := p]> (tl_threads s)).

(** [lock], up to its loop *)
Definition lock (t : nat) (s : ticket_lock) : ticket_lock := take_ticket t (Spinning (tl_nextFreeTicket s)) s.

(** [tryLock], up to its first load *)
Definition tryLock (t : nat) (s : ticket_lock) : ticket_lock := set_position t (TryLoaded (tl_nextFreeTicket s)) s.

(** [unlock] *)
Definition unlock (t : nat) (s : ticket_lock) : ticket_lock :=
  mkTicketLock (tl_currentTicket s + 1) (tl_nextFreeTicket s) (delete t (tl_threads s)).

(** The next atomic operation of a thread in [lock] or [tryLock]. *)
Definition advance (t : nat) (s : ticket_lock) : option ticket_lock :=
  p ← tl_threads s !! t;
  match p with
  | Spinning ticket => Some (if same_ticket (tl_currentTicket s) ticket then set_position t Owner s else s)
  | TryLoaded ticket =>
      Some (if same_ticket (tl_currentTicket s) ticket then set_position t (TryMatched ticket) s else leave t s)
  | TryMatched ticket =>
      Some (if same_ticket (tl_nextFreeTicket s) ticket then take_ticket t Owner s else leave t s)
  | Owner => None
  end.

(** The threads of a run are numbered from zero. *)
Inductive step (threads : nat) : ticket_lock → ticket_lock → Prop :=
  | step_lock s t : (t < threads)%nat → tl_threads s !! t = None → step threads s (lock t s)
  | step_tryLock s t : (t < threads)%nat → tl_threads s !! t = None → step threads s (tryLock t s)
  | step_advance s t s' : advance t s = Some s' → step threads s s'
  | step_unlock s t : tl_threads s !! t = Some Owner → step threads s (unlock t s).

(** A thread in [tryLock] that all the tickets there are have overtaken since it loaded one. *)
Definition overtaken (t : nat) (s : ticket_lock) : Prop :=
  ∃ ticket, tl_threads s !! t = Some (TryMatched ticket) ∧ values ≤ tl_nextFreeTicket s - ticket.

(** Runs in which that does not happen. *)
Inductive timely_step (threads : nat) : ticket_lock → ticket_lock → Prop :=
  | timely s s' : step threads s s' → (∀ t, ¬ overtaken t s) → timely_step threads s s'.

(** *** The queue of the threads that have a ticket *)

Record inv (threads : nat) (q : list nat) (s : ticket_lock) : Prop := {
  ti_nodup : NoDup q;
  ti_threads : ∀ t p, tl_threads s !! t = Some p → (t < threads)%nat;
  ti_next : tl_nextFreeTicket s = tl_currentTicket s + Z.of_nat (length q);
  ti_queue : ∀ i t, q !! i = Some t →
    tl_threads s !! t = Some (Spinning (tl_currentTicket s + Z.of_nat i)) ∨
    i = 0%nat ∧ tl_threads s !! t = Some Owner;
  ti_spinning : ∀ t ticket, tl_threads s !! t = Some (Spinning ticket) → t ∈ q;
  ti_owner : ∀ t, tl_threads s !! t = Some Owner → t ∈ q;
  ti_loaded : ∀ t ticket, tl_threads s !! t = Some (TryLoaded ticket) → ticket - tl_currentTicket s < values;
  ti_matched : ∀ t ticket, tl_threads s !! t = Some (TryMatched ticket) → ticket ≤ tl_currentTicket s;
}.

Lemma same_ticket_close a b : - values < a - b < values → same_ticket a b = true → a = b.
Proof.
  unfold same_ticket. rewrite Z.eqb_eq. intros Hab He.
  pose proof (Z.div_mod a values ltac:(lia)). pose proof (Z.div_mod b values ltac:(lia)).
  assert (a / values = b / values); nia.
Qed.

Lemma same_ticket_refl a : same_ticket a a = true.
Proof. apply Z.eqb_refl. Qed.

Section threads.
Context (threads : nat) (Hthreads : Z.of_nat threads ≤ values).
Implicit Types (s : ticket_lock) (q : list nat).

Lemma below_length q : NoDup q → (∀ t, t ∈ q → (t < threads)%nat) → (length q ≤ threads)%nat.
Proof.
  intros Hd Hlt. rewrite <- (length_seq threads 0). apply submseteq_length, NoDup_submseteq; [done|].
  intros t Ht. apply elem_of_seq. specialize (Hlt t Ht). lia.
Qed.

Lemma queue_member q s t : inv threads q s → t ∈ q →
  ∃ i, q !! i = Some t ∧ (tl_threads s !! t = Some (Spinning (tl_currentTicket s + Z.of_nat i)) ∨
    i = 0%nat ∧ tl_threads s !! t = Some Owner).
Proof. intros Hi [i Ht]%list_elem_of_lookup. exists i. split; [done|]. by apply Hi. Qed.

Lemma queue_below q s t : inv threads q s → t ∈ q → (t < threads)%nat.
Proof. intros Hi (i & _ & [Ht|[_ Ht]])%(queue_member q s); [..|done]; by eapply ti_threads. Qed.

Lemma queue_length q s : inv threads q s → Z.of_nat (length q) ≤ values.
Proof.
  intros Hi. pose proof (below_length q (ti_nodup _ _ _ Hi) (λ t, queue_below q s t Hi)). lia.
Qed.

(** A thread outside of the queue leaves a ticket free. *)
Lemma queue_room q s t : inv threads q s → (t < threads)%nat → t ∉ q → Z.of_nat (length q) < values.
Proof.
  intros Hi Ht Hq. assert (length (t :: q) ≤ threads)%nat as Hl; [|simpl in Hl; lia].
  apply below_length; [constructor; [done|apply Hi]|]. intros u [->|Hu]%elem_of_cons; [done|by eapply queue_below].
Qed.

Lemma not_in_queue q s t :
  inv threads q s →
  (∀ ticket, tl_threads s !! t ≠ Some (Spinning ticket)) → tl_threads s !! t ≠ Some Owner → t ∉ q.
Proof. intros Hi H1 H2 (i & _ & [Ht|[_ Ht]])%(queue_member q s); [by eapply H1|done..]. Qed.

(** A thread that is not in the queue moves without a ticket. *)
Lemma inv_move q s t m :
  inv threads q s → t ∉ q → (∀ u, u ≠ t → m !! u = tl_threads s !! u) →
  (∀ p, m !! t = Some p → (t < threads)%nat ∧
     match p with
     | TryLoaded ticket => ticket - tl_currentTicket s < values
     | TryMatched ticket => ticket ≤ tl_currentTicket s
     | _ => False
     end) →
  inv threads q (mkTicketLock (tl_currentTicket s) (tl_nextFreeTicket s) m).
Proof.
  intros Hi Hq Hm Hp. assert (∀ u p, m !! u = Some p → u = t ∨ tl_threads s !! u = Some p) as Hc.
  { intros u p Hu. destruct (decide (u = t)) as [->|Hne]; [by left|]. right. by rewrite <- Hm. }
  assert (∀ u, u ∈ q → m !! u = tl_threads s !! u) as Hin by (intros u Hu; apply Hm; by intros ->).
  destruct Hi as [H1 H2 H3 H4 H5 H6 H7 H8]. split; simpl; try done.
  - intros u p Hu. destruct (Hc u p Hu) as [->|Hu']; [by apply Hp in Hu as []|by eapply H2].
  - intros i u Hu. rewrite Hin by (by eapply list_elem_of_lookup_2). by apply H4.
  - intros u ticket Hu. destruct (Hc _ _ Hu) as [->|Hu']; [by apply Hp in Hu as []|by eapply H5].
  - intros u Hu. destruct (Hc _ _ Hu) as [->|Hu']; [by apply Hp in Hu as []|by apply H6].
  - intros u ticket Hu. destruct (Hc _ _ Hu) as [->|Hu']; [by apply Hp in Hu as []|by eapply H7].
  - intros u ticket Hu. destruct (Hc _ _ Hu) as [->|Hu']; [by apply Hp in Hu as []|by eapply H8].
Qed.

(** A thread takes the next ticket. *)
Lemma ticket_inv_take q s t p :
  inv threads q s → (t < threads)%nat → t ∉ q →
  p = Spinning (tl_nextFreeTicket s) ∨ p = Owner ∧ q = [] →
  inv threads (q ++ [t]) (take_ticket t p s).
Proof.
  intros Hi Ht Hq Hp. assert (∀ u, u ∈ q → u ≠ t) as Hne by (by intros u Hu ->).
  assert (∀ u p', <[t := p]> (tl_threads s) !! u = Some p' → u = t ∧ p' = p ∨ tl_threads s !! u = Some p') as Hc.
  { intros u p' [[-> ->]|[_ Hu]]%lookup_insert_Some; auto. }
  destruct Hi as [H1 H2 H3 H4 H5 H6 H7 H8]. split; simpl.
  - apply NoDup_app. split_and!; [done|set_solver|apply NoDup_singleton].
  - intros u p' [[-> _]|Hu]%Hc; [done|by eapply H2].
  - rewrite length_app. simpl. lia.
  - intros i u [Hu|[Hi Hu]]%lookup_app_Some.
    + rewrite lookup_insert_ne; [by apply H4|]. intros <-. apply Hq. by eapply list_elem_of_lookup_2.
    + apply list_lookup_singleton_Some in Hu as [Hi0 <-]. rewrite lookup_insert_eq.
      assert (i = length q) as -> by lia. destruct Hp as [->|[-> ->]]; [left; do 2 f_equal; lia|by right].
  - intros u ticket [[-> _]|Hu]%Hc; [set_solver|]. apply elem_of_app. left. by eapply H5.
  - intros u [[-> _]|Hu]%Hc; [set_solver|]. apply elem_of_app. left. by apply H6.
  - intros u ticket [[-> Heq]|Hu]%Hc; [by destruct Hp as [->|[-> _]]|by eapply H7].
  - intros u ticket [[-> Heq]|Hu]%Hc; [by destruct Hp as [->|[-> _]]|by eapply H8].
Qed.

(** The thread whose ticket is served enters. *)
Lemma ticket_inv_enter q s t ticket :
  inv threads q s → tl_threads s !! t = Some (Spinning ticket) → same_ticket (tl_currentTicket s) ticket = true →
  ticket = tl_currentTicket s ∧ q !! 0%nat = Some t ∧ inv threads q (set_position t Owner s).
Proof.
  intros Hi Ht Hsame. destruct (queue_member q s t Hi (ti_spinning _ _ _ Hi _ _ Ht)) as (i & Hit & Hp).
  rewrite Ht in Hp. destruct Hp as [[= Hticket]|[_ ?]]; [|done].
  pose proof (queue_length q s Hi) as Hlen. pose proof (lookup_lt_Some _ _ _ Hit) as Hilt.
  assert (tl_currentTicket s = ticket) as He by (apply same_ticket_close; [lia|done]).
  assert (i = 0%nat) as -> by lia. split_and!; [done|done|].
  assert (∀ u p', <[t := Owner]> (tl_threads s) !! u = Some p' → u = t ∧ p' = Owner ∨ u ≠ t ∧ tl_threads s !! u = Some p') as Hc.
  { intros u p' [[-> ->]|[? Hu]]%lookup_insert_Some; auto. }
  destruct Hi as [H1 H2 H3 H4 H5 H6 H7 H8]. split; simpl; try done.
  - intros u p' [[-> _]|[_ Hu]]%Hc; [by eapply H2|by eapply H2].
  - intros j u Hj. destruct (decide (u = t)) as [->|Hne].
    + right. rewrite lookup_insert_eq. split; [|done]. by eapply NoDup_lookup.
    + rewrite lookup_insert_ne by done. by apply H4.
  - intros u k [[_ ?]|[_ Hu]]%Hc; [done|by eapply H5].
  - intros u [[-> _]|[_ Hu]]%Hc; [by eapply list_elem_of_lookup_2|by apply H6].
  - intros u k [[_ ?]|[_ Hu]]%Hc; [done|by eapply H7].
  - intros u k [[_ ?]|[_ Hu]]%Hc; [done|by eapply H8].
Qed.

(** The owner is at the head of the queue, and leaves it. *)
Lemma ticket_inv_unlock q s t :
  inv threads q s → tl_threads s !! t = Some Owner → ∃ q', q = t :: q' ∧ inv threads q' (unlock t s).
Proof.
  intros Hi Ht. destruct (queue_member q s t Hi (ti_owner _ _ _ Hi _ Ht)) as (i & Hit & Hp).
  rewrite Ht in Hp. destruct Hp as [?|[-> _]]; [done|]. destruct q as [|t' q]; [done|]. injection Hit as ->.
  exists q. split; [done|]. pose proof (ti_nodup _ _ _ Hi) as [Hq _]%NoDup_cons.
  assert (∀ u p', delete t (tl_threads s) !! u = Some p' → u ≠ t ∧ tl_threads s !! u = Some p') as Hc.
  { intros u p' [? Hu]%lookup_delete_Some; auto. }
  destruct Hi as [H1 H2 H3 H4 H5 H6 H7 H8]. split; simpl.
  - by apply NoDup_cons in H1 as [_ ?].
  - intros u p' [_ Hu]%Hc. by eapply H2.
  - rewrite H3. simpl. lia.
  - intros j u Hj. rewrite lookup_delete_ne by (intros <-; apply Hq; by eapply list_elem_of_lookup_2).
    destruct (H4 (S j) u Hj) as [Hu|[? _]]; [|done]. left. rewrite Hu. do 2 f_equal. lia.
  - intros u k [Hne Hu]%Hc. apply H5 in Hu. set_solver.
  - intros u [Hne Hu]%Hc. apply H6 in Hu. set_solver.
  - intros u k [_ Hu]%Hc. specialize (H7 _ _ Hu). lia.
  - intros u k [_ Hu]%Hc. specialize (H8 _ _ Hu). lia.
Qed.

(** When the compare-and-exchange of [tryLock] succeeds in time, nobody has a ticket. *)
Lemma matched_free q s t ticket :
  inv threads q s → ¬ overtaken t s → tl_threads s !! t = Some (TryMatched ticket) →
  same_ticket (tl_nextFreeTicket s) ticket = true → q = [].
Proof.
  intros Hi Hlate Ht He. pose proof (ti_matched _ _ _ Hi _ _ Ht) as Hk. pose proof (ti_next _ _ _ Hi) as Hn.
  assert (tl_nextFreeTicket s - ticket < values) as Hin.
  { apply Z.lt_nge. intros Hge. apply Hlate. by exists ticket. }
  assert (tl_nextFreeTicket s = ticket) as Hnk by (apply same_ticket_close; [lia|done]).
  apply nil_length_inv. lia.
Qed.

Lemma ticket_inv_step q s s' : inv threads q s → timely_step threads s s' → ∃ q', inv threads q' s'.
Proof.
  intros Hi Ht. destruct Ht as [s s' Hs Hlate]. destruct Hs as [s t Hlt Ht|s t Hlt Ht|s t s' Ha|s t Ht].
  - exists (q ++ [t]). apply ticket_inv_take; [done|done| |by left]. eapply not_in_queue; [done|by rewrite Ht..].
  - assert (t ∉ q) as Hq by (eapply not_in_queue; [done|by rewrite Ht..]). exists q.
    apply inv_move with (t := t); [done|done|intros u Hu; by rewrite lookup_insert_ne|].
    intros p [[_ <-]|[? _]]%lookup_insert_Some; [|done]. split; [done|].
    pose proof (queue_room q s t Hi Hlt Hq). rewrite (ti_next _ _ _ Hi). lia.
  - unfold advance in Ha. destruct (tl_threads s !! t) as [p|] eqn:Ht; [|done]. simpl in Ha.
    destruct p as [k| |k|k]; [|done|..]; injection Ha as <-.
    + exists q. destruct (same_ticket _ _) eqn:He; [|done]. by eapply ticket_inv_enter.
    + exists q. assert (t ∉ q) as Hq by (eapply not_in_queue; [done|by rewrite Ht..]).
      destruct (same_ticket _ _) eqn:He; (apply inv_move with (t := t); [done|done| |]).
      * intros u Hu. by rewrite lookup_insert_ne.
      * intros p. rewrite lookup_insert_eq. intros [= <-]. split; [by eapply ti_threads|].
        destruct (decide (k ≤ tl_currentTicket s)) as [|Hgt]; [done|].
        assert (tl_currentTicket s = k); [|lia]. apply same_ticket_close; [|done].
        pose proof (ti_loaded _ _ _ Hi _ _ Ht). lia.
      * intros u Hu. by rewrite lookup_delete_ne.
      * intros p. by rewrite lookup_delete_eq.
    + assert (t ∉ q) as Hq by (eapply not_in_queue; [done|by rewrite Ht..]).
      destruct (same_ticket _ _) eqn:He.
      * exists (q ++ [t]). apply ticket_inv_take; [done|by eapply ti_threads|done|]. right. split; [done|].
        by eapply matched_free.
      * exists q. apply inv_move with (t := t); [done|done|intros u Hu; by rewrite lookup_delete_ne|].
        intros p. by rewrite lookup_delete_eq.
  - destruct (ticket_inv_unlock q s t Hi Ht) as (q' & _ & Hi'). by exists q'.
Qed.

Lemma ticket_inv_reachable s : rtc (timely_step threads) new_TicketSpinLock s → ∃ q, inv threads q s.
Proof.
  intros Hs. assert (∃ q, inv threads q new_TicketSpinLock) as Hi.
  { exists []. split; simpl; try done; [constructor|..]; intros ? **; by rewrite lookup_empty in *. }
  induction Hs as [|s0 s1 s2 Hs _ IH]; [done|]. destruct Hi as [q Hi]. apply IH. by eapply ticket_inv_step.
Qed.

(** *** The mutex it implements *)

Definition owns (s : ticket_lock) (t : nat) : Prop := tl_threads s !! t = Some Owner.

#[export] Instance ticket_Lock : Lock ticket_lock := Mutex.Build_Lock _ new_TicketSpinLock (timely_step threads) owns.

Lemma owner_head q s t : inv threads q s → owns s t → q !! 0%nat = Some t.
Proof.
  intros Hi Ht. destruct (ticket_inv_unlock q s t Hi Ht) as (q' & -> & _). done.
Qed.

Lemma head_free q s t ticket :
  inv threads q s → q !! 0%nat = Some t → tl_threads s !! t = Some (Spinning ticket) → held_by None s.
Proof.
  intros Hi Hq Ht u. split; [|done]. intros Hu. pose proof (owner_head q s u Hi Hu) as Hq'.
  rewrite Hq in Hq'. injection Hq' as ->. cbn in Hu. unfold owns in Hu. congruence.
Qed.

Lemma held_fun m m' s : held_by m s → held_by m' s → m = m'.
Proof.
  intros H1 H2. destruct m as [t|], m' as [t'|]; [..|done].
  - symmetry. apply H2, H1. done.
  - symmetry. apply H2, H1. done.
  - apply H1, H2. done.
Qed.

Lemma held_move m s t p c n :
  held_by m s → ¬ owns s t → p ≠ Owner → held_by m (mkTicketLock c n (<[t := p]> (tl_threads s))).
Proof.
  intros Hm Ht Hp u. rewrite <- (Hm u). cbn. unfold owns in *. cbn. rewrite lookup_insert_Some. naive_solver.
Qed.

Lemma held_leave m s t : held_by m s → ¬ owns s t → held_by m (leave t s).
Proof.
  intros Hm Ht u. rewrite <- (Hm u). cbn. unfold owns in *. cbn. rewrite lookup_delete_Some. naive_solver.
Qed.

Lemma held_enter s t c n : held_by None s → held_by (Some t) (mkTicketLock c n (<[t := Owner]> (tl_threads s))).
Proof.
  intros Hm u. specialize (Hm u). cbn in *. unfold owns in *. cbn. rewrite lookup_insert_Some. naive_solver.
Qed.

Lemma held_advance m q s t s' :
  inv threads q s → (∀ t, ¬ overtaken t s) → held_by m s → advance t s = Some s' → ∃ m', held_by m' s' ∧ Mutex.step m m'.
Proof.
  intros Hi Hlate Hm Ha. unfold advance in Ha. destruct (tl_threads s !! t) as [p|] eqn:Ht; [|done]. simpl in Ha.
  assert (p ≠ Owner → ¬ owns s t) as Hown by (unfold owns; congruence).
  destruct p as [k| |k|k]; [|done|..]; injection Ha as <-; specialize (Hown ltac:(done)).
  - destruct (same_ticket _ _) eqn:He; [|exists m; split; [done|constructor]].
    destruct (ticket_inv_enter q s t k Hi Ht He) as (_ & Hq & _). pose proof (head_free q s t k Hi Hq Ht) as Hf.
    rewrite (held_fun _ _ _ Hm Hf). exists (Some t). split; [by apply held_enter|constructor].
  - exists m. split; [|constructor]. destruct (same_ticket _ _); [by apply held_move|by apply held_leave].
  - destruct (same_ticket _ _) eqn:He; [|exists m; split; [by apply held_leave|constructor]].
    assert (q = []) as -> by (by eapply matched_free).
    assert (held_by None s) as Hf by (intros u; split; [intros Hu%(owner_head _ _ _ Hi)|]; done).
    rewrite (held_fun _ _ _ Hm Hf). exists (Some t). split; [by apply held_enter|constructor].
Qed.

#[export] Instance ticket_LockLaws : LockLaws ticket_lock.
Proof.
  split; [intros t; cbn; unfold owns; cbn; by rewrite lookup_empty|].
  intros m s s' Hs Hm Hstep. destruct (ticket_inv_reachable s Hs) as [q Hi].
  destruct Hstep as [s s' Hstep Hlate]. destruct Hstep as [s t Hlt Ht|s t Hlt Ht|s t s' Ha|s t Ht].
  - exists m. split; [|constructor]. apply held_move; [done|unfold owns; congruence|done].
  - exists m. split; [|constructor]. apply held_move; [done|unfold owns; congruence|done].
  - by eapply held_advance.
  - pose proof (proj1 (Hm t) Ht) as ->. exists None. split; [|constructor]. intros u. cbn. unfold owns. cbn.
    rewrite lookup_delete_Some. split; [|done]. intros [Hne Hu]. apply Hm in Hu. by injection Hu as ->.
Qed.
End threads.
End ticket.


(** *** What the lock guarantees *)

Section guarantees.
Context (values : Z) (threads : nat).

Definition can_enter (t : nat) (s : ticket_lock) : Prop := ∃ s', advance values t s = Some s' ∧ owns s' t.

(** C33: At most one thread owns the lock, threads enter in the order of their tickets and only when nobody
    owns it, and while a thread waits either another one owns the lock or one can enter. *)
Lemma lock_guarantees s :
  1 < values → Z.of_nat threads ≤ values → rtc (timely_step values threads) new_TicketSpinLock s →
  (∀ t t', owns s t → owns s t' → t = t') ∧
  (∀ t k s', tl_threads s !! t = Some (Spinning k) → advance values t s = Some s' → owns s' t →
     (∀ u, ¬ owns s u) ∧ ∀ u k', tl_threads s !! u = Some (Spinning k') → k ≤ k') ∧
  (∀ t k, tl_threads s !! t = Some (Spinning k) → (∃ u, owns s u) ∨ ∃ u, can_enter u s).
Proof.
  intros Hv Ht Hs. destruct (ticket_inv_reachable values Hv threads Ht s Hs) as [q Hi]. split_and!.
  - intros t t' H1%(owner_head _ Hv _ Ht q s) H2%(owner_head _ Hv _ Ht q s); [congruence|done..].
  - intros t k s' Hk Ha Ho. unfold advance in Ha. rewrite Hk in Ha. injection Ha as <-.
    destruct (same_ticket _ _ _) eqn:He; [|unfold owns in Ho; congruence].
    destruct (ticket_inv_enter values Hv threads Ht q s t k Hi Hk He) as (-> & Hq & _). split.
    + intros u Hu. eapply (head_free _ Hv _ Ht q s t _ Hi Hq Hk u) in Hu. done.
    + intros u k' Hu. destruct (queue_member values threads q s u Hi) as (i & _ & [Hp|[_ Hp]]);
        [by eapply ti_spinning|..]; rewrite Hu in Hp; [injection Hp as ->; lia|done].
  - intros t k Hk. destruct (queue_member values threads q s t Hi) as (i & Hq & _); [by eapply ti_spinning|].
    destruct q as [|u q]; [done|]. destruct (ti_queue _ _ _ _ Hi 0%nat u eq_refl) as [Hu|[_ Hu]]; [|by left; exists u].
    right. exists u. unfold can_enter, advance. rewrite Hu. rewrite Z.add_0_r. cbn [mbind option_bind].
    rewrite same_ticket_refl. eexists. split; [done|]. unfold owns. cbn. by rewrite lookup_insert_eq.
Qed.
End guarantees.

(** *** A thread that is overtaken *)

Section overtaken.
Context (values : Z) (Hvalues : 1 < values).

(** Thread 0 waits before its compare-and-exchange while thread 1 locks and unlocks [n] times. *)
Definition waiting (n : Z) : ticket_lock := mkTicketLock n n {[0%nat := TryMatched 0]}.

Lemma waiting_start : rtc (step values 2) new_TicketSpinLock (waiting 0).
Proof.
  eapply rtc_l; [apply (step_tryLock _ _ _ 0%nat); [lia|done]|].
  eapply rtc_once, (step_advance _ _ _ 0%nat). unfold advance. unfold tryLock, lock, set_position, take_ticket. cbn [tl_threads]. rewrite lookup_insert_eq. cbn [mbind option_bind].
  rewrite same_ticket_refl. unfold set_position. cbn. by rewrite insert_insert_eq.
Qed.

Lemma waiting_locks n :
  rtc (step values 2) (waiting n) (mkTicketLock n (n + 1) (<[1%nat := Owner]> {[0%nat := TryMatched 0]})).
Proof.
  eapply rtc_l; [apply (step_lock _ _ _ 1%nat); [lia|done]|].
  eapply rtc_once, (step_advance _ _ _ 1%nat). unfold advance. unfold tryLock, lock, set_position, take_ticket. cbn [tl_threads]. rewrite lookup_insert_eq. cbn [mbind option_bind].
  rewrite same_ticket_refl. unfold set_position. cbn. by rewrite insert_insert_eq.
Qed.

Lemma waiting_round n : rtc (step values 2) (waiting n) (waiting (n + 1)).
Proof.
  etrans; [apply waiting_locks|]. eapply rtc_once.
  replace (waiting (n + 1)) with (unlock 1 (mkTicketLock n (n + 1) (<[1%nat := Owner]> {[0%nat := TryMatched 0]}))).
  - apply step_unlock. cbn. by rewrite lookup_insert_eq.
  - unfold unlock, waiting. cbn. f_equal.
Qed.

Lemma waiting_rounds n : 0 ≤ n → rtc (step values 2) (waiting 0) (waiting n).
Proof.
  revert n. apply natlike_ind; [constructor|]. intros n _ IH. etrans; [exact IH|]. apply waiting_round.
Qed.

(** Two threads can own a lock after [tryLock] has been overtaken by all the tickets. *)
Lemma tryLock_overtaken :
  ∃ s, rtc (step values 2) new_TicketSpinLock s ∧ owns s 0 ∧ owns s 1.
Proof.
  set (s := mkTicketLock (values - 1) (values - 1 + 1) (<[1%nat := Owner]> {[0%nat := TryMatched 0]})).
  exists (take_ticket 0 Owner s). split_and!.
  - etrans; [apply waiting_start|]. etrans; [apply (waiting_rounds (values - 1)); lia|].
    etrans; [apply waiting_locks|]. eapply rtc_once, (step_advance _ _ _ 0%nat). unfold advance. cbn [tl_threads].
    rewrite lookup_insert_ne, lookup_singleton_eq by done. cbn [mbind option_bind tl_nextFreeTicket].
    assert (same_ticket values (values - 1 + 1) 0 = true) as ->; [|done].
    unfold same_ticket. rewrite Z.sub_add, Z_mod_same_full, Zmod_0_l. done.
  - unfold owns. cbn. by rewrite lookup_insert_eq.
  - unfold owns. cbn. rewrite lookup_insert_ne by done. by rewrite lookup_insert_eq.
Qed.
End overtaken.


(** ** Witnesses *)

(** With tickets of 16 bits, thread 0 has locked and entered and thread 1 waits. *)
Definition sample : ticket_lock := mkTicketLock 0 2 (<[1%nat := Spinning 1]> {[0%nat := Owner]}).

Lemma no_try (s : ticket_lock) values :
  map_Forall (λ _ p, match p with TryMatched _ => False | _ => True end) (tl_threads s) → ∀ t, ¬ overtaken values t s.
Proof. intros Hs t (k & Hk & _). by apply Hs in Hk. Qed.

Lemma ticket_sample_reachable : rtc (timely_step 65536 2) new_TicketSpinLock sample.
Proof.
  eapply rtc_l; [constructor; [apply (step_lock _ _ _ 0%nat); [lia|done]|apply no_try; cbn; apply map_Forall_empty]|].
  eapply rtc_l; [constructor; [apply (step_advance _ _ _ 0%nat); reflexivity|]|].
  { apply no_try. cbn. by apply map_Forall_insert_2; [|apply map_Forall_empty]. }
  eapply rtc_l; [constructor; [apply (step_lock _ _ _ 1%nat); [lia|done]|]|].
  { apply no_try. cbn. repeat (apply map_Forall_insert_2; [done|]). apply map_Forall_empty. }
  replace (lock _ _) with sample by reflexivity. constructor.
Qed.

Lemma lock_guarantees_witness :
  owns sample 0 ∧ (∀ t, owns sample t → t = 0%nat) ∧ ((∃ u, owns sample u) ∨ ∃ u, can_enter 65536 u sample).
Proof.
  destruct (lock_guarantees 65536 2 sample) as (H1 & _ & H3); [lia|lia|apply ticket_sample_reachable|].
  split_and!; [done| |by apply (H3 1%nat 1)]. intros t Ht. by apply H1.
Defined.

Lemma tryLock_overtaken_witness : ∃ s, rtc (step 65536 2) new_TicketSpinLock s ∧ owns s 0 ∧ owns s 1.
Proof. apply tryLock_overtaken. lia. Defined.
End Ticket.
