(* ===== verification/RWLocks.v ===== *)
(** * Locks for readers and writers

    [RWSpinLock.hpp] and [RWTicketSpinLock.hpp] of [src/lowlevel], which have the same code over two
    kinds of lock.  The two locks inside appear as the mutexes of [Locks.Mutex], which both kinds
    implement; the lock of the writers is taken by the first reader and released by the last one. *)

From S2P Require Import Prelude.
From S2P Require Import Locks.
Local Open Scope Z_scope.

Module RW.
(** The next operation of a thread in [readLock], [readUnlock] or [writeLock]; [Reading] and [Writing]
    are the threads between two calls. *)
Inductive position :=
  | ReadLocking | ReadCounting | ReadFirst | ReadLocked
  | Reading
  | ReadUnlocking | ReadDiscounting | ReadUnlocked
  | WriteLocking
  | Writing.

Record rw_lock := mkRWLock {
  rw_readersSpinLock : mutex;
  rw_readers : Z;
  rw_writerSpinLock : mutex;
  rw_threads : gmap nat position;
}.

Definition new_RWSpinLock : rw_lock := mkRWLock None 0 None ∅.

Definition call (t : nat) (p : position) (s : rw_lock) : rw_lock :=
  mkRWLock (rw_readersSpinLock s) (rw_readers s) (rw_writerSpinLock s) (<[t := p]> (rw_threads s)).

(** The operations of [readLock], in its order. *)
Definition readLock (t : nat) (p : position) (s : rw_lock) : option rw_lock :=
  match p with
  | ReadLocking =>
      match rw_readersSpinLock s with
      | None => Some (mkRWLock (Some t) (rw_readers s) (rw_writerSpinLock s) (<[t := ReadCounting]> (rw_threads s)))
      | Some _ => None
      end
  | ReadCounting =>
      let readers := rw_readers s + 1 in
      let next := if readers =? 1 then ReadFirst else ReadLocked in
      Some (mkRWLock (rw_readersSpinLock s) readers (rw_writerSpinLock s) (<[t := next]> (rw_threads s)))
  | ReadFirst =>
      match rw_writerSpinLock s with
      | None => Some (mkRWLock (rw_readersSpinLock s) (rw_readers s) (Some t) (<[t := ReadLocked]> (rw_threads s)))
      | Some _ => None
      end
  | ReadLocked => Some (mkRWLock None (rw_readers s) (rw_writerSpinLock s) (<[t := Reading]> (rw_threads s)))
  | _ => None
  end.

(** The operations of [readUnlock]; the lock of the writers is released whoever took it. *)
Definition readUnlock (t : nat) (p : position) (s : rw_lock) : option rw_lock :=
  match p with
  | ReadUnlocking =>
      match rw_readersSpinLock s with
      | None => Some (mkRWLock (Some t) (rw_readers s) (rw_writerSpinLock s) (<[t := ReadDiscounting]> (rw_threads s)))
      | Some _ => None
      end
  | ReadDiscounting =>
      let readers := rw_readers s - 1 in
      let writer := if readers =? 0 then None else rw_writerSpinLock s in
      Some (mkRWLock (rw_readersSpinLock s) readers writer (<[t := ReadUnlocked]> (rw_threads s)))
  | ReadUnlocked => Some (mkRWLock None (rw_readers s) (rw_writerSpinLock s) (delete t (rw_threads s)))
  | _ => None
  end.

(** [writeLock] *)
Definition writeLock (t : nat) (s : rw_lock) : option rw_lock :=
  match rw_writerSpinLock s with
  | None => Some (mkRWLock (rw_readersSpinLock s) (rw_readers s) (Some t) (<[t := Writing]> (rw_threads s)))
  | Some _ => None
  end.

(** [writeUnlock] *)
Definition writeUnlock (t : nat) (s : rw_lock) : rw_lock :=
  mkRWLock (rw_readersSpinLock s) (rw_readers s) None (delete t (rw_threads s)).

(** The next operation of a thread inside a call, when it does not have to wait. *)
Definition advance (t : nat) (s : rw_lock) : option rw_lock :=
  p ← rw_threads s !! t;
  match p with
  | ReadLocking | ReadCounting | ReadFirst | ReadLocked => readLock t p s
  | ReadUnlocking | ReadDiscounting | ReadUnlocked => readUnlock t p s
  | WriteLocking => writeLock t s
  | Reading | Writing => None
  end.

Inductive step : rw_lock → rw_lock → Prop :=
  | step_readLock s t : rw_threads s !! t = None → step s (call t ReadLocking s)
  | step_writeLock s t : rw_threads s !! t = None → step s (call t WriteLocking s)
  | step_readUnlock s t : rw_threads s !! t = Some Reading → step s (call t ReadUnlocking s)
  | step_writeUnlock s t : rw_threads s !! t = Some Writing → step s (writeUnlock t s)
  | step_advance s t s' : advance t s = Some s' → step s s'.

(** ** The invariant *)

(** The positions in which a thread holds the lock of the readers, and those in which it is counted. *)
Definition holds_readers (p : position) : bool :=
  match p with ReadCounting | ReadFirst | ReadLocked | ReadDiscounting | ReadUnlocked => true | _ => false end.
Definition counted (p : position) : bool :=
  match p with ReadFirst | ReadLocked | Reading | ReadUnlocking | ReadDiscounting => true | _ => false end.

(** Who has the lock of the writers: nobody, a writer, or the readers together. *)
Inductive side := Free | Writer (t : nat) | Readers.

Definition side_ok (g : side) (s : rw_lock) : Prop :=
  match g with
  | Free => rw_writerSpinLock s = None
  | Writer t => rw_writerSpinLock s = Some t ∧ rw_threads s !! t = Some Writing
  | Readers => rw_writerSpinLock s ≠ None ∧ 0 < rw_readers s
  end.

(** What a position says of the state, given who has the lock of the writers. *)
Definition position_ok (g : side) (s : rw_lock) (t : nat) (p : position) : Prop :=
  (holds_readers p = true → rw_readersSpinLock s = Some t) ∧
  match p with
  | ReadFirst => rw_readers s = 1 ∧ g ≠ Readers
  | ReadLocked | Reading | ReadUnlocking | ReadDiscounting => g = Readers
  | Writing => g = Writer t
  | _ => True
  end.

Record inv (X : gset nat) (g : side) (s : rw_lock) : Prop := {
  ri_counted : ∀ t, t ∈ X ↔ ∃ p, rw_threads s !! t = Some p ∧ counted p = true;
  ri_readers : rw_readers s = Z.of_nat (size X);
  ri_side : side_ok g s;
  ri_threads : ∀ t p, rw_threads s !! t = Some p → position_ok g s t p;
  ri_holder : ∀ t, rw_readersSpinLock s = Some t → ∃ p, rw_threads s !! t = Some p ∧ holds_readers p = true;
}.

Definition counts (o : option position) : bool := if o is Some p then counted p else false.

(** One thread moves: what the invariant asks of the new state. *)
Lemma inv_update X X' g g' s s' t :
  inv X g s →
  (∀ u, u ≠ t → rw_threads s' !! u = rw_threads s !! u) →
  (∀ u, u ∈ X' ↔ u ≠ t ∧ u ∈ X ∨ u = t ∧ counts (rw_threads s' !! t) = true) →
  rw_readers s' = Z.of_nat (size X') →
  side_ok g' s' →
  (∀ p, rw_threads s' !! t = Some p → position_ok g' s' t p) →
  (∀ u p, u ≠ t → rw_threads s !! u = Some p → position_ok g s u p → position_ok g' s' u p) →
  (rw_readersSpinLock s' = Some t → ∃ p, rw_threads s' !! t = Some p ∧ holds_readers p = true) →
  (∀ u, u ≠ t → rw_readersSpinLock s' = Some u → rw_readersSpinLock s = Some u) →
  inv X' g' s'.
Proof.
  intros Hi Hm HX Hr Hg Ht Hu Hh Ho. split; [|done|done|..].
  - intros u. rewrite HX. destruct (decide (u = t)) as [->|Hne].
    + destruct (rw_threads s' !! t) as [p|]; simpl; naive_solver.
    + rewrite (ri_counted _ _ _ Hi u), (Hm u) by done. naive_solver.
  - intros u p Hp. destruct (decide (u = t)) as [->|Hne]; [by apply Ht|].
    rewrite Hm in Hp by done. eapply Hu; [done..|]. by eapply ri_threads.
  - intros u Hp. destruct (decide (u = t)) as [->|Hne]; [by apply Hh|].
    rewrite Hm by done. eapply ri_holder; [done|]. by apply Ho.
Qed.

(** The new set of readers when the thread stays counted, or stays not counted. *)
Lemma counted_same X g s (m : gmap nat position) t :
  inv X g s → counts (rw_threads s !! t) = counts (m !! t) → ∀ u, u ∈ X ↔ u ≠ t ∧ u ∈ X ∨ u = t ∧ counts (m !! t) = true.
Proof.
  intros Hi Hc u. destruct (decide (u = t)) as [->|Hne]; [|naive_solver].
  rewrite (ri_counted _ _ _ Hi t), <- Hc. destruct (rw_threads s !! t); simpl; naive_solver.
Qed.

Lemma not_counted X g s t : inv X g s → counts (rw_threads s !! t) = false → t ∉ X.
Proof. intros Hi Hc (p & Hp & Hcp)%(ri_counted _ _ _ Hi). rewrite Hp in Hc. simpl in Hc. congruence. Qed.

Lemma one_holder X g s t u p :
  inv X g s → rw_readersSpinLock s = Some t → rw_threads s !! u = Some p → holds_readers p = true → u = t.
Proof. intros Hi Ht Hu Hp. destruct (ri_threads _ _ _ Hi u p Hu) as [H _]. specialize (H Hp). congruence. Qed.

(** A reader that is counted and is not the first one shares the lock of the writers. *)
Lemma counted_side X g s t u :
  inv X g s → rw_readersSpinLock s = Some t → u ≠ t → u ∈ X → g = Readers.
Proof.
  intros Hi Ht Hne (p & Hp & Hc)%(ri_counted _ _ _ Hi).
  destruct (ri_threads _ _ _ Hi u p Hp) as [_ Hok]. destruct p; try done; try (by destruct Hok).
  by destruct (one_holder X g s t u ReadFirst Hi Ht Hp eq_refl).
Qed.

Ltac rw_other := intros u Hother; rewrite ?lookup_insert_ne, ?lookup_delete_ne by done; done.
Ltac rw_self := rewrite ?lookup_insert_eq, ?lookup_delete_eq.

(** A call of a thread that is idle, or reads. *)
Lemma inv_call X g s t p :
  inv X g s → counts (rw_threads s !! t) = counted p → rw_threads s !! t ≠ Some Writing →
  match p with ReadLocking | WriteLocking => True | ReadUnlocking => rw_threads s !! t = Some Reading | _ => False end →
  (∀ q, rw_threads s !! t = Some q → holds_readers q = false) →
  inv X g (call t p s).
Proof.
  intros Hi Hc Hw Hp Hh. apply (inv_update X X g g s (call t p s) t); cbn; [done| | | | | | | |].
  - intros u Hu. by rewrite lookup_insert_ne.
  - eapply counted_same; [done|]. by rw_self.
  - apply Hi.
  - pose proof (ri_side _ _ _ Hi) as Hs. destruct g as [|v|]; [done| |done]. destruct Hs as [H1 H2].
    split; [done|]. cbn. rewrite lookup_insert_ne by congruence. done.
  - rw_self. intros q [= <-]. split; [by destruct p|]. destruct p; try done.
    pose proof (ri_threads _ _ _ Hi t Reading Hp) as [_ ?]. done.
  - intros u q _ _ Hq. exact Hq.
  - intros Ht. destruct (ri_holder _ _ _ Hi t Ht) as (q & Hq & Hh'). rewrite (Hh q Hq) in Hh'. done.
  - done.
Qed.


(** The lock of the readers is taken. *)
Lemma rw_inv_acquire X g s t p q :
  inv X g s → rw_threads s !! t = Some p → rw_readersSpinLock s = None →
  (p = ReadLocking ∧ q = ReadCounting ∨ p = ReadUnlocking ∧ q = ReadDiscounting) →
  inv X g (mkRWLock (Some t) (rw_readers s) (rw_writerSpinLock s) (<[t := q]> (rw_threads s))).
Proof.
  intros Hi Ht Hfree Hpq. pose proof (ri_threads _ _ _ Hi t p Ht) as [_ Hok].
  eapply inv_update with (t := t) (X := X) (g := g); [exact Hi|..]; cbn.
  - rw_other.
  - eapply counted_same; [done|]. rw_self. rewrite Ht. by destruct Hpq as [[-> ->]|[-> ->]].
  - apply Hi.
  - pose proof (ri_side _ _ _ Hi) as Hs. destruct g as [|v|]; [done| |done]. destruct Hs as [H1 H2].
    split; [done|]. cbn. rewrite lookup_insert_ne; [done|]. intros <-. by destruct Hpq as [[-> _]|[-> _]]; simplify_eq.
  - rw_self. intros r [= <-]. split; [done|]. by destruct Hpq as [[-> ->]|[-> ->]].
  - intros u r _ _ [H1 H2]. split; [|done]. intros Hr. specialize (H1 Hr). congruence.
  - intros _. exists q. rw_self. split; [done|]. by destruct Hpq as [[_ ->]|[_ ->]].
  - intros u Hne [= <-]. done.
Qed.

(** The lock of the readers is released. *)
Lemma inv_release X g s m t p :
  inv X g s → rw_threads s !! t = Some p →
  (p = ReadLocked ∧ m = <[t := Reading]> (rw_threads s) ∨ p = ReadUnlocked ∧ m = delete t (rw_threads s)) →
  inv X g (mkRWLock None (rw_readers s) (rw_writerSpinLock s) m).
Proof.
  intros Hi Ht Hpm. pose proof (ri_threads _ _ _ Hi t p Ht) as [Hh Hok].
  assert (rw_readersSpinLock s = Some t) as Hlock by (apply Hh; by destruct Hpm as [[-> _]|[-> _]]).
  eapply inv_update with (t := t) (X := X) (g := g); [exact Hi|..]; cbn.
  - destruct Hpm as [[_ ->]|[_ ->]]; rw_other.
  - eapply counted_same; [done|]. destruct Hpm as [[-> ->]|[-> ->]]; rw_self; by rewrite Ht.
  - apply Hi.
  - pose proof (ri_side _ _ _ Hi) as Hs. destruct g as [|v|]; [done| |done]. destruct Hs as [H1 H2].
    split; [done|]. cbn. assert (v ≠ t) by (intros ->; destruct Hpm as [[-> _]|[-> _]]; congruence).
    destruct Hpm as [[_ ->]|[_ ->]]; by rewrite ?lookup_insert_ne, ?lookup_delete_ne.
  - destruct Hpm as [[-> ->]|[-> ->]]; rw_self; intros r [= <-]. by split.
  - intros u r Hne Hu [H1 H2]. split; [|done]. intros Hr. specialize (H1 Hr). congruence.
  - done.
  - done.
Qed.

(** A reader is counted. *)
Lemma inv_count X g s t :
  inv X g s → rw_threads s !! t = Some ReadCounting →
  inv (X ∪ {[t]}) g (mkRWLock (rw_readersSpinLock s) (rw_readers s + 1) (rw_writerSpinLock s)
    (<[t := if rw_readers s + 1 =? 1 then ReadFirst else ReadLocked]> (rw_threads s))).
Proof.
  intros Hi Ht. pose proof (ri_threads _ _ _ Hi t _ Ht) as [Hlock _]. specialize (Hlock eq_refl).
  assert (t ∉ X) as HtX by (eapply not_counted; [done|by rewrite Ht]). pose proof (ri_readers _ _ _ Hi) as Hn.
  set (next := if _ =? _ then _ else _).
  assert (counted next = true ∧ holds_readers next = true) as [Hnext Hnext'] by (subst next; by case_match).
  eapply inv_update with (t := t) (X := X) (g := g); [exact Hi|..]; cbn.
  - rw_other.
  - intros u. rw_self. simpl. rewrite Hnext. set_solver.
  - rewrite size_union by set_solver. rewrite size_singleton. lia.
  - pose proof (ri_side _ _ _ Hi) as Hs. destruct g as [|v|]; [done| |].
    + destruct Hs as [H1 H2]. split; [done|]. cbn. rewrite lookup_insert_ne; [done|]. intros <-. congruence.
    + destruct Hs as [H1 H2]. split; [done|]. cbn. lia.
  - rw_self. intros r [= <-]. split; [done|]. subst next. destruct (Z.eqb_spec (rw_readers s + 1) 1) as [He|He].
    + cbn. split; [done|]. intros ->. destruct (ri_side _ _ _ Hi) as [_ Hpos]. lia.
    + assert (X ≠ ∅) as [u Hu]%set_choose_L by (intros ->; rewrite size_empty in Hn; lia).
      eapply (counted_side X g s t u); [done|done|by intros ->|done].
  - intros u r Hne Hu [H1 H2]. split; [done|]. destruct r; try done.
    by destruct (one_holder X g s t u ReadFirst Hi Hlock Hu eq_refl).
  - intros _. exists next. by rw_self.
  - done.
Qed.

(** The first reader takes the lock of the writers. *)
Lemma inv_first X g s t :
  inv X g s → rw_threads s !! t = Some ReadFirst → rw_writerSpinLock s = None →
  inv X Readers (mkRWLock (rw_readersSpinLock s) (rw_readers s) (Some t) (<[t := ReadLocked]> (rw_threads s))).
Proof.
  intros Hi Ht Hw. pose proof (ri_threads _ _ _ Hi t _ Ht) as [Hlock [H1 Hg]]. specialize (Hlock eq_refl).
  eapply inv_update with (t := t) (X := X) (g := g); [exact Hi|..]; cbn.
  - rw_other.
  - eapply counted_same; [done|]. rw_self. by rewrite Ht.
  - apply Hi.
  - cbn. split; [done|lia].
  - rw_self. intros r [= <-]. by split.
  - intros u r Hne Hu [H2 H3]. split; [done|]. pose proof (ri_side _ _ _ Hi) as Hs. destruct r; try done.
    + by destruct (one_holder X g s t u ReadFirst Hi Hlock Hu eq_refl).
    + subst g. destruct Hs as [Hs _]. congruence.
  - intros _. exists ReadLocked. by rw_self.
  - done.
Qed.

(** A reader is no longer counted, and the last one releases the lock of the writers. *)
Lemma inv_discount X g s t :
  inv X g s → rw_threads s !! t = Some ReadDiscounting →
  ∃ g', inv (X ∖ {[t]}) g' (mkRWLock (rw_readersSpinLock s) (rw_readers s - 1)
    (if rw_readers s - 1 =? 0 then None else rw_writerSpinLock s) (<[t := ReadUnlocked]> (rw_threads s))).
Proof.
  intros Hi Ht. pose proof (ri_threads _ _ _ Hi t _ Ht) as [Hlock ->]. specialize (Hlock eq_refl).
  assert (t ∈ X) as HtX by (apply (ri_counted _ _ _ Hi); by exists ReadDiscounting).
  pose proof (ri_readers _ _ _ Hi) as Hn. pose proof (ri_side _ _ _ Hi) as [Hw Hpos].
  assert (Z.of_nat (size (X ∖ {[t]})) = rw_readers s - 1) as Hsize.
  { rewrite size_difference by set_solver. rewrite size_singleton. lia. }
  exists (if rw_readers s - 1 =? 0 then Free else Readers).
  eapply inv_update with (t := t) (X := X) (g := Readers); [exact Hi|..]; cbn.
  - rw_other.
  - intros u. rw_self. simpl. set_solver.
  - done.
  - destruct (Z.eqb_spec (rw_readers s - 1) 0); cbn; [done|]. split; [done|lia].
  - rw_self. intros r [= <-]. by split.
  - intros u r Hne Hu [H2 H3]. split; [done|].
    assert (counted r = true → rw_readers s - 1 =? 0 = false) as Hlast.
    { intros Hc. apply Z.eqb_neq. intros He. assert (X ∖ {[t]} = ∅) as HX by (apply leibniz_equiv, size_empty_inv; lia).
      assert (u ∈ X) by (apply (ri_counted _ _ _ Hi); eauto). set_solver. }
    destruct r; try done; try (by rewrite Hlast). by destruct H3.
  - intros _. exists ReadUnlocked. by rw_self.
  - done.
Qed.


(** A writer takes the lock. *)
Lemma inv_writeLock X g s t :
  inv X g s → rw_threads s !! t = Some WriteLocking → rw_writerSpinLock s = None →
  inv X (Writer t) (mkRWLock (rw_readersSpinLock s) (rw_readers s) (Some t) (<[t := Writing]> (rw_threads s))).
Proof.
  intros Hi Ht Hw. pose proof (ri_side _ _ _ Hi) as Hs.
  assert (g = Free) as -> by (destruct g; [done|destruct Hs; congruence|by destruct Hs]).
  eapply inv_update with (t := t) (X := X) (g := Free); [exact Hi|..]; cbn.
  - rw_other.
  - eapply counted_same; [done|]. rw_self. by rewrite Ht.
  - apply Hi.
  - cbn. by rw_self.
  - rw_self. intros r [= <-]. by split.
  - intros u r Hne Hu [H1 H2]. split; [done|]. destruct r; try done. by destruct H2.
  - intros Hl. destruct (ri_holder _ _ _ Hi t Hl) as (p & Hp & Hh). rewrite Ht in Hp. by injection Hp as <-.
  - done.
Qed.

(** A writer releases it. *)
Lemma inv_writeUnlock X g s t : inv X g s → rw_threads s !! t = Some Writing → inv X Free (writeUnlock t s).
Proof.
  intros Hi Ht. pose proof (ri_threads _ _ _ Hi t _ Ht) as [_ ->].
  eapply inv_update with (t := t) (X := X) (g := Writer t); [exact Hi|..]; cbn.
  - rw_other.
  - eapply counted_same; [done|]. rw_self. by rewrite Ht.
  - apply Hi.
  - done.
  - by rw_self.
  - intros u r Hne Hu [H1 H2]. split; [done|]. destruct r; try done; [by destruct H2|]. by injection H2 as ->.
  - intros Hl. destruct (ri_holder _ _ _ Hi t Hl) as (p & Hp & Hh). rewrite Ht in Hp. by injection Hp as <-.
  - done.
Qed.

Lemma rw_inv_advance X g s t s' : inv X g s → advance t s = Some s' → ∃ X' g', inv X' g' s'.
Proof.
  intros Hi Ha. unfold advance in Ha. destruct (rw_threads s !! t) as [p|] eqn:Ht; [|done]. simpl in Ha.
  destruct p; cbn in Ha; try done.
  - destruct (rw_readersSpinLock s) eqn:Hl; [done|]. injection Ha as <-. exists X, g. eapply rw_inv_acquire; eauto.
  - injection Ha as <-. eexists _, g. by apply inv_count.
  - destruct (rw_writerSpinLock s) eqn:Hl; [done|]. injection Ha as <-. exists X, Readers. by eapply inv_first.
  - injection Ha as <-. exists X, g. eapply inv_release; eauto.
  - destruct (rw_readersSpinLock s) eqn:Hl; [done|]. injection Ha as <-. exists X, g. eapply rw_inv_acquire; eauto.
  - injection Ha as <-. eexists _. by eapply inv_discount.
  - injection Ha as <-. exists X, g. eapply inv_release; eauto.
  - unfold writeLock in Ha. destruct (rw_writerSpinLock s) eqn:Hl; [done|]. injection Ha as <-. exists X, (Writer t).
    by eapply inv_writeLock.
Qed.

Lemma rw_inv_step X g s s' : inv X g s → step s s' → ∃ X' g', inv X' g' s'.
Proof.
  intros Hi Hs. destruct Hs as [s t Ht|s t Ht|s t Ht|s t Ht|s t s' Ha].
  1-3: exists X, g; apply inv_call; [done|by rewrite Ht|by rewrite Ht|done|rewrite Ht; by intros ? [= <-]].
  - exists X, Free. by eapply inv_writeUnlock.
  - by eapply rw_inv_advance.
Qed.

Lemma rw_inv_reachable s : rtc step new_RWSpinLock s → ∃ X g, inv X g s.
Proof.
  intros Hs. assert (∃ X g, inv X g new_RWSpinLock) as Hi.
  { exists ∅, Free. split; cbn; try done. intros t.
    split; [set_solver|]. by intros (p & Hp & _). }
  induction Hs as [|s0 s1 s2 Hs _ IH]; [done|]. destruct Hi as (X & g & Hi). apply IH. by eapply rw_inv_step.
Qed.

(** ** What the lock guarantees *)

(** While a thread writes, no other one reads or writes. *)
Lemma writer_excludes s t u :
  rtc step new_RWSpinLock s → rw_threads s !! t = Some Writing →
  rw_threads s !! u ≠ Some Reading ∧ (rw_threads s !! u = Some Writing → u = t).
Proof.
  intros (X & g & Hi)%rw_inv_reachable Ht. pose proof (ri_threads _ _ _ Hi t _ Ht) as [_ ->]. split.
  - intros Hu. by destruct (ri_threads _ _ _ Hi u _ Hu) as [_ ?].
  - intros Hu. destruct (ri_threads _ _ _ Hi u _ Hu) as [_ He]. by injection He as ->.
Qed.

(** When nobody reads or writes, some thread inside a call can go on. *)
Lemma no_deadlock s t p :
  rtc step new_RWSpinLock s → rw_threads s !! t = Some p →
  (∀ u, rw_threads s !! u ≠ Some Reading ∧ rw_threads s !! u ≠ Some Writing) →
  ∃ u s', advance u s = Some s'.
Proof.
  intros (X & g & Hi)%rw_inv_reachable Ht Hidle.
  destruct (rw_readersSpinLock s) as [u|] eqn:Hl.
  - destruct (ri_holder _ _ _ Hi u Hl) as (q & Hq & Hh). exists u. unfold advance. rewrite Hq. cbn.
    destruct q; try done; cbn; eauto.
    destruct (ri_threads _ _ _ Hi u _ Hq) as [_ [_ Hg]]. pose proof (ri_side _ _ _ Hi) as Hs.
    destruct g as [|v|]; [|by destruct Hs as [_ []%(Hidle v)]|done]. cbn in Hs. rewrite Hs. eauto.
  - assert (holds_readers p = false) as Hh.
    { destruct (holds_readers p) eqn:Hp; [|done]. destruct (ri_threads _ _ _ Hi t _ Ht) as [H _].
      specialize (H Hp). congruence. }
    destruct p; try done; try (by destruct (Hidle t)).
    + exists t. unfold advance. rewrite Ht. cbn. rewrite Hl. eauto.
    + exists t. unfold advance. rewrite Ht. cbn. rewrite Hl. eauto.
    + destruct (rw_writerSpinLock s) as [v|] eqn:Hw; [|exists t; unfold advance, writeLock; rewrite Ht; cbn; rewrite Hw; eauto].
      pose proof (ri_side _ _ _ Hi) as Hs. destruct g as [|v'|]; cbn in Hs; [congruence|by destruct Hs as [_ []%(Hidle v')]|].
      destruct Hs as [_ Hpos]. pose proof (ri_readers _ _ _ Hi) as Hn.
      assert (X ≠ ∅) as [u (q & Hq & Hc)%(ri_counted _ _ _ Hi)]%set_choose_L by (intros ->; rewrite size_empty in Hn; lia).
      destruct (ri_threads _ _ _ Hi u q Hq) as [Hhold _]. rewrite Hl in Hhold.
      exists u. unfold advance. rewrite Hq. destruct q; try done; try (by specialize (Hhold eq_refl)); [by destruct (Hidle u)|].
      cbn. rewrite Hl. eauto.
Qed.

(** While a thread writes no other one reads or writes; and when nobody reads or writes, some thread of
    those inside a call can go on. *)
Theorem rw_lock_guarantees s :
  rtc step new_RWSpinLock s →
  (∀ t u, rw_threads s !! t = Some Writing →
     rw_threads s !! u ≠ Some Reading ∧ (rw_threads s !! u = Some Writing → u = t)) ∧
  (∀ t p, rw_threads s !! t = Some p → (∀ u, rw_threads s !! u ≠ Some Reading ∧ rw_threads s !! u ≠ Some Writing) →
     ∃ u s', advance u s = Some s').
Proof. intros Hs. split; [intros t u; by apply writer_excludes|intros t p; by apply no_deadlock]. Qed.

(** ** Witnesses *)

(** Thread 0 writes, thread 1 waits to read and thread 2 to write. *)
Definition sample : rw_lock :=
  mkRWLock (Some 1%nat) 1 (Some 0%nat) (<[2%nat := WriteLocking]> (<[1%nat := ReadFirst]> {[0%nat := Writing]})).

Lemma rw_sample_reachable : rtc step new_RWSpinLock sample.
Proof.
  eapply rtc_l; [by apply (step_writeLock _ 0%nat)|]. eapply rtc_l; [by apply (step_advance _ 0%nat)|].
  eapply rtc_l; [by apply (step_readLock _ 1%nat)|]. eapply rtc_l; [by apply (step_advance _ 1%nat)|].
  eapply rtc_l; [by apply (step_advance _ 1%nat)|]. eapply rtc_l; [by apply (step_writeLock _ 2%nat)|].
  replace (call _ _ _) with sample by reflexivity. constructor.
Qed.

Lemma rw_lock_guarantees_witness :
  rw_threads sample !! 0%nat = Some Writing ∧ rw_threads sample !! 1%nat ≠ Some Reading.
Proof.
  split; [done|]. destruct (rw_lock_guarantees sample rw_sample_reachable) as [H _].
  apply (H 0%nat 1%nat). reflexivity.
Defined.
End RW.
