(* ===== verification/ThreadPrimitives.v ===== *)
(** * Primitives of the threads

    [ConditionVariable.hpp] of [src/lowlevel], on which [threads/posix/KernelLevelThread.hpp] suspends
    and resumes a thread, and [InitOncePointer.hpp].  A critical section under the mutex of a condition
    variable is one step; the wait of the standard condition variable can also end without a
    notification. *)

From S2P Require Import Prelude.
Local Open Scope Z_scope.

(** ** Condition variables *)

Module Condition.
(** The thread that waits: not in [wait], about to look at the flag with the mutex, or blocked in the
    standard condition variable. *)
Inductive waiter := Idle | Looking | Blocked.

(** Beside the flag: the calls of [signal] that have not notified yet, and how many calls of [wait]
    and of [clearPresignal] have taken a signal of those given. *)
Record condition_variable := mkCondition {
  cv_signaled : bool;
  cv_waiter : waiter;
  cv_notifying : nat;
  cv_given : nat;
  cv_taken : nat;
}.

Definition new_ConditionVariable : condition_variable := mkCondition false Idle 0 0 0.

(** [wait] is called. *)
Definition wait (s : condition_variable) : condition_variable :=
  mkCondition (cv_signaled s) Looking (cv_notifying s) (cv_given s) (cv_taken s).

(** The test of the loop of [wait], and what follows it: to block, or to take the signal and return. *)
Definition look (s : condition_variable) : condition_variable :=
  if cv_signaled s then mkCondition false Idle (cv_notifying s) (cv_given s) (S (cv_taken s))
  else mkCondition (cv_signaled s) Blocked (cv_notifying s) (cv_given s) (cv_taken s).

(** The critical section of [signal]; nothing when its assertion fails. *)
Definition signal (s : condition_variable) : option condition_variable :=
  if cv_signaled s then None
  else Some (mkCondition true (cv_waiter s) (S (cv_notifying s)) (S (cv_given s)) (cv_taken s)).

(** The notification at the end of [signal], and a wait that ends without one. *)
Definition wake (s : condition_variable) : waiter := match cv_waiter s with Blocked => Looking | w => w end.
Definition notify (s : condition_variable) : condition_variable :=
  mkCondition (cv_signaled s) (wake s) (pred (cv_notifying s)) (cv_given s) (cv_taken s).
Definition spurious (s : condition_variable) : condition_variable :=
  mkCondition (cv_signaled s) (wake s) (cv_notifying s) (cv_given s) (cv_taken s).

(** [isPresignaled] and [clearPresignal] *)
Definition isPresignaled (s : condition_variable) : bool := cv_signaled s.
Definition clearPresignal (s : condition_variable) : option condition_variable :=
  if cv_signaled s then Some (mkCondition false (cv_waiter s) (cv_notifying s) (cv_given s) (S (cv_taken s))) else None.

(** One thread waits, as the debug build asserts; any number of them signal. *)
Inductive step : condition_variable → condition_variable → Prop :=
  | step_wait s : cv_waiter s = Idle → step s (wait s)
  | step_look s : cv_waiter s = Looking → step s (look s)
  | step_signal s s' : signal s = Some s' → step s s'
  | step_notify s : (0 < cv_notifying s)%nat → step s (notify s)
  | step_spurious s : step s (spurious s)
  | step_clear s s' : cv_waiter s = Idle → isPresignaled s = true → clearPresignal s = Some s' → step s s'.

Record inv (s : condition_variable) : Prop := {
  ci_count : cv_given s = (cv_taken s + if cv_signaled s then 1 else 0)%nat;
  ci_blocked : cv_signaled s = true → cv_waiter s = Blocked → (0 < cv_notifying s)%nat;
}.

Lemma condition_inv_step s s' : inv s → step s s' → inv s'.
Proof.
  intros [Hc Hb] Hs. destruct Hs as [s Hw|s Hw|s s' Hs|s Hn|s|s s' Hw Hp Hs].
  - by split.
  - unfold look. destruct (cv_signaled s) eqn:He; split; cbn; [lia|done|lia|congruence].
  - unfold signal in Hs. destruct (cv_signaled s); [done|]. injection Hs as <-. split; cbn; lia.
  - split; cbn; [done|]. intros _. unfold wake. by destruct (cv_waiter s).
  - split; cbn; [done|]. intros _. unfold wake. by destruct (cv_waiter s).
  - unfold clearPresignal in Hs. destruct (cv_signaled s); [|done]. injection Hs as <-. split; cbn; [lia|done].
Qed.

Lemma condition_inv_reachable s : rtc step new_ConditionVariable s → inv s.
Proof.
  intros Hs. assert (inv new_ConditionVariable) as Hi by (by split).
  induction Hs; eauto using condition_inv_step.
Qed.

(** A thread in [wait] for which a signal is there returns as soon as the calls of [signal] that have
    begun end and it runs: the steps are theirs and its own. *)
Lemma signal_is_taken s :
  rtc step new_ConditionVariable s → cv_signaled s = true → cv_waiter s ≠ Idle →
  ∃ s', rtc step s s' ∧ cv_waiter s' = Idle ∧ cv_taken s' = S (cv_taken s) ∧ cv_given s' = cv_given s.
Proof.
  intros Hi%condition_inv_reachable Hs Hw. assert (∃ s1, rtc step s s1 ∧ cv_waiter s1 = Looking ∧ cv_signaled s1 = true ∧
    cv_taken s1 = cv_taken s ∧ cv_given s1 = cv_given s) as (s1 & Hr & Hl & Hs1 & Ht & Hg).
  { destruct (cv_waiter s) eqn:He; [done|by exists s|]. exists (notify s). split.
    - apply rtc_once, step_notify. by apply Hi.
    - cbn. unfold wake. by rewrite He. }
  exists (look s1). split; [by eapply rtc_r, step_look|]. unfold look. rewrite Hs1. cbn. by rewrite Ht.
Qed.

(** The thread is blocked when another one signals it. *)
Definition sample : condition_variable := mkCondition true Blocked 1 1 0.

Lemma signal_is_taken_witness :
  ∃ s', rtc step sample s' ∧ cv_waiter s' = Idle ∧ cv_taken s' = 1%nat ∧ cv_given s' = 1%nat.
Proof.
  apply (signal_is_taken sample); [|done|done].
  eapply rtc_l; [by apply step_wait|]. eapply rtc_l; [by apply step_look|]. by eapply rtc_once, step_signal.
Defined.
End Condition.

(** ** Pointers that are initialised once *)

Module InitOnce.
(** The values of the pointer; an object is known by the thread that constructs it. *)
Inductive pointer := Uninitialized | Initializing | Object (constructor : nat).

#[export] Instance pointer_eq_dec : EqDecision pointer.
Proof. solve_decision. Defined.

(** A thread before each of its accesses to the pointer, and after its return with a result. *)
Inductive position := FastNull | FastInitializing | Load | Exchange | Store | Spin | Returned (performed : bool).

Record init_state := mkInit {
  io_pointer : pointer;
  io_threads : gmap nat position;
}.

(** [init] by thread [t], one access at a time; the object is constructed before [Store]. *)
Definition init (t : nat) (p : position) (x : pointer) : pointer * position :=
  match p with
  | FastNull => (x, if decide (x ≠ Uninitialized) then FastInitializing else Load)
  | FastInitializing => (x, if decide (x ≠ Initializing) then Returned false else Load)
  | Load => (x, if decide (x = Uninitialized) then Exchange else Spin)
  | Exchange => if decide (x = Uninitialized) then (Initializing, Store) else (x, Spin)
  | Store => (Object t, Returned true)
  | Spin => (x, if decide (x = Initializing) then Spin else Returned false)
  | Returned b => (x, Returned b)
  end.

Definition run_init (t : nat) (p : position) (s : init_state) : init_state :=
  let '(x, p') := init t p (io_pointer s) in mkInit x (<[t := p']> (io_threads s)).

Inductive step : init_state → init_state → Prop :=
  | step_call s t : io_threads s !! t = None → step s (mkInit (io_pointer s) (<[t := FastNull]> (io_threads s)))
  | step_init s t p : io_threads s !! t = Some p → step s (run_init t p s).

Definition uninitialized : init_state := mkInit Uninitialized ∅.

(** What the position of a thread says of the pointer. *)
Definition position_ok (x : pointer) (t : nat) (p : position) : Prop :=
  match p with
  | FastInitializing | Spin => x ≠ Uninitialized
  | Store => x = Initializing
  | Returned true => x = Object t
  | Returned false => ∃ u, x = Object u
  | FastNull | Load | Exchange => True
  end.

Record inv (s : init_state) : Prop := {
  oi_threads : ∀ t p, io_threads s !! t = Some p → position_ok (io_pointer s) t p;
  oi_one : ∀ t t', io_threads s !! t = Some Store → io_threads s !! t' = Some Store → t = t';
}.

(** One operation of a thread keeps what the other ones know. *)
Lemma init_other t p u q x :
  position_ok x t p → position_ok x u q → (p = Store → q = Store → False) → position_ok (init t p x).1 u q.
Proof.
  intros Hp Hq Hn. destruct p; cbn in *; repeat case_decide; cbn; try done; subst x; destruct q as [| | | | | |[]]; naive_solver.
Qed.

Lemma init_self t p x : position_ok x t p → position_ok (init t p x).1 t (init t p x).2.
Proof.
  intros Hp. destruct p; cbn in *; repeat case_decide; cbn; try done; destruct x; naive_solver.
Qed.

Lemma init_store t p x : (init t p x).2 = Store → p = Exchange ∧ x = Uninitialized.
Proof. destruct p; cbn; by repeat case_decide. Qed.

Lemma once_inv_step s s' : inv s → step s s' → inv s'.
Proof.
  intros [Ht Ho] Hs. destruct Hs as [s t Hn|s t p Hp].
  - split; cbn; intros *; rewrite ?lookup_insert_Some; naive_solver.
  - unfold run_init. destruct (init t p (io_pointer s)) as [x q] eqn:Hi.
    pose proof (init_self t p _ (Ht _ _ Hp)) as Hself. rewrite Hi in Hself.
    assert (∀ u, io_threads s !! u = Some Store → q ≠ Store) as Hq.
    { intros u Hu ->. destruct (init_store t p (io_pointer s)) as [_ Hx]; [by rewrite Hi|].
      specialize (Ht u Store Hu). cbn in Ht. congruence. }
    split; cbn.
    + intros u r [[<- <-]|[Hne Hu]]%lookup_insert_Some; [done|].
      pose proof (init_other t p u r _ (Ht _ _ Hp) (Ht _ _ Hu)) as Hother. rewrite Hi in Hother.
      apply Hother. intros -> ->. by apply Hne, Ho.
    + intros u u' [[<- ->]|[Hne Hu]]%lookup_insert_Some [[<- Hs]|[Hne' Hu']]%lookup_insert_Some; [done|..].
      * by destruct (Hq u' Hu').
      * by destruct (Hq u Hu).
      * by apply Ho.
Qed.

Lemma once_inv_reachable s : rtc step uninitialized s → inv s.
Proof.
  intros Hs. assert (inv uninitialized) as Hi by (by split; cbn; intros ? ? ?).
  induction Hs; eauto using once_inv_step.
Qed.

(** A pointer that has an object keeps it. *)
Lemma object_stays s s' u : inv s → step s s' → io_pointer s = Object u → io_pointer s' = Object u.
Proof.
  intros [Ht _] Hs Hu. destruct Hs as [s t Hn|s t p Hp]; [done|]. unfold run_init.
  specialize (Ht t p Hp). destruct p; cbn in *; rewrite Hu in *; repeat case_decide; done.
Qed.

(** The object is constructed by one call, the one that returns [true]; every call that returns finds
    it there, and it is never replaced. *)
Lemma initialised_once s t b :
  rtc step uninitialized s → io_threads s !! t = Some (Returned b) →
  ∃ u, (∀ s', rtc step s s' → io_pointer s' = Object u) ∧ (b = true → u = t) ∧
       ∀ t', io_threads s !! t' = Some (Returned true) → t' = u.
Proof.
  intros Hi%once_inv_reachable Ht. assert (∃ u, io_pointer s = Object u ∧ (b = true → u = t)) as (u & Hu & Hb).
  { pose proof (oi_threads s Hi t _ Ht) as Hp. destruct b; cbn in Hp; [by exists t|destruct Hp as [u Hu]; by exists u]. }
  exists u. split_and!; [|done|].
  - intros s' Hs. clear Ht Hb. induction Hs as [s|s s1 s2 Hs _ IH]; [done|]. apply IH; [by eapply once_inv_step|by eapply object_stays].
  - intros t' Ht'. pose proof (oi_threads s Hi t' _ Ht') as Hp. cbn in Hp. congruence.
Qed.

(** Thread 0 has initialised the pointer while thread 1 was in the loop. *)
Definition sample : init_state := mkInit (Object 0) (<[1%nat := Spin]> {[0%nat := Returned true]}).

Lemma initialised_once_witness : ∃ u, (∀ s', rtc step sample s' → io_pointer s' = Object u) ∧ u = 0%nat.
Proof.
  destruct (initialised_once sample 0 true) as (u & H1 & H2 & _); [|done|exists u; auto].
  eapply rtc_l; [by apply (step_call _ 0)|]. eapply rtc_l; [by apply (step_init _ 0 FastNull)|].
  eapply rtc_l; [by apply (step_init _ 0 Load)|]. eapply rtc_l; [by apply (step_call _ 1)|].
  eapply rtc_l; [by apply (step_init _ 0 Exchange)|]. eapply rtc_l; [by apply (step_init _ 1 FastNull)|].
  eapply rtc_l; [by apply (step_init _ 1 FastInitializing)|]. eapply rtc_l; [by apply (step_init _ 1 Load)|].
  eapply rtc_l; [by apply (step_init _ 0 Store)|].
  replace (run_init 0 Store _) with sample by reflexivity. constructor.
Defined.
End InitOnce.
