(* ===== verification/UserMutex.v ===== *)
(** * User mutexes

    [system/ompss/UserMutex.hpp] and [UserMutex.cpp]: [nanos6_user_lock] and [nanos6_user_unlock], with
    the allocation of the mutex on its first use, the fast path, and the queue of the tasks that block.
    Each access to the pointer of the mutex, to its flag and to the lock of its queue is a step of the
    task that makes it; the lock of the queue is a mutex of [Locks.Mutex].  How a released task gets to
    run is the part of the scheduler and of the threads: here it becomes [Granted]. *)

From S2P Require Import Prelude.
From S2P Require Import Locks.

Module User.
(** The next operation of a task in [nanos6_user_lock] ([Check] to [Blocked]) or in
    [nanos6_user_unlock] ([Unlock], [Dequeue], [UnlockLeave]); a task that has been handed the mutex
    while it was blocked is [Granted], and is the [Owner] when it goes on. *)
Inductive position :=
  | Check | Allocate | Fast | Queue | Try | Push | QueueLeave (acquired : bool) | Blocked | Granted
  | Owner
  | Unlock | Dequeue | UnlockLeave.

(** The reference to the mutex, its state, and the tasks. *)
Record user_mutex := mkUserMutex {
  um_allocated : bool;
  um_userMutex : bool;
  um_blockedTasksLock : mutex;
  um_blockedTasks : list nat;
  um_tasks : gmap nat position;
}.

Definition no_mutex : user_mutex := mkUserMutex false false None [] ∅.

Definition set_position (t : nat) (p : position) (s : user_mutex) : user_mutex :=
  mkUserMutex (um_allocated s) (um_userMutex s) (um_blockedTasksLock s) (um_blockedTasks s) (<[t := p]> (um_tasks s)).
Definition set_flag (b : bool) (s : user_mutex) : user_mutex :=
  mkUserMutex (um_allocated s) b (um_blockedTasksLock s) (um_blockedTasks s) (um_tasks s).
Definition set_lock (m : mutex) (s : user_mutex) : user_mutex :=
  mkUserMutex (um_allocated s) (um_userMutex s) m (um_blockedTasks s) (um_tasks s).
Definition set_queue (q : list nat) (s : user_mutex) : user_mutex :=
  mkUserMutex (um_allocated s) (um_userMutex s) (um_blockedTasksLock s) q (um_tasks s).

(** [UserMutex::UserMutex], in the locked state as the allocation makes it *)
Definition new_UserMutex (initialState : bool) (s : user_mutex) : user_mutex :=
  mkUserMutex true initialState None [] (um_tasks s).

(** [UserMutex::tryLock] *)
Definition tryLock (s : user_mutex) : user_mutex * bool :=
  if um_userMutex s then (s, false) else (set_flag true s, true).

(** [UserMutex::lockOrQueue], inside the critical section *)
Definition lockOrQueue (t : nat) (p : position) (s : user_mutex) : option user_mutex :=
  match p with
  | Queue =>
      match um_blockedTasksLock s with
      | None => Some (set_position t Try (set_lock (Some t) s))
      | Some _ => None
      end
  | Try => let '(s', acquired) := tryLock s in Some (set_position t (if acquired then QueueLeave true else Push) s')
  | Push => Some (set_position t (QueueLeave false) (set_queue (um_blockedTasks s ++ [t]) s))
  | QueueLeave acquired => Some (set_position t (if acquired then Owner else Blocked) (set_lock None s))
  | _ => None
  end.

(** [UserMutex::dequeueOrUnlock]: the task that leaves the queue, if any, now has the mutex. *)
Definition dequeueOrUnlock (t : nat) (p : position) (s : user_mutex) : option user_mutex :=
  match p with
  | Unlock =>
      match um_blockedTasksLock s with
      | None => Some (set_position t Dequeue (set_lock (Some t) s))
      | Some _ => None
      end
  | Dequeue =>
      match um_blockedTasks s with
      | [] => Some (set_position t UnlockLeave (set_flag false s))
      | u :: q => Some (set_position t UnlockLeave (set_position u Granted (set_queue q s)))
      end
  | UnlockLeave =>
      Some (mkUserMutex (um_allocated s) (um_userMutex s) None (um_blockedTasks s) (delete t (um_tasks s)))
  | _ => None
  end.

(** [nanos6_user_lock], after its call *)
Definition nanos6_user_lock (t : nat) (p : position) (s : user_mutex) : option user_mutex :=
  match p with
  | Check => Some (set_position t (if um_allocated s then Fast else Allocate) s)
  | Allocate =>
      if um_allocated s then Some (set_position t Fast s)
      else Some (set_position t Owner (new_UserMutex true s))
  | Fast => let '(s', acquired) := tryLock s in Some (set_position t (if acquired then Owner else Queue) s')
  | Granted => Some (set_position t Owner s)
  | Queue | Try | Push | QueueLeave _ => lockOrQueue t p s
  | _ => None
  end.

Definition advance (t : nat) (s : user_mutex) : option user_mutex :=
  p ← um_tasks s !! t;
  match p with
  | Unlock | Dequeue | UnlockLeave => dequeueOrUnlock t p s
  | _ => nanos6_user_lock t p s
  end.

(** A task calls [nanos6_user_lock], and the owner [nanos6_user_unlock]. *)
Inductive step : user_mutex → user_mutex → Prop :=
  | step_lock s t : um_tasks s !! t = None → step s (set_position t Check s)
  | step_unlock s t : um_tasks s !! t = Some Owner → step s (set_position t Unlock s)
  | step_advance s t s' : advance t s = Some s' → step s s'.

(** ** The invariant *)

(** The positions in which a task has the mutex, holds the lock of the queue, is in the queue, and in
    which the mutex need not be allocated. *)
Definition owner (o : option position) : bool :=
  match o with Some (QueueLeave true | Granted | Owner | Unlock | Dequeue) => true | _ => false end.
Definition locking (o : option position) : bool :=
  match o with Some (Try | Push | QueueLeave _ | Dequeue | UnlockLeave) => true | _ => false end.
Definition queued (o : option position) : bool :=
  match o with Some (QueueLeave false | Blocked) => true | _ => false end.
Definition starting (o : option position) : bool :=
  match o with None | Some (Check | Allocate) => true | _ => false end.

(** What the position of a task says of the mutex, and the other way round; [h] is the task that has it. *)
Record task_ok (h : option nat) (s : user_mutex) (t : nat) (o : option position) : Prop := {
  to_owner : owner o = true ↔ h = Some t;
  to_locking : locking o = true ↔ um_blockedTasksLock s = Some t;
  to_queued : queued o = true ↔ t ∈ um_blockedTasks s;
  to_push : o = Some Push → um_userMutex s = true;
  to_starting : starting o = false → um_allocated s = true;
}.

Record inv (h : option nat) (s : user_mutex) : Prop := {
  ui_flag : um_userMutex s = bool_decide (is_Some h);
  ui_nodup : NoDup (um_blockedTasks s);
  ui_queue : um_blockedTasks s ≠ [] → um_userMutex s = true;
  ui_tasks : ∀ t, task_ok h s t (um_tasks s !! t);
}.

Lemma inv_initial : inv None no_mutex.
Proof. split; try done; [constructor|]. intros t. cbn. split; cbn; set_solver. Qed.

(** A task moves, and the state with it: the fields of the invariant for it and for the other tasks. *)
Ltac user_move t Ht Htasks :=
  intros u; pose proof (Htasks u) as Hu; pose proof (Htasks t) as Hself; rewrite Ht in Hself;
  destruct (decide (u = t)) as [->|Hne];
  [rewrite ?lookup_insert_eq, ?lookup_delete_eq; clear Hu; destruct Hself
  |rewrite ?lookup_insert_ne, ?lookup_delete_ne by done; destruct Hu, Hself];
  split; cbn in *; rewrite ?elem_of_app, ?list_elem_of_singleton in *; naive_solver congruence.

Section step.
Context (h : option nat) (s : user_mutex) (t : nat) (Hi : inv h s).

Lemma inv_lock : um_tasks s !! t = None → inv h (set_position t Check s).
Proof. intros Ht. destruct Hi as [Hf Hd Hq Htasks]. split; try done. cbn. user_move t Ht Htasks. Qed.

Lemma user_inv_unlock : um_tasks s !! t = Some Owner → inv h (set_position t Unlock s).
Proof. intros Ht. destruct Hi as [Hf Hd Hq Htasks]. split; try done. cbn. user_move t Ht Htasks. Qed.

Lemma inv_check : um_tasks s !! t = Some Check → inv h (set_position t (if um_allocated s then Fast else Allocate) s).
Proof.
  intros Ht. destruct Hi as [Hf Hd Hq Htasks]. split; try done. cbn. destruct (um_allocated s) eqn:Ha; user_move t Ht Htasks.
Qed.

Lemma inv_granted : um_tasks s !! t = Some Granted → inv h (set_position t Owner s).
Proof. intros Ht. destruct Hi as [Hf Hd Hq Htasks]. split; try done. cbn. user_move t Ht Htasks. Qed.


(** Before the allocation no task is past it. *)
Lemma unallocated : um_allocated s = false → h = None ∧ um_blockedTasksLock s = None ∧ um_blockedTasks s = [].
Proof.
  intros Ha. assert (∀ u, starting (um_tasks s !! u) = true) as Hs.
  { intros u. destruct (starting _) eqn:He; [done|]. apply (ui_tasks _ _ Hi) in He. congruence. }
  assert (∀ u, owner (um_tasks s !! u) = false ∧ locking (um_tasks s !! u) = false ∧ queued (um_tasks s !! u) = false) as Hn.
  { intros u. specialize (Hs u). by destruct (um_tasks s !! u) as [[]|]. }
  split_and!.
  - destruct h as [u|]; [|done]. destruct (Hn u) as [Hu _]. rewrite (proj2 (to_owner _ _ _ _ (ui_tasks _ _ Hi u))) in Hu; done.
  - destruct (um_blockedTasksLock s) as [u|] eqn:Hl; [|done]. destruct (Hn u) as (_ & Hu & _).
    rewrite (proj2 (to_locking _ _ _ _ (ui_tasks _ _ Hi u))) in Hu; done.
  - destruct (um_blockedTasks s) as [|u q] eqn:Hq; [done|]. destruct (Hn u) as (_ & _ & Hu).
    rewrite (proj2 (to_queued _ _ _ _ (ui_tasks _ _ Hi u))) in Hu; [done|]. rewrite Hq. constructor.
Qed.

Lemma inv_allocate :
  um_tasks s !! t = Some Allocate → um_allocated s = false → inv (Some t) (set_position t Owner (new_UserMutex true s)).
Proof.
  intros Ht Ha. destruct (unallocated Ha) as (Hh & Hl & Hq'). destruct Hi as [Hf Hd Hq Htasks].
  split; try done; [constructor|]. cbn. clear Hq Hf. rewrite Hh in Htasks. user_move t Ht Htasks.
Qed.

Lemma inv_lost : um_tasks s !! t = Some Allocate → um_allocated s = true → inv h (set_position t Fast s).
Proof. intros Ht Ha. destruct Hi as [Hf Hd Hq Htasks]. split; try done. cbn. user_move t Ht Htasks. Qed.

(** Who has the mutex when its flag is not set: nobody, and nobody waits. *)
Lemma unlocked : um_userMutex s = false → h = None ∧ um_blockedTasks s = [].
Proof.
  intros Hf. split.
  - rewrite (ui_flag _ _ Hi) in Hf. destruct h; [by apply bool_decide_eq_false in Hf as []|done].
  - destruct (um_blockedTasks s) eqn:Hq; [done|]. assert (um_userMutex s = true); [|congruence]. apply Hi. by rewrite Hq.
Qed.

Lemma user_inv_acquire p p' :
  um_tasks s !! t = Some p → um_userMutex s = false → (p = Fast ∧ p' = Owner ∨ p = Try ∧ p' = QueueLeave true) →
  inv (Some t) (set_position t p' (set_flag true s)).
Proof.
  intros Ht Hfalse Hp. destruct (unlocked Hfalse) as [Hh Hq']. destruct Hi as [Hf Hd Hq Htasks].
  split; try done. cbn. rewrite Hh in Htasks. destruct Hp as [[-> ->]|[-> ->]]; user_move t Ht Htasks.
Qed.

Lemma inv_refused p p' :
  um_tasks s !! t = Some p → um_userMutex s = true → (p = Fast ∧ p' = Queue ∨ p = Try ∧ p' = Push) →
  inv h (set_position t p' s).
Proof.
  intros Ht Hfalse Hp. destruct Hi as [Hf Hd Hq Htasks].
  split; try done. cbn. destruct Hp as [[-> ->]|[-> ->]]; user_move t Ht Htasks.
Qed.

(** The lock of the queue is taken and released. *)
Lemma user_inv_enter p p' :
  um_tasks s !! t = Some p → um_blockedTasksLock s = None → (p = Queue ∧ p' = Try ∨ p = Unlock ∧ p' = Dequeue) →
  inv h (set_position t p' (set_lock (Some t) s)).
Proof.
  intros Ht Hl Hp. destruct Hi as [Hf Hd Hq Htasks]. split; try done. cbn.
  destruct Hp as [[-> ->]|[-> ->]]; user_move t Ht Htasks.
Qed.

Lemma user_inv_leave acquired :
  um_tasks s !! t = Some (QueueLeave acquired) →
  inv h (set_position t (if acquired then Owner else Blocked) (set_lock None s)).
Proof.
  intros Ht. destruct Hi as [Hf Hd Hq Htasks]. split; try done. cbn. destruct acquired; user_move t Ht Htasks.
Qed.

Lemma inv_unlockLeave :
  um_tasks s !! t = Some UnlockLeave →
  inv h (mkUserMutex (um_allocated s) (um_userMutex s) None (um_blockedTasks s) (delete t (um_tasks s))).
Proof. intros Ht. destruct Hi as [Hf Hd Hq Htasks]. split; try done. cbn. user_move t Ht Htasks. Qed.

Lemma inv_push :
  um_tasks s !! t = Some Push → inv h (set_position t (QueueLeave false) (set_queue (um_blockedTasks s ++ [t]) s)).
Proof.
  intros Ht. destruct Hi as [Hf Hd Hq Htasks].
  assert (t ∉ um_blockedTasks s) as Hn by (intros Hn%(to_queued _ _ _ _ (Htasks t)); by rewrite Ht in Hn).
  split; try done; cbn.
  - apply NoDup_app. split_and!; [done|set_solver|apply NoDup_singleton].
  - intros _. apply (to_push _ _ _ _ (Htasks t)). done.
  - user_move t Ht Htasks.
Qed.

(** The mutex is unlocked when nobody waits, and handed to the head of the queue otherwise. *)
Lemma inv_free :
  um_tasks s !! t = Some Dequeue → um_blockedTasks s = [] → inv None (set_position t UnlockLeave (set_flag false s)).
Proof.
  intros Ht Hempty. destruct Hi as [Hf Hd Hq Htasks]. pose proof (Htasks t) as Hown. rewrite Ht in Hown.
  assert (h = Some t) as -> by (by apply Hown). assert (um_blockedTasksLock s = Some t) as Hl by (by apply Hown). clear Hown.
  split; try done; cbn. intros u. pose proof (Htasks u) as [H1 H2 H3 H4 H5]. destruct (decide (u = t)) as [->|Hne].
  - rewrite lookup_insert_eq. rewrite Ht in *. split; cbn in *; naive_solver.
  - rewrite lookup_insert_ne by done. split; cbn; try done.
    + rewrite H1. naive_solver.
    + intros Hp. rewrite Hp in H2. destruct H2 as [H2 _]. specialize (H2 eq_refl). congruence.
Qed.
Lemma inv_hand u q :
  um_tasks s !! t = Some Dequeue → um_blockedTasks s = u :: q →
  um_tasks s !! u = Some Blocked ∧ inv (Some u) (set_position t UnlockLeave (set_position u Granted (set_queue q s))).
Proof.
  intros Ht Hcons. destruct Hi as [Hf Hd Hq Htasks]. pose proof (Htasks t) as Hown. rewrite Ht in Hown.
  assert (h = Some t) as -> by (by apply Hown). assert (um_blockedTasksLock s = Some t) as Hl by (by apply Hown). clear Hown.
  rewrite Hcons in Hd. apply NoDup_cons in Hd as [Huq Hd].
  assert (um_tasks s !! u = Some Blocked) as Hu.
  { pose proof (Htasks u) as [_ Hlock Hqueued _ _]. rewrite Hcons in Hqueued.
    destruct (um_tasks s !! u) as [[]|] eqn:He; cbn in *; try done; try (by rewrite He in Ht; naive_solver set_solver);
      try (exfalso; assert (false = true); [apply Hqueued; constructor|done]).
    destruct acquired; [exfalso; assert (false = true); [apply Hqueued; constructor|done]|].
    assert (Some t = Some u) as [= ->] by (rewrite <- Hl; by apply Hlock). congruence. }
  split; [done|]. assert (t ≠ u) as Htu by congruence. split; try done; cbn.
  intros v. pose proof (Htasks v) as [H1 H2 H3 H4 H5]. rewrite Hcons, elem_of_cons in H3.
    destruct (decide (v = t)) as [->|Hvt]; [rewrite lookup_insert_eq; rewrite Ht in *; split; cbn in *; naive_solver|].
    rewrite lookup_insert_ne by done.
    destruct (decide (v = u)) as [->|Hvu]; [rewrite lookup_insert_eq; rewrite Hu in *; split; cbn in *; naive_solver|].
    rewrite lookup_insert_ne by done. split; cbn; try done; [rewrite H1|]; naive_solver.
Qed.

Lemma user_inv_advance s' : advance t s = Some s' → ∃ h', inv h' s'.
Proof.
  unfold advance. destruct (um_tasks s !! t) as [p|] eqn:Ht; [|done]. cbn [mbind option_bind].
  destruct p; cbn; try done.
  - intros [= <-]. exists h. by apply inv_check.
  - destruct (um_allocated s) eqn:Ha; intros [= <-]; [exists h; by apply inv_lost|exists (Some t); by apply inv_allocate].
  - unfold tryLock. destruct (um_userMutex s) eqn:Hf; intros [= <-];
      [exists h; eapply inv_refused; eauto|exists (Some t); eapply user_inv_acquire; eauto].
  - destruct (um_blockedTasksLock s) eqn:Hl; [done|]. intros [= <-]. exists h. eapply user_inv_enter; eauto.
  - unfold tryLock. destruct (um_userMutex s) eqn:Hf; intros [= <-];
      [exists h; eapply inv_refused; eauto|exists (Some t); eapply user_inv_acquire; eauto].
  - intros [= <-]. exists h. by apply inv_push.
  - intros [= <-]. exists h. by apply user_inv_leave.
  - intros [= <-]. exists h. by apply inv_granted.
  - destruct (um_blockedTasksLock s) eqn:Hl; [done|]. intros [= <-]. exists h. eapply user_inv_enter; eauto.
  - destruct (um_blockedTasks s) as [|u q] eqn:Hq; intros [= <-]; [exists None; by apply inv_free|].
    exists (Some u). by eapply inv_hand.
  - intros [= <-]. exists h. by apply inv_unlockLeave.
Qed.
End step.

Lemma user_inv_reachable s : rtc step no_mutex s → ∃ h, inv h s.
Proof.
  intros Hs. assert (∃ h, inv h no_mutex) as Hi by (exists None; apply inv_initial).
  induction Hs as [|s0 s1 s2 Hs _ IH]; [done|]. destruct Hi as [h Hi]. apply IH.
  destruct Hs as [s t Ht|s t Ht|s t s' Ha]; [exists h; by apply inv_lock|exists h; by apply user_inv_unlock|by eapply user_inv_advance].
Qed.

(** ** What the mutex guarantees *)

(** At most one task is past [nanos6_user_lock]; when the flag is not set nobody is and nobody waits;
    and a task that unlocks the mutex while others wait hands it to the one that waits for longest. *)
Lemma user_mutex_excludes s :
  rtc step no_mutex s →
  (∀ t t', um_tasks s !! t = Some Owner → um_tasks s !! t' = Some Owner → t = t') ∧
  (um_userMutex s = false → um_blockedTasks s = [] ∧ ∀ t, um_tasks s !! t ≠ Some Owner ∧ um_tasks s !! t ≠ Some Blocked) ∧
  (∀ t u q s', um_tasks s !! t = Some Dequeue → um_blockedTasks s = u :: q → advance t s = Some s' →
     um_tasks s !! u = Some Blocked ∧ um_tasks s' !! u = Some Granted ∧ um_userMutex s' = true ∧ um_blockedTasks s' = q ∧
     ∀ v, um_tasks s' !! v ≠ Some Owner).
Proof.
  intros [h Hi]%user_inv_reachable.
  assert (∀ t, um_tasks s !! t = Some Owner → h = Some t) as Ho.
  { intros t Ht. pose proof (ui_tasks _ _ Hi t) as [H _ _ _ _]. rewrite Ht in H. by apply H. }
  split_and!.
  - intros t t' H1%Ho H2%Ho. congruence.
  - intros Hf. destruct (unlocked h s Hi Hf) as [Hh Hq]. split; [done|]. intros t. split.
    + intros Ht%Ho. congruence.
    + intros Ht. pose proof (ui_tasks _ _ Hi t) as [_ _ H _ _]. rewrite Ht, Hq in H. cbn in H. set_solver.
  - intros t u q s' Ht Hq Ha. destruct (inv_hand h s t Hi u q Ht Hq) as [Hu Hi'].
    unfold advance in Ha. rewrite Ht in Ha. cbn in Ha. rewrite Hq in Ha. injection Ha as <-.
    assert (t ≠ u) as Htu by congruence. cbn. split_and!; [done| | |done|].
    + rewrite lookup_insert_ne by done. by rewrite lookup_insert_eq.
    + apply Hi. by rewrite Hq.
    + intros v Hv. pose proof (ui_tasks _ _ Hi' v) as [H _ _ _ _]. cbn in H. rewrite Hv in H.
      destruct H as [H _]. specialize (H eq_refl). injection H as <-.
      rewrite lookup_insert_ne, lookup_insert_eq in Hv; done.
Qed.

(** While a task waits, or has asked for the mutex, either some task has it and has not asked to unlock
    it, or some task inside a call can go on. *)
Lemma user_mutex_progress s t p :
  rtc step no_mutex s → um_tasks s !! t = Some p → (∃ u, um_tasks s !! u = Some Owner) ∨ ∃ u s', advance u s = Some s'.
Proof.
  intros [h Hi]%user_inv_reachable Ht.
  destruct (um_blockedTasksLock s) as [u|] eqn:Hl.
  - right. exists u. pose proof (ui_tasks _ _ Hi u) as [_ H _ _ _]. apply H in Hl. unfold advance.
    destruct (um_tasks s !! u) as [[]|]; try done; cbn; unfold tryLock; repeat case_match; eauto.
  - assert (∀ v r, um_tasks s !! v = Some r → r = Owner ∨ r = Blocked ∨ ∃ s', advance v s = Some s') as Hcan.
    { intros v r Hv. unfold advance. rewrite Hv. destruct r; try (by left); try (by right; left); right; right; cbn;
        rewrite ?Hl; unfold tryLock; repeat case_match; eauto. }
    destruct (Hcan t p Ht) as [->|[->|Hadv]]; [by left; exists t| |by right; exists t].
    pose proof (ui_tasks _ _ Hi t) as [_ _ Hq _ _]. rewrite Ht in Hq. destruct Hq as [Hq _]. specialize (Hq eq_refl).
    assert (um_userMutex s = true) as Hf by (apply (ui_queue _ _ Hi); destruct (um_blockedTasks s); [by apply not_elem_of_nil in Hq|done]).
    rewrite (ui_flag _ _ Hi) in Hf. apply bool_decide_eq_true in Hf as [v ->].
    pose proof (ui_tasks _ _ Hi v) as [Hv _ _ _ _]. destruct Hv as [_ Hv]. specialize (Hv eq_refl).
    destruct (um_tasks s !! v) as [r|] eqn:Hr; [|done]. destruct (Hcan v r Hr) as [->|[->|Hadv]]; [by left; exists v|done|by right; exists v].
Qed.

(** ** Witnesses *)

Fixpoint run (l : list nat) (s : user_mutex) : option user_mutex :=
  match l with [] => Some s | t :: l => s' ← advance t s; run l s' end.

Lemma run_steps l s s' : run l s = Some s' → rtc step s s'.
Proof.
  revert s. induction l as [|t l IH]; cbn; intros s Hr; [injection Hr as <-; constructor|].
  destruct (advance t s) as [s1|] eqn:Ha; [|done]. eapply rtc_l; [by apply (step_advance _ t)|]. by apply IH.
Qed.

(** Task 0 allocates the mutex, task 1 comes to block, and task 0 is about to hand it over. *)
Definition sample : user_mutex :=
  mkUserMutex true true (Some 0) [1] (<[1 := Blocked]> {[0 := Dequeue]}).

Lemma user_sample_reachable : rtc step no_mutex sample.
Proof.
  eapply rtc_l; [by apply (step_lock _ 0)|]. etrans; [by apply (run_steps [0; 0])|].
  eapply rtc_l; [by apply (step_lock _ 1)|]. etrans; [by apply (run_steps [1; 1; 1; 1; 1; 1])|].
  eapply rtc_l; [by apply (step_unlock _ 0)|]. by apply (run_steps [0]).
Qed.

Lemma user_mutex_excludes_witness :
  ∃ s', advance 0 sample = Some s' ∧ um_tasks s' !! 1 = Some Granted ∧ um_userMutex s' = true ∧ um_blockedTasks s' = [].
Proof.
  destruct (user_mutex_excludes sample user_sample_reachable) as (_ & _ & H).
  eexists. split; [reflexivity|]. by destruct (H 0 1 [] _ eq_refl eq_refl eq_refl) as (_ & H1 & H2 & H3 & _).
Defined.

Lemma user_mutex_progress_witness : (∃ u, um_tasks sample !! u = Some Owner) ∨ ∃ u s', advance u sample = Some s'.
Proof. apply (user_mutex_progress sample 1 Blocked user_sample_reachable). reflexivity. Defined.
End User.
