(* ===== verification/Polling.v ===== *)
(** * Polling services

    [system/PollingAPI.cpp]: the registration of polling services, their unregistration, which waits
    until nobody processes the service, and the traversal that calls them.  A traversal holds the lock
    except while it calls a service, so that what it does between two calls is one step, as are the
    critical sections of the other functions; a [tryLock] that fails leaves everything as it is.  A call
    of the interface that a service makes is one more thread of the model. *)

From S2P Require Import Prelude.
Local Open Scope Z_scope.

Module Polling.
(** [ServiceKey]: the function and its data, as addresses; the name does not take part in the order. *)
Definition key : Type := Z * Z.

(** [operator<] *)
Definition key_lt (a b : key) : bool :=
  if a.1 <? b.1 then true else if a.1 >? b.1 then false
  else if a.2 <? b.2 then true else if a.2 >? b.2 then false
  else false.

(** [ServiceData]; [_discard] is the flag of the call that unregisters the service. *)
Record service := mkService {
  sv_key : key;
  sv_processing : bool;
  sv_discard : option nat;
}.

(** A call of [nanos6_unregister_polling_service], with the service, or of [handleServices]; the flag
    [unregistered]; and the service that it calls at the moment. *)
Record call := mkCall {
  ca_unregister : option key;
  ca_unregistered : bool;
  ca_calling : option key;
}.

(** The services in the order of their keys, and the calls that have not returned. *)
Record polling := mkPolling {
  po_services : list service;
  po_calls : gmap nat call;
}.

Definition no_services : polling := mkPolling [] ∅.

(** [std::map::emplace] at the place of a key, and whether the key was new *)
Fixpoint emplace (k : key) (l : list service) : list service * bool :=
  match l with
  | [] => ([mkService k false None], true)
  | s :: l' =>
      if key_lt (sv_key s) k then let '(r, new) := emplace k l' in (s :: r, new)
      else if key_lt k (sv_key s) then (mkService k false None :: l, true)
      else (l, false)
  end.

Definition update (k : key) (f : service → service) (l : list service) : list service :=
  (λ s, if decide (sv_key s = k) then f s else s) <$> l.

Definition set_discard (d : option nat) (s : service) : service := mkService (sv_key s) (sv_processing s) d.
Definition set_processing (b : bool) (s : service) : service := mkService (sv_key s) b (sv_discard s).

(** [nanos6_register_polling_service] *)
Definition nanos6_register_polling_service (k : key) (l : list service) : list service :=
  let '(l', new) := emplace k l in if new then l' else update k (set_discard None) l'.

(** The critical section of [nanos6_unregister_polling_service]; nothing when its assertions fail. *)
Definition nanos6_unregister_polling_service (u : nat) (k : key) (l : list service) : option (list service) :=
  s ← list_find (λ s, sv_key s = k) l;
  match sv_discard s.2 with
  | None => Some (update k (set_discard (Some u)) l)
  | Some _ => None
  end.

(** The loop of [handleServices] from an iterator on, up to the next call of a service: the services
    that are left, the service to call, and the flags that have been set. *)
Fixpoint traverse (l : list service) : list service * option key * list nat :=
  match l with
  | [] => ([], None, [])
  | s :: l' =>
      if sv_processing s then let '(r, k, w) := traverse l' in (s :: r, k, w)
      else match sv_discard s with
      | Some u => let '(r, k, w) := traverse l' in (r, k, u :: w)
      | None => (set_processing true s :: l', Some (sv_key s), [])
      end
  end.

(** The loop after the call of service [k], from the iterator that was kept; nothing when the iterator
    is no longer valid or the assertion on the flag fails. *)
Fixpoint resume (k : key) (unregister : bool) (l : list service) : option (list service * option key * list nat) :=
  match l with
  | [] => None
  | s :: l' =>
      if decide (sv_key s = k) then
        if negb (sv_processing s) then None
        else
          let '(r, k', w) := traverse l' in
          match sv_discard s with
          | Some u => Some (r, k', u :: w)
          | None => if unregister then Some (r, k', w) else Some (set_processing false s :: r, k', w)
          end
      else '(r, k', w) ← resume k unregister l'; Some (s :: r, k', w)
  end.

(** The flags are stored to, and the call goes on with the service it has reached. *)
Definition wake (w : list nat) (c : gmap nat call) : gmap nat call :=
  map_imap (λ u x, Some (if decide (u ∈ w) then mkCall (ca_unregister x) true (ca_calling x) else x)) c.
Definition set_calling (t : nat) (k : option key) (c : gmap nat call) : gmap nat call :=
  alter (λ x, mkCall (ca_unregister x) (ca_unregistered x) k) t c.

Definition finish_segment (t : nat) (o : list service * option key * list nat) (s : polling) : polling :=
  let '(l, k, w) := o in mkPolling l (set_calling t k (wake w (po_calls s))).

Inductive step : polling → polling → Prop :=
  | step_register s k : step s (mkPolling (nanos6_register_polling_service k (po_services s)) (po_calls s))
  | step_unregister s u k l :
      po_calls s !! u = None → nanos6_unregister_polling_service u k (po_services s) = Some l →
      step s (mkPolling l (<[u := mkCall (Some k) false None]> (po_calls s)))
  | step_unregistered s u k :
      po_calls s !! u = Some (mkCall (Some k) true None) → step s (mkPolling (po_services s) (delete u (po_calls s)))
  | step_handle s t :
      po_calls s !! t = None →
      step s (finish_segment t (traverse (po_services s))
        (mkPolling (po_services s) (<[t := mkCall None false None]> (po_calls s))))
  | step_handled s t :
      po_calls s !! t = Some (mkCall None false None) → step s (mkPolling (po_services s) (delete t (po_calls s)))
  | step_again s t k :
      po_calls s !! t = Some (mkCall (Some k) false None) →
      step s (finish_segment t (traverse (po_services s)) s)
  | step_returns s t x k unregister o :
      po_calls s !! t = Some x → ca_calling x = Some k → resume k unregister (po_services s) = Some o →
      step s (finish_segment t o s).

(** ** The services by their keys *)

Fixpoint status (k : key) (l : list service) : option (bool * option nat) :=
  match l with
  | [] => None
  | s :: l' => if decide (sv_key s = k) then Some (sv_processing s, sv_discard s) else status k l'
  end.

Notation keys l := (sv_key <$> l).

Lemma status_None k l : status k l = None ↔ k ∉ keys l.
Proof.
  induction l as [|s l IH]; cbn; [set_solver|]. rewrite elem_of_cons. case_decide; naive_solver.
Qed.

Lemma status_Some k l x : status k l = Some x → k ∈ keys l.
Proof. intros Hs. destruct (decide (k ∈ keys l)) as [|Hn]; [done|]. apply status_None in Hn. congruence. Qed.

Lemma status_update j k f l :
  (∀ s, sv_key (f s) = sv_key s) →
  status j (update k f l) =
  if decide (j = k) then (λ x, let s := f (mkService k x.1 x.2) in (sv_processing s, sv_discard s)) <$> status j l else status j l.
Proof.
  intros Hf. induction l as [|s l IH]; cbn; [by case_decide|]. unfold update in IH. rewrite IH. clear IH.
  repeat (case_decide; subst; cbn); rewrite ?Hf in *; try done. by destruct s.
Qed.

Lemma keys_update k f l : (∀ s, sv_key (f s) = sv_key s) → keys (update k f l) = keys l.
Proof. intros Hf. unfold update. rewrite <- list_fmap_compose. apply list_fmap_ext. intros i s _. cbn. case_decide; [apply Hf|done]. Qed.

Lemma key_lt_irrefl k : key_lt k k = false.
Proof. unfold key_lt. by rewrite Z.ltb_irrefl, Z.gtb_ltb, Z.ltb_irrefl, Z.ltb_irrefl, Z.gtb_ltb, Z.ltb_irrefl. Qed.

Lemma key_lt_trans a b c : key_lt a b = true → key_lt b c = true → key_lt a c = true.
Proof. unfold key_lt. destruct a, b, c. cbn. repeat case_match; lia. Qed.

Lemma key_lt_total a b : key_lt a b = false → key_lt b a = false → a = b.
Proof. unfold key_lt. destruct a, b. cbn. repeat case_match; try done; intros; f_equal; lia. Qed.

(** The order of the map. *)
Definition sorted (l : list service) : Prop := StronglySorted (λ a b, key_lt a b = true) (keys l).

Lemma sorted_nodup l : sorted l → NoDup (keys l).
Proof.
  unfold sorted. generalize (keys l) as ks. induction 1 as [|k ks Hs IH Hf]; constructor; [|done]. intros Hk.
  rewrite Forall_forall in Hf. specialize (Hf k Hk). by rewrite key_lt_irrefl in Hf.
Qed.

Lemma emplace_keys k l l' new : emplace k l = (l', new) → ∀ j, j ∈ keys l' ↔ j = k ∨ j ∈ keys l.
Proof.
  revert l' new. induction l as [|s l IH]; cbn; intros l' new He j; [injection He as <- <-; set_solver|].
  destruct (key_lt (sv_key s) k) eqn:H1.
  - destruct (emplace k l) as [r b] eqn:Hr. injection He as <- <-. cbn. rewrite !elem_of_cons, (IH _ _ eq_refl). naive_solver.
  - destruct (key_lt k (sv_key s)) eqn:H2; injection He as <- <-; cbn; [set_solver|].
    rewrite (key_lt_total _ _ H1 H2). set_solver.
Qed.

Lemma emplace_sorted k l l' new : sorted l → emplace k l = (l', new) → sorted l'.
Proof.
  unfold sorted. revert l' new. induction l as [|s l IH]; intros l' new Hs He; cbn in *.
  - injection He as <- <-. repeat constructor.
  - apply StronglySorted_inv in Hs as [Hs Hf]. destruct (key_lt (sv_key s) k) eqn:H1.
    + destruct (emplace k l) as [r b] eqn:Hr. injection He as <- <-. cbn. constructor; [by eapply IH|].
      apply Forall_forall. intros j [->|Hj]%(emplace_keys _ _ _ _ Hr); [done|]. by eapply Forall_forall in Hf.
    + destruct (key_lt k (sv_key s)) eqn:H2; injection He as <- <-; cbn; [|by constructor].
      constructor; [by constructor|]. constructor; [done|]. eapply Forall_impl; [exact Hf|]. intros j. by apply key_lt_trans.
Qed.

Lemma emplace_status k l l' new j :
  emplace k l = (l', new) → j ≠ k → status j l' = status j l.
Proof.
  revert l' new. induction l as [|s l IH]; intros l' new He Hne; cbn in *; [injection He as <- <-; cbn; by rewrite decide_False|].
  destruct (key_lt (sv_key s) k) eqn:H1.
  - destruct (emplace k l) as [r b] eqn:Hr. injection He as <- <-. cbn. by rewrite (IH _ _ eq_refl).
  - destruct (key_lt k (sv_key s)) eqn:H2; injection He as <- <-; [|done]. cbn. by rewrite decide_False.
Qed.

Lemma emplace_self k l l' new :
  sorted l → emplace k l = (l', new) →
  (new = true ∧ status k l = None ∧ status k l' = Some (false, None)) ∨ (new = false ∧ l' = l ∧ status k l ≠ None).
Proof.
  unfold sorted. revert l' new. induction l as [|s l IH]; intros l' new Hs He; cbn in *.
  - left. injection He as <- <-. cbn. by rewrite decide_True.
  - apply StronglySorted_inv in Hs as [Hs Hf]. destruct (key_lt (sv_key s) k) eqn:H1.
    + destruct (emplace k l) as [r b] eqn:Hr. injection He as <- <-. cbn.
      assert (sv_key s ≠ k) by (intros <-; by rewrite key_lt_irrefl in H1). rewrite !decide_False by done.
      destruct (IH _ _ Hs eq_refl) as [?|(-> & -> & ?)]; [by left|by right].
    + destruct (key_lt k (sv_key s)) eqn:H2; injection He as <- <-; cbn.
      * left. split; [done|]. rewrite (decide_True (P := k = k)) by done. split; [|done].
        rewrite decide_False by (intros <-; by rewrite key_lt_irrefl in H2). apply status_None. intros Hk.
        eapply Forall_forall in Hf; [|done]. pose proof (key_lt_trans _ _ _ H2 Hf) as Hc. by rewrite key_lt_irrefl in Hc.
      * right. split_and!; [done|done|]. by rewrite decide_True by (by apply key_lt_total).
Qed.


(** ** What a traversal does to a service *)

(** From the state of a service before a stretch of a traversal to its state after it, given the
    service that is called next and the flags that are set. *)
Inductive change (next : option key) (w : list nat) (j : key) : option (bool * option nat) → option (bool * option nat) → Prop :=
  | change_same o : next ≠ Some j → change next w j o o
  | change_erased u : next ≠ Some j → u ∈ w → change next w j (Some (false, Some u)) None
  | change_called : next = Some j → change next w j (Some (false, None)) (Some (true, None)).

Definition erases (l r : list service) (u : nat) : Prop :=
  ∃ j, status j l = Some (false, Some u) ∧ status j r = None.

Record traversed (l r : list service) (next : option key) (w : list nat) : Prop := {
  tr_keys : keys r `sublist_of` keys l;
  tr_change : ∀ j, change next w j (status j l) (status j r);
  tr_flags : ∀ u, u ∈ w → erases l r u;
}.

Lemma change_wake next w w' j o o' : w ⊆ w' → change next w j o o' → change next w' j o o'.
Proof. intros Hw [] ; [by apply change_same|apply change_erased; set_solver|by apply change_called]. Qed.

Lemma change_inv next w j o o' :
  change next w j o o' →
  next ≠ Some j ∧ o' = o ∨
  next ≠ Some j ∧ o' = None ∧ (∃ u, u ∈ w ∧ o = Some (false, Some u)) ∨
  next = Some j ∧ o = Some (false, None) ∧ o' = Some (true, None).
Proof. destruct 1; naive_solver. Qed.

Lemma traverse_spec l r next w : NoDup (keys l) → traverse l = (r, next, w) → traversed l r next w.
Proof.
  revert r next w. induction l as [|s l IH]; cbn; intros r next w Hd Ht.
  { injection Ht as <- <- <-. split; [done|by constructor|set_solver]. }
  apply NoDup_cons in Hd as [Hs Hd]. destruct (sv_processing s) eqn:Hp; [|destruct (sv_discard s) as [u|] eqn:Hu].
  - destruct (traverse l) as [[r' next'] w'] eqn:Hr. injection Ht as <- <- <-.
    destruct (IH _ _ _ Hd eq_refl) as [H1 H2 H3]. split.
    + cbn. by apply sublist_skip.
    + intros j. cbn. case_decide as Hj; [|apply H2]. apply change_same. intros ->. subst j.
      specialize (H2 (sv_key s)). apply status_None in Hs. rewrite Hs in H2. inversion H2; naive_solver.
    + intros v (j & Hj & Hn)%H3. exists j. cbn.
      rewrite !decide_False by (intros <-; by apply Hs, (status_Some _ _ _ Hj)). done.
  - destruct (traverse l) as [[r' next'] w'] eqn:Hr. injection Ht as <- <- <-.
    destruct (IH _ _ _ Hd eq_refl) as [H1 H2 H3].
    assert (status (sv_key s) r' = None) as Hn by (apply status_None; intros Hk; by eapply Hs, elem_of_sublist).
    split.
    + cbn. by apply sublist_cons.
    + intros j. cbn. case_decide as Hj; [subst j|eapply change_wake; [|apply H2]; set_solver].
      rewrite Hn, Hp, Hu. apply change_erased; [|set_solver]. intros ->.
      specialize (H2 (sv_key s)). apply status_None in Hs. rewrite Hs in H2. inversion H2; naive_solver.
    + intros v [->|(j & Hj & Hn')%H3]%elem_of_cons.
      * exists (sv_key s). cbn. by rewrite decide_True, Hp, Hu.
      * exists j. cbn. rewrite decide_False; [done|]. intros <-. by apply Hs, (status_Some _ _ _ Hj).
  - injection Ht as <- <- <-. split; [done| |set_solver]. intros j. cbn. case_decide as Hj.
    + rewrite Hp, Hu. subst j. by apply change_called.
    + apply change_same. congruence.
Qed.

(** The service that was called stays or is erased, and the ones after it are traversed. *)
Record resumed (k : key) (unregister : bool) (d : option nat) (l r : list service) (next : option key) (w : list nat) : Prop := {
  re_keys : keys r `sublist_of` keys l;
  re_change : ∀ j, j ≠ k → change next w j (status j l) (status j r);
  re_self : status k r = if unregister || bool_decide (is_Some d) then None else Some (false, None);
  re_next : next ≠ Some k;
  re_flag : ∀ u, d = Some u → u ∈ w;
  re_flags : ∀ u, u ∈ w → d = Some u ∨ erases l r u;
}.

Lemma resume_spec k unregister d l :
  NoDup (keys l) → status k l = Some (true, d) →
  ∃ r next w, resume k unregister l = Some (r, next, w) ∧ resumed k unregister d l r next w.
Proof.
  induction l as [|s l IH]; cbn; intros Hd Hs; [done|]. apply NoDup_cons in Hd as [Hk Hd].
  case_decide as He.
  - injection Hs as Hp Hdis. subst k. rewrite Hp. destruct (traverse l) as [[r next] w] eqn:Hr.
    destruct (traverse_spec _ _ _ _ Hd Hr) as [H1 H2 H3]. apply status_None in Hk.
    assert (next ≠ Some (sv_key s)) as Hnext.
    { intros ->. specialize (H2 (sv_key s)). rewrite Hk in H2. inversion H2; naive_solver. }
    assert (status (sv_key s) r = None) as Hn.
    { apply status_None. intros Hin. apply status_None in Hk. by eapply Hk, elem_of_sublist. }
    assert (∀ u, u ∈ w → ∀ q, (∀ j, j ≠ sv_key s → status j q = status j r) → erases (s :: l) q u) as Hw.
    { intros u (j & Hj & Hj')%H3 q Hq. exists j. assert (j ≠ sv_key s) by (intros ->; congruence). cbn.
      rewrite decide_False by done. by rewrite Hq. }
    rewrite Hdis. destruct d as [u|]; [|destruct unregister]; cbn; eexists _, _, _; (split; [done|]); split; cbn; try done.
    + by apply sublist_cons.
    + intros j Hj. rewrite decide_False by done. eapply change_wake; [|apply H2]. set_solver.
    + rewrite orb_true_r. done.
    + intros v [= ->]. set_solver.
    + intros v [->|Hv]%elem_of_cons; [by left|]. right. by apply Hw.
    + by apply sublist_cons.
    + intros j Hj. rewrite decide_False by done. apply H2.
    + intros v Hv. right. by apply Hw.
    + by apply sublist_skip.
    + intros j Hj. rewrite !decide_False by done. apply H2.
    + by rewrite decide_True, Hdis.
    + intros v Hv. right. apply Hw; [done|]. intros j Hj. cbn. by rewrite decide_False.
  - destruct (IH Hd Hs) as (r & next & w & Hr & [H1 H2 H3 H4 H5 H6]). rewrite Hr. cbn. eexists _, _, _. split; [done|].
    assert (∀ j x, status j l = Some x → sv_key s ≠ j) as Hne by (intros j x Hj <-; by apply Hk, (status_Some _ _ _ Hj)).
    split; cbn; try done.
    + by apply sublist_skip.
    + intros j Hj. case_decide as Hsj; [|by apply H2]. apply change_same. intros ->. subst j.
      specialize (H2 (sv_key s) Hj). apply status_None in Hk. rewrite Hk in H2. inversion H2; naive_solver.
    + by rewrite decide_False.
    + intros v [Hv|(j & Hj & Hj')]%H6; [by left|right]. exists j. cbn. specialize (Hne _ _ Hj). by rewrite !decide_False.
Qed.


(** ** The invariant *)

(** Each service that is processed is called by one call, and the flag by which a service is to be
    discarded belongs to a call that waits for it. *)
Record inv (s : polling) : Prop := {
  pi_sorted : sorted (po_services s);
  pi_calling : ∀ t x k, po_calls s !! t = Some x → ca_calling x = Some k → ∃ d, status k (po_services s) = Some (true, d);
  pi_one : ∀ t t' x x' k, po_calls s !! t = Some x → ca_calling x = Some k →
    po_calls s !! t' = Some x' → ca_calling x' = Some k → t = t';
  pi_processing : ∀ k d, status k (po_services s) = Some (true, d) → ∃ t x, po_calls s !! t = Some x ∧ ca_calling x = Some k;
  pi_discard : ∀ k b u, status k (po_services s) = Some (b, Some u) → ∃ c, po_calls s !! u = Some (mkCall (Some k) false c);
}.

Lemma sorted_sublist l r : keys r `sublist_of` keys l → sorted l → sorted r.
Proof.
  unfold sorted. generalize (keys l) as ks, (keys r) as kr. intros ks kr Hsub.
  induction Hsub as [|k kr ks Hsub IH|k kr ks Hsub IH]; intros Hs; [done|..]; apply StronglySorted_inv in Hs as [Hs Hf].
  - constructor; [by apply IH|]. apply Forall_forall. intros j Hj. eapply Forall_forall in Hf; [done|]. by eapply elem_of_sublist.
  - by apply IH.
Qed.

Lemma lookup_segment t next w c v y :
  set_calling t next (wake w c) !! v = Some y ↔
  ∃ x, c !! v = Some x ∧
    y = mkCall (ca_unregister x) (ca_unregistered x || bool_decide (v ∈ w)) (if decide (v = t) then next else ca_calling x).
Proof.
  rewrite <- (fmap_Some (λ x, mkCall (ca_unregister x) (ca_unregistered x || bool_decide (v ∈ w)) (if decide (v = t) then next else ca_calling x))).
  match goal with |- ?a = _ ↔ ?b = _ => enough (a = b) as -> by done end. unfold set_calling, wake. rewrite lookup_alter, !map_lookup_imap.
  destruct (decide (t = v)) as [->|Hne].
  - destruct (c !! v) as [[a b d]|]; [|done]. cbn. rewrite (decide_True (P := v = v)) by done.
    destruct (decide (v ∈ w)); cbn; by rewrite ?bool_decide_true, ?bool_decide_false, ?orb_true_r, ?orb_false_r by done.
  - destruct (c !! v) as [[a b d]|]; [|done]. cbn. rewrite (decide_False (P := v = t)) by done.
    destruct (decide (v ∈ w)); cbn; by rewrite ?bool_decide_true, ?bool_decide_false, ?orb_true_r, ?orb_false_r by done.
Qed.


Section segment.
Context (s : polling) (Hi : inv s) (t : nat) (x : call) (Hx : po_calls s !! t = Some x).
Context (r : list service) (next : option key) (w : list nat).
Context (Hkeys : keys r `sublist_of` keys (po_services s)).
(** The service that the call had called, if any, and the other ones. *)
Context (Hchange : ∀ j, ca_calling x ≠ Some j → change next w j (status j (po_services s)) (status j r)).
Context (Hself : ∀ k d, ca_calling x = Some k → status k (po_services s) = Some (true, d) →
  next ≠ Some k ∧ (status k r = None ∨ d = None ∧ status k r = Some (false, None))).
Context (Hflags : ∀ u, u ∈ w →
  (∃ k, ca_calling x = Some k ∧ status k (po_services s) = Some (true, Some u) ∧ status k r = None) ∨ erases (po_services s) r u).

Lemma next_called k : next = Some k → ca_calling x ≠ Some k ∧ status k (po_services s) = Some (false, None) ∧ status k r = Some (true, None).
Proof.
  intros Hn. assert (ca_calling x ≠ Some k) as Hne.
  { intros Hc. destruct (pi_calling _ Hi t x k Hx Hc) as [d Hd]. by destruct (Hself k d Hc Hd). }
  specialize (Hchange k Hne). inversion Hchange; naive_solver.
Qed.

(** A service that another call processes stays as it is. *)
Lemma other_stays k d : ca_calling x ≠ Some k → status k (po_services s) = Some (true, d) → status k r = Some (true, d).
Proof. intros Hne Hs. specialize (Hchange k Hne). rewrite Hs in Hchange. by inversion Hchange. Qed.

(** A flag that is set belongs to a call whose service is gone. *)
Lemma flag_erased u : u ∈ w → ∃ k c, po_calls s !! u = Some (mkCall (Some k) false c) ∧ status k r = None.
Proof.
  intros [(k & _ & Hk & Hr)|(k & Hk & Hr)]%Hflags; exists k; destruct (pi_discard _ Hi _ _ _ Hk) as [c Hc]; by exists c.
Qed.

Lemma inv_segment : inv (mkPolling r (set_calling t next (wake w (po_calls s)))).
Proof.
  split; cbn.
  - by eapply sorted_sublist, Hi.
  - intros v y k (z & Hz & ->)%lookup_segment Hk. cbn in Hk. case_decide as Hv.
    + subst v. destruct (next_called k Hk) as (_ & _ & Hr). by exists None.
    + destruct (pi_calling _ Hi v z k Hz Hk) as [d Hd]. exists d. apply other_stays; [|done].
      intros Hc. by apply Hv, (pi_one _ Hi v t z x k).
  - intros v v' y y' k (z & Hz & ->)%lookup_segment Hk (z' & Hz' & ->)%lookup_segment Hk'. cbn in *.
    assert (∀ a b, po_calls s !! a = Some b → ca_calling b = Some k → next = Some k → False) as Hno.
    { intros a b Hab Hb Hn. destruct (next_called k Hn) as (_ & Hs & _).
      destruct (pi_calling _ Hi a b k Hab Hb) as [d Hd]. congruence. }
    destruct (decide (v = t)) as [->|H1], (decide (v' = t)) as [->|H2]; [done|by destruct (Hno v' z')|by destruct (Hno v z)|].
    by apply (pi_one _ Hi v v' z z' k).
  - intros k d Hr. destruct (decide (ca_calling x = Some k)) as [Hc|Hc].
    { destruct (pi_calling _ Hi t x k Hx Hc) as [d' Hd]. destruct (Hself k d' Hc Hd) as [_ [Hn|[_ Hn]]]; congruence. }
    destruct (change_inv _ _ _ _ _ (Hchange k Hc)) as [[_ Ho]|[(_ & Ho & _)|(Hn & _ & _)]].
    + destruct (pi_processing _ Hi k d) as (v & y & Hv & Hy); [by rewrite <- Ho|].
      eexists v, _. rewrite lookup_segment. split; [by exists y|]. cbn. rewrite decide_False; [done|]. intros ->. congruence.
    + congruence.
    + eexists t, _. rewrite lookup_segment. split; [by exists x|]. cbn. by rewrite decide_True.
  - intros k b u Hr. destruct (decide (ca_calling x = Some k)) as [Hc|Hc].
    { destruct (pi_calling _ Hi t x k Hx Hc) as [d' Hd]. destruct (Hself k d' Hc Hd) as [_ [Hn|[_ Hn]]]; congruence. }
    destruct (change_inv _ _ _ _ _ (Hchange k Hc)) as [[_ Ho]|[(_ & Ho & _)|(Hn & _ & Ho)]]; [|congruence..].
    destruct (pi_discard _ Hi k b u) as [c Hcall]; [by rewrite <- Ho|].
    assert (u ∉ w) as Hu.
    { intros (k' & c' & Hcall' & Hk')%flag_erased. rewrite Hcall in Hcall'. injection Hcall' as <- <-. congruence. }
    eexists. rewrite lookup_segment. eexists. split; [done|]. cbn. by rewrite bool_decide_false.
Qed.
End segment.

Lemma inv_traverse s t x :
  inv s → po_calls s !! t = Some x → ca_calling x = None → inv (finish_segment t (traverse (po_services s)) s).
Proof.
  intros Hi Hx Hc. destruct (traverse (po_services s)) as [[r next] w] eqn:Ht.
  destruct (traverse_spec _ _ _ _ (sorted_nodup _ (pi_sorted _ Hi)) Ht) as [H1 H2 H3].
  apply (inv_segment s Hi t x Hx); [done|intros j _; apply H2|intros k d Hk; congruence|intros u Hu; right; by apply H3].
Qed.

(** The iterator that a call keeps stays valid: the traversal can go on. *)
Lemma resumes s t x k unregister :
  inv s → po_calls s !! t = Some x → ca_calling x = Some k →
  ∃ d r next w, resume k unregister (po_services s) = Some (r, next, w) ∧
    status k (po_services s) = Some (true, d) ∧ resumed k unregister d (po_services s) r next w.
Proof.
  intros Hi Hx Hk. destruct (pi_calling _ Hi t x k Hx Hk) as [d Hd].
  destruct (resume_spec k unregister d _ (sorted_nodup _ (pi_sorted _ Hi)) Hd) as (r & next & w & Hr & Hres).
  by exists d, r, next, w.
Qed.

Lemma polling_inv_resume s t x k unregister o :
  inv s → po_calls s !! t = Some x → ca_calling x = Some k → resume k unregister (po_services s) = Some o →
  inv (finish_segment t o s).
Proof.
  intros Hi Hx Hk Hr. destruct (resumes s t x k unregister Hi Hx Hk) as (d & r & next & w & Hr' & Hd & [H1 H2 H3 H4 H5 H6]).
  rewrite Hr in Hr'. injection Hr' as ->. apply (inv_segment s Hi t x Hx); [done|..].
  - intros j Hj. apply H2. congruence.
  - intros k' d' Hk' Hd'. rewrite Hk in Hk'. injection Hk' as <-. split; [done|]. rewrite H3.
    destruct unregister; [by left|]. rewrite Hd in Hd'. injection Hd' as <-. destruct d; [by left|by right].
  - intros u [Hu|Hu]%H6; [left|by right]. exists k. rewrite H3, Hd, Hu. split_and!; [done|done|].
    by rewrite bool_decide_true, orb_true_r.
Qed.


(** ** Registration and unregistration *)

Lemma register_status k l j :
  sorted l →
  status j (nanos6_register_polling_service k l) =
  if decide (j = k) then Some (if status k l is Some (b, _) then b else false, None) else status j l.
Proof.
  intros Hs. unfold nanos6_register_polling_service. destruct (emplace k l) as [l' new] eqn:He.
  destruct (decide (j = k)) as [->|Hne].
  - destruct (emplace_self k l l' new Hs He) as [(-> & Hn & Hk)|(-> & -> & Hk)]; [by rewrite Hn|].
    rewrite status_update by done. rewrite decide_True by done. destruct (status k l) as [[b d]|]; done.
  - rewrite <- (emplace_status k l l' new j He Hne). destruct new; [done|].
    rewrite status_update by done. by rewrite decide_False.
Qed.

Lemma register_sorted k l : sorted l → sorted (nanos6_register_polling_service k l).
Proof.
  intros Hs. unfold nanos6_register_polling_service. destruct (emplace k l) as [l' new] eqn:He.
  pose proof (emplace_sorted k l l' new Hs He) as Hs'. destruct new; [done|]. unfold sorted. by rewrite keys_update.
Qed.

Lemma unregister_find k l :
  (∃ x, list_find (λ s, sv_key s = k) l = Some x ∧ status k l = Some (sv_processing x.2, sv_discard x.2)) ∨
  list_find (λ s, sv_key s = k) l = None.
Proof.
  induction l as [|s l IH]; cbn; [by right|]. case_decide as Hk; [left; by eexists|].
  destruct IH as [(x & Hx & Hs)|Hn]; [left|right; by rewrite Hn]. rewrite Hx. cbn. eexists. split; [done|]. by destruct x.
Qed.

Lemma unregister_status u k l l' :
  nanos6_unregister_polling_service u k l = Some l' →
  keys l' = keys l ∧ (∃ b, status k l = Some (b, None) ∧ status k l' = Some (b, Some u)) ∧ ∀ j, j ≠ k → status j l' = status j l.
Proof.
  unfold nanos6_unregister_polling_service. intros Hu. destruct (unregister_find k l) as [(x & Hx & Hs)|Hn]; [|by rewrite Hn in Hu].
  rewrite Hx in Hu. cbn in Hu. destruct (sv_discard x.2) as [v|] eqn:Hd; [done|]. injection Hu as <-. split_and!.
  - by apply keys_update.
  - exists (sv_processing x.2). split; [done|]. rewrite status_update by done. rewrite decide_True by done. by rewrite Hs.
  - intros j Hj. rewrite status_update by done. by rewrite decide_False.
Qed.

Lemma inv_register s k : inv s → inv (mkPolling (nanos6_register_polling_service k (po_services s)) (po_calls s)).
Proof.
  intros Hi. pose proof (λ j, register_status k (po_services s) j (pi_sorted _ Hi)) as Hst. split; cbn.
  - by apply register_sorted, Hi.
  - intros t x j Hx Hj. destruct (pi_calling _ Hi t x j Hx Hj) as [d Hd]. rewrite Hst. case_decide; [|by exists d].
    subst j. rewrite Hd. by exists None.
  - apply Hi.
  - intros j d. rewrite Hst. case_decide; [|apply Hi]. subst j. intros [= Hb _]. destruct (status k _) as [[b e]|] eqn:Hk; [|done].
    subst b. by eapply pi_processing.
  - intros j b u. rewrite Hst. case_decide; [done|]. apply Hi.
Qed.

Lemma inv_unregister s u k l :
  inv s → po_calls s !! u = None → nanos6_unregister_polling_service u k (po_services s) = Some l →
  inv (mkPolling l (<[u := mkCall (Some k) false None]> (po_calls s))).
Proof.
  intros Hi Hu (Hk & (b & Hb & Hb') & Ho)%unregister_status. split; cbn.
  - unfold sorted. rewrite Hk. apply Hi.
  - intros t x j [[<- <-]|[_ Hx]]%lookup_insert_Some Hj; [done|]. destruct (pi_calling _ Hi t x j Hx Hj) as [d Hd].
    destruct (decide (j = k)) as [->|Hne]; [|rewrite Ho by done; by exists d]. rewrite Hb' . exists (Some u). congruence.
  - intros t t' x x' j [[<- <-]|[_ Hx]]%lookup_insert_Some Hj [[<- <-]|[_ Hx']]%lookup_insert_Some Hj'; [done..|].
    by eapply pi_one.
  - intros j d Hj. assert (∃ d', status j (po_services s) = Some (true, d')) as [d' Hd].
    { destruct (decide (j = k)) as [->|Hne]; [exists None; congruence|exists d; by rewrite <- Ho]. }
    destruct (pi_processing _ Hi j d' Hd) as (t & x & Ht & Hx). exists t, x. split; [|done].
    rewrite lookup_insert_ne; [done|]. intros <-. congruence.
  - intros j b' v Hj. destruct (decide (j = k)) as [->|Hne].
    + rewrite Hb' in Hj. injection Hj as <- <-. rewrite lookup_insert_eq. by eexists.
    + rewrite Ho in Hj by done. destruct (pi_discard _ Hi _ _ _ Hj) as [c Hc]. exists c.
      rewrite lookup_insert_ne; [done|]. intros <-. congruence.
Qed.

(** A call that is not in a service and that no service names comes and goes. *)
Lemma inv_calls s u c :
  inv s → (∀ v, v ≠ u → c !! v = po_calls s !! v) → (∀ x, c !! u = Some x → ca_calling x = None) →
  (∀ x, po_calls s !! u = Some x → ca_calling x = None ∧ ∀ k, x ≠ mkCall (Some k) false None) → inv (mkPolling (po_services s) c).
Proof.
  intros Hi Hc Hu Hold. assert (∀ v x k, c !! v = Some x → ca_calling x = Some k → po_calls s !! v = Some x) as Hin.
  { intros v x k Hv Hx. destruct (decide (v = u)) as [->|Hne]; [rewrite Hu in Hx; done|by rewrite <- Hc]. }
  split; cbn.
  - apply Hi.
  - intros t x k Ht Hx. apply (pi_calling _ Hi t x k); eauto.
  - intros t t' x x' k Ht Hx Ht' Hx'. apply (pi_one _ Hi t t' x x' k); eauto.
  - intros k d Hd. destruct (pi_processing _ Hi k d Hd) as (t & x & Ht & Hx). exists t, x. split; [|done].
    rewrite Hc; [done|]. intros ->. destruct (Hold x Ht) as [Hn _]. congruence.
  - intros k b v Hv. destruct (pi_discard _ Hi k b v Hv) as [o Ho]. exists o. rewrite Hc; [done|]. intros ->.
    destruct (Hold _ Ho) as [Hn Hne]. cbn in Hn. subst o. by destruct (Hne k).
Qed.

Lemma polling_inv_step s s' : inv s → step s s' → inv s'.
Proof.
  intros Hi Hs. destruct Hs as [s k|s u k l Hu Hl|s u k Hu|s t Ht|s t Ht|s t k Ht|s t x k b o Ht Hk Hr].
  - by apply inv_register.
  - by apply inv_unregister.
  - apply (inv_calls s u); [done|intros v Hv; by rewrite lookup_delete_ne|by rewrite lookup_delete_eq|].
    rewrite Hu. by intros x [= <-].
  - set (s' := mkPolling _ _). apply (inv_traverse s' t (mkCall None false None)); [|cbn; by rewrite lookup_insert_eq|done].
    apply (inv_calls s t); [done|intros v Hv; by rewrite lookup_insert_ne| |by rewrite Ht].
    rewrite lookup_insert_eq. by intros x [= <-].
  - apply (inv_calls s t); [done|intros v Hv; by rewrite lookup_delete_ne|by rewrite lookup_delete_eq|].
    rewrite Ht. by intros x [= <-].
  - by eapply inv_traverse.
  - by eapply polling_inv_resume.
Qed.

Lemma polling_inv_reachable s : rtc step no_services s → inv s.
Proof.
  intros Hs. assert (inv no_services) as Hi by (split; cbn; [constructor|done..]).
  induction Hs; eauto using polling_inv_step.
Qed.


(** ** What the interface guarantees *)

(** The flag of a call is set. *)
Definition flagged (u : nat) (s : polling) : bool := if po_calls s !! u is Some x then ca_unregistered x else false.

(** The flags that a stretch of a traversal sets. *)
Lemma flagged_segment s t l next w u :
  flagged u (finish_segment t (l, next, w) s) = true → flagged u s = false → u ∈ w.
Proof.
  unfold flagged. cbn. destruct (set_calling _ _ _ !! u) as [y|] eqn:Hy; [|done].
  apply lookup_segment in Hy as (x & Hx & ->). rewrite Hx. cbn. intros [Hu|Hu]%orb_true_iff Hf; [congruence|].
  by apply bool_decide_eq_true in Hu.
Qed.

Lemma segment_unregistered s t x r next w u :
  inv s → po_calls s !! t = Some x → inv (finish_segment t (r, next, w) s) →
  (∀ v, v ∈ w → ∃ k c, po_calls s !! v = Some (mkCall (Some k) false c) ∧ status k r = None) →
  flagged u s = false → flagged u (finish_segment t (r, next, w) s) = true →
  ∃ k y, po_calls s !! u = Some y ∧ ca_unregister y = Some k ∧ status k r = None ∧
    ∀ v z, po_calls (finish_segment t (r, next, w) s) !! v = Some z → ca_calling z ≠ Some k.
Proof.
  intros Hi Hx Hi' Hw Hf Hf'. pose proof (flagged_segment s t r next w u Hf' Hf) as (k & c & Hc & Hk)%Hw.
  exists k, (mkCall (Some k) false c). split_and!; [done|done|done|]. intros v z Hz Hvk.
  destruct (pi_calling _ Hi' v z k Hz Hvk) as [d Hd]. cbn in Hd. congruence.
Qed.

Lemma flags_of_traverse s v :
  inv s → let '(r, _, w) := traverse (po_services s) in
  v ∈ w → ∃ k c, po_calls s !! v = Some (mkCall (Some k) false c) ∧ status k r = None.
Proof.
  intros Hi. destruct (traverse (po_services s)) as [[r next] w] eqn:Ht.
  destruct (traverse_spec _ _ _ _ (sorted_nodup _ (pi_sorted _ Hi)) Ht) as [_ _ H3].
  intros (k & Hk & Hr)%H3. exists k. destruct (pi_discard _ Hi _ _ _ Hk) as [c Hc]. by exists c.
Qed.

(** When the flag of a call is set, its service is no longer there and nobody is in it. *)
Lemma unregistered_step s s' u :
  inv s → step s s' → flagged u s = false → flagged u s' = true →
  ∃ k y, po_calls s !! u = Some y ∧ ca_unregister y = Some k ∧ status k (po_services s') = None ∧
    ∀ v z, po_calls s' !! v = Some z → ca_calling z ≠ Some k.
Proof.
  intros Hi Hs Hf Hf'. pose proof (polling_inv_step _ _ Hi Hs) as Hi'.
  destruct Hs as [s k|s v k l Hv Hl|s v k Hv|s t Ht|s t Ht|s t k Ht|s t x k b o Ht Hk Hr].
  - unfold flagged in *. cbn in *. congruence.
  - unfold flagged in *. cbn in *. destruct (decide (u = v)) as [->|]; [by rewrite lookup_insert_eq in Hf'|].
    rewrite lookup_insert_ne in Hf' by done. congruence.
  - unfold flagged in *. cbn in *. destruct (decide (u = v)) as [->|]; [by rewrite lookup_delete_eq in Hf'|].
    rewrite lookup_delete_ne in Hf' by done. congruence.
  - set (s1 := mkPolling (po_services s) (<[t := mkCall None false None]> (po_calls s))) in *.
    assert (inv s1) as Hi1.
    { apply (inv_calls s t); [done|intros v Hv; by rewrite lookup_insert_ne| |by rewrite Ht].
      rewrite lookup_insert_eq. by intros x [= <-]. }
    pose proof (λ v, flags_of_traverse s1 v Hi1) as Hw. cbn in Hw.
    destruct (traverse (po_services s)) as [[r next] w]. assert (flagged u s1 = false) as Hf1.
    { unfold flagged, s1. cbn. destruct (decide (u = t)) as [->|]; [by rewrite lookup_insert_eq|by rewrite lookup_insert_ne]. }
    assert (po_calls s1 !! t = Some (mkCall None false None)) as Ht1 by (cbn; by rewrite lookup_insert_eq).
    destruct (segment_unregistered s1 t _ r next w u Hi1 Ht1 Hi' Hw Hf1 Hf') as (k & y & Hy & Hk & Hrest).
    exists k, y. split; [|done]. cbn in Hy. apply lookup_insert_Some in Hy as [[_ <-]|[_ Hy]]; done.
  - unfold flagged in *. cbn in *. destruct (decide (u = t)) as [->|]; [by rewrite lookup_delete_eq in Hf'|].
    rewrite lookup_delete_ne in Hf' by done. congruence.
  - pose proof (λ v, flags_of_traverse s v Hi) as Hw. destruct (traverse (po_services s)) as [[r next] w].
    by eapply segment_unregistered.
  - destruct (resumes s t x k b Hi Ht Hk) as (d & r & next & w & Hr' & Hd & [H1 H2 H3 H4 H5 H6]).
    rewrite Hr in Hr'. injection Hr' as ->. eapply segment_unregistered; [done..| |done|done].
    intros v [Hv|(j & Hj & Hj')]%H6.
    + rewrite Hv in *. destruct (pi_discard _ Hi _ _ _ Hd) as [c Hc]. exists k, c. split; [done|]. rewrite H3.
      by rewrite bool_decide_true, orb_true_r.
    + destruct (pi_discard _ Hi _ _ _ Hj) as [c Hc]. by exists j, c.
Qed.

(** No two calls are in the same service; the iterator of a traversal is valid when the service that it
    has called returns; a flag to be set belongs to a call that still waits; and when a flag is set the
    service is gone and nobody is in it. *)
Lemma polling_safe s :
  rtc step no_services s →
  (∀ t t' x x' k, po_calls s !! t = Some x → ca_calling x = Some k → po_calls s !! t' = Some x' → ca_calling x' = Some k → t = t') ∧
  (∀ t x k unregister, po_calls s !! t = Some x → ca_calling x = Some k → is_Some (resume k unregister (po_services s))) ∧
  (∀ k b u, status k (po_services s) = Some (b, Some u) → ∃ c, po_calls s !! u = Some (mkCall (Some k) false c)) ∧
  (∀ u s', step s s' → flagged u s = false → flagged u s' = true →
     ∃ k y, po_calls s !! u = Some y ∧ ca_unregister y = Some k ∧ status k (po_services s') = None ∧
       ∀ v z, po_calls s' !! v = Some z → ca_calling z ≠ Some k).
Proof.
  intros Hi%polling_inv_reachable. split_and!.
  - apply Hi.
  - intros t x k b Hx Hk. destruct (resumes s t x k b Hi Hx Hk) as (d & r & next & w & -> & _). by eexists.
  - apply Hi.
  - intros u s'. by apply unregistered_step.
Qed.


(** ** Unregistration comes to its end *)

(** A traversal reaches a service to discard, or calls one before it. *)
Lemma traverse_reaches l r next w k u :
  status k l = Some (false, Some u) → traverse l = (r, next, w) →
  u ∈ w ∨ ∃ r1 sv r2, r = r1 ++ sv :: r2 ∧ next = Some (sv_key sv) ∧ sv_processing sv = true ∧
    status k r2 = Some (false, Some u) ∧ (length r2 < length l)%nat.
Proof.
  revert r next w. induction l as [|s l IH]; cbn; intros r next w Hk Ht; [done|].
  destruct (sv_processing s) eqn:Hp; [|destruct (sv_discard s) as [v|] eqn:Hv].
  - destruct (traverse l) as [[r' n'] w'] eqn:Hr. injection Ht as <- <- <-. case_decide; [done|].
    destruct (IH _ _ _ Hk eq_refl) as [?|(r1 & sv & r2 & -> & ? & ? & ? & ?)]; [by left|].
    right. exists (s :: r1), sv, r2. split_and!; [done..|lia].
  - destruct (traverse l) as [[r' n'] w'] eqn:Hr. injection Ht as <- <- <-. case_decide; [left; simplify_eq; set_solver|].
    destruct (IH _ _ _ Hk eq_refl) as [?|(r1 & sv & r2 & -> & ? & ? & ? & ?)]; [left; set_solver|].
    right. exists r1, sv, r2. split_and!; [done..|lia].
  - injection Ht as <- <- <-. case_decide; [done|]. right. exists [], (set_processing true s), l. split_and!; [done..|lia].
Qed.

(** How a traversal goes on after a service that returns false. *)
Lemma resume_app l1 sv l2 :
  NoDup (keys (l1 ++ sv :: l2)) → sv_processing sv = true →
  ∃ r1 w1, let '(r, next, w) := traverse l2 in resume (sv_key sv) false (l1 ++ sv :: l2) = Some (r1 ++ r, next, w1 ++ w).
Proof.
  intros Hd Hp. destruct (traverse l2) as [[r next] w] eqn:Ht. induction l1 as [|s l1 IH]; cbn in *.
  - rewrite decide_True, Hp, Ht by done. cbn. destruct (sv_discard sv) as [u|]; [by exists [], [u]|].
    by exists [set_processing false sv], [].
  - apply NoDup_cons in Hd as [Hs Hd]. destruct (IH Hd) as (r1 & w1 & Hr).
    rewrite decide_False by (intros He; apply Hs; rewrite He, fmap_app; cbn; set_solver). rewrite Hr. by exists (s :: r1), w1.
Qed.

Lemma flagged_set s t l next w u x : po_calls s !! u = Some x → u ∈ w → flagged u (finish_segment t (l, next, w) s) = true.
Proof.
  intros Hx Hu. unfold flagged. cbn. destruct (set_calling _ _ _ !! u) as [y|] eqn:Hy.
  - apply lookup_segment in Hy as (x' & _ & ->). cbn. by rewrite bool_decide_true, orb_true_r.
  - exfalso. assert (is_Some (set_calling t next (wake w (po_calls s)) !! u)) as [y Hy']; [|congruence].
    eexists. apply lookup_segment. by exists x.
Qed.

Lemma status_app k l1 l2 : status k (l1 ++ l2) = if status k l1 is Some x then Some x else status k l2.
Proof. induction l1 as [|s l1 IH]; cbn; [done|]. by case_decide. Qed.

Lemma segment_calling s t x l next w :
  po_calls s !! t = Some x →
  po_calls (finish_segment t (l, next, w) s) !! t = Some (mkCall (ca_unregister x) (ca_unregistered x || bool_decide (t ∈ w)) next).
Proof. intros Hx. apply lookup_segment. exists x. split; [done|]. by rewrite decide_True. Qed.

(** A traversal that has called a service before the one to discard comes to it. *)
Lemma traversal_ends n s t x l1 sv l2 k u :
  (length l2 < n)%nat → inv s → po_calls s !! t = Some x → ca_calling x = Some (sv_key sv) →
  po_services s = l1 ++ sv :: l2 → sv_processing sv = true → status k l2 = Some (false, Some u) →
  ∃ s', rtc step s s' ∧ flagged u s' = true.
Proof.
  revert s x l1 sv l2. induction n as [|n IH]; intros s x l1 sv l2 Hn Hi Hx Hc Hl Hp Hk; [lia|].
  pose proof (sorted_nodup _ (pi_sorted _ Hi)) as Hd. rewrite Hl in Hd.
  assert (status k (po_services s) = Some (false, Some u)) as Hks.
  { rewrite Hl, status_app. cbn. rewrite fmap_app in Hd. apply NoDup_app in Hd as (_ & H1 & H2).
    apply NoDup_cons in H2 as [H2 _]. pose proof (status_Some _ _ _ Hk) as Hkin.
    rewrite (proj2 (status_None k l1)) by (intros Hin; apply (H1 _ Hin); cbn; set_solver).
    rewrite decide_False; [done|]. by intros <-. }
  destruct (pi_discard _ Hi _ _ _ Hks) as [c Hu].
  destruct (resume_app l1 sv l2 Hd Hp) as (r1 & w1 & Hr). destruct (traverse l2) as [[r next] w] eqn:Ht. rewrite <- Hl in Hr.
  pose proof (step_returns s t x _ false _ Hx Hc Hr) as Hstep. pose proof (polling_inv_step _ _ Hi Hstep) as Hi'.
  destruct (traverse_reaches l2 r next w k u Hk Ht) as [Hw|(q1 & sv' & q2 & -> & -> & Hp' & Hk' & Hlen)].
  - eexists. split; [by apply rtc_once|]. eapply flagged_set; [done|set_solver].
  - pose proof (segment_calling s t x (r1 ++ q1 ++ sv' :: q2) (Some (sv_key sv')) (w1 ++ w) Hx) as Hx'.
    destruct (IH _ _ (r1 ++ q1) sv' q2 ltac:(lia) Hi' Hx' eq_refl ltac:(cbn; by rewrite <- app_assoc) Hp' Hk') as (s' & Hrun & Hf).
    exists s'. split; [by eapply rtc_l|done].
Qed.

(** A service that has been marked is discarded by the calls to come, and its unregistration returns. *)
Lemma unregistration_ends s k b u :
  rtc step no_services s → status k (po_services s) = Some (b, Some u) → ∃ s', rtc step s s' ∧ flagged u s' = true.
Proof.
  intros Hi%polling_inv_reachable Hk. destruct (pi_discard _ Hi _ _ _ Hk) as [c Hu]. destruct b.
  - destruct (pi_processing _ Hi _ _ Hk) as (t & x & Ht & Hx).
    destruct (resumes s t x k false Hi Ht Hx) as (d & r & next & w & Hr & Hd & Hres).
    eexists. split; [by eapply rtc_once, step_returns|]. eapply flagged_set; [done|]. eapply re_flag; [done|]. congruence.
  - set (t := fresh (dom (po_calls s))). assert (po_calls s !! t = None) as Ht by (apply not_elem_of_dom, is_fresh).
    pose proof (step_handle s t Ht) as Hstep. pose proof (polling_inv_step _ _ Hi Hstep) as Hi'.
    destruct (traverse (po_services s)) as [[r next] w] eqn:Htr.
    destruct (traverse_reaches _ r next w k u Hk Htr) as [Hw|(q1 & sv' & q2 & -> & -> & Hp' & Hk' & Hlen)].
    + eexists. split; [by apply rtc_once|]. eapply flagged_set; [|done]. cbn. rewrite lookup_insert_ne; [done|]. intros <-. congruence.
    + pose proof (segment_calling (mkPolling (po_services s) (<[t := mkCall None false None]> (po_calls s))) t _
        (q1 ++ sv' :: q2) (Some (sv_key sv')) w (lookup_insert_eq _ _ _)) as Hx'.
      destruct (traversal_ends (S (length q2)) _ t _ q1 sv' q2 k u ltac:(lia) Hi' Hx') as (s' & Hrun & Hf); try done.
      exists s'. split; [by eapply rtc_l|done].
Qed.

(** ** A registration during an unregistration *)

Definition forgotten (u : nat) (k : key) (s : polling) : Prop :=
  inv s ∧ (∃ c, po_calls s !! u = Some (mkCall (Some k) false c)) ∧ ∀ j b, status j (po_services s) ≠ Some (b, Some u).

Lemma forgotten_segment u k s t x r next w :
  forgotten u k s → po_calls s !! t = Some x → inv (finish_segment t (r, next, w) s) → (∀ j b v, status j r = Some (b, Some v) → status j (po_services s) = Some (b, Some v)) →
  (∀ v, v ∈ w → ∃ j b, status j (po_services s) = Some (b, Some v)) → forgotten u k (finish_segment t (r, next, w) s).
Proof.
  intros (Hi & [c Hc] & Hn) Hx Hi' Hst Hw. split_and!; [done| |].
  - assert (u ∉ w) as Hu by (intros (j & b & Hj)%Hw; by destruct (Hn j b)).
    eexists. apply lookup_segment. eexists. split; [done|]. cbn. by rewrite bool_decide_false.
  - intros j b Hj. cbn in Hj. apply Hst in Hj. by destruct (Hn j b).
Qed.

Lemma change_marked next w j o b v : change next w j o (Some (b, Some v)) → o = Some (b, Some v).
Proof. intros [[_ ?]|[(_ & ? & _)|(_ & _ & ?)]]%change_inv; done. Qed.

Lemma forgotten_traverse u k s t x :
  forgotten u k s → po_calls s !! t = Some x → ca_calling x = None → forgotten u k (finish_segment t (traverse (po_services s)) s).
Proof.
  intros Hf Hx Hc. pose proof (inv_traverse s t x (proj1 Hf) Hx Hc) as Hi'.
  destruct (traverse (po_services s)) as [[r next] w] eqn:Ht.
  destruct (traverse_spec _ _ _ _ (sorted_nodup _ (pi_sorted _ (proj1 Hf))) Ht) as [H1 H2 H3].
  eapply forgotten_segment; [done..| |].
  - intros j b v Hj. specialize (H2 j). rewrite Hj in H2. by eapply change_marked.
  - intros v (j & Hj & _)%H3. by eexists _, _.
Qed.

Lemma forgotten_calls u k s c :
  forgotten u k s → inv (mkPolling (po_services s) c) → c !! u = po_calls s !! u → forgotten u k (mkPolling (po_services s) c).
Proof. intros (Hi & Hc & Hn) Hi' Hu. split_and!; [done| |done]. cbn. by rewrite Hu. Qed.

Lemma forgotten_step u k s s' : forgotten u k s → step s s' → forgotten u k s'.
Proof.
  intros Hf Hs. pose proof Hf as (Hi & [c Hc] & Hn). pose proof (polling_inv_step _ _ Hi Hs) as Hi'.
  destruct Hs as [s j|s v j l Hv Hl|s v j Hv|s t Ht|s t Ht|s t j Ht|s t x j b o Ht Hk Hr].
  - split_and!; [done|by exists c|]. intros i b. cbn. rewrite register_status by apply Hi. case_decide; [done|apply Hn].
  - destruct (unregister_status _ _ _ _ Hl) as (_ & (b & Hb & Hb') & Ho).
    assert (u ≠ v) as Huv by congruence. split_and!; [done|exists c; cbn; by rewrite lookup_insert_ne|].
    intros i b'. cbn. destruct (decide (i = j)) as [->|Hne]; [rewrite Hb'; congruence|]. rewrite Ho by done. apply Hn.
  - apply forgotten_calls; [done|done|]. apply lookup_delete_ne. intros ->. congruence.
  - assert (u ≠ t) as Hut by congruence.
    set (s1 := mkPolling (po_services s) (<[t := mkCall None false None]> (po_calls s))).
    apply (forgotten_traverse u k s1 t (mkCall None false None)); [|cbn; by rewrite lookup_insert_eq|done].
    apply forgotten_calls; [done| |by apply lookup_insert_ne].
    apply (inv_calls s t); [done|intros v Hv; by rewrite lookup_insert_ne| |by rewrite Ht].
    rewrite lookup_insert_eq. by intros x [= <-].
  - apply forgotten_calls; [done|done|]. apply lookup_delete_ne. intros ->. congruence.
  - by eapply forgotten_traverse.
  - destruct (resumes s t x j b Hi Ht Hk) as (d & r & next & w & Hr' & Hd & [H1 H2 H3 H4 H5 H6]).
    rewrite Hr in Hr'. injection Hr' as ->. eapply forgotten_segment; [done..| |].
    + intros i b' v Hiv. destruct (decide (i = j)) as [->|Hne].
      * rewrite H3 in Hiv. by destruct (b || _).
      * specialize (H2 i Hne). rewrite Hiv in H2. by eapply change_marked.
    + intros v [->|(i & Hiv & _)]%H6; by eexists _, _.
Qed.

(** A service that is registered again while its unregistration waits loses the mark, and the call of
    [nanos6_unregister_polling_service] never returns. *)
Lemma reregistered_never_returns s k b u s' :
  rtc step no_services s → status k (po_services s) = Some (b, Some u) →
  rtc step (mkPolling (nanos6_register_polling_service k (po_services s)) (po_calls s)) s' →
  flagged u s' = false ∧ is_Some (po_calls s' !! u).
Proof.
  intros Hi%polling_inv_reachable Hk Hr. destruct (pi_discard _ Hi _ _ _ Hk) as [c Hc].
  assert (forgotten u k s') as (_ & [c' Hc'] & _).
  { apply (rtc_ind_r (forgotten u k) _) in Hr; [done| |intros y z _ Hstep Hy; by eapply forgotten_step].
    split_and!; [by apply inv_register|by exists c|]. intros j b' Hj. cbn in Hj.
    rewrite register_status in Hj by apply Hi. case_decide as Hne; [done|].
    destruct (pi_discard _ Hi _ _ _ Hj) as [c'' Hc'']. rewrite Hc in Hc''. by injection Hc'' as <-. }
  unfold flagged. by rewrite Hc'.
Qed.

(** ** Witnesses *)

(** Thread 0 is in service (1, 0) when thread 1 unregisters it. *)
Definition sample : polling :=
  mkPolling [mkService (1, 0) true (Some 1%nat)]
    (<[1%nat := mkCall (Some (1, 0)) false None]> {[0%nat := mkCall None false (Some (1, 0))]}).

Lemma polling_sample_reachable : rtc step no_services sample.
Proof.
  eapply rtc_l; [apply (step_register _ (1, 0))|]. eapply rtc_l; [by apply (step_handle _ 0%nat)|].
  eapply rtc_l; [eapply (step_unregister _ 1%nat (1, 0)); reflexivity|].
  match goal with |- rtc _ ?s _ => replace s with sample by reflexivity end. constructor.
Qed.

Lemma polling_safe_witness :
  is_Some (resume (1, 0) false (po_services sample)) ∧ ∃ c, po_calls sample !! 1%nat = Some (mkCall (Some (1, 0)) false c).
Proof.
  destruct (polling_safe sample polling_sample_reachable) as (_ & H2 & H3 & _).
  split; [by eapply (H2 0%nat)|by apply (H3 (1, 0) true)].
Defined.

Lemma unregistration_ends_witness : ∃ s', rtc step sample s' ∧ flagged 1 s' = true.
Proof. by apply (unregistration_ends sample (1, 0) true 1 polling_sample_reachable). Defined.

Lemma reregistered_never_returns_witness :
  let s := mkPolling (nanos6_register_polling_service (1, 0) (po_services sample)) (po_calls sample) in
  flagged 1 s = false ∧ is_Some (po_calls s !! 1%nat).
Proof. by apply (reregistered_never_returns sample (1, 0) true 1 _ polling_sample_reachable). Defined.
End Polling.
