(* ===== verification/WorkerThreads.v ===== *)
(** * Worker threads

    The worker threads of [src/executors/threads] ([WorkerThread.cpp], [WorkerThreadImplementation.hpp],
    [kernel-level/WorkerThreadBase.hpp], [ThreadManager.hpp], [ThreadManagerPolicy.hpp]), the blocking of
    tasks ([system/ompss/TaskBlocking.cpp], [system/BlockingAPI.cpp]), the part of [If0Task.hpp] and of
    [UserMutex.cpp] that switches threads, and the part of [CPUActivation.hpp] that does it.

    A step is what a thread does up to the next operation that another thread can see.  The scheduler
    appears by its answers: the task that it gives, which is a ready one, or none, and then the CPU has
    become idle; the idle CPU that it gives, or none.  The exchange of [activationCheck] and the query of
    an idle CPU that follows it are one step.  Shutdown is not part of the model. *)

From S2P Require Import Prelude.
From S2P Require Import CpuActivation.

(** What a thread does when it is resumed: go on with its body, or with the task that it runs. *)
Inductive continuation := ToBody | ToTask.

(** [ThreadManagerPolicy::thread_run_inline_policy_t] *)
Inductive inline_policy := POLICY_NO_INLINE | POLICY_CHILDREN_INLINE | POLICY_ALL_INLINE.

(** The next operation of a thread. *)
Inductive place :=
  (* [CPUActivation::activationCheck] at the start of a round of [body] *)
  | Checking
  (* the request of a task, and what is done with it *)
  | Fetching
  | Dispatching
  (* [ThreadManager::addIdler] and then [switchTo] *)
  | AddingIdler (next : option nat)
  (* [switchTo] up to the resumption of the other thread, and [suspend] *)
  | Switching (next : option nat) (k : continuation)
  | Suspended (k : continuation)
  (* the body of a task, and the body of a task that has been unblocked before it blocks *)
  | Executing
  | Unblocked
  (* the loop of [TaskBlocking::taskBlocks]: before it asks for a replacement, with one in its hands,
     and after it has run it inline *)
  | Blocking (policy : inline_policy)
  | Replacing (x : nat) (policy : inline_policy)
  | Inlined (policy : inline_policy).

Record worker := mkWorker {
  th_cpu : nat;
  th_cpuToBeResumedOn : option nat;
  th_signaled : bool;
  th_task : option nat;
  (* the tasks under the current one, which wait while it runs inline: in [taskBlocks], or in the
     execution of an if0 task *)
  th_stack : list (nat * option inline_policy);
  th_originalNumaNode : nat;
  th_place : place;
}.

(** Where a task is: in execution, waiting for its condition, in the scheduler, taken out of it by a
    thread; and waiting with its scheduling disabled, before and after its condition is fulfilled. *)
Inductive task_status := Running | Waiting | Ready | Taken (h : nat) | SchedulingDisabled | Fulfilled.

Record wtask := mkWTask {
  wt_thread : option nat;
  wt_parent : option nat;
  wt_status : task_status;
}.

Record world := mkWorld {
  w_threads : gmap nat worker;
  w_tasks : gmap nat wtask;
  w_idleThreads : gmap nat (list nat);
  w_idleCPUs : gset nat;
  w_status : gmap nat activation_status;
}.

#[export] Instance task_status_eq_dec : EqDecision task_status.
Proof. solve_decision. Defined.

(** ** Updates of the state *)

Definition put_thread (h : nat) (T : worker) (w : world) : world :=
  mkWorld (<[h := T]> (w_threads w)) (w_tasks w) (w_idleThreads w) (w_idleCPUs w) (w_status w).
Definition put_task (x : nat) (t : wtask) (w : world) : world :=
  mkWorld (w_threads w) (<[x := t]> (w_tasks w)) (w_idleThreads w) (w_idleCPUs w) (w_status w).
Definition put_idle (n : nat) (l : list nat) (w : world) : world :=
  mkWorld (w_threads w) (w_tasks w) (<[n := l]> (w_idleThreads w)) (w_idleCPUs w) (w_status w).
Definition put_idleCPUs (X : gset nat) (w : world) : world :=
  mkWorld (w_threads w) (w_tasks w) (w_idleThreads w) X (w_status w).
Definition put_status (c : nat) (s : activation_status) (w : world) : world :=
  mkWorld (w_threads w) (w_tasks w) (w_idleThreads w) (w_idleCPUs w) (<[c := s]> (w_status w)).

Definition at_place (p : place) (T : worker) : worker :=
  mkWorker (th_cpu T) (th_cpuToBeResumedOn T) (th_signaled T) (th_task T) (th_stack T) (th_originalNumaNode T) p.
Definition on_cpu (c : nat) (T : worker) : worker :=
  mkWorker c (th_cpuToBeResumedOn T) (th_signaled T) (th_task T) (th_stack T) (th_originalNumaNode T) (th_place T).
Definition resumed_on (c : option nat) (signaled : bool) (T : worker) : worker :=
  mkWorker (th_cpu T) c signaled (th_task T) (th_stack T) (th_originalNumaNode T) (th_place T).
Definition with_task (x : option nat) (stack : list (nat * option inline_policy)) (T : worker) : worker :=
  mkWorker (th_cpu T) (th_cpuToBeResumedOn T) (th_signaled T) x stack (th_originalNumaNode T) (th_place T).

Definition with_status (s : task_status) (t : wtask) : wtask := mkWTask (wt_thread t) (wt_parent t) s.

Definition thread (h : nat) (w : world) : res worker := get (w_threads w !! h).
Definition task (x : nat) (w : world) : res wtask := get (w_tasks w !! x).
Definition idle_at (n : nat) (w : world) : list nat := default [] (w_idleThreads w !! n).

(** [assert] *)
Definition assert (b : bool) : res unit := failIf (negb b) "assertion".

(** ** Operations *)

Section operations.
(** [CPU::_NUMANodeId] *)
Context (node_of : nat → nat).

(** [WorkerThreadBase::resume], with the signal of [KernelLevelThread::resume] *)
Definition resume (h cpu : nat) (w : world) : res world :=
  T ← thread h w;
  assert (bool_decide (th_cpuToBeResumedOn T = None));;
  assert (negb (th_signaled T));;
  Ok (put_thread h (resumed_on (Some cpu) true T) w).

(** [WorkerThreadBase::suspend] when it returns *)
Definition suspend (h : nat) (T : worker) (k : continuation) (w : world) : res world :=
  match th_cpuToBeResumedOn T with
  | Some cpu =>
      let next := match k with ToBody => Checking | ToTask => Executing end in
      Ok (put_thread h (at_place next (resumed_on None false (on_cpu cpu T))) w)
  | None => Err (Fatal "assertion")
  end.

(** [WorkerThreadBase::switchTo], up to the suspension *)
Definition switchTo (h : nat) (T : worker) (replacement : option nat) (k : continuation) (w : world) : res world :=
  assert (negb (bool_decide (replacement = Some h)));;
  let w := put_thread h (at_place (Suspended k) T) w in
  match replacement with
  | Some a => resume a (th_cpu T) w
  | None => Ok w
  end.

(** [WorkerThreadBase::migrate] *)
Definition migrate (h cpu : nat) (T : worker) (w : world) : res world :=
  assert (negb (bool_decide (th_cpu T = cpu)));;
  assert (bool_decide (th_cpuToBeResumedOn T = None));;
  Ok (put_thread h (on_cpu cpu T) w).

(** [ThreadManager::addIdler] *)
Definition addIdler (h : nat) (T : worker) (w : world) : res world :=
  let n := th_originalNumaNode T in
  let l := idle_at n w in
  assert (bool_decide (h ∉ l));;
  Ok (put_idle n (h :: l) w).

(** [ThreadManager::createWorkerThread]: the thread suspends itself at its start. *)
Definition createWorkerThread (h cpu : nat) (w : world) : world :=
  put_thread h (mkWorker cpu None false None [] (node_of cpu) (Suspended ToBody)) w.

(** [ThreadManager::getIdleThread]; a new thread is named [fresh]. *)
Definition getIdleThread (fresh cpu : nat) (w : world) : res (nat * world) :=
  match idle_at (node_of cpu) w with
  | a :: l =>
      T ← thread a w;
      assert (bool_decide (th_task T = None));;
      Ok (a, put_idle (node_of cpu) l w)
  | [] => Ok (fresh, createWorkerThread fresh cpu w)
  end.

(** [ThreadManager::resumeIdle] on a CPU that the scheduler gives out *)
Definition resumeIdle (fresh cpu : nat) (w : world) : res world :=
  r ← getIdleThread fresh cpu w;
  resume r.1 cpu r.2.

(** [WorkerThread::setTask] *)
Definition setTask (a x : nat) (w : world) : res world :=
  T ← thread a w;
  assert (bool_decide (th_task T = None));;
  Ok (put_thread a (with_task (Some x) (th_stack T) T) w).

(** ** The body of a worker thread *)

(** [CPUActivation::activationCheck], one round; [idleCPU] is the answer of [getIdleComputePlace]. *)
Definition check_activation (h : nat) (T : worker) (idleCPU : option nat) (w : world) : res world :=
  status ← get (w_status w !! th_cpu T);
  match activationCheck false status with
  | Again => Ok w
  | Leave => Ok (put_thread h (at_place Fetching T) w)
  | Suspend => Ok (put_thread h (at_place (AddingIdler None) T) w)
  | Exchange target =>
      let w := put_status (th_cpu T) target w in
      match status with
      | disabling_status =>
          match idleCPU with
          | Some c => migrate h c T (put_idleCPUs (w_idleCPUs w ∖ {[c]}) w)
          | None => Ok (put_thread h (at_place (AddingIdler None) T) w)
          end
      | enabling_status => Ok (put_thread h (at_place Fetching T) w)
      | _ => Ok w
      end
  end.

(** A thread takes a task out of the scheduler. *)
Definition take_task (h x : nat) (w : world) : res world :=
  t ← task x w; Ok (put_task x (with_status (Taken h) t) w).

(** The request of a task in [WorkerThread::body]; a thread that was resumed with a task keeps it. *)
Definition fetch (h : nat) (T : worker) (answer : option nat) (w : world) : res world :=
  match th_task T with
  | Some _ => Ok (put_thread h (at_place Dispatching T) w)
  | None =>
      match answer with
      | Some x => w ← take_task h x w; Ok (put_thread h (at_place Dispatching (with_task (Some x) (th_stack T) T)) w)
      | None => Ok (put_thread h (at_place (AddingIdler None) T) (put_idleCPUs (w_idleCPUs w ∪ {[th_cpu T]}) w))
      end
  end.

(** The start of [WorkerThread::handleTask] *)
Definition handleTask (h x : nat) (stack : list (nat * option inline_policy)) (T : worker) (w : world) : res world :=
  t ← task x w;
  Ok (put_thread h (at_place Executing (with_task (Some x) stack T)) (put_task x (mkWTask (Some h) (wt_parent t) Running) w)).

(** The task of another thread makes it take the CPU; another task is run. *)
Definition dispatch (h : nat) (T : worker) (w : world) : res world :=
  x ← get (th_task T);
  t ← task x w;
  match wt_thread t with
  | Some a => Ok (put_thread h (at_place (AddingIdler (Some a)) (with_task None (th_stack T) T)) (put_task x (with_status Running t) w))
  | None => handleTask h x (th_stack T) T w
  end.

(** ** The blocking of tasks *)

(** [ThreadManagerPolicy::checkIfMustRunInline] *)
Definition checkIfMustRunInline (replacement : wtask) (current cpu : nat) (policy : inline_policy) (w : world) : bool :=
  match wt_thread replacement with
  | Some _ => false
  | None =>
      if negb (acceptsWork (default uninitialized_status (w_status w !! cpu))) then false
      else match policy with
      | POLICY_NO_INLINE => false
      | POLICY_CHILDREN_INLINE => bool_decide (wt_parent replacement = Some current)
      | POLICY_ALL_INLINE => true
      end
  end.

(** [TaskBlocking::taskBlocks] when it asks the scheduler for a replacement *)
Definition block_fetch (h : nat) (T : worker) (policy : inline_policy) (answer : option nat) (w : world) : res world :=
  x ← get (th_task T);
  match answer with
  | Some y =>
      if decide (y = x) then
        t ← task x w; Ok (put_thread h (at_place Executing T) (put_task x (with_status Running t) w))
      else w ← take_task h y w; Ok (put_thread h (at_place (Replacing y policy) T) w)
  | None => Ok (put_thread h (at_place (Switching None ToTask) T) (put_idleCPUs (w_idleCPUs w ∪ {[th_cpu T]}) w))
  end.

(** An idle thread gets the replacement task, and the CPU. *)
Definition replace_in_thread (h : nat) (T : worker) (y fresh : nat) (w : world) : res world :=
  r ← getIdleThread fresh (th_cpu T) w;
  w ← setTask r.1 y r.2;
  t ← task y w;
  Ok (put_thread h (at_place (Switching (Some r.1) ToTask) T) (put_task y (with_status (Taken r.1) t) w)).

(** [TaskBlocking::taskBlocks] with a replacement: switch to its thread, run it inline while the current
    task cannot be scheduled, or give it to an idle thread. *)
Definition block_replace (h : nat) (T : worker) (y : nat) (policy : inline_policy) (fresh : nat) (w : world) : res world :=
  x ← get (th_task T);
  t ← task x w;
  u ← task y w;
  match wt_thread u with
  | Some a => Ok (put_thread h (at_place (Switching (Some a) ToTask) T) (put_task y (with_status Running u) w))
  | None =>
      if checkIfMustRunInline u x (th_cpu T) policy w && bool_decide (wt_status t = Waiting)
      then handleTask h y ((x, Some policy) :: th_stack T) T (put_task x (with_status SchedulingDisabled t) w)
      else replace_in_thread h T y fresh w
  end.

(** [TaskBlocking::taskBlocks] after a replacement that was run inline: [enableScheduling] *)
Definition block_inlined (h : nat) (T : worker) (policy : inline_policy) (w : world) : res world :=
  x ← get (th_task T);
  t ← task x w;
  match wt_status t with
  | Fulfilled => Ok (put_thread h (at_place Executing T) (put_task x (with_status Running t) w))
  | _ => Ok (put_thread h (at_place (Blocking policy) T) (put_task x (with_status Waiting t) w))
  end.

(** The next operation of a thread; [answer] is that of the scheduler. *)
Definition advance (h : nat) (T : worker) (answer : option nat) (fresh : nat) (w : world) : res world :=
  match th_place T with
  | Checking => check_activation h T answer w
  | Fetching => fetch h T answer w
  | Dispatching => dispatch h T w
  | AddingIdler next => w ← addIdler h T w; Ok (put_thread h (at_place (Switching next ToBody) T) w)
  | Switching next k => switchTo h T next k w
  | Suspended k => suspend h T k w
  | Executing | Unblocked => Ok w
  | Blocking policy => block_fetch h T policy answer w
  | Replacing y policy => block_replace h T y policy fresh w
  | Inlined policy => block_inlined h T policy w
  end.

(** ** What a task does *)

(** [Scheduler::addReadyTask] of a new task *)
Definition addReadyTask (x : nat) (parent : option nat) (w : world) : world :=
  put_task x (mkWTask None parent Ready) w.

(** The end of [WorkerThread::handleTask]: back to the body, or to the task under the one that ends. *)
Definition finish (h : nat) (T : worker) (w : world) : res world :=
  x ← get (th_task T);
  let w := mkWorld (w_threads w) (delete x (w_tasks w)) (w_idleThreads w) (w_idleCPUs w) (w_status w) in
  Ok (put_thread h
    (match th_stack T with
     | [] => at_place Checking (with_task None [] T)
     | (y, Some policy) :: stack => at_place (Inlined policy) (with_task (Some y) stack T)
     | (y, None) :: stack => at_place Executing (with_task (Some y) stack T)
     end) w).

(** [nanos6_block_current_task], [nanos6_taskwait] and [nanos6_user_lock] up to [taskBlocks] *)
Definition block (h : nat) (T : worker) (policy : inline_policy) (w : world) : res world :=
  x ← get (th_task T);
  t ← task x w;
  Ok (put_thread h (at_place (Blocking policy) T) (put_task x (with_status Waiting t) w)).

(** [If0Task::waitForIf0Task] *)
Definition waitForIf0Task (h : nat) (T : worker) (fresh : nat) (w : world) : res world :=
  x ← get (th_task T);
  t ← task x w;
  r ← getIdleThread fresh (th_cpu T) w;
  Ok (put_thread h (at_place (Switching (Some r.1) ToTask) T) (put_task x (with_status Waiting t) r.2)).

(** [If0Task::executeInline] of a new task *)
Definition executeInline (h : nat) (T : worker) (y : nat) (w : world) : res world :=
  x ← get (th_task T);
  handleTask h y ((x, None) :: th_stack T) T (put_task y (mkWTask None (Some x) (Taken h)) w).

(** [nanos6_unblock_task] on a task that is about to block, and [nanos6_block_current_task] after it *)
Definition early_unblock (h : nat) (T : worker) (w : world) : res world :=
  x ← get (th_task T);
  t ← task x w;
  Ok (put_thread h (at_place Unblocked T) (put_task x (with_status Ready t) w)).
Definition late_block (h : nat) (T : worker) (w : world) : res world :=
  Ok (put_thread h (at_place (Blocking POLICY_NO_INLINE) T) w).

(** The condition for which a task waits is fulfilled: the end of its last child, of the if0 task, or
    [nanos6_unblock_task]. *)
Definition unblock (x : nat) (w : world) : res world :=
  t ← task x w;
  match wt_status t with
  | Waiting => Ok (put_task x (with_status Ready t) w)
  | SchedulingDisabled => Ok (put_task x (with_status Fulfilled t) w)
  | _ => Err (Fatal "not blocked")
  end.

(** The end of [nanos6_user_unlock] when it releases the task [y]: its thread gets an idle CPU, or the one
    of the task that unlocks, which goes to the scheduler. *)
Definition user_unlock (h : nat) (T : worker) (y : nat) (idleCPU : option nat) (w : world) : res world :=
  x ← get (th_task T);
  t ← task x w;
  u ← task y w;
  a ← get (wt_thread u);
  let w := put_task y (with_status Running u) w in
  match idleCPU with
  | Some c => resume a c (put_idleCPUs (w_idleCPUs w ∖ {[c]}) w)
  | None => Ok (put_thread h (at_place (Switching (Some a) ToTask) T) (put_task x (with_status Ready t) w))
  end.

(** ** The other threads *)

(** An idle CPU is given out to run a task that has become ready. *)
Definition resume_cpu (fresh c : nat) (w : world) : res world :=
  resumeIdle fresh c (put_idleCPUs (w_idleCPUs w ∖ {[c]}) w).

(** [CPUActivation::enable] and [CPUActivation::disable], when they take effect *)
Definition enable_cpu (fresh c : nat) (w : world) : res world :=
  status ← get (w_status w !! c);
  match enable status with
  | Exchange target =>
      let w := put_status c target w in
      match status with disabled_status => resumeIdle fresh c w | _ => Ok w end
  | _ => Ok w
  end.

Definition disable_cpu (c : nat) (w : world) : res world :=
  status ← get (w_status w !! c);
  match disable status with
  | Exchange target => Ok (put_status c target w)
  | _ => Ok w
  end.

(** ** Calls *)

(** What the scheduler answers: a ready task when it is asked for a task, an idle CPU when it is asked
    for one. *)
Definition answers (T : worker) (answer : option nat) (w : world) : Prop :=
  ∀ x, answer = Some x →
    match th_place T with
    | Checking => x ∈ w_idleCPUs w
    | Fetching | Blocking _ => ∃ t, w_tasks w !! x = Some t ∧ wt_status t = Ready
    | _ => True
    end.

(** A thread that can go on: a suspended one has been signaled. *)
Definition runs (T : worker) : Prop := match th_place T with Suspended _ => th_signaled T = true | Executing | Unblocked => False | _ => True end.

(** A thread that has been given a task does not find the CPU on which it is to run it disabled. *)
Definition task_runs (T : worker) (w : world) : Prop :=
  th_place T = Checking → w_status w !! th_cpu T = Some disabling_status → th_task T = None.

(** The operations that can start in a state, with their results, but for two cases in which disabling a
    CPU breaks the protocol. *)
Inductive regular_calls (w : world) : res world → Prop :=
  | call_advance h T answer fresh :
      w_threads w !! h = Some T → runs T → answers T answer w → task_runs T w → w_threads w !! fresh = None →
      regular_calls w (advance h T answer fresh w)
  | call_create x parent :
      w_tasks w !! x = None → regular_calls w (Ok (addReadyTask x parent w))
  | call_finish h T :
      w_threads w !! h = Some T → th_place T = Executing → regular_calls w (finish h T w)
  | call_block h T policy :
      w_threads w !! h = Some T → th_place T = Executing → regular_calls w (block h T policy w)
  | call_early_unblock h T :
      w_threads w !! h = Some T → th_place T = Executing → regular_calls w (early_unblock h T w)
  | call_late_block h T :
      w_threads w !! h = Some T → th_place T = Unblocked → regular_calls w (late_block h T w)
  | call_if0 h T fresh :
      w_threads w !! h = Some T → th_place T = Executing → w_threads w !! fresh = None → regular_calls w (waitForIf0Task h T fresh w)
  | call_inline h T y :
      w_threads w !! h = Some T → th_place T = Executing → w_tasks w !! y = None → regular_calls w (executeInline h T y w)
  | call_unblock x t :
      w_tasks w !! x = Some t → wt_status t = Waiting ∨ wt_status t = SchedulingDisabled → regular_calls w (unblock x w)
  | call_unlock h T y u idleCPU :
      w_threads w !! h = Some T → th_place T = Executing → w_tasks w !! y = Some u → wt_status u = Waiting →
      (∀ c, idleCPU = Some c → c ∈ w_idleCPUs w) → regular_calls w (user_unlock h T y idleCPU w)
  | call_resume_cpu c fresh :
      c ∈ w_idleCPUs w → w_threads w !! fresh = None → regular_calls w (resume_cpu fresh c w)
  | call_enable c fresh :
      is_Some (w_status w !! c) → w_threads w !! fresh = None → regular_calls w (enable_cpu fresh c w)
  | call_disable c :
      is_Some (w_status w !! c) → w_status w !! c ≠ Some enabling_status → regular_calls w (disable_cpu c w).

Definition regular_step (w w' : world) : Prop := regular_calls w (Ok w').

(** All the operations.  The two cases are [disable] of a CPU that is being enabled, whose thread has not
    seen that yet ([CPUActivation.hpp:91]), and the check of a thread with a task on a CPU that is being
    disabled ([CPUActivation.hpp:155]). *)
Inductive calls (w : world) : res world → Prop :=
  | call_regular r : regular_calls w r → calls w r
  | call_disable_enabling c : w_status w !! c = Some enabling_status → calls w (disable_cpu c w)
  | call_check_with_task h T answer fresh :
      w_threads w !! h = Some T → th_place T = Checking → answers T answer w → w_threads w !! fresh = None →
      calls w (advance h T answer fresh w).

Definition step (w w' : world) : Prop := calls w (Ok w').

(** The start: a worker thread on each CPU, as [CPUManager::initialize] creates them. *)
Definition initial_worker (c : nat) : worker := mkWorker c (Some c) true None [] (node_of c) (Suspended ToBody).
Definition initial (cpus : list nat) : world :=
  mkWorld (list_to_map ((λ c, (c, initial_worker c)) <$> cpus)) ∅ ∅ ∅ (list_to_map ((λ c, (c, starting_status)) <$> cpus)).
End operations.

(** ** The CPUs *)

(** The places in which a thread has its CPU. *)
Definition has_cpu (p : place) : bool :=
  match p with AddingIdler None | Switching None _ | Suspended _ => false | _ => true end.

Definition now (T : worker) : option nat := if has_cpu (th_place T) then Some (th_cpu T) else None.

(** Who has a CPU: it is idle, it is disabled, a thread runs on it, or is to resume on it. *)
Inductive holder := IdleCPU | DisabledCPU | Now (h : nat) | Next (h : nat).

#[export] Instance holder_eq_dec : EqDecision holder.
Proof. solve_decision. Defined.

Definition holds (w : world) (o : holder) (c : nat) : Prop :=
  match o with
  | IdleCPU => c ∈ w_idleCPUs w
  | DisabledCPU => w_status w !! c = Some disabled_status
  | Now h => w_threads w !! h ≫= now = Some c
  | Next h => w_threads w !! h ≫= th_cpuToBeResumedOn = Some c
  end.

(** ** The references to threads *)

(** What a thread does as far as its resumption goes: it is busy, it waits in the lists of idle threads,
    or with a task. *)
Inductive activity := Busy | Idling | Blocked.
Definition activity_of (p : place) : activity :=
  match p with
  | Checking | Fetching | Dispatching | AddingIdler _ | Executing | Inlined _ => Busy
  | Switching _ ToBody | Suspended ToBody => Idling
  | Switching _ ToTask | Suspended ToTask | Blocking _ | Replacing _ _ | Unblocked => Blocked
  end.

(** The thread that a thread is about to resume. *)
Definition hand (T : worker) : option nat :=
  match th_place T with AddingIdler next | Switching next _ => next | _ => None end.

(** A task that waits, is in the scheduler or is on its way out of it. *)
Definition pending (s : task_status) : bool := match s with Waiting | Ready | Taken _ => true | _ => false end.

(** Why somebody may resume a thread: it is in a list of idle threads, it has been signaled, another
    thread is about to signal it, or its task is pending. *)
Inductive reference := InIdle (n : nat) | Signaled | InHand (g : nat) | ByTask (x : nat).

#[export] Instance reference_eq_dec : EqDecision reference.
Proof. solve_decision. Defined.

Definition refers (w : world) (r : reference) (h : nat) : Prop :=
  match r with
  | InIdle n => h ∈ idle_at n w
  | Signaled => (th_signaled <$> w_threads w !! h) = Some true
  | InHand g => w_threads w !! g ≫= hand = Some h
  | ByTask x => ∃ t, w_tasks w !! x = Some t ∧ wt_thread t = Some h ∧ pending (wt_status t) = true
  end.

(** ** The tasks of a thread *)

(** The places in which a thread runs its task, or has it blocked. *)
Definition in_task (p : place) : bool :=
  match p with Checking | Fetching | Dispatching | AddingIdler _ | Switching _ ToBody | Suspended ToBody => false | _ => true end.

Definition own_tasks (T : worker) : list nat :=
  (if in_task (th_place T) then option_list (th_task T) else []) ++ (th_stack T).*1.

(** The task that a thread has taken from the scheduler. *)
Definition taken_task (T : worker) : option nat :=
  match th_place T with
  | Replacing y _ => Some y
  | p => if in_task p then None else th_task T
  end.
