(* ===== verification/WorkerCpus.v ===== *)
(** * The CPUs of the worker threads

    Every CPU is held, at any time, by exactly one of: the set of idle CPUs, the set of disabled ones, a
    thread that runs on it, and a thread that is to resume on it. *)

From S2P Require Import Prelude.
From S2P Require Import CpuActivation.
From S2P Require Import WorkerThreads.

(** A thread has been signaled when it has a CPU to resume on. *)
Definition signals_ok (w : world) : Prop :=
  ∀ h T, w_threads w !! h = Some T → th_signaled T = bool_decide (is_Some (th_cpuToBeResumedOn T)).

(** Every CPU has one holder, except for the one that is on its way from one to the next. *)
Record cpus_in (transit : option nat) (w : world) : Prop := {
  co_held : ∀ c, transit ≠ Some c → is_Some (w_status w !! c) → ∃ o, ∀ o', holds w o' c ↔ o' = o;
  co_free : ∀ c o, transit = Some c → ¬ holds w o c;
  co_known : ∀ c o, holds w o c → is_Some (w_status w !! c);
  co_transit : ∀ c, transit = Some c → is_Some (w_status w !! c);
  co_signaled : signals_ok w;
}.
Notation cpus_ok := (cpus_in None).

Lemma holds_fun b w c o o' : cpus_in b w → holds w o c → holds w o' c → o = o'.
Proof.
  intros Hw Ho Ho'. destruct (decide (b = Some c)) as [Hb|Hb]; [by destruct (co_free b w Hw c o Hb)|].
  destruct (co_held b w Hw c Hb) as [p Hp]; [by eapply co_known|]. apply Hp in Ho, Ho'. congruence.
Qed.

Definition same_cpus (w w' : world) : Prop := ∀ c, is_Some (w_status w' !! c) ↔ is_Some (w_status w !! c).

Lemma cpus_same b w w' :
  cpus_in b w → same_cpus w w' → (∀ o c, holds w' o c ↔ holds w o c) → signals_ok w' → cpus_in b w'.
Proof.
  intros Hw Hst Hsame Hsig. split; [| | | |done].
  - intros c Hb Hc. destruct (co_held b w Hw c Hb) as [o Ho]; [by apply Hst|]. exists o. intros o'. by rewrite Hsame.
  - intros c o Hc Ho%Hsame. by eapply co_free.
  - intros c o Ho%Hsame. apply Hst. by eapply co_known.
  - intros c Hc. apply Hst. by eapply co_transit.
Qed.

(** The holder of a CPU lets it go. *)
Lemma cpus_drop w w' c o :
  cpus_ok w → holds w o c → same_cpus w w' → (∀ o' c', holds w' o' c' ↔ holds w o' c' ∧ ¬ (o' = o ∧ c' = c)) → signals_ok w' →
  cpus_in (Some c) w'.
Proof.
  intros Hw Ho Hst Hh Hsig. split; [| | | |done].
  - intros c' Hne Hc'. destruct (co_held None w Hw c') as [p Hp]; [done|by apply Hst|]. exists p. intros o'. rewrite Hh, Hp. naive_solver.
  - intros c' o' [= <-] [Ho' Hn]%Hh. apply Hn. split; [by eapply holds_fun|done].
  - intros c' o' [Ho' _]%Hh. apply Hst. by eapply co_known.
  - intros c' [= <-]. apply Hst. by eapply co_known.
Qed.

(** Somebody takes the CPU. *)
Lemma cpus_pick w w' c o :
  cpus_in (Some c) w → same_cpus w w' → (∀ o' c', holds w' o' c' ↔ holds w o' c' ∨ o' = o ∧ c' = c) → signals_ok w' →
  cpus_ok w'.
Proof.
  intros Hw Hst Hh Hsig. destruct Hw as [H1 H2 H3 H4 H5]. split; [|done| |done|done].
  - intros c' _ Hc'. destruct (decide (c' = c)) as [->|Hne].
    + exists o. intros o'. rewrite Hh. specialize (H2 c o' eq_refl). naive_solver.
    + destruct (H1 c') as [p Hp]; [congruence|by apply Hst|]. exists p. intros o'. rewrite Hh, Hp. naive_solver.
  - intros c' o' [Ho'|[-> ->]]%Hh; apply Hst; [by eapply H3|by apply H4].
Qed.

(** ** Changes of one thread *)

Lemma lookup_put_thread h T w g : w_threads (put_thread h T w) !! g = if decide (g = h) then Some T else w_threads w !! g.
Proof. cbn. destruct (decide (g = h)) as [->|Hne]; [apply lookup_insert_eq|by apply lookup_insert_ne]. Qed.

Lemma signaled_put h T w :
  signals_ok w → th_signaled T = bool_decide (is_Some (th_cpuToBeResumedOn T)) → signals_ok (put_thread h T w).
Proof. intros Hw HT g U. rewrite lookup_put_thread. case_decide; [by intros [= <-]|apply Hw]. Qed.

Lemma holds_put h T w o c :
  holds (put_thread h T w) o c ↔
  match o with
  | Now g => if decide (g = h) then now T = Some c else holds w o c
  | Next g => if decide (g = h) then th_cpuToBeResumedOn T = Some c else holds w o c
  | _ => holds w o c
  end.
Proof. destruct o as [| |g|g]; try done; unfold holds; rewrite lookup_put_thread; by case_decide. Qed.

Section changes.
Context (w : world) (h : nat) (T T' : worker) (c : nat).
Implicit Types (b : option nat).

(** A thread keeps what it has of CPUs; a new one has none. *)
Lemma cpus_thread b :
  cpus_in b w → w_threads w !! h = Some T → now T' = now T → th_cpuToBeResumedOn T' = th_cpuToBeResumedOn T →
  th_signaled T' = th_signaled T → cpus_in b (put_thread h T' w).
Proof.
  intros Hw HT Hnow Hnext Hsig. apply (cpus_same b w); [done|done| |].
  - intros o c'. rewrite holds_put. destruct o as [| |g|g]; try done; case_decide; try done; subst g; unfold holds; rewrite HT; cbn;
      by rewrite ?Hnow, ?Hnext.
  - apply signaled_put; [apply Hw|]. rewrite Hsig, Hnext. by eapply co_signaled.
Qed.

Lemma cpus_new b :
  cpus_in b w → w_threads w !! h = None → now T = None → th_cpuToBeResumedOn T = None → th_signaled T = false →
  cpus_in b (put_thread h T w).
Proof.
  intros Hw HT Hnow Hnext Hsig. apply (cpus_same b w); [done|done| |].
  - intros o c'. rewrite holds_put. destruct o as [| |g|g]; try done; case_decide; try done; subst g; unfold holds; rewrite HT; cbn;
      by rewrite ?Hnow, ?Hnext.
  - apply signaled_put; [apply Hw|]. by rewrite Hsig, Hnext.
Qed.

(** A thread leaves its CPU, takes one, is told to resume on one, and resumes. *)
Lemma cpus_leave :
  cpus_ok w → w_threads w !! h = Some T → now T = Some c → now T' = None → th_cpuToBeResumedOn T' = th_cpuToBeResumedOn T →
  th_signaled T' = th_signaled T → cpus_in (Some c) (put_thread h T' w).
Proof.
  intros Hw HT Hnow Hnow' Hnext Hsig. assert (holds w (Now h) c) as Ho by (cbn; by rewrite HT).
  apply (cpus_drop w _ c (Now h)); [done|done|done| |].
  - intros o c'. rewrite holds_put. destruct o as [| |g|g]; try naive_solver; case_decide; try naive_solver; subst g; cbn; rewrite HT; cbn;
      rewrite ?Hnow, ?Hnow', ?Hnext; naive_solver.
  - apply signaled_put; [apply Hw|]. rewrite Hsig, Hnext. by eapply co_signaled.
Qed.

Lemma cpus_enter :
  cpus_in (Some c) w → w_threads w !! h = Some T → now T = None → now T' = Some c → th_cpuToBeResumedOn T' = th_cpuToBeResumedOn T →
  th_signaled T' = th_signaled T → cpus_ok (put_thread h T' w).
Proof.
  intros Hw HT Hnow Hnow' Hnext Hsig. apply (cpus_pick w _ c (Now h)); [done|done| |].
  - intros o c'. rewrite holds_put. destruct o as [| |g|g]; try naive_solver; case_decide; try naive_solver; subst g; cbn; rewrite HT; cbn;
      rewrite ?Hnow, ?Hnow', ?Hnext; naive_solver.
  - apply signaled_put; [apply Hw|]. rewrite Hsig, Hnext. by eapply co_signaled.
Qed.

Lemma cpus_resume :
  cpus_in (Some c) w → w_threads w !! h = Some T → th_cpuToBeResumedOn T = None →
  cpus_ok (put_thread h (resumed_on (Some c) true T) w).
Proof.
  intros Hw HT Hnext. apply (cpus_pick w _ c (Next h)); [done|done| |].
  - intros o c'. rewrite holds_put. destruct o as [| |g|g]; try naive_solver; case_decide; try naive_solver; subst g; cbn; rewrite HT; cbn;
      rewrite ?Hnext; naive_solver.
  - apply signaled_put; [apply Hw|]. done.
Qed.

Lemma cpus_resumed :
  cpus_ok w → w_threads w !! h = Some T → th_cpuToBeResumedOn T = Some c → now T' = now T →
  th_cpuToBeResumedOn T' = None → th_signaled T' = false → cpus_in (Some c) (put_thread h T' w).
Proof.
  intros Hw HT Hnext Hnow Hnext' Hsig. assert (holds w (Next h) c) as Ho by (cbn; by rewrite HT).
  apply (cpus_drop w _ c (Next h)); [done|done|done| |].
  - intros o c'. rewrite holds_put. destruct o as [| |g|g]; try naive_solver; case_decide; try naive_solver; subst g; cbn; rewrite HT; cbn;
      rewrite ?Hnow, ?Hnext, ?Hnext'; naive_solver.
  - apply signaled_put; [apply Hw|]. by rewrite Hsig, Hnext'.
Qed.

(** A CPU becomes idle and is given out, is disabled and enabled. *)
Lemma cpus_idle : cpus_in (Some c) w → cpus_ok (put_idleCPUs (w_idleCPUs w ∪ {[c]}) w).
Proof.
  intros Hw. apply (cpus_pick w _ c IdleCPU); [done|done| |apply Hw]. intros [| |g|g] c'; cbn; [|naive_solver..]. set_solver.
Qed.

Lemma cpus_unidle : cpus_ok w → c ∈ w_idleCPUs w → cpus_in (Some c) (put_idleCPUs (w_idleCPUs w ∖ {[c]}) w).
Proof.
  intros Hw Hc. apply (cpus_drop w _ c IdleCPU); [done|done|done| |apply Hw]. intros [| |g|g] c'; cbn; [|naive_solver..]. set_solver.
Qed.

Lemma same_cpus_status s : is_Some (w_status w !! c) → same_cpus w (put_status c s w).
Proof.
  intros Hc c'. cbn. destruct (decide (c' = c)) as [->|]; [rewrite lookup_insert_eq; naive_solver|by rewrite lookup_insert_ne].
Qed.

Lemma cpus_disable : cpus_in (Some c) w → cpus_ok (put_status c disabled_status w).
Proof.
  intros Hw. apply (cpus_pick w _ c DisabledCPU); [done|apply same_cpus_status; by eapply co_transit| |apply Hw].
  intros [| |g|g] c'; cbn; [naive_solver| |naive_solver..].
  destruct (decide (c' = c)) as [->|Hne]; [rewrite lookup_insert_eq|rewrite lookup_insert_ne by done]; naive_solver.
Qed.

Lemma cpus_enable s :
  cpus_ok w → w_status w !! c = Some disabled_status → s ≠ disabled_status → cpus_in (Some c) (put_status c s w).
Proof.
  intros Hw Hc Hs. apply (cpus_drop w _ c DisabledCPU); [done|done|apply same_cpus_status; by eexists| |apply Hw].
  intros [| |g|g] c'; cbn; [naive_solver| |naive_solver..].
  destruct (decide (c' = c)) as [->|Hne]; [rewrite lookup_insert_eq|rewrite lookup_insert_ne by done]; naive_solver.
Qed.

Lemma cpus_status b s s' :
  cpus_in b w → w_status w !! c = Some s' → s' ≠ disabled_status → s ≠ disabled_status → cpus_in b (put_status c s w).
Proof.
  intros Hw Hc Hs' Hs. apply (cpus_same b w); [done|apply same_cpus_status; by eexists| |apply Hw].
  intros [| |g|g] c'; cbn; try done.
  destruct (decide (c' = c)) as [->|Hne]; [rewrite lookup_insert_eq|by rewrite lookup_insert_ne]. naive_solver.
Qed.
End changes.

Lemma cpus_tasks b w w' :
  cpus_in b w → w_threads w' = w_threads w → w_idleCPUs w' = w_idleCPUs w → w_status w' = w_status w → cpus_in b w'.
Proof.
  intros Hw H1 H2 H3. apply (cpus_same b w); [done|intros c; by rewrite H3| |].
  - intros [] c; cbn; by rewrite ?H1, ?H2, ?H3.
  - intros h T. rewrite H1. apply Hw.
Qed.

(** ** The operations *)

Lemma get_ok {A} (o : option A) a : get o = Ok a ↔ o = Some a.
Proof. destruct o; cbn; naive_solver. Qed.

Lemma assert_ok b u : assert b = Ok u ↔ b = true.
Proof. destruct b, u; cbn; naive_solver. Qed.

(** The results of the steps of an operation that succeeds. *)
Ltac ok_inv :=
  repeat match goal with
  | H : mbind _ _ = Ok _ |- _ => let a := fresh "a" in let Ha := fresh "Ha" in apply res_bind_ok in H as (a & Ha & H)
  | H : thread _ _ = Ok _ |- _ => unfold thread in H
  | H : task _ _ = Ok _ |- _ => unfold task in H
  | H : get _ = Ok _ |- _ => apply get_ok in H
  | H : assert _ = Ok _ |- _ => apply assert_ok in H
  | H : bool_decide _ = true |- _ => apply bool_decide_eq_true in H
  | H : negb _ = true |- _ => apply negb_true_iff in H
  | H : bool_decide _ = false |- _ => apply bool_decide_eq_false in H
  | H : Ok _ = Ok _ |- _ => injection H as H; subst
  | H : Err _ = Ok _ |- _ => discriminate H
  end.

Section operations.
Context (node_of : nat → nat).

Lemma resume_cpus w w' h c : cpus_in (Some c) w → resume h c w = Ok w' → cpus_ok w'.
Proof. intros Hw Hr. unfold resume in Hr. ok_inv. by eapply cpus_resume. Qed.

Lemma getIdleThread_cpus b w fresh c r :
  cpus_in b w → w_threads w !! fresh = None → getIdleThread node_of fresh c w = Ok r →
  cpus_in b r.2 ∧ ∀ h, h ≠ fresh → w_threads r.2 !! h = w_threads w !! h.
Proof.
  intros Hw Hf Hr. unfold getIdleThread in Hr. destruct (idle_at _ w) as [|a l]; ok_inv; cbn [snd].
  - split; [by eapply cpus_new|]. intros h Hne. unfold createWorkerThread. rewrite lookup_put_thread. by rewrite decide_False.
  - split; [by eapply cpus_tasks|]. done.
Qed.

Lemma resumeIdle_cpus w w' fresh c :
  cpus_in (Some c) w → w_threads w !! fresh = None → resumeIdle node_of fresh c w = Ok w' → cpus_ok w'.
Proof.
  intros Hw Hf Hr. unfold resumeIdle in Hr. ok_inv. destruct (getIdleThread_cpus _ _ _ _ _ Hw Hf Ha) as [Hw' _].
  by eapply resume_cpus.
Qed.

Lemma now_at h T w p : w_threads w !! h = Some T → has_cpu p = has_cpu (th_place T) → now (at_place p T) = now T.
Proof. intros _ Hp. unfold now. cbn. by rewrite Hp. Qed.

Section thread.
Context (w : world) (Hw : cpus_ok w) (h : nat) (T : worker) (HT : w_threads w !! h = Some T).

(** A thread goes on to a place in which it has its CPU when it had it. *)
Lemma goes_to p w' :
  has_cpu p = has_cpu (th_place T) → cpus_ok w' → w_threads w' !! h = Some T → cpus_ok (put_thread h (at_place p T) w').
Proof. intros Hp Hw' HT'. eapply cpus_thread; [done|done|by eapply now_at|done|done]. Qed.

Lemma check_activation_cpus o w' :
  th_place T = Checking → (∀ x, o = Some x → x ∈ w_idleCPUs w) → check_activation h T o w = Ok w' → cpus_ok w'.
Proof.
  intros Hp Ho Hc. unfold check_activation in Hc. apply res_bind_ok in Hc as (s & Hs%get_ok & Hc).
  assert (now T = Some (th_cpu T)) as Hnow by (unfold now; by rewrite Hp).
  assert (s ≠ disabled_status) as Hd.
  { intros ->. assert (Now h = DisabledCPU); [|done]. eapply (holds_fun None); [done| |exact Hs]. cbn. by rewrite HT. }
  destruct s; cbn in Hc; ok_inv; try done.
  - by eapply cpus_status.
  - apply goes_to; [by rewrite Hp|done|done].
  - apply goes_to; [by rewrite Hp| |done]. by eapply cpus_status.
  - assert (cpus_ok (put_status (th_cpu T) disabled_status (put_thread h (at_place (AddingIdler None) T) w))) as Hw1.
    { apply cpus_disable. by eapply cpus_leave. }
    destruct o as [c|]; ok_inv; [|done]. unfold migrate in Hc. ok_inv.
    specialize (Ho c eq_refl). pose proof (cpus_unidle _ c Hw1 Ho) as Hw2.
    eapply (cpus_enter _ h (at_place (AddingIdler None) T) (on_cpu c T)) in Hw2; [|cbn; by rewrite lookup_insert_eq|done| |done|done].
    + unfold put_thread, put_idleCPUs, put_status in *. cbn in *. by rewrite insert_insert_eq in Hw2.
    + unfold now. cbn. by rewrite Hp.
Qed.

Lemma fetch_cpus o w' : th_place T = Fetching → fetch h T o w = Ok w' → cpus_ok w'.
Proof.
  intros Hp Hf. unfold fetch, take_task in Hf. destruct (th_task T) as [y|]; [ok_inv; apply goes_to; [by rewrite Hp|done|done]|].
  destruct o as [x|]; ok_inv.
  - eapply cpus_thread with (T := T); [by eapply cpus_tasks|done|unfold now; cbn; by rewrite Hp|done|done].
  - eapply (cpus_leave w h T (at_place (AddingIdler None) T)) in Hw; [|done|unfold now; by rewrite Hp|done|done|done].
    by apply cpus_idle in Hw.
Qed.

Lemma handleTask_cpus x stack w1 w' :
  has_cpu (th_place T) = true → cpus_ok w1 → w_threads w1 !! h = Some T → handleTask h x stack T w1 = Ok w' → cpus_ok w'.
Proof.
  intros Hp Hw1 HT1 Hh. unfold handleTask in Hh. ok_inv.
  eapply cpus_thread with (T := T); [by eapply cpus_tasks|done|unfold now; cbn; by rewrite Hp|done|done].
Qed.

Lemma dispatch_cpus w' : th_place T = Dispatching → dispatch h T w = Ok w' → cpus_ok w'.
Proof.
  intros Hp Hd. unfold dispatch in Hd. ok_inv. destruct (wt_thread _); ok_inv; [|eapply handleTask_cpus; [|done..]; by rewrite Hp].
  eapply cpus_thread with (T := T); [by eapply cpus_tasks|done|unfold now; cbn; by rewrite Hp|done|done].
Qed.

Lemma addIdler_cpus next w' :
  th_place T = AddingIdler next → (w1 ← addIdler h T w; Ok (put_thread h (at_place (Switching next ToBody) T) w1)) = Ok w' → cpus_ok w'.
Proof.
  intros Hp Ha. unfold addIdler in Ha. ok_inv. apply goes_to; [by rewrite Hp|by eapply cpus_tasks|done].
Qed.

Lemma switchTo_cpus next k w' : th_place T = Switching next k → switchTo h T next k w = Ok w' → cpus_ok w'.
Proof.
  intros Hp Hs. unfold switchTo in Hs. ok_inv. destruct next as [b|]; ok_inv; [|apply goes_to; [by rewrite Hp|done|done]].
  eapply resume_cpus; [|done]. eapply cpus_leave; [done|done|unfold now; by rewrite Hp|done|done|done].
Qed.

Lemma suspend_cpus k w' : th_place T = Suspended k → suspend h T k w = Ok w' → cpus_ok w'.
Proof.
  intros Hp Hs. unfold suspend in Hs. destruct (th_cpuToBeResumedOn T) as [c|] eqn:Hc; [|done]. ok_inv.
  pose proof (cpus_resumed w h T (resumed_on None false T) c Hw HT Hc eq_refl eq_refl eq_refl) as Hw1.
  set (T' := at_place _ _). eapply (cpus_enter _ h (resumed_on None false T) T') in Hw1; [|cbn; by rewrite lookup_insert_eq|..].
  - unfold put_thread in *. cbn in *. by rewrite insert_insert_eq in Hw1.
  - unfold now. cbn. by rewrite Hp.
  - subst T'. unfold now. cbn. by destruct k.
  - done.
  - done.
Qed.

Lemma block_fetch_cpus policy o w' : th_place T = Blocking policy → block_fetch h T policy o w = Ok w' → cpus_ok w'.
Proof.
  intros Hp Hb. unfold block_fetch, take_task in Hb. ok_inv. destruct o as [y|]; [case_decide|]; ok_inv.
  - apply goes_to; [by rewrite Hp|by eapply cpus_tasks|done].
  - apply goes_to; [by rewrite Hp|by eapply cpus_tasks|done].
  - eapply (cpus_leave w h T (at_place (Switching None ToTask) T)) in Hw; [|done|unfold now; by rewrite Hp|done|done|done].
    by apply cpus_idle in Hw.
Qed.

Lemma getIdleThread_keeps fresh c r :
  w_threads w !! fresh = None → getIdleThread node_of fresh c w = Ok r → cpus_ok r.2 ∧ w_threads r.2 !! h = Some T.
Proof.
  intros Hf Hr. destruct (getIdleThread_cpus None w fresh c r Hw Hf Hr) as [Hw' Ho]. split; [done|].
  rewrite Ho; [done|]. intros ->. congruence.
Qed.

Lemma replace_in_thread_cpus y fresh w' :
  has_cpu (th_place T) = true → activity_of (th_place T) = Blocked → w_threads w !! fresh = None →
  replace_in_thread node_of h T y fresh w = Ok w' → cpus_ok w'.
Proof.
  intros Hp _ Hf Hr. unfold replace_in_thread, setTask in Hr. ok_inv.
  destruct (getIdleThread_keeps fresh _ _ Hf Ha) as [Hw1 HT1].
  match goal with |- cpus_ok (put_thread _ _ (put_task _ _ (put_thread ?b ?B ?v))) => assert (cpus_ok (put_thread b B v)) as Hw2 end.
  { by eapply cpus_thread. }
  destruct (decide (a.1 = h)) as [He|Hne].
  - assert (a2 = T) as -> by congruence. rewrite He in *.
    eapply cpus_thread; [by eapply cpus_tasks|cbn; by rewrite lookup_insert_eq|unfold now; cbn; by rewrite Hp|done|done].
  - eapply cpus_thread with (T := T); [by eapply cpus_tasks|cbn; by rewrite lookup_insert_ne|unfold now; cbn; by rewrite Hp|done|done].
Qed.

Lemma block_replace_cpus y policy fresh w' :
  th_place T = Replacing y policy → w_threads w !! fresh = None → block_replace node_of h T y policy fresh w = Ok w' → cpus_ok w'.
Proof.
  intros Hp Hf Hb. unfold block_replace in Hb. ok_inv. destruct (wt_thread _) as [a'|]; [|destruct (_ && _)]; ok_inv.
  - apply goes_to; [by rewrite Hp|by eapply cpus_tasks|done].
  - eapply handleTask_cpus; [by rewrite Hp| | |exact Hb]; [by eapply cpus_tasks|done].
  - eapply replace_in_thread_cpus; [by rewrite Hp|by rewrite Hp|done|done].
Qed.

Lemma block_inlined_cpus policy w' : th_place T = Inlined policy → block_inlined h T policy w = Ok w' → cpus_ok w'.
Proof.
  intros Hp Hb. unfold block_inlined in Hb. ok_inv. destruct (wt_status _); ok_inv; (apply goes_to; [by rewrite Hp|by eapply cpus_tasks|done]).
Qed.

Lemma advance_cpus o fresh w' :
  runs T → answers T o w → w_threads w !! fresh = None → advance node_of h T o fresh w = Ok w' → cpus_ok w'.
Proof.
  unfold runs, answers, advance. intros Hr Ho Hf Ha. destruct (th_place T) eqn:Hp; try done.
  - by eapply check_activation_cpus.
  - by eapply fetch_cpus.
  - by eapply dispatch_cpus.
  - by eapply addIdler_cpus.
  - by eapply switchTo_cpus.
  - by eapply suspend_cpus.
  - by eapply block_fetch_cpus.
  - by eapply block_replace_cpus.
  - by eapply block_inlined_cpus.
Qed.
End thread.

Lemma cpus_step w w' : cpus_ok w → regular_step node_of w w' → cpus_ok w'.
Proof.
  intros Hw Hs. unfold regular_step in Hs. inversion Hs as
    [h T o fresh HT Hr Ho _ Hf He|x parent Hx He|h T HT Hp He|h T policy HT Hp He|h T HT Hp He|h T HT Hp He|h T fresh HT Hp Hf He
    |h T y HT Hp Hy He|x t Ht Hst He|h T y u o HT Hp Hy Hu Ho He|c fresh Hc Hf He|c fresh Hc Hf He|c Hc Hne He]; clear Hs.
  - by eapply advance_cpus.
  - subst w'. by eapply cpus_tasks.
  - unfold finish in He. ok_inv. destruct (th_stack T) as [|[y [policy|]] stack];
      (eapply cpus_thread with (T := T); [by eapply cpus_tasks|done|unfold now; cbn; by rewrite Hp|done|done]).
  - unfold block in He. ok_inv. eapply goes_to; [by rewrite Hp|by eapply cpus_tasks|done].
  - unfold early_unblock in He. ok_inv. eapply goes_to; [by rewrite Hp|by eapply cpus_tasks|done].
  - unfold late_block in He. ok_inv. eapply goes_to; [by rewrite Hp|done|done].
  - unfold waitForIf0Task in He. ok_inv.
    match goal with H : getIdleThread _ _ _ _ = Ok _ |- _ => destruct (getIdleThread_keeps w Hw h T HT fresh _ _ Hf H) as [Hw1 HT1] end.
    eapply goes_to; [by rewrite Hp|by eapply cpus_tasks|done].
  - unfold executeInline in He. ok_inv. eapply handleTask_cpus; [by rewrite Hp| | |exact He]; [by eapply cpus_tasks|done].
  - unfold unblock in He. ok_inv. destruct (wt_status a); ok_inv; by eapply cpus_tasks.
  - unfold user_unlock in He. ok_inv. destruct o as [c|]; ok_inv.
    + eapply resume_cpus; [|done]. specialize (Ho c eq_refl). eapply cpus_tasks; [by apply (cpus_unidle w c Hw Ho)|done..].
    + eapply goes_to; [by rewrite Hp|by eapply cpus_tasks|done].
  - unfold resume_cpu in He. eapply resumeIdle_cpus; [| |exact He]; [by apply cpus_unidle|done].
  - unfold enable_cpu in He. ok_inv. destruct a; cbn in He; ok_inv; try done; [by eapply cpus_status|].
    eapply resumeIdle_cpus; [| |exact He]; [by apply cpus_enable|done].
  - unfold disable_cpu in He. ok_inv. destruct a; cbn in He; ok_inv; try done. by eapply cpus_status.
Qed.
End operations.
