(* ===== verification/WorkerTasks.v ===== *)
(** * The tasks of the worker threads

    A task that has started belongs to one thread, which runs it, has it blocked, or has it under the
    task that it runs; a task that was taken out of the scheduler is in the hands of one thread. *)

From S2P Require Import Prelude.
From S2P Require Import CpuActivation.
From S2P Require Import WorkerThreads.
From S2P Require Import WorkerCpus.

Definition status_at (m : gmap nat wtask) (x : nat) : option task_status := wt_status <$> m !! x.

(** The status of the task that a thread has blocked. *)
Definition blocked_status (s : task_status) : bool := pending s || bool_decide (s = Running).

(** What the place of a thread says of its task. *)
Definition current_ok (m : gmap nat wtask) (T : worker) : Prop :=
  match th_place T with
  | Checking | Fetching | Switching _ ToBody | Suspended ToBody => True
  | Dispatching => is_Some (th_task T)
  | AddingIdler _ => th_task T = None
  | Executing => ∃ x, th_task T = Some x ∧ status_at m x = Some Running
  | Inlined _ => ∃ x, th_task T = Some x ∧ (status_at m x = Some SchedulingDisabled ∨ status_at m x = Some Fulfilled)
  | Switching _ ToTask | Suspended ToTask | Blocking _ | Unblocked =>
      ∃ x s, th_task T = Some x ∧ status_at m x = Some s ∧ blocked_status s = true
  | Replacing y _ => ∃ x s, th_task T = Some x ∧ status_at m x = Some s ∧ blocked_status s = true ∧ x ≠ y
  end.

(** The tasks under the current one. *)
Definition frame_ok (m : gmap nat wtask) (f : nat * option inline_policy) : Prop :=
  match f.2 with
  | Some _ => status_at m f.1 = Some SchedulingDisabled ∨ status_at m f.1 = Some Fulfilled
  | None => status_at m f.1 = Some Running
  end.

Definition belongs (m : gmap nat wtask) (h x : nat) : Prop := ∃ t, m !! x = Some t ∧ wt_thread t = Some h.

Record thread_tasks (m : gmap nat wtask) (h : nat) (T : worker) : Prop := {
  tt_own : ∀ x, x ∈ own_tasks T ↔ belongs m h x;
  tt_nodup : NoDup (own_tasks T);
  tt_taken : ∀ x, taken_task T = Some x ↔ status_at m x = Some (Taken h);
  tt_current : current_ok m T;
  tt_frames : ∀ f, f ∈ th_stack T → frame_ok m f;
  tt_body : in_task (th_place T) = false → th_stack T = [];
}.

Record tasks_of (ths : gmap nat worker) (m : gmap nat wtask) : Prop := {
  ta_threads : ∀ h T, ths !! h = Some T → thread_tasks m h T;
  ta_thread : ∀ x t h, m !! x = Some t → wt_thread t = Some h → is_Some (ths !! h);
  ta_taker : ∀ x t h, m !! x = Some t → wt_status t = Taken h → is_Some (ths !! h);
  ta_new : ∀ x t, m !! x = Some t → wt_thread t = None → wt_status t = Ready ∨ ∃ h, wt_status t = Taken h;
}.
Notation tasks_ok w := (tasks_of (w_threads w) (w_tasks w)).

(** ** Threads that are not concerned *)

Lemma status_insert m x t y : status_at (<[x := t]> m) y = if decide (y = x) then Some (wt_status t) else status_at m y.
Proof. unfold status_at. destruct (decide (y = x)) as [->|Hne]; [by rewrite lookup_insert_eq|by rewrite lookup_insert_ne]. Qed.

Lemma belongs_insert m h x t y : belongs (<[x := t]> m) h y ↔ if decide (y = x) then wt_thread t = Some h else belongs m h y.
Proof.
  unfold belongs. destruct (decide (y = x)) as [->|Hne]; [rewrite lookup_insert_eq; naive_solver|by rewrite lookup_insert_ne].
Qed.

(** The current task of a thread, and those under it, are its own. *)
Lemma current_own T x : in_task (th_place T) = true → th_task T = Some x → x ∈ own_tasks T.
Proof. intros Hp Hx. unfold own_tasks. rewrite Hp, Hx. cbn. left. Qed.

Lemma frame_own T f : f ∈ th_stack T → f.1 ∈ own_tasks T.
Proof. intros Hf. unfold own_tasks. apply elem_of_app. right. by apply list_elem_of_fmap_2. Qed.

(** A pending task of a thread is its current one, and the thread has it blocked. *)
Lemma pending_current m h T x s :
  thread_tasks m h T → belongs m h x → status_at m x = Some s → pending s = true →
  activity_of (th_place T) = Blocked ∧ th_task T = Some x.
Proof.
  intros HT Hx Hs Hp. pose proof (proj2 (tt_own _ _ _ HT x) Hx) as Hown. unfold own_tasks in Hown.
  apply elem_of_app in Hown as [Hc|((y & fr) & -> & Hf)%list_elem_of_fmap].
  - destruct (in_task (th_place T)) eqn:Hin; [|by apply not_elem_of_nil in Hc].
    assert (th_task T = Some x) as Hx' by (destruct (th_task T); cbn in Hc; set_solver).
    split; [|done]. pose proof (tt_current _ _ _ HT) as Hok. unfold current_ok in Hok.
    destruct (th_place T) as [| | |?|? []|[]| | | |? ?|]; try done; exfalso.
    + by destruct Hok as (y & Hy & Hok); simplify_eq.
    + by destruct Hok as (y & Hy & [Hok|Hok]); simplify_eq.
  - exfalso. pose proof (tt_frames _ _ _ HT _ Hf) as Hok. unfold frame_ok in Hok. cbn in *.
    by destruct fr; [destruct Hok|]; simplify_eq.
Qed.

(** A task changes, and a thread that does not run it keeps what it has. *)
Lemma thread_tasks_frame m g T x t t' :
  thread_tasks m g T → m !! x = Some t →
  (wt_thread t' = Some g ↔ wt_thread t = Some g) → (wt_status t' = Taken g ↔ wt_status t = Taken g) →
  (wt_thread t = Some g → pending (wt_status t) = true ∧ blocked_status (wt_status t') = true) →
  thread_tasks (<[x := t']> m) g T.
Proof.
  intros HT Hx Hth Htk Hst. pose proof HT as [H1 H2 H3 H4 H5 H6].
  assert (status_at m x = Some (wt_status t)) as Hsx by (unfold status_at; by rewrite Hx).
  assert (belongs m g x ↔ wt_thread t = Some g) as Hbx by (unfold belongs; rewrite Hx; naive_solver).
  split; [| |..|done].
  - intros y. rewrite belongs_insert, H1. case_decide; [subst y; by rewrite Hbx, Hth|done].
  - done.
  - intros y. rewrite status_insert, H3. case_decide; [subst y|done]. rewrite Hsx.
    split; intros [= He]; f_equal; by apply Htk.
  - destruct (decide (wt_thread t = Some g)) as [Hg|Hg].
    + destruct (Hst Hg) as [Hp Hb]. destruct (pending_current m g T x (wt_status t) HT) as [Ha Hc]; [by apply Hbx|done|done|].
      unfold current_ok in *. destruct (th_place T) as [| | |?|? []|[]| | | |? ?|]; try done;
        destruct H4 as (y & s & Hy & Hs & Hok); exists y, (wt_status t'); simplify_eq;
        rewrite status_insert, decide_True by done; first [by split_and!|destruct Hok; by split_and!].
    + assert (∀ y, in_task (th_place T) = true → th_task T = Some y → status_at (<[x := t']> m) y = status_at m y) as Hsame.
      { intros y Hin Hy. rewrite status_insert. case_decide; [subst y|done]. exfalso.
        by apply Hg, Hbx, H1, current_own. }
      unfold current_ok in *. destruct (th_place T) as [| | |?|? []|[]| | | |? ?|] eqn:Hp; try done;
        first [destruct H4 as (y & s & Hy & Hs & Hok); exists y, s; rewrite (Hsame y) by done; done
              |destruct H4 as (y & Hy & Hok); exists y; rewrite (Hsame y) by done; done].
  - intros f Hf. specialize (H5 f Hf). unfold frame_ok in *. rewrite status_insert. case_decide as He; [|done]. exfalso.
    assert (wt_thread t = Some g) as Hg by (apply Hbx, H1; rewrite <- He; by apply frame_own).
    destruct (Hst Hg) as [Hp _]. rewrite He, Hsx in H5. destruct (f.2); [destruct H5|]; simplify_eq; by rewrite ?H, ?H5 in Hp.
Qed.

(** A new task does not concern the threads that do not run it. *)
Lemma thread_tasks_new m g T x t' :
  thread_tasks m g T → m !! x = None → wt_thread t' ≠ Some g → wt_status t' ≠ Taken g → thread_tasks (<[x := t']> m) g T.
Proof.
  intros HT Hx Hth Htk. pose proof HT as [H1 H2 H3 H4 H5 H6].
  assert (∀ y, is_Some (status_at m y) → status_at (<[x := t']> m) y = status_at m y) as Hsame.
  { intros y Hy. rewrite status_insert. case_decide; [subst y|done]. unfold status_at in Hy. rewrite Hx in Hy. by destruct Hy. }
  split; [| |..|done].
  - intros y. rewrite belongs_insert, H1. case_decide; [subst y|done]. unfold belongs. rewrite Hx. naive_solver.
  - done.
  - intros y. rewrite status_insert, H3. case_decide; [subst y|done]. unfold status_at. rewrite Hx.
    split; [done|]. intros [= ?]. done.
  - unfold current_ok in *. destruct (th_place T) as [| | |?|? []|[]| | | |? ?|]; try done;
      first [destruct H4 as (y & s & Hy & Hs & Hok); exists y, s; rewrite (Hsame y) by (by rewrite Hs); done
            |destruct H4 as (y & Hy & Hok); exists y; split; [done|]; rewrite (Hsame y); [done|]; destruct Hok as [Hok|Hok]; by rewrite Hok
            |destruct H4 as (y & Hy & Hok); exists y; split; [done|]; by rewrite (Hsame y) by (by rewrite Hok)].
  - intros f Hf. specialize (H5 f Hf). unfold frame_ok in *. destruct (f.2).
    + rewrite Hsame; [done|]. destruct H5 as [->| ->]; done.
    + by rewrite Hsame by (by rewrite H5).
Qed.

(** ** A thread and a task change *)

Section change.
Context (ths : gmap nat worker) (m : gmap nat wtask) (Hok : tasks_of ths m).
Context (h : nat) (T : worker) (HT : ths !! h = Some T).

Lemma is_Some_insert (T' : worker) g : is_Some (<[h := T']> ths !! g) ↔ is_Some (ths !! g).
Proof. destruct (decide (g = h)) as [->|Hne]; [rewrite lookup_insert_eq, HT; naive_solver|by rewrite lookup_insert_ne]. Qed.

Lemma tasks_thread T' : thread_tasks m h T' → tasks_of (<[h := T']> ths) m.
Proof.
  intros HT'. destruct Hok as [H1 H2 H3 H4]. split; [| | |done].
  - intros g U [[<- <-]|[_ HU]]%lookup_insert_Some; [done|by apply H1].
  - intros x t g Hx Hg. apply is_Some_insert. by eapply H2.
  - intros x t g Hx Hg. apply is_Some_insert. by eapply H3.
Qed.

(** What a change of a task must keep for the other threads. *)
Definition other_ok (t t' : wtask) : Prop :=
  ∀ g, g ≠ h →
    (wt_thread t' = Some g ↔ wt_thread t = Some g) ∧ (wt_status t' = Taken g ↔ wt_status t = Taken g) ∧
    (wt_thread t = Some g → pending (wt_status t) = true ∧ blocked_status (wt_status t') = true).

Lemma tasks_task T' x t t' :
  m !! x = Some t → thread_tasks (<[x := t']> m) h T' → other_ok t t' →
  (wt_thread t' = None → wt_status t' = Ready ∨ ∃ g, wt_status t' = Taken g) →
  tasks_of (<[h := T']> ths) (<[x := t']> m).
Proof.
  intros Hx HT' Ho Hn. destruct Hok as [H1 H2 H3 H4]. split.
  - intros g U [[<- <-]|[Hne HU]]%lookup_insert_Some; [done|]. destruct (Ho g) as (? & ? & ?); [done|].
    eapply thread_tasks_frame; eauto.
  - intros y u g [[<- <-]|[Hne Hu]]%lookup_insert_Some Hg; apply is_Some_insert; [|by eapply H2].
    destruct (decide (g = h)) as [->|Hne]; [by rewrite HT|]. destruct (Ho g Hne) as ([Hth _] & _). eapply H2; eauto.
  - intros y u g [[<- <-]|[Hne Hu]]%lookup_insert_Some Hg; apply is_Some_insert; [|by eapply H3].
    destruct (decide (g = h)) as [->|Hne]; [by rewrite HT|]. destruct (Ho g Hne) as (_ & [Htk _] & _). eapply H3; eauto.
  - intros y u [[<- <-]|[Hne Hu]]%lookup_insert_Some; [done|by eapply H4].
Qed.

Lemma tasks_new_task T' x t' :
  m !! x = None → thread_tasks (<[x := t']> m) h T' →
  (∀ g, wt_thread t' = Some g → g = h) → (∀ g, wt_status t' = Taken g → g = h) →
  (wt_thread t' = None → wt_status t' = Ready ∨ ∃ g, wt_status t' = Taken g) →
  tasks_of (<[h := T']> ths) (<[x := t']> m).
Proof.
  intros Hx HT' Hth Htk Hn. destruct Hok as [H1 H2 H3 H4]. split.
  - intros g U [[<- <-]|[Hne HU]]%lookup_insert_Some; [done|].
    eapply thread_tasks_new; [by apply H1|done|intros Hg; by apply Hne, eq_sym, Hth|intros Hg; by apply Hne, eq_sym, Htk].
  - intros y u g [[<- <-]|[Hne Hu]]%lookup_insert_Some Hg; apply is_Some_insert; [|by eapply H2]. rewrite (Hth g Hg). by rewrite HT.
  - intros y u g [[<- <-]|[Hne Hu]]%lookup_insert_Some Hg; apply is_Some_insert; [|by eapply H3]. rewrite (Htk g Hg). by rewrite HT.
  - intros y u [[<- <-]|[Hne Hu]]%lookup_insert_Some; [done|by eapply H4].
Qed.

(** The thread itself goes to another place. *)
Lemma thread_place p :
  in_task p = in_task (th_place T) → taken_task (at_place p T) = taken_task T → current_ok m (at_place p T) →
  thread_tasks m h (at_place p T).
Proof.
  intros Hin Htk Hc. destruct (ta_threads _ _ Hok h T HT) as [H1 H2 H3 H4 H5 H6].
  assert (own_tasks (at_place p T) = own_tasks T) as Hown by (unfold own_tasks; cbn; by rewrite Hin).
  split; rewrite ?Hown, ?Htk; try done. cbn. by rewrite Hin.
Qed.

Lemma tasks_place p :
  in_task p = in_task (th_place T) → taken_task (at_place p T) = taken_task T → current_ok m (at_place p T) →
  tasks_of (<[h := at_place p T]> ths) m.
Proof. intros. by apply tasks_thread, thread_place. Qed.

(** The current task of the thread changes with it. *)
Lemma tasks_current x t s p :
  th_task T = Some x → m !! x = Some t → in_task (th_place T) = true → taken_task T = None → in_task p = true →
  taken_task (at_place p T) = None → (∀ g, s ≠ Taken g) → (∀ g, g ≠ h → wt_status t ≠ Taken g) →
  current_ok (<[x := with_status s t]> m) (at_place p T) →
  tasks_of (<[h := at_place p T]> ths) (<[x := with_status s t]> m).
Proof.
  intros Hx Ht Hin Htk Hin' Htk' Hs Hst Hc. destruct (ta_threads _ _ Hok h T HT) as [H1 H2 H3 H4 H5 H6].
  assert (own_tasks (at_place p T) = own_tasks T) as Hown by (unfold own_tasks; cbn; by rewrite Hin, Hin').
  assert (wt_thread t = Some h) as Hth.
  { destruct (proj1 (H1 x) (current_own T x Hin Hx)) as (u & Hu & Hth). congruence. }
  eapply tasks_task; [done| |..].
  - split; [..|done|intros f Hf|cbn; congruence].
    + intros y. rewrite Hown, belongs_insert, H1. case_decide; [subst y|done]. unfold belongs. rewrite Ht. cbn. naive_solver.
    + by rewrite Hown.
    + intros y. rewrite Htk', status_insert. split; [done|]. case_decide; [intros [= He]; by destruct (Hs h)|].
      intros He%H3. congruence.
    + specialize (H5 f Hf). unfold frame_ok in *. rewrite status_insert. case_decide as He; [|done]. exfalso.
      unfold own_tasks in H2. rewrite Hin, Hx in H2. cbn in H2. apply NoDup_cons in H2 as [H2 _]. apply H2.
      apply list_elem_of_fmap. exists f. split; [by rewrite He|done].
  - intros g Hg. cbn. rewrite Hth. split_and!; [done| |congruence]. split; [intros He; by destruct (Hs g)|intros He; by destruct (Hst g Hg)].
  - cbn. congruence.
Qed.
End change.

(** The tasks of a thread depend on its place, its task and the tasks under it. *)
Lemma thread_tasks_ext m h T T' :
  th_place T' = th_place T → th_task T' = th_task T → th_stack T' = th_stack T → thread_tasks m h T → thread_tasks m h T'.
Proof.
  intros Hp Hx Hs [H1 H2 H3 H4 H5 H6].
  assert (own_tasks T' = own_tasks T) as Ho by (unfold own_tasks; by rewrite Hp, Hx, Hs).
  assert (taken_task T' = taken_task T) as Ht by (unfold taken_task; by rewrite Hp, Hx).
  split; rewrite ?Ho, ?Ht, ?Hp, ?Hs; try done. unfold current_ok in *. by rewrite Hp, Hx.
Qed.

(** ** Tasks that are taken, started and created *)

Section taking.
Context (ths : gmap nat worker) (m : gmap nat wtask) (Hok : tasks_of ths m).
Context (h : nat) (T T' : worker) (HT : ths !! h = Some T) (x : nat) (t : wtask) (Hx : m !! x = Some t).

Lemma status_x : status_at m x = Some (wt_status t).
Proof. unfold status_at. by rewrite Hx. Qed.

(** The tasks under the current one are neither ready nor taken. *)
Lemma frame_other t' f :
  f ∈ th_stack T → pending (wt_status t) = true → frame_ok m f → frame_ok (<[x := t']> m) f.
Proof.
  intros Hf Hp Hok'. unfold frame_ok in *. rewrite status_insert. case_decide as He; [|done]. exfalso. rewrite He, status_x in Hok'.
  destruct (f.2); [destruct Hok' as [[= Hs]|[= Hs]]|injection Hok' as Hs]; by rewrite Hs in Hp.
Qed.

(** A thread takes a ready task. *)
Lemma tasks_take :
  wt_status t = Ready → taken_task T = None → taken_task T' = Some x →
  own_tasks T' = own_tasks T → th_stack T' = th_stack T → in_task (th_place T') = in_task (th_place T) →
  current_ok (<[x := with_status (Taken h) t]> m) T' →
  tasks_of (<[h := T']> ths) (<[x := with_status (Taken h) t]> m).
Proof.
  intros Hst Htk Htk' Hown Hstack Hin Hc. destruct (ta_threads _ _ Hok h T HT) as [H1 H2 H3 H4 H5 H6].
  eapply tasks_task; [done|done|done| |..].
  - split; rewrite ?Hown, ?Hstack, ?Hin; try done.
    + intros y. rewrite belongs_insert, H1. case_decide; [subst y|done]. unfold belongs. rewrite Hx. cbn. naive_solver.
    + intros y. rewrite Htk', status_insert. case_decide as He; [subst y; done|]. split; [congruence|].
      intros Hy%H3. congruence.
    + intros f Hf. apply frame_other; [done|by rewrite Hst|by apply H5].
  - intros g Hg. cbn. rewrite Hst. split_and!; [done| |done]. split; [congruence|done].
  - right. by exists h.
Qed.

(** A thread gives up a task that it has taken, to the scheduler or to the thread of the task. *)
Lemma tasks_untake s :
  taken_task T = Some x → taken_task T' = None → (s = Ready ∨ s = Running ∧ wt_thread t ≠ None) → wt_thread t ≠ Some h →
  own_tasks T' = own_tasks T → th_stack T' = th_stack T → in_task (th_place T') = in_task (th_place T) →
  current_ok (<[x := with_status s t]> m) T' →
  tasks_of (<[h := T']> ths) (<[x := with_status s t]> m).
Proof.
  intros Htk Htk' Hs Hth Hown Hstack Hin Hc. destruct (ta_threads _ _ Hok h T HT) as [H1 H2 H3 H4 H5 H6].
  assert (wt_status t = Taken h) as Hst by (apply H3 in Htk; rewrite status_x in Htk; by injection Htk).
  assert (∀ g, s ≠ Taken g) as Hsg by (by intros g ->; destruct Hs as [|[? _]]).
  eapply tasks_task; [done|done|done| |..].
  - split; rewrite ?Hown, ?Hstack, ?Hin; try done.
    + intros y. rewrite belongs_insert, H1. case_decide; [subst y|done]. unfold belongs. rewrite Hx. cbn. naive_solver.
    + intros y. rewrite Htk', status_insert. case_decide as He; [subst y; split; [done|intros [= Hs']; by destruct (Hsg h)]|].
      split; [done|]. intros Hy%H3. congruence.
    + intros f Hf. apply frame_other; [done|by rewrite Hst|by apply H5].
  - intros g Hg. cbn. rewrite Hst. split_and!; [done| |]; [split; [intros He; by destruct (Hsg g)|congruence]|].
    intros _. split; [done|]. destruct Hs as [->|[-> _]]; done.
  - cbn. intros Hn. left. by destruct Hs as [->|[-> ?]].
Qed.

(** A thread starts a task, over the one that it was running if any. *)
Lemma tasks_start stack parent :
  wt_thread t = None → (wt_status t = Ready ∧ taken_task T = None ∨ taken_task T = Some x) →
  stack.*1 = own_tasks T → (∀ f, f ∈ stack → frame_ok m f) →
  tasks_of (<[h := at_place Executing (with_task (Some x) stack T)]> ths) (<[x := mkWTask (Some h) parent Running]> m).
Proof.
  intros Hth Htk Hstack Hframes. destruct (ta_threads _ _ Hok h T HT) as [H1 H2 H3 H4 H5 H6].
  assert (x ∉ own_tasks T) as Hnew by (intros (u & Hu & Hth')%H1; congruence).
  assert (wt_status t = Ready ∧ taken_task T = None ∨ wt_status t = Taken h ∧ taken_task T = Some x) as Hst.
  { destruct Htk as [?|Htk]; [by left|right]. split; [|done]. apply H3 in Htk. rewrite status_x in Htk. by injection Htk. }
  assert (own_tasks (at_place Executing (with_task (Some x) stack T)) = x :: own_tasks T) as Hown.
  { unfold own_tasks at 1. cbn. by rewrite Hstack. }
  eapply tasks_task; [done|done|done| |..].
  - split; rewrite ?Hown; cbn; try done.
    + intros y. rewrite elem_of_cons, belongs_insert, H1. case_decide; naive_solver.
    + by constructor.
    + intros y. rewrite status_insert. split; [done|]. case_decide; [done|]. intros Hy%H3. destruct Hst as [[_ ?]|[_ ?]]; congruence.
    + exists x. split; [done|]. by rewrite status_insert, decide_True.
    + intros f Hf. specialize (Hframes f Hf). unfold frame_ok in *. rewrite status_insert. case_decide as He; [|done]. exfalso.
      apply Hnew. rewrite <- Hstack, <- He. by apply list_elem_of_fmap_2.
  - intros g Hg. cbn. rewrite Hth. split_and!; [split; congruence| |done]. split; [done|]. destruct Hst as [[-> _]|[-> _]]; congruence.
  - done.
Qed.
End taking.

(** A new task enters the scheduler. *)
Lemma tasks_create ths m x parent :
  tasks_of ths m → m !! x = None → tasks_of ths (<[x := mkWTask None parent Ready]> m).
Proof.
  intros [H1 H2 H3 H4] Hx. split.
  - intros h T HT. by apply thread_tasks_new; [apply H1|..].
  - intros y t h [[<- <-]|[_ Ht]]%lookup_insert_Some; [done|by eapply H2].
  - intros y t h [[<- <-]|[_ Ht]]%lookup_insert_Some; [done|by eapply H3].
  - intros y t [[<- <-]|[_ Ht]]%lookup_insert_Some; [by left|by eapply H4].
Qed.

(** A task waits no longer: the thread that has it blocked does not move. *)
Lemma thread_tasks_fulfil m g T x t :
  thread_tasks m g T → m !! x = Some t → wt_status t = SchedulingDisabled → thread_tasks (<[x := with_status Fulfilled t]> m) g T.
Proof.
  intros HT Hx Hst. pose proof HT as [H1 H2 H3 H4 H5 H6].
  assert (status_at m x = Some SchedulingDisabled) as Hsx by (unfold status_at; rewrite Hx; cbn; by rewrite Hst).
  assert (∀ y, status_at (<[x := with_status Fulfilled t]> m) y = if decide (y = x) then Some Fulfilled else status_at m y) as Hs
    by (intros y; by rewrite status_insert).
  split; [| |..|done].
  - intros y. rewrite belongs_insert, H1. case_decide; [subst y|done]. unfold belongs. rewrite Hx. cbn. naive_solver.
  - done.
  - intros y. rewrite Hs, H3. case_decide; [subst y; rewrite Hsx|]; done.
  - unfold current_ok in *. destruct (th_place T) as [| | |?|? []|[]| | | |? ?|]; try done;
      first [destruct H4 as (y & s & Hy & Hsy & Hok); exists y, s; rewrite Hs; case_decide;
               [subst y; rewrite Hsx in Hsy; injection Hsy as <-; first [done|by destruct Hok]|done]
            |destruct H4 as (y & Hy & Hok); exists y; split; [done|]; rewrite Hs; case_decide;
               [subst y; rewrite Hsx in Hok; first [done|by right]|done]].
  - intros f Hf. specialize (H5 f Hf). unfold frame_ok in *. rewrite Hs. case_decide as He; [|done]. rewrite He, Hsx in H5.
    destruct (f.2); [by right|done].
Qed.

Lemma tasks_unblock ths m x t s :
  tasks_of ths m → m !! x = Some t →
  (wt_status t = Waiting ∧ (s = Ready ∨ s = Running) ∨ wt_status t = SchedulingDisabled ∧ s = Fulfilled) →
  tasks_of ths (<[x := with_status s t]> m).
Proof.
  intros Hok Hx Hs. pose proof Hok as [H1 H2 H3 H4]. split.
  - intros h T HT. destruct Hs as [[Hst Hs]|[Hst ->]]; [|by eapply thread_tasks_fulfil; [apply H1|..]].
    eapply thread_tasks_frame; [by apply H1|done|done| |]; cbn; rewrite Hst; [by destruct Hs as [->| ->]|].
    intros _. split; [done|]. by destruct Hs as [->| ->].
  - intros y u h [[<- <-]|[_ Hu]]%lookup_insert_Some; [by apply (H2 x t)|by eapply H2].
  - intros y u h [[<- <-]|[_ Hu]]%lookup_insert_Some; [|by eapply H3]. cbn. destruct Hs as [[_ [->| ->]]|[_ ->]]; done.
  - intros y u [[<- <-]|[_ Hu]]%lookup_insert_Some; [|by eapply H4]. cbn. intros Hn.
    destruct (H4 x t Hx Hn) as [Hr|[g Hg]]; destruct Hs as [[Hst _]|[Hst _]]; congruence.
Qed.

(** ** Tasks that end, and new threads *)

Lemma status_delete m x y : status_at (delete x m) y = if decide (y = x) then None else status_at m y.
Proof. unfold status_at. destruct (decide (y = x)) as [->|Hne]; [by rewrite lookup_delete_eq|by rewrite lookup_delete_ne]. Qed.

Lemma belongs_delete m h x y : belongs (delete x m) h y ↔ y ≠ x ∧ belongs m h y.
Proof. unfold belongs. setoid_rewrite lookup_delete_Some. naive_solver. Qed.

(** A task that is gone does not concern a thread that has nothing to do with it. *)
Lemma thread_tasks_delete m g T x :
  thread_tasks m g T → ¬ belongs m g x → status_at m x ≠ Some (Taken g) → thread_tasks (delete x m) g T.
Proof.
  intros HT Hb Hs. pose proof HT as [H1 H2 H3 H4 H5 H6].
  assert (∀ y, y ∈ own_tasks T → status_at (delete x m) y = status_at m y) as Hsame.
  { intros y Hy. rewrite status_delete, decide_False; [done|]. intros ->. by apply Hb, H1. }
  assert (∀ y, in_task (th_place T) = true → th_task T = Some y → status_at (delete x m) y = status_at m y) as Hcur
    by (intros y Hin Hy; by apply Hsame, current_own).
  split; [| |..|done].
  - intros y. rewrite belongs_delete, H1. naive_solver.
  - done.
  - intros y. rewrite status_delete, H3. case_decide; [subst y|done]. split; done.
  - unfold current_ok in *. destruct (th_place T) as [| | |?|? []|[]| | | |? ?|] eqn:Hp; try done;
      first [destruct H4 as (y & s & Hy & Hsy & Hok); exists y, s; rewrite (Hcur y) by done; done
            |destruct H4 as (y & Hy & Hok); exists y; rewrite (Hcur y) by done; done].
  - intros f Hf. specialize (H5 f Hf). unfold frame_ok in *. rewrite Hsame by (by apply frame_own). done.
Qed.

(** The place to which a thread returns from a task. *)
Definition returned (T : worker) : worker :=
  match th_stack T with
  | [] => at_place Checking (with_task None [] T)
  | (y, Some policy) :: stack => at_place (Inlined policy) (with_task (Some y) stack T)
  | (y, None) :: stack => at_place Executing (with_task (Some y) stack T)
  end.

Lemma tasks_finish ths m h T x :
  tasks_of ths m → ths !! h = Some T → th_place T = Executing → th_task T = Some x →
  tasks_of (<[h := returned T]> ths) (delete x m).
Proof.
  intros Hok HT Hp Hx. destruct Hok as [K1 K2 K3 K4]. pose proof (K1 h T HT) as [H1 H2 H3 H4 H5 H6].
  assert (own_tasks T = x :: (th_stack T).*1) as Hown by (unfold own_tasks; by rewrite Hp, Hx).
  assert (own_tasks (returned T) = (th_stack T).*1) as Hown'.
  { unfold returned. destruct (th_stack T) as [|[y [policy|]] stack]; done. }
  assert (taken_task T = None) as Htk by (unfold taken_task; by rewrite Hp).
  assert (taken_task (returned T) = None) as Htk'.
  { unfold returned. by destruct (th_stack T) as [|[y [policy|]] stack]. }
  rewrite Hown in H2. apply NoDup_cons in H2 as [Hnx Hnd].
  assert (belongs m h x) as Hbx by (apply H1; rewrite Hown; left). destruct Hbx as (t & Ht & Hth).
  unfold current_ok in H4. rewrite Hp in H4. destruct H4 as (x' & Hx' & Hrun). simplify_eq.
  assert (∀ f, f ∈ th_stack T → frame_ok (delete x m) f) as Hframes.
  { intros f Hf. specialize (H5 f Hf). unfold frame_ok in *. rewrite status_delete, decide_False; [done|].
    intros He. apply Hnx. rewrite <- He. by apply list_elem_of_fmap_2. }
  assert (thread_tasks (delete x m) h (returned T)) as HT'.
  { split; rewrite ?Hown', ?Htk'; try done.
    - intros y. rewrite belongs_delete, <- H1, Hown, elem_of_cons. set_solver.
    - intros y. rewrite status_delete. split; [done|]. case_decide; [done|]. intros Hy%H3. congruence.
    - unfold returned, current_ok. destruct (th_stack T) as [|[y [policy|]] stack] eqn:Hs; cbn; [done|..];
        exists y; (split; [done|]); exact (Hframes _ (list_elem_of_here _ _)).
    - unfold returned. destruct (th_stack T) as [|[y [policy|]] stack] eqn:Hs; cbn; intros f Hf; [set_solver|..];
        apply Hframes; by right.
    - unfold returned. by destruct (th_stack T) as [|[y [policy|]] stack]. }
  split.
  - intros g U [[<- <-]|[Hne HU]]%lookup_insert_Some; [done|]. apply thread_tasks_delete; [by apply K1| |by rewrite Hrun].
    intros (u & Hu & Hg). congruence.
  - intros y u g [_ Hu]%lookup_delete_Some Hg. apply (is_Some_insert ths h T HT). by eapply K2.
  - intros y u g [_ Hu]%lookup_delete_Some Hg. apply (is_Some_insert ths h T HT). by eapply K3.
  - intros y u [_ Hu]%lookup_delete_Some. by eapply K4.
Qed.

(** A new thread has no tasks. *)
Lemma tasks_new_thread ths m h T :
  tasks_of ths m → ths !! h = None → th_task T = None → th_stack T = [] → th_place T = Suspended ToBody →
  tasks_of (<[h := T]> ths) m.
Proof.
  intros [K1 K2 K3 K4] Hh Hx Hs Hp. assert (∀ g, is_Some (ths !! g) → is_Some (<[h := T]> ths !! g)) as Hin.
  { intros g Hg. rewrite lookup_insert_ne; [done|]. intros <-. rewrite Hh in Hg. by destruct Hg. }
  split; [|eauto..].
  intros g U [[<- <-]|[Hne HU]]%lookup_insert_Some; [|by apply K1].
  assert (own_tasks T = []) as Hown by (unfold own_tasks; by rewrite Hp, Hs).
  split; rewrite ?Hown, ?Hs; try done.
  - intros x. split; [set_solver|]. intros (t & Ht & Hth). destruct (K2 x t h Ht Hth) as [U HU]. congruence.
  - constructor.
  - intros x. unfold taken_task. rewrite Hp, Hx. split; [done|]. unfold status_at. intros (t & Ht & Hst)%fmap_Some.
    destruct (K3 x t h Ht (eq_sym Hst)) as [U HU]. congruence.
  - unfold current_ok. by rewrite Hp.
  - intros f. set_solver.
Qed.
