(* ===== verification/WorkerRefs.v ===== *)
(** * The references to the worker threads

    A busy thread cannot be resumed by anybody; one that is suspended, or on its way to be, can be
    resumed for exactly one reason: it is in a list of idle threads, its task is pending, another thread
    is about to resume it, or it has been signaled already. *)

From S2P Require Import Prelude.
From S2P Require Import CpuActivation.
From S2P Require Import WorkerThreads.
From S2P Require Import WorkerCpus.

#[export] Instance activity_eq_dec : EqDecision activity.
Proof. solve_decision. Defined.

Definition fits (a : activity) (r : reference) : Prop :=
  match a, r with
  | Busy, _ | Idling, ByTask _ | Blocked, InIdle _ => False
  | _, _ => True
  end.

Definition activity_at (w : world) (h : nat) : option activity := activity_of ∘ th_place <$> w_threads w !! h.

(** Every thread that is not busy has one reference, except for the one whose reference changes. *)
Record refs_in (transit : option nat) (w : world) : Prop := {
  rf_some : ∀ h a, transit ≠ Some h → activity_at w h = Some a → a ≠ Busy → ∃ r, fits a r ∧ ∀ r', refers w r' h ↔ r' = r;
  rf_busy : ∀ h r, activity_at w h = Some Busy → ¬ refers w r h;
  rf_none : ∀ h r, transit = Some h → ¬ refers w r h;
  rf_known : ∀ h r, refers w r h → is_Some (w_threads w !! h);
  rf_idle : ∀ h n T, refers w (InIdle n) h → w_threads w !! h = Some T → th_task T = None;
  rf_nodup : ∀ n, NoDup (idle_at n w);
  rf_self : ∀ h, ¬ refers w (InHand h) h;
}.
Notation refs_ok := (refs_in None).

Lemma refers_fun b w h r r' : refs_in b w → refers w r h → refers w r' h → r = r'.
Proof.
  intros Hw Hr Hr'. destruct (decide (b = Some h)) as [Hb|Hb]; [by destruct (rf_none _ _ Hw h r Hb)|].
  destruct (rf_known _ _ Hw h r Hr) as [T HT].
  assert (activity_at w h = Some (activity_of (th_place T))) as Ha by (unfold activity_at; by rewrite HT).
  destruct (decide (activity_of (th_place T) = Busy)) as [He|He]; [rewrite He in Ha; by destruct (rf_busy _ _ Hw h r Ha)|].
  destruct (rf_some _ _ Hw h _ Hb Ha He) as (p & _ & Hp). apply Hp in Hr, Hr'. congruence.
Qed.

Definition same_threads (w w' : world) : Prop := ∀ h, is_Some (w_threads w' !! h) ↔ is_Some (w_threads w !! h).
Definition same_activity (b : option nat) (w w' : world) : Prop := ∀ h, b ≠ Some h → activity_at w' h = activity_at w h.
Definition idle_free (w : world) : Prop :=
  (∀ h n T, refers w (InIdle n) h → w_threads w !! h = Some T → th_task T = None) ∧ (∀ n, NoDup (idle_at n w)) ∧ ∀ h, ¬ refers w (InHand h) h.

Lemma refs_same b w w' :
  refs_in b w → same_threads w w' → same_activity b w w' → (∀ h r, refers w' r h ↔ refers w r h) → idle_free w' → refs_in b w'.
Proof.
  intros Hw Hth Hact Href (Hidle & Hnd & Hself). split; [..|done|done|done].
  - intros h a Hb Ha Hne. rewrite Hact in Ha by done. destruct (rf_some _ _ Hw h a Hb Ha Hne) as (r & Hf & Hr).
    exists r. split; [done|]. intros r'. by rewrite Href.
  - intros h r Ha. rewrite Href. destruct (decide (b = Some h)) as [Hb|Hb]; [by apply (rf_none _ _ Hw)|].
    rewrite Hact in Ha by done. by apply (rf_busy _ _ Hw).
  - intros h r Hb. rewrite Href. by apply (rf_none _ _ Hw).
  - intros h r Hr%Href. apply Hth. by eapply rf_known.
Qed.

(** A thread loses its reference. *)
Lemma refs_drop w w' a r :
  refs_ok w → refers w r a → same_threads w w' → same_activity (Some a) w w' →
  (∀ h r', refers w' r' h ↔ refers w r' h ∧ ¬ (r' = r ∧ h = a)) → idle_free w' → refs_in (Some a) w'.
Proof.
  intros Hw Ha Hth Hact Href (Hidle & Hnd & Hself). split; [..|done|done|done].
  - intros h k Hb Hk Hne. rewrite Hact in Hk by done. destruct (rf_some _ _ Hw h k ltac:(done) Hk Hne) as (p & Hf & Hp).
    exists p. split; [done|]. intros r'. rewrite Href, Hp. naive_solver.
  - intros h r' Hk [Hr Hn]%Href. destruct (decide (h = a)) as [->|Hne]; [by apply Hn; split; [eapply refers_fun|]|].
    rewrite Hact in Hk by congruence. by apply (rf_busy _ _ Hw h r').
  - intros h r' [= <-] [Hr Hn]%Href. apply Hn. split; [by eapply refers_fun|done].
  - intros h r' [Hr _]%Href. apply Hth. by eapply rf_known.
Qed.

(** A thread gets a reference. *)
Lemma refs_pick w w' a r k :
  refs_in (Some a) w → same_threads w w' → same_activity (Some a) w w' → activity_at w' a = Some k → fits k r →
  (∀ h r', refers w' r' h ↔ refers w r' h ∨ r' = r ∧ h = a) → idle_free w' → refs_ok w'.
Proof.
  intros Hw Hth Hact Hk Hf Href (Hidle & Hnd & Hself). split; [..|done|done|done].
  - intros h k' _ Hk' Hne. destruct (decide (h = a)) as [->|Hha].
    + rewrite Hk in Hk'. injection Hk' as <-. exists r. split; [done|]. intros r'. rewrite Href.
      pose proof (rf_none _ _ Hw a r' eq_refl). naive_solver.
    + rewrite Hact in Hk' by congruence. destruct (rf_some _ _ Hw h k' ltac:(congruence) Hk' Hne) as (p & Hp & Hpp).
      exists p. split; [done|]. intros r'. rewrite Href, Hpp. naive_solver.
  - intros h r' Hb [Hr|[-> ->]]%Href; [|rewrite Hk in Hb; injection Hb as ->; by destruct r].
    destruct (decide (h = a)) as [->|Hne]; [by apply (rf_none _ _ Hw a r' eq_refl)|].
    rewrite Hact in Hb by congruence. by apply (rf_busy _ _ Hw h r').
  - done.
  - intros h r' [Hr|[-> ->]]%Href; [apply Hth; by eapply rf_known|]. unfold activity_at in Hk. apply fmap_Some in Hk as (T & -> & _). done.
Qed.

(** A busy thread is as good as one that has lost its reference. *)
Lemma refs_transit w h : refs_ok w → activity_at w h = Some Busy → refs_in (Some h) w.
Proof.
  intros Hw Hh. split; try apply Hw.
  - intros g a _ Ha Hne. by apply (rf_some _ _ Hw).
  - intros g r [= <-]. by apply (rf_busy _ _ Hw).
Qed.

Lemma refs_settle w h : refs_in (Some h) w → activity_at w h = Some Busy → refs_ok w.
Proof.
  intros Hw Hh. split; [|apply Hw|done|apply Hw..].
  intros g a _ Ha Hne. destruct (decide (g = h)) as [->|Hgh]; [rewrite Hh in Ha; congruence|]. apply (rf_some _ _ Hw); congruence.
Qed.

(** ** Changes of a thread *)

Lemma signaled_eq T : (th_signaled <$> Some T) = Some true ↔ th_signaled T = true.
Proof. cbn. split; [by intros [= ->]|by intros ->]. Qed.

Lemma refers_put h T w r g :
  refers (put_thread h T w) r g ↔
  match r with
  | Signaled => if decide (g = h) then th_signaled T = true else refers w r g
  | InHand k => if decide (k = h) then hand T = Some g else refers w r g
  | _ => refers w r g
  end.
Proof.
  destruct r as [n| |k|x]; try done; unfold refers; rewrite lookup_put_thread; case_decide; try done. apply signaled_eq.
Qed.

Lemma same_threads_put h T T' w : w_threads w !! h = Some T → same_threads w (put_thread h T' w).
Proof. intros HT g. rewrite lookup_put_thread. case_decide; [subst g; rewrite HT|done]. naive_solver. Qed.

Lemma activity_put h T w g :
  activity_at (put_thread h T w) g = if decide (g = h) then Some (activity_of (th_place T)) else activity_at w g.
Proof. unfold activity_at. rewrite lookup_put_thread. by case_decide. Qed.

Lemma same_activity_put b h T T' w :
  w_threads w !! h = Some T → (b = Some h ∨ activity_of (th_place T') = activity_of (th_place T)) →
  same_activity b w (put_thread h T' w).
Proof.
  intros HT Ha g Hg. rewrite activity_put. case_decide; [subst g|done]. unfold activity_at. rewrite HT. cbn.
  destruct Ha as [?| ->]; done.
Qed.

Lemma idle_free_put h T T' w b :
  refs_in b w → w_threads w !! h = Some T → (th_task T' = None ∨ th_task T' = th_task T ∨ ∀ n, ¬ refers w (InIdle n) h) →
  hand T' ≠ Some h → idle_free (put_thread h T' w).
Proof.
  intros Hw HT Ht Hself. split_and!; [|apply (rf_nodup _ _ Hw)|].
  2: { intros g. rewrite refers_put. case_decide; [by subst g|]. exact (rf_self _ _ Hw g). }
  intros g n U Hr. rewrite lookup_put_thread. case_decide as Hg.
  - subst g. intros [= <-]. destruct Ht as [Ht|[Ht|Ht]]; [done| |by destruct (Ht n)]. rewrite Ht. eapply rf_idle; [done|exact Hr|done].
  - intros HU. eapply rf_idle; [done|exact Hr|done].
Qed.

Section thread.
Context (w : world) (h : nat) (T T' : worker) (HT : w_threads w !! h = Some T).
(** The new task of the thread, if it is in a list of idle threads. *)
Context (Htask : th_task T' = None ∨ th_task T' = th_task T ∨ ∀ n, ¬ refers w (InIdle n) h).

Lemma hand_self b : refs_in b w → hand T ≠ Some h.
Proof. intros Hw Hh. apply (rf_self _ _ Hw h). cbn. by rewrite HT. Qed.

Ltac idle_free := eapply idle_free_put; [eassumption..|]; first [congruence|by eapply hand_self|by intros ?; eapply hand_self; [eassumption|congruence]].

(** A thread goes to another place, with the same reference. *)
Lemma refs_place b :
  refs_in b w → hand T' = hand T → th_signaled T' = th_signaled T →
  (b = Some h ∨ activity_of (th_place T') = activity_of (th_place T)) → refs_in b (put_thread h T' w).
Proof.
  intros Hw Hhand Hsig Hact.
  apply (refs_same b w); [done|by eapply same_threads_put|by eapply same_activity_put| |idle_free].
  intros g r. rewrite refers_put. destruct r as [n| |k|x]; try done; case_decide; try done; subst; unfold refers; rewrite HT.
  - by rewrite signaled_eq, Hsig.
  - cbn. by rewrite Hhand.
Qed.

(** A thread has another one in its hands, or no longer. *)
Lemma refs_take_hand a k :
  refs_in (Some a) w → a ≠ h → activity_at w a = Some k → k ≠ Busy → hand T = None → hand T' = Some a →
  th_signaled T' = th_signaled T → activity_of (th_place T') = activity_of (th_place T) → refs_ok (put_thread h T' w).
Proof.
  intros Hw Hah Hk Hb Hhand Hhand' Hsig Hact.
  apply (refs_pick w _ a (InHand h) k); [done|by eapply same_threads_put|apply (same_activity_put _ h T T' w HT); by auto| |by destruct k| |idle_free].
  - rewrite activity_put. by rewrite decide_False.
  - intros g r. rewrite refers_put. destruct r as [n| |j|x]; [naive_solver| | |naive_solver].
    + case_decide; [subst g; unfold refers; rewrite HT, signaled_eq, Hsig; naive_solver|naive_solver].
    + case_decide; [subst j; unfold refers; rewrite HT; cbn; rewrite Hhand, Hhand'; naive_solver|naive_solver].
Qed.

Lemma refs_leave_hand a :
  refs_ok w → hand T = Some a → hand T' = None → th_signaled T' = th_signaled T →
  activity_of (th_place T') = activity_of (th_place T) → refs_in (Some a) (put_thread h T' w).
Proof.
  intros Hw Hhand Hhand' Hsig Hact.
  apply (refs_drop w _ a (InHand h)); [done|by cbn; rewrite HT|by eapply same_threads_put|apply (same_activity_put _ h T T' w HT); by auto| |idle_free].
  intros g r. rewrite refers_put. destruct r as [n| |j|x]; [naive_solver| | |naive_solver].
  - case_decide; [subst g; unfold refers; rewrite HT, signaled_eq, Hsig; naive_solver|naive_solver].
  - case_decide; [subst j; unfold refers; rewrite HT; cbn; rewrite Hhand, Hhand'; naive_solver|naive_solver].
Qed.

(** A thread is signaled, and resumes. *)
Lemma refs_signal :
  refs_in (Some h) w → activity_of (th_place T') ≠ Busy → hand T' = hand T → th_signaled T = false → th_signaled T' = true →
  refs_ok (put_thread h T' w).
Proof.
  intros Hw Hb Hhand Hsig Hsig'.
  apply (refs_pick w _ h Signaled (activity_of (th_place T')));
    [done|by eapply same_threads_put|apply (same_activity_put _ h T T' w HT); by auto| |by destruct (activity_of _)| |idle_free].
  - rewrite activity_put. by rewrite decide_True.
  - intros g r. rewrite refers_put. destruct r as [n| |j|x]; [naive_solver| | |naive_solver].
    + case_decide; [subst g; unfold refers; rewrite HT, signaled_eq, Hsig, Hsig'; naive_solver|naive_solver].
    + case_decide; [subst j; unfold refers; rewrite HT; cbn; rewrite Hhand; naive_solver|naive_solver].
Qed.

Lemma refs_unsignal :
  refs_ok w → hand T' = hand T → th_signaled T = true → th_signaled T' = false → refs_in (Some h) (put_thread h T' w).
Proof.
  intros Hw Hhand Hsig Hsig'.
  apply (refs_drop w _ h Signaled);
    [done|unfold refers; rewrite HT; cbn; by rewrite Hsig|by eapply same_threads_put|apply (same_activity_put _ h T T' w HT); by auto| |idle_free].
  intros g r. rewrite refers_put. destruct r as [n| |j|x]; [naive_solver| | |naive_solver].
  - case_decide; [subst g; unfold refers; rewrite HT, signaled_eq, Hsig, Hsig'; naive_solver|naive_solver].
  - case_decide; [subst j; unfold refers; rewrite HT; cbn; rewrite Hhand; naive_solver|naive_solver].
Qed.
End thread.

(** A new thread is in nobody's hands yet. *)
Lemma refs_new_thread w h T :
  refs_ok w → w_threads w !! h = None → hand T = None → th_signaled T = false → refs_in (Some h) (put_thread h T w).
Proof.
  intros Hw Hh Hhand Hsig. assert (∀ r, ¬ refers w r h) as Hno by (intros r [U HU]%(rf_known _ _ Hw); congruence).
  assert (∀ g r, refers (put_thread h T w) r g ↔ refers w r g) as Href.
  { intros g r. rewrite refers_put. destruct r as [n| |k|x]; try done; case_decide; try done; subst; unfold refers; rewrite Hh; cbn;
      rewrite ?Hsig, ?Hhand; naive_solver. }
  split.
  - intros g a Hg Ha Hb. rewrite activity_put, decide_False in Ha by congruence.
    destruct (rf_some _ _ Hw g a ltac:(done) Ha Hb) as (r & Hf & Hr). exists r. split; [done|]. intros r'. by rewrite Href.
  - intros g r. rewrite activity_put, Href. case_decide; [subst g; by intros _ ?%Hno|apply Hw].
  - intros g r [= <-]. rewrite Href. apply Hno.
  - intros g r [U HU]%Href%(rf_known _ _ Hw). rewrite lookup_put_thread. case_decide; [done|]. by rewrite HU.
  - intros g n U Hr%Href. rewrite lookup_put_thread. case_decide; [subst g; by apply Hno in Hr|]. by eapply rf_idle.
  - apply Hw.
  - intros g Hr%Href. by apply (rf_self _ _ Hw g).
Qed.

(** ** Changes of a task *)

(** A task by which its thread may be resumed. *)
Definition by_task (o : option wtask) (h : nat) : Prop := ∃ t, o = Some t ∧ wt_thread t = Some h ∧ pending (wt_status t) = true.

Lemma by_task_Some t h : by_task (Some t) h ↔ wt_thread t = Some h ∧ pending (wt_status t) = true.
Proof. unfold by_task. split; [by intros (u & [= <-] & Hu)|intros Hu; by exists t]. Qed.

Lemma refers_put_task x t w r g :
  refers (put_task x t w) r g ↔ match r with ByTask y => if decide (y = x) then by_task (Some t) g else refers w r g | _ => refers w r g end.
Proof.
  destruct r as [n| |k|y]; try done. unfold refers, by_task. cbn. case_decide as Hy; [subst y; by rewrite lookup_insert_eq|by rewrite lookup_insert_ne].
Qed.

Section task.
Context (w : world) (x : nat) (t' : wtask).

(** The reference by the task stays. *)
Lemma refs_task b : refs_in b w → (∀ h, by_task (Some t') h ↔ by_task (w_tasks w !! x) h) → refs_in b (put_task x t' w).
Proof.
  intros Hw Hsame. apply (refs_same b w); [done|done|done| |by split_and!; apply Hw].
  intros h r. rewrite refers_put_task. destruct r as [n| |k|y]; try done. case_decide; [subst y|done]. apply Hsame.
Qed.

(** The task is no longer pending. *)
Lemma refs_task_drop a :
  refs_ok w → by_task (w_tasks w !! x) a → (∀ h, ¬ by_task (Some t') h) → refs_in (Some a) (put_task x t' w).
Proof.
  intros Hw Ha Hno. apply (refs_drop w _ a (ByTask x)); [done|done|done|done| |by split_and!; apply Hw].
  intros h r. rewrite refers_put_task. destruct r as [n| |k|y]; [naive_solver..|]. case_decide; [subst y|naive_solver].
  split; [by intros ?%Hno|]. intros [Hr Hn]. exfalso. apply Hn. split; [done|].
  destruct Hr as (t & Ht & Hth & _). destruct Ha as (u & Hu & Hth' & _). congruence.
Qed.

(** The task becomes pending. *)
Lemma refs_task_pick a :
  refs_in (Some a) w → activity_at w a = Some Blocked → (∀ h, ¬ by_task (w_tasks w !! x) h) → (∀ h, by_task (Some t') h ↔ h = a) →
  refs_ok (put_task x t' w).
Proof.
  intros Hw Hact Hno Ha. apply (refs_pick w _ a (ByTask x) Blocked); [done|done|done|done|done| |by split_and!; apply Hw].
  intros h r. rewrite refers_put_task. destruct r as [n| |k|y]; [naive_solver..|]. case_decide; [subst y|naive_solver].
  rewrite Ha. split; [intros ->; by right|]. intros [Hr|[_ ->]]; [by apply Hno in Hr|done].
Qed.
End task.

(** A task that is not pending goes away. *)
Lemma refs_task_delete b w x :
  refs_in b w → (∀ h, ¬ by_task (w_tasks w !! x) h) →
  refs_in b (mkWorld (w_threads w) (delete x (w_tasks w)) (w_idleThreads w) (w_idleCPUs w) (w_status w)).
Proof.
  intros Hw Hno. apply (refs_same b w); [done|done|done| |by split_and!; apply Hw].
  intros h r. destruct r as [n| |k|y]; try done. unfold refers. cbn. setoid_rewrite lookup_delete_Some.
  split; [naive_solver|]. intros (t & Ht & Hr). exists t. split_and!; [|done|naive_solver..].
  intros ->. apply (Hno h). exists t. naive_solver.
Qed.

(** What is neither in the threads, nor in the tasks, nor in the lists of idle threads. *)
Lemma refs_world b w w' :
  refs_in b w → w_threads w' = w_threads w → w_tasks w' = w_tasks w → w_idleThreads w' = w_idleThreads w → refs_in b w'.
Proof.
  intros Hw H1 H2 H3. assert (∀ n, idle_at n w' = idle_at n w) as Hidle by (intros n; unfold idle_at; by rewrite H3).
  apply (refs_same b w); [done|intros h; by rewrite H1|intros h _; unfold activity_at; by rewrite H1| |].
  - intros h []; unfold refers; by rewrite ?Hidle, ?H1, ?H2.
  - split_and!; [intros h n T|intros n; rewrite Hidle|intros h]; unfold refers; rewrite ?Hidle, ?H1; apply Hw.
Qed.

(** ** The lists of idle threads *)

Lemma idle_at_put n l w k : idle_at k (put_idle n l w) = if decide (k = n) then l else idle_at k w.
Proof. unfold idle_at. cbn. destruct (decide (k = n)) as [->|]; [by rewrite lookup_insert_eq|by rewrite lookup_insert_ne]. Qed.

Lemma refers_put_idle n l w r g :
  refers (put_idle n l w) r g ↔ match r with InIdle k => if decide (k = n) then g ∈ l else refers w r g | _ => refers w r g end.
Proof. destruct r as [k| |k|y]; try done. unfold refers. rewrite idle_at_put. by case_decide. Qed.

(** A thread enters a list of idle threads. *)
Lemma refs_add_idle w h T n :
  refs_in (Some h) w → w_threads w !! h = Some T → activity_of (th_place T) = Idling → th_task T = None →
  refs_ok (put_idle n (h :: idle_at n w) w).
Proof.
  intros Hw HT Ha Ht.
  apply (refs_pick w _ h (InIdle n) Idling); [done|done|done|unfold activity_at; cbn; rewrite HT; cbn; by rewrite Ha|done| |].
  - intros g r. rewrite refers_put_idle. destruct r as [k| |k|y]; [|naive_solver..].
    case_decide; [subst k|naive_solver]. unfold refers. rewrite elem_of_cons. naive_solver.
  - split_and!; [..|exact (rf_self _ _ Hw)].
    + intros g k U. rewrite refers_put_idle. cbn. intros Hr HU. assert (g = h ∨ refers w (InIdle k) g) as [->|Hg].
      { case_decide; [subst k; apply elem_of_cons in Hr as [->|Hr]; by auto|by right]. }
      * congruence.
      * by eapply rf_idle.
    + intros k. rewrite idle_at_put. case_decide; [|apply Hw]. constructor; [|apply Hw]. by apply (rf_none _ _ Hw h (InIdle n) eq_refl).
Qed.

(** A thread leaves a list of idle threads. *)
Lemma refs_pop_idle w a n l :
  refs_ok w → idle_at n w = a :: l → refs_in (Some a) (put_idle n l w).
Proof.
  intros Hw Hl. pose proof (rf_nodup _ _ Hw n) as Hnd. rewrite Hl in Hnd. apply NoDup_cons in Hnd as [Ha Hnd].
  apply (refs_drop w _ a (InIdle n)); [done|unfold refers; rewrite Hl; left|done|done| |].
  - intros g r. rewrite refers_put_idle. destruct r as [k| |k|y]; [|naive_solver..].
    case_decide; [subst k|naive_solver]. unfold refers. rewrite Hl, elem_of_cons. naive_solver.
  - split_and!; [..|exact (rf_self _ _ Hw)].
    + intros g k U Hr HU. rewrite refers_put_idle in Hr. assert (refers w (InIdle k) g) as Hg.
      { case_decide; [subst k; unfold refers; rewrite Hl; by right|done]. }
      by eapply rf_idle.
    + intros k. rewrite idle_at_put. case_decide; [done|apply Hw].
Qed.
