(* ===== verification/WorkerProofs.v ===== *)
(** * The worker threads never fail an assertion

    The invariants of the CPUs, the tasks and the references hold together: every operation that can
    start succeeds, and keeps them. *)

From S2P Require Import Prelude.
From S2P Require Import CpuActivation.
From S2P Require Import WorkerThreads.
From S2P Require Import WorkerCpus.
From S2P Require Import WorkerTasks.
From S2P Require Import WorkerRefs.

Record workers_ok (w : world) : Prop := {
  wi_cpus : cpus_ok w;
  wi_tasks : tasks_ok w;
  wi_refs : refs_ok w;
}.

(** An operation succeeds and keeps the invariants of the tasks and of the references. *)
Definition succeeds (r : res world) : Prop := ∃ w', r = Ok w' ∧ tasks_ok w' ∧ refs_ok w'.

Section thread.
Context (w : world) (Hw : workers_ok w) (h : nat) (T : worker) (HT : w_threads w !! h = Some T).

Lemma own_thread : thread_tasks (w_tasks w) h T.
Proof. apply (ta_threads _ _ (wi_tasks w Hw) h T HT). Qed.

Lemma activity_here : activity_at w h = Some (activity_of (th_place T)).
Proof. unfold activity_at. by rewrite HT. Qed.

(** The current task of the thread. *)
Lemma current_task x : in_task (th_place T) = true → th_task T = Some x → ∃ t, w_tasks w !! x = Some t ∧ wt_thread t = Some h.
Proof. intros Hin Hx. apply (tt_own _ _ _ own_thread). by apply current_own. Qed.

Lemma blocked_task :
  activity_of (th_place T) = Blocked →
  ∃ x t, th_task T = Some x ∧ w_tasks w !! x = Some t ∧ wt_thread t = Some h ∧ blocked_status (wt_status t) = true.
Proof.
  intros Ha. assert (in_task (th_place T) = true) as Hin by (by destruct (th_place T) as [| | |?|? []|[]| | | |? ?|]).
  assert (∃ x s, th_task T = Some x ∧ status_at (w_tasks w) x = Some s ∧ blocked_status s = true) as (x & s & Hx & Hs & Hb).
  { pose proof (tt_current _ _ _ own_thread) as Hc. unfold current_ok in Hc.
    destruct (th_place T) as [| | |?|? []|[]| | | |? ?|]; try done. naive_solver. }
  destruct (current_task x Hin Hx) as (t & Ht & Hth). exists x, t. unfold status_at in Hs. rewrite Ht in Hs. by injection Hs as <-.
Qed.

Lemma executing_task :
  th_place T = Executing → ∃ x t, th_task T = Some x ∧ w_tasks w !! x = Some t ∧ wt_thread t = Some h ∧ wt_status t = Running.
Proof.
  intros Hp. pose proof (tt_current _ _ _ own_thread) as Hc. unfold current_ok in Hc. rewrite Hp in Hc.
  destruct Hc as (x & Hx & Hs). destruct (current_task x) as (t & Ht & Hth); [by rewrite Hp|done|].
  exists x, t. unfold status_at in Hs. rewrite Ht in Hs. by injection Hs as ->.
Qed.

(** A busy thread has not been signaled. *)
Lemma busy_unsignaled : activity_of (th_place T) = Busy → th_signaled T = false ∧ th_cpuToBeResumedOn T = None.
Proof.
  intros Hb. assert (th_signaled T = false) as Hs.
  { destruct (th_signaled T) eqn:Hs; [|done]. exfalso. apply (rf_busy _ _ (wi_refs w Hw) h Signaled); [rewrite activity_here; by rewrite Hb|].
    unfold refers. rewrite HT. cbn. by rewrite Hs. }
  split; [done|]. pose proof (co_signaled _ _ (wi_cpus w Hw) h T HT) as Hc. rewrite Hs in Hc. symmetry in Hc.
  apply bool_decide_eq_false in Hc. destruct (th_cpuToBeResumedOn T); [by destruct Hc|done].
Qed.

(** A thread goes to another place with the same tasks and the same reference. *)
Lemma move_ok p :
  in_task p = in_task (th_place T) → taken_task (at_place p T) = taken_task T → current_ok (w_tasks w) (at_place p T) →
  hand (at_place p T) = hand T → activity_of p = activity_of (th_place T) →
  tasks_ok (put_thread h (at_place p T) w) ∧ refs_ok (put_thread h (at_place p T) w).
Proof.
  intros Hin Htk Hc Hh Ha. split; [by apply tasks_place; [apply Hw|..]|].
  apply (refs_place w h T _ HT); [right; by left|apply Hw|done|done|by right].
Qed.

(** ** The body of a thread *)

Lemma check_activation_ok o :
  th_place T = Checking → (∀ x, o = Some x → x ∈ w_idleCPUs w) → task_runs T w → succeeds (check_activation h T o w).
Proof.
  intros Hp Ho Hruns. assert (holds w (Now h) (th_cpu T)) as Hnow by (cbn; rewrite HT; cbn; unfold now; by rewrite Hp).
  destruct (co_known _ _ (wi_cpus w Hw) _ _ Hnow) as [s Hs]. unfold check_activation. rewrite Hs. cbn [get mbind res_bind].
  assert (tasks_ok (put_thread h (at_place Fetching T) w) ∧ refs_ok (put_thread h (at_place Fetching T) w)) as [HF1 HF2].
  { apply move_ok; cbn; try (by rewrite ?Hp); unfold taken_task, hand; cbn; by rewrite Hp. }
  assert (s ≠ disabled_status) as Hd by (intros ->; assert (Now h = DisabledCPU); [by eapply (holds_fun None); [apply Hw|..]|done]).
  destruct s; cbn; try done.
  - by exists w; split_and!; try apply Hw.
  - eexists. split_and!; [done|apply Hw|]. by eapply refs_world; [apply Hw|..].
  - by eexists; split_and!.
  - eexists. split_and!; [done|done|]. by eapply refs_world.
  - destruct o as [c|].
    + specialize (Ho c eq_refl). destruct busy_unsignaled as [Hsig Hres]; [by rewrite Hp|].
      unfold migrate. assert (th_cpu T ≠ c) as Hne.
      { intros <-. assert (Now h = IdleCPU); [by eapply (holds_fun None); [apply Hw|..]|done]. }
      rewrite (bool_decide_eq_false_2 _ Hne), (bool_decide_eq_true_2 _ Hres). cbn. eexists. split_and!; [done|..].
      * cbn. apply (tasks_thread _ _ (wi_tasks w Hw) h T HT). eapply thread_tasks_ext; [..|apply own_thread]; done.
      * eapply refs_world; [apply (refs_place w h T (on_cpu c T) HT)|..]; [right; by left|apply Hw|done|done|by right|done..].
    + specialize (Hruns Hp Hs). destruct (move_ok (AddingIdler None)) as [H1 H2].
      1-5: try (by cbn; rewrite Hp); unfold taken_task, hand, current_ok; cbn; rewrite ?Hp; cbn; try done.
      eexists. split_and!; [done|done|]. by eapply refs_world.
Qed.

(** A task that nobody refers to a thread by. *)
Lemma not_by_task x t g : w_tasks w !! x = Some t → pending (wt_status t) = false → ¬ by_task (w_tasks w !! x) g.
Proof. intros Ht Hp (u & Hu & _ & Hpu). congruence. Qed.

Lemma fetch_ok o :
  th_place T = Fetching → (∀ x, o = Some x → ∃ t, w_tasks w !! x = Some t ∧ wt_status t = Ready) → succeeds (fetch h T o w).
Proof.
  intros Hp Ho. unfold fetch, take_task. destruct (th_task T) as [y|] eqn:Hy; [|destruct o as [x|]].
  - eexists. split; [done|]. apply move_ok; try (by rewrite Hp); unfold taken_task, hand, current_ok; cbn; rewrite ?Hp; cbn; by rewrite ?Hy.
  - destruct (Ho x eq_refl) as (t & Ht & Hst). unfold task. rewrite Ht. cbn. eexists. split_and!; [done|..].
    + cbn. eapply (tasks_take _ _ (wi_tasks w Hw) h T); try done.
      * unfold taken_task. by rewrite Hp.
      * unfold own_tasks. cbn. by rewrite Hp.
      * cbn. by rewrite Hp.
      * by eexists.
    + apply (refs_place (put_task x (with_status (Taken h) t) w) h T _ HT); [right; right|..].
      * intros n Hr. eapply (rf_busy _ _ (wi_refs w Hw) h (InIdle n)); [rewrite activity_here; by rewrite Hp|done].
      * apply refs_task; [apply Hw|]. intros g. rewrite Ht, !by_task_Some. cbn. by rewrite Hst.
      * unfold hand. cbn. by rewrite Hp.
      * done.
      * right. by rewrite Hp.
  - destruct (move_ok (AddingIdler None)) as [H1 H2];
      try (by rewrite Hp); unfold taken_task, hand, current_ok; cbn; rewrite ?Hp; cbn; try done.
    eexists. split_and!; [done|done|]. by eapply refs_world.
Qed.

Lemma hand_at p : hand (at_place p T) = match p with AddingIdler next | Switching next _ => next | _ => None end.
Proof. done. Qed.

(** The thread of a pending task is not busy. *)
Lemma task_thread x t a :
  w_tasks w !! x = Some t → wt_thread t = Some a → pending (wt_status t) = true →
  ∃ A, w_threads w !! a = Some A ∧ activity_of (th_place A) = Blocked ∧ th_task A = Some x.
Proof.
  intros Ht Hth Hp. destruct (ta_thread _ _ (wi_tasks w Hw) x t a Ht Hth) as [A HA]. exists A. split; [done|].
  eapply pending_current; [apply (ta_threads _ _ (wi_tasks w Hw) a A HA)|by exists t| |exact Hp].
  unfold status_at. by rewrite Ht.
Qed.

Lemma taken_here x : taken_task T = Some x → ∃ t, w_tasks w !! x = Some t ∧ wt_status t = Taken h.
Proof. intros Hx%(tt_taken _ _ _ own_thread). unfold status_at in Hx. apply fmap_Some in Hx as (t & Ht & Hs). by exists t. Qed.

(** The thread goes on to resume the thread of a task that it has taken. *)
Lemma hand_over x t a T' :
  taken_task T = Some x → w_tasks w !! x = Some t → wt_thread t = Some a → a ≠ h →
  taken_task T' = None → own_tasks T' = own_tasks T → th_stack T' = th_stack T → in_task (th_place T') = in_task (th_place T) →
  current_ok (<[x := with_status Running t]> (w_tasks w)) T' →
  hand T = None → hand T' = Some a → th_signaled T' = th_signaled T → activity_of (th_place T') = activity_of (th_place T) →
  (th_task T' = None ∨ th_task T' = th_task T) →
  tasks_ok (put_thread h T' (put_task x (with_status Running t) w)) ∧ refs_ok (put_thread h T' (put_task x (with_status Running t) w)).
Proof.
  intros Htk Ht Hth Hah Htk' Hown Hstack Hin Hc Hhand Hhand' Hsig Hact Htask.
  destruct (taken_here x Htk) as (t' & Ht' & Hst). simplify_eq.
  destruct (task_thread x t a Ht Hth) as (A & HA & Hblk & _); [by rewrite Hst|]. split.
  - cbn. eapply (tasks_untake _ _ (wi_tasks w Hw) h T); try done; [right; by rewrite Hth|congruence].
  - eapply (refs_take_hand (put_task x (with_status Running t) w) h T T' HT) with (a := a) (k := Blocked); try done; [naive_solver| |].
    + apply refs_task_drop; [apply Hw| |intros g; rewrite by_task_Some; by intros [_ ?]].
      rewrite Ht, by_task_Some, Hst. done.
    + unfold activity_at. cbn. rewrite HA. cbn. by rewrite Hblk.
Qed.

Lemma dispatch_ok : th_place T = Dispatching → succeeds (dispatch h T w).
Proof.
  intros Hp. pose proof (tt_current _ _ _ own_thread) as Hc. unfold current_ok in Hc. rewrite Hp in Hc. destruct Hc as [x Hx].
  assert (taken_task T = Some x) as Htk by (unfold taken_task; by rewrite Hp). destruct (taken_here x Htk) as (t & Ht & Hst).
  assert (th_stack T = []) as Hstack by (apply (tt_body _ _ _ own_thread); by rewrite Hp).
  assert (own_tasks T = []) as Hown by (unfold own_tasks; by rewrite Hp, Hstack).
  unfold dispatch. rewrite Hx. cbn. unfold task. rewrite Ht. cbn. destruct (wt_thread t) as [a|] eqn:Hth.
  - eexists. split; [done|]. eapply hand_over; try done; try (by rewrite Hp).
    + intros ->. assert (x ∈ own_tasks T) as Hin by (apply (tt_own _ _ _ own_thread); by exists t). rewrite Hown in Hin. set_solver.
    + unfold own_tasks. cbn. by rewrite Hp, Hstack.
    + unfold hand. by rewrite Hp.
    + by left.
  - unfold handleTask, task. rewrite Ht. cbn. eexists. split_and!; [done|..].
    + cbn. eapply (tasks_start _ _ (wi_tasks w Hw) h T HT); [done|done|by right|by rewrite Hstack, Hown|rewrite Hstack; set_solver].
    + apply (refs_place (put_task x (mkWTask (Some h) (wt_parent t) Running) w) h T _ HT); [right; left; by rewrite Hx| |unfold hand; cbn; by rewrite Hp|done|right; cbn; by rewrite Hp].
      apply refs_task; [apply Hw|]. intros g. rewrite Ht, !by_task_Some, Hth. cbn. naive_solver.
Qed.

Lemma addIdler_ok next :
  th_place T = AddingIdler next → succeeds (w1 ← addIdler h T w; Ok (put_thread h (at_place (Switching next ToBody) T) w1)).
Proof.
  intros Hp. pose proof (tt_current _ _ _ own_thread) as Hc. unfold current_ok in Hc. rewrite Hp in Hc.
  assert (activity_at w h = Some Busy) as Hb by (rewrite activity_here; by rewrite Hp).
  unfold addIdler. rewrite bool_decide_true by (exact (rf_busy _ _ (wi_refs w Hw) h (InIdle _) Hb)). cbn.
  eexists. split_and!; [done|..].
  - cbn. apply tasks_place; [apply Hw|done|by rewrite Hp|unfold taken_task; cbn; by rewrite Hp|done].
  - assert (refs_in (Some h) (put_thread h (at_place (Switching next ToBody) T) w)) as Hr.
    { apply (refs_place w h T _ HT); [right; by left|by apply refs_transit; [apply Hw|]|unfold hand; cbn; by rewrite Hp|done|by left]. }
    eapply (refs_add_idle _ h _ (th_originalNumaNode T)) in Hr; [exact Hr|cbn; by rewrite lookup_insert_eq|done|done].
Qed.

(** A thread whose reference is on its way is signaled. *)
Lemma resume_ok v a A c :
  refs_in (Some a) v → signals_ok v → w_threads v !! a = Some A → activity_of (th_place A) ≠ Busy → tasks_ok v → succeeds (resume a c v).
Proof.
  intros Hr Hs HA Hact Htasks. assert (th_signaled A = false) as Hsig.
  { destruct (th_signaled A) eqn:He; [|done]. exfalso. apply (rf_none _ _ Hr a Signaled eq_refl). unfold refers. rewrite HA. cbn. by rewrite He. }
  assert (th_cpuToBeResumedOn A = None) as Hres.
  { pose proof (Hs a A HA) as Hc. rewrite Hsig in Hc. symmetry in Hc. apply bool_decide_eq_false in Hc.
    destruct (th_cpuToBeResumedOn A); [by destruct Hc|done]. }
  unfold resume, thread. rewrite HA. cbn. rewrite (bool_decide_eq_true_2 _ Hres), Hsig. cbn. eexists. split_and!; [done|..].
  - cbn. apply (tasks_thread _ _ Htasks a A HA). eapply thread_tasks_ext; [..|apply (ta_threads _ _ Htasks a A HA)]; done.
  - apply (refs_signal v a A _ HA); try done. right; by left.
Qed.

Lemma switchTo_ok next k : th_place T = Switching next k → succeeds (switchTo h T next k w).
Proof.
  intros Hp. assert (hand T = next) as Hhand by (unfold hand; by rewrite Hp). unfold switchTo.
  rewrite bool_decide_false by (rewrite <- Hhand; by apply (hand_self w h T HT None (wi_refs w Hw))). cbn.
  assert (in_task (Suspended k) = in_task (th_place T)) as Hin by (rewrite Hp; by destruct k).
  assert (activity_of (Suspended k) = activity_of (th_place T)) as Hact by (rewrite Hp; by destruct k).
  assert (tasks_ok (put_thread h (at_place (Suspended k) T) w)) as Ht.
  { apply tasks_place; [apply Hw|done|done|unfold taken_task; cbn; rewrite Hp; by destruct k|].
    pose proof (tt_current _ _ _ own_thread) as Hc. unfold current_ok in *. rewrite Hp in Hc. by destruct k. }
  destruct next as [a|].
  - destruct (rf_known _ _ (wi_refs w Hw) a (InHand h)) as [A HA]; [cbn; by rewrite HT|].
    assert (a ≠ h) as Hah by (intros ->; by apply (hand_self w h T HT None (wi_refs w Hw))).
    eapply resume_ok with (A := A); [..|exact Ht].
    + eapply (refs_leave_hand w h T); try done; [right; by left|apply Hw].
    + apply signaled_put; [apply (co_signaled _ _ (wi_cpus w Hw))|]. exact (co_signaled _ _ (wi_cpus w Hw) h T HT).
    + rewrite lookup_put_thread. by rewrite decide_False.
    + intros Hb. apply (rf_busy _ _ (wi_refs w Hw) a (InHand h)); [unfold activity_at; rewrite HA; cbn; by rewrite Hb|cbn; by rewrite HT].
  - eexists. split_and!; [done|done|]. apply (refs_place w h T _ HT); [right; by left|apply Hw|by rewrite Hhand|done|by right].
Qed.

(** A signaled thread has no pending task. *)
Lemma signaled_running x t :
  th_signaled T = true → w_tasks w !! x = Some t → wt_thread t = Some h → pending (wt_status t) = false.
Proof.
  intros Hs Ht Hth. destruct (pending (wt_status t)) eqn:Hp; [|done]. exfalso.
  assert (Signaled = ByTask x); [|done]. eapply refers_fun; [apply Hw|..]; [unfold refers; rewrite HT; cbn; by rewrite Hs|by exists t].
Qed.

Lemma suspend_ok k : th_place T = Suspended k → th_signaled T = true → succeeds (suspend h T k w).
Proof.
  intros Hp Hs. unfold suspend. pose proof (co_signaled _ _ (wi_cpus w Hw) h T HT) as Hc. rewrite Hs in Hc.
  symmetry in Hc. apply bool_decide_eq_true in Hc as [c Hc]. rewrite Hc.
  set (p := match k with ToBody => Checking | ToTask => Executing end).
  assert (activity_of p = Busy) as Hb by (by destruct k). eexists. split_and!; [done|..].
  - cbn. apply (tasks_thread _ _ (wi_tasks w Hw) h T HT). apply (thread_tasks_ext _ _ (at_place p T)); [done..|].
    apply (thread_place _ _ (wi_tasks w Hw) h T HT); [rewrite Hp; by destruct k|unfold taken_task; cbn; rewrite Hp; by destruct k|].
    destruct k; [done|]. destruct blocked_task as (x & t & Hx & Ht & Hth & Hst); [by rewrite Hp|].
    pose proof (signaled_running x t Hs Ht Hth) as Hnp. exists x. split; [done|]. unfold status_at. rewrite Ht. cbn.
    unfold blocked_status in Hst. rewrite Hnp in Hst. by apply bool_decide_eq_true in Hst as ->.
  - eapply refs_settle; [apply (refs_unsignal w h T)|rewrite activity_put, decide_True by done; cbn; by rewrite Hb];
      try done; [right; by left|apply Hw|]. unfold hand. cbn. rewrite Hp. by destruct k.
Qed.

(** A task that is ready to run is not among those of a thread, unless it is the blocked one. *)
Lemma ready_other x y u :
  th_task T = Some x → w_tasks w !! y = Some u → pending (wt_status u) = true → y ≠ x → wt_thread u ≠ Some h.
Proof.
  intros Hx Hu Hp Hne Hth. destruct (task_thread y u h Hu Hth Hp) as (A & HA & _ & Hy). congruence.
Qed.

(** The thread goes on with its task. *)
Lemma go_on p x t s :
  th_task T = Some x → w_tasks w !! x = Some t → wt_thread t = Some h →
  activity_of (th_place T) = Blocked → taken_task T = None → hand T = None → pending (wt_status t) = true →
  (∀ g, g ≠ h → wt_status t ≠ Taken g) → th_signaled T = false → p = Executing → s = Running →
  tasks_ok (put_thread h (at_place p T) (put_task x (with_status s t) w)) ∧
  refs_ok (put_thread h (at_place p T) (put_task x (with_status s t) w)).
Proof.
  intros Hx Ht Hth Hact Htk Hhand Hp Hst Hs -> ->. split.
  - cbn. eapply tasks_current; try done; [apply Hw|destruct (th_place T) as [| | |?|? []|[]| | | |? ?|]; done|].
    exists x. split; [done|]. by rewrite status_insert, decide_True.
  - eapply refs_settle with (h := h); [|by rewrite activity_put, decide_True].
    apply (refs_place (put_task x (with_status Running t) w) h T _ HT); [right; by left| |by rewrite Hhand|done|by left].
    apply refs_task_drop; [apply Hw|rewrite Ht; by apply by_task_Some|]. intros g. rewrite by_task_Some. by intros [_ ?].
Qed.

Lemma block_fetch_ok policy o :
  th_place T = Blocking policy → (∀ y, o = Some y → ∃ t, w_tasks w !! y = Some t ∧ wt_status t = Ready) →
  succeeds (block_fetch h T policy o w).
Proof.
  intros Hp Ho. destruct blocked_task as (x & t & Hx & Ht & Hth & Hst); [by rewrite Hp|].
  unfold block_fetch. rewrite Hx. cbn. destruct o as [y|].
  - destruct (Ho y eq_refl) as (u & Hu & Hru). destruct (decide (y = x)) as [->|Hne].
    + simplify_eq. unfold task. rewrite Ht. cbn. eexists. split; [done|].
      apply go_on; try done; [by rewrite Hp|unfold taken_task; by rewrite Hp|unfold hand; by rewrite Hp|by rewrite Hru|congruence|].
      destruct (th_signaled T) eqn:Hs; [|done]. pose proof (signaled_running x t Hs Ht Hth) as Hc; by rewrite Hru in Hc.
    + unfold take_task, task. rewrite Hu. cbn. eexists. split_and!; [done|..].
      * cbn. eapply (tasks_take _ _ (wi_tasks w Hw) h T); try done.
        -- unfold taken_task. by rewrite Hp.
        -- unfold own_tasks. cbn. by rewrite Hp.
        -- cbn. by rewrite Hp.
        -- exists x, (wt_status t). rewrite status_insert, decide_False by done. unfold status_at. by rewrite Ht.
      * apply (refs_place (put_task y (with_status (Taken h) u) w) h T _ HT); [right; by left| |unfold hand; cbn; by rewrite Hp|done|right; by rewrite Hp].
        apply refs_task; [apply Hw|]. intros g. rewrite Hu, !by_task_Some. cbn. by rewrite Hru.
  - eexists. split; [done|]. destruct (move_ok (Switching None ToTask)) as [H1 H2];
      try (by rewrite Hp); try (unfold taken_task, hand; cbn; by rewrite Hp).
    { exists x, (wt_status t). unfold status_at. by rewrite Ht. }
    split; [done|]. by eapply refs_world.
Qed.

(** The task of the thread blocks, with another thread in the hands of this one if any. *)
Section blocks.
Context (x : nat) (t : wtask) (Hx : th_task T = Some x) (Ht : w_tasks w !! x = Some t).
Context (Hin : in_task (th_place T) = true) (Hbusy : activity_of (th_place T) = Busy) (Hhand : hand T = None).
Context (s : task_status) (Hs : s = Waiting ∨ s = Ready).

Lemma status_known : wt_thread t = Some h ∧ pending (wt_status t) = false ∧ taken_task T = None.
Proof.
  destruct (current_task x Hin Hx) as (t' & Ht' & Hth). simplify_eq. split_and!; [done|..].
  - destruct (pending (wt_status t)) eqn:Hp; [|done]. destruct (task_thread x t h Ht Hth Hp) as (A & HA & Hblk & _). congruence.
  - unfold taken_task. by destruct (th_place T) as [| | |?|? []|[]| | | |? ?|].
Qed.

Lemma tasks_blocks p :
  activity_of p = Blocked → (∀ y q, p ≠ Replacing y q) → tasks_ok (put_thread h (at_place p T) (put_task x (with_status s t) w)).
Proof.
  intros Hp Hr. destruct status_known as (Hth & Hpend & Htk). cbn. eapply tasks_current; try done; [apply Hw|..].
  - by destruct p as [| | |?|? []|[]| | | |? ?|].
  - unfold taken_task. by destruct p as [| | |?|? []|[]| | | |? ?|]; try done; destruct (Hr x0 policy).
  - intros g ->. by destruct Hs.
  - intros g _ He. by rewrite He in Hpend.
  - unfold current_ok. cbn. assert (∃ z r, th_task T = Some z ∧ status_at (<[x:=with_status s t]> (w_tasks w)) z = Some r ∧ blocked_status r = true) as Hc.
    { exists x, s. rewrite status_insert, decide_True by done. split_and!; [done|done|]. by destruct Hs as [->| ->]. }
    by destruct p as [| | |?|? []|[]| | | |? ?|]; try done; destruct (Hr x0 policy).
Qed.

Lemma refs_blocks v p :
  refs_ok v → w_threads v !! h = Some T → w_tasks v !! x = Some t → hand (at_place p T) = None → activity_of p = Blocked →
  refs_ok (put_thread h (at_place p T) (put_task x (with_status s t) v)).
Proof.
  intros Hv HTv Htv Hh Hp. destruct status_known as (Hth & Hpend & Htk).
  apply (refs_task_pick (put_thread h (at_place p T) v) x _ h).
  - apply (refs_place v h T _ HTv); [right; by left| |by rewrite Hhand|done|by left].
    apply refs_transit; [done|unfold activity_at; rewrite HTv; cbn; by rewrite Hbusy].
  - rewrite activity_put, decide_True by done. cbn. by rewrite Hp.
  - intros g (t' & Ht' & _ & Hp'). cbn in Ht'. rewrite Htv in Ht'. injection Ht' as <-. by rewrite Hpend in Hp'.
  - intros g. rewrite by_task_Some. cbn. rewrite Hth. destruct Hs as [->| ->]; naive_solver.
Qed.

(** The thread gives its CPU to one whose reference is on its way. *)
Lemma refs_yields v a k :
  refs_in (Some a) v → w_threads v !! h = Some T → w_tasks v !! x = Some t → a ≠ h → activity_at v a = Some k → k ≠ Busy →
  refs_ok (put_thread h (at_place (Switching (Some a) ToTask) T) (put_task x (with_status s t) v)).
Proof.
  intros Hv HTv Htv Hah Hk Hkb. destruct status_known as (Hth & Hpend & Htk). set (T1 := at_place (AddingIdler (Some a)) T).
  assert (refs_ok (put_thread h T1 v)) as H1 by (eapply (refs_take_hand v h T T1 HTv); try done; right; by left).
  assert (w_threads (put_thread h T1 v) !! h = Some T1) as HT1 by (by rewrite lookup_put_thread, decide_True).
  set (T2 := at_place (Switching (Some a) ToTask) T).
  assert (refs_in (Some h) (put_thread h T2 (put_thread h T1 v))) as H2.
  { apply (refs_place _ h T1 T2 HT1); [right; by left| |done|done|by left].
    apply refs_transit; [done|]. by rewrite activity_put, decide_True. }
  apply (refs_task_pick _ x (with_status s t) h) in H2; cycle 1.
  - by rewrite activity_put, decide_True.
  - intros g (t' & Ht' & _ & Hp'). cbn in Ht'. rewrite Htv in Ht'. injection Ht' as <-. by rewrite Hpend in Hp'.
  - intros g. rewrite by_task_Some. cbn. rewrite Hth. destruct Hs as [->| ->]; naive_solver.
  - unfold put_task, put_thread in H2. cbn in H2. by rewrite insert_insert_eq in H2.
Qed.
End blocks.
End thread.

(** ** Idle threads *)

(** An idle thread [a] has been taken out of its list, or created, in the state [v]. *)
Record idle_thread (w : world) (a : nat) (A : worker) (v : world) : Prop := {
  it_tasks : tasks_ok v;
  it_refs : refs_in (Some a) v;
  it_signals : signals_ok v;
  it_thread : w_threads v !! a = Some A;
  it_idling : activity_of (th_place A) = Idling;
  it_task : th_task A = None;
  it_same : w_tasks v = w_tasks w;
  it_others : ∀ g U, w_threads w !! g = Some U → activity_of (th_place U) ≠ Idling → g ≠ a ∧ w_threads v !! g = Some U;
}.

Section idle.
Context (node_of : nat → nat).

Lemma getIdleThread_ok w fresh c :
  tasks_ok w → refs_ok w → signals_ok w → w_threads w !! fresh = None →
  ∃ a A v, getIdleThread node_of fresh c w = Ok (a, v) ∧ idle_thread w a A v.
Proof.
  intros Ht Hr Hs Hf. unfold getIdleThread. destruct (idle_at (node_of c) w) as [|a l] eqn:Hl.
  - eexists fresh, (mkWorker c None false None [] (node_of c) (Suspended ToBody)), _. split; [done|]. split; [| | | |done..|].
    + cbn. by apply tasks_new_thread.
    + by apply refs_new_thread.
    + by apply signaled_put.
    + unfold createWorkerThread. by rewrite lookup_put_thread, decide_True.
    + intros g U HU _. assert (g ≠ fresh) as Hne by congruence. split; [done|]. unfold createWorkerThread. by rewrite lookup_put_thread, decide_False.
  - assert (refers w (InIdle (node_of c)) a) as Ha by (unfold refers; rewrite Hl; left).
    destruct (rf_known _ _ Hr a _ Ha) as [A HA]. assert (th_task A = None) as Hx by (by eapply rf_idle).
    unfold thread. rewrite HA. cbn. rewrite bool_decide_true by done. cbn.
    assert (activity_at w a = Some (activity_of (th_place A))) as Hact by (unfold activity_at; by rewrite HA).
    assert (activity_of (th_place A) = Idling) as Hidle.
    { destruct (decide (activity_of (th_place A) = Busy)) as [Hb|Hb]; [rewrite Hb in Hact; by destruct (rf_busy _ _ Hr a _ Hact Ha)|].
      destruct (rf_some _ _ Hr a _ ltac:(done) Hact Hb) as (r & Hfit & Hu). apply Hu in Ha as <-. by destruct (activity_of _). }
    eexists a, A, _. split; [done|]. split; try done; [by apply refs_pop_idle|].
    intros g U HU Hg. split; [|done]. congruence.
Qed.

Lemma idle_activity w a A v : idle_thread w a A v → activity_at v a = Some Idling.
Proof. intros H. unfold activity_at. rewrite (it_thread _ _ _ _ H). cbn. by rewrite (it_idling _ _ _ _ H). Qed.

Lemma resumeIdle_ok w fresh c :
  tasks_ok w → refs_ok w → signals_ok w → w_threads w !! fresh = None → succeeds (resumeIdle node_of fresh c w).
Proof.
  intros Ht Hr Hs Hf. destruct (getIdleThread_ok w fresh c Ht Hr Hs Hf) as (a & A & v & Hv & HI).
  unfold resumeIdle. rewrite Hv. cbn. eapply resume_ok; [apply HI..|by rewrite (it_idling _ _ _ _ HI)|apply HI].
Qed.

Section thread.
Context (w : world) (Hw : workers_ok w) (h : nat) (T : worker) (HT : w_threads w !! h = Some T).
Context (fresh : nat) (Hfresh : w_threads w !! fresh = None).

(** The thread has taken a replacement for its task. *)
Section replaces.
Context (y : nat) (policy : inline_policy) (u : wtask) (Hp : th_place T = Replacing y policy) (Hu : w_tasks w !! y = Some u).

Lemma replaced_task : ∃ x t, th_task T = Some x ∧ w_tasks w !! x = Some t ∧ wt_thread t = Some h ∧ blocked_status (wt_status t) = true ∧ x ≠ y.
Proof.
  destruct (blocked_task w Hw h T HT) as (x & t & Hx & Ht & Hth & Hst); [by rewrite Hp|]. exists x, t. split_and!; try done.
  pose proof (tt_current _ _ _ (own_thread w Hw h T HT)) as Hc. unfold current_ok in Hc. rewrite Hp in Hc. naive_solver.
Qed.

Lemma replacement : taken_task T = Some y ∧ wt_status u = Taken h ∧ hand T = None.
Proof.
  assert (taken_task T = Some y) as Htk by (unfold taken_task; by rewrite Hp).
  destruct (taken_here w Hw h T HT y Htk) as (u' & Hu' & Hst). simplify_eq. split_and!; [done|done|]. unfold hand. by rewrite Hp.
Qed.

(** What the thread keeps while the replacement changes. *)
Lemma still_blocked p m : 
  (∃ x, th_task T = Some x ∧ status_at m x = status_at (w_tasks w) x) → 
  match p with Switching _ ToTask | Blocking _ => True | _ => False end → current_ok m (at_place p T).
Proof.
  intros (x & Hx & Hs) Hpl. destruct replaced_task as (x' & t & Hx' & Ht & _ & Hst & _). simplify_eq.
  unfold current_ok. cbn. unfold status_at in Hs. rewrite Ht in Hs. cbn in Hs.
  destruct p as [| | |?|? []|[]| | | |? ?|]; try done; by exists x, (wt_status t).
Qed.

Lemma replace_in_thread_ok : wt_thread u = None → succeeds (replace_in_thread node_of h T y fresh w).
Proof.
  intros Hn. destruct replacement as (Htk & Hst & Hhand). destruct replaced_task as (x & t & Hx & Ht & Hth & Hb & Hne).
  destruct (getIdleThread_ok w fresh (th_cpu T)) as (a & A & v & Hv & HI); [apply Hw..|apply (co_signaled _ _ (wi_cpus w Hw))|done|].
  destruct (it_others _ _ _ _ HI h T HT) as [Hah HTv]; [by rewrite Hp|].
  unfold replace_in_thread, setTask, thread, task. rewrite Hv. cbn. rewrite (it_thread _ _ _ _ HI). cbn.
  rewrite bool_decide_true by apply HI. cbn. rewrite (it_same _ _ _ _ HI), Hu. cbn.
  set (A' := with_task (Some y) (th_stack A) A). set (T' := at_place (Switching (Some a) ToTask) T).
  eexists. split_and!; [done|..]; cbn.
  - pose proof (it_tasks _ _ _ _ HI) as Hv1. rewrite (it_same _ _ _ _ HI) in *.
    assert (tasks_of (<[h := T']> (w_threads v)) (<[y := with_status Ready u]> (w_tasks w))) as H1.
    { eapply (tasks_untake _ _ Hv1 h T T' HTv); try done; [by left|congruence|unfold own_tasks; cbn; by rewrite Hp|by rewrite Hp|].
      apply still_blocked; [|done]. exists x. by rewrite status_insert, decide_False. }
    assert (in_task (th_place A) = false) as HinA by (pose proof (it_idling _ _ _ _ HI); by destruct (th_place A) as [| | |?|? []|[]| | | |? ?|]).
    rewrite insert_insert_ne by done. rewrite <- (insert_insert_eq (w_tasks w) y (with_status (Taken a) u) (with_status Ready u)).
    eapply (tasks_take _ _ H1 a A A') with (x := y) (t := with_status Ready u); try done.
    + rewrite lookup_insert_ne by done. apply HI.
    + by rewrite lookup_insert_eq.
    + unfold taken_task. pose proof (it_task _ _ _ _ HI). by destruct (th_place A) as [| | |?|? []|[]| | | |? ?|].
    + unfold taken_task. cbn. by destruct (th_place A) as [| | |?|? []|[]| | | |? ?|].
    + unfold own_tasks. cbn. by rewrite HinA.
    + pose proof (it_idling _ _ _ _ HI). unfold current_ok. cbn. by destruct (th_place A) as [| | |?|? []|[]| | | |? ?|].
  - assert (refs_in (Some a) (put_task y (with_status (Taken a) u) (put_thread a A' v))) as H1.
    { apply refs_task.
      - apply (refs_place v a A A' (it_thread _ _ _ _ HI)); [right; right; intros n; by apply (rf_none _ _ (it_refs _ _ _ _ HI))|apply HI|done|done|by left].
      - intros g. cbn. rewrite (it_same _ _ _ _ HI), Hu, !by_task_Some. cbn. rewrite Hn; naive_solver. }
    eapply (refs_take_hand _ h T T' ) with (a := a) (k := Idling); try done; [..|by rewrite Hp].
    + cbn. by rewrite lookup_insert_ne.
    + right. by left.
    + unfold activity_at. cbn. rewrite lookup_insert_eq. cbn. by rewrite (it_idling _ _ _ _ HI).
Qed.
(** The replacement runs inline, over the task that waits. *)
Lemma replace_inline_ok x t :
  wt_thread u = None → th_task T = Some x → w_tasks w !! x = Some t → wt_status t = Waiting →
  succeeds (handleTask h y ((x, Some policy) :: th_stack T) T (put_task x (with_status SchedulingDisabled t) w)).
Proof.
  intros Hn Hx Ht Hwait. destruct replacement as (Htk & Hst & Hhand). destruct replaced_task as (x' & t' & Hx' & Ht' & Hth & _ & Hne). simplify_eq.
  unfold handleTask, task. cbn. rewrite lookup_insert_ne, Hu by done. cbn. eexists. split_and!; [done|..]; cbn.
  - set (T1 := at_place (Blocking policy) T). set (T2 := at_place (Inlined policy) T1).
    assert (tasks_of (<[h := T1]> (w_threads w)) (<[y := with_status Ready u]> (w_tasks w))) as H1.
    { eapply (tasks_untake _ _ (wi_tasks w Hw) h T T1 HT); try done; [by left|congruence|unfold own_tasks; cbn; by rewrite Hp|by rewrite Hp|].
      apply still_blocked; [|done]. exists x. by rewrite status_insert, decide_False. }
    assert (tasks_of (<[h := T2]> (<[h := T1]> (w_threads w))) (<[x := with_status SchedulingDisabled t]> (<[y := with_status Ready u]> (w_tasks w)))) as H2.
    { eapply (tasks_current _ _ H1 h T1); try done; [by rewrite lookup_insert_eq|by rewrite lookup_insert_ne|intros g _; by rewrite Hwait|].
      exists x. split; [done|]. rewrite status_insert, decide_True by done. by left. }
    rewrite insert_insert_eq in H2. rewrite insert_insert_ne in H2 by done.
    rewrite <- (insert_insert_eq (w_threads w) h _ T2).
    rewrite <- (insert_insert_eq (<[x := with_status SchedulingDisabled t]> (w_tasks w)) y _ (with_status Ready u)).
    eapply (tasks_start _ _ H2 h T2) with (x := y) (t := with_status Ready u); try done.
    + by rewrite lookup_insert_eq.
    + by rewrite lookup_insert_eq.
    + by left.
    + unfold own_tasks. cbn. by rewrite Hx.
    + intros f [->|Hf]%elem_of_cons.
      * left. cbn. rewrite !status_insert, decide_False, decide_True by done. done.
      * apply (tt_frames _ _ _ (ta_threads _ _ H2 h T2 (lookup_insert_eq _ _ _)) f Hf).
  - eapply refs_settle with (h := h); [|by rewrite activity_put, decide_True].
    assert (refs_in (Some h) (put_task x (with_status SchedulingDisabled t) w)) as H1.
    { apply refs_task_drop; [apply Hw|rewrite Ht; apply by_task_Some; by rewrite Hwait|]. intros g. rewrite by_task_Some. by intros [_ ?]. }
    apply (refs_place (put_task y (mkWTask (Some h) (wt_parent u) Running) (put_task x (with_status SchedulingDisabled t) w)) h T _ HT); [right; right; intros n; by apply (rf_none _ _ H1 h (InIdle n))| |by rewrite Hhand|done|by left].
    apply refs_task; [done|]. intros g. cbn. rewrite lookup_insert_ne, Hu, !by_task_Some, Hn by done. cbn. naive_solver.
Qed.

Lemma block_replace_ok : succeeds (block_replace node_of h T y policy fresh w).
Proof.
  destruct replacement as (Htk & Hst & Hhand). destruct replaced_task as (x & t & Hx & Ht & Hth & Hb & Hne).
  unfold block_replace, task. rewrite Hx. cbn. rewrite Ht. cbn. rewrite Hu. cbn. destruct (wt_thread u) as [a|] eqn:Hua.
  - eexists. split; [done|]. eapply (hand_over w Hw h T HT y u a); try done; try (by rewrite Hp); [..|by right].
    + intros ->. eapply (ready_other w Hw h T HT x y u); try done. by rewrite Hst.
    + unfold own_tasks. cbn. by rewrite Hp.
    + apply still_blocked; [|done]. exists x. by rewrite status_insert, decide_False.
  - destruct (_ && _) eqn:Hc; [|by apply replace_in_thread_ok].
    apply andb_true_iff in Hc as [_ Hc]. apply bool_decide_eq_true in Hc. by apply replace_inline_ok.
Qed.
End replaces.

Lemma block_inlined_ok policy : th_place T = Inlined policy → succeeds (block_inlined h T policy w).
Proof.
  intros Hp. pose proof (tt_current _ _ _ (own_thread w Hw h T HT)) as Hc. unfold current_ok in Hc. rewrite Hp in Hc. destruct Hc as (x & Hx & Hs).
  destruct (current_task w Hw h T HT x) as (t & Ht & Hth); [by rewrite Hp|done|]. unfold status_at in Hs. rewrite Ht in Hs. cbn in Hs.
  assert (hand T = None) as Hhand by (unfold hand; by rewrite Hp).
  unfold block_inlined, task. rewrite Hx. cbn. rewrite Ht. cbn. destruct Hs as [[= Hs]|[= Hs]]; rewrite Hs.
  - eexists. split_and!; [done|apply tasks_blocks; first [done|by rewrite Hp|by left]|apply (refs_blocks w Hw h T HT); first [done|by rewrite Hp|by left|apply Hw]].
  - eexists. split_and!; [done|..]; cbn.
    + eapply (tasks_current _ _ (wi_tasks w Hw) h T); try done; [by rewrite Hp|unfold taken_task; by rewrite Hp|congruence|].
      exists x. split; [done|]. by rewrite status_insert, decide_True.
    + apply (refs_place (put_task x (with_status Running t) w) h T _ HT); [right; by left| |by rewrite Hhand|done|right; by rewrite Hp].
      apply refs_task; [apply Hw|]. intros g. rewrite Ht, !by_task_Some, Hs. done.
Qed.

Lemma advance_ok o : runs T → answers T o w → task_runs T w → succeeds (advance node_of h T o fresh w).
Proof.
  intros Hr Ho Hrun. unfold advance, runs, answers in *. destruct (th_place T) eqn:Hp; try done.
  - by apply check_activation_ok.
  - by apply fetch_ok.
  - by apply dispatch_ok.
  - by apply addIdler_ok.
  - by apply switchTo_ok.
  - by apply suspend_ok.
  - by apply block_fetch_ok.
  - destruct (taken_here w Hw h T HT x) as (u & Hu & _); [unfold taken_task; by rewrite Hp|]. by eapply block_replace_ok.
  - by apply block_inlined_ok.
Qed.

(** ** What a task does *)

Section executes.
Context (Hp : th_place T = Executing).

Lemma executing_busy : in_task (th_place T) = true ∧ activity_of (th_place T) = Busy ∧ hand T = None.
Proof. rewrite Hp. split_and!; [done..|]. unfold hand. by rewrite Hp. Qed.

Lemma stops_ok p x t s :
  th_task T = Some x → w_tasks w !! x = Some t → s = Waiting ∨ s = Ready → activity_of p = Blocked → hand (at_place p T) = None →
  (∀ y q, p ≠ Replacing y q) → succeeds (Ok (put_thread h (at_place p T) (put_task x (with_status s t) w))).
Proof.
  intros Hx Ht Hs Hact Hh Hr. destruct executing_busy as (Hin & Hb & Hhand). eexists. split_and!; [done|by apply tasks_blocks|].
  apply (refs_blocks w Hw h T HT); try done. apply Hw.
Qed.

Lemma block_ok policy : succeeds (block h T policy w).
Proof.
  destruct (executing_task w Hw h T HT Hp) as (x & t & Hx & Ht & _). unfold block, task. rewrite Hx. cbn. rewrite Ht. cbn.
  apply stops_ok; first [done|by left].
Qed.

Lemma early_unblock_ok : succeeds (early_unblock h T w).
Proof.
  destruct (executing_task w Hw h T HT Hp) as (x & t & Hx & Ht & _). unfold early_unblock, task. rewrite Hx. cbn. rewrite Ht. cbn.
  apply stops_ok; first [done|by right].
Qed.

Lemma finish_ok : succeeds (finish h T w).
Proof.
  destruct (executing_task w Hw h T HT Hp) as (x & t & Hx & Ht & _ & Hst). destruct executing_busy as (Hin & Hb & Hhand).
  unfold finish. rewrite Hx. cbn. eexists. split_and!; [done|..]; cbn.
  - exact (tasks_finish _ _ h T x (wi_tasks w Hw) HT Hp Hx).
  - assert (refs_ok (mkWorld (w_threads w) (delete x (w_tasks w)) (w_idleThreads w) (w_idleCPUs w) (w_status w))) as H1.
    { apply refs_task_delete; [apply Hw|]. intros g. rewrite Ht, by_task_Some, Hst. by intros [_ ?]. }
    apply (refs_place _ h T (returned T)) in H1; [exact H1|done|..].
    + right. right. intros n. apply (rf_busy _ _ H1 h (InIdle n)). unfold activity_at. cbn. rewrite HT. cbn. by rewrite Hb.
    + rewrite Hhand. unfold returned. by destruct (th_stack T) as [|[y [policy|]] stack].
    + unfold returned. by destruct (th_stack T) as [|[y [policy|]] stack].
    + right. rewrite Hb. unfold returned. by destruct (th_stack T) as [|[y [policy|]] stack].
Qed.

Lemma waitForIf0Task_ok : succeeds (waitForIf0Task node_of h T fresh w).
Proof.
  destruct (executing_task w Hw h T HT Hp) as (x & t & Hx & Ht & Hth & Hst). destruct executing_busy as (Hin & Hb & Hhand).
  destruct (getIdleThread_ok w fresh (th_cpu T)) as (a & A & v & Hv & HI); [apply Hw..|apply (co_signaled _ _ (wi_cpus w Hw))|done|].
  destruct (it_others _ _ _ _ HI h T HT) as [Hah HTv]; [by rewrite Hp|].
  unfold waitForIf0Task, task. rewrite Hx. cbn. rewrite Ht. cbn. rewrite Hv. cbn. eexists. split_and!; [done|..]; cbn.
  - pose proof (it_tasks _ _ _ _ HI) as Hv1. rewrite (it_same _ _ _ _ HI) in *.
    eapply (tasks_current _ _ Hv1 h T); try done; [unfold taken_task; by rewrite Hp|intros g _; by rewrite Hst|].
    exists x, Waiting. by rewrite status_insert, decide_True.
  - eapply (refs_yields w Hw h T HT x t); try done; [by left|apply HI|by rewrite (it_same _ _ _ _ HI)|by eapply idle_activity|done].
Qed.

Lemma executeInline_ok y : w_tasks w !! y = None → succeeds (executeInline h T y w).
Proof.
  intros Hy. destruct (executing_task w Hw h T HT Hp) as (x & t & Hx & Ht & Hth & Hst). destruct executing_busy as (Hin & Hb & Hhand).
  unfold executeInline, handleTask, task. rewrite Hx. cbn. rewrite lookup_insert_eq. cbn. eexists. split_and!; [done|..]; cbn.
  - pose proof (tasks_create _ _ y (Some x) (wi_tasks w Hw) Hy) as H1. rewrite insert_insert_eq.
    rewrite <- (insert_insert_eq (w_tasks w) y _ (mkWTask None (Some x) Ready)).
    eapply (tasks_start _ _ H1 h T HT); [by rewrite lookup_insert_eq|done|left; split; [done|unfold taken_task; by rewrite Hp]|unfold own_tasks; by rewrite Hp, Hx|].
    intros f [->|Hf]%elem_of_cons; [|by apply (tt_frames _ _ _ (ta_threads _ _ H1 h T HT))].
    unfold frame_ok. cbn. rewrite status_insert, decide_False by congruence. unfold status_at. rewrite Ht. cbn. by rewrite Hst.
  - assert (refs_ok (put_task y (mkWTask (Some h) (Some x) Running) (put_task y (mkWTask None (Some x) (Taken h)) w))) as H1.
    { apply refs_task; [apply refs_task; [apply Hw|]|]; intros g; rewrite ?Hy; cbn; rewrite ?lookup_insert_eq, !by_task_Some; cbn; [|naive_solver].
      split; [naive_solver|by intros (? & ? & _)]. }
    eapply (refs_place _ h T) in H1; [exact H1|done|..]; [|by rewrite Hhand|done|by right; rewrite Hb].
    right. right. intros n. apply (rf_busy _ _ H1 h (InIdle n)). unfold activity_at. cbn. rewrite HT. cbn. by rewrite Hb.
Qed.

Lemma user_unlock_ok y u o : w_tasks w !! y = Some u → wt_status u = Waiting → succeeds (user_unlock h T y o w).
Proof.
  intros Hu Hwait. destruct (executing_task w Hw h T HT Hp) as (x & t & Hx & Ht & Hth & Hst). destruct executing_busy as (Hin & Hb & Hhand).
  assert (y ≠ x) as Hne by congruence. unfold user_unlock, task. rewrite Hx. cbn. rewrite Ht. cbn. rewrite Hu. cbn.
  destruct (wt_thread u) as [a|] eqn:Hua; cbn; [|by destruct (ta_new _ _ (wi_tasks w Hw) y u Hu Hua) as [?|[? ?]]; congruence].
  destruct (task_thread w Hw y u a Hu Hua) as (A & HA & HactA & _); [by rewrite Hwait|].
  assert (a ≠ h) as Hah by (intros ->; simplify_eq; by rewrite Hp in HactA).
  assert (tasks_ok (put_task y (with_status Running u) w)) as H1 by (cbn; apply tasks_unblock; [apply Hw|done|left; by auto]).
  assert (refs_in (Some a) (put_task y (with_status Running u) w)) as H2.
  { apply refs_task_drop; [apply Hw|rewrite Hu; apply by_task_Some; by rewrite Hwait|]. intros g. rewrite by_task_Some. by intros [_ ?]. }
  destruct o as [c|].
  - eapply resume_ok; [by eapply refs_world|apply (co_signaled _ _ (wi_cpus w Hw))|done|by rewrite HactA|done].
  - eexists. split_and!; [done|..].
    + cbn. eapply (tasks_current _ _ H1 h T HT); try done; [cbn; by rewrite lookup_insert_ne|unfold taken_task; by rewrite Hp|intros g _; by rewrite Hst|].
      exists x, Ready. by rewrite status_insert, decide_True.
    + eapply (refs_yields w Hw h T HT x t); try done; [by right|cbn; by rewrite lookup_insert_ne|unfold activity_at; cbn; rewrite HA; cbn; by rewrite HactA|done].
Qed.
End executes.

Lemma late_block_ok : th_place T = Unblocked → succeeds (late_block h T w).
Proof.
  intros Hp. eexists. split; [done|]. pose proof (tt_current _ _ _ (own_thread w Hw h T HT)) as Hc. unfold current_ok in Hc. rewrite Hp in Hc.
  apply move_ok; first [done|by rewrite Hp|unfold taken_task, hand; cbn; by rewrite Hp].
Qed.
End thread.
End idle.

(** ** All operations *)

Section all.
Context (node_of : nat → nat).

Lemma unblock_succeeds w x t :
  workers_ok w → w_tasks w !! x = Some t → wt_status t = Waiting ∨ wt_status t = SchedulingDisabled → succeeds (unblock x w).
Proof.
  intros Hw Ht Hst. unfold unblock, task. rewrite Ht. cbn. destruct Hst as [Hst|Hst]; rewrite Hst; eexists; (split_and!; [done|..]).
  - cbn. apply tasks_unblock; [apply Hw|done|left; by auto].
  - apply refs_task; [apply Hw|]. intros g. rewrite Ht, !by_task_Some, Hst. done.
  - cbn. apply tasks_unblock; [apply Hw|done|by right].
  - apply refs_task; [apply Hw|]. intros g. rewrite Ht, !by_task_Some, Hst. done.
Qed.

Lemma enable_cpu_ok w fresh c :
  workers_ok w → is_Some (w_status w !! c) → w_threads w !! fresh = None → succeeds (enable_cpu node_of fresh c w).
Proof.
  intros Hw [s Hs] Hf. unfold enable_cpu. rewrite Hs. cbn.
  assert (∀ v, v = w ∨ (∃ s', v = put_status c s' w) → succeeds (Ok v)) as Hok.
  { intros v [->|[s' ->]]; eexists; (split_and!; [done|apply Hw|]); [apply Hw|]. eapply refs_world; [apply Hw|done..]. }
  destruct s; cbn; try (apply Hok; by eauto).
  apply resumeIdle_ok; [apply Hw|eapply refs_world; [apply Hw|done..]|apply (co_signaled _ _ (wi_cpus w Hw))|done].
Qed.

(** Every operation that can start succeeds, and keeps the invariants. *)
Lemma calls_succeed w r : workers_ok w → regular_calls node_of w r → ∃ w', r = Ok w' ∧ workers_ok w'.
Proof.
  intros Hw Hc. assert (succeeds r) as (w' & -> & Ht & Hr).
  { destruct Hc.
    - by apply advance_ok.
    - eexists. split_and!; [done|by apply tasks_create; [apply Hw|]|]. apply refs_task; [apply Hw|].
      intros g. rewrite H, by_task_Some. split; [by intros [? _]|by intros (? & ? & _)].
    - by apply finish_ok.
    - by apply block_ok.
    - by apply early_unblock_ok.
    - by apply late_block_ok.
    - by apply waitForIf0Task_ok.
    - by apply executeInline_ok.
    - by eapply unblock_succeeds.
    - by eapply user_unlock_ok.
    - apply resumeIdle_ok; [apply Hw|eapply refs_world; [apply Hw|done..]|apply (co_signaled _ _ (wi_cpus w Hw))|done].
    - by apply enable_cpu_ok.
    - unfold disable_cpu. destruct H as [s Hs]. rewrite Hs. cbn. destruct (disable s); eexists; (split_and!; [done|apply Hw|]);
        (apply Hw || by eapply refs_world; [apply Hw|..]). }
  exists w'. split; [done|]. split; [|done..]. by eapply cpus_step; [apply Hw|].
Qed.
End all.
