(* ===== verification/WorkerSafety.v ===== *)
(** * What the worker threads guarantee

    From the start of the runtime on, whatever the order of the steps: no assertion of the operations
    fails, every CPU has one holder, and every thread that waits has one reason to be resumed.  The two
    ways in which disabling a CPU breaks this, each with a run that does. *)

From S2P Require Import Prelude.
From S2P Require Import CpuActivation.
From S2P Require Import WorkerThreads.
From S2P Require Import WorkerCpus.
From S2P Require Import WorkerTasks.
From S2P Require Import WorkerRefs.
From S2P Require Import WorkerProofs.

(** ** The start *)

Section start.
Context (node_of : nat → nat) (cpus : list nat).

Lemma lookup_list_map {A} (f : nat → A) h : (list_to_map ((λ c, (c, f c)) <$> cpus) : gmap nat A) !! h = if decide (h ∈ cpus) then Some (f h) else None.
Proof.
  induction cpus as [|c l IH]; [done|]. cbn. destruct (decide (h = c)) as [->|Hne].
  - rewrite lookup_insert_eq, decide_True by left. done.
  - rewrite lookup_insert_ne, IH by done. by repeat case_decide; set_solver.
Qed.

Lemma initial_thread h T : w_threads (initial node_of cpus) !! h = Some T ↔ h ∈ cpus ∧ T = initial_worker node_of h.
Proof. unfold initial. cbn. rewrite (lookup_list_map (initial_worker node_of)). case_decide; naive_solver. Qed.

Lemma initial_status c s : w_status (initial node_of cpus) !! c = Some s ↔ c ∈ cpus ∧ s = starting_status.
Proof. unfold initial. cbn. rewrite (lookup_list_map (λ _, starting_status)). case_decide; naive_solver. Qed.

Lemma initial_holds o c : holds (initial node_of cpus) o c ↔ c ∈ cpus ∧ o = Next c.
Proof.
  destruct o as [| |h|h]; unfold holds.
  - cbn. set_solver.
  - rewrite initial_status. naive_solver.
  - split; [|naive_solver]. intros (T & [_ ->]%initial_thread & HT)%bind_Some. done.
  - split; [intros (T & [Hh ->]%initial_thread & [= <-])%bind_Some; done|]. intros [Hc [= ->]]. apply bind_Some.
    exists (initial_worker node_of c). by rewrite initial_thread.
Qed.

Lemma initial_cpus : cpus_ok (initial node_of cpus).
Proof.
  split; try done.
  - intros c _ [s [Hc _]%initial_status]. exists (Next c). intros o'. rewrite initial_holds. naive_solver.
  - intros c o [Hc _]%initial_holds. exists starting_status. by apply initial_status.
  - intros h T [_ ->]%initial_thread. done.
Qed.

Lemma initial_tasks : tasks_ok (initial node_of cpus).
Proof.
  split; [|intros x t h; cbn; by rewrite lookup_empty..|intros x t; cbn; by rewrite lookup_empty].
  intros h T [_ ->]%initial_thread. split; try done.
  - intros x. unfold belongs. cbn. setoid_rewrite lookup_empty. set_solver.
  - constructor.
  - intros f. cbn. set_solver.
Qed.

Lemma initial_refers r h : refers (initial node_of cpus) r h ↔ h ∈ cpus ∧ r = Signaled.
Proof.
  destruct r as [n| |g|x]; unfold refers.
  - unfold idle_at. cbn. rewrite lookup_empty. set_solver.
  - rewrite fmap_Some. setoid_rewrite initial_thread. naive_solver.
  - split; [|naive_solver]. intros (T & [_ ->]%initial_thread & HT)%bind_Some. done.
  - split; [|naive_solver]. intros (t & Ht & _). cbn in Ht. by rewrite lookup_empty in Ht.
Qed.

Lemma initial_refs : refs_ok (initial node_of cpus).
Proof.
  split; try done.
  - intros h a _ (T & [Hh ->]%initial_thread & Ha)%fmap_Some Hb. exists Signaled. split; [by destruct a|]. intros r'. rewrite initial_refers. naive_solver.
  - intros h r (T & [Hh ->]%initial_thread & Ha)%fmap_Some. done.
  - intros h r [Hh _]%initial_refers. exists (initial_worker node_of h). by apply initial_thread.
  - intros h n T [_ ?]%initial_refers. done.
  - intros n. unfold idle_at. cbn. rewrite lookup_empty. constructor.
  - intros h [_ ?]%initial_refers. done.
Qed.

Lemma initial_ok : workers_ok (initial node_of cpus).
Proof. split; [apply initial_cpus|apply initial_tasks|apply initial_refs]. Qed.

Lemma reachable_ok w : rtc (regular_step node_of) (initial node_of cpus) w → workers_ok w.
Proof.
  apply (rtc_ind_r workers_ok); [apply initial_ok|]. intros v v' _ Hstep Hv.
  destruct (calls_succeed node_of v _ Hv Hstep) as (v'' & [= <-] & Hv'). done.
Qed.
End start.

(** ** Runs *)

(** The choices of a run. *)
Inductive action :=
  | DoAdvance (h : nat) (answer : option nat) (fresh : nat)
  | DoCreate (x : nat)
  | DoFinish (h : nat)
  | DoBlock (h : nat) (policy : inline_policy)
  | DoUnblock (x : nat)
  | DoEnable (c fresh : nat)
  | DoDisable (c : nat).

Definition answers_b (T : worker) (answer : option nat) (w : world) : bool :=
  match answer, th_place T with
  | Some x, Checking => bool_decide (x ∈ w_idleCPUs w)
  | Some x, (Fetching | Blocking _) => match w_tasks w !! x with Some t => bool_decide (wt_status t = Ready) | None => false end
  | _, _ => true
  end.

Definition runs_b (T : worker) : bool := match th_place T with Suspended _ => th_signaled T | Executing | Unblocked => false | _ => true end.

Definition task_runs_b (T : worker) (w : world) : bool :=
  match th_place T, w_status w !! th_cpu T with
  | Checking, Some disabling_status => bool_decide (th_task T = None)
  | _, _ => true
  end.

Section run.
Context (node_of : nat → nat).

(** The operation of an action, when it can start; with [strict] the two exceptions cannot. *)
Definition perform (strict : bool) (a : action) (w : world) : option world :=
  let ok b r := if (b : bool) then match r with Ok w' => Some w' | _ => None end else None in
  let executing h f := T ← w_threads w !! h; ok (match th_place T with Executing => true | _ => false end) (f T) in
  match a with
  | DoAdvance h answer fresh =>
      T ← w_threads w !! h;
      ok (runs_b T && answers_b T answer w && (negb strict || task_runs_b T w) && bool_decide (w_threads w !! fresh = None))
         (advance node_of h T answer fresh w)
  | DoCreate x => ok (bool_decide (w_tasks w !! x = None)) (Ok (addReadyTask x None w))
  | DoFinish h => executing h (λ T, finish h T w)
  | DoBlock h policy => executing h (λ T, block h T policy w)
  | DoUnblock x =>
      t ← w_tasks w !! x; ok (bool_decide (wt_status t = Waiting ∨ wt_status t = SchedulingDisabled)) (unblock x w)
  | DoEnable c fresh =>
      ok (bool_decide (is_Some (w_status w !! c)) && bool_decide (w_threads w !! fresh = None)) (enable_cpu node_of fresh c w)
  | DoDisable c =>
      ok (bool_decide (is_Some (w_status w !! c)) && (negb strict || negb (bool_decide (w_status w !! c = Some enabling_status)))) (disable_cpu c w)
  end.

Fixpoint run (strict : bool) (l : list action) (w : world) : option world :=
  match l with [] => Some w | a :: l => w' ← perform strict a w; run strict l w' end.

Lemma ok_guard (b : bool) (r : res world) w' : (if b then match r with Ok w' => Some w' | _ => None end else None) = Some w' → b = true ∧ r = Ok w'.
Proof. destruct b, r; naive_solver. Qed.

Lemma answers_sound T o w : answers_b T o w = true → answers T o w.
Proof.
  unfold answers_b, answers. intros Ha x ->. destruct (th_place T); try done; [by apply bool_decide_eq_true in Ha|..];
    destruct (w_tasks w !! x) as [t|]; try done; apply bool_decide_eq_true in Ha; by exists t.
Qed.

Lemma runs_sound T : runs_b T = true → runs T.
Proof. unfold runs_b, runs. by destruct (th_place T). Qed.

Lemma task_runs_sound T w : task_runs_b T w = true → task_runs T w.
Proof. unfold task_runs_b, task_runs. intros H Hp Hs. rewrite Hp, Hs in H. by apply bool_decide_eq_true in H. Qed.

#[local] Hint Resolve answers_sound runs_sound task_runs_sound : core.

Lemma action_step a w w' : perform true a w = Some w' → regular_step node_of w w'.
Proof.
  unfold regular_step. destruct a; cbn.
  - intros (T & HT & [Hb <-]%ok_guard)%bind_Some. rewrite !andb_true_iff in Hb. destruct Hb as [[[H1 H2] H3] H4%bool_decide_eq_true].
    apply call_advance; auto.
  - case_bool_decide; [intros [= <-]; by constructor|done].
  - intros (T & HT & [Hb <-]%ok_guard)%bind_Some. constructor; [done|]. by destruct (th_place T).
  - intros (T & HT & [Hb <-]%ok_guard)%bind_Some. constructor; [done|]. by destruct (th_place T).
  - intros (t & Ht & [Hb%bool_decide_eq_true <-]%ok_guard)%bind_Some. by eapply call_unblock.
  - intros [Hb <-]%ok_guard. rewrite andb_true_iff, !bool_decide_eq_true in Hb. destruct Hb. by constructor.
  - intros [Hb <-]%ok_guard. rewrite andb_true_iff, !bool_decide_eq_true in Hb. destruct Hb as [Hb Hne].
    constructor; [done|]. intros He. rewrite He in Hne. done.
Qed.

Lemma perform_any a w w' : perform false a w = Some w' → step node_of w w'.
Proof.
  destruct (perform true a w) as [v|] eqn:Hv.
  - intros Hw'. apply action_step in Hv as Hs. apply call_regular. replace w' with v; [done|].
    destruct a; cbn in Hv, Hw'; try congruence.
    + apply bind_Some in Hv as (T & HT & [Hb Hr]%ok_guard). rewrite HT in Hw'. apply ok_guard in Hw' as [_ Hr']. congruence.
    + apply ok_guard in Hv as [_ Hr], Hw' as [_ Hr']. congruence.
  - destruct a; cbn in Hv |- *; try congruence.
    + intros (T & HT & [Hb Hr]%ok_guard)%bind_Some. rewrite HT in Hv. cbn in Hv. rewrite !andb_true_iff in Hb. destruct Hb as [[[H1 H2] _] H4].
      assert (th_place T = Checking) as Hp.
      { unfold task_runs_b in Hv. rewrite H1, H2, H4, Hr in Hv. by destruct (th_place T). }
      unfold step. rewrite <- Hr. apply call_check_with_task; [exact HT|exact Hp|by apply answers_sound|]. by apply bool_decide_eq_true in H4.
    + intros [Hb Hr]%ok_guard. rewrite andb_true_iff in Hb. destruct Hb as [H1 _]. rewrite H1, Hr in Hv. cbn in Hv.
      unfold step. rewrite <- Hr. apply call_disable_enabling. destruct (bool_decide _) eqn:He; [|done]. by apply bool_decide_eq_true in He.
Qed.

Lemma run_reachable l w w' : run true l w = Some w' → rtc (regular_step node_of) w w'.
Proof.
  revert w. induction l as [|a l IH]; cbn; intros w; [intros [= ->]; constructor|].
  intros (v & Hv%action_step & Hl)%bind_Some. eapply rtc_l; [done|by apply IH].
Qed.

Lemma run_any l w w' : run false l w = Some w' → rtc (step node_of) w w'.
Proof.
  revert w. induction l as [|a l IH]; cbn; intros w; [intros [= ->]; constructor|].
  intros (v & Hv%perform_any & Hl)%bind_Some. eapply rtc_l; [done|by apply IH].
Qed.
End run.

(** A task blocks on CPU 0 and another one replaces it in a new thread. *)
Definition replacing_run : list action :=
  [DoCreate 5; DoCreate 6; DoAdvance 0 None 2; DoAdvance 0 None 2; DoAdvance 0 None 2; DoAdvance 0 (Some 5) 2; DoAdvance 0 None 2;
   DoBlock 0 POLICY_NO_INLINE; DoAdvance 0 (Some 6) 2; DoAdvance 0 None 2; DoAdvance 0 None 3; DoAdvance 2 None 3].

(** A CPU is disabled and enabled, disabled and enabled again before its thread has seen any of it. *)
Definition twice_enabled_run : list action :=
  [DoAdvance 0 None 1; DoAdvance 0 None 1; DoDisable 0; DoAdvance 0 None 1; DoAdvance 0 None 1; DoAdvance 0 None 1;
   DoEnable 0 1; DoDisable 0; DoEnable 0 1; DoAdvance 0 None 2; DoAdvance 1 None 2].

(** The thread that has been given a task finds its CPU disabled, and enters the list of idle threads. *)
Definition idle_with_task_run : list action :=
  replacing_run ++ [DoDisable 0; DoAdvance 2 None 3; DoAdvance 2 None 3; DoAdvance 2 None 3].

Definition after (cpus : list nat) (strict : bool) (l : list action) : world :=
  default (initial (λ _, 0) cpus) (run (λ _, 0) strict l (initial (λ _, 0) cpus)).

Lemma after_reachable cpus l :
  is_Some (run (λ _, 0) true l (initial (λ _, 0) cpus)) → rtc (regular_step (λ _, 0)) (initial (λ _, 0) cpus) (after cpus true l).
Proof. intros [w Hw]. unfold after. rewrite Hw. by apply (run_reachable (λ _, 0) l). Qed.

Lemma after_any cpus l :
  is_Some (run (λ _, 0) false l (initial (λ _, 0) cpus)) → rtc (step (λ _, 0)) (initial (λ _, 0) cpus) (after cpus false l).
Proof. intros [w Hw]. unfold after. rewrite Hw. by apply (run_any (λ _, 0) l). Qed.

Ltac run_ok := vm_compute; eexists; reflexivity.

Module Workers.








(** [CPUActivation::disable] takes a CPU that is being enabled back to the disabled state although a thread
    has already been resumed to run on it; when the CPU is enabled again before that thread has seen it,
    a second thread is resumed on it, and two threads run on the same CPU. *)
Theorem enabling_twice_doubles_thread :
  ∃ w T U, rtc (step (λ _, 0)) (initial (λ _, 0) [0]) w ∧
    w_threads w !! 0 = Some T ∧ w_threads w !! 1 = Some U ∧ now T = Some 0 ∧ now U = Some 0.
Proof.
  exists (after [0] false twice_enabled_run). eexists _, _. split_and!; [apply after_any; run_ok|vm_compute; reflexivity..].
Qed.

(** A thread that was resumed with a task and finds its CPU disabled enters the list of idle threads with the
    task ([CPUActivation::activationCheck]); when the CPU is enabled again, the assertion of
    [ThreadManager::getIdleThread] that an idle thread has no task fails. *)
Theorem idle_thread_keeps_task :
  ∃ w T, rtc (step (λ _, 0)) (initial (λ _, 0) [0]) w ∧
    w_threads w !! 2 = Some T ∧ th_task T = Some 6 ∧ idle_at 0 w = [2] ∧ regular_calls (λ _, 0) w (Err (Fatal "assertion")).
Proof.
  exists (after [0] false idle_with_task_run). eexists. split_and!; [apply after_any; run_ok|vm_compute; reflexivity..|].
  assert (enable_cpu (λ _, 0) 3 0 (after [0] false idle_with_task_run) = Err (Fatal "assertion")) as <- by (vm_compute; reflexivity).
  apply call_enable; [run_ok|vm_compute; reflexivity].
Qed.
End Workers.
