(* ===== verification/VirtualMemory.v ===== *)
(** * Virtual memory

    [memory/vmm/]: the areas of virtual memory of the NUMA nodes ([VirtualMemoryArea.hpp]), their layout in a
    mapping of the operating system, and the allocation of blocks in them ([smp/] and [cluster/]).
    The mapping is a parameter with the documented behaviour of [mmap].  What is given out and what is free are
    lists of blocks, and every operation splits one of them. *)

From S2P Require Import Prelude.
Local Open Scope Z_scope.

(** ** Blocks of addresses *)

Notation range := (Z * Z)%type (only parsing).

Definition disjoint_ranges (a b : range) : Prop := a.1 + a.2 ≤ b.1 ∨ b.1 + b.2 ≤ a.1.
Definition sub_range (a b : range) : Prop := b.1 ≤ a.1 ∧ a.1 + a.2 ≤ b.1 + b.2.

#[export] Instance sub_range_preorder : PreOrder sub_range.
Proof. unfold sub_range. split; [intros ?; lia|intros ? ? ?; lia]. Qed.

(** No two of the blocks have an address in common. *)
Fixpoint separate (l : list range) : Prop :=
  match l with [] => True | a :: l => Forall (disjoint_ranges a) l ∧ separate l end.

(** ** Areas *)

(** [ROUND_UP] *)
Definition ROUND_UP (s r : Z) : Z := wrap64 (wrap64 (s + r - 1) / r * r).

Record VirtualMemoryArea := mkVMA { vma_start : Z; vma_size : Z; vma_end : Z; vma_nextFree : Z; vma_available : Z }.

#[export] Instance VirtualMemoryArea_eq_dec : EqDecision VirtualMemoryArea.
Proof. solve_decision. Defined.

Definition new_vma (address size : Z) : VirtualMemoryArea := mkVMA address size (wrap64 (address + size)) address size.

Definition includesRange (address size : Z) (v : VirtualMemoryArea) : bool :=
  (vma_start v <=? address) && (wrap64 (address + size) <? vma_end v).

Definition includesAddress (address : Z) (v : VirtualMemoryArea) : bool := (vma_start v <=? address) && (address <? vma_end v).

Section pages.
Context (pageSize : Z).

(** [allocBlock]: the new area and the address, if the range fits. *)
Definition allocBlock (size : Z) (v : VirtualMemoryArea) : VirtualMemoryArea * option Z :=
  let size := ROUND_UP size pageSize in
  if vma_available v <? size then (v, None)
  else (mkVMA (vma_start v) (vma_size v) (vma_end v) (wrap64 (vma_nextFree v + size)) (vma_available v - size), Some (vma_nextFree v)).

(** The loop of [setupMemoryLayout]: an area for each of so many nodes, the first ones with one more page. *)
Fixpoint layout_loop (sizePerNUMA : Z) (nodes : nat) (extraPages ptr : Z) : list VirtualMemoryArea :=
  match nodes with
  | O => []
  | S nodes =>
      let numaSize := if 0 <? extraPages then sizePerNUMA + pageSize else sizePerNUMA in
      new_vma ptr numaSize :: layout_loop sizePerNUMA nodes (if 0 <? extraPages then extraPages - 1 else extraPages) (wrap64 (ptr + numaSize))
  end.

Definition layout (address size : Z) (numaNodeCount : nat) : list VirtualMemoryArea :=
  let localPages := size / pageSize in
  layout_loop (localPages / Z.of_nat numaNodeCount * pageSize) numaNodeCount (localPages mod Z.of_nat numaNodeCount) address.

(** ** The manager of one machine *)

Record VMM := mkVMM { vm_size : Z; vm_allocations : list range; vm_localNUMAVMA : list (list VirtualMemoryArea) }.

(** [mmap] without a fixed address: the blocks that are mapped, and a size. *)
Context (mmap : list range → Z → option Z).

Definition new_allocation (size : Z) (mapped : list range) : res range :=
  match mmap mapped size with
  | Some address => Ok (address, size)
  | None => Err (Fatal "mapping virtual address space failed")
  end.

(** [setupMemoryLayout]: the area of the i-th memory place goes to the index of that place. *)
Definition setupMemoryLayout (b : range) (numaNodes : list nat) (local : list (list VirtualMemoryArea)) : list (list VirtualMemoryArea) :=
  foldl (λ local p, alter (λ l, l ++ [p.2]) p.1 local) local (zip numaNodes (layout b.1 b.2 (length numaNodes))).

(** [vmm_initialize]: the memory of the machine, [NANOS6_LOCAL_MEMORY], and the indices of the memory places. *)
Definition vmm_initialize (totalPhysicalMemory : Z) (localMemory : option Z) (numaNodes : list nat) : res VMM :=
  let size := ROUND_UP (default (Z.min (2 * 2 ^ 30) (totalPhysicalMemory / 20)) localMemory) pageSize in
  b ← new_allocation size [];
  Ok (mkVMM size [b] (setupMemoryLayout b numaNodes (replicate (length numaNodes) []))).

(** The last area of a node changes. *)
Definition put_back (n : nat) (v : VirtualMemoryArea) (s : VMM) : VMM :=
  mkVMM (vm_size s) (vm_allocations s) (alter (λ l, removelast l ++ [v]) n (vm_localNUMAVMA s)).

Definition add_area (n : nat) (v : VirtualMemoryArea) (b : range) (s : VMM) : VMM :=
  mkVMM (vm_size s) (vm_allocations s ++ [b]) (alter (λ l, l ++ [v]) n (vm_localNUMAVMA s)).

Definition back (n : nat) (s : VMM) : res VirtualMemoryArea := get (vm_localNUMAVMA s !! n ≫= last).

Definition allocLocalNUMA (size : Z) (n : nat) (s : VMM) : res (VMM * option Z) :=
  v ← back n s;
  match allocBlock size v with
  | (v, Some ret) => Ok (put_back n v s, Some ret)
  | (_, None) =>
      let allocation_size := ROUND_UP (if size <? vm_size s then vm_size s else wrap64 (2 * size)) pageSize in
      b ← new_allocation allocation_size (vm_allocations s);
      let s := add_area n (new_vma b.1 allocation_size) b s in
      v ← back n s;
      let '(v, ret) := allocBlock size v in
      Ok (put_back n v s, ret)
  end.

(** The node of an address, or the number of nodes. *)
Definition findNUMA (ptr : Z) (s : VMM) : nat :=
  default (length (vm_localNUMAVMA s)) (fst <$> list_find (λ l, existsb (includesAddress ptr) l) (vm_localNUMAVMA s)).

(** ** The manager of a node of a cluster *)

Record cluster_VMM := mkClusterVMM { cl_genericVMA : VirtualMemoryArea; cl_localNUMAVMA : list VirtualMemoryArea }.

Definition cluster_setupMemoryLayout (address distribSize localSize : Z) (nodeIndex clusterSize numaNodeCount : nat) : cluster_VMM :=
  mkClusterVMM (new_vma (wrap64 (address + Z.of_nat clusterSize * localSize)) distribSize)
    (layout (wrap64 (address + Z.of_nat nodeIndex * localSize)) localSize numaNodeCount).

Definition cluster_allocDistrib (size : Z) (s : cluster_VMM) : cluster_VMM * option Z :=
  let '(v, ret) := allocBlock size (cl_genericVMA s) in (mkClusterVMM v (cl_localNUMAVMA s), ret).

Definition cluster_allocLocalNUMA (size : Z) (n : nat) (s : cluster_VMM) : res (cluster_VMM * option Z) :=
  v ← get (cl_localNUMAVMA s !! n);
  let '(v, ret) := allocBlock size v in Ok (mkClusterVMM (cl_genericVMA s) (<[n := v]> (cl_localNUMAVMA s)), ret).

Definition cluster_findNUMA (ptr : Z) (s : cluster_VMM) : nat :=
  default (length (cl_localNUMAVMA s)) (fst <$> list_find (includesAddress ptr) (cl_localNUMAVMA s)).

(** [vmm_initialize] of a cluster: [NANOS6_DISTRIBUTED_MEMORY], [NANOS6_LOCAL_MEMORY] and [NANOS6_VA_START] if they are
    set, and whether the system maps so many bytes at an address. *)
Definition cluster_initialize (mmap_at : Z → Z → bool) (totalPhysicalMemory : Z) (distributedMemory localMemory vaStart : option Z)
    (nodeIndex clusterSize numaNodeCount : nat) : res cluster_VMM :=
  let distribSize := ROUND_UP (default (2 * 2 ^ 30) distributedMemory) pageSize in
  let localSize := ROUND_UP (default (Z.min (2 * 2 ^ 30) (totalPhysicalMemory / 20)) localMemory) pageSize in
  let address := default (2 * 2 ^ 27) vaStart in
  let size := wrap64 (distribSize + wrap64 (localSize * Z.of_nat clusterSize)) in
  failIf (negb (mmap_at address size)) "mapping virtual address space failed";;
  Ok (cluster_setupMemoryLayout address distribSize localSize nodeIndex clusterSize numaNodeCount).
End pages.

(** ** Lemmas on blocks *)

Lemma disjoint_ranges_sym a b : disjoint_ranges a b → disjoint_ranges b a.
Proof. unfold disjoint_ranges. lia. Qed.

Lemma disjoint_sub a a' b : sub_range a' a → disjoint_ranges a b → disjoint_ranges a' b.
Proof. unfold disjoint_ranges, sub_range. lia. Qed.

Lemma separate_app l1 l2 : separate (l1 ++ l2) ↔ separate l1 ∧ separate l2 ∧ ∀ a b, a ∈ l1 → b ∈ l2 → disjoint_ranges a b.
Proof.
  induction l1 as [|x l1 IH]; simpl; [set_solver|]. rewrite IH, Forall_app, !Forall_forall. split.
  - intros ((H1 & H2) & H3 & H4 & H5). split_and!; [done|done|done|]. intros a b [->|Ha]%elem_of_cons Hb; auto.
  - intros ((H1 & H2) & H3 & H4). split_and!; [done|by intros b Hb; apply H4; [left|]|done|done|]. intros a b Ha. apply H4. by right.
Qed.

#[export] Instance separate_perm : Proper ((≡ₚ) ==> iff) separate.
Proof.
  assert (∀ l l', l ≡ₚ l' → separate l → separate l') as H.
  { induction 1 as [|x l l' Hl IH|x y l|l1 l2 l3 _ IH1 _ IH2]; simpl; [done| |rewrite !Forall_cons|auto].
    - intros [H1 H2]. split; [by rewrite <- Hl|auto].
    - intros ((H1 & H2) & H3 & H4). split_and!; [by apply disjoint_ranges_sym|done|done|done]. }
  intros l l' Hl. split; apply H; [done|by symmetry].
Qed.

Lemma separate_distinct l i j a b : separate l → i ≠ j → l !! i = Some a → l !! j = Some b → disjoint_ranges a b.
Proof.
  revert i j. induction l as [|x l IH]; intros i j Hs Hne Hi Hj; [done|]. destruct Hs as [Hs1 Hs2]. rewrite Forall_forall in Hs1.
  destruct i as [|i], j as [|j]; cbn in Hi, Hj; [done| | |apply (IH i j); [done|lia|done|done]].
  - injection Hi as ->. by eapply Hs1, list_elem_of_lookup_2.
  - injection Hj as ->. by eapply disjoint_ranges_sym, Hs1, list_elem_of_lookup_2.
Qed.

(** A range is split into parts. *)
Lemma separate_split p rest parts :
  separate (p :: rest) → Forall (λ q, sub_range q p) parts → separate parts → separate (parts ++ rest).
Proof.
  simpl. intros [H1 H2] Hp Hs. rewrite separate_app. split_and!; [done|done|]. rewrite Forall_forall in *. intros a b Ha Hb.
  eapply disjoint_sub; [by apply Hp|by apply H1].
Qed.

Lemma ROUND_UP_spec s r : 0 < r → 0 ≤ s → s + r < word_max → s ≤ ROUND_UP s r < s + r ∧ (r | ROUND_UP s r).
Proof.
  intros Hr Hs Hm. unfold ROUND_UP. rewrite (wrap64_small (s + r - 1)) by (split; lia).
  pose proof (Z.div_mod (s + r - 1) r ltac:(lia)) as Hd. pose proof (Z.mod_pos_bound (s + r - 1) r Hr).
  assert (0 ≤ (s + r - 1) / r) by (apply Z.div_pos; lia).
  rewrite wrap64_small by (split; nia). split; [nia|]. apply Z.divide_factor_r.
Qed.

Lemma ROUND_UP_mono s t r : 0 < r → 0 ≤ s ≤ t → t + r < word_max → (r | t) → ROUND_UP s r ≤ t.
Proof.
  intros Hr Hs Ht [k ->]. destruct (ROUND_UP_spec s r Hr ltac:(lia) ltac:(lia)) as [H1 [j Hj]].
  rewrite Hj in *. assert (j < k + 1) by (apply (Z.mul_lt_mono_pos_r r); lia). apply Z.mul_le_mono_nonneg_r; lia.
Qed.

(** ** The laws of [mmap] *)

Class MmapLaws (pageSize : Z) (mmap : list range → Z → option Z) : Prop := {
  page_pos : 0 < pageSize < 2 ^ 32;
  mmap_fresh mapped size a :
    mmap mapped size = Some a →
    0 < a ∧ (pageSize | a) ∧ a + size < word_max ∧ Forall (disjoint_ranges (a, size)) mapped;
}.

Definition area (v : VirtualMemoryArea) : range := (vma_start v, vma_size v).
Definition free_part (v : VirtualMemoryArea) : range := (vma_nextFree v, vma_available v).

Section vma.
Context (pageSize : Z).

Record vma_ok (v : VirtualMemoryArea) : Prop := {
  va_start : 0 < vma_start v ∧ (pageSize | vma_start v);
  va_size : 0 ≤ vma_size v ∧ (pageSize | vma_size v);
  va_end : vma_end v = vma_start v + vma_size v ∧ vma_end v < word_max;
  va_free : vma_start v ≤ vma_nextFree v ∧ 0 ≤ vma_available v ∧ vma_nextFree v + vma_available v = vma_end v;
  va_page : (pageSize | vma_nextFree v);
}.

Lemma new_vma_ok address size :
  0 < address → (pageSize | address) → 0 ≤ size → (pageSize | size) → address + size < word_max → vma_ok (new_vma address size).
Proof.
  intros H1 H2 H3 H4 H5. assert (wrap64 (address + size) = address + size) as Hw by (apply wrap64_small; split; lia).
  split; cbn; rewrite ?Hw; split_and?; try done; lia.
Qed.

Lemma free_part_sub v : vma_ok v → sub_range (free_part v) (area v).
Proof. intros [_ _ [He _] (H1 & H2 & H3) _]. unfold sub_range. cbn. lia. Qed.

(** A range of an area is cut off its free part. *)
Lemma allocBlock_spec size v :
  0 < pageSize → vma_ok v → 0 ≤ size → size + pageSize < word_max →
  match allocBlock pageSize size v with
  | (v', Some a) =>
      vma_ok v' ∧ area v' = area v ∧ a = vma_nextFree v ∧
      separate [free_part v'; (a, ROUND_UP size pageSize)] ∧
      Forall (λ q, sub_range q (free_part v)) [free_part v'; (a, ROUND_UP size pageSize)]
  | (v', None) => v' = v ∧ vma_available v < ROUND_UP size pageSize
  end.
Proof.
  intros Hp Hv Hs Hm. destruct (ROUND_UP_spec size pageSize Hp Hs Hm) as [H1 H2]. unfold allocBlock. destruct (Z.ltb_spec (vma_available v) (ROUND_UP size pageSize)) as [Hlt|Hge]; [done|].
  destruct Hv as [[Ha1 Ha2] [Hs1 Hs2] [He1 He2] (Hf1 & Hf2 & Hf3) Hpg].
  assert (wrap64 (vma_nextFree v + ROUND_UP size pageSize) = vma_nextFree v + ROUND_UP size pageSize) as Hw by (apply wrap64_small; split; lia).
  rewrite Hw. split_and!; [|done|done| |].
  - split; cbn; split_and?; try done; try lia. by apply Z.divide_add_r.
  - cbn. split_and!; [|constructor|done]. apply Forall_singleton. unfold disjoint_ranges. cbn. lia.
  - rewrite !Forall_cons. unfold sub_range. cbn. split_and!; [lia..|constructor].
Qed.
End vma.

(** ** The manager *)

Section manager.
Context (pageSize : Z) (mmap : list range → Z → option Z) `{!MmapLaws pageSize mmap}.

Definition all_areas (s : VMM) : list VirtualMemoryArea := concat (vm_localNUMAVMA s).
Definition frees (s : VMM) : list range := free_part <$> all_areas s.
Definition mapped (s : VMM) (b : range) : Prop := ∃ m, m ∈ vm_allocations s ∧ sub_range b m.

Record vm_ok (s : VMM) : Prop := {
  vo_vmas : Forall (vma_ok pageSize) (all_areas s);
  vo_areas : separate (area <$> all_areas s);
  vo_mapped : Forall (λ v, mapped s (area v)) (all_areas s);
  vo_size : (pageSize | vm_size s) ∧ pageSize ≤ vm_size s < 2 ^ 62;
  vo_back : Forall (λ l, l ≠ []) (vm_localNUMAVMA s);
  vo_allocations : Forall (λ m, 0 < m.1 ∧ m.1 + m.2 < word_max) (vm_allocations s);
}.

(** The areas with one more, and with the last one of a node changed. *)
Lemma concat_add n w (local : list (list VirtualMemoryArea)) :
  (n < length local)%nat → concat (alter (λ l, l ++ [w]) n local) ≡ₚ w :: concat local.
Proof.
  intros Hn. destruct (lookup_lt_is_Some_2 _ _ Hn) as [l Hl]. apply list_elem_of_split_length in Hl as (l1 & l2 & -> & ->).
  rewrite alter_app_r_alt, Nat.sub_diag by lia. simpl. rewrite !concat_app. simpl. solve_perm.
Qed.

Lemma back_split n s v :
  back n s = Ok v → ∃ R, all_areas s ≡ₚ v :: R ∧ ∀ v', all_areas (put_back n v' s) ≡ₚ v' :: R.
Proof.
  unfold back, all_areas. intros Hb. destruct (vm_localNUMAVMA s !! n ≫= last) as [x|] eqn:Hx; [|done]. injection Hb as ->.
  apply bind_Some in Hx as (l & Hl & [vs ->]%last_Some). apply list_elem_of_split_length in Hl as (l1 & l2 & Heq & ->).
  exists (concat l1 ++ vs ++ concat l2). cbn. rewrite Heq. split; [rewrite !concat_app; simpl; solve_perm|]. intros v'.
  rewrite alter_app_r_alt, Nat.sub_diag by lia. simpl. rewrite removelast_last, !concat_app. simpl. solve_perm.
Qed.

Lemma back_known n s : vm_ok s → (n < length (vm_localNUMAVMA s))%nat → ∃ v, back n s = Ok v.
Proof.
  intros Hok [l Hl]%lookup_lt_is_Some_2. unfold back. rewrite Hl. simpl. pose proof (vo_back s Hok) as Hb. rewrite Forall_forall in Hb.
  specialize (Hb l (list_elem_of_lookup_2 _ _ _ Hl)). destruct (last l) as [v|] eqn:Hv; [by exists v|]. by apply last_None in Hv.
Qed.

(** The area of an address that is not lost: the areas stay where they are. *)
Definition in_node (n : nat) (b : range) (s : VMM) : Prop := ∃ l v, vm_localNUMAVMA s !! n = Some l ∧ v ∈ l ∧ sub_range b (area v).

Definition grows (s s' : VMM) : Prop :=
  length (vm_localNUMAVMA s') = length (vm_localNUMAVMA s) ∧ (∀ b, mapped s b → mapped s' b) ∧ (∀ n b, in_node n b s → in_node n b s').

#[export] Instance grows_preorder : PreOrder grows.
Proof. split; [intros s; by split_and!|]. intros s1 s2 s3 (H1 & H2 & H3) (H4 & H5 & H6). split_and!; [congruence|auto|auto]. Qed.

Lemma put_back_grows n v v' s : back n s = Ok v → area v' = area v → grows s (put_back n v' s).
Proof.
  unfold back. intros Hb Ha. destruct (vm_localNUMAVMA s !! n ≫= last) as [x|] eqn:Hx; [|done]. injection Hb as ->.
  apply bind_Some in Hx as (l & Hl & [vs ->]%last_Some). split_and!; [cbn; by rewrite length_alter|done|].
  intros m b (lm & u & Hm & Hu & Hsub). destruct (decide (m = n)) as [->|Hne].
  - rewrite Hl in Hm. injection Hm as <-. exists (vs ++ [v']), (if decide (u = v) then v' else u). cbn. rewrite list_lookup_alter_eq, Hl. simpl.
    rewrite removelast_last. split; [done|]. case_decide; subst; [rewrite Ha; set_solver|]. split; [set_solver|done].
  - exists lm, u. cbn. by rewrite list_lookup_alter_ne.
Qed.

Lemma add_area_grows n w b s : grows s (add_area n w b s).
Proof.
  split_and!; [cbn; by rewrite length_alter|intros x (m & Hm & Hs); exists m; cbn; set_solver|].
  intros m x (l & u & Hm & Hu & Hsub). destruct (decide (m = n)) as [->|Hne].
  - exists (l ++ [w]), u. cbn. rewrite list_lookup_alter_eq, Hm. split_and!; [done|set_solver|done].
  - exists l, u. cbn. by rewrite list_lookup_alter_ne.
Qed.

Lemma put_back_ok n v v' s :
  vm_ok s → back n s = Ok v → vma_ok pageSize v' → area v' = area v → vm_ok (put_back n v' s).
Proof.
  intros [H1 H2 H3 H4 H5 H6] Hb Hv Ha. destruct (back_split n s v Hb) as (R & HR & HR'). specialize (HR' v').
  rewrite HR in H1, H2, H3. split; [| | |done| |done].
  - rewrite HR'. rewrite Forall_cons in H1 |- *. by destruct H1.
  - rewrite HR'. cbn in H2 |- *. by rewrite Ha.
  - rewrite HR'. rewrite Forall_cons in H3 |- *. by rewrite Ha.
  - cbn. apply Forall_alter; [done|]. intros l _ _. by destruct (removelast l).
Qed.

(** The area of a new mapping. *)
Lemma add_area_ok n b s :
  vm_ok s → (n < length (vm_localNUMAVMA s))%nat → 0 < b.1 → (pageSize | b.1) → 0 ≤ b.2 → (pageSize | b.2) → b.1 + b.2 < word_max →
  Forall (disjoint_ranges b) (vm_allocations s) →
  vm_ok (add_area n (new_vma b.1 b.2) b s) ∧ back n (add_area n (new_vma b.1 b.2) b s) = Ok (new_vma b.1 b.2) ∧
  all_areas (add_area n (new_vma b.1 b.2) b s) ≡ₚ new_vma b.1 b.2 :: all_areas s.
Proof.
  intros [H1 H2 H3 H4 H5 H6] Hn Hb1 Hb2 Hb3 Hb4 Hb5 Hd. pose proof (concat_add n (new_vma b.1 b.2) _ Hn) as Hp. change (all_areas (add_area n (new_vma b.1 b.2) b s) ≡ₚ new_vma b.1 b.2 :: all_areas s) in Hp.
  assert (area (new_vma b.1 b.2) = b) as Ha by (by destruct b). split_and!; [|destruct (lookup_lt_is_Some_2 _ _ Hn) as [l Hl]; unfold back; cbn; by rewrite list_lookup_alter_eq, Hl; simpl; rewrite last_snoc|done].
  split; [| | |done| |apply Forall_app; split; [done|]; by apply Forall_singleton].
  - rewrite Hp. apply Forall_cons. split; [by apply new_vma_ok|done].
  - rewrite Hp. rewrite fmap_cons. cbn [separate]. rewrite Ha. split; [|done]. apply Forall_fmap. eapply Forall_impl; [exact H3|]. intros v (m & Hm & Hs).
    cbn. apply disjoint_ranges_sym. eapply disjoint_sub; [done|]. apply disjoint_ranges_sym. rewrite Forall_forall in Hd. by apply Hd.
  - rewrite Hp. apply Forall_cons. split; [exists b; rewrite Ha; split; [cbn; set_solver|done]|]. eapply Forall_impl; [exact H3|]. intros v (m & Hm & Hs). exists m. cbn. set_solver.
  - cbn. apply Forall_alter; [done|]. intros l _ _. by destruct l.
Qed.

Lemma in_node_mapped n b s : vm_ok s → in_node n b s → mapped s b.
Proof.
  intros Hok (l & v & Hl & Hv & Hs). pose proof (vo_mapped s Hok) as Hm. rewrite Forall_forall in Hm.
  destruct (Hm v) as (m & Hin & Hsub); [|exists m; split; [done|by etrans]].
  unfold all_areas. apply list_elem_of_In, in_concat. exists l. rewrite <- !list_elem_of_In. split; [by eapply list_elem_of_lookup_2|done].
Qed.

Lemma mapped_range b s : vm_ok s → mapped s b → 0 < b.1 ∧ b.1 + b.2 < word_max.
Proof.
  intros Hok (m & Hm & Hs). pose proof (vo_allocations s Hok) as H. rewrite Forall_forall in H. destruct (H m Hm). unfold sub_range in Hs. lia.
Qed.

(** What an allocation gives, besides some other blocks [L]. *)
Record carved (size : Z) (n : nat) (L : list range) (s s' : VMM) (a : Z) : Prop := {
  cv_ok : vm_ok s';
  cv_grows : grows s s';
  cv_separate : separate (frees s' ++ (a, ROUND_UP size pageSize) :: L);
  cv_node : in_node n (a, ROUND_UP size pageSize) s';
  cv_page : 0 < a ∧ (pageSize | a);
}.

Lemma take_back size n L s v v' a :
  vm_ok s → 0 ≤ size → size + pageSize < word_max → separate (frees s ++ L) → back n s = Ok v →
  allocBlock pageSize size v = (v', Some a) → carved size n L s (put_back n v' s) a.
Proof.
  intros Hok Hs Hm Hsep Hb Ha. destruct (page_pos (pageSize := pageSize) (mmap := mmap)) as [Hp _].
  destruct (back_split n s v Hb) as (R & HR & HR'). assert (vma_ok pageSize v) as Hv.
  { pose proof (vo_vmas s Hok) as H. rewrite HR, Forall_cons in H. apply H. }
  pose proof (allocBlock_spec pageSize size v Hp Hv Hs Hm) as H. rewrite Ha in H. destruct H as (Hv' & Har & -> & Hsp & Hsub).
  split; [by eapply put_back_ok|by eapply put_back_grows| | |].
  - unfold frees in *. rewrite HR in Hsep. rewrite HR'. rewrite fmap_cons in Hsep |- *. cbn [app] in Hsep.
    pose proof (separate_split _ _ _ Hsep Hsub Hsp) as H. eapply separate_perm; [|exact H]. cbn [app]. constructor. symmetry. apply Permutation_middle.
  - unfold back in Hb. destruct (vm_localNUMAVMA s !! n ≫= last) as [x|] eqn:Hx; [|done]. injection Hb as ->.
    apply bind_Some in Hx as (l & Hl & _). exists (removelast l ++ [v']), v'. cbn. rewrite list_lookup_alter_eq, Hl. split; [done|]. split; [set_solver|].
    rewrite Har. etrans; [|by apply (free_part_sub pageSize)]. rewrite !Forall_cons in Hsub. apply Hsub.
  - destruct Hv as [H1 _ _ (H2 & _) H3]. split; [lia|done].
Qed.

Lemma allocLocalNUMA_carves size n L s :
  vm_ok s → (n < length (vm_localNUMAVMA s))%nat → 0 ≤ size < 2 ^ 61 → separate (frees s ++ L) → Forall (mapped s) L →
  match allocLocalNUMA pageSize mmap size n s with
  | Ok (s', o) => ∃ a, o = Some a ∧ carved size n L s s' a
  | Err e => e = Fatal "mapping virtual address space failed"
  end.
Proof.
  intros Hok Hn Hsize Hsep HL. destruct (page_pos (pageSize := pageSize) (mmap := mmap)) as [Hp Hp2].
  assert (size + pageSize < word_max) as Hw by (rewrite word_max_val; lia).
  destruct (back_known n s Hok Hn) as [v Hv]. unfold allocLocalNUMA. rewrite Hv. cbn [mbind res_bind].
  destruct (allocBlock pageSize size v) as [v' [a|]] eqn:Ha; [exists a; split; [done|eapply take_back; eauto; lia]|].
  pose proof (vo_size s Hok) as [Hd Hsz]. set (want := if size <? vm_size s then vm_size s else wrap64 (2 * size)).
  assert (0 ≤ want ∧ want + pageSize < word_max ∧ ROUND_UP size pageSize ≤ want) as (Hw1 & Hw2 & Hw3).
  { unfold want. destruct (Z.ltb_spec size (vm_size s)).
    - rewrite word_max_val. split_and!; [lia|lia|]. apply ROUND_UP_mono; [done|lia|rewrite word_max_val; lia|done].
    - rewrite wrap64_small by (split; [lia|rewrite word_max_val; lia]). destruct (ROUND_UP_spec size pageSize Hp ltac:(lia) Hw) as [? _].
      rewrite word_max_val. lia. }
  destruct (ROUND_UP_spec want pageSize Hp Hw1 Hw2) as [Hr Hrd]. unfold new_allocation.
  destruct (mmap (vm_allocations s) (ROUND_UP want pageSize)) as [m|] eqn:Hmm; [|done]. cbn [mbind res_bind fst].
  destruct (mmap_fresh _ _ _ Hmm) as (Hm1 & Hm2 & Hm3 & Hm4). set (b := (m, ROUND_UP want pageSize)) in *.
  destruct (add_area_ok n b s Hok Hn Hm1 Hm2 ltac:(cbn; lia) Hrd Hm3 Hm4) as (Hok' & Hb' & Hall). cbn [fst snd] in Hok', Hb', Hall.
  change (new_vma b.1 b.2) with (new_vma m (ROUND_UP want pageSize)) in *. rewrite Hb'. cbn [mbind res_bind].
  set (s1 := add_area n (new_vma m (ROUND_UP want pageSize)) b s) in *.
  assert (separate (frees s1 ++ L)) as Hsep1.
  { unfold frees in *. rewrite Hall, fmap_cons. cbn [app separate]. split; [|done]. change (free_part (new_vma m (ROUND_UP want pageSize))) with b.
    assert (∀ x, mapped s x → disjoint_ranges b x) as Hdis.
    { intros x (y & Hy & Hxy). apply disjoint_ranges_sym. eapply disjoint_sub; [done|]. apply disjoint_ranges_sym. rewrite Forall_forall in Hm4. by apply Hm4. }
    apply Forall_app. split; [|eapply Forall_impl; [exact HL|done]]. apply Forall_fmap. apply Forall_forall. intros x Hx. apply Hdis.
    pose proof (vo_vmas s Hok) as Hvm. pose proof (vo_mapped s Hok) as Hmp. rewrite Forall_forall in Hvm, Hmp.
    destruct (Hmp x Hx) as (y & Hy & Hxy). exists y. split; [done|]. etrans; [apply (free_part_sub pageSize); by apply Hvm|done]. }
  destruct (allocBlock pageSize size (new_vma m (ROUND_UP want pageSize))) as [v2 [a|]] eqn:Ha2.
  - exists a. split; [done|]. pose proof (take_back size n L s1 _ _ _ Hok' ltac:(lia) Hw Hsep1 Hb' Ha2) as [H1 H2 H3 H4 H5].
    split; [done| |done|done|done]. etrans; [apply add_area_grows|done].
  - exfalso. unfold allocBlock in Ha2. cbn in Ha2. destruct (Z.ltb_spec (ROUND_UP want pageSize) (ROUND_UP size pageSize)); [lia|done].
Qed.

(** ** Where an address is *)

Lemma includesAddress_spec ptr v : vma_ok pageSize v → includesAddress ptr v = true ↔ vma_start v ≤ ptr < vma_start v + vma_size v.
Proof. intros [_ _ [He _] _ _]. unfold includesAddress. rewrite andb_true_iff, Z.leb_le, Z.ltb_lt, He. done. Qed.

Lemma separate_lookup l m n (x y : list range) a b :
  separate (concat l) → (m < n)%nat → l !! m = Some x → l !! n = Some y → a ∈ x → b ∈ y → disjoint_ranges a b.
Proof.
  intros Hs Hmn Hm Hn Ha Hb. apply list_elem_of_split_length in Hm as (l1 & l2 & -> & ->). rewrite lookup_app_r in Hn by lia.
  rewrite lookup_cons_ne_0 in Hn by lia. rewrite concat_app in Hs. apply separate_app in Hs as (_ & Hs & _). cbn in Hs. apply separate_app in Hs as (_ & _ & Hs).
  apply Hs; [done|]. apply list_elem_of_In, in_concat. exists y. rewrite <- !list_elem_of_In. split; [by eapply list_elem_of_lookup_2|done].
Qed.

Lemma findNUMA_spec ptr n b s : vm_ok s → in_node n b s → b.1 ≤ ptr < b.1 + b.2 → findNUMA ptr s = n.
Proof.
  intros Hok (l & v & Hl & Hv & Hsub) Hptr.
  assert (∀ k x u, vm_localNUMAVMA s !! k = Some x → u ∈ x → vma_ok pageSize u) as Hall.
  { intros k x u Hk Hu. pose proof (vo_vmas s Hok) as H. rewrite Forall_forall in H. apply H. unfold all_areas. apply list_elem_of_In, in_concat. exists x.
    rewrite <- !list_elem_of_In. split; [by eapply list_elem_of_lookup_2|done]. }
  assert (∀ k x u, vm_localNUMAVMA s !! k = Some x → u ∈ x → includesAddress ptr u = true → k = n) as Huniq.
  { intros k x u Hk Hu Hi. apply includesAddress_spec in Hi; [|by eapply Hall]. pose proof (vo_areas s Hok) as Hs.
    apply (eq_ind _ separate) with (2 := concat_map area (vm_localNUMAVMA s)) in Hs.
    unfold sub_range, area in Hsub. cbn in Hsub.
    assert (((λ l, area <$> l) <$> vm_localNUMAVMA s) !! k = Some (area <$> x)) as Hk' by (by rewrite list_lookup_fmap, Hk).
    assert (((λ l, area <$> l) <$> vm_localNUMAVMA s) !! n = Some (area <$> l)) as Hl' by (by rewrite list_lookup_fmap, Hl).
    destruct (decide (k < n)%nat); [|destruct (decide (n < k)%nat); [|lia]]; exfalso.
    - pose proof (separate_lookup _ k n _ _ (area u) (area v) Hs ltac:(lia) Hk' Hl') as Hd.
      specialize (Hd (list_elem_of_fmap_2 _ _ _ Hu) (list_elem_of_fmap_2 _ _ _ Hv)). unfold disjoint_ranges, area in Hd. cbn in Hd. lia.
    - pose proof (separate_lookup _ n k _ _ (area v) (area u) Hs ltac:(lia) Hl' Hk') as Hd.
      specialize (Hd (list_elem_of_fmap_2 _ _ _ Hv) (list_elem_of_fmap_2 _ _ _ Hu)). unfold disjoint_ranges, area in Hd. cbn in Hd. lia. }
  assert (existsb (includesAddress ptr) l = true) as Hex.
  { apply existsb_exists. exists v. rewrite <- list_elem_of_In. split; [done|]. apply includesAddress_spec; [by eapply Hall|]. unfold sub_range, area in Hsub. cbn in Hsub. lia. }
  unfold findNUMA. destruct (list_find _ _) as [[k x]|] eqn:Hf.
  - apply list_find_Some in Hf as (Hk & Hx & _). cbn. apply Is_true_true, existsb_exists in Hx as (u & Hu%list_elem_of_In & Hi). by eapply Huniq.
  - exfalso. rewrite list_find_None, Forall_forall in Hf. apply (Hf l); [by eapply list_elem_of_lookup_2|]. by apply Is_true_true.
Qed.

(** ** The layout *)

Fixpoint tiles (p : Z) (l : list VirtualMemoryArea) : Prop :=
  match l with [] => True | v :: l => vma_start v = p ∧ tiles (p + vma_size v) l end.

Lemma layout_loop_spec pages nodes extra ptr :
  0 ≤ pages → 0 ≤ extra ≤ Z.of_nat nodes → 0 < ptr → (pageSize | ptr) → ptr + (Z.of_nat nodes * pages + extra) * pageSize < word_max →
  let l := layout_loop pageSize (pages * pageSize) nodes extra ptr in
  length l = nodes ∧ tiles ptr l ∧ sumZ vma_size l = (Z.of_nat nodes * pages + extra) * pageSize ∧ Forall (vma_ok pageSize) l ∧
  Forall (λ v, vma_size v = pages * pageSize ∨ vma_size v = (pages + 1) * pageSize) l.
Proof.
  destruct (page_pos (pageSize := pageSize) (mmap := mmap)) as [Hp _]. intros Hpg. revert extra ptr.
  induction nodes as [|nodes IH]; intros extra ptr Hex Hptr Hdiv Hm; cbn [layout_loop]; cbn zeta.
  - assert (extra = 0) as -> by lia. split_and!; try done; cbn; lia.
  - set (more := if 0 <? extra then 1 else 0). assert ((if 0 <? extra then pages * pageSize + pageSize else pages * pageSize) = (pages + more) * pageSize) as Hsz by (unfold more; destruct (0 <? extra); lia).
    assert ((if 0 <? extra then extra - 1 else extra) = extra - more) as Hexm by (unfold more; destruct (0 <? extra); lia).
    assert (0 ≤ more ≤ 1 ∧ more ≤ extra ∧ extra - more ≤ Z.of_nat nodes) as (Hm1 & Hm2 & Hm3) by (unfold more; destruct (Z.ltb_spec 0 extra); lia).
    rewrite Hsz, Hexm. assert (ptr + (pages + more) * pageSize + (Z.of_nat nodes * pages + (extra - more)) * pageSize < word_max) as Hm' by lia.
    assert (wrap64 (ptr + (pages + more) * pageSize) = ptr + (pages + more) * pageSize) as Hw by (apply wrap64_small; split; nia). rewrite Hw.
    destruct (IH (extra - more) (ptr + (pages + more) * pageSize)) as (H1 & H2 & H3 & H4 & H5);
      [lia|nia|apply Z.divide_add_r; [done|apply Z.divide_factor_r]|done|].
    split_and!; [cbn; by rewrite H1|by cbn|rewrite sumZ_cons, H3; cbn; lia| |].
    + constructor; [|done]. apply new_vma_ok; [done|done|nia|apply Z.divide_factor_r|nia].
    + constructor; [|done]. cbn. unfold more. destruct (0 <? extra); lia.
Qed.

Lemma layout_spec address size nodes :
  0 < address → (pageSize | address) → 0 ≤ size → (pageSize | size) → address + size < word_max → (0 < nodes)%nat →
  let l := layout pageSize address size nodes in
  length l = nodes ∧ tiles address l ∧ sumZ vma_size l = size ∧ Forall (vma_ok pageSize) l ∧
  ∃ pages, Forall (λ v, vma_size v = pages * pageSize ∨ vma_size v = (pages + 1) * pageSize) l.
Proof.
  intros H1 H2 H3 [k ->] H5 Hn l. destruct (page_pos (pageSize := pageSize) (mmap := mmap)) as [Hp _]. assert (0 ≤ k) by nia.
  pose proof (Z.div_mod k (Z.of_nat nodes) ltac:(lia)) as Hd. pose proof (Z.mod_pos_bound k (Z.of_nat nodes) ltac:(lia)) as Hmod.
  assert (0 ≤ k / Z.of_nat nodes) by (apply Z.div_pos; lia). unfold l, layout. rewrite Z.div_mul by lia.
  destruct (layout_loop_spec (k / Z.of_nat nodes) nodes (k mod Z.of_nat nodes) address) as (L1 & L2 & L3 & L4 & L5); [done|lia|done|done|rewrite <- Hd; done|].
  split_and!; [done|done|rewrite L3, <- Hd; done|done|]. by exists (k / Z.of_nat nodes).
Qed.

Lemma layout_free address size nodes :
  Forall (λ v, vma_nextFree v = vma_start v ∧ vma_available v = vma_size v) (layout pageSize address size nodes).
Proof.
  unfold layout. generalize (size / pageSize mod Z.of_nat nodes), address. generalize (size / pageSize / Z.of_nat nodes * pageSize).
  induction nodes as [|nodes IH]; intros per extra ptr; cbn [layout_loop]; cbn zeta; constructor; [done|apply IH].
Qed.

Lemma tiles_within p l v : Forall (λ v, 0 ≤ vma_size v) l → tiles p l → v ∈ l → sub_range (area v) (p, sumZ vma_size l).
Proof.
  intros Hf. revert p. induction Hf as [|u l Hu Hl IH]; intros p; [intros _ ?%not_elem_of_nil; done|]. intros [Hs Ht] [->|Hv]%elem_of_cons; rewrite sumZ_cons.
  - assert (0 ≤ sumZ vma_size l) by (apply sumZ_nonneg; by rewrite Forall_forall in Hl). unfold sub_range, area. cbn. lia.
  - pose proof (IH _ Ht Hv) as H. unfold sub_range in *. cbn in *. lia.
Qed.

Lemma tiles_separate p l : Forall (λ v, 0 ≤ vma_size v) l → tiles p l → separate (area <$> l).
Proof.
  intros Hf. revert p. induction Hf as [|u l Hu Hl IH]; intros p; [done|]. intros [Hs Ht]. cbn. split; [|by eapply IH].
  apply Forall_fmap, Forall_forall. intros v Hv. pose proof (tiles_within _ _ _ Hl Ht Hv) as H. unfold disjoint_ranges, sub_range, area in *. cbn in *. lia.
Qed.

(** ** The start *)

Lemma setup_concat nodes (l : list VirtualMemoryArea) local :
  length nodes = length l → Forall (λ n, (n < length local)%nat) nodes →
  let local' := foldl (λ local p, alter (λ x : list VirtualMemoryArea, x ++ [p.2]) p.1 local) local (zip nodes l) in
  concat local' ≡ₚ l ++ concat local ∧ length local' = length local ∧
  ∀ n x, local' !! n = Some x → n ∈ nodes ∨ (∃ y, local !! n = Some y ∧ y ≠ []) → x ≠ [].
Proof.
  revert l local. induction nodes as [|k nodes IH]; intros [|v l] local Hlen Hf; try done; cbn.
  - split_and!; [done|done|]. intros n x Hx [Hn%not_elem_of_nil|(y & Hy & Hne)]; [done|]. congruence.
  - inversion Hf as [|? ? Hk Hf']; subst. destruct (IH l (alter (λ x, x ++ [v]) k local)) as (H1 & H2 & H3).
    + by injection Hlen.
    + by rewrite length_alter.
    + rewrite length_alter in H2. split_and!; [|done|].
      * rewrite H1, concat_add by done. symmetry. apply Permutation_middle.
      * intros n x Hx Hn. apply (H3 n x Hx). destruct (decide (n = k)) as [->|Hne].
        -- right. rewrite list_lookup_alter_eq. destruct (lookup_lt_is_Some_2 _ _ Hk) as [y Hy]. rewrite Hy. exists (y ++ [v]). split; [done|]. by destruct y.
        -- destruct Hn as [[->|Hn]%elem_of_cons|Hn]; [done|by left|]. right. by rewrite list_lookup_alter_ne.
Qed.

Lemma vmm_initialize_ok total local nodes s :
  nodes ≡ₚ seq 0 (length nodes) → nodes ≠ [] → 0 ≤ total → (∀ z, local = Some z → 0 < z < 2 ^ 61) → 20 * pageSize ≤ total →
  vmm_initialize pageSize mmap total local nodes = Ok s →
  vm_ok s ∧ length (vm_localNUMAVMA s) = length nodes ∧ all_areas s ≡ₚ layout pageSize (hd (0, 0) (vm_allocations s)).1 (vm_size s) (length nodes).
Proof.
  intros Hnodes Hne Htot Hloc Htot2. destruct (page_pos (pageSize := pageSize) (mmap := mmap)) as [Hp Hp2]. unfold vmm_initialize.
  set (want := default _ local). assert (0 < want < 2 ^ 61) as Hw.
  { unfold want. destruct local as [z|]; [by apply Hloc|]. cbn. assert (pageSize ≤ total / 20) by (apply Z.div_le_lower_bound; lia). lia. }
  destruct (ROUND_UP_spec want pageSize Hp ltac:(lia) ltac:(rewrite word_max_val; lia)) as [Hr Hd].
  unfold new_allocation. destruct (mmap [] (ROUND_UP want pageSize)) as [m|] eqn:Hm; [|done]. cbn [mbind res_bind fst snd]. intros [= <-].
  destruct (mmap_fresh _ _ _ Hm) as (Hm1 & Hm2 & Hm3 & _). assert (0 < length nodes)%nat as Hlen by (destruct nodes; cbn; [done|lia]).
  destruct (layout_spec m (ROUND_UP want pageSize) (length nodes)) as (L1 & L2 & L3 & L4 & _); [done|done|lia|done|done|done|].
  set (l := layout pageSize m (ROUND_UP want pageSize) (length nodes)) in *.
  destruct (setup_concat nodes l (replicate (length nodes) [])) as (C1 & C2 & C3); [done| |].
  { apply Forall_forall. intros n Hn. rewrite Hnodes in Hn. apply elem_of_seq in Hn. rewrite length_replicate. lia. }
  assert (concat (replicate (length nodes) ([] : list VirtualMemoryArea)) = []) as Hnil by (generalize (length nodes); induction n; done).
  rewrite Hnil, app_nil_r in C1. rewrite length_replicate in C2.
  assert (Forall (λ v, 0 ≤ vma_size v) l) as Hpos by (eapply Forall_impl; [exact L4|]; intros v Hv; apply (va_size _ v Hv)).
  unfold setupMemoryLayout. cbn [fst snd]. match goal with |- context [mkVMM ?a ?b ?c] => set (s := mkVMM a b c) end.
  assert (all_areas s ≡ₚ l) as HA by exact C1. split_and!; [|exact C2|exact HA]. split.
  - by rewrite HA.
  - rewrite HA. by eapply tiles_separate.
  - rewrite HA. apply Forall_forall. intros v Hv. exists (m, ROUND_UP want pageSize). split; [cbn; by left|].
    rewrite <- L3. by apply tiles_within.
  - cbn. split; [done|]. clearbody want. split; [|lia]. destruct Hd as [k Hk]. rewrite Hk in Hr |- *. assert (1 ≤ k) by nia. nia.
  - cbn. apply Forall_forall. intros x (n & Hn)%list_elem_of_lookup. apply (C3 n x Hn). left. rewrite Hnodes. apply elem_of_seq.
    apply lookup_lt_Some in Hn. pose proof (Nat.lt_le_trans _ _ _ Hn (Nat.eq_le_incl _ _ C2)). lia.
  - by apply Forall_singleton.
Qed.

(** ** Runs *)

(** The blocks that were given out, with their nodes. *)
Inductive vm_step (x : VMM * list (nat * range)) : VMM * list (nat * range) → Prop :=
  | vm_alloc size n s a :
      0 ≤ size < 2 ^ 61 → (n < length (vm_localNUMAVMA x.1))%nat → allocLocalNUMA pageSize mmap size n x.1 = Ok (s, Some a) →
      vm_step x (s, (n, (a, ROUND_UP size pageSize)) :: x.2).

Record run_fine (x : VMM * list (nat * range)) : Prop := {
  rf_ok : vm_ok x.1;
  rf_separate : separate (frees x.1 ++ x.2.*2);
  rf_node : Forall (λ g, in_node g.1 g.2 x.1) x.2;
  rf_page : Forall (λ g, (pageSize | g.2.1)) x.2;
}.

Lemma given_mapped x : run_fine x → Forall (mapped x.1) x.2.*2.
Proof. intros [H1 _ H3 _]. apply Forall_fmap. eapply Forall_impl; [exact H3|]. intros g Hg. exact (in_node_mapped g.1 g.2 x.1 H1 Hg). Qed.

Lemma vm_step_fine x y : run_fine x → vm_step x y → run_fine y.
Proof.
  intros Hx [size n s a Hs Hn Ha]. pose proof (given_mapped x Hx) as Hm. destruct Hx as [H1 H2 H3 H4].
  pose proof (allocLocalNUMA_carves size n _ _ H1 Hn Hs H2 Hm) as H. rewrite Ha in H. destruct H as (b & [= <-] & [C1 C2 C3 C4 C5]).
  split; cbn; [done|done| |].
  - constructor; [done|]. eapply Forall_impl; [exact H3|]. intros g Hg. by apply C2.
  - constructor; [apply C5|done].
Qed.

Lemma frees_separate s : vm_ok s → separate (frees s).
Proof.
  intros Hok. unfold frees. pose proof (vo_vmas s Hok) as Hv. pose proof (vo_areas s Hok) as Hs. induction (all_areas s) as [|v l IH]; [done|].
  cbn in *. inversion Hv as [|? ? Hv1 Hv2]; subst. destruct Hs as [Hs1 Hs2]. split; [|by apply IH]. rewrite Forall_fmap in Hs1 |- *. rewrite Forall_forall in *. intros u Hu. cbn.
  eapply disjoint_sub; [by apply (free_part_sub pageSize)|]. apply disjoint_ranges_sym. eapply disjoint_sub; [apply (free_part_sub pageSize), Hv2, Hu|]. by apply disjoint_ranges_sym, Hs1.
Qed.
End manager.

(** A process of a cluster finds the node of an address of its areas. *)
Lemma cluster_findNUMA_spec pageSize ptr n v s :
  Forall (vma_ok pageSize) (cl_localNUMAVMA s) → separate (area <$> cl_localNUMAVMA s) → cl_localNUMAVMA s !! n = Some v →
  vma_start v ≤ ptr < vma_start v + vma_size v → cluster_findNUMA ptr s = n.
Proof.
  intros Hok Hsep Hv Hptr. unfold cluster_findNUMA. rewrite Forall_forall in Hok. destruct (list_find _ _) as [[k x]|] eqn:Hf.
  - apply list_find_Some in Hf as (Hk & Hx%Is_true_true & _). apply (includesAddress_spec pageSize) in Hx; [|by eapply Hok, list_elem_of_lookup_2]. cbn.
    destruct (decide (k = n)) as [|Hne]; [done|]. exfalso. pose proof (separate_distinct _ k n (area x) (area v) Hsep Hne) as Hd.
    rewrite !list_lookup_fmap, Hk, Hv in Hd. specialize (Hd eq_refl eq_refl). unfold disjoint_ranges, area in Hd. cbn in Hd. lia.
  - exfalso. rewrite list_find_None, Forall_forall in Hf. apply (Hf v); [by eapply list_elem_of_lookup_2|]. apply Is_true_true, (includesAddress_spec pageSize); [|done].
    by eapply Hok, list_elem_of_lookup_2.
Qed.

(** ** Properties *)

Module Vmm.
(** C26: the memory of a machine is divided among its NUMA nodes without a gap, an overlap or a rest: each node gets one
    area, the areas follow each other from the start of the mapping to its end, they are whole pages, and
    no node has more than one page more than another.  Every area is well formed, its end included, and all of it is free. *)
Theorem layout_partitions pageSize mmap `{!MmapLaws pageSize mmap} address size nodes :
  0 < address → (pageSize | address) → 0 ≤ size → (pageSize | size) → address + size < word_max → (0 < nodes)%nat →
  let l := layout pageSize address size nodes in
  length l = nodes ∧ tiles address l ∧ sumZ vma_size l = size ∧
  Forall (λ v, vma_ok pageSize v ∧ vma_nextFree v = vma_start v ∧ vma_available v = vma_size v) l ∧
  ∃ pages, Forall (λ v, vma_size v = pages * pageSize ∨ vma_size v = (pages + 1) * pageSize) l.
Proof.
  intros H1 H2 H3 H4 H5 H6 l. destruct (layout_spec pageSize mmap address size nodes) as (L1 & L2 & L3 & L4 & L5); [done..|].
  split_and!; [done|done|done| |done]. apply Forall_and. split; [done|]. apply layout_free.
Qed.

(** Mappings one after the other. *)
Definition next_mapping (mapped : list range) (size : Z) : option Z :=
  let a := 4096 * (1 + foldr (λ b m, Z.max m (b.1 + b.2)) 0 mapped) in if a + size <? word_max then Some a else None.

#[export] Instance next_mapping_laws : MmapLaws 4096 next_mapping.
Proof.
  split; [lia|]. intros mapped size a. unfold next_mapping. destruct (Z.ltb_spec (4096 * (1 + foldr (λ b m, Z.max m (b.1 + b.2)) 0 mapped) + size) word_max) as [Hlt|]; [|done].
  intros [= <-]. assert (∀ l : list range, 0 ≤ foldr (λ b m, Z.max m (b.1 + b.2)) 0 l ∧ Forall (λ b, b.1 + b.2 ≤ foldr (λ b m, Z.max m (b.1 + b.2)) 0 l) l) as Hmax.
  { induction l as [|b l [IH1 IH2]]; cbn; [split; [lia|constructor]|]. split; [lia|]. constructor; [lia|]. eapply Forall_impl; [exact IH2|]. cbn. intros; lia. }
  destruct (Hmax mapped) as [H1 H2]. split_and!; [lia|apply Z.divide_factor_l|lia|]. eapply Forall_impl; [exact H2|]. intros b Hb. right. cbn in *. lia.
Qed.

Lemma layout_partitions_witness :
  sumZ vma_size (layout 4096 8192 (10 * 4096) 3) = 10 * 4096 ∧ tiles 8192 (layout 4096 8192 (10 * 4096) 3) ∧
  Forall (λ v, vma_ok 4096 v ∧ vma_nextFree v = vma_start v ∧ vma_available v = vma_size v) (layout 4096 8192 (10 * 4096) 3).
Proof.
  destruct (layout_partitions 4096 next_mapping 8192 (10 * 4096) 3) as (_ & H1 & H2 & H3 & _);
    [lia|by exists 2|lia|by exists 10|rewrite word_max_val; lia|lia|]. split_and!; [exact H2|exact H1|exact H3].
Defined.

(** C25: after the initialization, whatever allocations are made on the NUMA nodes: an allocation of less than 2{^61}
    bytes on a node gives an address, or fails because the system maps no more memory; the blocks that were
    given out have no address in common and start at a page; and [findNUMA] of any address of such a
    range is the node that it was allocated on. *)
Theorem local_memory_is_found pageSize mmap `{!MmapLaws pageSize mmap} total local nodes s0 s given :
  nodes ≡ₚ seq 0 (length nodes) → nodes ≠ [] → 0 ≤ total → (∀ z, local = Some z → 0 < z < 2 ^ 61) → 20 * pageSize ≤ total →
  vmm_initialize pageSize mmap total local nodes = Ok s0 → rtc (vm_step pageSize mmap) (s0, []) (s, given) →
  separate given.*2 ∧
  (∀ n b, (n, b) ∈ given → (pageSize | b.1) ∧ ∀ ptr, b.1 ≤ ptr < b.1 + b.2 → findNUMA ptr s = n) ∧
  ∀ size n, 0 ≤ size < 2 ^ 61 → (n < length nodes)%nat →
    match allocLocalNUMA pageSize mmap size n s with
    | Ok (_, o) => is_Some o
    | Err e => e = Fatal "mapping virtual address space failed"
    end.
Proof.
  intros Hn1 Hn2 Ht Hl Ht2 Hi Hrun. destruct (vmm_initialize_ok pageSize mmap total local nodes s0) as (Hok & Hlen & _); [done..|].
  assert (run_fine pageSize (s, given) ∧ length (vm_localNUMAVMA s) = length nodes) as [[H1 H2 H3 H4] Hlen'].
  { change s with (s, given).1 at 2. revert Hrun. generalize (s, given). intros x Hrun. revert Hrun.
    apply (rtc_ind_r (λ x, run_fine pageSize x ∧ length (vm_localNUMAVMA x.1) = length nodes)).
    - split; [|done]. split; cbn; [done|rewrite app_nil_r; by apply (frees_separate pageSize)|constructor|constructor].
    - intros y z _ Hstep [Hy Hyl]. split; [by eapply (vm_step_fine pageSize mmap)|]. pose proof (given_mapped _ _ Hy) as Hm. destruct Hy as [Y1 Y2 Y3 Y4]. destruct Hstep as [size n s1 a Hs Hn Ha].
      pose proof (allocLocalNUMA_carves pageSize mmap size n _ _ Y1 Hn Hs Y2 Hm) as H. rewrite Ha in H. destruct H as (b & _ & [_ [Hg _] _ _ _]). cbn. congruence. }
  cbn in *. split_and!.
  - by apply separate_app in H2 as (_ & ? & _).
  - intros n b Hin. rewrite Forall_forall in H3, H4. split; [by apply (H4 (n, b))|]. intros ptr Hptr. eapply (findNUMA_spec pageSize); [done|by apply (H3 (n, b))|done].
  - intros size n Hs Hn. rewrite <- Hlen' in Hn. pose proof (allocLocalNUMA_carves pageSize mmap size n [] s H1 Hn Hs) as H. rewrite app_nil_r in H.
    specialize (H (frees_separate pageSize s H1) (Forall_nil_2 _)). destruct (allocLocalNUMA _ _ _ _ _) as [[s' o]|e]; [|done]. destruct H as (a & -> & _). done.
Qed.

(** Seven pages for two nodes: five bytes of more than a page on the second one. *)
Lemma local_memory_is_found_witness :
  ∃ s0 s, vmm_initialize 4096 next_mapping (2 ^ 34) (Some 28000) [0; 1]%nat = Ok s0 ∧
    rtc (vm_step 4096 next_mapping) (s0, []) (s, [(1%nat, (20480, 8192))]) ∧ findNUMA 25000 s = 1%nat.
Proof.
  destruct (vmm_initialize 4096 next_mapping (2 ^ 34) (Some 28000) [0; 1]%nat) as [s0|] eqn:H0; [|vm_compute in H0; done].
  destruct (allocLocalNUMA 4096 next_mapping 5000 1 s0) as [[s o]|] eqn:Ha; [|vm_compute in H0; injection H0 as <-; vm_compute in Ha; done].
  assert (o = Some 20480) as -> by (vm_compute in H0; injection H0 as <-; vm_compute in Ha; by injection Ha).
  assert (rtc (vm_step 4096 next_mapping) (s0, []) (s, [(1%nat, (20480, 8192))])) as Hrun.
  { apply rtc_once. apply (vm_alloc 4096 next_mapping (s0, []) 5000 1 s 20480); [lia| |done]. vm_compute in H0. injection H0 as <-. cbn. lia. }
  exists s0, s. split; [done|]. split; [done|].
  destruct (local_memory_is_found 4096 next_mapping (2 ^ 34) (Some 28000) [0; 1]%nat s0 s [(1%nat, (20480, 8192))]) as (_ & Hf & _);
    [done|done|lia|intros z [= <-]; lia|lia|done|done|]. destruct (Hf 1%nat (20480, 8192) ltac:(by left)) as [_ Hp]. apply Hp. cbn. lia.
Defined.

(** The processes of a cluster share one layout of the addresses: the areas of the NUMA nodes of one process have no
    address in common with those of another process or with the area for distributed allocations. *)
Theorem cluster_areas_separate pageSize mmap `{!MmapLaws pageSize mmap} address distribSize localSize clusterSize i j ni nj u v :
  0 < address → (pageSize | address) → 0 < localSize → (pageSize | localSize) → 0 < distribSize →
  address + Z.of_nat clusterSize * localSize + distribSize < word_max → (i < clusterSize)%nat → (j < clusterSize)%nat → i ≠ j → (0 < ni)%nat → (0 < nj)%nat →
  u ∈ cl_localNUMAVMA (cluster_setupMemoryLayout pageSize address distribSize localSize i clusterSize ni) →
  v ∈ cl_localNUMAVMA (cluster_setupMemoryLayout pageSize address distribSize localSize j clusterSize nj) →
  disjoint_ranges (area u) (area v) ∧
  disjoint_ranges (area u) (area (cl_genericVMA (cluster_setupMemoryLayout pageSize address distribSize localSize i clusterSize ni))).
Proof.
  intros Ha1 Ha2 Hl1 Hl2 Hd Hm Hi Hj Hij Hni Hnj Hu Hv.
  assert (∀ k nk x, (k < clusterSize)%nat → (0 < nk)%nat → x ∈ layout pageSize (wrap64 (address + Z.of_nat k * localSize)) localSize nk →
    sub_range (area x) (address + Z.of_nat k * localSize, localSize)) as Hin.
  { intros k nk x Hk Hnk Hx. assert (Z.of_nat k * localSize + localSize ≤ Z.of_nat clusterSize * localSize) as Hle by nia.
    rewrite wrap64_small in Hx by (split; nia). destruct (layout_spec pageSize mmap (address + Z.of_nat k * localSize) localSize nk) as (_ & L2 & L3 & L4 & _);
      [nia|apply Z.divide_add_r; [done|by apply Z.divide_mul_r]|lia|done|lia|done|].
    rewrite <- L3 at 2. apply tiles_within; [|done|done]. eapply Forall_impl; [exact L4|]. intros y Hy. apply (va_size _ y Hy). }
  specialize (Hin i ni u Hi Hni Hu) as H1. specialize (Hin j nj v Hj Hnj Hv) as H2. unfold sub_range, disjoint_ranges, area in *. cbn in *.
  rewrite wrap64_small by (split; nia). assert ((Z.of_nat i + 1) * localSize ≤ Z.of_nat clusterSize * localSize) by nia. split; [|left; lia].
  destruct (decide (i < j)%nat); [left; assert ((Z.of_nat i + 1) * localSize ≤ Z.of_nat j * localSize) by nia; lia|].
  right. assert ((Z.of_nat j + 1) * localSize ≤ Z.of_nat i * localSize) by nia. lia.
Qed.

Lemma cluster_areas_separate_witness :
  disjoint_ranges (area (new_vma 8192 4096)) (area (new_vma (8192 + 8192) 8192)).
Proof.
  refine (proj1 (cluster_areas_separate 4096 next_mapping 8192 4096 8192 2 0 1 2 1 (new_vma 8192 4096) (new_vma (8192 + 8192) 8192) _ _ _ _ _ _ _ _ _ _ _ _ _));
    [lia|by exists 2|lia|by exists 2|lia|rewrite word_max_val; lia|lia|lia|lia|lia|lia|vm_compute; by left|vm_compute; by left].
Defined.

(** A range that reaches the end of an area is not recognized as part of it. *)
Lemma includesRange_misses_end pageSize v size address :
  vma_ok pageSize v → vma_start v ≤ address → address + size = vma_end v → includesRange address size v = false.
Proof.
  intros [[H1 _] [H2 _] [He1 He2] _ _] Ha Hs. unfold includesRange. rewrite wrap64_small by (split; lia). rewrite Hs, Z.ltb_irrefl. apply andb_false_r.
Qed.
End Vmm.
