(* ===== verification/MemoryPools.v ===== *)
(** * Memory pools

    [memory/allocator/pool/]: the pools of the NUMA nodes, which cut the memory of the node into large chunks
    ([MemoryPoolGlobal.hpp]), the pools of chunks of one size, linked through the chunks themselves
    ([MemoryPool.hpp]), and the allocator, which has a pool per CPU and size ([MemoryAllocator.cpp]).
    The memory that the links are written to is part of the state, and the code that owns a chunk can
    write to it.  A division by zero and an index that is out of range are fatal errors too. *)

From S2P Require Import Prelude.
From S2P Require Import VirtualMemory.
Local Open Scope Z_scope.

(** ** Data *)

Record MemoryPoolGlobal := mkGlobal {
  mg_globalAllocSize : Z;
  mg_memoryChunkSize : Z;
  mg_oldMemoryChunks : list Z;
  mg_curMemoryChunk : Z;
  mg_curAvailable : Z;
  mg_NUMANodeId : nat;
}.

(** The null pointer is 0. *)
Record MemoryPool := mkPool { mp_globalAllocator : nat; mp_chunkSize : Z; mp_topChunk : Z }.

(** The pools of a CPU and those of the threads without a CPU, by the number of cache lines. *)
Definition pool_key : Type := option nat * Z.

Record memory := mkMemory {
  me_vm : VMM;
  me_globalMemoryPool : list MemoryPoolGlobal;
  me_pools : gmap pool_key MemoryPool;
  (* the pointers in memory, by address *)
  me_words : gmap Z Z;
}.

Section pools.
Context (pageSize : Z) (mmap : list range → Z → option Z).
(** The size of a cache line, the number of CPUs and their nodes. *)
Context (cacheLineSize : Z) (cpuCount : nat) (node_of : nat → nat).

(** ** The pool of a node *)

Definition global_fillPool (g : MemoryPoolGlobal) (vm : VMM) : res (MemoryPoolGlobal * VMM) :=
  r ← allocLocalNUMA pageSize mmap (mg_globalAllocSize g) (mg_NUMANodeId g) vm;
  let '(vm, o) := r in
  match o with
  | None => Err (Fatal "could not allocate a memory chunk for the global allocator")
  | Some a =>
      Ok (mkGlobal (mg_globalAllocSize g) (mg_memoryChunkSize g) (mg_oldMemoryChunks g ++ [a]) a (mg_globalAllocSize g) (mg_NUMANodeId g), vm)
  end.

Definition new_global (globalAllocSize memoryChunkSize : Z) (node : nat) (vm : VMM) : res (MemoryPoolGlobal * VMM) :=
  failIf (memoryChunkSize =? 0) "division by zero";;
  failIf (negb (globalAllocSize mod memoryChunkSize =? 0)) "Pool size and chunk size must be multiples of eachother";;
  global_fillPool (mkGlobal globalAllocSize memoryChunkSize [] 0 0 node) vm.

Definition set_alloc_size (g : MemoryPoolGlobal) : MemoryPoolGlobal :=
  mkGlobal (ROUND_UP (mg_globalAllocSize g) (mg_memoryChunkSize g)) (mg_memoryChunkSize g) (mg_oldMemoryChunks g) (mg_curMemoryChunk g)
    (mg_curAvailable g) (mg_NUMANodeId g).

Definition set_chunk_size (c : Z) (g : MemoryPoolGlobal) : MemoryPoolGlobal :=
  mkGlobal (mg_globalAllocSize g) c (mg_oldMemoryChunks g) (mg_curMemoryChunk g) (mg_curAvailable g) (mg_NUMANodeId g).

Definition refill (g : MemoryPoolGlobal) (vm : VMM) : res (MemoryPoolGlobal * VMM) :=
  if mg_curAvailable g <? mg_memoryChunkSize g then global_fillPool (if mg_curAvailable g =? 0 then g else set_alloc_size g) vm
  else Ok (g, vm).

(** The chunks become larger. *)
Definition enlarge (minSize : Z) (g : MemoryPoolGlobal) (vm : VMM) : res (MemoryPoolGlobal * VMM) :=
  if mg_memoryChunkSize g <? minSize then
    let g := set_chunk_size (ROUND_UP minSize (mg_memoryChunkSize g)) g in
    if mg_curAvailable g <? mg_memoryChunkSize g then global_fillPool (set_alloc_size g) vm else Ok (g, vm)
  else Ok (g, vm).

(** [getMemory]: the address and the size. *)
Definition getMemory (minSize : Z) (g : MemoryPoolGlobal) (vm : VMM) : res (MemoryPoolGlobal * VMM * range) :=
  r ← refill g vm; let '(g, vm) := r in
  r ← enlarge minSize g vm; let '(g, vm) := r in
  let chunkSize := mg_memoryChunkSize g in
  Ok (mkGlobal (mg_globalAllocSize g) (mg_memoryChunkSize g) (mg_oldMemoryChunks g) (wrap64 (mg_curMemoryChunk g + chunkSize))
        (wrap64 (mg_curAvailable g - chunkSize)) (mg_NUMANodeId g), vm, (mg_curMemoryChunk g, chunkSize)).

(** ** The pool of a size *)

(** The loop of [fillPool] that writes the address of each chunk to the one before it, from chunk [i] on. *)
Fixpoint link_chunks (top chunkSize : Z) (i : Z) (count : nat) (prev : Z) (words : gmap Z Z) : gmap Z Z :=
  match count with
  | O => <[prev := 0]> words
  | S count =>
      let next := wrap64 (top + wrap64 (i * chunkSize)) in
      link_chunks top chunkSize (i + 1) count next (<[prev := next]> words)
  end.

Definition put_global (n : nat) (g : MemoryPoolGlobal) (vm : VMM) (s : memory) : memory :=
  mkMemory vm (<[n := g]> (me_globalMemoryPool s)) (me_pools s) (me_words s).
Definition put_words (words : gmap Z Z) (s : memory) : memory := mkMemory (me_vm s) (me_globalMemoryPool s) (me_pools s) words.
Definition put_pool (k : pool_key) (p : MemoryPool) (s : memory) : memory :=
  mkMemory (me_vm s) (me_globalMemoryPool s) (<[k := p]> (me_pools s)) (me_words s).

Definition fillPool (p : MemoryPool) (s : memory) : res (MemoryPool * memory) :=
  g ← get (me_globalMemoryPool s !! mp_globalAllocator p);
  r ← getMemory (mp_chunkSize p) g (me_vm s);
  let '(g, vm, (top, globalChunkSize)) := r in
  let s := put_global (mp_globalAllocator p) g vm s in
  failIf (mp_chunkSize p =? 0) "division by zero";;
  let numChunks := globalChunkSize / mp_chunkSize p in
  failIf (numChunks =? 0) "Memory returned from global pool is smaller than chunk size";;
  Ok (mkPool (mp_globalAllocator p) (mp_chunkSize p) top,
      put_words (link_chunks top (mp_chunkSize p) 1 (Z.to_nat (numChunks - 1)) top (me_words s)) s).

(** [getChunk] up to the read of [_topChunk], and its end; the threads without a CPU share their pools, which are not locked
    here, and other threads can come between the two. *)
Definition getChunk_begin (p : MemoryPool) (s : memory) : res (MemoryPool * memory) :=
  if mp_topChunk p =? 0 then fillPool p s else Ok (p, s).

Definition getChunk_end (chunk : Z) (p : MemoryPool) (s : memory) : res MemoryPool :=
  next ← get (me_words s !! chunk);
  Ok (mkPool (mp_globalAllocator p) (mp_chunkSize p) next).

Definition getChunk (p : MemoryPool) (s : memory) : res (MemoryPool * memory * Z) :=
  r ← getChunk_begin p s;
  let '(p, s) := r in
  let chunk := mp_topChunk p in
  p ← getChunk_end chunk p s;
  Ok (p, s, chunk).

Definition returnChunk (chunk : Z) (p : MemoryPool) (s : memory) : MemoryPool * memory :=
  (mkPool (mp_globalAllocator p) (mp_chunkSize p) chunk, put_words (<[chunk := mp_topChunk p]> (me_words s)) s).

(** ** The allocator *)

(** Up to a multiple of the size of a cache line, which is a power of two *)
Definition roundedSize (size : Z) : Z := Z.land (wrap64 (size + cacheLineSize - 1)) (wrap64 (Z.lnot (cacheLineSize - 1))).

(** [getPool]: the pool of a size for a thread on a CPU, or for one without a CPU. *)
Definition getPool (cpu : option nat) (size : Z) (s : memory) : res (pool_key * MemoryPool * memory) :=
  let key := (cpu, roundedSize size / cacheLineSize) in
  failIf (match cpu with Some c => negb (bool_decide (c < cpuCount)%nat) | None => false end) "index out of range";;
  match me_pools s !! key with
  | Some p => Ok (key, p, s)
  | None =>
      let p := mkPool (match cpu with Some c => node_of c | None => 0%nat end) (roundedSize size) 0 in
      Ok (key, p, put_pool key p s)
  end.

Definition alloc (cpu : option nat) (size : Z) (s : memory) : res (memory * Z) :=
  r ← getPool cpu size s; let '(key, p, s) := r in
  r ← getChunk p s; let '(p, s, chunk) := r in
  Ok (put_pool key p s, chunk).

(** [alloc] in these two parts. *)
Definition alloc_begin (cpu : option nat) (size : Z) (s : memory) : res (memory * Z) :=
  r ← getPool cpu size s; let '(key, p, s) := r in
  r ← getChunk_begin p s; let '(p, s) := r in
  Ok (put_pool key p s, mp_topChunk p).

Definition alloc_end (cpu : option nat) (size chunk : Z) (s : memory) : res memory :=
  r ← getPool cpu size s; let '(key, p, s) := r in
  p ← getChunk_end chunk p s;
  Ok (put_pool key p s).

Definition free (cpu : option nat) (chunk size : Z) (s : memory) : res memory :=
  r ← getPool cpu size s; let '(key, p, s) := r in
  let '(p, s) := returnChunk chunk p s in
  Ok (put_pool key p s).

(** A pool for each of some nodes. *)
Fixpoint new_globals (globalAllocSize memoryChunkSize : Z) (nodes : list nat) (vm : VMM) : res (list MemoryPoolGlobal * VMM) :=
  match nodes with
  | [] => Ok ([], vm)
  | n :: nodes =>
      r ← new_global globalAllocSize memoryChunkSize n vm; let '(g, vm) := r in
      r ← new_globals globalAllocSize memoryChunkSize nodes vm; let '(gs, vm) := r in
      Ok (g :: gs, vm)
  end.

(** [initialize]: the memory of the machine, the variables of the environment, the memory places. *)
Definition allocator_initialize (totalPhysicalMemory : Z) (localMemory : option Z) (globalAllocSize memoryChunkSize : Z) (numaNodes : list nat) : res memory :=
  vm ← vmm_initialize pageSize mmap totalPhysicalMemory localMemory numaNodes;
  r ← new_globals globalAllocSize memoryChunkSize (seq 0 (length numaNodes)) vm;
  Ok (mkMemory r.2 r.1 ∅ ∅).
End pools.
