(* ===== verification/MemoryPoolProofs.v ===== *)
(** * Memory pools: who owns which addresses

    Every address of the mapped memory belongs to at most one of: the free part of an area, the current chunk
    of the pool of a node, a free chunk of a pool, and a chunk that is in use.  Every operation splits
    or moves one of them. *)

From S2P Require Import Prelude.
From S2P Require Import VirtualMemory MemoryPools.
Local Open Scope Z_scope.

(** ** Arithmetic *)

Lemma roundedSize_spec e size :
  0 ≤ e < 32 → 0 ≤ size < 2 ^ 62 → let c := 2 ^ e in
  size ≤ roundedSize c size < size + c ∧ roundedSize c size = roundedSize c size / c * c.
Proof.
  intros He Hs c. assert (0 < c ≤ 2 ^ 32) as Hc by (unfold c; split; [apply Z.pow_pos_nonneg; lia|apply Z.pow_le_mono_r; lia]).
  set (x := size + c - 1). assert (0 ≤ x < 2 ^ 64) as Hx by (unfold x; lia).
  assert (roundedSize c size = x / c * c) as Hr.
  { unfold roundedSize. fold x. rewrite (wrap64_small x) by (unfold is_word; rewrite word_max_val; lia).
    unfold wrap64, word_max, word_bits. rewrite <- Z.land_ones by lia. rewrite (Z.land_comm (Z.lnot _)), Z.land_assoc, Z.land_ones, Z.mod_small by lia.
    replace (c - 1) with (Z.ones e) by (rewrite Z.ones_equiv; unfold c; lia). rewrite <- Z.ldiff_land, Z.ldiff_ones_r by lia.
    by rewrite Z.shiftr_div_pow2, Z.shiftl_mul_pow2 by lia. }
  rewrite Hr, Z.div_mul by lia. pose proof (Z.div_mod x c ltac:(lia)). pose proof (Z.mod_pos_bound x c ltac:(lia)). unfold x in *. split; [nia|done].
Qed.

Lemma separate_drop l1 a l2 : separate (l1 ++ a :: l2) → separate (l1 ++ l2).
Proof. rewrite <- Permutation_middle. by intros [_ H]. Qed.

Lemma separate_shrink l1 a b l2 : sub_range b a → separate (l1 ++ a :: l2) → separate (l1 ++ b :: l2).
Proof.
  intros Hs. rewrite <- !Permutation_middle. intros H. apply (separate_split a (l1 ++ l2) [b]); [done|by apply Forall_singleton|]. split; [constructor|done].
Qed.

Section global.
Context (pageSize : Z) (mmap : list range → Z → option Z) `{!MmapLaws pageSize mmap}.
(** The first size of an allocation, and a bound for the sizes that are asked for. *)
Context (firstSize : Z) (Hfirst : 0 ≤ firstSize ≤ 2 ^ 40).
Context (line : Z) (Hline : 0 < line) (Hpage : (line | pageSize)).

Definition current (g : MemoryPoolGlobal) : range := (mg_curMemoryChunk g, mg_curAvailable g).

Record sizes_ok (g : MemoryPoolGlobal) : Prop := {
  sz_chunk : 0 < mg_memoryChunkSize g ≤ mg_globalAllocSize g ∧ mg_memoryChunkSize g < 2 ^ 41;
  sz_grown : (mg_memoryChunkSize g | mg_globalAllocSize g) ∨ mg_globalAllocSize g ≤ firstSize + mg_memoryChunkSize g;
  sz_bound : mg_globalAllocSize g ≤ firstSize + 2 * mg_memoryChunkSize g;
  sz_line : (line | mg_memoryChunkSize g);
}.

Record global_ok (i : nat) (g : MemoryPoolGlobal) : Prop := {
  gb_sizes : sizes_ok g;
  gb_available : 0 ≤ mg_curAvailable g ≤ mg_globalAllocSize g;
  gb_line : (line | mg_curMemoryChunk g);
  gb_node : mg_NUMANodeId g = i;
}.

(** The state of a node and of the virtual memory after one more step, besides other ranges. *)
Record supplied (i : nat) (L : list range) (vm : VMM) (g' : MemoryPoolGlobal) (vm' : VMM) : Prop := {
  sp_vm : vm_ok pageSize vm';
  sp_grows : grows vm vm';
  sp_global : global_ok i g';
  sp_separate : separate (frees vm' ++ current g' :: L);
  sp_mapped : mapped vm' (current g');
}.

Lemma fill_spec i L g vm :
  sizes_ok g → mg_NUMANodeId g = i → vm_ok pageSize vm → (i < length (vm_localNUMAVMA vm))%nat → separate (frees vm ++ L) → Forall (mapped vm) L →
  match global_fillPool pageSize mmap g vm with
  | Ok (g', vm') =>
      supplied i L vm g' vm' ∧ mg_curAvailable g' = mg_globalAllocSize g ∧ mg_globalAllocSize g' = mg_globalAllocSize g ∧ mg_memoryChunkSize g' = mg_memoryChunkSize g
  | Err e => e = Fatal "mapping virtual address space failed"
  end.
Proof.
  intros Hg Hi Hvm Hlen Hsep HL. destruct (page_pos (pageSize := pageSize) (mmap := mmap)) as [Hp Hp2].
  pose proof Hg as [[Hc Hc2] _ Hb Hl]. unfold global_fillPool. rewrite Hi.
  pose proof (allocLocalNUMA_carves pageSize mmap (mg_globalAllocSize g) i L vm Hvm Hlen ltac:(lia) Hsep HL) as H.
  destruct (allocLocalNUMA _ _ _ _ _) as [[vm' o]|e]; [|done]. destruct H as (a & -> & [C1 C2 C3 C4 C5]). cbn [mbind res_bind].
  destruct (ROUND_UP_spec (mg_globalAllocSize g) pageSize Hp ltac:(lia) ltac:(rewrite word_max_val; lia)) as [Hr _].
  assert (sub_range (a, mg_globalAllocSize g) (a, ROUND_UP (mg_globalAllocSize g) pageSize)) as Hsub by (unfold sub_range; cbn; lia).
  split; [|done]. split; [done|done| | |].
  - destruct Hg. split; cbn; [by split|lia|by etrans; [exact Hpage|apply C5]|done].
  - by eapply separate_shrink.
  - destruct (in_node_mapped pageSize i _ vm' C1 C4) as (m & Hm & Hs). exists m. split; [done|]. by etrans.
Qed.

Lemma set_alloc_size_ok g : sizes_ok g → sizes_ok (set_alloc_size g) ∧ mg_globalAllocSize g ≤ mg_globalAllocSize (set_alloc_size g).
Proof.
  intros [[Hc Hc2] Hgr Hb Hl]. unfold set_alloc_size. cbn.
  destruct (ROUND_UP_spec (mg_globalAllocSize g) (mg_memoryChunkSize g) ltac:(lia) ltac:(lia) ltac:(rewrite word_max_val; lia)) as [Hr Hd].
  split; [|lia]. split; cbn; [lia|by left| |done]. destruct Hgr as [Hdv|Hle]; [|lia].
  pose proof (ROUND_UP_mono (mg_globalAllocSize g) (mg_globalAllocSize g) (mg_memoryChunkSize g) ltac:(lia) ltac:(lia) ltac:(rewrite word_max_val; lia) Hdv). lia.
Qed.

Lemma refill_spec i L g vm :
  global_ok i g → vm_ok pageSize vm → (i < length (vm_localNUMAVMA vm))%nat → separate (frees vm ++ current g :: L) → Forall (mapped vm) (current g :: L) →
  match refill pageSize mmap g vm with
  | Ok (g', vm') => supplied i L vm g' vm' ∧ mg_memoryChunkSize g' ≤ mg_curAvailable g'
  | Err e => e = Fatal "mapping virtual address space failed"
  end.
Proof.
  intros Hg Hvm Hlen Hsep HL. apply Forall_cons in HL as [Hcur HL]. unfold refill. destruct (Z.ltb_spec (mg_curAvailable g) (mg_memoryChunkSize g)) as [Hlt|Hge].
  - set (g1 := if mg_curAvailable g =? 0 then g else set_alloc_size g).
    assert (sizes_ok g1 ∧ mg_NUMANodeId g1 = i) as [Hg1 Hn1].
    { unfold g1. destruct (_ =? 0); [split; [apply Hg|apply (gb_node i g Hg)]|]. split; [apply set_alloc_size_ok, Hg|apply (gb_node i g Hg)]. }
    apply separate_drop in Hsep. pose proof (fill_spec i L g1 vm Hg1 Hn1 Hvm Hlen Hsep HL) as H. destruct (global_fillPool _ _ _ _) as [[g' vm']|e]; [|done].
    destruct H as (H1 & H2 & H3 & H4). split; [done|]. rewrite H2, H4. apply Hg1.
  - split; [|done]. by split.
Qed.

Lemma enlarge_spec i L g vm minSize :
  0 < minSize ≤ 2 ^ 40 → global_ok i g → mg_memoryChunkSize g ≤ mg_curAvailable g →
  vm_ok pageSize vm → (i < length (vm_localNUMAVMA vm))%nat → separate (frees vm ++ current g :: L) → Forall (mapped vm) (current g :: L) →
  match enlarge pageSize mmap minSize g vm with
  | Ok (g', vm') => supplied i L vm g' vm' ∧ minSize ≤ mg_memoryChunkSize g' ≤ mg_curAvailable g'
  | Err e => e = Fatal "mapping virtual address space failed"
  end.
Proof.
  intros Hmin Hg Hav Hvm Hlen Hsep HL. pose proof Hg as [[[Hc Hc2] Hgr Hb Hl] Ha Hln Hn].
  unfold enlarge. destruct (Z.ltb_spec (mg_memoryChunkSize g) minSize) as [Hlt|Hge]; [|split; [|done]; by inversion HL; subst; split].
  destruct (ROUND_UP_spec minSize (mg_memoryChunkSize g) ltac:(lia) ltac:(lia) ltac:(rewrite word_max_val; lia)) as [Hr [k Hk]].
  set (c := ROUND_UP minSize (mg_memoryChunkSize g)) in *. cbn. assert (1 < k) as Hk1 by (apply (Z.mul_lt_mono_pos_r (mg_memoryChunkSize g)); lia).
  assert (2 * mg_memoryChunkSize g ≤ c) as H2c by (rewrite Hk; apply Z.mul_le_mono_nonneg_r; lia).
  assert ((line | c)) as Hlc by (rewrite Hk; by apply Z.divide_mul_r).
  destruct (Z.ltb_spec (mg_curAvailable g) c) as [Hlt2|Hge2].
  - set (g1 := set_alloc_size (set_chunk_size c g)).
    assert (sizes_ok g1) as Hg1.
    { unfold g1, set_alloc_size, set_chunk_size. cbn. destruct (ROUND_UP_spec (mg_globalAllocSize g) c ltac:(lia) ltac:(lia) ltac:(rewrite word_max_val; lia)) as [Hr2 Hd2].
      split; cbn; [|by left|lia|done]. split; [|lia]. split; [lia|]. apply Z.divide_pos_le; [lia|done]. }
    apply Forall_cons in HL as [_ HL]. apply separate_drop in Hsep. pose proof (fill_spec i L g1 vm Hg1 Hn Hvm Hlen Hsep HL) as H.
    destruct (global_fillPool _ _ _ _) as [[g' vm']|e]; [|done]. destruct H as (H1 & H2 & H3 & H4). split; [done|]. rewrite H2, H4.
    destruct Hg1 as [[? ?] _ _ _]. unfold g1 in *. cbn in *. lia.
  - split; [|cbn; lia]. inversion HL; subst. split; [done|done| |done|done]. split; cbn; [|lia|done|done]. split; cbn; [lia|right; lia|lia|done].
Qed.

(** What the pool of a node hands out. *)
Lemma getMemory_spec i L g vm minSize :
  0 < minSize ≤ 2 ^ 40 → global_ok i g → vm_ok pageSize vm → (i < length (vm_localNUMAVMA vm))%nat →
  separate (frees vm ++ current g :: L) → Forall (mapped vm) (current g :: L) →
  match getMemory pageSize mmap minSize g vm with
  | Ok (g', vm', b) => supplied i (b :: L) vm g' vm' ∧ mapped vm' b ∧ minSize ≤ b.2 ∧ (line | b.1)
  | Err e => e = Fatal "mapping virtual address space failed"
  end.
Proof.
  intros Hmin Hg Hvm Hlen Hsep HL. unfold getMemory. pose proof (refill_spec i L g vm Hg Hvm Hlen Hsep HL) as H1.
  destruct (refill _ _ _ _) as [[g1 vm1]|e]; [|done]. cbn [mbind res_bind]. destruct H1 as [[R1 R2 R3 R4 R5] Hav].
  pose proof R2 as (Rl & Rm & _). apply Forall_cons in HL as [_ HL].
  assert (Forall (mapped vm1) L) as HL1 by (eapply Forall_impl; [exact HL|]; apply Rm).
  pose proof (enlarge_spec i L g1 vm1 minSize Hmin R3 Hav R1 ltac:(rewrite Rl; done) R4 ltac:(by constructor)) as H2.
  destruct (enlarge _ _ _ _ _) as [[g2 vm2]|e]; [|done]. cbn [mbind res_bind]. destruct H2 as [[E1 E2 E3 E4 E5] Hc].
  pose proof (mapped_range pageSize _ _ E1 E5) as [M1 M2]. cbn in M1, M2. pose proof E3 as [[[Hc1 Hc2] Hgr Hb Hl] Ha Hln Hn].
  rewrite !wrap64_small by (split; lia). set (g' := mkGlobal _ _ _ _ _ _). set (b := (mg_curMemoryChunk g2, mg_memoryChunkSize g2)).
  assert (Forall (λ q, sub_range q (current g2)) [current g'; b]) as Hsub.
  { rewrite !Forall_cons. unfold sub_range, g', b, current. cbn. split_and!; [lia..|constructor]. }
  assert (∀ q, sub_range q (current g2) → mapped vm2 q) as Hq by (intros q Hq; destruct E5 as (m & Hm & Hs); exists m; split; [done|by etrans]).
  rewrite !Forall_cons in Hsub. destruct Hsub as (Hs1 & Hs2 & _). split; [|split_and!; [by apply Hq|cbn; lia|done]]. split; [done|by etrans| | |by apply Hq].
  - split; cbn; [by split|lia|by apply Z.divide_add_r|done].
  - rewrite <- Permutation_middle in E4. apply separate_split with (parts := [current g'; b]) in E4.
    + eapply separate_perm; [|exact E4]. cbn [app]. rewrite <- Permutation_middle. constructor. by rewrite <- Permutation_middle.
    + rewrite !Forall_cons. by split_and!.
    + split; [|by split; [constructor|]]. apply Forall_singleton. right. unfold g', b, current. cbn. lia.
Qed.
End global.

(** ** Chunks *)

Fixpoint chunks_from (a size : Z) (n : nat) : list Z := match n with O => [] | S n => a :: chunks_from (a + size) size n end.

Lemma elem_of_chunks_from x a size n : x ∈ chunks_from a size n ↔ ∃ j, 0 ≤ j < Z.of_nat n ∧ x = a + j * size.
Proof.
  revert a. induction n as [|n IH]; intros a; cbn [chunks_from]; [rewrite elem_of_nil; split; [done|]; intros (j & Hj & _); lia|].
  rewrite elem_of_cons, IH. split.
  - intros [->|(j & Hj & ->)]; [exists 0; lia|]. exists (j + 1). lia.
  - intros (j & Hj & ->). destruct (decide (j = 0)) as [->|Hne]; [left; lia|]. right. exists (j - 1). lia.
Qed.

Lemma chunks_from_split a size n :
  0 < size → separate ((λ x, (x, size)) <$> chunks_from a size n) ∧
  Forall (λ q, sub_range q (a, Z.of_nat n * size)) ((λ x, (x, size)) <$> chunks_from a size n).
Proof.
  intros Hs. assert (Forall (λ q, sub_range q (a, Z.of_nat n * size)) ((λ x, (x, size)) <$> chunks_from a size n)) as Hsub.
  { apply Forall_fmap, Forall_forall. intros x (j & Hj & ->)%elem_of_chunks_from. unfold sub_range. cbn. nia. }
  split; [|done]. clear Hsub. revert a. induction n as [|n IH]; intros a; cbn; [done|]. split; [|apply IH].
  apply Forall_fmap, Forall_forall. intros x (j & Hj & ->)%elem_of_chunks_from. left. cbn. nia.
Qed.

(** The chunks that are linked from an address. *)
Fixpoint chain (words : gmap Z Z) (top : Z) (l : list Z) : Prop :=
  match l with
  | [] => top = 0
  | x :: l => top = x ∧ x ≠ 0 ∧ ∃ next, words !! x = Some next ∧ chain words next l
  end.

Lemma chain_agree words words' top l : (∀ x, x ∈ l → words' !! x = words !! x) → chain words top l → chain words' top l.
Proof.
  revert top. induction l as [|x l IH]; intros top Hw; cbn; [done|]. intros (-> & Hx & next & Hn & Hc). split_and!; [done|done|]. exists next.
  rewrite Hw by (by left). split; [done|]. apply IH; [|done]. intros y Hy. apply Hw. by right.
Qed.

Lemma link_chunks_spec top size i count words :
  0 < top → 0 < size → 1 ≤ i → top + (i + Z.of_nat count) * size < word_max →
  let prev := top + (i - 1) * size in
  let words' := link_chunks top size i count prev words in
  chain words' prev (chunks_from prev size (S count)) ∧ ∀ x, x ∉ chunks_from prev size (S count) → words' !! x = words !! x.
Proof.
  intros Ht Hs. revert i words. induction count as [|n IH]; intros i words Hi Hm prev words'; unfold words'; cbn [link_chunks].
  - split; [cbn; rewrite lookup_insert_eq; split_and!; [done|unfold prev; nia|by exists 0]|]. intros x Hx. rewrite lookup_insert_ne; [done|]. cbn in Hx. set_solver.
  - assert (wrap64 (i * size) = i * size) as Hw1 by (apply wrap64_small; split; nia). rewrite Hw1.
    assert (wrap64 (top + i * size) = top + i * size) as Hw2 by (apply wrap64_small; split; nia). rewrite Hw2.
    destruct (IH (i + 1) (<[prev := top + i * size]> words)) as [H1 H2]; [lia|lia|]. replace (i + 1 - 1) with i in H1, H2 by lia.
    assert (chunks_from prev size (S (S n)) = prev :: chunks_from (top + i * size) size (S n)) as Hcf.
    { change (prev :: chunks_from (prev + size) size (S n) = prev :: chunks_from (top + i * size) size (S n)). do 2 f_equal. unfold prev. lia. }
    rewrite Hcf. split.
    + cbn [chain]. split_and!; [done|unfold prev; nia|]. exists (top + i * size). split; [|done]. rewrite H2, lookup_insert_eq; [done|].
      intros (j & Hj & Heq)%elem_of_chunks_from. unfold prev in Heq. nia.
    + intros x Hx. apply not_elem_of_cons in Hx as [Hx1 Hx2]. rewrite H2, lookup_insert_ne; done.
Qed.

(** ** The state *)

Definition chunks_of (x : MemoryPool * list Z) : list range := (λ a, (a, mp_chunkSize x.1)) <$> x.2.

(** The pools, each with the chunks that are free in it. *)
Notation ghost := (gmap pool_key (MemoryPool * list Z)).
Definition free_chunks (G : ghost) : list range := vals G ≫= chunks_of.

Lemma free_chunks_delete G k x : G !! k = Some x → free_chunks G ≡ₚ chunks_of x ++ free_chunks (delete k G).
Proof. intros Hk. unfold free_chunks. by rewrite (vals_delete G k x Hk), bind_cons. Qed.

Lemma free_chunks_insert G k x : free_chunks (<[k := x]> G) ≡ₚ chunks_of x ++ free_chunks (delete k G).
Proof. unfold free_chunks. by rewrite vals_insert, bind_cons. Qed.

Lemma elem_of_free_chunks G k x a : G !! k = Some x → a ∈ x.2 → (a, mp_chunkSize x.1) ∈ free_chunks G.
Proof. intros Hk Ha. rewrite (free_chunks_delete G k x Hk). apply elem_of_app. left. by apply list_elem_of_fmap_2 with (f := λ a, (a, mp_chunkSize x.1)). Qed.

Section pools.
Context (pageSize : Z) (mmap : list range → Z → option Z) `{!MmapLaws pageSize mmap}.
Context (firstSize : Z) (Hfirst : 0 ≤ firstSize ≤ 2 ^ 40).
Context (line : Z) (Hline : 0 < line) (Hpage : (line | pageSize)).

(** The number of nodes. *)
Context (N : nat).

Record pool_ok (nodes : nat) (words : gmap Z Z) (k : pool_key) (x : MemoryPool * list Z) : Prop := {
  po_size : mp_chunkSize x.1 = k.2 * line ∧ 0 < mp_chunkSize x.1 ≤ 2 ^ 40;
  po_node : (mp_globalAllocator x.1 < nodes)%nat;
  po_chain : chain words (mp_topChunk x.1) x.2;
}.

Record memory_ok (s : memory) (G : ghost) (live : list range) : Prop := {
  mo_pools : me_pools s = fst <$> G;
  mo_vm : vm_ok pageSize (me_vm s);
  mo_nodes : length (vm_localNUMAVMA (me_vm s)) = length (me_globalMemoryPool s);
  mo_globals : ∀ i g, me_globalMemoryPool s !! i = Some g → global_ok firstSize line i g;
  mo_pool : ∀ k x, G !! k = Some x → pool_ok (length (me_globalMemoryPool s)) (me_words s) k x;
  mo_separate : separate (frees (me_vm s) ++ (current <$> me_globalMemoryPool s) ++ free_chunks G ++ live);
  mo_mapped : Forall (mapped (me_vm s)) ((current <$> me_globalMemoryPool s) ++ free_chunks G ++ live);
  mo_line : Forall (λ r, (line | r.1)) (free_chunks G ++ live);
  mo_live : Forall (λ r, 0 < r.2) live;
  mo_count : length (me_globalMemoryPool s) = N;
}.

Lemma chunk_elsewhere s G live k x a y r :
  memory_ok s G live → G !! k = Some x → y ∈ x.2 → r ∈ live → r.1 ≤ a < r.1 + r.2 → y ≠ a.
Proof.
  intros Hs Hk Hy Hr Ha ->. pose proof (elem_of_free_chunks G k x a Hk Hy) as Hin. pose proof (mo_separate _ _ _ Hs) as Hsep.
  rewrite !separate_app in Hsep. destruct Hsep as (_ & (_ & (_ & _ & Hd) & _) & _). specialize (Hd _ _ Hin Hr).
  destruct (po_size _ _ _ _ (mo_pool _ _ _ Hs k x Hk)) as [_ [? _]]. unfold disjoint_ranges in Hd. cbn in Hd. lia.
Qed.

(** Writes by the owner of a chunk. *)
Lemma write_ok s G live r a v :
  memory_ok s G live → r ∈ live → r.1 ≤ a < r.1 + r.2 → memory_ok (put_words (<[a := v]> (me_words s)) s) G live.
Proof.
  intros Hs Hr Ha. pose proof (chunk_elsewhere s G live) as Hel. destruct Hs as [H1 H2 H3 H4 H5 H6 H7 H8 H9 H10]. split; try done.
  intros k x Hk. destruct (H5 k x Hk) as [P1 P2 P3]. split; [done|done|]. cbn. eapply chain_agree; [|exact P3]. intros y Hy.
  apply lookup_insert_ne. intros ->. by eapply Hel.
Qed.

(** The first chunk of a pool is taken. *)
Lemma pop_ok s G live k p x l :
  memory_ok s G live → G !! k = Some (p, x :: l) →
  mp_topChunk p = x ∧ ∃ next, me_words s !! x = Some next ∧
    memory_ok (put_pool k (mkPool (mp_globalAllocator p) (mp_chunkSize p) next) s)
      (<[k := (mkPool (mp_globalAllocator p) (mp_chunkSize p) next, l)]> G) ((x, mp_chunkSize p) :: live).
Proof.
  intros [H1 H2 H3 H4 H5 H6 H7 H8 H9 H10] Hk. destruct (H5 k _ Hk) as [P1 P2 (Htop & Hx & next & Hn & Hc)]. cbn in *. split; [done|].
  exists next. split; [done|]. set (p' := mkPool (mp_globalAllocator p) (mp_chunkSize p) next).
  assert (free_chunks (<[k := (p', l)]> G) ++ (x, mp_chunkSize p) :: live ≡ₚ free_chunks G ++ live) as Hperm.
  { rewrite free_chunks_insert, (free_chunks_delete G k _ Hk), <- Permutation_middle. unfold chunks_of. cbn. constructor. done. }
  split; cbn; [|done|done|done| | | | | |done].
  - by rewrite fmap_insert, H1.
  - intros k' y [[<- <-]|[Hne Hy]]%lookup_insert_Some; [by split|by apply H5].
  - by rewrite Hperm.
  - by rewrite Hperm.
  - by rewrite Hperm.
  - constructor; [apply P1|done].
Qed.

(** A chunk in use is given to a pool of its size. *)
Lemma push_ok s G live k p l c :
  memory_ok s G ((c, mp_chunkSize p) :: live) → G !! k = Some (p, l) →
  memory_ok (put_pool k (returnChunk c p s).1 (returnChunk c p s).2) (<[k := ((returnChunk c p s).1, c :: l)]> G) live.
Proof.
  intros Hs Hk. pose proof (chunk_elsewhere s G ((c, mp_chunkSize p) :: live)) as Hel. pose proof Hs as [H1 H2 H3 H4 H5 H6 H7 H8 H9 H10]. destruct (H5 k _ Hk) as [P1 P2 P3]. cbn in *.
  set (p' := mkPool (mp_globalAllocator p) (mp_chunkSize p) c).
  assert (free_chunks (<[k := (p', c :: l)]> G) ++ live ≡ₚ free_chunks G ++ (c, mp_chunkSize p) :: live) as Hperm.
  { rewrite free_chunks_insert, (free_chunks_delete G k _ Hk), <- Permutation_middle. unfold chunks_of. cbn. constructor. done. }
  assert (∀ k' x y, G !! k' = Some x → y ∈ x.2 → y ≠ c) as Hne.
  { intros k' x y Hx Hy. eapply Hel; [done|done|done|by left|]. cbn. lia. }
  assert (c ≠ 0) as Hc0.
  { rewrite !Forall_app, Forall_cons in H7. destruct H7 as (_ & _ & Hc & _). apply (mapped_range pageSize) in Hc; [|done]. cbn in Hc. lia. }
  split; cbn; [|done|done|done| | | | |by inversion H9|done].
  - by rewrite fmap_insert, H1.
  - intros k' y [[<- <-]|[Hkne Hy]]%lookup_insert_Some.
    + split; [done|done|]. cbn. split_and!; [done|done|]. exists (mp_topChunk p). rewrite lookup_insert_eq. split; [done|].
      eapply chain_agree; [|exact P3]. intros z Hz. apply lookup_insert_ne. intros <-. by eapply (Hne k (p, l)).
    + destruct (H5 k' y Hy) as [Q1 Q2 Q3]. split; [done|done|]. eapply chain_agree; [|exact Q3]. intros z Hz. apply lookup_insert_ne. intros <-. by eapply Hne.
  - by rewrite Hperm.
  - by rewrite Hperm.
  - by rewrite Hperm.
Qed.

(** A pool that has no chunk yet. *)
Lemma add_pool_ok s G live k p :
  memory_ok s G live → G !! k = None → pool_ok (length (me_globalMemoryPool s)) (me_words s) k (p, []) →
  memory_ok (put_pool k p s) (<[k := (p, [])]> G) live.
Proof.
  intros [H1 H2 H3 H4 H5 H6 H7 H8 H9 H10] Hk Hp. assert (free_chunks (<[k := (p, [])]> G) ≡ₚ free_chunks G) as Hperm.
  { rewrite free_chunks_insert. by rewrite delete_id by done. }
  split; cbn; [|done|done|done| | | | |done|done].
  - by rewrite fmap_insert, H1.
  - intros k' y [[<- <-]|[_ Hy]]%lookup_insert_Some; [done|by apply H5].
  - by rewrite Hperm.
  - by rewrite Hperm.
  - by rewrite Hperm.
Qed.

(** The ranges of the other owners, when the pool of a node changes. *)
Definition besides (l1 l2 : list MemoryPoolGlobal) (G : ghost) (live : list range) : list range := (current <$> (l1 ++ l2)) ++ free_chunks G ++ live.

Lemma besides_perm l1 g l2 G live : (current <$> (l1 ++ g :: l2)) ++ free_chunks G ++ live ≡ₚ current g :: besides l1 l2 G live.
Proof. unfold besides. rewrite !fmap_app, fmap_cons, <- !app_assoc. cbn. by rewrite <- Permutation_middle. Qed.

(** A range that the pool of a node handed out is cut into chunks. *)
Section chunks.
Context (s : memory) (G : ghost) (live : list range) (k : pool_key) (p : MemoryPool) (l1 l2 : list MemoryPoolGlobal) (g g' : MemoryPoolGlobal).
Context (vm' : VMM) (top size : Z) (n : nat).
Context (Hs : memory_ok s G live) (Hk : G !! k = Some (p, [])) (Hgs : me_globalMemoryPool s = l1 ++ g :: l2) (Hlen : mp_globalAllocator p = length l1).
Context (Hsup : supplied pageSize firstSize line (mp_globalAllocator p) ((top, size) :: besides l1 l2 G live) (me_vm s) g' vm').
Context (Hb : mapped vm' (top, size)) (Htop : (line | top)) (Hn : Z.of_nat (S n) * mp_chunkSize p ≤ size).

Let cs := mp_chunkSize p.
Let C := chunks_from top cs (S n).
Let p' := mkPool (mp_globalAllocator p) cs top.
Let words' := link_chunks top cs 1 n top (me_words s).

Lemma chunk_size_pos : 0 < cs.
Proof. apply (po_size _ _ _ _ (mo_pool _ _ _ Hs k _ Hk)). Qed.

Lemma chunks_within : Forall (λ q, sub_range q (top, size)) ((λ x, (x, cs)) <$> C).
Proof.
  destruct (chunks_from_split top cs (S n) chunk_size_pos) as [_ Hsub]. eapply Forall_impl; [exact Hsub|]. intros q Hq. etrans; [exact Hq|].
  unfold sub_range, cs. cbn [fst snd]. lia.
Qed.

Lemma chunks_linked : chain words' top C ∧ ∀ x, x ∉ C → words' !! x = me_words s !! x.
Proof.
  pose proof chunk_size_pos as Hcs. destruct (mapped_range pageSize _ _ (sp_vm _ _ _ _ _ _ _ _ Hsup) Hb) as [Hr1 Hr2]. cbn in Hr1, Hr2.
  destruct (link_chunks_spec top cs 1 n (me_words s) Hr1 Hcs ltac:(lia)) as [H1 H2]; [unfold cs in *; lia|].
  replace (top + (1 - 1) * cs) with top in H1, H2 by lia. done.
Qed.

Lemma chunks_free : free_chunks (<[k := (p', C)]> G) ≡ₚ ((λ x, (x, cs)) <$> C) ++ free_chunks G.
Proof. by rewrite free_chunks_insert, (free_chunks_delete G k _ Hk). Qed.

Lemma chunks_new k' x y : G !! k' = Some x → y ∈ x.2 → y ∉ C.
Proof.
  intros Hx Hy (j & Hj & ->)%elem_of_chunks_from. pose proof (elem_of_free_chunks G k' x _ Hx Hy) as Hin. pose proof chunk_size_pos as Hcs.
  pose proof (sp_separate _ _ _ _ _ _ _ _ Hsup) as S4. apply separate_app in S4 as (_ & [_ [S4 _]] & _). rewrite Forall_forall in S4.
  specialize (S4 (top + j * cs, mp_chunkSize x.1) ltac:(unfold besides; apply elem_of_app; right; apply elem_of_app; by left)).
  destruct (po_size _ _ _ _ (mo_pool _ _ _ Hs k' x Hx)) as [_ [Hxs _]]. unfold disjoint_ranges in S4. cbn [fst snd] in S4.
  assert (j * cs < Z.of_nat (S n) * cs) by (apply Z.mul_lt_mono_pos_r; lia). unfold cs in *. nia.
Qed.

Lemma chunks_others :
  (current <$> <[mp_globalAllocator p := g']> (me_globalMemoryPool s)) ++ free_chunks (<[k := (p', C)]> G) ++ live ≡ₚ
  current g' :: ((λ x, (x, cs)) <$> C) ++ besides l1 l2 G live.
Proof.
  rewrite chunks_free, Hgs, Hlen, insert_app_r_alt, Nat.sub_diag by lia. cbn [insert list_insert]. unfold besides.
  rewrite !fmap_app, fmap_cons, <- !app_assoc. cbn [app]. generalize C. clear. intros C. solve_perm.
Qed.

Lemma new_chunks_ok : memory_ok (put_pool k p' (put_words words' (put_global (mp_globalAllocator p) g' vm' s))) (<[k := (p', C)]> G) live.
Proof.
  pose proof Hs as [H1 H2 H3 H4 H5 H6 H7 H8 H9 H10]. pose proof chunk_size_pos as Hcs. destruct chunks_linked as [Hc1 Hc2]. destruct Hsup as [S1 S2 S3 S4 S5].
  pose proof S2 as (Gl & Gm & _). split; cbn [put_pool put_words put_global me_vm me_globalMemoryPool me_pools me_words].
  - by rewrite fmap_insert, H1.
  - done.
  - rewrite length_insert. congruence.
  - intros i g0 [(<- & <- & _)|[_ Hi]]%list_lookup_insert_Some; [done|by apply H4].
  - intros k' y [[<- <-]|[Hne Hy]]%lookup_insert_Some; rewrite length_insert; [by destruct (H5 k _ Hk)|]. destruct (H5 k' y Hy) as [Q1 Q2 Q3]. split; [done|done|].
    eapply chain_agree; [|exact Q3]. intros z Hz. apply Hc2. by eapply chunks_new.
  - rewrite chunks_others. rewrite <- Permutation_middle in S4 |- *. destruct S4 as [S4a S4b]. rewrite <- Permutation_middle in S4b.
    pose proof (separate_split _ _ _ S4b chunks_within (proj1 (chunks_from_split top cs (S n) Hcs))) as HX. split.
    + apply Forall_forall. intros q Hq. rewrite Forall_forall in S4a. rewrite !elem_of_app in Hq.
      destruct Hq as [Hq|[Hq|Hq]]; [apply S4a, elem_of_app; by left| |apply S4a, elem_of_app; right; by right].
      pose proof chunks_within as Hsub. rewrite Forall_forall in Hsub. apply disjoint_ranges_sym. eapply disjoint_sub; [by apply Hsub|].
      apply disjoint_ranges_sym, S4a, elem_of_app. right. left.
    + eapply separate_perm; [|exact HX]. rewrite !app_assoc. f_equiv. apply Permutation_app_comm.
  - rewrite chunks_others. rewrite Hgs, besides_perm in H7. apply Forall_cons in H7 as [_ H7]. constructor; [done|]. apply Forall_app. split.
    + eapply Forall_impl; [exact chunks_within|]. intros q Hq. destruct Hb as (m & Hm & Hmb'). exists m. split; [done|]. etrans; [exact Hq|exact Hmb'].
    + eapply Forall_impl; [exact H7|]. apply Gm.
  - rewrite chunks_free, <- app_assoc. apply Forall_app. split; [|done]. apply Forall_fmap, Forall_forall. intros x (j & Hj & ->)%elem_of_chunks_from. cbn [compose fst].
    apply Z.divide_add_r; [done|]. unfold cs. destruct (po_size _ _ _ _ (H5 k _ Hk)) as [Hsz _]. cbn in Hsz. rewrite Hsz. apply Z.divide_mul_r, Z.divide_factor_r.
  - done.
  - by rewrite length_insert.
Qed.
End chunks.

(** A pool without chunks gets some from the pool of its node. *)
Lemma fillPool_ok s G live k p :
  memory_ok s G live → G !! k = Some (p, []) →
  match fillPool pageSize mmap p s with
  | Ok (p', s') =>
      ∃ x l, memory_ok (put_pool k p' s') (<[k := (p', x :: l)]> G) live ∧ mp_chunkSize p' = mp_chunkSize p ∧ mp_globalAllocator p' = mp_globalAllocator p
  | Err e => e = Fatal "mapping virtual address space failed"
  end.
Proof.
  intros Hs Hk. pose proof Hs as [H1 H2 H3 H4 H5 H6 H7 H8 H9 H10]. destruct (H5 k _ Hk) as [[P1 P1'] P2 P3]. cbn in P1, P1', P2.
  destruct (lookup_lt_is_Some_2 _ _ P2) as [g Hg]. pose proof (H4 _ _ Hg) as Hgok. unfold fillPool. rewrite Hg. cbn [get mbind res_bind].
  apply list_elem_of_split_length in Hg as (l1 & l2 & Hgs & Hlen). rewrite Hgs, besides_perm in H6, H7.
  pose proof (getMemory_spec pageSize mmap firstSize Hfirst line Hpage (mp_globalAllocator p) (besides l1 l2 G live) g (me_vm s) (mp_chunkSize p)
    ltac:(lia) Hgok H2 ltac:(lia) H6 H7) as HG.
  destruct (getMemory _ _ _ _ _) as [[[g' vm'] [top size]]|e]; [|done]. cbn [mbind res_bind]. destruct HG as (Hsup & Hb & Hmin & Hbl). cbn in Hmin, Hbl.
  assert (mp_chunkSize p =? 0 = false) as -> by (apply Z.eqb_neq; lia). cbn [failIf mbind res_bind].
  pose proof (Z.div_mod size (mp_chunkSize p) ltac:(lia)) as Hdm. pose proof (Z.mod_pos_bound size (mp_chunkSize p) ltac:(lia)) as Hmb.
  assert (1 ≤ size / mp_chunkSize p) as Hn1 by (apply Z.div_le_lower_bound; lia).
  assert (size / mp_chunkSize p =? 0 = false) as -> by (apply Z.eqb_neq; lia). cbn [failIf mbind res_bind].
  eexists _, _. split; [|done]. eapply (new_chunks_ok s G live k p l1 l2 g g' vm' top size); try done. lia.
Qed.

Lemma getChunk_ok s G live k p l :
  memory_ok s G live → G !! k = Some (p, l) →
  match getChunk pageSize mmap p s with
  | Ok (p', s', c) => ∃ G', memory_ok (put_pool k p' s') G' ((c, mp_chunkSize p) :: live)
  | Err e => e = Fatal "mapping virtual address space failed"
  end.
Proof.
  intros Hs Hk. unfold getChunk, getChunk_begin, getChunk_end. destruct l as [|x l].
  - destruct (mo_pool _ _ _ Hs k _ Hk) as [_ _ Htop]. cbn in Htop. rewrite Htop, Z.eqb_refl. pose proof (fillPool_ok s G live k p Hs Hk) as Hf.
    destruct (fillPool _ _ _ _) as [[p' s']|e]; [|done]. destruct Hf as (x & l & Hs' & Hcs & Hal). cbn [mbind res_bind].
    destruct (pop_ok _ _ _ _ _ _ _ Hs' (lookup_insert_eq _ _ _)) as (Ht & next & Hn & Hok). cbn in Hn. rewrite Ht, Hn. cbn [get mbind res_bind]. rewrite <- Hcs.
    eexists. assert (∀ q q', put_pool k q (put_pool k q' s') = put_pool k q s') as Hpp by (intros; unfold put_pool; cbn; by rewrite insert_insert_eq).
    rewrite Hpp in Hok. exact Hok.
  - destruct (pop_ok _ _ _ _ _ _ _ Hs Hk) as (Ht & next & Hn & Hok). assert (x ≠ 0) as Hx by (destruct (mo_pool _ _ _ Hs k _ Hk) as [_ _ (_ & ? & _)]; done).
    rewrite Ht. rewrite (proj2 (Z.eqb_neq x 0) Hx). cbn [mbind res_bind]. rewrite Ht, Hn. cbn [get mbind res_bind]. by eexists.
Qed.

(** Sizes that can be asked for. *)
Definition request (size : Z) : Prop := 0 < size ≤ 2 ^ 39.

Section allocator.
Context (e : Z) (He : 0 ≤ e < 32) (Hpow : line = 2 ^ e).
Context (cpuCount : nat) (node_of : nat → nat) (Hnodes : ∀ c, (c < cpuCount)%nat → (node_of c < N)%nat) (HN : (0 < N)%nat).

Definition cpu_ok (cpu : option nat) : Prop := match cpu with Some c => (c < cpuCount)%nat | None => True end.

Lemma request_size size :
  request size → size ≤ roundedSize line size < size + line ∧ roundedSize line size = roundedSize line size / line * line ∧ roundedSize line size ≤ 2 ^ 40.
Proof.
  intros Hr. unfold request in Hr. rewrite Hpow. destruct (roundedSize_spec e size He ltac:(lia)) as [H1 H2]. split_and!; [lia|lia|done|].
  assert (2 ^ e ≤ 2 ^ 32) by (apply Z.pow_le_mono_r; lia). lia.
Qed.

Lemma getPool_ok cpu size s G live :
  memory_ok s G live → request size → cpu_ok cpu →
  ∃ k p s' G' l, getPool line cpuCount node_of cpu size s = Ok (k, p, s') ∧ memory_ok s' G' live ∧ G' !! k = Some (p, l) ∧ mp_chunkSize p = roundedSize line size.
Proof.
  intros Hs Hr Hcpu. destruct (request_size size Hr) as (R1 & R2 & R3). unfold request in Hr. unfold getPool.
  set (key := (cpu, roundedSize line size / line)). destruct (match cpu with Some c => _ | None => false end) eqn:Hc.
  { destruct cpu as [c|]; [|done]. cbn in Hcpu. rewrite bool_decide_eq_true_2 in Hc by done. done. }
  cbn [failIf mbind res_bind]. pose proof (mo_pools _ _ _ Hs) as Hp. destruct (me_pools s !! key) as [p|] eqn:Hk.
  - rewrite Hp, lookup_fmap in Hk. apply fmap_Some in Hk as ([p0 l] & Hk & ->). exists key, p0, s, G, l. split_and!; [done|done|done|].
    destruct (po_size _ _ _ _ (mo_pool _ _ _ Hs key _ Hk)) as [Hsz _]. cbn in Hsz. by rewrite Hsz, <- R2.
  - assert (G !! key = None) as HG by (rewrite Hp, lookup_fmap in Hk; by destruct (G !! key)).
    set (p := mkPool (match cpu with Some c => node_of c | None => 0%nat end) (roundedSize line size) 0).
    exists key, p, (put_pool key p s), (<[key := (p, [])]> G), []. split_and!; [done| |by rewrite lookup_insert_eq|done].
    apply add_pool_ok; [done|done|]. split; [cbn; split; [done|lia]| |done]. cbn. rewrite (mo_count _ _ _ Hs). destruct cpu; [by apply Hnodes|done].
Qed.

Lemma alloc_ok cpu size s G live :
  memory_ok s G live → request size → cpu_ok cpu →
  match alloc pageSize mmap line cpuCount node_of cpu size s with
  | Ok (s', c) => ∃ G', memory_ok s' G' ((c, roundedSize line size) :: live)
  | Err er => er = Fatal "mapping virtual address space failed"
  end.
Proof.
  intros Hs Hr Hc. destruct (getPool_ok cpu size s G live Hs Hr Hc) as (k & p & s1 & G1 & l & Hg & Hs1 & Hk & Hsz). unfold alloc. rewrite Hg. cbn [mbind res_bind].
  pose proof (getChunk_ok s1 G1 live k p l Hs1 Hk) as H. destruct (getChunk _ _ _ _) as [[[p' s'] c]|er]; [|done]. cbn [mbind res_bind]. by rewrite <- Hsz.
Qed.

Lemma free_ok cpu size c s G live :
  memory_ok s G ((c, roundedSize line size) :: live) → request size → cpu_ok cpu →
  ∃ s' G', free line cpuCount node_of cpu c size s = Ok s' ∧ memory_ok s' G' live.
Proof.
  intros Hs Hr Hc. destruct (getPool_ok cpu size s G _ Hs Hr Hc) as (k & p & s1 & G1 & l & Hg & Hs1 & Hk & Hsz). unfold free. rewrite Hg. cbn [mbind res_bind].
  rewrite <- Hsz in Hs1. pose proof (push_ok s1 G1 live k p l c Hs1 Hk) as H. destruct (returnChunk c p s1) as [p' s']. cbn in H. eexists _, _. split; [done|exact H].
Qed.

(** *** Runs *)

(** Threads on CPUs or without one ask for memory, return it with the size they asked for, and write to what they
    have. *)
Inductive memory_step (x : memory * list (Z * Z)) : memory * list (Z * Z) → Prop :=
  | step_alloc cpu size s c :
      request size → cpu_ok cpu → alloc pageSize mmap line cpuCount node_of cpu size x.1 = Ok (s, c) → memory_step x (s, (c, size) :: x.2)
  | step_free cpu size c s rest :
      cpu_ok cpu → x.2 ≡ₚ (c, size) :: rest → free line cpuCount node_of cpu c size x.1 = Ok s → memory_step x (s, rest)
  | step_write c size a v :
      (c, size) ∈ x.2 → c ≤ a < c + size → memory_step x (put_words (<[a := v]> (me_words x.1)) x.1, x.2).

Definition rounded (r : Z * Z) : range := (r.1, roundedSize line r.2).

Record allocator_ok (x : memory * list (Z * Z)) : Prop := {
  ao_state : ∃ G, memory_ok x.1 G (rounded <$> x.2);
  ao_sizes : Forall (λ r, request r.2) x.2;
}.

Lemma memory_ok_perm s G live live' : live ≡ₚ live' → memory_ok s G live → memory_ok s G live'.
Proof. intros Hp [H1 H2 H3 H4 H5 H6 H7 H8 H9 H10]. split; try done; by rewrite <- Hp. Qed.

Lemma memory_step_ok x y : allocator_ok x → memory_step x y → allocator_ok y.
Proof.
  intros [[G Hs] Hf] Hstep. destruct Hstep as [cpu size s c Hr Hc Ha|cpu size c s rest Hc Hp Hfr|c size a v Hin Ha].
  - pose proof (alloc_ok cpu size x.1 G _ Hs Hr Hc) as H. rewrite Ha in H. destruct H as [G' H]. split; [by exists G'|by constructor].
  - rewrite Hp, Forall_cons in Hf. destruct Hf as [Hr Hf]. apply (memory_ok_perm _ _ _ (rounded <$> (c, size) :: rest)) in Hs; [|by rewrite Hp].
    destruct (free_ok cpu size c x.1 G (fmap (M := list) rounded rest) Hs Hr Hc) as (s' & G' & Hfr' & Hs'). rewrite Hfr in Hfr'. injection Hfr' as <-. split; [by exists G'|done].
  - split; [|done]. exists G. eapply write_ok; [done|by apply (list_elem_of_fmap_2 rounded) in Hin|]. cbn.
    rewrite Forall_forall in Hf. specialize (Hf _ Hin). cbn in Hf. destruct (request_size size Hf). lia.
Qed.
End allocator.

(** *** The start *)

Lemma new_globals_ok chunk nodes a L vm :
  0 < firstSize → 0 < chunk → (line | chunk) → nodes = seq a (length nodes) → vm_ok pageSize vm → (a + length nodes ≤ length (vm_localNUMAVMA vm))%nat →
  separate (frees vm ++ L) → Forall (mapped vm) L →
  match new_globals pageSize mmap firstSize chunk nodes vm with
  | Ok (gs, vm') =>
      length gs = length nodes ∧ vm_ok pageSize vm' ∧ grows vm vm' ∧ (∀ j g, gs !! j = Some g → global_ok firstSize line (a + j) g) ∧
      separate (frees vm' ++ (current <$> gs) ++ L) ∧ Forall (mapped vm') ((current <$> gs) ++ L)
  | Err er => er = Fatal "mapping virtual address space failed" ∨ er = Fatal "Pool size and chunk size must be multiples of eachother"
  end.
Proof.
  intros Hf Hc Hlc. revert a L vm. induction nodes as [|n nodes IH]; intros a L vm Hseq Hvm Hlen Hsep HL; cbn [new_globals].
  - split_and!; [done|done|done|done|done|done].
  - cbn in Hseq. injection Hseq as -> Hseq. unfold new_global. rewrite (proj2 (Z.eqb_neq chunk 0)) by lia. cbn [failIf mbind res_bind].
    destruct (Z.eqb_spec (firstSize mod chunk) 0) as [Hmod|]; [|by right]. cbn [negb failIf mbind res_bind].
    apply Z.mod_divide in Hmod; [|lia]. pose proof (Z.divide_pos_le _ _ Hf Hmod) as Hle.
    assert (sizes_ok firstSize line (mkGlobal firstSize chunk [] 0 0 a)) as Hsz by (split; cbn; [lia|by left|lia|done]).
    pose proof (fill_spec pageSize mmap firstSize Hfirst line Hpage a L _ vm Hsz eq_refl Hvm ltac:(cbn in Hlen; lia) Hsep HL) as Hfill.
    destruct (global_fillPool _ _ _ _) as [[g vm1]|er]; [|by left]. cbn [mbind res_bind]. destruct Hfill as ([S1 S2 S3 S4 S5] & _). pose proof S2 as (Gl & Gm & _).
    specialize (IH (S a) (current g :: L) vm1 Hseq S1 ltac:(cbn in Hlen; lia) S4 ltac:(constructor; [done|]; eapply Forall_impl; [exact HL|]; apply Gm)).
    destruct (new_globals _ _ _ _ _ _) as [[gs vm2]|er]; [|done]. cbn [mbind res_bind]. destruct IH as (I1 & I2 & I3 & I4 & I5 & I6).
    split_and!; [cbn; by rewrite I1|done|by etrans| | |].
    + intros [|j] g0 Hj; cbn in Hj; [injection Hj as <-; by rewrite Nat.add_0_r|]. replace (a + S j)%nat with (S a + j)%nat by lia. by apply I4.
    + rewrite fmap_cons. eapply separate_perm; [|exact I5]. cbn. f_equiv. apply Permutation_middle.
    + rewrite fmap_cons. cbn. by rewrite Permutation_middle.
Qed.
End pools.

(** ** Properties *)

Module Pools.
Section properties.
Context (pageSize : Z) (mmap : list range → Z → option Z) `{!MmapLaws pageSize mmap}.
(** The sizes of the pools, and the cache line. *)
Context (globalAllocSize memoryChunkSize line e : Z) (cpuCount : nat) (node_of : nat → nat).

Record configured (total : Z) (local : option Z) (numaNodes : list nat) : Prop := {
  cf_alloc : 0 < globalAllocSize ≤ 2 ^ 40;
  cf_chunk : 0 < memoryChunkSize ∧ (line | memoryChunkSize);
  cf_line : line = 2 ^ e ∧ 0 ≤ e < 32 ∧ (line | pageSize);
  cf_nodes : numaNodes ≡ₚ seq 0 (length numaNodes) ∧ numaNodes ≠ [];
  cf_cpus : ∀ c, (c < cpuCount)%nat → (node_of c < length numaNodes)%nat;
  cf_memory : 20 * pageSize ≤ total ∧ ∀ z, local = Some z → 0 < z < 2 ^ 61;
}.

Lemma allocator_initialize_ok total local numaNodes s0 :
  configured total local numaNodes → allocator_initialize pageSize mmap total local globalAllocSize memoryChunkSize numaNodes = Ok s0 →
  allocator_ok pageSize globalAllocSize line (length numaNodes) (s0, []).
Proof.
  intros [C1 [C2 C2'] (C3 & C4 & C5) [C6 C6'] C7 [C8 C8']] Hi. assert (0 < line) as Hline by (rewrite C3; apply Z.pow_pos_nonneg; lia).
  assert (0 < length numaNodes)%nat as HN by (destruct numaNodes; cbn; [done|lia]). destruct (page_pos (pageSize := pageSize) (mmap := mmap)) as [Hp _].
  unfold allocator_initialize in Hi. apply res_bind_ok in Hi as (vm & Hvm & Hi). apply res_bind_ok in Hi as ([gs vm'] & Hg & Hi). injection Hi as <-.
    destruct (vmm_initialize_ok pageSize mmap total local numaNodes vm) as (V1 & V2 & _); [done|done|lia|done|done|done|].
    pose proof (new_globals_ok pageSize mmap globalAllocSize ltac:(lia) line C5 memoryChunkSize (seq 0 (length numaNodes)) 0 [] vm ltac:(lia) C2 C2'
      ltac:(by rewrite length_seq) V1 ltac:(rewrite length_seq; lia) ltac:(rewrite app_nil_r; by apply (frees_separate pageSize)) ltac:(constructor)) as HG.
    rewrite Hg in HG. destruct HG as (G1 & G2 & (G3 & _) & G4 & G5 & G6). rewrite length_seq in G1. split; [|constructor]. exists ∅.
    split; cbn; try done; try constructor. congruence.
Qed.

Lemma allocator_runs_ok total local numaNodes s0 x :
  configured total local numaNodes → allocator_initialize pageSize mmap total local globalAllocSize memoryChunkSize numaNodes = Ok s0 →
  rtc (memory_step pageSize mmap line cpuCount node_of) (s0, []) x → allocator_ok pageSize globalAllocSize line (length numaNodes) x.
Proof.
  intros Hcf Hi Hrun. pose proof (allocator_initialize_ok _ _ _ _ Hcf Hi) as H0. destruct Hcf as [C1 [C2 C2'] (C3 & C4 & C5) [C6 C6'] C7 [C8 C8']].
  assert (0 < line) as Hline by (rewrite C3; apply Z.pow_pos_nonneg; lia). assert (0 < length numaNodes)%nat as HN by (destruct numaNodes; cbn; [done|lia]).
  revert Hrun. apply (rtc_ind_r (allocator_ok pageSize globalAllocSize line (length numaNodes))); [done|]. intros y z _ Hstep Hy.
  by eapply (memory_step_ok pageSize mmap globalAllocSize ltac:(lia) line C5 _ e).
Qed.


(** Memory that is returned is what the same CPU gets when it next asks for the size, and the pools are as they were:
    the memory of the system and the pools of the nodes are not touched, and every pool has its chunks. *)
Theorem returned_memory_comes_back cpu c size s s' :
  c ≠ 0 → free line cpuCount node_of cpu c size s = Ok s' →
  ∃ s'', alloc pageSize mmap line cpuCount node_of cpu size s' = Ok (s'', c) ∧ me_vm s'' = me_vm s ∧ me_globalMemoryPool s'' = me_globalMemoryPool s ∧
    ∀ k p, me_pools s !! k = Some p → me_pools s'' !! k = Some p.
Proof.
  intros Hc Hf. unfold free in Hf. apply res_bind_ok in Hf as ([[key p] s1] & Hg & [= <-]).
  assert (key = (cpu, roundedSize line size / line) ∧ me_vm s1 = me_vm s ∧ me_globalMemoryPool s1 = me_globalMemoryPool s ∧ me_pools s1 !! key = Some p ∧
    ∀ k q, me_pools s !! k = Some q → me_pools s1 !! k = Some q) as (-> & H1 & H2 & H3 & H4).
  { unfold getPool in Hg. destruct (match cpu with Some c => negb (bool_decide (c < cpuCount)%nat) | None => false end); [done|]. cbn [failIf mbind res_bind] in Hg.
    destruct (me_pools s !! _) as [q|] eqn:Hq; injection Hg as <- <- <-; [by split_and!|]. split_and!; [done|done|done|apply lookup_insert_eq|].
    intros k q Hk. cbn. rewrite lookup_insert_ne; [done|]. intros <-. assert (None = Some q) by (etrans; [symmetry; exact Hq|exact Hk]). done. }
  unfold alloc. unfold getPool in Hg |- *. destruct (match cpu with Some c => negb (bool_decide (c < cpuCount)%nat) | None => false end); [done|]. cbn [failIf mbind res_bind] in Hg |- *.
  cbn [returnChunk put_pool put_words me_pools]. rewrite lookup_insert_eq. cbn [mbind res_bind]. unfold getChunk, getChunk_begin, getChunk_end. cbn [mp_topChunk].
  rewrite (proj2 (Z.eqb_neq c 0) Hc). cbn [mbind res_bind mp_topChunk me_words put_pool put_words]. rewrite lookup_insert_eq. cbn [get mbind res_bind].
  eexists. split; [done|]. split_and!; [done|done|]. intros k q Hk. cbn. destruct (decide (k = (cpu, roundedSize line size / line))) as [->|Hne].
  - rewrite lookup_insert_eq. specialize (H4 _ _ Hk). rewrite H3 in H4. injection H4 as ->. by destruct q.
  - rewrite !lookup_insert_ne by done. by apply H4.
Qed.
End properties.

#[local] Existing Instance Vmm.next_mapping_laws.

(** Two nodes with a CPU each. *)
Definition sample_start (globalAllocSize : Z) : res memory :=
  allocator_initialize 4096 Vmm.next_mapping (2 ^ 34) (Some 28000) globalAllocSize 4096 [0; 1]%nat.

Definition sample_alloc (cpu : option nat) (size : Z) (s : memory) : res (memory * Z) :=
  alloc 4096 Vmm.next_mapping 64 2 (λ c, c) cpu size s.

(** What follows from a result that is computed. *)
Definition when {A} (r : res A) (P : A → bool) : bool := match r with Ok a => P a | Err _ => false end.

Lemma when_ok {A} (r : res A) P : when r P = true → ∃ a, r = Ok a ∧ P a = true.
Proof. destruct r as [a|]; [|done]. intros H. by exists a. Qed.

Definition sample_sequence : bool :=
  when (sample_start (2 ^ 20)) (λ s0, when (sample_alloc (Some 1%nat) 100 s0) (λ r, negb (r.2 =? 0) && when (free 64 2 (λ c, c) (Some 0%nat) r.2 100 r.1) (λ _, true))).

Lemma sample_runs :
  ∃ s0 s c s', sample_start (2 ^ 20) = Ok s0 ∧ sample_alloc (Some 1%nat) 100 s0 = Ok (s, c) ∧ c ≠ 0 ∧ free 64 2 (λ c, c) (Some 0%nat) c 100 s = Ok s'.
Proof.
  assert (sample_sequence = true) as H by (vm_compute; reflexivity). apply when_ok in H as (s0 & H0 & ([s c] & H1 & [Hc (s' & H2 & _)%when_ok]%andb_true_iff)%when_ok).
  exists s0, s, c, s'. split_and!; [done|done| |done]. intros ->. done.
Qed.


Lemma returned_memory_comes_back_witness :
  ∃ s0 s c s' s'', sample_start (2 ^ 20) = Ok s0 ∧ sample_alloc (Some 1%nat) 100 s0 = Ok (s, c) ∧
    free 64 2 (λ c, c) (Some 0%nat) c 100 s = Ok s' ∧ sample_alloc (Some 0%nat) 100 s' = Ok (s'', c).
Proof.
  destruct sample_runs as (s0 & s & c & s' & H0 & Ha & Hc & Hf).
  destruct (returned_memory_comes_back 4096 Vmm.next_mapping 64 2 (λ c, c) (Some 0%nat) c 100 s s' Hc Hf) as (s'' & Hs'' & _).
  exists s0, s, c, s', s''. split_and!; [exact H0|exact Ha|exact Hf|exact Hs''].
Defined.

(** A size of zero for the pools of the nodes, [NANOS6_GLOBAL_ALLOC_SIZE], is a multiple of every size of a chunk and
    passes the check; the pools then hand out memory that they do not have, and the memory of a thread on one
    node overlaps that of a thread on the other. *)
Theorem empty_pools_overlap :
  ∃ s0 s1 s2 a b, sample_start 0 = Ok s0 ∧ sample_alloc (Some 0%nat) 20000 s0 = Ok (s1, a) ∧ sample_alloc (Some 1%nat) 100 s1 = Ok (s2, b) ∧
    ¬ disjoint_ranges (a, 20000) (b, 100).
Proof.
  assert (when (sample_start 0) (λ s0, when (sample_alloc (Some 0%nat) 20000 s0) (λ r, when (sample_alloc (Some 1%nat) 100 r.1) (λ q,
    (q.2 <? r.2 + 20000) && (r.2 <? q.2 + 100)))) = true) as H by (vm_compute; reflexivity).
  apply when_ok in H as (s0 & H0 & ([s1 a] & H1 & ([s2 b] & H2 & [Hlt1%Z.ltb_lt Hlt2%Z.ltb_lt]%andb_true_iff)%when_ok)%when_ok).
  exists s0, s1, s2, a, b. split_and!; [done|done|done|]. unfold disjoint_ranges. cbn in *. lia.
Qed.

(** C40: the pools of the threads without a CPU are found under a lock, but taken from without it.  In every state in which
    such a thread can allocate, two of them that allocate a size of the same pool at once can get the same
    chunk: when the second one reads the top of the pool before the first one has written it, both calls succeed
    and return the chunk that one call alone would have returned. *)
Theorem external_threads_share_chunk pageSize mmap line cpuCount node_of size1 size2 s s' a :
  alloc pageSize mmap line cpuCount node_of None size1 s = Ok (s', a) → a ≠ 0 → roundedSize line size1 = roundedSize line size2 →
  ∃ s1 s2 s3 s4,
    alloc_begin pageSize mmap line cpuCount node_of None size1 s = Ok (s1, a) ∧
    alloc_begin pageSize mmap line cpuCount node_of None size2 s1 = Ok (s2, a) ∧
    alloc_end line cpuCount node_of None size1 a s2 = Ok s3 ∧ alloc_end line cpuCount node_of None size2 a s3 = Ok s4.
Proof.
  intros Ha Hne Hr. unfold alloc in Ha. apply res_bind_ok in Ha as ([[key p] t0] & Hg & Ha).
  unfold getChunk in Ha. apply res_bind_ok in Ha as ([[p2 t2] c] & Hc & [= _ ->]).
  apply res_bind_ok in Hc as ([p1 t1] & Hb & Hc). apply res_bind_ok in Hc as (p3 & He & [= -> -> <-]).
  assert (key = (None, roundedSize line size1 / line)) as -> by (unfold getPool in Hg; cbn in Hg; destruct (me_pools s !! _); congruence).
  unfold getChunk_end in He. apply res_bind_ok in He as (next & Hw & _).
  assert (∀ q t, getPool line cpuCount node_of None size1 (put_pool (None, roundedSize line size1 / line) q t) =
    Ok (None, roundedSize line size1 / line, q, put_pool (None, roundedSize line size1 / line) q t)) as Hpool1.
  { intros q t. unfold getPool. cbn. by rewrite lookup_insert_eq. }
  assert (∀ q t, getPool line cpuCount node_of None size2 (put_pool (None, roundedSize line size1 / line) q t) =
    Ok (None, roundedSize line size1 / line, q, put_pool (None, roundedSize line size1 / line) q t)) as Hpool2.
  { intros q t. unfold getPool. cbn. by rewrite <- Hr, lookup_insert_eq. }
  eexists _, _, _, _. split_and!.
  - unfold alloc_begin. rewrite Hg. cbn [mbind res_bind]. rewrite Hb. reflexivity.
  - unfold alloc_begin. rewrite Hpool2. cbn [mbind res_bind]. unfold getChunk_begin. rewrite (proj2 (Z.eqb_neq _ 0) Hne). reflexivity.
  - unfold alloc_end. rewrite Hpool1. cbn [mbind res_bind]. unfold getChunk_end. cbn [put_pool me_words]. rewrite Hw. reflexivity.
  - unfold alloc_end. rewrite Hpool2. cbn [mbind res_bind]. unfold getChunk_end. cbn [put_pool me_words]. rewrite Hw. reflexivity.
Qed.

(** Two threads without a CPU allocate 100 and 120 bytes, which have the same number of cache lines. *)
Lemma external_threads_share_chunk_witness :
  ∃ s0 s1 s2 a, sample_start (2 ^ 20) = Ok s0 ∧ a ≠ 0 ∧
    alloc_begin 4096 Vmm.next_mapping 64 2 (λ c, c) None 100 s0 = Ok (s1, a) ∧ alloc_begin 4096 Vmm.next_mapping 64 2 (λ c, c) None 120 s1 = Ok (s2, a).
Proof.
  assert (when (sample_start (2 ^ 20)) (λ s0, when (sample_alloc None 100 s0) (λ r, negb (r.2 =? 0))) = true) as H by (vm_compute; reflexivity).
  apply when_ok in H as (s0 & H0 & ([s' a] & H1 & Ha)%when_ok).
  assert (a ≠ 0) as Hne by (intros ->; discriminate Ha).
  destruct (external_threads_share_chunk 4096 Vmm.next_mapping 64 2 (λ c, c) 100 120 s0 s' a H1 Hne eq_refl) as (s1 & s2 & _ & _ & H2 & H3 & _).
  exists s0, s1, s2, a. exact (conj H0 (conj Hne (conj H2 H3))).
Defined.
End Pools.
