(* ===== verification/ObjectCaches.v ===== *)
(** * Object caches

    [memory/allocator/pool/]: the caches of the objects of one type, which the dependency system takes its accesses, bottom
    map entries and reductions from: a cache per CPU and one for the threads without a CPU ([CPUObjectCache.hpp]),
    each with a pool per NUMA node; the pools of the nodes that they share ([NUMAObjectCache.hpp]); and the
    choice among them ([ObjectCache.hpp]).  The memory of the objects comes from the allocator of [MemoryPools]. *)

From S2P Require Import Prelude.
From S2P Require Import VirtualMemory.
From S2P Require Import MemoryPools.
From S2P Require Import MemoryPoolProofs.
Local Open Scope Z_scope.

(** ** Data *)

Record CPUObjectCache := mkCache { cc_NUMANodeId : nat; cc_allocationSize : Z; cc_available : list (list Z) }.

Record ObjectCache := mkObjectCache {
  oc_NUMAPools : list (list Z);
  oc_CPUCaches : list CPUObjectCache;
  oc_externalObjectCache : CPUObjectCache;
}.

Section caches.
Context (pageSize : Z) (mmap : list range → Z → option Z).
Context (cacheLineSize : Z) (cpuCount : nat) (node_of : nat → nat).
(** The size of an object *)
Context (sizeofT : Z).

(** ** The pools of the nodes *)

(** [fillCPUPool]: the pool of the CPU, the pools of the nodes, and how many objects were moved, as an [int]. *)
Definition fillCPUPool (numaId : nat) (pool : list Z) (requestedObjects : Z) (NUMAPools : list (list Z)) : res (list Z * list (list Z) * Z) :=
  numaPool ← get (NUMAPools !! numaId);
  let poolSize := Z.of_nat (length numaPool) in
  if poolSize =? 0 then Ok (pool, NUMAPools, 0)
  else
    let nrObjects := Z.min requestedObjects poolSize in
    Ok (rev (take (Z.to_nat nrObjects) numaPool) ++ pool, <[numaId := drop (Z.to_nat nrObjects) numaPool]> NUMAPools, wrap_int nrObjects).

Definition returnObjects (numaId : nat) (pool : list Z) (NUMAPools : list (list Z)) : res (list Z * list (list Z)) :=
  numaPool ← get (NUMAPools !! numaId);
  Ok ([], <[numaId := numaPool ++ pool]> NUMAPools).

(** ** The cache of a CPU *)

Definition new_cache (numaId numaNodeCount : nat) : CPUObjectCache := mkCache numaId 1 (replicate (S numaNodeCount) []).

(** The loop that adds the objects of a new block, from the i-th on. *)
Fixpoint push_objects (ptr i : Z) (count : nat) (local : list Z) : list Z :=
  match count with
  | O => local
  | S count => push_objects ptr (i + 1) count (local ++ [wrap64 (ptr + wrap64 (i * sizeofT))])
  end.

(** An empty pool is filled: the cache, the pools of the nodes and the memory. *)
Definition fill_cache (cpu : option nat) (c : CPUObjectCache) (NUMAPools : list (list Z)) (s : memory) : res (CPUObjectCache * list (list Z) * memory) :=
  let allocationSize := wrap64 (2 * cc_allocationSize c) in
  local ← get (cc_available c !! cc_NUMANodeId c);
  r ← fillCPUPool (cc_NUMANodeId c) local allocationSize NUMAPools; let '(local, NUMAPools, allocated) := r in
  r ← (if allocated =? 0 then
         r ← alloc pageSize mmap cacheLineSize cpuCount node_of cpu (wrap64 (allocationSize * sizeofT)) s; let '(s, ptr) := r in
         Ok (push_objects ptr 0 (Z.to_nat allocationSize) local, s)
       else Ok (local, s)); let '(local, s) := r in
  Ok (mkCache (cc_NUMANodeId c) allocationSize (<[cc_NUMANodeId c := local]> (cc_available c)), NUMAPools, s).

Definition cache_newObject (cpu : option nat) (c : CPUObjectCache) (NUMAPools : list (list Z)) (s : memory) : res (CPUObjectCache * list (list Z) * memory * Z) :=
  local ← get (cc_available c !! cc_NUMANodeId c);
  r ← (if bool_decide (local = []) then fill_cache cpu c NUMAPools s else Ok (c, NUMAPools, s)); let '(c, NUMAPools, s) := r in
  local ← get (cc_available c !! cc_NUMANodeId c);
  match local with
  | [] => Err Dangling
  | ret :: local => Ok (mkCache (cc_NUMANodeId c) (cc_allocationSize c) (<[cc_NUMANodeId c := local]> (cc_available c)), NUMAPools, s, ret)
  end.

Definition cache_deleteObject (ptr : Z) (c : CPUObjectCache) (NUMAPools : list (list Z)) (s : memory) : res (CPUObjectCache * list (list Z)) :=
  let nodeId := findNUMA ptr (me_vm s) in
  pool ← get (cc_available c !! nodeId);
  let pool := ptr :: pool in
  r ← (if negb (bool_decide (nodeId = cc_NUMANodeId c)) && bool_decide (length pool = 64%nat) then returnObjects nodeId pool NUMAPools
       else Ok (pool, NUMAPools)); let '(pool, NUMAPools) := r in
  Ok (mkCache (cc_NUMANodeId c) (cc_allocationSize c) (<[nodeId := pool]> (cc_available c)), NUMAPools).

(** ** The caches of all CPUs *)

(** The constructor *)
Definition new_object_cache (numaNodeCount : nat) : ObjectCache :=
  mkObjectCache (replicate (S numaNodeCount) []) ((λ c, new_cache (node_of c) numaNodeCount) <$> seq 0 cpuCount) (new_cache 0 numaNodeCount).

(** The cache of a CPU, or of the threads without one. *)
Definition cache_of (cpu : option nat) (o : ObjectCache) : res CPUObjectCache :=
  match cpu with Some i => get (oc_CPUCaches o !! i) | None => Ok (oc_externalObjectCache o) end.

Definition put_cache (cpu : option nat) (c : CPUObjectCache) (NUMAPools : list (list Z)) (o : ObjectCache) : ObjectCache :=
  match cpu with
  | Some i => mkObjectCache NUMAPools (<[i := c]> (oc_CPUCaches o)) (oc_externalObjectCache o)
  | None => mkObjectCache NUMAPools (oc_CPUCaches o) c
  end.

Definition newObject (cpu : option nat) (o : ObjectCache) (s : memory) : res (ObjectCache * memory * Z) :=
  c ← cache_of cpu o;
  r ← cache_newObject cpu c (oc_NUMAPools o) s; let '(c, NUMAPools, s, ret) := r in
  Ok (put_cache cpu c NUMAPools o, s, ret).

Definition deleteObject (cpu : option nat) (ptr : Z) (o : ObjectCache) (s : memory) : res ObjectCache :=
  c ← cache_of cpu o;
  r ← cache_deleteObject ptr c (oc_NUMAPools o) s; let '(c, NUMAPools) := r in
  Ok (put_cache cpu c NUMAPools o).
End caches.

(** ** The objects in the caches *)

Lemma concat_update `{EqDecision A} (L : list (list A)) n l :
  L !! n = Some l → ∃ R, concat L ≡ₚ l ++ R ∧ ∀ l', concat (<[n := l']> L) ≡ₚ l' ++ R.
Proof.
  intros Hl. apply list_elem_of_split_length in Hl as (l1 & l2 & -> & ->). exists (concat l1 ++ concat l2). split; [rewrite concat_app; simpl; solve_perm|].
  intros l'. rewrite insert_app_r_alt, Nat.sub_diag by lia. simpl. rewrite concat_app. simpl. solve_perm.
Qed.

Definition cache_objects (c : CPUObjectCache) : list Z := concat (cc_available c).
Definition cached (o : ObjectCache) : list Z :=
  concat (oc_NUMAPools o) ++ concat (cache_objects <$> oc_CPUCaches o) ++ cache_objects (oc_externalObjectCache o).

(** The cache of a CPU among the others. *)
Lemma cached_split cpu o c :
  cache_of cpu o = Ok c →
  ∃ R, cached o ≡ₚ concat (oc_NUMAPools o) ++ cache_objects c ++ R ∧ ∀ c' pools, cached (put_cache cpu c' pools o) ≡ₚ concat pools ++ cache_objects c' ++ R.
Proof.
  unfold cached. destruct cpu as [i|]; cbn.
  - intros Hc. destruct (oc_CPUCaches o !! i) as [c0|] eqn:Hi; [|done]. injection Hc as ->.
    destruct (concat_update (cache_objects <$> oc_CPUCaches o) i (cache_objects c)) as (R & H1 & H2); [by rewrite list_lookup_fmap, Hi|].
    exists (R ++ cache_objects (oc_externalObjectCache o)). split; [rewrite H1; solve_perm|]. intros c' pools. rewrite list_fmap_insert, H2. solve_perm.
  - intros [= <-]. exists (concat (cache_objects <$> oc_CPUCaches o)). split; [solve_perm|]. intros. solve_perm.
Qed.

Section lemmas.
Context (pageSize : Z) (mmap : list range → Z → option Z) `{!MmapLaws pageSize mmap}.
Context (firstSize : Z) (Hfirst : 0 ≤ firstSize ≤ 2 ^ 40).
Context (line : Z) (Hline : 0 < line) (Hpage : (line | pageSize)).
Context (N : nat) (HN : (0 < N)%nat).
Context (e : Z) (He : 0 ≤ e < 32) (Hpow : line = 2 ^ e).
Context (cpuCount : nat) (node_of : nat → nat) (Hnodes : ∀ c, (c < cpuCount)%nat → (node_of c < N)%nat).
Context (T : Z) (HT : 0 < T).

Definition obj (p : Z) : range := (p, T).

Record cache_ok (c : CPUObjectCache) : Prop := {
  co_node : (cc_NUMANodeId c ≤ N)%nat;
  co_pools : length (cc_available c) = S N;
  co_size : 1 ≤ cc_allocationSize c;
}.

(** So much memory can be asked for that the cache can be filled. *)
Definition has_room (c : CPUObjectCache) : Prop := 2 * cc_allocationSize c * T ≤ 2 ^ 39.

Lemma pool_known c n : cache_ok c → (n ≤ N)%nat → ∃ l, cc_available c !! n = Some l.
Proof. intros [_ H _] Hn. apply lookup_lt_is_Some_2. lia. Qed.

Lemma fillCPUPool_spec n pool k pools :
  length pools = S N → (n ≤ N)%nat → 0 < k →
  ∃ pool' pools' m, fillCPUPool n pool k pools = Ok (pool', pools', m) ∧ length pools' = S N ∧ pool' ++ concat pools' ≡ₚ pool ++ concat pools ∧
    (m ≠ 0 → pool' ≠ []).
Proof.
  intros Hl Hn Hk. unfold fillCPUPool. destruct (lookup_lt_is_Some_2 pools n) as [l Hln]; [lia|]. rewrite Hln. cbn [get mbind res_bind].
  destruct (Z.eqb_spec (Z.of_nat (length l)) 0) as [|Hne]; [by eexists _, _, _|]. set (nr := Z.to_nat (Z.min k (Z.of_nat (length l)))).
  destruct (concat_update pools n l Hln) as (R & H1 & H2). eexists _, _, _. split; [done|]. rewrite length_insert. split_and!; [done| |].
  - rewrite H2, H1. rewrite <- (take_drop nr l) at 3. rewrite <- (Permutation_rev (take nr l)). solve_perm.
  - intros _ Hnil. apply app_eq_nil in Hnil as [Hnil _]. apply (f_equal length) in Hnil. rewrite length_rev, length_take in Hnil. cbn in Hnil. lia.
Qed.

Lemma push_objects_spec ptr i count local :
  0 < ptr → 0 ≤ i → ptr + (i + Z.of_nat count) * T < word_max →
  push_objects T ptr i count local = local ++ chunks_from (ptr + i * T) T count.
Proof.
  intros Hp. revert i local. induction count as [|n IH]; intros i local Hi Hm; cbn; [by rewrite app_nil_r|].
  assert (0 ≤ i * T) by nia. assert (i * T < (i + Z.of_nat (S n)) * T) by nia.
  rewrite IH by lia. rewrite <- app_assoc. cbn. rewrite (wrap64_small (i * T)), wrap64_small by (split; lia). replace (ptr + (i + 1) * T) with (ptr + i * T + T) by lia. done.
Qed.
(** What a call can add: nothing, or the objects of a block that the allocator gave. *)
Inductive new_block (cpu : option nat) (s : memory) : memory → list (Z * Z) → list Z → Prop :=
  | no_block : new_block cpu s s [] []
  | one_block size s' ptr k :
      request size → Z.of_nat k * T = size → alloc pageSize mmap line cpuCount node_of cpu size s = Ok (s', ptr) →
      new_block cpu s s' [(ptr, size)] (chunks_from ptr T k).

Lemma fill_cache_spec cpu c pools s owned :
  cache_ok c → has_room c → length pools = S N → cpu_ok cpuCount cpu → allocator_ok pageSize firstSize line N (s, owned) →
  match fill_cache pageSize mmap line cpuCount node_of T cpu c pools s with
  | Ok (c', pools', s') =>
      cache_ok c' ∧ length pools' = S N ∧ cc_NUMANodeId c' = cc_NUMANodeId c ∧ (∃ l, cc_available c' !! cc_NUMANodeId c = Some l ∧ l ≠ []) ∧
      ∃ blocks new, new_block cpu s s' blocks new ∧ concat pools' ++ cache_objects c' ≡ₚ concat pools ++ cache_objects c ++ new
  | Err er => er = Fatal "mapping virtual address space failed"
  end.
Proof.
  intros Hc Hroom Hl Hcpu [[G Hs] Hf]. pose proof Hc as [C1 C2 C3]. unfold has_room in Hroom. unfold fill_cache. destruct (pool_known c _ Hc C1) as [local Hlocal]. rewrite Hlocal.
  cbn [get mbind res_bind]. assert (0 < 2 * cc_allocationSize c < 2 ^ 40) as Hk by nia. rewrite (wrap64_small (2 * _)) by (split; rewrite ?word_max_val; lia).
  set (k := 2 * cc_allocationSize c) in *. destruct (fillCPUPool_spec (cc_NUMANodeId c) local k pools Hl C1 ltac:(lia)) as (pool' & pools' & m & -> & Hl' & Hp & Hm).
  cbn [mbind res_bind]. destruct (concat_update _ _ _ Hlocal) as (R & R1 & R2). destruct (Z.eqb_spec m 0) as [->|Hne].
  - rewrite (wrap64_small (k * T)) by (split; rewrite ?word_max_val; nia). assert (request (k * T)) as Hr by (unfold request; nia).
    pose proof (alloc_ok pageSize mmap firstSize Hfirst line Hpage N e He Hpow cpuCount node_of Hnodes HN cpu (k * T) s G _ Hs Hr Hcpu) as Ha.
    destruct (alloc _ _ _ _ _ _ _ _) as [[s' ptr]|er] eqn:Halloc; [|done]. cbn [mbind res_bind]. destruct Ha as [G' Hs'].
    pose proof (mo_mapped _ _ _ _ _ _ _ Hs') as Hmap. apply Forall_app in Hmap as [_ Hmap]. apply Forall_app in Hmap as [_ Hmap]. apply Forall_cons in Hmap as [Hmap _].
    apply (mapped_range pageSize) in Hmap; [|apply (mo_vm _ _ _ _ _ _ _ Hs')]. cbn in Hmap. destruct (request_size line N e He Hpow HN (k * T) Hr) as [Hrs _].
    rewrite push_objects_spec by (rewrite ?Z2Nat.id; lia). rewrite Z.mul_0_l, Z.add_0_r. split_and!; [split; cbn; [done|by rewrite length_insert|lia]|done|done| |].
    + eexists. cbn. rewrite list_lookup_insert_eq by lia. split; [done|]. destruct (Z.to_nat k) as [|j] eqn:Hj; [lia|]. cbn. by destruct pool'.
    + eexists _, _. split; [eapply (one_block cpu s (k * T) s' ptr (Z.to_nat k)); [done|lia|done]|]. unfold cache_objects. cbn. rewrite R2, R1.
      transitivity ((pool' ++ concat pools') ++ R ++ chunks_from ptr T (Z.to_nat k)); [solve_perm|]. rewrite Hp. solve_perm.
  - split_and!; [split; cbn; [done|by rewrite length_insert|lia]|done|done| |].
    + exists pool'. cbn. rewrite list_lookup_insert_eq by lia. split; [done|by apply Hm].
    + exists [], []. split; [constructor|]. unfold cache_objects. cbn. rewrite R2, R1, app_nil_r. transitivity ((pool' ++ concat pools') ++ R); [solve_perm|]. rewrite Hp. solve_perm.
Qed.

(** An object leaves the caches. *)
Lemma cache_newObject_spec cpu c pools s owned :
  cache_ok c → has_room c → length pools = S N → cpu_ok cpuCount cpu → allocator_ok pageSize firstSize line N (s, owned) →
  match cache_newObject pageSize mmap line cpuCount node_of T cpu c pools s with
  | Ok (c', pools', s', p) =>
      cache_ok c' ∧ length pools' = S N ∧
      ∃ blocks new, new_block cpu s s' blocks new ∧ p :: concat pools' ++ cache_objects c' ≡ₚ concat pools ++ cache_objects c ++ new
  | Err er => er = Fatal "mapping virtual address space failed"
  end.
Proof.
  intros Hc Hroom Hl Hcpu Hs. unfold cache_newObject. destruct (pool_known c _ Hc (co_node c Hc)) as [local Hlocal]. rewrite Hlocal. cbn [get mbind res_bind].
  assert (∀ c1 pools1 s1 blocks new l, cache_ok c1 → length pools1 = S N → cc_available c1 !! cc_NUMANodeId c1 = Some l → l ≠ [] → new_block cpu s s1 blocks new →
    concat pools1 ++ cache_objects c1 ≡ₚ concat pools ++ cache_objects c ++ new →
    match (local ← get (cc_available c1 !! cc_NUMANodeId c1);
      match local with
      | [] => Err Dangling
      | ret :: local => Ok (mkCache (cc_NUMANodeId c1) (cc_allocationSize c1) (<[cc_NUMANodeId c1 := local]> (cc_available c1)), pools1, s1, ret)
      end) with
    | Ok (c', pools', s', p) => cache_ok c' ∧ length pools' = S N ∧
        ∃ blocks new, new_block cpu s s' blocks new ∧ p :: concat pools' ++ cache_objects c' ≡ₚ concat pools ++ cache_objects c ++ new
    | Err er => er = Fatal "mapping virtual address space failed" end) as Htake.
  { intros c1 pools1 s1 blocks new l [K1 K2 K3] Hl1 Hav Hne Hnew Hp. rewrite Hav. cbn [get mbind res_bind]. destruct l as [|p l]; [done|].
    split_and!; [split; cbn; [done|by rewrite length_insert|done]|done|]. exists blocks, new. split; [done|]. rewrite <- Hp.
    destruct (concat_update _ _ _ Hav) as (R & R1 & R2). unfold cache_objects. cbn. rewrite R2, R1. solve_perm. }
  case_bool_decide as Hnil; cbn [mbind res_bind].
  - pose proof (fill_cache_spec cpu c pools s owned Hc Hroom Hl Hcpu Hs) as H. destruct (fill_cache _ _ _ _ _ _ _ _ _ _) as [[[c1 pools1] s1]|er]; [|done].
    destruct H as (H1 & H2 & H3 & (l & H4 & H5) & blocks & new & H6 & H7). cbn [mbind res_bind]. rewrite <- H3 in H4. by eapply Htake.
  - eapply Htake; [done|done|done|done|constructor|]. by rewrite app_nil_r.
Qed.

(** An object returns to the caches. *)
Lemma cache_deleteObject_spec p c pools s owned :
  cache_ok c → length pools = S N → allocator_ok pageSize firstSize line N (s, owned) →
  ∃ c' pools', cache_deleteObject p c pools s = Ok (c', pools') ∧ cache_ok c' ∧ length pools' = S N ∧
    concat pools' ++ cache_objects c' ≡ₚ p :: concat pools ++ cache_objects c.
Proof.
  intros Hc Hl [[G Hs] _]. cbn in Hs. unfold cache_deleteObject. set (n := findNUMA p (me_vm s)). assert (n ≤ N)%nat as Hn.
  { unfold n, findNUMA. rewrite (mo_nodes _ _ _ _ _ _ _ Hs), (mo_count _ _ _ _ _ _ _ Hs). destruct (list_find _ _) as [[i l]|] eqn:Hf; [|done]. cbn.
    apply list_find_Some in Hf as (Hi & _). apply lookup_lt_Some in Hi. rewrite (mo_nodes _ _ _ _ _ _ _ Hs), (mo_count _ _ _ _ _ _ _ Hs) in Hi. lia. }
  destruct (pool_known c n Hc Hn) as [l Hln]. rewrite Hln. cbn [get mbind res_bind]. destruct (concat_update _ _ _ Hln) as (R & R1 & R2). destruct Hc as [C1 C2 C3].
  destruct (negb _ && _); cbn [mbind res_bind].
  - unfold returnObjects. destruct (lookup_lt_is_Some_2 pools n) as [q Hq]; [lia|]. rewrite Hq. cbn [get mbind res_bind]. destruct (concat_update _ _ _ Hq) as (R' & Q1 & Q2).
    eexists _, _. split_and!; [done|split; cbn; [done|by rewrite length_insert|done]|by rewrite length_insert|]. unfold cache_objects. cbn. rewrite R2, R1, Q2, Q1. solve_perm.
  - eexists _, _. split_and!; [done|split; cbn; [done|by rewrite length_insert|done]|done|]. unfold cache_objects. cbn. rewrite R2, R1. solve_perm.
Qed.
(** ** Runs *)

(** The caches and the memory, the memory that other code asked for, and the objects in use. *)
Record heap := mkHeap { hp_cache : ObjectCache; hp_memory : memory; hp_live : list (Z * Z); hp_objects : list Z }.

(** Threads on CPUs or without one create and delete objects, write to the objects and use the memory allocator. *)
Inductive object_step (h : heap) : heap → Prop :=
  | step_new cpu c o s p :
      cpu_ok cpuCount cpu → cache_of cpu (hp_cache h) = Ok c → has_room c →
      newObject pageSize mmap line cpuCount node_of T cpu (hp_cache h) (hp_memory h) = Ok (o, s, p) →
      object_step h (mkHeap o s (hp_live h) (p :: hp_objects h))
  | step_delete cpu p o rest :
      cpu_ok cpuCount cpu → hp_objects h ≡ₚ p :: rest → deleteObject cpu p (hp_cache h) (hp_memory h) = Ok o →
      object_step h (mkHeap o (hp_memory h) (hp_live h) rest)
  | step_object p a v :
      p ∈ hp_objects h → p ≤ a < p + T →
      object_step h (mkHeap (hp_cache h) (put_words (<[a := v]> (me_words (hp_memory h))) (hp_memory h)) (hp_live h) (hp_objects h))
  | step_memory s live :
      memory_step pageSize mmap line cpuCount node_of (hp_memory h, hp_live h) (s, live) → object_step h (mkHeap (hp_cache h) s live (hp_objects h)).

Record heap_ok (owned : list (Z * Z)) (h : heap) : Prop := {
  ho_memory : allocator_ok pageSize firstSize line N (hp_memory h, owned ++ hp_live h);
  ho_separate : separate (obj <$> cached (hp_cache h) ++ hp_objects h);
  ho_inside : Forall (λ p, ∃ r, r ∈ owned ∧ sub_range (obj p) r) (cached (hp_cache h) ++ hp_objects h);
  ho_pools : length (oc_NUMAPools (hp_cache h)) = S N;
  ho_caches : length (oc_CPUCaches (hp_cache h)) = cpuCount ∧ Forall cache_ok (oc_CPUCaches (hp_cache h));
  ho_external : cache_ok (oc_externalObjectCache (hp_cache h));
}.

Lemma cache_known owned h cpu : heap_ok owned h → cpu_ok cpuCount cpu → ∃ c, cache_of cpu (hp_cache h) = Ok c ∧ cache_ok c.
Proof.
  intros [_ _ _ _ [H1 H2] H3] Hc. destruct cpu as [i|]; cbn in *; [|by eexists]. destruct (lookup_lt_is_Some_2 (oc_CPUCaches (hp_cache h)) i) as [c Hi]; [lia|].
  exists c. rewrite Hi. split; [done|]. rewrite Forall_forall in H2. by eapply H2, list_elem_of_lookup_2.
Qed.

Lemma put_cache_shape cpu c pools o :
  length (oc_CPUCaches o) = cpuCount ∧ Forall cache_ok (oc_CPUCaches o) → cache_ok (oc_externalObjectCache o) → cache_ok c →
  (length (oc_CPUCaches (put_cache cpu c pools o)) = cpuCount ∧ Forall cache_ok (oc_CPUCaches (put_cache cpu c pools o))) ∧
  cache_ok (oc_externalObjectCache (put_cache cpu c pools o)) ∧ oc_NUMAPools (put_cache cpu c pools o) = pools.
Proof.
  intros [H1 H2] H3 Hc. destruct cpu as [i|]; cbn; [|done]. split_and!; [by rewrite length_insert| |done|done]. by apply Forall_insert.
Qed.

(** What was asked for is part of what was given. *)
Lemma asked_given s l r : allocator_ok pageSize firstSize line N (s, l) → r ∈ l → sub_range r (rounded line r).
Proof.
  intros [_ Hf] Hr. cbn in Hf. rewrite Forall_forall in Hf. specialize (Hf r Hr). destruct (request_size line N e He Hpow HN _ Hf) as [H _]. unfold sub_range, rounded. cbn. lia.
Qed.

Lemma asked_separate s l : allocator_ok pageSize firstSize line N (s, l) → separate (rounded line <$> l).
Proof. intros [[G Hs] _]. pose proof (mo_separate _ _ _ _ _ _ _ Hs) as H. cbn in H. rewrite !separate_app in H. apply H. Qed.

Lemma allocator_perm s l l' : l ≡ₚ l' → allocator_ok pageSize firstSize line N (s, l) → allocator_ok pageSize firstSize line N (s, l').
Proof. intros Hp [[G Hs] Hf]. split; cbn in *; [|by rewrite <- Hp]. exists G. eapply memory_ok_perm; [|exact Hs]. by rewrite Hp. Qed.

Lemma allocator_step s l x : allocator_ok pageSize firstSize line N (s, l) → memory_step pageSize mmap line cpuCount node_of (s, l) x → allocator_ok pageSize firstSize line N x.
Proof. intros H Hs. by eapply (memory_step_ok pageSize mmap firstSize Hfirst line Hpage N e). Qed.

(** The objects of a new block are none of the others. *)
Lemma new_block_ok cpu s s' blocks new owned live old :
  allocator_ok pageSize firstSize line N (s, owned ++ live) → cpu_ok cpuCount cpu → new_block cpu s s' blocks new →
  separate (obj <$> old) → Forall (λ p, ∃ r, r ∈ owned ∧ sub_range (obj p) r) old →
  allocator_ok pageSize firstSize line N (s', (blocks ++ owned) ++ live) ∧ separate (obj <$> old ++ new) ∧
  Forall (λ p, ∃ r, r ∈ blocks ++ owned ∧ sub_range (obj p) r) (old ++ new).
Proof.
  intros Hs Hcpu Hnew Hsep Hin. destruct Hnew as [|size s' ptr k Hr Hk Ha]; [by rewrite !app_nil_r|].
  pose proof (allocator_step _ _ _ Hs (step_alloc _ _ _ _ _ (s, owned ++ live) cpu size s' ptr Hr Hcpu Ha)) as Hs'. cbn in Hs' |- *.
  destruct (chunks_from_split ptr T k HT) as [K1 K2]. rewrite Hk in K2. split_and!; [done| |].
  - rewrite fmap_app, separate_app. split_and!; [done|done|]. intros a b (p & -> & Hp)%list_elem_of_fmap Hb. rewrite Forall_forall in Hin. rewrite Forall_forall in K2.
    destruct (Hin p Hp) as (r & Hrin & Hsub). specialize (K2 b Hb). pose proof (asked_separate _ _ Hs') as Hd. cbn in Hd. destruct Hd as [Hd _].
    rewrite Forall_forall in Hd. specialize (Hd (rounded line r) ltac:(apply list_elem_of_fmap_2, elem_of_app; by left)).
    eapply disjoint_sub; [etrans; [exact Hsub|]; eapply (asked_given _ _ r Hs); apply elem_of_app; by left|]. apply disjoint_ranges_sym.
    eapply disjoint_sub; [|exact Hd]. etrans; [exact K2|]. apply (asked_given _ _ (ptr, size) Hs'). by left.
  - apply Forall_app. split; [eapply Forall_impl; [exact Hin|]; intros p (r & Hrin & Hsub); exists r; split; [by right|done]|].
    rewrite Forall_fmap in K2. eapply Forall_impl; [exact K2|]. intros p Hp. exists (ptr, size). split; [by left|done].
Qed.

(** The allocator with other memory in use. *)
Lemma memory_step_frame owned s live s' live' :
  memory_step pageSize mmap line cpuCount node_of (s, live) (s', live') →
  ∃ l, memory_step pageSize mmap line cpuCount node_of (s, owned ++ live) (s', l) ∧ l ≡ₚ owned ++ live'.
Proof.
  inversion 1 as [cpu size s1 c Hr Hc Ha|cpu size c s1 rest Hc Hp Hf|c size a v Hin Ha]; subst; cbn in *.
  - eexists. split; [by eapply (step_alloc _ _ _ _ _ (s, owned ++ live))|]. cbn. apply Permutation_middle.
  - eexists. split; [eapply (step_free _ _ _ _ _ (s, owned ++ live) cpu size c s' (owned ++ live')); [done|cbn; rewrite Hp; symmetry; apply Permutation_middle|done]|done].
  - eexists. split; [eapply (step_write _ _ _ _ _ (s, owned ++ live')); [cbn; apply elem_of_app; by right|done]|done].
Qed.

Lemma object_step_ok owned h h' : heap_ok owned h → object_step h h' → ∃ owned', heap_ok owned' h'.
Proof.
  intros Hh Hstep. pose proof Hh as [H1 H2 H3 H4 H5 H6]. destruct Hstep as [cpu c o s p Hcpu Hc Hroom Hn|cpu p o rest Hcpu Hp Hd|p a v Hin Ha|s live Hm].
  - destruct (cache_known owned h cpu Hh Hcpu) as (c' & Hc' & Hok). rewrite Hc in Hc'. injection Hc' as <-. unfold newObject in Hn. rewrite Hc in Hn. cbn [mbind res_bind] in Hn.
    pose proof (cache_newObject_spec cpu c _ _ _ Hok Hroom H4 Hcpu H1) as Hs. destruct (cache_newObject _ _ _ _ _ _ _ _ _ _) as [[[[c1 pools] s1] p1]|]; [|done].
    cbn [mbind res_bind] in Hn. injection Hn as <- <- <-. destruct Hs as (S1 & S2 & blocks & new & S3 & S4).
    destruct (new_block_ok cpu _ _ blocks new owned (hp_live h) _ H1 Hcpu S3 H2 H3) as (B1 & B2 & B3). destruct (cached_split cpu _ c Hc) as (R & R1 & R2).
    destruct (put_cache_shape cpu c1 pools (hp_cache h) H5 H6 S1) as (P1 & P2 & P3).
    assert ((cached (hp_cache h) ++ hp_objects h) ++ new ≡ₚ cached (put_cache cpu c1 pools (hp_cache h)) ++ p1 :: hp_objects h) as Hperm.
    { rewrite R1, R2. transitivity ((concat (oc_NUMAPools (hp_cache h)) ++ cache_objects c ++ new) ++ R ++ hp_objects h); [solve_perm|]. rewrite <- S4. solve_perm. }
    exists (blocks ++ owned). split; cbn [hp_cache hp_memory hp_live hp_objects]; [done|by rewrite <- Hperm|by rewrite <- Hperm|by rewrite P3|done|done].
  - destruct (cache_known owned h cpu Hh Hcpu) as (c & Hc & Hok). unfold deleteObject in Hd. rewrite Hc in Hd. cbn [mbind res_bind] in Hd.
    destruct (cache_deleteObject_spec p c _ _ _ Hok H4 H1) as (c1 & pools & Hdel & D1 & D2 & D3). rewrite Hdel in Hd. cbn [mbind res_bind] in Hd. injection Hd as <-.
    destruct (cached_split cpu _ c Hc) as (R & R1 & R2). destruct (put_cache_shape cpu c1 pools (hp_cache h) H5 H6 D1) as (P1 & P2 & P3).
    assert (cached (hp_cache h) ++ hp_objects h ≡ₚ cached (put_cache cpu c1 pools (hp_cache h)) ++ rest) as Hperm.
    { rewrite R1, R2, Hp. transitivity ((p :: concat (oc_NUMAPools (hp_cache h)) ++ cache_objects c) ++ R ++ rest); [solve_perm|]. rewrite <- D3. solve_perm. }
    exists owned. split; cbn [hp_cache hp_memory hp_live hp_objects]; [done|by rewrite <- Hperm|by rewrite <- Hperm|by rewrite P3|done|done].
  - exists owned. split; cbn [hp_cache hp_memory hp_live hp_objects]; try done. rewrite Forall_forall in H3. destruct (H3 p) as ([q size] & Hr & Hsub); [apply elem_of_app; by right|].
    eapply (allocator_step _ _ _ H1). eapply (step_write _ _ _ _ _ (hp_memory h, owned ++ hp_live h) q size); [apply elem_of_app; by left|]. unfold sub_range in Hsub. cbn in Hsub. lia.
  - destruct (memory_step_frame owned _ _ _ _ Hm) as (l & Hl & Hp). exists owned. split; cbn [hp_cache hp_memory hp_live hp_objects]; try done.
    eapply allocator_perm; [exact Hp|]. by eapply allocator_step.
Qed.

Lemma new_object_cache_ok s : allocator_ok pageSize firstSize line N (s, []) → heap_ok [] (mkHeap (new_object_cache cpuCount node_of N) s [] []).
Proof.
  intros Hs. assert (∀ n, concat (replicate n ([] : list Z)) = []) as Hnil by (induction n; by simpl).
  assert (cached (new_object_cache cpuCount node_of N) = []) as Hc.
  { unfold cached. cbn. rewrite Hnil. cbn. rewrite app_nil_r. induction (seq 0 cpuCount) as [|i l IH]; cbn; [done|]. unfold cache_objects at 1. cbn. by rewrite Hnil. }
  assert (∀ n, (n ≤ N)%nat → cache_ok (new_cache n N)) as Hnew by (intros n Hn; split; cbn; [done|by rewrite length_replicate|lia]).
  split; cbn [hp_cache hp_memory hp_live hp_objects]; rewrite ?Hc; [done|done|constructor|cbn; by rewrite length_replicate| |apply Hnew; lia].
  cbn [oc_CPUCaches new_object_cache]. rewrite length_fmap, length_seq. split; [done|]. apply Forall_fmap, Forall_forall. intros i Hi%elem_of_seq. cbn. apply Hnew. specialize (Hnodes i). lia.
Qed.
End lemmas.

(** ** Properties *)

Module Objects.
Section properties.
Context (pageSize : Z) (mmap : list range → Z → option Z) `{!MmapLaws pageSize mmap}.
Context (globalAllocSize memoryChunkSize line e : Z) (cpuCount : nat) (node_of : nat → nat) (T : Z).

End properties.

#[local] Existing Instance Vmm.next_mapping_laws.

(** Two nodes with a CPU each; objects of a cache line. *)
Definition sample_new (cpu : option nat) (o : ObjectCache) (s : memory) : res (ObjectCache * memory * Z) :=
  newObject 4096 Vmm.next_mapping 64 2 (λ c, c) 64 cpu o s.

Lemma sample_object :
  ∃ s0 o s p, Pools.sample_start (2 ^ 20) = Ok s0 ∧ sample_new (Some 0%nat) (new_object_cache 2 (λ c, c) 2) s0 = Ok (o, s, p).
Proof.
  assert (Pools.when (Pools.sample_start (2 ^ 20)) (λ s0, Pools.when (sample_new (Some 0%nat) (new_object_cache 2 (λ c, c) 2) s0) (λ _, true)) = true) as H by (vm_compute; reflexivity).
  apply Pools.when_ok in H as (s0 & H0 & ([[o s] p] & H1 & _)%Pools.when_ok). by exists s0, o, s, p.
Qed.


(** A thread on one CPU creates so many objects. *)
Fixpoint create (n : nat) (o : ObjectCache) (s : memory) (l : list Z) : res (ObjectCache * memory * list Z) :=
  match n with
  | O => Ok (o, s, l)
  | S n => r ← sample_new (Some 0%nat) o s; let '(o, s, p) := r in create n o s (p :: l)
  end.

(** A thread on the CPU of the other node deletes them. *)
Fixpoint destroy (l : list Z) (o : ObjectCache) (s : memory) : res ObjectCache :=
  match l with [] => Ok o | p :: l => o ← deleteObject (Some 1%nat) p o s; destroy l o s end.

Fixpoint rounds (n : nat) (o : ObjectCache) (s : memory) : res (ObjectCache * memory) :=
  match n with
  | O => Ok (o, s)
  | S n => r ← create 64 o s []; let '(o, s, l) := r in o ← destroy l o s; rounds n o s
  end.

(** *** The number of objects that a cache asks for *)

Section recycling.
Context (pageSize : Z) (mmap : list range → Z → option Z) (line : Z) (cpuCount : nat) (node_of : nat → nat) (T : Z) (cpu : option nat).

(** What a thread does with the cache of its CPU, whatever the pools of the nodes and the memory are at each time: it creates objects, from
    a pool that is empty (counted) or not, and deletes objects. *)
Inductive served : nat → CPUObjectCache → CPUObjectCache → Prop :=
  | served_start c : served 0 c c
  | served_fill n c c1 c2 pools pools' s s' p :
      served n c c1 → cc_available c1 !! cc_NUMANodeId c1 = Some [] →
      cache_newObject pageSize mmap line cpuCount node_of T cpu c1 pools s = Ok (c2, pools', s', p) → served (S n) c c2
  | served_local n c c1 c2 x l pools pools' s s' p :
      served n c c1 → cc_available c1 !! cc_NUMANodeId c1 = Some (x :: l) →
      cache_newObject pageSize mmap line cpuCount node_of T cpu c1 pools s = Ok (c2, pools', s', p) → served n c c2
  | served_delete n c c1 c2 ptr pools pools' s :
      served n c c1 → cache_deleteObject ptr c1 pools s = Ok (c2, pools') → served n c c2.

Lemma newObject_size c1 c2 pools pools' s s' p l :
  cc_available c1 !! cc_NUMANodeId c1 = Some l → cache_newObject pageSize mmap line cpuCount node_of T cpu c1 pools s = Ok (c2, pools', s', p) →
  cc_allocationSize c2 = if decide (l = []) then wrap64 (2 * cc_allocationSize c1) else cc_allocationSize c1.
Proof.
  intros Hl Hn. unfold cache_newObject in Hn. rewrite Hl in Hn. cbn [get mbind res_bind] in Hn. rewrite bool_decide_decide in Hn. destruct (decide (l = [])).
  - apply res_bind_ok in Hn as ([[c pools1] s1] & Hf & Hn). unfold fill_cache in Hf. apply res_bind_ok in Hf as (l1 & _ & Hf).
    apply res_bind_ok in Hf as ([[l2 pools2] allocated] & _ & Hf). apply res_bind_ok in Hf as ([l3 s2] & _ & [= <- _ _]).
    apply res_bind_ok in Hn as (l4 & _ & Hn). destruct l4; [done|]. by injection Hn as <- _ _ _.
  - cbn [mbind res_bind] in Hn. apply res_bind_ok in Hn as (l4 & _ & Hn). destruct l4; [done|]. by injection Hn as <- _ _ _.
Qed.

Lemma deleteObject_size c1 c2 ptr pools pools' s : cache_deleteObject ptr c1 pools s = Ok (c2, pools') → cc_allocationSize c2 = cc_allocationSize c1.
Proof. intros Hd. unfold cache_deleteObject in Hd. apply res_bind_ok in Hd as (l & _ & Hd). by apply res_bind_ok in Hd as ([l' pools1] & _ & [= <- _]). Qed.

Lemma served_size n c c' : served n c c' → cc_allocationSize c = 1 → cc_allocationSize c' = wrap64 (2 ^ Z.of_nat n).
Proof.
  intros Hs Hc. induction Hs as [c|n c c1 c2 pools pools' s s' p Hs IH Hl Hn|n c c1 c2 x l pools pools' s s' p Hs IH Hl Hn|n c c1 c2 ptr pools pools' s Hs IH Hd].
  - rewrite Hc. apply eq_sym, wrap64_small. unfold is_word. rewrite word_max_val. lia.
  - rewrite (newObject_size _ _ _ _ _ _ _ _ Hl Hn), decide_True, IH by done. unfold wrap64. rewrite Zmult_mod_idemp_r.
    f_equal. rewrite Nat2Z.inj_succ, Z.pow_succ_r by lia. done.
  - rewrite (newObject_size _ _ _ _ _ _ _ _ Hl Hn), decide_False by done. by apply IH.
  - rewrite (deleteObject_size _ _ _ _ _ _ Hd). by apply IH.
Qed.

Lemma roundedSize_zero e : 0 ≤ e < 32 → line = 2 ^ e → roundedSize line 0 = 0.
Proof.
  intros He ->. unfold roundedSize. assert (0 < 2 ^ e) by (apply Z.pow_pos_nonneg; lia).
  assert (2 ^ e < 2 ^ 32) by (apply Z.pow_lt_mono_r; lia). pose proof word_max_val as Hw.
  rewrite (wrap64_small (0 + 2 ^ e - 1)) by (unfold is_word; lia). rewrite Z.land_comm.
  replace (0 + 2 ^ e - 1) with (Z.ones e) by (rewrite Z.ones_equiv; lia). rewrite Z.land_ones by lia.
  replace (Z.lnot (2 ^ e - 1)) with (- 2 ^ e) by (unfold Z.lnot; lia). unfold wrap64. rewrite Hw.
  assert ((2 ^ e | 2 ^ 64)) as Hd by (exists (2 ^ (64 - e)); rewrite <- Z.pow_add_r by lia; f_equal; lia).
  rewrite <- Znumtheory.Zmod_div_mod; [|lia|lia|done]. apply Z.mod_divide; [lia|]. by exists (-1).
Qed.

(** A cache that asks for no objects when its pool is empty: the allocator divides by the size of an empty block. *)
Lemma newObject_of_none e c pools l s g r :
  0 ≤ e < 32 → line = 2 ^ e → cpu_ok cpuCount cpu → wrap64 (2 * cc_allocationSize c) = 0 → cc_available c !! cc_NUMANodeId c = Some [] →
  pools !! cc_NUMANodeId c = Some l → me_pools s !! (cpu, 0) = None →
  me_globalMemoryPool s !! (match cpu with Some i => node_of i | None => 0%nat end) = Some g → getMemory pageSize mmap 0 g (me_vm s) = Ok r →
  cache_newObject pageSize mmap line cpuCount node_of T cpu c pools s = Err (Fatal "division by zero").
Proof.
  intros He Hline Hcpu H0 Hl Hp Hz Hg Hm. unfold cache_newObject. rewrite Hl. cbn [get mbind res_bind]. rewrite bool_decide_true by done.
  unfold fill_cache. rewrite H0, Hl. cbn [get mbind res_bind].
  assert (∃ l' pools', fillCPUPool (cc_NUMANodeId c) [] 0 pools = Ok (l', pools', 0)) as (l' & pools' & ->).
  { unfold fillCPUPool. rewrite Hp. cbn [get mbind res_bind]. destruct (_ =? 0); [by eexists _, _|]. rewrite Z.min_l by lia. by eexists _, _. }
  cbn [mbind res_bind]. rewrite Z.eqb_refl, Z.mul_0_l. change (wrap64 0) with 0.
  unfold alloc, getPool. rewrite (roundedSize_zero e), Z.div_0_l by (first [done|rewrite Hline; apply Z.pow_nonzero; lia]).
  assert ((match cpu with Some c => negb (bool_decide (c < cpuCount)%nat) | None => false end) = false) as ->.
  { destruct cpu as [i|]; [|done]. cbn in Hcpu. by rewrite bool_decide_true. }
  cbn [failIf mbind res_bind]. rewrite Hz. cbn [mbind res_bind]. unfold getChunk, getChunk_begin. cbn [mp_topChunk]. rewrite Z.eqb_refl. unfold fillPool.
  cbn [mp_globalAllocator mp_chunkSize put_pool me_globalMemoryPool me_vm]. rewrite Hg. cbn [get mbind res_bind]. rewrite Hm. cbn [mbind res_bind].
  destruct r as [[g' vm'] [top size]]. done.
Qed.

(** C38: the number of objects that a cache asks for starts at 1 and is doubled every time that its pool is empty, whether it gets the
    objects from the pool of its node, where the objects go that other CPUs delete, or from the allocator, and is
    never reset: after n times it is 2{^n}, in a word.  So the 64th time it is zero, and the creation of
    the object fails: whatever objects the pools of the nodes have, the cache takes none of them, and the
    allocator divides by the size of an empty block (it has the memory for it). *)
Theorem recycling_overflows_cache e numaId nodes n c pools l s g r :
  served n (new_cache numaId nodes) c →
  cc_allocationSize c = wrap64 (2 ^ Z.of_nat n) ∧
  (n = 63%nat → cc_available c !! cc_NUMANodeId c = Some [] →
   0 ≤ e < 32 → line = 2 ^ e → cpu_ok cpuCount cpu → pools !! cc_NUMANodeId c = Some l → me_pools s !! (cpu, 0) = None →
   me_globalMemoryPool s !! (match cpu with Some i => node_of i | None => 0%nat end) = Some g → getMemory pageSize mmap 0 g (me_vm s) = Ok r →
   cache_newObject pageSize mmap line cpuCount node_of T cpu c pools s = Err (Fatal "division by zero")).
Proof.
  intros Hs. pose proof (served_size _ _ _ Hs eq_refl) as Hc. split; [exact Hc|].
  intros -> Hl He Hline Hcpu Hp Hz Hg Hm. eapply newObject_of_none; [done..| |done|done|done|done|done]. rewrite Hc. by vm_compute.
Qed.

(** A cache that is given one object at a time. *)
Lemma served_one n (s : memory) : (n ≤ 63)%nat → served n (new_cache 0 1) (mkCache 0 (2 ^ Z.of_nat n) [[]; []]).
Proof.
  induction n as [|n IH]; intros Hn; [constructor|].
  eapply (served_fill n _ _ _ [[4096]; []] _ s); [apply IH; lia|reflexivity|].
  unfold cache_newObject, fill_cache. cbn [cc_available cc_NUMANodeId cc_allocationSize lookup list_lookup get mbind res_bind]. rewrite bool_decide_true by done.
  rewrite <- Z.pow_succ_r, <- Nat2Z.inj_succ by lia.
  assert (0 < 2 ^ Z.of_nat (S n)) by (apply Z.pow_pos_nonneg; lia).
  assert (2 ^ Z.of_nat (S n) ≤ 2 ^ 63) by (apply Z.pow_le_mono_r; lia).
  rewrite wrap64_small by (unfold is_word; rewrite word_max_val; lia).
  unfold fillCPUPool. cbn [lookup list_lookup get mbind res_bind length]. rewrite (proj2 (Z.eqb_neq _ 0)) by done.
  change (Z.of_nat 1) with 1. rewrite Z.min_r by lia. reflexivity.
Qed.
End recycling.

Lemma recycling_overflows_cache_witness :
  ∃ s0 c, Pools.sample_start (2 ^ 20) = Ok s0 ∧ served 4096 Vmm.next_mapping 64 2 (λ c, c) 64 (Some 0%nat) 63 (new_cache 0 1) c ∧
    cache_newObject 4096 Vmm.next_mapping 64 2 (λ c, c) 64 (Some 0%nat) c [[4096]; []] s0 = Err (Fatal "division by zero").
Proof.
  assert (Pools.when (Pools.sample_start (2 ^ 20)) (λ s0, match me_globalMemoryPool s0 !! 0%nat with
    | Some g => Pools.when (getMemory 4096 Vmm.next_mapping 0 g (me_vm s0)) (λ _, bool_decide (me_pools s0 !! (Some 0%nat, 0) = None)) | None => false end) = true) as H
    by (vm_compute; reflexivity).
  apply Pools.when_ok in H as (s0 & H0 & H). destruct (me_globalMemoryPool s0 !! 0%nat) as [g|] eqn:Hg; [|discriminate H].
  apply Pools.when_ok in H as (r & Hm & Hz%bool_decide_eq_true).
  pose proof (served_one 4096 Vmm.next_mapping 64 2 (λ c, c) 64 (Some 0%nat) 63 s0 (le_n _)) as Hs.
  exists s0, (mkCache 0 (2 ^ Z.of_nat 63) [[]; []]). split; [exact H0|]. split; [exact Hs|].
  apply (recycling_overflows_cache 4096 Vmm.next_mapping 64 2 (λ c, c) 64 (Some 0%nat) 6 0 1 63 _ [[4096]; []] [4096] s0 g r Hs);
    [reflexivity|reflexivity|lia|reflexivity|cbn; lia|reflexivity|exact Hz|exact Hg|exact Hm].
Defined.

(** A run of the whole allocator in which that happens with 126 objects: a thread creates 64 objects at a time which a
    thread on another node deletes, and fails after 58 rounds. *)
Example recycling_overflows_in_58_rounds :
  ∃ s0 o s, Pools.sample_start (2 ^ 20) = Ok s0 ∧ rounds 58 (new_object_cache 2 (λ c, c) 2) s0 = Ok (o, s) ∧
    create 64 o s [] = Err (Fatal "division by zero").
Proof.
  assert (Pools.when (Pools.sample_start (2 ^ 20)) (λ s0, Pools.when (rounds 58 (new_object_cache 2 (λ c, c) 2) s0) (λ r,
    match create 64 r.1 r.2 [] with Err (Fatal m) => bool_decide (m = "division by zero"%string) | _ => false end)) = true) as H by (vm_compute; reflexivity).
  apply Pools.when_ok in H as (s0 & H0 & ([o s] & H1 & H2)%Pools.when_ok). exists s0, o, s. split_and!; [done|done|]. cbn [fst snd] in H2.
  destruct (create 64 o s []) as [|[m| |]]; try done. apply bool_decide_eq_true in H2. by subst.
Qed.
End Objects.
