(* ===== verification/InlineList.v ===== *)
(** * Inline doubly linked lists

    [support/InlineDoublyLinkedList.hpp]: lists whose links are members of the nodes, closed to a ring by a sentinel.
    The links are a map from the address of each pair of links, and an operation is the sequence of
    reads and writes of the code; the theorems relate the ring of a sentinel to the list of its nodes. *)

From S2P Require Import Prelude.

(** ** Links *)

Record InlineDoublyLinkedListLinks := mkLinks { il_previous : nat; il_next : nat }.

Notation links_heap := (gmap nat InlineDoublyLinkedListLinks) (only parsing).

Definition set_previous (a p : nat) (h : links_heap) : res links_heap :=
  l ← get (h !! a); Ok (<[a := mkLinks p (il_next l)]> h).
Definition set_next (a n : nat) (h : links_heap) : res links_heap :=
  l ← get (h !! a); Ok (<[a := mkLinks (il_previous l) n]> h).

(** The constructor, which is also [clear] *)
Definition links_clear (a : nat) (h : links_heap) : links_heap := <[a := mkLinks a a]> h.

(** The constructor that moves the links of another object *)
Definition links_move (a other : nat) (h : links_heap) : res links_heap :=
  l ← get (h !! other);
  let h := <[a := l]> h in
  h ← set_next (il_previous l) a h;
  l ← get (h !! a);
  h ← set_previous (il_next l) a h;
  Ok (links_clear other h).

Definition isInList (a : nat) (h : links_heap) : res bool :=
  l ← get (h !! a); Ok (negb (bool_decide (il_previous l = a))).

(** ** Iterators: the address of the links *)

Definition iterator_next (a : nat) (h : links_heap) : res nat := l ← get (h !! a); Ok (il_next l).
Definition iterator_previous (a : nat) (h : links_heap) : res nat := l ← get (h !! a); Ok (il_previous l).

(** ** Lists: the address of the sentinel *)

Definition list_begin (sentinel : nat) (h : links_heap) : res nat := iterator_next sentinel h.
Definition list_end (sentinel : nat) : nat := sentinel.
Definition list_rbegin (sentinel : nat) (h : links_heap) : res nat := iterator_previous (list_end sentinel) h.
Definition list_rend (sentinel : nat) (h : links_heap) : res nat := b ← list_begin sentinel h; iterator_previous b h.
Definition list_crbegin (sentinel : nat) : nat := list_end sentinel.
Definition list_crend (sentinel : nat) (h : links_heap) : res nat := list_begin sentinel h.
Definition list_front (sentinel : nat) (h : links_heap) : res nat := list_begin sentinel h.
Definition list_back (sentinel : nat) (h : links_heap) : res nat := iterator_previous (list_end sentinel) h.

Definition list_empty (sentinel : nat) (h : links_heap) : res bool :=
  l ← get (h !! sentinel); Ok (bool_decide (il_next l = sentinel)).

Definition list_insert (position node : nat) (h : links_heap) : res (links_heap * nat) :=
  p ← get (h !! position);
  let previous := il_previous p in
  h ← set_previous node previous h;
  h ← set_next node position h;
  h ← set_next previous node h;
  h ← set_previous position node h;
  Ok (h, node).

Definition list_push_back (sentinel node : nat) (h : links_heap) : res links_heap :=
  r ← list_insert (list_end sentinel) node h; Ok r.1.

Definition list_push_front (sentinel node : nat) (h : links_heap) : res links_heap :=
  b ← list_begin sentinel h; r ← list_insert b node h; Ok r.1.

(** [erase], as compiled with [NDEBUG] *)
Definition list_erase (position : nat) (h : links_heap) : res (links_heap * nat) :=
  l ← get (h !! position);
  h ← set_next (il_previous l) (il_next l) h;
  h ← set_previous (il_next l) (il_previous l) h;
  Ok (h, il_next l).

Definition list_remove (node : nat) (h : links_heap) : res links_heap := r ← list_erase node h; Ok r.1.

(** A loop from an iterator to another one, in either direction *)
Fixpoint traverse (step : nat → links_heap → res nat) (fuel : nat) (from to : nat) (h : links_heap) : res (list nat) :=
  match fuel with
  | O => Err OutOfFuel
  | S fuel => if decide (from = to) then Ok [] else n ← step from h; l ← traverse step fuel n to h; Ok (from :: l)
  end.

(** ** Rings *)

Definition nxt (h : links_heap) (a : nat) : option nat := il_next <$> h !! a.
Definition prv (h : links_heap) (a : nat) : option nat := il_previous <$> h !! a.

(** Each of the nodes links to the next one and back. *)
Fixpoint chain (h : links_heap) (l : list nat) : Prop :=
  match l with
  | a :: ((b :: _) as l') => nxt h a = Some b ∧ prv h b = Some a ∧ chain h l'
  | _ => True
  end.

(** The nodes of a list with a sentinel *)
Definition ring (h : links_heap) (s : nat) (l : list nat) : Prop := NoDup (s :: l) ∧ chain h (s :: l ++ [s]).

Lemma chain_cons2 h a b l : chain h (a :: b :: l) ↔ nxt h a = Some b ∧ prv h b = Some a ∧ chain h (b :: l).
Proof. done. Qed.

Lemma chain_app h l1 a l2 : chain h (l1 ++ a :: l2) ↔ chain h (l1 ++ [a]) ∧ chain h (a :: l2).
Proof.
  induction l1 as [|x [|y l1] IH].
  - cbn. naive_solver.
  - change (([x] ++ a :: l2)) with (x :: a :: l2). change ([x] ++ [a]) with [x; a]. rewrite !chain_cons2. cbn. naive_solver.
  - cbn [app] in *. rewrite !chain_cons2, IH. naive_solver.
Qed.

Lemma chain_frame h h' l :
  chain h l → (∀ x, x ∈ removelast l → nxt h' x = nxt h x) → (∀ x, x ∈ tail l → prv h' x = prv h x) → chain h' l.
Proof.
  induction l as [|x [|y l] IH]; intros Hc Hn Hp; [done|done|]. rewrite chain_cons2 in Hc |- *. destruct Hc as (H1 & H2 & H3).
  split_and!; [rewrite Hn; [done|by left]|rewrite Hp; [done|by left]|]. apply IH; [done| |].
  - intros z Hz. apply Hn. by right.
  - intros z Hz. apply Hp. by right.
Qed.

Lemma chain_known h l a : chain h l → a ∈ l → l ≠ [a] → is_Some (h !! a).
Proof.
  induction l as [|x [|y l] IH]; intros Hc Ha Hne; [by apply elem_of_nil in Ha| |].
  - apply list_elem_of_singleton in Ha as ->. done.
  - rewrite chain_cons2 in Hc. destruct Hc as (H1 & H2 & H3). unfold nxt, prv in *. apply elem_of_cons in Ha as [->|Ha].
    + destruct (h !! x); [by eexists|done].
    + destruct (decide (a = y)) as [->|]; [destruct (h !! y); [by eexists|done]|]. apply IH; [done|done|]. intros [= ->]. done.
Qed.

(** ** Writes *)

Lemma set_next_spec a n h : is_Some (h !! a) →
  ∃ h', set_next a n h = Ok h' ∧ (∀ x, nxt h' x = if decide (x = a) then Some n else nxt h x) ∧ (∀ x, prv h' x = prv h x) ∧
    (∀ x, is_Some (h' !! x) ↔ is_Some (h !! x)) ∧ ∀ x, x ≠ a → h' !! x = h !! x.
Proof.
  intros [l Hl]. unfold set_next. rewrite Hl. cbn [get mbind res_bind]. eexists. split; [done|]. unfold nxt, prv.
  split_and!; intros x; [| | |by intros; rewrite lookup_insert_ne]; destruct (decide (x = a)) as [->|]; rewrite ?lookup_insert_eq, ?lookup_insert_ne by done; rewrite ?Hl; try done.
Qed.

Lemma set_previous_spec a p h : is_Some (h !! a) →
  ∃ h', set_previous a p h = Ok h' ∧ (∀ x, prv h' x = if decide (x = a) then Some p else prv h x) ∧ (∀ x, nxt h' x = nxt h x) ∧
    (∀ x, is_Some (h' !! x) ↔ is_Some (h !! x)) ∧ ∀ x, x ≠ a → h' !! x = h !! x.
Proof.
  intros [l Hl]. unfold set_previous. rewrite Hl. cbn [get mbind res_bind]. eexists. split; [done|]. unfold nxt, prv.
  split_and!; intros x; [| | |by intros; rewrite lookup_insert_ne]; destruct (decide (x = a)) as [->|]; rewrite ?lookup_insert_eq, ?lookup_insert_ne by done; rewrite ?Hl; try done.
Qed.

Lemma prv_known h a p : prv h a = Some p → ∃ l, h !! a = Some l ∧ il_previous l = p.
Proof. unfold prv. destruct (h !! a) as [l|]; [|done]. intros [= <-]. by eexists. Qed.

Lemma nxt_known h a n : nxt h a = Some n → ∃ l, h !! a = Some l ∧ il_next l = n.
Proof. unfold nxt. destruct (h !! a) as [l|]; [|done]. intros [= <-]. by eexists. Qed.

(** What [insert] and [erase] change. *)
Lemma list_insert_writes q n p h :
  prv h q = Some p → is_Some (h !! p) → is_Some (h !! n) → n ≠ p → n ≠ q →
  ∃ h', list_insert q n h = Ok (h', n) ∧
    (∀ x, nxt h' x = if decide (x = p) then Some n else if decide (x = n) then Some q else nxt h x) ∧
    (∀ x, prv h' x = if decide (x = q) then Some n else if decide (x = n) then Some p else prv h x) ∧
    ∀ x, x ≠ n → x ≠ p → x ≠ q → h' !! x = h !! x.
Proof.
  intros Hq Hp Hn Hnp Hnq. destruct (prv_known _ _ _ Hq) as (lq & Hlq & Hlp). unfold list_insert. rewrite Hlq. cbn [get mbind res_bind]. rewrite Hlp.
  destruct (set_previous_spec n p h Hn) as (h1 & -> & A1 & A2 & A3 & A4). cbn [mbind res_bind].
  destruct (set_next_spec n q h1) as (h2 & -> & B1 & B2 & B3 & B4); [by apply A3|]. cbn [mbind res_bind].
  destruct (set_next_spec p n h2) as (h3 & -> & C1 & C2 & C3 & C4); [by apply B3, A3|]. cbn [mbind res_bind].
  destruct (set_previous_spec q n h3) as (h4 & -> & D1 & D2 & D3 & D4); [apply C3, B3, A3; rewrite Hlq; by eexists|]. cbn [mbind res_bind].
  eexists. split; [done|]. split_and!.
  - intros x. rewrite D2, C1, B1, A2. done.
  - intros x. rewrite D1, C2, B2, A1. done.
  - intros x X1 X2 X3. rewrite D4, C4, B4, A4; done.
Qed.

Lemma list_erase_writes x p q h :
  prv h x = Some p → nxt h x = Some q → is_Some (h !! p) → is_Some (h !! q) →
  ∃ h', list_erase x h = Ok (h', q) ∧ (∀ y, nxt h' y = if decide (y = p) then Some q else nxt h y) ∧
    (∀ y, prv h' y = if decide (y = q) then Some p else prv h y) ∧ ∀ y, y ≠ p → y ≠ q → h' !! y = h !! y.
Proof.
  intros Hp Hq Kp Kq. destruct (prv_known _ _ _ Hp) as (l & Hl & Hlp). unfold nxt in Hq. rewrite Hl in Hq. injection Hq as Hlq. unfold list_erase. rewrite Hl. cbn [get mbind res_bind].
  rewrite Hlp, Hlq. destruct (set_next_spec p q h Kp) as (h1 & -> & A1 & A2 & A3 & A4). cbn [mbind res_bind].
  destruct (set_previous_spec q p h1) as (h2 & -> & B1 & B2 & B3 & B4); [by apply A3|]. cbn [mbind res_bind].
  eexists. split; [done|]. split_and!; [intros y; by rewrite B2, A1|intros y; by rewrite B1, A2|]. intros y Y1 Y2. by rewrite B4, A4.
Qed.

(** ** The neighbours of a place in a list *)

Definition before (s : nat) (l1 : list nat) : nat := default s (last l1).
Definition after (s : nat) (l2 : list nat) : nat := default s (head l2).

Lemma before_split s l1 : s :: l1 = removelast (s :: l1) ++ [before s l1].
Proof.
  unfold before. destruct (last l1) as [p|] eqn:Hp.
  - apply last_Some in Hp as [l' ->]. cbn [default]. rewrite app_comm_cons, removelast_last. done.
  - apply last_None in Hp as ->. done.
Qed.

Lemma before_snoc s l1 x : before s (l1 ++ [x]) = x.
Proof. unfold before. by rewrite last_snoc. Qed.

Lemma after_split s l2 : l2 ++ [s] = after s l2 :: tail (l2 ++ [s]).
Proof. by destruct l2. Qed.

Lemma ring_parts h s l1 l2 :
  chain h (s :: (l1 ++ l2) ++ [s]) ↔
  chain h (s :: l1) ∧ chain h (l2 ++ [s]) ∧ nxt h (before s l1) = Some (after s l2) ∧ prv h (after s l2) = Some (before s l1).
Proof.
  rewrite <- app_assoc, app_comm_cons. rewrite (before_split s l1) at 1. rewrite <- app_assoc. cbn [app].
  rewrite chain_app, <- before_split. rewrite (after_split s l2) at 1. rewrite chain_cons2, <- after_split. naive_solver.
Qed.

Lemma ring_distinct s l1 l2 :
  NoDup (s :: l1 ++ l2) → (∀ x, x ∈ removelast (s :: l1) → x ≠ before s l1) ∧ (∀ x, x ∈ l1 → x ≠ after s l2) ∧
  (∀ x, x ∈ l2 → x ≠ before s l1) ∧ (∀ x, x ∈ tail (l2 ++ [s]) → x ≠ after s l2).
Proof.
  intros Hnd. split_and!.
  - intros x Hx ->. rewrite app_comm_cons, (before_split s l1), <- app_assoc, NoDup_app in Hnd. destruct Hnd as (_ & Hd & _). apply (Hd _ Hx). by left.
  - intros x Hx ->. apply NoDup_cons in Hnd as [Hs Hnd]. rewrite NoDup_app in Hnd. destruct Hnd as (_ & Hd & _). destruct l2 as [|y l2]; cbn in *; [set_solver|]. apply (Hd y Hx). by left.
  - intros x Hx ->. rewrite app_comm_cons, NoDup_app in Hnd. destruct Hnd as (_ & Hd & _). refine (Hd _ _ Hx). rewrite (before_split s l1). apply elem_of_app. right. by left.
  - intros x Hx ->. assert (NoDup (l2 ++ [s])) as H.
    { rewrite Permutation_app_comm. cbn. apply NoDup_cons in Hnd as [Hs Hnd]. apply NoDup_app in Hnd as (_ & _ & Hnd). constructor; [|done]. intros ?. apply Hs, elem_of_app. by right. }
    rewrite after_split in H. by apply NoDup_cons in H as [? _].
Qed.

(** ** Operations on rings *)

Lemma ring_known h s l x : ring h s l → x ∈ s :: l → is_Some (h !! x).
Proof.
  intros [Hnd Hc] Hx. eapply chain_known; [exact Hc| |by destruct l]. apply elem_of_cons in Hx as [->|Hx]; [by left|]. right. apply elem_of_app. by left.
Qed.

Lemma before_in s l1 l2 : before s l1 ∈ s :: l1 ++ l2.
Proof. rewrite app_comm_cons, (before_split s l1). apply elem_of_app. left. apply elem_of_app. right. by left. Qed.

Lemma after_in s l1 l2 : after s l2 ∈ s :: l1 ++ l2.
Proof. destruct l2 as [|y l2]; [by left|]. right. apply elem_of_app. right. by left. Qed.

(** A node takes its place between two parts of a list. *)
Lemma ring_place h h' s l1 l2 a :
  NoDup (s :: l1 ++ l2) → a ∉ s :: l1 ++ l2 → chain h (s :: l1) → chain h (l2 ++ [s]) →
  (∀ x, x ∈ a :: s :: l1 ++ l2 → nxt h' x = if decide (x = before s l1) then Some a else if decide (x = a) then Some (after s l2) else nxt h x) →
  (∀ x, x ∈ a :: s :: l1 ++ l2 → prv h' x = if decide (x = after s l2) then Some a else if decide (x = a) then Some (before s l1) else prv h x) →
  ring h' s (l1 ++ a :: l2).
Proof.
  intros Hnd Ha C1 C2 W1 W2. pose proof (before_in s l1 l2) as Hbi. pose proof (after_in s l1 l2) as Hai. destruct (ring_distinct s l1 l2 Hnd) as (D1 & D2 & D3 & D4).
  assert (∀ x, x ∈ s :: l1 ++ l2 → x ≠ before s l1 → nxt h' x = nxt h x) as N1 by (intros x Hx Hne; rewrite W1, !decide_False; [done|congruence|done|by right]).
  assert (∀ x, x ∈ s :: l1 ++ l2 → x ≠ after s l2 → prv h' x = prv h x) as N2 by (intros x Hx Hne; rewrite W2, !decide_False; [done|congruence|done|by right]).
  split; [assert (s :: l1 ++ a :: l2 ≡ₚ a :: s :: l1 ++ l2) as -> by (rewrite <- Permutation_middle; apply Permutation_swap); by constructor|].
  assert (l1 ++ a :: l2 = (l1 ++ [a]) ++ l2) as -> by (by rewrite <- app_assoc). apply ring_parts. rewrite !before_snoc. split_and!.
  - rewrite app_comm_cons, (before_split s l1), <- app_assoc. cbn [app]. apply chain_app. rewrite <- before_split. split; [|cbn; split_and!; [| |done]].
    + eapply chain_frame; [exact C1| |].
      * intros x Hx. apply N1; [|by apply D1]. rewrite app_comm_cons. apply elem_of_app. left. rewrite (before_split s l1). apply elem_of_app. by left.
      * intros x Hx. cbn in Hx. apply N2; [|by apply D2]. right. apply elem_of_app. by left.
    + rewrite W1, decide_True; [done|done|by right].
    + rewrite W2, decide_False, decide_True; [done|done|congruence|by left].
  - eapply chain_frame; [exact C2| |].
    + intros x Hx. rewrite removelast_last in Hx. apply N1; [|by apply D3]. right. apply elem_of_app. by right.
    + intros x Hx. apply N2; [|by apply D4]. destruct l2 as [|y l2]; cbn in Hx; [by apply elem_of_nil in Hx|].
      apply elem_of_app in Hx as [Hx|Hx]; [|apply list_elem_of_singleton in Hx as ->; by left]. right. apply elem_of_app. right. by right.
  - rewrite W1, decide_False, decide_True; [done|done|congruence|by left].
  - rewrite W2, decide_True; [done|done|by right].
Qed.

Lemma list_insert_ring h s l1 l2 n :
  ring h s (l1 ++ l2) → n ∉ s :: l1 ++ l2 → is_Some (h !! n) →
  ∃ h', list_insert (after s l2) n h = Ok (h', n) ∧ ring h' s (l1 ++ n :: l2) ∧ ∀ x, x ∉ s :: l1 ++ n :: l2 → h' !! x = h !! x.
Proof.
  intros Hr Hn Hk. pose proof Hr as [Hnd Hc]. pose proof (before_in s l1 l2) as Hbi. pose proof (after_in s l1 l2) as Hai. apply ring_parts in Hc as (C1 & C2 & C3 & C4).
  destruct (list_insert_writes (after s l2) n (before s l1) h) as (h' & Hi & W1 & W2 & W3); [done|by eapply ring_known|done|congruence|congruence|].
  exists h'. split; [done|]. split; [by eapply ring_place|].
  intros x Hx. assert (∀ y, y ∈ s :: l1 ++ l2 → y ∈ s :: l1 ++ n :: l2) as Hsub by (intros y; rewrite <- Permutation_middle; set_solver). apply W3.
  - intros ->. apply Hx. right. apply elem_of_app. right. by left.
  - intros ->. by apply Hx, Hsub.
  - intros ->. by apply Hx, Hsub.
Qed.

(** A node among the others *)
Lemma ring_without h s l1 l2 x :
  ring h s (l1 ++ x :: l2) →
  NoDup (s :: l1 ++ l2) ∧ x ∉ s :: l1 ++ l2 ∧ (∀ y, y ∈ s :: l1 ++ l2 → is_Some (h !! y)) ∧ chain h (s :: l1) ∧ chain h (l2 ++ [s]) ∧
  prv h x = Some (before s l1) ∧ nxt h x = Some (after s l2).
Proof.
  intros Hr. pose proof Hr as [Hnd Hc]. assert (s :: l1 ++ x :: l2 ≡ₚ x :: s :: l1 ++ l2) as Hp by (rewrite <- Permutation_middle; apply Permutation_swap).
  pose proof Hnd as Hnd'. rewrite Hp in Hnd'. apply NoDup_cons in Hnd' as [Hx Hnd']. split_and!; [done|done|intros y Hy; eapply ring_known; [exact Hr|]; rewrite Hp; by right| | | |].
  - by apply ring_parts in Hc as (C1 & _).
  - assert (l1 ++ x :: l2 = (l1 ++ [x]) ++ l2) as Hl by (by rewrite <- app_assoc). rewrite Hl in Hc. by apply ring_parts in Hc as (_ & C2 & _).
  - by apply ring_parts in Hc as (_ & _ & _ & C4).
  - assert (l1 ++ x :: l2 = (l1 ++ [x]) ++ l2) as Hl by (by rewrite <- app_assoc). rewrite Hl in Hc. apply ring_parts in Hc as (_ & _ & C3 & _). by rewrite before_snoc in C3.
Qed.

Lemma list_erase_ring h s l1 l2 x :
  ring h s (l1 ++ x :: l2) →
  ∃ h', list_erase x h = Ok (h', after s l2) ∧ ring h' s (l1 ++ l2) ∧ ∀ y, y ∉ s :: l1 ++ l2 → h' !! y = h !! y.
Proof.
  intros (Hnd & Hx & Hk & C1 & C2 & C3 & C4)%ring_without. pose proof (before_in s l1 l2) as Hbi. pose proof (after_in s l1 l2) as Hai.
  destruct (list_erase_writes x (before s l1) (after s l2) h) as (h' & He & W1 & W2 & W3); [done|done|by apply Hk|by apply Hk|]. exists h'. split; [done|].
  destruct (ring_distinct s l1 l2 Hnd) as (D1 & D2 & D3 & D4). split; [split; [done|]|intros y Hy; apply W3; intros ->; done].
  apply ring_parts. split_and!; [| |by rewrite W1, decide_True|by rewrite W2, decide_True].
  - eapply chain_frame; [exact C1|intros y Hy; rewrite W1, decide_False; [done|by apply D1]|intros y Hy; rewrite W2, decide_False; [done|by apply D2]].
  - eapply chain_frame; [exact C2|intros y Hy; rewrite removelast_last in Hy; rewrite W1, decide_False; [done|by apply D3]|intros y Hy; rewrite W2, decide_False; [done|by apply D4]].
Qed.

(** The ends of a list *)
Lemma ring_begin h s l : ring h s l → list_begin s h = Ok (after s l) ∧ list_rbegin s h = Ok (before s l) ∧ list_empty s h = Ok (bool_decide (l = [])).
Proof.
  intros [Hnd Hc]. assert (chain h (s :: ([] ++ l) ++ [s])) as (_ & _ & H1 & _)%ring_parts by done.
  assert (chain h (s :: (l ++ []) ++ [s])) as (_ & _ & _ & H2)%ring_parts by (by rewrite app_nil_r). cbn in H1, H2.
  destruct (nxt_known _ _ _ H1) as (k & Hk & Hkn). destruct (prv_known _ _ _ H2) as (k' & Hk' & Hkp). rewrite Hk in Hk'. injection Hk' as <-.
  unfold list_begin, list_rbegin, list_empty, iterator_next, iterator_previous, list_end. rewrite Hk. cbn [get mbind res_bind]. rewrite Hkn, Hkp. split_and!; [done|done|].
  f_equal. destruct l as [|x l]; cbn; [by rewrite bool_decide_true|]. rewrite bool_decide_false; [done|]. intros ->. apply NoDup_cons in Hnd as [Hs _]. apply Hs. by left.
Qed.

(** Loops over a list see its nodes. *)
Lemma traverse_step step fuel a b to h l :
  a ≠ to → step a h = Ok b → traverse step fuel b to h = Ok l → traverse step (S fuel) a to h = Ok (a :: l).
Proof. intros Hne Hs Ht. cbn [traverse]. rewrite decide_False by done. rewrite Hs. cbn [mbind res_bind]. rewrite Ht. done. Qed.

Lemma traverse_next h s l1 l2 :
  ring h s (l1 ++ l2) → traverse iterator_next (S (length l2)) (after s l2) s h = Ok l2.
Proof.
  revert l1. induction l2 as [|x l2 IH]; intros l1 Hr; [cbn; by rewrite decide_True|]. change (after s (x :: l2)) with x. cbn [length]. pose proof Hr as [Hnd _].
  assert (l1 ++ x :: l2 = (l1 ++ [x]) ++ l2) as Hl by (by rewrite <- app_assoc). rewrite Hl in Hr. eapply traverse_step; [| |exact (IH _ Hr)].
  - intros ->. apply NoDup_cons in Hnd as [Hs _]. apply Hs, elem_of_app. right. by left.
  - destruct Hr as [_ (_ & _ & H & _)%ring_parts]. rewrite before_snoc in H. destruct (nxt_known _ _ _ H) as (k & Hk & Hkn). unfold iterator_next. rewrite Hk. cbn. by rewrite Hkn.
Qed.

Lemma traverse_previous h s l1 l2 :
  ring h s (l1 ++ l2) → traverse iterator_previous (S (length l1)) (before s l1) s h = Ok (rev l1).
Proof.
  revert l2. induction l1 as [|x l1 IH] using rev_ind; intros l2 Hr; [cbn; by rewrite decide_True|].
  rewrite length_app, Nat.add_comm, rev_app_distr, before_snoc. cbn [length Nat.add rev app]. pose proof Hr as [Hnd _]. rewrite <- app_assoc in Hr. cbn [app] in Hr.
  eapply traverse_step; [| |exact (IH _ Hr)].
  - intros ->. apply NoDup_cons in Hnd as [Hs _]. apply Hs. rewrite !elem_of_app. left. right. by left.
  - destruct Hr as [_ (_ & _ & _ & H)%ring_parts]. cbn in H. destruct (prv_known _ _ _ H) as (k & Hk & Hkp). unfold iterator_previous. rewrite Hk. cbn. by rewrite Hkp.
Qed.

(** ** Moving links *)

Lemma links_move_writes x a p q h :
  prv h x = Some p → nxt h x = Some q → is_Some (h !! p) → is_Some (h !! q) → a ≠ p → a ≠ q → a ≠ x →
  ∃ h', links_move a x h = Ok h' ∧ h' !! x = Some (mkLinks x x) ∧
    (∀ y, y ≠ x → nxt h' y = if decide (y = p) then Some a else if decide (y = a) then Some q else nxt h y) ∧
    (∀ y, y ≠ x → prv h' y = if decide (y = q) then Some a else if decide (y = a) then Some p else prv h y) ∧
    ∀ y, y ≠ a → y ≠ x → y ≠ p → y ≠ q → h' !! y = h !! y.
Proof.
  intros Hp Hq Kp Kq Hap Haq Hax. destruct (prv_known _ _ _ Hp) as (lx & Hlx & Hlp). unfold nxt in Hq. rewrite Hlx in Hq. injection Hq as Hlq. unfold links_move. rewrite Hlx.
  cbn [get mbind res_bind]. set (h0 := <[a := lx]> h). rewrite Hlp. destruct (set_next_spec p a h0) as (h1 & -> & A1 & A2 & A3 & A4); [unfold h0; by rewrite lookup_insert_ne|].
  cbn [mbind res_bind]. assert (h1 !! a = Some lx) as Ha1 by (rewrite A4; [apply lookup_insert_eq|done]). rewrite Ha1. cbn [get mbind res_bind]. rewrite Hlq.
  destruct (set_previous_spec q a h1) as (h2 & -> & B1 & B2 & B3 & B4); [apply A3; unfold h0; by rewrite lookup_insert_ne|].
  cbn [mbind res_bind]. eexists. split; [done|]. unfold links_clear. split_and!; [apply lookup_insert_eq| | |].
  - intros y Hy. unfold nxt. rewrite lookup_insert_ne by done. fold (nxt h2 y). rewrite B2, A1. unfold h0, nxt.
    destruct (decide (y = a)) as [->|]; [by rewrite lookup_insert_eq; cbn; rewrite Hlq|by rewrite lookup_insert_ne].
  - intros y Hy. unfold prv. rewrite lookup_insert_ne by done. fold (prv h2 y). rewrite B1, A2. unfold h0, prv.
    destruct (decide (y = a)) as [->|]; [by rewrite lookup_insert_eq; cbn; rewrite Hlp|by rewrite lookup_insert_ne].
  - intros y Y1 Y2 Y3 Y4. rewrite lookup_insert_ne by done. rewrite B4, A4 by done. unfold h0. by rewrite lookup_insert_ne.
Qed.

(** The links of a node move to another address, which takes its place. *)
Lemma links_move_ring h s l1 l2 x a :
  ring h s (l1 ++ x :: l2) → a ∉ s :: l1 ++ x :: l2 →
  ∃ h', links_move a x h = Ok h' ∧ ring h' s (l1 ++ a :: l2) ∧ isInList x h' = Ok false ∧ ∀ y, y ∉ s :: l1 ++ a :: x :: l2 → h' !! y = h !! y.
Proof.
  intros (Hnd & Hx & Hk & C1 & C2 & C3 & C4)%ring_without Ha. pose proof (before_in s l1 l2) as Hbi. pose proof (after_in s l1 l2) as Hai.
  assert (a ∉ s :: l1 ++ l2 ∧ a ≠ x) as [Ha' Hax].
  { rewrite <- Permutation_middle in Ha. split; [intros H; apply Ha; set_solver|]. intros ->. apply Ha. set_solver. }
  destruct (links_move_writes x a (before s l1) (after s l2) h) as (h' & Hm & Hxx & W1 & W2 & W3); [done|done|by apply Hk|by apply Hk|congruence|congruence|done|].
  exists h'. assert (∀ y, y ∈ a :: s :: l1 ++ l2 → y ≠ x) as Hy by (intros y [->|H]%elem_of_cons; congruence). split; [done|]. split; [|split].
  - eapply ring_place; [done|done|exact C1|exact C2| |]; intros y Hin; [by apply W1, Hy|by apply W2, Hy].
  - unfold isInList. rewrite Hxx. cbn. by rewrite bool_decide_true.
  - intros y Hyn. assert (∀ z, z ∈ s :: l1 ++ l2 → y ≠ z) as Hyz.
    { intros z Hz ->. apply Hyn. apply elem_of_cons in Hz as [->|Hz]; [by left|]. right. apply elem_of_app in Hz as [Hz|Hz]; apply elem_of_app; [by left|right; by do 2 right]. }
    apply W3; [intros ->; apply Hyn; right; apply elem_of_app; right; by left|intros ->; apply Hyn; right; apply elem_of_app; right; right; by left|by apply Hyz|by apply Hyz].
Qed.

(** ** The list as a sequence *)

Inductive list_op :=
  | New (n : nat) | PushBack (n : nat) | PushFront (n : nat) | Insert (position n : nat) | Erase (n : nat) | Move (n to : nat).

Definition apply_op (s : nat) (op : list_op) (h : links_heap) : res links_heap :=
  match op with
  | New n => Ok (links_clear n h)
  | PushBack n => list_push_back s n h
  | PushFront n => list_push_front s n h
  | Insert position n => r ← list_insert position n h; Ok r.1
  | Erase n => list_remove n h
  | Move n to => links_move to n h
  end.

Definition apply_ops (s : nat) (ops : list list_op) (h : links_heap) : res links_heap :=
  foldl (λ r op, h ← r; apply_op s op h) (Ok h) ops.

(** What is promised: the nodes outside of the list and those of the list, in order. *)
Definition spec_op (s : nat) (op : list_op) (x : gset nat * list nat) : option (gset nat * list nat) :=
  let '(K, l) := x in
  match op with
  | New n => if decide (n ∉ K ∧ n ∉ s :: l) then Some ({[n]} ∪ K, l) else None
  | PushBack n => if decide (n ∈ K) then Some (K ∖ {[n]}, l ++ [n]) else None
  | PushFront n => if decide (n ∈ K) then Some (K ∖ {[n]}, n :: l) else None
  | Insert position n =>
      if decide (n ∈ K) then (λ p, (K ∖ {[n]}, take p.1 l ++ n :: drop p.1 l)) <$> list_find (.= position) l else None
  | Erase n => if decide (n ∈ l) then Some ({[n]} ∪ K, filter (.≠ n) l) else None
  | Move n to => if decide (n ∈ l ∧ to ∉ K ∧ to ∉ s :: l) then Some ({[n]} ∪ K, (λ x, if decide (x = n) then to else x) <$> l) else None
  end.

Definition spec_ops (s : nat) (ops : list list_op) (x : gset nat * list nat) : option (gset nat * list nat) :=
  foldl (λ o op, o ≫= spec_op s op) (Some x) ops.

Definition represents (s : nat) (h : links_heap) (x : gset nat * list nat) : Prop :=
  ring h s x.2 ∧ ∀ n, n ∈ x.1 → n ∉ s :: x.2 ∧ is_Some (h !! n).

Lemma list_insert_represents s h K l1 l2 n :
  represents s h (K, l1 ++ l2) → n ∈ K → ∃ h', list_insert (after s l2) n h = Ok (h', n) ∧ represents s h' (K ∖ {[n]}, l1 ++ n :: l2).
Proof.
  intros [Hr HK] Hn. cbn in Hr, HK. destruct (HK n Hn) as [Hnn Hnk]. destruct (list_insert_ring h s l1 l2 n Hr Hnn Hnk) as (h' & Hi & Hr' & Hf). exists h'. split; [done|].
  split; [done|]. cbn. intros m [Hm Hmn]%elem_of_difference. destruct (HK m Hm) as [Hm1 Hm2]. assert (m ∉ s :: l1 ++ n :: l2) as Hm3.
  { rewrite <- Permutation_middle. intros H. apply Hm1. set_solver. }
  split; [done|]. by rewrite Hf.
Qed.

Lemma filter_split (n : nat) l1 l2 : n ∉ l1 → n ∉ l2 → filter (.≠ n) (l1 ++ n :: l2) = l1 ++ l2.
Proof.
  intros H1 H2. rewrite filter_app, filter_cons_False by (intros H; by apply H). f_equal; apply filter_all; intros x Hx ->; done.
Qed.

Lemma replace_split (n a : nat) l1 l2 : n ∉ l1 → n ∉ l2 → (λ x, if decide (x = n) then a else x) <$> l1 ++ n :: l2 = l1 ++ a :: l2.
Proof.
  intros H1 H2. rewrite fmap_app, fmap_cons, decide_True by done. f_equal; [|f_equal]; apply fmap_id_on; intros x Hx; rewrite decide_False; try done; intros ->; done.
Qed.

Lemma apply_op_represents s op h x y :
  represents s h x → spec_op s op x = Some y → ∃ h', apply_op s op h = Ok h' ∧ represents s h' y.
Proof.
  intros Hx. destruct x as [K l]. pose proof Hx as [Hr HK]. cbn in Hr, HK. pose proof Hr as [Hnd _]. destruct op as [n|n|n|position n|n|n to]; cbn [spec_op apply_op].
  - case_decide as Hn; [|done]. intros [= <-]. eexists. split; [done|]. destruct Hn as [Hn1 Hn2].
    assert (∀ m, m ≠ n → links_clear n h !! m = h !! m) as Hm by (intros; unfold links_clear; by rewrite lookup_insert_ne).
    split; cbn.
    + split; [done|]. destruct Hr as [_ Hc]. eapply chain_frame; [exact Hc| |].
      * intros m Hin. unfold nxt. rewrite Hm; [done|]. intros ->. apply Hn2. rewrite app_comm_cons, removelast_last in Hin. done.
      * intros m Hin. unfold prv. rewrite Hm; [done|]. intros ->. apply Hn2. cbn in Hin. apply elem_of_app in Hin as [Hin|Hin]; [by right|]. apply list_elem_of_singleton in Hin as ->. by left.
    + intros m [->%elem_of_singleton|Hin]%elem_of_union; [split; [done|]; unfold links_clear; rewrite lookup_insert_eq; by eexists|].
      destruct (HK m Hin) as [? ?]. split; [done|]. rewrite Hm; [done|]. intros ->. done.
  - case_decide as Hn; [|done]. intros [= <-]. rewrite <- (app_nil_r l) in Hx. destruct (list_insert_represents s h K l [] n Hx Hn) as (h' & Hi & Hr'). cbn in Hi.
    unfold list_push_back, list_end. rewrite Hi. cbn. by exists h'.
  - case_decide as Hn; [|done]. intros [= <-]. destruct (list_insert_represents s h K [] l n Hx Hn) as (h' & Hi & Hr'). unfold list_push_front.
    destruct (ring_begin h s l Hr) as (-> & _). cbn [mbind res_bind]. rewrite Hi. cbn. by exists h'.
  - case_decide as Hn; [|done]. destruct (list_find _ l) as [[i p]|] eqn:Hf; [|done]. intros [= <-]. apply list_find_Some in Hf as (Hi & -> & _). cbn [fst].
    rewrite <- (take_drop i l) in Hx. destruct (list_insert_represents s h K _ _ n Hx Hn) as (h' & Hins & Hr').
    rewrite (drop_S _ _ _ Hi) in Hins. cbn in Hins. rewrite Hins. cbn. by exists h'.
  - case_decide as Hn; [|done]. intros [= <-]. apply list_elem_of_split in Hn as (l1 & l2 & ->). destruct (ring_without _ _ _ _ _ Hr) as (Hnd' & Hnn & Hk & _).
    rewrite filter_split by set_solver. destruct (list_erase_ring h s l1 l2 n Hr) as (h' & He & Hr' & Hf). unfold list_remove. rewrite He. cbn. exists h'. split; [done|]. split; [done|]. cbn.
    intros m [->%elem_of_singleton|Hm]%elem_of_union; [split; [done|]; rewrite Hf by done; eapply ring_known; [exact Hr|]; right; apply elem_of_app; right; by left|].
    destruct (HK m Hm) as [Hm1 Hm2]. assert (m ∉ s :: l1 ++ l2) as Hm3 by (intros H; apply Hm1; rewrite <- Permutation_middle; set_solver). split; [done|]. by rewrite Hf.
  - case_decide as Hn; [|done]. intros [= <-]. destruct Hn as (Hn & Ht1 & Ht2). apply list_elem_of_split in Hn as (l1 & l2 & ->). destruct (ring_without _ _ _ _ _ Hr) as (Hnd' & Hnn & Hk & _).
    rewrite replace_split by set_solver. destruct (links_move_ring h s l1 l2 n to Hr Ht2) as (h' & Hm & Hr' & Hin & Hf). rewrite Hm. exists h'. split; [done|]. split; [done|]. cbn.
    assert (to ≠ n) as Hne by (intros ->; apply Ht2; right; apply elem_of_app; right; by left).
    assert (∀ m, m ∉ s :: l1 ++ l2 → m ≠ to → m ∉ s :: l1 ++ to :: l2) as Hno by (intros m H1 H2; rewrite <- Permutation_middle; set_solver).
    intros m [->%elem_of_singleton|Hm']%elem_of_union.
    + split; [by apply Hno|]. unfold isInList in Hin. destruct (h' !! n); [by eexists|done].
    + destruct (HK m Hm') as [Hm1 Hm2]. assert (m ≠ n) by (intros ->; apply Hm1; right; apply elem_of_app; right; by left). assert (m ≠ to) by (intros ->; done).
      assert (m ∉ s :: l1 ++ l2) as Hm3 by (intros H1; apply Hm1; rewrite <- Permutation_middle; set_solver). split; [by apply Hno|].
      rewrite Hf; [done|]. rewrite <- !Permutation_middle. set_solver.
Qed.

Lemma apply_ops_represents s ops h x y :
  represents s h x → spec_ops s ops x = Some y → ∃ h', apply_ops s ops h = Ok h' ∧ represents s h' y.
Proof.
  revert x h. induction ops as [|op ops IH]; intros x h Hx Hs; [cbn in Hs; injection Hs as <-; by exists h|].
  unfold spec_ops in Hs. cbn [foldl mbind option_bind] in Hs. destruct (spec_op s op x) as [z|] eqn:Hz; [|exfalso; clear -Hs; induction ops; cbn in Hs; [done|auto]].
  destruct (apply_op_represents s op h x z Hx Hz) as (h1 & Ha & Hr). destruct (IH z h1 Hr Hs) as (h' & Hh & Hr'). exists h'. split; [|done].
  unfold apply_ops. cbn [foldl mbind res_bind]. by rewrite Ha.
Qed.

Lemma empty_ring s : represents s (links_clear s ∅) (∅, []).
Proof. split; cbn; [|set_solver]. split; [by apply NoDup_singleton|]. cbn. unfold nxt, prv, links_clear. rewrite lookup_insert_eq. done. Qed.

Module InlineLists.
(** C23: The operations on the links of an inline list implement a sequence of nodes: after every sequence of
    constructions, insertions, removals and moves of nodes that are outside or inside of the list as each asks for, the
    loops from [begin] to [end] and from [rbegin] to [rend] see the nodes of the sequence in order and in
    reverse, [empty] tells whether there are none, and [front] and [back] are its ends. *)
Theorem inline_list_refines s ops K l :
  spec_ops s ops (∅, []) = Some (K, l) →
  ∃ h, apply_ops s ops (links_clear s ∅) = Ok h ∧
    (b ← list_begin s h; traverse iterator_next (S (length l)) b (list_end s) h) = Ok l ∧
    (b ← list_rbegin s h; e ← list_rend s h; traverse iterator_previous (S (length l)) b e h) = Ok (rev l) ∧
    list_empty s h = Ok (bool_decide (l = [])) ∧ list_front s h = Ok (default s (head l)) ∧ list_back s h = Ok (default s (last l)).
Proof.
  intros Hs. destruct (apply_ops_represents s ops _ _ _ (empty_ring s) Hs) as (h & Ha & Hr & _). exists h. split; [done|]. cbn in Hr. destruct (ring_begin h s l Hr) as (Hb & Hrb & He).
  assert (list_rend s h = Ok s) as Hre.
  { unfold list_rend. rewrite Hb. cbn [mbind res_bind]. assert (chain h (s :: ([] ++ l) ++ [s])) as (_ & _ & _ & H)%ring_parts by apply Hr. cbn in H.
    destruct (prv_known _ _ _ H) as (k & Hk & Hkp). unfold iterator_previous. rewrite Hk. cbn. by rewrite Hkp. }
  split_and!; [| |done|exact Hb|exact Hrb].
  - rewrite Hb. exact (traverse_next h s [] l Hr).
  - rewrite Hrb, Hre. cbn [mbind res_bind]. apply (traverse_previous h s l []). by rewrite app_nil_r.
Qed.

Lemma inline_list_refines_witness :
  ∃ h, apply_ops 0 [New 1; New 2; New 3; PushBack 1; PushFront 2; Insert 1 3; Move 2 4; Erase 1] (links_clear 0 ∅) = Ok h ∧ list_front 0 h = Ok 4.
Proof.
  destruct (inline_list_refines 0 [New 1; New 2; New 3; PushBack 1; PushFront 2; Insert 1 3; Move 2 4; Erase 1] {[1; 2]} [4; 3]) as (h & H1 & _ & _ & _ & H2 & _); [vm_compute; reflexivity|].
  exists h. split; [exact H1|exact H2].
Defined.

(** The constructor that moves links assumes that the other object is in a list: the links of one that is not are
    moved to an object that is taken for one in a list, between two places that do not link to it. *)
Lemma moving_unlinked_links a x h :
  a ≠ x → h !! x = Some (mkLinks x x) → ∃ h', links_move a x h = Ok h' ∧ isInList a h' = Ok true ∧ h' !! a = Some (mkLinks x x) ∧ h' !! x = Some (mkLinks x x).
Proof.
  intros Hne Hx. unfold links_move. rewrite Hx. cbn [get mbind res_bind il_previous il_next]. unfold set_next. rewrite lookup_insert_ne, Hx by done. cbn [get mbind res_bind il_previous il_next].
  rewrite lookup_insert_ne, lookup_insert_eq by done. cbn [get mbind res_bind il_next]. unfold set_previous. rewrite lookup_insert_eq. cbn [get mbind res_bind il_previous il_next].
  eexists. split; [done|]. unfold isInList, links_clear. rewrite lookup_insert_eq, lookup_insert_ne by done. rewrite lookup_insert_ne by done. rewrite lookup_insert_ne by done.
  rewrite lookup_insert_eq. cbn. rewrite bool_decide_false by done. done.
Qed.

(** [crbegin] and [crend] are not the constant versions of [rbegin] and [rend]: the loop between them starts at the sentinel, which is
    not a node, and leaves out the first node. *)
Lemma crbegin_visits_sentinel h s x l :
  ring h s (x :: l) → (e ← list_crend s h; traverse iterator_previous (S (S (length l))) (list_crbegin s) e h) = Ok (s :: rev l).
Proof.
  intros Hr. unfold list_crend. pose proof (ring_begin h s _ Hr) as (Hb & Hrb & _). rewrite Hb. cbn [mbind res_bind]. change (after s (x :: l)) with x.
  pose proof Hr as [Hnd _]. unfold list_crbegin, list_end. eapply traverse_step; [|exact Hrb|].
  { intros ->. apply NoDup_cons in Hnd as [Hs _]. apply Hs. by left. }
  assert (∀ l1 l2, l = l1 ++ l2 → traverse iterator_previous (S (length l1)) (before s (x :: l1)) x h = Ok (rev l1)) as Hgo; [|apply (Hgo l []); by rewrite app_nil_r].
  intros l1. induction l1 as [|y l1 IH] using rev_ind; intros l2 ->; [cbn; by rewrite decide_True|].
  rewrite length_app, Nat.add_comm, rev_app_distr, app_comm_cons, before_snoc. cbn [length Nat.add rev app]. eapply traverse_step; [| |apply (IH (y :: l2)); by rewrite <- app_assoc].
  - intros ->. apply NoDup_cons in Hnd as [_ [Hx _]%NoDup_cons]. apply Hx. rewrite !elem_of_app. left. right. by left.
  - rewrite <- app_assoc in Hr. cbn [app] in Hr. rewrite app_comm_cons in Hr. destruct Hr as [_ (_ & _ & _ & H)%ring_parts].
    destruct (prv_known _ _ _ H) as (k & Hk & Hkp). unfold iterator_previous. change (after s (y :: l2)) with y in Hk. rewrite Hk. cbn. by rewrite Hkp.
Qed.
End InlineLists.
