(* ===== verification/HierarchicalSchedulers.v ===== *)
(** * Hierarchical schedulers and the choice of the scheduler

    The schedulers of a NUMA node and of the host ([DeviceHierarchicalScheduler], [HostHierarchicalScheduler] of
    [scheduling/schedulers/]), which hand their calls to the scheduler of a device, the scheduler of the GPUs
    ([cuda/CUDANaiveScheduler]), and [scheduling/SchedulerGenerator.cpp], which builds the schedulers that
    environment variables name.  The scheduler of a node keeps the promises of the interface whenever the
    scheduler of its CPUs does; the scheduler of the host is the one of the NUMA nodes ([NumaScheduler])
    and the one of the GPUs, side by side. *)

From S2P Require Import Prelude.
From S2P Require Import Boost.
From S2P Require Import CpuManager.
From S2P Require Import Scheduler.
From S2P Require Import SchedulerProofs.
From S2P Require Import NumaScheduler.
From S2P Require Import PriorityScheduler.
From S2P Require Import NaiveSchedulers.

(** ** The scheduler of a NUMA node *)

Record DeviceHierarchicalScheduler (S : Type) := mkDevice { dh_CPUScheduler : S }.
Arguments mkDevice {S}.
Arguments dh_CPUScheduler {S}.

Section device.
Context {M S : Type} `{!SchedulerInterface M S}.
Implicit Types (s : DeviceHierarchicalScheduler S) (e : env M).

Definition dh_addReadyTask_fast (t : nat) (cpu : option nat) (hint : ReadyTaskHint) s e : res (DeviceHierarchicalScheduler S * env M * placement) :=
  r ← sch_addReadyTask_fast t cpu hint (dh_CPUScheduler s) e; let '(x, e, pl) := r in Ok (mkDevice x, e, pl).

Definition dh_addReadyTask_locked (t : nat) (hint : ReadyTaskHint) (doGetIdle : bool) s e : res (DeviceHierarchicalScheduler S * env M * option nat * option nat) :=
  r ← sch_addReadyTask_locked t hint doGetIdle (dh_CPUScheduler s) e; let '(x, e, d, c) := r in Ok (mkDevice x, e, d, c).

Definition dh_getReadyTask (cpu : nat) (canMarkAsIdle : bool) s e : res (DeviceHierarchicalScheduler S * env M * option nat) :=
  r ← sch_getReadyTask cpu canMarkAsIdle (dh_CPUScheduler s) e; let '(x, e, o) := r in Ok (mkDevice x, e, o).

Definition dh_getIdleComputePlace (force : bool) s e : env M * option nat := sch_getIdleComputePlace force (dh_CPUScheduler s) e.

Definition dh_disableComputePlace (cpu : nat) s e : DeviceHierarchicalScheduler S * env M :=
  let '(x, e) := sch_disableComputePlace cpu (dh_CPUScheduler s) e in (mkDevice x, e).

Definition dh_requestPolling (cpu p : nat) s e : res (DeviceHierarchicalScheduler S * env M * bool) :=
  r ← sch_requestPolling cpu p (dh_CPUScheduler s) e; let '(x, e, b) := r in Ok (mkDevice x, e, b).

Definition dh_releasePolling (cpu p : nat) s e : DeviceHierarchicalScheduler S * env M * bool :=
  let '(x, e, b) := sch_releasePolling cpu p (dh_CPUScheduler s) e in (mkDevice x, e, b).

#[export] Instance device_scheduler : SchedulerInterface M (DeviceHierarchicalScheduler S) := {|
  sch_held s := sch_held (dh_CPUScheduler s);
  sch_pollers s := sch_pollers (dh_CPUScheduler s);
  sch_addReadyTask_fast := dh_addReadyTask_fast;
  sch_addReadyTask_locked := dh_addReadyTask_locked;
  sch_getReadyTask := dh_getReadyTask;
  sch_getIdleComputePlace := dh_getIdleComputePlace;
  sch_disableComputePlace := dh_disableComputePlace;
  sch_requestPolling := dh_requestPolling;
  sch_releasePolling := dh_releasePolling;
  sch_ok s e := sch_ok (dh_CPUScheduler s) e;
  sch_supports := sch_supports (M := M) (S := S);
  sch_prepared := sch_prepared (M := M) (S := S);
|}.

(** It keeps the promises that the scheduler of the device keeps. *)
#[export] Instance device_scheduler_laws `{!SchedulerLaws M S} : SchedulerLaws M (DeviceHierarchicalScheduler S).
Proof.
  split; unfold own; cbn [device_scheduler sch_held sch_pollers sch_addReadyTask_fast sch_addReadyTask_locked sch_getReadyTask sch_getIdleComputePlace sch_disableComputePlace
    sch_requestPolling sch_releasePolling sch_ok sch_supports sch_prepared].
  - intros t cpu hint s e Hok Hs Ht. destruct (law_fast t cpu hint (dh_CPUScheduler s) e Hok Hs Ht) as (x & e' & pl & H & H'). exists (mkDevice x), e', pl. unfold dh_addReadyTask_fast. by rewrite H.
  - intros t hint b s e Hok Ht Hp. destruct (law_locked t hint b (dh_CPUScheduler s) e Hok Ht Hp) as (x & e' & d & c & H & H'). exists (mkDevice x), e', d, c. unfold dh_addReadyTask_locked. by rewrite H.
  - intros cpu b s e Hok. destruct (law_get cpu b (dh_CPUScheduler s) e Hok) as (x & e' & o & H & H'). exists (mkDevice x), e', o. unfold dh_getReadyTask. by rewrite H.
  - intros force s e e' c. apply law_idle.
  - intros cpu s e s' e' Hok Hd. unfold dh_disableComputePlace in Hd. destruct (sch_disableComputePlace _ _ _) as [x e1] eqn:H. injection Hd as <- <-. exact (law_disable _ _ _ _ _ Hok H).
  - intros cpu p s e Hok Hp. destruct (law_request cpu p (dh_CPUScheduler s) e Hok Hp) as (x & e' & b & H & H'). exists (mkDevice x), e', b. unfold dh_requestPolling. by rewrite H.
  - intros cpu p s e s' e' b Hok Hnd Hr. unfold dh_releasePolling in Hr. destruct (sch_releasePolling _ _ _ _) as [[x e1] b1] eqn:H. injection Hr as <- <- <-. exact (law_release _ _ _ _ _ _ _ Hok Hnd H).
  - intros p t s e. apply law_slot.
Qed.

#[export] Instance device_scheduler_frame `{!SchedulerFrame M S} : SchedulerFrame M (DeviceHierarchicalScheduler S).
Proof.
  split; cbn; [intros x y e e'; apply frame_ok|intros x e e'; apply frame_env|].
  intros cpu p x e Hok Hnd. pose proof (frame_release cpu p (dh_CPUScheduler x) e Hok Hnd) as H. unfold dh_releasePolling.
  by destruct (sch_releasePolling cpu p (dh_CPUScheduler x) e) as [[? ?] ?].
Qed.
End device.

(** ** The scheduler of the GPUs *)

Inductive nanos6_device_t := nanos6_host_device | nanos6_cuda_device | nanos6_opencl_device.

#[export] Instance nanos6_device_t_eq_dec : EqDecision nanos6_device_t.
Proof. solve_decision. Defined.

Record CUDANaiveScheduler := mkCUDA { cu_readyTasks : list nat; cu_idleGpus : list nat }.

Definition new_cuda (gpus : nat) : CUDANaiveScheduler := mkCUDA [] (seq 0 gpus).
Definition cuda_addReadyTask (t : nat) (c : CUDANaiveScheduler) : CUDANaiveScheduler := mkCUDA (t :: cu_readyTasks c) (cu_idleGpus c).
Definition cuda_getReadyTask (c : CUDANaiveScheduler) : CUDANaiveScheduler * option nat :=
  match cu_readyTasks c with [] => (c, None) | t :: l => (mkCUDA l (cu_idleGpus c), Some t) end.

(** ** The scheduler of the host *)

Record HostHierarchicalScheduler (S : Type) := mkHost { hh_NUMAScheduler : NUMAScheduler S; hh_CUDAScheduler : CUDANaiveScheduler }.
Arguments mkHost {S}.
Arguments hh_NUMAScheduler {S}.
Arguments hh_CUDAScheduler {S}.

Section host.
Context {M S : Type} `{!IdleCPUs M, !NodeIdleCPUs M, !SchedulerInterface M S} (A : attributes) (node_of thread_node : nat → nat).
(** Whether CUDA is compiled in, and the devices of the tasks and of the compute places *)
Context (USE_CUDA : bool) (getDeviceType getType : nat → nanos6_device_t).
Implicit Types (s : HostHierarchicalScheduler S) (e : env M).

Definition for_cuda (d : nanos6_device_t) : bool := USE_CUDA && bool_decide (d = nanos6_cuda_device).

Definition hh_addReadyTask (t : nat) (cpu : option nat) (hint : ReadyTaskHint) (doGetIdle : bool) s e : res (HostHierarchicalScheduler S * env M * option nat) :=
  if for_cuda (getDeviceType t) then Ok (mkHost (hh_NUMAScheduler s) (cuda_addReadyTask t (hh_CUDAScheduler s)), e, None)
  else r ← numa_addReadyTask A thread_node t cpu hint doGetIdle (hh_NUMAScheduler s) e; let '(x, e, c) := r in Ok (mkHost x (hh_CUDAScheduler s), e, c).

Definition hh_getReadyTask (cpu : nat) (canMarkAsIdle : bool) s e : res (HostHierarchicalScheduler S * env M * option nat) :=
  if for_cuda (getType cpu) then let '(c, o) := cuda_getReadyTask (hh_CUDAScheduler s) in Ok (mkHost (hh_NUMAScheduler s) c, e, o)
  else r ← numa_getReadyTask A node_of cpu canMarkAsIdle (hh_NUMAScheduler s) e; let '(x, e, o) := r in Ok (mkHost x (hh_CUDAScheduler s), e, o).

Definition hh_getIdleComputePlace (force : bool) s e : env M * option nat := numa_getIdleComputePlace force (hh_NUMAScheduler s) e.

Definition hh_disableComputePlace (cpu : nat) s e : res (HostHierarchicalScheduler S * env M) :=
  r ← numa_disableComputePlace node_of cpu (hh_NUMAScheduler s) e; let '(x, e) := r in Ok (mkHost x (hh_CUDAScheduler s), e).

Definition hh_enableComputePlace (cpu : nat) s : HostHierarchicalScheduler S :=
  mkHost (numa_enableComputePlace node_of cpu (hh_NUMAScheduler s)) (hh_CUDAScheduler s).

Definition hh_requestPolling (cpu p : nat) s e : res (HostHierarchicalScheduler S * env M * bool) :=
  r ← numa_requestPolling node_of cpu p (hh_NUMAScheduler s) e; let '(x, e, b) := r in Ok (mkHost x (hh_CUDAScheduler s), e, b).

Definition hh_releasePolling (cpu p : nat) s e : res (HostHierarchicalScheduler S * env M * bool) :=
  r ← numa_releasePolling node_of cpu p (hh_NUMAScheduler s) e; let '(x, e, b) := r in Ok (mkHost x (hh_CUDAScheduler s), e, b).

(** *** The calls *)

(** The scheduler, the tasks that were added, and those that the GPUs and the CPUs were given. *)
Record host_run := mkHostRun {
  hr_sched : HostHierarchicalScheduler S;
  hr_env : env M;
  hr_submitted : list nat;
  hr_gpu : list nat;
  hr_cpu : list nat;
}.

Definition host_tasks (r : host_run) : list nat :=
  cu_readyTasks (hh_CUDAScheduler (hr_sched r)) ++ numa_tasks (hh_NUMAScheduler (hr_sched r)) (hr_env r).

Definition nodes (r : host_run) : nat := length (nm_NUMANodeScheduler (hh_NUMAScheduler (hr_sched r))).

Definition with_host (r : host_run) (s : HostHierarchicalScheduler S) (e : env M) : host_run :=
  mkHostRun s e (hr_submitted r) (hr_gpu r) (hr_cpu r).

(** The calls that can be made in a state, one after the other, each run without interruption, with the condition
    under which it may fail and its result, as for the scheduler of the NUMA nodes.  The thread of a polling slot
    is one of a CPU. *)
Inductive host_calls (r : host_run) : Prop → res host_run → Prop :=
  | host_add t cpu hint doGetIdle :
      (for_cuda (getDeviceType t) = false → at_device A t = false → at_taskloop A t = false → sch_supports t) →
      t ∉ host_tasks r → thread_node t < nodes r →
      host_calls r (for_cuda (getDeviceType t) = false ∧ (at_device A t = true ∨ at_taskloop A t = true ∨
          ¬ Exists (λ c, 0 < c)%Z (nm_enabledCPUs (hh_NUMAScheduler (hr_sched r)))))
        (q ← hh_addReadyTask t cpu hint doGetIdle (hr_sched r) (hr_env r);
         Ok (mkHostRun q.1.1 q.1.2 (hr_submitted r ++ [t]) (hr_gpu r) (hr_cpu r)))
  | host_get cpu canMarkAsIdle :
      (for_cuda (getType cpu) = false → node_of cpu < nodes r) →
      host_calls r False
        (q ← hh_getReadyTask cpu canMarkAsIdle (hr_sched r) (hr_env r);
         Ok (if for_cuda (getType cpu) then mkHostRun q.1.1 q.1.2 (hr_submitted r) (hr_gpu r ++ option_list q.2) (hr_cpu r)
             else mkHostRun q.1.1 q.1.2 (hr_submitted r) (hr_gpu r) (hr_cpu r ++ option_list q.2)))
  | host_idle force : host_calls r False (Ok (with_host r (hr_sched r) (hh_getIdleComputePlace force (hr_sched r) (hr_env r)).1))
  | host_disable cpu :
      host_calls r (count (nm_enabledCPUs (hh_NUMAScheduler (hr_sched r))) (node_of cpu) ≤ 0)%Z
        (q ← hh_disableComputePlace cpu (hr_sched r) (hr_env r); Ok (with_host r q.1 q.2))
  | host_enable cpu : host_calls r False (Ok (with_host r (hh_enableComputePlace cpu (hr_sched r)) (hr_env r)))
  | host_request cpu p :
      node_of cpu < nodes r → e_slots (hr_env r) !! p = None → p ∉ numa_pollers (hh_NUMAScheduler (hr_sched r)) →
      host_calls r False (q ← hh_requestPolling cpu p (hr_sched r) (hr_env r); Ok (with_host r q.1.1 q.1.2))
  | host_release cpu p :
      node_of cpu < nodes r →
      host_calls r False (q ← hh_releasePolling cpu p (hr_sched r) (hr_env r); Ok (with_host r q.1.1 q.1.2))
  | host_poll p :
      host_calls r False (Ok (mkHostRun (hr_sched r) (getTask p (hr_env r)).1 (hr_submitted r) (hr_gpu r)
        (hr_cpu r ++ option_list (getTask p (hr_env r)).2))).

Definition host_step (r r' : host_run) : Prop := ∃ may_fail, host_calls r may_fail (Ok r').

(** *** Routing *)

Notation gpu_task := (λ t, for_cuda (getDeviceType t) = true).
Notation cpu_task := (λ t, for_cuda (getDeviceType t) = false).

(** The scheduler of the NUMA nodes below, with the tasks that were sent to it. *)
Definition below (r : host_run) : numa_run :=
  mkNumaRun (hh_NUMAScheduler (hr_sched r)) (hr_env r) (filter cpu_task (hr_submitted r)) (hr_cpu r).

Record host_ok (r : host_run) : Prop := {
  ho_numa : numa_ok (below r);
  ho_cuda : filter gpu_task (hr_submitted r) ≡ₚ hr_gpu r ++ cu_readyTasks (hh_CUDAScheduler (hr_sched r));
  ho_queue : NoDup (cu_readyTasks (hh_CUDAScheduler (hr_sched r)));
}.

Lemma split_devices l : l ≡ₚ filter gpu_task l ++ filter cpu_task l.
Proof.
  induction l as [|t l IH]; [done|]. rewrite !filter_cons. destruct (for_cuda (getDeviceType t)); simpl; rewrite IH at 1; solve_perm.
Qed.

(** What the two schedulers have and have given. *)
Lemma host_ok_routes r :
  host_ok r → hr_submitted r ≡ₚ hr_gpu r ++ hr_cpu r ++ host_tasks r ∧ NoDup (host_tasks r) ∧
    Forall gpu_task (hr_gpu r) ∧ Forall cpu_task (hr_cpu r).
Proof.
  intros [[Hi Hc] Hg Hq]. cbn in Hi, Hc.
  assert (∀ t, t ∈ hr_gpu r ++ cu_readyTasks (hh_CUDAScheduler (hr_sched r)) → gpu_task t) as HG
    by (intros t Ht; rewrite <- Hg in Ht; by apply list_elem_of_filter in Ht as [? _]).
  assert (∀ t, t ∈ hr_cpu r ++ numa_tasks (hh_NUMAScheduler (hr_sched r)) (hr_env r) → cpu_task t) as HC
    by (intros t Ht; rewrite <- Hc in Ht; by apply list_elem_of_filter in Ht as [? _]).
  split_and!.
  - rewrite (split_devices (hr_submitted r)), Hg, Hc. unfold host_tasks. solve_perm.
  - apply NoDup_app. split_and!; [done| |apply Hi]. intros t H1 H2. specialize (HG t). specialize (HC t). cbv beta in *.
    rewrite HG in HC by (apply elem_of_app; by right). discriminate HC. apply elem_of_app. by right.
  - apply Forall_forall. intros t Ht. apply HG, elem_of_app. by left.
  - apply Forall_forall. intros t Ht. apply HC, elem_of_app. by left.
Qed.

Context `{!SchedulerLaws M S, !SchedulerFrame M S}.

(** A call that is handed to the scheduler of the NUMA nodes, of the tasks [a]. *)
Definition lift (r : host_run) (a : list nat) (q : res (numa_run (M := M) (S := S))) : res host_run :=
  n ← q; Ok (mkHostRun (mkHost (nr_sched n) (hh_CUDAScheduler (hr_sched r))) (nr_env n) (hr_submitted r ++ a) (hr_gpu r) (nr_returned n)).

Definition host_succeeds (may_fail : Prop) (q : res host_run) : Prop :=
  (∃ r', q = Ok r' ∧ host_ok r') ∨ (may_fail ∧ ∃ msg, q = Err (Fatal msg)).

Lemma host_below r a (P may_fail : Prop) q (q' : res host_run) :
  host_ok r → numa_calls A node_of thread_node (below r) P q → (P → may_fail) → Forall cpu_task a →
  (∀ n, q = Ok n → nr_submitted n = filter cpu_task (hr_submitted r) ++ a) → q' = lift r a q → host_succeeds may_fail q'.
Proof.
  intros [Hn Hg Hq] Hc HP Ha Hsub ->. destruct (numa_calls_succeed A node_of thread_node _ _ _ Hn Hc) as [(n & -> & Hok)|(Hf & msg & ->)];
    [left|right; split; [by apply HP|by exists msg]].
  specialize (Hsub n eq_refl). eexists. split; [reflexivity|].
  assert (filter cpu_task a = a) as Hfc by (clear -Ha; induction Ha as [|t l Ht _ IH]; [done|]; rewrite filter_cons, decide_True, IH by done; done).
  assert (filter gpu_task a = []) as Hfg.
  { clear -Ha. induction Ha as [|t l Ht _ IH]; [done|]. rewrite filter_cons, decide_False; [done|]. by rewrite Ht. }
  split; cbn.
  - destruct n as [x e sub ret]. cbn in Hsub. unfold below. cbn. rewrite filter_app, Hfc, <- Hsub. exact Hok.
  - by rewrite filter_app, Hfg, app_nil_r.
  - done.
Qed.

Lemma host_calls_succeed r may_fail q : host_ok r → host_calls r may_fail q → host_succeeds may_fail q.
Proof.
  intros Hok Hq.
  destruct Hq as [t cpu hint doGetIdle Hsup Ht Hn|cpu can Hn|force|cpu|cpu|cpu p Hn Hfree Hp|cpu p Hn|p].
  - unfold hh_addReadyTask. destruct (for_cuda (getDeviceType t)) eqn:Hd.
    + left. eexists. split; [reflexivity|]. destruct Hok as [Hnu Hg Hqu]. split; cbn.
      * unfold below. cbn. rewrite filter_app, filter_cons, decide_False, app_nil_r; [exact Hnu|by rewrite Hd].
      * rewrite filter_app, filter_cons, decide_True by done. rewrite Hg. cbn. solve_perm.
      * constructor; [|done]. intros Hin. apply Ht. apply elem_of_app. by left.
    + assert (t ∉ numa_tasks (nr_sched (below r)) (nr_env (below r))) as Ht' by (intros Hin; apply Ht; apply elem_of_app; by right).
      pose proof (call_add A node_of thread_node (below r) t cpu hint doGetIdle (Hsup eq_refl) Ht' Hn) as Hc.
      eapply (host_below r [t] _ _ _ _ Hok Hc); [done|by apply Forall_singleton| |].
      * intros n Hq. cbn in Hq. destruct (numa_addReadyTask _ _ _ _ _ _ _ _) as [q|]; [|done]. by injection Hq as <-.
      * cbn. by destruct (numa_addReadyTask _ _ _ _ _ _ _ _) as [[[x e] c]|].
  - unfold hh_getReadyTask. destruct (for_cuda (getType cpu)) eqn:Hd.
    + left. unfold cuda_getReadyTask. destruct Hok as [Hnu Hg Hqu].
      destruct (cu_readyTasks (hh_CUDAScheduler (hr_sched r))) as [|t l] eqn:Hl; (eexists; split; [reflexivity|]).
      * split; cbn; rewrite ?Hl, ?app_nil_r in *; done.
      * apply NoDup_cons in Hqu as [_ Hqu]. split; cbn; [done| |done]. rewrite Hg. solve_perm.
    + pose proof (call_get A node_of thread_node (below r) cpu can (Hn eq_refl)) as Hc.
      eapply (host_below r [] _ _ _ _ Hok Hc); [done|done| |].
      * intros n Hq. cbn in Hq. destruct (numa_getReadyTask _ _ _ _ _ _) as [q|]; [|done]. injection Hq as <-. by rewrite app_nil_r.
      * cbn. destruct (numa_getReadyTask _ _ _ _ _ _) as [[[x e] o]|]; [|done]. cbn. unfold lift. cbn. by rewrite app_nil_r.
  - eapply (host_below r [] _ _ _ _ Hok (call_idle A node_of thread_node (below r) force)); [done|done|intros n [= <-]; by rewrite app_nil_r|].
    unfold lift, with_host. cbn. rewrite app_nil_r. by destruct (hr_sched r).
  - eapply (host_below r [] _ _ _ _ Hok (call_disable A node_of thread_node (below r) cpu)); [done|done| |].
    + intros n Hq. cbn in Hq. destruct (numa_disableComputePlace _ _ _ _) as [q|]; [|done]. injection Hq as <-. by rewrite app_nil_r.
    + unfold hh_disableComputePlace, lift, with_host. cbn. destruct (numa_disableComputePlace _ _ _ _) as [[x e]|]; [|done]. cbn. by rewrite app_nil_r.
  - eapply (host_below r [] _ _ _ _ Hok (call_enable A node_of thread_node (below r) cpu)); [done|done|intros n [= <-]; by rewrite app_nil_r|].
    unfold lift, with_host. cbn. by rewrite app_nil_r.
  - eapply (host_below r [] _ _ _ _ Hok (call_request A node_of thread_node (below r) cpu p Hn Hfree Hp)); [done|done| |].
    + intros n Hq. cbn in Hq. destruct (numa_requestPolling _ _ _ _ _) as [q|]; [|done]. injection Hq as <-. by rewrite app_nil_r.
    + unfold hh_requestPolling, lift, with_host. cbn. destruct (numa_requestPolling _ _ _ _ _) as [[[x e] b]|]; [|done]. cbn. by rewrite app_nil_r.
  - eapply (host_below r [] _ _ _ _ Hok (call_release A node_of thread_node (below r) cpu p Hn)); [done|done| |].
    + intros n Hq. cbn in Hq. destruct (numa_releasePolling _ _ _ _ _) as [q|]; [|done]. injection Hq as <-. by rewrite app_nil_r.
    + unfold hh_releasePolling, lift, with_host. cbn. destruct (numa_releasePolling _ _ _ _ _) as [[[x e] b]|]; [|done]. cbn. by rewrite app_nil_r.
  - eapply (host_below r [] _ _ _ _ Hok (call_poll A node_of thread_node (below r) p)); [done|done|intros n [= <-]; by rewrite app_nil_r|].
    unfold lift. cbn. rewrite app_nil_r. by destruct (hr_sched r).
Qed.

Lemma host_steps_ok r r' : host_ok r → rtc host_step r r' → host_ok r'.
Proof.
  intros Hr Hs. induction Hs as [|r r1 r2 [P Hc] _ IH]; [done|]. apply IH.
  destruct (host_calls_succeed r P _ Hr Hc) as [(? & [= <-] & ?)|(_ & ? & ?)]; done.
Qed.

(** C19: From an empty scheduler of the host on, over the scheduler of the NUMA nodes and any schedulers of the nodes that keep
    the promises of the interface, whatever calls are made, one after the other: each succeeds, or is an addition or a
    disabling that may fail as for the scheduler of the NUMA nodes (a task of another device than the GPU, a
    taskloop, or no enabled CPU) and fails with a message or an assertion; after a call that succeeds the tasks that were added
    are those that were given out together with those that are in a queue, each of these once; and the GPUs have
    been given tasks of GPUs only, and the CPUs the other ones only. *)
Theorem host_routes_tasks s e r may_fail q :
  numa_inv (hh_NUMAScheduler s) e → numa_tasks (hh_NUMAScheduler s) e = [] → cu_readyTasks (hh_CUDAScheduler s) = [] →
  rtc host_step (mkHostRun s e [] [] []) r → host_calls r may_fail q →
  (∃ r', q = Ok r' ∧ hr_submitted r' ≡ₚ hr_gpu r' ++ hr_cpu r' ++ host_tasks r' ∧ NoDup (host_tasks r') ∧
    Forall (λ t, for_cuda (getDeviceType t) = true) (hr_gpu r') ∧ Forall (λ t, for_cuda (getDeviceType t) = false) (hr_cpu r')) ∨
  (may_fail ∧ ∃ msg, q = Err (Fatal msg)).
Proof.
  intros Hi Ht Hq0 Hrun Hq. assert (host_ok r) as Hr.
  { apply (host_steps_ok _ r) in Hrun; [done|]. split; cbn; [split; cbn; [done|by rewrite Ht]|by rewrite Hq0|rewrite Hq0; constructor]. }
  destruct (host_calls_succeed r may_fail q Hr Hq) as [(r' & -> & Hok)|Hf]; [left; exists r'; split; [done|by apply host_ok_routes]|by right].
Qed.
End host.

(** ** The entry of the runtime *)

Section entry.
Context {B S : Type} `{!DynamicBitset B, !DynamicBitsetLaws B} (A : attributes).
(** [addReadyTask] of the scheduler *)
Context (addReadyTask : nat → option nat → ReadyTaskHint → bool → S → env (CPUManager B) → res (S * env (CPUManager B) * option nat)).
Implicit Types (s : S) (e : env (CPUManager B)).

(** [Scheduler::addReadyTask]: the CPU to resume by the caller, and the CPUs that the call resumes itself. *)
Definition scheduler_addReadyTask (fuel : nat) (t : nat) (cpu : option nat) (hint : ReadyTaskHint) s e : res (S * env (CPUManager B) * option nat * list nat) :=
  if decide (hint = UNBLOCKED_TASK_HINT) then
    r ← addReadyTask t cpu hint false s e; let '(s, e, c) := r in Ok (s, e, c, [])
  else if at_taskloop A t then
    r ← addReadyTask t cpu hint false s e; let '(s, e, _) := r in
    r ← getIdleCPUs fuel (e_manager e); let '(m, idleCPUs) := r in
    Ok (s, set_manager m e, None, idleCPUs)
  else r ← addReadyTask t cpu hint true s e; let '(s, e, c) := r in Ok (s, e, c, []).

(** When a taskloop that the scheduler takes is added, the call resumes every CPU that is idle then, once and in
    order, and leaves none idle; the loop over the CPUs needs as much fuel as there are idle ones. *)
Theorem ready_taskloop_wakes_all t cpu hint s e s1 e1 c1 fuel :
  at_taskloop A t = true → hint ≠ UNBLOCKED_TASK_HINT → addReadyTask t cpu hint false s e = Ok (s1, e1, c1) → size (idle_set (e_manager e1)) ≤ fuel →
  ∃ m idleCPUs, scheduler_addReadyTask fuel t cpu hint s e = Ok (s1, set_manager m e1, None, idleCPUs) ∧
    idle_set m = ∅ ∧ StronglySorted lt idleCPUs ∧ list_to_set idleCPUs = idle_set (e_manager e1).
Proof.
  intros Ht Hh Ha Hf. unfold scheduler_addReadyTask. rewrite decide_False, Ht, Ha by done. cbn [mbind res_bind].
  destruct (idle_cpus_are_a_set (e_manager e1)) as (_ & _ & Hall & _). destruct (Hall fuel Hf) as (m & l & -> & Hl & Hsorted & Hempty). by exists m, l.
Qed.
End entry.

(** ** The choice of the scheduler *)

Inductive cpu_scheduler :=
  | CPU_Priority | CPU_Naive | CPU_FIFO | CPU_ImmediateSuccessor | CPU_ImmediateSuccessorWithPolling
  | CPU_FIFOImmediateSuccessorWithPolling | CPU_Priority1 | CPU_NoSleepPriority.

(** The scheduler that is built; the default one is the priority scheduler. *)
Inductive scheduler :=
  | CPUScheduler (k : cpu_scheduler) (nodeIndex : Z)
  | CUDAScheduler
  | NoScheduler
  | TreeScheduler
  | NUMAHierarchical (nodes : list scheduler)
  | DeviceHierarchical (cpu : scheduler)
  | HostHierarchical (numa cuda : scheduler).

Section generator.
(** Whether CUDA is compiled in, the number of NUMA nodes, and the variables of the environment *)
Context (USE_CUDA : bool) (NUMANodeCount : nat).
Context (NANOS6_SCHEDULER NANOS6_CPU_SCHEDULER NANOS6_CUDA_SCHEDULER : option string).

Definition createCPUScheduler (schedulerName : string) (nodeIndex : Z) : scheduler :=
  if decide (schedulerName = "default"%string) then CPUScheduler CPU_Priority nodeIndex
  else if decide (schedulerName = "naive"%string) then CPUScheduler CPU_Naive nodeIndex
  else if decide (schedulerName = "fifo"%string) then CPUScheduler CPU_FIFO nodeIndex
  else if decide (schedulerName = "immediatesuccessor"%string) then CPUScheduler CPU_ImmediateSuccessor nodeIndex
  else if decide (schedulerName = "iswp"%string) then CPUScheduler CPU_ImmediateSuccessorWithPolling nodeIndex
  else if decide (schedulerName = "fifoiswp"%string) then CPUScheduler CPU_FIFOImmediateSuccessorWithPolling nodeIndex
  else if decide (schedulerName = "priority"%string) then CPUScheduler CPU_Priority nodeIndex
  else if decide (schedulerName = "priority1"%string) then CPUScheduler CPU_Priority1 nodeIndex
  else if decide (schedulerName = "nosleep-priority"%string) then CPUScheduler CPU_NoSleepPriority nodeIndex
  else CPUScheduler CPU_Priority nodeIndex.

Definition createCUDAScheduler (schedulerName : string) (nodeIndex : Z) : scheduler :=
  if USE_CUDA then
    if decide (schedulerName = "default"%string) then CUDAScheduler
    else if decide (schedulerName = "naive"%string) then CUDAScheduler
    else CUDAScheduler
  else NoScheduler.

Definition createDeviceScheduler (nodeIndex : Z) (type : nanos6_device_t) : scheduler :=
  match type with
  | nanos6_host_device => createCPUScheduler (default "default"%string NANOS6_CPU_SCHEDULER) nodeIndex
  | nanos6_cuda_device => createCUDAScheduler (default "default"%string NANOS6_CUDA_SCHEDULER) nodeIndex
  | nanos6_opencl_device => createCPUScheduler (default "default"%string NANOS6_CPU_SCHEDULER) nodeIndex
  end.

(** [canBeCollapsed] of the scheduler of a node and of the host is true. *)
Definition canBeCollapsed : bool := bool_decide (NUMANodeCount = 1).

Definition createNUMANodeScheduler (collapsable : bool) (nodeIndex : Z) : scheduler :=
  if collapsable then createDeviceScheduler nodeIndex nanos6_host_device
  else DeviceHierarchical (createDeviceScheduler nodeIndex nanos6_host_device).

Definition createNUMAScheduler (collapsable : bool) : scheduler :=
  if collapsable && canBeCollapsed then createNUMANodeScheduler collapsable (-1)
  else NUMAHierarchical ((λ idx, createNUMANodeScheduler collapsable (Z.of_nat idx)) <$> seq 0 NUMANodeCount).

Definition createHostScheduler : scheduler :=
  let schedulerName := default "default"%string NANOS6_SCHEDULER in
  if decide (schedulerName = "hierarchical"%string) then
    HostHierarchical (createNUMAScheduler false) (if USE_CUDA then createDeviceScheduler 0 nanos6_cuda_device else NoScheduler)
  else if decide (schedulerName = "collapsable"%string) then createNUMAScheduler true
  else if decide (schedulerName = "tree"%string) then TreeScheduler
  else createCPUScheduler schedulerName (-1).
End generator.

(** The schedulers of CPUs below a scheduler, in the order of the nodes *)
Fixpoint cpu_schedulers (s : scheduler) : list (cpu_scheduler * Z) :=
  match s with
  | CPUScheduler k n => [(k, n)]
  | CUDAScheduler | NoScheduler | TreeScheduler => []
  | NUMAHierarchical l => l ≫= cpu_schedulers
  | DeviceHierarchical s => cpu_schedulers s
  | HostHierarchical n c => cpu_schedulers n ++ cpu_schedulers c
  end.

Lemma createCPUScheduler_one name n : ∃ k, createCPUScheduler name n = CPUScheduler k n ∧ ∀ m, createCPUScheduler name m = CPUScheduler k m.
Proof. unfold createCPUScheduler. repeat case_decide; by eexists. Qed.

Lemma numa_cpu_schedulers USE_CUDA NUMANodeCount cpu cuda k :
  (∀ m, createCPUScheduler (default "default"%string cpu) m = CPUScheduler k m) →
  let all := (λ idx, (k, Z.of_nat idx)) <$> seq 0 NUMANodeCount in
  cpu_schedulers (createNUMAScheduler USE_CUDA NUMANodeCount cpu cuda false) = all ∧
  cpu_schedulers (createNUMAScheduler USE_CUDA NUMANodeCount cpu cuda true) = if decide (NUMANodeCount = 1) then [(k, (-1)%Z)] else all.
Proof.
  intros Hk. assert (∀ c n, cpu_schedulers (createNUMANodeScheduler USE_CUDA cpu cuda c n) = [(k, n)]) as Hn.
  { intros c n. unfold createNUMANodeScheduler, createDeviceScheduler. rewrite Hk. by destruct c. }
  assert (∀ c l, cpu_schedulers (NUMAHierarchical ((λ idx, createNUMANodeScheduler USE_CUDA cpu cuda c (Z.of_nat idx)) <$> l)) = (λ idx, (k, Z.of_nat idx)) <$> l) as Hl.
  { intros c l. induction l as [|i l IH]; [done|]. rewrite !fmap_cons, <- IH. cbn [cpu_schedulers mbind list_bind]. by rewrite Hn. }
  unfold createNUMAScheduler, canBeCollapsed. cbn [andb]. split; [apply Hl|]. case_bool_decide as H1.
  - rewrite Hn, decide_True by done. done.
  - rewrite Hl, decide_False by done. done.
Qed.

Module Hierarchical.
(** Task 5 is one of a GPU and compute place 3 is a GPU. *)
Definition sample_type (d : nat) : nat → nanos6_device_t := λ n, if decide (n = d) then nanos6_cuda_device else nanos6_host_device.

#[local] Instance gpu_node_scheduler : SchedulerInterface (CPUManager (list bool)) PriorityScheduler := priority_scheduler sample_attributes.
#[local] Instance gpu_node_scheduler_laws : SchedulerLaws (CPUManager (list bool)) PriorityScheduler := priority_scheduler_laws sample_attributes.

Definition sample_host : host_run (M := CPUManager (list bool)) := mkHostRun (mkHost (Numa.two_nodes empty_scheduler) (new_cuda 1)) two_cpus [] [] [].

Notation sample_calls := (host_calls sample_attributes (λ c, if decide (c = 0) then 0 else 1) (λ _, 0) true (sample_type 5) (sample_type 3)).
Notation sample_step := (host_step sample_attributes (λ c, if decide (c = 0) then 0 else 1) (λ _, 0) true (sample_type 5) (sample_type 3)).

(** Task 5 is added for the GPU and task 6 for the CPUs; then the GPU, compute place 3, asks for a task, and gets task 5. *)
Lemma host_routes_tasks_witness :
  ∃ r r', rtc sample_step sample_host r ∧ sample_calls r False (Ok r') ∧
    hr_submitted r' = [5; 6] ∧ hr_gpu r' = [5] ∧ Forall (λ t, for_cuda true (sample_type 5 t) = true) (hr_gpu r') ∧
    hr_submitted r' ≡ₚ hr_gpu r' ++ hr_cpu r' ++ host_tasks r'.
Proof.
  destruct (@Numa.two_nodes_inv _ gpu_node_scheduler empty_scheduler sample_ok eq_refl eq_refl) as [Hi Ht].
  set (r1 := mkHostRun (mkHost (Numa.two_nodes empty_scheduler) (mkCUDA [5] [0])) two_cpus [5] [] []).
  assert (sample_step sample_host r1) as H1.
  { eexists. refine (host_add sample_attributes (λ c, if decide (c = 0) then 0 else 1) (λ _, 0) true (sample_type 5) (sample_type 3) sample_host 5 None NO_HINT false _ _ _);
      [done|vm_compute; set_solver|cbn; lia]. }
  destruct (hh_addReadyTask (S := PriorityScheduler) sample_attributes (λ _, 0) true (sample_type 5) 6 None NO_HINT false (hr_sched r1) (hr_env r1)) as [q|] eqn:H2;
    [|vm_compute in H2; discriminate H2].
  assert (sample_step r1 (mkHostRun q.1.1 q.1.2 [5; 6] [] [])) as H2'.
  { pose proof (host_add sample_attributes (λ c, if decide (c = 0) then 0 else 1) (λ _, 0) true (sample_type 5) (sample_type 3) r1 6 None NO_HINT false) as Hc.
    rewrite H2 in Hc. eexists. apply Hc; [done|vm_compute; set_solver|cbn; lia]. }
  set (r2 := mkHostRun q.1.1 q.1.2 [5; 6] [] []) in *.
  pose proof (host_get sample_attributes (λ c, if decide (c = 0) then 0 else 1) (λ _, 0) true (sample_type 5) (sample_type 3) r2 3 true) as Hg.
  destruct (hh_getReadyTask (S := PriorityScheduler) sample_attributes (λ c, if decide (c = 0) then 0 else 1) true (sample_type 3) 3 true (hr_sched r2) (hr_env r2)) as [q'|] eqn:H3.
  2: { cbn in H3. vm_compute in H2. injection H2 as <-. vm_compute in H3. discriminate H3. }
  specialize (Hg ltac:(by intros)).
  pose proof (rtc_l _ _ _ _ H1 (rtc_once _ _ H2')) as Hrun.
  destruct (host_routes_tasks sample_attributes (λ c, if decide (c = 0) then 0 else 1) (λ _, 0) true (sample_type 5) (sample_type 3)
    (hr_sched sample_host) two_cpus r2 False _ Hi Ht eq_refl Hrun Hg) as [(r' & Hr' & Hp & _ & HG & _)|[[] _]].
  exists r2, r'. split; [exact Hrun|]. split; [rewrite <- Hr'; exact Hg|].
  assert (hr_submitted r' = [5; 6] ∧ hr_gpu r' = [5]) as [? ?].
  { cbn in Hr'. injection Hr' as <-. cbn. split; [done|]. vm_compute in H2. injection H2 as <-. vm_compute in H3. by injection H3 as <-. }
  split_and!; done.
Defined.

(** C20: The scheduler of all the levels has one scheduler of CPUs for each NUMA node, of the kind that [NANOS6_CPU_SCHEDULER] names and
    with the index of its node, in the order of the nodes.  The one that is built with collapsed levels has the same ones,
    also with the same indices, except on a machine with one node, where the index is -1 instead of 0. *)
Theorem collapsing_keeps_cpu_schedulers USE_CUDA NUMANodeCount cpu cuda :
  let hierarchical := cpu_schedulers (createHostScheduler USE_CUDA NUMANodeCount (Some "hierarchical"%string) cpu cuda) in
  let collapsed := cpu_schedulers (createHostScheduler USE_CUDA NUMANodeCount (Some "collapsable"%string) cpu cuda) in
  ∃ k, (∀ n, createCPUScheduler (default "default"%string cpu) n = CPUScheduler k n) ∧
    hierarchical = (λ idx, (k, Z.of_nat idx)) <$> seq 0 NUMANodeCount ∧
    collapsed = if decide (NUMANodeCount = 1) then [(k, (-1)%Z)] else hierarchical.
Proof.
  intros hierarchical collapsed. destruct (createCPUScheduler_one (default "default"%string cpu) 0) as (k & _ & Hk).
  pose proof (numa_cpu_schedulers USE_CUDA NUMANodeCount cpu cuda k Hk) as [H1 H2]. exists k. split; [exact Hk|].
  assert (hierarchical = (λ idx, (k, Z.of_nat idx)) <$> seq 0 NUMANodeCount) as ->; [|split; [done|exact H2]].
  change hierarchical with (cpu_schedulers (createNUMAScheduler USE_CUDA NUMANodeCount cpu cuda false) ++ cpu_schedulers (if USE_CUDA then createDeviceScheduler USE_CUDA cpu cuda 0 nanos6_cuda_device else NoScheduler)).
  rewrite H1. destruct USE_CUDA; [|by rewrite app_nil_r]. unfold createDeviceScheduler, createCUDAScheduler. repeat case_decide; by rewrite app_nil_r.
Qed.

(** With collapsed levels there is no scheduler for the tasks of GPUs, also when CUDA is compiled in. *)
Lemma collapsing_loses_cuda :
  createHostScheduler true 1 (Some "collapsable"%string) None None = CPUScheduler CPU_Priority (-1).
Proof. reflexivity. Qed.

(** Taskloop 8 is added to the naive scheduler while CPU 1 is idle. *)
Definition one_idle : env (CPUManager (list bool)) := mkEnv ∅ ∅ ∅ (mkManager [] [Some 0; Some 1] 2 [false; true] [] []).

Lemma ready_taskloop_wakes_all_witness :
  ∃ s' e' c, scheduler_addReadyTask (B := list bool) loop_attributes (λ t _ hint, naive_addReadyTask loop_attributes true t hint) 2 8 None NO_HINT (mkNaiveScheduler [] []) one_idle
    = Ok (s', e', c, [1]).
Proof.
  destruct (ready_taskloop_wakes_all (B := list bool) loop_attributes (λ t _ hint, naive_addReadyTask loop_attributes true t hint) 8 None NO_HINT (mkNaiveScheduler [] []) one_idle
    (mkNaiveScheduler [8] []) one_idle None 2) as (m & l & H & _ & _ & Hl); [done|done|done|vm_compute; lia|].
  assert (l = [1]) as -> by (vm_compute in H; congruence). eexists _, _, _. exact H.
Defined.
End Hierarchical.
