(* ===== verification/CpuLists.v ===== *)
(** * Lists of CPUs

    The two functions [maskToRegionList] of [executors/threads/CPUManager.cpp], which print the CPUs of the process and of
    the NUMA nodes as a list of ranges such as [0-3,5], and [CPUManager::initialize], which gives every CPU its first
    thread. *)

From S2P Require Import Prelude.
From S2P Require Import CpuActivation.
From stdpp Require Import pretty.
Local Open Scope Z_scope.

(** ** The printer *)

Record region_state := mkRegions { rs_start : Z; rs_end : Z; rs_first : bool; rs_oss : string }.

(** A range as it is printed *)
Definition print_region (start last : Z) : string := if last =? start then pretty start else (pretty start +:+ "-" +:+ pretty last)%string.

(** The body of the loops: whether the CPU is in the mask, and its number as an [int]. *)
Definition region_step (s : region_state) (x : bool * Z) : region_state :=
  let '(isSet, id) := x in
  if isSet : bool then
    if rs_start s <=? rs_end s then mkRegions (rs_start s) (wrap_int id) (rs_first s) (rs_oss s)
    else mkRegions (wrap_int id) (wrap_int id) (rs_first s) (rs_oss s)
  else
    if rs_start s <=? rs_end s then
      mkRegions (rs_start s) (-1) false (rs_oss s +:+ (if rs_first s then "" else ",") +:+ print_region (rs_start s) (rs_end s))%string
    else s.

Definition region_loop (l : list (bool * Z)) : string := rs_oss (foldl region_step (mkRegions 0 (-1) true "") l).

(** [maskToRegionList] of a mask of the system *)
Definition maskToRegionList (mask : nat → bool) (size : nat) : string :=
  region_loop ((λ i, (bool_decide (i < size)%nat && mask i, Z.of_nat i)) <$> seq 0 (S size)).

(** [maskToRegionList] of a mask of virtual CPUs, with their CPUs of the system *)
Definition maskToRegionList_virtual (mask : list bool) (cpus : list (option Z)) : string :=
  region_loop ((λ v, (default false (mask !! v), default (word_max - 1) (if bool_decide (v < length mask)%nat then mjoin (cpus !! v) else None)))
    <$> seq 0 (S (length mask))).

(** ** The ranges of a mask *)

Fixpoint join (l : list string) : string :=
  match l with [] => ""%string | [x] => x | x :: l => (x +:+ "," +:+ join l)%string end.

Definition print_regions (R : list (nat * nat)) : string := join ((λ r, print_region (Z.of_nat r.1) (Z.of_nat r.2)) <$> R).

Definition in_region (i : nat) (r : nat * nat) : Prop := (r.1 ≤ i ≤ r.2)%nat.

(** The ranges are in order, and no two of them touch. *)
Definition apart (R : list (nat * nat)) : Prop := StronglySorted (λ r q, (r.2 + 1 < q.1)%nat) R.

Lemma append_assoc (a b c : string) : ((a +:+ b) +:+ c = a +:+ b +:+ c)%string.
Proof. induction a as [|x a IH]; [done|]. exact (f_equal (String.String x) IH). Qed.

Lemma join_snoc l x : join (l ++ [x]) = (join l +:+ (if bool_decide (l = []) then "" else ",") +:+ x)%string.
Proof.
  induction l as [|y [|z l] IH]; [done|done|]. change (join ((y :: z :: l) ++ [x])) with (y +:+ "," +:+ join ((z :: l) ++ [x]))%string. rewrite IH.
  rewrite !bool_decide_false by done. change (join (y :: z :: l)) with (y +:+ "," +:+ join (z :: l))%string. by rewrite !append_assoc.
Qed.

Lemma print_regions_snoc R a b :
  print_regions (R ++ [(a, b)]) = (print_regions R +:+ (if bool_decide (R = []) then "" else ",") +:+ print_region (Z.of_nat a) (Z.of_nat b))%string.
Proof. unfold print_regions. rewrite fmap_app, list_fmap_singleton, join_snoc. destruct R; done. Qed.

Section printer.
Context (mask : nat → bool) (size : nat) (Hsize : Z.of_nat size < 2 ^ 31 - 1).

Definition member (i : nat) : bool := bool_decide (i < size)%nat && mask i.

(** After so many CPUs: the ranges that are printed, and the one that is open. *)
Record printed (i : nat) (s : region_state) (R : list (nat * nat)) : Prop := {
  pr_oss : rs_oss s = print_regions R;
  pr_first : rs_first s = bool_decide (R = []);
  pr_apart : apart R;
  pr_order : Forall (λ r, (r.1 ≤ r.2)%nat) R;
}.

Inductive printing (i : nat) (s : region_state) : Prop :=
  | print_open R a :
      printed i s R → rs_start s = Z.of_nat a → rs_end s = Z.of_nat i - 1 → (a < i)%nat → Forall (λ r, (r.2 + 1 < a)%nat) R →
      (∀ j, (j < i)%nat → member j = true ↔ Exists (in_region j) R ∨ (a ≤ j)%nat) → printing i s
  | print_closed R :
      printed i s R → rs_end s = -1 → 0 ≤ rs_start s → Forall (λ r, (r.2 + 1 < i)%nat) R →
      (∀ j, (j < i)%nat → member j = true ↔ Exists (in_region j) R) → printing i s.

Lemma apart_snoc R a b : apart R → Forall (λ r, (r.2 + 1 < a)%nat) R → apart (R ++ [(a, b)]).
Proof.
  induction 1 as [|r R HR IH Hr]; intros Hf; [repeat constructor|]. apply Forall_cons in Hf as [Hf1 Hf2]. cbn. constructor; [by apply IH|]. apply Forall_app. split; [done|]. by apply Forall_singleton.
Qed.

Lemma region_step_printing i s : (i ≤ size)%nat → printing i s → printing (S i) (region_step s (member i, Z.of_nat i)).
Proof.
  intros Hi Hp. assert (wrap_int (Z.of_nat i) = Z.of_nat i) as Hw by (apply wrap_int_small; unfold is_int; lia). unfold region_step. rewrite Hw. destruct (member i) eqn:Hm.
  - destruct Hp as [R a [P1 P2 P3 P4] Hs He Ha Hf Hj|R [P1 P2 P3 P4] He Hs Hf Hj].
    + rewrite (proj2 (Z.leb_le _ _)) by lia. eapply (print_open _ _ R a); [by split|done|cbn; lia|lia|done|]. intros j Hlt. destruct (decide (j = i)) as [->|]; [split; [right; lia|done]|apply Hj; lia].
    + rewrite (proj2 (Z.leb_gt _ _)) by lia. eapply (print_open _ _ R i); [by split|done|cbn; lia|lia|done|]. intros j Hlt. destruct (decide (j = i)) as [->|]; [split; [right; lia|done]|].
      rewrite Hj by lia. split; [by left|]. intros [?|?]; [done|lia].
  - destruct Hp as [R a [P1 P2 P3 P4] Hs He Ha Hf Hj|R [P1 P2 P3 P4] He Hs Hf Hj].
    + rewrite (proj2 (Z.leb_le _ _)) by lia. eapply (print_closed _ _ (R ++ [(a, i - 1)%nat])); cbn.
      * split; cbn; [|by destruct R|by apply apart_snoc|apply Forall_app; split; [done|]; apply Forall_singleton; cbn; lia].
        rewrite print_regions_snoc, <- P1, <- P2, Hs, He. do 3 f_equal. lia.
      * done.
      * lia.
      * apply Forall_app. split; [eapply Forall_impl; [exact Hf|]; cbn; lia|apply Forall_singleton; cbn; lia].
      * intros j Hlt. rewrite Exists_app, Exists_cons, Exists_nil. unfold in_region at 2. cbn. destruct (decide (j = i)) as [->|Hne]; [|rewrite Hj by lia; split; [intros [?|?]; [by left|right; left; lia]|intros [?|[?|?]]; [by left|right; lia|done]]].
        rewrite Hm. split; [done|]. intros [(r & Hr & Hin)%Exists_exists|[?|?]]; [|lia|done]. exfalso. rewrite Forall_forall in Hf. specialize (Hf r Hr). unfold in_region in Hin. lia.
    + rewrite (proj2 (Z.leb_gt _ _)) by lia. eapply (print_closed _ _ R); [by split|done|done|eapply Forall_impl; [exact Hf|]; cbn; lia|]. intros j Hlt. destruct (decide (j = i)) as [->|]; [|apply Hj; lia].
      rewrite Hm. split; [done|]. intros (r & Hr & Hin)%Exists_exists. exfalso. rewrite Forall_forall in Hf. specialize (Hf r Hr). unfold in_region in Hin. lia.
Qed.

Lemma region_loop_printing n i s : (i + n ≤ S size)%nat → printing i s → printing (i + n) (foldl region_step s ((λ i, (member i, Z.of_nat i)) <$> seq i n)).
Proof.
  revert i s. induction n as [|n IH]; intros i s Hn Hp; cbn; [by rewrite Nat.add_0_r|]. replace (i + S n)%nat with (S i + n)%nat by lia. apply IH; [lia|]. apply region_step_printing; [lia|done].
Qed.
End printer.

(** ** The first threads *)

(** The loop of [CPUManager::initialize]: the CPUs, and those that get a thread, which is created and resumed there. *)
Fixpoint initialize_loop (i : nat) (cpus : list (option cpu)) : list (option cpu) * list nat :=
  match cpus with
  | [] => ([], [])
  | None :: cpus => let '(cpus, threads) := initialize_loop (S i) cpus in (None :: cpus, threads)
  | Some c :: cpus =>
      let '(c, worked) := initializeIfNeeded c in
      let '(cpus, threads) := initialize_loop (S i) cpus in
      (Some c :: cpus, if worked : bool then i :: threads else threads)
  end.

Definition manager_initialize (cpus : list (option cpu)) : list (option cpu) * list nat := initialize_loop 0 cpus.

Definition initialized (o : option cpu) : option cpu := (λ c, (initializeIfNeeded c).1) <$> o.

Lemma initialize_loop_spec i cpus :
  (∀ j, j ∈ (initialize_loop i cpus).2 ↔ ∃ k c, j = (i + k)%nat ∧ cpus !! k = Some (Some c) ∧ (initializeIfNeeded c).2 = true) ∧
  StronglySorted lt (initialize_loop i cpus).2 ∧ (initialize_loop i cpus).1 = initialized <$> cpus.
Proof.
  revert i. induction cpus as [|o cpus IH]; intros i; cbn [initialize_loop].
  - split_and!; [|constructor|done]. intros j. cbn. split; [by intros ?%elem_of_nil|]. intros (k & c & _ & H & _). by destruct k.
  - destruct (IH (S i)) as (H1 & H2 & H3). destruct (initialize_loop (S i) cpus) as [cs l]. cbn in H1, H2, H3.
    assert (∀ j, j ∈ l → (i < j)%nat) as Hlt by (intros j (k & c & -> & _)%H1; lia).
    assert (∀ j, (∃ k c, j = (S i + k)%nat ∧ cpus !! k = Some (Some c) ∧ (initializeIfNeeded c).2 = true) ↔
      (∃ k c, j = (i + S k)%nat ∧ (o :: cpus) !! S k = Some (Some c) ∧ (initializeIfNeeded c).2 = true)) as Hs.
    { intros j. split; intros (k & c & Hj & Hk & Hc); exists k, c; (split; [lia|done]). }
    destruct o as [c|]; [destruct (initializeIfNeeded c) as [c' worked] eqn:Hc|]; cbn; rewrite H3.
    + split_and!; [| |by rewrite Hc].
      * intros j. transitivity ((worked = true ∧ j = i) ∨ j ∈ l); [destruct worked; set_solver|]. rewrite H1, Hs. split.
        -- intros [[-> ->]|(k & c1 & H)]; [exists 0%nat, c; rewrite Hc; split_and!; [lia|done|done]|by exists (S k), c1].
        -- intros ([|k] & c1 & -> & Hk & Hw); [injection Hk as <-; rewrite Hc in Hw; left; split; [done|lia]|right; by exists k, c1].
      * destruct worked; [|done]. constructor; [done|]. by apply Forall_forall.
    + split_and!; [|done|done]. intros j. rewrite H1, Hs. split; [intros (k & c & H); by exists (S k), c|]. intros ([|k] & c & -> & Hk & Hw); [done|by exists k, c].
Qed.

Module CpuLists.
(** C30: The list that is printed for a mask of CPUs of the system consists of ranges that are in order and do not touch each other, and that have
    exactly the CPUs of the mask below the given size. *)
Theorem cpu_list_is_exact mask size :
  Z.of_nat size < 2 ^ 31 - 1 →
  ∃ R, maskToRegionList mask size = print_regions R ∧ apart R ∧ Forall (λ r, (r.1 ≤ r.2)%nat) R ∧
    ∀ i, Exists (in_region i) R ↔ (i < size)%nat ∧ mask i = true.
Proof.
  intros Hs. assert (printing mask size 0 (mkRegions 0 (-1) true "")) as H0.
  { eapply (print_closed _ _ _ _ []); [split; [done|done|constructor|constructor]|done|done|constructor|]. intros j Hj. lia. }
  pose proof (region_loop_printing mask size Hs (S size) 0 _ ltac:(lia) H0) as Hp. cbn [Nat.add] in Hp. unfold maskToRegionList, region_loop. fold (member mask size).
  change (λ i, (bool_decide (i < size)%nat && mask i, Z.of_nat i)) with (λ i, (member mask size i, Z.of_nat i)).
  assert (∀ i, member mask size i = true ↔ (i < size)%nat ∧ mask i = true) as Hm by (intros i; unfold member; by rewrite andb_true_iff, bool_decide_eq_true).
  destruct Hp as [R a [P1 P2 P3 P4] _ He Ha Hf Hj|R [P1 P2 P3 P4] He _ Hf Hj].
  - exfalso. specialize (Hj size ltac:(lia)). rewrite Hm in Hj. destruct Hj as [_ Hj]. destruct Hj; [right; lia|lia].
  - exists R. split_and!; [done|done|done|]. intros i. destruct (decide (i < S size)%nat) as [Hi|Hi]; [by rewrite <- Hm, Hj|]. split; [|lia].
    intros (r & Hr & Hin)%Exists_exists. rewrite Forall_forall in Hf. specialize (Hf r Hr). unfold in_region in Hin. lia.
Qed.

Lemma cpu_list_is_exact_witness :
  ∃ R, "0-3,5"%string = print_regions R ∧ Exists (in_region 2) R ∧ ¬ Exists (in_region 4) R.
Proof.
  destruct (cpu_list_is_exact (λ i, bool_decide (i ≠ 4)%nat) 6) as (R & H1 & _ & _ & H2); [lia|]. exists R. split; [rewrite <- H1; vm_compute; reflexivity|].
  split; [apply H2; split; [lia|done]|]. rewrite H2. intros [_ H]. done.
Defined.

(** The list of a NUMA node takes virtual CPUs that follow each other for CPUs of the system that do: CPUs 1 and 4 of a process are printed as
    the range from 1 to 4. *)
Lemma virtual_ranges_are_not_ranges : maskToRegionList_virtual [true; true] [Some 1; Some 4] = "1-4"%string.
Proof. reflexivity. Qed.

(** The initialization gives every CPU that has not been initialized one thread, in the order of the CPUs, and another
    initialization gives none. *)
Theorem every_cpu_gets_a_thread cpus :
  let r := manager_initialize cpus in
  (∀ i, i ∈ r.2 ↔ ∃ c, cpus !! i = Some (Some c) ∧ c_status c = uninitialized_status) ∧ StronglySorted lt r.2 ∧ (manager_initialize r.1).2 = [].
Proof.
  cbn. unfold manager_initialize. destruct (initialize_loop_spec 0 cpus) as (H1 & H2 & H3). split_and!; [|done|].
  - intros i. rewrite H1. unfold initializeIfNeeded. split.
    + intros (k & c & -> & Hk & Hc). exists c. split; [done|]. by case_decide.
    + intros (c & Hk & Hc). exists i, c. split_and!; [done|done|]. by rewrite decide_True.
  - rewrite H3. destruct (initialize_loop_spec 0 (initialized <$> cpus)) as (H4 & _). destruct ((initialize_loop 0 (initialized <$> cpus)).2) as [|j l] eqn:Hl; [reflexivity|]. exfalso.
    assert (j ∈ j :: l) as (k & c & -> & Hk & Hc)%H4 by left. rewrite list_lookup_fmap in Hk. destruct (cpus !! k) as [[c0|]|]; cbn in Hk; [|congruence|congruence]. injection Hk as <-.
    unfold initializeIfNeeded in Hc. repeat case_decide; cbn in *; congruence.
Qed.
End CpuLists.
