(* ===== verification/UnorderedList.v ===== *)
(** * Concurrent unordered lists

    [support/ConcurrentUnorderedList.hpp]: the queues of the log of the verbose instrumentation.  A slot has some
    queues with a lock each, and a counter that spreads the threads over them.  A thread takes a number of the
    counter, tries the lock, and works on the queue while it has the lock; what it does with the queue between two
    accesses to shared memory other than the queue is one step. *)

From S2P Require Import Prelude.

(** ** Data *)

Record SlotIndexContents := mkQueue { sq_locked : bool; sq_queue : list nat }.
Record SlotContents := mkSlot { sl_nextPosition : Z; sl_queues : list SlotIndexContents }.

(** Where a thread is: at the counter, at the lock of a queue, with that lock, or at the end with a result. *)
Inductive list_thread :=
  | PushNext (v : nat) | PushTry (v i : nat) | PushHold (v i : nat)
  | PopNext (done : list bool) (remaining : nat) | PopTry (done : list bool) (remaining i : nat) | PopHold (done : list bool) (remaining i : nat)
  | WeakPopNext | WeakPopTry (i : nat) | WeakPopHold (i : nat)
  | ConsumeLock (i : nat) | ConsumeHold (i : nat)
  | WeakConsumeNext | WeakConsumeTry (i : nat) | WeakConsumeHold (i : nat)
  | Returned (result : option nat).

Section lists.
(** The number of queues of a slot *)
Context (MAX_CONCURRENCY_PER_SLOT : nat).

(** [slotContents._nextPosition++] and the remainder of it, which is an index of an array *)
Definition next_queue (s : SlotContents) : res (SlotContents * nat) :=
  let queueIndex := Z.rem (sl_nextPosition s) (Z.of_nat MAX_CONCURRENCY_PER_SLOT) in
  if (queueIndex <? 0)%Z then Err Dangling
  else Ok (mkSlot (wrap_int (sl_nextPosition s + 1)) (sl_queues s), Z.to_nat queueIndex).

Definition put_queue (i : nat) (locked : bool) (q : list nat) (s : SlotContents) : SlotContents :=
  mkSlot (sl_nextPosition s) (<[i := mkQueue locked q]> (sl_queues s)).

(** [tryLock] *)
Definition try_queue (i : nat) (s : SlotContents) : res (SlotContents * bool) :=
  q ← get (sl_queues s !! i);
  Ok (if sq_locked q then (s, false) else (put_queue i true (sq_queue q) s, true)).

(** One step of a thread: where it is then, the slot, and the values that it hands to the consumer or to its caller. *)
Definition list_advance (T : list_thread) (s : SlotContents) : res (list_thread * SlotContents * list nat) :=
  match T with
  | PushNext v => r ← next_queue s; Ok (PushTry v r.2, r.1, [])
  | PushTry v i => r ← try_queue i s; Ok (if r.2 : bool then PushHold v i else PushNext v, r.1, [])
  | PushHold v i => q ← get (sl_queues s !! i); Ok (Returned None, put_queue i false (sq_queue q ++ [v]) s, [])
  | PopNext done remaining =>
      if decide (remaining = 0) then Ok (Returned None, s, []) else r ← next_queue s; Ok (PopTry done remaining r.2, r.1, [])
  | PopTry done remaining i =>
      d ← get (done !! i);
      if d : bool then Ok (PopNext done remaining, s, [])
      else r ← try_queue i s; Ok (if r.2 : bool then PopHold done remaining i else PopNext done remaining, r.1, [])
  | PopHold done remaining i =>
      q ← get (sl_queues s !! i);
      match sq_queue q with
      | v :: rest => Ok (Returned (Some v), put_queue i false rest s, [v])
      | [] => Ok (PopNext (<[i := true]> done) (pred remaining), put_queue i false [] s, [])
      end
  | WeakPopNext => r ← next_queue s; Ok (WeakPopTry r.2, r.1, [])
  | WeakPopTry i => r ← try_queue i s; Ok (if r.2 : bool then WeakPopHold i else Returned None, r.1, [])
  | WeakPopHold i =>
      q ← get (sl_queues s !! i);
      match sq_queue q with
      | v :: rest => Ok (Returned (Some v), put_queue i false rest s, [v])
      | [] => Ok (Returned None, s, [])
      end
  | ConsumeLock i =>
      if decide (i < MAX_CONCURRENCY_PER_SLOT) then r ← try_queue i s; Ok (if r.2 : bool then ConsumeHold i else ConsumeLock i, r.1, [])
      else Ok (Returned None, s, [])
  | ConsumeHold i =>
      q ← get (sl_queues s !! i);
      match sq_queue q with
      | v :: rest => Ok (ConsumeHold i, put_queue i true rest s, [v])
      | [] => Ok (ConsumeLock (S i), put_queue i false [] s, [])
      end
  | WeakConsumeNext => r ← next_queue s; Ok (WeakConsumeTry r.2, r.1, [])
  | WeakConsumeTry i => r ← try_queue i s; Ok (if r.2 : bool then WeakConsumeHold i else WeakConsumeNext, r.1, [])
  | WeakConsumeHold i =>
      q ← get (sl_queues s !! i);
      match sq_queue q with
      | v :: rest => Ok (WeakConsumeHold i, put_queue i true rest s, [v])
      | [] => Ok (Returned None, put_queue i false [] s, [])
      end
  | Returned _ => Err Dangling
  end.

(** The beginning of a call *)
Inductive list_call := CallPush (v : nat) | CallPop | CallWeakPop | CallConsumeAll | CallWeakConsumeAll.

Definition list_enter (c : list_call) : list_thread :=
  match c with
  | CallPush v => PushNext v
  | CallPop => PopNext (replicate MAX_CONCURRENCY_PER_SLOT false) MAX_CONCURRENCY_PER_SLOT
  | CallWeakPop => WeakPopNext
  | CallConsumeAll => ConsumeLock 0
  | CallWeakConsumeAll => WeakConsumeNext
  end.

Definition new_slot : SlotContents := mkSlot 0 (replicate MAX_CONCURRENCY_PER_SLOT (mkQueue false [])).

(** ** Runs *)

Record list_world := mkListWorld {
  lw_slot : SlotContents;
  lw_threads : gmap nat list_thread;
  lw_pushed : list nat;
  lw_consumed : list nat;
}.

Definition idle (o : option list_thread) : Prop := match o with None | Some (Returned _) => True | _ => False end.

(** The calls that the threads make are some of all. *)
Inductive list_step (calls : list_call → Prop) (w : list_world) : list_world → Prop :=
  | step_call t c :
      calls c → idle (lw_threads w !! t) →
      list_step calls w (mkListWorld (lw_slot w) (<[t := list_enter c]> (lw_threads w))
        (match c with CallPush v => lw_pushed w ++ [v] | _ => lw_pushed w end) (lw_consumed w))
  | step_advance t T T' s out :
      lw_threads w !! t = Some T → list_advance T (lw_slot w) = Ok (T', s, out) →
      list_step calls w (mkListWorld s (<[t := T']> (lw_threads w)) (lw_pushed w) (lw_consumed w ++ out)).

Definition new_world : list_world := mkListWorld new_slot ∅ [] [].
End lists.

(** ** What a step does *)

(** The queue whose lock a thread has, and the value that it is going to push *)
Definition hold (T : list_thread) : option nat :=
  match T with PushHold _ i | PopHold _ _ i | WeakPopHold i | ConsumeHold i | WeakConsumeHold i => Some i | _ => None end.

Definition in_flight (T : list_thread) : list nat :=
  match T with PushNext v | PushTry v _ | PushHold v _ => [v] | _ => [] end.

Definition contents (s : SlotContents) : list nat := concat (sq_queue <$> sl_queues s).

(** How the lock of a queue changes with the place of the thread *)
Inductive lock_change (i : nat) (T T' : list_thread) (l l' : bool) : Prop :=
  | lock_same : hold T ≠ Some i → hold T' ≠ Some i → l' = l → lock_change i T T' l l'
  | lock_taken : hold T ≠ Some i → hold T' = Some i → l = false → l' = true → lock_change i T T' l l'
  | lock_kept : hold T = Some i → hold T' = Some i → l' = true → lock_change i T T' l l'
  | lock_released : hold T = Some i → hold T' ≠ Some i → l' = false → lock_change i T T' l l'
  | lock_leaked : T = WeakPopHold i → hold T' ≠ Some i → l' = l → lock_change i T T' l l'.

Lemma put_queue_lookup i b l s j q' :
  sl_queues (put_queue i b l s) !! j = Some q' →
  (j = i ∧ q' = mkQueue b l ∧ is_Some (sl_queues s !! i)) ∨ (j ≠ i ∧ sl_queues s !! j = Some q').
Proof.
  cbn. intros [(-> & <- & Hlt)|[Hne Hj]]%list_lookup_insert_Some; [left; split_and!; [done|done|by apply lookup_lt_is_Some_2]|right; done].
Qed.

Lemma put_queue_contents i b l s q : sl_queues s !! i = Some q → ∃ R, contents s ≡ₚ sq_queue q ++ R ∧ contents (put_queue i b l s) ≡ₚ l ++ R.
Proof.
  intros Hq. apply list_elem_of_split_length in Hq as (l1 & l2 & Hs & ->). unfold contents. cbn. rewrite Hs. exists (concat (sq_queue <$> l1) ++ concat (sq_queue <$> l2)).
  rewrite insert_app_r_alt, Nat.sub_diag by lia. cbn. rewrite !fmap_app, !concat_app. cbn. split; solve_perm.
Qed.

Lemma next_queue_same n s s' i : next_queue n s = Ok (s', i) → sl_queues s' = sl_queues s.
Proof. unfold next_queue. destruct (_ <? _)%Z; [done|]. by intros [= <- <-]. Qed.

Lemma try_queue_spec i s s' b :
  try_queue i s = Ok (s', b) → contents s' ≡ₚ contents s ∧
  ∀ j q', sl_queues s' !! j = Some q' → ∃ q, sl_queues s !! j = Some q ∧
    if decide (b = true ∧ j = i) then sq_locked q = false ∧ sq_locked q' = true else sq_locked q' = sq_locked q.
Proof.
  unfold try_queue. destruct (sl_queues s !! i) as [q|] eqn:Hq; [|done]. cbn [get mbind res_bind]. destruct (sq_locked q) eqn:Hl; intros [= <- <-].
  - split; [done|]. intros j q' Hj. exists q'. split; [done|]. rewrite decide_False by naive_solver. done.
  - destruct (put_queue_contents i true (sq_queue q) s q Hq) as (R & H1 & H2). split; [by rewrite H1, H2|]. intros j q' [(-> & -> & _)|[Hne Hj]]%put_queue_lookup.
    + exists q. rewrite decide_True by done. done.
    + exists q'. rewrite decide_False by naive_solver. done.
Qed.

Lemma try_queue_length i s s' b : try_queue i s = Ok (s', b) → length (sl_queues s') = length (sl_queues s).
Proof. unfold try_queue. destruct (sl_queues s !! i) as [q|]; [|done]. cbn [get mbind res_bind]. destruct (sq_locked q); intros [= <- <-]; [done|]. cbn. by rewrite length_insert. Qed.

Section steps.
Context (N : nat).

(** A step keeps the values, and changes the locks with the place of the thread. *)
Definition step_fine (T T' : list_thread) (s s' : SlotContents) (out : list nat) : Prop :=
  in_flight T ++ contents s ≡ₚ in_flight T' ++ contents s' ++ out ∧
  (∀ j q', sl_queues s' !! j = Some q' → ∃ q, sl_queues s !! j = Some q ∧ lock_change j T T' (sq_locked q) (sq_locked q')) ∧
  length (sl_queues s') = length (sl_queues s).

Lemma next_fine T T' s r : next_queue N s = Ok r → hold T = None → hold T' = None → in_flight T' = in_flight T → step_fine T T' s r.1 [].
Proof.
  destruct r as [k i]. intros Hn HX HY Hf. pose proof (next_queue_same _ _ _ _ Hn) as E. cbn. split_and!; [unfold contents; rewrite E, Hf, app_nil_r; done| |by rewrite E].
  intros j q' Hj. rewrite E in Hj. exists q'. split; [done|]. apply lock_same; congruence.
Qed.

Lemma try_fine i T T' s r :
  try_queue i s = Ok r → hold T = None → hold T' = (if r.2 then Some i else None) → in_flight T' = in_flight T → step_fine T T' s r.1 [].
Proof.
  destruct r as [k b]. intros Ht HX HY Hf. cbn in *. destruct (try_queue_spec _ _ _ _ Ht) as [Hc Hq]. split_and!; [by rewrite Hc, Hf, app_nil_r| |by eapply try_queue_length].
  intros j q' Hj. destruct (Hq j q' Hj) as (q & Hs & Hd). exists q. split; [done|].
  case_decide as Hb; [destruct Hb as [-> ->]; apply lock_taken; [congruence|congruence|apply Hd|apply Hd]|]. apply lock_same; [congruence| |done]. rewrite HY. destruct b; [intros [= ->]; naive_solver|done].
Qed.

Lemma put_fine i b l T T' s q out :
  sl_queues s !! i = Some q → hold T = Some i → hold T' = (if b : bool then Some i else None) → in_flight T ++ sq_queue q ≡ₚ in_flight T' ++ l ++ out →
  step_fine T T' s (put_queue i b l s) out.
Proof.
  intros Hq HX HY Hf. destruct (put_queue_contents i b l s q Hq) as (R & H1 & H2). split_and!; [| |cbn; by rewrite length_insert].
  - rewrite H1, H2. transitivity ((in_flight T ++ sq_queue q) ++ R); [solve_perm|]. rewrite Hf. solve_perm.
  - intros j q' [(-> & -> & _)|[Hne Hj]]%put_queue_lookup; [exists q|exists q']; (split; [done|]).
    + destruct b; [by apply lock_kept|apply lock_released; [done|by rewrite HY|done]].
    + apply lock_same; [congruence| |done]. rewrite HY. destruct b; congruence.
Qed.

Lemma stay_fine T T' s : hold T' = None → hold T = None ∨ (∃ i, T = WeakPopHold i) → in_flight T' = in_flight T → step_fine T T' s s [].
Proof.
  intros HY HX Hf. split_and!; [by rewrite Hf, app_nil_r| |done]. intros j q Hj. exists q. split; [done|].
  destruct HX as [HX|[i ->]]; [apply lock_same; congruence|]. destruct (decide (i = j)) as [->|]; [apply lock_leaked|apply lock_same]; cbn; congruence.
Qed.

Lemma list_advance_fine T s T' s' out : list_advance N T s = Ok (T', s', out) → step_fine T T' s s' out.
Proof.
  destruct T; cbn [list_advance]; intros Ha; try done;
    repeat first [apply res_bind_ok in Ha as (? & ? & Ha)|case_decide|match type of Ha with context [match ?x with _ => _ end] => destruct x eqn:? end];
    injection Ha as <- <- <-;
    repeat match goal with H : get ?o = Ok _ |- _ => destruct o eqn:?; cbn in H; [injection H as ->|discriminate H] end;
    first [by eapply next_fine|by (eapply try_fine; [done|done|by destruct (_.2)|by destruct (_.2)])|by apply stay_fine; [done|naive_solver|done]
          |eapply put_fine; [done|done|done|]; cbn; repeat match goal with H : sq_queue _ = _ |- _ => rewrite H end; solve_perm].
Qed.
End steps.

(** ** The invariant of the runs *)

Definition holders (i : nat) (l : list list_thread) : nat := length (filter (λ T, hold T = Some i) l).

Definition weak_popping (T : list_thread) : bool := match T with WeakPopNext | WeakPopTry _ | WeakPopHold _ => true | _ => false end.

Record list_inv (exact : bool) (w : list_world) : Prop := {
  li_values : lw_pushed w ≡ₚ lw_consumed w ++ contents (lw_slot w) ++ (vals (lw_threads w) ≫= in_flight);
  li_locks i q : sl_queues (lw_slot w) !! i = Some q →
    if exact then holders i (vals (lw_threads w)) = Nat.b2n (sq_locked q) else holders i (vals (lw_threads w)) ≤ Nat.b2n (sq_locked q);
  li_exact : exact = true → Forall (λ T, weak_popping T = false) (vals (lw_threads w));
}.

Lemma holders_cons i T l : holders i (T :: l) = (if decide (hold T = Some i) then 1 else 0) + holders i l.
Proof. unfold holders. rewrite filter_cons. by case_decide. Qed.

Lemma holders_perm i l l' : l ≡ₚ l' → holders i l = holders i l'.
Proof. intros H. unfold holders. by rewrite H. Qed.

Lemma lock_change_holders i T T' l l' rest :
  lock_change i T T' l l' →
  (holders i (T :: rest) ≤ Nat.b2n l → holders i (T' :: rest) ≤ Nat.b2n l') ∧
  (weak_popping T = false → holders i (T :: rest) = Nat.b2n l → holders i (T' :: rest) = Nat.b2n l').
Proof.
  rewrite !holders_cons. intros [H1 H2 ->|H1 H2 -> ->|H1 H2 ->|H1 H2 ->| -> H2 ->]; repeat case_decide; try done; try (split; cbn; intros; lia).
  - split; destruct l; cbn; intros; lia.
  - split; destruct l; cbn; intros; lia.
Qed.

Lemma weak_popping_step N T s T' s' out : list_advance N T s = Ok (T', s', out) → weak_popping T = false → weak_popping T' = false.
Proof.
  destruct T; cbn [list_advance]; intros Ha Hw; try done;
    repeat first [apply res_bind_ok in Ha as (? & ? & Ha)|case_decide|match type of Ha with context [match ?x with _ => _ end] => destruct x eqn:? end]; by injection Ha as <- <- <-.
Qed.

Lemma list_inv_step N calls exact w w' :
  (exact = true → ¬ calls CallWeakPop) → list_inv exact w → list_step N calls w w' → list_inv exact w'.
Proof.
  intros Hcalls [H1 H2 H3] Hstep. destruct Hstep as [t c Hc Hidle|t T T' s out Ht Ha].
  - assert (∃ old, vals (lw_threads w) ≡ₚ old ++ vals (delete t (lw_threads w)) ∧ (old ≫= in_flight) = [] ∧ ∀ i rest, holders i (old ++ rest) = holders i rest) as (old & Ho & Hf & Hh).
    { destruct (lw_threads w !! t) as [T|] eqn:Ht; [|exists []; by rewrite delete_id]. exists [T]. split; [exact (vals_delete _ _ _ Ht)|]. by destruct T. }
    assert (hold (list_enter N c) = None) as Hn by (by destruct c).
    split; cbn.
    + rewrite vals_insert. cbn. rewrite Ho in H1. rewrite bind_app, Hf in H1. cbn in H1. destruct c; cbn; rewrite H1; solve_perm.
    + intros i q Hq. specialize (H2 i q Hq). rewrite (holders_perm i _ _ (vals_insert _ _ _)), holders_cons, decide_False by (by rewrite Hn). rewrite (holders_perm i _ _ Ho), Hh in H2. exact H2.
    + intros ->. specialize (H3 eq_refl). rewrite vals_insert. rewrite Ho in H3. apply Forall_app in H3 as [_ H3]. constructor; [|done]. destruct c; try done. by exfalso; apply Hcalls.
  - pose proof (vals_delete _ _ _ Ht) as Hv. destruct (list_advance_fine N _ _ _ _ _ Ha) as (F1 & F2 & _). split; cbn.
    + rewrite vals_insert. cbn. rewrite H1, Hv. cbn. transitivity (lw_consumed w ++ (in_flight T ++ contents (lw_slot w)) ++ (vals (delete t (lw_threads w)) ≫= in_flight)); [solve_perm|]. rewrite F1. solve_perm.
    + intros i q' Hq'. destruct (F2 i q' Hq') as (q & Hq & Hl). specialize (H2 i q Hq). rewrite (holders_perm i _ _ (vals_insert _ _ _)). rewrite (holders_perm i _ _ Hv) in H2.
      destruct (lock_change_holders i T T' _ _ (vals (delete t (lw_threads w))) Hl) as [L1 L2]. destruct exact; [|by apply L1]. apply L2; [|done]. specialize (H3 eq_refl). rewrite Hv in H3. by apply Forall_cons in H3 as [? _].
    + intros ->. specialize (H3 eq_refl). rewrite Hv in H3. apply Forall_cons in H3 as [H3 H3']. rewrite vals_insert. constructor; [|done]. by eapply weak_popping_step.
Qed.

Lemma list_inv_run N calls exact w :
  (exact = true → ¬ calls CallWeakPop) → rtc (list_step N calls) (new_world N) w → list_inv exact w.
Proof.
  intros Hc Hrun. assert (list_inv exact (new_world N)) as H0.
  { split; cbn.
    - clear. unfold contents. cbn. induction N as [|n IH]; cbn; [done|]. exact IH.
    - intros i q Hq. apply lookup_replicate in Hq as [-> _]. cbn. by destruct exact.
    - intros _. constructor. }
  revert H0. induction Hrun as [|x y z Hxy _ IH]; intros Hx; [done|]. apply IH. by eapply list_inv_step.
Qed.

(** A queue that is locked and that no thread has stays locked. *)
Definition leaked (i : nat) (w : list_world) : Prop :=
  ∃ q, sl_queues (lw_slot w) !! i = Some q ∧ sq_locked q = true ∧ holders i (vals (lw_threads w)) = 0.

Lemma leaked_stays N calls w w' i : leaked i w → rtc (list_step N calls) w w' → leaked i w'.
Proof.
  intros Hl Hrun. revert Hl. induction Hrun as [|x y z Hxy _ IH]; intros Hl; [done|]. apply IH. clear IH z. destruct Hl as (q & Hq & Hlock & H0). destruct Hxy as [t c Hc Hidle|t T T' s out Ht Ha].
  - exists q. split_and!; [done|done|]. cbn. rewrite (holders_perm i _ _ (vals_insert _ _ _)), holders_cons. rewrite decide_False by (by destruct c). destruct (lw_threads x !! t) as [T|] eqn:Ht; [|by rewrite delete_id].
    rewrite (holders_perm i _ _ (vals_delete _ _ _ Ht)), holders_cons in H0. lia.
  - destruct (list_advance_fine N _ _ _ _ _ Ha) as (_ & F2 & F3). destruct (lookup_lt_is_Some_2 (sl_queues s) i) as [q' Hq']; [rewrite F3; by eapply lookup_lt_Some|].
    destruct (F2 i q' Hq') as (q0 & Hq0 & Hl). rewrite Hq in Hq0. injection Hq0 as <-. rewrite (holders_perm i _ _ (vals_delete _ _ _ Ht)), holders_cons in H0. case_decide as Hh; [lia|].
    exists q'. cbn. rewrite (holders_perm i _ _ (vals_insert _ _ _)), holders_cons. destruct Hl as [L1 L2 L3|L1 L2 L3 L4|L1 L2 L3|L1 L2 L3|L1 L2 L3]; try congruence; [|by subst T].
    rewrite decide_False by done. split_and!; [done|congruence|lia].
Qed.

Module UnorderedLists.
(** C24: under every interleaving of pushes, pops and consumers on a slot: every value that was pushed is with the thread that pushes it, in one of the
    queues, or has been handed out, once; no two threads have the same queue at the same time; and as long as nobody calls
    [weak_pop] a queue is locked exactly while a thread has it, so that none is locked when no call is going on. *)
Theorem list_conserves_values N calls w :
  rtc (list_step N calls) (new_world N) w →
  lw_pushed w ≡ₚ lw_consumed w ++ contents (lw_slot w) ++ (vals (lw_threads w) ≫= in_flight) ∧
  (∀ t t' T T' i, lw_threads w !! t = Some T → lw_threads w !! t' = Some T' → hold T = Some i → hold T' = Some i → i < length (sl_queues (lw_slot w)) → t = t') ∧
  (¬ calls CallWeakPop → (∀ t, idle (lw_threads w !! t)) → Forall (λ q, sq_locked q = false) (sl_queues (lw_slot w))).
Proof.
  intros Hrun. pose proof (list_inv_run N calls false w ltac:(done) Hrun) as [H1 H2 _]. split_and!; [done| |].
  - intros t t' T T' i Ht Ht' HT HT' [q Hq]%lookup_lt_is_Some_2. destruct (decide (t = t')) as [|Hne]; [done|]. exfalso. specialize (H2 i q Hq).
    rewrite (holders_perm i _ _ (vals_delete _ _ _ Ht)), holders_cons, decide_True in H2 by done.
    assert (delete t (lw_threads w) !! t' = Some T') as Hd by (by rewrite lookup_delete_ne). rewrite (holders_perm i _ _ (vals_delete _ _ _ Hd)), holders_cons, decide_True in H2 by done.
    destruct (sq_locked q); cbn in H2; lia.
  - intros Hw Hidle. destruct (list_inv_run N calls true w ltac:(done) Hrun) as [_ H3 _]. apply Forall_lookup. intros i q Hq. specialize (H3 i q Hq).
    assert (holders i (vals (lw_threads w)) = 0) as H0.
    { unfold holders. rewrite filter_none; [done|]. intros T HT. unfold vals in HT. apply list_elem_of_fmap in HT as ([t T0] & -> & Hin%elem_of_map_to_list). specialize (Hidle t). rewrite Hin in Hidle. by destruct T0. }
    rewrite H0 in H3. by destruct (sq_locked q).
Qed.

Lemma list_conserves_values_witness :
  ∃ w, rtc (list_step 2 (λ c, c ≠ CallWeakPop)) (new_world 2) w ∧ lw_pushed w = [7] ∧ contents (lw_slot w) = [7] ∧ Forall (λ q, sq_locked q = false) (sl_queues (lw_slot w)).
Proof.
  assert (∃ w, rtc (list_step 2 (λ c, c ≠ CallWeakPop)) (new_world 2) w ∧ w = mkListWorld (mkSlot 1 [mkQueue false [7]; mkQueue false []]) {[0 := Returned None]} [7] []) as (w & Hrun & Hw).
  { eexists. split; [|reflexivity]. eapply rtc_l; [apply (step_call 2 _ _ 0 (CallPush 7)); done|]. eapply rtc_l; [eapply (step_advance 2 _ _ 0 (PushNext 7)); vm_compute; reflexivity|].
    eapply rtc_l; [eapply (step_advance 2 _ _ 0 (PushTry 7 0)); vm_compute; reflexivity|]. eapply rtc_l; [eapply (step_advance 2 _ _ 0 (PushHold 7 0)); vm_compute; reflexivity|]. apply rtc_refl. }
  exists w. destruct (list_conserves_values 2 (λ c, c ≠ CallWeakPop) w Hrun) as (_ & _ & H). split; [exact Hrun|]. split; [by rewrite Hw|]. split; [by rewrite Hw|].
  apply H; [intros Hn; by apply Hn|]. intros t. rewrite Hw. cbn. destruct (decide (t = 0)) as [->|]; [done|]. rewrite lookup_singleton_ne by done. done.
Defined.

(** A call of [weak_pop] that finds its queue empty returns without unlocking it: no thread has the queue, and it stays locked whatever the threads do,
    so that a [consume_all] never gets beyond it. *)
Theorem weak_pop_leaks_lock :
  ∃ w, rtc (list_step 2 (λ _, True)) (new_world 2) w ∧ (∀ t, idle (lw_threads w !! t)) ∧
    ∀ w', rtc (list_step 2 (λ _, True)) w w' → ∃ q, sl_queues (lw_slot w') !! 0 = Some q ∧ sq_locked q = true.
Proof.
  exists (mkListWorld (mkSlot 1 [mkQueue true []; mkQueue false []]) {[0 := Returned None]} [] []). split_and!.
  - eapply rtc_l; [apply (step_call 2 _ _ 0 CallWeakPop); done|]. eapply rtc_l; [eapply (step_advance 2 _ _ 0 WeakPopNext); vm_compute; reflexivity|].
    eapply rtc_l; [eapply (step_advance 2 _ _ 0 (WeakPopTry 0)); vm_compute; reflexivity|]. eapply rtc_l; [eapply (step_advance 2 _ _ 0 (WeakPopHold 0)); vm_compute; reflexivity|]. apply rtc_refl.
  - intros t. cbn. destruct (decide (t = 0)) as [->|]; [done|]. by rewrite lookup_singleton_ne.
  - intros w' Hrun. eapply (leaked_stays 2 _ _ w' 0) in Hrun as (q & Hq & Hl & _); [by exists q|]. eexists. split_and!; reflexivity.
Qed.

(** The counter is an [int] that wraps: after 2{^31} calls the index of the queue is negative. *)
Lemma position_wraps q : ∃ s i, next_queue 2 (mkSlot (2 ^ 31 - 1) q) = Ok (s, i) ∧
  ∃ s' i', next_queue 2 s = Ok (s', i') ∧ next_queue 2 s' = Err Dangling.
Proof. eexists _, _. split; [reflexivity|]. eexists _, _. split; reflexivity. Qed.
End UnorderedLists.
